(* ===== verification/_CoqProject ===== *)
-Q . S2P
Prelude.v
Text.v
Ellipsis.v
ShellConfig.v
Osc133.v
PtyProtocol.v
Conditions.v
Keys.v
Keymaps.v
Cursor.v
Interactive.v
Filter.v
Json.v
ShareSession.v
ShareTransport.v
Record.v
Status.v
Rmp.v
RmpWire.v
Encryption.v
SqliteStore.v
Streams.v
Packfile.v
Server.v
ApiClient.v
Log.v
Kv.v
Dotfiles.v
Scripts.v
History.v
Semantic.v
SearchIndex.v
Normalize.v
SearchLoop.v
SearchQuery.v
HistorySearch.v
HistoryStore.v
Stats.v
Import.v
AiTools.v
Permissions.v
Conversation.v
AgentFsm.v
AgentProps.v
AiDiff.v
AiFiles.v
Skills.v
AiSession.v
Sync.v
Account.v
Daemon.v
HistoryCommand.v
SearchCommand.v
Hook.v
