(* ===== verification/Prelude.v ===== *)
(** * Verification of atuin: history, records, sync and the programs around them

    atuin keeps a user's shell history, and other small data, as append-only logs of encrypted
    records that every machine of the user replicates through a server which cannot read them. Around
    that it has an interactive search, importers, a proxy that watches a terminal, an assistant that
    runs tools, and the sharing of a terminal over a hub. This library models those parts and proves
    what makes them correct.

    ** The program

    A _record_ has an id, a host, a tag and an index; the records of one host and tag are a _series_,
    numbered from 0. A store of some tag (history, key-value, aliases, variables, scripts) serializes
    an event, encrypts it and appends it to the series of its own host ([push_record]); reading back
    means decrypting and decoding every record of the tag. The local records are one SQLite table. A
    sync compares the local index of series tails with the server's, tests the key on a sample of the
    server's data, turns the difference into uploads and downloads, and runs them in pages. Runs of
    history may be bundled into _packfiles_, which a manifest record announces. The server
    authenticates a request and keeps a table of records for each user, on SQLite or on PostgreSQL.
    After a sync each store rebuilds its cache from the log: the history database, the key-value
    table, the shell configuration, the script tables. The history database is filled by importers
    too, and is what the interactive search, whose keys are configurable, queries. The proxy sits
    between a terminal and a shell: it finds the prompt markers in the output, captures commands and
    serves the screen to subscribers. The assistant is a state machine over events of a conversation;
    its tool calls are checked against permission rules, its edits of files against what it has read,
    and its sessions are kept for a later invocation. A daemon may take the history of a shell, keep
    an index of it in memory for the search, and sync in the background. A shared session keeps a
    model of its screen, numbers what it sends and feeds it, sealed, to a hub that viewers read from.
    The commands put these parts together: the hooks of a shell and of coding agents record what is
    run, others delete and count it, and those of the account fetch the tokens and the key.

    ** The files

    Paths are under [src/crates]. Every function of the code is the definition of the same name.

    - [Prelude]: [Result] and [?], a state and error monad ([stm]) for code that threads a store
      through fallible calls, 64-bit arithmetic, total orders ([Ord], [OrdLaws]) and a verified sort
      for [ORDER BY] and [sort], insert-or-ignore tables, the tactics and hints.
    - [Text]: the functions on [str] that the code uses. [Json]: the interface to [serde_json].
      [Filter] ([atuin-common/src/filter.rs], [slice.rs]): filters and sorted slices. [Ellipsis]
      ([atuin-common/src/string]): texts cut to a budget of bytes or columns.

    Records and sync:
    - [Record] ([atuin-domain/src/record]): tags, versions, records, series. [Status] (the same):
      [RecordStatus] and its [diff].
    - [Rmp] ([atuin-common/src/rmp]): the MessagePack wrappers over the interface [Rmp] to the crate;
      [RmpWire]: an instance of it.
    - [Encryption] ([atuin-common/src/encryption/paseto_v4.rs]): Module [Key] for keys and key files,
      then the envelope encryption of records, over the interface [Crypto]. Module [Toy] is an
      instance of its laws.
    - [SqliteStore] ([atuin-client/src/record/sqlite_store.rs]): Module [Store], one definition per
      method over a list of rows; [store_step] is the step relation of its mutations.
    - [Streams] ([atuin-common/src/range/chunks.rs], [futures/stream.rs]): chunked ranges and bounded
      runs of equal keys.
    - [Packfile] ([atuin-client/src/packfile]): Modules [Manifest], [Pack] and [Packer].
    - [Server] ([atuin-server], [atuin-server-database], [-sqlite], [-postgres]): the trait
      [Database] with [DatabaseLaws], Module [Handlers] proved against the laws, Modules [SqliteDb]
      and [PostgresDb], which discharge them.
    - [ApiClient] ([atuin-client/src/api_client.rs]): the paged stream of a series, with the serial
      recovery after a short page.
    - [Sync] ([atuin-client/src/record/sync/mod.rs]): the engine over the interface [Remote];
      [server_remote] is the server of [Server] behind that interface.
    - [Account] ([atuin-client/src/meta.rs], [auth.rs], [hub.rs], [login.rs], [register.rs],
      [logout.rs], [atuin/src/command/client/account]): Module [Meta] for the meta store, then
      tokens, login and the change of the key, over the interface [Service].

    Stores over the log:
    - [Log]: the shape that the event stores share, with the interface [EventCodec] and its laws.
    - [Kv] ([atuin-kv]): Modules [KvDb] and [KvStore] over [Log].
    - [ShellConfig], [Dotfiles] ([atuin-dotfiles]): the texts written for each shell, then the alias
      and variable stores, one definition over the interface [Dotfile].
    - [Scripts] ([atuin-scripts]): the script store and its two tables.
    - [History] ([atuin-client/src/history.rs], [history/builder.rs], [cmd_origin.rs] of the domain):
      entries, who ran them, and the three versions of their encoding. [HistoryStore]
      ([history/store.rs], the table of [database.rs]): Modules [HistoryDb] and [HistoryStore].
    - [Import] ([atuin-client/src/import], [atuin/src/command/client/import.rs]): a Module per
      importer, and [HistoryImporter].

    Searching:
    - [SearchQuery], [HistorySearch] ([atuin-client/src/database.rs]): the language of queries, then
      the rows of the table and every query over them.
    - [Conditions], [Keys], [Keymaps] ([search/keybindings]), [Cursor] ([search/cursor.rs]),
      [Interactive], [SearchLoop] ([search/interactive.rs]): the key bindings, the input line, the
      state with what each event does to it, and the loop.

    The daemon ([atuin-daemon]):
    - [Semantic] ([components/semantic.rs]): the commands that the proxy captured, matched with the
      entries of the history. [Normalize], [SearchIndex] ([search]): normal forms of commands, then
      the index with its scores. [Daemon] ([components], [daemon.rs], [server.rs]): the history,
      search, sync and control services and the loop that dispatches events to them; [daemon_step]
      is what may happen to it.

    Terminals:
    - [Osc133] ([atuin-pty-proxy/src/osc133.rs], [capture.rs]): markers and captured commands.
      [PtyProtocol] ([protocol.rs], [screen.rs]): frames, connections and the owner of the screen.
    - [ShareSession], [ShareTransport] ([atuin-lab-share]): the session task, then its connection to
      the hub; [sys_step] is the two of them taking turns.

    The assistant ([atuin-ai]):
    - [AiTools] ([tools]), [Permissions] ([permissions]), [Conversation] ([tui/state.rs],
      [context_window.rs], [event_serde.rs]), [AgentFsm] ([fsm]) with its theorems in [AgentProps].
    - [AiDiff] ([diff.rs]): the preview of an edit. [AiFiles] ([tools], [edit_permissions.rs],
      [snapshots.rs], the file tools of [tui/app.rs]): the file system, what was read of it, the
      snapshots, and the driver that checks and runs a tool. [Skills] ([skills], [user_context]):
      skills and context files, with the cache of the latter. [AiSession] ([store.rs], [session.rs],
      [persist.rs]): the sessions on disk; [app_step] is the application writing them.

    Commands ([atuin/src/command/client]):
    - [HistoryCommand] ([history.rs], [sync.rs], [daemon.rs]): what a shell calls before and after a
      command, with and without the daemon; [prune] and [dedup]. [SearchCommand] ([search.rs]): a
      search without the screen, and deletion by a query. [Hook] ([hook.rs], [hook]): the hooks of
      coding agents, over the interface [Recorder] that the two ways of [HistoryCommand] implement.
      [Stats] ([stats.rs], [atuin-history/src/stats.rs]): what is counted.

    ** What is shown

    - Sync. Against an honest server without packfiles, as the repository's is, that holds data of this
      key, a sync of two sides that never put two records in one place succeeds and converges, losing
      nothing on either side ([sync_converges]); a settled sync is a no-op; with a wrong key nothing changes; and whatever a
      server answers, even a dishonest one, the local table only grows ([sync_only_appends]). The
      operations of a sync are exactly the disagreements of the two indices
      ([operations_resolve_diff], [diff_exact]), and a stream of short pages misses no record
      ([stream_complete]).
    - Encryption. Records round trip, a ciphertext moved onto other metadata or read under another
      key is refused, re-encryption moves a record to the new key, a key file is never overwritten
      and every textual form of a key is read.
    - The record store. Pushes insert or ignore, every reachable table satisfies [store_wf], and the
      tails, pages and gaps that sync relies on are what they are named for; rekeying is all or
      nothing, purge and verify agree.
    - Packfiles. Unpacking undoes packing, and the packer tiles a history without holes.
    - The server. An accepted upload is served to its user, in each place the record that was first
      there, and to nobody else ([record_post_visible_and_isolated]); a refused request changes nothing, registration is followed by login, and PostgreSQL's index cache is exact in
      every reachable state.
    - The stores. What is pushed is read back ([log_reads_its_writes]); the key-value cache holds the
      last write of each key, and a rebuild restores it but for keys of dotted namespaces that meet in
      one text ([kv_cache_is_last_write]); aliases and variables refine a map and a
      shell that reads the written file gets the last value that was set
      ([sourced_variables_are_last_set]); the script tables agree with the log ([scripts_rebuild]);
      history entries of all versions are decoded; the bulk transactions of an incremental build
      amount to one record at a time, and a rebuild agrees with it where entries do not clash.
    - Import. A zsh file is imported as what zsh wrote it from, trimmed and without the lines that are
      not UTF-8 ([zsh_file_imports]), a bash file in its order, and a second
      import adds nothing.
    - Searching. A query of plain words finds, in every mode, the newest run in scope of every command
      that it asks for ([search_finds_words]),
      paging reaches every row ([pages_deliver_all]), the filter by author agrees with the authorship
      of entries. The search screen never panics, returns what is selected and runs nothing that was
      not asked for; the input line refines a text with a cursor; keymaps are the defaults with the
      user's overrides.
    - The daemon. A command that was started and ended is found by the search, in whatever order the
      loader, the events and the commands take turns, as long as no search for other shells rebuilds the
      index and the bus does not overflow ([every_command_is_found]), and is recorded in the log ([ended_command_is_recorded]);
      the index answers as a scan of the history would ([index_search_exact]); captured output is
      within its bounds, is served while it is recent, and does not depend on whether the capture or
      the entry comes first.
    - Commands. The hooks record a command once, as it was run ([hooks_record_command]), with the
      daemon as without it but for the duration 0 and the intent in the daemon's environment
      ([daemon_records_the_same]), and a request to a daemon returns whatever
      the daemon does ([daemon_requests_return]). [prune] deletes what the filters refuse
      ([prune_deletes_the_refused]), a deletion by query ends and leaves no match
      ([search_delete_removes_matches]), an agent's hook ends the entry that it started
      ([hook_ends_what_it_started]) and is installed once; statistics are exact counts
      ([stats_count_exactly]).
    - Accounts. The check of the key that ends a login takes over a key that the server confirmed, with
      the records reading as before, changes nothing where the server could not be asked, or logs out;
      the two errors on the way are stated with what they leave ([login_confirms_key]). Tokens stored
      under another name are moved, once ([resolving_repairs_tokens]); a login through the browser ends ([browser_login_returns]).
    - Terminals. Markers are found however the output is cut; a subscriber reads the session without
      gaps or is dropped, and input needs the token. The frames of a shared session are numbered and
      its keyframes show what was sent ([keyframes_show_what_was_sent]); what a viewer reads from a
      keyframe on has no gap, also over a dropped backlog ([viewers_read_without_gaps],
      [resync_never_lost]); viewers' input is never replayed ([input_is_replay_free]).
    - The assistant. Tools run only when permitted, turns complete, dangerous commands are confirmed;
      an allowed shell command is covered by rules; the context window is everything, or the longest
      tail that fits ([context_window_bounded]). An edit applies to the content that was last seen, unless
      another program put the recorded time on the file ([edits_apply_to_what_was_seen]); what a session
      changes can be restored where its snapshot could be written ([changed_files_can_be_restored]), a
      conversation that is resumed is the one that was left, but for a session of notices only
      ([conversation_survives_restart]), and a preview is a patch
      ([preview_is_a_patch]). Context gathered before a reload is never served after it
      ([cache_never_predates_reload]), the skills that are sent fit their budget
      ([skills_fit_budget]), and the output of a command stands where the command stood
      ([interpolation_replaces_commands]).
    - Texts. A text cut to a budget fits it and its parts are parts of the text ([ellipsized_fits],
      [source_index_exact]).
    - Defects. Theorems that evaluate the code on an input where it does not do what it means to, or
      what its documentation says, are beside the definitions they are about: for instance
      [manifest_blocks_rekey_and_verify], [packfile_overreaches_hole],
      [sqlite_delete_user_keeps_records], [kv_build_confuses_dotted_keys],
      [history_rebuild_drops_reimport], [stream_error_strands_tool], [fallback_misses_line_breaks],
      [leading_or_leaves_scope], [workspace_takes_siblings], [unique_pages_repeat],
      [fish_backslash_n_lost], [zsh_broken_line_joins_commands], [nu_duration_not_scaled], [reconnect_sends_past_the_gap],
      [fresh_start_loses_message], [refused_edit_takes_snapshot], [long_path_edited_without_snapshot],
      [daemon_environment_leaks_intent], [delete_it_all_spares_other_sessions],
      [carriage_returns_cut_header], [disabled_skill_is_loaded], [refused_key_is_kept],
      [unwritten_key_strands_records] and [two_processes_two_hosts].

    ** Conventions

    - Integers are [Z] with the wrap-around of a release build written out ([wrapping_add] and the
      like); an SQLite column is a signed 64-bit integer, as the code casts it. A panic is [None].
    - Third-party crates are type classes, their documented behaviour a class of laws, and each such
      class has a concrete instance, on which the witnesses run: [Rmp], [Crypto], [PackLib],
      [Argon2], [Json], [ToolLib], [ShellLib], [UnicodeLib], [UuidText], [WideChars], [SqlText],
      [SqlBuilder], [CharCase], [SearchLib], [Vt100], [Base64], [Aead], [UrlLib], [Rodeo], [Frizbee],
      [UuidBytes], [Diacritics], [Weights], [Broadcast], [DiffLib], [FilesLib], [Graphemes],
      [Columns], [JsonObject], [YamlLib], [Markdown]. So are the processes that atuin talks to,
      [Supervisor] (the daemon, its lock and its socket) and [Service] (a server). Random choices,
      clock readings and fresh ids are arguments ([Entropy], [Draw], [Probe]). The iteration order of
      a hash map is a parameter.
    - Loops that are not structural take fuel, and the lemmas about them show it is enough: the
      distance to the end of the range for [Chunks.collect], [recovery] and [pack_loop], the number
      of records expected for [upload_loop], the length of the input for parsers, [chunk_by_bounded]
      and trimming.
    - Concurrent requests whose results are consumed in order ([buffered]) are run in that order.
      The remote does not change while one stream is read. Where tasks or threads run side by side
      (the proxy's screen and its subscribers, a shared session and its transport) a step relation
      interleaves them.
    - The read pool of PostgreSQL, which may be a replica, is taken to have caught up with the primary.
    - Failures of a local database (disk, locking) are not modelled; those of the network are the
      errors of [Remote], or the sends after which a connection fails.

    ** What is not modelled

    - Drawing: the layout and widgets of the search and of the assistant, themes, the inspector's
      charts. It reads the states modelled here and changes none of them.
    - The command line: argument parsing, the printing of results and the remaining commands (the
      listing of the daemon's events, [config], [doctor], the [init] scripts of the shells).
    - HTTP: routing, middleware, TLS, the negotiation of capabilities and the event stream of the
      assistant. The requests are the interfaces above.
    - Settings (a merge of files and the environment by a crate); where one decides what an operation
      does it is an argument.
    - Opening and migrating databases; the SQL engine, whose statements are definitions over rows.
    - The execution of a shell by the assistant and the proxy, and the emulators of a terminal.
    - The importers of resh and xonsh. *)
From Stdlib Require Export ZArith Lia.
From stdpp Require Export base sorting gmap strings numbers.
From stdpp Require Export list_basics list_relations list_monad list_misc list_tactics list_numbers list.
From Stdlib Require OrderedTypeEx.


Declare Scope atuin_scope.
Delimit Scope atuin_scope with atuin.
Open Scope atuin_scope.
Open Scope Z_scope.

(** ** Fallible computations *)

(** Rust's [Result<A, E>]. *)
Inductive result (A E : Type) : Type :=
| Ok (a : A)
| Err (e : E).
Arguments Ok {A E} a.
Arguments Err {A E} e.

(** Rust's [?]: run the continuation on [Ok], return early on [Err]. *)
Definition rbind {A B E} (r : result A E) (k : A → result B E) : result B E :=
  match r with Ok a => k a | Err e => Err e end.

Notation "'let?' x ':=' r 'in' k" := (rbind r (fun x => k))
  (at level 10, x pattern, r at level 100, k at level 200) : atuin_scope.

(** [Result::map_err]. *)
Definition map_err {A E F} (f : E → F) (r : result A E) : result A F :=
  match r with Ok a => Ok a | Err e => Err (f e) end.

(** [Result::ok]. *)
Definition res_ok {A E} (r : result A E) : option A :=
  match r with Ok a => Some a | Err _ => None end.

(** [Option::ok_or]. *)
Definition ok_or {A E} (o : option A) (e : E) : result A E :=
  match o with Some a => Ok a | None => Err e end.

(** [Option::map_or]. *)
Definition map_or {A B} (d : B) (f : A → B) (o : option A) : B :=
  match o with Some a => f a | None => d end.

(** [Iterator::map(f).collect::<Result<Vec<_>, _>>()]: stops at the first error. *)
Fixpoint try_map {A B E} (f : A → result B E) (l : list A) : result (list B) E :=
  match l with
  | [] => Ok []
  | x :: l' => let? y := f x in let? ys := try_map f l' in Ok (y :: ys)
  end.

(** A state and error monad for the code that threads a store through fallible calls. *)
Definition stm (S E A : Type) : Type := S → S * result A E.

Definition st_ret {S E A} (a : A) : stm S E A := λ s, (s, Ok a).
Definition st_fail {S E A} (e : E) : stm S E A := λ s, (s, Err e).
Definition st_bind {S E A B} (m : stm S E A) (k : A → stm S E B) : stm S E B := λ s,
  match m s with
  | (s', Ok a) => k a s'
  | (s', Err e) => (s', Err e)
  end.
Definition st_lift {S E A} (r : result A E) : stm S E A := λ s, (s, r).

Notation "'let!' x ':=' m 'in' k" := (st_bind m (fun x => k))
  (at level 10, x pattern, m at level 100, k at level 200) : atuin_scope.

(** ** Machine integers *)

Definition u64_limit : Z := 2 ^ 64.
Definition i64_limit : Z := 2 ^ 63.

Definition is_u64 (z : Z) : Prop := 0 ≤ z < u64_limit.
(** Below [i64_limit] the cast of a u64 to an i64 keeps the value. *)
Definition fits_i64 (z : Z) : Prop := 0 ≤ z < i64_limit.

(** [x as i64] on a [u64] and [x as u64] on an [i64]. *)
Definition u64_as_i64 (z : Z) : Z := if z <? i64_limit then z else z - u64_limit.
Definition i64_as_u64 (z : Z) : Z := z mod u64_limit.

(** [a + b] on [u64] as the release profile computes it. *)
Definition wrapping_add (a b : Z) : Z := (a + b) mod u64_limit.

(** [u64::saturating_sub], [u64::saturating_add] and [u64::checked_sub]. *)
Definition saturating_sub (a b : Z) : Z := Z.max 0 (a - b).
Definition saturating_add (a b : Z) : Z := Z.min (u64_limit - 1) (a + b).
Definition checked_sub (a b : Z) : option Z := if b <=? a then Some (a - b) else None.

(** Big-endian bytes: [be n z] is the [n] bytes of [z], [unbe] the value of a byte string. *)
Fixpoint be (n : nat) (z : Z) : list Z :=
  match n with O => [] | S n' => be n' (z / 256) ++ [z mod 256] end.
Definition unbe (l : list Z) : Z := foldl (λ a b, a * 256 + b) 0 l.

(** ** Total orders *)

(** Rust's [Ord::cmp]. *)
Class Ord (A : Type) := cmp : A → A → comparison.

Class OrdLaws (A : Type) `{Ord A} := {
  cmp_eq_iff (x y : A) : cmp x y = Eq ↔ x = y;
  cmp_opp (x y : A) : cmp y x = CompOpp (cmp x y);
  cmp_lt_trans (x y z : A) : cmp x y = Lt → cmp y z = Lt → cmp x z = Lt
}.

(** [Ordering::then_with] *)
Definition then_cmp (c d : comparison) : comparison :=
  match c with Eq => d | _ => c end.

#[export] Instance ord_Z : Ord Z := Z.compare.
#[export] Instance ord_N : Ord N := N.compare.
#[export] Instance ord_string : Ord string := String.compare.
#[export] Instance ord_prod {A B} `{Ord A, Ord B} : Ord (A * B) := λ p q,
  then_cmp (cmp p.1 q.1) (cmp p.2 q.2).
(** [#[derive(Ord)]] on [Option]: [None] is least. *)
#[export] Instance ord_option {A} `{Ord A} : Ord (option A) := λ x y,
  match x, y with
  | None, None => Eq
  | None, Some _ => Lt
  | Some _, None => Gt
  | Some a, Some b => cmp a b
  end.
(** An order read off a key ([sort_by_key], or a [derive(Ord)] seen as a tuple of fields). *)
Definition ord_on {A B} `{Ord B} (key : A → B) : Ord A := λ x y, cmp (key x) (key y).

Definition leb {A} `{Ord A} (x y : A) : bool :=
  match cmp x y with Gt => false | _ => true end.

(** ** Stable sorting *)

(** The slice sorts of Rust's standard library ([sort], [sort_by_key]) and an SQL [order by] are
    modelled by a stable insertion sort. *)
Fixpoint insert_by {A} (le : A → A → bool) (x : A) (l : list A) : list A :=
  match l with
  | [] => [x]
  | y :: l' => if le x y then x :: l else y :: insert_by le x l'
  end.

Definition sort_by {A} (le : A → A → bool) (l : list A) : list A :=
  foldr (insert_by le) [] l.

Definition sort_by_key {A K} `{Ord K} (key : A → K) : list A → list A :=
  sort_by (λ x y, leb (key x) (key y)).

(** An SQL [limit n]: a negative limit is no limit. *)
Definition sql_limit {A} (n : Z) (l : list A) : list A :=
  if n <? 0 then l else take (Z.to_nat n) l.

(** ** Automation *)

(** Linear arithmetic over the machine widths. *)
Ltac wrap_lia := unfold is_u64, fits_i64, i64_limit, u64_limit in *; lia.

(** Inverts equations between results, options and pairs and substitutes. *)
Ltac inv_res :=
  repeat match goal with
    | H : Ok _ = Ok _ |- _ => injection H as H; subst
    | H : Err _ = Err _ |- _ => injection H as H; subst
    | H : Ok _ = Err _ |- _ => discriminate H
    | H : Err _ = Ok _ |- _ => discriminate H
    | H1 : ?x = Ok _, H2 : ?x = Ok _ |- _ => rewrite H1 in H2
    | H1 : ?x = Ok _, H2 : ?x = Err _ |- _ => rewrite H1 in H2
    end; simplify_eq/=.

(** Case analysis on a [let?] in a hypothesis. *)
Ltac case_res H :=
  match type of H with
  | context [rbind (map_err _ ?r) _] =>
      let E := fresh "E" in destruct r eqn:E; cbn [rbind map_err] in H; try discriminate H
  | context [rbind ?r _] => let E := fresh "E" in destruct r eqn:E; cbn [rbind map_err] in H; try discriminate H
  end.

Create HintDb atuin.
Create Rewrite HintDb atuin.
Create Rewrite HintDb rmp.

(** ** Lemmas on results *)

Lemma rbind_Ok {A B E} (r : result A E) (k : A → result B E) b :
  rbind r k = Ok b ↔ ∃ a, r = Ok a ∧ k a = Ok b.
Proof. destruct r; simpl; split; [eauto | by intros (?&[= ->]&?) | done | by intros (?&?&?)]. Qed.

Section results.
Context {A B E : Type}.
Implicit Types (f : A → result B E).

Lemma try_map_Ok_Forall2 f (l : list A) (ys : list B) :
  try_map f l = Ok ys ↔ Forall2 (λ x y, f x = Ok y) l ys.
Proof.
  revert ys; induction l as [|x l IH]; intros ys; simpl.
  - split; [intros [= <-]; constructor | inversion 1; done].
  - rewrite rbind_Ok. split.
    + intros (y & Hx & (ys' & Hl & [= <-])%rbind_Ok). constructor; [done|]. by apply IH.
    + inversion 1 as [|? y ? ys' Hx Hl]; subst. exists y. split; [done|]. simpl.
      apply IH in Hl. by rewrite Hl.
Qed.

Lemma try_map_pure f (g : A → B) (l : list A) :
  (∀ x, x ∈ l → f x = Ok (g x)) → try_map f l = Ok (g <$> l).
Proof.
  intros Hf. apply try_map_Ok_Forall2. apply Forall2_fmap_r.
  apply Forall_Forall2_diag, Forall_forall, Hf.
Qed.

Lemma try_map_Err f (l : list A) x e :
  x ∈ l → f x = Err e → ∃ e', try_map f l = Err e'.
Proof.
  intros Hx Hf. induction Hx as [l|y z l Hin IH]; simpl.
  - rewrite Hf. by eexists.
  - destruct (f z); simpl; [|by eexists]. destruct IH as [e' ->]; [done|]. by eexists.
Qed.
End results.

(** ** Lemmas on machine integers *)

Section machine.
Implicit Types z : Z.

Lemma u64_as_i64_fits z : fits_i64 z → u64_as_i64 z = z.
Proof. unfold fits_i64, u64_as_i64. destruct (Z.ltb_spec z i64_limit); lia. Qed.

Lemma i64_as_u64_fits z : fits_i64 z → i64_as_u64 z = z.
Proof.
  unfold fits_i64, i64_as_u64, i64_limit, u64_limit. intros.
  apply Z.mod_small. lia.
Qed.

(** The casts the stores apply on the way in and out are inverse on every u64. *)
Lemma i64_u64_roundtrip z : is_u64 z → i64_as_u64 (u64_as_i64 z) = z.
Proof.
  unfold is_u64, i64_as_u64, u64_as_i64. intros Hz.
  destruct (Z.ltb_spec z i64_limit); [apply Z.mod_small; lia|].
  replace (z - u64_limit) with (z + (-1) * u64_limit) by lia.
  rewrite Z.mod_add by (unfold u64_limit; lia). apply Z.mod_small; lia.
Qed.

Lemma i64_as_u64_range z : is_u64 (i64_as_u64 z).
Proof. apply Z.mod_pos_bound. unfold u64_limit; lia. Qed.

Lemma u64_as_i64_inj z1 z2 : is_u64 z1 → is_u64 z2 → u64_as_i64 z1 = u64_as_i64 z2 → z1 = z2.
Proof.
  intros H1 H2 He. by rewrite <- (i64_u64_roundtrip z1 H1), He, i64_u64_roundtrip.
Qed.

Lemma fits_is_u64 z : fits_i64 z → is_u64 z.
Proof. unfold fits_i64, is_u64, i64_limit, u64_limit. lia. Qed.

(** Below the limit of a u64 an addition is exact; [wrap_lia] discharges the side condition. *)
Lemma wrapping_add_exact a b : is_u64 (a + b) → wrapping_add a b = a + b.
Proof. apply Z.mod_small. Qed.

Lemma checked_sub_Some (a b c : Z) : checked_sub a b = Some c ↔ b ≤ a ∧ c = a - b.
Proof. unfold checked_sub. destruct (Z.leb_spec b a); split; [intros [= <-]; lia | intros [? ->]; done | done | lia]. Qed.

Lemma length_be n z : length (be n z) = n.
Proof. revert z; induction n as [|n IH]; intros z; simpl; [done|]. rewrite length_app, IH. simpl. lia. Qed.

Lemma unbe_be n z : 0 ≤ z < 256 ^ Z.of_nat n → unbe (be n z) = z.
Proof.
  revert z; induction n as [|n IH]; intros z Hz; simpl.
  - unfold unbe; simpl. simpl in Hz. lia.
  - unfold unbe in *. rewrite foldl_app. simpl. rewrite IH.
    + pose proof (Z.div_mod z 256). lia.
    + rewrite Nat2Z.inj_succ, Z.pow_succ_r in Hz by lia. split; [apply Z.div_pos; lia|].
      apply Z.div_lt_upper_bound; lia.
Qed.
End machine.

#[export] Hint Resolve fits_is_u64 i64_as_u64_range : atuin.
#[export] Hint Rewrite @i64_u64_roundtrip @u64_as_i64_fits @i64_as_u64_fits
  using (eauto with atuin) : atuin.

(** ** Lemmas on orders *)

#[export] Instance ord_Z_laws : OrdLaws Z.
Proof.
  split; unfold cmp, ord_Z.
  - intros; apply Z.compare_eq_iff.
  - intros; apply Z.compare_antisym.
  - intros x y z; rewrite !Z.compare_lt_iff; lia.
Qed.

#[export] Instance ord_N_laws : OrdLaws N.
Proof.
  split; unfold cmp, ord_N.
  - intros; apply N.compare_eq_iff.
  - intros; apply N.compare_antisym.
  - intros x y z; rewrite !N.compare_lt_iff; lia.
Qed.

#[export] Instance ord_string_laws : OrdLaws string.
Proof.
  split; unfold cmp, ord_string; intros.
  - apply OrderedTypeEx.String_as_OT.cmp_eq.
  - apply String.compare_antisym.
  - apply OrderedTypeEx.String_as_OT.cmp_lt. apply OrderedTypeEx.String_as_OT.lt_trans with y; by apply OrderedTypeEx.String_as_OT.cmp_lt.
Qed.

Section ord_laws.
Context {A : Type} `{OrdLaws A}.
Implicit Types x y z : A.

Lemma cmp_refl x : cmp x x = Eq.
Proof. by apply cmp_eq_iff. Qed.

Lemma leb_refl x : leb x x = true.
Proof. unfold leb. by rewrite cmp_refl. Qed.

Lemma leb_total x y : leb x y = true ∨ leb y x = true.
Proof. unfold leb. rewrite (cmp_opp x y). destruct (cmp x y); simpl; auto. Qed.

Lemma leb_antisym x y : leb x y = true → leb y x = true → x = y.
Proof.
  unfold leb. rewrite (cmp_opp x y). destruct (cmp x y) eqn:E; simpl; try done.
  intros _ _. by apply cmp_eq_iff.
Qed.

Lemma leb_trans x y z : leb x y = true → leb y z = true → leb x z = true.
Proof.
  unfold leb. destruct (cmp x y) eqn:E1; try done; destruct (cmp y z) eqn:E2; try done.
  all: try (apply cmp_eq_iff in E1; subst); try (apply cmp_eq_iff in E2; subst).
  all: try (by rewrite ?cmp_refl, ?E1, ?E2). by rewrite (cmp_lt_trans _ _ _ E1 E2).
Qed.
End ord_laws.

#[export] Instance ord_prod_laws {A B} `{OrdLaws A, OrdLaws B} : OrdLaws (A * B).
Proof.
  split; unfold cmp, ord_prod.
  - intros [a b] [a' b']; simpl. unfold then_cmp.
    destruct (cmp a a') eqn:E; simpl.
    + apply cmp_eq_iff in E as ->. rewrite cmp_eq_iff. naive_solver.
    + split; [done|]. intros [= -> ->]. by rewrite cmp_refl in E.
    + split; [done|]. intros [= -> ->]. by rewrite cmp_refl in E.
  - intros [a b] [a' b']; simpl. rewrite (cmp_opp a a'). unfold then_cmp.
    destruct (cmp a a'); simpl; [apply cmp_opp|done|done].
  - intros [a b] [a' b'] [a'' b'']; simpl. unfold then_cmp.
    destruct (cmp a a') eqn:E1; try done; destruct (cmp a' a'') eqn:E2; try done.
    + apply cmp_eq_iff in E1 as ->. rewrite E2. apply cmp_lt_trans.
    + apply cmp_eq_iff in E1 as ->. by rewrite E2.
    + apply cmp_eq_iff in E2 as ->. by rewrite E1.
    + by rewrite (cmp_lt_trans _ _ _ E1 E2).
Qed.

#[export] Instance ord_option_laws {A} `{OrdLaws A} : OrdLaws (option A).
Proof.
  split; unfold cmp, ord_option.
  - intros [x|] [y|]; rewrite ?cmp_eq_iff; naive_solver.
  - intros [x|] [y|]; try done. apply cmp_opp.
  - intros [x|] [y|] [z|]; try done. apply cmp_lt_trans.
Qed.

(** A [derive(Ord)] seen through an injective tuple of its fields. *)
Lemma ord_on_laws {A B} `{OrdLaws B} (key : A → B) :
  Inj (=) (=) key → OrdLaws A (H := ord_on key).
Proof.
  intros Hinj. split; unfold cmp, ord_on.
  - intros x y. rewrite cmp_eq_iff. split; [apply Hinj | by intros ->].
  - intros; apply cmp_opp.
  - intros x y z; apply cmp_lt_trans.
Qed.

(** ** Lemmas on the stable sort *)

Section sort_by.
Context {A : Type} (le : A → A → bool).
Implicit Types (x y : A) (l : list A).

Lemma insert_by_perm x l : insert_by le x l ≡ₚ x :: l.
Proof.
  induction l as [|y l IH]; simpl; [done|]. destruct (le x y); [done|].
  rewrite IH. apply Permutation_swap.
Qed.

Lemma sort_by_perm l : sort_by le l ≡ₚ l.
Proof.
  induction l as [|x l IH]; simpl; [done|]. by rewrite insert_by_perm, IH.
Qed.

Lemma elem_of_sort_by x l : x ∈ sort_by le l ↔ x ∈ l.
Proof. by rewrite sort_by_perm. Qed.

Lemma length_sort_by l : length (sort_by le l) = length l.
Proof. apply Permutation_length, sort_by_perm. Qed.

Lemma insert_by_id x l : (∀ y, y ∈ l → le x y = true) → insert_by le x l = x :: l.
Proof. destruct l as [|y l]; simpl; [done|]. intros Hy. rewrite Hy; [done|]. left. Qed.

Lemma sort_by_sorted_id l : StronglySorted (λ x y, le x y = true) l → sort_by le l = l.
Proof.
  induction 1 as [|x l Hs IH Hall]; simpl; [done|]. rewrite IH.
  apply insert_by_id. intros y Hy. eapply Forall_forall in Hall; done.
Qed.

Context (le_total : ∀ x y, le x y = true ∨ le y x = true).
Context (le_trans : ∀ x y z, le x y = true → le y z = true → le x z = true).

Lemma insert_by_sorted x l :
  StronglySorted (λ x y, le x y = true) l →
  StronglySorted (λ x y, le x y = true) (insert_by le x l).
Proof.
  induction 1 as [|y l Hs IH Hall]; simpl; [by repeat constructor|].
  destruct (le x y) eqn:Hxy.
  - constructor; [by constructor|]. constructor; [done|].
    eapply Forall_impl; [exact Hall|]. eauto.
  - constructor; [done|]. rewrite insert_by_perm. constructor; [|done].
    destruct (le_total x y); [congruence|done].
Qed.

Lemma sort_by_sorted l : StronglySorted (λ x y, le x y = true) (sort_by le l).
Proof.
  induction l as [|x l IH]; simpl; [constructor|]. by apply insert_by_sorted.
Qed.
End sort_by.

Lemma sort_by_key_sorted {A K} `{OrdLaws K} (key : A → K) (l : list A) :
  StronglySorted (λ x y, leb (key x) (key y) = true) (sort_by_key key l).
Proof.
  apply sort_by_sorted; intros; [apply leb_total | by eapply leb_trans].
Qed.

(** Sorting by an injective key forgets the order of the input: this is why a [HashMap]'s
    iteration order does not show in a sorted result. *)
Lemma sort_by_key_unique_on {A K} `{OrdLaws K} (key : A → K) (l1 l2 : list A) :
  (∀ x y, x ∈ l1 → y ∈ l1 → key x = key y → x = y) → l1 ≡ₚ l2 → sort_by_key key l1 = sort_by_key key l2.
Proof.
  intros Hinj Hp.
  eapply StronglySorted_unique_strong with (R := λ x y, leb (key x) (key y) = true).
  - intros x y Hx Hy Hxy Hyx. unfold sort_by_key in Hx, Hy. rewrite sort_by_perm in Hx. rewrite sort_by_perm, <- Hp in Hy.
    apply Hinj; [done..|]. by apply leb_antisym.
  - apply sort_by_key_sorted.
  - apply sort_by_key_sorted.
  - unfold sort_by_key. by rewrite !sort_by_perm.
Qed.

Lemma sort_by_key_unique {A K} `{OrdLaws K} (key : A → K) (l1 l2 : list A) :
  Inj (=) (=) key → l1 ≡ₚ l2 → sort_by_key key l1 = sort_by_key key l2.
Proof. intros Hinj. apply sort_by_key_unique_on. intros x y _ _. apply Hinj. Qed.

(** ** Lemmas on lists *)

Section lists.
Context {A : Type}.
Implicit Types (x y : A) (l : list A).

(** A [fetch_one] whose condition at most one row satisfies. *)
Lemma head_filter_unique (P : A → Prop) `{∀ x, Decision (P x)} l x :
  (∀ y z, y ∈ l → z ∈ l → P y → P z → y = z) →
  head (filter P l) = Some x ↔ x ∈ l ∧ P x.
Proof.
  intros Hu. split.
  - intros Hh. apply head_Some_elem_of, list_elem_of_filter in Hh. tauto.
  - intros [Hin HP]. assert (x ∈ filter P l) as Hf by (by apply list_elem_of_filter).
    destruct (filter P l) as [|y l'] eqn:E; [by apply not_elem_of_nil in Hf|]. simpl. f_equal.
    assert (y ∈ filter P l) as [??]%list_elem_of_filter by (rewrite E; left). by apply Hu.
Qed.

Lemma head_None l : head l = None ↔ l = [].
Proof. by destruct l. Qed.

Lemma NoDup_fmap_eq {B} (f : A → B) l x y : NoDup (f <$> l) → x ∈ l → y ∈ l → f x = f y → x = y.
Proof.
  induction l as [|z l IH]; [by intros _ ?%not_elem_of_nil|].
  rewrite fmap_cons, NoDup_cons, !elem_of_cons. intros [Hz Hnd] [->|Hx] [->|Hy] Hf; [done| | |by apply IH].
  - destruct Hz. rewrite Hf. by apply list_elem_of_fmap_2.
  - destruct Hz. rewrite <- Hf. by apply list_elem_of_fmap_2.
Qed.

Lemma NoDup_fmap_filter {B} (f : A → B) (P : A → Prop) `{∀ x, Decision (P x)} l :
  NoDup (f <$> l) → NoDup (f <$> filter P l).
Proof.
  intros Hnd. eapply sublist_NoDup; [exact Hnd|]. apply fmap_sublist, sublist_filter.
Qed.

Lemma existsb_false (p : A → bool) l : existsb p l = false ↔ ∀ x, x ∈ l → p x = false.
Proof.
  induction l as [|y l IH]; simpl.
  - split; [by intros _ ? ?%not_elem_of_nil|done].
  - rewrite orb_false_iff, IH. split.
    + intros [Hy Hl] x [->|Hx]%elem_of_cons; auto.
    + intros Hx. split; [apply Hx; left|]. intros. apply Hx. by right.
Qed.

Lemma existsb_true (p : A → bool) l : existsb p l = true ↔ ∃ x, x ∈ l ∧ p x = true.
Proof.
  rewrite existsb_exists. by setoid_rewrite list_elem_of_In.
Qed.

(** The head of a list sorted by key is a least element. *)
Lemma head_sort_by_key {K} `{OrdLaws K} (key : A → K) l x :
  head (sort_by_key key l) = Some x → x ∈ l ∧ ∀ y, y ∈ l → leb (key x) (key y) = true.
Proof.
  intros Hh. pose proof (sort_by_key_sorted key l) as Hs.
  destruct (sort_by_key key l) as [|z l'] eqn:E; [done|]. simpl in Hh. simplify_eq.
  assert (∀ y, y ∈ l ↔ y ∈ x :: l') as Hin.
  { intros y. rewrite <- E. unfold sort_by_key. by rewrite elem_of_sort_by. }
  split; [apply Hin; left|]. intros y [->|Hy]%Hin%elem_of_cons; [apply leb_refl|].
  apply StronglySorted_inv in Hs as [_ Hs]. eapply Forall_forall in Hs; done.
Qed.
End lists.

Lemma Forall2_impl_elem {A B} (P Q : A → B → Prop) l k :
  Forall2 P l k → (∀ x y, x ∈ l → y ∈ k → P x y → Q x y) → Forall2 Q l k.
Proof.
  induction 1 as [|x y l k Hxy Hl IH]; intros HQ; constructor.
  - apply HQ; [left|left|done].
  - apply IH. intros. apply HQ; [by right|by right|done].
Qed.

Lemma Forall2_elem_r {A B} (P : A → B → Prop) l k y : Forall2 P l k → y ∈ k → ∃ x, x ∈ l ∧ P x y.
Proof.
  induction 1 as [|x z l k Hxz Hl IH]; [by intros ?%not_elem_of_nil|].
  intros [->|Hy]%elem_of_cons; [exists x; split; [left|done]|].
  destruct (IH Hy) as (x' & Hx' & HP). exists x'. split; [by right|done].
Qed.

Lemma leb_Z (x y : Z) : leb x y = true ↔ x ≤ y.
Proof.
  unfold leb, cmp, ord_Z. destruct (Z.compare_spec x y); split; intros; try done; lia.
Qed.

(** A strictly increasing list that starts at or above [c] and holds [n] consecutive integers from
    [c] begins with exactly those. *)
Lemma sorted_take_seqZ (l : list Z) (c : Z) (n : nat) :
  StronglySorted Z.lt l → (∀ x, x ∈ l → c ≤ x) →
  (∀ i, c ≤ i < c + Z.of_nat n → i ∈ l) → take n l = seqZ c (Z.of_nat n).
Proof.
  revert l c; induction n as [|n IH]; intros l c Hs Hge Hin; [done|].
  rewrite seqZ_cons by lia. destruct l as [|x l].
  { exfalso. apply (not_elem_of_nil c). apply Hin. lia. }
  assert (x = c) as ->.
  { assert (c ∈ x :: l) as [->|Hc]%elem_of_cons by (apply Hin; lia); [done|].
    apply StronglySorted_inv in Hs as [_ Hs]. eapply Forall_forall in Hs; [|exact Hc].
    assert (c ≤ x) by (apply Hge; left). lia. }
  apply StronglySorted_inv in Hs as [Hs Hall]. simpl. f_equal.
  replace (Z.pred (Z.of_nat (S n))) with (Z.of_nat n) by lia. apply IH; [done| |].
  - intros y Hy. eapply Forall_forall in Hall; [|exact Hy]. lia.
  - intros i Hi. assert (i ∈ c :: l) as [->|Hc]%elem_of_cons by (apply Hin; lia); [lia|done].
Qed.

Lemma StronglySorted_fmap {A B} (R : B → B → Prop) (f : A → B) l :
  StronglySorted (λ x y, R (f x) (f y)) l → StronglySorted R (f <$> l).
Proof.
  induction 1 as [|x l Hs IH Hall]; [constructor|]. rewrite fmap_cons. constructor; [done|].
  apply Forall_fmap. exact Hall.
Qed.

Lemma last_seqZ c n : 0 < n → last (seqZ c n) = Some (c + n - 1).
Proof.
  intros Hn. rewrite last_lookup, length_seqZ.
  apply lookup_seqZ. lia.
Qed.

(** An [omap] that keeps distinct keys apart keeps a list without repetition of keys. *)
Lemma NoDup_fmap_omap {A B K L} (f : A → option B) (ka : A → K) (kb : B → L) (l : list A) :
  (∀ x y b c, f x = Some b → f y = Some c → kb b = kb c → ka x = ka y) →
  NoDup (ka <$> l) → NoDup (kb <$> omap f l).
Proof.
  intros Hf. induction l as [|x l IH]; [constructor|]. rewrite fmap_cons. intros [Hx Hnd]%NoDup_cons.
  simpl. destruct (f x) as [b|] eqn:E; [|by apply IH]. rewrite fmap_cons. constructor; [|by apply IH].
  intros (c & Hc & (y & Hy & Hfy)%list_elem_of_omap)%list_elem_of_fmap.
  apply Hx. rewrite (Hf _ _ _ _ E Hfy Hc). by apply list_elem_of_fmap_2.
Qed.

Lemma sorted_lookup {A} (R : A → A → Prop) (l : list A) i j x y :
  StronglySorted R l → l !! i = Some x → l !! j = Some y → (i < j)%nat → R x y.
Proof.
  intros Hs. revert i j. induction Hs as [|z l Hs IH Hall]; intros [|i] [|j] Hi Hj Hlt; try done; try lia.
  - simpl in *. simplify_eq. eapply Forall_forall in Hall; [exact Hall|]. by eapply list_elem_of_lookup_2.
  - apply (IH i j); [done..|lia].
Qed.

(** An element that sorts after all others stays last. *)
Lemma sort_by_snoc {A} (le : A → A → bool) (l : list A) x :
  (∀ y, y ∈ l → le y x = true) → sort_by le (l ++ [x]) = sort_by le l ++ [x].
Proof.
  assert (∀ s y, le y x = true → insert_by le y (s ++ [x]) = insert_by le y s ++ [x]) as Hins.
  { intros s y Hy. induction s as [|z s IH]; simpl; [by rewrite Hy|]. destruct (le y z); [done|]. by rewrite IH. }
  induction l as [|y l IH]; intros Hl; [done|]. cbn [sort_by app foldr]. unfold sort_by in IH.
  rewrite IH by (intros; apply Hl; by right). apply Hins, Hl. left.
Qed.

(** Running a bind whose first part succeeds. *)
Lemma st_bind_ok {S E A B} (m : stm S E A) (k : A → stm S E B) s s' a :
  m s = (s', Ok a) → st_bind m k s = k a s'.
Proof. intros Hm. unfold st_bind. by rewrite Hm. Qed.
