(* ===== verification/Text.v ===== *)
(** * String functions of the Rust standard library

    A Rust [str] is a Rocq [string] of its UTF-8 bytes. The functions here are the ones the modelled
    code calls: trimming, splitting and searching. UTF-8 is self-synchronising, so that a pattern is
    found at a character boundary exactly where its bytes are found. *)
From S2P Require Import Prelude.

(** ** Definitions *)

Definition chars (s : string) : list Ascii.ascii := String.list_ascii_of_string s.
Definition unchars (l : list Ascii.ascii) : string := String.string_of_list_ascii l.
Definition byte (z : Z) : Ascii.ascii := Ascii.ascii_of_nat (Z.to_nat z).
Definition code (c : Ascii.ascii) : Z := Z.of_nat (Ascii.nat_of_ascii c).

Fixpoint strip_prefix_l {A} `{EqDecision A} (p l : list A) : option (list A) :=
  match p, l with
  | [], _ => Some l
  | a :: p', b :: l' => if decide (a = b) then strip_prefix_l p' l' else None
  | _ :: _, [] => None
  end.

(** [str::strip_prefix] and [str::starts_with]. *)
Definition strip_prefix (p s : string) : option string :=
  unchars <$> strip_prefix_l (chars p) (chars s).
Definition starts_with (p s : string) : bool := bool_decide (is_Some (strip_prefix p s)).

(** [str::strip_suffix] and [str::ends_with]. *)
Definition strip_suffix (p s : string) : option string :=
  (λ l, unchars (reverse l)) <$> strip_prefix_l (reverse (chars p)) (reverse (chars s)).
Definition ends_with (p s : string) : bool := bool_decide (is_Some (strip_suffix p s)).

(** The UTF-8 encodings of the characters with Unicode's [White_Space] property. *)
Definition white_space : list (list Ascii.ascii) :=
  map (map byte)
    ([[9]; [10]; [11]; [12]; [13]; [32]; [194; 133]; [194; 160]; [225; 154; 128]]
     ++ map (λ k, [226; 128; 128 + k]) (seqZ 0 11)
     ++ [[226; 128; 168]; [226; 128; 169]; [226; 128; 175]; [226; 129; 159]; [227; 128; 128]]).

(** The first pattern that is a prefix, removed. *)
Fixpoint strip_any {A} `{EqDecision A} (pats : list (list A)) (l : list A) : option (list A) :=
  match pats with
  | [] => None
  | p :: pats' => match strip_prefix_l p l with Some l' => Some l' | None => strip_any pats' l end
  end.

(** Every pattern is non-empty, so the length of the text is enough fuel. *)
Fixpoint strip_all {A} `{EqDecision A} (fuel : nat) (pats : list (list A)) (l : list A) : list A :=
  match fuel with
  | O => l
  | S fuel' => match strip_any pats l with Some l' => strip_all fuel' pats l' | None => l end
  end.

(** [str::trim_start], [str::trim_end], [str::trim]. *)
Definition trim_start (s : string) : string :=
  unchars (strip_all (String.length s) white_space (chars s)).
Definition trim_end (s : string) : string :=
  unchars (reverse (strip_all (String.length s) (reverse <$> white_space) (reverse (chars s)))).
Definition trim (s : string) : string := trim_end (trim_start s).

(** [str::split_once] with an ASCII character. *)
Fixpoint split_once_l (c : Ascii.ascii) (l : list Ascii.ascii)
    : option (list Ascii.ascii * list Ascii.ascii) :=
  match l with
  | [] => None
  | a :: l' => if decide (a = c) then Some ([], l')
               else match split_once_l c l' with Some (x, y) => Some (a :: x, y) | None => None end
  end.
Definition split_once (c : Ascii.ascii) (s : string) : option (string * string) :=
  match split_once_l c (chars s) with Some (x, y) => Some (unchars x, unchars y) | None => None end.

(** [str::contains] with an ASCII character. *)
Definition contains_char (c : Ascii.ascii) (s : string) : bool := bool_decide (c ∈ chars s).

(** [str::split] with an ASCII character. *)
Fixpoint split_l {A} `{EqDecision A} (c : A) (l : list A) : list (list A) :=
  match l with
  | [] => [[]]
  | a :: l' =>
      if decide (a = c) then [] :: split_l c l'
      else match split_l c l' with [] => [[a]] | w :: ws => (a :: w) :: ws end
  end.
Definition split_char (c : Ascii.ascii) (s : string) : list string := unchars <$> split_l c (chars s).

(** [str::split_whitespace]: [cur] is the word being read, reversed. Every step consumes text, so
    its length is enough fuel. *)
Fixpoint split_ws (fuel : nat) (cur l : list Ascii.ascii) : list (list Ascii.ascii) :=
  let flush := match cur with [] => [] | _ :: _ => [reverse cur] end in
  match fuel, l with
  | S fuel', c :: l' =>
      match strip_any white_space l with
      | Some rest => flush ++ split_ws fuel' [] rest
      | None => split_ws fuel' (c :: cur) l'
      end
  | _, _ => flush
  end.
Definition split_whitespace (s : string) : list string :=
  unchars <$> split_ws (String.length s) [] (chars s).

(** [str::replace] of one ASCII character by another. *)
Definition replace_char (a b : Ascii.ascii) (s : string) : string :=
  unchars ((λ c, if decide (c = a) then b else c) <$> chars s).

(** [str::lines]: split at line feeds, a final empty line dropped, a carriage return before each
    line feed removed. *)
Definition line_feed : Ascii.ascii := byte 10.
Definition strip_cr (l : list Ascii.ascii) : list Ascii.ascii :=
  match reverse l with c :: l' => if decide (c = byte 13) then reverse l' else l | [] => l end.
Fixpoint lines_l (ls : list (list Ascii.ascii)) : list (list Ascii.ascii) :=
  match ls with
  | [] => []
  | [last] => match last with [] => [] | _ :: _ => [last] end
  | l :: ls' => strip_cr l :: lines_l ls'
  end.
Definition lines (s : string) : list string := unchars <$> lines_l (split_l line_feed (chars s)).

(** ** Unix paths ([std::path])

    A path is its text. [segments] are its components without the root: empty segments and dots are
    not components, except a dot that begins a relative path. *)

Definition slash : Ascii.ascii := byte 47.
Definition is_absolute (p : string) : bool := starts_with "/" p.
Definition is_relative (p : string) : bool := negb (is_absolute p).

(** [Path::join] *)
Definition path_join (base p : string) : string :=
  if is_absolute p then p
  else if bool_decide (base = "") || ends_with "/" base then base +:+ p
  else base +:+ "/" +:+ p.

Definition trivial_segment (s : string) : bool := bool_decide (s = "") || bool_decide (s = ".").

(** The raw segments of a path after its first [n] components, without the trivial ones around. *)
Fixpoint drop_segments (n : nat) (l : list string) : option (list string) :=
  match l with
  | [] => match n with O => Some [] | S _ => None end
  | s :: l' => if trivial_segment s then drop_segments n l'
               else match n with O => Some l | S n' => drop_segments n' l' end
  end.
Definition trim_segments (l : list string) : list string :=
  reverse (default [] (drop_segments 0 (reverse l))).

Definition segments (p : string) : list string :=
  let raw := split_char slash p in
  match raw with
  | s :: _ => (if bool_decide (s = ".") && is_relative p then ["."] else [])
              ++ filter (λ s, trivial_segment s = false) raw
  | [] => []
  end.

(** [Path::file_name] *)
Definition file_name (p : string) : option string :=
  match last (segments p) with
  | Some s => if bool_decide (s = ".") || bool_decide (s = "..") then None else Some s
  | None => None
  end.

(** [Path::strip_prefix] of absolute paths. *)
Definition path_strip_prefix (p base : string) : option string :=
  if is_absolute p && is_absolute base && bool_decide (segments base `prefix_of` segments p) then
    rest ← drop_segments (length (segments base)) (split_char slash p);
    Some (String.concat "/" (trim_segments rest))
  else None.

(** The length of a UTF-8 character, from its first byte. *)
Definition utf8_len (c : Ascii.ascii) : nat :=
  if code c <? 128 then 1 else if code c <? 224 then 2 else if code c <? 240 then 3 else 4.

(** [str::chars], a character as its bytes; each takes at least one, so the length is enough fuel. *)
Fixpoint char_list (fuel : nat) (l : list Ascii.ascii) : list (list Ascii.ascii) :=
  match fuel, l with
  | S fuel', c :: _ => take (utf8_len c) l :: char_list fuel' (drop (utf8_len c) l)
  | _, _ => []
  end.
Definition str_chars (s : string) : list string := unchars <$> char_list (String.length s) (chars s).

Definition is_lower (c : Ascii.ascii) : bool := (97 <=? code c) && (code c <? 123).
Definition is_upper (c : Ascii.ascii) : bool := (65 <=? code c) && (code c <? 91).
Definition is_digit (c : Ascii.ascii) : bool := (48 <=? code c) && (code c <? 58).
Definition ascii_lower (c : Ascii.ascii) : Ascii.ascii := if is_upper c then byte (code c + 32) else c.
Definition is_ascii (s : string) : bool := forallb (λ c, code c <? 128) (chars s).

(** [str::parse::<u8>]: an optional plus sign and decimal digits, of a value below 256. *)
Definition digits_value (l : list Ascii.ascii) : Z := foldl (λ n c, 10 * n + (code c - 48)) 0 l.
Definition parse_u8 (s : string) : option Z :=
  let l := match chars s with c :: l => if code c =? 43 then l else c :: l | [] => [] end in
  if forallb is_digit l && negb (bool_decide (l = [])) && (digits_value l <? 256) then Some (digits_value l) else None.

(** Visible ASCII: what base64, hexadecimal and decimal output is made of. *)
Definition graphic (c : Ascii.ascii) : bool := (33 <=? code c) && (code c <? 127).
Definition graphic_string (s : string) : bool := forallb graphic (chars s).

(** Grapheme clusters in order: what they join to is the text, none is empty, and a text of printable ASCII
    has one for each character. *)
Class Graphemes : Type := graphemes : list Ascii.ascii → list (list Ascii.ascii).
Class GraphemesLaws `{Graphemes} : Prop := {
  graphemes_join l : concat (graphemes l) = l;
  graphemes_nonempty l : Forall (λ g, g ≠ []) (graphemes l);
  graphemes_ascii l : forallb (λ c, (32 <=? code c) && (code c <? 127)) l = true → graphemes l = (λ c, [c]) <$> l
}.

(** ** Lemmas *)

Lemma code_byte z : 0 ≤ z < 256 → code (byte z) = z.
Proof. intros Hz. unfold code, byte. rewrite Ascii.nat_ascii_embedding by lia. lia. Qed.
Lemma unchars_chars s : unchars (chars s) = s.
Proof. apply String.string_of_list_ascii_of_string. Qed.

Lemma chars_unchars l : chars (unchars l) = l.
Proof. apply String.list_ascii_of_string_of_list_ascii. Qed.

Lemma length_chars s : length (chars s) = String.length s.
Proof. unfold chars. induction s; simpl; congruence. Qed.

Lemma chars_app s t : chars (s ++ t) = chars s ++ chars t.
Proof. unfold chars. induction s as [|c s IH]; simpl; [done|]. by rewrite <- IH. Qed.

Lemma chars_inj s t : chars s = chars t → s = t.
Proof. intros Heq. by rewrite <- (unchars_chars s), Heq, unchars_chars. Qed.

Lemma string_app_assoc (s t u : string) : ((s +:+ t) +:+ u = s +:+ (t +:+ u))%string.
Proof. apply chars_inj. by rewrite !chars_app, app_assoc. Qed.

Lemma strip_any_head {A} `{EqDecision A} (pats : list (list A)) (a : A) l :
  (∀ p, p ∈ pats → ∃ b p', p = b :: p' ∧ b ≠ a) → strip_any pats (a :: l) = None.
Proof.
  induction pats as [|p pats IH]; simpl; [done|]. intros Hp.
  destruct (Hp p) as (b & p' & -> & Hb); [left|]. simpl. rewrite decide_False by done.
  apply IH. intros q Hq. apply Hp. by right.
Qed.

Lemma strip_all_None {A} `{EqDecision A} fuel (pats : list (list A)) l :
  strip_any pats l = None → strip_all fuel pats l = l.
Proof. destruct fuel; simpl; [done|]. by intros ->. Qed.

Definition head_ws_check : bool :=
  forallb (λ p, match p with [] => false | b :: _ => negb (graphic b) end)
    (white_space ++ (reverse <$> white_space)).

Lemma head_ws p c :
  p ∈ white_space ++ (reverse <$> white_space) → graphic c = true →
  ∃ b p', p = b :: p' ∧ b ≠ c.
Proof.
  intros Hp Hc. assert (head_ws_check = true) as Hb by (by vm_compute).
  unfold head_ws_check in Hb. rewrite forallb_forall in Hb. specialize (Hb p).
  destruct p as [|b p']; [by rewrite list_elem_of_In in Hp; apply Hb in Hp|].
  exists b, p'. split; [done|]. intros ->. rewrite list_elem_of_In in Hp. apply Hb in Hp.
  by rewrite Hc in Hp.
Qed.

Lemma trim_end_graphic s c l : chars s = l ++ [c] → graphic c = true → trim_end s = s.
Proof.
  intros Hs Hc. unfold trim_end. rewrite strip_all_None.
  - by rewrite reverse_involutive, unchars_chars.
  - rewrite Hs, reverse_snoc. apply strip_any_head. intros p Hp. apply head_ws; [apply elem_of_app; by right|done].
Qed.

Lemma trim_end_graphic_string s : graphic_string s = true → trim_end s = s.
Proof.
  intros Hs. destruct (chars s) as [|c l] eqn:E using rev_ind.
  - rewrite <- (unchars_chars s), E. done.
  - eapply trim_end_graphic; [done|]. unfold graphic_string in Hs. rewrite E in Hs.
    rewrite forallb_forall in Hs. apply Hs. rewrite <- list_elem_of_In. set_solver.
Qed.

(** The ASCII white space. *)
Definition ascii_space (c : Ascii.ascii) : bool := bool_decide (c ∈ byte <$> [9; 10; 11; 12; 13; 32]).

Lemma strip_any_space c l :
  ascii_space c = true → strip_any (reverse <$> white_space) (c :: l) = Some l.
Proof.
  unfold ascii_space. rewrite bool_decide_eq_true. intros Hc.
  repeat (apply elem_of_cons in Hc as [->|Hc]; [reflexivity|]). by apply not_elem_of_nil in Hc.
Qed.

Lemma strip_all_spaces fuel ws l :
  forallb ascii_space ws = true → (length ws ≤ fuel)%nat →
  strip_any (reverse <$> white_space) l = None →
  strip_all fuel (reverse <$> white_space) (ws ++ l) = l.
Proof.
  revert fuel; induction ws as [|c ws IH]; intros fuel Hw Hf Hl; simpl in *.
  - by apply strip_all_None.
  - apply andb_true_iff in Hw as [Hc Hw]. destruct fuel as [|fuel]; [lia|].
    cbn [strip_all]. rewrite strip_any_space by done. apply IH; [done|lia|done].
Qed.

Lemma forallb_reverse {A} (p : A → bool) l : forallb p (reverse l) = forallb p l.
Proof.
  induction l as [|a l IH]; [done|]. rewrite reverse_cons, forallb_app, IH. simpl.
  by rewrite andb_true_r, andb_comm.
Qed.

(** Trailing white space after visible text is all that [trim_end] removes. *)
Lemma trim_end_spaces s ws :
  graphic_string s = true → forallb ascii_space (chars ws) = true → trim_end (s ++ ws) = s.
Proof.
  intros Hs Hw. unfold trim_end. rewrite chars_app, reverse_app, strip_all_spaces.
  - by rewrite reverse_involutive, unchars_chars.
  - by rewrite forallb_reverse.
  - rewrite length_reverse, <- length_chars, chars_app, length_app. lia.
  - destruct (reverse (chars s)) as [|c l] eqn:E; [reflexivity|].
    apply strip_any_head. intros p Hp. apply head_ws; [apply elem_of_app; by right|].
    assert (forallb graphic (c :: l) = true) as Hg by (by rewrite <- E, forallb_reverse).
    simpl in Hg. by apply andb_true_iff in Hg as [? _].
Qed.

Lemma strip_prefix_l_app {A} `{EqDecision A} (p l : list A) : strip_prefix_l p (p ++ l) = Some l.
Proof. induction p as [|a p IH]; simpl; [by destruct l|]. by rewrite decide_True. Qed.

Lemma strip_prefix_app p s : strip_prefix p (p ++ s) = Some s.
Proof. unfold strip_prefix. rewrite chars_app, strip_prefix_l_app. simpl. by rewrite unchars_chars. Qed.
