(* ===== verification/Ellipsis.v ===== *)
(** * Fitting a text to a budget ([atuin-common/src/string.rs], [string/ellipsis.rs], [string/align.rs])

    A text that is too long for a budget of bytes or of columns loses grapheme clusters at an end or in the
    middle, and a mark takes their place. What is left knows where it comes from. Clusters and columns are
    interfaces to the crates [unicode_segmentation] and [unicode_width]; texts are bytes. *)
From S2P Require Import Prelude Text.

Abbreviation chunk := (list Ascii.ascii) (only parsing).

(** [UnicodeWidthStr::width] *)
Class Columns : Type := width : list Ascii.ascii → nat.

(** ** Budgets *)

Inductive Measure : Type := MBytes (n : nat) | MColumns (n : nat).
Definition amount (m : Measure) : nat := match m with MBytes n | MColumns n => n end.
Definition cost `{Columns} (m : Measure) (s : chunk) : nat := match m with MBytes _ => length s | MColumns _ => width s end.

Inductive Pos : Type := PStart | PMiddle | PEnd.
Inductive Alignment : Type := AStart | ACenter | AEnd.

(** [Indicator::ASCII] and [Indicator::UNICODE] *)
Definition ASCII : chunk := chars "...".
Definition UNICODE : chunk := byte <$> [226; 128; 166].

(** ** Where to cut *)

Fixpoint fitting_bytes (cost : chunk → nat) (graphemes : list (list Ascii.ascii)) (max used : nat) : nat :=
  match graphemes with
  | [] => 0
  | seg :: graphemes =>
      if (max <? used + cost seg)%nat then 0 else (length seg + fitting_bytes cost graphemes max (used + cost seg))%nat
  end.
Definition prefix_boundary `{Graphemes} (s : chunk) (max : nat) (cost : chunk → nat) : nat := fitting_bytes cost (graphemes s) max 0.
Definition suffix_boundary `{Graphemes} (s : chunk) (max : nat) (cost : chunk → nat) : nat :=
  (length s - fitting_bytes cost (reverse (graphemes s)) max 0)%nat.

(** ** Views of a text *)

Inductive Ellipsized : Type :=
| Contiguous (text : list Ascii.ascii) (source_offset : nat)
| Spliced (head indicator tail : list Ascii.ascii) (tail_source_offset : nat).

Definition spliced (source : chunk) (head_end tail_start : nat) (indicator : chunk) : Ellipsized :=
  Spliced (take head_end source) indicator (drop tail_start source) tail_start.

(** [source_index] *)
Definition source_index (e : Ellipsized) (output_byte : nat) : option nat :=
  match e with
  | Contiguous _ source_offset => Some (output_byte + source_offset)%nat
  | Spliced head indicator _ tail_source_offset =>
      if (output_byte <? length head)%nat then Some output_byte
      else if (length head + length indicator <=? output_byte)%nat
      then Some (output_byte - length head - length indicator + tail_source_offset)%nat
      else None
  end.

(** [Display], and with it [From<Ellipsized> for Cow]. *)
Definition display (e : Ellipsized) : chunk :=
  match e with Contiguous text _ => text | Spliced head indicator tail _ => head ++ indicator ++ tail end.

(** [PartialEq<str>] *)
Definition eq_str (e : Ellipsized) (other : chunk) : bool :=
  match e with
  | Contiguous text _ => bool_decide (text = other)
  | Spliced head indicator tail _ =>
      bool_decide ((rest ← strip_prefix_l head other; rest ← strip_prefix_l indicator rest; strip_prefix_l tail rest) = Some [])
  end.

Section ellipsize.
Context `{Graphemes, Columns}.

(** [ellipsize] *)
Definition ellipsize (s : chunk) (budget : Measure) (side : Pos) (indicator : chunk) : Ellipsized :=
  let amount := amount budget in
  let cost := cost budget in
  if (cost s <=? amount)%nat then Contiguous s 0
  else
    let indicator_cost := cost indicator in
    if (amount <? indicator_cost)%nat then
      match side with
      | PStart => let start := suffix_boundary s amount cost in Contiguous (drop start s) start
      | PMiddle | PEnd => Contiguous (take (prefix_boundary s amount cost) s) 0
      end
    else
      let content := (amount - indicator_cost)%nat in
      match side with
      | PEnd => spliced s (prefix_boundary s content cost) (length s) indicator
      | PStart => spliced s 0 (suffix_boundary s content cost) indicator
      | PMiddle =>
          let end_ := prefix_boundary s ((content + 1) / 2) cost in
          let start := Nat.max (suffix_boundary s (content / 2) cost) end_ in
          spliced s end_ start indicator
      end.

(** [pad_to] *)
Definition pad_to (s : chunk) (budget : Measure) (align : Alignment) : chunk :=
  let pad := (amount budget - cost budget s)%nat in
  if (pad =? 0)%nat then s
  else
    let '(l, r) := match align with AStart => (0, pad) | AEnd => (pad, 0) | ACenter => (pad / 2, pad - pad / 2) end%nat in
    replicate l (byte 32) ++ s ++ replicate r (byte 32).

(** [pad_ellipsize] *)
Definition pad_ellipsize (s : chunk) (budget : Measure) (side : Pos) (indicator : chunk) (align : Alignment) : chunk :=
  if (amount budget <? cost budget s)%nat then display (ellipsize s budget side indicator) else pad_to s budget align.
End ellipsize.

(** ** Lemmas *)

Abbreviation total f := (sum_list_with f) (only parsing).

Lemma sum_list_with_take {A} (f : A → nat) k l : (sum_list_with f (take k l) ≤ sum_list_with f l)%nat.
Proof. rewrite <- (take_drop k l) at 2. rewrite sum_list_with_app. lia. Qed.
Lemma sum_list_with_drop {A} (f : A → nat) k l : (sum_list_with f (drop k l) ≤ sum_list_with f l)%nat.
Proof. rewrite <- (take_drop k l) at 2. rewrite sum_list_with_app. lia. Qed.

Lemma concat_take_le {A} i k (l : list (list A)) : (i ≤ k)%nat → (length (concat (take i l)) ≤ length (concat (take k l)))%nat.
Proof.
  intros Hik. rewrite <- (take_drop i (take k l)), take_take, Nat.min_l, concat_app, length_app by done. lia.
Qed.

(** The longest run of clusters that fits. *)
Lemma fitting_bytes_spec (cost : chunk → nat) gs max used :
  (used ≤ max)%nat →
  ∃ k, (k ≤ length gs)%nat ∧ fitting_bytes cost gs max used = length (concat (take k gs)) ∧ (used + total cost (take k gs) ≤ max)%nat ∧
    ∀ g, gs !! k = Some g → (max < used + total cost (take k gs) + cost g)%nat.
Proof.
  revert used. induction gs as [|g gs IH]; intros used Hu; cbn [fitting_bytes].
  { exists 0%nat. cbn. split_and!; [lia|done|lia|done]. }
  destruct (Nat.ltb_spec max (used + cost g)).
  { exists 0%nat. cbn. split_and!; [lia|done|lia|]. intros ? [= <-]. lia. }
  destruct (IH (used + cost g)%nat) as (k & Hk & -> & Hfit & Hnext); [lia|]. exists (S k). cbn [take concat sum_list_with length lookup list_lookup].
  rewrite length_app. split_and!; [lia|done|lia|]. intros g' Hg'. specialize (Hnext g' Hg'). lia.
Qed.

Section boundaries.
Context `{GraphemesLaws} (cost : chunk → nat) (s : list Ascii.ascii).

Lemma cut_clusters k : s = concat (take k (graphemes s)) ++ concat (drop k (graphemes s)).
Proof. by rewrite <- concat_app, take_drop, graphemes_join. Qed.
Lemma take_clusters k : take (length (concat (take k (graphemes s)))) s = concat (take k (graphemes s)).
Proof. etrans; [apply (f_equal (take _)), (cut_clusters k)|apply take_app_length]. Qed.
Lemma drop_clusters k : drop (length (concat (take k (graphemes s)))) s = concat (drop k (graphemes s)).
Proof. etrans; [apply (f_equal (drop _)), (cut_clusters k)|apply drop_app_length]. Qed.

(** A boundary is one between clusters. *)
Lemma prefix_boundary_spec max :
  ∃ k, (k ≤ length (graphemes s))%nat ∧ prefix_boundary s max cost = length (concat (take k (graphemes s))) ∧ (total cost (take k (graphemes s)) ≤ max)%nat ∧
    ∀ g, graphemes s !! k = Some g → (max < total cost (take k (graphemes s)) + cost g)%nat.
Proof. destruct (fitting_bytes_spec cost (graphemes s) max 0) as (k & Hk & ? & ? & ?); [lia|]. by exists k. Qed.

Lemma suffix_boundary_spec max :
  ∃ k, (k ≤ length (graphemes s))%nat ∧ suffix_boundary s max cost = length (concat (take k (graphemes s))) ∧ (total cost (drop k (graphemes s)) ≤ max)%nat ∧
    ∀ g, last (take k (graphemes s)) = Some g → (max < total cost (drop k (graphemes s)) + cost g)%nat.
Proof.
  destruct (fitting_bytes_spec cost (reverse (graphemes s)) max 0) as (k & Hk & E & Hfit & Hnext); [lia|]. rewrite length_reverse in Hk.
  set (gs := graphemes s) in *. assert (take k (reverse gs) = reverse (drop (length gs - k) gs)) as Et by apply take_reverse.
  rewrite Et in E, Hfit, Hnext.
  assert (∀ f (l : list (list Ascii.ascii)), total f (reverse l) = total f l) as Hrev.
  { intros f l. induction l as [|x l IH]; [done|]. rewrite reverse_cons, sum_list_with_app, IH. cbn. lia. }
  assert (∀ l : list (list Ascii.ascii), length (concat l) = total length l) as Hlen.
  { induction l as [|x l IH]; [done|]. cbn. rewrite length_app. lia. }
  rewrite Hrev in Hfit. exists (length gs - k)%nat. split_and!; [lia| |lia|].
  - unfold suffix_boundary. fold gs. rewrite E, !Hlen, Hrev, <- (graphemes_join s), Hlen. fold gs.
    rewrite <- (take_drop (length gs - k) gs) at 1. rewrite sum_list_with_app. lia.
  - intros g Hg. rewrite Hrev in Hnext. apply Hnext. rewrite last_lookup, length_take in Hg.
    assert (k < length gs)%nat as Hlt.
    { destruct (decide (k < length gs)%nat); [done|]. replace (length gs - k)%nat with 0%nat in Hg by lia. by rewrite take_0 in Hg. }
    rewrite reverse_lookup by done. rewrite lookup_take_Some in Hg. destruct Hg as [Hg _]. rewrite <- Hg. f_equal. lia.
Qed.
End boundaries.

(** ** What fits *)

Section fits.
Context `{GraphemesLaws, Columns}.

(** The clusters of a text with those from [i] to [j] left out, and a mark in their place. *)
Definition elided (gs : list (list Ascii.ascii)) (i j : nat) (mark : chunk) : chunk := concat (take i gs) ++ mark ++ concat (drop j gs).

(** A text that is within its budget is left as it is. Of a longer one whole clusters are left out, at the
    side that was asked for, and the mark is in their place, or nothing where the budget does not pay for the
    mark. What is left is within the budget, and at an end no further cluster would be. *)
Theorem ellipsized_fits s budget side indicator :
  let gs := graphemes s in
  let e := ellipsize s budget side indicator in
  let mark := if (amount budget <? cost budget indicator)%nat then [] else indicator in
  let paid := if (amount budget <? cost budget indicator)%nat then 0%nat else cost budget indicator in
  if (cost budget s <=? amount budget)%nat then display e = s
  else ∃ i j, (i ≤ j ≤ length gs)%nat ∧ display e = elided gs i j mark ∧
    (total (cost budget) (take i gs) + paid + total (cost budget) (drop j gs) ≤ amount budget)%nat ∧
    (side = PEnd → j = length gs ∧ ∀ g, gs !! i = Some g → (amount budget < total (cost budget) (take i gs) + cost budget g + paid)%nat) ∧
    (side = PStart → i = 0%nat ∧ ∀ g, last (take j gs) = Some g → (amount budget < total (cost budget) (drop j gs) + cost budget g + paid)%nat).
Proof.
  intros gs e mark paid. subst gs e. set (gs := graphemes s). unfold ellipsize. destruct (cost budget s <=? amount budget)%nat; [done|]. cbv zeta. unfold paid, mark, elided.
  pose proof (prefix_boundary_spec (cost budget) s) as Hpre. pose proof (suffix_boundary_spec (cost budget) s) as Hsuf. fold gs in Hpre, Hsuf.
  assert (∀ k, take (length (concat (take k gs))) s = concat (take k gs)) as Htake by apply take_clusters.
  assert (∀ k, drop (length (concat (take k gs))) s = concat (drop k gs)) as Hdrop by apply drop_clusters.
  assert (drop (length gs) gs = []) as Hall by (by apply drop_ge).
  assert (drop (length s) s = []) as Hnil by (by apply drop_ge).
  destruct (Nat.ltb_spec (amount budget) (cost budget indicator)) as [Hno|Hyes].
  - destruct side.
    + destruct (Hsuf (amount budget)) as (k & Hk & -> & Hfit & Hnext). exists 0%nat, k. cbn [display take concat app sum_list_with].
      rewrite Hdrop. split_and!; [lia..|done|rewrite ?take_0; cbn [sum_list_with]; lia|done|]. intros _. split; [done|]. intros g Hg%Hnext. lia.
    + destruct (Hpre (amount budget)) as (k & Hk & -> & Hfit & _). exists k, (length gs). cbn [display].
      rewrite Htake, Hall. cbn. rewrite app_nil_r. split_and!; [done..|lia|done|done].
    + destruct (Hpre (amount budget)) as (k & Hk & -> & Hfit & Hnext). exists k, (length gs). cbn [display].
      rewrite Htake, Hall. cbn. rewrite app_nil_r. split_and!; [done..|lia| |done]. intros _. split; [done|]. intros g Hg%Hnext. lia.
  - destruct side; unfold spliced; cbn [display].
    + destruct (Hsuf (amount budget - cost budget indicator)%nat) as (k & Hk & -> & Hfit & Hnext). exists 0%nat, k.
      rewrite Hdrop. cbn [take concat app sum_list_with]. split_and!; [lia..|done|rewrite ?take_0; cbn [sum_list_with]; lia|done|]. intros _. split; [done|]. intros g Hg%Hnext. lia.
    + destruct (Hpre ((amount budget - cost budget indicator + 1) / 2)%nat) as (i & Hi & -> & Hfit & _).
      destruct (Hsuf ((amount budget - cost budget indicator) / 2)%nat) as (k & Hk & -> & Hfit' & _).
      assert (((amount budget - cost budget indicator + 1) / 2 + (amount budget - cost budget indicator) / 2 = amount budget - cost budget indicator)%nat) as Hhalf.
      { generalize (amount budget - cost budget indicator)%nat. intros n. pose proof (Nat.div_mod_eq n 2). pose proof (Nat.div_mod_eq (n + 1) 2).
        pose proof (Nat.mod_upper_bound n 2). pose proof (Nat.mod_upper_bound (n + 1) 2). lia. }
      assert (∃ j, (i ≤ j ≤ length gs)%nat ∧ Nat.max (length (concat (take k gs))) (length (concat (take i gs))) = length (concat (take j gs)) ∧
        (total (cost budget) (drop j gs) ≤ total (cost budget) (drop k gs))%nat) as (j & Hj & E & Hle).
      { destruct (decide (i ≤ k)%nat) as [Hik|Hik].
        - exists k. split_and!; [lia|lia| |lia]. by apply Nat.max_l, concat_take_le.
        - exists i. split_and!; [lia|lia| |].
          + apply Nat.max_r, concat_take_le. lia.
          + replace i with (k + (i - k))%nat by lia. rewrite <- drop_drop. apply sum_list_with_drop. }
      exists i, j. rewrite E, Htake, Hdrop. split_and!; [lia..|done| |done|done]. lia.
    + destruct (Hpre (amount budget - cost budget indicator)%nat) as (k & Hk & -> & Hfit & Hnext). exists k, (length gs).
      rewrite Htake, Hall, Hnil. cbn. split_and!; [done..|lia| |done]. intros _. split; [done|]. intros g Hg%Hnext. lia.
Qed.

(** Bytes are those of the whole. *)
Lemma length_elided gs i j mark : length (elided gs i j mark) = (total length (take i gs) + length mark + total length (drop j gs))%nat.
Proof.
  assert (∀ l : list (list Ascii.ascii), length (concat l) = total length l) as Hlen.
  { induction l as [|x l IH]; [done|]. cbn. rewrite length_app. lia. }
  unfold elided. rewrite !length_app, !Hlen. lia.
Qed.

Lemma ellipsized_bytes s n side indicator : (length (display (ellipsize s (MBytes n) side indicator)) ≤ n)%nat.
Proof.
  pose proof (ellipsized_fits s (MBytes n) side indicator) as Hf. cbn zeta in Hf. cbn [amount] in Hf.
  destruct (Nat.leb_spec (cost (MBytes n) s) n) as [Hle|_]; [by rewrite Hf|]. destruct Hf as (i & j & _ & -> & Hle & _). rewrite length_elided.
  change (sum_list_with (cost (MBytes n))) with (sum_list_with (@length Ascii.ascii)) in Hle. change (cost (MBytes n) indicator) with (length indicator) in *.
  destruct (n <? length indicator)%nat; cbn [length]; lia.
Qed.

(** Every byte of the view that is not one of the mark is the byte of the source at its [source_index]. *)
Theorem source_index_exact s budget side indicator k :
  let e := ellipsize s budget side indicator in
  (k < length (display e))%nat →
  match source_index e k with
  | Some i => s !! i = display e !! k
  | None => ∃ k0 c, indicator !! k0 = Some c ∧ display e !! k = Some c
  end.
Proof.
  assert (∀ i j, (k < length (display (spliced s i j indicator)))%nat →
    match source_index (spliced s i j indicator) k with
    | Some n => s !! n = display (spliced s i j indicator) !! k
    | None => ∃ k0 c, indicator !! k0 = Some c ∧ display (spliced s i j indicator) !! k = Some c
    end) as Hsp.
  { intros i j. unfold spliced. cbn [display source_index]. rewrite !length_app. intros Hk. destruct (Nat.ltb_spec k (length (take i s))) as [Hlt|Hge].
    - rewrite lookup_app_l by done. rewrite length_take in Hlt. by rewrite lookup_take_lt by lia.
    - destruct (Nat.leb_spec (length (take i s) + length indicator) k) as [Hge'|Hlt'].
      + rewrite lookup_app_r, lookup_app_r, lookup_drop by lia. f_equal. lia.
      + rewrite lookup_app_r, lookup_app_l by lia. destruct (lookup_lt_is_Some_2 indicator (k - length (take i s))) as [c Hc]; [lia|]. by exists (k - length (take i s))%nat, c. }
  intros e. subst e. unfold ellipsize. destruct (_ <=? _)%nat; [intros _; cbn [source_index display]; by rewrite Nat.add_0_r|]. cbv zeta. destruct (_ <? _)%nat.
  - destruct side; cbn [display source_index]; intros Hk; [by rewrite lookup_drop, Nat.add_comm| |]; rewrite Nat.add_0_r, length_take in *; by rewrite lookup_take_lt by lia.
  - destruct side; apply Hsp.
Qed.

(** Comparing with a text is comparing what is displayed. *)
Theorem eq_str_display e other : eq_str e other = bool_decide (display e = other).
Proof.
  assert (∀ p l r : list Ascii.ascii, strip_prefix_l p l = Some r ↔ l = p ++ r) as Hstrip.
  { intros p. induction p as [|c p IH]; intros [|d l] r; cbn; split; try (by intros [= ->]); try done.
    - destruct (decide (c = d)) as [->|]; [|done]. rewrite IH. by intros ->.
    - intros [= -> E]. rewrite decide_True by done. by apply IH. }
  destruct e as [t o|h i t o]; cbn [eq_str display]; [done|]. apply bool_decide_ext. split.
  - intros (r1 & ->%Hstrip & (r2 & ->%Hstrip & ->%Hstrip)%bind_Some)%bind_Some. by rewrite app_nil_r.
  - intros <-. rewrite !strip_prefix_l_app. cbn. rewrite strip_prefix_l_app. cbn. rewrite <- (app_nil_r t) at 2. apply strip_prefix_l_app.
Qed.

(** Padding fills a budget of bytes and never cuts. *)
Lemma pad_to_fills s n align :
  length (pad_to s (MBytes n) align) = Nat.max n (length s) ∧ ∃ l r, pad_to s (MBytes n) align = replicate l (byte 32) ++ s ++ replicate r (byte 32).
Proof.
  unfold pad_to. cbn [amount cost]. destruct (Nat.eqb_spec (n - length s) 0).
  - split; [lia|]. exists 0%nat, 0%nat. by rewrite app_nil_r.
  - destruct align; (split; [rewrite !length_app, !length_replicate|by eexists _, _]); [lia| |lia].
    pose proof (Nat.Div0.div_le_upper_bound (n - length s) 2 (n - length s)). lia.
Qed.
End fits.

(** ** Examples *)

Module EllipsisDemo.
(** One cluster for each byte, each of one column. *)
#[local] Instance each : Graphemes := λ l, (λ c, [c]) <$> l.
#[local] Instance each_laws : GraphemesLaws.
Proof.
  split; [|intros l; by apply Forall_fmap, Forall_true|done]. intros l. induction l as [|c l IH]; [done|]. cbn. f_equal. exact IH.
Qed.
#[local] Instance one_column : Columns := length.

Definition cut (n : nat) (side : Pos) (s : string) : string := unchars (display (ellipsize (chars s) (MColumns n) side ASCII)).
Example cut_sides : cut 8 PEnd "hello world" = "hello..." ∧ cut 8 PStart "hello world" = "...world" ∧ cut 8 PMiddle "hello world" = "hel...ld" ∧
  cut 2 PMiddle "hello world" = "he" ∧ cut 11 PEnd "hello world" = "hello world".
Proof. done. Qed.
End EllipsisDemo.
