(* ===== verification/ShellConfig.v ===== *)
(** * Shell configuration of aliases and variables ([atuin-dotfiles])

    The types of [shell.rs], the texts that [store.rs], [store/var.rs] and [shell/powershell.rs] write for
    each shell, and [parse_alias]. What a shell makes of a text is stated with readers of the quoting
    rules of POSIX shells, fish and PowerShell, which are specifications and not part of the code. *)
From S2P Require Import Prelude Text.

(** ** Data *)

Record Alias : Type := mk_alias { al_name : string; al_value : string }.
Record Var : Type := mk_var { va_name : string; va_value : string; va_export : bool }.

#[export] Instance Alias_eq_dec : EqDecision Alias.
Proof. solve_decision. Defined.
#[export] Instance Var_eq_dec : EqDecision Var.
Proof. solve_decision. Defined.

Definition newline : Ascii.ascii := byte 10.
Definition dquote : Ascii.ascii := byte 34.
Definition dollar : Ascii.ascii := byte 36.
Definition squote : Ascii.ascii := byte 39.
Definition equals : Ascii.ascii := byte 61.
Definition backslash : Ascii.ascii := byte 92.
Definition backtick : Ascii.ascii := byte 96.

(** [str::replace] of a character. *)
Definition replace_char (c : Ascii.ascii) (by_ : list Ascii.ascii) (l : list Ascii.ascii) : list Ascii.ascii :=
  l ≫= λ x, if decide (x = c) then by_ else [x].

(** ** Values of variables *)

Section escape.
(** [char::is_alphanumeric] of a character outside ASCII. *)
Context (alphanumeric_wide : list Ascii.ascii → bool).

Definition is_alphanumeric (ch : list Ascii.ascii) : bool :=
  match ch with
  | [c] => is_lower c || is_upper c || is_digit c
  | _ => alphanumeric_wide ch
  end.

(** The condition that the three escapes share. *)
Definition is_bare (value : string) : bool :=
  forallb (λ ch, is_alphanumeric ch || bool_decide (ch ∈ map (λ z, [byte z]) [95; 45; 47; 46]))
    (char_list (String.length value) (chars value)).

(** [escape_posix_value] *)
Definition escape_posix_value (value : string) : string :=
  if is_bare value then value
  else unchars (dquote :: replace_char backtick [backslash; backtick]
                            (replace_char dollar [backslash; dollar]
                               (replace_char dquote [backslash; dquote]
                                  (replace_char backslash [backslash; backslash] (chars value)))) ++ [dquote]).

(** [escape_fish_value] *)
Definition escape_fish_value (value : string) : string :=
  if is_bare value then value
  else unchars (squote :: replace_char squote [backslash; squote] (chars value) ++ [squote]).

(** [escape_xonsh_value] *)
Definition escape_xonsh_value (value : string) : string :=
  if is_bare value then value
  else unchars (dquote :: replace_char dquote [backslash; dquote]
                            (replace_char backslash [backslash; backslash] (chars value)) ++ [dquote]).

(** The bodies of the loops of [VarStore::format_xonsh], [format_fish] and [format_posix]. *)
Definition xonsh_var (v : Var) : string := "$" +:+ va_name v +:+ "=" +:+ escape_xonsh_value (va_value v) +:+ unchars [newline].
Definition fish_var (v : Var) : string := "set -gx " +:+ va_name v +:+ " " +:+ escape_fish_value (va_value v) +:+ unchars [newline].
Definition posix_var (v : Var) : string :=
  (if va_export v then "export " else "") +:+ va_name v +:+ "=" +:+ escape_posix_value (va_value v) +:+ unchars [newline].

Definition join (l : list string) : string := foldr String.append "" l.

Definition format_xonsh_vars (vs : list Var) : string := join (xonsh_var <$> vs).
Definition format_fish_vars (vs : list Var) : string := join (fish_var <$> vs).
Definition format_posix_vars (vs : list Var) : string := join (posix_var <$> vs).
End escape.

(** ** PowerShell *)

(** [secure_command] *)
Definition secure_command (command : string) : string :=
  "Invoke-Expression -ErrorAction Continue -Command '" +:+ unchars (replace_char squote [squote; squote] (chars command))
  +:+ "'" +:+ unchars [newline].

(** [format_var] *)
Definition format_var (v : Var) : string :=
  secure_command ("$" +:+ (if va_export v then "env:" else "") +:+ va_name v +:+ " = '"
                  +:+ unchars (replace_char squote [squote; squote] (chars (va_value v))) +:+ "'").

(** [format_alias] *)
Definition format_alias (a : Alias) : string :=
  unchars [newline] +:+
  secure_command ("function " +:+ al_name a +:+ " {" +:+ unchars [newline] +:+ "    "
    +:+ match chars (al_value a) with
        | c :: _ => if decide (c = dquote ∨ c = squote) then "& " else ""
        | [] => ""
        end
    +:+ al_value a +:+ " @args" +:+ unchars [newline] +:+ "}").

Definition format_powershell_vars (vs : list Var) : string := join (format_var <$> vs).
Definition format_powershell_aliases (l : list Alias) : string := join (format_alias <$> l).

(** ** Aliases *)

(** [unquote]; [None] is its error. *)
Definition unquote (s : string) : option string :=
  let cs := str_chars s in
  if (length cs <? 2)%nat then None
  else match head cs, last cs with
       | Some q, Some e =>
           if bool_decide (q ∈ [unchars [dquote]; unchars [squote]; unchars [backtick]]) then
             if decide (e = q) then Some (unchars (removelast (tail (chars s)))) else None
           else Some s
       | _, _ => None
       end.

Definition posix_alias (a : Alias) : string :=
  "alias " +:+ al_name a +:+ "='" +:+ default (al_value a) (unquote (al_value a)) +:+ "'" +:+ unchars [newline].
Definition xonsh_alias (a : Alias) : string :=
  "aliases['" +:+ al_name a +:+ "'] ='" +:+ al_value a +:+ "'" +:+ unchars [newline].

(** [AliasStore::format_posix], [format_xonsh] *)
Definition format_posix_aliases (l : list Alias) : string := join (posix_alias <$> l).
Definition format_xonsh_aliases (l : list Alias) : string := join (xonsh_alias <$> l).

(** [parse_alias] *)
Definition parse_alias (line : string) : option Alias :=
  let is_fish := bool_decide (head (split_char (byte 32) line) = Some "alias"%string) in
  let parts := if is_fish then tail (split_char (byte 32) line) else split_char equals line in
  match parts with
  | name :: (_ :: _) as rest => Some (mk_alias name (trim (String.concat (if is_fish then " " else "=") rest)))
  | _ => None
  end.

(** ** What the shells read *)

Inductive Quote : Type := Bare | SingleQ | DoubleQ.

(** The bytes that stand for themselves without quotes. *)
Definition bare_byte (c : Ascii.ascii) : bool :=
  is_lower c || is_upper c || is_digit c || bool_decide (c ∈ map byte [95; 45; 47; 46]) || (128 <=? code c).

Definition consv (c : Ascii.ascii) (r : option (list Ascii.ascii * list Ascii.ascii)) : option (list Ascii.ascii * list Ascii.ascii) :=
  (λ p, (c :: p.1, p.2)) <$> r.

(** The value of a POSIX word that ends at a line break, and the text after it; [None] where the shell
    would expand, split or never end. *)
Fixpoint read_word (q : Quote) (l : list Ascii.ascii) : option (list Ascii.ascii * list Ascii.ascii) :=
  match l with
  | [] => None
  | c :: l' =>
      match q with
      | Bare =>
          if decide (c = newline) then Some ([], l')
          else if decide (c = dquote) then read_word DoubleQ l'
          else if decide (c = squote) then read_word SingleQ l'
          else if bare_byte c then consv c (read_word Bare l')
          else None
      | SingleQ => if decide (c = squote) then read_word Bare l' else consv c (read_word SingleQ l')
      | DoubleQ =>
          if decide (c = dquote) then read_word Bare l'
          else if bool_decide (c ∈ [dollar; backtick]) then None
          else if decide (c = backslash) then
            match l' with
            | [] => None
            | e :: l'' =>
                if decide (e = newline) then read_word DoubleQ l''
                else if bool_decide (e ∈ [backslash; dquote; dollar; backtick]) then consv e (read_word DoubleQ l'')
                else consv c (consv e (read_word DoubleQ l''))
            end
          else consv c (read_word DoubleQ l')
      end
  end.

(** A name up to the equals sign. *)
Fixpoint read_name (l : list Ascii.ascii) : option (list Ascii.ascii * list Ascii.ascii) :=
  match l with
  | [] => None
  | c :: l' => if decide (c = equals) then Some ([], l') else consv c (read_name l')
  end.

(** The assignments of a file that a POSIX shell sources; each takes a character, so the length is enough
    fuel. *)
Fixpoint source_posix (fuel : nat) (l : list Ascii.ascii) : option (list Var) :=
  match fuel, l with
  | _, [] => Some []
  | O, _ => None
  | S f, _ =>
      let '(export, l) := match strip_prefix_l (chars "export ") l with Some l' => (true, l') | None => (false, l) end in
      '(name, l) ← read_name l;
      '(value, l) ← read_word Bare l;
      vs ← source_posix f l;
      Some (mk_var (unchars name) (unchars value) export :: vs)
  end.

(** A fish word: without quotes, or in single quotes, where a backslash escapes a backslash and a quote. *)
Fixpoint read_fish (q : Quote) (l : list Ascii.ascii) : option (list Ascii.ascii * list Ascii.ascii) :=
  match l with
  | [] => None
  | c :: l' =>
      match q with
      | SingleQ =>
          if decide (c = squote) then read_fish Bare l'
          else if decide (c = backslash) then
            match l' with
            | [] => None
            | e :: l'' => if bool_decide (e ∈ [backslash; squote]) then consv e (read_fish SingleQ l'')
                          else consv c (consv e (read_fish SingleQ l''))
            end
          else consv c (read_fish SingleQ l')
      | _ =>
          if decide (c = newline) then Some ([], l')
          else if decide (c = squote) then read_fish SingleQ l'
          else if bare_byte c then consv c (read_fish Bare l')
          else None
      end
  end.

(** The text of a single-quoted PowerShell string, after its first quote, and what follows its last. *)
Fixpoint read_powershell (l : list Ascii.ascii) : option (list Ascii.ascii * list Ascii.ascii) :=
  match l with
  | [] => None
  | c :: l' =>
      if decide (c = squote) then
        match l' with
        | e :: l'' => if decide (e = squote) then consv squote (read_powershell l'') else Some ([], l')
        | [] => Some ([], [])
        end
      else consv c (read_powershell l')
  end.

(** ** Lemmas *)

Lemma char_list_concat n l : (length l ≤ n)%nat → concat (char_list n l) = l.
Proof.
  revert l. induction n as [|n IH]; intros [|c l] Hl; try done; [cbn in Hl; lia|]. cbn [char_list concat].
  assert (1 ≤ utf8_len c)%nat as Hu by (unfold utf8_len; repeat case_match; lia).
  rewrite IH; [apply take_drop|]. rewrite length_drop. cbn [length] in *. lia.
Qed.

(** The text of a Rust string: a character of more than one byte has no ASCII byte. *)
Definition is_text (s : string) : Prop :=
  Forall (λ ch, length ch = 1%nat ∨ Forall (λ c, 128 ≤ code c) ch) (char_list (String.length s) (chars s)).

#[export] Instance is_text_dec s : Decision (is_text s).
Proof. unfold is_text. apply _. Defined.

Lemma is_bare_bytes wide s : is_text s → is_bare wide s = true → Forall (λ c, bare_byte c = true) (chars s).
Proof.
  unfold is_text, is_bare. intros Ht Hb. rewrite <- (char_list_concat (String.length s) (chars s)) by (by rewrite length_chars).
  apply Forall_concat. rewrite Forall_forall in Ht |- *. rewrite forallb_forall in Hb. intros ch Hch.
  specialize (Ht ch Hch). apply list_elem_of_In, Hb in Hch. apply orb_true_iff in Hch.
  destruct Ht as [Hl|Hw].
  - destruct ch as [|c [|]]; try done. apply Forall_singleton. unfold bare_byte. destruct Hch as [Hc|Hc].
    + cbn in Hc. by rewrite Hc.
    + apply bool_decide_eq_true in Hc. rewrite bool_decide_true, orb_true_r; [done|].
      apply list_elem_of_In, in_map_iff in Hc as (z & [= <-] & Hz). by apply list_elem_of_In, in_map.
  - eapply Forall_impl; [exact Hw|]. intros c Hc. unfold bare_byte. apply Z.leb_le in Hc. rewrite Hc. apply orb_true_r.
Qed.

Lemma replace_app c b l1 l2 : replace_char c b (l1 ++ l2) = replace_char c b l1 ++ replace_char c b l2.
Proof. apply bind_app. Qed.

Lemma replace_cons c b x l : replace_char c b (x :: l) = (if decide (x = c) then b else [x]) ++ replace_char c b l.
Proof. done. Qed.

Definition escape4 (l : list Ascii.ascii) : list Ascii.ascii :=
  replace_char backtick [backslash; backtick]
    (replace_char dollar [backslash; dollar] (replace_char dquote [backslash; dquote] (replace_char backslash [backslash; backslash] l))).

Lemma escape4_cons c l :
  escape4 (c :: l) = (if bool_decide (c ∈ [backslash; dquote; dollar; backtick]) then [backslash; c] else [c]) ++ escape4 l.
Proof.
  unfold escape4. rewrite replace_cons, !replace_app. f_equal.
  destruct (decide (c = backslash)) as [->|H1]; [reflexivity|].
  destruct (decide (c = dquote)) as [->|H2]; [reflexivity|].
  destruct (decide (c = dollar)) as [->|H3]; [reflexivity|].
  destruct (decide (c = backtick)) as [->|H4]; [reflexivity|].
  rewrite bool_decide_false by (rewrite !elem_of_cons; intros [?|[?|[?|[?|?%not_elem_of_nil]]]]; done).
  cbn. rewrite !(decide_False (P := c = _)) by done. cbn. rewrite !(decide_False (P := c = _)) by done. cbn.
  rewrite !(decide_False (P := c = _)) by done. done.
Qed.

Definition prepend (v : list Ascii.ascii) (r : option (list Ascii.ascii * list Ascii.ascii)) : option (list Ascii.ascii * list Ascii.ascii) :=
  (λ p, (v ++ p.1, p.2)) <$> r.

Lemma prepend_consv c v r : consv c (prepend v r) = prepend (c :: v) r.
Proof. by destruct r. Qed.

Lemma read_word_double l rest : read_word DoubleQ (escape4 l ++ dquote :: rest) = prepend l (read_word Bare rest).
Proof.
  induction l as [|c l IH]; [cbn; by destruct (read_word Bare rest) as [[]|]|].
  rewrite escape4_cons, <- app_assoc, <- prepend_consv, <- IH. case_bool_decide as Hc.
  - change (read_word DoubleQ ([backslash; c] ++ ?x)) with
      (if decide (c = newline) then read_word DoubleQ x
       else if bool_decide (c ∈ [backslash; dquote; dollar; backtick]) then consv c (read_word DoubleQ x)
       else consv backslash (consv c (read_word DoubleQ x))).
    rewrite (bool_decide_true (c ∈ _)) by done. rewrite decide_False; [done|].
    intros ->. rewrite !elem_of_cons in Hc. by destruct Hc as [?|[?|[?|[?|?%not_elem_of_nil]]]].
  - rewrite !not_elem_of_cons in Hc. destruct Hc as (H1 & H2 & H3 & H4 & _). cbn.
    rewrite (decide_False (P := c = dquote)) by done.
    rewrite bool_decide_false by (rewrite !elem_of_cons; intros [?|[?|?%not_elem_of_nil]]; done).
    by rewrite (decide_False (P := c = backslash)).
Qed.

Lemma read_word_single l rest : squote ∉ l → read_word SingleQ (l ++ squote :: rest) = prepend l (read_word Bare rest).
Proof.
  induction l as [|c l IH]; [intros _; cbn; by destruct (read_word Bare rest) as [[]|]|].
  rewrite not_elem_of_cons. intros [H1 H2]. cbn. rewrite decide_False by done. rewrite IH by done. apply prepend_consv.
Qed.

Lemma bare_byte_plain c : bare_byte c = true → c ≠ newline ∧ c ≠ dquote ∧ c ≠ squote.
Proof. intros Hc. split_and!; intros ->; by vm_compute in Hc. Qed.

Lemma read_word_bare l rest : Forall (λ c, bare_byte c = true) l → read_word Bare (l ++ newline :: rest) = Some (l, rest).
Proof.
  induction 1 as [|c l Hc _ IH]; [done|]. destruct (bare_byte_plain c Hc) as (H1 & H2 & H3). cbn.
  rewrite !decide_False by done. by rewrite Hc, IH.
Qed.

Lemma posix_value_read wide v rest :
  is_text v → read_word Bare (chars (escape_posix_value wide v) ++ newline :: rest) = Some (chars v, rest).
Proof.
  intros Ht. unfold escape_posix_value. destruct (is_bare wide v) eqn:E.
  - by apply read_word_bare, (is_bare_bytes wide).
  - rewrite chars_unchars. change (replace_char _ _ (replace_char _ _ _)) with (escape4 (chars v)).
    cbn [app]. rewrite <- app_assoc. cbn [app]. change (read_word Bare (dquote :: ?x)) with (read_word DoubleQ x).
    rewrite read_word_double. change (read_word Bare (newline :: rest)) with (Some ([] : list Ascii.ascii, rest)). cbn. by rewrite app_nil_r.
Qed.

(** A name that a shell takes in an assignment. *)
Definition is_name (s : string) : bool :=
  negb (bool_decide (s = "")) && forallb (λ c, is_lower c || is_upper c || is_digit c || (code c =? 95)) (chars s).

Lemma name_chars s c : is_name s = true → c ∈ chars s → c ≠ equals ∧ c ≠ byte 32.
Proof.
  unfold is_name. intros [_ Hf]%andb_true_iff Hc. rewrite forallb_forall in Hf. apply list_elem_of_In, Hf in Hc.
  split; intros ->; by vm_compute in Hc.
Qed.

Lemma read_name_app l rest : equals ∉ l → read_name (l ++ equals :: rest) = Some (l, rest).
Proof.
  induction l as [|c l IH]; [done|]. rewrite not_elem_of_cons. intros [H1 H2]. cbn. rewrite decide_False by done. by rewrite IH.
Qed.

Lemma strip_export_name s rest :
  is_name s = true → strip_prefix_l (chars "export ") (chars s ++ equals :: rest) = None.
Proof.
  intros Hn. destruct (strip_prefix_l _ _) as [l|] eqn:E; [exfalso|done].
  assert (∀ p (l r : list Ascii.ascii), strip_prefix_l p l = Some r → l = p ++ r) as Hstrip.
  { clear. induction p as [|a p IH]; intros [|b l] r; cbn; try (by intros [= ->]); try done.
    case_decide; [|done]. intros ->%IH. by subst. }
  apply Hstrip in E.
  assert (∀ (a : list Ascii.ascii) x b y z, (∀ c, c ∈ a → c ≠ x) → y ≠ x → a ++ y :: b = z → x ∈ firstn (S (length a)) z → False) as Hno.
  { clear. intros a x b y z Ha Hy <- Hin. rewrite firstn_app, firstn_all2 in Hin by lia.
    apply elem_of_app in Hin as [Hin|Hin]; [by apply Ha in Hin|]. replace (S (length a) - length a)%nat with 1%nat in Hin by lia.
    cbn in Hin. by apply list_elem_of_singleton in Hin. }
  destruct (decide (6 < S (length (chars s)))%nat) as [Hl|Hl].
  - apply (Hno (chars s) (byte 32) rest equals _ (λ c Hc, proj2 (name_chars s c Hn Hc)) ltac:(done) E).
    rewrite firstn_app. apply elem_of_app. left. cbn [length chars String.list_ascii_of_string].
    apply list_elem_of_lookup. exists 6%nat. rewrite lookup_take. by rewrite decide_True.
  - apply (f_equal (λ l, l !! length (chars s))) in E. rewrite list_lookup_middle in E by done.
    rewrite lookup_app_l in E by (cbn; lia). destruct (length (chars s)) as [|[|[|[|[|[|[|n]]]]]]]; [done..|lia].
Qed.

Lemma source_posix_vars wide vs fuel :
  Forall (λ v, is_name (va_name v) = true ∧ is_text (va_value v)) vs →
  (length (chars (format_posix_vars wide vs)) ≤ fuel)%nat →
  source_posix fuel (chars (format_posix_vars wide vs)) = Some vs.
Proof.
  unfold format_posix_vars. intros Hv. revert fuel. induction Hv as [|v vs [Hn Ht] _ IH]; intros fuel; [by destruct fuel|].
  cbn [fmap list_fmap]. change (join (?a :: ?b)) with (a +:+ join b). unfold posix_var at 1 3. rewrite !chars_app.
  set (rest := chars (join _)) in *.
  rewrite !length_app. cbn [length chars String.list_ascii_of_string]. intros Hf.
  assert (chars (va_name v) ≠ []) as Hne.
  { destruct v as [n va e]. cbn in *. intros E. apply andb_true_iff in Hn as [Hn _]. rewrite bool_decide_true in Hn; [done|].
    by apply (chars_inj n ""). }
  assert (1 ≤ length (chars (va_name v)))%nat as Hpos by (destruct (chars (va_name v)); [done|cbn; lia]).
  destruct fuel as [|fuel]; [lia|].
  assert (∀ l, l ≠ [] → source_posix (S fuel) l =
    let '(export, l) := match strip_prefix_l (chars "export ") l with Some l' => (true, l') | None => (false, l) end in
      '(name, l) ← read_name l; '(value, l) ← read_word Bare l; vs ← source_posix fuel l;
      Some (mk_var (unchars name) (unchars value) export :: vs)) as Hs by (by intros []).
  rewrite Hs; [clear Hs|destruct (va_export v); [done|cbn; by destruct (chars (va_name v))]].
  rewrite <- !app_assoc. cbn [app].
  set (tl := chars (va_name v) ++ _).
  assert ((match strip_prefix_l (chars "export ") (chars (if va_export v then "export " else "") ++ tl) with
    | Some l' => (true, l') | None => (false, chars (if va_export v then "export " else "") ++ tl) end) = (va_export v, tl)) as ->.
  { destruct (va_export v); [done|]. cbn [chars String.list_ascii_of_string app]. unfold tl.
    change (chars "=") with [equals]. cbn [app]. by rewrite strip_export_name. }
  unfold tl. change (chars "=") with [equals]. cbn [app].
  rewrite read_name_app; [|intros Hin; by apply (name_chars _ _ Hn) in Hin as []]. cbn [mbind option_bind].
  change (chars (unchars [newline])) with [newline]. cbn [app]. rewrite posix_value_read by done. cbn [mbind option_bind].
  rewrite IH by lia. cbn [mbind option_bind]. rewrite !unchars_chars. by destruct v.
Qed.

Lemma read_fish_bare l rest : Forall (λ c, bare_byte c = true) l → read_fish Bare (l ++ newline :: rest) = Some (l, rest).
Proof.
  induction 1 as [|c l Hc _ IH]; [done|]. destruct (bare_byte_plain c Hc) as (H1 & H2 & H3). cbn.
  rewrite !decide_False by done. by rewrite Hc, IH.
Qed.

Lemma read_fish_single l rest :
  backslash ∉ l → read_fish SingleQ (replace_char squote [backslash; squote] l ++ squote :: rest) = prepend l (read_fish Bare rest).
Proof.
  induction l as [|c l IH]; [intros _; cbn; by destruct (read_fish Bare rest) as [[]|]|].
  rewrite not_elem_of_cons. intros [H1 H2]. rewrite replace_cons, <- prepend_consv, <- IH, <- app_assoc by done.
  case_decide as Hc; [by subst|]. cbn. by rewrite !decide_False.
Qed.

Lemma fish_value_read wide v rest :
  is_text v → backslash ∉ chars v → read_fish Bare (chars (escape_fish_value wide v) ++ newline :: rest) = Some (chars v, rest).
Proof.
  intros Ht Hb. unfold escape_fish_value. destruct (is_bare wide v) eqn:E.
  - by apply read_fish_bare, (is_bare_bytes wide).
  - rewrite chars_unchars. cbn [app]. rewrite <- app_assoc. cbn [app]. change (read_fish Bare (squote :: ?x)) with (read_fish SingleQ x).
    rewrite read_fish_single by done. change (read_fish Bare (newline :: rest)) with (Some ([] : list Ascii.ascii, rest)).
    cbn. by rewrite app_nil_r.
Qed.

(** What follows a PowerShell string is not a quote. *)
Lemma read_powershell_quoted l rest :
  head rest ≠ Some squote →
  read_powershell (replace_char squote [squote; squote] l ++ squote :: rest) = Some (l, rest).
Proof.
  intros Hr. induction l as [|c l IH].
  - destruct rest as [|e rest]; [done|].
    change (read_powershell (replace_char squote [squote; squote] [] ++ squote :: e :: rest)) with
      (if decide (e = squote) then consv squote (read_powershell rest) else Some ([], e :: rest)).
    rewrite decide_False; [done|]. intros ->. by apply Hr.
  - rewrite replace_cons, <- app_assoc. case_decide as Hc; [subst|].
    + change (consv squote (read_powershell (replace_char squote [squote; squote] l ++ squote :: rest)) = Some (squote :: l, rest)).
      by rewrite IH.
    + cbn. rewrite decide_False by done. by rewrite IH.
Qed.

(** The command of a line of [secure_command], and the value of an assignment in it. *)
Definition read_secure (l : list Ascii.ascii) : option (list Ascii.ascii) :=
  rest ← strip_prefix_l (chars "Invoke-Expression -ErrorAction Continue -Command '") l; fst <$> read_powershell rest.
Definition read_assignment (name : string) (l : list Ascii.ascii) : option (list Ascii.ascii) :=
  rest ← strip_prefix_l (chars (name +:+ " = '")) l; fst <$> read_powershell rest.

Lemma read_secure_command c : read_secure (chars (secure_command c)) = Some (chars c).
Proof.
  unfold read_secure, secure_command. rewrite chars_app, strip_prefix_l_app. cbn [mbind option_bind]. rewrite !chars_app, chars_unchars.
  change (chars "'" ++ chars (unchars [newline])) with [squote; newline]. by rewrite read_powershell_quoted.
Qed.

(** ** Correctness *)

(** A value reaches its shell as it is: sourced by a POSIX shell, the configuration of any list of
    variables with proper names assigns exactly their values, exported where they say so and with nothing
    expanded; a fish shell reads the value, if it has no backslash; and PowerShell runs the assignment
    of the value. *)
Theorem variables_reach_their_shell wide (vs : list Var) :
  Forall (λ v, is_name (va_name v) = true ∧ is_text (va_value v)) vs →
  (let text := chars (format_posix_vars wide vs) in source_posix (length text) text = Some vs) ∧
  (∀ v, v ∈ vs → backslash ∉ chars (va_value v) →
     read_fish Bare (chars (escape_fish_value wide (va_value v)) ++ [newline]) = Some (chars (va_value v), [])) ∧
  (∀ v, v ∈ vs →
     (read_secure (chars (format_var v)) ≫= read_assignment ("$" +:+ (if va_export v then "env:" else "") +:+ va_name v))
     = Some (chars (va_value v))).
Proof.
  intros Hv. split; [by apply source_posix_vars|]. rewrite Forall_forall in Hv. split.
  - intros v [_ Ht]%Hv Hb. by apply fish_value_read.
  - intros v _. unfold format_var. rewrite read_secure_command. cbn [mbind option_bind]. unfold read_assignment.
    set (n := ("$" +:+ (if va_export v then "env:" else "") +:+ va_name v)%string).
    assert (∀ t, ("$" +:+ (if va_export v then "env:" else "") +:+ va_name v +:+ " = '" +:+ t = (n +:+ " = '") +:+ t)%string) as ->
      by (intros t; unfold n; by rewrite !string_app_assoc).
    rewrite (chars_app (n +:+ " = '")), strip_prefix_l_app. cbn [mbind option_bind]. rewrite chars_app, chars_unchars.
    change (chars "'") with [squote]. by rewrite read_powershell_quoted.
Qed.

Lemma variables_reach_their_shell_witness :
  let vs := [mk_var "EDITOR" "vim -c 'set nu'" true; mk_var "P" "a$b" false] in
  let text := chars (format_posix_vars (λ _, false) vs) in source_posix (length text) text = Some vs.
Proof.
  refine (proj1 (variables_reach_their_shell (λ _, false) [mk_var "EDITOR" "vim -c 'set nu'" true; mk_var "P" "a$b" false] _)).
  repeat constructor; apply (bool_decide_unpack _); vm_compute; exact I.
Defined.

(** An alias whose value, without its outer quotes, has no single quote is defined with that value. *)
Lemma alias_reaches_shell a rest :
  squote ∉ chars (default (al_value a) (unquote (al_value a))) → equals ∉ chars (al_name a) →
  (l ← strip_prefix_l (chars "alias ") (chars (posix_alias a) ++ rest); '(n, l) ← read_name l; '(v, l) ← read_word Bare l; Some (n, v, l))
  = Some (chars (al_name a), chars (default (al_value a) (unquote (al_value a))), rest).
Proof.
  intros Hv Hn. unfold posix_alias. rewrite chars_app, <- app_assoc, strip_prefix_l_app. cbn [mbind option_bind].
  rewrite !chars_app, <- !app_assoc. change (chars "='") with [equals; squote]. cbn [app].
  rewrite read_name_app by done. cbn [mbind option_bind]. change (read_word Bare (squote :: ?x)) with (read_word SingleQ x).
  change (chars "'") with [squote]. change (chars (unchars [newline])) with [newline]. cbn [app].
  rewrite read_word_single by done. change (read_word Bare (newline :: rest)) with (Some ([] : list Ascii.ascii, rest)).
  cbn. by rewrite app_nil_r.
Qed.

(** A single quote inside a value ends the quoting: the quotes are lost to the alias, or the text that
    follows is read as more of the command. *)
Lemma alias_quotes_lost :
  (l ← strip_prefix_l (chars "alias ") (chars (posix_alias (mk_alias "g" "grep 'a'"))); '(_, l) ← read_name l; fst <$> read_word Bare l)
  = Some (chars "grep a") ∧
  (l ← strip_prefix_l (chars "alias ") (chars (posix_alias (mk_alias "w" "echo 'a;b' c"))); '(_, l) ← read_name l; fst <$> read_word Bare l)
  = None.
Proof. split; vm_compute; reflexivity. Qed.

(** In fish a backslash before a backslash or before the closing quote is an escape: a value with two
    loses one, and a value that ends in one never ends. *)
Lemma fish_backslashes_lost :
  fst <$> read_fish Bare (chars (escape_fish_value (λ _, false) (unchars [byte 97; backslash; backslash; byte 98])) ++ [newline])
    = Some [byte 97; backslash; byte 98] ∧
  read_fish Bare (chars (escape_fish_value (λ _, false) (unchars [byte 97; backslash])) ++ [newline]) = None.
Proof. split; vm_compute; reflexivity. Qed.
