(* ===== verification/Osc133.v ===== *)
(** * Semantic prompt markers and captured commands ([atuin-pty-proxy/src/osc133.rs], [capture.rs])

    The streaming parser of OSC 133 markers and the tracker that collects the prompt, the command and
    the output between them. The parser's parameter buffer is the bytes that it holds; offsets are
    natural numbers. A byte is its value. What a terminal shows of some bytes ([ansi::to_plain_text], a
    terminal emulator) and the lossy decoding of UTF-8 are parameters. *)
From S2P Require Import Prelude Text.

(** ** Data *)

Inductive OscEvent : Type := PromptStart | CommandStart | CommandExecuted | CommandFinished (exit_code : option Z).
Inductive Param : Type := PValue (s : string) | PKeyValue (k v : string).
Inductive Zone : Type := ZUnknown | ZPrompt | ZInput | ZOutput.
#[export] Instance Zone_eq_dec : EqDecision Zone.
Proof. solve_decision. Defined.

Record LocatedEvent : Type := mk_located {
  le_event : OscEvent; le_start : nat; le_offset : nat; le_zone : Zone; le_params : list Param
}.

Inductive PState : Type := Ground | Esc | OscParam | OscEsc.
#[export] Instance PState_eq_dec : EqDecision PState.
Proof. solve_decision. Defined.

Record Parser : Type := mk_parser { p_state : PState; p_zone : Zone; sequence_start : option nat; param_buf : list Z }.

Definition ESC : Z := 27.
Definition BEL : Z := 7.
Definition C1_ST : Z := 156.
Definition BACKSLASH : Z := 92.
Definition RIGHT_BRACKET : Z := 93.
Definition SEMICOLON : Z := 59.
Definition PARAM_BUF_CAP : nat := 512.

Definition parser_new : Parser := mk_parser Ground ZUnknown None [].

Definition zbytes (s : string) : list Z := code <$> chars s.

(** ** Parameters *)

Section params.
(** [String::from_utf8_lossy] *)
Context (lossy : list Z → string).

Definition parse_param (l : list Z) : Param :=
  match split_once (byte 61) (lossy l) with Some (k, v) => PKeyValue k v | None => PValue (lossy l) end.

Definition parse_params (metadata : list Z) : list Param :=
  parse_param <$> filter (λ part, part ≠ []) (split_l SEMICOLON metadata).

(** [Params::get] *)
Definition params_get (ps : list Param) (key : string) : option string :=
  head (omap (λ p, match p with PKeyValue k v => if decide (k = key) then Some v else None | PValue _ => None end) ps).

(** [str::parse::<i32>]: an optional sign and digits, in range. *)
Definition parse_i32 (l : list Z) : option Z :=
  let '(neg, ds) := match l with
                    | 45 :: l' => (true, l')
                    | 43 :: l' => (false, l')
                    | _ => (false, l)
                    end in
  if forallb (λ c, (48 <=? c) && (c <? 58)) ds && negb (bool_decide (ds = [])) then
    let n := foldl (λ n c, 10 * n + (c - 48)) 0 ds in
    let n := if neg : bool then - n else n in
    if (- 2 ^ 31 <=? n) && (n <? 2 ^ 31) then Some n else None
  else None.

Definition parse_exit_code (l : list Z) : option Z := match l with [] => None | _ => parse_i32 l end.

Definition parse_command_finished_params (metadata : list Z) : option Z * list Param :=
  match metadata with
  | [] => (None, [])
  | _ =>
      match list_find (λ b, b = SEMICOLON) metadata with
      | None => match parse_exit_code metadata with
                | Some c => (Some c, [])
                | None => (None, parse_params metadata)
                end
      | Some (separator, _) =>
          match parse_exit_code (take separator metadata) with
          | Some c => (Some c, parse_params (drop (S separator) metadata))
          | None => (None, parse_params metadata)
          end
      end
  end.

(** ** The state machine *)

(** The [match] of [dispatch]: the event, its zone and its parameters. *)
Definition marker_of (payload : list Z) : option (OscEvent * Zone * list Param) :=
  if (length payload <? 5)%nat || negb (bool_decide (take 4 payload = zbytes "133;")) then None
  else if (5 <? length payload)%nat && negb (bool_decide (payload !! 5%nat = Some SEMICOLON)) then None
  else
    let metadata := drop 6 payload in
    match payload !! 4%nat with
    | Some 65 => Some (PromptStart, ZPrompt, parse_params metadata)
    | Some 66 => Some (CommandStart, ZInput, parse_params metadata)
    | Some 67 => Some (CommandExecuted, ZOutput, parse_params metadata)
    | Some 68 => let '(exit_code, ps) := parse_command_finished_params metadata in
                 Some (CommandFinished exit_code, ZUnknown, ps)
    | _ => None
    end.

(** [dispatch] *)
Definition dispatch (p : Parser) (offset : nat) : Parser * list LocatedEvent :=
  match marker_of (param_buf p) with
  | None => (p, [])
  | Some (event, zone, params) =>
      (mk_parser (p_state p) zone (sequence_start p) (param_buf p),
       [mk_located event (default 0%nat (sequence_start p)) offset zone params])
  end.

Definition to_ground (p : Parser) : Parser := mk_parser Ground (p_zone p) None (param_buf p).

(** The body of the loop of [push_located]. *)
Definition feed (p : Parser) (offset : nat) (b : Z) : Parser * list LocatedEvent :=
  match p_state p with
  | Ground => if b =? ESC then (mk_parser Esc (p_zone p) (Some offset) (param_buf p), []) else (p, [])
  | Esc => if b =? RIGHT_BRACKET then (mk_parser OscParam (p_zone p) (sequence_start p) [], []) else (to_ground p, [])
  | OscParam =>
      if (b =? BEL) || (b =? C1_ST) then let '(p, es) := dispatch p (S offset) in (to_ground p, es)
      else if b =? ESC then (mk_parser OscEsc (p_zone p) (sequence_start p) (param_buf p), [])
      else if (length (param_buf p) <? PARAM_BUF_CAP)%nat
           then (mk_parser OscParam (p_zone p) (sequence_start p) (param_buf p ++ [b]), [])
           else (p, [])
  | OscEsc => let '(p, es) := if b =? BACKSLASH then dispatch p (S offset) else (p, []) in (to_ground p, es)
  end.

Fixpoint feed_all (p : Parser) (offset : nat) (data : list Z) : Parser * list LocatedEvent :=
  match data with
  | [] => (p, [])
  | b :: data' =>
      let '(p, es) := feed p offset b in
      let '(p, es') := feed_all p (S offset) data' in (p, es ++ es')
  end.

(** [push_located] *)
Definition push_located (p : Parser) (data : list Z) : Parser * list LocatedEvent :=
  let start := if decide (p_state p = Ground) then None else Some 0%nat in
  feed_all (mk_parser (p_state p) (p_zone p) start (param_buf p)) 0 data.

(** [incomplete_osc_sequence_start] *)
Definition incomplete_osc_sequence_start (p : Parser) : option nat :=
  match p_state p with OscParam | OscEsc => Some (default 0%nat (sequence_start p)) | _ => None end.

(** ** Captures *)

Definition MAX_OUTPUT_CAPTURE_BYTES : nat := 1024 * 1024.

Record CommandCapture : Type := mk_capture {
  cc_prompt : string; cc_command : string; cc_output : string; cc_exit_code : option Z;
  cc_history_id : option string; cc_session_id : option string; cc_truncated : bool; cc_observed : Z
}.

Record CaptureBuffers : Type := mk_buffers {
  b_prompt : list Z; b_command : list Z; b_output : list Z; b_observed : Z; b_truncated : bool;
  b_exit : option Z; b_history : option string; b_session : option string
}.

Definition no_buffers : CaptureBuffers := mk_buffers [] [] [] 0 false None None None.

Record Tracker : Type := mk_tracker { t_parser : Parser; t_zone : Zone; t_buffers : CaptureBuffers }.

Definition tracker_new : Tracker := mk_tracker parser_new ZUnknown no_buffers.

(** [append_output] *)
Definition append_output (data : list Z) (b : CaptureBuffers) : CaptureBuffers :=
  let observed := saturating_add (b_observed b) (Z.of_nat (length data)) in
  if b_truncated b then mk_buffers (b_prompt b) (b_command b) (b_output b) observed true (b_exit b) (b_history b) (b_session b)
  else
    let remaining := (MAX_OUTPUT_CAPTURE_BYTES - length (b_output b))%nat in
    let retained := Nat.min (length data) remaining in
    mk_buffers (b_prompt b) (b_command b) (b_output b ++ take retained data) observed (retained <? length data)%nat
      (b_exit b) (b_history b) (b_session b).

(** [append] *)
Definition append (z : Zone) (data : list Z) (b : CaptureBuffers) : CaptureBuffers :=
  match z with
  | ZPrompt => mk_buffers (b_prompt b ++ data) (b_command b) (b_output b) (b_observed b) (b_truncated b) (b_exit b) (b_history b) (b_session b)
  | ZInput => mk_buffers (b_prompt b) (b_command b ++ data) (b_output b) (b_observed b) (b_truncated b) (b_exit b) (b_history b) (b_session b)
  | ZOutput => append_output data b
  | ZUnknown => b
  end.

(** [ansi::to_plain_text] at the width of the terminal. *)
Context (plain : list Z → string).

Definition is_crlf (c : Ascii.ascii) : bool := (code c =? 13) || (code c =? 10).
Fixpoint drop_crlf (l : list Ascii.ascii) : list Ascii.ascii :=
  match l with c :: l' => if is_crlf c then drop_crlf l' else l | [] => [] end.
Definition trim_crlf (s : string) : string := unchars (reverse (drop_crlf (reverse (drop_crlf (chars s))))).

(** [finish_capture]; the buffers are taken. *)
Definition finish_capture (b : CaptureBuffers) : option CommandCapture :=
  let command := trim_crlf (plain (b_command b)) in
  let output := plain (b_output b) in
  if bool_decide (command = "") && bool_decide (output = "") then None
  else Some (mk_capture (plain (b_prompt b)) command output (b_exit b) (b_history b) (b_session b) (b_truncated b) (b_observed b)).

(** [handle_event] *)
Definition handle_event (e : OscEvent) (params : list Param) (z : Zone) (b : CaptureBuffers) : CaptureBuffers * list CommandCapture :=
  match e with
  | PromptStart => (if decide (z = ZPrompt) then b else no_buffers, [])
  | CommandStart | CommandExecuted => (b, [])
  | CommandFinished exit_code =>
      match params_get params "history_id" with
      | None => (b, [])
      | Some history_id =>
          let exit := match exit_code, b_exit b with Some c, _ => Some c | None, None => None | None, Some c => Some c end in
          let b := mk_buffers (b_prompt b) (b_command b) (b_output b) (b_observed b) (b_truncated b) exit
                     (Some history_id) (params_get params "session_id") in
          (no_buffers, match finish_capture b with Some c => [c] | None => [] end)
      end
  end.

(** [data[i..j]] *)
Definition slice (data : list Z) (i j : nat) : list Z := drop i (take j data).

(** The loop of [push] over the events; [start] is where the text after the last marker begins. *)
Fixpoint handle_events (data : list Z) (es : list LocatedEvent) (start : nat) (z : Zone) (b : CaptureBuffers)
    : nat * Zone * CaptureBuffers * list CommandCapture :=
  match es with
  | [] => (start, z, b, [])
  | e :: es' =>
      let marker_start := Nat.max (Nat.min (le_start e) (length data)) start in
      let b := append z (slice data start marker_start) b in
      let '(b, cs) := handle_event (le_event e) (le_params e) z b in
      let '(r, cs') := handle_events data es' (Nat.min (le_offset e) (length data)) (le_zone e) b in
      (r, cs ++ cs')
  end.

(** [CommandCaptureTracker::push] *)
Definition push (t : Tracker) (data : list Z) : Tracker * list CommandCapture :=
  let '(p, es) := push_located (t_parser t) data in
  let '(start, z, b, cs) := handle_events data es 0 (t_zone t) (t_buffers t) in
  let append_end := match incomplete_osc_sequence_start p with
                    | Some s => Nat.max (Nat.min s (length data)) start
                    | None => length data
                    end in
  (mk_tracker p z (if (start <? append_end)%nat then append z (slice data start append_end) b else b), cs).
End params.

(** ** The parser and its input in pieces *)

Section pieces.
Context (lossy : list Z → string).

Notation feed := (feed lossy).
Notation feed_all := (feed_all lossy).
Notation push_located := (push_located lossy).

(** All but the position of a sequence in the chunk. *)
Definition core (p : Parser) : PState * Zone * list Z := (p_state p, p_zone p, param_buf p).
Definition ev_core (e : LocatedEvent) : OscEvent * Zone * list Param := (le_event e, le_zone e, le_params e).

Lemma dispatch_core p1 p2 o1 o2 :
  core p1 = core p2 →
  core (dispatch lossy p1 o1).1 = core (dispatch lossy p2 o2).1 ∧
  ev_core <$> (dispatch lossy p1 o1).2 = ev_core <$> (dispatch lossy p2 o2).2.
Proof.
  destruct p1, p2. unfold core. cbn. intros [= -> -> ->]. unfold dispatch. cbn. by destruct (marker_of _ _) as [[[? ?] ?]|].
Qed.

Lemma to_ground_core p1 p2 : core p1 = core p2 → core (to_ground p1) = core (to_ground p2).
Proof. destruct p1, p2. unfold core. cbn. by intros [= -> -> ->]. Qed.

Lemma feed_core p1 p2 o1 o2 b :
  core p1 = core p2 →
  core (feed p1 o1 b).1 = core (feed p2 o2 b).1 ∧ ev_core <$> (feed p1 o1 b).2 = ev_core <$> (feed p2 o2 b).2.
Proof.
  intros Hc. pose proof (dispatch_core p1 p2 (S o1) (S o2) Hc) as [Hd1 Hd2].
  pose proof (to_ground_core _ _ Hc) as Hg. pose proof (to_ground_core _ _ Hd1) as Hdg.
  unfold Osc133.feed. destruct (dispatch lossy p1 (S o1)) as [q1 e1], (dispatch lossy p2 (S o2)) as [q2 e2]. cbn in *.
  destruct p1 as [s1 z1 st1 b1], p2 as [s2 z2 st2 b2]. unfold core in *. cbn in *. injection Hc as -> -> ->.
  destruct s2; [destruct (b =? ESC)|destruct (b =? RIGHT_BRACKET)|destruct (_ || _); [|destruct (b =? ESC); [|case_match]]|
    destruct (b =? BACKSLASH)]; cbn; done.
Qed.

Lemma feed_all_core p1 p2 o1 o2 data :
  core p1 = core p2 →
  core (feed_all p1 o1 data).1 = core (feed_all p2 o2 data).1 ∧
  ev_core <$> (feed_all p1 o1 data).2 = ev_core <$> (feed_all p2 o2 data).2.
Proof.
  revert p1 p2 o1 o2. induction data as [|b data IH]; intros p1 p2 o1 o2 Hc; [done|]. cbn [Osc133.feed_all].
  pose proof (feed_core p1 p2 o1 o2 b Hc) as [H1 H2].
  destruct (feed p1 o1 b) as [q1 e1], (feed p2 o2 b) as [q2 e2]. cbn in H1, H2. pose proof (IH q1 q2 (S o1) (S o2) H1) as [H3 H4].
  destruct (feed_all q1 (S o1) data) as [r1 f1], (feed_all q2 (S o2) data) as [r2 f2]. cbn in *. split; [done|].
  by rewrite !fmap_app, H2, H4.
Qed.

Lemma feed_all_app p o a b :
  feed_all p o (a ++ b) =
  let '(p1, e1) := feed_all p o a in let '(p2, e2) := feed_all p1 (o + length a) b in (p2, e1 ++ e2).
Proof.
  revert p o. induction a as [|x a IH]; intros p o; cbn.
  - rewrite Nat.add_0_r. by destruct (feed_all p o b).
  - destruct (feed p o x) as [q e]. rewrite IH. destruct (feed_all q (S o) a) as [p1 e1].
    replace (o + S (length a))%nat with (S o + length a)%nat by lia. destruct (feed_all p1 _ b). by rewrite app_assoc.
Qed.

(** Chunks one after the other. *)
Fixpoint push_chunks (p : Parser) (chunks : list (list Z)) : Parser * list LocatedEvent :=
  match chunks with
  | [] => (p, [])
  | c :: cs => let '(p, e) := push_located p c in let '(p, e') := push_chunks p cs in (p, e ++ e')
  end.

Lemma push_chunks_core p q chunks :
  core p = core q →
  core (push_chunks p chunks).1 = core (feed_all q 0 (concat chunks)).1 ∧
  ev_core <$> (push_chunks p chunks).2 = ev_core <$> (feed_all q 0 (concat chunks)).2.
Proof.
  revert p q. induction chunks as [|c cs IH]; intros p q Hc; [done|]. cbn [push_chunks concat]. rewrite feed_all_app. cbn [Nat.add].
  unfold Osc133.push_located. set (p0 := mk_parser _ _ _ _). assert (core p0 = core q) as H0 by (by rewrite <- Hc).
  pose proof (feed_all_core p0 q 0 0 c H0) as [H1 H2].
  destruct (feed_all p0 0 c) as [p1 e1], (feed_all q 0 c) as [q1 f1]. cbn in H1, H2.
  pose proof (IH p1 q1 H1) as [H3 H4]. pose proof (feed_all_core q1 q1 0 (length c) (concat cs) eq_refl) as [H5 H6].
  destruct (push_chunks p1 cs) as [p2 e2]. destruct (feed_all q1 (length c) (concat cs)) as [q2 f2]. cbn in *.
  rewrite !fmap_app. split; [congruence|]. rewrite H2. congruence.
Qed.

(** ** Positions *)

(** A sequence that has begun has a start, and one that has not has none. *)
Definition tracked (p : Parser) : Prop := p_state p = Ground ↔ sequence_start p = None.

Definition shift_parser (k : nat) (p : Parser) : Parser :=
  mk_parser (p_state p) (p_zone p) (Nat.add k <$> sequence_start p) (param_buf p).
Definition shift_event (k : nat) (e : LocatedEvent) : LocatedEvent :=
  mk_located (le_event e) (k + le_start e) (k + le_offset e) (le_zone e) (le_params e).

Lemma feed_tracked p o b : tracked p → tracked (feed p o b).1.
Proof.
  unfold tracked. intros Ht. unfold Osc133.feed, to_ground. destruct (p_state p) eqn:Es; repeat case_match; cbn; try done; try (by rewrite Es).
  all: split; [done|]; intros E; by apply Ht in E.
Qed.

Lemma feed_shift k p o b :
  tracked p → feed (shift_parser k p) (k + o) b = (shift_parser k (feed p o b).1, shift_event k <$> (feed p o b).2).
Proof.
  unfold tracked. intros Ht.
  assert (p_state p ≠ Ground → dispatch lossy (shift_parser k p) (S (k + o)) =
    (shift_parser k (dispatch lossy p (S o)).1, shift_event k <$> (dispatch lossy p (S o)).2)) as Hd.
  { intros Hne. unfold dispatch. cbn. destruct (marker_of lossy (param_buf p)) as [[[e z] ps]|]; [|done]. cbn.
    unfold shift_event, shift_parser. cbn. destruct (sequence_start p) as [s|]; [|by destruct Hne; apply Ht].
    cbn. by rewrite <- plus_n_Sm. }
  unfold Osc133.feed. cbn [shift_parser p_state p_zone sequence_start param_buf]. destruct (p_state p) eqn:Es.
  - destruct (b =? ESC); cbn; [done|]. unfold shift_parser. by rewrite Es.
  - destruct (b =? RIGHT_BRACKET); cbn; done.
  - destruct (_ || _); [rewrite (Hd ltac:(done)); by destruct (dispatch lossy p (S o))|]. destruct (b =? ESC); [done|].
    destruct (_ <? _)%nat; [done|]. cbn. unfold shift_parser. by rewrite Es.
  - destruct (b =? BACKSLASH); [rewrite (Hd ltac:(done)); by destruct (dispatch lossy p (S o))|]. done.
Qed.

Lemma feed_all_shift k p o data :
  tracked p →
  feed_all (shift_parser k p) (k + o) data = (shift_parser k (feed_all p o data).1, shift_event k <$> (feed_all p o data).2) ∧
  tracked (feed_all p o data).1.
Proof.
  revert p o. induction data as [|b data IH]; intros p o Ht; [done|]. cbn [Osc133.feed_all]. rewrite feed_shift by done.
  pose proof (feed_tracked p o b Ht) as Ht'. destruct (feed p o b) as [q e]. cbn in Ht' |- *.
  destruct (IH q (S o) Ht') as [H1 H2]. rewrite <- plus_n_Sm in H1. rewrite H1. destruct (feed_all q (S o) data) as [r f]. cbn in *.
  split; [|done]. by rewrite fmap_app.
Qed.

(** Where the parser may be and what it reports, in a chunk of which it has read [o] bytes. *)
Definition started (o : nat) (p : Parser) : Prop := from_option (λ s, (s ≤ o)%nat) True (sequence_start p).
Definition inside (n : nat) (e : LocatedEvent) : Prop := (le_start e ≤ n)%nat ∧ (le_offset e ≤ n)%nat.

Lemma feed_started p o b :
  started o p → started (S o) (feed p o b).1 ∧ Forall (inside (S o)) (feed p o b).2.
Proof.
  unfold started, inside. intros Hs. assert (from_option (λ s, (s ≤ S o)%nat) True (sequence_start p)) by (destruct (sequence_start p); cbn in *; lia).
  assert (default 0%nat (sequence_start p) ≤ S o)%nat by (destruct (sequence_start p); cbn in *; lia).
  unfold Osc133.feed, dispatch, to_ground. repeat case_match; simplify_eq; cbn; split; try done; try lia.
  all: rewrite ?Forall_singleton, ?Forall_nil; cbn; lia.
Qed.

Lemma feed_all_started p o data :
  started o p →
  started (o + length data) (feed_all p o data).1 ∧ Forall (inside (o + length data)) (feed_all p o data).2.
Proof.
  revert p o. induction data as [|b data IH]; intros p o Hs; cbn; [rewrite Nat.add_0_r; split; [done|constructor]|].
  destruct (feed_started p o b Hs) as [H1 H2]. destruct (feed p o b) as [q e]. cbn in H1, H2.
  destruct (IH q (S o) H1) as [H3 H4]. destruct (feed_all q (S o) data) as [r f]. cbn in *. rewrite <- plus_n_Sm. split; [done|].
  apply Forall_app. split; [|done]. eapply Forall_impl; [exact H2|]. unfold inside. cbn. intros; lia.
Qed.

(** The buffer of the parameters is bounded. *)
Lemma feed_all_bounded p o data :
  (length (param_buf p) ≤ PARAM_BUF_CAP)%nat → (length (param_buf (feed_all p o data).1) ≤ PARAM_BUF_CAP)%nat.
Proof.
  revert p o. induction data as [|b data IH]; intros p o Hl; [done|]. cbn [Osc133.feed_all].
  assert (length (param_buf (feed p o b).1) ≤ PARAM_BUF_CAP)%nat as H.
  { unfold Osc133.feed, dispatch, to_ground. repeat case_match; simplify_eq; cbn [fst param_buf length]; try done; try lia.
    rewrite length_app. cbn [length]. match goal with H : (_ <? _)%nat = true |- _ => apply Nat.ltb_lt in H end. lia. }
  destruct (feed p o b) as [q e]. pose proof (IH q (S o) H). by destruct (feed_all q (S o) data).
Qed.

(** ** Markers as a shell writes them *)

(** Text in which the parser finds nothing and after which it waits for the next sequence. *)
Definition quiet (text : list Z) : bool :=
  let '(p, es) := feed_all parser_new 0 text in bool_decide (p_state p = Ground) && bool_decide (length es = 0%nat).

Definition clean (payload : list Z) : bool :=
  forallb (λ b, negb (b =? ESC) && negb (b =? BEL) && negb (b =? C1_ST)) payload.

(** An operating system command and its terminator. *)
Definition osc (payload : list Z) : list Z := ESC :: RIGHT_BRACKET :: payload ++ [BEL].

(** Outside a sequence nothing but the state matters. *)
Definition alike (p1 p2 : Parser) : Prop :=
  p_state p1 = p_state p2 ∧ (p_state p1 = OscParam ∨ p_state p1 = OscEsc → param_buf p1 = param_buf p2).

Lemma feed_alike p1 p2 o1 o2 b :
  alike p1 p2 →
  alike (feed p1 o1 b).1 (feed p2 o2 b).1 ∧ ev_core <$> (feed p1 o1 b).2 = ev_core <$> (feed p2 o2 b).2.
Proof.
  intros [Es Hb]. unfold Osc133.feed. rewrite <- Es. unfold alike, to_ground, dispatch.
  destruct (p_state p1) eqn:E; [clear Hb|clear Hb|rewrite <- (Hb (or_introl eq_refl))|rewrite <- (Hb (or_intror eq_refl))];
    repeat case_match; simplify_eq; cbn; rewrite ?E, <- ?Es; split_and?; try done; try (intros [?|?]; congruence); auto.
Qed.

Lemma feed_all_alike p1 p2 o1 o2 data :
  alike p1 p2 →
  alike (feed_all p1 o1 data).1 (feed_all p2 o2 data).1 ∧
  ev_core <$> (feed_all p1 o1 data).2 = ev_core <$> (feed_all p2 o2 data).2.
Proof.
  revert p1 p2 o1 o2. induction data as [|b data IH]; intros p1 p2 o1 o2 Ha; [done|]. cbn [Osc133.feed_all].
  destruct (feed_alike p1 p2 o1 o2 b Ha) as [H1 H2].
  destruct (feed p1 o1 b) as [q1 e1], (feed p2 o2 b) as [q2 e2]. cbn in H1, H2. destruct (IH q1 q2 (S o1) (S o2) H1) as [H3 H4].
  destruct (feed_all q1 (S o1) data), (feed_all q2 (S o2) data). cbn in *. by rewrite !fmap_app, H2, H4.
Qed.

Lemma quiet_feeds p o text :
  p_state p = Ground → quiet text = true → p_state (feed_all p o text).1 = Ground ∧ (feed_all p o text).2 = [].
Proof.
  intros Hg. unfold quiet. assert (alike p parser_new) as Ha by (split; [done|]; rewrite Hg; intros [?|?]; done).
  destruct (feed_all_alike p parser_new o 0 text Ha) as [[H1 _] H2].
  destruct (feed_all parser_new 0 text) as [q es]. rewrite andb_true_iff, !bool_decide_eq_true. intros [Eq Ees]. cbn in *. split; [congruence|].
  apply nil_length_inv in Ees as ->. by apply fmap_nil_inv in H2.
Qed.

Lemma feed_payload p o payload :
  p_state p = OscParam → clean payload = true → (length (param_buf p) + length payload ≤ PARAM_BUF_CAP)%nat →
  feed_all p o payload = (mk_parser OscParam (p_zone p) (sequence_start p) (param_buf p ++ payload), []).
Proof.
  revert p o. induction payload as [|b payload IH]; intros p o Hp Hc Hl.
  { destruct p. cbn in *. subst. by rewrite app_nil_r. }
  cbn [clean forallb] in Hc. apply andb_prop in Hc as [Hb Hc]. apply andb_prop in Hb as [Hb H3]. apply andb_prop in Hb as [H1 H2].
  apply negb_true_iff in H1, H2, H3. cbn [Osc133.feed_all]. unfold Osc133.feed. rewrite Hp, H1, H2, H3. cbn [orb].
  cbn [length] in Hl. rewrite (proj2 (Nat.ltb_lt _ _)) by lia. rewrite IH; cbn; rewrite ?length_app; cbn; try done; [|lia].
  by rewrite <- app_assoc.
Qed.

(** A marker is reported with the place where it stands. *)
Lemma feed_osc p o payload e z ps :
  p_state p = Ground → clean payload = true → (length payload ≤ PARAM_BUF_CAP)%nat →
  marker_of lossy payload = Some (e, z, ps) →
  feed_all p o (osc payload) = (mk_parser Ground z None payload, [mk_located e o (o + length (osc payload)) z ps]).
Proof.
  intros Hg Hc Hl Hm. unfold osc. cbn [Osc133.feed_all]. unfold Osc133.feed at 1. rewrite Hg, Z.eqb_refl.
  unfold Osc133.feed at 1. cbn [p_state p_zone param_buf sequence_start Z.eqb Pos.eqb RIGHT_BRACKET].
  rewrite feed_all_app, feed_payload by done. cbn [p_zone sequence_start param_buf app Osc133.feed_all].
  unfold Osc133.feed. cbn [p_state BEL Z.eqb Pos.eqb orb]. unfold dispatch. cbn [param_buf sequence_start]. rewrite Hm. cbn.
  rewrite length_app. cbn. do 3 f_equal. lia.
Qed.
End pieces.

(** ** The captured text *)

Section tracker.
Context (lossy : list Z → string) (plain : list Z → string).

Notation push := (push lossy plain).
Notation handle_event := (handle_event plain).
Notation handle_events := (handle_events plain).

(** Output is kept whole up to the limit; past it the first bytes are kept and the rest is counted. *)
Definition buffers_ok (b : CaptureBuffers) : Prop :=
  0 ≤ b_observed b < u64_limit ∧
  if b_truncated b then length (b_output b) = MAX_OUTPUT_CAPTURE_BYTES
  else (length (b_output b) ≤ MAX_OUTPUT_CAPTURE_BYTES)%nat ∧
       b_observed b = Z.of_nat (length (b_output b)) `min` (u64_limit - 1).

Definition tracker_ok (t : Tracker) : Prop :=
  (length (param_buf (t_parser t)) ≤ PARAM_BUF_CAP)%nat ∧ tracked (t_parser t) ∧ buffers_ok (t_buffers t).

Lemma u64_limit_pos : 0 < u64_limit.
Proof. done. Qed.

Lemma no_buffers_ok : buffers_ok no_buffers.
Proof. split; cbn -[u64_limit MAX_OUTPUT_CAPTURE_BYTES]; pose proof u64_limit_pos; [lia|]. split; [lia|]. cbn. done. Qed.

#[local] Opaque MAX_OUTPUT_CAPTURE_BYTES u64_limit.
#[local] Arguments Nat.ltb : simpl never.

Lemma append_output_ok data b : buffers_ok b → buffers_ok (append_output data b).
Proof.
  unfold buffers_ok, append_output, saturating_add. pose proof u64_limit_pos. intros [Ho Hb].
  destruct (b_truncated b); cbn; [split; [lia|done]|]. destruct Hb as [Hl Ee]. split; [lia|].
  rewrite length_app, length_take. destruct (_ <? _)%nat eqn:E; [apply Nat.ltb_lt in E; lia|]. apply Nat.ltb_ge in E. lia.
Qed.

Lemma append_ok z data b : buffers_ok b → buffers_ok (append z data b).
Proof. destruct z; try done. apply append_output_ok. Qed.

(** Text that comes in two pieces is appended as the whole. *)
Lemma append_app z x y b : buffers_ok b → append z (x ++ y) b = append z y (append z x b).
Proof.
  intros [Ho Hb]. destruct z; cbn; rewrite <- ?app_assoc; try done. unfold append_output, saturating_add.
  rewrite length_app. pose proof u64_limit_pos. destruct (b_truncated b); cbn; [f_equal; lia|]. destruct Hb as [Hl Ee].
  set (m := (MAX_OUTPUT_CAPTURE_BYTES - length (b_output b))%nat).
  destruct (decide (length x ≤ m)%nat) as [Hx|Hx].
  - rewrite (proj2 (Nat.ltb_ge (length x `min` m) (length x))) by lia. cbn. rewrite (take_ge x) by lia.
    rewrite length_app, take_app_ge by lia. f_equal; [|lia|].
    + rewrite <- app_assoc. do 3 f_equal. lia.
    + apply eq_true_iff_eq. rewrite !Nat.ltb_lt. lia.
  - rewrite (proj2 (Nat.ltb_lt (length x `min` m) (length x))) by lia. cbn. rewrite take_app_le by lia. f_equal; [|lia|].
    + do 2 f_equal. lia.
    + apply Nat.ltb_lt. lia.
Qed.

Lemma append_nil z b : buffers_ok b → append z [] b = b.
Proof.
  intros [Ho Hb]. destruct b as [pr co ou ob tr ex hi se]. destruct z; cbn in *; rewrite ?app_nil_r; try done.
  unfold append_output, saturating_add. cbn. rewrite Z.add_0_r, ?take_nil, ?app_nil_r, (Z.min_r _ ob) by lia. by destruct tr.
Qed.

Lemma handle_event_ok e ps z b : buffers_ok b → buffers_ok (handle_event e ps z b).1.
Proof.
  intros Hb. pose proof no_buffers_ok. destruct e; cbn; try done; [by case_match|]. by destruct (params_get ps "history_id").
Qed.

Lemma handle_events_ok data es start z b :
  buffers_ok b → buffers_ok (handle_events data es start z b).1.2.
Proof.
  revert start z b. induction es as [|e es IH]; intros start z b Hb; cbn [Osc133.handle_events]; [done|].
  pose proof (handle_event_ok (le_event e) (le_params e) z
    (append z (slice data start (Nat.max (Nat.min (le_start e) (length data)) start)) b) (append_ok _ _ _ Hb)) as H.
  destruct (handle_event _ _ _ _) as [b1 c1]. specialize (IH (Nat.min (le_offset e) (length data)) (le_zone e) b1 H).
  by destruct (handle_events data es _ _ _) as [[[s' z'] b'] cs].
Qed.

Lemma restart_tracked st z buf : tracked (mk_parser st z (if decide (st = Ground) then None else Some 0%nat) buf).
Proof. unfold tracked. cbn. by destruct (decide (st = Ground)). Qed.

Lemma restart_started st z buf o : started o (mk_parser st z (if decide (st = Ground) then None else Some 0%nat) buf).
Proof. unfold started. cbn. destruct (decide (st = Ground)); cbn; [done|lia]. Qed.

Lemma push_ok t data : tracker_ok t → tracker_ok (push t data).1.
Proof.
  intros (Hp & _ & Hb). unfold Osc133.push, push_located. set (p0 := mk_parser _ _ _ _).
  assert (tracked p0) as Ht by apply restart_tracked. destruct (feed_all_shift lossy 0 p0 0 data Ht) as [_ H1].
  pose proof (feed_all_bounded lossy p0 0 data Hp) as H2. destruct (feed_all lossy p0 0 data) as [p es]. cbn in H1, H2.
  pose proof (handle_events_ok data es 0 (t_zone t) (t_buffers t) Hb) as H3.
  destruct (handle_events data es 0 _ _) as [[[s z] b] cs]. split_and!; [done..|]. cbn in *. destruct (_ <? _)%nat; [by apply append_ok|done].
Qed.

(** Chunks one after the other. *)
Fixpoint push_all (t : Tracker) (chunks : list (list Z)) : Tracker * list CommandCapture :=
  match chunks with
  | [] => (t, [])
  | c :: cs => let '(t, r) := push t c in let '(t, r') := push_all t cs in (t, r ++ r')
  end.

Lemma tracker_new_ok : tracker_ok tracker_new.
Proof. split_and!; cbn; [lia|done|apply no_buffers_ok]. Qed.

Lemma push_all_ok t chunks : tracker_ok t → tracker_ok (push_all t chunks).1.
Proof.
  revert t. induction chunks as [|c cs IH]; intros t Ht; [done|]. cbn. pose proof (push_ok t c Ht) as H.
  destruct (push t c) as [t1 r1]. specialize (IH t1 H). by destruct (push_all t1 cs).
Qed.

(** *** Cutting the stream between sequences *)

Lemma slice_left a b i j : (j ≤ length a)%nat → slice (a ++ b) i j = slice a i j.
Proof. intros H. unfold slice. by rewrite take_app_le. Qed.

Lemma slice_right (a b : list Z) i j : slice (a ++ b) (length a + i) (length a + j) = slice b i j.
Proof. unfold slice. by rewrite take_app_add, <- drop_drop, drop_app_length. Qed.

Lemma slice_cross (a b : list Z) i j : (i ≤ length a)%nat → slice (a ++ b) i (length a + j) = slice a i (length a) ++ slice b 0 j.
Proof. intros H. unfold slice. rewrite take_app_add, drop_app_le, (take_ge a) by lia. by rewrite drop_0. Qed.

(** The loop over the events and the text after the last of them, up to [e]. *)
Definition settle (data : list Z) (es : list LocatedEvent) (start : nat) (z : Zone) (b : CaptureBuffers) (e : nat)
    : Zone * CaptureBuffers * list CommandCapture :=
  let '(s, z, b, cs) := handle_events data es start z b in (z, append z (slice data s (Nat.max e s)) b, cs).

Lemma slice_empty (data : list Z) i j : (j ≤ i)%nat → slice data i j = [].
Proof. intros H. unfold slice. apply nil_length_inv. rewrite length_drop, length_take. lia. Qed.

Lemma settle_right a b es s z bf e :
  settle (a ++ b) (shift_event (length a) <$> es) (length a + s) z bf (length a + e) = settle b es s z bf e.
Proof.
  unfold settle. revert s z bf. induction es as [|ev es IH]; intros s z bf; cbn [fmap list_fmap Osc133.handle_events].
  - by rewrite Nat.add_max_distr_l, slice_right.
  - cbn [le_start le_offset le_event le_params le_zone shift_event].
    rewrite length_app, !Nat.add_min_distr_l, Nat.add_max_distr_l, slice_right. destruct (handle_event _ _ _ _) as [b1 c1].
    specialize (IH (Nat.min (le_offset ev) (length b)) (le_zone ev) b1).
    destruct (handle_events (a ++ b) _ _ _ _) as [[[? ?] ?] ?], (handle_events b es _ _ _) as [[[? ?] ?] ?]. by injection IH as -> -> ->.
Qed.

Lemma settle_cross a b es s z bf e :
  (s ≤ length a)%nat → buffers_ok bf →
  settle (a ++ b) (shift_event (length a) <$> es) s z bf (length a + e) = settle b es 0 z (append z (slice a s (length a)) bf) e.
Proof.
  intros Hs Hb. destruct es as [|ev es].
  - unfold settle. cbn [fmap list_fmap Osc133.handle_events].
    rewrite (Nat.max_l (length a + e) s), Nat.max_0_r, slice_cross, append_app by (done || lia). done.
  - unfold settle. cbn [fmap list_fmap Osc133.handle_events le_start le_offset le_event le_params le_zone shift_event].
    rewrite length_app, !Nat.add_min_distr_l, (Nat.max_l (length a + _) s), slice_cross, append_app, Nat.max_0_r by (done || lia).
    destruct (handle_event _ _ _ _) as [b1 c1].
    pose proof (settle_right a b es (Nat.min (le_offset ev) (length b)) (le_zone ev) b1 e) as H. unfold settle in H.
    destruct (handle_events (a ++ b) _ _ _ _) as [[[? ?] ?] ?], (handle_events b es _ _ _) as [[[? ?] ?] ?]. by injection H as -> -> ->.
Qed.

Lemma handle_events_left a b es s z bf :
  Forall (inside (length a)) es → (s ≤ length a)%nat →
  handle_events (a ++ b) es s z bf = handle_events a es s z bf ∧ ((handle_events a es s z bf).1.1.1 ≤ length a)%nat.
Proof.
  intros Hf. revert s z bf. induction Hf as [|ev es [H1 H2] Hf IH]; intros s z bf Hs; [done|]. cbn [Osc133.handle_events].
  rewrite length_app, !(Nat.min_l _ (length a + length b)), !(Nat.min_l _ (length a)), slice_left by lia.
  destruct (handle_event _ _ _ _) as [b1 c1]. destruct (IH (le_offset ev) (le_zone ev) b1 H2) as [-> H].
  by destruct (handle_events a es _ _ _) as [[[? ?] ?] ?].
Qed.

Lemma handle_events_app data es1 es2 s z b :
  handle_events data (es1 ++ es2) s z b =
  let '(s, z, b, c1) := handle_events data es1 s z b in
  let '(s, z, b, c2) := handle_events data es2 s z b in (s, z, b, c1 ++ c2).
Proof.
  revert s z b. induction es1 as [|e es1 IH]; intros s z b; cbn [app Osc133.handle_events].
  { by destruct (handle_events data es2 s z b) as [[[? ?] ?] ?]. }
  destruct (handle_event _ _ _ _) as [b1 c1]. rewrite IH. destruct (handle_events data es1 _ _ _) as [[[? ?] ?] ?].
  destruct (handle_events data es2 _ _ _) as [[[? ?] ?] ?]. by rewrite app_assoc.
Qed.

(** How far [push] takes the text. *)
Definition append_end (p : Parser) (n : nat) : nat :=
  match incomplete_osc_sequence_start p with Some s => Nat.min s n | None => n end.

Lemma push_settle t data :
  tracker_ok t →
  push t data =
  let '(p, es) := push_located lossy (t_parser t) data in
  let '(z, b, cs) := settle data es 0 (t_zone t) (t_buffers t) (append_end p (length data)) in (mk_tracker p z b, cs).
Proof.
  intros (_ & Ht & Hb). unfold Osc133.push. destruct (push_located lossy (t_parser t) data) as [p es]. unfold settle, append_end.
  pose proof (handle_events_ok data es 0 (t_zone t) (t_buffers t) Hb) as H3.
  destruct (handle_events data es 0 _ _) as [[[s z] b] cs]. cbn in H3. do 2 f_equal.
  destruct (incomplete_osc_sequence_start p) as [k|].
  - destruct (_ <? _)%nat eqn:E; [done|]. apply Nat.ltb_ge in E. by rewrite slice_empty, append_nil by (done || lia).
  - destruct (_ <? _)%nat eqn:E; [apply Nat.ltb_lt in E; by rewrite Nat.max_l by lia|]. apply Nat.ltb_ge in E.
    by rewrite slice_empty, append_nil by (done || lia).
Qed.

Definition tracker_core (t : Tracker) : PState * Zone * list Z * Zone * CaptureBuffers :=
  (core (t_parser t), t_zone t, t_buffers t).

Lemma push_located_app p a b p1 e1 :
  push_located lossy p a = (p1, e1) → p_state p1 = Ground →
  push_located lossy p (a ++ b) =
    (let '(p2, e2) := push_located lossy p1 b in (shift_parser (length a) p2, e1 ++ (shift_event (length a) <$> e2))) ∧
  Forall (inside (length a)) e1 ∧ tracked (push_located lossy p1 b).1.
Proof.
  unfold push_located. set (p0 := mk_parser (p_state p) _ _ _). intros E Hg. rewrite feed_all_app.
  destruct (feed_all_shift lossy 0 p0 0 a (restart_tracked _ _ _)) as [_ Ht1].
  destruct (feed_all_started lossy p0 0 a (restart_started _ _ _ _)) as [_ Hin]. rewrite E in *. cbn in Ht1, Hin |- *.
  assert (sequence_start p1 = None) as Hn by (by apply Ht1).
  replace (mk_parser (p_state p1) (p_zone p1) _ (param_buf p1)) with p1 by (destruct p1; cbn in *; subst; by rewrite decide_True).
  assert (shift_parser (length a) p1 = p1) as E1 by (destruct p1; unfold shift_parser; cbn in *; by rewrite Hn).
  destruct (feed_all_shift lossy (length a) p1 0 b Ht1) as [E2 Ht2]. rewrite E1, Nat.add_0_r in E2. rewrite E2.
  by destruct (feed_all lossy p1 0 b) as [p2 e2].
Qed.

Lemma append_end_shift k p n : tracked p → append_end (shift_parser k p) (k + n) = (k + append_end p n)%nat.
Proof.
  unfold append_end, incomplete_osc_sequence_start, shift_parser, tracked. cbn. intros Ht.
  destruct (sequence_start p) as [s|]; cbn; [destruct (p_state p); lia|]. by rewrite (proj2 Ht eq_refl).
Qed.

(** Two chunks are as one when no sequence is open between them. *)
Lemma push_app t a b :
  tracker_ok t → p_state (t_parser (push t a).1) = Ground →
  prod_map tracker_core id (push t (a ++ b)) =
  let '(t1, c1) := push t a in let '(t2, c2) := push t1 b in (tracker_core t2, c1 ++ c2).
Proof.
  intros Hok. pose proof (push_ok t a Hok) as Hok1. rewrite !(push_settle t) by done.
  rewrite push_settle in Hok1 by done. destruct (push_located lossy (t_parser t) a) as [p1 e1] eqn:E1. unfold settle in Hok1 |- *.
  pose proof (handle_events_ok a e1 0 (t_zone t) (t_buffers t) (proj2 (proj2 Hok))) as Hb1.
  destruct (handle_events a e1 0 (t_zone t) (t_buffers t)) as [[[s1 z1] b1] c1] eqn:Eh. cbn [fst snd t_parser] in *. intros Hg.
  destruct (push_located_app _ a b _ _ E1 Hg) as (E2 & Hin & Ht2). rewrite E2, push_settle by done. cbn [t_parser t_zone t_buffers].
  destruct (push_located lossy p1 b) as [p2 e2]. cbn [fst] in Ht2. rewrite handle_events_app, length_app, append_end_shift by done.
  destruct (handle_events_left a b e1 0 (t_zone t) (t_buffers t) Hin ltac:(lia)) as [-> Hle]. rewrite Eh in *. cbn [fst] in Hle.
  pose proof (settle_cross a b e2 s1 z1 b1 (append_end p2 (length b)) Hle Hb1) as Hc. unfold settle in Hc |- *.
  assert (append_end p1 (length a) = length a) as -> by (unfold append_end, incomplete_osc_sequence_start; by rewrite Hg).
  rewrite Nat.max_l by lia. destruct (handle_events (a ++ b) _ _ _ _) as [[[? ?] ?] ?], (handle_events b e2 _ _ _) as [[[? ?] ?] ?].
  by injection Hc as -> -> ->.
Qed.

(** *** A whole command *)

Lemma push_then t a t1 c1 b :
  tracker_ok t → push t a = (t1, c1) → p_state (t_parser t1) = Ground →
  prod_map tracker_core id (push t (a ++ b)) = prod_map id (app c1) (prod_map tracker_core id (push t1 b)).
Proof. intros Hok E Hg. rewrite push_app; rewrite ?E; try done. by destruct (push t1 b). Qed.

Lemma push_quiet t text :
  tracker_ok t → p_state (t_parser t) = Ground → quiet lossy text = true →
  ∃ p, push t text = (mk_tracker p (t_zone t) (append (t_zone t) text (t_buffers t)), []) ∧ p_state p = Ground.
Proof.
  intros Hok Hg Hq. rewrite push_settle by done. unfold push_located. set (p0 := mk_parser _ _ _ _).
  destruct (quiet_feeds lossy p0 0 text Hg Hq) as [H1 H2]. destruct (feed_all lossy p0 0 text) as [p es]. cbn in H1, H2. subst es.
  exists p. split; [|done]. unfold settle, append_end, incomplete_osc_sequence_start. rewrite H1. cbn. unfold slice.
  by rewrite Nat.max_0_r, take_ge, drop_0 by lia.
Qed.

Lemma push_osc t payload e z ps :
  tracker_ok t → p_state (t_parser t) = Ground → clean payload = true → (length payload ≤ PARAM_BUF_CAP)%nat →
  marker_of lossy payload = Some (e, z, ps) →
  push t (osc payload) =
    let '(b, cs) := handle_event e ps (t_zone t) (t_buffers t) in (mk_tracker (mk_parser Ground z None payload) z b, cs).
Proof.
  intros Hok Hg Hc Hl Hm. rewrite push_settle by done. unfold push_located. set (p0 := mk_parser _ _ _ _).
  rewrite (feed_osc lossy p0 0 payload e z ps) by done. rewrite Nat.add_0_l. unfold settle, append_end.
  cbn [Osc133.handle_events le_start le_offset le_event le_params le_zone incomplete_osc_sequence_start p_state].
  rewrite Nat.min_0_l, Nat.max_0_r, Nat.min_id, slice_empty, append_nil by (done || lia || apply Hok).
  pose proof (handle_event_ok e ps (t_zone t) (t_buffers t) (proj2 (proj2 Hok))) as Hb. destruct (handle_event _ _ _ _) as [b cs].
  by rewrite slice_empty, append_nil, app_nil_r by (done || lia).
Qed.
End tracker.

(** A decidable proposition about closed terms. *)
Ltac by_decide := apply (bool_decide_unpack _); vm_compute; exact I.

(** What [__atuin_osc133_command_finished] of the shell plugins prints. *)
Definition finished (exit hid sid : string) : list Z :=
  zbytes "133;D;" ++ zbytes exit ++ SEMICOLON :: zbytes ("history_id=" +:+ hid) ++ SEMICOLON :: zbytes ("session_id=" +:+ sid).

(** The bytes of one command: the markers of the shell plugins and the text between them. *)
Definition cycle (prompt command output : list Z) (exit hid sid : string) : list Z :=
  osc (zbytes "133;A;cl=line") ++ prompt ++ osc (zbytes "133;B") ++ command ++
  osc (zbytes "133;C") ++ output ++ osc (finished exit hid sid).

Definition token (s : string) : bool := forallb (λ c, graphic c && negb (code c =? SEMICOLON)) (chars s).

Lemma token_spec s : token s = true → Forall (λ b, 33 ≤ b < 127 ∧ b ≠ SEMICOLON) (zbytes s).
Proof.
  unfold token, zbytes, graphic. rewrite Forall_fmap, forallb_forall, Forall_forall. intros H c Hc. specialize (H c ltac:(by apply list_elem_of_In)).
  apply andb_prop in H as [H1 H2]. apply andb_prop in H1 as [H0 H1]. apply negb_true_iff in H2. unfold SEMICOLON in *. cbn. lia.
Qed.

Lemma zbytes_app s t : zbytes (s +:+ t) = zbytes s ++ zbytes t.
Proof. unfold zbytes. by rewrite chars_app, fmap_app. Qed.

Lemma split_l_none {A} `{EqDecision A} (c : A) l : c ∉ l → split_l c l = [l].
Proof. induction l as [|a l IH]; [done|]. rewrite not_elem_of_cons. intros [H1 H2]. cbn. rewrite decide_False, IH; done. Qed.

Lemma split_l_app {A} `{EqDecision A} (c : A) l r : c ∉ l → split_l c (l ++ c :: r) = l :: split_l c r.
Proof.
  induction l as [|a l IH]; cbn; [by rewrite decide_True|]. rewrite not_elem_of_cons. intros [H1 H2].
  by rewrite decide_False, IH by done.
Qed.

Lemma not_semicolon l : Forall (λ b, 33 ≤ b < 127 ∧ b ≠ SEMICOLON) l → SEMICOLON ∉ l.
Proof. rewrite Forall_forall. intros H Hin. by apply H in Hin as [_ ?]. Qed.

Lemma clean_graphic l : Forall (λ b, 33 ≤ b < 127) l → clean l = true.
Proof.
  unfold clean. induction 1 as [|b l Hb Hl IH]; [done|]. cbn [forallb]. rewrite IH, andb_true_r. unfold ESC, BEL, C1_ST.
  rewrite !(proj2 (Z.eqb_neq _ _)) by lia. done.
Qed.

Lemma parse_i32_chars l c : parse_i32 l = Some c → Forall (λ b, 33 ≤ b < 127 ∧ b ≠ SEMICOLON) l.
Proof.
  unfold parse_i32. intros H.
  assert (∀ d, forallb (λ c, (48 <=? c) && (c <? 58)) d = true → Forall (λ b, 33 ≤ b < 127 ∧ b ≠ SEMICOLON) d) as Hd.
  { intros d. rewrite forallb_forall, Forall_forall. intros Hd b Hb. specialize (Hd b ltac:(by apply list_elem_of_In)). unfold SEMICOLON. lia. }
  assert (∃ neg ds, forallb (λ c, (48 <=? c) && (c <? 58)) ds = true ∧ (l = ds ∨ l = 45 :: ds ∨ l = 43 :: ds) ∧ (neg : bool) = neg)
    as (_ & ds & Hf & Hl & _).
  { revert H. set (s := match l with 45 :: l' => (true, l') | 43 :: l' => (false, l') | _ => (false, l) end).
    intros H. exists s.1, s.2. destruct s as [neg ds] eqn:Es. cbn. split.
    - destruct (forallb _ ds); done.
    - split; [|done]. unfold s in Es. repeat case_match; simplify_eq; auto. }
  destruct Hl as [-> |[-> | ->]]; [by apply Hd|constructor; [unfold SEMICOLON; lia|by apply Hd]..].
Qed.

Section command.
Context (lossy : list Z → string) (plain : list Z → string).
(** [String::from_utf8_lossy] leaves ASCII as it is. *)
Context (lossy_ascii : ∀ s, is_ascii s = true → lossy (zbytes s) = s).

Lemma token_ascii s : token s = true → is_ascii s = true.
Proof.
  unfold token, is_ascii, graphic. rewrite !forallb_forall. intros H c Hc. specialize (H c Hc). lia.
Qed.

Lemma is_ascii_app s t : is_ascii (s +:+ t) = is_ascii s && is_ascii t.
Proof. unfold is_ascii. by rewrite chars_app, forallb_app. Qed.

Lemma parse_param_pair k v :
  is_ascii (k +:+ "=") = true → byte 61 ∉ chars k → token v = true →
  parse_param lossy (zbytes (k +:+ "=" +:+ v)) = PKeyValue k v.
Proof.
  intros Hk Hn Hv. unfold parse_param. rewrite lossy_ascii.
  - unfold split_once. rewrite !chars_app. cbn [app]. change (chars "=") with [byte 61].
    assert (split_once_l (byte 61) (chars k ++ [byte 61] ++ chars v) = Some (chars k, chars v)) as ->.
    { revert Hn. induction (chars k) as [|c l IH]; cbn; [done|]. rewrite not_elem_of_cons. intros [H1 H2].
      rewrite decide_False by congruence. cbn in IH. by rewrite IH. }
    by rewrite !unchars_chars.
  - rewrite is_ascii_app in Hk. rewrite !is_ascii_app. apply andb_prop in Hk as [-> Hk]. by rewrite (token_ascii v).
Qed.

Lemma parse_pair hid sid :
  token hid = true → token sid = true →
  parse_params lossy (zbytes ("history_id=" +:+ hid) ++ SEMICOLON :: zbytes ("session_id=" +:+ sid)) =
    [PKeyValue "history_id" hid; PKeyValue "session_id" sid].
Proof.
  intros H1 H2. unfold parse_params. rewrite split_l_app, split_l_none.
  - rewrite !filter_cons, !decide_True, filter_nil by done. cbn [fmap list_fmap].
    change ("history_id=" +:+ hid) with ("history_id" +:+ "=" +:+ hid). change ("session_id=" +:+ sid) with ("session_id" +:+ "=" +:+ sid).
    rewrite !parse_param_pair; try done; by_decide.
  - rewrite zbytes_app. apply not_elem_of_app. split; [by_decide|]. by apply not_semicolon, token_spec.
  - rewrite zbytes_app. apply not_elem_of_app. split; [by_decide|]. by apply not_semicolon, token_spec.
Qed.

Lemma parse_finished exit code rest :
  parse_i32 (zbytes exit) = Some code →
  parse_command_finished_params lossy (zbytes exit ++ SEMICOLON :: rest) = (Some code, parse_params lossy rest).
Proof.
  intros Hx. unfold parse_command_finished_params.
  assert (list_find (λ b, b = SEMICOLON) (zbytes exit ++ SEMICOLON :: rest) = Some (length (zbytes exit), SEMICOLON)) as ->.
  { apply list_find_Some. split_and!; [by rewrite list_lookup_middle|done|]. intros j y Hj Hlt Ey.
    rewrite lookup_app_l in Hj by done. apply list_elem_of_lookup_2 in Hj. subst y.
    by apply (not_semicolon (zbytes exit)); [eapply parse_i32_chars|]. }
  rewrite take_app_length, <- Nat.add_1_r, <- drop_drop, drop_app_length. cbn [drop].
  destruct (zbytes exit) as [|x xs] eqn:Ex; [done|]. cbn [app parse_exit_code]. by rewrite Hx.
Qed.

Lemma marker_finished exit code hid sid :
  parse_i32 (zbytes exit) = Some code → token hid = true → token sid = true →
  marker_of lossy (finished exit hid sid) =
    Some (CommandFinished (Some code), ZUnknown, [PKeyValue "history_id" hid; PKeyValue "session_id" sid]).
Proof.
  intros Hx H1 H2. unfold finished, marker_of. change (zbytes "133;D;") with [49; 51; 51; 59; 68; 59].
  cbn [app length take lookup list_lookup drop]. rewrite !bool_decide_true by done. rewrite andb_false_r.
  cbn [Nat.ltb Nat.leb orb negb]. by rewrite drop_0, (parse_finished _ code), parse_pair.
Qed.

Lemma clean_finished exit code hid sid :
  parse_i32 (zbytes exit) = Some code → token hid = true → token sid = true → clean (finished exit hid sid) = true.
Proof.
  intros Hx H1 H2. apply clean_graphic. unfold finished. rewrite !zbytes_app.
  assert (∀ l, Forall (λ b, 33 ≤ b < 127 ∧ b ≠ SEMICOLON) l → Forall (λ b, 33 ≤ b < 127) l) as Hw by (intros l H; eapply Forall_impl; [exact H|]; cbn; tauto).
  rewrite !Forall_app, !Forall_cons, !Forall_app, !Forall_cons, !Forall_app.
  split_and!; first [by apply Hw, token_spec|by eapply Hw, parse_i32_chars|unfold SEMICOLON; lia|by_decide].
Qed.

(** The text of a zone that begins with empty buffers. *)
Definition captured (prompt command output : list Z) (code : Z) (hid sid : string) : CommandCapture :=
  mk_capture (plain prompt) (trim_crlf (plain command)) (plain (take MAX_OUTPUT_CAPTURE_BYTES output)) (Some code)
    (Some hid) (Some sid) (MAX_OUTPUT_CAPTURE_BYTES <? length output)%nat (Z.min (u64_limit - 1) (Z.of_nat (length output))).

#[local] Opaque MAX_OUTPUT_CAPTURE_BYTES u64_limit.
#[local] Arguments Nat.ltb : simpl never.

Lemma append_output_fresh pr co output :
  append ZOutput output (mk_buffers pr co [] 0 false None None None) =
  mk_buffers pr co (take MAX_OUTPUT_CAPTURE_BYTES output) (Z.min (u64_limit - 1) (Z.of_nat (length output)))
    (MAX_OUTPUT_CAPTURE_BYTES <? length output)%nat None None None.
Proof.
  cbn. unfold append_output, saturating_add. cbn. rewrite Nat.sub_0_r. f_equal.
  - destruct (decide (length output ≤ MAX_OUTPUT_CAPTURE_BYTES)%nat); [by rewrite Nat.min_l, !take_ge by lia|by rewrite Nat.min_r by lia].
  - apply eq_true_iff_eq. rewrite !Nat.ltb_lt. lia.
Qed.

(** A marker that reports nothing and the text of its zone. *)
Lemma push_zone t payload e z ps text b :
  tracker_ok t → p_state (t_parser t) = Ground →
  clean payload = true → (length payload ≤ PARAM_BUF_CAP)%nat → marker_of lossy payload = Some (e, z, ps) →
  handle_event plain e ps (t_zone t) (t_buffers t) = (b, []) → quiet lossy text = true →
  ∃ t', tracker_ok t' ∧ p_state (t_parser t') = Ground ∧ t_zone t' = z ∧ t_buffers t' = append z text b ∧
    ∀ rest, prod_map tracker_core id (push lossy plain t (osc payload ++ text ++ rest)) =
            prod_map tracker_core id (push lossy plain t' rest).
Proof.
  intros Hok Hg Hc Hl Hm Hb Hq. pose proof (push_osc lossy plain t payload e z ps Hok Hg Hc Hl Hm) as E1. rewrite Hb in E1.
  pose proof (push_ok lossy plain t (osc payload) Hok) as Hok1. rewrite E1 in Hok1. cbn [fst] in Hok1.
  destruct (push_quiet lossy plain _ text Hok1 eq_refl Hq) as (p & E2 & Hg2). cbn [t_zone t_buffers] in E2.
  pose proof (push_ok lossy plain _ text Hok1) as Hok2. rewrite E2 in Hok2. exists (mk_tracker p z (append z text b)).
  split_and!; try done. intros rest. rewrite (push_then lossy plain _ _ _ _ _ Hok E1), (push_then lossy plain _ _ _ _ _ Hok1 E2) by done.
  by destruct (push lossy plain _ rest).
Qed.

Lemma marker_prompt : marker_of lossy (zbytes "133;A;cl=line") = Some (PromptStart, ZPrompt, [PKeyValue "cl" "line"]).
Proof.
  unfold marker_of. change (drop 6 _) with (zbytes "cl=line"). unfold parse_params. change (split_l _ _) with [zbytes "cl=line"].
  rewrite filter_cons, decide_True, filter_nil by done. cbn [fmap list_fmap].
  change "cl=line" with ("cl" +:+ "=" +:+ "line"). by rewrite parse_param_pair; [|done|by_decide|done].
Qed.

Lemma cycle_core t prompt command output exit code hid sid :
  tracker_ok t → p_state (t_parser t) = Ground → t_zone t ≠ ZPrompt →
  quiet lossy prompt = true → quiet lossy command = true → quiet lossy output = true →
  parse_i32 (zbytes exit) = Some code → token hid = true → token sid = true →
  (length (finished exit hid sid) ≤ PARAM_BUF_CAP)%nat →
  let c := captured prompt command output code hid sid in
  cc_command c ≠ "" ∨ cc_output c ≠ "" →
  prod_map tracker_core id (push lossy plain t (cycle prompt command output exit hid sid)) =
    (Ground, ZUnknown, finished exit hid sid, ZUnknown, no_buffers, [c]).
Proof.
  intros Hok Hg Hz Hp Hc Ho Hx Hh Hs Hl c Hne. unfold cycle.
  destruct (push_zone t (zbytes "133;A;cl=line") PromptStart ZPrompt [PKeyValue "cl" "line"] prompt no_buffers)
    as (t1 & Hok1 & Hg1 & Hz1 & Hb1 & ->); try done; [by_decide|by rewrite marker_prompt|cbn; by rewrite decide_False|].
  destruct (push_zone t1 (zbytes "133;B") CommandStart ZInput [] command (t_buffers t1))
    as (t2 & Hok2 & Hg2 & Hz2 & Hb2 & ->); try done; [by_decide|].
  destruct (push_zone t2 (zbytes "133;C") CommandExecuted ZOutput [] output (t_buffers t2))
    as (t3 & Hok3 & Hg3 & Hz3 & Hb3 & ->); try done; [by_decide|].
  rewrite (push_osc lossy plain t3 _ _ _ _ Hok3 Hg3 (clean_finished exit code hid sid Hx Hh Hs) Hl (marker_finished exit code hid sid Hx Hh Hs)).
  assert (t_buffers t3 = mk_buffers prompt command (take MAX_OUTPUT_CAPTURE_BYTES output)
    (Z.min (u64_limit - 1) (Z.of_nat (length output))) (MAX_OUTPUT_CAPTURE_BYTES <? length output)%nat None None None) as ->
    by (rewrite Hb3, Hb2, Hb1; apply append_output_fresh).
  unfold handle_event, finish_capture. cbn. destruct (bool_decide _) eqn:E1; [|done]. destruct (bool_decide (plain _ = _)) eqn:E2; [|done].
  apply bool_decide_eq_true in E1, E2. by destruct Hne.
Qed.

(** C27: the bytes of one command as the shell plugins mark them, a prompt, a command line, its output
    and an exit code, give exactly one capture with that prompt, the command line without its line
    ends, the output up to the limit, the exit code, the history and the session id; afterwards the
    tracker is empty. *)
Theorem command_cycle_captured t prompt command output exit code hid sid :
  tracker_ok t → p_state (t_parser t) = Ground → t_zone t ≠ ZPrompt →
  quiet lossy prompt = true → quiet lossy command = true → quiet lossy output = true →
  parse_i32 (zbytes exit) = Some code → token hid = true → token sid = true →
  (length (finished exit hid sid) ≤ PARAM_BUF_CAP)%nat →
  let c := captured prompt command output code hid sid in
  cc_command c ≠ "" ∨ cc_output c ≠ "" →
  let '(t', cs) := push lossy plain t (cycle prompt command output exit hid sid) in
  cs = [c] ∧ t_buffers t' = no_buffers ∧ t_zone t' = ZUnknown ∧ p_state (t_parser t') = Ground.
Proof.
  intros Hok Hg Hz Hp Hc Ho Hx Hh Hs Hl c Hne. unfold cycle.
  pose proof (cycle_core t prompt command output exit code hid sid Hok Hg Hz Hp Hc Ho Hx Hh Hs Hl Hne) as E. unfold cycle in E.
  destruct (push lossy plain t _) as [t' cs]. by injection E.
Qed.
End command.

(** ** Theorems *)

Lemma max_output_small : Z.of_nat MAX_OUTPUT_CAPTURE_BYTES < u64_limit - 1.
Proof. by vm_compute. Qed.
#[local] Opaque MAX_OUTPUT_CAPTURE_BYTES u64_limit PARAM_BUF_CAP.

(** The markers that the parser reports, with their zones and parameters, and the state in which it
    ends do not depend on how the stream is cut into chunks. *)
Theorem markers_survive_chunking lossy chunks :
  core (push_chunks lossy parser_new chunks).1 = core (push_located lossy parser_new (concat chunks)).1 ∧
  ev_core <$> (push_chunks lossy parser_new chunks).2 = ev_core <$> (push_located lossy parser_new (concat chunks)).2.
Proof. exact (push_chunks_core lossy parser_new parser_new chunks eq_refl). Qed.

(** Whatever a terminal sends, the buffer of the parameters stays within its capacity, the captured
    output within a mebibyte, and output is dropped only when the limit is reached. *)
Theorem capture_is_bounded lossy plain chunks :
  let t := (push_all lossy plain tracker_new chunks).1 in
  (length (param_buf (t_parser t)) ≤ PARAM_BUF_CAP)%nat ∧
  (length (b_output (t_buffers t)) ≤ MAX_OUTPUT_CAPTURE_BYTES)%nat ∧
  (if b_truncated (t_buffers t) then length (b_output (t_buffers t)) = MAX_OUTPUT_CAPTURE_BYTES
   else b_observed (t_buffers t) = Z.of_nat (length (b_output (t_buffers t)))).
Proof.
  destruct (push_all_ok lossy plain tracker_new chunks tracker_new_ok) as (H1 & _ & Ho & H2). intros t. fold t in H1, Ho, H2.
  pose proof max_output_small. destruct (b_truncated (t_buffers t)); split_and!; (exact H1 || lia).
Qed.

(** A chunk that ends outside an escape sequence may be cut off: what is captured from the two
    chunks, and the buffers afterwards, are those of the chunks sent as one. *)
Theorem capture_in_pieces lossy plain t a b :
  tracker_ok t → p_state (t_parser (push lossy plain t a).1) = Ground →
  prod_map tracker_core id (push lossy plain t (a ++ b)) =
  let '(t1, c1) := push lossy plain t a in let '(t2, c2) := push lossy plain t1 b in (tracker_core t2, c1 ++ c2).
Proof. apply push_app. Qed.

(** *** Examples *)

#[local] Transparent MAX_OUTPUT_CAPTURE_BYTES u64_limit PARAM_BUF_CAP.

Definition ascii_lossy (l : list Z) : string := unchars (byte <$> l).

Lemma ascii_lossy_ascii s : is_ascii s = true → ascii_lossy (zbytes s) = s.
Proof.
  intros _. unfold ascii_lossy, zbytes. rewrite <- list_fmap_compose, <- (unchars_chars s) at 1. rewrite chars_unchars.
  rewrite <- (unchars_chars s) at 2. f_equal. induction (chars s) as [|c l IH]; [done|]. cbn. f_equal; [|done].
  unfold byte, code. by rewrite Nat2Z.id, Ascii.ascii_nat_embedding.
Qed.

Lemma command_cycle_captured_witness :
  (push ascii_lossy ascii_lossy tracker_new
     (cycle (zbytes "$ ") (zbytes "ls" ++ [13; 10]) (zbytes "a b") "1" "018f" "abcd")).2 =
  [captured ascii_lossy (zbytes "$ ") (zbytes "ls" ++ [13; 10]) (zbytes "a b") 1 "018f" "abcd"].
Proof.
  pose proof (command_cycle_captured ascii_lossy ascii_lossy ascii_lossy_ascii tracker_new
    (zbytes "$ ") (zbytes "ls" ++ [13; 10]) (zbytes "a b") "1" 1 "018f" "abcd" tracker_new_ok eq_refl ltac:(done)
    ltac:(by vm_compute) ltac:(by vm_compute) ltac:(by vm_compute) ltac:(by vm_compute) ltac:(by vm_compute) ltac:(by vm_compute)
    ltac:(by_decide) ltac:(left; by_decide)) as H.
  destruct (push _ _ _ _) as [t cs]. exact (proj1 H).
Defined.

Lemma capture_in_pieces_witness :
  prod_map tracker_core id (push ascii_lossy ascii_lossy tracker_new (osc (zbytes "133;C") ++ zbytes "out")) =
  (Ground, ZOutput, zbytes "133;C", ZOutput, mk_buffers [] [] (zbytes "out") 3 false None None None, []).
Proof.
  rewrite (capture_in_pieces ascii_lossy ascii_lossy tracker_new (osc (zbytes "133;C")) (zbytes "out") tracker_new_ok
    ltac:(by vm_compute)).
  vm_compute. reflexivity.
Defined.

(** A window title in the prompt that is cut in two: its head is taken for a marker that is still to
    come and left out, its tail is then kept as text of the prompt. *)
Lemma title_tail_captured :
  let whole := push_all ascii_lossy ascii_lossy tracker_new [osc (zbytes "133;A") ++ osc (zbytes "0;title") ++ zbytes "$ "] in
  let cut := push_all ascii_lossy ascii_lossy tracker_new
    [osc (zbytes "133;A") ++ [ESC; RIGHT_BRACKET] ++ zbytes "0;ti"; zbytes "tle" ++ [BEL] ++ zbytes "$ "] in
  b_prompt (t_buffers whole.1) = osc (zbytes "0;title") ++ zbytes "$ " ∧
  b_prompt (t_buffers cut.1) = zbytes "tle" ++ [BEL] ++ zbytes "$ ".
Proof. by vm_compute. Qed.
