(* ===== verification/PtyProtocol.v ===== *)
(** * The socket protocol of the terminal proxy ([atuin-pty-proxy/src/protocol.rs], [screen.rs])

    Frames, subscriptions and screen snapshots as bytes; the reader that takes frames from a stream that
    arrives in pieces; a connection from its greeting to its end; the thread that owns the screen and
    feeds the subscribers. A byte is its value; a panic is [None]. The terminal emulator ([vt100]) is a
    parameter. *)
From S2P Require Import Prelude Text.

(** ** Frames *)

Definition MAGIC : list Z := [65; 80; 88; 49].
Definition PROTOCOL_VERSION : Z := 1.
Definition MAX_FRAME_LEN : Z := 1024 * 1024.
Definition FRAME_SUBSCRIBE : Z := 1.
Definition FRAME_INPUT : Z := 2.
Definition FRAME_HELLO : Z := 129.
Definition FRAME_KEYFRAME : Z := 130.
Definition FRAME_OUTPUT : Z := 131.
Definition FRAME_RESIZE : Z := 132.
Definition FRAME_END : Z := 133.
Definition SUBSCRIBE_FLAG_WANT_INPUT : Z := 1.

Inductive Greeting : Type := Legacy | V2.

(** [classify_greeting] *)
Definition classify_greeting (first : list Z) : Greeting := if bool_decide (first = MAGIC) then V2 else Legacy.

Notation zlen l := (Z.of_nat (length l)).

(** [encode_frame]; it panics on a payload that is too long. *)
Definition encode_frame (frame_type : Z) (payload : list Z) : option (list Z) :=
  if zlen payload <=? MAX_FRAME_LEN then Some (frame_type :: be 4 (zlen payload) ++ payload) else None.

(** [subscribe_frame] *)
Definition subscribe_frame (want_input : bool) (token : list Z) : option (list Z) :=
  if zlen token <? 65536
  then encode_frame FRAME_SUBSCRIBE ((if want_input then SUBSCRIBE_FLAG_WANT_INPUT else 0) :: be 2 (zlen token) ++ token)
  else None.

(** [decode_subscribe] *)
Definition decode_subscribe (payload : list Z) : option (bool * list Z) :=
  match payload with
  | flags :: a :: b :: token =>
      if (length token =? Z.to_nat (unbe [a; b]))%nat then Some (negb (Z.land flags SUBSCRIBE_FLAG_WANT_INPUT =? 0), token) else None
  | _ => None
  end.

Definition hello_frame (input_granted : bool) : option (list Z) :=
  encode_frame FRAME_HELLO [PROTOCOL_VERSION; if input_granted then 1 else 0].

(** [decode_hello] *)
Definition decode_hello (payload : list Z) : option (Z * bool) :=
  match payload with v :: g :: _ => Some (v, negb (g =? 0)) | _ => None end.

Definition input_frame (data : list Z) : option (list Z) := encode_frame FRAME_INPUT data.
Definition resize_frame (rows cols : Z) : option (list Z) := encode_frame FRAME_RESIZE (be 2 rows ++ be 2 cols).

(** [decode_resize] *)
Definition decode_resize (payload : list Z) : option (Z * Z) :=
  match payload with [a; b; c; d] => Some (unbe [a; b], unbe [c; d]) | _ => None end.

Definition end_frame : option (list Z) := encode_frame FRAME_END [].

(** ** Snapshots *)

Record Snapshot : Type := mk_snapshot {
  s_rows : Z; s_cols : Z; s_cursor_row : Z; s_cursor_col : Z; rows_data : list (list Z)
}.

(** The loop of [Snapshot::encode]; it panics on a row of [u32::MAX] bytes or more. *)
Fixpoint encode_rows (rows : list (list Z)) : option (list Z) :=
  match rows with
  | [] => Some []
  | r :: rs => if zlen r <? 2 ^ 32 then (λ t, be 4 (zlen r) ++ r ++ t) <$> encode_rows rs else None
  end.

(** [Snapshot::encode] *)
Definition snapshot_encode (s : Snapshot) : option (list Z) :=
  (λ t, be 2 (s_rows s) ++ be 2 (s_cols s) ++ be 2 (s_cursor_row s) ++ be 2 (s_cursor_col s) ++ t) <$> encode_rows (rows_data s).

(** The loop of [Snapshot::decode]; every row takes four bytes or more. *)
Fixpoint decode_rows (fuel : nat) (data : list Z) : option (list (list Z)) :=
  match data, fuel with
  | [], _ => Some []
  | _, O => None
  | a :: b :: c :: d :: data, S fuel =>
      let n := Z.to_nat (unbe [a; b; c; d]) in
      if (n <=? length data)%nat then cons (take n data) <$> decode_rows fuel (drop n data) else None
  | _, _ => None
  end.

(** [Snapshot::decode] *)
Definition snapshot_decode (data : list Z) : option Snapshot :=
  match data with
  | a :: b :: c :: d :: e :: f :: g :: h :: rest =>
      mk_snapshot (unbe [a; b]) (unbe [c; d]) (unbe [e; f]) (unbe [g; h]) <$> decode_rows (length rest) rest
  | _ => None
  end.

(** ** Reading a stream that arrives in pieces *)

(** What the calls of [Read::read] return in turn; after the last there is nothing more. *)
Inductive ReadEv : Type := Got (l : list Z) | Interrupted | Failed.
Inductive ReadErr : Type := UnexpectedEof | InvalidData | IoFailed.

(** What is left of a piece. *)
Definition leave (l : list Z) (r : list ReadEv) : list ReadEv := match l with [] => r | _ => Got l :: r end.

Inductive Filled : Type := Full (l : list Z) (r : list ReadEv) | Eof (acc : list Z) (r : list ReadEv) | Broken.

(** The loop shared by [read_exact_or_eof] and [Read::read_exact]: [need] more bytes after [acc]. *)
Fixpoint fill (need : nat) (acc : list Z) (r : list ReadEv) : Filled :=
  match need with
  | O => Full acc r
  | _ =>
      match r with
      | [] => Eof acc []
      | Got [] :: r' => Eof acc r'
      | Got l :: r' =>
          if (need <=? length l)%nat then Full (acc ++ take need l) (leave (drop need l) r')
          else fill (need - length l) (acc ++ l) r'
      | Interrupted :: r' => fill need acc r'
      | Failed :: _ => Broken
      end
  end.

(** [read_exact_or_eof] on the five bytes of a header. *)
Definition read_exact_or_eof (n : nat) (r : list ReadEv) : result (option (list Z) * list ReadEv) ReadErr :=
  match fill n [] r with
  | Full l r => Ok (Some l, r)
  | Eof [] r => Ok (None, r)
  | Eof _ _ => Err UnexpectedEof
  | Broken => Err IoFailed
  end.

Definition read_exact (n : nat) (r : list ReadEv) : result (list Z * list ReadEv) ReadErr :=
  match fill n [] r with Full l r => Ok (l, r) | Eof _ _ => Err UnexpectedEof | Broken => Err IoFailed end.

(** [read_frame] *)
Definition read_frame (r : list ReadEv) : result (option (Z * list Z) * list ReadEv) ReadErr :=
  let? (header, r) := read_exact_or_eof 5 r in
  match header with
  | None => Ok (None, r)
  | Some header =>
      let frame_type := default 0 (head header) in
      let len := unbe (tail header) in
      if MAX_FRAME_LEN <? len then Err InvalidData
      else let? (payload, r) := read_exact (Z.to_nat len) r in Ok (Some (frame_type, payload), r)
  end.

(** ** A connection *)

(** [read_greeting]: at most [n] bytes, until the end, a timeout or an error. *)
Fixpoint read_greeting (need : nat) (acc : list Z) (r : list ReadEv) : list Z * list ReadEv :=
  match need with
  | O => (acc, r)
  | _ =>
      match r with
      | [] => (acc, [])
      | Got [] :: r' => (acc, r')
      | Got l :: r' =>
          if (need <=? length l)%nat then (acc ++ take need l, leave (drop need l) r')
          else read_greeting (need - length l) (acc ++ l) r'
      | Interrupted :: r' => read_greeting need acc r'
      | Failed :: r' => (acc, r')
      end
  end.

(** The loop of [relay_subscriber_input]: the data that goes to the terminal, while the writer's queue is
    open ([sends] of them succeed). Every frame takes five bytes of the stream or more. *)
Fixpoint relay_subscriber_input (fuel : nat) (r : list ReadEv) (sends : nat) (input_granted : bool) : list (list Z) :=
  match fuel with
  | O => []
  | S fuel =>
      match read_frame r with
      | Ok (Some (t, data), r) =>
          if (t =? FRAME_INPUT) && input_granted then
            match sends with O => [] | S sends => data :: relay_subscriber_input fuel r sends input_granted end
          else []
      | _ => []
      end
  end.

Fixpoint stream_size (r : list ReadEv) : nat :=
  match r with [] => O | Got l :: r => S (length l + stream_size r) | _ :: r => S (stream_size r) end.

(** What a connection does: nothing, a snapshot sent back, or a subscription and the input after it. *)
Inductive Served : Type :=
| Dropped
| LegacySnapshot
| Subscribed (input_granted : bool) (inputs : list (list Z)).

(** [serve_subscriber] *)
Definition serve_subscriber (r : list ReadEv) (token : list Z) (sends : nat) : Served :=
  match read_frame r with
  | Ok (Some (t, payload), r) =>
      if t =? FRAME_SUBSCRIBE then
        match decode_subscribe payload with
        | None => Dropped
        | Some (want_input, client_token) =>
            let granted := want_input && negb (bool_decide (token = [])) && bool_decide (client_token = token) in
            Subscribed granted (relay_subscriber_input (S (stream_size r)) r sends granted)
        end
      else Dropped
  | _ => Dropped
  end.

(** [serve_connection]; [same_uid] is [peer_uid_matches]. *)
Definition serve_connection (r : list ReadEv) (same_uid : bool) (token : list Z) (sends : nat) : Served :=
  let '(first, r) := read_greeting 4 [] r in
  match classify_greeting first with
  | Legacy => LegacySnapshot
  | V2 => if same_uid then serve_subscriber r token sends else Dropped
  end.

Definition MAX_LIVE_CONNECTIONS : Z := 32.
(** [ConnectionSlot::acquire] and its drop. *)
Definition acquire (live : Z) : option Z := if live <? MAX_LIVE_CONNECTIONS then Some (live + 1) else None.
Definition release (live : Z) : Z := live - 1.

(** ** The owner of the screen *)

(** [vt100]: a call that panics is [None]. *)
Class Vt100 := {
  Screen : Type;
  vt_new : Z → Z → Screen;
  vt_process : list Z → Screen → option Screen;
  vt_set_size : Z → Z → Screen → option Screen;
  vt_size : Screen → Z * Z;
  vt_cursor : Screen → Z * Z;
  vt_rows_formatted : Screen → Z → option (list (list Z))
}.

Definition SUBSCRIBER_QUEUE_FRAMES : nat := 128.
Definition MAX_SUBSCRIBERS : nat := 8.

(** A channel of frames: all that were sent, how many of them were taken, whether the receiver is alive. *)
Record Chan : Type := mk_chan { sent : list (list Z); taken : nat; alive : bool }.
Definition new_chan : Chan := mk_chan [] 0 true.

(** [SyncSender::try_send] *)
Definition try_send (frame : list Z) (c : Chan) : option Chan :=
  if alive c && (length (sent c) - taken c <? SUBSCRIBER_QUEUE_FRAMES)%nat
  then Some (mk_chan (sent c ++ [frame]) (taken c) true) else None.

Section screen.
Context {VT : Vt100}.

(** [Vt100ParserExt::new_safe], [Vt100ScreenExt::set_size_safe] *)
Definition new_safe (rows cols : Z) : Screen := vt_new (Z.max rows 2) (Z.max cols 2).
Definition set_size_safe (rows cols : Z) (s : Screen) : option Screen := vt_set_size (Z.max rows 2) (Z.max cols 2) s.

(** [Snapshot::from_screen] *)
Definition from_screen (s : Screen) : option Snapshot :=
  mk_snapshot (vt_size s).1 (vt_size s).2 (vt_cursor s).1 (vt_cursor s).2 <$> vt_rows_formatted s (vt_size s).2.

Inductive Msg : Type :=
| Data (data : list Z)
| Resize (rows cols : Z)
| ScreenRequest
| Subscribe (id : Z) (input_granted : bool)
| Unsubscribe (id : Z)
| MsgEof.

(** [ParserState]; the subscribers are their ids, in the order of the registry. *)
Record ParserState : Type := mk_pstate { parser : Screen; subscribers : list Z; ps_rows : Z; ps_cols : Z }.

Definition parser_state_new (rows cols : Z) : ParserState :=
  let p := new_safe rows cols in mk_pstate p [] (vt_size p).1 (vt_size p).2.

(** The threads of the proxy that the registry sees: its state and the channels, by the subscriber's id. *)
Record Proxy : Type := mk_proxy { pstate : ParserState; chans : gmap Z Chan }.

(** [vt100_guarded] *)
Definition vt100_guarded (op : Screen → option Screen) (s : ParserState) : ParserState :=
  mk_pstate (default (new_safe (ps_rows s) (ps_cols s)) (op (parser s))) (subscribers s) (ps_rows s) (ps_cols s).

(** [snapshot_blob]; [encode] of the blank snapshot has no row that could be too long. *)
Definition snapshot_blob (s : ParserState) : list Z :=
  match from_screen (parser s) ≫= snapshot_encode with
  | Some blob => blob
  | None => default [] (snapshot_encode (mk_snapshot (ps_rows s) (ps_cols s) 0 0 []))
  end.

(** [fan_out], a [retain] over the registry. *)
Fixpoint fan_out (frame : list Z) (ids : list Z) (cs : gmap Z Chan) : list Z * gmap Z Chan :=
  match ids with
  | [] => ([], cs)
  | id :: ids =>
      match cs !! id ≫= try_send frame with
      | Some c => let '(ids, cs) := fan_out frame ids (<[id := c]> cs) in (id :: ids, cs)
      | None => fan_out frame ids cs
      end
  end.

Definition set_subscribers (ids : list Z) (s : ParserState) : ParserState :=
  mk_pstate (parser s) ids (ps_rows s) (ps_cols s).

(** [ParserState::handle]; the blob answers a [ScreenRequest]. *)
Definition handle (m : Msg) (x : Proxy) : option (Proxy * list (list Z)) :=
  let '(mk_proxy s cs) := x in
  match m with
  | Data data =>
      let s := vt100_guarded (vt_process data) s in
      match subscribers s with
      | [] => Some (mk_proxy s cs, [])
      | _ => frame ← encode_frame FRAME_OUTPUT data;
             let '(ids, cs) := fan_out frame (subscribers s) cs in Some (mk_proxy (set_subscribers ids s) cs, [])
      end
  | Resize rows cols =>
      let s := vt100_guarded (set_size_safe rows cols) s in
      let '(rows, cols) := vt_size (parser s) in
      let s := mk_pstate (parser s) (subscribers s) rows cols in
      frame ← resize_frame rows cols;
      let '(ids, cs) := fan_out frame (subscribers s) cs in Some (mk_proxy (set_subscribers ids s) cs, [])
  | ScreenRequest => Some (x, [snapshot_blob s])
  | Subscribe id input_granted =>
      let blob := snapshot_blob s in
      if MAX_FRAME_LEN <? zlen blob then Some (x, [])
      else if (MAX_SUBSCRIBERS <=? length (subscribers s))%nat then Some (x, [])
      else
        hello ← hello_frame input_granted;
        keyframe ← encode_frame FRAME_KEYFRAME blob;
        match cs !! id ≫= try_send hello with
        | None => Some (x, [])
        | Some c =>
            match try_send keyframe c with
            | None => Some (mk_proxy s (<[id := c]> cs), [])
            | Some c => Some (mk_proxy (set_subscribers (subscribers s ++ [id]) s) (<[id := c]> cs), [])
            end
        end
  | Unsubscribe id => Some (mk_proxy (set_subscribers (filter (λ known, known ≠ id) (subscribers s)) s) cs, [])
  | MsgEof =>
      frame ← end_frame;
      let '(_, cs) := fan_out frame (subscribers s) cs in Some (mk_proxy (set_subscribers [] s) cs, [])
  end.

(** *** The threads around it *)

(** The owner's inbox holds [MESSAGE_QUEUE] messages; ids are counted from [next]. *)
Definition MESSAGE_QUEUE : nat := 64.
Record World : Type := mk_world { proxy : Proxy; inbox : list Msg; next : Z }.

Definition world_new (rows cols : Z) : World := mk_world (mk_proxy (parser_state_new rows cols) ∅) [] 0.

(** What happens in turn: the terminal or a snapshot client sends a message; a connection subscribes, with
    a fresh id and a fresh channel, or ends; the owner handles a message; a writer takes a frame; the
    receiving side of a channel goes away. A sender that finds the inbox full waits. *)
Inductive Act : Type :=
| Feed (data : list Z) | FeedResize (rows cols : Z) | FeedRequest | FeedEof
| Serve (input_granted : bool) | Leave (id : Z)
| Step | TakeFrame (id : Z) | Hangup (id : Z).

Definition post (m : Msg) (w : World) : World :=
  if (length (inbox w) <? MESSAGE_QUEUE)%nat then mk_world (proxy w) (inbox w ++ [m]) (next w) else w.

Definition on_chan (f : Chan → Chan) (id : Z) (w : World) : World :=
  mk_world (mk_proxy (pstate (proxy w)) (alter f id (chans (proxy w)))) (inbox w) (next w).

Definition act (a : Act) (w : World) : option World :=
  match a with
  | Feed data => Some (post (Data data) w)
  | FeedResize rows cols => Some (post (Resize rows cols) w)
  | FeedRequest => Some (post ScreenRequest w)
  | FeedEof => Some (post MsgEof w)
  | Serve granted =>
      Some (if (length (inbox w) <? MESSAGE_QUEUE)%nat
            then mk_world (mk_proxy (pstate (proxy w)) (<[next w := new_chan]> (chans (proxy w))))
                   (inbox w ++ [Subscribe (next w) granted]) (next w + 1)
            else w)
  | Leave id => Some (post (Unsubscribe id) w)
  | Step =>
      match inbox w with
      | [] => Some w
      | m :: ms => '(x, _) ← handle m (proxy w); Some (mk_world x ms (next w))
      end
  | TakeFrame id => Some (on_chan (λ c, mk_chan (sent c) (Nat.min (length (sent c)) (S (taken c))) (alive c)) id w)
  | Hangup id => Some (on_chan (λ c, mk_chan (sent c) (taken c) false) id w)
  end.

Fixpoint acts (l : list Act) (w : World) : option World :=
  match l with [] => Some w | a :: l => w ← act a w; acts l w end.

(** ** What a subscriber is to see *)

(** The bytes of a frame that is not too long. *)
Definition bytes_of (f : Z * list Z) : list Z := f.1 :: be 4 (zlen f.2) ++ f.2.

(** The frames that a message has for the subscribers of the time. *)
Definition emits (m : Msg) (s : ParserState) : list (Z * list Z) :=
  match m with
  | Data data => [(FRAME_OUTPUT, data)]
  | Resize rows cols =>
      let size := vt_size (parser (vt100_guarded (set_size_safe rows cols) s)) in
      [(FRAME_RESIZE, be 2 size.1 ++ be 2 size.2)]
  | MsgEof => [(FRAME_END, [])]
  | _ => []
  end.

(** The stream that belongs to [id]: from its subscription a greeting, the screen of that moment and then
    whatever the messages have, in their order. *)
Definition add_frames (id : Z) (a : Act) (w : World) (acc : list (Z * list Z)) : list (Z * list Z) :=
  match a, inbox w with
  | Step, Subscribe i granted :: _ =>
      if decide (i = id)
      then acc ++ [(FRAME_HELLO, [PROTOCOL_VERSION; if granted then 1 else 0]); (FRAME_KEYFRAME, snapshot_blob (pstate (proxy w)))]
      else acc
  | Step, m :: _ => match acc with [] => [] | _ => acc ++ emits m (pstate (proxy w)) end
  | _, _ => acc
  end.

Fixpoint session (id : Z) (l : list Act) (w : World) (acc : list (Z * list Z)) : list (Z * list Z) :=
  match l with
  | [] => acc
  | a :: l => match act a w with
              | Some w' => session id l w' (add_frames id a w acc)
              | None => acc
              end
  end.
End screen.

(** ** The reader and its stream *)

(** The bytes up to the end of the stream or a failure. *)
Fixpoint flat (r : list ReadEv) : list Z :=
  match r with
  | [] | Got [] :: _ | Failed :: _ => []
  | Got l :: r => l ++ flat r
  | Interrupted :: r => flat r
  end.

Fixpoint broken (r : list ReadEv) : bool :=
  match r with
  | [] | Got [] :: _ => false
  | Failed :: _ => true
  | _ :: r => broken r
  end.

Lemma flat_leave l r : flat (leave l r) = l ++ flat r.
Proof. by destruct l. Qed.
Lemma broken_leave l r : broken (leave l r) = broken r.
Proof. by destruct l. Qed.

(** [fill] takes what it needs from the bytes, wherever they are cut. *)
Lemma fill_spec need acc r :
  match fill need acc r with
  | Full l r' => l = acc ++ take need (flat r) ∧ (need ≤ length (flat r))%nat ∧ flat r' = drop need (flat r) ∧ broken r' = broken r
  | Eof a _ => a = acc ++ flat r ∧ (length (flat r) < need)%nat ∧ broken r = false
  | Broken => (length (flat r) < need)%nat ∧ broken r = true
  end.
Proof.
  revert need acc. induction r as [|e r IH]; intros need acc.
  { destruct need; cbn; rewrite ?app_nil_r; split_and?; (done || lia). }
  destruct need as [|n]; [destruct e as [[|]| |]; cbn; rewrite ?app_nil_r; split_and?; (done || lia)|].
  destruct e as [[|b l]| |]; cbn [fill flat broken].
  - rewrite app_nil_r. cbn. split_and!; (done || lia).
  - destruct (Nat.leb_spec (S n) (length (b :: l))) as [Hle|Hlt].
    + rewrite flat_leave, broken_leave, length_app, take_app_le, drop_app_le by done. split_and!; (done || lia).
    + specialize (IH (S n - length (b :: l))%nat (acc ++ b :: l)). destruct (fill _ _ _) as [l' r'|a r'|].
      * destruct IH as (-> & H1 & H2 & H3). rewrite length_app, take_app_ge, drop_app_ge, <- app_assoc by lia. split_and!; (done || lia).
      * destruct IH as (-> & H1 & H2). rewrite length_app, <- app_assoc. split_and!; (done || lia).
      * destruct IH as [H1 H2]. rewrite length_app. split; (done || lia).
  - apply IH.
  - cbn. split; (done || lia).
Qed.

(** The first frame of some bytes. *)
Definition frame_at (l : list Z) : result (option (Z * list Z * list Z)) ReadErr :=
  match l with
  | [] => Ok None
  | t :: a :: b :: c :: d :: l =>
      let n := unbe [a; b; c; d] in
      if MAX_FRAME_LEN <? n then Err InvalidData
      else if (Z.to_nat n <=? length l)%nat then Ok (Some (t, take (Z.to_nat n) l, drop (Z.to_nat n) l)) else Err UnexpectedEof
  | _ => Err UnexpectedEof
  end.

Lemma read_frame_some r t p r' :
  read_frame r = Ok (Some (t, p), r') → frame_at (flat r) = Ok (Some (t, p, flat r')) ∧ broken r' = broken r.
Proof.
  unfold read_frame, read_exact_or_eof, read_exact. pose proof (fill_spec 5 [] r) as H.
  destruct (fill 5 [] r) as [l r1|[|? ?] r1|]; cbn; try done. destruct H as (-> & Hl & Hf & Hb).
  destruct (flat r) as [|t' [|a [|b [|c [|d rest]]]]] eqn:Er; cbn in Hl; try lia. cbn [app take drop head tail default] in *.
  cbn [from_option]. unfold frame_at. destruct (MAX_FRAME_LEN <? _) eqn:E; [done|]. set (n := Z.to_nat _).
  pose proof (fill_spec n [] r1) as H. destruct (fill n [] r1) as [l r2|? ?|]; cbn; try done. destruct H as (-> & Hl2 & Hf2 & Hb2).
  intros [= -> <- ->]. rewrite Hf in *. rewrite (proj2 (Nat.leb_le _ _)) by done. split; [|congruence]. by rewrite Hf2.
Qed.

(** Without failures the reader finds what is in the bytes. *)
Lemma read_frame_flat r :
  broken r = false →
  match frame_at (flat r) with
  | Ok (Some (t, p, rest)) => ∃ r', read_frame r = Ok (Some (t, p), r') ∧ flat r' = rest ∧ broken r' = false
  | Ok None => ∃ r', read_frame r = Ok (None, r')
  | Err e => read_frame r = Err e
  end.
Proof.
  intros Hbr. unfold read_frame, read_exact_or_eof, read_exact. pose proof (fill_spec 5 [] r) as H.
  destruct (fill 5 [] r) as [l r1|[|a0 acc] r1|]; cbn [rbind].
  - destruct H as (-> & Hl & Hf & Hb). destruct (flat r) as [|t' [|a [|b [|c [|d rest]]]]] eqn:Er; cbn in Hl; try lia.
    cbn [app take drop head tail default from_option] in *. unfold frame_at. destruct (MAX_FRAME_LEN <? _); [done|]. set (n := Z.to_nat _).
    pose proof (fill_spec n [] r1) as H. rewrite Hf in H. destruct (fill n [] r1) as [l r2|? ?|].
    + destruct H as (-> & Hl2 & Hf2 & Hb2). rewrite (proj2 (Nat.leb_le _ _)) by done. exists r2. cbn. split_and!; (done || congruence).
    + destruct H as (_ & Hl2 & _). by rewrite (proj2 (Nat.leb_gt _ _)).
    + destruct H as [_ Hb2]. congruence.
  - destruct H as (Ha & _ & _). cbn in Ha. rewrite <- Ha. by exists r1.
  - destruct H as (Ha & Hl & _). cbn in Ha. rewrite <- Ha in Hl |- *. by destruct acc as [|? [|? [|? [|? ?]]]]; cbn in Hl; try lia.
  - destruct H as [_ Hb]. congruence.
Qed.

Lemma frame_at_bytes f rest :
  zlen f.2 ≤ MAX_FRAME_LEN → frame_at (bytes_of f ++ rest) = Ok (Some (f.1, f.2, rest)).
Proof.
  destruct f as [t p]. unfold bytes_of. cbn [fst snd]. intros Hl.
  assert (∃ a b c d, be 4 (zlen p) = [a; b; c; d] ∧ unbe [a; b; c; d] = zlen p) as (a & b & c & d & E & Eu).
  { pose proof (length_be 4 (zlen p)). pose proof (unbe_be 4 (zlen p)) as Hu.
    destruct (be 4 (zlen p)) as [|a [|b [|c [|d [|? ?]]]]]; cbn in *; try lia. exists a, b, c, d. split; [done|]. apply Hu. unfold MAX_FRAME_LEN in Hl. lia. }
  rewrite E. cbn [app]. unfold frame_at. rewrite Eu, (proj2 (Z.ltb_ge _ _)), Nat2Z.id by done.
  by rewrite (proj2 (Nat.leb_le _ _)), take_app_length, drop_app_length by (rewrite length_app; lia).
Qed.

(** The frames of a stream, to its end. *)
Fixpoint read_frames (fuel : nat) (r : list ReadEv) : list (Z * list Z) * option ReadErr :=
  match fuel with
  | O => ([], None)
  | S fuel =>
      match read_frame r with
      | Ok (Some f, r) => let '(fs, e) := read_frames fuel r in (f :: fs, e)
      | Ok (None, _) => ([], None)
      | Err e => ([], Some e)
      end
  end.

Lemma read_frames_app fs r rest fuel :
  broken r = false → Forall (λ f, zlen f.2 ≤ MAX_FRAME_LEN) fs → flat r = concat (bytes_of <$> fs) ++ rest →
  ∃ r', flat r' = rest ∧ broken r' = false ∧
    read_frames (length fs + fuel) r = let '(gs, e) := read_frames fuel r' in (fs ++ gs, e).
Proof.
  intros Hb Hf. revert r Hb. induction Hf as [|f fs Hf1 Hf IH]; intros r Hb Hr; cbn [fmap list_fmap concat app] in Hr.
  { exists r. cbn. split_and!; [done..|]. by destruct (read_frames fuel r). }
  rewrite <- app_assoc in Hr. pose proof (read_frame_flat r Hb) as H. rewrite Hr, frame_at_bytes in H by done.
  destruct H as (r1 & E1 & E2 & Hb1). destruct (IH r1 Hb1 E2) as (r' & H1 & H2 & H3). exists r'. split_and!; [done..|].
  cbn [length Nat.add read_frames]. rewrite E1, H3. destruct f, (read_frames fuel r'). done.
Qed.

(** Frames written one after the other are read back as they were, in whatever pieces the stream
    arrives and however often a read is interrupted, and then the end of the stream is reported. *)
Theorem frames_survive_pieces fs r :
  Forall (λ f, zlen f.2 ≤ MAX_FRAME_LEN) fs → broken r = false → flat r = concat (bytes_of <$> fs) →
  read_frames (S (length fs)) r = (fs, None).
Proof.
  intros Hf Hb Hr. destruct (read_frames_app fs r [] 1 Hb Hf) as (r' & H1 & H2 & H3); [by rewrite app_nil_r|].
  rewrite <- Nat.add_1_r, H3. pose proof (read_frame_flat r' H2) as H. rewrite H1 in H. destruct H as [r2 H]. cbn. rewrite H. by rewrite app_nil_r.
Qed.

(** ** Connections *)

Lemma read_greeting_spec need acc r :
  let '(l, r') := read_greeting need acc r in
  (length l ≤ length acc + need)%nat ∧
  (length l = (length acc + need)%nat →
   l = acc ++ take need (flat r) ∧ (need ≤ length (flat r))%nat ∧ flat r' = drop need (flat r) ∧ broken r' = broken r) ∧
  ((need ≤ length (flat r))%nat → length l = (length acc + need)%nat).
Proof.
  revert need acc. induction r as [|e r IH]; intros need acc.
  { destruct need; cbn; rewrite ?app_nil_r; split_and!; try lia. intros _. split_and!; (done || lia). }
  destruct need as [|n].
  { destruct e as [[|]| |]; cbn; rewrite ?app_nil_r; split_and!; try lia; intros _; split_and!; (done || lia). }
  destruct e as [[|b l]| |]; cbn [read_greeting flat broken]; [cbn; split_and!; try lia; intros; lia|..|cbn; split_and!; try lia; intros; lia].
  - destruct (Nat.leb_spec (S n) (length (b :: l))) as [Hle|Hlt].
    + rewrite flat_leave, broken_leave, !length_app, length_take, take_app_le, drop_app_le by done.
      split_and!; [lia|intros _; split_and!; (done || lia)|lia].
    + specialize (IH (S n - length (b :: l))%nat (acc ++ b :: l)). destruct (read_greeting _ _ _) as [l' r'].
      destruct IH as (H1 & H2 & H3). rewrite length_app in *. split_and!; [lia| |lia]. intros Hl. destruct H2 as (-> & H4 & H5 & H6); [lia|].
      rewrite take_app_ge, drop_app_ge, <- app_assoc by lia. split_and!; (done || lia).
  - apply IH.
Qed.

(** Input frames, one after the other. *)
Fixpoint inputs_of (l : list Z) (inputs : list (list Z)) : Prop :=
  match inputs with
  | [] => True
  | d :: ds => ∃ rest, frame_at l = Ok (Some (FRAME_INPUT, d, rest)) ∧ inputs_of rest ds
  end.

Lemma relay_inputs fuel r sends g :
  inputs_of (flat r) (relay_subscriber_input fuel r sends g) ∧ (relay_subscriber_input fuel r sends g ≠ [] → g = true).
Proof.
  revert r sends. induction fuel as [|fuel IH]; intros r sends; cbn [relay_subscriber_input]; [done|].
  destruct (read_frame r) as [[[[t d]|] r']|] eqn:E; try done. destruct ((t =? FRAME_INPUT) && g) eqn:Et; [|done].
  destruct sends as [|sends]; [done|]. apply andb_prop in Et as [->%Z.eqb_eq ->]. split; [|done].
  apply read_frame_some in E as [E _]. exists (flat r'). split; [done|]. apply IH.
Qed.

(** What a connection sends to the terminal comes from a client of the same user that greeted with the
    magic and subscribed with the token of the proxy, which is not empty, and it is the data of the input
    frames after the subscription, in their order. *)
Theorem input_needs_token r same_uid token sends granted inputs :
  serve_connection r same_uid token sends = Subscribed granted inputs → inputs ≠ [] →
  same_uid = true ∧ token ≠ [] ∧
  ∃ stream payload rest, flat r = MAGIC ++ stream ∧ frame_at stream = Ok (Some (FRAME_SUBSCRIBE, payload, rest)) ∧
    decode_subscribe payload = Some (true, token) ∧ inputs_of rest inputs.
Proof.
  unfold serve_connection. pose proof (read_greeting_spec 4 [] r) as Hg. destruct (read_greeting 4 [] r) as [first r1].
  destruct Hg as (_ & Hg & _). unfold classify_greeting. destruct (bool_decide_reflect (first = MAGIC)) as [->|]; [|done].
  destruct (Hg eq_refl) as (Hm & _ & Hf & _). cbn in Hm. destruct same_uid; [|done]. unfold serve_subscriber.
  destruct (read_frame r1) as [[[[t payload]|] r2]|] eqn:E; try done. destruct (Z.eqb_spec t FRAME_SUBSCRIBE) as [->|]; [|done].
  destruct (decode_subscribe payload) as [[want client]|] eqn:Ed; [|done]. intros [= _ <-] Hne.
  destruct (relay_inputs (S (stream_size r2)) r2 sends (want && negb (bool_decide (token = [])) && bool_decide (client = token))) as [Hi Hgr].
  specialize (Hgr Hne). apply andb_prop in Hgr as [Hgr Hc]. apply andb_prop in Hgr as [-> Ht]. apply negb_true_iff, bool_decide_eq_false in Ht.
  apply bool_decide_eq_true in Hc as ->. apply read_frame_some in E as [E _]. split_and!; [done..|].
  exists (flat r1), payload, (flat r2). split_and!; try done. by rewrite Hf, Hm, take_drop.
Qed.

Lemma flat_size r : (length (flat r) ≤ stream_size r)%nat.
Proof. induction r as [|[[|]| |] r IH]; cbn; rewrite ?length_app; cbn in *; lia. Qed.

Lemma relay_all inputs fuel r sends :
  Forall (λ d, zlen d ≤ MAX_FRAME_LEN) inputs → broken r = false →
  flat r = concat (bytes_of <$> (pair FRAME_INPUT <$> inputs)) → (length inputs ≤ sends)%nat → (length inputs < fuel)%nat →
  relay_subscriber_input fuel r sends true = inputs.
Proof.
  intros Hf. revert fuel r sends. induction Hf as [|d ds Hd Hf IH]; intros fuel r sends Hb Hr Hs Hl;
    (destruct fuel as [|fuel]; [cbn in Hl; lia|]); cbn [relay_subscriber_input]; pose proof (read_frame_flat r Hb) as H; rewrite Hr in H.
  { destruct H as [r' ->]. done. }
  cbn [fmap list_fmap concat] in H. rewrite frame_at_bytes in H by done. destruct H as (r' & -> & Hr' & Hb'). cbn [fst snd Z.eqb Pos.eqb FRAME_INPUT andb].
  destruct sends as [|sends]; [cbn in Hs; lia|]. f_equal. apply IH; cbn in *; (done || lia).
Qed.

Lemma concat_bytes_length (fs : list (Z * list Z)) : (length fs ≤ length (concat (bytes_of <$> fs)))%nat.
Proof. induction fs as [|f fs IH]; [done|]. cbn [fmap list_fmap concat length]. rewrite length_app. unfold bytes_of at 1. cbn [length]. lia. Qed.

Lemma decode_encode_subscribe (want : bool) token :
  zlen token < 65536 →
  decode_subscribe ((if want then SUBSCRIBE_FLAG_WANT_INPUT else 0) :: be 2 (zlen token) ++ token) = Some (want, token).
Proof.
  intros Ht. pose proof (length_be 2 (zlen token)) as Hl. pose proof (unbe_be 2 (zlen token) ltac:(lia)) as Hu.
  destruct (be 2 (zlen token)) as [|a [|b [|? ?]]]; try done. cbn [app decode_subscribe]. rewrite Hu, Nat2Z.id, Nat.eqb_refl. by destruct want.
Qed.

(** A client of the same user that subscribes for input with the token of the proxy has every input
    frame that it sends forwarded, in order, however its bytes arrive. *)
Theorem granted_input_arrives r token sub inputs sends :
  token ≠ [] → subscribe_frame true token = Some sub → Forall (λ d, zlen d ≤ MAX_FRAME_LEN) inputs →
  broken r = false → flat r = MAGIC ++ sub ++ concat (bytes_of <$> (pair FRAME_INPUT <$> inputs)) → (length inputs ≤ sends)%nat →
  serve_connection r true token sends = Subscribed true inputs.
Proof.
  intros Ht Hsub Hi Hb Hr Hs. unfold serve_connection. pose proof (read_greeting_spec 4 [] r) as Hg. destruct (read_greeting 4 [] r) as [first r1].
  destruct Hg as (_ & Hg & Hlen). assert (length first = 4%nat) as H4 by (apply Hlen; rewrite Hr, length_app; cbn; lia).
  destruct (Hg H4) as (-> & _ & Hf & Hb1). rewrite Hr in *. cbn [app take MAGIC]. unfold classify_greeting. rewrite bool_decide_true by done.
  cbn [app drop MAGIC] in Hf. unfold subscribe_frame, encode_frame in Hsub. destruct (Z.ltb_spec (zlen token) 65536) as [Hlt|]; [|done].
  set (payload := SUBSCRIBE_FLAG_WANT_INPUT :: be 2 (zlen token) ++ token) in *.
  destruct (Z.leb_spec (zlen payload) MAX_FRAME_LEN) as [Hp|]; [|done]. injection Hsub as Hsub.
  assert (sub = bytes_of (FRAME_SUBSCRIBE, payload)) as Es by done. unfold serve_subscriber.
  pose proof (read_frame_flat r1 ltac:(congruence)) as H. rewrite Hf, Es, drop_0, frame_at_bytes in H by done. destruct H as (r2 & -> & Hr2 & Hb2).
  cbn [Z.eqb Pos.eqb FRAME_SUBSCRIBE fst snd]. unfold payload. rewrite (decode_encode_subscribe true token) by done.
  rewrite bool_decide_false, bool_decide_true by done. cbn [negb andb]. f_equal. apply relay_all; try done.
  pose proof (concat_bytes_length (pair FRAME_INPUT <$> inputs)) as Hc. rewrite <- Hr2, length_fmap in Hc. pose proof (flat_size r2). lia.
Qed.

(** ** Snapshots *)

Definition snapshot_ok (s : Snapshot) : Prop :=
  Forall (λ z, 0 ≤ z < 65536) [s_rows s; s_cols s; s_cursor_row s; s_cursor_col s].

Lemma be2 z : 0 ≤ z < 65536 → ∃ a b, be 2 z = [a; b] ∧ unbe [a; b] = z.
Proof.
  intros Hz. pose proof (length_be 2 z). pose proof (unbe_be 2 z ltac:(lia)). destruct (be 2 z) as [|a [|b [|? ?]]]; try done. eauto.
Qed.

Lemma be4 z : 0 ≤ z < 2 ^ 32 → ∃ a b c d, be 4 z = [a; b; c; d] ∧ unbe [a; b; c; d] = z.
Proof.
  intros Hz. pose proof (length_be 4 z). pose proof (unbe_be 4 z ltac:(lia)).
  destruct (be 4 z) as [|a [|b [|c [|d [|? ?]]]]]; try done. by exists a, b, c, d.
Qed.

Lemma decode_encode_rows rows blob fuel :
  encode_rows rows = Some blob → (length blob ≤ fuel)%nat → decode_rows fuel blob = Some rows.
Proof.
  revert blob fuel. induction rows as [|r rs IH]; intros blob fuel; cbn [encode_rows]; [by intros [= <-]; destruct fuel|].
  destruct (Z.ltb_spec (zlen r) (2 ^ 32)) as [Hlt|]; [|done]. destruct (encode_rows rs) as [t|] eqn:E; [|done].
  cbn [fmap option_fmap option_map]. intros <-%Some_inj Hl.
  destruct (be4 (zlen r) ltac:(lia)) as (a & b & c & d & Eb & Eu). rewrite Eb in *. cbn [app length] in *.
  destruct fuel as [|fuel]; [lia|]. cbn [decode_rows]. rewrite Eu, Nat2Z.id, length_app, (proj2 (Nat.leb_le _ _)), take_app_length, drop_app_length by lia.
  rewrite length_app in Hl. by rewrite (IH t) by (done || lia).
Qed.

(** A snapshot whose numbers are those of a terminal is read back from its bytes as it was. *)
Theorem snapshot_roundtrip s blob : snapshot_ok s → snapshot_encode s = Some blob → snapshot_decode blob = Some s.
Proof.
  destruct s as [r c cr cc rows]. unfold snapshot_ok, snapshot_encode. cbn [s_rows s_cols s_cursor_row s_cursor_col rows_data].
  rewrite !Forall_cons. intros (H1 & H2 & H3 & H4 & _). destruct (encode_rows rows) as [t|] eqn:E; [|done].
  cbn [fmap option_fmap option_map]. intros <-%Some_inj.
  destruct (be2 r H1) as (? & ? & -> & <-), (be2 c H2) as (? & ? & -> & <-), (be2 cr H3) as (? & ? & -> & <-), (be2 cc H4) as (? & ? & -> & <-).
  cbn [app snapshot_decode]. by rewrite (decode_encode_rows rows t (length t) E).
Qed.

(** ** The subscribers *)

Section world.
Context {VT : Vt100}.

Lemma encode_frame_bytes t p f : encode_frame t p = Some f → f = bytes_of (t, p) ∧ zlen p ≤ MAX_FRAME_LEN.
Proof. unfold encode_frame. destruct (Z.leb_spec (zlen p) MAX_FRAME_LEN); [|done]. by intros [= <-]. Qed.

(** A subscriber of the registry is sent the frame and stays, or is sent nothing and goes. *)
Lemma fan_out_spec frame ids cs ids' cs' :
  NoDup ids → fan_out frame ids cs = (ids', cs') →
  ids' `sublist_of` ids ∧
  (∀ id, id ∉ ids → cs' !! id = cs !! id) ∧
  (∀ id, id ∈ ids → id ∈ ids' → ∃ c c', cs !! id = Some c ∧ try_send frame c = Some c' ∧ cs' !! id = Some c') ∧
  (∀ id, id ∈ ids → id ∉ ids' → cs' !! id = cs !! id).
Proof.
  revert cs ids' cs'. induction ids as [|i ids IH]; intros cs ids' cs' Hn; cbn [fan_out].
  { intros [= <- <-]. split_and!; try done; by intros ? ?%not_elem_of_nil. }
  apply NoDup_cons in Hn as [Hi Hn]. destruct (cs !! i ≫= try_send frame) as [c|] eqn:Ec.
  - destruct (fan_out frame ids (<[i := c]> cs)) as [ids1 cs1] eqn:Ef. intros [= <- <-].
    destruct (IH _ _ _ Hn Ef) as (H1 & H2 & H3 & H4). apply bind_Some in Ec as (c0 & E0 & E1). split_and!.
    + by apply sublist_skip.
    + intros id [Hne Hid]%not_elem_of_cons. by rewrite H2, lookup_insert_ne.
    + intros id [->|Hid]%elem_of_cons Hid'.
      * exists c0, c. by rewrite H2, lookup_insert_eq.
      * assert (id ≠ i) by (by intros ->). apply elem_of_cons in Hid' as [->|Hid']; [done|].
        destruct (H3 id Hid Hid') as (x & y & Hx & Hy & Hz). rewrite lookup_insert_ne in Hx by done. by exists x, y.
    + intros id [->|Hid]%elem_of_cons [Hne Hid']%not_elem_of_cons; [done|]. by rewrite H4, lookup_insert_ne.
  - intros Ef. destruct (IH _ _ _ Hn Ef) as (H1 & H2 & H3 & H4). split_and!.
    + by apply sublist_cons.
    + intros id [Hne Hid]%not_elem_of_cons. by apply H2.
    + intros id [->|Hid]%elem_of_cons Hid'; [|by apply H3]. by apply (elem_of_sublist _ _ _ Hid') in H1.
    + intros id [->|Hid]%elem_of_cons Hid'; [by apply H2|by apply H4].
Qed.

Definition framed (b : list Z) : Prop := ∃ f, b = bytes_of f ∧ zlen f.2 ≤ MAX_FRAME_LEN.
Definition chan_ok (c : Chan) : Prop :=
  (taken c ≤ length (sent c) ≤ taken c + SUBSCRIBER_QUEUE_FRAMES)%nat ∧ Forall framed (sent c).

Lemma try_send_spec f c c' : try_send f c = Some c' → sent c' = sent c ++ [f] ∧ (framed f → chan_ok c → chan_ok c').
Proof.
  unfold try_send, chan_ok. destruct (alive c); [|done]. cbn [andb]. destruct (Nat.ltb_spec (length (sent c) - taken c) SUBSCRIBER_QUEUE_FRAMES); [|done].
  intros [= <-]. cbn. rewrite length_app, Forall_app, Forall_singleton. cbn. split; [done|]. intros ? [? ?]. split; [lia|done].
Qed.

(** What a broadcast of [fs] makes of the channel of a subscriber [j]. *)
Definition channel_step (fs : list (list Z)) (before after : list Z) (cs cs' : gmap Z Chan) : Prop :=
  ∀ j c', cs' !! j = Some c' → ∃ c, cs !! j = Some c ∧ (chan_ok c → chan_ok c') ∧
    ((sent c' = sent c ∧ j ∉ after) ∨ (sent c' = sent c ++ fs ∧ j ∈ before)).

Lemma fan_out_channels frame ids cs ids' cs' :
  framed frame → NoDup ids → fan_out frame ids cs = (ids', cs') →
  ids' `sublist_of` ids ∧ channel_step [frame] ids ids' cs cs'.
Proof.
  intros Hfr Hn E. destruct (fan_out_spec _ _ _ _ _ Hn E) as (H1 & H2 & H3 & H4). split; [done|]. intros j c' Hj.
  destruct (decide (j ∈ ids)) as [Hin|Hin].
  - destruct (decide (j ∈ ids')) as [Hin'|Hin'].
    + destruct (H3 j Hin Hin') as (c & c1 & Hc & Ht & Hc1). simplify_eq. apply try_send_spec in Ht as [Hs Hok]. exists c. auto.
    + rewrite H4 in Hj by done. exists c'. auto.
  - rewrite H2 in Hj by done. exists c'. split_and!; try done. left. split; [done|]. intros H. by apply (elem_of_sublist _ _ _ H) in H1.
Qed.

Definition is_subscribe (m : Msg) : option Z := match m with Subscribe i _ => Some i | _ => None end.

Lemma guarded_subscribers op s : subscribers (vt100_guarded op s) = subscribers s.
Proof. done. Qed.

Lemma handle_broadcast m x x' out :
  handle m x = Some (x', out) → is_subscribe m = None → NoDup (subscribers (pstate x)) →
  subscribers (pstate x') `sublist_of` subscribers (pstate x) ∧
  channel_step (bytes_of <$> emits m (pstate x)) (subscribers (pstate x)) (subscribers (pstate x')) (chans x) (chans x').
Proof.
  destruct x as [s cs]. cbn [pstate chans]. intros H Hm Hn.
  assert (∀ ids, ids `sublist_of` subscribers s → channel_step [] (subscribers s) ids cs cs) as Hsame.
  { intros ids Hs j c Hc. exists c. split_and!; try done. destruct (decide (j ∈ subscribers s)); [right; by rewrite app_nil_r|left].
    split; [done|]. intros Hj. by apply (elem_of_sublist _ _ _ Hj) in Hs. }
  destruct m as [data|rows cols| |i g|i|]; cbn [handle is_subscribe] in H, Hm; try done.
  - rewrite guarded_subscribers in H. destruct (subscribers s) as [|i0 is0] eqn:Es.
    + injection H as <- _. cbn [pstate chans vt100_guarded subscribers]. rewrite Es. split; [done|]. intros j c Hc. exists c.
      split_and!; try done. left. split; [done|]. apply not_elem_of_nil.
    + apply bind_Some in H as (frame & [-> Hfr]%encode_frame_bytes & H). destruct (fan_out _ _ _) as [ids cs'] eqn:Ef. injection H as <- _. by apply fan_out_channels; [eexists|..].
  - destruct (vt_size _) as [r c] eqn:Ez. apply bind_Some in H as (frame & [-> Hfr]%encode_frame_bytes & H).
    destruct (fan_out _ _ _) as [ids cs'] eqn:Ef. injection H as <- _. cbn [emits]. rewrite Ez. by apply fan_out_channels; [eexists|..].
  - injection H as <- _. split; [done|]. by apply Hsame.
  - injection H as <- _. cbn [pstate chans set_subscribers subscribers]. split; [apply sublist_filter|]. apply Hsame, sublist_filter.
  - apply bind_Some in H as (frame & [-> Hfr]%encode_frame_bytes & H). destruct (fan_out _ _ _) as [ids cs'] eqn:Ef. injection H as <- _.
    apply fan_out_channels in Ef as [H1 H2]; [|by eexists|done]. cbn [pstate chans set_subscribers subscribers]. split; [apply sublist_nil_l|].
    intros j c' Hj. destruct (H2 j c' Hj) as (c & Hc & Hok & [[Hs Hni]|[Hs Hin]]); exists c; split_and!; try done; [left|right]; split; try done.
    apply not_elem_of_nil.
Qed.

(** The two frames with which the stream of a subscriber begins. *)
Definition opening (g : bool) (s : ParserState) : list (Z * list Z) :=
  [(FRAME_HELLO, [PROTOCOL_VERSION; if g then 1 else 0]); (FRAME_KEYFRAME, snapshot_blob s)].

Lemma handle_subscribe i g x x' out :
  handle (Subscribe i g) x = Some (x', out) →
  (∀ j, j ≠ i → chans x' !! j = chans x !! j) ∧
  (∀ c', chans x' !! i = Some c' → ∃ c, chans x !! i = Some c ∧ (chan_ok c → chan_ok c') ∧
     ∃ fs, fs `prefix_of` bytes_of <$> opening g (pstate x) ∧ sent c' = sent c ++ fs ∧
           (subscribers (pstate x') = subscribers (pstate x) ++ [i] → fs = bytes_of <$> opening g (pstate x))) ∧
  (subscribers (pstate x') = subscribers (pstate x) ∨
   subscribers (pstate x') = subscribers (pstate x) ++ [i] ∧ (length (subscribers (pstate x)) < MAX_SUBSCRIBERS)%nat).
Proof.
  destruct x as [s cs]. cbn [handle pstate chans].
  assert (∀ ids : list Z, ids = ids ++ [i] → False) as Hno.
  { intros ids H. apply (f_equal length) in H. rewrite length_app in H. cbn in H. lia. }
  assert (∀ c', cs !! i = Some c' → ∃ c, cs !! i = Some c ∧ (chan_ok c → chan_ok c') ∧ ∃ fs, fs `prefix_of` bytes_of <$> opening g s ∧
    sent c' = sent c ++ fs ∧ (subscribers s = subscribers s ++ [i] → fs = bytes_of <$> opening g s)) as Hnone.
  { intros c' Hc. exists c'. split_and!; try done. exists []. rewrite app_nil_r. split_and!; [by apply prefix_nil|done|by intros ?%Hno]. }
  destruct (MAX_FRAME_LEN <? _); [intros [= <- _]; auto|]. destruct (Nat.leb_spec MAX_SUBSCRIBERS (length (subscribers s))) as [|Hlt]; [intros [= <- _]; auto|].
  intros (hello & [-> Hf1]%encode_frame_bytes & (key & [-> Hf2]%encode_frame_bytes & H)%bind_Some)%bind_Some.
  destruct (cs !! i ≫= try_send _) as [c1|] eqn:E1; [|injection H as <- _; auto]. apply bind_Some in E1 as (c & Hc & [Hs1 Hok1]%try_send_spec).
  destruct (try_send _ c1) as [c2|] eqn:E2; injection H as <- _; cbn [pstate chans set_subscribers subscribers].
  - apply try_send_spec in E2 as [Hs2 Hok2]. split_and!; [intros j Hj; by rewrite lookup_insert_ne| |auto].
    intros c'. rewrite lookup_insert_eq. intros [= <-]. exists c.
    split_and!; [done|intros; apply Hok2; [by eexists|]; apply Hok1; [by eexists|done]|]. eexists. split_and!; [done| |done].
    by rewrite Hs2, Hs1, <- app_assoc.
  - split_and!; [intros j Hj; by rewrite lookup_insert_ne| |auto]. intros c'. rewrite lookup_insert_eq. intros [= <-]. exists c.
    split_and!; [done|apply Hok1; by eexists|]. exists [bytes_of (FRAME_HELLO, [PROTOCOL_VERSION; if g then 1 else 0])]. split_and!; [by eexists|done|by intros ?%Hno].
Qed.

(** *** The invariant *)

Definition waiting (w : World) : list Z := omap is_subscribe (inbox w).
Notation subs w := (subscribers (pstate (proxy w))).

Definition world_ok (w : World) : Prop :=
  NoDup (subs w ++ waiting w) ∧ Forall (λ id, id < next w) (subs w ++ waiting w) ∧ (length (subs w) ≤ MAX_SUBSCRIBERS)%nat ∧
  map_Forall (λ id c, id < next w ∧ chan_ok c) (chans (proxy w)).

(** The channel of [id] holds a beginning of its stream, and all of it while [id] is registered. *)
Definition stream_ok (id : Z) (acc : list (Z * list Z)) (w : World) : Prop :=
  (id ∈ waiting w ∨ next w ≤ id → acc = []) ∧ (id ∈ subs w → acc ≠ []) ∧
  ∀ c, chans (proxy w) !! id = Some c →
    sent c `prefix_of` bytes_of <$> acc ∧ (id ∈ subs w → sent c = bytes_of <$> acc).

Lemma post_ok m w : is_subscribe m = None → world_ok w → world_ok (post m w).
Proof.
  unfold post, world_ok, waiting. intros Hm Hw. case_match; [|done]. cbn [proxy inbox next]. rewrite omap_app. cbn. rewrite Hm. by rewrite app_nil_r.
Qed.

Lemma post_stream id acc m w : is_subscribe m = None → stream_ok id acc w → stream_ok id acc (post m w).
Proof.
  unfold post, stream_ok, waiting. intros Hm Hw. case_match; [|done]. cbn [proxy inbox next]. rewrite omap_app. cbn. rewrite Hm. by rewrite app_nil_r.
Qed.

Lemma on_chan_ok f id w : (∀ c, chan_ok c → chan_ok (f c)) → world_ok w → world_ok (on_chan f id w).
Proof.
  intros Hf (H1 & H2 & H3 & H4). split_and!; try done. cbn. intros j c. rewrite lookup_alter_Some.
  intros [(<- & c0 & Hc & ->)|(_ & Hc)]; [|by apply H4]. apply H4 in Hc as [? ?]. auto.
Qed.

Lemma on_chan_stream f i id acc w : (∀ c, sent (f c) = sent c) → stream_ok id acc w → stream_ok id acc (on_chan f i w).
Proof.
  intros Hf (H1 & H2 & H3). split_and!; try done. cbn. intros c. rewrite lookup_alter_Some.
  intros [(<- & c0 & Hc & ->)|(_ & Hc)]; [|by apply H3]. rewrite Hf. by apply H3.
Qed.

Lemma serve_ok g w w' : act (Serve g) w = Some w' → world_ok w → world_ok w'.
Proof.
  cbn [act]. case_match; intros [= <-] Hw; [|done]. destruct Hw as (H1 & H2 & H3 & H4). unfold world_ok, waiting. cbn [proxy inbox next pstate chans].
  rewrite omap_app. cbn. rewrite app_assoc. fold (waiting w). split_and!; [|..|done|].
  - apply NoDup_app. split_and!; [done| |apply NoDup_singleton]. intros j Hj Hn%list_elem_of_singleton. subst. rewrite Forall_forall in H2. apply H2 in Hj. lia.
  - apply Forall_app. split; [|by constructor; [lia|]]. eapply Forall_impl; [exact H2|]. cbn. intros; lia.
  - apply map_Forall_insert_2; [split; [lia|]; unfold chan_ok; cbn; split; [lia|constructor]|]. eapply map_Forall_impl; [exact H4|]. cbn. intros j c [? ?]. split; [lia|done].
Qed.

Lemma serve_stream id acc g w w' : act (Serve g) w = Some w' → world_ok w → stream_ok id acc w → stream_ok id acc w'.
Proof.
  cbn [act]. case_match; intros [= <-] (H1 & H2 & H3 & H4) Hs; [|done]. destruct Hs as (S1 & S2 & S3). unfold stream_ok, waiting. cbn [proxy inbox next pstate chans].
  rewrite omap_app. cbn. fold (waiting w). split_and!; [|done|].
  - intros [[Hin| ->%list_elem_of_singleton]%elem_of_app|Hle]; apply S1; auto; right; lia.
  - intros c Hc. apply lookup_insert_Some in Hc as [[<- <-]|[Hne Hc]]; [|by apply S3]. cbn. rewrite (S1 (or_intror (Z.le_refl _))). split; done.
Qed.

Lemma Forall_sublist {A} (P : A → Prop) l k : Forall P l → k `sublist_of` l → Forall P k.
Proof. rewrite !Forall_forall. eauto using elem_of_sublist. Qed.

Lemma step_ok w w' : act Step w = Some w' → world_ok w → world_ok w'.
Proof.
  intros H (H1 & H2 & H3 & H4). cbn [act] in H. destruct (inbox w) as [|m ms] eqn:Ei; [by injection H as <-|].
  apply bind_Some in H as ([x out] & Hh & [= <-]). unfold world_ok, waiting in *. rewrite Ei in *. cbn [omap list_omap proxy inbox next] in *.
  destruct (is_subscribe m) as [i|] eqn:Em.
  - destruct m as [| | |i' g| |]; try done. injection Em as ->. destruct (handle_subscribe _ _ _ _ _ Hh) as (C1 & C2 & C3).
    assert (map_Forall (λ id c, id < next w ∧ chan_ok c) (chans x)) as Hc.
    { intros j c Hj. destruct (decide (j = i)) as [->|Hne]; [|rewrite C1 in Hj by done; by apply H4].
      destruct (C2 c Hj) as (c0 & Hc0 & Hok & _). apply H4 in Hc0 as [? ?]. auto. }
    destruct C3 as [-> |[-> Hlt]].
    + split_and!; try done; [eapply sublist_NoDup; [exact H1|]|eapply Forall_sublist; [exact H2|]]; by apply sublist_app, sublist_cons.
    + rewrite <- app_assoc. split_and!; try done. rewrite length_app. cbn. lia.
  - destruct (handle_broadcast _ _ _ _ Hh Em) as [Hsub Hch]; [by apply NoDup_app in H1 as [? _]|]. split_and!.
    + eapply sublist_NoDup; [exact H1|]. by apply sublist_app.
    + eapply Forall_sublist; [exact H2|]. by apply sublist_app.
    + apply sublist_length in Hsub. lia.
    + intros j c Hj. destruct (Hch j c Hj) as (c0 & Hc0 & Hok & _). apply H4 in Hc0 as [? ?]. auto.
Qed.

Lemma act_ok a w w' : act a w = Some w' → world_ok w → world_ok w'.
Proof.
  destruct a; try (by intros [= <-]; apply post_ok); [apply serve_ok|apply step_ok|..]; intros [= <-]; apply on_chan_ok; unfold chan_ok; cbn;
    intros c [? ?]; (split; [lia|done]).
Qed.

Lemma step_stream id acc w w' :
  act Step w = Some w' → world_ok w → stream_ok id acc w → stream_ok id (add_frames id Step w acc) w'.
Proof.
  intros H (H1 & H2 & _) (S1 & S2 & S3). cbn [act] in H. unfold add_frames. destruct (inbox w) as [|m ms] eqn:Ei; [by injection H as <-|].
  apply bind_Some in H as ([x out] & Hh & [= <-]). unfold stream_ok, waiting in *. rewrite Ei in *. cbn [omap list_omap proxy inbox next] in *.
  destruct (is_subscribe m) as [i|] eqn:Em.
  - destruct m as [| | |i' g| |]; try done. injection Em as ->. destruct (handle_subscribe _ _ _ _ _ Hh) as (C1 & C2 & C3).
    apply NoDup_app in H1 as (_ & Hd & [Hni _]%NoDup_cons). apply Forall_app in H2 as [_ [Hi _]%Forall_cons].
    destruct (decide (i = id)) as [->|Hne].
    + rewrite (S1 (or_introl (list_elem_of_here _ _))) in *. cbn [app]. fold (opening g (pstate (proxy w))). split_and!; [intros [?|?]; [done|lia]|done|].
      intros c' Hc'. destruct (C2 c' Hc') as (c & Hc & _ & fs & Hp & Hs & Hall). destruct (S3 c Hc) as [E0%prefix_nil_inv _].
      rewrite Hs, E0. cbn [app]. split; [exact Hp|]. intros Hin. apply Hall. destruct C3 as [E|[E _]]; [|done].
      rewrite E in Hin. exfalso. apply (Hd id Hin). left.
    + assert (id ∈ subscribers (pstate x) ↔ id ∈ subs w) as Hiff.
      { destruct C3 as [-> |[-> _]]; [done|]. rewrite elem_of_app, list_elem_of_singleton. naive_solver. }
      split_and!; [intros [?|?]; apply S1; [left; by right|by right]|by rewrite Hiff|].
      intros c Hc. rewrite C1 in Hc by done. rewrite Hiff. by apply S3.
  - destruct (handle_broadcast _ _ _ _ Hh Em) as [Hsub Hch]; [by apply NoDup_app in H1 as [? _]|].
    set (acc' := match acc with [] => [] | _ => acc ++ emits m (pstate (proxy w)) end).
    assert ((match m with Subscribe i g => if decide (i = id) then acc ++ opening g (pstate (proxy w)) else acc | _ => acc' end) = acc') as E by (by destruct m).
    unfold opening in E. rewrite E. clear E. assert (id ∈ subs w → acc' = acc ++ emits m (pstate (proxy w))) as Hin by (intros Hi; apply S2 in Hi; by destruct acc).
    split_and!.
    + intros Hw. unfold acc'. by rewrite S1.
    + intros Hi. apply (elem_of_sublist _ _ _ Hi) in Hsub. rewrite Hin by done. intros [-> _]%app_nil. by apply S2 in Hsub.
    + intros c' Hc'. destruct (Hch id c' Hc') as (c & Hc & _ & [[Hs Hni]|[Hs Hi]]); destruct (S3 c Hc) as [Hp Hall].
      * rewrite Hs. split; [|done]. unfold acc'. destruct acc as [|a acc0]; [done|]. rewrite fmap_app. by apply prefix_app_r.
      * rewrite Hs, Hin, fmap_app, (Hall Hi) by done. done.
Qed.

Lemma act_stream id acc a w w' :
  act a w = Some w' → world_ok w → stream_ok id acc w → stream_ok id (add_frames id a w acc) w'.
Proof.
  intros H Hw Hs. destruct a; try (injection H as <-; by apply post_stream); [by eapply serve_stream|by apply step_stream|..];
    injection H as <-; by apply on_chan_stream.
Qed.

Lemma world_new_ok rows cols : world_ok (world_new rows cols).
Proof. split_and!; cbn; [constructor|constructor|unfold MAX_SUBSCRIBERS; lia|apply map_Forall_empty]. Qed.

Lemma acts_stream id l w w' acc :
  acts l w = Some w' → world_ok w → stream_ok id acc w → stream_ok id (session id l w acc) w' ∧ world_ok w'.
Proof.
  revert w acc. induction l as [|a l IH]; intros w acc H Hw Hs; cbn in *; [by injection H as <-|].
  apply bind_Some in H as (w1 & H1 & H). rewrite H1. eapply IH; [done|by eapply act_ok|by apply act_stream].
Qed.

(** *** Theorems *)

Lemma bytes_of_inj f g : bytes_of f = bytes_of g → f = g.
Proof.
  destruct f as [t p], g as [u q]. unfold bytes_of. cbn [fst snd]. intros H.
  assert (t = u) as -> by (by apply (f_equal head) in H; injection H). f_equal.
  apply (f_equal (drop 5)) in H. cbn [drop] in H. by rewrite !drop_app_ge, !length_be, Nat.sub_diag, !drop_0 in H by (rewrite length_be; lia).
Qed.

(** C19: a subscriber reads a beginning of the session: a greeting, the screen of the moment in which it was
    registered, and then every frame that the owner of the screen had for its subscribers, in order and
    without a gap, whatever the threads do in between and however the bytes arrive; while it is
    registered nothing of the session is missing from its channel. *)
Theorem subscriber_reads_the_session rows cols l w id c r :
  acts l (world_new rows cols) = Some w → chans (proxy w) !! id = Some c →
  broken r = false → flat r = concat (take (taken c) (sent c)) →
  let full := session id l (world_new rows cols) [] in
  read_frames (S (taken c)) r = (take (taken c) full, None) ∧ (id ∈ subs w → sent c = bytes_of <$> full).
Proof.
  intros Ha Hc Hb Hr full. destruct (acts_stream id l (world_new rows cols) w [] Ha (world_new_ok _ _)) as [(_ & _ & Hs) (_ & _ & _ & Hok)].
  { split_and!; [done|by intros ?%not_elem_of_nil|]. by intros c0. }
  destruct (Hs c Hc) as [[rest Hp] Hall]. split; [|done]. apply Hok in Hc as [_ [[Hl _] Hf]].
  fold full in Hp. assert (take (taken c) (sent c) = bytes_of <$> take (taken c) full) as E.
  { rewrite fmap_take, Hp. by rewrite take_app_le. }
  assert (length full = length (sent c) + length rest)%nat as Hlen by (by rewrite <- (length_fmap bytes_of), Hp, length_app).
  rewrite E in Hr. pose proof (frames_survive_pieces (take (taken c) full) r) as H. rewrite length_take, Nat.min_l in H by lia. apply H; try done.
  apply (Forall_take _ (taken c)) in Hf. rewrite E, Forall_fmap in Hf. eapply Forall_impl; [exact Hf|]. by intros f (g & ->%bytes_of_inj & ?).
Qed.

(** Data that fits into a frame; the terminal is read in pieces of 8 KiB. *)
Definition fits (a : Act) : Prop := match a with Feed data => zlen data ≤ MAX_FRAME_LEN | _ => True end.
Definition fits_msg (m : Msg) : Prop := match m with Data data => zlen data ≤ MAX_FRAME_LEN | _ => True end.

Lemma encode_frame_fits t p : zlen p ≤ MAX_FRAME_LEN → encode_frame t p = Some (bytes_of (t, p)).
Proof. intros H. unfold encode_frame. by rewrite (proj2 (Z.leb_le _ _)). Qed.

Lemma handle_total m x : fits_msg m → is_Some (handle m x).
Proof.
  destruct x as [s cs], m as [data|rows cols| |i g|i|]; cbn [handle fits_msg]; intros Hm; try (by eexists).
  - case_match; [by eexists|]. rewrite encode_frame_fits by done. cbn [mbind option_bind]. destruct (fan_out _ _ _). by eexists.
  - destruct (vt_size _) as [r c]. unfold resize_frame. rewrite encode_frame_fits by (rewrite length_app, !length_be; unfold MAX_FRAME_LEN; lia).
    cbn [mbind option_bind]. destruct (fan_out _ _ _). by eexists.
  - destruct (Z.ltb_spec MAX_FRAME_LEN (zlen (snapshot_blob s))); [by eexists|]. case_match; [by eexists|].
    unfold hello_frame. rewrite !encode_frame_fits by (done || (unfold MAX_FRAME_LEN; cbn; lia)). cbn [mbind option_bind].
    repeat case_match; by eexists.
  - unfold end_frame. rewrite encode_frame_fits by (unfold MAX_FRAME_LEN; cbn; lia). cbn [mbind option_bind]. destruct (fan_out _ _ _). by eexists.
Qed.

Lemma act_total a w : fits a → Forall fits_msg (inbox w) → ∃ w', act a w = Some w' ∧ Forall fits_msg (inbox w').
Proof.
  intros Ha Hi. assert (∀ m, fits_msg m → Forall fits_msg (inbox (post m w))) as Hpost.
  { intros m Hm. unfold post. case_match; [|done]. cbn. by apply Forall_app; split; [|constructor]. }
  destruct a; cbn [act]; try (eexists; split; [done|]; by apply Hpost).
  - eexists. split; [done|]. case_match; [|done]. cbn. by apply Forall_app; split; [|constructor].
  - destruct (inbox w) as [|m ms] eqn:Ei; [eexists; split; [done|]; by rewrite Ei|]. apply Forall_cons in Hi as [Hm Hi].
    destruct (handle_total m (proxy w) Hm) as [[x out] ->]. by eexists.
  - by eexists.
  - by eexists.
Qed.

(** While the terminal is read in pieces that fit into a frame the owner of the screen never panics,
    whatever the other threads do; no more than [MAX_SUBSCRIBERS] subscribers are registered, each once,
    and none of them ever has more than [SUBSCRIBER_QUEUE_FRAMES] frames waiting. *)
Theorem proxy_stays_within_limits rows cols l :
  Forall fits l →
  ∃ w, acts l (world_new rows cols) = Some w ∧ (length (subs w) ≤ MAX_SUBSCRIBERS)%nat ∧ NoDup (subs w) ∧
    ∀ id c, chans (proxy w) !! id = Some c → (length (sent c) - taken c ≤ SUBSCRIBER_QUEUE_FRAMES)%nat.
Proof.
  intros Hl. assert (∀ w, world_ok w → Forall fits_msg (inbox w) → ∃ w', acts l w = Some w' ∧ world_ok w') as H.
  { induction Hl as [|a l Ha Hl IH]; intros w Hw Hi; [by exists w|]. destruct (act_total a w Ha Hi) as (w1 & E & Hi1).
    destruct (IH w1 (act_ok _ _ _ E Hw) Hi1) as (w' & E' & Hw'). exists w'. cbn. by rewrite E. }
  destruct (H (world_new rows cols) (world_new_ok _ _) ltac:(constructor)) as (w & E & H1 & _ & H2 & H3). exists w.
  split_and!; [done..|by apply NoDup_app in H1 as [? _]|]. intros id c Hc. apply H3 in Hc as [_ [? _]]. lia.
Qed.
End world.

(** ** Examples *)

(** An emulator that keeps the bytes that it is given. *)
#[local] Instance tape_vt : Vt100 := {|
  Screen := Z * Z * list Z;
  vt_new r c := (r, c, []);
  vt_process d s := Some (s.1, s.2 ++ d);
  vt_set_size r c s := Some (r, c, s.2);
  vt_size s := s.1;
  vt_cursor s := (0, 0);
  vt_rows_formatted s c := Some [s.2]
|}.

Definition demo_acts : list Act :=
  [Feed [104; 105]; Step; Serve true; Step; Feed [33]; Step; FeedResize 50 1; Step; TakeFrame 0; TakeFrame 0; TakeFrame 0; FeedEof; Step; TakeFrame 0].

Lemma demo_session :
  session 0 demo_acts (world_new 24 80) [] =
  [(FRAME_HELLO, [1; 1]); (FRAME_KEYFRAME, [0; 24; 0; 80; 0; 0; 0; 0; 0; 0; 0; 2; 104; 105]);
   (FRAME_OUTPUT, [33]); (FRAME_RESIZE, [0; 50; 0; 2]); (FRAME_END, [])].
Proof. by vm_compute. Qed.

Lemma frames_survive_pieces_witness :
  read_frames 3 [Got [131; 0; 0]; Interrupted; Got [0; 2; 104; 105; 133]; Got [0; 0; 0; 0]] = ([(FRAME_OUTPUT, [104; 105]); (FRAME_END, [])], None).
Proof. apply (frames_survive_pieces [(FRAME_OUTPUT, [104; 105]); (FRAME_END, [])]); [repeat constructor; by vm_compute|by vm_compute..]. Defined.

Definition demo_token : list Z := [97; 98].
Definition demo_stream : list ReadEv := [Got MAGIC; Got [1; 0; 0; 0; 5; 1; 0; 2; 97]; Got [98; 2; 0; 0; 0; 1; 108]].

Lemma input_needs_token_witness :
  serve_connection demo_stream true demo_token 9 = Subscribed true [[108]] ∧ true = true ∧ demo_token ≠ [] ∧
  ∃ stream payload rest, flat demo_stream = MAGIC ++ stream ∧ frame_at stream = Ok (Some (FRAME_SUBSCRIBE, payload, rest)) ∧
    decode_subscribe payload = Some (true, demo_token) ∧ inputs_of rest [[108]].
Proof. split; [by vm_compute|]. apply (input_needs_token demo_stream true demo_token 9 true [[108]]); by vm_compute. Defined.

Lemma granted_input_arrives_witness : serve_connection demo_stream true demo_token 9 = Subscribed true [[108]].
Proof.
  apply (granted_input_arrives demo_stream demo_token [1; 0; 0; 0; 5; 1; 0; 2; 97; 98] [[108]] 9).
  - done.
  - vm_compute. reflexivity.
  - constructor; [unfold MAX_FRAME_LEN; cbn; lia|constructor].
  - reflexivity.
  - vm_compute. reflexivity.
  - cbn. lia.
Defined.

Lemma snapshot_roundtrip_witness : snapshot_decode [0; 1; 0; 4; 0; 0; 0; 2; 0; 0; 0; 1; 97] = Some (mk_snapshot 1 4 0 2 [[97]]).
Proof. apply (snapshot_roundtrip (mk_snapshot 1 4 0 2 [[97]])); [repeat constructor; cbn; lia|by vm_compute]. Defined.

Lemma subscriber_reads_the_session_witness :
  ∃ w c, acts demo_acts (world_new 24 80) = Some w ∧ chans (proxy w) !! 0 = Some c ∧
  read_frames (S (taken c)) [Got (concat (take (taken c) (sent c)))] = (take (taken c) (session 0 demo_acts (world_new 24 80) []), None).
Proof.
  eexists _, _. split; [vm_compute; reflexivity|]. split; [vm_compute; reflexivity|].
  refine (proj1 (subscriber_reads_the_session 24 80 demo_acts _ 0 _ _ _ _ _ _)); vm_compute; reflexivity.
Defined.

Lemma proxy_stays_within_limits_witness : is_Some (acts demo_acts (world_new 24 80)).
Proof.
  destruct (proxy_stays_within_limits 24 80 demo_acts) as (w & H & _); [|by exists w].
  unfold demo_acts. repeat constructor; by vm_compute.
Defined.
