(* ===== verification/Conditions.v ===== *)
(** * Conditions of key bindings ([search/keybindings/conditions.rs])

    Boolean expressions over facts of the search screen, their recursive descent parser and their
    printer. The parser's position in its input is the rest of it; the functions that recurse on the
    grammar take fuel, of which [parse] gives enough for every input. *)
From S2P Require Import Prelude Text.

(** ** Data *)

Inductive ConditionAtom : Type :=
| CursorAtStart | CursorAtEnd | InputEmpty | OriginalInputEmpty | ListAtEnd | ListAtStart
| NoResults | HasResults | HasContext.

#[export] Instance ConditionAtom_eq_dec : EqDecision ConditionAtom.
Proof. solve_decision. Defined.

Inductive ConditionExpr : Type :=
| Atom (a : ConditionAtom)
| Not (e : ConditionExpr)
| And (l r : ConditionExpr)
| Or (l r : ConditionExpr).

#[export] Instance ConditionExpr_eq_dec : EqDecision ConditionExpr.
Proof. solve_decision. Defined.

Record EvalContext : Type := mk_eval {
  cursor_position : Z; input_width : Z; input_byte_len : Z; selected_index : Z; results_len : Z;
  original_input_empty : bool; has_context : bool
}.

(** ** Evaluation *)

Definition atom_evaluate (a : ConditionAtom) (c : EvalContext) : bool :=
  match a with
  | CursorAtStart => cursor_position c =? 0
  | CursorAtEnd => cursor_position c =? input_width c
  | InputEmpty => input_byte_len c =? 0
  | OriginalInputEmpty => original_input_empty c
  | ListAtEnd => (results_len c =? 0) || (Z.max 0 (results_len c - 1) <=? selected_index c)
  | ListAtStart => (results_len c =? 0) || (selected_index c =? 0)
  | NoResults => results_len c =? 0
  | HasResults => 0 <? results_len c
  | HasContext => has_context c
  end.

Fixpoint evaluate (e : ConditionExpr) (c : EvalContext) : bool :=
  match e with
  | Atom a => atom_evaluate a c
  | Not e => negb (evaluate e c)
  | And l r => evaluate l c && evaluate r c
  | Or l r => evaluate l c || evaluate r c
  end.

(** ** Names *)

Definition atom_from_str (s : string) : option ConditionAtom :=
  if decide (s = "cursor-at-start") then Some CursorAtStart
  else if decide (s = "cursor-at-end") then Some CursorAtEnd
  else if decide (s = "input-empty") then Some InputEmpty
  else if decide (s = "original-input-empty") then Some OriginalInputEmpty
  else if decide (s = "list-at-end") then Some ListAtEnd
  else if decide (s = "list-at-start") then Some ListAtStart
  else if decide (s = "no-results") then Some NoResults
  else if decide (s = "has-results") then Some HasResults
  else if decide (s = "has-context") then Some HasContext
  else None.

Definition atom_as_str (a : ConditionAtom) : string :=
  match a with
  | CursorAtStart => "cursor-at-start"
  | CursorAtEnd => "cursor-at-end"
  | InputEmpty => "input-empty"
  | OriginalInputEmpty => "original-input-empty"
  | ListAtEnd => "list-at-end"
  | ListAtStart => "list-at-start"
  | NoResults => "no-results"
  | HasResults => "has-results"
  | HasContext => "has-context"
  end.

(** ** Parsing *)

(** The messages of the source, with the rest of the input at the position they name. *)
Inductive CondError : Type :=
| UnexpectedInput (rest : list Ascii.ascii)
| ExpectedClose (rest : list Ascii.ascii)
| ExpectedName (rest : list Ascii.ascii)
| UnknownCondition (name : string)
| OutOfFuel.

Definition is_ascii_whitespace (c : Ascii.ascii) : bool := bool_decide (c ∈ byte <$> [9; 10; 12; 13; 32]).

Fixpoint skip_whitespace (l : list Ascii.ascii) : list Ascii.ascii :=
  match l with c :: l' => if is_ascii_whitespace c then skip_whitespace l' else l | [] => [] end.

(** [consume]: the input after the token, which the white space before it does not hide. *)
Definition consume (s : string) (l : list Ascii.ascii) : option (list Ascii.ascii) := strip_prefix_l (chars s) (skip_whitespace l).

Definition name_char (c : Ascii.ascii) : bool := is_lower c || is_digit c || (code c =? 45).

Fixpoint take_name (l : list Ascii.ascii) : list Ascii.ascii * list Ascii.ascii :=
  match l with
  | c :: l' => if name_char c then let '(n, rest) := take_name l' in (c :: n, rest) else ([], l)
  | [] => ([], [])
  end.

Definition parse_atom (l : list Ascii.ascii) : result (ConditionExpr * list Ascii.ascii) CondError :=
  let '(name, rest) := take_name (skip_whitespace l) in
  match name with
  | [] => Err (ExpectedName rest)
  | _ :: _ => match atom_from_str (unchars name) with
              | Some a => Ok (Atom a, rest)
              | None => Err (UnknownCondition (unchars name))
              end
  end.

Fixpoint parse_or (fuel : nat) (l : list Ascii.ascii) : result (ConditionExpr * list Ascii.ascii) CondError :=
  match fuel with
  | O => Err OutOfFuel
  | S f => let? p := parse_and f l in or_loop f p.1 p.2
  end
(** The [while] loop of [parse_or]. *)
with or_loop (fuel : nat) (left : ConditionExpr) (l : list Ascii.ascii) : result (ConditionExpr * list Ascii.ascii) CondError :=
  match fuel with
  | O => Err OutOfFuel
  | S f => match consume "||" l with
           | Some l' => let? p := parse_and f l' in or_loop f (Or left p.1) p.2
           | None => Ok (left, skip_whitespace l)
           end
  end
with parse_and (fuel : nat) (l : list Ascii.ascii) : result (ConditionExpr * list Ascii.ascii) CondError :=
  match fuel with
  | O => Err OutOfFuel
  | S f => let? p := parse_unary f l in and_loop f p.1 p.2
  end
with and_loop (fuel : nat) (left : ConditionExpr) (l : list Ascii.ascii) : result (ConditionExpr * list Ascii.ascii) CondError :=
  match fuel with
  | O => Err OutOfFuel
  | S f => match consume "&&" l with
           | Some l' => let? p := parse_unary f l' in and_loop f (And left p.1) p.2
           | None => Ok (left, skip_whitespace l)
           end
  end
with parse_unary (fuel : nat) (l : list Ascii.ascii) : result (ConditionExpr * list Ascii.ascii) CondError :=
  match fuel with
  | O => Err OutOfFuel
  | S f => match consume "!" l with
           | Some l' => let? p := parse_unary f l' in Ok (Not p.1, p.2)
           | None => parse_primary f (skip_whitespace l)
           end
  end
with parse_primary (fuel : nat) (l : list Ascii.ascii) : result (ConditionExpr * list Ascii.ascii) CondError :=
  match fuel with
  | O => Err OutOfFuel
  | S f => match consume "(" l with
           | Some l' =>
               let? p := parse_or f l' in
               match consume ")" p.2 with
               | Some rest => Ok (p.1, rest)
               | None => Err (ExpectedClose (skip_whitespace p.2))
               end
           | None => parse_atom l
           end
  end.

(** [ExprParser::parse] *)
Definition parse (s : string) : result ConditionExpr CondError :=
  let? p := parse_or (4 * String.length s + 4) (chars s) in
  match skip_whitespace p.2 with
  | [] => Ok p.1
  | rest => Err (UnexpectedInput rest)
  end.

(** ** Printing *)

Inductive Prec : Type := POr | PAnd | PNot | PAtom.
Definition prec_rank (p : Prec) : nat := match p with POr => 0 | PAnd => 1 | PNot => 2 | PAtom => 3 end.

Definition prec (e : ConditionExpr) : Prec :=
  match e with Or _ _ => POr | And _ _ => PAnd | Not _ => PNot | Atom _ => PAtom end.

Fixpoint fmt_with_prec (e : ConditionExpr) (parent : Prec) : string :=
  let body := match e with
              | Atom a => atom_as_str a
              | Not e => "!" +:+ fmt_with_prec e PNot
              | And l r => fmt_with_prec l PAnd +:+ " && " +:+ fmt_with_prec r PAnd
              | Or l r => fmt_with_prec l POr +:+ " || " +:+ fmt_with_prec r POr
              end in
  if (prec_rank (prec e) <? prec_rank parent)%nat then "(" +:+ body +:+ ")" else body.

Definition to_string (e : ConditionExpr) : string := fmt_with_prec e POr.

Example parse_example :
  parse "(cursor-at-start && !input-empty) || no-results"
  = Ok (Or (And (Atom CursorAtStart) (Not (Atom InputEmpty))) (Atom NoResults)).
Proof. reflexivity. Qed.

Example print_example :
  to_string (And (Or (Atom ListAtEnd) (Atom NoResults)) (And (Atom HasContext) (Not (Atom InputEmpty))))
  = "(list-at-end || no-results) && has-context && !input-empty"%string.
Proof. reflexivity. Qed.

(** ** Fuel *)

Lemma skip_length l : (length (skip_whitespace l) ≤ length l)%nat.
Proof. induction l as [|c l IH]; [done|]. cbn. destruct (is_ascii_whitespace c); cbn; lia. Qed.

Lemma skip_idemp l : skip_whitespace (skip_whitespace l) = skip_whitespace l.
Proof. induction l as [|c l IH]; [done|]. cbn. destruct (is_ascii_whitespace c) eqn:E; [done|]. cbn. by rewrite E. Qed.

Lemma strip_prefix_l_length {A} `{EqDecision A} (p l l' : list A) :
  strip_prefix_l p l = Some l' → length l = (length p + length l')%nat.
Proof.
  revert l. induction p as [|a p IH]; intros [|b l]; cbn; try by intros [= <-]. case_decide; [|done]. intros <-%IH. done.
Qed.

Lemma consume_length s l l' : consume s l = Some l' → (length l' + String.length s ≤ length l)%nat.
Proof.
  intros E%strip_prefix_l_length. rewrite length_chars in E. pose proof (skip_length l). lia.
Qed.

Lemma take_name_length l : (length (take_name l).2 ≤ length l)%nat.
Proof.
  induction l as [|c l IH]; [done|]. cbn. destruct (name_char c); [|done]. destruct (take_name l). cbn in *. lia.
Qed.

(** What a call of a parser with enough fuel gives: not a lack of fuel, and no longer a rest. *)
Definition fine (l : list Ascii.ascii) (r : result (ConditionExpr * list Ascii.ascii) CondError) : Prop :=
  r ≠ Err OutOfFuel ∧ ∀ p, r = Ok p → (length p.2 ≤ length l)%nat.

Lemma fine_le l l' r : fine l r → (length l ≤ length l')%nat → fine l' r.
Proof. intros [? Hr] Hl. split; [done|]. intros p Hp. specialize (Hr p Hp). lia. Qed.

Lemma fine_bind l r k : fine l r → (∀ p, r = Ok p → fine p.2 (k p)) → fine l (rbind r k).
Proof.
  intros [Hn Hr] Hk. destruct r as [p|e]; cbn; [|by split].
  eapply fine_le; [by apply Hk|by apply Hr].
Qed.

Lemma fine_atom l : fine l (parse_atom l).
Proof.
  unfold parse_atom. pose proof (take_name_length (skip_whitespace l)). pose proof (skip_length l).
  destruct (take_name _) as [[|c n] rest]; cbn in *; [by split|].
  destruct (atom_from_str _); split; try done. intros p [= <-]. cbn. lia.
Qed.

Lemma parse_fine n :
  (∀ l, (4 * length l + 4 ≤ n)%nat → fine l (parse_or n l)) ∧
  (∀ l e, (4 * length l + 3 ≤ n)%nat → fine l (or_loop n e l)) ∧
  (∀ l, (4 * length l + 3 ≤ n)%nat → fine l (parse_and n l)) ∧
  (∀ l e, (4 * length l + 2 ≤ n)%nat → fine l (and_loop n e l)) ∧
  (∀ l, (4 * length l + 2 ≤ n)%nat → fine l (parse_unary n l)) ∧
  (∀ l, (4 * length l + 1 ≤ n)%nat → fine l (parse_primary n l)).
Proof.
  induction n as [|n (IHo & IHol & IHa & IHal & IHu & IHp)]; [split_and!; intros; lia|].
  assert (∀ l r e, fine l r → (4 * length l + 3 ≤ n)%nat → fine l (rbind r (λ p, or_loop n (e p) p.2))) as Hol.
  { intros l r e Hr Hl. apply fine_bind; [done|]. intros p Hp. apply IHol. apply Hr in Hp. lia. }
  assert (∀ l r e, fine l r → (4 * length l + 2 ≤ n)%nat → fine l (rbind r (λ p, and_loop n (e p) p.2))) as Hal.
  { intros l r e Hr Hl. apply fine_bind; [done|]. intros p Hp. apply IHal. apply Hr in Hp. lia. }
  split_and!; intros l; cbn [parse_or or_loop parse_and and_loop parse_unary parse_primary].
  - intros Hn. apply Hol; [apply IHa; lia|lia].
  - intros e Hn. destruct (consume "||" l) as [l'|] eqn:E.
    + apply consume_length in E; cbn in E. eapply fine_le; [apply (Hol l' _ (λ p, Or e p.1)); [apply IHa; lia|lia]|lia].
    + split; [done|]. intros p [= <-]. apply skip_length.
  - intros Hn. apply Hal; [apply IHu; lia|lia].
  - intros e Hn. destruct (consume "&&" l) as [l'|] eqn:E.
    + apply consume_length in E; cbn in E. eapply fine_le; [apply (Hal l' _ (λ p, And e p.1)); [apply IHu; lia|lia]|lia].
    + split; [done|]. intros p [= <-]. apply skip_length.
  - intros Hn. destruct (consume "!" l) as [l'|] eqn:E.
    + apply consume_length in E; cbn in E. apply (fine_le l'); [|lia]. apply fine_bind; [apply IHu; lia|]. intros p _.
      split; [done|]. by intros q [= <-].
    + pose proof (skip_length l). eapply fine_le; [apply IHp; lia|lia].
  - intros Hn. destruct (consume "(" l) as [l'|] eqn:E; [|apply fine_atom].
    apply consume_length in E; cbn in E. apply (fine_le l'); [|lia]. apply fine_bind; [apply IHo; lia|]. intros p _.
    destruct (consume ")" p.2) as [rest|] eqn:E'; [|by split]. apply consume_length in E'. split; [done|]. intros q [= <-]. cbn. lia.
Qed.

(** More fuel does not change a result. *)
Definition settles (r r' : result (ConditionExpr * list Ascii.ascii) CondError) : Prop :=
  r ≠ Err OutOfFuel → r' = r.

Lemma settles_bind r r' k k' :
  settles r r' → (∀ p, r = Ok p → settles (k p) (k' p)) → settles (rbind r k) (rbind r' k').
Proof.
  intros Hr Hk Hn. destruct r as [p|e].
  - rewrite Hr by done. cbn in *. by apply Hk.
  - rewrite Hr; [done|]. intros [= ->]. by apply Hn.
Qed.

(** One unfolding of each function. *)
Lemma parse_or_S f l : parse_or (S f) l = let? p := parse_and f l in or_loop f p.1 p.2.
Proof. done. Qed.
Lemma parse_and_S f l : parse_and (S f) l = let? p := parse_unary f l in and_loop f p.1 p.2.
Proof. done. Qed.
Lemma or_loop_S f e l :
  or_loop (S f) e l = match consume "||" l with
                      | Some l' => let? p := parse_and f l' in or_loop f (Or e p.1) p.2
                      | None => Ok (e, skip_whitespace l)
                      end.
Proof. done. Qed.
Lemma and_loop_S f e l :
  and_loop (S f) e l = match consume "&&" l with
                       | Some l' => let? p := parse_unary f l' in and_loop f (And e p.1) p.2
                       | None => Ok (e, skip_whitespace l)
                       end.
Proof. done. Qed.
Lemma parse_unary_S f l :
  parse_unary (S f) l = match consume "!" l with
                        | Some l' => let? p := parse_unary f l' in Ok (Not p.1, p.2)
                        | None => parse_primary f (skip_whitespace l)
                        end.
Proof. done. Qed.
Lemma parse_primary_S f l :
  parse_primary (S f) l =
    match consume "(" l with
    | Some l' => let? p := parse_or f l' in
                 match consume ")" p.2 with
                 | Some rest => Ok (p.1, rest)
                 | None => Err (ExpectedClose (skip_whitespace p.2))
                 end
    | None => parse_atom l
    end.
Proof. done. Qed.

Lemma parse_settles n :
  (∀ l, settles (parse_or n l) (parse_or (S n) l)) ∧
  (∀ e l, settles (or_loop n e l) (or_loop (S n) e l)) ∧
  (∀ l, settles (parse_and n l) (parse_and (S n) l)) ∧
  (∀ e l, settles (and_loop n e l) (and_loop (S n) e l)) ∧
  (∀ l, settles (parse_unary n l) (parse_unary (S n) l)) ∧
  (∀ l, settles (parse_primary n l) (parse_primary (S n) l)).
Proof.
  induction n as [|n (IHo & IHol & IHa & IHal & IHu & IHp)]; [split_and!; by intros; intros []|]. split_and!; intros.
  - rewrite !(parse_or_S n), (parse_or_S (S n)). apply settles_bind; [done|]. intros. apply IHol.
  - rewrite (or_loop_S n), (or_loop_S (S n)). destruct (consume _ _); [|done]. apply settles_bind; [done|]. intros. apply IHol.
  - rewrite (parse_and_S n), (parse_and_S (S n)). apply settles_bind; [done|]. intros. apply IHal.
  - rewrite (and_loop_S n), (and_loop_S (S n)). destruct (consume _ _); [|done]. apply settles_bind; [done|]. intros. apply IHal.
  - rewrite (parse_unary_S n), (parse_unary_S (S n)). destruct (consume _ _); [|done]. by apply settles_bind.
  - rewrite (parse_primary_S n), (parse_primary_S (S n)). destruct (consume _ _); [|done]. by apply settles_bind.
Qed.

(** The outcome of a parser, at whatever fuel. *)
Definition reads {A} (f : nat → A → result (ConditionExpr * list Ascii.ascii) CondError) (a : A)
    (r : ConditionExpr * list Ascii.ascii) : Prop := ∃ n, ∀ m, (n ≤ m)%nat → f m a = Ok r.

Lemma parse_or_reads s r : reads parse_or (chars s) r → parse_or (4 * String.length s + 4) (chars s) = Ok r.
Proof.
  intros [n Hn]. set (k := (4 * String.length s + 4)%nat).
  assert (fine (chars s) (parse_or k (chars s))) as [Hf _] by (apply parse_fine; rewrite length_chars; done).
  assert (∀ d, parse_or (d + k) (chars s) = parse_or k (chars s)) as Hd.
  { induction d as [|d IH]; [done|]. cbn [plus]. destruct (parse_settles (d + k)) as [Hs _]. rewrite Hs; [done|]. by rewrite IH. }
  rewrite <- (Hd n). apply Hn. lia.
Qed.

(** ** The normal form that printing and parsing leaves: chains associate to the left *)

Fixpoint app_and (x y : ConditionExpr) : ConditionExpr :=
  match y with And y1 y2 => And (app_and x y1) y2 | _ => And x y end.

Fixpoint app_or (x y : ConditionExpr) : ConditionExpr :=
  match y with Or y1 y2 => Or (app_or x y1) y2 | _ => Or x y end.

Fixpoint norm (e : ConditionExpr) : ConditionExpr :=
  match e with
  | Atom a => Atom a
  | Not e => Not (norm e)
  | And l r => app_and (norm l) (norm r)
  | Or l r => app_or (norm l) (norm r)
  end.

Lemma app_and_assoc x y z : app_and (app_and x y) z = app_and x (app_and y z).
Proof. induction z; cbn; congruence. Qed.

Lemma app_or_assoc x y z : app_or (app_or x y) z = app_or x (app_or y z).
Proof. induction z; cbn; congruence. Qed.

Lemma evaluate_app_and x y c : evaluate (app_and x y) c = evaluate x c && evaluate y c.
Proof. induction y; cbn in *; try done. by rewrite IHy1, andb_assoc. Qed.

Lemma evaluate_app_or x y c : evaluate (app_or x y) c = evaluate x c || evaluate y c.
Proof. induction y; cbn in *; try done. by rewrite IHy1, orb_assoc. Qed.

Lemma evaluate_norm e c : evaluate (norm e) c = evaluate e c.
Proof. induction e; cbn; rewrite ?evaluate_app_and, ?evaluate_app_or; congruence. Qed.

Lemma prec_norm e : prec (norm e) = prec e.
Proof. destruct e as [| |l r|l r]; cbn; try done; by destruct (norm r). Qed.

(** ** Reading back what was printed *)

(** The text after an expression does not continue its last name. *)
Definition stops (l : list Ascii.ascii) : Prop := match l with c :: _ => name_char c = false | [] => True end.

(** Nor its chain of conjuncts, or of disjuncts. *)
Definition no_and (l : list Ascii.ascii) : Prop := consume "&&" l = None.
Definition no_or (l : list Ascii.ascii) : Prop := consume "||" l = None.

Definition space : Ascii.ascii := byte 32.

Lemma consume_space s l : consume s (space :: l) = consume s l.
Proof. done. Qed.

Lemma consume_skip s l : consume s (skip_whitespace l) = consume s l.
Proof. unfold consume. by rewrite skip_idemp. Qed.

Definition ptext (e : ConditionExpr) (p : Prec) : list Ascii.ascii := chars (fmt_with_prec e p).

(** How outcomes compose. *)
Lemma reads_and l e l1 r :
  reads parse_unary l (e, l1) → reads (λ n l, and_loop n e l) l1 r → reads parse_and l r.
Proof.
  intros [n1 H1] [n2 H2]. exists (S (n1 + n2)). intros [|m] Hm; [lia|]. rewrite parse_and_S, H1 by lia. apply H2. lia.
Qed.

Lemma reads_or l e l1 r :
  reads parse_and l (e, l1) → reads (λ n l, or_loop n e l) l1 r → reads parse_or l r.
Proof.
  intros [n1 H1] [n2 H2]. exists (S (n1 + n2)). intros [|m] Hm; [lia|]. rewrite parse_or_S, H1 by lia. apply H2. lia.
Qed.

Lemma reads_and_loop left l l' e l1 r :
  consume "&&" l = Some l' → reads parse_unary l' (e, l1) → reads (λ n l, and_loop n (And left e) l) l1 r →
  reads (λ n l, and_loop n left l) l r.
Proof.
  intros Hc [n1 H1] [n2 H2]. exists (S (n1 + n2)). intros [|m] Hm; [lia|]. rewrite and_loop_S, Hc, H1 by lia. apply H2. lia.
Qed.

Lemma reads_or_loop left l l' e l1 r :
  consume "||" l = Some l' → reads parse_and l' (e, l1) → reads (λ n l, or_loop n (Or left e) l) l1 r →
  reads (λ n l, or_loop n left l) l r.
Proof.
  intros Hc [n1 H1] [n2 H2]. exists (S (n1 + n2)). intros [|m] Hm; [lia|]. rewrite or_loop_S, Hc, H1 by lia. apply H2. lia.
Qed.

Lemma reads_and_end e l : no_and l → reads (λ n l, and_loop n e l) l (e, skip_whitespace l).
Proof. intros Hl. exists 1%nat. intros [|m] Hm; [lia|]. by rewrite and_loop_S, Hl. Qed.

Lemma reads_or_end e l : no_or l → reads (λ n l, or_loop n e l) l (e, skip_whitespace l).
Proof. intros Hl. exists 1%nat. intros [|m] Hm; [lia|]. by rewrite or_loop_S, Hl. Qed.

Lemma reads_or_skip e l r : reads (λ n l, or_loop n e l) l r → reads (λ n l, or_loop n e l) (skip_whitespace l) r.
Proof.
  intros [n Hn]. exists n. intros m Hm. rewrite <- (Hn m Hm). destruct m; [done|]. by rewrite !or_loop_S, consume_skip, skip_idemp.
Qed.

Lemma reads_unary_space l r : reads parse_unary l r → reads parse_unary (space :: l) r.
Proof. intros [n Hn]. exists n. intros m Hm. rewrite <- (Hn m Hm). by destruct m. Qed.

Lemma reads_and_space l r : reads parse_and l r → reads parse_and (space :: l) r.
Proof. intros [n Hn]. exists n. intros m Hm. rewrite <- (Hn m Hm). by destruct m as [|[|m]]. Qed.

Lemma reads_primary l r : consume "!" l = None → reads parse_primary (skip_whitespace l) r → reads parse_unary l r.
Proof. intros Hc [n Hn]. exists (S n). intros [|m] Hm; [lia|]. rewrite parse_unary_S, Hc. apply Hn. lia. Qed.

Definition R (e : ConditionExpr) : Prop :=
  ∀ rest, stops rest → reads parse_unary (ptext e PNot ++ rest) (norm e, rest).

Definition A1 (e : ConditionExpr) : Prop :=
  ∀ rest r, stops rest → reads (λ n l, and_loop n (norm e) l) rest r → reads parse_and (ptext e PAnd ++ rest) r.
Definition A2 (e : ConditionExpr) : Prop :=
  ∀ left rest r, stops rest → reads (λ n l, and_loop n (app_and left (norm e)) l) rest r →
    reads (λ n l, and_loop n left l) (chars " && " ++ ptext e PAnd ++ rest) r.
Definition O1 (e : ConditionExpr) : Prop :=
  ∀ rest r, stops rest → no_and rest → reads (λ n l, or_loop n (norm e) l) rest r → reads parse_or (ptext e POr ++ rest) r.
Definition O2 (e : ConditionExpr) : Prop :=
  ∀ left rest r, stops rest → no_and rest → reads (λ n l, or_loop n (app_or left (norm e)) l) rest r →
    reads (λ n l, or_loop n left l) (chars " || " ++ ptext e POr ++ rest) r.

Lemma conjunct_base e :
  R e → ptext e PAnd = ptext e PNot → (∀ left, app_and left (norm e) = And left (norm e)) → A1 e ∧ A2 e.
Proof.
  intros HR Ht Hn. split.
  - intros rest r Hs Hr. rewrite Ht. eapply reads_and; [by apply HR|done].
  - intros left rest r Hs Hr. rewrite Ht. rewrite Hn in Hr. eapply reads_and_loop; [reflexivity| |exact Hr].
    apply reads_unary_space. by apply HR.
Qed.

Lemma disjunct_base e :
  A1 e → ptext e POr = ptext e PAnd → (∀ left, app_or left (norm e) = Or left (norm e)) → O1 e ∧ O2 e.
Proof.
  intros HA Ht Hn.
  assert (∀ rest, stops rest → no_and rest → reads parse_and (ptext e POr ++ rest) (norm e, skip_whitespace rest)) as Hp.
  { intros rest Hs Ha. rewrite Ht. apply HA; [done|]. by apply reads_and_end. }
  split.
  - intros rest r Hs Ha Hr. eapply reads_or; [by apply Hp|by apply reads_or_skip].
  - intros left rest r Hs Ha Hr. rewrite Hn in Hr. eapply reads_or_loop; [reflexivity| |by apply reads_or_skip].
    apply reads_and_space. by apply Hp.
Qed.

Lemma conjunct_chain a b : A1 a ∧ A2 a → A1 b ∧ A2 b → A1 (And a b) ∧ A2 (And a b).
Proof.
  intros [Ha1 Ha2] [Hb1 Hb2]. unfold A1, A2. change (ptext (And a b) PAnd) with (chars (fmt_with_prec a PAnd +:+ " && " +:+ fmt_with_prec b PAnd)).
  rewrite !chars_app. fold (ptext a PAnd) (ptext b PAnd). cbn [norm]. split.
  - intros rest r Hs Hr. rewrite <- !app_assoc. apply Ha1; [done|]. by apply Hb2.
  - intros left rest r Hs Hr. rewrite <- !app_assoc. apply Ha2; [done|]. apply Hb2; [done|]. by rewrite app_and_assoc.
Qed.

Lemma disjunct_chain a b : O1 a ∧ O2 a → O1 b ∧ O2 b → O1 (Or a b) ∧ O2 (Or a b).
Proof.
  intros [Ha1 Ha2] [Hb1 Hb2]. unfold O1, O2. change (ptext (Or a b) POr) with (chars (fmt_with_prec a POr +:+ " || " +:+ fmt_with_prec b POr)).
  rewrite !chars_app. fold (ptext a POr) (ptext b POr). cbn [norm]. split.
  - intros rest r Hs Hn Hr. rewrite <- !app_assoc. apply Ha1; [done|done|]. by apply Hb2.
  - intros left rest r Hs Hn Hr. rewrite <- !app_assoc. apply Ha2; [done|done|]. apply Hb2; [done|done|]. by rewrite app_or_assoc.
Qed.

Lemma parenthesised e : O1 e → fmt_with_prec e PNot = ("(" +:+ fmt_with_prec e POr +:+ ")")%string → R e.
Proof.
  intros HO Ht rest Hs. unfold ptext. rewrite Ht, !chars_app, <- !app_assoc.
  destruct (HO (chars ")" ++ rest) (norm e, chars ")" ++ rest)) as [n Hn]; [done|done|by apply reads_or_end|].
  apply reads_primary; [done|]. exists (S n). intros [|m] Hm; [lia|]. rewrite parse_primary_S.
  change (consume "(" _) with (Some (ptext e POr ++ chars ")" ++ rest)). cbv beta iota. rewrite Hn by lia. done.
Qed.

Lemma take_name_app n rest : forallb name_char n = true → stops rest → take_name (n ++ rest) = (n, rest).
Proof.
  induction n as [|c n IH]; intros Hn Hs.
  - destruct rest as [|c rest]; [done|]. cbn in *. by rewrite Hs.
  - cbn in Hn. apply andb_true_iff in Hn as [Hc Hn]. cbn. by rewrite Hc, IH.
Qed.

Lemma atom_reads a : R (Atom a).
Proof.
  intros rest Hs. apply reads_primary; [by destruct a|]. exists 1%nat. intros [|m] Hm; [lia|]. rewrite parse_primary_S.
  assert (consume "(" (skip_whitespace (ptext (Atom a) PNot ++ rest)) = None) as -> by by destruct a.
  unfold parse_atom. rewrite skip_idemp.
  assert (skip_whitespace (ptext (Atom a) PNot ++ rest) = chars (atom_as_str a) ++ rest) as -> by by destruct a.
  rewrite take_name_app; [|by destruct a|done]. by destruct a.
Qed.

(** Every expression is read back at every level. *)
Lemma printed_reads e : (A1 e ∧ A2 e) ∧ (O1 e ∧ O2 e) ∧ R e.
Proof.
  induction e as [a|e (_ & _ & IH)|a (IHa & _ & _) b (IHb & _ & _)|a (_ & IHa & _) b (_ & IHb & _)].
  - pose proof (atom_reads a) as HR. assert (A1 (Atom a) ∧ A2 (Atom a)) as HA by by apply conjunct_base.
    split_and!; try apply HA; [| |done]; by apply disjunct_base; [apply HA|..].
  - assert (R (Not e)) as HR.
    { intros rest Hs. destruct (IH rest Hs) as [n Hn]. exists (S n). intros [|m] Hm; [lia|]. rewrite parse_unary_S.
      change (consume "!" _) with (Some (ptext e PNot ++ rest)). cbv beta iota. by rewrite Hn by lia. }
    assert (A1 (Not e) ∧ A2 (Not e)) as HA by by apply conjunct_base.
    split_and!; try apply HA; [| |done]; by apply disjunct_base; [apply HA|..].
  - pose proof (conjunct_chain a b IHa IHb) as HA.
    assert (O1 (And a b) ∧ O2 (And a b)) as HO.
    { apply disjunct_base; [apply HA|done|]. intros left. cbn [norm]. by destruct (norm b). }
    split_and!; try apply HA; try apply HO. by apply parenthesised; [apply HO|].
  - pose proof (disjunct_chain a b IHa IHb) as HO.
    assert (R (Or a b)) as HR by by apply parenthesised; [apply HO|].
    assert (A1 (Or a b) ∧ A2 (Or a b)) as HA.
    { apply conjunct_base; [done|done|]. intros left. cbn [norm]. by destruct (norm b). }
    split_and!; try apply HA; try apply HO. done.
Qed.

(** The printed text is that of the normal form. *)
Lemma fmt_app_and x y p : fmt_with_prec (app_and x y) p = fmt_with_prec (And x y) p.
Proof.
  revert p. induction y as [| |y1 IH y2 _|]; intros p; try done. cbn [app_and].
  cbn [fmt_with_prec prec]. rewrite (IH PAnd). cbn [fmt_with_prec prec prec_rank Nat.ltb Nat.leb]. by rewrite !string_app_assoc.
Qed.

Lemma fmt_app_or x y p : fmt_with_prec (app_or x y) p = fmt_with_prec (Or x y) p.
Proof.
  revert p. induction y as [| | |y1 IH y2 _]; intros p; try done. cbn [app_or].
  cbn [fmt_with_prec prec]. rewrite (IH POr). cbn [fmt_with_prec prec prec_rank Nat.ltb Nat.leb]. by rewrite !string_app_assoc.
Qed.

Lemma fmt_norm e p : fmt_with_prec (norm e) p = fmt_with_prec e p.
Proof.
  revert p. induction e as [a|e IH|a IHa b IHb|a IHa b IHb]; intros p; cbn [norm].
  - done.
  - cbn [fmt_with_prec prec]. by rewrite IH.
  - rewrite fmt_app_and. cbn [fmt_with_prec prec]. by rewrite IHa, IHb.
  - rewrite fmt_app_or. cbn [fmt_with_prec prec]. by rewrite IHa, IHb.
Qed.

(** ** Correctness *)

(** A condition printed to its text form parses back to a condition that means the same in every
    context and prints to the same text; chains of one operator come back associated to the left. *)
Theorem condition_text_roundtrip e :
  parse (to_string e) = Ok (norm e) ∧ (∀ c, evaluate (norm e) c = evaluate e c) ∧ to_string (norm e) = to_string e.
Proof.
  split_and!; [|apply evaluate_norm|apply fmt_norm]. unfold parse, to_string.
  destruct (printed_reads e) as (_ & [HO _] & _).
  rewrite (parse_or_reads _ (norm e, [])); [done|]. fold (ptext e POr).
  rewrite <- (app_nil_r (ptext e POr)). apply HO; [done|done|]. by apply reads_or_end.
Qed.

(** The parser ends on every input: the fuel it is given is enough, so that an error is always one of
    the four of the source. *)
Theorem condition_parser_terminates s : parse s ≠ Err OutOfFuel.
Proof.
  unfold parse. destruct (parse_fine (4 * String.length s + 4)) as [Ho _].
  destruct (Ho (chars s)) as [Hn _]; [by rewrite length_chars|].
  destruct (parse_or _ _) as [[e rest]|err]; cbn; [|congruence]. by destruct (skip_whitespace rest).
Qed.
