(* ===== verification/Keys.v ===== *)
(** * Key bindings of the search screen ([search/keybindings])

    Keys and their text form ([key.rs]), actions ([actions.rs]), keymaps ([keymap.rs]) and the default
    keymaps with the user's overrides ([defaults.rs]). A [char] is the text of its UTF-8 bytes. The
    lower case of a text with characters beyond ASCII is a parameter. A [HashMap] of bindings is a
    [gmap]; the overrides are listed in the order of their iteration. *)
From stdpp Require Import pretty.
From S2P Require Import Prelude Text Conditions.

(** The value of the first arm that matches. *)
Fixpoint arm {A} (s : string) (arms : list (string * A)) : option A :=
  match arms with
  | [] => None
  | (k, a) :: arms' => if decide (s = k) then Some a else arm s arms'
  end.

(** ** Actions *)

Inductive Action : Type :=
| CursorLeft | CursorRight | CursorWordLeft | CursorWordRight | CursorWordEnd | CursorStart | CursorEnd
| DeleteCharBefore | DeleteCharAfter | DeleteWordBefore | DeleteWordAfter | DeleteToWordBoundary
| ClearLine | ClearToStart | ClearToEnd | SelectNext | SelectPrevious | ScrollHalfPageUp
| ScrollHalfPageDown | ScrollPageUp | ScrollPageDown | ScrollToTop | ScrollToBottom | ScrollToScreenTop
| ScrollToScreenMiddle | ScrollToScreenBottom | Accept | AcceptNth (n : Z) | ReturnSelection
| ReturnSelectionNth (n : Z) | Copy | ADelete | DeleteAll | ReturnOriginal | ReturnQuery | Exit | Redraw
| CycleFilterMode | CycleSearchMode | SwitchContext | ClearContext | ToggleTab | VimEnterNormal
| VimEnterInsert | VimEnterInsertAfter | VimEnterInsertAtStart | VimEnterInsertAtEnd | VimSearchInsert
| VimChangeToEnd | EnterPrefixMode | InspectPrevious | InspectNext | Noop.


#[export] Instance Action_eq_dec : EqDecision Action.
Proof. solve_decision. Defined.

Definition action_arms : list (string * Action) :=
  [("cursor-left", CursorLeft); ("cursor-right", CursorRight); ("cursor-word-left", CursorWordLeft);
   ("cursor-word-right", CursorWordRight); ("cursor-word-end", CursorWordEnd);
   ("cursor-start", CursorStart); ("cursor-end", CursorEnd); ("delete-char-before", DeleteCharBefore);
   ("delete-char-after", DeleteCharAfter); ("delete-word-before", DeleteWordBefore);
   ("delete-word-after", DeleteWordAfter); ("delete-to-word-boundary", DeleteToWordBoundary);
   ("clear-line", ClearLine); ("clear-to-start", ClearToStart); ("clear-to-end", ClearToEnd);
   ("select-next", SelectNext); ("select-previous", SelectPrevious);
   ("scroll-half-page-up", ScrollHalfPageUp); ("scroll-half-page-down", ScrollHalfPageDown);
   ("scroll-page-up", ScrollPageUp); ("scroll-page-down", ScrollPageDown); ("scroll-to-top", ScrollToTop);
   ("scroll-to-bottom", ScrollToBottom); ("scroll-to-screen-top", ScrollToScreenTop);
   ("scroll-to-screen-middle", ScrollToScreenMiddle); ("scroll-to-screen-bottom", ScrollToScreenBottom);
   ("accept", Accept); ("return-selection", ReturnSelection); ("copy", Copy); ("delete", ADelete);
   ("delete-all", DeleteAll); ("return-original", ReturnOriginal); ("return-query", ReturnQuery);
   ("exit", Exit); ("redraw", Redraw); ("cycle-filter-mode", CycleFilterMode);
   ("cycle-search-mode", CycleSearchMode); ("switch-context", SwitchContext);
   ("clear-context", ClearContext); ("toggle-tab", ToggleTab); ("vim-enter-normal", VimEnterNormal);
   ("vim-enter-insert", VimEnterInsert); ("vim-enter-insert-after", VimEnterInsertAfter);
   ("vim-enter-insert-at-start", VimEnterInsertAtStart); ("vim-enter-insert-at-end", VimEnterInsertAtEnd);
   ("vim-search-insert", VimSearchInsert); ("vim-change-to-end", VimChangeToEnd);
   ("enter-prefix-mode", EnterPrefixMode); ("inspect-previous", InspectPrevious);
   ("inspect-next", InspectNext); ("noop", Noop)].

(** [accept-N] and [return-selection-N]. *)
Definition nth_action (prefix s : string) (a : Z → Action) : option Action :=
  rest ← strip_prefix prefix s; n ← parse_u8 rest; if (1 <=? n) && (n <=? 9) then Some (a n) else None.

Definition action_from_str (s : string) : result Action string :=
  match nth_action "accept-" s AcceptNth with
  | Some a => Ok a
  | None =>
      match nth_action "return-selection-" s ReturnSelectionNth with
      | Some a => Ok a
      | None => ok_or (arm s action_arms) ("unknown action: " +:+ s)
      end
  end.

Definition action_as_str (a : Action) : string :=
  match a with
  | CursorLeft => "cursor-left"
  | CursorRight => "cursor-right"
  | CursorWordLeft => "cursor-word-left"
  | CursorWordRight => "cursor-word-right"
  | CursorWordEnd => "cursor-word-end"
  | CursorStart => "cursor-start"
  | CursorEnd => "cursor-end"
  | DeleteCharBefore => "delete-char-before"
  | DeleteCharAfter => "delete-char-after"
  | DeleteWordBefore => "delete-word-before"
  | DeleteWordAfter => "delete-word-after"
  | DeleteToWordBoundary => "delete-to-word-boundary"
  | ClearLine => "clear-line"
  | ClearToStart => "clear-to-start"
  | ClearToEnd => "clear-to-end"
  | SelectNext => "select-next"
  | SelectPrevious => "select-previous"
  | ScrollHalfPageUp => "scroll-half-page-up"
  | ScrollHalfPageDown => "scroll-half-page-down"
  | ScrollPageUp => "scroll-page-up"
  | ScrollPageDown => "scroll-page-down"
  | ScrollToTop => "scroll-to-top"
  | ScrollToBottom => "scroll-to-bottom"
  | ScrollToScreenTop => "scroll-to-screen-top"
  | ScrollToScreenMiddle => "scroll-to-screen-middle"
  | ScrollToScreenBottom => "scroll-to-screen-bottom"
  | Accept => "accept"
  | AcceptNth n => "accept-" +:+ pretty n
  | ReturnSelection => "return-selection"
  | ReturnSelectionNth n => "return-selection-" +:+ pretty n
  | Copy => "copy"
  | ADelete => "delete"
  | DeleteAll => "delete-all"
  | ReturnOriginal => "return-original"
  | ReturnQuery => "return-query"
  | Exit => "exit"
  | Redraw => "redraw"
  | CycleFilterMode => "cycle-filter-mode"
  | CycleSearchMode => "cycle-search-mode"
  | SwitchContext => "switch-context"
  | ClearContext => "clear-context"
  | ToggleTab => "toggle-tab"
  | VimEnterNormal => "vim-enter-normal"
  | VimEnterInsert => "vim-enter-insert"
  | VimEnterInsertAfter => "vim-enter-insert-after"
  | VimEnterInsertAtStart => "vim-enter-insert-at-start"
  | VimEnterInsertAtEnd => "vim-enter-insert-at-end"
  | VimSearchInsert => "vim-search-insert"
  | VimChangeToEnd => "vim-change-to-end"
  | EnterPrefixMode => "enter-prefix-mode"
  | InspectPrevious => "inspect-previous"
  | InspectNext => "inspect-next"
  | Noop => "noop"
  end.

(** ** Keys *)

Inductive MediaKeyCode : Type :=
| Play | Pause | PlayPause | Reverse | Stop | FastForward | Rewind | TrackNext | TrackPrevious | MRecord
| LowerVolume | RaiseVolume | MuteVolume.

#[export] Instance MediaKeyCode_eq_dec : EqDecision MediaKeyCode.
Proof. solve_decision. Defined.

Inductive KeyCodeValue : Type :=
| KChar (c : string) | Enter | Esc | Tab | Backspace | KDelete | KInsert | Up | Down | Left | Right
| Home | End | PageUp | PageDown | Space | KF (n : Z) | KMedia (m : MediaKeyCode).

#[export] Instance KeyCodeValue_eq_dec : EqDecision KeyCodeValue.
Proof. solve_decision. Defined.

Record SingleKey : Type := mk_key {
  k_code : KeyCodeValue; k_ctrl : bool; k_alt : bool; k_shift : bool; k_super : bool
}.

#[export] Instance SingleKey_eq_dec : EqDecision SingleKey.
Proof. solve_decision. Defined.

Inductive KeyInput : Type := Single (k : SingleKey) | Sequence (ks : list SingleKey).

#[export] Instance KeyInput_eq_dec : EqDecision KeyInput.
Proof. solve_decision. Defined.

(** crossterm's [KeyEvent] as far as the code looks at it. *)
Inductive KeyCode : Type := EvCode (k : KeyCodeValue) | EvBackTab | EvOther.

Record KeyEvent : Type := mk_event {
  ev_code : KeyCode; ev_control : bool; ev_alt : bool; ev_shift : bool; ev_super : bool
}.

Definition is_ascii_uppercase (c : string) : bool :=
  match chars c with [a] => is_upper a | _ => false end.

(** [SingleKey::from_event]; [EvCode] holds the codes that are taken over. *)
Definition from_event (e : KeyEvent) : option SingleKey :=
  let '(mk_event code ctrl alt shift super) := e in
  match code with
  | EvCode (KChar c) =>
      if decide (c = " ") then Some (mk_key Space ctrl alt shift super)
      else if shift && negb ctrl && negb alt && negb super && is_ascii_uppercase c then
        Some (mk_key (KChar c) false false false false)
      else Some (mk_key (KChar c) ctrl alt false super)
  | EvBackTab => Some (mk_key Tab ctrl alt true super)
  | EvCode k => Some (mk_key k ctrl alt shift super)
  | EvOther => None
  end.

(** [str::to_lowercase] beyond ASCII. *)
Class UnicodeLib : Type := { lower_unicode : string → string }.

Section parsing.
Context `{UnicodeLib}.

Definition to_lowercase (s : string) : string :=
  if is_ascii s then unchars (ascii_lower <$> chars s) else lower_unicode s.

Inductive KeyError : Type :=
| UnknownModifier (part : string) | KeyOutOfRange (part : string) | UnknownKey (part : string).

Definition dash : Ascii.ascii := byte 45.

(** The loop over the modifiers; the flags are ctrl, alt, shift and super. *)
Fixpoint parse_modifiers (parts : list string) (k : SingleKey) : result SingleKey KeyError :=
  match parts with
  | [] => Ok k
  | part :: parts' =>
      let m := to_lowercase part in
      if decide (m = "ctrl") then parse_modifiers parts' (mk_key (k_code k) true (k_alt k) (k_shift k) (k_super k))
      else if decide (m = "alt") then parse_modifiers parts' (mk_key (k_code k) (k_ctrl k) true (k_shift k) (k_super k))
      else if decide (m = "shift") then parse_modifiers parts' (mk_key (k_code k) (k_ctrl k) (k_alt k) true (k_super k))
      else if decide (m ∈ ["super"; "cmd"; "win"]) then
        parse_modifiers parts' (mk_key (k_code k) (k_ctrl k) (k_alt k) (k_shift k) true)
      else Err (UnknownModifier part)
  end.

(** The arms before the function keys, and those after them. *)
Definition key_arms : list (string * KeyCodeValue) :=
  [("enter", Enter); ("return", Enter); ("esc", Esc); ("escape", Esc); ("tab", Tab); ("backspace", Backspace);
   ("delete", KDelete); ("del", KDelete); ("insert", KInsert); ("ins", KInsert); ("up", Up); ("down", Down);
   ("left", Left); ("right", Right); ("home", Home); ("end", End); ("pageup", PageUp); ("pagedown", PageDown);
   ("space", Space)].

Definition late_key_arms : list (string * KeyCodeValue) :=
  [("[", KChar "["); ("]", KChar "]"); ("?", KChar "?"); ("/", KChar "/"); ("$", KChar "$");
   ("play", KMedia Play); ("pause", KMedia Pause); ("playpause", KMedia PlayPause); ("stop", KMedia Stop);
   ("fastforward", KMedia FastForward); ("rewind", KMedia Rewind); ("tracknext", KMedia TrackNext);
   ("trackprevious", KMedia TrackPrevious); ("record", KMedia MRecord); ("lowervolume", KMedia LowerVolume);
   ("raisevolume", KMedia RaiseVolume); ("mutevolume", KMedia MuteVolume); ("mute", KMedia MuteVolume)].

(** The code of a key; a character is returned with whether it is a bare upper case letter. *)
Definition parse_code (key_part : string) : result KeyCodeValue KeyError :=
  let k := to_lowercase key_part in
  match arm k key_arms with
  | Some code => Ok code
  | None =>
      if starts_with "f" k && (1 <? String.length k)%nat then
        match strip_prefix "f" k ≫= parse_u8 with
        | Some n => if (1 <=? n) && (n <=? 24) then Ok (KF n) else Err (KeyOutOfRange key_part)
        | None => Err (UnknownKey key_part)
        end
      else
        match arm k late_key_arms with
        | Some code => Ok code
        | None => match str_chars key_part with
                  | [c] => Ok (KChar c)
                  | _ => Err (UnknownKey key_part)
                  end
        end
  end.

(** [SingleKey::parse] *)
Definition parse_key (s : string) : result SingleKey KeyError :=
  let parts := split_char dash (trim s) in
  let? k := parse_modifiers (removelast parts) (mk_key Space false false false false) in
  let? code := parse_code (List.last parts "") in
  match code with
  | KChar c =>
      if is_ascii_uppercase c && negb (k_ctrl k) && negb (k_alt k) && negb (k_super k)
      then Ok (mk_key code false false false false)
      else Ok (mk_key code (k_ctrl k) (k_alt k) (k_shift k) (k_super k))
  | _ => Ok (mk_key code (k_ctrl k) (k_alt k) (k_shift k) (k_super k))
  end.

(** [KeyInput::parse] *)
Definition parse_input (s : string) : result KeyInput KeyError :=
  let s := trim s in
  match split_whitespace s with
  | p :: q :: parts => let? keys := try_map parse_key (p :: q :: parts) in Ok (Sequence keys)
  | _ => let? k := parse_key s in Ok (Single k)
  end.
End parsing.

Definition media_to_string (m : MediaKeyCode) : string :=
  match m with
  | Play => "play" | Pause => "media-pause" | PlayPause => "playpause" | Stop => "stop"
  | FastForward => "fastforward" | Rewind => "rewind" | TrackNext => "tracknext"
  | TrackPrevious => "trackprevious" | MRecord => "record" | LowerVolume => "lowervolume"
  | RaiseVolume => "raisevolume" | MuteVolume => "mutevolume" | Reverse => "reverse"
  end.

Definition code_to_string (c : KeyCodeValue) : string :=
  match c with
  | KChar c => c | Enter => "enter" | Esc => "esc" | Tab => "tab" | Backspace => "backspace"
  | KDelete => "delete" | KInsert => "insert" | Up => "up" | Down => "down" | Left => "left"
  | Right => "right" | Home => "home" | End => "end" | PageUp => "pageup" | PageDown => "pagedown"
  | Space => "space" | KF n => "f" +:+ pretty n | KMedia m => media_to_string m
  end.

(** [Display for SingleKey] and [Display for KeyInput]. *)
Definition key_to_string (k : SingleKey) : string :=
  (if k_super k then "super-" else "") +:+ (if k_ctrl k then "ctrl-" else "") +:+ (if k_alt k then "alt-" else "")
  +:+ (if k_shift k then "shift-" else "") +:+ code_to_string (k_code k).

Definition input_to_string (i : KeyInput) : string :=
  match i with Single k => key_to_string k | Sequence ks => String.concat " " (key_to_string <$> ks) end.

(** ** Round trips *)

Definition wf_action (a : Action) : bool :=
  match a with AcceptNth n | ReturnSelectionNth n => (1 <=? n) && (n <=? 9) | _ => true end.

(** The codes that a configuration can name: visible ASCII but the dash, the named keys, the function
    keys up to 24 and the media keys but three. *)
Definition writable_codes : list KeyCodeValue :=
  (KChar <$> filter (λ c, c ≠ "-"%string) ((λ z, unchars [byte z]) <$> seqZ 33 94))
  ++ [Enter; Esc; Tab; Backspace; KDelete; KInsert; Up; Down; Left; Right; Home; End; PageUp; PageDown; Space]
  ++ (KF <$> seqZ 1 24)
  ++ (KMedia <$> [Play; PlayPause; Stop; Rewind; TrackNext; TrackPrevious; MRecord; LowerVolume; RaiseVolume; MuteVolume]).

Definition all_flags : list (bool * bool * bool * bool) :=
  c ← [true; false]; a ← [true; false]; s ← [true; false]; u ← [true; false]; [(c, a, s, u)].

(** The keys with these codes that an event can give: a character comes without shift. *)
Definition writable_keys : list SingleKey :=
  code ← writable_codes; '(c, a, s, u) ← all_flags;
  match code with KChar _ => [mk_key code c a false u] | _ => [mk_key code c a s u] end.

Lemma elem_of_flags f : f ∈ all_flags.
Proof. destruct f as [[[[] []] []] []]; apply (bool_decide_unpack _); by vm_compute. Qed.

Section roundtrip.
Context `{UnicodeLib}.

Definition reads_back (k : SingleKey) : bool :=
  match parse_input (key_to_string k) with Ok (Single k') => bool_decide (k' = k) | _ => false end.

Lemma writable_keys_read_back : forallb reads_back writable_keys = true.
Proof. vm_compute. reflexivity. Qed.

Lemma from_event_writable e k : from_event e = Some k → k_code k ∈ writable_codes → k ∈ writable_keys.
Proof.
  intros He Hk. apply list_elem_of_bind. exists (k_code k). split; [|done]. apply list_elem_of_bind.
  exists (k_ctrl k, k_alt k, k_shift k, k_super k). split; [|apply elem_of_flags].
  destruct e as [code c a s u]; cbn in He. destruct code as [[]| |]; try done; try (injection He as <-; apply list_elem_of_singleton; done).
  case_decide; [injection He as <-; by apply list_elem_of_singleton|].
  destruct (_ && _); injection He as <-; by apply list_elem_of_singleton.
Qed.

(** A key that an event can give, with a code that a configuration can name, reads back from its
    text form as that key. *)
Theorem key_text_roundtrip e k :
  from_event e = Some k → k_code k ∈ writable_codes → parse_input (key_to_string k) = Ok (Single k).
Proof.
  intros He Hk. pose proof writable_keys_read_back as Hr. rewrite forallb_forall in Hr.
  specialize (Hr k). rewrite <- list_elem_of_In in Hr. specialize (Hr (from_event_writable e k He Hk)).
  unfold reads_back in Hr. destruct (parse_input _) as [[k'|]|]; try done. by apply bool_decide_eq_true in Hr as ->.
Qed.

(** Four keys that are printed are not read back: the dash, and of the media keys pause, whose text
    has a dash, fast forward, which is taken for a function key, and reverse. *)
Theorem unreadable_keys code :
  code ∈ [KChar "-"; KMedia Pause; KMedia FastForward; KMedia Reverse] →
  ∃ err, parse_input (key_to_string (mk_key code false false false false)) = Err err.
Proof.
  intros Hc. repeat (apply elem_of_cons in Hc as [->|Hc]; [eexists; vm_compute; reflexivity|]). by apply not_elem_of_nil in Hc.
Qed.
End roundtrip.

(** An action with a shortcut number between 1 and 9 reads back from its text form. *)
Theorem action_text_roundtrip a : wf_action a = true → action_from_str (action_as_str a) = Ok a.
Proof.
  destruct a; try (intros _; vm_compute; reflexivity); cbn; intros [H1%Z.leb_le H9%Z.leb_le]%andb_true_iff;
    assert (n ∈ seqZ 1 9) as Hn by (apply elem_of_seqZ; lia); clear H1 H9;
    repeat (apply elem_of_cons in Hn as [->|Hn]; [vm_compute; reflexivity|]); by apply not_elem_of_nil in Hn.
Qed.

(** ** An instance *)

(** Letters outside ASCII keep their case. *)
#[export] Instance plain_unicode : UnicodeLib := {| lower_unicode := id |}.

Lemma key_text_roundtrip_witness :
  ∃ k, from_event (mk_event (EvCode (KChar "G")) true false true false) = Some k ∧
    parse_input (key_to_string k) = Ok (Single k).
Proof.
  eexists. split; [reflexivity|].
  apply (key_text_roundtrip (mk_event (EvCode (KChar "G")) true false true false)); [reflexivity|].
  apply (bool_decide_unpack _). vm_compute. exact I.
Defined.
