(* ===== verification/Keymaps.v ===== *)
(** * Keymaps of the search screen ([search/keybindings/keymap.rs], [defaults.rs])

    Bindings, their resolution, the default keymaps and the user's overrides. The keymaps are built by
    binding one key after the other; a key that does not parse panics, which is [None]. *)
From stdpp Require Import pretty.
From S2P Require Import Prelude Text Conditions Keys.

(** ** Keys of a map *)

Definition named_codes : list KeyCodeValue :=
  [Enter; Esc; Tab; Backspace; KDelete; KInsert; Up; Down; Left; Right; Home; End; PageUp; PageDown; Space]
  ++ (KMedia <$> [Play; Pause; PlayPause; Reverse; Stop; FastForward; Rewind; TrackNext; TrackPrevious; MRecord;
                  LowerVolume; RaiseVolume; MuteVolume]).

Definition code_index (c : KeyCodeValue) : nat := default 0%nat (fst <$> list_find (λ x, x = c) named_codes).

#[export] Instance KeyCodeValue_countable : Countable KeyCodeValue.
Proof.
  refine (inj_countable' (A := string + (Z + nat))
    (λ c, match c with KChar s => inl s | KF n => inr (inl n) | _ => inr (inr (code_index c)) end)
    (λ e, match e with
          | inl s => KChar s
          | inr (inl n) => KF n
          | inr (inr i) => default Enter (named_codes !! i)
          end) _).
  intros c. destruct c as [| | | | | | | | | | | | | | | | |m]; try reflexivity. destruct m; reflexivity.
Defined.

#[export] Instance SingleKey_countable : Countable SingleKey.
Proof.
  refine (inj_countable' (λ k, (k_code k, k_ctrl k, k_alt k, k_shift k, k_super k))
    (λ t, let '(c, a, b, d, e) := t in mk_key c a b d e) _). by intros [].
Defined.

#[export] Instance KeyInput_countable : Countable KeyInput.
Proof.
  refine (inj_countable' (A := SingleKey + list SingleKey)
    (λ i, match i with Single k => inl k | Sequence ks => inr ks end)
    (λ t, match t with inl k => Single k | inr ks => Sequence ks end) _). by intros [].
Defined.

(** ** Keymaps *)

Record KeyRule : Type := mk_krule { kr_condition : option ConditionExpr; kr_action : Action }.
Record KeyBinding : Type := mk_binding { kb_rules : list KeyRule }.

Definition always (a : Action) : KeyRule := mk_krule None a.
Definition when (c : ConditionExpr) (a : Action) : KeyRule := mk_krule (Some c) a.
Definition simple (a : Action) : KeyBinding := mk_binding [always a].

Definition holds (r : KeyRule) (c : EvalContext) : bool :=
  match kr_condition r with None => true | Some e => evaluate e c end.

(** [Keymap::resolve] *)
Definition resolve (km : gmap KeyInput KeyBinding) (k : KeyInput) (c : EvalContext) : option Action :=
  b ← km !! k; kr_action <$> List.find (λ r, holds r c) (kb_rules b).

(** [Keymap::has_sequence_starting_with] *)
Definition has_sequence_starting_with (km : gmap KeyInput KeyBinding) (prefix : SingleKey) : bool :=
  existsb (λ p, match p.1 with Sequence (k :: _) => bool_decide (k = prefix) | _ => false end) (map_to_list km).

(** [Keymap::merge] *)
Definition merge (km other : gmap KeyInput KeyBinding) : gmap KeyInput KeyBinding := other ∪ km.

(** ** Settings *)

Inductive KeymapMode : Type := MEmacs | MVimNormal | MVimInsert | MAuto.

Record Keys : Type := mk_keys {
  scroll_exits : bool; exit_past_line_start : bool; accept_past_line_end : bool;
  accept_past_line_start : bool; accept_with_backspace : bool; prefix : string
}.

(** [Keys::standard_defaults] *)
Definition standard_defaults : Keys := mk_keys true true true false false "a".

Record KeyRuleConfig : Type := mk_rule_config { rc_when : option string; rc_action : string }.
Inductive KeyBindingConfig : Type := CSimple (s : string) | CRules (rs : list KeyRuleConfig).

Record KeymapConfig : Type := mk_keymap_config {
  cf_emacs : list (string * KeyBindingConfig); cf_vim_normal : list (string * KeyBindingConfig);
  cf_vim_insert : list (string * KeyBindingConfig); cf_inspector : list (string * KeyBindingConfig);
  cf_prefix : list (string * KeyBindingConfig)
}.

(** [KeymapConfig::is_empty] *)
Definition config_is_empty (c : KeymapConfig) : bool :=
  match c with mk_keymap_config [] [] [] [] [] => true | _ => false end.

(** The settings that the keymaps depend on. *)
Record KeySettings : Type := mk_settings {
  enter_accept : bool; invert : bool; ctrl_n_shortcuts : bool; keymap_mode : KeymapMode;
  keys : Keys; keymap : KeymapConfig
}.

(** ** Default keymaps *)

(** [key(s)] with [bind] or [bind_conditional], still as text. *)
Definition Bind : Type := string * KeyBinding.

Definition bind (s : string) (a : Action) : Bind := (s, simple a).
Definition bind_conditional (s : string) (rules : list KeyRule) : Bind := (s, mk_binding rules).

Definition bind_scroll_key (s : string) (a : Action) (toward_index_zero scroll_exits : bool) : Bind :=
  if scroll_exits && toward_index_zero then bind_conditional s [when (Atom ListAtStart) Exit; always a]
  else bind s a.

Definition add_common_bindings : list Bind :=
  [bind "ctrl-c" ReturnOriginal; bind "ctrl-g" ReturnOriginal; bind "ctrl-o" ToggleTab; bind "tab" ReturnSelection].

Definition accept_action (st : KeySettings) : Action := if enter_accept st then Accept else ReturnSelection.

Definition prefix_char (st : KeySettings) : string := default "a"%string (head (str_chars (prefix (keys st)))).

Definition one_to_nine : list Z := [1; 2; 3; 4; 5; 6; 7; 8; 9].

Definition emacs_binds (st : KeySettings) : list Bind :=
  let ks := keys st in
  add_common_bindings
  ++ [bind "esc" Exit; bind "ctrl-[" Exit; bind ("ctrl-" +:+ prefix_char st) EnterPrefixMode;
      if accept_past_line_end ks
      then bind_conditional "right" [when (Atom CursorAtEnd) ReturnSelection; always CursorRight]
      else bind "right" CursorRight;
      if accept_past_line_start ks
      then bind_conditional "left" [when (Atom CursorAtStart) ReturnSelection; always CursorLeft]
      else if exit_past_line_start ks
           then bind_conditional "left" [when (Atom CursorAtStart) Exit; always CursorLeft]
           else bind "left" CursorLeft;
      bind_scroll_key "down" SelectNext (negb (invert st)) (scroll_exits ks);
      bind_scroll_key "up" SelectPrevious (invert st) (scroll_exits ks);
      if accept_with_backspace ks
      then bind_conditional "backspace" [when (Atom CursorAtStart) ReturnSelection; always DeleteCharBefore]
      else bind "backspace" DeleteCharBefore;
      bind "enter" (accept_action st); bind "ctrl-m" (accept_action st); bind "ctrl-y" Copy]
  ++ map (λ n, bind ((if ctrl_n_shortcuts st then "ctrl" else "alt") +:+ "-" +:+ pretty n) (ReturnSelectionNth n)) one_to_nine
  ++ [bind "ctrl-left" CursorWordLeft; bind "alt-b" CursorWordLeft; bind "ctrl-b" CursorLeft;
      bind "ctrl-right" CursorWordRight; bind "alt-f" CursorWordRight; bind "ctrl-f" CursorRight; bind "home" CursorStart]
  ++ (if decide (prefix_char st ≠ "a") then [bind "ctrl-a" CursorStart] else [])
  ++ [bind "ctrl-e" CursorEnd; bind "end" CursorEnd; bind "ctrl-backspace" DeleteWordBefore;
      bind "alt-backspace" DeleteWordBefore; bind "ctrl-h" DeleteCharBefore; bind "ctrl-?" DeleteCharBefore;
      bind "ctrl-delete" DeleteWordAfter; bind "alt-d" DeleteWordAfter; bind "delete" DeleteCharAfter;
      bind_conditional "ctrl-d" [when (Atom InputEmpty) ReturnOriginal; always DeleteCharAfter];
      bind "ctrl-w" DeleteToWordBoundary; bind "ctrl-u" ClearLine; bind "ctrl-r" CycleFilterMode;
      bind "ctrl-s" CycleSearchMode; bind "ctrl-n" SelectNext; bind "ctrl-j" SelectNext; bind "ctrl-p" SelectPrevious;
      bind "ctrl-k" SelectPrevious; bind "ctrl-l" Redraw; bind "pagedown" ScrollPageDown; bind "pageup" ScrollPageUp].

Definition vim_normal_binds (st : KeySettings) : list Bind :=
  let ks := keys st in
  add_common_bindings
  ++ [bind "esc" Exit; bind "ctrl-[" Exit; bind ("ctrl-" +:+ prefix_char st) EnterPrefixMode;
      bind_scroll_key "j" SelectNext (negb (invert st)) (scroll_exits ks);
      bind_scroll_key "k" SelectPrevious (invert st) (scroll_exits ks);
      bind "h" CursorLeft; bind "l" CursorRight; bind "0" CursorStart; bind "$" CursorEnd; bind "w" CursorWordRight;
      bind "b" CursorWordLeft; bind "e" CursorWordEnd; bind "x" DeleteCharAfter; bind "d d" ClearLine;
      bind "D" ClearToEnd; bind "C" VimChangeToEnd; bind "?" VimSearchInsert; bind "/" VimSearchInsert;
      bind "a" VimEnterInsertAfter; bind "A" VimEnterInsertAtEnd; bind "i" VimEnterInsert; bind "I" VimEnterInsertAtStart]
  ++ map (λ n, bind (pretty n) (ReturnSelectionNth n)) one_to_nine
  ++ [bind "ctrl-u" ScrollHalfPageUp; bind "ctrl-d" ScrollHalfPageDown; bind "ctrl-b" ScrollPageUp;
      bind "ctrl-f" ScrollPageDown; bind "G" ScrollToBottom; bind "g g" ScrollToTop; bind "H" ScrollToScreenTop;
      bind "M" ScrollToScreenMiddle; bind "L" ScrollToScreenBottom;
      bind_scroll_key "down" SelectNext (negb (invert st)) (scroll_exits ks);
      bind_scroll_key "up" SelectPrevious (invert st) (scroll_exits ks);
      bind "pagedown" ScrollPageDown; bind "pageup" ScrollPageUp; bind "enter" (accept_action st)].

Definition vim_insert_binds (st : KeySettings) : list Bind :=
  emacs_binds st ++ [bind "esc" VimEnterNormal; bind "ctrl-[" VimEnterNormal].

Definition inspector_binds (st : KeySettings) : list Bind :=
  [bind "ctrl-c" ReturnOriginal; bind "ctrl-g" ReturnOriginal; bind "esc" Exit; bind "ctrl-[" Exit;
   bind "tab" ReturnSelection; bind "ctrl-o" ToggleTab; bind ("ctrl-" +:+ prefix_char st) EnterPrefixMode;
   bind "enter" (accept_action st); bind "ctrl-d" ADelete; bind "up" InspectPrevious; bind "down" InspectNext;
   bind "pageup" InspectPrevious; bind "pagedown" InspectNext]
  ++ match keymap_mode st with
     | MVimNormal | MVimInsert => [bind "j" InspectNext; bind "k" InspectPrevious]
     | _ => []
     end.

Definition prefix_binds : list Bind :=
  [bind "d" ADelete; bind "D" DeleteAll; bind "a" CursorStart;
   bind_conditional "c" [when (Atom HasContext) ClearContext; always SwitchContext]].

Record KeymapSet : Type := mk_set {
  emacs : gmap KeyInput KeyBinding; vim_normal : gmap KeyInput KeyBinding; vim_insert : gmap KeyInput KeyBinding;
  inspector : gmap KeyInput KeyBinding; prefix_map : gmap KeyInput KeyBinding
}.

Section build.
Context `{UnicodeLib}.

(** [key]: [None] is the panic. *)
Definition key (s : string) : option KeyInput := match parse_input s with Ok k => Some k | Err _ => None end.

Fixpoint run_binds (km : gmap KeyInput KeyBinding) (bs : list Bind) : option (gmap KeyInput KeyBinding) :=
  match bs with
  | [] => Some km
  | (s, b) :: bs' => k ← key s; run_binds (<[k := b]> km) bs'
  end.

Definition default_emacs_keymap (st : KeySettings) := run_binds ∅ (emacs_binds st).
Definition default_vim_normal_keymap (st : KeySettings) := run_binds ∅ (vim_normal_binds st).
Definition default_vim_insert_keymap (st : KeySettings) := run_binds ∅ (vim_insert_binds st).
Definition default_inspector_keymap (st : KeySettings) := run_binds ∅ (inspector_binds st).
Definition default_prefix_keymap := run_binds ∅ prefix_binds.

(** [KeymapSet::defaults] *)
Definition defaults (st : KeySettings) : option KeymapSet :=
  e ← default_emacs_keymap st; n ← default_vim_normal_keymap st; i ← default_vim_insert_keymap st;
  s ← default_inspector_keymap st; p ← default_prefix_keymap; Some (mk_set e n i s p).

(** ** The user's overrides *)

Inductive BindingError : Type := BadAction (e : string) | BadCondition (e : CondError).

(** One round of the loop of [parse_binding_config]. *)
Definition parse_rule_config (r : KeyRuleConfig) : result KeyRule BindingError :=
  let? action := map_err BadAction (action_from_str (rc_action r)) in
  match rc_when r with
  | None => Ok (always action)
  | Some s => let? cond := map_err BadCondition (parse s) in Ok (when cond action)
  end.

Definition parse_binding_config (c : KeyBindingConfig) : result KeyBinding BindingError :=
  match c with
  | CSimple s => let? action := map_err BadAction (action_from_str s) in Ok (simple action)
  | CRules rs => let? rules := try_map parse_rule_config rs in Ok (mk_binding rules)
  end.

(** [apply_config_to_keymap]; what does not parse is logged and skipped. *)
Definition apply_override (km : gmap KeyInput KeyBinding) (o : string * KeyBindingConfig) : gmap KeyInput KeyBinding :=
  match key o.1, parse_binding_config o.2 with
  | Some k, Ok b => <[k := b]> km
  | _, _ => km
  end.
Definition apply_config_to_keymap (km : gmap KeyInput KeyBinding) (os : list (string * KeyBindingConfig)) :=
  foldl apply_override km os.

Definition apply_config (set : KeymapSet) (c : KeymapConfig) : KeymapSet :=
  mk_set (apply_config_to_keymap (emacs set) (cf_emacs c)) (apply_config_to_keymap (vim_normal set) (cf_vim_normal c))
    (apply_config_to_keymap (vim_insert set) (cf_vim_insert c)) (apply_config_to_keymap (inspector set) (cf_inspector c))
    (apply_config_to_keymap (prefix_map set) (cf_prefix c)).

Definition with_keys (st : KeySettings) (ks : Keys) : KeySettings :=
  mk_settings (enter_accept st) (invert st) (ctrl_n_shortcuts st) (keymap_mode st) ks (keymap st).

(** [KeymapSet::from_settings] *)
Definition from_settings (st : KeySettings) : option KeymapSet :=
  if config_is_empty (keymap st) then defaults st
  else (λ set, apply_config set (keymap st)) <$> defaults (with_keys st standard_defaults).
End build.

(** ** Lemmas on building *)

(** A [Forall] over a list of bindings that is written out. *)
Ltac static_keys :=
  repeat match goal with
    | |- Forall _ (_ ++ _) => apply Forall_app; split
    | |- Forall _ (map _ one_to_nine) => cbn [map one_to_nine]
    | |- Forall _ (_ :: _) => apply Forall_cons; split
    | |- Forall _ [] => constructor
    | |- Forall _ (if ?b then _ else _) => destruct b
    | |- Forall _ (match ?b with _ => _ end) => destruct b
    end.

Section lemmas.
Context `{UnicodeLib}.

Lemma run_binds_total bs km : is_Some (run_binds km bs) ↔ Forall (λ b, is_Some (key b.1)) bs.
Proof.
  revert km. induction bs as [|[s b] bs IH]; intros km; cbn; [by split; [constructor|eauto]|].
  rewrite Forall_cons. cbn. destruct (key s) as [k|]; cbn; [rewrite IH; naive_solver|]. split; [by intros []|by intros [[] _]].
Qed.

Lemma run_binds_untouched bs km km' k :
  run_binds km bs = Some km' → Forall (λ b, key b.1 ≠ Some k) bs → km' !! k = km !! k.
Proof.
  revert km. induction bs as [|[s b] bs IH]; intros km; cbn; [by intros [= ->]|].
  intros E [Hs Hbs]%Forall_cons. cbn in Hs. destruct (key s) as [k'|]; [|done]. cbn in E. rewrite (IH _ E Hbs).
  apply lookup_insert_ne. congruence.
Qed.

Lemma run_binds_app bs1 bs2 km : run_binds km (bs1 ++ bs2) = run_binds km bs1 ≫= λ km, run_binds km bs2.
Proof.
  revert km. induction bs1 as [|[s b] bs IH]; intros km; cbn; [done|]. destruct (key s); cbn; [apply IH|done].
Qed.

(** A binding that no later one replaces. *)
Lemma run_binds_bound bs1 bs2 s b k km km' :
  run_binds km (bs1 ++ (s, b) :: bs2) = Some km' → key s = Some k → Forall (λ b, key b.1 ≠ Some k) bs2 → km' !! k = Some b.
Proof.
  rewrite run_binds_app. destruct (run_binds km bs1) as [km1|]; cbn [mbind option_bind run_binds]; [|done].
  intros E Hs Hbs. rewrite Hs in E. cbn [mbind option_bind] in E. rewrite (run_binds_untouched _ _ _ _ E Hbs). apply lookup_insert_eq.
Qed.

(** ** The actions that a keymap offers *)

Definition binding_offers (P : Action → Prop) (b : KeyBinding) : Prop := Forall (λ r, P (kr_action r)) (kb_rules b).
Definition offers (P : Action → Prop) (km : gmap KeyInput KeyBinding) : Prop := map_Forall (λ _, binding_offers P) km.

Lemma resolve_offers P km k c a : offers P km → resolve km k c = Some a → P a.
Proof.
  intros Hp. unfold resolve. destruct (km !! k) as [b|] eqn:E; cbn; [|done].
  destruct (List.find _ (kb_rules b)) as [r|] eqn:F; cbn; [|done]. intros [= <-].
  apply List.find_some in F as [Hr _]. specialize (Hp k b E). unfold binding_offers in Hp. rewrite Forall_forall in Hp.
  apply Hp, list_elem_of_In, Hr.
Qed.

Lemma run_binds_offers P bs km km' :
  run_binds km bs = Some km' → offers P km → Forall (λ b, binding_offers P b.2) bs → offers P km'.
Proof.
  revert km. induction bs as [|[s b] bs IH]; intros km; cbn; [by intros [= ->]|].
  intros E Hkm [Hb Hbs]%Forall_cons. destruct (key s) as [k|]; cbn in E; [|done].
  apply (IH _ E); [|done]. by apply map_Forall_insert_2.
Qed.

Lemma offers_binds P bs km : run_binds ∅ bs = Some km → Forall (λ b, binding_offers P b.2) bs → offers P km.
Proof. intros E. apply (run_binds_offers P bs ∅ km E), map_Forall_empty. Qed.

(** The last override that is valid for a key. *)
Definition override_for (k : KeyInput) (o : string * KeyBindingConfig) : option KeyBinding :=
  match key o.1, parse_binding_config o.2 with
  | Some k', Ok b => if decide (k' = k) then Some b else None
  | _, _ => None
  end.
Definition last_override (k : KeyInput) (os : list (string * KeyBindingConfig)) : option KeyBinding :=
  last (omap (override_for k) os).

Lemma apply_config_lookup km os k :
  apply_config_to_keymap km os !! k = match last_override k os with Some b => Some b | None => km !! k end.
Proof.
  unfold last_override, apply_config_to_keymap. induction os as [|o os IH] using rev_ind; [done|].
  rewrite foldl_snoc, omap_app, last_app. cbn [omap list_omap]. unfold apply_override at 1, override_for at 1.
  destruct (key o.1) as [k'|]; cbn; [|exact IH]. destruct (parse_binding_config o.2) as [b|]; cbn; [|exact IH].
  case_decide; subst; cbn; [by rewrite lookup_insert_eq|]. rewrite lookup_insert_ne by done. exact IH.
Qed.

(** Every key of the defaults parses, the prefix key apart. *)
Ltac parses :=
  match goal with
  | H : is_Some (key (_ +:+ prefix_char ?st)) |- context [prefix_char ?st] => exact H
  | _ =>
      unfold bind_scroll_key;
      repeat match goal with |- context [if ?b then _ else _] => destruct b end;
      apply (bool_decide_unpack _); vm_compute; exact I
  end.

Lemma emacs_keys st : is_Some (key ("ctrl-" +:+ prefix_char st)) → Forall (λ b, is_Some (key b.1)) (emacs_binds st).
Proof.
  intros Hp. unfold emacs_binds, add_common_bindings. cbv zeta. set (n := ctrl_n_shortcuts st). clearbody n.
  static_keys; parses.
Qed.

Lemma vim_normal_keys st : is_Some (key ("ctrl-" +:+ prefix_char st)) → Forall (λ b, is_Some (key b.1)) (vim_normal_binds st).
Proof. intros Hp. unfold vim_normal_binds, add_common_bindings. cbv zeta. static_keys; parses. Qed.

Lemma inspector_keys st : is_Some (key ("ctrl-" +:+ prefix_char st)) → Forall (λ b, is_Some (key b.1)) (inspector_binds st).
Proof. intros Hp. unfold inspector_binds. static_keys; parses. Qed.

Lemma vim_insert_keys st : is_Some (key ("ctrl-" +:+ prefix_char st)) → Forall (λ b, is_Some (key b.1)) (vim_insert_binds st).
Proof. intros Hp. unfold vim_insert_binds. apply Forall_app. split; [by apply emacs_keys|]. static_keys; parses. Qed.

Lemma prefix_keys : is_Some default_prefix_keymap.
Proof. apply (run_binds_total prefix_binds ∅). unfold prefix_binds. static_keys; parses. Qed.

Lemma defaults_total st : is_Some (defaults st) ↔ is_Some (key ("ctrl-" +:+ prefix_char st)).
Proof.
  split.
  - unfold defaults. destruct (default_inspector_keymap st) as [m|] eqn:E; unfold default_inspector_keymap in E.
    + intros _. pose proof (proj1 (run_binds_total (inspector_binds st) ∅)) as Ht. rewrite E in Ht.
      specialize (Ht ltac:(by eexists)).
      exact (Forall_lookup_1 _ _ 6%nat (bind ("ctrl-" +:+ prefix_char st) EnterPrefixMode) Ht eq_refl).
    + intros [set Hs]. destruct (default_emacs_keymap st); [|done]. destruct (default_vim_normal_keymap st); [|done].
      by destruct (default_vim_insert_keymap st).
  - intros Hp. unfold defaults.
    destruct (proj2 (run_binds_total (emacs_binds st) ∅) (emacs_keys st Hp)) as [e He].
    destruct (proj2 (run_binds_total (vim_normal_binds st) ∅) (vim_normal_keys st Hp)) as [n Hn].
    destruct (proj2 (run_binds_total (vim_insert_binds st) ∅) (vim_insert_keys st Hp)) as [i Hi].
    destruct (proj2 (run_binds_total (inspector_binds st) ∅) (inspector_keys st Hp)) as [s Hs].
    destruct prefix_keys as [p Hpk].
    unfold default_emacs_keymap, default_vim_normal_keymap, default_vim_insert_keymap, default_inspector_keymap.
    rewrite He, Hn, Hi, Hs, Hpk. by eexists.
Qed.

(** The keys of the binds that are not the given one. *)
Ltac other_keys :=
  static_keys;
  match goal with
  | Hn : key (_ +:+ prefix_char ?st) ≠ _ |- context [prefix_char ?st] => exact Hn
  | _ =>
      unfold bind_scroll_key;
      repeat match goal with |- context [if ?b then _ else _] => destruct b end;
      apply (bool_decide_unpack _); vm_compute; exact I
  end.

Definition ctrl_c : KeyInput := Single (mk_key (KChar "c") true false false false).

Lemma ctrl_c_first bs km' :
  run_binds ∅ bs = Some km' → head bs = Some (bind "ctrl-c" ReturnOriginal) →
  Forall (λ b, key b.1 ≠ Some ctrl_c) (tail bs) → km' !! ctrl_c = Some (simple ReturnOriginal).
Proof.
  destruct bs as [|b bs]; [done|]. intros E Hb Hbs. cbn [head tail] in *. injection Hb as ->.
  apply (run_binds_bound [] bs "ctrl-c" (simple ReturnOriginal) ctrl_c ∅ km' E); [vm_compute; reflexivity|exact Hbs].
Qed.

Lemma emacs_others st :
  key ("ctrl-" +:+ prefix_char st) ≠ Some ctrl_c → Forall (λ b, key b.1 ≠ Some ctrl_c) (tail (emacs_binds st)).
Proof.
  intros Hn. unfold emacs_binds, add_common_bindings. cbn [app tail]. cbv zeta.
  set (m := ctrl_n_shortcuts st). clearbody m. other_keys.
Qed.

Definition enter : KeyInput := Single (mk_key Enter false false false false).

(** Enter is bound to the accepting action in the three editing modes. *)
Lemma enter_bound st set :
  defaults st = Some set →
  Forall (λ km, km !! enter = Some (simple (accept_action st))) [emacs set; vim_normal set; vim_insert set].
Proof.
  intros Hd. unfold defaults, default_emacs_keymap, default_vim_normal_keymap, default_vim_insert_keymap in Hd.
  destruct (run_binds ∅ (emacs_binds st)) as [e|] eqn:He; [|discriminate Hd].
  destruct (run_binds ∅ (vim_normal_binds st)) as [n|] eqn:Hv; [|discriminate Hd].
  destruct (run_binds ∅ (vim_insert_binds st)) as [i|] eqn:Hi; [|discriminate Hd].
  destruct (default_inspector_keymap st) as [s|]; [|discriminate Hd]. destruct prefix_keys as [p Hp]. rewrite Hp in Hd. injection Hd as <-.
  assert (key "enter" = Some enter) as Hk by (vm_compute; reflexivity).
  assert (∃ bs1 bs2, emacs_binds st = bs1 ++ ("enter"%string, simple (accept_action st)) :: bs2 ∧ Forall (λ b, key b.1 ≠ Some enter) bs2)
    as (bs1 & bs2 & Eb & Hbs).
  { eexists (add_common_bindings ++ take 8 (drop 4 (emacs_binds st))), _. split; [reflexivity|].
    set (m := ctrl_n_shortcuts st). clearbody m. other_keys. }
  repeat constructor; cbn [emacs vim_normal vim_insert].
  - rewrite Eb in He. by apply (run_binds_bound _ _ _ _ _ _ _ He Hk).
  - apply (run_binds_bound (removelast (vim_normal_binds st)) [] "enter" _ _ ∅ _ Hv Hk). constructor.
  - unfold vim_insert_binds in Hi. rewrite Eb, <- app_assoc in Hi. apply (run_binds_bound _ _ _ _ _ _ _ Hi Hk).
    apply Forall_app. split; [exact Hbs|]. other_keys.
Qed.

(** ** Correctness *)

(** The keymaps are built without a panic exactly when the user has overrides or the prefix character
    can follow [ctrl-] in a key; a valid override replaces the whole binding of its key (the last one in
    the order of iteration, where several name it), every other key keeps the standard default, and the
    [keys] section then has no influence. *)
Theorem keymaps_from_settings st :
  (is_Some (from_settings st) ↔ config_is_empty (keymap st) = false ∨ is_Some (key ("ctrl-" +:+ prefix_char st))) ∧
  (config_is_empty (keymap st) = true → from_settings st = defaults st) ∧
  (config_is_empty (keymap st) = false → ∃ base set,
     defaults (with_keys st standard_defaults) = Some base ∧ from_settings st = Some set ∧
     Forall (λ '(over, final, os), ∀ k, final !! k = match last_override k os with Some b => Some b | None => over !! k end)
       [(emacs base, emacs set, cf_emacs (keymap st)); (vim_normal base, vim_normal set, cf_vim_normal (keymap st));
        (vim_insert base, vim_insert set, cf_vim_insert (keymap st)); (inspector base, inspector set, cf_inspector (keymap st));
        (prefix_map base, prefix_map set, cf_prefix (keymap st))]).
Proof.
  assert (is_Some (defaults (with_keys st standard_defaults))) as [base Hbase].
  { apply defaults_total. apply (bool_decide_unpack _). by vm_compute. }
  unfold from_settings. rewrite Hbase. cbn [fmap option_fmap option_map].
  destruct (config_is_empty (keymap st)); (split; [|split]).
  - rewrite defaults_total. split; [by right|by intros [Hf|Hp]; [discriminate Hf|]].
  - reflexivity.
  - intros Hf. discriminate Hf.
  - split; intros _; [by left|eexists; reflexivity].
  - intros Hf. discriminate Hf.
  - intros _. eexists base, _. split; [reflexivity|]. split; [reflexivity|]. repeat constructor; intros k; apply apply_config_lookup.
Qed.

(** Whatever the settings, in the default keymaps of the three editing modes and of the inspector
    ctrl-c leaves with the original input, unless the prefix key is ctrl-c itself. *)
Theorem ctrl_c_returns_original st set c :
  defaults st = Some set → key ("ctrl-" +:+ prefix_char st) ≠ Some ctrl_c →
  Forall (λ km, resolve km ctrl_c c = Some ReturnOriginal) [emacs set; vim_normal set; vim_insert set; inspector set].
Proof.
  intros Hd Hn. unfold defaults, default_emacs_keymap, default_vim_normal_keymap, default_vim_insert_keymap, default_inspector_keymap in Hd.
  destruct (run_binds ∅ (emacs_binds st)) as [e|] eqn:He; [|discriminate Hd].
  destruct (run_binds ∅ (vim_normal_binds st)) as [n|] eqn:Hv; [|discriminate Hd].
  destruct (run_binds ∅ (vim_insert_binds st)) as [i|] eqn:Hi; [|discriminate Hd].
  destruct (run_binds ∅ (inspector_binds st)) as [s|] eqn:Hs; [|discriminate Hd].
  destruct prefix_keys as [p Hp]. rewrite Hp in Hd. injection Hd as <-.
  assert (∀ km, km !! ctrl_c = Some (simple ReturnOriginal) → resolve km ctrl_c c = Some ReturnOriginal) as Hr.
  { intros km Hk. unfold resolve. by rewrite Hk. }
  repeat constructor; apply Hr; cbn [emacs vim_normal vim_insert inspector].
  - apply (ctrl_c_first (emacs_binds st)); [exact He|reflexivity|by apply emacs_others].
  - apply (ctrl_c_first (vim_normal_binds st)); [exact Hv|reflexivity|].
    unfold vim_normal_binds, add_common_bindings. cbn [app tail]. cbv zeta. other_keys.
  - apply (ctrl_c_first (vim_insert_binds st)); [exact Hi|reflexivity|].
    change (tail (vim_insert_binds st)) with (tail (emacs_binds st) ++ [bind "esc" VimEnterNormal; bind "ctrl-[" VimEnterNormal]).
    apply Forall_app. split; [by apply emacs_others|]. other_keys.
  - apply (ctrl_c_first (inspector_binds st)); [exact Hs|reflexivity|]. unfold inspector_binds. cbn [app tail]. other_keys.
Qed.
End lemmas.


(** ** Concrete instances and what they show *)

Definition no_config : KeymapConfig := mk_keymap_config [] [] [] [] [].
Definition plain_settings (p : string) : KeySettings :=
  mk_settings false false false MAuto (mk_keys true true true false false p) no_config.

Lemma ctrl_c_returns_original_witness :
  ∃ set, defaults (plain_settings "x") = Some set ∧
    Forall (λ km, resolve km ctrl_c (mk_eval 0 0 0 0 0 true false) = Some ReturnOriginal)
      [emacs set; vim_normal set; vim_insert set; inspector set].
Proof.
  destruct (proj2 (defaults_total (plain_settings "x"))) as [set Hs]; [apply (bool_decide_unpack _); vm_compute; exact I|].
  exists set. split; [exact Hs|]. apply (ctrl_c_returns_original _ _ _ Hs). apply (bool_decide_unpack _). vm_compute. exact I.
Defined.

(** A prefix that is a dash, with which no key can be written, makes the keymaps panic. *)
Lemma dash_prefix_panics : from_settings (plain_settings "-") = None.
Proof. vm_compute. reflexivity. Qed.

(** A letter with shift parses, but no key press gives it. *)
Lemma shifted_letter_unreachable :
  ∃ k, parse_input "shift-a" = Ok (Single k) ∧ ∀ e, from_event e ≠ Some k.
Proof.
  exists (mk_key (KChar "a") false false true false). split; [vm_compute; reflexivity|].
  intros [[code| |] ct al sh su]; [destruct code|..]; cbn; try done. case_decide; [done|]. by destruct (_ && _).
Qed.
