(* ===== verification/Cursor.v ===== *)
(** * The input line of the search screen ([search/cursor.rs])

    A [String] is the list of its characters, a character its UTF-8 bytes, of which it has at least
    one. The cursor is a byte index, as in the source; slicing, inserting or removing at an index that is
    not a character boundary panics, which is [None]. *)
From S2P Require Import Prelude Text.

(** ** Characters and byte positions *)

Definition char : Type := Ascii.ascii * list Ascii.ascii.
Definition len_utf8 (c : char) : nat := S (length c.2).
Definition bytes (c : char) : list Ascii.ascii := c.1 :: c.2.
Definition is_whitespace (c : char) : bool := bool_decide (bytes c ∈ white_space).

Definition byte_len (s : list char) : nat := sum_list_with len_utf8 s.

Fixpoint char_indices (i : nat) (s : list char) : list (nat * char) :=
  match s with [] => [] | c :: s' => (i, c) :: char_indices (i + len_utf8 c) s' end.

(** [s[..i]] and [s[i..]]. *)
Fixpoint split_at (s : list char) (i : nat) : option (list char * list char) :=
  match i, s with
  | O, _ => Some ([], s)
  | _, [] => None
  | _, c :: s' => if decide (i < len_utf8 c)%nat then None
                  else '(a, b) ← split_at s' (i - len_utf8 c); Some (c :: a, b)
  end.

Definition is_char_boundary (s : list char) (i : nat) : bool := bool_decide (is_Some (split_at s i)).

(** [replace_range(start..end, "")] *)
Definition remove_range (s : list char) (start end_ : nat) : option (list char) :=
  if decide (end_ < start)%nat then None
  else '(a, _) ← split_at s start; '(_, b) ← split_at s end_; Some (a ++ b).

(** [chars_within]: the characters whose positions are in the range. *)
Definition chars_within (s : list char) (start end_ : nat) : list (nat * char) :=
  filter (λ p, (start ≤ p.1 ∧ p.1 < end_)%nat) (char_indices 0 s).

(** ** Words *)

Inductive WordJumpMode : Type := Emacs | Subl.

Section words.
Context (word_chars : list char).

Definition in_word (c : char) : bool := bool_decide (c ∈ word_chars).

Definition is_word_boundary (c next_c : char) : bool :=
  (is_whitespace c && negb (is_whitespace next_c)) || (negb (is_whitespace c) && is_whitespace next_c)
  || (in_word c && negb (in_word next_c)) || (negb (in_word c) && in_word next_c).

(** [find_map(|(i, c)| p(c).then_some(f(i, c)))] *)
Definition find_pos (p : char → bool) (f : nat → char → nat) (l : list (nat * char)) : option nat :=
  (λ x, f x.1 x.2) <$> List.find (λ x, p x.2) l.

Definition emacs_get_next_word_pos (s : list char) (index : nat) : nat :=
  let end_ := (byte_len s - 1)%nat in
  let index := default (byte_len s) (find_pos in_word (λ i _, i) (chars_within s (index + 1) end_)) in
  default (byte_len s) (find_pos (λ c, negb (in_word c)) (λ i _, i) (chars_within s (index + 1) end_)).

Definition emacs_get_prev_word_pos (s : list char) (index : nat) : nat :=
  let index := default 0%nat (find_pos in_word (λ i _, i) (reverse (chars_within s 1 index))) in
  default 0%nat (find_pos (λ c, negb (in_word c)) (λ i c, i + len_utf8 c)%nat (reverse (chars_within s 1 index))).

(** [tuple_windows().find_map(...)]: the position of the first of two neighbours. *)
Fixpoint find_window (p : char → char → bool) (l : list (nat * char)) : option nat :=
  match l with
  | (i, c) :: ((_, d) :: _) as l' => if p c d then Some i else find_window p l'
  | _ => None
  end.

Definition subl_get_next_word_pos (s : list char) (index : nat) : nat :=
  match find_window is_word_boundary (chars_within s index (byte_len s)) with
  | None => byte_len s
  | Some index => default (byte_len s) (find_pos (λ c, negb (is_whitespace c)) (λ i _, i) (chars_within s (index + 1) (byte_len s)))
  end.

Definition subl_get_prev_word_pos (s : list char) (index : nat) : nat :=
  match find_pos (λ c, negb (is_whitespace c)) (λ i _, i) (reverse (chars_within s 1 index)) with
  | None => 0
  | Some index => default 0%nat (find_window (λ c1 c2, is_word_boundary c2 c1) (reverse (chars_within s 0 index)))
  end.

Definition get_next_word_pos (m : WordJumpMode) : list char → nat → nat :=
  match m with Emacs => emacs_get_next_word_pos | Subl => subl_get_next_word_pos end.

Definition get_prev_word_pos (m : WordJumpMode) : list char → nat → nat :=
  match m with Emacs => emacs_get_prev_word_pos | Subl => subl_get_prev_word_pos end.

(** ** The cursor *)

Record Cursor : Type := mk_cursor { source : list char; index : nat }.

Definition cursor_from (s : list char) : Cursor := mk_cursor s 0.

Definition at_index (c : Cursor) (i : nat) : Cursor := mk_cursor (source c) i.

(** [substring] *)
Definition substring (c : Cursor) : option (list char) := fst <$> split_at (source c) (index c).

(** [char] *)
Definition current_char (c : Cursor) : option (option char) := (λ p, head p.2) <$> split_at (source c) (index c).

(** The loops of [right] and [left]: on to the next boundary; the length of the text bounds them. *)
Fixpoint forward (fuel : nat) (s : list char) (i : nat) : nat :=
  match fuel with
  | O => i
  | S f => if is_char_boundary s (S i) then S i else forward f s (S i)
  end.

Fixpoint backward (s : list char) (i : nat) : nat :=
  match i with
  | O => O
  | S i' => if is_char_boundary s i' then i' else backward s i'
  end.

Definition right (c : Cursor) : Cursor :=
  if decide (index c < byte_len (source c))%nat then at_index c (forward (byte_len (source c)) (source c) (index c)) else c.

Definition left (c : Cursor) : bool * Cursor :=
  if decide (0 < index c)%nat then (true, at_index c (backward (source c) (index c))) else (false, c).

Definition next_word (m : WordJumpMode) (c : Cursor) : Cursor := at_index c (get_next_word_pos m (source c) (index c)).
Definition prev_word (m : WordJumpMode) (c : Cursor) : Cursor := at_index c (get_prev_word_pos m (source c) (index c)).

(** The loops of [word_end], on the characters from [char_idx] on: how many white space characters come
    first, and how far the word goes. *)
Fixpoint count_whitespace (s : list char) : nat :=
  match s with c :: s' => if is_whitespace c then S (count_whitespace s') else O | [] => O end.

Fixpoint count_word (in_word_chars : bool) (s : list char) : nat :=
  match s with
  | [] => O
  | [_] => 1
  | _ :: (next_c :: _) as s' =>
      if is_whitespace next_c || negb (Bool.eqb (in_word next_c) in_word_chars) then 1 else S (count_word in_word_chars s')
  end.

Definition word_end (c : Cursor) : option Cursor :=
  if decide (byte_len (source c) ≤ index c)%nat then Some c
  else
    '(before, after) ← split_at (source c) (index c);
    match after with
    | [] => Some c
    | current :: rest =>
        let at_word_boundary :=
          is_whitespace current ||
          match rest with
          | [] => true
          | next :: _ => is_whitespace next || negb (Bool.eqb (in_word current) (in_word next))
          end in
        let char_idx := length before in
        let char_idx := if at_word_boundary then (char_idx + 1 + count_whitespace rest)%nat else char_idx in
        match drop char_idx (source c) with
        | [] => Some (at_index c (byte_len (source c)))
        | d :: rest => Some (at_index c (byte_len (take (char_idx + count_word (in_word d) (d :: rest)) (source c))))
        end
    end.

Definition insert (ch : char) (c : Cursor) : option Cursor :=
  '(a, b) ← split_at (source c) (index c); Some (mk_cursor (a ++ ch :: b) (index c + len_utf8 ch)).

Definition remove (c : Cursor) : option (option char * Cursor) :=
  if decide (index c < byte_len (source c))%nat then
    '(a, b) ← split_at (source c) (index c);
    match b with ch :: b' => Some (Some ch, mk_cursor (a ++ b') (index c)) | [] => None end
  else Some (None, c).

Definition remove_next_word (m : WordJumpMode) (c : Cursor) : option Cursor :=
  let next_index := get_next_word_pos m (source c) (index c) in
  (λ s, mk_cursor s (index c)) <$> remove_range (source c) (index c) next_index.

Definition remove_prev_word (m : WordJumpMode) (c : Cursor) : option Cursor :=
  let next_index := get_prev_word_pos m (source c) (index c) in
  (λ s, mk_cursor s next_index) <$> remove_range (source c) next_index (index c).

Definition back (c : Cursor) : option (option char * Cursor) :=
  let '(moved, c') := left c in if moved : bool then remove c' else Some (None, c').

Definition clear (c : Cursor) : Cursor := mk_cursor [] 0.

Definition clear_to_start (c : Cursor) : option Cursor :=
  (λ s, mk_cursor s 0) <$> remove_range (source c) 0 (index c).

Definition clear_to_end (c : Cursor) : option Cursor :=
  (λ s, mk_cursor s (byte_len s)) <$> remove_range (source c) (index c) (byte_len (source c)).

Definition cursor_end (c : Cursor) : Cursor := at_index c (byte_len (source c)).
Definition cursor_start (c : Cursor) : Cursor := at_index c 0.

(** ** Any editing operation *)

Inductive CursorOp : Type :=
| ORight | OLeft | ONextWord (m : WordJumpMode) | OPrevWord (m : WordJumpMode) | OWordEnd | OInsert (c : char)
| ORemove | ORemoveNextWord (m : WordJumpMode) | ORemovePrevWord (m : WordJumpMode) | OBack | OClear
| OClearToStart | OClearToEnd | OEnd | OStart.

Definition apply (op : CursorOp) (c : Cursor) : option Cursor :=
  match op with
  | ORight => Some (right c)
  | OLeft => Some (left c).2
  | ONextWord m => Some (next_word m c)
  | OPrevWord m => Some (prev_word m c)
  | OWordEnd => word_end c
  | OInsert ch => insert ch c
  | ORemove => snd <$> remove c
  | ORemoveNextWord m => remove_next_word m c
  | ORemovePrevWord m => remove_prev_word m c
  | OBack => snd <$> back c
  | OClear => Some (clear c)
  | OClearToStart => clear_to_start c
  | OClearToEnd => clear_to_end c
  | OEnd => Some (cursor_end c)
  | OStart => Some (cursor_start c)
  end.
End words.

(** ** Lemmas on positions *)

Lemma byte_len_app s t : byte_len (s ++ t) = (byte_len s + byte_len t)%nat.
Proof. apply sum_list_with_app. Qed.

Lemma byte_len_cons c s : byte_len (c :: s) = (len_utf8 c + byte_len s)%nat.
Proof. done. Qed.

Lemma len_utf8_pos c : (0 < len_utf8 c)%nat.
Proof. unfold len_utf8. lia. Qed.

#[local] Arguments byte_len : simpl never.

(** Arithmetic on positions. *)
Ltac blen :=
  rewrite ?byte_len_app, ?byte_len_cons; change (byte_len []) with O;
  repeat match goal with c : char |- _ => lazymatch goal with
    | H : (0 < len_utf8 c)%nat |- _ => fail
    | _ => pose proof (len_utf8_pos c) end end; lia.

Lemma byte_len_nil s : byte_len s = O → s = [].
Proof. destruct s; [done|]. unfold byte_len, len_utf8; cbn. lia. Qed.

Lemma split_at_spec s i a b : split_at s i = Some (a, b) ↔ s = a ++ b ∧ i = byte_len a.
Proof.
  revert i a b. induction s as [|c s IH]; intros [|i] a b; cbn [split_at].
  - split; [by intros [= <- <-]|]. intros [E Ei]. destruct a; [|done]. by rewrite E.
  - split; [done|]. intros [E Ei]. by destruct a.
  - split; [by intros [= <- <-]|]. intros [E Ei]. symmetry in Ei. apply byte_len_nil in Ei as ->. by rewrite E.
  - case_decide as Hd.
    + split; [done|]. intros [E Ei]. destruct a as [|c' a]; [done|]. injection E as <- E.
      change (byte_len (c :: a)) with (len_utf8 c + byte_len a)%nat in Ei. lia.
    + destruct (split_at s (S i - len_utf8 c)) as [[x y]|] eqn:Es; cbn.
      * apply IH in Es as [-> Hx]. split.
        -- intros [= <- <-]. split; [done|]. change (byte_len (c :: x)) with (len_utf8 c + byte_len x)%nat. lia.
        -- intros [E Ei]. destruct a as [|c' a]; [done|]. injection E as <- E.
           change (byte_len (c :: a)) with (len_utf8 c + byte_len a)%nat in Ei.
           assert (split_at (x ++ y) (byte_len a) = Some (a, b)) as Ha by (by apply IH).
           assert (split_at (x ++ y) (byte_len a) = Some (x, y)) as Hb by (apply IH; split; [done|lia]). congruence.
      * split; [done|]. intros [E Ei]. destruct a as [|c' a]; [done|]. injection E as <- E.
        change (byte_len (c :: a)) with (len_utf8 c + byte_len a)%nat in Ei.
        assert (split_at s (byte_len a) = Some (a, b)) as Ha by (by apply IH).
        replace (S i - len_utf8 c)%nat with (byte_len a) in Es by lia. congruence.
Qed.

Lemma split_at_app a b : split_at (a ++ b) (byte_len a) = Some (a, b).
Proof. by apply split_at_spec. Qed.

(** A position at a character boundary. *)
Definition boundary (s : list char) (p : nat) : Prop := ∃ a b, s = a ++ b ∧ p = byte_len a.

Lemma boundary_start s : boundary s 0.
Proof. by exists [], s. Qed.

Lemma boundary_end s : boundary s (byte_len s).
Proof. exists s, []. by rewrite app_nil_r. Qed.

Lemma is_char_boundary_spec s p : is_char_boundary s p = true ↔ boundary s p.
Proof.
  unfold is_char_boundary. rewrite bool_decide_eq_true. split.
  - intros [[a b] E]. apply split_at_spec in E. by exists a, b.
  - intros (a & b & E). exists (a, b). by apply split_at_spec.
Qed.

Lemma elem_of_char_indices k s i c :
  (i, c) ∈ char_indices k s ↔ ∃ a b, s = a ++ c :: b ∧ i = (k + byte_len a)%nat.
Proof.
  revert k. induction s as [|d s IH]; intros k; cbn [char_indices].
  - split; [by intros ?%not_elem_of_nil|]. intros (a & b & E & _). by destruct a.
  - rewrite elem_of_cons, IH. split.
    + intros [[= -> ->]|(a & b & -> & ->)]; [exists [], s; split; [done|blen]|].
      exists (d :: a), b. split; [done|]. change (byte_len (d :: a)) with (len_utf8 d + byte_len a)%nat. lia.
    + intros (a & b & E & ->). destruct a as [|d' a].
      * injection E as -> ->. left. f_equal. blen.
      * injection E as <- ->. right. exists a, b. split; [done|].
        change (byte_len (d :: a)) with (len_utf8 d + byte_len a)%nat. lia.
Qed.

Lemma elem_of_chars_within s x y i c :
  (i, c) ∈ chars_within s x y → (x ≤ i < y)%nat ∧ boundary s i ∧ boundary s (i + len_utf8 c).
Proof.
  unfold chars_within. intros [Hi (a & b & -> & ->)%elem_of_char_indices]%list_elem_of_filter. cbn in *.
  split; [done|]. split; [by exists a, (c :: b)|]. exists (a ++ [c]), b. rewrite <- app_assoc. split; [done|].
  rewrite byte_len_app. change (byte_len [c]) with (len_utf8 c + 0)%nat. lia.
Qed.

Lemma find_pos_elem p f l i : find_pos p f l = Some i → ∃ j c, (j, c) ∈ l ∧ i = f j c.
Proof.
  unfold find_pos. destruct (List.find _ l) as [[j c]|] eqn:E; [|done]. intros [= <-].
  apply find_some in E as [Hin _]. exists j, c. by rewrite list_elem_of_In.
Qed.

Lemma find_window_elem p l i : find_window p l = Some i → ∃ c, (i, c) ∈ l.
Proof.
  induction l as [|[j c] l IH]; [done|]. cbn [find_window]. destruct l as [|[k d] l]; [done|].
  destruct (p c d); [intros [= <-]; exists c; by left|]. intros (e & He)%IH. exists e. by right.
Qed.

Lemma elem_of_reversed {A} (x : A) l : x ∈ reverse l → x ∈ l.
Proof. by rewrite elem_of_reverse. Qed.

(** A character before a boundary ends before it. *)
Lemma no_boundary_inside a c b p :
  boundary (a ++ c :: b) p → (byte_len a < p)%nat → (byte_len a + len_utf8 c ≤ p)%nat.
Proof.
  intros (a' & b' & E & ->) Hlt.
  apply app_eq_inv in E as [(k & -> & E)|(k & -> & E)]; rewrite byte_len_app in *; [lia|].
  destruct k as [|d k]; [change (byte_len []) with 0%nat in Hlt; lia|]. injection E as <- E.
  change (byte_len (c :: k)) with (len_utf8 c + byte_len k)%nat. lia.
Qed.

Lemma boundary_after s x y i c p :
  (i, c) ∈ chars_within s x y → boundary s p → (i < p)%nat → (i + len_utf8 c ≤ p)%nat.
Proof.
  unfold chars_within. intros [_ (a & b & -> & ->)%elem_of_char_indices]%list_elem_of_filter. cbn. apply no_boundary_inside.
Qed.

(** ** Where words end and begin *)

Section positions.
Context (word_chars : list char).

Lemma next_pos m s i :
  let p := get_next_word_pos word_chars m s i in boundary s p ∧ ((i < p)%nat ∨ p = byte_len s).
Proof.
  destruct m; cbn [get_next_word_pos].
  - unfold emacs_get_next_word_pos. cbv zeta. set (e := (byte_len s - 1)%nat).
    set (i1 := default _ (find_pos (in_word word_chars) _ _)).
    assert ((i < i1)%nat ∨ i1 = byte_len s) as Hi1.
    { unfold i1. destruct (find_pos (in_word word_chars) _ _) as [j|] eqn:E; [left|by right].
      apply find_pos_elem in E as (j' & c & [Hb _]%elem_of_chars_within & ->). cbn. lia. }
    destruct (find_pos (λ c, _) _ _) as [j|] eqn:E; cbn; [|split; [apply boundary_end|by right]].
    apply find_pos_elem in E as (j' & c & (Hb & Hbd & _)%elem_of_chars_within & ->). split; [done|]. left.
    destruct Hi1 as [?|Hi1]; [lia|]. unfold e in Hb. lia.
  - unfold subl_get_next_word_pos. destruct (find_window _ _) as [i1|] eqn:E1; [|split; [apply boundary_end|by right]].
    apply find_window_elem in E1 as (c1 & [Hb1 _]%elem_of_chars_within).
    destruct (find_pos _ _ _) as [j|] eqn:E; cbn; [|split; [apply boundary_end|by right]].
    apply find_pos_elem in E as (j' & c & (Hb & Hbd & _)%elem_of_chars_within & ->). split; [done|]. left. lia.
Qed.

Lemma prev_pos m s i :
  let p := get_prev_word_pos word_chars m s i in boundary s p ∧ ((p < i)%nat ∨ p = O).
Proof.
  destruct m; cbn [get_prev_word_pos].
  - unfold emacs_get_prev_word_pos. cbv zeta. set (i1 := default _ (find_pos (in_word word_chars) _ _)).
    assert ((i1 < i)%nat ∨ i1 = O) as Hi1.
    { unfold i1. destruct (find_pos (in_word word_chars) _ _) as [j|] eqn:E; [left|by right].
      apply find_pos_elem in E as (j' & c & Hin%elem_of_reversed & ->). apply elem_of_chars_within in Hin as [Hb _]. cbn. lia. }
    destruct (find_pos (λ c, _) _ _) as [j|] eqn:E; cbn; [|split; [apply boundary_start|by right]].
    apply find_pos_elem in E as (j' & c & Hin%elem_of_reversed & ->).
    assert (boundary s i1) as Hbi.
    { unfold i1. destruct (find_pos (in_word word_chars) _ _) as [j|] eqn:E; [|apply boundary_start].
      apply find_pos_elem in E as (j1 & c1 & Hin1%elem_of_reversed & ->). by apply elem_of_chars_within in Hin1 as (_ & ? & _). }
    pose proof Hin as (Hb & Hbd & Hbd2)%elem_of_chars_within. split; [done|]. left.
    destruct Hi1 as [Hi1|Hi1]; [|lia]. enough (j' + len_utf8 c ≤ i1)%nat by lia.
    eapply boundary_after; [exact Hin|done|lia].
  - unfold subl_get_prev_word_pos. destruct (find_pos _ _ _) as [i1|] eqn:E1; [|split; [apply boundary_start|by right]].
    apply find_pos_elem in E1 as (j1 & c1 & Hin1%elem_of_reversed & ->). apply elem_of_chars_within in Hin1 as [Hb1 _].
    destruct (find_window _ _) as [j|] eqn:E; cbn; [|split; [apply boundary_start|by right]].
    apply find_window_elem in E as (c & Hin%elem_of_reversed). apply elem_of_chars_within in Hin as (Hb & Hbd & _).
    split; [done|]. left. lia.
Qed.
End positions.

(** ** The cursor as a text before it and a text after it *)

Definition zipper : Type := list char * list char.

Definition shows (c : Cursor) (z : zipper) : Prop := source c = z.1 ++ z.2 ∧ index c = byte_len z.1.

(** What each operation promises. *)
Definition edits (op : CursorOp) (z z' : zipper) : Prop :=
  let '(a, b) := z in let '(a', b') := z' in
  match op with
  | ORight => match b with [] => a' = a ∧ b' = [] | c :: b0 => a' = a ++ [c] ∧ b' = b0 end
  | OLeft => (a = [] ∧ a' = [] ∧ b' = b) ∨ ∃ c, a = a' ++ [c] ∧ b' = c :: b
  | ONextWord _ | OWordEnd => ∃ m, a' = a ++ m ∧ b = m ++ b' ∧ (b ≠ [] → m ≠ [])
  | OPrevWord _ => ∃ m, a = a' ++ m ∧ b' = m ++ b ∧ (a ≠ [] → m ≠ [])
  | OInsert ch => a' = a ++ [ch] ∧ b' = b
  | ORemove => a' = a ∧ b' = tail b
  | ORemoveNextWord _ => a' = a ∧ ∃ m, b = m ++ b' ∧ (b ≠ [] → m ≠ [])
  | ORemovePrevWord _ => b' = b ∧ ∃ m, a = a' ++ m ∧ (a ≠ [] → m ≠ [])
  | OBack => b' = b ∧ ((a = [] ∧ a' = []) ∨ ∃ c, a = a' ++ [c])
  | OClear => a' = [] ∧ b' = []
  | OClearToStart => a' = [] ∧ b' = b
  | OClearToEnd => a' = a ∧ b' = []
  | OEnd => a' = a ++ b ∧ b' = []
  | OStart => a' = [] ∧ b' = a ++ b
  end.

Lemma forward_spec a c b j fuel :
  (j < len_utf8 c)%nat → (len_utf8 c ≤ fuel + j)%nat →
  forward fuel (a ++ c :: b) (byte_len a + j) = (byte_len a + len_utf8 c)%nat.
Proof.
  revert j. induction fuel as [|fuel IH]; intros j Hj Hf; [lia|]. cbn [forward].
  destruct (is_char_boundary _ (S (byte_len a + j))) eqn:E.
  - apply is_char_boundary_spec, no_boundary_inside in E; lia.
  - destruct (decide (S j = len_utf8 c)) as [Hl|Hl].
    + exfalso. assert (boundary (a ++ c :: b) (S (byte_len a + j))) as Hb.
      { exists (a ++ [c]), b. rewrite <- app_assoc, byte_len_app. split; [done|]. change (byte_len [c]) with (len_utf8 c + 0)%nat. lia. }
      apply is_char_boundary_spec in Hb. congruence.
    + replace (S (byte_len a + j)) with (byte_len a + S j)%nat by lia. apply IH; lia.
Qed.

Lemma backward_spec a c b j :
  (0 < j ≤ len_utf8 c)%nat → backward (a ++ c :: b) (byte_len a + j) = byte_len a.
Proof.
  induction j as [|j IH]; intros Hj; [lia|]. rewrite Nat.add_succ_r. cbn [backward].
  destruct (decide (j = O)) as [->|Hn].
  - rewrite Nat.add_0_r. rewrite (proj2 (is_char_boundary_spec _ _)); [done|]. by exists a, (c :: b).
  - destruct (is_char_boundary _ _) eqn:E; [|apply IH; lia]. apply is_char_boundary_spec, no_boundary_inside in E; lia.
Qed.

(** A boundary at or after the cursor, or at or before it, splits the text there. *)
Lemma split_after a b p :
  boundary (a ++ b) p → ((byte_len a < p)%nat ∨ p = byte_len (a ++ b)) →
  ∃ m b', b = m ++ b' ∧ p = byte_len (a ++ m) ∧ (b ≠ [] → m ≠ []).
Proof.
  intros (x & y & E & ->) Hp. apply app_eq_inv in E as [(k & -> & ->)|(k & -> & ->)].
  - assert (k = [] ∧ b = []) as [-> ->].
    { rewrite !byte_len_app in Hp. split; apply byte_len_nil; lia. }
    exists [], []. by rewrite !app_nil_r.
  - exists k, y. split_and!; [done|done|]. intros Hb ->. cbn in Hb. apply Hb, byte_len_nil.
    rewrite app_nil_r in Hp. cbn [app] in Hp. rewrite byte_len_app in Hp. lia.
Qed.

Lemma split_before a b p :
  boundary (a ++ b) p → ((p < byte_len a)%nat ∨ p = O) →
  ∃ a' m, a = a' ++ m ∧ p = byte_len a' ∧ (a ≠ [] → m ≠ []).
Proof.
  intros (x & y & E & ->) Hp. apply app_eq_inv in E as [(k & -> & ->)|(k & -> & ->)].
  - exists x, k. split_and!; [done|done|]. intros Ha ->. rewrite app_nil_r in *. apply Ha, byte_len_nil. lia.
  - rewrite byte_len_app in Hp. assert (k = [] ∧ a = []) as [-> ->] by (split; apply byte_len_nil; lia). by exists [], [].
Qed.

Lemma shows_split c a b : shows c (a, b) → split_at (source c) (index c) = Some (a, b).
Proof. intros [-> ->]. apply split_at_app. Qed.

Section edits.
Context (word_chars : list char).

Lemma remove_range_app a m b : remove_range (a ++ m ++ b) (byte_len a) (byte_len (a ++ m)) = Some (a ++ b).
Proof.
  unfold remove_range. rewrite decide_False by (rewrite byte_len_app; lia).
  rewrite (split_at_app a (m ++ b)). cbn [mbind option_bind]. rewrite app_assoc, split_at_app. done.
Qed.

(** Moving on by characters, at least one. *)
Lemma forward_chars a cur rest k :
  let s := a ++ cur :: rest in
  ∃ z', shows (mk_cursor s (byte_len (take (length a + S k) s))) z' ∧ edits OWordEnd (a, cur :: rest) z'.
Proof.
  intros s. exists (a ++ take (S k) (cur :: rest), drop (S k) (cur :: rest)).
  unfold s. rewrite take_app_add. split.
  - split; cbn [fst snd source index]; [by rewrite <- app_assoc, take_drop|done].
  - exists (take (S k) (cur :: rest)). split_and!; [done|by rewrite take_drop|done].
Qed.

Lemma count_word_pos x d r : ∃ k, count_word word_chars x (d :: r) = S k.
Proof. cbn [count_word]. destruct r; [by exists O|]. destruct (_ || _); [by exists O|by eexists]. Qed.

Lemma word_end_edits c a b :
  shows c (a, b) → ∃ c' z', word_end word_chars c = Some c' ∧ shows c' z' ∧ edits OWordEnd (a, b) z'.
Proof.
  intros Hz. pose proof (shows_split c a b Hz) as Hs. destruct c as [s i]. destruct Hz as [Hsrc Hi].
  cbn [source index fst snd] in *. subst s i. unfold word_end. cbn [source index]. destruct b as [|cur rest].
  - rewrite decide_True by blen. eexists _, (a, []). split; [done|]. split; [done|]. by exists []; rewrite ?app_nil_r.
  - rewrite decide_False by blen. rewrite Hs. cbn [mbind option_bind at_index source].
    set (w := _ || _). set (j := if w then _ else _).
    assert (∃ j', j = (length a + j')%nat) as [j' Hj].
    { unfold j. destruct w; [|exists O; lia]. exists (1 + count_whitespace rest)%nat. lia. }
    destruct (drop j (a ++ cur :: rest)) as [|d r].
    + eexists _, (a ++ cur :: rest, []). split; [done|]. split; [split; cbn; [by rewrite app_nil_r|done]|].
      exists (cur :: rest). by rewrite app_nil_r.
    + destruct (count_word_pos (in_word word_chars d) d r) as [k ->]. rewrite Hj.
      replace (length a + j' + S k)%nat with (length a + S (j' + k))%nat by lia.
      destruct (forward_chars a cur rest (j' + k)) as (z' & Hz & He). eexists _, z'. by split.
Qed.

(** One operation on a cursor that shows a text. *)
Lemma apply_edits op c z : shows c z → ∃ c' z', apply word_chars op c = Some c' ∧ shows c' z' ∧ edits op z z'.
Proof.
  destruct z as [a b]. intros Hz. pose proof (shows_split c a b Hz) as Hs.
  destruct c as [s i]. destruct Hz as [Hsrc Hi]. cbn in Hsrc, Hi. subst s i.
  destruct op; cbn [apply].
  - unfold right. cbn [source index]. destruct b as [|ch b].
    + rewrite decide_False by blen. eexists _, (a, []). by split.
    + rewrite decide_True by blen. eexists _, (a ++ [ch], b). split; [done|]. split; [|done].
      split; cbn; [by rewrite <- app_assoc|]. rewrite <- (Nat.add_0_r (byte_len a)).
      rewrite forward_spec; blen.
  - unfold left. cbn [source index]. destruct a as [|ch a _] using rev_ind.
    + eexists _, ([], b). split; [done|]. split; [done|by left].
    + rewrite decide_True by blen. eexists _, (a, ch :: b). split; [done|].
      split; [|right; by exists ch]. split; cbn [snd at_index source index]; [by rewrite <- app_assoc|].
      rewrite <- app_assoc, byte_len_app. cbn [app]. apply backward_spec. blen.
  - destruct (next_pos word_chars m (a ++ b) (byte_len a)) as [Hb Hp]. apply split_after in Hb as (k & b' & -> & Hk & Hn); [|done].
    eexists _, (a ++ k, b'). split; [done|]. split; [|by exists k]. split; [cbn; by rewrite <- app_assoc|exact Hk].
  - destruct (prev_pos word_chars m (a ++ b) (byte_len a)) as [Hb Hp]. apply split_before in Hb as (a' & k & -> & Hk & Hn); [|done].
    eexists _, (a', k ++ b). split; [done|]. split; [|by exists k]. split; [cbn; by rewrite <- app_assoc|exact Hk].
  - by apply word_end_edits.
  - unfold insert. rewrite Hs. eexists _, (a ++ [c], b). split; [done|]. split; [|done].
    split; cbn; [by rewrite <- app_assoc|]. blen.
  - unfold remove. cbn [source index] in *. rewrite Hs. destruct b as [|ch b].
    + rewrite decide_False by blen. eexists _, (a, []). by split.
    + rewrite decide_True by blen. eexists _, (a, b). by split.
  - unfold remove_next_word. cbn [source index].
    destruct (next_pos word_chars m (a ++ b) (byte_len a)) as [Hb Hp]. apply split_after in Hb as (k & b' & -> & Hk & Hn); [|done].
    rewrite Hk, remove_range_app. eexists _, (a, b'). split; [done|]. split; [done|]. split; [done|by exists k].
  - unfold remove_prev_word. cbn [source index].
    destruct (prev_pos word_chars m (a ++ b) (byte_len a)) as [Hb Hp]. apply split_before in Hb as (a' & k & -> & Hk & Hn); [|done].
    rewrite Hk, <- app_assoc, remove_range_app. eexists _, (a', b). split; [done|]. split; [done|]. split; [done|by exists k].
  - unfold back, left. cbn [source index]. destruct a as [|ch a _] using rev_ind.
    + eexists _, ([], b). split; [done|]. split; [done|]. split; [done|by left].
    + rewrite decide_True by blen. unfold at_index. cbn [source].
      rewrite <- app_assoc, byte_len_app. cbn [app]. rewrite backward_spec by blen.
      unfold remove. cbn [source index]. rewrite decide_True by blen.
      rewrite split_at_app. eexists _, (a, b). split; [done|]. split; [done|]. split; [done|right; by exists ch].
  - eexists _, ([], []). by split.
  - unfold clear_to_start. cbn [source index]. pose proof (remove_range_app [] a b) as Hr. cbn [app] in Hr.
    change (byte_len []) with O in Hr. rewrite Hr. eexists _, ([], b). by split.
  - unfold clear_to_end. cbn [source index]. pose proof (remove_range_app a b []) as Hr. rewrite !app_nil_r in Hr. rewrite Hr.
    eexists _, (a, []). split; [done|]. split; [|done]. split; cbn; [by rewrite app_nil_r|done].
  - eexists _, (a ++ b, []). split; [done|]. split; [|done]. split; cbn; [by rewrite app_nil_r|done].
  - eexists _, ([], a ++ b). by split.
Qed.
End edits.

(** Any number of operations, one after the other. *)
Fixpoint apply_all (word_chars : list char) (ops : list CursorOp) (c : Cursor) : option Cursor :=
  match ops with [] => Some c | op :: ops' => apply word_chars op c ≫= apply_all word_chars ops' end.

(** ** Correctness *)

(** The input line refines a text before and a text after the cursor. A fresh line shows the empty
    text and its text; every operation succeeds, leaves the index on a character boundary and edits the
    two texts as it promises: movements keep the whole text, word movements and deletions touch one
    side only and make progress unless that side is empty. So no sequence of operations panics. *)
Theorem cursor_refines_zipper (word_chars s : list char) :
  shows (cursor_from s) ([], s) ∧
  (∀ op c z, shows c z → ∃ c' z', apply word_chars op c = Some c' ∧ shows c' z' ∧ edits op z z') ∧
  (∀ ops, ∃ c, apply_all word_chars ops (cursor_from s) = Some c ∧ boundary (source c) (index c)).
Proof.
  assert (shows (cursor_from s) ([], s)) as H0 by done. split_and!; [done|by apply apply_edits|].
  intros ops. revert H0. generalize (cursor_from s) ([] : list char, s). induction ops as [|op ops IH]; intros c z Hz; cbn [apply_all].
  - exists c. split; [done|]. destruct Hz as [-> ->]. by exists z.1, z.2.
  - destruct (apply_edits word_chars op c z Hz) as (c' & z' & -> & Hz' & _). by apply (IH c' z').
Qed.
