(* ===== verification/Interactive.v ===== *)
(** * The interactive search ([search/interactive.rs])

    The state of the search screen, what a key, the mouse and pasted text do to it, the loop that carries
    the resulting actions out, and what the search returns. Drawing is not modelled but for the part of
    the list that is in view, which later key presses depend on. [usize] is 64 bits wide and wraps; [None]
    is a panic. What the loop asks of the history store and the database is returned as effects. The
    display width of a text is a parameter. *)
From S2P Require Import Prelude Text Conditions Keys Keymaps Cursor.

(** ** Data *)

Inductive SearchMode : Type := SPrefix | SFullText | SFuzzy | SDaemonFuzzy.
#[export] Instance SearchMode_eq_dec : EqDecision SearchMode.
Proof. solve_decision. Defined.

Inductive FilterMode : Type := FGlobal | FHost | FSession | FDirectory | FWorkspace | FSessionPreload.
#[export] Instance FilterMode_eq_dec : EqDecision FilterMode.
Proof. solve_decision. Defined.

Inductive ExitMode : Type := ExitReturnOriginal | ExitReturnQuery.
Inductive CursorStyle : Type :=
| DefaultUserShape | BlinkingBlock | SteadyBlock | BlinkingUnderScore | SteadyUnderScore | BlinkingBar | SteadyBar.
#[export] Instance CursorStyle_eq_dec : EqDecision CursorStyle.
Proof. solve_decision. Defined.

Inductive InputAction : Type :=
| IAccept (i : Z) | IAcceptInspecting | ICopy (i : Z) | IDelete (i : Z) | IDeleteAllMatching (i : Z)
| IReturnOriginal | IReturnQuery | IContinue | IRedraw | ISwitchContext (i : option Z).

(** The settings that the screen depends on. *)
Record UiSettings : Type := mk_ui_settings {
  ui_keys : KeySettings; exit_mode : ExitMode; word_chars : list char; word_jump_mode : WordJumpMode;
  scroll_context_lines : Z; keymap_cursor : gmap string CursorStyle; filters : list FilterMode;
  workspaces : bool; active_search_mode : SearchMode
}.

Record InspectingState : Type := mk_inspecting {
  is_current : option string; is_next : option string; is_previous : option string
}.

Record ListState : Type := mk_list { offset : Z; selected : Z; max_entries : Z }.

Record SearchState : Type := mk_search {
  input : Cursor; filter_mode : FilterMode; git_root : bool; custom_context : option string
}.

Record State : Type := mk_state {
  results_state : ListState; switched_search_mode : bool; search_mode_raw : SearchMode; daemon_failed : bool;
  ui_results_len : Z; accept : bool; ui_keymap_mode : KeymapMode; prefix_active : bool; current_cursor : option CursorStyle;
  tab_index : Z; pending_vim_key : option string; ui_original_input_empty : bool; inspecting_state : InspectingState;
  keymaps : KeymapSet; search : SearchState; engine : SearchMode
}.

(** Assignments to the fields. *)
Definition with_list (v : ListState) (s : State) : State :=
  mk_state v (switched_search_mode s) (search_mode_raw s) (daemon_failed s) (ui_results_len s) (accept s) (ui_keymap_mode s)
    (prefix_active s) (current_cursor s) (tab_index s) (pending_vim_key s) (ui_original_input_empty s) (inspecting_state s)
    (keymaps s) (search s) (engine s).
Definition with_mode_search (sw : bool) (m e : SearchMode) (s : State) : State :=
  mk_state (results_state s) sw m (daemon_failed s) (ui_results_len s) (accept s) (ui_keymap_mode s)
    (prefix_active s) (current_cursor s) (tab_index s) (pending_vim_key s) (ui_original_input_empty s) (inspecting_state s)
    (keymaps s) (search s) e.
Definition with_results_len (n : Z) (s : State) : State :=
  mk_state (results_state s) (switched_search_mode s) (search_mode_raw s) (daemon_failed s) n (accept s) (ui_keymap_mode s)
    (prefix_active s) (current_cursor s) (tab_index s) (pending_vim_key s) (ui_original_input_empty s) (inspecting_state s)
    (keymaps s) (search s) (engine s).
Definition with_accept (v : bool) (s : State) : State :=
  mk_state (results_state s) (switched_search_mode s) (search_mode_raw s) (daemon_failed s) (ui_results_len s) v (ui_keymap_mode s)
    (prefix_active s) (current_cursor s) (tab_index s) (pending_vim_key s) (ui_original_input_empty s) (inspecting_state s)
    (keymaps s) (search s) (engine s).
Definition with_keymap (m : KeymapMode) (c : option CursorStyle) (s : State) : State :=
  mk_state (results_state s) (switched_search_mode s) (search_mode_raw s) (daemon_failed s) (ui_results_len s) (accept s) m
    (prefix_active s) c (tab_index s) (pending_vim_key s) (ui_original_input_empty s) (inspecting_state s)
    (keymaps s) (search s) (engine s).
Definition with_pending (p : bool) (k : option string) (s : State) : State :=
  mk_state (results_state s) (switched_search_mode s) (search_mode_raw s) (daemon_failed s) (ui_results_len s) (accept s) (ui_keymap_mode s)
    p (current_cursor s) (tab_index s) k (ui_original_input_empty s) (inspecting_state s)
    (keymaps s) (search s) (engine s).
Definition with_tab (t : Z) (s : State) : State :=
  mk_state (results_state s) (switched_search_mode s) (search_mode_raw s) (daemon_failed s) (ui_results_len s) (accept s) (ui_keymap_mode s)
    (prefix_active s) (current_cursor s) t (pending_vim_key s) (ui_original_input_empty s) (inspecting_state s)
    (keymaps s) (search s) (engine s).
Definition with_inspecting (i : InspectingState) (s : State) : State :=
  mk_state (results_state s) (switched_search_mode s) (search_mode_raw s) (daemon_failed s) (ui_results_len s) (accept s) (ui_keymap_mode s)
    (prefix_active s) (current_cursor s) (tab_index s) (pending_vim_key s) (ui_original_input_empty s) i
    (keymaps s) (search s) (engine s).
Definition with_search (v : SearchState) (s : State) : State :=
  mk_state (results_state s) (switched_search_mode s) (search_mode_raw s) (daemon_failed s) (ui_results_len s) (accept s) (ui_keymap_mode s)
    (prefix_active s) (current_cursor s) (tab_index s) (pending_vim_key s) (ui_original_input_empty s) (inspecting_state s)
    (keymaps s) v (engine s).

Definition with_input (c : Cursor) (s : State) : State :=
  with_search (mk_search c (filter_mode (search s)) (git_root (search s)) (custom_context (search s))) s.

(** ** Parts *)

(** [InspectingState::reset], [move_to_previous], [move_to_next] *)
Definition reset : InspectingState := mk_inspecting None None None.
Definition move_to_previous (i : InspectingState) : InspectingState := mk_inspecting (is_previous i) None None.
Definition move_to_next (i : InspectingState) : InspectingState := mk_inspecting (is_next i) None None.

(** [ListState::select] *)
Definition select (i : Z) (s : State) : State :=
  with_list (mk_list (offset (results_state s)) i (max_entries (results_state s))) s.

Definition sel (s : State) : Z := selected (results_state s).

Definition wrapping_sub (a b : Z) : Z := (a - b) mod u64_limit.

(** [SearchMode::next] *)
Definition mode_next (st : UiSettings) (m : SearchMode) : SearchMode :=
  match m with
  | SPrefix => SFullText
  | SFullText => if decide (active_search_mode st = SDaemonFuzzy) then SDaemonFuzzy else SFuzzy
  | SFuzzy | SDaemonFuzzy => SPrefix
  end.

(** [SearchModeState::mode] *)
Definition search_mode (s : State) : SearchMode :=
  if bool_decide (search_mode_raw s = SDaemonFuzzy) && daemon_failed s then SFuzzy else search_mode_raw s.

(** [filter_mode_available], [rotate_filter_mode] *)
Definition filter_mode_available (st : UiSettings) (v : SearchState) (m : FilterMode) : bool :=
  match m with
  | FGlobal | FSessionPreload => match custom_context v with None => true | Some _ => false end
  | FWorkspace => workspaces st && git_root v
  | _ => true
  end.

(** The loop: [n] rounds are left, [i] is the index of the last mode tried. *)
Fixpoint rotate_loop (st : UiSettings) (v : SearchState) (n i : nat) : SearchState :=
  match n with
  | O => v
  | S n' =>
      let i := ((i + 1) mod length (filters st))%nat in
      match filters st !! i with
      | Some m => if filter_mode_available st v m
                  then mk_search (input v) m (git_root v) (custom_context v)
                  else rotate_loop st v n' i
      | None => v
      end
  end.
Definition rotate_filter_mode (st : UiSettings) (v : SearchState) : SearchState :=
  let i := default 0%nat (fst <$> list_find (λ m, m = filter_mode v) (filters st)) in
  rotate_loop st v (length (filters st)) i.

(** [set_keymap_cursor] *)
Definition keymap_style (st : UiSettings) (s : State) (name : string) : option CursorStyle :=
  let style := match (if decide (name = "__clear__") then None else keymap_cursor st !! name) with
               | Some v => Some v
               | None => match current_cursor s with Some _ => Some DefaultUserShape | None => None end
               end in
  match style with Some v => Some v | None => current_cursor s end.

Definition enter_mode (st : UiSettings) (name : string) (m : KeymapMode) (s : State) : State :=
  with_keymap m (keymap_style st s name) s.

(** [scroll_down], [scroll_up] *)
Definition scroll_down (n : Z) (s : State) : State := select (saturating_sub (sel s) n) (with_inspecting reset s).
Definition scroll_up (n : Z) (s : State) : State :=
  with_inspecting reset (select (Z.min (wrapping_add (sel s) n) (saturating_sub (ui_results_len s) 1)) s).

Definition scroll (up : bool) (n : Z) (s : State) : State := if up then scroll_up n s else scroll_down n s.

Definition jump (i : Z) (s : State) : State := with_inspecting reset (select i s).

(** [handle_key_exit] *)
Definition handle_key_exit (st : UiSettings) : InputAction :=
  match exit_mode st with ExitReturnOriginal => IReturnOriginal | ExitReturnQuery => IReturnQuery end.

(** The two loops of [DeleteToWordBoundary]; each round removes a character or ends, so the length of
    the text bounds them. *)
Fixpoint delete_whitespace (fuel : nat) (c : Cursor) : option Cursor :=
  match fuel with
  | O => None
  | S f => match back c with
           | Some (Some ch, c') => if is_whitespace ch then delete_whitespace f c' else Some c'
           | Some (None, c') => Some c'
           | None => None
           end
  end.

Fixpoint delete_word (fuel : nat) (c : Cursor) : option Cursor :=
  match fuel with
  | O => None
  | S f =>
      let '(moved, c') := left c in
      if moved : bool then
        match current_char c' with
        | Some (Some ch) => if is_whitespace ch then Some (right c')
                            else match remove c' with Some (_, c'') => delete_word f c'' | None => None end
        | _ => None
        end
      else Some c'
  end.

Definition delete_to_word_boundary (c : Cursor) : option Cursor :=
  c ← delete_whitespace (S (length (source c))) c; delete_word (S (length (source c))) c.

(** ** Actions *)

(** Every action edits the input line, or changes the state with an outcome. *)
Definition edit (f : Cursor → option Cursor) (s : State) : option (State * InputAction) :=
  c ← f (input (search s)); Some (with_input c s, IContinue).

(** [execute_action] *)
Definition execute_action (st : UiSettings) (a : Action) (s : State) : option (State * InputAction) :=
  let on op := edit (apply (word_chars st) op) s in
  let inv := invert (ui_keys st) in
  let page := saturating_sub (max_entries (results_state s)) (scroll_context_lines st) in
  let last := saturating_sub (ui_results_len s) 1 in
  let visible := Z.min (max_entries (results_state s)) (ui_results_len s) in
  let continue s := Some (s, IContinue) in
  let insert_mode := enter_mode st "vim_insert" MVimInsert in
  match a with
  | CursorLeft => on OLeft
  | CursorRight => on ORight
  | CursorWordLeft => on (OPrevWord (word_jump_mode st))
  | CursorWordRight => on (ONextWord (word_jump_mode st))
  | CursorWordEnd => on OWordEnd
  | CursorStart => on OStart
  | CursorEnd => on OEnd
  | DeleteCharBefore => on OBack
  | DeleteCharAfter => on ORemove
  | DeleteWordBefore => on (ORemovePrevWord (word_jump_mode st))
  | DeleteWordAfter => on (ORemoveNextWord (word_jump_mode st))
  | DeleteToWordBoundary => edit delete_to_word_boundary s
  | ClearLine => on OClear
  | ClearToStart => on OClearToStart
  | ClearToEnd => on OClearToEnd
  | SelectNext => continue (scroll inv 1 s)
  | SelectPrevious => continue (scroll (negb inv) 1 s)
  | ScrollHalfPageUp => continue (scroll (negb inv) (page / 2) s)
  | ScrollHalfPageDown => continue (scroll inv (page / 2) s)
  | ScrollPageUp => continue (scroll (negb inv) page s)
  | ScrollPageDown => continue (scroll inv page s)
  | ScrollToTop => continue (jump (if inv then 0 else last) s)
  | ScrollToBottom => continue (jump (if inv then last else 0) s)
  | ScrollToScreenTop => continue (jump (Z.min (wrapping_add (offset (results_state s)) (saturating_sub visible 1)) last) s)
  | ScrollToScreenMiddle => continue (jump (Z.min (wrapping_add (offset (results_state s)) (visible / 2)) last) s)
  | ScrollToScreenBottom => continue (jump (offset (results_state s)) s)
  | Accept => if tab_index s =? 1 then Some (s, IAcceptInspecting) else Some (with_accept true s, IAccept (sel s))
  | AcceptNth n => Some (with_accept true s, IAccept (wrapping_add (sel s) n))
  | ReturnSelection => if tab_index s =? 1 then Some (s, IAcceptInspecting) else Some (s, IAccept (sel s))
  | ReturnSelectionNth n => Some (s, IAccept (wrapping_add (sel s) n))
  | Copy => Some (s, ICopy (sel s))
  | ADelete => Some (s, IDelete (sel s))
  | DeleteAll => Some (s, IDeleteAllMatching (sel s))
  | ReturnOriginal => Some (s, IReturnOriginal)
  | ReturnQuery => Some (s, IReturnQuery)
  | Exit => Some (s, handle_key_exit st)
  | Redraw => Some (s, IRedraw)
  | CycleFilterMode => continue (with_search (rotate_filter_mode st (search s)) s)
  | CycleSearchMode =>
      let s' := with_mode_search true (mode_next st (search_mode_raw s)) (engine s) s in
      continue (with_mode_search true (search_mode_raw s') (search_mode s') s')
  | SwitchContext => Some (s, ISwitchContext (Some (sel s)))
  | ClearContext => Some (s, ISwitchContext None)
  | ToggleTab => continue (with_tab (wrapping_add (tab_index s) 1 mod 2) s)
  | VimEnterNormal => continue (enter_mode st "vim_normal" MVimNormal s)
  | VimEnterInsert => continue (insert_mode s)
  | VimEnterInsertAfter => '(s, r) ← on ORight; Some (insert_mode s, r)
  | VimEnterInsertAtStart => '(s, r) ← on OStart; Some (insert_mode s, r)
  | VimEnterInsertAtEnd => '(s, r) ← on OEnd; Some (insert_mode s, r)
  | VimSearchInsert => '(s, r) ← on OClear; Some (insert_mode s, r)
  | VimChangeToEnd => '(s, r) ← on OClearToEnd; Some (insert_mode s, r)
  | EnterPrefixMode => continue (with_pending true (pending_vim_key s) s)
  | InspectPrevious => Some (with_inspecting (move_to_previous (inspecting_state s)) s, IRedraw)
  | InspectNext => Some (with_inspecting (move_to_next (inspecting_state s)) s, IRedraw)
  | Noop => continue s
  end.

(** ** Events *)

Inductive MouseEventKind : Type := ScrollDown | ScrollUp | MouseOther.
Inductive Event : Type :=
| EvKey (release : bool) (k : KeyEvent) | EvMouse (m : MouseEventKind) | EvPaste (text : list char) | EvNone.

(** A key's character as one of the input line. *)
Definition char_of (s : string) : char := match chars s with a :: l => (a, l) | [] => (byte 0, []) end.

(** [mode_keymap] *)
Definition mode_keymap (s : State) : gmap KeyInput KeyBinding :=
  if tab_index s =? 1 then inspector (keymaps s)
  else match ui_keymap_mode s with
       | MEmacs | MAuto => emacs (keymaps s)
       | MVimNormal => vim_normal (keymaps s)
       | MVimInsert => vim_insert (keymaps s)
       end.

(** [is_insert_mode] *)
Definition is_insert_mode (s : State) : bool :=
  (tab_index s =? 0) && match ui_keymap_mode s with MEmacs | MAuto | MVimInsert => true | MVimNormal => false end.

(** [handle_mouse_input] *)
Definition handle_mouse_input (inverted : bool) (m : MouseEventKind) (s : State) : State :=
  match m with
  | ScrollDown => scroll inverted 1 s
  | ScrollUp => scroll (negb inverted) 1 s
  | MouseOther => s
  end.

(** The loop of [handle_paste_input]. *)
Fixpoint insert_all (text : list char) (c : Cursor) : option Cursor :=
  match text with [] => Some c | ch :: text' => c ← insert ch c; insert_all text' c end.

Section events.
Context (width : list char → Z).

(** The context of the conditions, as [handle_key_input] builds it. *)
Definition eval_context (s : State) : EvalContext :=
  let c := input (search s) in
  mk_eval (Z.of_nat (index c)) (width (source c)) (Z.of_nat (byte_len (source c))) (sel s) (ui_results_len s)
    (ui_original_input_empty s) (match custom_context (search s) with Some _ => true | None => false end).

(** Its first phase: the action of the key, if it has one, and the key that now waits for another. *)
Definition resolve_key (s : State) (single : SingleKey) : option Action * option string :=
  let ctx := eval_context s in
  let km := mode_keymap s in
  match (if prefix_active s then resolve (prefix_map (keymaps s)) (Single single) ctx else None) with
  | Some a => (Some a, None)
  | None =>
      match pending_vim_key s with
      | Some c =>
          match resolve km (Sequence [mk_key (KChar c) false false false false; single]) ctx with
          | Some a => (Some a, None)
          | None => (resolve km (Single single) ctx, None)
          end
      | None =>
          match k_code single with
          | KChar c => if has_sequence_starting_with km single && negb (k_ctrl single) && negb (k_alt single)
                       then (Some Noop, Some c) else (resolve km (Single single) ctx, None)
          | _ => (resolve km (Single single) ctx, None)
          end
      end
  end.

(** What a key without an action inserts. *)
Definition key_text (single : SingleKey) : option char :=
  if k_ctrl single || k_alt single then None
  else match k_code single with KChar c => Some (char_of c) | Space => Some (byte 32, []) | _ => None end.

(** [handle_key_input] *)
Definition handle_key_input (st : UiSettings) (release : bool) (ev : KeyEvent) (s : State) : option (State * InputAction) :=
  if release then Some (s, IContinue)
  else
    let s := with_mode_search false (search_mode_raw s) (engine s) s in
    match from_event ev with
    | None => Some (s, IContinue)
    | Some single =>
        let '(action, new_pending) := resolve_key s single in
        let s := with_pending false new_pending s in
        match action with
        | Some a => execute_action st a s
        | None =>
            match (if is_insert_mode s then key_text single else None) with
            | Some ch => edit (insert ch) s
            | None => Some (s, IContinue)
            end
        end
    end.

(** [handle_input] *)
Definition handle_input (st : UiSettings) (e : Event) (s : State) : option (State * InputAction) :=
  match e with
  | EvKey release k => handle_key_input st release k s
  | EvMouse m => Some (handle_mouse_input (invert (ui_keys st)) m s, IContinue)
  | EvPaste text => edit (insert_all text) s
  | EvNone => Some (s, IContinue)
  end.
End events.

(** ** The input line never panics *)

Lemma shows_boundary c z : shows c z → boundary (source c) (index c).
Proof. intros [-> ->]. by exists z.1, z.2. Qed.

Lemma boundary_shows c : boundary (source c) (index c) → ∃ z, shows c z.
Proof. intros (a & b & H1 & H2). by exists (a, b). Qed.

Lemma left_snoc c a ch b : shows c (a ++ [ch], b) → ∃ c', left c = (true, c') ∧ shows c' (a, ch :: b).
Proof.
  intros Hs. destruct (apply_edits [] OLeft c _ Hs) as (c' & [a' b'] & E & Hs' & He). cbn in E, He.
  destruct He as [(? & _)|(ch' & [-> <-]%app_inj_tail & ->)]; [by destruct a|].
  exists c'. split; [|done]. injection E as <-. unfold left. destruct Hs as [_ ->].
  rewrite decide_True; [done|]. cbn [fst]. rewrite byte_len_app, byte_len_cons. pose proof (len_utf8_pos ch). lia.
Qed.

Lemma left_nil c b : shows c ([], b) → left c = (false, c).
Proof. intros [_ Hi]. unfold left. by rewrite decide_False by (rewrite Hi; apply Nat.lt_irrefl). Qed.

Lemma remove_cons c a ch b : shows c (a, ch :: b) → ∃ c', remove c = Some (Some ch, c') ∧ shows c' (a, b).
Proof.
  intros Hs. pose proof (shows_split _ _ _ Hs) as E. destruct Hs as [Hs Hi]. unfold remove.
  rewrite decide_True by (rewrite Hs, Hi; cbn [fst snd]; rewrite byte_len_app, byte_len_cons; pose proof (len_utf8_pos ch); lia).
  rewrite E. eexists. split; [reflexivity|]. by split.
Qed.

Lemma delete_whitespace_shows fuel c a b :
  shows c (a, b) → (length a < fuel)%nat → ∃ c' a', delete_whitespace fuel c = Some c' ∧ shows c' (a', b) ∧ a' `prefix_of` a.
Proof.
  revert c a. induction fuel as [|fuel IH]; intros c a Hs Hf; [lia|]. cbn [delete_whitespace]. unfold back.
  destruct a as [|ch a _] using rev_ind.
  - rewrite (left_nil _ _ Hs). by exists c, [].
  - destruct (left_snoc _ _ _ _ Hs) as (c1 & -> & Hs1). destruct (remove_cons _ _ _ _ Hs1) as (c2 & -> & Hs2).
    destruct (is_whitespace ch).
    + rewrite length_app in Hf. cbn in Hf. destruct (IH c2 a Hs2) as (c' & a' & E & Hs' & Hp); [lia|].
      exists c', a'. split; [exact E|]. split; [done|]. by apply prefix_app_r.
    + exists c2, a. split; [done|]. split; [done|]. by apply prefix_app_r.
Qed.

Lemma delete_word_shows fuel c a b :
  shows c (a, b) → (length a < fuel)%nat → ∃ c' a', delete_word fuel c = Some c' ∧ shows c' (a', b) ∧ a' `prefix_of` a.
Proof.
  revert c a. induction fuel as [|fuel IH]; intros c a Hs Hf; [lia|]. cbn [delete_word].
  destruct a as [|ch a _] using rev_ind.
  - rewrite (left_nil _ _ Hs). by exists c, [].
  - destruct (left_snoc _ _ _ _ Hs) as (c1 & -> & Hs1). unfold current_char. rewrite (shows_split _ _ _ Hs1). cbn [fmap option_fmap option_map snd head].
    destruct (is_whitespace ch).
    + destruct (apply_edits [] ORight c1 _ Hs1) as (c2 & [a' b'] & E & Hs2 & [-> ->]). injection E as <-.
      by exists (right c1), (a ++ [ch]).
    + destruct (remove_cons _ _ _ _ Hs1) as (c2 & -> & Hs2). rewrite length_app in Hf. cbn in Hf.
      destruct (IH c2 a Hs2) as (c' & a' & E & Hs' & Hp); [lia|].
      exists c', a'. split; [exact E|]. split; [done|]. by apply prefix_app_r.
Qed.

Lemma delete_to_word_boundary_shows c a b :
  shows c (a, b) → ∃ c' a', delete_to_word_boundary c = Some c' ∧ shows c' (a', b) ∧ a' `prefix_of` a.
Proof.
  intros Hs. unfold delete_to_word_boundary. assert (length a ≤ length (source c))%nat as Hl.
  { destruct Hs as [-> _]. cbn. rewrite length_app. lia. }
  destruct (delete_whitespace_shows (S (length (source c))) c a b Hs) as (c1 & a1 & -> & Hs1 & Hp1); [lia|]. cbn [mbind option_bind].
  assert (length a1 ≤ length (source c1))%nat as Hl1. { destruct Hs1 as [-> _]. cbn. rewrite length_app. lia. }
  destruct (delete_word_shows (S (length (source c1))) c1 a1 b Hs1) as (c2 & a2 & -> & Hs2 & Hp2); [lia|].
  exists c2, a2. split; [done|]. split; [done|]. by etrans.
Qed.

Lemma insert_all_shows text c z : shows c z → ∃ c' z', insert_all text c = Some c' ∧ shows c' z'.
Proof.
  revert c z. induction text as [|ch text IH]; intros c z Hs; cbn [insert_all]; [by eauto|].
  destruct (apply_edits [] (OInsert ch) c z Hs) as (c1 & z1 & E & Hs1 & _). cbn in E. rewrite E. by eapply IH.
Qed.

(** The input line is on a character boundary. *)
Definition line_ok (s : State) : Prop := boundary (source (input (search s))) (index (input (search s))).

(** What an action keeps of a state; the outcome is a state with a line that is fine. *)
Definition goes_ok (r : option (State * InputAction)) : Prop := ∃ s i, r = Some (s, i) ∧ line_ok s.

Lemma edit_ok f s :
  (∀ c z, shows c z → ∃ c' z', f c = Some c' ∧ shows c' z') → line_ok s → goes_ok (edit f s).
Proof.
  intros Hf [z Hz]%boundary_shows. destruct (Hf _ _ Hz) as (c' & z' & E & Hz'). unfold edit. rewrite E.
  eexists _, _. split; [reflexivity|]. exact (shows_boundary _ _ Hz').
Qed.

Lemma apply_ok wc op s : line_ok s → goes_ok (edit (apply wc op) s).
Proof. apply edit_ok. intros c z Hz. destruct (apply_edits wc op c z Hz) as (c' & z' & ? & ? & _). eauto. Qed.

Lemma apply_then_ok wc op (f : State → State) s :
  (∀ s, search (f s) = search s) → line_ok s →
  goes_ok ('(s, r) ← edit (apply wc op) s; Some (f s, r)).
Proof.
  intros Hf Hs. destruct (apply_ok wc op s Hs) as (s' & i & -> & Hs'). eexists _, _. split; [reflexivity|].
  unfold line_ok in *. by rewrite Hf.
Qed.

Lemma line_ok_same s s' : input (search s') = input (search s) → line_ok s → line_ok s'.
Proof. unfold line_ok. by intros ->. Qed.

Lemma rotate_loop_input st v n i : input (rotate_loop st v n i) = input v.
Proof.
  revert i. induction n as [|n IH]; intros i; cbn [rotate_loop]; [done|].
  destruct (filters st !! _); [|done]. by destruct (filter_mode_available st v f).
Qed.

Lemma execute_action_ok st a s : line_ok s → goes_ok (execute_action st a s).
Proof.
  intros Hs.
  assert (∀ s' i, input (search s') = input (search s) → goes_ok (Some (s', i))) as Hk.
  { intros s' i E. eexists _, _. split; [reflexivity|]. by eapply line_ok_same. }
  destruct a; cbn [execute_action];
    try (by apply apply_ok); try (by apply apply_then_ok); try (by apply Hk);
    try (by unfold scroll, scroll_up, scroll_down; repeat match goal with |- context [if ?b then _ else _] => destruct b end; apply Hk).
  - apply edit_ok; [|done]. intros c [a b] Hz. destruct (delete_to_word_boundary_shows c a b Hz) as (c' & a' & E & Hz' & _). eauto.
  - apply Hk. cbn. apply rotate_loop_input.
Qed.

Lemma handle_input_ok width st e s : line_ok s → goes_ok (handle_input width st e s).
Proof.
  intros Hs. destruct e as [r k|m|text|]; cbn [handle_input].
  - unfold handle_key_input. destruct r; [by eexists _, _|]. destruct (from_event k) as [single|]; [|by eexists _, _].
    destruct (resolve_key _ _ _) as [[a|] p]; [by apply execute_action_ok|].
    destruct (if _ : bool then key_text single else None) as [ch|]; [|by eexists _, _].
    apply (apply_ok [] (OInsert ch)). done.
  - eexists _, _. split; [reflexivity|]. by destruct m, (invert (ui_keys st)).
  - apply edit_ok; [|done]. intros c z. apply insert_all_shows.
  - by eexists _, _.
Qed.
