(* ===== verification/Filter.v ===== *)
(** * Filters and sorted slices ([atuin-common/src/filter.rs], [atuin-common/src/slice.rs])

    [OrFilter] is a set kept as a sorted list without duplicates; the empty list allows everything.
    Membership is a binary search, and comparing with an iterator marks the positions it hits. The
    slice-backed filter removes duplicates in place with [partition_dedup]. All of them are shown to
    be the set operations they stand for. *)
From S2P Require Import Prelude.

(** ** Definitions *)

(** [OrFilter] *)
Record OrFilter (A : Type) : Type := mk_filter { of_inner : list A }.
Arguments mk_filter {A} of_inner.
Arguments of_inner {A} o.

(** [enum Items] *)
Inductive Items (A : Type) : Type := ItemsAll | ItemsSome (l : list A).
Arguments ItemsAll {A}.
Arguments ItemsSome {A} l.

Module Slice.
Section slice.
Context {A : Type} `{Ord A}.

Definition same (x y : A) : bool := match cmp x y with Eq => true | _ => false end.

(** [slice::swap]; both indices are in range where it is called. *)
Definition swap (l : list A) (i j : nat) : list A :=
  match l !! i, l !! j with Some x, Some y => <[i:=y]> (<[j:=x]> l) | _, _ => l end.

(** The [while] loop of [partition_dedup]; [n] reads are left. *)
Fixpoint dedup_loop (n next_read next_write : nat) (l : list A) : list A * nat :=
  match n with
  | O => (l, next_write)
  | S n' =>
      match l !! next_read, l !! (next_write - 1)%nat with
      | Some x, Some y =>
          if negb (same x y) then dedup_loop n' (S next_read) (S next_write) (swap l next_read next_write)
          else dedup_loop n' (S next_read) next_write l
      | _, _ => (l, next_write)
      end
  end.

(** [partition_dedup] *)
Definition partition_dedup (l : list A) : list A * list A :=
  if decide (length l ≤ 1)%nat then (l, [])
  else let '(l', w) := dedup_loop (length l - 1) 1 1 l in (take w l', drop w l').

(** [Vec::dedup] *)
Fixpoint dedup (l : list A) : list A :=
  match l with
  | [] => []
  | x :: l' => match l' with
               | [] => [x]
               | y :: _ => if same x y then dedup l' else x :: dedup l'
               end
  end.

(** [slice::binary_search] on the range from [lo] to [hi], whose width is enough fuel. *)
Fixpoint bsearch (fuel : nat) (l : list A) (x : A) (lo hi : nat) : option nat :=
  match fuel with
  | O => None
  | S f =>
      if decide (lo < hi)%nat then
        let mid := (lo + (hi - lo) / 2)%nat in
        match l !! mid with
        | Some y => match cmp y x with
                    | Eq => Some mid
                    | Lt => bsearch f l x (S mid) hi
                    | Gt => bsearch f l x lo mid
                    end
        | None => None
        end
      else None
  end.
Definition binary_search (l : list A) (x : A) : option nat := bsearch (length l) l x 0 (length l).

(** [eq_with_buffer]: [None] is the early return. *)
Fixpoint mark_seen (slice : list A) (seen : list bool) (items : list A) : option (list bool) :=
  match items with
  | [] => Some seen
  | x :: items' =>
      match binary_search slice x with
      | Some pos => mark_seen slice (<[pos:=true]> seen) items'
      | None => None
      end
  end.
Definition set_eq (slice items : list A) : bool :=
  match mark_seen slice (replicate (length slice) false) items with
  | Some seen => forallb id seen
  | None => false
  end.
End slice.
End Slice.

Module Filter.
Section filter.
Context {A : Type} `{Ord A}.

Definition all : OrFilter A := mk_filter [].
Definition is_all (f : OrFilter A) : bool := match of_inner f with [] => true | _ :: _ => false end.

(** [from_list] with [Vec] storage, and with slice storage. *)
Definition from_list (l : list A) : option (OrFilter A) :=
  match l with [] => None | _ :: _ => Some (mk_filter (Slice.dedup (sort_by leb l))) end.
Definition from_slice (l : list A) : option (OrFilter A) :=
  match l with [] => None | _ :: _ => Some (mk_filter (Slice.partition_dedup (sort_by leb l)).1) end.

Definition items (f : OrFilter A) : Items A := if is_all f then ItemsAll else ItemsSome (of_inner f).

(** [contains] *)
Definition contains (f : OrFilter A) (x : A) : bool :=
  is_all f || bool_decide (is_Some (Slice.binary_search (of_inner f) x)).

(** [compare(iter).eq()] *)
Definition compare_eq (f : OrFilter A) (iter : option (list A)) : bool :=
  match iter with
  | Some l => if is_all f then false else Slice.set_eq (of_inner f) l
  | None => is_all f
  end.
End filter.
End Filter.

(** ** Lemmas *)

Section laws.
Context {A : Type} `{HO : OrdLaws A}.
Implicit Types (l : list A) (x y : A).

Definition strict (x y : A) : Prop := cmp x y = Lt.

Lemma same_spec x y : Slice.same x y = true ↔ x = y.
Proof.
  unfold Slice.same. rewrite <- cmp_eq_iff. by destruct (cmp x y).
Qed.

Lemma same_refl x : Slice.same x x = true.
Proof. by apply same_spec. Qed.

Lemma leb_strict x y : leb x y = true → x ≠ y → strict x y.
Proof.
  unfold leb, strict. intros Hl Hn. destruct (cmp x y) eqn:E; try done. by apply cmp_eq_iff in E.
Qed.

(** *** Removing duplicates *)

Lemma elem_of_dedup x l : x ∈ Slice.dedup l ↔ x ∈ l.
Proof.
  induction l as [|y l IH]; [done|]. destruct l as [|z l]; [done|]. cbn [Slice.dedup].
  destruct (Slice.same y z) eqn:E.
  - apply same_spec in E as ->. rewrite IH, !elem_of_cons. tauto.
  - rewrite elem_of_cons, IH, (elem_of_cons _ x y). done.
Qed.

Lemma dedup_sorted l : StronglySorted (λ x y, leb x y = true) l → StronglySorted strict (Slice.dedup l).
Proof.
  induction l as [|y l IH]; intros Hs; [constructor|]. destruct l as [|z l]; [repeat constructor|].
  apply StronglySorted_inv in Hs as [Hs Hy]. cbn [Slice.dedup]. destruct (Slice.same y z) eqn:E; [by apply IH|].
  constructor; [by apply IH|]. apply Forall_forall. intros x Hx. apply (elem_of_dedup x (z :: l)) in Hx.
  rewrite Forall_forall in Hy. apply leb_strict; [by apply Hy|]. intros <-.
  apply StronglySorted_inv in Hs as [_ Hz]. rewrite Forall_forall in Hz.
  assert (y = z) as ->; [|by rewrite same_refl in E].
  apply elem_of_cons in Hx as [->|Hx]; [done|]. apply leb_antisym; [apply Hy; by left|by apply Hz].
Qed.

Lemma dedup_snoc l x :
  Slice.dedup (l ++ [x]) =
    match last (Slice.dedup l) with
    | Some y => if Slice.same x y then Slice.dedup l else Slice.dedup l ++ [x]
    | None => [x]
    end.
Proof.
  induction l as [|y l IH]; [done|]. destruct l as [|z l].
  - cbn. destruct (Slice.same y x) eqn:E1, (Slice.same x y) eqn:E2; try done.
    + apply same_spec in E1 as ->. done.
    + apply same_spec in E1 as ->. by rewrite same_refl in E2.
    + apply same_spec in E2 as ->. by rewrite same_refl in E1.
  - change ((y :: z :: l) ++ [x]) with (y :: z :: (l ++ [x])). cbn [Slice.dedup].
    change (match l ++ [x] with [] => [z] | y0 :: _ => if Slice.same z y0 then Slice.dedup (l ++ [x])
            else z :: Slice.dedup (l ++ [x]) end) with (Slice.dedup ((z :: l) ++ [x])). rewrite IH. clear IH.
    assert (Slice.dedup (z :: l) ≠ []) as Hne.
    { intros Hn. assert (z ∈ Slice.dedup (z :: l)) as Hz by (apply elem_of_dedup; by left).
      rewrite Hn in Hz. by apply not_elem_of_nil in Hz. }
    change (match l with [] => [z] | y0 :: _ => if Slice.same z y0 then Slice.dedup l
            else z :: Slice.dedup l end) with (Slice.dedup (z :: l)).
    destruct (Slice.same y z); [done|]. set (d := Slice.dedup (z :: l)) in *. destruct d as [|w d'] eqn:Ed; [done|]. change (last (y :: w :: d')) with (last (w :: d')).
    destruct (last (w :: d')) as [v|] eqn:El; [by destruct (Slice.same x v)|].
    by apply last_None in El.
Qed.

Lemma swap_perm l i j : Slice.swap l i j ≡ₚ l.
Proof.
  unfold Slice.swap. destruct (l !! i) as [x|] eqn:Ei; [|done]. destruct (l !! j) as [y|] eqn:Ej; [|done].
  by apply Permutation_insert_swap.
Qed.

Lemma swap_before l i j k : (k < i)%nat → (k < j)%nat → Slice.swap l i j !! k = l !! k.
Proof.
  intros Hi Hj. unfold Slice.swap. destruct (l !! i), (l !! j); try done.
  rewrite !list_lookup_insert_ne by lia. done.
Qed.

Lemma swap_after l i j k : (i < k)%nat → (j < k)%nat → Slice.swap l i j !! k = l !! k.
Proof.
  intros Hi Hj. unfold Slice.swap. destruct (l !! i), (l !! j); try done.
  rewrite !list_lookup_insert_ne by lia. done.
Qed.

Lemma swap_at l i j x y : l !! i = Some x → l !! j = Some y → Slice.swap l i j !! j = Some x.
Proof.
  intros Hi Hj. unfold Slice.swap. rewrite Hi, Hj. destruct (decide (i = j)) as [<-|Hn].
  - simplify_eq. rewrite list_lookup_insert_eq; [done|]. rewrite length_insert. by eapply lookup_lt_Some.
  - rewrite list_lookup_insert_ne, list_lookup_insert_eq; [done| |done]. by eapply lookup_lt_Some.
Qed.

(** The loop has dedupped what it has read, and has not touched the rest. *)
Lemma dedup_loop_spec n r w l0 l :
  (n + r = length l0)%nat → (0 < w ≤ r)%nat → l ≡ₚ l0 → take w l = Slice.dedup (take r l0) →
  (∀ k, (r ≤ k)%nat → l !! k = l0 !! k) →
  let '(l', w') := Slice.dedup_loop n r w l in take w' l' = Slice.dedup l0 ∧ l' ≡ₚ l0.
Proof.
  revert r w l. induction n as [|n IH]; intros r w l Hn Hw Hp Ht Hd.
  { cbn [Slice.dedup_loop]. rewrite Ht, take_ge by lia. done. }
  cbn [Slice.dedup_loop]. assert (length l = length l0) as Hlen by (by apply Permutation_length).
  destruct (lookup_lt_is_Some_2 l0 r) as [x Hx]; [lia|]. rewrite (Hd r), Hx by lia.
  destruct (lookup_lt_is_Some_2 l (w - 1)) as [y Hy]; [lia|]. rewrite Hy.
  assert (last (Slice.dedup (take r l0)) = Some y) as Hlast.
  { rewrite <- Ht, last_lookup, length_take, lookup_take_lt by lia. by replace (pred (w `min` length l)) with (w - 1)%nat by lia. }
  assert (Slice.dedup (take (S r) l0) = if Slice.same x y then Slice.dedup (take r l0) else Slice.dedup (take r l0) ++ [x]) as Hs.
  { by rewrite (take_S_r _ _ x), dedup_snoc, Hlast by done. }
  destruct (Slice.same x y); cbn [negb].
  - apply IH; [lia|lia|done|by rewrite Hs|]. intros k Hk. apply Hd. lia.
  - destruct (lookup_lt_is_Some_2 l w) as [z Hz]; [lia|].
    assert (l !! r = Some x) as Hlr by (by rewrite Hd by lia).
    apply IH; [lia|lia|by rewrite swap_perm| |intros k Hk; rewrite swap_after by lia; apply Hd; lia].
    rewrite Hs, <- Ht, (take_S_r _ _ x) by (by eapply swap_at). f_equal.
    apply list_eq. intros k. destruct (decide (k < w)%nat) as [Hk|Hk].
    + by rewrite !lookup_take_lt, swap_before by lia.
    + by rewrite !lookup_take_ge by lia.
Qed.

Lemma partition_dedup_spec l :
  (Slice.partition_dedup l).1 = Slice.dedup l ∧
  (Slice.partition_dedup l).1 ++ (Slice.partition_dedup l).2 ≡ₚ l.
Proof.
  unfold Slice.partition_dedup. case_decide as Hl.
  - split; [|by rewrite app_nil_r]. destruct l as [|x [|y l]]; simpl in *; try done; lia.
  - pose proof (dedup_loop_spec (length l - 1) 1 1 l l) as Hspec.
    destruct (Slice.dedup_loop _ _ _ _) as [l' w] eqn:E. cbn [fst snd]. rewrite take_drop.
    apply Hspec; [lia|lia|done| |done]. destruct l as [|x l]; [done|]. by destruct l.
Qed.

(** *** Searching *)

Lemma bsearch_sound fuel l x lo hi i : Slice.bsearch fuel l x lo hi = Some i → l !! i = Some x.
Proof.
  revert lo hi. induction fuel as [|fuel IH]; intros lo hi; cbn [Slice.bsearch]; [done|].
  case_decide; [|done]. set (mid := (lo + (hi - lo) / 2)%nat). destruct (l !! mid) as [y|] eqn:Ey; [|done].
  destruct (cmp y x) eqn:Ec; [|by apply IH|by apply IH]. intros [= <-]. apply cmp_eq_iff in Ec as ->. done.
Qed.

Lemma bsearch_complete fuel l x lo hi i :
  StronglySorted strict l → l !! i = Some x → (lo ≤ i < hi)%nat → (hi ≤ length l)%nat → (hi - lo ≤ fuel)%nat →
  Slice.bsearch fuel l x lo hi = Some i.
Proof.
  intros Hs Hi. revert lo hi. induction fuel as [|fuel IH]; intros lo hi Hr Hh Hf; cbn [Slice.bsearch]; [lia|].
  rewrite decide_True by lia. set (mid := (lo + (hi - lo) / 2)%nat).
  assert (lo ≤ mid < hi)%nat as Hm.
  { unfold mid. pose proof (Nat.div_lt (hi - lo) 2). lia. }
  destruct (lookup_lt_is_Some_2 l mid) as [y Hy]; [lia|]. rewrite Hy.
  destruct (lt_eq_lt_dec i mid) as [[Hlt|<-]|Hgt].
  - rewrite cmp_opp, (sorted_lookup _ _ _ _ _ _ Hs Hi Hy Hlt). cbn [CompOpp]. apply IH; lia.
  - simplify_eq. by rewrite cmp_refl.
  - rewrite (sorted_lookup _ _ _ _ _ _ Hs Hy Hi Hgt). apply IH; lia.
Qed.

Lemma binary_search_spec l x i :
  StronglySorted strict l → Slice.binary_search l x = Some i ↔ l !! i = Some x.
Proof.
  intros Hs. split; [apply bsearch_sound|]. intros Hi. pose proof (lookup_lt_Some _ _ _ Hi).
  apply bsearch_complete; [done|done|lia..].
Qed.

Lemma binary_search_elem l x : StronglySorted strict l → is_Some (Slice.binary_search l x) ↔ x ∈ l.
Proof.
  intros Hs. rewrite list_elem_of_lookup. unfold is_Some. by setoid_rewrite binary_search_spec.
Qed.

(** *** Set equality *)

Lemma mark_seen_spec slice seen items :
  StronglySorted strict slice →
  match Slice.mark_seen slice seen items with
  | Some seen' => (∀ x, x ∈ items → x ∈ slice) ∧ length seen' = length seen ∧
      ∀ i, (i < length seen)%nat → seen' !! i = Some true ↔ seen !! i = Some true ∨ ∃ x, x ∈ items ∧ slice !! i = Some x
  | None => ∃ x, x ∈ items ∧ x ∉ slice
  end.
Proof.
  intros Hs. revert seen. induction items as [|y items IH]; intros seen; cbn [Slice.mark_seen].
  { split_and!; [by intros x ?%not_elem_of_nil|done|]. intros i _. split; [by left|].
    intros [?|(x & ?%not_elem_of_nil & _)]; done. }
  destruct (Slice.binary_search slice y) as [pos|] eqn:E.
  - apply binary_search_spec in E; [|done]. specialize (IH (<[pos:=true]> seen)).
    destruct (Slice.mark_seen _ _ _) as [seen'|]; [|destruct IH as (x & ? & ?); exists x; split; [by right|done]].
    destruct IH as (Hin & Hlen & Hiff). rewrite length_insert in Hlen, Hiff. split_and!; [|done|].
    + intros x [->|Hx]%elem_of_cons; [by eapply list_elem_of_lookup_2|by apply Hin].
    + intros i Hi. rewrite Hiff by done. destruct (decide (pos = i)) as [->|Hn].
      * rewrite list_lookup_insert_eq by done. split; [intros _; right; exists y; split; [by left|done]|by left].
      * rewrite list_lookup_insert_ne by done. split; (intros [?|(x & Hx & Hxi)]; [by left|]).
        -- right. exists x. split; [by right|done].
        -- apply elem_of_cons in Hx as [->|Hx]; [|by right; exists x].
           exfalso. apply Hn. apply (binary_search_spec slice y) in E, Hxi; [|done..]. congruence.
  - exists y. split; [by left|]. intros Hy. apply (binary_search_elem slice) in Hy as [i Hi]; [|done]. congruence.
Qed.

Lemma set_eq_spec slice items :
  StronglySorted strict slice → Slice.set_eq slice items = true ↔ ∀ x, x ∈ slice ↔ x ∈ items.
Proof.
  intros Hs. unfold Slice.set_eq. pose proof (mark_seen_spec slice (replicate (length slice) false) items Hs) as Hm.
  destruct (Slice.mark_seen _ _ _) as [seen|].
  - destruct Hm as (Hin & Hlen & Hiff). rewrite length_replicate in Hlen, Hiff. rewrite forallb_forall. split.
    + intros Ha x. split; [|apply Hin]. intros [i Hi]%list_elem_of_lookup.
      assert (i < length slice)%nat as Hl by (by eapply lookup_lt_Some).
      destruct (lookup_lt_is_Some_2 seen i) as [b Hb]; [lia|].
      assert (b = true) as -> by (apply (Ha b), list_elem_of_In; by eapply list_elem_of_lookup_2).
      apply Hiff in Hb as [Hb|(y & Hy & Hyi)]; [|by simplify_eq|done].
      by rewrite lookup_replicate_2 in Hb by lia.
    + intros Hset b Hb. apply list_elem_of_In, list_elem_of_lookup in Hb as [i Hi].
      assert (i < length slice)%nat as Hl by (rewrite <- Hlen; by eapply lookup_lt_Some).
      destruct (lookup_lt_is_Some_2 slice i) as [x Hx]; [done|].
      assert (seen !! i = Some true) as Ht.
      { apply Hiff; [done|]. right. exists x. split; [|done]. apply Hset. by eapply list_elem_of_lookup_2. }
      by simplify_eq.
  - split; [done|]. intros Hset. destruct Hm as (x & Hx & Hn). by apply Hset in Hx.
Qed.

Lemma from_list_inner l f :
  Filter.from_list l = Some f → of_inner f ≠ [] ∧ StronglySorted strict (of_inner f) ∧ ∀ x, x ∈ of_inner f ↔ x ∈ l.
Proof.
  destruct l as [|y l]; [done|]. cbn [Filter.from_list]. intros [= <-]. cbn [of_inner].
  assert (∀ x, x ∈ Slice.dedup (sort_by leb (y :: l)) ↔ x ∈ y :: l) as Hin.
  { intros x. by rewrite elem_of_dedup, elem_of_sort_by. }
  split_and!; [|apply dedup_sorted, (sort_by_sorted leb leb_total leb_trans (y :: l))|done].
  intros Hn. apply (not_elem_of_nil y). rewrite <- Hn. apply Hin. by left.
Qed.
End laws.

(** ** Correctness *)

(** A filter built from a list, whether backed by a vector or deduplicated in place, fails
    exactly on the empty list; it is sorted without duplicates, contains exactly the elements of the
    list, and compares equal to an iterator exactly when they have the same set of elements, never
    to the absence of a list. *)
Theorem filter_is_set {A} `{OrdLaws A} (l : list A) :
  Filter.from_slice l = Filter.from_list l ∧
  (Filter.from_list l = None ↔ l = []) ∧
  ∀ f, Filter.from_list l = Some f →
    StronglySorted (λ x y, cmp x y = Lt) (of_inner f) ∧
    (∀ x, Filter.contains f x = true ↔ x ∈ l) ∧
    (∀ k, Filter.compare_eq f (Some k) = true ↔ ∀ x, x ∈ l ↔ x ∈ k) ∧
    Filter.compare_eq f None = false.
Proof.
  split_and!.
  - unfold Filter.from_slice, Filter.from_list. destruct l; [done|]. by rewrite (proj1 (partition_dedup_spec _)).
  - by destruct l.
  - intros f Hf. apply from_list_inner in Hf as (Hne & Hs & Hin).
    assert (Filter.is_all f = false) as Hall by (unfold Filter.is_all; by destruct (of_inner f)).
    split_and!; [done| | |done].
    + intros x. unfold Filter.contains. rewrite Hall. cbn [orb].
      by rewrite bool_decide_eq_true, binary_search_elem, Hin.
    + intros k. unfold Filter.compare_eq. rewrite Hall, set_eq_spec by done. by setoid_rewrite Hin.
Qed.

Example filter_example :
  Filter.contains (default Filter.all (Filter.from_slice [3; 1; 3; 2; 1])) 2 = true ∧
  Slice.partition_dedup [1; 1; 2; 3; 3] = ([1; 2; 3], [1; 3]).
Proof. split; vm_compute; reflexivity. Qed.

Lemma filter_is_set_witness :
  ∃ f, Filter.from_list [3; 1; 3] = Some f ∧ of_inner f = [1; 3] ∧
    (∀ x, Filter.contains f x = true ↔ x ∈ [3; 1; 3]) ∧ Filter.compare_eq f None = false.
Proof.
  exists (mk_filter [1; 3]). split; [reflexivity|]. split; [reflexivity|].
  destruct (filter_is_set [3; 1; 3]) as (_ & _ & Hf).
  destruct (Hf (mk_filter [1; 3]) eq_refl) as (_ & Hc & _ & Hn). exact (conj Hc Hn).
Defined.
