(* ===== verification/Json.v ===== *)
(** * JSON values: the interface to serde_json

    The agent's code reads tool inputs out of [serde_json::Value]s, builds messages with [json!] and
    measures and stores their text. [Json] is that interface; [JsonLaws] its documented behaviour. A
    number is only ever read as an integer. [toy_json] is a concrete instance: values as a tree, and
    a text form that can be read back. *)
From S2P Require Import Prelude Text.

(** [Value::get], the [as_*] accessors, the forms of [json!] and the two conversions of text. A
    field of [jobj] holding an [Option] is the value or [null]. *)
Class Json : Type := {
  Value : Type;
  get : Value → string → option Value;
  as_str : Value → option string;
  as_u64 : Value → option Z;
  as_i64 : Value → option Z;
  as_bool : Value → option bool;
  as_array : Value → option (list Value);
  is_null : Value → bool;
  jnull : Value;
  jstr : string → Value;
  jnum : Z → Value;
  jbool : bool → Value;
  jarr : list Value → Value;
  jobj : list (string * Value) → Value;
  to_json : Value → string;
  from_json : string → result Value string
}.

(** A field of an object literal. *)
Fixpoint field {A} (k : string) (l : list (string * A)) : option A :=
  match l with
  | [] => None
  | (k', v) :: l' => if decide (k = k') then Some v else field k l'
  end.

(** [json!] of an [Option]. *)
Definition jopt {A} `{Json} (f : A → Value) (o : option A) : Value :=
  match o with Some a => f a | None => jnull end.

Class JsonLaws `{Json} : Prop := {
  get_jobj l k : NoDup l.*1 → get (jobj l) k = field k l;
  as_str_jstr s : as_str (jstr s) = Some s;
  as_str_jnull : as_str jnull = None;
  is_null_jstr s : is_null (jstr s) = false;
  is_null_jnull : is_null jnull = true;
  as_u64_jnum n : is_u64 n → as_u64 (jnum n) = Some n;
  as_u64_jnull : as_u64 jnull = None;
  as_u64_range v n : as_u64 v = Some n → is_u64 n;
  as_bool_jbool b : as_bool (jbool b) = Some b;
  as_array_jarr l : as_array (jarr l) = Some l;
  as_array_jstr s : as_array (jstr s) = None;
  from_to_json v : from_json (to_json v) = Ok v
}.

(** Reads the fields of object literals. *)
Ltac json_get :=
  repeat match goal with
    | |- context [get (jobj ?l) ?k] =>
        rewrite (get_jobj l k) by (apply (bool_decide_unpack _); vm_compute; exact I);
        let r := eval lazy -[jstr jbool jnum jopt jnull jobj jarr] in (field k l) in
        change (field k l) with r
    end.

(** The length in bytes of a value's text ([v.to_string().len()]). *)
Definition json_len `{Json} (v : Value) : nat := String.length (to_json v).

(** ** A concrete instance *)

Inductive jtree : Type :=
| JNull
| JBool (b : bool)
| JNum (z : Z)
| JStr (s : string)
| JArr (l : list jtree)
| JObj (l : list (string * jtree)).

Module ToyJson.

(** Text forms that are read back exactly: constructors as tags, sizes in unary. *)
Definition mark (n : nat) : list Ascii.ascii := replicate n (byte 1) ++ [byte 0].

Fixpoint unmark (l : list Ascii.ascii) : option (nat * list Ascii.ascii) :=
  match l with
  | [] => None
  | c :: l' => if decide (c = byte 0) then Some (O, l')
               else match unmark l' with Some (n, r) => Some (S n, r) | None => None end
  end.

Definition put_string (s : string) : list Ascii.ascii := mark (String.length s) ++ chars s.
Definition take_string (l : list Ascii.ascii) : option (string * list Ascii.ascii) :=
  match unmark l with Some (n, r) => Some (unchars (take n r), drop n r) | None => None end.

Fixpoint put_pos (p : positive) : list Ascii.ascii :=
  match p with xH => mark 0 | xO p => mark 1 ++ put_pos p | xI p => mark 2 ++ put_pos p end.

Definition put_num (z : Z) : list Ascii.ascii :=
  mark (match z with Z0 => 0 | Zpos _ => 1 | Zneg _ => 2 end)
  ++ put_pos (match z with Z0 => 1%positive | Zpos p | Zneg p => p end).

Fixpoint take_pos (fuel : nat) (l : list Ascii.ascii) : option (positive * list Ascii.ascii) :=
  match fuel with
  | O => None
  | S f =>
      match unmark l with
      | Some (0%nat, r) => Some (1%positive, r)
      | Some (1%nat, r) => match take_pos f r with Some (p, r') => Some (xO p, r') | None => None end
      | Some (_, r) => match take_pos f r with Some (p, r') => Some (xI p, r') | None => None end
      | None => None
      end
  end.

Definition take_num (l : list Ascii.ascii) : option (Z * list Ascii.ascii) :=
  match unmark l with
  | Some (t, r) =>
      match take_pos (length r) r with
      | Some (p, r') => Some (match t with 0%nat => 0 | 1%nat => Zpos p | _ => Zneg p end, r')
      | None => None
      end
  | None => None
  end.

Fixpoint put (v : jtree) : list Ascii.ascii :=
  match v with
  | JNull => mark 0
  | JBool b => mark (if b then 1 else 2)
  | JNum z => mark 3 ++ put_num z
  | JStr s => mark 4 ++ put_string s
  | JArr l => mark 5 ++ mark (length l) ++ concat (map put l)
  | JObj l => mark 6 ++ mark (length l) ++ concat (map (λ p, put_string p.1 ++ put p.2) l)
  end.

Fixpoint take_many {A} (n : nat) (f : list Ascii.ascii → option (A * list Ascii.ascii))
    (l : list Ascii.ascii) : option (list A * list Ascii.ascii) :=
  match n with
  | O => Some ([], l)
  | S n' =>
      match f l with
      | Some (x, r) => match take_many n' f r with Some (xs, r') => Some (x :: xs, r') | None => None end
      | None => None
      end
  end.

Fixpoint parse (fuel : nat) (l : list Ascii.ascii) : option (jtree * list Ascii.ascii) :=
  match fuel with
  | O => None
  | S f =>
      match unmark l with
      | Some (0%nat, r) => Some (JNull, r)
      | Some (1%nat, r) => Some (JBool true, r)
      | Some (2%nat, r) => Some (JBool false, r)
      | Some (3%nat, r) => match take_num r with Some (z, r') => Some (JNum z, r') | None => None end
      | Some (4%nat, r) => match take_string r with Some (s, r') => Some (JStr s, r') | None => None end
      | Some (5%nat, r) =>
          match unmark r with
          | Some (n, r') =>
              match take_many n (parse f) r' with Some (vs, r'') => Some (JArr vs, r'') | None => None end
          | None => None
          end
      | Some (6%nat, r) =>
          match unmark r with
          | Some (n, r') =>
              match take_many n (λ l, match take_string l with
                                      | Some (k, q) => match parse f q with
                                                       | Some (v, q') => Some ((k, v), q')
                                                       | None => None end
                                      | None => None end) r' with
              | Some (vs, r'') => Some (JObj vs, r'')
              | None => None
              end
          | None => None
          end
      | _ => None
      end
  end.
End ToyJson.

Definition int_in (lo hi : Z) (v : jtree) : option Z :=
  match v with JNum z => if (lo <=? z) && (z <? hi) then Some z else None | _ => None end.

#[export] Instance toy_json : Json := {|
  Value := jtree;
  get := λ v k, match v with JObj l => field k l | _ => None end;
  as_str := λ v, match v with JStr s => Some s | _ => None end;
  as_u64 := int_in 0 u64_limit;
  as_i64 := int_in (- i64_limit) i64_limit;
  as_bool := λ v, match v with JBool b => Some b | _ => None end;
  as_array := λ v, match v with JArr l => Some l | _ => None end;
  is_null := λ v, match v with JNull => true | _ => false end;
  jnull := JNull; jstr := JStr; jnum := JNum; jbool := JBool; jarr := JArr; jobj := JObj;
  to_json := λ v, unchars (ToyJson.put v);
  from_json := λ s, match ToyJson.parse (S (String.length s)) (chars s) with
                    | Some (v, []) => Ok v
                    | _ => Err "not JSON"
                    end
|}.

Module ToyJsonLaws.
Import ToyJson.

Lemma unmark_mark n r : unmark (mark n ++ r) = Some (n, r).
Proof.
  induction n as [|n IH]; [done|]. cbn [mark replicate app unmark].
  rewrite decide_False by done. unfold mark in IH. by rewrite IH.
Qed.

Lemma take_put_string s r : take_string (put_string s ++ r) = Some (s, r).
Proof.
  unfold take_string, put_string. rewrite <- app_assoc, unmark_mark.
  rewrite take_app_length', drop_app_length' by (symmetry; apply length_chars). by rewrite unchars_chars.
Qed.

Lemma take_put_pos p fuel r :
  (Pos.size_nat p ≤ fuel)%nat →
  take_pos fuel (put_pos p ++ r) = Some (p, r).
Proof.
  revert fuel. induction p as [p IH|p IH|]; intros [|fuel] Hf; simpl in Hf; try lia; cbn [take_pos put_pos].
  - rewrite <- app_assoc, unmark_mark, IH by lia. done.
  - rewrite <- app_assoc, unmark_mark, IH by lia. done.
  - by rewrite unmark_mark.
Qed.

Lemma pos_text_size p :
  (Pos.size_nat p ≤ length (put_pos p))%nat.
Proof. induction p as [p IH|p IH|]; cbn [Pos.size_nat put_pos]; rewrite ?length_app; cbn [length mark replicate app]; lia. Qed.

Lemma take_put_num z r : take_num (put_num z ++ r) = Some (z, r).
Proof.
  unfold take_num, put_num. rewrite <- app_assoc, unmark_mark, take_put_pos; [by destruct z|].
  rewrite length_app. etrans; [apply pos_text_size|]. lia.
Qed.

Lemma take_many_map {A} (f : list Ascii.ascii → option (A * list Ascii.ascii)) (g : A → list Ascii.ascii) l r :
  (∀ x r', x ∈ l → f (g x ++ r') = Some (x, r')) →
  take_many (length l) f (concat (map g l) ++ r) = Some (l, r).
Proof.
  induction l as [|x l IH]; intros Hf; simpl; [done|].
  rewrite <- app_assoc, Hf by left. rewrite IH; [done|]. intros y r' Hy. apply Hf. by right.
Qed.

Lemma concat_map_le {A B} (g : A → list B) l x : x ∈ l → (length (g x) ≤ length (concat (map g l)))%nat.
Proof.
  intros Hx. induction l as [|y l IH]; [by apply not_elem_of_nil in Hx|].
  apply elem_of_cons in Hx as [<-|Hx]; simpl; rewrite length_app; [lia|]. specialize (IH Hx). lia.
Qed.

Lemma parse_put fuel v r : (length (put v) < fuel)%nat → parse fuel (put v ++ r) = Some (v, r).
Proof.
  revert v r. induction fuel as [|fuel IH]; intros v r Hf; [lia|].
  destruct v as [|b|z|s|l|l]; cbn [put] in *; cbn [parse]; rewrite <- ?app_assoc, ?unmark_mark.
  - done.
  - by destruct b.
  - by rewrite take_put_num.
  - by rewrite take_put_string.
  - rewrite !length_app in Hf. cbn [mark length replicate app] in Hf.
    rewrite take_many_map; [done|]. intros x r' Hx. apply IH.
    pose proof (concat_map_le put l x Hx). lia.
  - rewrite !length_app in Hf. cbn [mark length replicate app] in Hf.
    rewrite (take_many_map _ (λ p, put_string p.1 ++ put p.2)); [done|]. intros [k x] r' Hx. cbn [fst snd].
    rewrite <- app_assoc, take_put_string, IH; [done|].
    pose proof (concat_map_le (λ p, put_string p.1 ++ put p.2) l (k, x) Hx) as Hl.
    cbn [fst snd] in Hl. rewrite length_app in Hl. lia.
Qed.
End ToyJsonLaws.

#[export] Instance toy_json_laws : JsonLaws.
Proof.
  split; intros; try done.
  - destruct H as [H1 H2]. cbn. unfold int_in. rewrite (proj2 (Z.leb_le 0 n) H1), (proj2 (Z.ltb_lt _ _) H2). done.
  - destruct v; try done. cbn in H. unfold int_in in H. destruct (_ && _) eqn:E; [|done]. injection H as <-.
    apply andb_true_iff in E as [E1%Z.leb_le E2%Z.ltb_lt]. done.
  - unfold from_json, to_json, toy_json. rewrite <- length_chars, chars_unchars.
    pose proof (ToyJsonLaws.parse_put (S (length (ToyJson.put v))) v []) as Hp.
    rewrite app_nil_r in Hp. rewrite Hp by lia. done.
Qed.
