(* ===== verification/ShareSession.v ===== *)
(** * A shared terminal session ([atuin-lab-share/src/session], [query.rs], [source.rs], [lib.rs])

    The task that owns a session: the model of the child's screen with the numbered frames made from it,
    the keystrokes and resizes of the host, the messages of the hub, and the loop over them. The clock
    (in milliseconds), the size of the window and the order of the events are inputs; the terminal
    emulator is the [vt100] crate, an interface in which a call may panic. Text printed for the host is a
    notice; a frame composed for its terminal is what it is composed from. *)
From stdpp Require Import pretty.
From S2P Require Import Prelude Text Json PtyProtocol.

(** ** Sizes *)

Record Size : Type := mk_size { cols : Z; rows : Z }.
#[export] Instance Size_eq_dec : EqDecision Size.
Proof. solve_decision. Defined.

Definition MIN_COLS : Z := 1.
Definition MIN_CHILD_ROWS : Z := 2.

(** [u16::saturating_sub] *)
Definition saturating_sub (x y : Z) : Z := Z.max 0 (x - y).

Definition clamp_host_size (c r : Z) : Size := mk_size (Z.max c MIN_COLS) (Z.max (saturating_sub r 1) MIN_CHILD_ROWS).

(** [host_size_from]: the sizes that are refused are the error. *)
Definition host_size_from (c r : Z) : result Size (Z * Z) :=
  let child_rows := saturating_sub r 1 in
  if (c <? MIN_COLS) || (child_rows <? MIN_CHILD_ROWS) then Err (c, r) else Ok (mk_size c child_rows).

(** ** Frames and messages *)

Record Frame : Type := mk_frame { f_seq : Z; f_data : list Z }.

Inductive Outbound : Type := OOutput (f : Frame) | OKeyframe (f : Frame) | OHostSize (c r : Z) | OEnd.

Inductive Inbound : Type :=
| IInput (b : list Z) | ISetSize (c r : Z) | IParticipants (n : Z) | IRequestKeyframe | IInputDisabled
| IConnected (join_url : string) (fresh_session : bool) | IDisconnected.

Inductive ReadEvent : Type := ROutput (chunk : list Z) | RResize (s : Size).

Inductive WriteMode : Type := ReadOnly | ReadWrite.
Definition is_write_enabled (w : WriteMode) : bool := match w with ReadWrite => true | ReadOnly => false end.
Definition from_flag (write : bool) : WriteMode := if write then ReadWrite else ReadOnly.

(** Standard base64 with padding ([base64] crate). *)
Class Base64 : Type := { b64_encode : list Z → string; b64_decode : string → option (list Z) }.
Class Base64Laws `{Base64} : Prop := { b64_roundtrip l : Forall (λ b, 0 ≤ b < 256) l → b64_decode (b64_encode l) = Some l }.

(** [u16::try_from], [u32::try_from] *)
Definition fit (bits : Z) (n : Z) : option Z := if (0 <=? n) && (n <? 2 ^ bits) then Some n else None.

(** [Inbound::from_event] *)
Definition from_event `{Json, Base64} (event : string) (payload : Value) : option Inbound :=
  let number k := v ← get payload k; as_u64 v in
  if decide (event = "input") then IInput <$> b64_decode (default ""%string (v ← get payload "data"; as_str v))
  else if decide (event = "set_size") then
    c ← number "cols"%string; c ← fit 16 c; r ← number "rows"%string; r ← fit 16 r; Some (ISetSize c r)
  else if decide (event = "participants") then n ← number "count"%string; n ← fit 32 n; Some (IParticipants n)
  else if decide (event = "request_keyframe") then Some IRequestKeyframe
  else None.

(** ** Answers to terminal queries *)

Definition text (s : string) : list Z := code <$> chars s.
Definition ESC : Z := 27.
Definition digit (b : Z) : bool := (48 <=? b) && (b <=? 57).

Fixpoint skip_to (c : Z) (l : list Z) : option (list Z) :=
  match l with [] => None | b :: l => if b =? c then Some l else skip_to c l end.
Fixpoint take_while (p : Z → bool) (l : list Z) : list Z * list Z :=
  match l with
  | [] => ([], [])
  | b :: l' => if p b then let '(x, y) := take_while p l' in (b :: x, y) else ([], l)
  end.

(** [u16::saturating_add] of one. *)
Definition succ16 (z : Z) : Z := Z.min (2 ^ 16 - 1) (z + 1).

Definition reply (params : list Z) (final : Z) (cursor : Z * Z) : list Z :=
  if (final =? 110) && bool_decide (params = text "6") then
    ESC :: text ("[" +:+ pretty (succ16 cursor.1) +:+ ";" +:+ pretty (succ16 cursor.2) +:+ "R")
  else if (final =? 99) && (bool_decide (params = []) || bool_decide (params = text "0")) then ESC :: text "[?6c"
  else [].

(** [query::replies]; every round takes a byte or more, so the length is enough fuel. *)
Fixpoint replies_from (fuel : nat) (chunk : list Z) (cursor : Z * Z) : list Z :=
  match fuel with
  | O => []
  | S fuel =>
      match skip_to ESC chunk with
      | Some (b :: (_ :: _) as l) =>
          if b =? 91 then
            match take_while digit l with
            | (params, final :: rest) => reply params final cursor ++ replies_from fuel rest cursor
            | (_, []) => []
            end
          else replies_from fuel (b :: l) cursor
      | _ => []
      end
  end.
Definition replies (chunk : list Z) (cursor : Z * Z) : list Z := replies_from (length chunk) chunk cursor.

(** ** The screen *)

Definition KEYFRAME_BYTES : Z := 256 * 1024.
Definition KEYFRAME_INTERVAL : Z := 5000.

(** [Screen::contents_formatted] *)
Class VtContents `{Vt100} : Type := contents_formatted : Screen → list Z.

Section screen_state.
Context `{VtContents}.

Record ScreenState : Type := mk_screen {
  parser : Screen; sc_size : Size; next_seq : Z; want_keyframe : bool; last_keyframe : Z; bytes_since_keyframe : Z
}.

Definition clamp (s : Size) : Size := mk_size (Z.max (cols s) MIN_COLS) (Z.max (rows s) MIN_CHILD_ROWS).

(** [keyframe_bytes] *)
Definition keyframe_bytes (g : Screen) : list Z := contents_formatted g.

(** [ScreenState::new] *)
Definition screen_new (now : Z) (size : Size) : ScreenState :=
  let size := clamp size in mk_screen (vt_new (rows size) (cols size)) size 1 true now 0.

(** [ScreenState::vt100_guarded]: a panic leaves a blank screen and asks for a keyframe. *)
Definition screen_guarded (op : Screen → option Screen) (s : ScreenState) : ScreenState :=
  match op (parser s) with
  | Some g => mk_screen g (sc_size s) (next_seq s) (want_keyframe s) (last_keyframe s) (bytes_since_keyframe s)
  | None => mk_screen (vt_new (rows (sc_size s)) (cols (sc_size s))) (sc_size s) (next_seq s) true (last_keyframe s) (bytes_since_keyframe s)
  end.

(** [ScreenState::emit_keyframe] *)
Definition emit_keyframe (now : Z) (s : ScreenState) : ScreenState * Frame :=
  (mk_screen (parser s) (sc_size s) (next_seq s + 1) false now 0, mk_frame (next_seq s) (keyframe_bytes (parser s))).

Definition keyframe_overdue (now : Z) (s : ScreenState) : bool := KEYFRAME_INTERVAL <=? now - last_keyframe s.
Definition keyframe_due (now : Z) (s : ScreenState) : bool := want_keyframe s || keyframe_overdue now s.

(** [ScreenState::process_chunk] *)
Definition process_chunk (now : Z) (chunk : list Z) (s : ScreenState) : ScreenState * (Frame * option Frame * list Z) :=
  let bytes := bytes_since_keyframe s + Z.of_nat (length chunk) in
  let want := want_keyframe s || (KEYFRAME_BYTES <=? bytes) || keyframe_overdue now s in
  let s := mk_screen (parser s) (sc_size s) (next_seq s) want (last_keyframe s) bytes in
  let s := screen_guarded (vt_process chunk) s in
  let output := mk_frame (next_seq s) chunk in
  let s := mk_screen (parser s) (sc_size s) (next_seq s + 1) (want_keyframe s) (last_keyframe s) (bytes_since_keyframe s) in
  let '(s, keyframe) := if want_keyframe s then let '(s, f) := emit_keyframe now s in (s, Some f) else (s, None) in
  (s, (output, keyframe, replies chunk (vt_cursor (parser s)))).

(** [ScreenState::set_size] *)
Definition screen_set_size (now : Z) (size : Size) (s : ScreenState) : ScreenState * Frame :=
  let size := clamp size in
  let s := mk_screen (parser s) size (next_seq s) (want_keyframe s) (last_keyframe s) (bytes_since_keyframe s) in
  emit_keyframe now (screen_guarded (vt_set_size (rows size) (cols size)) s).

(** ** The session *)

Inductive ResizeSource : Type := HostWindow | Hub.

(** What the host is told. *)
Inductive Notice : Type := NInputDisabled | NResized (s : string) | NShared (url : string) | NReconnected (url : string) | NSink (url : string).

(** [resize_notice] *)
Definition resize_notice (previous applied : Size) (viewers : Z) : option string :=
  if decide (applied = previous) then None
  else
    let dims := pretty (cols applied) +:+ "x" +:+ pretty (rows applied) in
    Some (if viewers =? 0 then "resized to " +:+ dims else "resized to " +:+ dims +:+ " -- a viewer's screen is smaller").

(** What a frame for the host's terminal is composed from. *)
Record HostFrame : Type := mk_host_frame {
  hf_avail : Size; hf_screen : Screen; hf_child : Size; hf_viewers : Z; hf_write : WriteMode; hf_input_disabled : bool
}.

Definition PTY_WRITE_CHANNEL_CAP : nat := 32.
Definition KILL_SWITCH_BYTE : Z := 28.

(** [SessionTask]: [child_q] is the channel to the writer of the terminal, [applied] the sizes that were
    given to the resizer, [frame] the channel of composed frames (none when headless). *)
Record SessionTask : Type := mk_task {
  screen : ScreenState; child_q : list (list Z); child_open : bool; applied : list Size; out : list Outbound;
  write_mode : WriteMode; answer_queries : bool; follows_hub_resize : bool; physical : Size; child : Size; viewers : Z;
  input_disabled : bool; dirty : bool; frame : option (option HostFrame); url_sink : bool; notices : list Notice
}.

Definition with_screen (t : SessionTask) (s : ScreenState) : SessionTask :=
  mk_task s (child_q t) (child_open t) (applied t) (out t) (write_mode t) (answer_queries t) (follows_hub_resize t) (physical t) (child t)
    (viewers t) (input_disabled t) (dirty t) (frame t) (url_sink t) (notices t).
Definition send (o : Outbound) (t : SessionTask) : SessionTask :=
  mk_task (screen t) (child_q t) (child_open t) (applied t) (out t ++ [o]) (write_mode t) (answer_queries t) (follows_hub_resize t) (physical t)
    (child t) (viewers t) (input_disabled t) (dirty t) (frame t) (url_sink t) (notices t).
Definition with_dirty (d : bool) (t : SessionTask) : SessionTask :=
  mk_task (screen t) (child_q t) (child_open t) (applied t) (out t) (write_mode t) (answer_queries t) (follows_hub_resize t) (physical t)
    (child t) (viewers t) (input_disabled t) d (frame t) (url_sink t) (notices t).
Definition notice (n : Notice) (t : SessionTask) : SessionTask :=
  mk_task (screen t) (child_q t) (child_open t) (applied t) (out t) (write_mode t) (answer_queries t) (follows_hub_resize t) (physical t)
    (child t) (viewers t) (input_disabled t) (dirty t) (frame t) (url_sink t) (notices t ++ [n]).
Definition with_physical (p : Size) (t : SessionTask) : SessionTask :=
  mk_task (screen t) (child_q t) (child_open t) (applied t) (out t) (write_mode t) (answer_queries t) (follows_hub_resize t) p
    (child t) (viewers t) (input_disabled t) (dirty t) (frame t) (url_sink t) (notices t).
Definition resized (c : Size) (t : SessionTask) : SessionTask :=
  mk_task (screen t) (child_q t) (child_open t) (applied t ++ [c]) (out t) (write_mode t) (answer_queries t) (follows_hub_resize t) (physical t)
    c (viewers t) (input_disabled t) (dirty t) (frame t) (url_sink t) (notices t).
Definition with_viewers (n : Z) (t : SessionTask) : SessionTask :=
  mk_task (screen t) (child_q t) (child_open t) (applied t) (out t) (write_mode t) (answer_queries t) (follows_hub_resize t) (physical t)
    (child t) n (input_disabled t) (dirty t) (frame t) (url_sink t) (notices t).
Definition disable_input (t : SessionTask) : SessionTask :=
  mk_task (screen t) (child_q t) (child_open t) (applied t) (out t) (write_mode t) (answer_queries t) (follows_hub_resize t) (physical t)
    (child t) (viewers t) true (dirty t) (frame t) (url_sink t) (notices t).
Definition with_frame (f : option (option HostFrame)) (t : SessionTask) : SessionTask :=
  mk_task (screen t) (child_q t) (child_open t) (applied t) (out t) (write_mode t) (answer_queries t) (follows_hub_resize t) (physical t)
    (child t) (viewers t) (input_disabled t) (dirty t) f (url_sink t) (notices t).
Definition with_child_q (q : list (list Z)) (t : SessionTask) : SessionTask :=
  mk_task (screen t) q (child_open t) (applied t) (out t) (write_mode t) (answer_queries t) (follows_hub_resize t) (physical t)
    (child t) (viewers t) (input_disabled t) (dirty t) (frame t) (url_sink t) (notices t).

(** [forward_to_child]: [try_send] on a channel that may be full or closed. *)
Definition forward_to_child (bytes : list Z) (t : SessionTask) : SessionTask :=
  if child_open t && (length (child_q t) <? PTY_WRITE_CHANNEL_CAP)%nat then with_child_q (child_q t ++ [bytes]) t else t.

(** [handle_pty_chunk] *)
Definition handle_pty_chunk (now : Z) (chunk : list Z) (t : SessionTask) : SessionTask :=
  let '(s, (output, keyframe, replies)) := process_chunk now chunk (screen t) in
  let t := send (OOutput output) (with_screen t s) in
  let t := match keyframe with Some k => send (OKeyframe k) t | None => t end in
  let t := if answer_queries t && negb (bool_decide (replies = [])) then forward_to_child replies t else t in
  with_dirty true t.

(** [handle_stdin_chunk]: true when the kill switch was pressed. *)
Fixpoint position (b : Z) (l : list Z) : option nat :=
  match l with [] => None | c :: l => if c =? b then Some O else S <$> position b l end.
Definition handle_stdin_chunk (chunk : list Z) (t : SessionTask) : SessionTask * bool :=
  match position KILL_SWITCH_BYTE chunk with
  | Some pos =>
      let t := if (0 <? pos)%nat then forward_to_child (take pos chunk) t else t in
      (send OEnd t, true)
  | None => (forward_to_child chunk t, false)
  end.

(** [clamp_child] *)
Definition clamp_child (want : Size) (t : SessionTask) : Size :=
  mk_size (Z.max (Z.min (cols want) (cols (physical t))) MIN_COLS) (Z.max (Z.min (rows want) (rows (physical t))) MIN_CHILD_ROWS).

(** [apply_resize] *)
Definition apply_resize (now : Z) (want : Size) (source : ResizeSource) (t : SessionTask) : SessionTask :=
  let clamped := clamp_child want t in
  let previous := child t in
  let t := resized clamped t in
  let '(s, keyframe) := screen_set_size now clamped (screen t) in
  let t := with_dirty true (send (OKeyframe keyframe) (with_screen t s)) in
  match source with
  | HostWindow => send (OHostSize (cols (physical t)) (rows (physical t))) t
  | Hub =>
      match frame t, resize_notice previous clamped (viewers t) with
      | Some _, Some n => notice (NResized n) t
      | _, _ => t
      end
  end.

(** [handle_request_keyframe] *)
Definition handle_request_keyframe (now : Z) (t : SessionTask) : SessionTask :=
  let '(s, k) := emit_keyframe now (screen t) in send (OKeyframe k) (with_screen t s).

(** [handle_connected] *)
Definition handle_connected (now : Z) (url : string) (fresh : bool) (t : SessionTask) : SessionTask :=
  let t := notice (if url_sink t then NSink url else if fresh then NReconnected url else NShared url) t in
  with_dirty true (handle_request_keyframe now t).

(** [handle_input_disabled] *)
Definition handle_input_disabled (t : SessionTask) : SessionTask :=
  if input_disabled t then t else notice NInputDisabled (with_dirty true (disable_input t)).

(** [handle_inbound], with [handle_input], [handle_participants] and [handle_disconnected]. *)
Definition handle_inbound (now : Z) (msg : Inbound) (t : SessionTask) : SessionTask :=
  match msg with
  | IInput bytes => if is_write_enabled (write_mode t) then forward_to_child bytes t else t
  | ISetSize c r => if follows_hub_resize t then apply_resize now (mk_size c r) Hub t else t
  | IParticipants n => with_dirty true (with_viewers n t)
  | IRequestKeyframe => handle_request_keyframe now t
  | IInputDisabled => handle_input_disabled t
  | IConnected url fresh => handle_connected now url fresh t
  | IDisconnected => with_dirty true t
  end.

(** [apply_host_window], [handle_source_resize] *)
Definition apply_host_window (now : Z) (c r : Z) (t : SessionTask) : SessionTask :=
  let t := with_physical (clamp_host_size c r) t in apply_resize now (child t) HostWindow t.
Definition handle_source_resize (now : Z) (size : Size) (t : SessionTask) : SessionTask :=
  apply_resize now size HostWindow (with_physical size t).

(** [service_keyframes] *)
Definition service_keyframes (now : Z) (t : SessionTask) : SessionTask :=
  if keyframe_due now (screen t) then handle_request_keyframe now t else t.

(** [render_if_dirty]: the channel holds one frame. *)
Definition render_if_dirty (t : SessionTask) : SessionTask :=
  match frame t with
  | None => t
  | Some slot =>
      if negb (dirty t) then t
      else
        match slot with
        | None => with_dirty false (with_frame (Some (Some (mk_host_frame (physical t) (parser (screen t)) (child t) (viewers t) (write_mode t) (input_disabled t)))) t)
        | Some _ => with_dirty true t
        end
  end.

(** What the loop of [Session::run] may find ready: an event of the reader, keystrokes, a message of the
    hub, a change of the window, a tick, or an item taken by the threads that write. *)
Inductive Ready : Type :=
| ARead (e : ReadEvent) | AStdin (chunk : list Z) | AHub (msg : Inbound) | AWinch (size : option (Z * Z))
| AKeyframeTick | ARenderTick | AChildTakes | AFrameTaken.

Definition handle_read (now : Z) (e : ReadEvent) (t : SessionTask) : SessionTask :=
  match e with ROutput chunk => handle_pty_chunk now chunk t | RResize size => handle_source_resize now size t end.

(** One round of the loop; true when it ends with the kill switch. *)
Definition round (now : Z) (a : Ready) (t : SessionTask) : SessionTask * bool :=
  match a with
  | ARead e => (handle_read now e t, false)
  | AStdin chunk => handle_stdin_chunk chunk t
  | AHub msg => (handle_inbound now msg t, false)
  | AWinch (Some (c, r)) => (apply_host_window now c r t, false)
  | AWinch None => (t, false)
  | AKeyframeTick => (service_keyframes now t, false)
  | ARenderTick => (render_if_dirty t, false)
  | AChildTakes => (with_child_q (tail (child_q t)) t, false)
  | AFrameTaken => (with_frame (match frame t with Some _ => Some None | None => None end) t, false)
  end.

Fixpoint rounds (evs : list (Z * Ready)) (t : SessionTask) : SessionTask * bool :=
  match evs with
  | [] => (t, false)
  | (now, a) :: evs => match round now a t with (t, true) => (t, true) | (t, false) => rounds evs t end
  end.

(** The task as [Session::run] starts it: the size is announced first, then what was on the screen. *)
Definition task_new (now : Z) (physical : Size) (write : WriteMode) (answers follows headless sink : bool) (bootstrap : option (list Z)) : SessionTask :=
  let t := mk_task (screen_new now physical) [] true [] [OHostSize (cols physical) (rows physical)] write answers follows physical physical 0 false true
             (if headless then None else Some None) sink [] in
  match bootstrap with Some chunk => handle_pty_chunk now chunk t | None => t end.

(** The teardown: after an exit of the child what the reader had queued is handled, and the end is sent. *)
Definition teardown (exited : bool) (now : Z) (queued : list ReadEvent) (t : SessionTask) : SessionTask :=
  send OEnd (if exited then render_if_dirty (foldl (λ t e, handle_read now e t) t queued) else t).
End screen_state.

(** ** Frames and the screen that they show *)

Section frames.
Context `{VtContents}.

(** What happens to the terminal: output is processed, or it is resized. *)
Inductive GridOp : Type := GProcess (chunk : list Z) | GResize (s : Size).

Definition blank (s : Size) : Screen := vt_new (rows s) (cols s).
Definition grid_op (x : Screen * Size) (op : GridOp) : Screen * Size :=
  match op with
  | GProcess chunk => (default (blank x.2) (vt_process chunk x.1), x.2)
  | GResize s => let s := clamp s in (default (blank s) (vt_set_size (rows s) (cols s) x.1), s)
  end.
Definition reach (p : Size) (ops : list GridOp) : Screen * Size := foldl grid_op (blank (clamp p), clamp p) ops.

Definition op_output (op : GridOp) : option (list Z) := match op with GProcess c => Some c | GResize _ => None end.
Definition out_output (o : Outbound) : option (list Z) := match o with OOutput f => Some (f_data f) | _ => None end.
Definition out_frame (o : Outbound) : option Frame := match o with OOutput f | OKeyframe f => Some f | _ => None end.

(** The frames are numbered from one without a gap, the screen is that of the output sent so far, and so
    is the screen of every keyframe of the output sent before it. *)
Record Traced (p : Size) (s : ScreenState) (o : list Outbound) : Prop := mk_traced {
  tr_seq : f_seq <$> omap out_frame o = seqZ 1 (next_seq s - 1);
  tr_pos : 1 ≤ next_seq s;
  tr_screen : ∃ ops, reach p ops = (parser s, sc_size s) ∧ omap op_output ops = omap out_output o;
  tr_keyframes : ∀ o1 f o2, o = o1 ++ OKeyframe f :: o2 →
    ∃ ops, omap op_output ops = omap out_output o1 ∧ f_data f = keyframe_bytes (reach p ops).1
}.

Lemma seq_snoc (l : list Z) n x : l = seqZ 1 (n - 1) → 1 ≤ n → x = n → l ++ [x] = seqZ 1 (n + 1 - 1).
Proof.
  intros -> Hn ->. replace (n + 1 - 1) with ((n - 1) + 1) by lia. rewrite seqZ_app by lia. f_equal.
  replace (1 + (n - 1)) with n by lia. reflexivity.
Qed.

Lemma snoc_split {A} (l l1 l2 : list A) x y : l ++ [x] = l1 ++ y :: l2 → (l2 = [] ∧ l1 = l ∧ y = x) ∨ ∃ l2', l2 = l2' ++ [x] ∧ l = l1 ++ y :: l2'.
Proof.
  destruct l2 as [|z l2' _] using rev_ind; intros E.
  - apply app_inj_tail in E as [-> ->]. by left.
  - right. exists l2'. change (l1 ++ y :: l2' ++ [z]) with (l1 ++ (y :: l2') ++ [z]) in E. rewrite app_assoc in E. apply app_inj_tail in E as [-> ->]. done.
Qed.

Lemma traced_other p s o x : Traced p s o → out_frame x = None → Traced p s (o ++ [x]).
Proof.
  intros [H1 H2 H3 H4] Hx. assert (omap out_output [x] = []) as Ho by (by destruct x). split.
  - rewrite omap_app. cbn. by rewrite Hx, app_nil_r.
  - done.
  - by rewrite omap_app, Ho, app_nil_r.
  - intros o1 f o2 [(-> & -> & <-)|(o2' & -> & E)]%snoc_split; [done|]. by eapply H4.
Qed.

Lemma traced_emit p now s o : Traced p s o → Traced p (emit_keyframe now s).1 (o ++ [OKeyframe (emit_keyframe now s).2]).
Proof.
  intros [H1 H2 (ops & Hr & Ho) H4]. unfold emit_keyframe. cbn [fst snd]. split; cbn [next_seq parser sc_size].
  - rewrite omap_app, fmap_app. cbn. by apply seq_snoc.
  - lia.
  - exists ops. split; [done|]. by rewrite omap_app, Ho, app_nil_r.
  - intros o1 f o2 [(-> & -> & [= ->])|(o2' & -> & E)]%snoc_split; [|by eapply H4]. exists ops. split; [done|]. cbn. by rewrite Hr.
Qed.

Lemma traced_same p s s' o :
  parser s' = parser s → sc_size s' = sc_size s → next_seq s' = next_seq s → Traced p s o → Traced p s' o.
Proof. intros E1 E2 E3 [H1 H2 H3 H4]. split; [by rewrite E3|by rewrite E3|by rewrite E1, E2|done]. Qed.

Lemma guarded_parser op s :
  parser (screen_guarded op s) = default (blank (sc_size s)) (op (parser s)) ∧ sc_size (screen_guarded op s) = sc_size s ∧
  next_seq (screen_guarded op s) = next_seq s.
Proof. unfold screen_guarded. by destruct (op (parser s)). Qed.

Lemma traced_process p now chunk s o :
  Traced p s o →
  let '(s', (output, keyframe, _)) := process_chunk now chunk s in
  Traced p s' (o ++ OOutput output :: match keyframe with Some k => [OKeyframe k] | None => [] end).
Proof.
  intros [H1 H2 (ops & Hr & Ho) H4]. unfold process_chunk. set (s0 := mk_screen (parser s) _ _ _ _ _).
  destruct (guarded_parser (vt_process chunk) s0) as (Ep & Es & En). set (s1 := screen_guarded _ s0) in *.
  set (s2 := mk_screen (parser s1) (sc_size s1) (next_seq s1 + 1) _ _ _). set (output := mk_frame (next_seq s1) chunk).
  assert (Traced p s2 (o ++ [OOutput output])) as Ht.
  { subst s2. split; cbn [next_seq parser sc_size].
    - rewrite omap_app, fmap_app. cbn. rewrite En. cbn. by apply seq_snoc.
    - rewrite En. cbn. lia.
    - exists (ops ++ [GProcess chunk]). unfold reach. rewrite foldl_app. fold (reach p ops). rewrite Hr. cbn [foldl grid_op fst snd].
      split; [by rewrite Ep, Es|]. by rewrite !omap_app, Ho.
    - intros o1 f o2 [(-> & -> & [=])|(o2' & -> & E)]%snoc_split. by eapply H4. }
  destruct (want_keyframe s2).
  - pose proof (traced_emit p now s2 _ Ht) as He. destruct (emit_keyframe now s2) as [s3 f]. cbn [fst snd] in He. by rewrite <- app_assoc in He.
  - exact Ht.
Qed.

Lemma traced_set_size p now size s o :
  Traced p s o → Traced p (screen_set_size now size s).1 (o ++ [OKeyframe (screen_set_size now size s).2]).
Proof.
  intros [H1 H2 (ops & Hr & Ho) H4]. unfold screen_set_size. apply traced_emit. set (s0 := mk_screen (parser s) _ _ _ _ _).
  destruct (guarded_parser (vt_set_size (rows (clamp size)) (cols (clamp size))) s0) as (Ep & Es & En). split.
  - by rewrite En.
  - by rewrite En.
  - exists (ops ++ [GResize size]). unfold reach. rewrite foldl_app. fold (reach p ops). rewrite Hr. cbn [foldl grid_op fst snd]. split.
    + by rewrite Ep, Es.
    + by rewrite omap_app, app_nil_r.
  - done.
Qed.

Definition TaskTraced (p : Size) (t : SessionTask) : Prop := Traced p (screen t) (out t).

Lemma forward_traced p b t : TaskTraced p t → TaskTraced p (forward_to_child b t).
Proof. unfold forward_to_child. by destruct (_ && _). Qed.

Lemma pty_chunk_traced p now chunk t : TaskTraced p t → TaskTraced p (handle_pty_chunk now chunk t).
Proof.
  intros Ht. unfold handle_pty_chunk. pose proof (traced_process p now chunk _ _ Ht) as Hp.
  destruct (process_chunk now chunk (screen t)) as [s [[output keyframe] rep]].
  match goal with |- TaskTraced p (with_dirty _ (if ?c then forward_to_child ?r ?t1 else _)) => assert (TaskTraced p t1) as H1; [|destruct c; [exact (forward_traced p r t1 H1)|exact H1]] end.
  unfold TaskTraced. destruct keyframe; cbn [send with_screen screen out]; [by rewrite <- app_assoc|exact Hp].
Qed.

Lemma resize_traced p now want src t : TaskTraced p t → TaskTraced p (apply_resize now want src t).
Proof.
  intros Ht. unfold apply_resize. pose proof (traced_set_size p now (clamp_child want t) _ _ Ht) as Hs. cbn [resized screen].
  destruct (screen_set_size now (clamp_child want t) (screen t)) as [s k]. destruct src; cbn [fst snd] in Hs.
  - unfold TaskTraced. cbn. by apply traced_other.
  - cbn. destruct (frame t); [destruct (resize_notice _ _ _)|]; exact Hs.
Qed.

Lemma request_traced p now t : TaskTraced p t → TaskTraced p (handle_request_keyframe now t).
Proof.
  intros Ht. unfold handle_request_keyframe. pose proof (traced_emit p now _ _ Ht) as He. by destruct (emit_keyframe now (screen t)).
Qed.

Lemma read_traced p now e t : TaskTraced p t → TaskTraced p (handle_read now e t).
Proof. destruct e as [c|z]; intros Ht; cbn [handle_read]; [by apply pty_chunk_traced|]. exact (resize_traced p now z HostWindow (with_physical z t) Ht). Qed.

Lemma inbound_traced p now msg t : TaskTraced p t → TaskTraced p (handle_inbound now msg t).
Proof.
  intros Ht. destruct msg; cbn [handle_inbound].
  - destruct (is_write_enabled _); [by apply forward_traced|done].
  - destruct (follows_hub_resize t); [by apply resize_traced|done].
  - done.
  - by apply request_traced.
  - unfold handle_input_disabled. by destruct (input_disabled t).
  - unfold handle_connected. match goal with |- context [notice ?n t] => exact (request_traced p now (notice n t) Ht) end.
  - done.
Qed.

Lemma render_traced p t : TaskTraced p t → TaskTraced p (render_if_dirty t).
Proof. intros Ht. unfold render_if_dirty. destruct (frame t) as [[f|]|]; [|destruct (negb _); done|done]. by destruct (negb _). Qed.

Lemma round_traced p now a t : TaskTraced p t → TaskTraced p (round now a t).1.
Proof.
  intros Ht. destruct a as [e|chunk|msg|[[c r]|]| | | |]; cbn [round fst].
  - by apply read_traced.
  - unfold handle_stdin_chunk. destruct (position _ _) as [n|]; cbn [fst]; [|by apply forward_traced].
    destruct (0 <? n)%nat; (apply traced_other; [|done]); [exact (forward_traced p _ t Ht)|exact Ht].
  - by apply inbound_traced.
  - exact (resize_traced p now (child t) HostWindow (with_physical _ t) Ht).
  - done.
  - unfold service_keyframes. destruct (keyframe_due _ _); [by apply request_traced|done].
  - by apply render_traced.
  - done.
  - done.
Qed.

Lemma rounds_traced p evs t : TaskTraced p t → TaskTraced p (rounds evs t).1.
Proof.
  revert t. induction evs as [|[now a] evs IH]; intros t Ht; [done|]. cbn [rounds]. pose proof (round_traced p now a t Ht) as Hr.
  destruct (round now a t) as [t' []]; [done|by apply IH].
Qed.

Lemma task_new_traced now p w a f h s b : TaskTraced p (task_new now p w a f h s b).
Proof.
  unfold task_new. set (t := mk_task _ _ _ _ _ _ _ _ _ _ _ _ _ _ _ _). assert (TaskTraced p t) as Ht; [|destruct b; [by apply pty_chunk_traced|done]].
  split; [done|cbn; lia|by exists []|]. intros o1 f0 o2 E. destruct o1 as [|x o1]; [done|]. injection E as _ E. by destruct o1.
Qed.

(** C30: whatever happens in a session, the frames it sends are numbered one after the other, and every
    keyframe shows the screen of exactly the output that was sent before it, also over resizes and over
    panics of the emulator. *)
Theorem keyframes_show_what_was_sent now p w a f h s b evs exited queued :
  let t := teardown exited now queued (rounds evs (task_new now p w a f h s b)).1 in
  f_seq <$> omap out_frame (out t) = seqZ 1 (Z.of_nat (length (omap out_frame (out t)))) ∧
  last (out t) = Some OEnd ∧
  ∀ o1 k o2, out t = o1 ++ OKeyframe k :: o2 →
    ∃ ops, omap op_output ops = omap out_output o1 ∧ f_data k = keyframe_bytes (reach p ops).1.
Proof.
  intros t. pose proof (rounds_traced p evs _ (task_new_traced now p w a f h s b)) as Ht.
  set (t0 := (rounds _ _).1) in *.
  assert (TaskTraced p (if exited then render_if_dirty (foldl (λ t e, handle_read now e t) t0 queued) else t0)) as Hd.
  { destruct exited; [|done]. apply render_traced. revert Ht. generalize t0. induction queued as [|e q IH]; intros t1 Ht; [done|]. cbn [foldl]. by apply IH, read_traced. }
  assert (TaskTraced p t) as [H1 H2 H3 H4] by (unfold t, teardown, TaskTraced; cbn; by apply traced_other).
  split_and!.
  - rewrite H1. f_equal. pose proof (f_equal length H1) as El. rewrite length_fmap, length_seqZ in El. lia.
  - unfold t, teardown. cbn. by rewrite last_snoc.
  - exact H4.
Qed.

(** *** The kill switch *)

Lemma position_spec b l :
  match position b l with Some n => l = take n l ++ b :: drop (S n) l ∧ b ∉ take n l | None => b ∉ l end.
Proof.
  induction l as [|c l IH]; cbn; [apply not_elem_of_nil|]. destruct (Z.eqb_spec c b) as [->|Hne]; [split; [by rewrite drop_0|apply not_elem_of_nil]|].
  destruct (position b l) as [n|]; cbn.
  - destruct IH as [IH1 IH2]. split; [by f_equal|]. apply not_elem_of_cons. split; [congruence|done].
  - apply not_elem_of_cons. split; [congruence|done].
Qed.

(** The kill switch ends the session, announces the end to the hub, and lets through what was typed
    before it and nothing after. *)
Theorem kill_switch_ends now before after evs t :
  KILL_SWITCH_BYTE ∉ before → before ≠ [] → child_open t = true → (length (child_q t) < PTY_WRITE_CHANNEL_CAP)%nat →
  let r := rounds ((now, AStdin (before ++ KILL_SWITCH_BYTE :: after)) :: evs) t in
  r.2 = true ∧ child_q r.1 = child_q t ++ [before] ∧ out r.1 = out t ++ [OEnd].
Proof.
  intros Hb Hne Ho Hl. cbn [rounds round]. unfold handle_stdin_chunk. pose proof (position_spec KILL_SWITCH_BYTE (before ++ KILL_SWITCH_BYTE :: after)) as Hp.
  destruct (position _ _) as [n|].
  2:{ exfalso. apply Hp, elem_of_app. right. left. }
  destruct Hp as [E Hn]. assert (take n (before ++ KILL_SWITCH_BYTE :: after) = before) as Et.
  { revert E Hn. generalize (take n (before ++ KILL_SWITCH_BYTE :: after)) (drop (S n) (before ++ KILL_SWITCH_BYTE :: after)). clear -Hb.
    induction before as [|x l IH]; intros [|y l'] r E Hn; cbn in E.
    - done.
    - injection E as Ey _. apply not_elem_of_cons in Hn as [Hn _]. done.
    - injection E as Ey _. apply not_elem_of_cons in Hb as [Hb _]. done.
    - injection E as -> E. apply not_elem_of_cons in Hb as [_ Hb], Hn as [_ Hn]. f_equal. by eapply IH. }
  rewrite Et. destruct (0 <? n)%nat eqn:E0.
  - unfold forward_to_child. rewrite Ho, (proj2 (Nat.ltb_lt _ _)) by done. cbn. done.
  - apply Nat.ltb_ge in E0. assert (n = O) as -> by lia. cbn in Et. by subst.
Qed.

(** *** Sizes *)

Record SizesOk (t : SessionTask) : Prop := mk_sizes_ok {
  so_screen : MIN_COLS ≤ cols (sc_size (screen t)) ∧ MIN_CHILD_ROWS ≤ rows (sc_size (screen t));
  so_applied : Forall (λ c, MIN_COLS ≤ cols c ∧ MIN_CHILD_ROWS ≤ rows c) (applied t);
  so_child : cols (child t) ≤ Z.max (cols (physical t)) MIN_COLS ∧ rows (child t) ≤ Z.max (rows (physical t)) MIN_CHILD_ROWS
}.

(** A step that changes none of the sizes. *)
Lemma sizes_same t t' :
  sc_size (screen t') = sc_size (screen t) → applied t' = applied t → child t' = child t → physical t' = physical t → SizesOk t → SizesOk t'.
Proof. intros E1 E2 E3 E4 [H1 H2 H3]. split; [by rewrite E1|by rewrite E2|by rewrite E3, E4]. Qed.

Lemma process_size now chunk s : sc_size (process_chunk now chunk s).1 = sc_size s.
Proof.
  unfold process_chunk. match goal with |- context [screen_guarded ?op ?s0] => destruct (guarded_parser op s0) as (_ & Es & _); set (s1 := screen_guarded op s0) in * end.
  cbn [want_keyframe]. destruct (want_keyframe s1); cbn; exact Es.
Qed.

Lemma sizes_forward b t : SizesOk t → SizesOk (forward_to_child b t).
Proof. unfold forward_to_child. destruct (_ && _); [|done]. by apply sizes_same. Qed.

Lemma sizes_chunk now chunk t : SizesOk t → SizesOk (handle_pty_chunk now chunk t).
Proof.
  intros Ht. unfold handle_pty_chunk. pose proof (process_size now chunk (screen t)) as Es.
  destruct (process_chunk now chunk (screen t)) as [s' [[output keyframe] rep]]. cbn [fst] in Es.
  apply (sizes_same t); [..|done]; destruct keyframe; cbn [send with_screen answer_queries]; destruct (_ && _); unfold forward_to_child; try destruct (_ && _); done.
Qed.

Lemma sizes_resize now want src t :
  Forall (λ c, MIN_COLS ≤ cols c ∧ MIN_CHILD_ROWS ≤ rows c) (applied t) → SizesOk (apply_resize now want src t).
Proof.
  intros Ha. unfold apply_resize. cbn [resized screen].
  assert (sc_size (screen_set_size now (clamp_child want t) (screen t)).1 = clamp (clamp_child want t)) as Es.
  { unfold screen_set_size. cbn [emit_keyframe fst sc_size]. by match goal with |- context [screen_guarded ?op ?s0] => destruct (guarded_parser op s0) as (_ & -> & _) end. }
  destruct (screen_set_size now (clamp_child want t) (screen t)) as [s' k]. cbn [fst] in Es.
  assert (Forall (λ c, MIN_COLS ≤ cols c ∧ MIN_CHILD_ROWS ≤ rows c) (applied t ++ [clamp_child want t])) as Ha'.
  { apply Forall_app. split; [done|]. repeat constructor; unfold clamp_child; cbn; lia. }
  destruct src; cbn; repeat case_match; (split; cbn; [rewrite Es; unfold clamp, clamp_child; cbn; lia|exact Ha'|unfold clamp_child; cbn; lia]).
Qed.

Lemma sizes_request now t : SizesOk t → SizesOk (handle_request_keyframe now t).
Proof. by apply sizes_same. Qed.

Lemma sizes_inbound now msg t : SizesOk t → SizesOk (handle_inbound now msg t).
Proof.
  intros Ht. destruct msg; cbn [handle_inbound].
  - destruct (is_write_enabled _); [by apply sizes_forward|done].
  - destruct (follows_hub_resize t); [apply sizes_resize, Ht|done].
  - by apply (sizes_same t).
  - by apply sizes_request.
  - unfold handle_input_disabled. destruct (input_disabled t); [done|by apply (sizes_same t)].
  - by apply (sizes_same t).
  - by apply (sizes_same t).
Qed.

Lemma sizes_round now a t : SizesOk t → SizesOk (round now a t).1.
Proof.
  intros Ht. destruct a as [[c|z]|chunk|msg|[[c r]|]| | | |]; cbn [round handle_read fst].
  - by apply sizes_chunk.
  - apply sizes_resize, Ht.
  - unfold handle_stdin_chunk. destruct (position _ _) as [n|]; cbn [fst]; [|by apply sizes_forward].
    apply (sizes_same (if (0 <? n)%nat then forward_to_child (take n chunk) t else t)); [done..|]. destruct (0 <? n)%nat; [by apply sizes_forward|done].
  - by apply sizes_inbound.
  - apply sizes_resize, Ht.
  - done.
  - unfold service_keyframes. destruct (keyframe_due _ _); [by apply sizes_request|done].
  - unfold render_if_dirty. destruct (frame t) as [[x|]|]; [|destruct (negb _); [done|by apply (sizes_same t)]|done]. destruct (negb _); [done|by apply (sizes_same t)].
  - by apply (sizes_same t).
  - by apply (sizes_same t).
Qed.

Lemma sizes_rounds evs t : SizesOk t → SizesOk (rounds evs t).1.
Proof.
  revert t. induction evs as [|[now a] evs IH]; intros t Ht; [done|]. cbn [rounds]. pose proof (sizes_round now a t Ht) as Hr.
  destruct (round now a t) as [t' []]; [done|by apply IH].
Qed.

(** No size that the emulator is built for or the terminal is given is smaller than what it survives,
    and the child is never larger than the window of the host where that is not smaller still. *)
Theorem sizes_stay_in_bounds now p w a f h s b evs : SizesOk (rounds evs (task_new now p w a f h s b)).1.
Proof.
  apply sizes_rounds. unfold task_new. set (t := mk_task _ _ _ _ _ _ _ _ _ _ _ _ _ _ _ _).
  assert (SizesOk t) as Ht; [|destruct b; [by apply sizes_chunk|done]]. split; [unfold t, screen_new, clamp; cbn; lia|done|cbn; lia].
Qed.
End frames.

(** ** A session over a terminal that keeps its bytes *)

Module SessionDemo.
#[export] Instance toy_vt : Vt100 := {|
  Screen := Z * Z * list Z;
  vt_new := λ r c, (r, c, []);
  vt_process := λ b s, Some (s.1, s.2 ++ b);
  vt_set_size := λ r c s, Some (r, c, s.2);
  vt_size := λ s, s.1;
  vt_cursor := λ s, (0, Z.of_nat (length s.2));
  vt_rows_formatted := λ s _, Some [s.2]
|}.
#[export] Instance toy_contents : VtContents := λ s, s.2.

Definition p0 : Size := mk_size 80 24.
Definition demo_task : SessionTask := task_new 0 p0 ReadWrite true true false false (Some [36; 32]).

Lemma kill_switch_ends_witness :
  let r := rounds [(5, AStdin [108; 115; KILL_SWITCH_BYTE; 113]); (6, AStdin [120])] demo_task in
  r.2 = true ∧ child_q r.1 = child_q demo_task ++ [[108; 115]] ∧ out r.1 = out demo_task ++ [OEnd].
Proof.
  refine (kill_switch_ends 5 [108; 115] [113] [(6, AStdin [120])] demo_task _ _ _ _).
  - apply (bool_decide_unpack _). by vm_compute.
  - done.
  - done.
  - vm_compute. lia.
Defined.
End SessionDemo.
