(* ===== verification/ShareTransport.v ===== *)
(** * The connection of a shared session to its hub ([atuin-lab-share/src/transport.rs], [backpressure.rs],
    [protocol.rs], [crypto.rs])

    The bounded queue of frames with its resynchronisation, the channel to the hub, the encryption of
    what crosses it, the ledger of the viewers' input, and reconnection. The network is a script: how
    many sends succeed on a connection before it fails, and what the hub says. AES-GCM, base64, URLs and
    JSON are the libraries', as interfaces. *)
From stdpp Require Import pretty.
From S2P Require Import Prelude Text Json PtyProtocol ShareSession.

(** ** Sealed frames *)

Definition NONCE_LEN : nat := 12.
Definition TAG_LEN : nat := 16.
Definition KEY_LEN : nat := 32.

Inductive FrameKind : Type := KOutput | KKeyframe | KInput.
#[export] Instance FrameKind_eq_dec : EqDecision FrameKind.
Proof. solve_decision. Defined.
Definition kind_byte (k : FrameKind) : Z := match k with KOutput => 1 | KKeyframe => 2 | KInput => 3 end.

(** [frame_aad] *)
Definition frame_aad (kind : FrameKind) (seq : Z) : list Z := kind_byte kind :: be 8 seq.

(** AES-256-GCM: [open_] is none when the tag does not fit. *)
Class Aead : Type := {
  seal_ : list Z → list Z → list Z → list Z → list Z;
  open_ : list Z → list Z → list Z → list Z → option (list Z)
}.
(** What is opened was sealed under the same key, nonce and associated data. *)
Class AeadLaws `{Aead} : Prop := {
  open_seal key nonce plain aad : open_ key nonce (seal_ key nonce plain aad) aad = Some plain;
  open_bound key nonce plain aad aad' p : open_ key nonce (seal_ key nonce plain aad) aad' = Some p → aad' = aad;
  seal_length key nonce plain aad : length (seal_ key nonce plain aad) = (length plain + TAG_LEN)%nat
}.

Inductive CryptoError : Type := InvalidKey | BlobTooShort (n : nat) | DecryptFailed.

(** Unpadded base64url. *)
Class UrlBase64 : Type := { url_encode : list Z → string; url_decode : string → option (list Z) }.
Class UrlBase64Laws `{UrlBase64} : Prop := { url_roundtrip l : Forall (λ b, 0 ≤ b < 256) l → url_decode (url_encode l) = Some l }.

(** [SessionKey::to_fragment], [SessionKey::from_fragment] *)
Definition to_fragment `{UrlBase64} (key : list Z) : string := url_encode key.
Definition from_fragment `{UrlBase64} (fragment : string) : result (list Z) CryptoError :=
  match url_decode fragment with
  | Some k => if decide (length k = KEY_LEN) then Ok k else Err InvalidKey
  | None => Err InvalidKey
  end.

(** [SessionKey::encrypt] with the nonce that was drawn, and [SessionKey::decrypt]. *)
Definition encrypt `{Aead} (key nonce plain aad : list Z) : list Z := nonce ++ seal_ key nonce plain aad.
Definition decrypt `{Aead} (key blob aad : list Z) : result (list Z) CryptoError :=
  if (length blob <? NONCE_LEN + TAG_LEN)%nat then Err (BlobTooShort (length blob))
  else match open_ key (take NONCE_LEN blob) (drop NONCE_LEN blob) aad with Some p => Ok p | None => Err DecryptFailed end.

(** ** The queue *)

Record OutboundQueue : Type := mk_queue { q_cap : nat; q_output : list Frame; needs_keyframe : bool; awaiting_keyframe : bool }.

Definition queue_new (cap : nat) : OutboundQueue := mk_queue cap [] false false.
Definition push_output (f : Frame) (q : OutboundQueue) : OutboundQueue :=
  if awaiting_keyframe q then q
  else
    let output := q_output q ++ [f] in
    if (q_cap q <? length output)%nat then mk_queue (q_cap q) [] true true else mk_queue (q_cap q) output (needs_keyframe q) false.
Definition on_keyframe_sent (q : OutboundQueue) : OutboundQueue := mk_queue (q_cap q) (q_output q) false false.
Definition drain_output (q : OutboundQueue) : OutboundQueue * list Frame := (mk_queue (q_cap q) [] (needs_keyframe q) (awaiting_keyframe q), q_output q).
Definition clear_keyframe_flag (q : OutboundQueue) : OutboundQueue := mk_queue (q_cap q) (q_output q) false (awaiting_keyframe q).

(** ** The delay before a reconnect, in milliseconds *)

Record Backoff : Type := mk_backoff { attempt : Z; bo_base : Z; bo_cap : Z }.
Definition backoff_new : Backoff := mk_backoff 0 500 10000.
Definition u32_max : Z := 2 ^ 32 - 1.
Definition next_delay (b : Backoff) : Backoff * Z :=
  (mk_backoff (Z.min u32_max (attempt b + 1)) (bo_base b) (bo_cap b), Z.min (bo_base b * Z.min u32_max (2 ^ attempt b)) (bo_cap b)).
Definition backoff_reset (b : Backoff) : Backoff := mk_backoff 0 (bo_base b) (bo_cap b).

(** ** The channel *)

Definition TOPIC : string := "share:host".
Definition JOIN_REF : string := "1".
Definition OUTBOUND_CAP : nat := 256.

Inductive TransportError : Type := EWs | EJoinRejected (s : string) | EJoinUrlOrigin (got want : string) | EClosed.

(** What is pushed; the payload of a join is the one that was built for it. *)
Inductive WireItem : Type := WOutput (f : Frame) | WKeyframe (f : Frame) | WHostSize (c r : Z) | WEnd | WJoin | WHeartbeat.

Section wire.
Context `{Json, Base64, Aead}.

(** [output_payload], [keyframe_payload] and the other payloads; [nonce] is the one drawn for the push. *)
Definition sealed_payload (kind : FrameKind) (key nonce : list Z) (f : Frame) : Value :=
  jobj [("seq"%string, jnum (f_seq f)); ("data"%string, jstr (b64_encode (encrypt key nonce (f_data f) (frame_aad kind (f_seq f)))))].
Definition item_payload (key nonce : list Z) (join : Value) (i : WireItem) : Value :=
  match i with
  | WOutput f => sealed_payload KOutput key nonce f
  | WKeyframe f => sealed_payload KKeyframe key nonce f
  | WHostSize c r => jobj [("cols"%string, jnum c); ("rows"%string, jnum r)]
  | WJoin => join
  | WEnd | WHeartbeat => jobj []
  end.
Definition item_event (i : WireItem) : string :=
  match i with
  | WOutput _ => "output" | WKeyframe _ => "keyframe" | WHostSize _ _ => "host_size" | WEnd => "end" | WJoin => "phx_join" | WHeartbeat => "heartbeat"
  end.

(** [PhoenixPush::encode], [encode_heartbeat] *)
Definition encode_item (key nonce : list Z) (join : Value) (ref : Z) (i : WireItem) : string :=
  let payload := item_payload key nonce join i in
  to_json (match i with
           | WHeartbeat => jarr [jnull; jstr (pretty ref); jstr "phoenix"; jstr "heartbeat"; payload]
           | _ => jarr [jstr JOIN_REF; jstr (pretty ref); jstr TOPIC; jstr (item_event i); payload]
           end).

Inductive Incoming : Type :=
| InReply (ref : string) (ok : bool) (response : Value) | InEvent (event : string) (payload : Value) | InError (reason : Value) | InClose | InOther.

(** Indexing a value: [null] where there is nothing. *)
Definition at_ (v : Value) (i : nat) : Value := default jnull (l ← as_array v; l !! i).
Definition field_ (v : Value) (k : string) : Value := default jnull (get v k).

(** [Incoming::parse] *)
Definition parse_incoming (raw : string) : result Incoming string :=
  let? v := from_json raw in
  let event := default ""%string (as_str (at_ v 3)) in
  let payload := at_ v 4 in
  Ok (if decide (event = "phx_reply") then
        InReply (default ""%string (as_str (at_ v 1))) (bool_decide (as_str (field_ payload "status") = Some "ok"%string)) (field_ payload "response")
      else if decide (event = "phx_error") then InError payload
      else if decide (event = "phx_close") then InClose
      else if decide (event = "") then InOther
      else InEvent event payload).
End wire.

(** [Connection], with the pushes so far and their refs, the sends that are left before one fails (none
    when none does) and the messages for the session. *)
Record Conn : Type := mk_conn { w_sent : list (Z * WireItem); w_left : option nat; w_next : Z; w_queue : OutboundQueue; w_inbox : list Inbound }.

(** [Connection::new]: the refs start after that of the join. *)
Definition conn_new (left : option nat) : Conn := mk_conn [] left 2 (queue_new OUTBOUND_CAP) [].

Definition CM A := (stm Conn TransportError A).

(** [send_raw] of a push with a ref. *)
Definition send_raw (ref : Z) (i : WireItem) : CM unit := λ c,
  match w_left c with
  | Some O => (c, Err EWs)
  | l => (mk_conn (w_sent c ++ [(ref, i)]) (pred <$> l) (w_next c) (w_queue c) (w_inbox c), Ok tt)
  end.
(** [RefSequence::take] *)
Definition take_ref : CM Z := λ c, (mk_conn (w_sent c) (w_left c) (Z.min (u64_limit - 1) (w_next c + 1)) (w_queue c) (w_inbox c), Ok (w_next c)).
(** [Wire::push], [Wire::heartbeat] *)
Definition push (i : WireItem) : CM unit := let! r := take_ref in send_raw r i.
(** [Wire::flush] *)
Definition wire_flush : CM unit := λ c, match w_left c with Some O => (c, Err EWs) | _ => (c, Ok tt) end.

Definition with_queue (f : OutboundQueue → OutboundQueue) : CM unit := λ c, (mk_conn (w_sent c) (w_left c) (w_next c) (f (w_queue c)) (w_inbox c), Ok tt).
Definition get_queue : CM OutboundQueue := λ c, (c, Ok (w_queue c)).
Definition notify (m : Inbound) : CM unit := λ c, (mk_conn (w_sent c) (w_left c) (w_next c) (w_queue c) (w_inbox c ++ [m]), Ok tt).

(** [Connection::join] *)
Definition join : CM unit := send_raw 1 WJoin.

Fixpoint push_all (fs : list Frame) : CM unit :=
  match fs with [] => st_ret tt | f :: fs => let! _ := push (WOutput f) in push_all fs end.

(** [Connection::flush] *)
Definition flush : CM unit :=
  let! q := get_queue in
  if awaiting_keyframe q then st_ret tt
  else
    let! _ := with_queue (λ q, (drain_output q).1) in
    push_all (q_output q).

(** [Connection::handle_outbound]: true when the session is over. *)
Definition handle_outbound (item : Outbound) : CM bool :=
  match item with
  | OOutput f =>
      let! _ := with_queue (push_output f) in
      let! q := get_queue in
      if needs_keyframe q then
        let! _ := with_queue (λ q, clear_keyframe_flag (drain_output q).1) in
        let! _ := notify IRequestKeyframe in
        st_ret false
      else st_ret false
  | OKeyframe f =>
      let! _ := flush in
      let! _ := push (WKeyframe f) in
      let! _ := with_queue on_keyframe_sent in
      st_ret false
  | OHostSize c r => let! _ := flush in let! _ := push (WHostSize c r) in st_ret false
  | OEnd => let! _ := flush in let! _ := push WEnd in st_ret true
  end.

(** The items one after the other, until one ends the session. *)
Fixpoint handle_items (items : list Outbound) : CM bool :=
  match items with
  | [] => st_ret false
  | i :: items => let! over := handle_outbound i in if over : bool then st_ret true else handle_items items
  end.

(** [relay_batch], which is also what happens to the items that were stashed. *)
Definition relay_batch (items : list Outbound) : CM bool :=
  let! over := handle_items items in
  if over : bool then let! _ := wire_flush in st_ret true
  else let! _ := flush in st_ret false.

(** ** The transport *)

Definition INPUT_NONCE_CAP : nat := 1024 * 1024.
Definition MAX_INPUT_BLOB_BYTES : nat := 3072.
#[global] Opaque INPUT_NONCE_CAP.

(** [AcceptedNonces] *)
Record AcceptedNonces : Type := mk_ledger { seen : gset (list Z); led_cap : nat }.
Definition ledger_new : AcceptedNonces := mk_ledger ∅ INPUT_NONCE_CAP.
Definition contains (l : AcceptedNonces) (nonce : list Z) : bool := bool_decide (nonce ∈ seen l).
Definition is_full (l : AcceptedNonces) : bool := (led_cap l <=? size (seen l))%nat.
Definition record (l : AcceptedNonces) (nonce : list Z) : AcceptedNonces := mk_ledger ({[nonce]} ∪ seen l) (led_cap l).

Record InputDrops : Type := mk_drops { replay : Z; exhausted : Z; rejected : Z; empty_ : Z; read_only : Z; accepted : Z }.
Definition no_drops : InputDrops := mk_drops 0 0 0 0 0 0.

(** [url::Url] *)
Class UrlLib : Type := {
  Url : Type; url_parse : string → option Url; url_scheme : Url → string; url_host : Url → option string;
  url_port : Url → option Z; url_text : Url → string
}.

Section transport.
Context `{Json, Base64, Aead, UrlLib}.

(** [normalized_scheme], [same_origin] *)
Definition normalized_scheme (s : string) : string := if decide (s = "ws") then "http" else if decide (s = "wss") then "https" else s.
Definition same_origin (hub join : Url) : bool :=
  if negb (bool_decide (url_scheme join = "http") || bool_decide (url_scheme join = "https")) then false
  else bool_decide (normalized_scheme (url_scheme hub) = url_scheme join) && bool_decide (url_host hub = url_host join)
       && bool_decide (url_port hub = url_port join).

(** [is_fresh_session] *)
Definition is_fresh_session (last : option string) (new : string) : bool :=
  match last with Some previous => negb (bool_decide (previous = new)) | None => false end.

Record Transport : Type := mk_transport {
  hub_url : Url; t_write : WriteMode; t_key : list Z; key_fragment : string; input_nonces : AcceptedNonces;
  exhausted_notified : bool; disabled_pending : bool; input_drops : InputDrops; host_resume_token : option string;
  last_public_token : option string; first_url : option string; backoff : Backoff
}.

(** [Transport::new]; [first_url] is the link that the sender for the first one was used for. *)
Definition transport_new (hub : Url) (write : WriteMode) (key : list Z) (fragment : string) : Transport :=
  mk_transport hub write key fragment ledger_new false false no_drops None None None backoff_new.

Definition with_input (t : Transport) (l : AcceptedNonces) (notified pending : bool) (d : InputDrops) : Transport :=
  mk_transport (hub_url t) (t_write t) (t_key t) (key_fragment t) l notified pending d (host_resume_token t) (last_public_token t) (first_url t) (backoff t).
Definition with_drops (t : Transport) (d : InputDrops) : Transport := with_input t (input_nonces t) (exhausted_notified t) (disabled_pending t) d.

Definition drop_read_only (d : InputDrops) := mk_drops (replay d) (exhausted d) (rejected d) (empty_ d) (read_only d + 1) (accepted d).
Definition drop_rejected (d : InputDrops) := mk_drops (replay d) (exhausted d) (rejected d + 1) (empty_ d) (read_only d) (accepted d).
Definition drop_replay (d : InputDrops) := mk_drops (replay d + 1) (exhausted d) (rejected d) (empty_ d) (read_only d) (accepted d).
Definition drop_exhausted (d : InputDrops) := mk_drops (replay d) (exhausted d + 1) (rejected d) (empty_ d) (read_only d) (accepted d).
Definition drop_empty (d : InputDrops) := mk_drops (replay d) (exhausted d) (rejected d) (empty_ d + 1) (read_only d) (accepted d).
Definition count_accepted (d : InputDrops) := mk_drops (replay d) (exhausted d) (rejected d) (empty_ d) (read_only d) (accepted d + 1).

(** [decrypt_input], with [note_input_exhausted]. *)
Definition decrypt_input (t : Transport) (blob : list Z) : Transport * option (list Z) :=
  let d := input_drops t in
  if negb (is_write_enabled (t_write t)) then (with_drops t (drop_read_only d), None)
  else if (MAX_INPUT_BLOB_BYTES <? length blob)%nat then (with_drops t (drop_rejected d), None)
  else if (length blob <? NONCE_LEN)%nat then (with_drops t (drop_rejected d), None)
  else
    let nonce := take NONCE_LEN blob in
    if contains (input_nonces t) nonce then (with_drops t (drop_replay d), None)
    else if is_full (input_nonces t) then
      (with_input t (input_nonces t) true (disabled_pending t || negb (exhausted_notified t)) (drop_exhausted d), None)
    else
      match decrypt (t_key t) blob (frame_aad KInput 0) with
      | Err _ => (with_drops t (drop_rejected d), None)
      | Ok [] => (with_drops t (drop_empty d), None)
      | Ok plain =>
          (with_input t (record (input_nonces t) nonce) (exhausted_notified t) (disabled_pending t) (count_accepted d), Some plain)
      end.

(** [take_input_disabled_notice] *)
Definition take_notice (t : Transport) : Transport * bool :=
  (with_input t (input_nonces t) (exhausted_notified t) false (input_drops t), disabled_pending t).

(** [join_payload] *)
Definition join_payload (t : Transport) : Value :=
  let write := jbool (is_write_enabled (t_write t)) in
  match host_resume_token t with
  | Some r => jobj [("write"%string, write); ("resume_token"%string, jstr r)]
  | None => jobj [("write"%string, write)]
  end.

(** [on_joined] *)
Definition on_joined (t : Transport) (response : Value) : Transport * list Inbound * result unit TransportError :=
  let raw := default ""%string (as_str (field_ response "join_url")) in
  let origin_ok := match url_parse raw with Some join => same_origin (hub_url t) join | None => false end in
  if negb origin_ok then (t, [], Err (EJoinUrlOrigin raw (url_text (hub_url t))))
  else
    let join_url := (raw +:+ "#" +:+ key_fragment t)%string in
    let token := default ""%string (as_str (field_ response "token")) in
    let first := match first_url t with None => Some join_url | sent => sent end in
    let fresh := is_fresh_session (last_public_token t) token in
    (mk_transport (hub_url t) (t_write t) (t_key t) (key_fragment t) (input_nonces t) (exhausted_notified t) (disabled_pending t) (input_drops t)
       (as_str (field_ response "host_resume_token")) (Some token) first (backoff_reset (backoff t)),
     [IConnected join_url fresh], Ok tt).

(** [handle_text] *)
Definition handle_text (t : Transport) (raw : string) : Transport * list Inbound * result unit TransportError :=
  match parse_incoming raw with
  | Err _ => (t, [], Ok tt)
  | Ok (InReply ref ok response) =>
      if decide (ref = JOIN_REF) then if ok : bool then on_joined t response else (t, [], Err (EJoinRejected (to_json response)))
      else (t, [], Ok tt)
  | Ok InOther => (t, [], Ok tt)
  | Ok (InEvent event payload) =>
      match from_event event payload with
      | None => (t, [], Ok tt)
      | Some (IInput blob) =>
          match decrypt_input t blob with
          | (t, Some plain) => (t, [IInput plain], Ok tt)
          | (t, None) => let '(t, notice) := take_notice t in (t, (if notice then [IInputDisabled] else []), Ok tt)
          end
      | Some msg => (t, [msg], Ok tt)
      end
  | Ok (InError _) | Ok InClose => (t, [], Err EClosed)
  end.

(** What the loop of [connect_once] may find ready. *)
Inductive Arm : Type := AmHeartbeat | AmText (raw : string) | AmClosed | AmOther | AmItems (items : list Outbound) | AmSessionGone.

(** One round: the error or the end that it returns with, if any. *)
Definition arm_step (t : Transport) (c : Conn) (a : Arm) : Transport * Conn * option (result unit TransportError) :=
  match a with
  | AmHeartbeat => match push WHeartbeat c with (c, Ok _) => (t, c, None) | (c, Err e) => (t, c, Some (Err e)) end
  | AmText raw =>
      let '(t, ms, r) := handle_text t raw in
      let c := mk_conn (w_sent c) (w_left c) (w_next c) (w_queue c) (w_inbox c ++ ms) in
      (t, c, match r with Ok _ => None | Err e => Some (Err e) end)
  | AmClosed => (t, c, Some (Err EClosed))
  | AmOther => (t, c, None)
  | AmItems items =>
      match relay_batch items c with
      | (c, Ok true) => (t, c, Some (Ok tt))
      | (c, Ok false) => (t, c, None)
      | (c, Err e) => (t, c, Some (Err e))
      end
  | AmSessionGone => (t, c, Some (Ok tt))
  end.

Fixpoint arms (t : Transport) (c : Conn) (l : list Arm) : Transport * Conn * option (result unit TransportError) :=
  match l with
  | [] => (t, c, None)
  | a :: l => match arm_step t c a with (t, c, None) => arms t c l | r => r end
  end.

(** [connect_once] on a connection that was opened: the join, what was stashed, and the loop. *)
Definition connect_once (t : Transport) (stashed : list Outbound) (left : option nat) (l : list Arm)
    : Transport * Conn * option (result unit TransportError) :=
  match (let! _ := join in relay_batch stashed) (conn_new left) with
  | (c, Err e) => (t, c, Some (Err e))
  | (c, Ok true) => (t, c, Some (Ok tt))
  | (c, Ok false) => arms t c l
  end.

(** The attempts of [relay]: whether the socket opens, the sends before it fails, what becomes ready on it,
    and what the session sends during the delay after it. What was stashed is dropped once the join was sent. *)
Record Attempt : Type := mk_attempt { at_opens : bool; at_left : option nat; at_arms : list Arm; at_stash : list Outbound }.

(** [relay], while the session lives: the pushes of every connection, and how the last one ended. *)
Fixpoint relay (t : Transport) (stashed : list Outbound) (l : list Attempt)
    : Transport * list (list (Z * WireItem)) * list Inbound * option (result unit TransportError) :=
  match l with
  | [] => (t, [], [], None)
  | a :: l =>
      let '(t, pushed, ms, r) :=
        if at_opens a
        then let '(t, c, r) := connect_once t stashed (at_left a) (at_arms a) in (t, w_sent c, w_inbox c, r)
        else (t, [], [], Some (Err EWs)) in
      let stashed := if at_opens a && negb (bool_decide (at_left a = Some O)) then [] else stashed in
      match r with
      | None | Some (Ok _) | Some (Err (EJoinUrlOrigin _ _)) => (t, [pushed], ms, r)
      | Some (Err e) =>
          let t := mk_transport (hub_url t) (t_write t) (t_key t) (key_fragment t) (input_nonces t) (exhausted_notified t) (disabled_pending t)
                     (input_drops t) (host_resume_token t) (last_public_token t) (first_url t) (next_delay (backoff t)).1 in
          let '(t, rest, ms', r') := relay t (stashed ++ at_stash a) l in
          (t, pushed :: rest, ms ++ IDisconnected :: ms', match l with [] => Some (Err e) | _ => r' end)
      end
  end.
End transport.


(** ** What is on the wire *)

(** Neighbours of a list are related. *)
Fixpoint linked {A} (R : A → A → Prop) (l : list A) : Prop :=
  match l with x :: (y :: _) as l' => R x y ∧ linked R l' | _ => True end.

Lemma linked_snoc {A} (R : A → A → Prop) l y : linked R (l ++ [y]) ↔ linked R l ∧ ∀ x, last l = Some x → R x y.
Proof.
  induction l as [|x l IH]; [cbn; naive_solver|]. destruct l as [|z l]; [cbn; naive_solver|].
  change ((x :: z :: l) ++ [y]) with (x :: z :: (l ++ [y])). change ((z :: l) ++ [y]) with (z :: (l ++ [y])) in IH.
  cbn [linked] in *. rewrite last_cons_cons. tauto.
Qed.

Lemma linked_app_r {A} (R : A → A → Prop) l1 l2 : linked R (l1 ++ l2) → linked R l2.
Proof. induction l1 as [|x l1 IH]; [done|]. intros Hl. apply IH. cbn [app] in Hl. destruct (l1 ++ l2); [done|]. by destruct Hl. Qed.

Lemma linked_app_l {A} (R : A → A → Prop) l1 l2 : linked R (l1 ++ l2) → linked R l1.
Proof.
  revert l2. induction l1 as [|x l1 IH]; [done|]. intros l2 Hl. destruct l1 as [|y l1]; [done|]. destruct Hl as [Hr Hl]. split; [done|by apply (IH l2)].
Qed.

(** The frames that were pushed; true for a keyframe. *)
Definition item_frame (i : WireItem) : option (bool * Frame) := match i with WOutput f => Some (false, f) | WKeyframe f => Some (true, f) | _ => None end.
Definition wire_frames (l : list (Z * WireItem)) : list (bool * Frame) := omap item_frame l.*2.

(** Output has the number after that of the frame before it; only a keyframe may close a gap. *)
Definition follows (x y : bool * Frame) : Prop := y.1 = false → f_seq y.2 = f_seq x.2 + 1.
Definition no_gaps (l : list (Z * WireItem)) : Prop := linked follows (wire_frames l).

Section wire.

(** The connection after frames up to number [n]: what is queued follows what was pushed, up to [n], or a
    keyframe is awaited. *)
Record Flowing (n : Z) (c : Conn) : Prop := mk_flowing {
  fl_gaps : no_gaps (w_sent c);
  fl_flag : needs_keyframe (w_queue c) = false;
  fl_queue : if awaiting_keyframe (w_queue c) then q_output (w_queue c) = []
             else ∃ k, k ≤ n ∧ f_seq <$> q_output (w_queue c) = seqZ (k + 1) (n - k) ∧
                       ∀ x, last (wire_frames (w_sent c)) = Some x → f_seq x.2 = k
}.

Lemma wire_frames_snoc l r i : wire_frames (l ++ [(r, i)]) = wire_frames l ++ match item_frame i with Some x => [x] | None => [] end.
Proof. unfold wire_frames. rewrite fmap_app, omap_app. cbn. by destruct (item_frame i). Qed.

(** The pushes of a run of output frames. *)
Lemma push_all_flowing n fs c c' r :
  push_all fs c = (c', r) → no_gaps (w_sent c) → w_queue c = mk_queue (q_cap (w_queue c)) [] false false →
  (∃ k, k ≤ n ∧ f_seq <$> fs = seqZ (k + 1) (n - k) ∧ ∀ x, last (wire_frames (w_sent c)) = Some x → f_seq x.2 = k) →
  no_gaps (w_sent c') ∧ w_inbox c' = w_inbox c ∧ (r = Ok tt → Flowing n c' ∧ awaiting_keyframe (w_queue c') = false ∧ q_output (w_queue c') = []).
Proof.
  revert c. induction fs as [|f fs IH]; intros c E Hg Hq (k & Hk & Hs & Hl).
  - injection E as <- <-. split; [done|]. split; [done|]. intros _. rewrite Hq. split; [|done]. split; [done|by rewrite Hq|]. rewrite Hq. cbn. exists k. split; [done|]. split; [|done].
    destruct (decide (n = k)) as [->|Hne]; [by rewrite Z.sub_diag|]. rewrite seqZ_cons in Hs by lia. done.
  - cbn [push_all] in E. unfold push, st_bind, take_ref, send_raw in E. cbn in E.
    assert (k < n) as Hkn. { destruct (decide (k = n)) as [->|]; [by rewrite Z.sub_diag in Hs|lia]. }
    rewrite seqZ_cons in Hs by lia. rewrite fmap_cons in Hs. injection Hs as Hf Hs.
    set (c1 := mk_conn (w_sent c ++ [(w_next c, WOutput f)]) (pred <$> w_left c) (Z.min (u64_limit - 1) (w_next c + 1)) (w_queue c) (w_inbox c)).
    assert (no_gaps (w_sent c1)) as Hg1.
    { unfold no_gaps, c1. cbn [w_sent]. rewrite wire_frames_snoc. cbn [item_frame]. apply linked_snoc. split; [done|]. intros x Hx _. cbn. rewrite (Hl x Hx). lia. }
    assert (∃ k, k ≤ n ∧ f_seq <$> fs = seqZ (k + 1) (n - k) ∧ ∀ x, last (wire_frames (w_sent c1)) = Some x → f_seq x.2 = k) as Hk1.
    { exists (k + 1). split; [lia|]. split; [rewrite Hs; f_equal; lia|]. intros x. unfold c1. cbn [w_sent]. rewrite wire_frames_snoc. cbn [item_frame]. rewrite last_snoc. intros [= <-]. cbn. lia. }
    destruct (w_left c) as [[|m]|] eqn:El.
    + injection E as <- <-. split; [done|]. split; [done|]. done.
    + apply (IH c1 E Hg1 Hq Hk1).
    + apply (IH c1 E Hg1 Hq Hk1).
Qed.

Lemma flush_flowing n c c' r :
  flush c = (c', r) → Flowing n c →
  no_gaps (w_sent c') ∧ w_inbox c' = w_inbox c ∧
  (r = Ok tt → Flowing n c' ∧ awaiting_keyframe (w_queue c') = awaiting_keyframe (w_queue c) ∧ q_output (w_queue c') = []).
Proof.
  intros E [Hg Hf Hq]. unfold flush, st_bind, get_queue in E. cbn in E. destruct (awaiting_keyframe (w_queue c)) eqn:Ea.
  - injection E as <- <-. split; [done|]. split; [done|]. intros _. split; [split; [done|done|by rewrite Ea]|]. split; [done|exact Hq].
  - unfold with_queue in E. cbn in E. apply (push_all_flowing n) in E; [done|done| |done]. cbn. by rewrite Hf, Ea.
Qed.

Lemma push_other_gaps i c c' r :
  item_frame i = None → push i c = (c', r) →
  wire_frames (w_sent c') = wire_frames (w_sent c) ∧ w_queue c' = w_queue c ∧ w_inbox c' = w_inbox c.
Proof.
  intros Hi. unfold push, st_bind, take_ref, send_raw. cbn. destruct (w_left c) as [[|m]|]; intros [= <- <-]; cbn [w_sent w_queue w_inbox]; rewrite ?wire_frames_snoc, ?Hi, ?app_nil_r; done.
Qed.

Lemma flowing_other n c c' :
  wire_frames (w_sent c') = wire_frames (w_sent c) → w_queue c' = w_queue c → Flowing n c → Flowing n c'.
Proof. intros Ew Eq [Hg Hf Hq]. split; [unfold no_gaps; by rewrite Ew|by rewrite Eq|by rewrite Eq, Ew]. Qed.

(** The number of the last frame of the items. *)
Definition after (n : Z) (o : Outbound) : Z := match out_frame o with Some f => f_seq f | None => n end.
Definition in_turn (n : Z) (o : Outbound) : Prop := ∀ f, out_frame o = Some f → f_seq f = n + 1.

Lemma output_flowing n f c c' r :
  handle_outbound (OOutput f) c = (c', r) → Flowing n c → f_seq f = n + 1 →
  Flowing (n + 1) c' ∧ (awaiting_keyframe (w_queue c') = true → awaiting_keyframe (w_queue c) = true ∨ IRequestKeyframe ∈ drop (length (w_inbox c)) (w_inbox c')) ∧
  ∃ l, w_inbox c' = w_inbox c ++ l.
Proof.
  intros E [Hg Hf Hq] Ht. unfold handle_outbound, st_bind, with_queue, get_queue, notify, st_ret in E. cbn in E. unfold push_output in E.
  destruct (awaiting_keyframe (w_queue c)) eqn:Ea; [|destruct (q_cap (w_queue c) <? length (q_output (w_queue c) ++ [f]))%nat eqn:El]; cbn in E; rewrite ?Hf in E.
  - injection E as <- <-. cbn. split; [split; [done|done|cbn; by rewrite Ea]|]. split; [by left|]. exists []. by rewrite app_nil_r.
  - injection E as <- <-. cbn. split; [by split|]. split; [intros _; right; rewrite drop_app_length; left|]. by eexists.
  - injection E as <- <-. cbn. split; [|split; [done|exists []; by rewrite app_nil_r]]. split; [done|done|]. cbn.
    destruct Hq as (k & Hk & Hs & Hl). exists k. split; [lia|]. split; [|done]. rewrite fmap_app, Hs. cbn. rewrite Ht.
    replace (n + 1 - k) with ((n - k) + 1) by lia. rewrite seqZ_app by lia. f_equal. replace (k + 1 + (n - k)) with (n + 1) by lia. done.
Qed.

Lemma keyframe_flowing n f c c' r :
  handle_outbound (OKeyframe f) c = (c', r) → Flowing n c → f_seq f = n + 1 →
  no_gaps (w_sent c') ∧ w_inbox c' = w_inbox c ∧ ∀ b, r = Ok b → Flowing (n + 1) c' ∧ awaiting_keyframe (w_queue c') = false.
Proof.
  intros E Hfl Ht. unfold handle_outbound in E. unfold st_bind at 1 in E. destruct (flush c) as [c1 [[]|e]] eqn:E1; pose proof (flush_flowing n c _ _ E1 Hfl) as (Hg1 & Hi1 & Hf1).
  2:{ by injection E as <- <-. }
  destruct (Hf1 eq_refl) as (Hfl1 & Ha1 & Hq1). unfold push, st_bind, take_ref, send_raw, with_queue, st_ret in E. cbn in E.
  assert (no_gaps (w_sent c1 ++ [(w_next c1, WKeyframe f)])) as Hg2.
  { unfold no_gaps. rewrite wire_frames_snoc. cbn [item_frame]. apply linked_snoc. split; [exact Hg1|]. by intros x _ Hx. }
  assert (∀ l, Flowing (n + 1) (mk_conn (w_sent c1 ++ [(w_next c1, WKeyframe f)]) l (Z.min (u64_limit - 1) (w_next c1 + 1)) (on_keyframe_sent (w_queue c1)) (w_inbox c1))) as Hfl2.
  { intros l. split; [exact Hg2|done|]. cbn [w_queue w_sent on_keyframe_sent awaiting_keyframe q_output]. exists (n + 1). split; [lia|]. rewrite Hq1, Z.sub_diag. split; [done|]. intros x. rewrite wire_frames_snoc. cbn [item_frame].
    rewrite last_snoc. by intros [= <-]. }
  destruct (w_left c1) as [[|m]|]; injection E as <- <-; (split; [done|]); (split; [done|]); intros b Hb; try discriminate; by split.
Qed.

Lemma other_flowing n i (b : bool) c c' (r : result bool TransportError) :
  (let! _ := flush in let! _ := push i in st_ret b) c = (c', r) → item_frame i = None → Flowing n c →
  no_gaps (w_sent c') ∧ w_inbox c' = w_inbox c ∧ ∀ b', r = Ok b' → Flowing n c' ∧ awaiting_keyframe (w_queue c') = awaiting_keyframe (w_queue c).
Proof.
  intros E Hi Hfl. unfold st_bind at 1 in E. destruct (flush c) as [c1 [[]|e]] eqn:E1; pose proof (flush_flowing n c _ _ E1 Hfl) as (Hg1 & Hi1 & Hf1).
  2:{ by injection E as <- <-. }
  destruct (Hf1 eq_refl) as (Hfl1 & Ha1 & Hq1). unfold st_bind in E. destruct (push i c1) as [c2 [[]|e]] eqn:E2;
    destruct (push_other_gaps i c1 _ _ Hi E2) as (Hw & Hq & Hb); injection E as <- <-; (split; [unfold no_gaps; by rewrite Hw|]); (split; [congruence|]); [|done].
  intros b' _. split; [by apply (flowing_other n c1)|congruence].
Qed.

Lemma handle_outbound_flowing n o c c' r :
  handle_outbound o c = (c', r) → Flowing n c → in_turn n o →
  no_gaps (w_sent c') ∧ (∃ l, w_inbox c' = w_inbox c ++ l) ∧
  ∀ b, r = Ok b → Flowing (after n o) c' ∧
    (awaiting_keyframe (w_queue c') = true →
     (awaiting_keyframe (w_queue c) = true ∧ ∀ f, o ≠ OKeyframe f) ∨ IRequestKeyframe ∈ drop (length (w_inbox c)) (w_inbox c')).
Proof.
  intros E Hfl Ht. destruct o as [f|f|cc rr|]; unfold after; cbn [out_frame].
  - specialize (Ht f eq_refl). destruct (output_flowing n f c c' r E Hfl Ht) as (H1 & H2 & H3). rewrite Ht. split; [apply H1|]. split; [done|].
    intros b _. split; [done|]. intros Ha. destruct (H2 Ha) as [?|?]; [left; by split|by right].
  - specialize (Ht f eq_refl). destruct (keyframe_flowing n f c c' r E Hfl Ht) as (H1 & H2 & H3). rewrite Ht. split; [done|]. split; [exists []; by rewrite app_nil_r|].
    intros b Hb. destruct (H3 b Hb) as [? Hn]. split; [done|]. by rewrite Hn.
  - destruct (other_flowing n _ _ c c' r E eq_refl Hfl) as (H1 & H2 & H3). split; [done|]. split; [exists []; by rewrite app_nil_r|].
    intros b Hb. destruct (H3 b Hb) as [? Hn]. split; [done|]. rewrite Hn. intros Ha. left. by split.
  - destruct (other_flowing n _ _ c c' r E eq_refl Hfl) as (H1 & H2 & H3). split; [done|]. split; [exists []; by rewrite app_nil_r|].
    intros b Hb. destruct (H3 b Hb) as [? Hn]. split; [done|]. rewrite Hn. intros Ha. left. by split.
Qed.

(** The frames of the items come one after the other. *)
Fixpoint in_order (n : Z) (l : list Outbound) : Prop :=
  match l with [] => True | o :: l => in_turn n o ∧ in_order (after n o) l end.
Definition after_all (n : Z) (l : list Outbound) : Z := foldl after n l.

Lemma handle_items_flowing items n c c' r :
  handle_items items c = (c', r) → Flowing n c → in_order n items →
  no_gaps (w_sent c') ∧ (∃ l, w_inbox c' = w_inbox c ++ l) ∧
  (r = Ok false → Flowing (after_all n items) c' ∧
    (awaiting_keyframe (w_queue c') = true →
     (awaiting_keyframe (w_queue c) = true ∧ ∀ f, OKeyframe f ∉ items) ∨
     IRequestKeyframe ∈ drop (length (w_inbox c)) (w_inbox c'))).
Proof.
  revert n c. induction items as [|o items IH]; intros n c E Hfl Ho.
  - injection E as <- <-. split; [apply Hfl|]. split; [exists []; by rewrite app_nil_r|]. intros _. split; [done|]. intros Ha. left. split; [done|]. intros f. apply not_elem_of_nil.
  - destruct Ho as [Ht Ho]. cbn [handle_items] in E. unfold st_bind in E. destruct (handle_outbound o c) as [c1 [b|e]] eqn:E1;
      destruct (handle_outbound_flowing n o c _ _ E1 Hfl Ht) as (Hg1 & [l1 Hl1] & Hf1).
    2:{ injection E as <- <-. split; [done|]. split; [by eexists|done]. }
    destruct (Hf1 b eq_refl) as [Hfl1 Ha1]. destruct b; [injection E as <- <-; split; [done|]; split; [by eexists|done]|].
    destruct (IH _ c1 E Hfl1 Ho) as (Hg2 & [l2 Hl2] & Hf2). split; [done|]. split; [exists (l1 ++ l2); by rewrite Hl2, Hl1, app_assoc|].
    intros Hr. destruct (Hf2 Hr) as [Hfl2 Ha2]. split; [done|]. intros Ha. destruct (Ha2 Ha) as [[Hb Hn]|Hin].
    + destruct (Ha1 Hb) as [[Hc Hk]|Hin].
      * left. split; [done|]. intros f. apply not_elem_of_cons. split; [intros <-; by apply (Hk f)|done].
      * right. rewrite Hl2. rewrite Hl1, drop_app_length in Hin. rewrite Hl1, <- app_assoc, drop_app_length. apply elem_of_app. by left.
    + right. rewrite Hl2, Hl1. rewrite Hl2, drop_app_length in Hin. rewrite <- app_assoc, drop_app_length. apply elem_of_app. by right.
Qed.

Lemma relay_batch_flowing items n c c' r :
  relay_batch items c = (c', r) → Flowing n c → in_order n items →
  no_gaps (w_sent c') ∧ (∃ l, w_inbox c' = w_inbox c ++ l) ∧
  (r = Ok false → Flowing (after_all n items) c' ∧
    (awaiting_keyframe (w_queue c') = true →
     (awaiting_keyframe (w_queue c) = true ∧ ∀ f, OKeyframe f ∉ items) ∨
     IRequestKeyframe ∈ drop (length (w_inbox c)) (w_inbox c'))).
Proof.
  intros E Hfl Ho. unfold relay_batch, st_bind in E. destruct (handle_items items c) as [c1 [b|e]] eqn:E1;
    destruct (handle_items_flowing items n c _ _ E1 Hfl Ho) as (Hg1 & Hl1 & Hf1).
  2:{ injection E as <- <-. done. }
  destruct b.
  - unfold wire_flush, st_ret in E. by destruct (w_left c1) as [[|m]|]; injection E as <- <-.
  - destruct (Hf1 eq_refl) as [Hfl1 Ha1]. destruct (flush c1) as [c2 [[]|e]] eqn:E2; destruct (flush_flowing _ c1 _ _ E2 Hfl1) as (Hg2 & Hi2 & Hf2); injection E as <- <-.
    + split; [done|]. split; [by rewrite Hi2|]. intros _. destruct (Hf2 eq_refl) as (Hfl2 & Ha2 & _). split; [done|]. rewrite Ha2, Hi2. done.
    + split; [done|]. split; [by rewrite Hi2|done].
Qed.
End wire.

(** ** The session and its connection together *)

Section system.
Context `{VtContents}.

(** The task with what of its messages was taken, and the connection with what of its was handled. *)
Record System : Type := mk_system { sy_task : SessionTask; sy_taken : nat; sy_conn : Conn; sy_handled : nat }.

Definition not_hub (a : Ready) : bool := match a with AHub _ => false | _ => true end.

(** The session and the transport in any order: the session handles an event of its own or the next
    message, the transport relays what it finds waiting, passes on what the hub says or sends a
    heartbeat. *)
Inductive sys_step : System → System → Prop :=
| SysSession now a t t' n c h : not_hub a = true → round now a t = (t', false) → sys_step (mk_system t n c h) (mk_system t' n c h)
| SysInbound now m t n c h : w_inbox c !! h = Some m → sys_step (mk_system t n c h) (mk_system (handle_inbound now m t) n c (S h))
| SysRelay k t n c c' h :
    (0 < k)%nat → (n + k ≤ length (out t))%nat → relay_batch (take k (drop n (out t))) c = (c', Ok false) →
    sys_step (mk_system t n c h) (mk_system t (n + k) c' h)
| SysHub ms t n c h : sys_step (mk_system t n c h) (mk_system t n (mk_conn (w_sent c) (w_left c) (w_next c) (w_queue c) (w_inbox c ++ ms)) h)
| SysHeartbeat t n c c' h : push WHeartbeat c = (c', Ok tt) → sys_step (mk_system t n c h) (mk_system t n c' h).

(** A connection is made at any time of a session, with what was taken before it gone. *)
Definition sys_start (p : Size) (y : System) : Prop :=
  ∃ now w a f hl s b evs left, sy_task y = (rounds evs (task_new now p w a f hl s b)).1 ∧ (sy_taken y ≤ length (out (sy_task y)))%nat ∧
    join (conn_new left) = (sy_conn y, Ok tt) ∧ sy_handled y = O.

Definition sys_reachable (p : Size) (y : System) : Prop := ∃ y0, sys_start p y0 ∧ rtc sys_step y0 y.

Definition out_kind (o : Outbound) : option (bool * Frame) := match o with OOutput f => Some (false, f) | OKeyframe f => Some (true, f) | _ => None end.
Definition frames_before (n : nat) (t : SessionTask) : Z := Z.of_nat (length (omap out_frame (take n (out t)))).

(** *** What is queued and pushed comes from the session *)

Definition carried (c : Conn) : list (bool * Frame) := wire_frames (w_sent c) ++ ((λ f, (false, f)) <$> q_output (w_queue c)).

Lemma push_carried i c c' r :
  push i c = (c', r) → (∀ x, x ∈ carried c' → x ∈ carried c ∨ item_frame i = Some x) ∧ w_queue c' = w_queue c.
Proof.
  unfold push, st_bind, take_ref, send_raw. cbn. intros E.
  assert (∀ x l, x ∈ wire_frames (w_sent c ++ [(w_next c, i)]) ++ l → x ∈ wire_frames (w_sent c) ++ l ∨ item_frame i = Some x) as Hx.
  { intros x l. rewrite wire_frames_snoc, !elem_of_app. destruct (item_frame i) as [y|]; [rewrite list_elem_of_singleton|rewrite elem_of_nil]; naive_solver. }
  destruct (w_left c) as [[|m]|]; injection E as <- <-; (split; [|done]); intros x; unfold carried; cbn [w_sent w_queue]; [by left|apply Hx..].
Qed.

Lemma push_all_carried fs c c' r :
  push_all fs c = (c', r) → (∀ x, x ∈ carried c' → x ∈ carried c ∨ ∃ f, f ∈ fs ∧ x = (false, f)) ∧ w_queue c' = w_queue c.
Proof.
  revert c. induction fs as [|f fs IH]; intros c E; [injection E as <- <-; split; [by left|done]|]. cbn [push_all] in E. unfold st_bind in E.
  destruct (push (WOutput f) c) as [c1 [[]|e]] eqn:E1; destruct (push_carried _ _ _ _ E1) as [H1 Q1].
  - destruct (IH c1 E) as [H2 Q2]. split; [|congruence]. intros x Hx. destruct (H2 x Hx) as [Hc|(g & Hg & ->)].
    + destruct (H1 x Hc) as [?|[= <-]]; [by left|]. right. exists f. split; [left|done].
    + right. exists g. split; [by right|done].
  - injection E as <- <-. split; [|done]. intros x Hx. destruct (H1 x Hx) as [?|[= <-]]; [by left|]. right. exists f. split; [left|done].
Qed.

Lemma flush_carried c c' r : flush c = (c', r) → (∀ x, x ∈ carried c' → x ∈ carried c) ∧ (r = Ok tt → awaiting_keyframe (w_queue c) = false → q_output (w_queue c') = []).
Proof.
  unfold flush, st_bind, get_queue. cbn. destruct (awaiting_keyframe (w_queue c)) eqn:Ea; [intros [= <- <-]; done|]. unfold with_queue. cbn. intros E.
  destruct (push_all_carried _ _ _ _ E) as [Hx Hq]. split; [|intros _ _; by rewrite Hq]. intros x Hin. unfold carried in *. rewrite elem_of_app.
  destruct (Hx x Hin) as [Hc|(f & Hf & ->)].
  - cbn in Hc. rewrite app_nil_r in Hc. by left.
  - right. apply list_elem_of_fmap. by exists f.
Qed.

Lemma handle_outbound_carried o c c' r :
  handle_outbound o c = (c', r) → ∀ x, x ∈ carried c' → x ∈ carried c ∨ out_kind o = Some x.
Proof.
  intros E x Hx. destruct o as [f|f|cc rr|].
  - unfold handle_outbound, st_bind, with_queue, get_queue, notify, st_ret in E. cbn in E. unfold push_output in E. unfold carried in *. rewrite elem_of_app.
    destruct (awaiting_keyframe (w_queue c)) eqn:Ea; [|destruct (q_cap (w_queue c) <? length (q_output (w_queue c) ++ [f]))%nat]; cbn in E.
    + destruct (needs_keyframe (w_queue c)); injection E as <- <-; cbn in Hx; rewrite ?app_nil_r in Hx; [by left; left|]. apply elem_of_app in Hx. by left.
    + injection E as <- <-. cbn in Hx. rewrite app_nil_r in Hx. by left; left.
    + destruct (needs_keyframe (w_queue c)); injection E as <- <-; cbn in Hx; rewrite ?app_nil_r in Hx; [by left; left|]. rewrite fmap_app, !elem_of_app in Hx.
      destruct Hx as [?|[?|Hx]]; [by left; left|by left; right|]. apply list_elem_of_singleton in Hx as ->. by right.
  - unfold handle_outbound in E. unfold st_bind at 1 in E. destruct (flush c) as [c1 [[]|e]] eqn:E1; destruct (flush_carried _ _ _ E1) as [H1 _].
    2:{ injection E as <- <-. left. by apply H1. }
    unfold st_bind in E. destruct (push (WKeyframe f) c1) as [c2 [[]|e]] eqn:E2; destruct (push_carried _ _ _ _ E2) as [H2 _].
    + unfold with_queue, st_ret in E. cbn in E. injection E as <- <-. destruct (H2 x Hx) as [?|[= <-]]; [left; by apply H1|by right].
    + injection E as <- <-. destruct (H2 x Hx) as [?|[= <-]]; [left; by apply H1|by right].
  - unfold handle_outbound in E. unfold st_bind at 1 in E. destruct (flush c) as [c1 [[]|e]] eqn:E1; destruct (flush_carried _ _ _ E1) as [H1 _].
    2:{ injection E as <- <-. left. by apply H1. }
    unfold st_bind in E. destruct (push (WHostSize cc rr) c1) as [c2 [[]|e]] eqn:E2; destruct (push_carried _ _ _ _ E2) as [H2 _];
      injection E as <- <-; destruct (H2 x Hx) as [?|[=]]; left; by apply H1.
  - unfold handle_outbound in E. unfold st_bind at 1 in E. destruct (flush c) as [c1 [[]|e]] eqn:E1; destruct (flush_carried _ _ _ E1) as [H1 _].
    2:{ injection E as <- <-. left. by apply H1. }
    unfold st_bind in E. destruct (push WEnd c1) as [c2 [[]|e]] eqn:E2; destruct (push_carried _ _ _ _ E2) as [H2 _];
      injection E as <- <-; destruct (H2 x Hx) as [?|[=]]; left; by apply H1.
Qed.

Lemma relay_batch_carried items c c' :
  relay_batch items c = (c', Ok false) → (∀ x, x ∈ carried c' → x ∈ carried c ∨ x ∈ omap out_kind items).
Proof.
  unfold relay_batch, st_bind. intros E. destruct (handle_items items c) as [c1 [[]|e]] eqn:E1; [|destruct (flush c1) as [c2 [[]|e]] eqn:E2; [|done]|done].
  { unfold wire_flush in E. by destruct (w_left c1) as [[|m]|]. }
  injection E as <-. destruct (flush_carried _ _ _ E2) as [H2 _].
  intros x Hx%H2. clear -E1 Hx. revert c E1. induction items as [|o items IH]; intros c E1; [injection E1 as <-; by left|].
  cbn [handle_items] in E1. unfold st_bind in E1. destruct (handle_outbound o c) as [c3 [[]|e]] eqn:E3; [done| |done].
  destruct (IH _ E1) as [Hc|Hc].
  - destruct (handle_outbound_carried _ _ _ _ E3 x Hc) as [?|Ho]; [by left|]. right. cbn. rewrite Ho. left.
  - right. cbn. destruct (out_kind o); [by right|done].
Qed.

(** *** The messages of the session only grow *)

Definition grows (t t' : SessionTask) : Prop := ∃ l, out t' = out t ++ l.
#[local] Instance grows_preorder : PreOrder grows.
Proof.
  split; [intros t; exists []; by rewrite app_nil_r|]. intros x y z [l1 H1] [l2 H2]. exists (l1 ++ l2). by rewrite H2, H1, app_assoc.
Qed.

Lemma grows_forward b t : grows t (forward_to_child b t).
Proof. unfold forward_to_child. destruct (_ && _); by exists []; rewrite app_nil_r. Qed.
Lemma grows_request now t : ∃ k, out (handle_request_keyframe now t) = out t ++ [OKeyframe k].
Proof. unfold handle_request_keyframe, emit_keyframe. cbn. by eexists. Qed.
Lemma grows_chunk now c t : grows t (handle_pty_chunk now c t).
Proof.
  unfold handle_pty_chunk. destruct (process_chunk _ _ _) as [s [[o k] r]].
  destruct k as [k|]; cbn [send with_screen answer_queries]; destruct (_ && _); unfold forward_to_child; try destruct (_ && _);
    unfold grows; cbn; rewrite <- ?app_assoc; by eexists.
Qed.
Lemma grows_resize now w src t : grows t (apply_resize now w src t).
Proof.
  unfold apply_resize. cbn [resized screen]. destruct (screen_set_size _ _ _) as [s k]. destruct src; cbn; repeat case_match; unfold grows; cbn; rewrite <- ?app_assoc; by eexists.
Qed.
Lemma grows_read now e t : grows t (handle_read now e t).
Proof. destruct e as [c|z]; cbn [handle_read]; [apply grows_chunk|]. exact (grows_resize now z HostWindow (with_physical z t)). Qed.
Lemma grows_inbound now m t : grows t (handle_inbound now m t).
Proof.
  destruct m; cbn [handle_inbound].
  - destruct (is_write_enabled _); [apply grows_forward|done].
  - destruct (follows_hub_resize t); [apply grows_resize|done].
  - exists []. by rewrite app_nil_r.
  - destruct (grows_request now t) as [k E]. by exists [OKeyframe k].
  - unfold handle_input_disabled. destruct (input_disabled t); [done|]. exists []. by rewrite app_nil_r.
  - unfold handle_connected. match goal with |- context [notice ?n t] => destruct (grows_request now (notice n t)) as [k E] end. by exists [OKeyframe k].
  - exists []. by rewrite app_nil_r.
Qed.
Lemma grows_round now a t : grows t (round now a t).1.
Proof.
  destruct a as [e|chunk|msg|[[c r]|]| | | |]; cbn [round fst]; try done.
  - apply grows_read.
  - unfold handle_stdin_chunk. destruct (position _ _) as [n|]; cbn [fst]; [|apply grows_forward]. exists [OEnd]. cbn [send out]. f_equal.
    destruct (0 <? n)%nat; [|done]. unfold forward_to_child. by destruct (_ && _).
  - apply grows_inbound.
  - exact (grows_resize now (child t) HostWindow (with_physical _ t)).
  - unfold service_keyframes. destruct (keyframe_due _ _); [|done]. destruct (grows_request now t) as [k E]. by exists [OKeyframe k].
  - unfold render_if_dirty. exists []. rewrite app_nil_r. by repeat case_match.
  - exists []. by rewrite app_nil_r.
  - exists []. by rewrite app_nil_r.
Qed.

(** *** Numbers *)

Lemma in_order_of items o1 o3 N :
  f_seq <$> omap out_frame (o1 ++ items ++ o3) = seqZ 1 N →
  in_order (Z.of_nat (length (omap out_frame o1))) items ∧
  after_all (Z.of_nat (length (omap out_frame o1))) items = Z.of_nat (length (omap out_frame (o1 ++ items))).
Proof.
  revert o1. induction items as [|o items IH]; intros o1 E; [split; [done|by rewrite app_nil_r]|].
  assert (in_turn (Z.of_nat (length (omap out_frame o1))) o ∧ after (Z.of_nat (length (omap out_frame o1))) o = Z.of_nat (length (omap out_frame (o1 ++ [o])))) as [Ht Ha].
  { unfold in_turn, after. rewrite omap_app, length_app. cbn. destruct (out_frame o) as [f|] eqn:Eo; [|split; [done|cbn; lia]].
    assert (f_seq f = Z.of_nat (length (omap out_frame o1)) + 1) as Ef.
    { rewrite omap_app, fmap_app in E. cbn in E. rewrite Eo in E. apply (f_equal (λ l, l !! length (omap out_frame o1))) in E.
      rewrite lookup_app_r, length_fmap, Nat.sub_diag in E by (by rewrite length_fmap). cbn in E. symmetry in E. apply lookup_seqZ in E as [E _]. lia. }
    split; [intros g [= <-]; done|]. cbn. lia. }
  cbn [in_order]. unfold after_all. cbn [foldl]. rewrite Ha. change (o :: items) with ([o] ++ items). rewrite app_assoc.
  destruct (IH (o1 ++ [o])) as [H1 H2]; [by rewrite <- !app_assoc|]. split; [split; [done|exact H1]|exact H2].
Qed.

(** *** The invariant *)

Record SysInv (p : Size) (y : System) : Prop := mk_sysinv {
  si_traced : TaskTraced p (sy_task y);
  si_taken : (sy_taken y ≤ length (out (sy_task y)))%nat;
  si_handled : (sy_handled y ≤ length (w_inbox (sy_conn y)))%nat;
  si_flowing : Flowing (frames_before (sy_taken y) (sy_task y)) (sy_conn y);
  si_flushed : q_output (w_queue (sy_conn y)) = [];
  si_carried : ∀ x, x ∈ wire_frames (w_sent (sy_conn y)) → x ∈ omap out_kind (take (sy_taken y) (out (sy_task y)));
  si_resync : awaiting_keyframe (w_queue (sy_conn y)) = true →
    IRequestKeyframe ∈ drop (sy_handled y) (w_inbox (sy_conn y)) ∨ ∃ f, OKeyframe f ∈ drop (sy_taken y) (out (sy_task y))
}.

(** The task goes on: it stays traced and its messages grow. *)
Lemma sysinv_task p t t' n c h :
  TaskTraced p t' → grows t t' → SysInv p (mk_system t n c h) → SysInv p (mk_system t' n c h).
Proof.
  intros Ht [l El] [H1 H2 H3 H4 H5 H6 H7]. cbn in *. assert (take n (out t') = take n (out t)) as Et by (rewrite El, take_app_le; done).
  split; cbn; [done|rewrite El, length_app; lia|done|unfold frames_before; by rewrite Et|done|by rewrite Et|].
  intros Ha. destruct (H7 Ha) as [?|[f Hf]]; [by left|]. right. exists f. rewrite El, drop_app_le by done. apply elem_of_app. by left.
Qed.

Lemma sysinv_start p y : sys_start p y → SysInv p y.
Proof.
  intros (now & w & a & f & hl & s & b & evs & left & Et & Hn & Ej & Eh). destruct y as [t n c h]. cbn in *. subst h t.
  unfold join, send_raw, conn_new in Ej. cbn in Ej.
  assert (c = mk_conn [(1, WJoin)] (pred <$> left) 2 (queue_new OUTBOUND_CAP) []) as -> by (destruct left as [[|m]|]; [discriminate Ej|by injection Ej as <-..]).
  split; cbn; [apply rounds_traced, task_new_traced|done|lia| |done|by intros x ?%elem_of_nil|done].
  split; [done|done|]. cbn. eexists. split; [reflexivity|]. rewrite Z.sub_diag. split; [done|]. by intros x [=].
Qed.

Lemma sysinv_inbound p now m t n c h :
  w_inbox c !! h = Some m → SysInv p (mk_system t n c h) → SysInv p (mk_system (handle_inbound now m t) n c (S h)).
Proof.
  intros Hm Hi. pose proof (sysinv_task p t (handle_inbound now m t) n c h (inbound_traced p now m t (si_traced _ _ Hi)) (grows_inbound now m t) Hi) as [H1 H2 H3 H4 H5 H6 H7].
  cbn in *. pose proof (lookup_lt_Some _ _ _ Hm) as Hlt. split; cbn; try done. intros Ha. destruct (H7 Ha) as [Hr|Hk]; [|by right].
  rewrite (drop_S _ _ _ Hm) in Hr. apply elem_of_cons in Hr as [<-|Hr]; [|by left]. right.
  destruct (grows_request now t) as [k Ek]. exists k. cbn [handle_inbound]. rewrite Ek, drop_app_le by apply (si_taken _ _ Hi). apply elem_of_app. right. left.
Qed.

Lemma sysinv_relay p k t n c c' h :
  (n + k ≤ length (out t))%nat → relay_batch (take k (drop n (out t))) c = (c', Ok false) →
  SysInv p (mk_system t n c h) → SysInv p (mk_system t (n + k) c' h).
Proof.
  intros Hk E [H1 H2 H3 H4 H5 H6 H7]. cbn in *. set (items := take k (drop n (out t))) in *.
  assert (out t = take n (out t) ++ items ++ drop k (drop n (out t))) as Eo by (unfold items; by rewrite take_drop, take_drop).
  assert (take (n + k) (out t) = take n (out t) ++ items) as Et by (unfold items; by rewrite take_take_drop).
  pose proof (tr_seq _ _ _ H1) as Hs. rewrite Eo in Hs at 1. destruct (in_order_of _ _ _ _ Hs) as [Ho Ha].
  destruct (relay_batch_flowing _ _ _ _ _ E H4 Ho) as (_ & [l Hl] & Hf). destruct (Hf eq_refl) as [Hfl Hw].
  split; cbn; [done|done|rewrite Hl, length_app; lia|unfold frames_before; rewrite Et, <- Ha; exact Hfl| | |].
  - destruct (awaiting_keyframe (w_queue c')) eqn:Ea; [by pose proof (fl_queue _ _ Hfl) as Hq; rewrite Ea in Hq|].
    unfold relay_batch, st_bind in E. destruct (handle_items items c) as [c1 [[]|e]] eqn:E1; [unfold wire_flush in E; by destruct (w_left c1) as [[|m]|]| |done].
    destruct (flush c1) as [c2 [[]|e]] eqn:E2; [|done]. injection E as ->.
    destruct (handle_items_flowing _ _ _ _ _ E1 H4 Ho) as (_ & _ & Hf1). destruct (Hf1 eq_refl) as [Hfl1 _]. by destruct (flush_flowing _ _ _ _ E2 Hfl1) as (_ & _ & (_ & _ & ?)).
  - intros x Hx. rewrite Et, omap_app, elem_of_app.
    destruct (relay_batch_carried _ _ _ E x) as [Hc|?]; [unfold carried; apply elem_of_app; by left| |by right].
    left. apply H6. unfold carried in Hc. by rewrite H5, app_nil_r in Hc.
  - intros Ha'. destruct (Hw Ha') as [[Hb Hn]|Hin].
    + destruct (H7 Hb) as [Hr|[f Hf']].
      * left. rewrite Hl, drop_app_le by done. apply elem_of_app. by left.
      * right. exists f. rewrite <- drop_drop. rewrite <- (take_drop k (drop n (out t))), elem_of_app in Hf'. destruct Hf' as [Hf'|?]; [by destruct (Hn f)|done].
    + left. rewrite Hl in Hin |- *. rewrite drop_app_length in Hin. rewrite drop_app_le by done. apply elem_of_app. by right.
Qed.

Lemma sysinv_step p y y' : sys_step y y' → SysInv p y → SysInv p y'.
Proof.
  intros [now a t t' n c h Ha E|now m t n c h Hm|k t n c c' h Hk Hn E|ms t n c h|t n c c' h E] Hi.
  - apply (sysinv_task p t); [|pose proof (grows_round now a t) as Hg; by rewrite E in Hg|done].
    pose proof (round_traced p now a t (si_traced _ _ Hi)) as Ht. by rewrite E in Ht.
  - by apply sysinv_inbound.
  - by apply (sysinv_relay p k t n c).
  - destruct Hi as [H1 H2 H3 H4 H5 H6 H7]. cbn in *. split; cbn; [done|done|rewrite length_app; lia|by apply (flowing_other _ c)|done|done|].
    intros Ha. destruct (H7 Ha) as [?|?]; [|by right]. left. rewrite drop_app_le by done. apply elem_of_app. by left.
  - destruct (push_other_gaps WHeartbeat c c' _ eq_refl E) as (Hw & Hq & Hb). destruct Hi as [H1 H2 H3 H4 H5 H6 H7]. cbn in *.
    split; cbn; [done|done|by rewrite Hb|by apply (flowing_other _ c)|by rewrite Hq|by rewrite Hw|by rewrite Hq, Hb].
Qed.

Lemma sysinv_reachable p y : sys_reachable p y → SysInv p y.
Proof. intros (y0 & Hs & Hr). apply sysinv_start in Hs. induction Hr as [|y0 y1 y2 Hst _ IH]; [done|]. by apply IH, (sysinv_step p y0). Qed.

(** A run of frames with the next numbers stands in a numbered list as it is. *)
Lemma contiguous_run (L : list (bool * Frame)) N outs i x :
  (λ y : bool * Frame, f_seq y.2) <$> L = seqZ 1 N → L !! i = Some x → linked follows (x :: outs) → Forall (λ y : bool * Frame, y.1 = false) outs → (∀ y, y ∈ outs → y ∈ L) →
  ∃ rest, drop i L = x :: outs ++ rest.
Proof.
  intros HL. assert (∀ j y, L !! j = Some y → f_seq y.2 = Z.of_nat j + 1) as Hseq.
  { intros j y Hj. apply (f_equal (λ l, l !! j)) in HL. rewrite list_lookup_fmap, Hj in HL. symmetry in HL. apply lookup_seqZ in HL as [E _]. lia. }
  revert i x. induction outs as [|y outs IH]; intros i x Hx Hl Hf Hin; [exists (drop (S i) L); by apply drop_S|].
  destruct Hl as [Hr Hl]. apply Forall_cons in Hf as [Hy Hf]. assert (y ∈ L) as [j Hj]%list_elem_of_lookup by (apply Hin; left).
  assert (j = S i) as ->. { specialize (Hr Hy). rewrite (Hseq _ _ Hx), (Hseq _ _ Hj) in Hr. lia. }
  destruct (IH (S i) y Hj Hl Hf) as [rest Er]; [intros z Hz; apply Hin; by right|]. exists rest. rewrite (drop_S _ _ _ Hx). by rewrite Er.
Qed.

(** C31: however the session, its transport and the hub take turns, what a viewer reads from a keyframe on
    up to the next is what the session sent from that keyframe on, with nothing left out and nothing
    from elsewhere, also when a backlog was dropped in between. *)
Theorem viewers_read_without_gaps p y l1 k outs l2 :
  sys_reachable p y → wire_frames (w_sent (sy_conn y)) = l1 ++ (true, k) :: outs ++ l2 → Forall (λ x : bool * Frame, x.1 = false) outs →
  ∃ o1 o2, omap out_kind (out (sy_task y)) = o1 ++ (true, k) :: outs ++ o2.
Proof.
  intros Hy%sysinv_reachable E Hf. destruct Hy as [H1 H2 H3 H4 H5 H6 H7].
  assert (∀ x, x ∈ wire_frames (w_sent (sy_conn y)) → x ∈ omap out_kind (out (sy_task y))) as Hin.
  { intros x Hx%H6. rewrite <- (take_drop (sy_taken y) (out (sy_task y))), omap_app. apply elem_of_app. by left. }
  set (L := omap out_kind (out (sy_task y))) in *.
  assert ((λ x : bool * Frame, f_seq x.2) <$> L = seqZ 1 (next_seq (screen (sy_task y)) - 1)) as HL.
  { rewrite <- (tr_seq _ _ _ H1). unfold L. generalize (out (sy_task y)). intros o. induction o as [|[f|f|c r|] o IH]; cbn; [done|by f_equal..|done|done]. }
  assert ((true, k) ∈ L) as [i Hi]%list_elem_of_lookup by (apply Hin; rewrite E; apply elem_of_app; right; left).
  destruct (contiguous_run L _ outs i (true, k) HL Hi) as [rest Er].
  - pose proof (fl_gaps _ _ H4) as Hg. unfold no_gaps in Hg. rewrite E in Hg. apply linked_app_r in Hg. by apply (linked_app_l follows ((true, k) :: outs) l2).
  - done.
  - intros x Hx. apply Hin. rewrite E. apply elem_of_app. right. right. apply elem_of_app. by left.
  - exists (take i L), rest. rewrite <- Er. symmetry. apply take_drop.
Qed.

(** A dropped backlog is always made good: as long as a keyframe is awaited one is asked for or under
    way, and once all that is under way has been read, output flows again and the viewers have the last
    frame of the session. *)
Theorem resync_never_lost p y :
  sys_reachable p y →
  (awaiting_keyframe (w_queue (sy_conn y)) = true →
   IRequestKeyframe ∈ drop (sy_handled y) (w_inbox (sy_conn y)) ∨ ∃ f, OKeyframe f ∈ drop (sy_taken y) (out (sy_task y))) ∧
  (sy_handled y = length (w_inbox (sy_conn y)) → sy_taken y = length (out (sy_task y)) →
   awaiting_keyframe (w_queue (sy_conn y)) = false ∧
   ∀ x, last (wire_frames (w_sent (sy_conn y))) = Some x → f_seq x.2 = Z.of_nat (length (omap out_frame (out (sy_task y))))).
Proof.
  intros Hy%sysinv_reachable. destruct Hy as [H1 H2 H3 H4 H5 H6 H7]. split; [done|]. intros Eh En.
  assert (awaiting_keyframe (w_queue (sy_conn y)) = false) as Ea.
  { destruct (awaiting_keyframe _); [|done]. destruct (H7 eq_refl) as [Hr|[f Hf]]; [rewrite Eh, drop_all in Hr; by apply elem_of_nil in Hr|].
    rewrite En, drop_all in Hf. by apply elem_of_nil in Hf. }
  split; [done|]. pose proof (fl_queue _ _ H4) as Hq. rewrite Ea, H5 in Hq. destruct Hq as (k & Hk & Hs & Hl). intros x Hx. rewrite (Hl x Hx).
  assert (k = frames_before (sy_taken y) (sy_task y)) as ->.
  { destruct (decide (k = frames_before (sy_taken y) (sy_task y))); [done|]. rewrite seqZ_cons in Hs by lia. done. }
  unfold frames_before. by rewrite En, firstn_all.
Qed.
End system.

(** ** The input of viewers and the links *)

Section inbound.
Context `{Json, Base64, Aead, UrlLib}.

Definition delivered (ms : list Inbound) : list (list Z) := omap (λ m, match m with IInput b => Some b | _ => None end) ms.
Definition disabled (ms : list Inbound) : nat := length (omap (λ m, match m with IInputDisabled => Some tt | _ => None end) ms).
Definition links (ms : list Inbound) : list string := omap (λ m, match m with IConnected u _ => Some u | _ => None end) ms.

(** A blob that was opened and what was in it. *)
Definition opened (key : list Z) (blob plain : list Z) : Prop :=
  decrypt key blob (frame_aad KInput 0) = Ok plain ∧ plain ≠ [] ∧ (NONCE_LEN ≤ length blob ≤ MAX_INPUT_BLOB_BYTES)%nat.

(** A link on the origin of the hub, with the key as its fragment. *)
Definition link_ok (hub : Url) (fragment : string) (u : string) : Prop :=
  ∃ raw join, u = (raw +:+ "#" +:+ fragment)%string ∧ url_parse raw = Some join ∧ same_origin hub join = true.

(** The transport after the messages [ms]: the ledger holds the nonces of the blobs that were opened. *)
Record Ledger (hub : Url) (w : WriteMode) (key : list Z) (fragment : string) (cap : nat) (t : Transport) (blobs : list (list Z)) (ms : list Inbound) : Prop := mk_ledger_ok {
  lg_same : hub_url t = hub ∧ t_write t = w ∧ t_key t = key ∧ key_fragment t = fragment ∧ led_cap (input_nonces t) = cap;
  lg_opened : Forall2 (opened key) blobs (delivered ms);
  lg_nodup : NoDup (take NONCE_LEN <$> blobs);
  lg_seen : seen (input_nonces t) = list_to_set (take NONCE_LEN <$> blobs);
  lg_cap : (length blobs ≤ cap)%nat;
  lg_write : w = ReadOnly → blobs = [];
  lg_once : if exhausted_notified t then (disabled ms + (if disabled_pending t then 1 else 0) ≤ 1)%nat
            else disabled_pending t = false ∧ disabled ms = O;
  lg_links : Forall (link_ok hub fragment) (links ms);
  lg_first : ∀ u, first_url t = Some u → link_ok hub fragment u
}.

Lemma delivered_app a b : delivered (a ++ b) = delivered a ++ delivered b.
Proof. apply omap_app. Qed.
Lemma disabled_app a b : disabled (a ++ b) = (disabled a + disabled b)%nat.
Proof. unfold disabled. by rewrite omap_app, length_app. Qed.
Lemma links_app a b : links (a ++ b) = links a ++ links b.
Proof. apply omap_app. Qed.

(** Messages that are neither input nor links nor the notice. *)
Definition plain_message (m : Inbound) : bool := match m with IInput _ | IInputDisabled | IConnected _ _ => false | _ => true end.

Lemma ledger_messages hub w key fr cap t blobs ms ms' :
  forallb plain_message ms' = true → Ledger hub w key fr cap t blobs ms → Ledger hub w key fr cap t blobs (ms ++ ms').
Proof.
  intros Hm [L1 L2 L3 L4 L5 L6 L7 L8 L9].
  assert (delivered ms' = [] ∧ disabled ms' = O ∧ links ms' = []) as (E1 & E2 & E3).
  { clear -Hm. unfold disabled. induction ms' as [|[] ms' IH]; cbn in *; try done; by apply IH. }
  split; rewrite ?delivered_app, ?disabled_app, ?links_app, ?E1, ?E2, ?E3, ?app_nil_r, ?Nat.add_0_r; done.
Qed.

Lemma ledger_drops hub w key fr cap t blobs ms d :
  Ledger hub w key fr cap t blobs ms → Ledger hub w key fr cap (with_drops t d) blobs ms.
Proof. by intros [L1 L2 L3 L4 L5 L6 L7 L8 L9]. Qed.

Lemma ledger_notice hub w key fr cap t blobs ms :
  Ledger hub w key fr cap t blobs ms →
  Ledger hub w key fr cap (take_notice t).1 blobs (ms ++ if (take_notice t).2 then [IInputDisabled] else []).
Proof.
  intros [L1 L2 L3 L4 L5 L6 L7 L8 L9]. cbn. destruct (disabled_pending t) eqn:Ep.
  - split; cbn; rewrite ?delivered_app, ?disabled_app, ?links_app; cbn; rewrite ?app_nil_r; try done. destruct (exhausted_notified t); [lia|by destruct L7].
  - rewrite app_nil_r. by split.
Qed.

Lemma ledger_decrypt hub w key fr cap t blobs ms blob :
  Ledger hub w key fr cap t blobs ms →
  match decrypt_input t blob with
  | (t', Some plain) => ∃ blobs', Ledger hub w key fr cap t' blobs' (ms ++ [IInput plain])
  | (t', None) => Ledger hub w key fr cap t' blobs ms
  end.
Proof.
  intros Hl. unfold decrypt_input. destruct (is_write_enabled (t_write t)) eqn:Ew; cbn [negb]; [|by apply ledger_drops].
  destruct (MAX_INPUT_BLOB_BYTES <? length blob)%nat eqn:El; [by apply ledger_drops|]. destruct (length blob <? NONCE_LEN)%nat eqn:En; [by apply ledger_drops|].
  destruct (contains (input_nonces t) (take NONCE_LEN blob)) eqn:Ec; [by apply ledger_drops|].
  destruct (is_full (input_nonces t)) eqn:Ef.
  - destruct Hl as [L1 L2 L3 L4 L5 L6 L7 L8 L9]. split; cbn; try done. destruct (exhausted_notified t); cbn; [by rewrite orb_false_r|].
    destruct L7 as [-> ->]. cbn. lia.
  - destruct (decrypt (t_key t) blob (frame_aad KInput 0)) as [[|z plain]|e] eqn:Ed; [by apply ledger_drops| |by apply ledger_drops].
    exists (blobs ++ [blob]). destruct Hl as [(L0 & Lw & Lk & Lf & Lc) L2 L3 L4 L5 L6 L7 L8 L9].
    assert (take NONCE_LEN blob ∉ take NONCE_LEN <$> blobs) as Hnew.
    { unfold contains in Ec. apply bool_decide_eq_false in Ec. rewrite L4 in Ec. by rewrite elem_of_list_to_set in Ec. }
    split; cbn [with_input hub_url t_write t_key key_fragment input_nonces record led_cap seen exhausted_notified disabled_pending first_url]; try done.
    + rewrite delivered_app. apply Forall2_app; [done|]. apply Forall2_cons. split; [|constructor].
      apply Nat.ltb_ge in En, El. rewrite Lk in Ed. by split_and!.
    + rewrite fmap_app. apply NoDup_app. split_and!; [done| |apply NoDup_singleton]. intros x Hx ->%list_elem_of_singleton. done.
    + rewrite L4, fmap_app, list_to_set_app_L. cbn. set_solver.
    + unfold is_full in Ef. apply Nat.leb_gt in Ef. rewrite L4, size_list_to_set, length_fmap, Lc in Ef by done. rewrite length_app. cbn. lia.
    + intros E. exfalso. subst w. by rewrite E in Ew.
    + rewrite disabled_app. cbn. by rewrite Nat.add_0_r.
    + by rewrite links_app, app_nil_r.
Qed.

Lemma ledger_joined hub w key fr cap t blobs ms response :
  Ledger hub w key fr cap t blobs ms → let '(t', ms', _) := on_joined t response in Ledger hub w key fr cap t' blobs (ms ++ ms').
Proof.
  intros Hl. unfold on_joined. set (raw := default _ _). destruct (url_parse raw) as [j|] eqn:Ep; cbn [negb]; [|by rewrite app_nil_r].
  destruct (same_origin (hub_url t) j) eqn:Es; cbn [negb]; [|by rewrite app_nil_r].
  destruct Hl as [(L0 & Lw & Lk & Lf & Lc) L2 L3 L4 L5 L6 L7 L8 L9].
  assert (link_ok hub fr (raw +:+ "#" +:+ key_fragment t)) as Hok by (exists raw, j; rewrite Lf, <- L0; done).
  split; cbn; rewrite ?delivered_app, ?disabled_app; cbn; rewrite ?app_nil_r, ?Nat.add_0_r; try done.
  - rewrite links_app. apply Forall_app. split; [done|]. by constructor.
  - intros u. destruct (first_url t) as [u'|] eqn:Eu; [intros [= <-]; by apply L9|by intros [= <-]].
Qed.

Lemma from_event_plain event payload m : from_event event payload = Some m → (∃ b, m = IInput b) ∨ plain_message m = true.
Proof.
  unfold from_event. repeat case_decide; try done.
  - destruct (b64_decode _); [|done]. intros [= <-]. left. by eexists.
  - intros (c & _ & (c' & _ & (r & _ & (r' & _ & [= <-])%bind_Some)%bind_Some)%bind_Some)%bind_Some. by right.
  - intros (n & _ & (n' & _ & [= <-])%bind_Some)%bind_Some. by right.
  - intros [= <-]. by right.
Qed.

Lemma ledger_text hub w key fr cap t blobs ms raw :
  Ledger hub w key fr cap t blobs ms → let '(t', ms', _) := handle_text t raw in ∃ blobs', Ledger hub w key fr cap t' blobs' (ms ++ ms').
Proof.
  intros Hl. unfold handle_text. destruct (parse_incoming raw) as [[ref ok response|event payload|reason| |]|e]; try (exists blobs; by rewrite app_nil_r).
  - case_decide; [|exists blobs; by rewrite app_nil_r]. destruct ok; [|exists blobs; by rewrite app_nil_r].
    pose proof (ledger_joined hub w key fr cap t blobs ms response Hl) as Hj. destruct (on_joined t response) as [[t' ms'] r]. by exists blobs.
  - destruct (from_event event payload) as [m|] eqn:Ef; [|exists blobs; by rewrite app_nil_r].
    destruct (from_event_plain _ _ _ Ef) as [[b ->]|Hp].
    + pose proof (ledger_decrypt hub w key fr cap t blobs ms b Hl) as Hd. destruct (decrypt_input t b) as [t' [plain|]]; [done|]. cbn [fst snd].
      exists blobs. exact (ledger_notice _ _ _ _ _ _ _ _ Hd).
    + destruct m; try discriminate Hp; (exists blobs; by apply ledger_messages).
Qed.

(** *** Over connections *)

(** What a connection asks of the session by itself. *)
Definition only_requests (c c' : Conn) : Prop := ∃ ms, w_inbox c' = w_inbox c ++ ms ∧ forallb plain_message ms = true.
#[local] Instance only_requests_preorder : PreOrder only_requests.
Proof.
  split; [intros c; exists []; by rewrite app_nil_r|]. intros x y z (l1 & E1 & P1) (l2 & E2 & P2). exists (l1 ++ l2). by rewrite E2, E1, app_assoc, forallb_app, P1, P2.
Qed.

Lemma requests_push i c : only_requests c (push i c).1.
Proof. unfold push, st_bind, take_ref, send_raw. cbn. destruct (w_left c) as [[|m]|]; exists []; by rewrite app_nil_r. Qed.
Lemma requests_bind {A B} (m : CM A) (k : A → CM B) c :
  (∀ c, only_requests c (m c).1) → (∀ a c, only_requests c (k a c).1) → only_requests c (st_bind m k c).1.
Proof. intros Hm Hk. unfold st_bind. specialize (Hm c). destruct (m c) as [c1 [a|e]]; [|done]. cbn in Hm. etrans; [exact Hm|apply Hk]. Qed.
Lemma requests_push_all fs c : only_requests c (push_all fs c).1.
Proof.
  revert c. induction fs as [|f fs IH]; intros c; [done|]. cbn [push_all]. apply requests_bind; [intros; apply requests_push|auto].
Qed.
Lemma requests_flush c : only_requests c (flush c).1.
Proof.
  unfold flush. apply requests_bind; [done|]. intros q c'. destruct (awaiting_keyframe q); [done|]. apply requests_bind; [|intros; apply requests_push_all].
  intros c2. exists []. by rewrite app_nil_r.
Qed.
Lemma requests_outbound o c : only_requests c (handle_outbound o c).1.
Proof.
  destruct o; cbn [handle_outbound].
  - apply requests_bind; [intros c2; exists []; by rewrite app_nil_r|]. intros [] c1. apply requests_bind; [done|]. intros q c2. destruct (needs_keyframe q); [|done].
    apply requests_bind; [intros c3; exists []; by rewrite app_nil_r|]. intros [] c3. apply requests_bind; [|done]. intros c4. by exists [IRequestKeyframe].
  - apply requests_bind; [intros; apply requests_flush|]. intros [] c1. apply requests_bind; [intros; apply requests_push|]. intros [] c2.
    apply requests_bind; [intros c3; exists []; by rewrite app_nil_r|done].
  - apply requests_bind; [intros; apply requests_flush|]. intros [] c1. apply requests_bind; [intros; apply requests_push|done].
  - apply requests_bind; [intros; apply requests_flush|]. intros [] c1. apply requests_bind; [intros; apply requests_push|done].
Qed.
Lemma requests_batch items c : only_requests c (relay_batch items c).1.
Proof.
  unfold relay_batch. apply requests_bind.
  - intros c1. revert c1. induction items as [|o items IH]; intros c1; [done|]. cbn [handle_items]. apply requests_bind; [intros; apply requests_outbound|].
    intros [] c2; [done|apply IH].
  - intros [] c1; [|apply requests_bind; [intros; apply requests_flush|done]]. apply requests_bind; [|done]. intros c2. unfold wire_flush. by destruct (w_left c2) as [[|m]|].
Qed.

Lemma ledger_requests hub w key fr cap t blobs ms c c' :
  only_requests c c' → Ledger hub w key fr cap t blobs (ms ++ w_inbox c) → Ledger hub w key fr cap t blobs (ms ++ w_inbox c').
Proof. intros (l & -> & Hp) Hl. rewrite app_assoc. by apply ledger_messages. Qed.

Lemma ledger_arms hub w key fr cap l t c blobs ms :
  Ledger hub w key fr cap t blobs (ms ++ w_inbox c) →
  let '(t', c', _) := arms t c l in ∃ blobs', Ledger hub w key fr cap t' blobs' (ms ++ w_inbox c').
Proof.
  revert t c blobs. induction l as [|a l IH]; intros t c blobs Hl; [by exists blobs|]. cbn [arms].
  assert (let '(t', c', _) := arm_step t c a in ∃ blobs', Ledger hub w key fr cap t' blobs' (ms ++ w_inbox c')) as Hs.
  { destruct a; cbn [arm_step]; try (by exists blobs).
    - pose proof (requests_push WHeartbeat c) as Hr. destruct (push WHeartbeat c) as [c1 [[]|e]]; exists blobs; by apply (ledger_requests _ _ _ _ _ _ _ _ c).
    - pose proof (ledger_text hub w key fr cap t blobs _ raw Hl) as Ht. destruct (handle_text t raw) as [[t' ms'] r]. cbn [w_inbox]. by rewrite app_assoc.
    - pose proof (requests_batch items c) as Hr. destruct (relay_batch items c) as [c1 [[]|e]]; exists blobs; by apply (ledger_requests _ _ _ _ _ _ _ _ c). }
  destruct (arm_step t c a) as [[t1 c1] [r|]]; [done|]. destruct Hs as [blobs1 Hone]. by apply (IH t1 c1 blobs1).
Qed.

Lemma ledger_backoff hub w key fr cap t blobs ms b :
  Ledger hub w key fr cap t blobs ms →
  Ledger hub w key fr cap (mk_transport (hub_url t) (t_write t) (t_key t) (key_fragment t) (input_nonces t) (exhausted_notified t) (disabled_pending t)
                     (input_drops t) (host_resume_token t) (last_public_token t) (first_url t) b) blobs ms.
Proof. by intros [L1 L2 L3 L4 L5 L6 L7 L8 L9]. Qed.

Lemma ledger_attempt hub w key fr cap t blobs ms stashed a :
  Ledger hub w key fr cap t blobs ms →
  let '(t', c, _) := connect_once t stashed (at_left a) (at_arms a) in ∃ blobs', Ledger hub w key fr cap t' blobs' (ms ++ w_inbox c).
Proof.
  intros Hl. unfold connect_once. assert (only_requests (conn_new (at_left a)) ((let! _ := join in relay_batch stashed) (conn_new (at_left a))).1) as Hr.
  { apply requests_bind; [|intros; apply requests_batch]. intros c. unfold join, send_raw. destruct (w_left c) as [[|m]|]; exists []; by rewrite app_nil_r. }
  assert (Ledger hub w key fr cap t blobs (ms ++ w_inbox (conn_new (at_left a)))) as Hzero by (cbn; by rewrite app_nil_r).
  destruct ((let! _ := join in relay_batch stashed) (conn_new (at_left a))) as [c [[]|e]]; cbn [fst] in Hr; pose proof (ledger_requests _ _ _ _ _ _ _ _ _ _ Hr Hzero) as Hone;
    [by exists blobs|by apply (ledger_arms hub w key fr cap (at_arms a) t c blobs)|by exists blobs].
Qed.

Lemma ledger_relay hub w key fr cap l t stashed blobs ms :
  Ledger hub w key fr cap t blobs ms →
  let '(t', _, ms', _) := relay t stashed l in ∃ blobs', Ledger hub w key fr cap t' blobs' (ms ++ ms').
Proof.
  revert t stashed blobs ms. induction l as [|a l IH]; intros t stashed blobs ms Hl; [exists blobs; by rewrite app_nil_r|]. cbn [relay].
  set (tried := if at_opens a then _ else _).
  assert (let '(t', _, ms', _) := tried in ∃ blobs', Ledger hub w key fr cap t' blobs' (ms ++ ms')) as Hs.
  { unfold tried. destruct (at_opens a); [|exists blobs; by rewrite app_nil_r]. pose proof (ledger_attempt hub w key fr cap t blobs ms stashed a Hl) as Ha.
    by destruct (connect_once t stashed (at_left a) (at_arms a)) as [[t' c] r]. }
  destruct tried as [[[t1 pushed] ms1] r]. destruct Hs as [blobs1 Hone].
  set (again := relay _ _ l).
  assert (let '(t', _, ms', _) := again in ∃ blobs', Ledger hub w key fr cap t' blobs' (ms ++ ms1 ++ IDisconnected :: ms')) as Hagain.
  { unfold again. match goal with |- context [relay ?t2 ?s2 l] => pose proof (IH t2 s2 blobs1 ((ms ++ ms1) ++ [IDisconnected]) (ledger_messages _ _ _ _ _ _ _ _ [IDisconnected] eq_refl (ledger_backoff _ _ _ _ _ _ _ _ _ Hone))) as Hi; destruct (relay t2 s2 l) as [[[t3 p3] ms3] r3] end.
    destruct Hi as [blobs3 Hthree]. exists blobs3. by rewrite <- !app_assoc in Hthree. }
  destruct again as [[[t3 p3] ms3] r3]. destruct r as [[[]|[]]|]; solve [exact Hagain | by exists blobs1].
Qed.

(** C32: over all connections of a share, whatever the hub sends, the input that reaches the session was
    sealed under its key by someone, each blob at most once, never more than the budget and none at all
    when viewers may only read; the host is told at most once that input is over; and every link that is
    handed out is on the origin of the hub. *)
Theorem input_is_replay_free hub w key fragment stashed l :
  let '(_, _, ms, _) := relay (transport_new hub w key fragment) stashed l in
  (∃ blobs, Forall2 (opened key) blobs (delivered ms) ∧ NoDup (take NONCE_LEN <$> blobs) ∧ (length blobs ≤ INPUT_NONCE_CAP)%nat ∧ (w = ReadOnly → blobs = [])) ∧
  (disabled ms ≤ 1)%nat ∧ Forall (link_ok hub fragment) (links ms).
Proof.
  assert (Ledger hub w key fragment INPUT_NONCE_CAP (transport_new hub w key fragment) [] []) as Hzero.
  { split; try done; [apply NoDup_nil_2|cbn; lia]. }
  pose proof (ledger_relay hub w key fragment INPUT_NONCE_CAP l _ stashed [] [] Hzero) as Hr.
  destruct (relay (transport_new hub w key fragment) stashed l) as [[[t p] ms] r]. destruct Hr as [blobs [L1 L2 L3 L4 L5 L6 L7 L8 L9]]. split; [by exists blobs|]. split; [|done].
  change ([] ++ ms) with ms in L7. destruct (exhausted_notified t), (disabled_pending t); lia.
Qed.
End inbound.

(** ** Sealed frames are bound to their place *)

Section sealed.
Context `{AeadLaws, UrlLib}.

Lemma frame_aad_inj k k' s s' : is_u64 s → is_u64 s' → frame_aad k s = frame_aad k' s' → k = k' ∧ s = s'.
Proof.
  unfold frame_aad. generalize (unbe_be 8 s), (unbe_be 8 s'). generalize (be 8 s), (be 8 s'). intros l l' Hl Hl' Hs Hs' [= Ek ->].
  split; [by destruct k, k'|]. rewrite <- Hl, <- Hl' by (unfold is_u64, u64_limit in *; lia). done.
Qed.

Lemma open_sealed_frame key nonce data aad aad' :
  length nonce = NONCE_LEN →
  decrypt key (encrypt key nonce data aad) aad' = if decide (aad' = aad) then Ok data else Err DecryptFailed.
Proof.
  intros Hn. unfold decrypt, encrypt. rewrite take_app_length', drop_app_length', length_app, seal_length by done.
  destruct (Nat.ltb_spec (length nonce + (length data + TAG_LEN)) (NONCE_LEN + TAG_LEN)) as [|_]; [lia|]. case_decide as Ha.
  - by rewrite Ha, open_seal.
  - destruct (open_ key nonce (seal_ key nonce data aad) aad') as [p|] eqn:Eo; [|done]. by apply open_bound in Eo.
Qed.

(** A sealed frame opens to its bytes as the kind and at the number it was sealed for and as nothing
    else, so that a hub can neither move a frame to another place nor hand the output of the host back as
    input of a viewer. *)
Theorem frames_open_in_place key nonce kind seq data :
  length nonce = NONCE_LEN → is_u64 seq →
  (∀ kind' seq', is_u64 seq' →
     decrypt key (encrypt key nonce data (frame_aad kind seq)) (frame_aad kind' seq') =
       if bool_decide (kind' = kind) && (seq' =? seq) then Ok data else Err DecryptFailed) ∧
  (kind ≠ KInput → ∀ t, t_key t = key → (decrypt_input t (encrypt key nonce data (frame_aad kind seq))).2 = None).
Proof.
  intros Hn Hs. split.
  - intros kind' seq' Hs'. rewrite open_sealed_frame by done. case_decide as Ha.
    + destruct (frame_aad_inj _ _ _ _ Hs' Hs Ha) as [-> ->]. by rewrite bool_decide_true, Z.eqb_refl by done.
    + case_bool_decide as Hk; [|done]. destruct (Z.eqb_spec seq' seq) as [->|]; [|done]. by subst.
  - intros Hk t <-. unfold decrypt_input. repeat (case_match; try done).
    all: match goal with E : decrypt _ _ _ = Ok _ |- _ => rewrite open_sealed_frame in E by done; case_decide as Ha; [|done] end.
    all: destruct (frame_aad_inj KInput kind 0 seq) as [<- _]; by try (unfold is_u64, u64_limit).
Qed.
End sealed.

(** The key survives the link it travels in, and no fragment gives a key of another length. *)
Lemma key_travels_in_the_link `{UrlBase64Laws} key :
  Forall (λ b, 0 ≤ b < 256) key →
  from_fragment (to_fragment key) = if decide (length key = KEY_LEN) then Ok key else Err InvalidKey.
Proof. intros Hk. unfold from_fragment, to_fragment. by rewrite url_roundtrip. Qed.

(** ** Reconnecting *)

Fixpoint backoff_after (n : nat) (b : Backoff) : Backoff := match n with O => b | S n => (next_delay (backoff_after n b)).1 end.

Lemma backoff_attempts n : backoff_after n backoff_new = mk_backoff (Z.min u32_max (Z.of_nat n)) 500 10000.
Proof. induction n as [|n IH]; [done|]. cbn [backoff_after]. rewrite IH. unfold next_delay. cbn [attempt bo_base bo_cap fst]. f_equal. unfold u32_max. lia. Qed.

(** The delays before the attempts to reconnect double from half a second up to ten seconds, where
    they stay, however long the hub is away. *)
Theorem delays_double_up_to_the_cap n : (next_delay (backoff_after n backoff_new)).2 = Z.min (500 * 2 ^ Z.of_nat n) 10000.
Proof.
  rewrite backoff_attempts. unfold next_delay. cbn [attempt bo_base bo_cap snd]. destruct (decide (n < 5)%nat) as [Hn|Hn].
  - do 5 (destruct n as [|n]; [done|]). lia.
  - assert (2 ^ 5 ≤ 2 ^ Z.of_nat n) by (apply Z.pow_le_mono_r; lia). assert (2 ^ 5 ≤ 2 ^ Z.min u32_max (Z.of_nat n)) by (apply Z.pow_le_mono_r; unfold u32_max; lia).
    unfold u32_max in *. lia.
Qed.

(** ** A share that falls behind *)

Module ShareDemo.
Import SessionDemo.

#[export] Instance toy_b64 : Base64 := {|
  b64_encode := λ l, unchars (Ascii.ascii_of_nat <$> (Z.to_nat <$> l));
  b64_decode := λ s, Some (code <$> chars s)
|}.
(** A seal that keeps the text and makes the tag of the rest. *)
#[export] Instance toy_aead : Aead := {|
  seal_ := λ key nonce plain aad, plain ++ Z.pos (encode (key, nonce, aad)) :: replicate 15 0;
  open_ := λ key nonce sealed aad,
    let n := (length sealed - TAG_LEN)%nat in
    if decide (drop n sealed = Z.pos (encode (key, nonce, aad)) :: replicate 15 0) then Some (take n sealed) else None
|}.
#[export] Instance toy_aead_laws : AeadLaws.
Proof.
  split; intros; cbn [seal_ open_ toy_aead] in *; cbv zeta in *.
  - rewrite length_app, length_cons, length_replicate. change (S 15) with TAG_LEN. rewrite Nat.add_sub, drop_app_length, take_app_length.
    by rewrite decide_True.
  - rewrite length_app, length_cons, length_replicate in H. change (S 15) with TAG_LEN in H. rewrite Nat.add_sub, drop_app_length, take_app_length in H.
    case_decide as E; [|done]. assert (encode (key, nonce, aad) = encode (key, nonce, aad')) as Ee by congruence.
    apply (inj encode) in Ee. congruence.
  - rewrite length_app, length_cons, length_replicate. done.
Qed.
#[export] Instance toy_url : UrlLib := {|
  Url := string; url_parse := Some; url_scheme := λ _, "https"%string; url_host := Some; url_port := λ _, Some 443; url_text := id
|}.

Lemma frames_open_in_place_witness :
  decrypt [1; 2] (encrypt [1; 2] (replicate 12 7) [104; 105] (frame_aad KOutput 3)) (frame_aad KOutput 3) = Ok [104; 105] ∧
  decrypt [1; 2] (encrypt [1; 2] (replicate 12 7) [104; 105] (frame_aad KOutput 3)) (frame_aad KInput 0) = Err DecryptFailed.
Proof.
  destruct (frames_open_in_place [1; 2] (replicate 12 7) KOutput 3 [104; 105]) as [H _]; [done|unfold is_u64, u64_limit; lia|].
  split; [apply (H KOutput 3)|apply (H KInput 0)]; unfold is_u64, u64_limit; lia.
Defined.

(** A session that wrote 262 chunks before its transport took the first. *)
Definition t0 : SessionTask := (rounds ((λ n, (Z.of_nat n, ARead (ROutput [Z.of_nat n]))) <$> seq 0 262) (task_new 0 p0 ReadOnly true true false false None)).1.
Definition c0 : Conn := (join (conn_new None)).1.
Definition relayed (n k : nat) (t : SessionTask) (c : Conn) : Conn := (relay_batch (take k (drop n (out t))) c).1.
Definition c1 : Conn := relayed 0 264 t0 c0.
Definition t1 : SessionTask := handle_inbound 300 IRequestKeyframe t0.
Definition c2 : Conn := relayed 264 1 t1 c1.
Definition y2 : System := mk_system t1 265 c2 1.

Lemma y2_reachable : sys_reachable p0 y2.
Proof.
  exists (mk_system t0 0 c0 0). split.
  - exists 0, ReadOnly, true, true, false, false, None, ((λ n, (Z.of_nat n, ARead (ROutput [Z.of_nat n]))) <$> seq 0 262), None. split_and!; [done|cbn; lia|done|done].
  - eapply rtc_l; [apply (SysRelay 264 t0 0 c0 c1 0); [lia|vm_compute; lia|by vm_compute]|].
    eapply rtc_l; [apply (SysInbound 300 IRequestKeyframe t0 264 c1 0); by vm_compute|].
    apply rtc_once. apply (SysRelay 1 t1 264 c1 c2 1); [lia|vm_compute; lia|by vm_compute].
Qed.

(** The backlog was dropped: the first frames and the last keyframe are all that is on the wire. *)
Example y2_wire : (λ x : bool * Frame, (x.1, f_seq x.2)) <$> wire_frames (w_sent c2) = [(false, 1); (true, 2); (true, 264)].
Proof. by vm_compute. Qed.
Example c1_waits : awaiting_keyframe (w_queue c1) = true ∧ length (wire_frames (w_sent c1)) = 2%nat.
Proof. by vm_compute. Qed.

Lemma viewers_read_without_gaps_witness :
  ∃ k o1 o2, wire_frames (w_sent c2) !! 2%nat = Some (true, k) ∧ omap out_kind (out t1) = o1 ++ (true, k) :: o2.
Proof.
  set (w := wire_frames (w_sent c2)). destruct (w !! 2%nat) as [[b k]|] eqn:E; [|by vm_compute in E]. assert (b = true) as -> by (by vm_compute in E; injection E).
  exists k. destruct (viewers_read_without_gaps p0 y2 (take 2 w) k [] [] y2_reachable) as (o1 & o2 & Ho).
  - cbn [sy_conn y2]. fold w. rewrite <- (take_drop_middle w 2 _ E) at 1. do 2 f_equal.
  - constructor.
  - exists o1, o2. split; [reflexivity|]. cbn [sy_task y2] in Ho. exact Ho.
Defined.

Lemma resync_never_lost_witness :
  awaiting_keyframe (w_queue (sy_conn y2)) = false ∧
  ∀ x, last (wire_frames (w_sent (sy_conn y2))) = Some x → f_seq x.2 = Z.of_nat (length (omap out_frame (out (sy_task y2)))).
Proof.
  assert (sy_handled y2 = length (w_inbox (sy_conn y2))) as Hh by (vm_compute; reflexivity).
  assert (sy_taken y2 = length (out (sy_task y2))) as Ht by (vm_compute; reflexivity).
  exact (proj2 (resync_never_lost p0 y2 y2_reachable) Hh Ht).
Defined.

(** A connection that is lost while a keyframe is awaited is followed by one with a queue that does not
    know of it: output from beyond the gap is pushed before any keyframe. *)
Theorem reconnect_sends_past_the_gap :
  let backlog := take 264 (out t0) in
  let late := OOutput (mk_frame 264 [120]) in
  let '(_, pushed, _, _) := relay (transport_new "hub"%string ReadOnly [] ""%string) []
      [mk_attempt true None [AmItems backlog; AmClosed] [late]; mk_attempt true None [] []] in
  ((λ x : bool * Frame, (x.1, f_seq x.2)) <$> wire_frames (mjoin pushed)) = [(false, 1); (true, 2); (false, 264)].
Proof. by vm_compute. Qed.
End ShareDemo.
