(* ===== verification/Record.v ===== *)
(** * Records and series ([atuin-domain/src/record])

    The data every other component works on: [RecordTag] and [RecordVersion] with their string
    forms, the [record] type and the series a record belongs to. *)
From S2P Require Import Prelude.

(** ** Identifiers *)

(** [new_uuid!] wraps a [Uuid]; a UUID is its 128-bit value, ordered as such. *)
Abbreviation Uuid := N (only parsing).
Abbreviation RecordId := N (only parsing).
Abbreviation HostId := N (only parsing).
(** [type RecordIdx = u64]. *)
Abbreviation RecordIdx := Z (only parsing).

(** ** Tags *)

Inductive RecordTag : Type :=
| History
| Kv
| Script
| DotfilesVar
| ConfigShellAlias
| Packfile
| OtherTag (s : string).

#[export] Instance RecordTag_eq_dec : EqDecision RecordTag.
Proof. solve_decision. Defined.

Module Tag.

(** [as_ref] (strum's [AsRefStr] with the [serialize] attributes). *)
Definition as_str (t : RecordTag) : string :=
  match t with
  | History => "history"
  | Kv => "kv"
  | Script => "script"
  | DotfilesVar => "dotfiles-var"
  | ConfigShellAlias => "config-shell-alias"
  | Packfile => "packfile"
  | OtherTag s => s
  end.

(** [From<String>] (strum's [EnumString] with [Other] as the default). *)
Definition from_string (s : string) : RecordTag :=
  if decide (s = "history") then History
  else if decide (s = "kv") then Kv
  else if decide (s = "script") then Script
  else if decide (s = "dotfiles-var") then DotfilesVar
  else if decide (s = "config-shell-alias") then ConfigShellAlias
  else if decide (s = "packfile") then Packfile
  else OtherTag s.

Definition variant_rank (t : RecordTag) : Z :=
  match t with
  | History => 0
  | Kv => 1
  | Script => 2
  | DotfilesVar => 3
  | ConfigShellAlias => 4
  | Packfile => 5
  | OtherTag _ => 6
  end.

#[global] Instance ord_tag : Ord RecordTag := λ t u,
  then_cmp (cmp (as_str t) (as_str u)) (cmp (variant_rank t) (variant_rank u)).

(** The tags [from_string] produces: the only ones a store or the wire can hold. *)
Definition canonical (t : RecordTag) : bool := bool_decide (from_string (as_str t) = t).

End Tag.

(** ** Versions *)

Inductive RecordVersion : Type :=
| V0
| V1
| V2
| OtherVersion (s : string).

#[export] Instance RecordVersion_eq_dec : EqDecision RecordVersion.
Proof. solve_decision. Defined.

Module Version.

Definition as_str (v : RecordVersion) : string :=
  match v with V0 => "v0" | V1 => "v1" | V2 => "v2" | OtherVersion s => s end.

Definition from_string (s : string) : RecordVersion :=
  if decide (s = "v0") then V0
  else if decide (s = "v1") then V1
  else if decide (s = "v2") then V2
  else OtherVersion s.

Definition canonical (v : RecordVersion) : bool := bool_decide (from_string (as_str v) = v).

End Version.

(** ** Records *)

(** The key of an append-only journal. *)
Record RecordSeriesKey : Type := mk_series { host_id : HostId; s_tag : RecordTag }.

#[export] Instance RecordSeriesKey_eq_dec : EqDecision RecordSeriesKey.
Proof. solve_decision. Defined.

(** [Record<Data>]. The [host] field keeps the id of the [Host] struct, whose other field is the
    constant empty string. *)
Record record (Data : Type) : Type := mk_record {
  r_id : RecordId;
  r_idx : RecordIdx;
  r_host : HostId;
  r_timestamp : Z;
  r_version : RecordVersion;
  r_tag : RecordTag;
  r_data : Data
}.
Arguments mk_record {Data}.
Arguments r_id {Data}. Arguments r_idx {Data}. Arguments r_host {Data}.
Arguments r_timestamp {Data}. Arguments r_version {Data}. Arguments r_tag {Data}.
Arguments r_data {Data}.

#[export] Instance record_eq_dec {Data} `{EqDecision Data} : EqDecision (record Data).
Proof. solve_decision. Defined.

(** [DecryptedData(Vec<u8>)]: bytes are [Z] between 0 and 255. *)
Abbreviation DecryptedData := (list Z) (only parsing).

Section record_ops.
Context {Data : Type}.

Definition series_key (r : record Data) : RecordSeriesKey := mk_series (r_host r) (r_tag r).

(** [map_data] *)
Definition map_data {New} (f : Data → New) (r : record Data) : record New :=
  mk_record (r_id r) (r_idx r) (r_host r) (r_timestamp r) (r_version r) (r_tag r) (f (r_data r)).

(** [with_data] *)
Definition with_data {New} (d : New) (r : record Data) : record New := map_data (λ _, d) r.

(** [append]: the next record of the series, under a fresh id and the current time. *)
Definition append (new_id : RecordId) (now : Z) (r : record Data) (d : DecryptedData)
    : record DecryptedData :=
  mk_record new_id (wrapping_add (r_idx r) 1) (r_host r) now (r_version r) (r_tag r) d.
End record_ops.

(** [AdditionalData]: what the ciphertext of a record is bound to. *)
Record AdditionalData : Type := mk_ad {
  ad_id : RecordId; ad_idx : Z; ad_version : string; ad_tag : string; ad_host : HostId
}.

Definition additional_data {Data} (r : record Data) : AdditionalData :=
  mk_ad (r_id r) (r_idx r) (Version.as_str (r_version r)) (Tag.as_str (r_tag r)) (r_host r).

(** ** Lemmas on tags and versions *)

Lemma tag_as_str_from_string s : Tag.as_str (Tag.from_string s) = s.
Proof. unfold Tag.from_string. by repeat case_decide; subst. Qed.

Lemma tag_from_string_canonical s : Tag.canonical (Tag.from_string s) = true.
Proof. unfold Tag.canonical. by rewrite tag_as_str_from_string, bool_decide_eq_true. Qed.

Lemma tag_canonical_spec t : Tag.canonical t = true ↔ Tag.from_string (Tag.as_str t) = t.
Proof. apply bool_decide_eq_true. Qed.

(** On canonical tags the string form is injective: the text column of a store separates them. *)
Lemma tag_as_str_inj t u :
  Tag.canonical t = true → Tag.canonical u = true → Tag.as_str t = Tag.as_str u → t = u.
Proof. rewrite !tag_canonical_spec. intros Ht Hu He. by rewrite <- Ht, He, Hu. Qed.

Lemma version_as_str_from_string s : Version.as_str (Version.from_string s) = s.
Proof. unfold Version.from_string. by repeat case_decide; subst. Qed.

Lemma version_canonical_spec v :
  Version.canonical v = true ↔ Version.from_string (Version.as_str v) = v.
Proof. apply bool_decide_eq_true. Qed.

Lemma tag_rank_key_inj : Inj (=) (=) (λ t, (Tag.as_str t, Tag.variant_rank t)).
Proof.
  intros [] []; simpl; intros Heq; try done; try discriminate Heq; by injection Heq as ->.
Qed.

#[export] Instance ord_tag_laws : OrdLaws RecordTag.
Proof. exact (ord_on_laws _ tag_rank_key_inj). Qed.

#[export] Instance RecordTag_countable : Countable RecordTag.
Proof.
  apply (inj_countable' (λ t, (Tag.as_str t, Tag.variant_rank t)) (λ p,
    match p.2 with
    | 0 => History | 1 => Kv | 2 => Script | 3 => DotfilesVar
    | 4 => ConfigShellAlias | 5 => Packfile | _ => OtherTag p.1
    end)).
  by intros [].
Defined.

(** ** Series keys *)

#[export] Instance ord_series : Ord RecordSeriesKey := ord_on (λ s, (host_id s, s_tag s)).

#[export] Instance ord_series_laws : OrdLaws RecordSeriesKey.
Proof. apply ord_on_laws. intros [] []; simpl. by intros [= -> ->]. Qed.

#[export] Instance RecordSeriesKey_countable : Countable RecordSeriesKey.
Proof.
  apply (inj_countable' (λ s, (host_id s, s_tag s)) (λ p, mk_series p.1 p.2)). by intros [].
Defined.
