(* ===== verification/Status.v ===== *)
(** * The status index and its diff ([RecordStatus] in [atuin-domain/src/record/mod.rs])

    [RecordStatus] maps each host and tag to the highest index of that series. [diff] compares two
    of them; it is shown to be exactly the set of series on which they disagree. *)
From S2P Require Import Prelude Record.

(** ** Definitions *)

(** [struct Diff] *)
Record Diff : Type := mk_diff {
  d_series : RecordSeriesKey;
  d_local : option RecordIdx;
  d_remote : option RecordIdx
}.

#[export] Instance Diff_eq_dec : EqDecision Diff.
Proof. solve_decision. Defined.

(** [#[derive(PartialOrd, Ord)]] on [Diff]: field by field. *)
#[export] Instance ord_diff : Ord Diff := ord_on (λ d, (d_series d, (d_local d, d_remote d))).

Module Status.

(** A map of host -> tag -> max(idx). *)
Record t : Type := mk { hosts : gmap HostId (gmap RecordTag RecordIdx) }.

Definition new : t := mk ∅.

(** [set_raw]: [hosts.entry(host).or_default().insert(tag, tail)]. *)
Definition set_raw (st : t) (series : RecordSeriesKey) (tail : RecordIdx) : t :=
  let tags := default ∅ (hosts st !! host_id series) in
  mk (<[host_id series := <[s_tag series := tail]> tags]> (hosts st)).

(** [set]: index a record as the tail of its series. *)
Definition set {Data} (st : t) (tail : record Data) : t :=
  set_raw st (series_key tail) (r_idx tail).

(** [Extend::extend] *)
Definition extend (st : t) (l : list (RecordSeriesKey * RecordIdx)) : t :=
  foldl (λ acc p, set_raw acc p.1 p.2) st l.

Definition get (st : t) (series : RecordSeriesKey) : option RecordIdx :=
  tags ← hosts st !! host_id series; tags !! s_tag series.

(** The pairs the two nested [for] loops of [diff] visit, in the map's iteration order. *)
Definition entries (st : t) : list (RecordSeriesKey * RecordIdx) :=
  p ← map_to_list (hosts st);
  q ← map_to_list p.2;
  [(mk_series p.1 q.1, q.2)].

(** The body of the first loop: what [other] says about one of our series. *)
Definition diff_known (other : t) (p : RecordSeriesKey * RecordIdx) : option Diff :=
  match get other p.1 with
  | Some i => if i =? p.2 then None else Some (mk_diff p.1 (Some p.2) (Some i))
  | None => Some (mk_diff p.1 (Some p.2) None)
  end.

(** The body of the second loop: a series of [other] that we have never seen. *)
Definition diff_unknown (self : t) (p : RecordSeriesKey * RecordIdx) : option Diff :=
  match get self p.1 with
  | Some _ => None
  | None => Some (mk_diff p.1 None (Some p.2))
  end.

Definition diff (self other : t) : list Diff :=
  sort_by leb (omap (diff_known other) (entries self) ++ omap (diff_unknown self) (entries other)).

End Status.

(** ** Lemmas *)

#[export] Instance ord_diff_laws : OrdLaws Diff.
Proof. apply ord_on_laws. intros [] []; simpl. by intros [= -> -> ->]. Qed.

Lemma status_get_new s : Status.get Status.new s = None.
Proof. unfold Status.get, Status.new; simpl. by rewrite lookup_empty. Qed.

Lemma status_get_set_raw st s i s' :
  Status.get (Status.set_raw st s i) s' = if decide (s = s') then Some i else Status.get st s'.
Proof.
  unfold Status.get, Status.set_raw; simpl. destruct s as [h t], s' as [h' t']; simpl.
  destruct (decide (h = h')) as [<-|Hh].
  - rewrite lookup_insert_eq; simpl. destruct (decide (t = t')) as [<-|Ht].
    + by rewrite lookup_insert_eq, decide_True.
    + rewrite lookup_insert_ne, decide_False by congruence.
      destruct (Status.hosts st !! h); simpl; [done|apply lookup_empty].
  - by rewrite lookup_insert_ne, decide_False by congruence.
Qed.

Lemma status_entries_spec st s i : (s, i) ∈ Status.entries st ↔ Status.get st s = Some i.
Proof.
  unfold Status.entries, Status.get. split.
  - intros ([h m] & ([t j] & Hin & Hq)%list_elem_of_bind & Hp)%list_elem_of_bind.
    apply elem_of_map_to_list in Hp, Hq. simpl in *.
    apply list_elem_of_singleton in Hin as [= -> ->]. simpl. by rewrite Hp.
  - destruct s as [h t]; simpl. intros (m & Hm & Ht)%bind_Some.
    apply list_elem_of_bind. exists (h, m). split; [|by apply elem_of_map_to_list].
    apply list_elem_of_bind. exists (t, i). split; [by left|by apply elem_of_map_to_list].
Qed.

(** The first components of a flattened map of maps are distinct. *)
Lemma status_entries_NoDup st : NoDup (Status.entries st).*1.
Proof.
  unfold Status.entries. pose proof (NoDup_fst_map_to_list (Status.hosts st)) as Hnd.
  induction (map_to_list (Status.hosts st)) as [|[h m] l IH]; simpl in *; [constructor|].
  apply NoDup_cons in Hnd as [Hh Hnd]. rewrite fmap_app. apply NoDup_app. split_and!.
  - clear. pose proof (NoDup_fst_map_to_list m) as Hnd.
    induction (map_to_list m) as [|[t i] k IH]; simpl in *; [constructor|].
    apply NoDup_cons in Hnd as [Ht Hnd]. constructor; [|by apply IH].
    intros ([s' i'] & [= <-] & ([t' j'] & Hin & Hq)%list_elem_of_bind)%list_elem_of_fmap.
    apply list_elem_of_singleton in Hin as [= -> ->]. apply Ht, list_elem_of_fmap. by exists (t', j').
  - intros s ([s' i'] & -> & ([t' j'] & Hin & Hq)%list_elem_of_bind)%list_elem_of_fmap.
    apply list_elem_of_singleton in Hin as [= -> ->]. simpl.
    intros ([s'' i''] & Heq & ([h2 m2] & Hin2 & Hp)%list_elem_of_bind)%list_elem_of_fmap.
    apply list_elem_of_bind in Hin2 as ([t2 j2] & Hin2 & _).
    apply list_elem_of_singleton in Hin2 as [= -> ->]. simpl in Heq. simplify_eq.
    apply Hh, list_elem_of_fmap. by exists (h2, m2).
  - by apply IH.
Qed.

Lemma status_get_extend st l s :
  NoDup l.*1 →
  Status.get (Status.extend st l) s =
    match list_to_map (M := gmap RecordSeriesKey Z) l !! s with
    | Some i => Some i
    | None => Status.get st s
    end.
Proof.
  unfold Status.extend. revert st; induction l as [|[s' i] l IH]; intros st Hnd; simpl.
  - by rewrite lookup_empty.
  - apply NoDup_cons in Hnd as [Hs Hnd]. rewrite IH by done. rewrite status_get_set_raw.
    destruct (decide (s' = s)) as [->|Hne].
    + by rewrite lookup_insert_eq, not_elem_of_list_to_map_1.
    + by rewrite lookup_insert_ne.
Qed.

(** ** The diff *)

Section diff.
Implicit Types (a b : Status.t) (s : RecordSeriesKey) (d : Diff).

Lemma elem_of_diff_known a b d :
  d ∈ omap (Status.diff_known b) (Status.entries a) ↔
  ∃ i, Status.get a (d_series d) = Some i ∧ Status.get b (d_series d) ≠ Some i ∧
       d = mk_diff (d_series d) (Some i) (Status.get b (d_series d)).
Proof.
  rewrite list_elem_of_omap. unfold Status.diff_known. split.
  - intros ([s i] & Hin%status_entries_spec & Hd). simpl in Hd.
    destruct (Status.get b s) as [j|] eqn:Hb.
    + destruct (Z.eqb_spec j i); simplify_eq/=. exists i. rewrite Hb. split_and!; congruence.
    + simplify_eq/=. exists i. rewrite Hb. done.
  - intros (i & Ha & Hb & Hd). exists (d_series d, i). rewrite status_entries_spec. split; [done|].
    simpl. destruct (Status.get b (d_series d)) as [j|]; [|by rewrite Hd at 2].
    destruct (Z.eqb_spec j i); [congruence|]. by rewrite Hd at 2.
Qed.

Lemma elem_of_diff_unknown a b d :
  d ∈ omap (Status.diff_unknown a) (Status.entries b) ↔
  ∃ i, Status.get b (d_series d) = Some i ∧ Status.get a (d_series d) = None ∧
       d = mk_diff (d_series d) None (Some i).
Proof.
  rewrite list_elem_of_omap. unfold Status.diff_unknown. split.
  - intros ([s i] & Hin%status_entries_spec & Hd). simpl in Hd.
    destruct (Status.get a s) eqn:Ha; simplify_eq/=. eauto.
  - intros (i & Hb & Ha & Hd). exists (d_series d, i). rewrite status_entries_spec. split; [done|].
    simpl. rewrite Ha. by rewrite Hd at 2.
Qed.

Lemma elem_of_diff a b d :
  d ∈ Status.diff a b ↔
  d = mk_diff (d_series d) (Status.get a (d_series d)) (Status.get b (d_series d)) ∧
  Status.get a (d_series d) ≠ Status.get b (d_series d).
Proof.
  unfold Status.diff. rewrite elem_of_sort_by, elem_of_app, elem_of_diff_known, elem_of_diff_unknown.
  split.
  - intros [(i & Ha & Hb & Hd)|(i & Hb & Ha & Hd)].
    + rewrite Ha in *. split; [done|congruence].
    + rewrite Ha, Hb. by split.
  - intros [Hd Hne]. destruct (Status.get a (d_series d)) as [i|] eqn:Ha.
    + left. eauto.
    + destruct (Status.get b (d_series d)) as [j|]; [|done]. right. eauto.
Qed.

Lemma diff_series_NoDup a b : NoDup (d_series <$> Status.diff a b).
Proof.
  unfold Status.diff. rewrite sort_by_perm, fmap_app. apply NoDup_app. split_and!.
  - eapply NoDup_fmap_omap, status_entries_NoDup. intros [s i] [s' i'] d d'.
    unfold Status.diff_known; simpl. intros Hd Hd'.
    assert (d_series d = s) as <- by (repeat case_match; by simplify_eq).
    by assert (d_series d' = s') as <- by (repeat case_match; by simplify_eq).
  - intros s (d & -> & (i & Ha & _)%elem_of_diff_known)%list_elem_of_fmap
      (d' & Heq & (j & _ & Ha' & _)%elem_of_diff_unknown)%list_elem_of_fmap. congruence.
  - eapply NoDup_fmap_omap, status_entries_NoDup. intros [s i] [s' i'] d d'.
    unfold Status.diff_unknown; simpl. intros Hd Hd'.
    assert (d_series d = s) as <- by (repeat case_match; by simplify_eq).
    by assert (d_series d' = s') as <- by (repeat case_match; by simplify_eq).
Qed.

Lemma diff_NoDup a b : NoDup (Status.diff a b).
Proof. eapply NoDup_fmap_1, diff_series_NoDup. Qed.

(** [diff] depends on the two indices only through [get]: the layout of the nested maps, an empty
    inner map included, does not show. *)
Lemma diff_proper a a' b b' :
  (∀ s, Status.get a s = Status.get a' s) → (∀ s, Status.get b s = Status.get b' s) →
  Status.diff a b = Status.diff a' b'.
Proof.
  intros Ha Hb. eapply (StronglySorted_unique_strong (λ x y : Diff, leb x y = true)).
  - intros x y _ _. apply leb_antisym.
  - apply (sort_by_key_sorted (λ d : Diff, d)).
  - apply (sort_by_key_sorted (λ d : Diff, d)).
  - apply NoDup_Permutation; [apply diff_NoDup..|]. intros d. by rewrite !elem_of_diff, Ha, Hb.
Qed.
End diff.

(** ** Theorems *)

(** [RecordStatus::diff] reports exactly the series on which the two indices disagree, each
    once, with the tail each side has, in the derived order of [Diff]. *)
Theorem diff_exact (a b : Status.t) :
  (∀ d, d ∈ Status.diff a b ↔
     d_local d = Status.get a (d_series d) ∧ d_remote d = Status.get b (d_series d) ∧
     Status.get a (d_series d) ≠ Status.get b (d_series d)) ∧
  NoDup (d_series <$> Status.diff a b) ∧
  StronglySorted (λ x y : Diff, leb x y = true) (Status.diff a b).
Proof.
  split_and!; [|apply diff_series_NoDup|apply (sort_by_key_sorted (λ d : Diff, d))].
  intros d. rewrite elem_of_diff. destruct d as [s l r]; simpl. split.
  - by intros [[= -> ->] ?].
  - by intros (-> & -> & ?).
Qed.

Lemma diff_nil_iff (a b : Status.t) :
  Status.diff a b = [] ↔ ∀ s, Status.get a s = Status.get b s.
Proof.
  split.
  - intros Hnil s. apply dec_stable. intros Hne.
    apply (not_elem_of_nil (mk_diff s (Status.get a s) (Status.get b s))).
    rewrite <- Hnil. by apply elem_of_diff.
  - intros Heq. destruct (Status.diff a b) as [|d l] eqn:E; [done|].
    assert (d ∈ Status.diff a b) as [_ []]%elem_of_diff by (rewrite E; left). apply Heq.
Qed.
