(* ===== verification/Rmp.v ===== *)
(** * MessagePack: the crate's primitives as an interface, and the wrappers over them
      ([atuin-common/src/rmp])

    [Rmp] is the interface to the third-party [rmp] crate: the writers append to a byte buffer, the
    readers consume one. [RmpLaws] states the documented behaviour the code relies on (a reader
    undoes its writer; a reader that meets another type reports the marker and consumes it). The
    wrappers of [encode.rs] and [decode.rs] are definitions over the interface; their round trips
    are proved against the laws alone. [RmpWire.v] gives a concrete instance. *)
From S2P Require Import Prelude.

(** ** The error types *)

(** A [Marker] is its leading byte. *)
Abbreviation Marker := Z (only parsing).
Definition marker_null : Marker := 192.
Definition marker_bin8 : Marker := 196.
Definition marker_array16 : Marker := 220.

Inductive ValueReadError : Type :=
| VR_InvalidMarkerRead
| VR_InvalidDataRead
| VR_TypeMismatch (m : Marker).

Inductive NumValueReadError : Type :=
| NV_InvalidMarkerRead
| NV_InvalidDataRead
| NV_TypeMismatch (m : Marker)
| NV_OutOfRange.

Inductive DecodeStringError : Type :=
| DS_InvalidMarkerRead
| DS_InvalidDataRead
| DS_TypeMismatch (m : Marker)
| DS_BufferSizeTooSmall (n : Z)
| DS_InvalidUtf8.

(** [DecodeError] of [decode.rs]. *)
Inductive DecodeError : Type :=
| DecodeString (e : DecodeStringError)
| NumValueRead (e : NumValueReadError)
| ValueRead (e : ValueReadError)
| WrongArrayLength (expected actual : Z)
| CustomDecode (s : string).

(** [EncodeError] of [encode.rs]; writing into a [Vec] cannot fail otherwise. *)
Inductive EncodeError : Type :=
| ArrayOverflow
| CustomEncode (s : string).

(** [TryEncodeError<_, Inner>] *)
Inductive TryEncodeError (I : Type) : Type :=
| TE_Encode (e : EncodeError)
| TE_Inner (i : I).
Arguments TE_Encode {I}. Arguments TE_Inner {I}.

(** ** The interface to the [rmp] crate *)

(** A reader over [&mut Bytes]: the bytes left, and the value or the error. *)
Abbreviation Reader E A := (stm (list Z) E A) (only parsing).

Class Rmp : Type := {
  write_nil : list Z;
  write_bool : bool → list Z;
  write_u8 : Z → list Z;
  write_u16 : Z → list Z;
  write_u64 : Z → list Z;
  write_uint : Z → list Z;
  write_uint8 : Z → list Z;
  write_sint : Z → list Z;
  write_str : string → list Z;
  write_bin_len : Z → list Z;
  write_bin : list Z → list Z;
  write_array_len : Z → list Z;
  read_bool : Reader ValueReadError bool;
  read_u8 : Reader ValueReadError Z;
  read_u16 : Reader ValueReadError Z;
  read_u64 : Reader ValueReadError Z;
  (** [read_int::<T>], given the bounds of [T]. *)
  read_int : Z → Z → Reader NumValueReadError Z;
  read_bin_len : Reader ValueReadError Z;
  read_array_len : Reader ValueReadError Z;
  read_str_from_slice : list Z → result (string * list Z) DecodeStringError;
  (** The byte strings that are a Rust [str] (UTF-8) of less than 4 GiB. *)
  is_str : string → Prop
}.

(** [RmpRead::read_u8] on [Bytes]: one raw byte. *)
Definition read_byte : Reader ValueReadError Z := λ bs,
  match bs with [] => ([], Err VR_InvalidDataRead) | b :: bs' => (bs', Ok b) end.

Definition ascii_string (s : string) : bool :=
  forallb (λ c, Ascii.nat_of_ascii c <? 128)%nat (String.list_ascii_of_string s).

Class RmpLaws `{Rmp} : Prop := {
  is_str_ascii s : ascii_string s = true → Z.of_nat (String.length s) < 65536 → is_str s;
  write_nil_byte : write_nil = [marker_null];
  read_write_bool b rest : read_bool (write_bool b ++ rest) = (rest, Ok b);
  read_write_u8 n rest : 0 ≤ n < 256 → read_u8 (write_u8 n ++ rest) = (rest, Ok n);
  read_write_u16 n rest : 0 ≤ n < 65536 → read_u16 (write_u16 n ++ rest) = (rest, Ok n);
  read_write_u64 n rest : is_u64 n → read_u64 (write_u64 n ++ rest) = (rest, Ok n);
  read_u64_nil rest : read_u64 (write_nil ++ rest) = (rest, Err (VR_TypeMismatch marker_null));
  read_write_uint lo hi n rest :
    is_u64 n → lo ≤ n ≤ hi → read_int lo hi (write_uint n ++ rest) = (rest, Ok n);
  read_write_uint8 lo hi n rest :
    0 ≤ n < 256 → lo ≤ n ≤ hi → read_int lo hi (write_uint8 n ++ rest) = (rest, Ok n);
  read_write_sint lo hi n rest :
    - i64_limit ≤ n < i64_limit → lo ≤ n ≤ hi → read_int lo hi (write_sint n ++ rest) = (rest, Ok n);
  read_int_nil lo hi rest :
    read_int lo hi (write_nil ++ rest) = (rest, Err (NV_TypeMismatch marker_null));
  read_write_str s rest : is_str s → read_str_from_slice (write_str s ++ rest) = Ok (s, rest);
  read_str_nil rest :
    read_str_from_slice (write_nil ++ rest) = Err (DS_TypeMismatch marker_null);
  read_write_bin_len n rest : 0 ≤ n < 2 ^ 32 → read_bin_len (write_bin_len n ++ rest) = (rest, Ok n);
  write_bin_len_8 n : 0 ≤ n < 256 → ∃ tl, write_bin_len n = marker_bin8 :: tl;
  write_bin_eq bs : write_bin bs = write_bin_len (Z.of_nat (length bs)) ++ bs;
  read_write_array_len n rest :
    0 ≤ n < 2 ^ 32 → read_array_len (write_array_len n ++ rest) = (rest, Ok n);
  write_array_len_16 n : 16 ≤ n < 65536 → ∃ tl, write_array_len n = marker_array16 :: tl
}.

#[export] Hint Rewrite @read_write_bool @read_write_u8 @read_write_u16 @read_write_u64 @read_u64_nil
  @read_write_uint @read_write_uint8 @read_write_sint @read_int_nil @read_write_str @read_str_nil
  @read_write_bin_len @read_write_array_len using (try typeclasses eauto; eauto with atuin; lia) : rmp.

(** ** The wrappers of [encode.rs] *)

Section encode.
Context `{Rmp}.

(** [write_optional]: the writers used with it cannot fail. *)
Definition write_optional {T} (value : option T) (write : T → list Z) : list Z :=
  match value with Some v => write v | None => write_nil end.

Fixpoint try_write_items {T I} (items : list (result T I)) (write : T → result (list Z) EncodeError)
    : result (list Z) (TryEncodeError I) :=
  match items with
  | [] => Ok []
  | item :: rest =>
      let? x := map_err TE_Inner item in
      let? b := map_err TE_Encode (write x) in
      let? bs := try_write_items rest write in
      Ok (b ++ bs)
  end.

(** [try_write_array_impl]: the length must fit in a u32, then each item is written. The assertion
    on the count cannot fail on a list. *)
Definition try_write_array_impl {T I} (items : list (result T I)) (write_len : Z → list Z)
    (write : T → result (list Z) EncodeError) : result (list Z) (TryEncodeError I) :=
  let len := Z.of_nat (length items) in
  if len <? 2 ^ 32
  then let? bs := try_write_items items write in Ok (write_len len ++ bs)
  else Err (TE_Encode ArrayOverflow).

(** [try_write_array] *)
Definition try_write_array {T I} (items : list (result T I))
    (write : T → result (list Z) EncodeError) : result (list Z) (TryEncodeError I) :=
  try_write_array_impl items write_array_len write.

(** [From<TryEncodeError<_, Infallible>> for EncodeError] *)
Definition from_infallible (e : TryEncodeError Empty_set) : EncodeError :=
  match e with TE_Encode e => e | TE_Inner i => match i with end end.

(** [write_array] *)
Definition write_array {T} (items : list T) (write : T → result (list Z) EncodeError)
    : result (list Z) EncodeError :=
  map_err from_infallible (try_write_array (Ok <$> items) write).

(** [write_binary_array] *)
Definition write_binary_array (bytes : list Z) : result (list Z) EncodeError :=
  map_err from_infallible
    (try_write_array_impl (Ok <$> bytes) write_bin_len (λ b, Ok [b])).
End encode.

(** ** The wrappers of [decode.rs] *)

(** [DecodeError::type_mismatch] *)
Definition type_mismatch (e : DecodeError) : option Marker :=
  match e with
  | DecodeString (DS_TypeMismatch m) => Some m
  | NumValueRead (NV_TypeMismatch m) => Some m
  | ValueRead (VR_TypeMismatch m) => Some m
  | _ => None
  end.

(** [read(reader).map_err(Into::into)] *)
Definition rd_map_err {E F A} (f : E → F) (r : Reader E A) : Reader F A := λ bs,
  let '(rest, res) := r bs in (rest, map_err f res).

Section decode.
Context `{Rmp}.

(** [read_string]: on a type mismatch the marker byte is consumed, on any other error nothing is. *)
Definition read_string : Reader DecodeError string := λ bs,
  match read_str_from_slice bs with
  | Ok (s, rest) => (rest, Ok s)
  | Err (DS_TypeMismatch m) => (tail bs, Err (DecodeString (DS_TypeMismatch m)))
  | Err e => (bs, Err (DecodeString e))
  end.

(** [with_str] *)
Definition with_str {R} (f : string → R) : Reader DecodeError R := λ bs,
  match read_str_from_slice bs with
  | Ok (s, rest) => (rest, Ok (f s))
  | Err e => (bs, Err (DecodeString e))
  end.

(** [read_optional] *)
Definition read_optional {T} (read : Reader DecodeError T) : Reader DecodeError (option T) := λ bs,
  match read bs with
  | (rest, Ok v) => (rest, Ok (Some v))
  | (rest, Err e) =>
      if decide (type_mismatch e = Some marker_null) then (rest, Ok None) else (rest, Err e)
  end.

(** [n] reads in a row, stopping at the first error as [collect::<Result<_, _>>()] does. *)
Fixpoint read_items {T} (n : nat) (read : Reader DecodeError T) : Reader DecodeError (list T) :=
  match n with
  | O => st_ret []
  | S n' => let! x := read in let! xs := read_items n' read in st_ret (x :: xs)
  end.

(** [read_array_impl(..).collect::<Result<_, _>>()] *)
Definition read_array_impl {T} (read_len : Reader ValueReadError Z) (read : Reader DecodeError T)
    : Reader DecodeError (list T) :=
  let! len := rd_map_err ValueRead read_len in read_items (Z.to_nat len) read.

(** [read_array(..).collect()] *)
Definition read_array {T} (read : Reader DecodeError T) : Reader DecodeError (list T) :=
  read_array_impl read_array_len read.

Definition read_raw_byte : Reader DecodeError Z := rd_map_err ValueRead read_byte.

(** [read_binary_array(..).collect()] *)
Definition read_binary_array : Reader DecodeError (list Z) :=
  read_array_impl read_bin_len read_raw_byte.

(** [read_fixed_array_impl]: the length must be the array's. *)
Definition read_fixed_array_impl {T} (N : Z) (read_len : Reader ValueReadError Z)
    (read : Reader DecodeError T) : Reader DecodeError (list T) :=
  let! actual := rd_map_err ValueRead read_len in
  if actual =? N then read_items (Z.to_nat N) read
  else st_fail (WrongArrayLength N actual).

(** [read_fixed_binary_array] *)
Definition read_fixed_binary_array (N : Z) : Reader DecodeError (list Z) :=
  read_fixed_array_impl N read_bin_len read_raw_byte.
End decode.

(** ** Lemmas *)

Section laws.
Context `{RmpLaws}.

Lemma read_string_write s rest : is_str s → read_string (write_str s ++ rest) = (rest, Ok s).
Proof. intros. unfold read_string. by rewrite read_write_str. Qed.

Lemma read_string_nil rest :
  read_string (write_nil ++ rest) = (rest, Err (DecodeString (DS_TypeMismatch marker_null))).
Proof. unfold read_string. by rewrite read_str_nil, write_nil_byte. Qed.

Lemma with_str_write {R} (f : string → R) s rest :
  is_str s → with_str f (write_str s ++ rest) = (rest, Ok (f s)).
Proof. intros. unfold with_str. by rewrite read_write_str. Qed.

(** A reader whose error on [nil] is the mismatch of its marker reads optional values. *)
Lemma read_optional_write {T} (read : Reader DecodeError T) (write : T → list Z) v rest :
  (∀ x, v = Some x → read (write x ++ rest) = (rest, Ok x)) →
  (v = None → ∃ e, read (write_nil ++ rest) = (rest, Err e) ∧ type_mismatch e = Some marker_null) →
  read_optional read (write_optional v write ++ rest) = (rest, Ok v).
Proof.
  intros Hs Hn. unfold read_optional. destruct v as [x|]; simpl.
  - by rewrite (Hs x).
  - destruct Hn as (e & -> & He); [done|]. by rewrite He, decide_True.
Qed.

Lemma read_optional_string v rest :
  (∀ s, v = Some s → is_str s) →
  read_optional read_string (write_optional v write_str ++ rest) = (rest, Ok v).
Proof.
  intros Hv. apply read_optional_write.
  - intros s Hs. apply read_string_write, Hv, Hs.
  - intros _. rewrite read_string_nil. by eexists.
Qed.

Lemma read_optional_u64 v rest :
  (∀ n, v = Some n → is_u64 n) →
  read_optional (rd_map_err ValueRead read_u64) (write_optional v write_u64 ++ rest) = (rest, Ok v).
Proof.
  intros Hv. apply read_optional_write; unfold rd_map_err.
  - intros n Hn. by rewrite read_write_u64 by eauto.
  - intros _. rewrite read_u64_nil. by eexists.
Qed.

Lemma read_items_write {T} (read : Reader DecodeError T) (write : T → result (list Z) EncodeError)
    (xs : list T) bs rest :
  try_write_items (I := Empty_set) (Ok <$> xs) write = Ok bs →
  (∀ x b rest', x ∈ xs → write x = Ok b → read (b ++ rest') = (rest', Ok x)) →
  read_items (length xs) read (bs ++ rest) = (rest, Ok xs).
Proof.
  revert bs; induction xs as [|x xs IH]; simpl; intros bs Hw Hr; inv_res; [done|].
  destruct (write x) as [b|] eqn:Hx; simpl in Hw; [|done].
  destruct (try_write_items _ _) as [bs'|]; simpl in Hw; inv_res.
  unfold st_bind. rewrite <- app_assoc, (Hr x) by (done || left).
  rewrite IH; [done|done|]. intros. apply Hr; [by right|done].
Qed.

Lemma try_write_items_bytes (bs : list Z) :
  try_write_items (I := Empty_set) (Ok <$> bs) (λ b, Ok [b]) = Ok bs.
Proof.
  induction bs as [|b bs IH]; [done|]. rewrite fmap_cons. cbn [try_write_items map_err rbind].
  by rewrite IH.
Qed.

Lemma write_binary_array_ok (bs : list Z) :
  Z.of_nat (length bs) < 2 ^ 32 →
  write_binary_array bs = Ok (write_bin_len (Z.of_nat (length bs)) ++ bs).
Proof.
  intros Hl. unfold write_binary_array, try_write_array_impl. rewrite length_fmap.
  destruct (Z.ltb_spec (Z.of_nat (length bs)) (2 ^ 32)); [|lia].
  by rewrite try_write_items_bytes.
Qed.

Lemma read_items_bytes (bs rest : list Z) :
  read_items (length bs) read_raw_byte (bs ++ rest) = (rest, Ok bs).
Proof.
  eapply (read_items_write _ (λ b, Ok [b])); [apply try_write_items_bytes|].
  intros ? b ? _ [= <-]. done.
Qed.

Lemma read_binary_array_write (bs out rest : list Z) :
  write_binary_array bs = Ok out → read_binary_array (out ++ rest) = (rest, Ok bs).
Proof.
  intros Hw. assert (Z.of_nat (length bs) < 2 ^ 32) as Hl.
  { unfold write_binary_array, try_write_array_impl in Hw. rewrite length_fmap in Hw.
    destruct (Z.ltb_spec (Z.of_nat (length bs)) (2 ^ 32)); [done|]. discriminate Hw. }
  rewrite write_binary_array_ok in Hw by done. inv_res.
  unfold read_binary_array, read_array_impl, st_bind, rd_map_err.
  rewrite <- app_assoc, read_write_bin_len by lia. simpl. rewrite Nat2Z.id. apply read_items_bytes.
Qed.

Lemma read_fixed_binary_array_write N (bs out rest : list Z) :
  Z.of_nat (length bs) = N → write_binary_array bs = Ok out →
  read_fixed_binary_array N (out ++ rest) = (rest, Ok bs).
Proof.
  intros <- Hw. assert (Z.of_nat (length bs) < 2 ^ 32) as Hl.
  { unfold write_binary_array, try_write_array_impl in Hw. rewrite length_fmap in Hw.
    destruct (Z.ltb_spec (Z.of_nat (length bs)) (2 ^ 32)); [done|]. discriminate Hw. }
  rewrite write_binary_array_ok in Hw by done. inv_res.
  unfold read_fixed_binary_array, read_fixed_array_impl, st_bind, rd_map_err.
  rewrite <- app_assoc, read_write_bin_len by lia. simpl. rewrite Z.eqb_refl, Nat2Z.id.
  apply read_items_bytes.
Qed.

(** Items written after their count are read back, however the items themselves are coded. *)
Lemma read_array_write {T} (read : Reader DecodeError T) (write : T → result (list Z) EncodeError)
    (xs : list T) out rest :
  write_array xs write = Ok out →
  (∀ x b rest', x ∈ xs → write x = Ok b → read (b ++ rest') = (rest', Ok x)) →
  read_array read (out ++ rest) = (rest, Ok xs).
Proof.
  unfold write_array, try_write_array, try_write_array_impl. rewrite length_fmap. intros Hw Hr.
  destruct (Z.ltb_spec (Z.of_nat (length xs)) (2 ^ 32)); [|discriminate Hw].
  destruct (try_write_items _ _) as [bs|] eqn:E; simpl in Hw; inv_res.
  unfold read_array, read_array_impl, st_bind, rd_map_err.
  rewrite <- app_assoc, read_write_array_len by lia. simpl. rewrite Nat2Z.id.
  by eapply read_items_write.
Qed.
End laws.
