(* ===== verification/RmpWire.v ===== *)
(** * A concrete MessagePack codec: [RmpLaws] can hold

    An instance of the [Rmp] interface that follows the MessagePack specification (big-endian
    integers, the shortest length headers), with the proof of its laws. The witnesses of the
    theorems stated over the interface run on it. It stands in for no code of the repository. *)
From S2P Require Import Prelude Rmp.

Module Wire.

(** ** Markers and fixed widths *)

Definition rd_marker : Reader ValueReadError Z := λ bs,
  match bs with [] => ([], Err VR_InvalidMarkerRead) | b :: bs' => (bs', Ok b) end.

Definition rd_be (n : nat) : Reader ValueReadError Z := λ bs,
  if (length bs <? n)%nat then (bs, Err VR_InvalidDataRead)
  else (drop n bs, Ok (unbe (take n bs))).

(** A value of one fixed marker. *)
Definition rd_marked (m : Z) (n : nat) : Reader ValueReadError Z :=
  let! k := rd_marker in
  if k =? m then rd_be n else st_fail (VR_TypeMismatch k).

(** ** Integers of any width *)

Definition wr_uint (z : Z) : list Z :=
  if z <? 128 then [z]
  else if z <? 256 then 204 :: be 1 z
  else if z <? 65536 then 205 :: be 2 z
  else if z <? 2 ^ 32 then 206 :: be 4 z
  else 207 :: be 8 z.

Definition wr_sint (z : Z) : list Z :=
  if 0 <=? z then wr_uint z
  else if -32 <=? z then [z + 256]
  else if -128 <=? z then 208 :: be 1 (z + 256)
  else if -32768 <=? z then 209 :: be 2 (z + 65536)
  else if - 2 ^ 31 <=? z then 210 :: be 4 (z + 2 ^ 32)
  else 211 :: be 8 (z + 2 ^ 64).

(** Two's complement on [n] bytes. *)
Definition signed (n : nat) (z : Z) : Z :=
  if z <? 2 ^ (8 * Z.of_nat n - 1) then z else z - 2 ^ (8 * Z.of_nat n).

Definition lift_num {A} (r : Reader ValueReadError A) : Reader NumValueReadError A :=
  rd_map_err (λ e, match e with
                   | VR_InvalidMarkerRead => NV_InvalidMarkerRead
                   | VR_InvalidDataRead => NV_InvalidDataRead
                   | VR_TypeMismatch m => NV_TypeMismatch m
                   end) r.

Definition rd_any (m : Z) : Reader NumValueReadError Z :=
  if m <? 128 then st_ret m
  else if 224 <=? m then st_ret (m - 256)
  else if m =? 204 then lift_num (rd_be 1)
  else if m =? 205 then lift_num (rd_be 2)
  else if m =? 206 then lift_num (rd_be 4)
  else if m =? 207 then lift_num (rd_be 8)
  else if m =? 208 then let! z := lift_num (rd_be 1) in st_ret (signed 1 z)
  else if m =? 209 then let! z := lift_num (rd_be 2) in st_ret (signed 2 z)
  else if m =? 210 then let! z := lift_num (rd_be 4) in st_ret (signed 4 z)
  else if m =? 211 then let! z := lift_num (rd_be 8) in st_ret (signed 8 z)
  else st_fail (NV_TypeMismatch m).

Definition rd_int (lo hi : Z) : Reader NumValueReadError Z :=
  let! m := lift_num rd_marker in
  let! z := rd_any m in
  if (lo <=? z) && (z <=? hi) then st_ret z else st_fail NV_OutOfRange.

(** ** Lengths and strings *)

(** A length header: short form up to [lim] entries over [base], then 8 (if [m8] is given), 16 and
    32 bits. *)
Definition wr_len (base lim : Z) (m8 : option Z) (m16 m32 n : Z) : list Z :=
  if n <? lim then [base + n]
  else match m8 with
  | Some m8 => if n <? 256 then m8 :: be 1 n
               else if n <? 65536 then m16 :: be 2 n else m32 :: be 4 n
  | None => if n <? 65536 then m16 :: be 2 n else m32 :: be 4 n
  end.

Definition rd_len (base lim : Z) (m8 : option Z) (m16 m32 : Z) : Reader ValueReadError Z :=
  let! k := rd_marker in
  if (base <=? k) && (k <? base + lim) then st_ret (k - base)
  else if decide (m8 = Some k) then rd_be 1
  else if k =? m16 then rd_be 2
  else if k =? m32 then rd_be 4
  else st_fail (VR_TypeMismatch k).

Definition to_bytes (s : string) : list Z :=
  (λ c, Z.of_nat (Ascii.nat_of_ascii c)) <$> String.list_ascii_of_string s.
Definition of_bytes (bs : list Z) : string :=
  String.string_of_list_ascii ((λ z, Ascii.ascii_of_nat (Z.to_nat z)) <$> bs).

Definition str_len (s : string) : Z := Z.of_nat (String.length s).

Definition wr_str (s : string) : list Z :=
  wr_len 160 32 (Some 217) 218 219 (str_len s) ++ to_bytes s.

Definition rd_str (bs : list Z) : result (string * list Z) DecodeStringError :=
  match rd_len 160 32 (Some 217) 218 219 bs with
  | (rest, Ok n) =>
      if Z.of_nat (length rest) <? n then Err (DS_BufferSizeTooSmall n)
      else Ok (of_bytes (take (Z.to_nat n) rest), drop (Z.to_nat n) rest)
  | (_, Err VR_InvalidMarkerRead) => Err DS_InvalidMarkerRead
  | (_, Err VR_InvalidDataRead) => Err DS_InvalidDataRead
  | (_, Err (VR_TypeMismatch m)) => Err (DS_TypeMismatch m)
  end.

Definition rd_bool : Reader ValueReadError bool :=
  let! k := rd_marker in
  if k =? 194 then st_ret false else if k =? 195 then st_ret true else st_fail (VR_TypeMismatch k).

Definition wr_bin_len (n : Z) : list Z := wr_len 0 0 (Some 196) 197 198 n.

#[global] Instance wire : Rmp := {|
  write_nil := [192];
  write_bool b := [if b then 195 else 194];
  write_u8 z := 204 :: be 1 z;
  write_u16 z := 205 :: be 2 z;
  write_u64 z := 207 :: be 8 z;
  write_uint := wr_uint;
  write_uint8 := wr_uint;
  write_sint := wr_sint;
  write_str := wr_str;
  write_bin_len := wr_bin_len;
  write_bin bs := wr_bin_len (Z.of_nat (length bs)) ++ bs;
  write_array_len := wr_len 144 16 None 220 221;
  read_bool := rd_bool;
  read_u8 := rd_marked 204 1;
  read_u16 := rd_marked 205 2;
  read_u64 := rd_marked 207 8;
  read_int := rd_int;
  read_bin_len := rd_len 0 0 (Some 196) 197 198;
  read_array_len := rd_len 144 16 None 220 221;
  read_str_from_slice := rd_str;
  is_str s := str_len s < 2 ^ 32
|}.

(** ** Proofs of the laws *)

Lemma rd_be_be n z rest : 0 ≤ z < 256 ^ Z.of_nat n → rd_be n (be n z ++ rest) = (rest, Ok z).
Proof.
  intros Hz. unfold rd_be. rewrite length_app, length_be.
  destruct (Nat.ltb_spec (n + length rest) n); [lia|].
  rewrite drop_app_length', take_app_length' by (by rewrite length_be). by rewrite unbe_be.
Qed.

Lemma rd_marked_be m n z rest :
  0 ≤ z < 256 ^ Z.of_nat n → rd_marked m n ((m :: be n z) ++ rest) = (rest, Ok z).
Proof. intros. unfold rd_marked, st_bind; simpl. rewrite Z.eqb_refl. by apply rd_be_be. Qed.

Ltac split_ltb :=
  repeat match goal with
    | |- context [?a <? ?b] => destruct (Z.ltb_spec a b); try lia
    | |- context [?a <=? ?b] => destruct (Z.leb_spec a b); try lia
    end.

Lemma rd_any_uint z rest :
  is_u64 z → ∃ m tl, wr_uint z = m :: tl ∧ rd_any m (tl ++ rest) = (rest, Ok z).
Proof.
  unfold is_u64, u64_limit, wr_uint, rd_any, lift_num, rd_map_err. intros Hz.
  destruct (Z.ltb_spec z 128).
  { eexists _, _; split; [done|]. destruct (Z.ltb_spec z 128); [done|lia]. }
  split_ltb; (eexists _, _; split; [done|]; cbn -[be rd_be]; by rewrite rd_be_be by (simpl; lia)).
Qed.

Lemma signed_roundtrip n z :
  - 2 ^ (8 * Z.of_nat n - 1) ≤ z < 0 → (0 < n)%nat → signed n (z + 2 ^ (8 * Z.of_nat n)) = z.
Proof.
  intros Hz Hn. unfold signed.
  assert (2 ^ (8 * Z.of_nat n) = 2 * 2 ^ (8 * Z.of_nat n - 1)) as E.
  { rewrite <- Z.pow_succ_r by lia. f_equal. lia. }
  destruct (Z.ltb_spec (z + 2 ^ (8 * Z.of_nat n)) (2 ^ (8 * Z.of_nat n - 1))); lia.
Qed.

Lemma rd_any_sint z rest :
  - i64_limit ≤ z < i64_limit → ∃ m tl, wr_sint z = m :: tl ∧ rd_any m (tl ++ rest) = (rest, Ok z).
Proof.
  unfold i64_limit. intros Hz. unfold wr_sint. destruct (Z.leb_spec 0 z).
  { apply rd_any_uint. unfold is_u64, u64_limit. lia. }
  unfold rd_any, lift_num, rd_map_err. destruct (Z.leb_spec (-32) z).
  { exists (z + 256), []. split; [done|]. split_ltb. unfold st_ret. simpl. do 2 f_equal. lia. }
  split_ltb; (eexists _, _; split; [done|]; cbn -[be rd_be signed]; unfold st_bind;
    rewrite rd_be_be by (simpl; lia); simpl map_err; cbv beta iota; unfold st_ret; do 2 f_equal).
  - by apply (signed_roundtrip 1 z); [simpl; lia | lia].
  - by apply (signed_roundtrip 2 z); [simpl; lia | lia].
  - by apply (signed_roundtrip 4 z); [simpl; lia | lia].
  - by apply (signed_roundtrip 8 z); [simpl; lia | lia].
Qed.

Lemma rd_int_any lo hi z m tl rest :
  rd_any m (tl ++ rest) = (rest, Ok z) → lo ≤ z ≤ hi → rd_int lo hi ((m :: tl) ++ rest) = (rest, Ok z).
Proof.
  intros Ha Hz. unfold rd_int, st_bind; simpl. rewrite Ha.
  destruct (Z.leb_spec lo z), (Z.leb_spec z hi); try lia. done.
Qed.

Lemma rd_wr_len base lim m8 m16 m32 n rest :
  0 ≤ n < 2 ^ 32 →
  (∀ m, m ∈ m16 :: m32 :: option_list m8 → ¬ (base ≤ m < base + lim)) →
  m8 ≠ Some m16 → m8 ≠ Some m32 → m16 ≠ m32 →
  rd_len base lim m8 m16 m32 (wr_len base lim m8 m16 m32 n ++ rest) = (rest, Ok n).
Proof.
  intros Hn Hm H1 H2 H3. unfold rd_len, wr_len, st_bind.
  assert (∀ m, m ∈ m16 :: m32 :: option_list m8 → (base <=? m) && (m <? base + lim) = false) as Hs.
  { intros m Hin. specialize (Hm m Hin). destruct (Z.leb_spec base m), (Z.ltb_spec m (base + lim)); simpl; lia. }
  destruct (Z.ltb_spec n lim).
  { simpl. destruct (Z.leb_spec base (base + n)), (Z.ltb_spec (base + n) (base + lim)); try lia.
    simpl. unfold st_ret. do 2 f_equal. lia. }
  destruct m8 as [m8|]; [destruct (Z.ltb_spec n 256)|].
  - simpl. rewrite (Hs m8), decide_True by (done || set_solver). apply (rd_be_be 1). simpl; lia.
  - destruct (Z.ltb_spec n 65536); simpl.
    + rewrite (Hs m16), decide_False, Z.eqb_refl by (done || set_solver). apply (rd_be_be 2). simpl; lia.
    + rewrite (Hs m32), decide_False by (done || set_solver).
      destruct (Z.eqb_spec m32 m16); [congruence|]. rewrite Z.eqb_refl. apply (rd_be_be 4). simpl; lia.
  - destruct (Z.ltb_spec n 65536); simpl.
    + rewrite (Hs m16), Z.eqb_refl by set_solver. apply (rd_be_be 2). simpl; lia.
    + rewrite (Hs m32) by set_solver.
      destruct (Z.eqb_spec m32 m16); [congruence|]. rewrite Z.eqb_refl. apply (rd_be_be 4). simpl; lia.
Qed.

Lemma length_to_bytes s : Z.of_nat (length (to_bytes s)) = str_len s.
Proof. unfold to_bytes, str_len. rewrite length_fmap. f_equal. induction s; simpl; congruence. Qed.

Lemma of_to_bytes s : of_bytes (to_bytes s) = s.
Proof.
  unfold of_bytes, to_bytes. rewrite <- list_fmap_compose.
  rewrite (list_fmap_ext _ id), list_fmap_id; [apply String.string_of_list_ascii_of_string|].
  intros i c _; simpl. by rewrite Nat2Z.id, Ascii.ascii_nat_embedding.
Qed.

Lemma rd_wr_str s rest : str_len s < 2 ^ 32 → rd_str (wr_str s ++ rest) = Ok (s, rest).
Proof.
  intros Hs. unfold rd_str, wr_str. rewrite <- app_assoc, rd_wr_len.
  - rewrite length_app, Nat2Z.inj_add, length_to_bytes.
    destruct (Z.ltb_spec (str_len s + Z.of_nat (length rest)) (str_len s)); [lia|].
    rewrite <- length_to_bytes, Nat2Z.id, take_app_length, drop_app_length. by rewrite of_to_bytes.
  - unfold str_len in *. lia.
  - intros m. set_unfold. lia.
  - done.
  - done.
  - done.
Qed.

#[global] Instance wire_laws : RmpLaws.
Proof.
  split; simpl.
  - intros s _ Hl. unfold str_len. lia.
  - done.
  - by intros [].
  - intros n rest Hn. apply (rd_marked_be 204 1). simpl; lia.
  - intros n rest Hn. apply (rd_marked_be 205 2). simpl; lia.
  - intros n rest Hn. apply (rd_marked_be 207 8). unfold is_u64, u64_limit in Hn. simpl; lia.
  - done.
  - intros lo hi n rest Hn Hb. destruct (rd_any_uint n rest Hn) as (m & tl & -> & Ha).
    by apply rd_int_any.
  - intros lo hi n rest Hn Hb. destruct (rd_any_uint n rest) as (m & tl & -> & Ha).
    { unfold is_u64, u64_limit. lia. } by apply rd_int_any.
  - intros lo hi n rest Hn Hb. destruct (rd_any_sint n rest Hn) as (m & tl & -> & Ha).
    by apply rd_int_any.
  - done.
  - apply rd_wr_str.
  - done.
  - intros n rest Hn. apply rd_wr_len; [done| |done|done|done]. intros m. set_unfold. lia.
  - intros n Hn. unfold wr_bin_len, wr_len.
    destruct (Z.ltb_spec n 0), (Z.ltb_spec n 256); try lia. by eexists.
  - done.
  - intros n rest Hn. apply rd_wr_len; [done| |done|done|done]. intros m. set_unfold. lia.
  - intros n Hn. unfold wr_len, marker_array16.
    destruct (Z.ltb_spec n 16); [lia|]. destruct (Z.ltb_spec n 65536); [|lia]. by eexists.
Qed.

End Wire.
