(* ===== verification/Encryption.v ===== *)
(** * Envelope encryption of records ([atuin-common/src/encryption/paseto_v4.rs])

    Every payload is encrypted under a random content key (the CEK) which is itself wrapped under
    the user's key. [Crypto] is the interface to the third-party crates (PASETO, PASERK, base64,
    serde_json, bip39) and [CryptoLaws] the documented behaviour relied on. The random choices are
    the [Entropy] argument. Module [Key] models the user's key and its file, the rest of the file
    the envelope and the record's [encrypt] and [decrypt] ([atuin-domain/src/record/mod.rs]). *)
From S2P Require Import Prelude Text Record Rmp RmpWire.

(** ** The interface to the third-party crates *)

(** [Key([u8; 32])] *)
Abbreviation key := (list Z) (only parsing).
(** The error values of the crates are kept as their messages. *)
Abbreviation LibError := string (only parsing).

(** [bip39::ErrorKind] *)
Inductive Bip39Error : Type :=
| InvalidWord
| InvalidChecksum
| InvalidKeysize
| InvalidWordLength
| InvalidEntropyLength.

Class Crypto : Type := {
  KeyId : Type;
  KeyId_eq_dec :: EqDecision KeyId;
  WrappedKey : Type;
  (** [rusty_paserk::Key::to_id] *)
  to_id : key → KeyId;
  (** [rusty_paserk::Key::wrap_pie] with the random nonce it draws. *)
  wrap_pie : N → key → key → WrappedKey;
  unwrap_key : WrappedKey → key → result key LibError;
  (** [PasetoBuilder::try_encrypt]: key, nonce, payload, implicit assertion. *)
  try_encrypt : key → key → string → option string → result string LibError;
  (** [Paseto::try_decrypt] with no footer: token, key, implicit assertion. *)
  try_decrypt : string → key → option string → result string LibError;
  (** serde_json on [cek::Json] and on [EncryptedJson]. *)
  cek_to_json : WrappedKey → KeyId → result string LibError;
  cek_from_json : string → result (WrappedKey * KeyId) LibError;
  payload_to_json : string → result string LibError;
  payload_from_json : string → result string LibError;
  (** serde_json on [AdditionalData]. *)
  ad_to_json : AdditionalData → string;
  (** base64, URL-safe without padding ([PAYLOAD_ENCODER]) and standard ([KEY_ENCODER]). *)
  b64url_encode : list Z → string;
  b64url_decode : string → result (list Z) LibError;
  b64std_encode : list Z → string;
  b64std_decode : string → result (list Z) LibError;
  (** [bip39::Mnemonic]: the entropy of an English phrase, and back. *)
  mnemonic_entropy : string → result (list Z) Bip39Error;
  mnemonic_phrase : list Z → result string Bip39Error
}.

Class CryptoLaws `{Crypto} : Prop := {
  unwrap_wrap n k w : unwrap_key (wrap_pie n k w) w = Ok k;
  try_encrypt_total k n p a :
    length k = 32%nat → length n = 32%nat → ∃ t, try_encrypt k n p a = Ok t;
  try_decrypt_encrypt k n p a t : try_encrypt k n p a = Ok t → try_decrypt t k a = Ok p;
  (** A token authenticates its implicit assertion; one that is left out is the empty one. *)
  try_decrypt_assertion k n p a t a' :
    try_encrypt k n p a = Ok t → default "" a' ≠ default "" a → ∃ e, try_decrypt t k a' = Err e;
  cek_json_roundtrip w i : ∃ s, cek_to_json w i = Ok s ∧ cek_from_json s = Ok (w, i);
  payload_json_roundtrip d : ∃ s, payload_to_json d = Ok s ∧ payload_from_json s = Ok d;
  ad_to_json_inj : Inj (=) (=) ad_to_json;
  b64url_roundtrip bs : b64url_decode (b64url_encode bs) = Ok bs;
  b64std_roundtrip bs : b64std_decode (b64std_encode bs) = Ok bs;
  (** The output alphabet is visible ASCII. *)
  b64std_graphic bs : graphic_string (b64std_encode bs) = true
}.

(** ** The key and its file *)

Inductive KeyDecodingError : Type :=
| B64Decode (e : LibError)
| EmptyKey
| DecodingError (e : DecodeError)
| InvalidSize
| FailedToParseSlice
| InvalidToken.

Inductive MnemonicLoadingError : Type :=
| InvalidMnemonic
| InvalidLength.

Inductive KeyFileLoadingError : Type :=
| LoadNoEntry
| LoadIo
| LoadDecoding (e : KeyDecodingError).

Inductive KeyFileStoringError : Type :=
| AlreadyExists
| StoreIo.

Inductive KeyFileLoadOrGenerateError : Type :=
| LogDecoding (e : KeyDecodingError)
| LogIo.

(** The part of the file system the key code looks at. An entry may exist and yet not be readable
    as text; a path may refuse creation. *)
Inductive FsEntry : Type :=
| File (contents : string)
| Unreadable.

Record Fs : Type := mk_fs { fs_entries : gmap string FsEntry; creatable : string → bool }.

Module Key.
Section key.
Context `{Rmp, Crypto}.

Definition fs_read (fs : Fs) (path : string) : option string :=
  match fs_entries fs !! path with Some (File s) => Some s | _ => None end.

(** [fs::File::create] followed by [write_all]. *)
Definition fs_write (path contents : string) : stm Fs unit unit := λ fs,
  if creatable fs path
  then (mk_fs (<[path := File contents]> (fs_entries fs)) (creatable fs), Ok tt)
  else (fs, Err tt).

Definition encode (k : key) : string :=
  b64std_encode (write_array_len (Z.of_nat (length k)) ++ concat (write_uint <$> k)).

Definition decode (s : string) : result key KeyDecodingError :=
  let? buf := map_err B64Decode (b64std_decode (trim_end s)) in
  if decide (length buf = 32%nat) then Ok buf
  else match buf with
  | [] => Err EmptyKey
  | marker :: _ =>
      if marker =? marker_bin8 then
        match read_bin_len buf with
        | (_, Err e) => Err (DecodingError (ValueRead e))
        | (rest, Ok len) =>
            if negb (len =? 32) then Err InvalidSize
            else if decide (length rest = 32%nat) then Ok rest else Err FailedToParseSlice
        end
      else if marker =? marker_array16 then
        match read_array_len buf with
        | (_, Err e) => Err (DecodingError (ValueRead e))
        | (rest, Ok len) =>
            if negb (len =? 32) then Err InvalidSize
            else map_err DecodingError
                   (read_items 32 (rd_map_err NumValueRead (read_int 0 255)) rest).2
        end
      else Err InvalidToken
  end.

Definition try_load_from_path (path : string) (fs : Fs) : result key KeyFileLoadingError :=
  match fs_entries fs !! path with
  | None => Err LoadNoEntry
  | Some Unreadable => Err LoadIo
  | Some (File text) => map_err LoadDecoding (decode text)
  end.

Definition try_write_path (k : key) (path : string) : stm Fs KeyFileStoringError unit := λ fs,
  match fs_entries fs !! path with
  | Some (File data) => (fs, if decide (data = encode k) then Ok tt else Err AlreadyExists)
  | Some Unreadable => (fs, Err StoreIo)
  | None => let '(fs', r) := fs_write path (encode k) fs in (fs', map_err (λ _, StoreIo) r)
  end.

Definition overwrite_path (k : key) (path : string) : stm Fs unit unit := fs_write path (encode k).

(** [try_load_or_generate]: [race] is what other processes do to the file system between the
    existence check and the write. *)
Definition try_load_or_generate (generated : key) (race : Fs → Fs) (path : string)
    : stm Fs KeyFileLoadOrGenerateError key := λ fs,
  match try_load_from_path path fs with
  | Ok k => (fs, Ok k)
  | Err LoadNoEntry =>
      match try_write_path generated path (race fs) with
      | (fs', Ok tt) => (fs', Ok generated)
      | (fs', Err AlreadyExists) =>
          (fs', map_err (λ e, match e with
                              | LoadIo => LogIo
                              | LoadDecoding d => LogDecoding d
                              | LoadNoEntry => LogIo
                              end) (try_load_from_path path fs'))
      | (fs', Err StoreIo) => (fs', Err LogIo)
      end
  | Err LoadIo => (fs, Err LogIo)
  | Err (LoadDecoding d) => (fs, Err (LogDecoding d))
  end.

Definition try_mnemonic (k : key) : result string Bip39Error := mnemonic_phrase k.

Definition try_from_mnemonic (mnemonic : string) : result key MnemonicLoadingError :=
  match mnemonic_entropy mnemonic with
  | Ok entropy => if decide (length entropy = 32%nat) then Ok entropy else Err InvalidMnemonic
  | Err InvalidWord => map_err (λ _, InvalidMnemonic) (decode mnemonic)
  | Err InvalidChecksum => Err InvalidMnemonic
  | Err (InvalidKeysize | InvalidWordLength | InvalidEntropyLength) => Err InvalidLength
  end.
End key.
End Key.

(** ** The envelope *)

Record EncryptedData : Type := mk_encrypted { raw : string; cek : string }.

#[export] Instance EncryptedData_eq_dec : EqDecision EncryptedData.
Proof. solve_decision. Defined.

(** What one encryption draws from the system's random source: the CEK and the nonce, either of
    which can fail, and the nonce of the key wrapping. *)
Record Entropy : Type := mk_entropy {
  e_cek : result key LibError;
  e_nonce : result key LibError;
  e_wrap : N
}.

Section envelope.
Context `{Crypto}.

Inductive CekDecryptionError : Type :=
| CekJson (e : LibError)
| MismatchedKey (actual given : KeyId)
| CekPaseto (e : LibError).

Inductive EncryptionError : Type :=
| CekGeneration (e : LibError)
| DataJson (e : LibError)
| NonceGeneration (e : LibError)
| Encryption (e : LibError)
| CekEncryption (e : LibError).

Inductive DecryptionError : Type :=
| CekDecryption (e : CekDecryptionError)
| Decryption (e : LibError)
| PayloadJson (e : LibError)
| PayloadBase64 (e : LibError).

Inductive ReencryptionError : Type :=
| CekDec (e : CekDecryptionError)
| CekEnc (e : LibError).

(** [cek::Json::encrypt] *)
Definition cek_encrypt (n : N) (c parent : key) : result string LibError :=
  cek_to_json (wrap_pie n c parent) (to_id parent).

(** [cek::Json::decrypt] *)
Definition cek_decrypt (json : string) (k : key) : result key CekDecryptionError :=
  let? (wpk, kid) := map_err CekJson (cek_from_json json) in
  if decide (kid = to_id k)
  then map_err CekPaseto (unwrap_key wpk k)
  else Err (MismatchedKey kid (to_id k)).

Definition encrypt_sync (e : Entropy) (data : list Z) (assertion : option string) (k : key)
    : result EncryptedData EncryptionError :=
  let? random_key := map_err CekGeneration (e_cek e) in
  let? payload := map_err DataJson (payload_to_json (b64url_encode data)) in
  let? nonce := map_err NonceGeneration (e_nonce e) in
  let? token := map_err Encryption (try_encrypt random_key nonce payload assertion) in
  let? wrapped := map_err CekEncryption (cek_encrypt (e_wrap e) random_key k) in
  Ok (mk_encrypted token wrapped).

Definition decrypt_sync (data : EncryptedData) (assertion : option string) (k : key)
    : result (list Z) DecryptionError :=
  let? c := map_err CekDecryption (cek_decrypt (cek data) k) in
  let? payload_str := map_err Decryption (try_decrypt (raw data) c assertion) in
  let? payload := map_err PayloadJson (payload_from_json payload_str) in
  map_err PayloadBase64 (b64url_decode payload).

Definition reencrypt_sync (n : N) (data : EncryptedData) (old_key new_key : key)
    : result EncryptedData ReencryptionError :=
  let? c := map_err CekDec (cek_decrypt (cek data) old_key) in
  let? wrapped := map_err CekEnc (cek_encrypt n c new_key) in
  Ok (mk_encrypted (raw data) wrapped).

(** [Record<DecryptedData>::encrypt]; an error is the panic of its [unwrap]. *)
Definition encrypt (e : Entropy) (k : key) (r : record (list Z))
    : result (record EncryptedData) EncryptionError :=
  let? d := encrypt_sync e (r_data r) (Some (ad_to_json (additional_data r))) k in
  Ok (with_data d r).

(** [Record<EncryptedData>::decrypt] *)
Definition decrypt (k : key) (r : record EncryptedData)
    : result (record (list Z)) DecryptionError :=
  let? d := decrypt_sync (r_data r) (Some (ad_to_json (additional_data r))) k in
  Ok (with_data d r).

(** A working random source. *)
Definition entropy_ok (e : Entropy) : Prop :=
  (∃ c, e_cek e = Ok c ∧ length c = 32%nat) ∧ (∃ n, e_nonce e = Ok n ∧ length n = 32%nat).
End envelope.

(** ** Lemmas on the envelope *)

Section envelope_laws.
Context `{CryptoLaws}.
Implicit Types (k : key) (e : Entropy) (d : EncryptedData).

Lemma cek_roundtrip n c k : ∃ s, cek_encrypt n c k = Ok s ∧ cek_decrypt s k = Ok c.
Proof.
  unfold cek_encrypt, cek_decrypt.
  destruct (cek_json_roundtrip (wrap_pie n c k) (to_id k)) as (s & Hs & Hp).
  exists s. rewrite Hs, Hp. simpl. by rewrite decide_True, unwrap_wrap.
Qed.

Lemma cek_wrong_key n c k k' s :
  cek_encrypt n c k = Ok s → to_id k ≠ to_id k' →
  cek_decrypt s k' = Err (MismatchedKey (to_id k) (to_id k')).
Proof.
  unfold cek_encrypt, cek_decrypt. intros Hs Hne.
  destruct (cek_json_roundtrip (wrap_pie n c k) (to_id k)) as (s' & Hs' & Hp). inv_res.
  rewrite Hp. simpl. by rewrite decide_False.
Qed.

(** What a successful encryption is made of. *)
Lemma encrypt_sync_Ok e bs a k d :
  encrypt_sync e bs a k = Ok d ↔
  ∃ c n p, e_cek e = Ok c ∧ payload_to_json (b64url_encode bs) = Ok p ∧ e_nonce e = Ok n ∧
    try_encrypt c n p a = Ok (raw d) ∧ cek_encrypt (e_wrap e) c k = Ok (cek d).
Proof.
  unfold encrypt_sync. split.
  - intros Hd. repeat case_res Hd. inv_res. by eexists _, _, _.
  - intros (c & n & p & -> & -> & -> & Ht & Hc). simpl. rewrite Ht. simpl. rewrite Hc.
    by destruct d.
Qed.

Lemma encrypt_sync_total e bs a k : entropy_ok e → ∃ d, encrypt_sync e bs a k = Ok d.
Proof.
  intros [(c & Hc & Hlc) (n & Hn & Hln)].
  destruct (payload_json_roundtrip (b64url_encode bs)) as (p & Hp & _).
  destruct (try_encrypt_total c n p a) as (t & Ht); [done..|].
  destruct (cek_roundtrip (e_wrap e) c k) as (s & Hs & _).
  exists (mk_encrypted t s). apply encrypt_sync_Ok. by eexists _, _, _.
Qed.

Lemma decrypt_encrypt_sync e bs a k d :
  encrypt_sync e bs a k = Ok d → decrypt_sync d a k = Ok bs.
Proof.
  intros (c & n & p & _ & Hp & _ & Ht & Hc)%encrypt_sync_Ok. unfold decrypt_sync.
  destruct (cek_roundtrip (e_wrap e) c k) as (s & Hs & Hd). inv_res. rewrite Hd. simpl.
  rewrite (try_decrypt_encrypt _ _ _ _ _ Ht). simpl.
  destruct (payload_json_roundtrip (b64url_encode bs)) as (p' & Hp' & Hj). inv_res.
  rewrite Hj. simpl. by rewrite b64url_roundtrip.
Qed.

Lemma decrypt_sync_assertion e bs a a' k d :
  encrypt_sync e bs a k = Ok d → default "" a' ≠ default "" a → ∃ m, decrypt_sync d a' k = Err (Decryption m).
Proof.
  intros (c & n & p & _ & Hp & _ & Ht & Hc)%encrypt_sync_Ok Hne. unfold decrypt_sync.
  destruct (cek_roundtrip (e_wrap e) c k) as (s & Hs & Hd). inv_res. rewrite Hd. simpl.
  destruct (try_decrypt_assertion _ _ _ _ _ a' Ht Hne) as (m & ->). by eexists.
Qed.

Lemma decrypt_sync_wrong_key e bs a a' k k' d :
  encrypt_sync e bs a k = Ok d → to_id k ≠ to_id k' →
  decrypt_sync d a' k' = Err (CekDecryption (MismatchedKey (to_id k) (to_id k'))).
Proof.
  intros (c & n & p & _ & _ & _ & _ & Hc)%encrypt_sync_Ok Hne. unfold decrypt_sync.
  by rewrite (cek_wrong_key _ _ _ _ _ Hc Hne).
Qed.

(** Re-encryption changes only the wrapping of the CEK. *)
Lemma reencrypt_sync_spec n d a k k' bs :
  decrypt_sync d a k = Ok bs →
  ∃ d', reencrypt_sync n d k k' = Ok d' ∧ raw d' = raw d ∧ decrypt_sync d' a k' = Ok bs.
Proof.
  unfold decrypt_sync, reencrypt_sync. intros Hd.
  destruct (cek_decrypt (cek d) k) as [c|]; simpl in *; [|done].
  destruct (cek_roundtrip n c k') as (s & Hs & Hs'). rewrite Hs. simpl.
  eexists. split_and!; [done|done|]. simpl. by rewrite Hs'.
Qed.

Lemma encrypt_meta e k r er :
  encrypt e k r = Ok er → ∃ d, er = with_data d r ∧
    encrypt_sync e (r_data r) (Some (ad_to_json (additional_data r))) k = Ok d.
Proof. unfold encrypt. intros Hr. case_res Hr. inv_res. eauto. Qed.

Lemma decrypt_encrypt e k r er : encrypt e k r = Ok er → decrypt k er = Ok r.
Proof.
  intros (d & -> & Hd)%encrypt_meta. unfold decrypt. simpl.
  change (additional_data (with_data d r)) with (additional_data r).
  rewrite (decrypt_encrypt_sync _ _ _ _ _ Hd). by destruct r.
Qed.

Lemma decrypt_Ok_inv k er r :
  decrypt k er = Ok r → r = with_data (r_data r) er ∧
    decrypt_sync (r_data er) (Some (ad_to_json (additional_data er))) k = Ok (r_data r).
Proof. unfold decrypt. intros Hr. case_res Hr. by inv_res. Qed.

(** Re-encrypting a readable record moves it to the new key. *)
Lemma reencrypt_record n k k' er r :
  decrypt k er = Ok r →
  ∃ d', reencrypt_sync n (r_data er) k k' = Ok d' ∧ raw d' = raw (r_data er) ∧
    decrypt k' (with_data d' er) = Ok r.
Proof.
  intros [Hr Hd]%decrypt_Ok_inv.
  destruct (reencrypt_sync_spec n _ _ _ k' _ Hd) as (d' & Hre & Hraw & Hd').
  exists d'. split_and!; [done|done|]. unfold decrypt. simpl.
  change (additional_data (with_data d' er)) with (additional_data er).
  rewrite Hd'. simpl. by rewrite Hr at 2.
Qed.
End envelope_laws.

(** ** Lemmas on the key's text form *)

Section key_laws.
Context `{RmpLaws, CryptoLaws}.

Definition is_key (k : key) : Prop := length k = 32%nat ∧ Forall (λ b, 0 ≤ b < 256) k.

(** An unsigned integer takes at least one byte: otherwise a [nil] would read as it. *)
Lemma write_uint_nonempty n : 0 ≤ n < 256 → write_uint n ≠ [].
Proof.
  intros Hn Hnil. pose proof (read_write_uint 0 255 n write_nil) as Hr.
  rewrite Hnil in Hr. simpl in Hr. pose proof (read_int_nil 0 255 []) as Hi.
  rewrite app_nil_r in Hi. rewrite Hi in Hr. unfold is_u64, u64_limit in Hr.
  by discriminate Hr; lia.
Qed.

Lemma length_concat_uint k :
  Forall (λ b, 0 ≤ b < 256) k → (length k ≤ length (concat (write_uint <$> k)))%nat.
Proof.
  induction 1 as [|b k Hb Hk IH]; [done|]. rewrite fmap_cons. cbn [concat length].
  rewrite length_app.
  pose proof (write_uint_nonempty b Hb). destruct (write_uint b); cbn [length]; [done|lia].
Qed.

Lemma read_items_uint k rest :
  Forall (λ b, 0 ≤ b < 256) k →
  read_items (length k) (rd_map_err NumValueRead (read_int 0 255)) (concat (write_uint <$> k) ++ rest)
  = (rest, Ok k).
Proof.
  induction 1 as [|b k Hb Hk IH]; [done|]. rewrite fmap_cons. cbn [concat length read_items].
  unfold st_bind, rd_map_err at 1.
  rewrite <- app_assoc, read_write_uint by (unfold is_u64, u64_limit; lia). cbn [map_err].
  by rewrite IH.
Qed.

Lemma key_decode_encode k s :
  is_key k → trim_end s = Key.encode k → Key.decode s = Ok k.
Proof.
  intros [Hl Hb] Hs. unfold Key.decode. rewrite Hs. unfold Key.encode. rewrite b64std_roundtrip.
  cbn [map_err rbind]. rewrite Hl. destruct (write_array_len_16 32) as (tl & Hw); [lia|].
  change (Z.of_nat 32) with 32. pose proof (length_concat_uint k Hb) as Hlen.
  rewrite decide_False by (rewrite Hw, length_app; cbn [length]; lia).
  pose proof (read_write_array_len 32 (concat (write_uint <$> k))) as Hr.
  rewrite Hw in *. cbn [app] in *. cbn [marker_array16 marker_bin8 Z.eqb Pos.eqb].
  rewrite Hr by lia. cbn [negb Z.eqb Pos.eqb].
  pose proof (read_items_uint k [] Hb) as Hi. rewrite app_nil_r, Hl in Hi. by rewrite Hi.
Qed.

(** The bin8 encoding of earlier releases. *)
Lemma key_decode_bin8 k s :
  is_key k → trim_end s = b64std_encode (write_bin k) → Key.decode s = Ok k.
Proof.
  intros [Hl Hb] Hs. unfold Key.decode. rewrite Hs, b64std_roundtrip, write_bin_eq, Hl.
  cbn [map_err rbind]. change (Z.of_nat 32) with 32.
  destruct (write_bin_len_8 32) as (tl & Hw); [lia|].
  rewrite decide_False by (rewrite Hw, length_app; cbn [length]; lia).
  pose proof (read_write_bin_len 32 k) as Hr. rewrite Hw in *. cbn [app] in *.
  cbn [marker_bin8 Z.eqb Pos.eqb]. rewrite Hr by lia. cbn [negb Z.eqb Pos.eqb].
  by rewrite decide_True.
Qed.

(** The plain bytes of the legacy encoding. *)
Lemma key_decode_plain k s : is_key k → trim_end s = b64std_encode k → Key.decode s = Ok k.
Proof.
  intros [Hl Hb] Hs. unfold Key.decode. rewrite Hs, b64std_roundtrip. cbn [map_err rbind].
  by rewrite decide_True.
Qed.

Lemma key_load_written k path fs fs' :
  is_key k → Key.try_write_path k path fs = (fs', Ok tt) → Key.try_load_from_path path fs' = Ok k.
Proof.
  intros Hk. assert (Key.decode (Key.encode k) = Ok k) as Hd.
  { by apply key_decode_encode, trim_end_graphic_string, b64std_graphic. }
  unfold Key.try_write_path, Key.try_load_from_path, Key.fs_write. intros Hw.
  destruct (fs_entries fs !! path) as [[data|]|] eqn:E.
  - case_decide; simplify_eq. by rewrite E, Hd.
  - done.
  - destruct (creatable fs path); simplify_eq/=. by rewrite lookup_insert_eq, Hd.
Qed.

Lemma key_write_keeps k path fs p e :
  fs_entries fs !! p = Some e → fs_entries (Key.try_write_path k path fs).1 !! p = Some e.
Proof.
  intros Hp. unfold Key.try_write_path, Key.fs_write.
  destruct (fs_entries fs !! path) as [[data|]|] eqn:E; simpl; [done..|].
  destruct (creatable fs path); simpl; [|done]. rewrite lookup_insert_ne; [done|congruence].
Qed.
End key_laws.

(** ** A concrete instance of the interface *)

(** Not cryptography: tokens and wrapped keys carry their key in the clear. It satisfies every law,
    so that the theorems over the interface can be run on concrete records. *)
Module Toy.

Definition zero_char : Ascii.ascii := byte 48.
Definition one_char : Ascii.ascii := byte 49.

Fixpoint pos_str (p : positive) : string :=
  match p with
  | xH => ""
  | xO p => String zero_char (pos_str p)
  | xI p => String one_char (pos_str p)
  end.

Fixpoint str_pos (s : string) : positive :=
  match s with
  | "" => xH
  | String c s => if decide (c = zero_char) then xO (str_pos s) else xI (str_pos s)
  end.

Definition show {A} `{Countable A} (x : A) : string := pos_str (countable.encode x).
Definition read {A} `{Countable A} (s : string) : result A LibError :=
  ok_or (countable.decode (str_pos s)) "malformed".

Lemma str_pos_str p : str_pos (pos_str p) = p.
Proof. induction p; simpl; congruence. Qed.

Lemma read_show {A} `{Countable A} (x : A) : read (show x) = Ok x.
Proof. unfold read, show. by rewrite str_pos_str, decode_encode. Qed.

Lemma show_graphic {A} `{Countable A} (x : A) : graphic_string (show x) = true.
Proof. unfold graphic_string, show, chars. induction (countable.encode x); simpl; done. Qed.

Lemma show_inj {A} `{Countable A} : Inj (=) (=) (show (A := A)).
Proof. intros x y Hxy. pose proof (read_show x) as Hx. rewrite Hxy, read_show in Hx. congruence. Qed.

Definition dot : Ascii.ascii := byte 46.

Lemma split_once_show {A} `{Countable A} (x : A) l :
  split_once_l dot (chars (show x) ++ dot :: l) = Some (chars (show x), l).
Proof.
  unfold show, chars. induction (countable.encode x) as [p IH|p IH|]; simpl; rewrite ?IH; done.
Qed.

(** A token is a header (the key and the length of the assertion), the assertion and the payload. *)
Definition seal (k : list Z) (p : string) (a : option string) : string :=
  unchars (chars (show (k, String.length (default "" a))) ++ dot :: chars (default "" a) ++ chars p).

Definition unseal (t : string) (k : list Z) (a : option string) : result string LibError :=
  match split_once_l dot (chars t) with
  | None => Err "malformed"
  | Some (header, body) =>
      let? (k', n) := read (A := list Z * nat) (unchars header) in
      if decide (k = k' ∧ String.length (default "" a) = n ∧
                 take (String.length (default "" a)) body = chars (default "" a))
      then Ok (unchars (drop (String.length (default "" a)) body))
      else Err "not authentic"
  end.

Lemma unseal_seal k p a : unseal (seal k p a) k a = Ok p.
Proof.
  unfold unseal, seal. rewrite chars_unchars, split_once_show, unchars_chars, read_show. simpl.
  rewrite <- length_chars. rewrite decide_True.
  - by rewrite drop_app_length, unchars_chars.
  - by rewrite take_app_length.
Qed.

Lemma unseal_other k p a a' : default "" a' ≠ default "" a → ∃ e, unseal (seal k p a) k a' = Err e.
Proof.
  intros Hne. unfold unseal, seal. rewrite chars_unchars, split_once_show, unchars_chars, read_show. simpl.
  rewrite decide_False; [by eexists|]. intros (_ & Hl & Ht). rewrite Hl, <- length_chars, take_app_length in Ht.
  by apply chars_inj in Ht.
Qed.

Definition ad_tuple (a : AdditionalData) := (ad_id a, ad_idx a, ad_version a, ad_tag a, ad_host a).

#[global] Instance toy : Crypto := {|
  KeyId := list Z;
  KeyId_eq_dec := _;
  WrappedKey := (list Z * list Z);
  to_id k := k;
  wrap_pie _ k w := (k, w);
  unwrap_key p w := if decide (p.2 = w) then Ok p.1 else Err "wrong key";
  try_encrypt k n p a := Ok (seal k p a);
  try_decrypt := unseal;
  cek_to_json w i := Ok (show (w, i));
  cek_from_json := read;
  payload_to_json := Ok;
  payload_from_json := Ok;
  ad_to_json a := show (ad_tuple a);
  b64url_encode := show;
  b64url_decode := read;
  b64std_encode := show;
  b64std_decode := read;
  mnemonic_entropy s := map_err (λ _, InvalidWord) (read s);
  mnemonic_phrase k := Ok (show k)
|}.

#[global] Instance toy_laws : CryptoLaws.
Proof.
  split; simpl.
  - intros. by rewrite decide_True.
  - eauto.
  - intros k n p a t [= <-]. apply unseal_seal.
  - intros k n p a t a' [= <-]. apply unseal_other.
  - intros w i. eexists. split; [done|]. apply read_show.
  - eauto.
  - intros a b Hab%show_inj. destruct a, b. unfold ad_tuple in Hab. simpl in Hab. by simplify_eq.
  - intros. apply read_show.
  - intros. apply read_show.
  - intros. apply show_graphic.
Qed.

Definition key1 : key := replicate 32 7.
Definition key2 : key := replicate 32 9.
Definition rng : Entropy := mk_entropy (Ok (replicate 32 1)) (Ok (replicate 32 2)) 3.

Lemma rng_ok : entropy_ok rng.
Proof. split; by eexists. Qed.

Lemma key1_ok : is_key key1.
Proof. split; [done|]. unfold key1. by apply Forall_replicate. Qed.

End Toy.

(** ** Theorems *)

Section theorems.
Context `{CryptoLaws}.

(** C3: with a working random source a record encrypts, its metadata stays in the clear unchanged,
    and decrypting it under the same key gives the record back. *)
Theorem encrypt_decrypt_roundtrip (e : Entropy) (k : key) (r : record (list Z)) :
  entropy_ok e →
  ∃ er, encrypt e k r = Ok er ∧ with_data (r_data r) er = r ∧ decrypt k er = Ok r.
Proof.
  intros He. destruct (encrypt_sync_total e (r_data r) (Some (ad_to_json (additional_data r))) k He)
    as (d & Hd). exists (with_data d r).
  assert (encrypt e k r = Ok (with_data d r)) as Hen by (unfold encrypt; by rewrite Hd).
  split_and!; [done|by destruct r|by eapply decrypt_encrypt].
Qed.

(** C4: a ciphertext is bound to its record: moved onto a record that differs in its id, index,
    version, tag or host, it does not decrypt. *)
Theorem decrypt_rejects_altered_metadata (e : Entropy) (k : key) (r : record (list Z))
    (er er' : record EncryptedData) :
  encrypt e k r = Ok er → r_data er' = r_data er →
  (r_id er', r_idx er', Version.as_str (r_version er'), Tag.as_str (r_tag er'), r_host er') ≠
  (r_id er, r_idx er, Version.as_str (r_version er), Tag.as_str (r_tag er), r_host er) →
  ∃ m, decrypt k er' = Err (Decryption m).
Proof.
  intros (d & -> & Hd)%encrypt_meta Hdata Hne. unfold decrypt. rewrite Hdata. simpl r_data.
  destruct (decrypt_sync_assertion _ _ _ (Some (ad_to_json (additional_data er'))) _ _ Hd) as (m & ->).
  - intros [= Heq%ad_to_json_inj]. apply Hne. unfold additional_data in Heq. simpl. congruence.
  - by eexists.
Qed.

(** Under a key with another id nothing decrypts, and the error names both key ids. *)
Theorem decrypt_rejects_other_key (e : Entropy) (k k' : key) (r : record (list Z))
    (er er' : record EncryptedData) :
  encrypt e k r = Ok er → r_data er' = r_data er → to_id k ≠ to_id k' →
  decrypt k' er' = Err (CekDecryption (MismatchedKey (to_id k) (to_id k'))).
Proof.
  intros (d & -> & Hd)%encrypt_meta Hdata Hne. unfold decrypt. rewrite Hdata. simpl r_data.
  by rewrite (decrypt_sync_wrong_key _ _ _ _ _ _ _ Hd Hne).
Qed.

(** Re-encrypting a readable record for a new key succeeds without touching the ciphertext, the
    result reads back under the new key as the same record, and no longer under the old one. *)
Theorem reencrypt_moves_to_new_key (n : N) (k k' : key) (er : record EncryptedData)
    (r : record (list Z)) :
  decrypt k er = Ok r →
  ∃ d', reencrypt_sync n (r_data er) k k' = Ok d' ∧ raw d' = raw (r_data er) ∧
    decrypt k' (with_data d' er) = Ok r ∧
    (to_id k ≠ to_id k' →
     decrypt k (with_data d' er) = Err (CekDecryption (MismatchedKey (to_id k') (to_id k)))).
Proof.
  intros Hd. destruct (reencrypt_record n k k' er r Hd) as (d' & Hre & Hraw & Hd').
  exists d'. split_and!; [done..|].
  intros Hne. unfold reencrypt_sync in Hre. repeat case_res Hre. inv_res.
  unfold decrypt, decrypt_sync. simpl. by erewrite cek_wrong_key.
Qed.
End theorems.

Section key_theorems.
Context `{RmpLaws, CryptoLaws}.

(** The text form of a key decodes to it, with any trailing white space (an editor's newline),
    and so do the two encodings that earlier releases wrote. *)
Theorem key_decode_all_encodings (k : key) (ws : string) :
  is_key k → forallb ascii_space (chars ws) = true →
  Key.decode (Key.encode k ++ ws) = Ok k ∧
  Key.decode (b64std_encode (write_bin k) ++ ws) = Ok k ∧
  Key.decode (b64std_encode k ++ ws) = Ok k.
Proof.
  intros Hk Hw. split_and!.
  - apply key_decode_encode; [done|]. apply trim_end_spaces; [apply b64std_graphic|done].
  - apply key_decode_bin8; [done|]. apply trim_end_spaces; [apply b64std_graphic|done].
  - apply key_decode_plain; [done|]. apply trim_end_spaces; [apply b64std_graphic|done].
Qed.

(** [try_load_or_generate] returns only a key that the file now holds, whatever another process
    writes between its check and its write, and it never overwrites a file. *)
Theorem load_or_generate_safe (g : key) (race : Fs → Fs) (path : string) (fs : Fs) :
  is_key g →
  let '(fs', r) := Key.try_load_or_generate g race path fs in
  (∀ k, r = Ok k → Key.try_load_from_path path fs' = Ok k) ∧
  (∀ p f, fs_entries (if decide (fs_entries fs !! path = None) then race fs else fs) !! p = Some f →
    fs_entries fs' !! p = Some f).
Proof.
  intros Hg. unfold Key.try_load_or_generate.
  destruct (Key.try_load_from_path path fs) as [k|[]] eqn:E.
  - split; [by intros ? [= <-]|]. case_decide as Hn; [|done].
    unfold Key.try_load_from_path in E. by rewrite Hn in E.
  - assert (fs_entries fs !! path = None) as Hn.
    { unfold Key.try_load_from_path in E.
      destruct (fs_entries fs !! path) as [[s|]|]; [|done|done]. by destruct (Key.decode s). }
    rewrite decide_True by done.
    pose proof (key_write_keeps g path (race fs)) as Hkeep.
    destruct (Key.try_write_path g path (race fs)) as [fs' [[]|[]]] eqn:Hw; split; try done.
    + intros ? [= <-]. by eapply key_load_written.
    + intros k Hk. by destruct (Key.try_load_from_path path fs') as [|[]]; inv_res.
  - split; [done|]. case_decide as Hn; [|done]. unfold Key.try_load_from_path in E. by rewrite Hn in E.
  - split; [done|]. case_decide as Hn; [|done]. unfold Key.try_load_from_path in E. by rewrite Hn in E.
Qed.
End key_theorems.

(** ** Witnesses *)

Definition sample : record (list Z) := mk_record 1 0 2 1700000000 V0 History [104; 105].

Lemma encrypt_decrypt_roundtrip_witness :
  entropy_ok Toy.rng ∧
  ∃ er, encrypt Toy.rng Toy.key1 sample = Ok er ∧ with_data (r_data sample) er = sample ∧
    decrypt Toy.key1 er = Ok sample.
Proof.
  split; [exact Toy.rng_ok|]. exact (encrypt_decrypt_roundtrip Toy.rng Toy.key1 sample Toy.rng_ok).
Defined.

(** [sample] encrypted under [Toy.key1]. *)
Definition sample_enc : record EncryptedData :=
  match encrypt Toy.rng Toy.key1 sample with
  | Ok er => er
  | Err _ => with_data (mk_encrypted "" "") sample
  end.

Definition sample_moved : record EncryptedData :=
  mk_record 1 1 2 1700000000 V0 History (r_data sample_enc).

Lemma decrypt_rejects_altered_metadata_witness :
  encrypt Toy.rng Toy.key1 sample = Ok sample_enc ∧
  ∃ m, decrypt Toy.key1 sample_moved = Err (Decryption m).
Proof.
  split; [vm_compute; reflexivity|].
  apply (decrypt_rejects_altered_metadata Toy.rng Toy.key1 sample sample_enc sample_moved);
    [vm_compute; reflexivity|reflexivity|discriminate].
Defined.

Lemma decrypt_rejects_other_key_witness :
  decrypt Toy.key2 sample_enc = Err (CekDecryption (MismatchedKey (to_id Toy.key1) (to_id Toy.key2))).
Proof.
  apply (decrypt_rejects_other_key Toy.rng Toy.key1 Toy.key2 sample sample_enc sample_enc);
    [vm_compute; reflexivity|reflexivity|discriminate].
Defined.

Lemma reencrypt_moves_to_new_key_witness :
  decrypt Toy.key1 sample_enc = Ok sample ∧
  ∃ d', reencrypt_sync 5 (r_data sample_enc) Toy.key1 Toy.key2 = Ok d' ∧
    raw d' = raw (r_data sample_enc) ∧ decrypt Toy.key2 (with_data d' sample_enc) = Ok sample ∧
    (to_id Toy.key1 ≠ to_id Toy.key2 → decrypt Toy.key1 (with_data d' sample_enc) =
       Err (CekDecryption (MismatchedKey (to_id Toy.key2) (to_id Toy.key1)))).
Proof.
  assert (decrypt Toy.key1 sample_enc = Ok sample) as Hd by (vm_compute; reflexivity).
  split; [exact Hd|]. exact (reencrypt_moves_to_new_key 5 Toy.key1 Toy.key2 sample_enc sample Hd).
Defined.

Lemma key_decode_all_encodings_witness :
  Key.decode (Key.encode Toy.key1 ++ " ") = Ok Toy.key1 ∧
  Key.decode (b64std_encode (write_bin Toy.key1) ++ " ") = Ok Toy.key1 ∧
  Key.decode (b64std_encode Toy.key1 ++ " ") = Ok Toy.key1.
Proof. exact (key_decode_all_encodings Toy.key1 " " Toy.key1_ok eq_refl). Defined.

Definition fs_empty : Fs := mk_fs ∅ (λ _, true).

Lemma load_or_generate_safe_witness :
  (∀ k, Ok Toy.key1 = Ok (E := KeyFileLoadOrGenerateError) k →
     Key.try_load_from_path "key" (mk_fs {[ "key" := File (Key.encode Toy.key1) ]} (λ _, true)) = Ok k) ∧
  (∀ p f, fs_entries fs_empty !! p = Some f →
     fs_entries (mk_fs {[ "key" := File (Key.encode Toy.key1) ]} (λ _, true)) !! p = Some f).
Proof. exact (load_or_generate_safe Toy.key1 id "key" fs_empty Toy.key1_ok). Defined.
