(* ===== verification/SqliteStore.v ===== *)
(** * The local record store ([atuin-client/src/record/sqlite_store.rs])

    One table holds every record of every series. A row keeps the columns as SQLite does: indices
    and timestamps as signed 64-bit integers, tags and versions as text; UUID columns keep the
    UUID's value. A table is the list of its rows in insertion order. The statements of the code are
    the definitions of Module [Store]; failures of the database itself are not modelled, so that
    an operation fails only where the code makes it fail. *)
From S2P Require Import Prelude Text Record Status Encryption.

Abbreviation enc_record := (record EncryptedData) (only parsing).

(** ** Definitions *)

(** The table [store] of [record-migrations], in the column order of its [create table]. *)
Record Row : Type := mk_row {
  row_id : RecordId; row_idx : Z; row_host : HostId; row_tag : string;
  row_timestamp : Z; row_version : string; row_data : string; row_cek : string
}.

#[export] Instance Row_eq_dec : EqDecision Row.
Proof. solve_decision. Defined.

Module Store.

Abbreviation t := (list Row) (only parsing).

Definition empty : t := [].

(** The values [save_raw] binds. *)
Definition to_row (r : enc_record) : Row :=
  mk_row (r_id r) (u64_as_i64 (r_idx r)) (r_host r) (Tag.as_str (r_tag r))
    (u64_as_i64 (r_timestamp r)) (Version.as_str (r_version r)) (raw (r_data r)) (cek (r_data r)).

(** [DbRecord::from_row] *)
Definition from_row (row : Row) : enc_record :=
  mk_record (row_id row) (i64_as_u64 (row_idx row)) (row_host row) (i64_as_u64 (row_timestamp row))
    (Version.from_string (row_version row)) (Tag.from_string (row_tag row))
    (mk_encrypted (row_data row) (row_cek row)).

(** The unique columns: the primary key and the index [record_uniq]. *)
Definition row_key (row : Row) : HostId * string * Z := (row_host row, row_tag row, row_idx row).
Definition conflicts (row row' : Row) : bool :=
  bool_decide (row_id row = row_id row' ∨ row_key row = row_key row').

(** [save_raw]: insert or ignore. *)
Definition save_raw (st : t) (r : enc_record) : t :=
  if existsb (conflicts (to_row r)) st then st else st ++ [to_row r].

Definition load_all (st : t) : list enc_record := from_row <$> st.

Definition push_batch (st : t) (rs : list enc_record) : t := foldl save_raw st rs.

Definition push (st : t) (r : enc_record) : t := push_batch st [r].

(** [get]; [None] is [RowNotFound]. *)
Definition get (st : t) (id : RecordId) : option enc_record :=
  from_row <$> head (filter (λ row, row_id row = id) st).

Definition delete (st : t) (id : RecordId) : t := filter (λ row, row_id row ≠ id) st.

Definition delete_all (st : t) : t := [].

(** [where host = ? and tag = ?] *)
Definition in_series (s : RecordSeriesKey) (row : Row) : Prop :=
  row_host row = host_id s ∧ row_tag row = Tag.as_str (s_tag s).
#[global] Instance in_series_dec s row : Decision (in_series s row).
Proof. unfold in_series. apply _. Defined.

Definition series_rows (st : t) (s : RecordSeriesKey) : list Row := filter (in_series s) st.

(** [last]: order by idx desc limit 1. *)
Definition last (st : t) (s : RecordSeriesKey) : option enc_record :=
  from_row <$> head (sort_by_key (λ row, - row_idx row) (series_rows st s)).

(** [idx] *)
Definition idx (st : t) (s : RecordSeriesKey) (i : RecordIdx) : option enc_record :=
  from_row <$> head (filter (λ row, row_idx row = u64_as_i64 i) (series_rows st s)).

Definition first (st : t) (s : RecordSeriesKey) : option enc_record := idx st s 0.

Definition len_all (st : t) : Z := Z.of_nat (length st).

Definition len_tag (st : t) (tag : RecordTag) : Z :=
  Z.of_nat (length (filter (λ row, row_tag row = Tag.as_str tag) st)).

Definition len (st : t) (s : RecordSeriesKey) : Z :=
  match last st s with Some r => wrapping_add (r_idx r) 1 | None => 0 end.

(** SQL [min] and [max] over a column. *)
Definition sql_min (l : list Z) : option Z :=
  match l with [] => None | x :: l' => Some (foldl Z.min x l') end.
Definition sql_max (l : list Z) : option Z :=
  match l with [] => None | x :: l' => Some (foldl Z.max x l') end.

(** [first_gap]: the least of 0 and the successors of present indices that is not present. *)
Definition first_gap (st : t) (s : RecordSeriesKey) : RecordIdx :=
  let present := row_idx <$> series_rows st s in
  let candidates := (Z.succ <$> present) ++ [0] in
  i64_as_u64 (default 0 (sql_min (filter (λ i, i ∉ present) candidates))).

(** [next]: idx >= ?1 order by idx asc limit ?4. *)
Definition next (st : t) (s : RecordSeriesKey) (i : RecordIdx) (limit : Z) : list enc_record :=
  from_row <$> sql_limit (u64_as_i64 limit)
    (sort_by_key row_idx (filter (λ row, u64_as_i64 i ≤ row_idx row) (series_rows st s))).

(** [select host, tag, max(idx) .. group by host, tag] *)
Definition groups (st : t) : list (HostId * string) :=
  remove_dups ((λ row, (row_host row, row_tag row)) <$> st).
Definition group_max (st : t) (g : HostId * string) : Z :=
  default 0 (sql_max (row_idx <$> filter (λ row, (row_host row, row_tag row) = g) st)).

Definition status (st : t) : Status.t :=
  foldl (λ acc g,
    Status.set_raw acc (mk_series g.1 (Tag.from_string g.2)) (i64_as_u64 (group_max st g)))
    Status.new (groups st).

(** [all_tagged]: order by timestamp asc. *)
Definition all_tagged (st : t) (tag : RecordTag) : list enc_record :=
  from_row <$> sort_by_key row_timestamp (filter (λ row, row_tag row = Tag.as_str tag) st).

Section encrypted.
Context `{Crypto}.

(** [re_encrypt]: everything is re-encrypted in memory first, then swapped in one transaction.
    [nonce] is the randomness drawn for each record. *)
Definition re_encrypt (nonce : RecordId → N) (old_key new_key : key)
    : stm t ReencryptionError unit := λ st,
  match try_map (λ r, let? d := reencrypt_sync (nonce (r_id r)) (r_data r) old_key new_key in
                      Ok (with_data d r)) (load_all st) with
  | Err e => (st, Err e)
  | Ok re_encrypted => (foldl save_raw (delete_all st) re_encrypted, Ok tt)
  end.

(** [verify] *)
Definition verify (st : t) (k : key) : result unit DecryptionError :=
  let? _ := try_map (decrypt k) (load_all st) in Ok tt.

(** [purge]: delete every record that does not decrypt. *)
Definition purge (st : t) (k : key) : t :=
  foldl (λ acc r, match decrypt k r with Ok _ => acc | Err _ => delete acc (r_id r) end)
    st (load_all st).
End encrypted.

End Store.

(** ** Invariant *)

(** A record a store can hold exactly: its index and timestamp fit the signed columns, its tag and
    version are what their text parses to. *)
Definition storable {D} (r : record D) : Prop :=
  fits_i64 (r_idx r) ∧ fits_i64 (r_timestamp r) ∧
  Tag.canonical (r_tag r) = true ∧ Version.canonical (r_version r) = true.

(** What every table of records has: one row per host, tag and index, integers in range. *)
Record rows_wf (st : Store.t) : Prop := mk_rows_wf {
  wf_keys : NoDup (Store.row_key <$> st);
  wf_rows : Forall (λ row, fits_i64 (row_idx row) ∧ fits_i64 (row_timestamp row)) st
}.

(** The client's table has distinct ids as well. *)
Record store_wf (st : Store.t) : Prop := mk_wf {
  wf_ids : NoDup (row_id <$> st);
  wf_base : rows_wf st
}.
#[export] Hint Extern 0 (rows_wf _) => (apply wf_base; assumption) : core.
Coercion wf_base : store_wf >-> rows_wf.

Lemma store_wf_intro (st : Store.t) :
  NoDup (row_id <$> st) → NoDup (Store.row_key <$> st) →
  Forall (λ row, fits_i64 (row_idx row) ∧ fits_i64 (row_timestamp row)) st → store_wf st.
Proof. intros Hi Hk Hr. by split. Qed.

(** ** Rows and records *)

Section rows.
Implicit Types (st : Store.t) (r : enc_record) (s : RecordSeriesKey) (row : Row).

Lemma from_to_row r : storable r → Store.from_row (Store.to_row r) = r.
Proof.
  intros (Hi & Ht & Htag%tag_canonical_spec & Hv%version_canonical_spec).
  unfold Store.from_row, Store.to_row; simpl.
  rewrite !i64_u64_roundtrip by eauto with atuin. rewrite Htag, Hv. by destruct r as [??????[]].
Qed.

Lemma from_row_storable row :
  fits_i64 (row_idx row) ∧ fits_i64 (row_timestamp row) → storable (Store.from_row row).
Proof.
  intros [Hi Ht]. unfold storable; simpl. rewrite !i64_as_u64_fits by done. split_and!; [done..| |].
  - apply tag_from_string_canonical.
  - apply version_canonical_spec. by rewrite version_as_str_from_string.
Qed.

Lemma to_from_row row :
  fits_i64 (row_idx row) ∧ fits_i64 (row_timestamp row) → Store.to_row (Store.from_row row) = row.
Proof.
  intros [Hi Ht]. unfold Store.from_row, Store.to_row; simpl.
  rewrite !i64_as_u64_fits, !u64_as_i64_fits by (try rewrite i64_as_u64_fits; done).
  rewrite tag_as_str_from_string, version_as_str_from_string. by destruct row.
Qed.

(** The text of the columns identifies the series of a row. *)
Lemma in_series_iff s row :
  Tag.canonical (s_tag s) = true → Store.in_series s row ↔ series_key (Store.from_row row) = s.
Proof.
  rewrite tag_canonical_spec. intros Hc. unfold Store.in_series, series_key; simpl.
  destruct s as [h t]; simpl in *. split.
  - intros [-> ->]. by rewrite Hc.
  - intros [= <- <-]. by rewrite tag_as_str_from_string.
Qed.

Lemma row_wf st row :
  rows_wf st → row ∈ st → fits_i64 (row_idx row) ∧ fits_i64 (row_timestamp row).
Proof. intros [_ Hr] Hin. by eapply Forall_forall in Hr. Qed.

Lemma elem_of_load_all st r :
  rows_wf st → r ∈ Store.load_all st ↔ storable r ∧ Store.to_row r ∈ st.
Proof.
  intros Hwf. unfold Store.load_all. rewrite list_elem_of_fmap. split.
  - intros (row & -> & Hin). pose proof (row_wf st row Hwf Hin) as Hf.
    split; [by apply from_row_storable|]. by rewrite to_from_row.
  - intros [Hs Hin]. exists (Store.to_row r). by rewrite from_to_row.
Qed.

Lemma load_all_storable st r : rows_wf st → r ∈ Store.load_all st → storable r.
Proof. intros Hwf Hin. by apply elem_of_load_all in Hin as [? _]. Qed.

(** At most one record has a given series and index. *)
Lemma series_idx_unique st s row row' :
  rows_wf st → row ∈ Store.series_rows st s → row' ∈ Store.series_rows st s →
  row_idx row = row_idx row' → row = row'.
Proof.
  intros [Hk _] [[H1 H2] Hin]%list_elem_of_filter [[H3 H4] Hin']%list_elem_of_filter He.
  eapply NoDup_fmap_eq; [exact Hk|done..|]. unfold Store.row_key. congruence.
Qed.

Lemma load_all_unique st r r' :
  rows_wf st → r ∈ Store.load_all st → r' ∈ Store.load_all st →
  series_key r = series_key r' → r_idx r = r_idx r' → r = r'.
Proof.
  intros Hwf [Hs Hr]%elem_of_load_all [Hs' Hr']%elem_of_load_all Hk Hi; [|done..].
  assert (Store.to_row r = Store.to_row r') as He.
  { eapply NoDup_fmap_eq; [apply (wf_keys _ Hwf)|done..|]. unfold Store.row_key; simpl.
    unfold series_key in Hk. congruence. }
  by rewrite <- (from_to_row r), <- (from_to_row r'), He.
Qed.

(** [idx] finds exactly the record of that series and index. *)
Lemma idx_Some st s i r :
  rows_wf st → Tag.canonical (s_tag s) = true → fits_i64 i →
  Store.idx st s i = Some r ↔ r ∈ Store.load_all st ∧ series_key r = s ∧ r_idx r = i.
Proof.
  intros Hwf Hc Hi. unfold Store.idx. rewrite fmap_Some. split.
  - intros (row & Hh & ->). apply head_filter_unique in Hh as [Hin Hrow].
    + unfold Store.series_rows in Hin. apply list_elem_of_filter in Hin as [Hs Hin].
      split_and!; [by apply list_elem_of_fmap_2| by apply in_series_iff|]. simpl.
      by rewrite Hrow, u64_as_i64_fits, i64_as_u64_fits.
    + intros y z Hy Hz E1 E2. eapply series_idx_unique; eauto. congruence.
  - intros (Hin & Hs & He). apply list_elem_of_fmap in Hin as (row & -> & Hin).
    exists row. split; [|done]. apply head_filter_unique.
    + intros y z Hy Hz E1 E2. eapply series_idx_unique; eauto. congruence.
    + split.
      * apply list_elem_of_filter. split; [by apply in_series_iff|done].
      * simpl in He. rewrite <- He, i64_as_u64_fits, u64_as_i64_fits; try done.
        -- by rewrite i64_as_u64_fits in He; [subst|apply (row_wf st)].
        -- by apply (row_wf st).
Qed.

Lemma idx_None st s i :
  rows_wf st → Tag.canonical (s_tag s) = true → fits_i64 i →
  Store.idx st s i = None ↔ ∀ r, r ∈ Store.load_all st → series_key r = s → r_idx r ≠ i.
Proof.
  intros Hwf Hc Hi. rewrite eq_None_not_Some. split.
  - intros Hn r Hin Hs He. apply Hn. exists r. by apply idx_Some.
  - intros Hr [r (Hin & Hs & He)%idx_Some]; [|done..]. by eapply Hr.
Qed.
End rows.

(** ** Insertion *)

Section insert.
Implicit Types (st : Store.t) (r : enc_record).

(** The record-level reading of a unique-constraint violation. *)
Definition clashes (r r' : enc_record) : Prop :=
  r_id r = r_id r' ∨ (series_key r = series_key r' ∧ r_idx r = r_idx r').

Lemma clashes_sym r r' : clashes r r' → clashes r' r.
Proof. unfold clashes. intros [->|[-> ->]]; auto. Qed.

Lemma conflicts_iff r r' :
  storable r → storable r' →
  Store.conflicts (Store.to_row r) (Store.to_row r') = true ↔ clashes r r'.
Proof.
  intros (Hi & _ & Ht & _) (Hi' & _ & Ht' & _). unfold Store.conflicts, Store.row_key, clashes, series_key.
  rewrite bool_decide_eq_true. simpl. rewrite !u64_as_i64_fits by done. split.
  - intros [?|[= -> He ->]]; [by left|]. right. by rewrite (tag_as_str_inj _ _ Ht Ht' He).
  - intros [?|[[= -> ->] ->]]; auto.
Qed.

Lemma save_raw_cases st r :
  store_wf st → storable r →
  (Store.save_raw st r = st ∧ ∃ r', r' ∈ Store.load_all st ∧ clashes r r') ∨
  (Store.save_raw st r = st ++ [Store.to_row r] ∧
   ∀ r', r' ∈ Store.load_all st → ¬ clashes r r').
Proof.
  intros Hwf Hr. unfold Store.save_raw. destruct (existsb _ st) eqn:E.
  - left. split; [done|]. apply existsb_true in E as (row & Hin & Hc).
    pose proof (row_wf st row Hwf Hin) as Hf. exists (Store.from_row row).
    split; [by apply list_elem_of_fmap_2|]. apply conflicts_iff; [done|by apply from_row_storable|].
    by rewrite to_from_row.
  - right. split; [done|]. intros r' [Hs Hin]%elem_of_load_all; [|done].
    rewrite <- conflicts_iff by done. rewrite existsb_false in E. by rewrite E.
Qed.

Lemma save_raw_wf st r : store_wf st → storable r → store_wf (Store.save_raw st r).
Proof.
  intros Hwf Hr. unfold Store.save_raw. destruct (existsb _ st) eqn:E; [done|].
  rewrite existsb_false in E. destruct Hwf as [Hi [Hk Hf]].
  assert (∀ row, row ∈ st → row_id row ≠ r_id r ∧ Store.row_key row ≠ Store.row_key (Store.to_row r)) as Hn.
  { intros row Hin. specialize (E row Hin). unfold Store.conflicts in E.
    rewrite bool_decide_eq_false in E. simpl in E. split; intros He; apply E; auto. }
  apply store_wf_intro; rewrite ?fmap_app; simpl.
  - apply NoDup_app. split_and!; [done| |apply NoDup_singleton].
    intros x (row & -> & Hin)%list_elem_of_fmap. rewrite list_elem_of_singleton. by apply Hn.
  - apply NoDup_app. split_and!; [done| |apply NoDup_singleton].
    intros x (row & -> & Hin)%list_elem_of_fmap. rewrite list_elem_of_singleton. by apply Hn.
  - apply Forall_app. split; [done|]. destruct Hr as (Hr1 & Hr2 & _).
    apply Forall_singleton. simpl. by rewrite !u64_as_i64_fits.
Qed.

Lemma elem_of_save_raw st r r' :
  store_wf st → storable r →
  r' ∈ Store.load_all (Store.save_raw st r) ↔
  r' ∈ Store.load_all st ∨ (r' = r ∧ ∀ x, x ∈ Store.load_all st → ¬ clashes r x).
Proof.
  intros Hwf Hr. destruct (save_raw_cases st r Hwf Hr) as [[-> (x & Hx & Hc)]|[-> Hn]].
  - split; [by left|]. intros [?|[-> Hf]]; [done|]. by destruct (Hf x).
  - unfold Store.load_all. rewrite fmap_app, elem_of_app. simpl.
    rewrite list_elem_of_singleton, from_to_row by done. naive_solver.
Qed.

Lemma push_batch_wf st rs : store_wf st → Forall storable rs → store_wf (Store.push_batch st rs).
Proof.
  unfold Store.push_batch. intros Hwf Hrs. revert st Hwf.
  induction Hrs as [|r rs Hr Hrs IH]; intros st Hwf; simpl; [done|].
  apply IH. by apply save_raw_wf.
Qed.

Lemma push_batch_app st rs rs' :
  Store.push_batch st (rs ++ rs') = Store.push_batch (Store.push_batch st rs) rs'.
Proof. apply foldl_app. Qed.

(** Nothing already stored is lost or replaced. *)
Lemma push_batch_mono st rs r :
  store_wf st → Forall storable rs → r ∈ Store.load_all st → r ∈ Store.load_all (Store.push_batch st rs).
Proof.
  unfold Store.push_batch. intros Hwf Hrs. revert st Hwf.
  induction Hrs as [|r' rs Hr Hrs IH]; intros st Hwf Hin; simpl; [done|].
  apply IH; [by apply save_raw_wf|]. apply elem_of_save_raw; auto.
Qed.

Lemma push_batch_inv st rs r :
  store_wf st → Forall storable rs → r ∈ Store.load_all (Store.push_batch st rs) →
  r ∈ Store.load_all st ∨ r ∈ rs.
Proof.
  unfold Store.push_batch. intros Hwf Hrs. revert st Hwf.
  induction Hrs as [|r' rs Hr Hrs IH]; intros st Hwf Hin; simpl in *; [by left|].
  apply IH in Hin as [Hin|Hin]; [|by right; right|by apply save_raw_wf].
  apply elem_of_save_raw in Hin as [?|[-> _]]; [by left|right; left|done|done].
Qed.

(** Everything pushed is there afterwards, unless something stored or pushed before it clashes. *)
Lemma push_batch_present st rs r :
  store_wf st → Forall storable rs → r ∈ rs →
  ∃ r', r' ∈ Store.load_all (Store.push_batch st rs) ∧ (r' = r ∨ clashes r r').
Proof.
  intros Hwf Hrs Hin. apply list_elem_of_split in Hin as (l1 & l2 & ->).
  apply Forall_app in Hrs as [H1 H2]. apply Forall_cons in H2 as [Hr H2].
  rewrite push_batch_app. simpl. pose proof (push_batch_wf st l1 Hwf H1) as Hwf1.
  change (Store.push_batch ?a (r :: l2)) with (Store.push_batch (Store.save_raw a r) l2).
  destruct (save_raw_cases (Store.push_batch st l1) r Hwf1 Hr) as [[-> (x & Hx & Hc)]|[_ Hn]].
  - exists x. split; [by apply push_batch_mono|by right].
  - exists r. split; [|by left]. apply push_batch_mono; [by apply save_raw_wf|done|].
    apply elem_of_save_raw; auto.
Qed.

(** A batch whose records clash neither with each other nor with the store is stored whole. *)
Lemma push_batch_fresh st rs :
  store_wf st → Forall storable rs →
  (∀ r x, r ∈ rs → x ∈ Store.load_all st → clashes r x → x = r) →
  (∀ r x, r ∈ rs → x ∈ rs → clashes r x → x = r) →
  ∀ r, r ∈ Store.load_all (Store.push_batch st rs) ↔ r ∈ Store.load_all st ∨ r ∈ rs.
Proof.
  intros Hwf Hrs Hst Hin r. split; [by apply push_batch_inv|]. intros [Hr|Hr]; [by apply push_batch_mono|].
  destruct (push_batch_present st rs r Hwf Hrs Hr) as (x & Hx & [->|Hc]); [done|].
  enough (x = r) as <- by done.
  apply push_batch_inv in Hx as [Hx|Hx]; [by apply (Hst r)|by apply (Hin r)|done|done].
Qed.
End insert.

(** ** Queries *)

Section queries.
Implicit Types (st : Store.t) (r : enc_record) (s : RecordSeriesKey).

(** The indices of a series. *)
Definition has_idx st s (i : Z) : Prop :=
  ∃ r, r ∈ Store.load_all st ∧ series_key r = s ∧ r_idx r = i.

Lemma elem_of_series_rows st s i :
  rows_wf st → Tag.canonical (s_tag s) = true →
  i ∈ row_idx <$> Store.series_rows st s ↔ has_idx st s i.
Proof.
  intros Hwf Hc. unfold has_idx, Store.series_rows. rewrite list_elem_of_fmap. split.
  - intros (row & -> & [Hs Hin]%list_elem_of_filter). exists (Store.from_row row).
    split_and!; [by apply list_elem_of_fmap_2|by apply in_series_iff|]. simpl.
    apply i64_as_u64_fits. by apply (row_wf st).
  - intros (r & Hin & Hs & Hi). apply list_elem_of_fmap in Hin as (row & -> & Hin).
    exists row. simpl in Hi. rewrite i64_as_u64_fits in Hi by (by apply (row_wf st)).
    split; [done|]. apply list_elem_of_filter. split; [by apply in_series_iff|done].
Qed.

Lemma has_idx_fits st s i : rows_wf st → has_idx st s i → fits_i64 i.
Proof. intros Hwf (r & Hin & _ & <-). by apply load_all_storable in Hin as (? & _). Qed.

Lemma fold_min_spec (x : Z) (l : list Z) :
  foldl Z.min x l ∈ x :: l ∧ ∀ y, y ∈ x :: l → foldl Z.min x l ≤ y.
Proof.
  revert x; induction l as [|z l IH]; intros x; simpl.
  - split; [left|]. intros y ->%list_elem_of_singleton. lia.
  - destruct (IH (Z.min x z)) as [Hin Hle]. split.
    + apply elem_of_cons in Hin as [->|Hin]; [|by right; right].
      destruct (Z.min_spec x z) as [[_ ->]|[_ ->]]; [left|right; left].
    + intros y [->|[->|Hy]%elem_of_cons]%elem_of_cons.
      * etransitivity; [apply Hle; left|]. lia.
      * etransitivity; [apply Hle; left|]. lia.
      * apply Hle. by right.
Qed.

Lemma fold_max_spec (x : Z) (l : list Z) :
  foldl Z.max x l ∈ x :: l ∧ ∀ y, y ∈ x :: l → y ≤ foldl Z.max x l.
Proof.
  revert x; induction l as [|z l IH]; intros x; simpl.
  - split; [left|]. intros y ->%list_elem_of_singleton. lia.
  - destruct (IH (Z.max x z)) as [Hin Hle]. split.
    + apply elem_of_cons in Hin as [->|Hin]; [|by right; right].
      destruct (Z.max_spec x z) as [[_ ->]|[_ ->]]; [right; left|left].
    + intros y [->|[->|Hy]%elem_of_cons]%elem_of_cons.
      * etransitivity; [|apply Hle; left]. lia.
      * etransitivity; [|apply Hle; left]. lia.
      * apply Hle. by right.
Qed.

Lemma sql_max_spec (l : list Z) :
  l ≠ [] → ∃ m, Store.sql_max l = Some m ∧ m ∈ l ∧ ∀ y, y ∈ l → y ≤ m.
Proof. destruct l as [|x l]; [done|]. intros _. simpl. destruct (fold_max_spec x l). eauto. Qed.

Lemma sql_min_spec (l : list Z) :
  l ≠ [] → ∃ m, Store.sql_min l = Some m ∧ m ∈ l ∧ ∀ y, y ∈ l → m ≤ y.
Proof. destruct l as [|x l]; [done|]. intros _. simpl. destruct (fold_min_spec x l). eauto. Qed.

(** The arithmetic of [first_gap] on the indices present. *)
Lemma first_gap_list (p : list Z) :
  (∀ i, i ∈ p → 0 ≤ i) →
  ∃ g, Store.sql_min (filter (λ i, i ∉ p) ((Z.succ <$> p) ++ [0])) = Some g ∧
    0 ≤ g ∧ (g ∉ p) ∧ (g = 0 ∨ (g - 1) ∈ p) ∧ ∀ i, 0 ≤ i < g → i ∈ p.
Proof.
  intros Hp. destruct (sql_min_spec (filter (λ i, i ∉ p) ((Z.succ <$> p) ++ [0]))) as (g & Hg & Hin & Hmin).
  { intros Hnil. destruct (decide (p = [])) as [->|Hne]; [done|].
    destruct (sql_max_spec p Hne) as (m & _ & Hm & Hmax).
    eapply not_elem_of_nil. rewrite <- Hnil. apply list_elem_of_filter. split.
    - intros Hs%Hmax. instantiate (1 := Z.succ m) in Hs. lia.
    - apply elem_of_app. left. by apply list_elem_of_fmap_2. }
  apply list_elem_of_filter in Hin as [Hnp Hin]. exists g. split; [done|].
  assert (g = 0 ∨ (g - 1) ∈ p) as Hor.
  { apply elem_of_app in Hin as [(j & -> & Hj)%list_elem_of_fmap| ->%list_elem_of_singleton]; [|by left].
    right. by replace (Z.succ j - 1) with j by lia. }
  split_and!; [destruct Hor as [->|Hj%Hp]; lia|done|done|].
  intros i Hi. destruct (decide (i ∈ p)) as [|Hn]; [done|exfalso].
  revert Hi Hn. intros [Hi Hlt]. revert i Hi Hlt.
  refine (natlike_ind _ _ _); [intros Hlt Hn|intros i Hi IH Hlt Hn].
  - assert (g ≤ 0) as ?; [|lia]. apply Hmin, list_elem_of_filter. split; [done|].
    apply elem_of_app. right. by apply list_elem_of_singleton.
  - destruct (decide (i ∈ p)) as [Hip|]; [|apply IH; [lia|done]].
    assert (g ≤ Z.succ i) as ?; [|lia]. apply Hmin, list_elem_of_filter. split; [done|].
    apply elem_of_app. left. by apply list_elem_of_fmap_2.
Qed.

Lemma first_gap_spec st s :
  rows_wf st → Tag.canonical (s_tag s) = true →
  let g := Store.first_gap st s in
  0 ≤ g ∧ ¬ has_idx st s g ∧ (∀ i, 0 ≤ i < g → has_idx st s i).
Proof.
  intros Hwf Hc. unfold Store.first_gap.
  assert (∀ i, i ∈ row_idx <$> Store.series_rows st s → fits_i64 i) as Hf.
  { intros i Hi%elem_of_series_rows; [|done..]. by eapply has_idx_fits. }
  destruct (first_gap_list (row_idx <$> Store.series_rows st s)) as (g & -> & Hg & Hn & Hor & Hall).
  { intros i Hi. by apply Hf. }
  simpl. assert (i64_as_u64 g = g) as ->.
  { apply Z.mod_small. unfold u64_limit. destruct Hor as [->|Hi%Hf]; [lia|].
    unfold fits_i64, i64_limit in Hi. lia. }
  split_and!; [done| |].
  - by rewrite <- elem_of_series_rows.
  - intros i Hi. apply elem_of_series_rows; [done..|]. by apply Hall.
Qed.

(** All records of a series from an index on, in index order. *)
Definition series_from st s (i : Z) : list enc_record :=
  Store.from_row <$>
    sort_by_key row_idx (filter (λ row, u64_as_i64 i ≤ row_idx row) (Store.series_rows st s)).

Lemma elem_of_series_from st s i r :
  rows_wf st → Tag.canonical (s_tag s) = true → fits_i64 i →
  r ∈ series_from st s i ↔ r ∈ Store.load_all st ∧ series_key r = s ∧ i ≤ r_idx r.
Proof.
  intros Hwf Hc Hi. unfold series_from, sort_by_key, Store.series_rows, Store.load_all.
  rewrite !list_elem_of_fmap. setoid_rewrite elem_of_sort_by.
  setoid_rewrite list_elem_of_filter. setoid_rewrite list_elem_of_filter.
  rewrite u64_as_i64_fits by done. split.
  - intros (row & -> & Hle & Hs & Hin). split_and!; [eauto|by apply in_series_iff|]. simpl.
    rewrite i64_as_u64_fits; [done|]. by apply (row_wf st).
  - intros ((row & -> & Hin) & Hs & Hle). exists row. simpl in Hle.
    rewrite i64_as_u64_fits in Hle by (by apply (row_wf st)).
    split_and!; [done|done|by apply in_series_iff|done].
Qed.

Lemma series_from_sorted st s i :
  rows_wf st → StronglySorted (λ a b : enc_record, r_idx a < r_idx b) (series_from st s i).
Proof.
  intros Hwf. unfold series_from.
  set (l := filter _ (Store.series_rows st s)).
  assert (∀ row, row ∈ sort_by_key row_idx l → row ∈ Store.series_rows st s) as Hl.
  { intros row Hr. unfold sort_by_key in Hr. rewrite elem_of_sort_by in Hr.
    by apply list_elem_of_filter in Hr as [_ ?]. }
  assert (NoDup (sort_by_key row_idx l)) as Hnd.
  { unfold sort_by_key. rewrite sort_by_perm. apply NoDup_filter, NoDup_filter.
    eapply NoDup_fmap_1, (wf_keys _ Hwf). }
  pose proof (sort_by_key_sorted row_idx l) as Hs. revert Hl Hnd.
  induction Hs as [|row l' Hs IH Hall]; intros Hl Hnd; [constructor|]. rewrite fmap_cons.
  apply NoDup_cons in Hnd as [Hnin Hnd]. constructor.
  - apply IH; [|done]. intros. apply Hl. by right.
  - apply Forall_fmap, Forall_forall. intros row' Hin. simpl.
    eapply Forall_forall in Hall as Hle%leb_Z; [|exact Hin].
    assert (∀ x, x ∈ row :: l' → fits_i64 (row_idx x)) as Hf.
    { intros x Hx%Hl. apply list_elem_of_filter in Hx as [_ Hx]. by apply (row_wf st). }
    rewrite !i64_as_u64_fits by (apply Hf; set_solver).
    destruct (decide (row_idx row = row_idx row')) as [He|]; [|lia].
    assert (row = row') as ->; [|done]. eapply series_idx_unique; eauto; apply Hl; set_solver.
Qed.

Lemma next_take st s i limit :
  fits_i64 limit → Store.next st s i limit = take (Z.to_nat limit) (series_from st s i).
Proof.
  intros Hl. unfold Store.next, series_from. rewrite u64_as_i64_fits by done.
  unfold sql_limit. destruct (Z.ltb_spec limit 0) as [|_]; [unfold fits_i64 in Hl; lia|].
  by rewrite fmap_take.
Qed.

(** Where a series has no hole, a window of it is the run of its indices. *)
Lemma next_contiguous st s c n :
  rows_wf st → Tag.canonical (s_tag s) = true → fits_i64 c → fits_i64 n →
  (∀ i, c ≤ i < c + n → has_idx st s i) → r_idx <$> Store.next st s c n = seqZ c n.
Proof.
  intros Hwf Hc Hfc Hfn Hall. rewrite next_take, fmap_take by done.
  replace n with (Z.of_nat (Z.to_nat n)) at 2 by (unfold fits_i64 in Hfn; lia).
  apply sorted_take_seqZ.
  - apply StronglySorted_fmap, series_from_sorted, Hwf.
  - intros x (r & -> & Hr)%list_elem_of_fmap. by apply elem_of_series_from in Hr as (_ & _ & ?).
  - intros i Hi. destruct (Hall i) as (r & Hin & Hs & <-); [unfold fits_i64 in Hfn; lia|].
    apply list_elem_of_fmap_2, elem_of_series_from; [done..|]. split_and!; [done|done|lia].
Qed.

Lemma last_spec st s r :
  rows_wf st → Tag.canonical (s_tag s) = true → Store.last st s = Some r →
  r ∈ Store.load_all st ∧ series_key r = s ∧ ∀ i, has_idx st s i → i ≤ r_idx r.
Proof.
  intros Hwf Hc. unfold Store.last. rewrite fmap_Some. intros (row & Hh & ->).
  apply head_sort_by_key in Hh as [Hin Hmax].
  pose proof Hin as [Hs Hin']%list_elem_of_filter.
  split_and!; [by apply list_elem_of_fmap_2|by apply in_series_iff|].
  intros i Hi. apply elem_of_series_rows in Hi as (row' & -> & Hin2)%list_elem_of_fmap; [|done..].
  apply Hmax in Hin2. rewrite leb_Z in Hin2. simpl.
  rewrite i64_as_u64_fits; [lia|]. by apply (row_wf st).
Qed.

Lemma last_None st s :
  rows_wf st → Tag.canonical (s_tag s) = true →
  Store.last st s = None ↔ ∀ i, ¬ has_idx st s i.
Proof.
  intros Hwf Hc. unfold Store.last. rewrite fmap_None, head_None.
  unfold sort_by_key. split.
  - intros Hnil i Hi. apply elem_of_series_rows in Hi as (row & -> & Hin)%list_elem_of_fmap; [|done..].
    rewrite <- (elem_of_sort_by (λ x y, leb (- row_idx x) (- row_idx y))), Hnil in Hin.
    by apply not_elem_of_nil in Hin.
  - intros Hn. destruct (sort_by _ _) as [|row l] eqn:E; [done|exfalso].
    apply (Hn (row_idx row)). apply elem_of_series_rows; [done..|]. apply list_elem_of_fmap_2.
    rewrite <- (elem_of_sort_by (λ x y, leb (- row_idx x) (- row_idx y))), E. left.
Qed.

(** The length of a series is one past its tail. *)
Lemma len_spec st s :
  rows_wf st → Tag.canonical (s_tag s) = true →
  Store.len st s = match Store.last st s with Some r => r_idx r + 1 | None => 0 end.
Proof.
  intros Hwf Hc. unfold Store.len. destruct (Store.last st s) as [r|] eqn:E; [|done].
  apply last_spec in E as (Hin & _); [|done..].
  apply load_all_storable in Hin as (Hi & _); [|done].
  apply wrapping_add_exact. wrap_lia.
Qed.
End queries.

(** ** The status index of a store *)

Section status.
Implicit Types (st : Store.t) (s : RecordSeriesKey).

Definition group_series (g : HostId * string) : RecordSeriesKey := mk_series g.1 (Tag.from_string g.2).

Lemma group_series_inj : Inj (=) (=) group_series.
Proof.
  intros [h x] [h' y]. unfold group_series; simpl. intros [= -> He]. f_equal.
  by rewrite <- (tag_as_str_from_string x), He, tag_as_str_from_string.
Qed.

Lemma status_extend st :
  Store.status st =
    Status.extend Status.new ((λ g, (group_series g, i64_as_u64 (Store.group_max st g))) <$> Store.groups st).
Proof.
  unfold Store.status, Status.extend. generalize Status.new.
  induction (Store.groups st) as [|g l IH]; intros acc; simpl; [done|]. apply IH.
Qed.

Lemma group_max_spec st s g :
  rows_wf st → group_series g = s → g ∈ Store.groups st →
  has_idx st s (i64_as_u64 (Store.group_max st g)) ∧
  ∀ i, has_idx st s i → i ≤ i64_as_u64 (Store.group_max st g).
Proof.
  intros Hwf <- Hg. unfold Store.groups in Hg.
  apply elem_of_remove_dups, list_elem_of_fmap in Hg as (row0 & -> & Hin0).
  assert (Tag.canonical (s_tag (group_series (row_host row0, row_tag row0))) = true) as Hc.
  { apply tag_from_string_canonical. }
  assert (∀ i, i ∈ (row_idx <$> filter (λ row, (row_host row, row_tag row) = (row_host row0, row_tag row0)) st)
    ↔ has_idx st (group_series (row_host row0, row_tag row0)) i) as Hiff.
  { intros i. rewrite <- elem_of_series_rows by done. rewrite !list_elem_of_fmap.
    unfold Store.series_rows. setoid_rewrite list_elem_of_filter. unfold Store.in_series. simpl.
    rewrite tag_as_str_from_string. split.
    - intros (row & -> & [= H1 H2] & Hin). eauto.
    - intros (row & -> & [H1 H2] & Hin). exists row. by rewrite H1, H2. }
  unfold Store.group_max.
  destruct (sql_max_spec (row_idx <$> filter (λ row, (row_host row, row_tag row) = (row_host row0, row_tag row0)) st))
    as (m & -> & Hm & Hmax).
  { intros Hnil. eapply not_elem_of_nil. rewrite <- Hnil. apply list_elem_of_fmap_2.
    apply list_elem_of_filter. split; [done|exact Hin0]. }
  simpl. rewrite Hiff in Hm. rewrite i64_as_u64_fits by (by eapply has_idx_fits).
  split; [done|]. intros i Hi. apply Hmax. by apply Hiff.
Qed.

Lemma group_of st s i :
  rows_wf st → Tag.canonical (s_tag s) = true → has_idx st s i →
  (host_id s, Tag.as_str (s_tag s)) ∈ Store.groups st.
Proof.
  intros Hwf Hc Hi. apply elem_of_series_rows in Hi as (row & _ & Hin)%list_elem_of_fmap; [|done..].
  apply list_elem_of_filter in Hin as [[Hh Ht] Hin].
  apply elem_of_remove_dups, list_elem_of_fmap. exists row. by rewrite Hh, Ht.
Qed.

Lemma status_get st s :
  rows_wf st → Tag.canonical (s_tag s) = true →
  match Status.get (Store.status st) s with
  | Some m => has_idx st s m ∧ ∀ i, has_idx st s i → i ≤ m
  | None => ∀ i, ¬ has_idx st s i
  end.
Proof.
  intros Hwf Hc. rewrite status_extend.
  set (l := (λ g, (group_series g, i64_as_u64 (Store.group_max st g))) <$> Store.groups st).
  assert (NoDup l.*1) as Hnd.
  { unfold l. rewrite <- list_fmap_compose. apply NoDup_fmap_2; [apply group_series_inj|].
    apply NoDup_remove_dups. }
  rewrite status_get_extend, status_get_new by done.
  destruct (list_to_map (M := gmap RecordSeriesKey Z) l !! s) as [m|] eqn:E.
  - apply elem_of_list_to_map in E; [|done].
    apply list_elem_of_fmap in E as (g & [= Hs ->] & Hg). by apply group_max_spec.
  - intros i Hi. apply not_elem_of_list_to_map in E. apply E.
    unfold l. rewrite <- list_fmap_compose. apply list_elem_of_fmap.
    exists (host_id s, Tag.as_str (s_tag s)). split; [|by eapply group_of].
    apply tag_canonical_spec in Hc. unfold group_series; simpl. rewrite Hc. by destruct s.
Qed.

Lemma status_get_Some st s m :
  rows_wf st → Tag.canonical (s_tag s) = true →
  Status.get (Store.status st) s = Some m ↔
  has_idx st s m ∧ ∀ i, has_idx st s i → i ≤ m.
Proof.
  intros Hwf Hc. pose proof (status_get st s Hwf Hc) as Hs.
  destruct (Status.get (Store.status st) s) as [m'|]; split.
  - by intros [= <-].
  - intros [Hm Hmax]. destruct Hs as [Hm' Hmax']. f_equal. apply Hmax in Hm'. apply Hmax' in Hm. lia.
  - done.
  - intros [Hm _]. by destruct (Hs m).
Qed.

(** A store's index names only canonical series. *)
Lemma status_canonical st s m :
  rows_wf st → Status.get (Store.status st) s = Some m → Tag.canonical (s_tag s) = true.
Proof.
  intros Hwf. rewrite status_extend, status_get_extend, status_get_new.
  - set (l := _ <$> _). destruct (list_to_map (M := gmap RecordSeriesKey Z) l !! s) as [x|] eqn:E; [|done].
    intros _. apply elem_of_list_to_map_2 in E. apply list_elem_of_fmap in E as (g & [= -> _] & _).
    apply tag_from_string_canonical.
  - rewrite <- list_fmap_compose. apply NoDup_fmap_2; [apply group_series_inj|].
    apply NoDup_remove_dups.
Qed.

(** The tail the index shows is the last record. *)
Lemma status_last st s :
  rows_wf st → Tag.canonical (s_tag s) = true →
  Status.get (Store.status st) s = r_idx <$> Store.last st s.
Proof.
  intros Hwf Hc. destruct (Store.last st s) as [r|] eqn:E; simpl.
  - apply last_spec in E as (Hin & Hs & Hmax); [|done..]. apply status_get_Some; [done..|].
    split; [by exists r|done].
  - pose proof (status_get st s Hwf Hc) as Hs. rewrite last_None in E by done.
    destruct (Status.get _ s) as [m|]; [|done]. by destruct (E m), Hs.
Qed.
End status.

(** ** Deletion, re-encryption and purging *)

Section maintenance.
Context `{CryptoLaws}.
Implicit Types (st : Store.t) (k : key).

Lemma delete_wf st id : store_wf st → store_wf (Store.delete st id).
Proof.
  intros [Hi [Hk Hr]]. apply store_wf_intro; [by apply NoDup_fmap_filter..|].
  rewrite Forall_forall in *. intros row [_ Hin]%list_elem_of_filter. by apply Hr.
Qed.

Lemma elem_of_delete st id r :
  r ∈ Store.load_all (Store.delete st id) ↔ r ∈ Store.load_all st ∧ r_id r ≠ id.
Proof.
  unfold Store.load_all, Store.delete. rewrite !list_elem_of_fmap. setoid_rewrite list_elem_of_filter.
  split.
  - intros (row & -> & Hne & Hin). eauto.
  - intros [(row & -> & Hin) Hne]. eauto.
Qed.

Lemma load_all_ids st : r_id <$> Store.load_all st = row_id <$> st.
Proof. unfold Store.load_all. rewrite <- list_fmap_compose. by apply list_fmap_ext. Qed.

Lemma load_all_id_unique st r r' :
  store_wf st → r ∈ Store.load_all st → r' ∈ Store.load_all st → r_id r = r_id r' → r = r'.
Proof.
  intros Hwf. apply (NoDup_fmap_eq r_id). rewrite load_all_ids. apply (wf_ids _ Hwf).
Qed.

(** [purge] deletes, one by one, the records of [l] that do not decrypt. *)
Lemma elem_of_purge_fold k (l : list enc_record) st r :
  r ∈ Store.load_all
        (foldl (λ acc x, match decrypt k x with Ok _ => acc | Err _ => Store.delete acc (r_id x) end) st l) ↔
  r ∈ Store.load_all st ∧ ∀ x e, x ∈ l → decrypt k x = Err e → r_id x ≠ r_id r.
Proof.
  revert st; induction l as [|y l IH]; intros st; simpl.
  - split; [intros Hr; split; [done|by intros ?? ?%not_elem_of_nil]|by intros [? _]].
  - rewrite IH. destruct (decrypt k y) as [d|e] eqn:E.
    + split; intros [Hr Hx]; (split; [done|]); intros x e Hin Hd.
      * apply elem_of_cons in Hin as [->|Hin]; [congruence|by eapply Hx].
      * eapply Hx; [by right|done].
    + rewrite elem_of_delete. split.
      * intros [[Hr Hne] Hx]. split; [done|]. intros x e' [->|Hin]%elem_of_cons Hd; [done|by eapply Hx].
      * intros [Hr Hx]. split; [split; [done|]|].
        -- intros Heq. by eapply Hx; [left|done|].
        -- intros x e' Hin Hd. eapply Hx; [by right|done].
Qed.

Lemma purge_fold_wf k (l : list enc_record) st :
  store_wf st →
  store_wf (foldl (λ acc x, match decrypt k x with Ok _ => acc | Err _ => Store.delete acc (r_id x) end) st l).
Proof.
  revert st; induction l as [|y l IH]; intros st Hwf; simpl; [done|]. apply IH.
  destruct (decrypt k y); [done|by apply delete_wf].
Qed.

Lemma elem_of_purge k st r :
  store_wf st →
  r ∈ Store.load_all (Store.purge st k) ↔ r ∈ Store.load_all st ∧ ∃ d, decrypt k r = Ok d.
Proof.
  intros Hwf. unfold Store.purge. rewrite elem_of_purge_fold. split; intros [Hr Hx]; (split; [done|]).
  - destruct (decrypt k r) as [d|e] eqn:E; [by eexists|]. by destruct (Hx r e).
  - intros x e Hin He Hid. destruct Hx as [d Hd].
    assert (x = r) as -> by (by eapply load_all_id_unique). congruence.
Qed.

(** Replacing the payloads of a whole store keeps its ids and keys. *)
Lemma foldl_save_rows (l : list enc_record) st :
  store_wf (st ++ (Store.to_row <$> l)) →
  foldl Store.save_raw st l = st ++ (Store.to_row <$> l).
Proof.
  revert st; induction l as [|r l IH]; intros st Hwf; simpl; [by rewrite app_nil_r|].
  rewrite fmap_cons in Hwf. assert (Store.save_raw st r = st ++ [Store.to_row r]) as ->.
  { unfold Store.save_raw. rewrite (proj2 (existsb_false _ _)); [done|].
    intros row Hin. unfold Store.conflicts. rewrite bool_decide_eq_false.
    destruct Hwf as [Hi [Hk _]]. rewrite fmap_app, fmap_cons in Hi. rewrite fmap_app, fmap_cons in Hk.
    apply NoDup_app in Hi as (_ & Hi & _), Hk as (_ & Hk & _). intros [He|He].
    - apply (Hi (row_id row)); [by apply list_elem_of_fmap_2|]. rewrite <- He. left.
    - apply (Hk (Store.row_key row)); [by apply list_elem_of_fmap_2|]. rewrite <- He. left. }
  rewrite IH; rewrite <- app_assoc; done.
Qed.

Lemma rewrite_wf st (l : list enc_record) :
  store_wf st → Forall2 (λ r r' : enc_record, ∃ d, r' = with_data d r) (Store.load_all st) l →
  store_wf (Store.to_row <$> l).
Proof.
  intros Hwf Hl. assert (Forall2 (λ row row', row_id row' = row_id row ∧ Store.row_key row' = Store.row_key row ∧
    row_timestamp row' = row_timestamp row) st (Store.to_row <$> l)) as Hrel.
  { unfold Store.load_all in Hl. rewrite Forall2_fmap_l in Hl. apply Forall2_fmap_r.
    assert (Forall (λ row, fits_i64 (row_idx row) ∧ fits_i64 (row_timestamp row)) st) as Hf by apply Hwf.
    induction Hl as [|row r' st' l' (d & ->) Hl IH]; [constructor|].
    apply Forall_cons in Hf as [Hr Hf]. constructor; [|].
    - destruct Hr as [Hr1 Hr2]. unfold Store.row_key; simpl. rewrite tag_as_str_from_string.
      by rewrite !i64_as_u64_fits, !u64_as_i64_fits.
    - apply IH; [|done]. clear -Hwf. destruct Hwf as [Hi [Hk Hf]].
      apply store_wf_intro; [by inversion Hi|by inversion Hk|by inversion Hf]. }
  destruct Hwf as [Hi [Hk Hf]].
  assert (row_id <$> (Store.to_row <$> l) = row_id <$> st) as E1.
  { clear -Hrel. induction Hrel as [|??????]; [done|]. rewrite !fmap_cons. f_equal; naive_solver. }
  assert (Store.row_key <$> (Store.to_row <$> l) = Store.row_key <$> st) as E2.
  { clear -Hrel. induction Hrel as [|??????]; [done|]. rewrite !fmap_cons. f_equal; naive_solver. }
  apply store_wf_intro; [by rewrite E1|by rewrite E2|].
  clear -Hrel Hf. induction Hrel as [|row row' ?? (_ & Hk & Ht) _ IH]; [constructor|].
  apply Forall_cons in Hf as [Hr Hf]. constructor; [|by apply IH]. rewrite Ht.
  unfold Store.row_key in Hk. by injection Hk as _ _ ->.
Qed.
End maintenance.

Section re_encrypt.
Context `{CryptoLaws}.
Implicit Types (st : Store.t) (k : key).

Lemma re_encrypt_Err_unchanged nonce k k' st st' e :
  Store.re_encrypt nonce k k' st = (st', Err e) → st' = st.
Proof. unfold Store.re_encrypt. destruct (try_map _ _); intros; by simplify_eq. Qed.

(** The rows a successful re-encryption writes. *)
Lemma re_encrypt_Ok_inv nonce k k' st st' :
  store_wf st → Store.re_encrypt nonce k k' st = (st', Ok tt) →
  store_wf st' ∧ Forall2 (λ r r' : enc_record, ∃ d, r' = with_data d r ∧
    reencrypt_sync (nonce (r_id r)) (r_data r) k k' = Ok d) (Store.load_all st) (Store.load_all st').
Proof.
  intros Hwf. unfold Store.re_encrypt. destruct (try_map _ _) as [l|] eqn:E; [|done].
  intros [= <-]. apply try_map_Ok_Forall2 in E.
  assert (Forall2 (λ r r' : enc_record, ∃ d, r' = with_data d r ∧
    reencrypt_sync (nonce (r_id r)) (r_data r) k k' = Ok d) (Store.load_all st) l) as Hl.
  { eapply Forall2_impl; [exact E|]. simpl. intros r r' Hr. case_res Hr. inv_res. eauto. }
  assert (store_wf (Store.to_row <$> l)) as Hwf'.
  { eapply rewrite_wf; [exact Hwf|]. eapply Forall2_impl; [exact Hl|]. naive_solver. }
  unfold Store.delete_all. rewrite foldl_save_rows by done. simpl. split; [done|].
  assert (Store.load_all (Store.to_row <$> l) = l) as ->; [|done].
  unfold Store.load_all. rewrite <- list_fmap_compose. rewrite <- (list_fmap_id l) at 2.
  apply list_fmap_ext. intros i r' Hr'%list_elem_of_lookup_2. apply from_to_row.
  destruct (Forall2_elem_r _ _ _ _ Hl Hr') as (r & Hr & d & -> & _).
  exact (load_all_storable st r Hwf Hr).
Qed.

Lemma re_encrypt_total nonce k k' st :
  (∀ r, r ∈ Store.load_all st → ∃ p, decrypt k r = Ok p) →
  ∃ st', Store.re_encrypt nonce k k' st = (st', Ok tt).
Proof.
  intros Hd. unfold Store.re_encrypt. destruct (try_map _ _) as [l|e] eqn:E; [by eexists|exfalso].
  set (f := λ r : enc_record, _) in E.
  assert (∀ l, (∀ r, r ∈ l → ∃ p, decrypt k r = Ok p) → ∃ y, try_map f l = Ok y) as Hall.
  { clear -H0. intros l. induction l as [|r l IH]; intros Hl; simpl; [by eexists|].
    destruct (Hl r) as [p [_ Hp]%decrypt_Ok_inv]; [left|].
    destruct (reencrypt_sync_spec (nonce (r_id r)) _ _ _ k' _ Hp) as (d & Hre & _).
    destruct IH as [y Hy]; [intros; apply Hl; by right|].
    unfold f at 1. rewrite Hre. simpl. rewrite Hy. by eexists. }
  destruct (Hall _ Hd) as [y Hy]. congruence.
Qed.
End re_encrypt.

(** ** Reachable stores *)

(** One call of a mutating operation; a pushed record comes from the application or the wire and
    fits the columns. *)
Inductive store_step `{Crypto} : Store.t → Store.t → Prop :=
| step_push st rs : Forall storable rs → store_step st (Store.push_batch st rs)
| step_delete st id : store_step st (Store.delete st id)
| step_delete_all st : store_step st (Store.delete_all st)
| step_re_encrypt st nonce k k' : store_step st (Store.re_encrypt nonce k k' st).1
| step_purge st k : store_step st (Store.purge st k).

Lemma empty_wf : store_wf Store.empty.
Proof. apply store_wf_intro; constructor. Qed.

Lemma store_step_wf `{CryptoLaws} st st' : store_step st st' → store_wf st → store_wf st'.
Proof.
  intros Hs Hwf. destruct Hs.
  - by apply push_batch_wf.
  - by apply delete_wf.
  - apply empty_wf.
  - destruct (Store.re_encrypt nonce k k' st) as [st' [[]|e]] eqn:E; simpl.
    + by apply re_encrypt_Ok_inv in E as [? _].
    + by apply re_encrypt_Err_unchanged in E as ->.
  - by apply purge_fold_wf.
Qed.

(** ** Theorems *)

(** Every store reached from the empty one by pushes, deletions, re-encryptions and purges keeps
    its ids distinct, at most one record per host, tag and index, and its integers in range. *)
Theorem reachable_store_wf `{CryptoLaws} (st : Store.t) :
  rtc store_step Store.empty st → store_wf st.
Proof.
  intros Hr. assert (∀ a b, rtc store_step a b → store_wf a → store_wf b) as Hgen.
  { induction 1 as [|a b c Hab _ IH]; [done|]. intros. by eapply IH, store_step_wf. }
  eapply Hgen; [exact Hr|apply empty_wf].
Qed.

(** C5: pushing a batch is insert-or-ignore: nothing stored before is lost or altered, nothing but
    the batch is added, and a record of the batch is found afterwards by its id and by its place in
    its series, unless another record already claims its id or its place. *)
Theorem push_batch_inserts_or_ignores (st : Store.t) (rs : list enc_record) :
  store_wf st → Forall storable rs →
  let st' := Store.push_batch st rs in
  (∀ r, r ∈ Store.load_all st → r ∈ Store.load_all st') ∧
  (∀ r, r ∈ Store.load_all st' → r ∈ Store.load_all st ∨ r ∈ rs) ∧
  (∀ r, r ∈ rs →
    (Store.get st' (r_id r) = Some r ∧ Store.idx st' (series_key r) (r_idx r) = Some r) ∨
    ∃ r', r' ∈ Store.load_all st' ∧ r' ≠ r ∧ clashes r r').
Proof.
  intros Hwf Hrs st'. pose proof (push_batch_wf st rs Hwf Hrs : store_wf st') as Hwf'.
  split_and!; [intros; by apply push_batch_mono|intros; by apply push_batch_inv|].
  intros r Hr. destruct (push_batch_present st rs r Hwf Hrs Hr) as (x & Hx & Hor).
  destruct (decide (x = r)) as [->|Hne]; [left|right; exists x; naive_solver].
  eapply Forall_forall in Hrs as Hsr; [|exact Hr]. split.
  - unfold Store.get. rewrite fmap_Some. apply elem_of_load_all in Hx as [_ Hx]; [|done].
    exists (Store.to_row r). rewrite from_to_row by done. split; [|done].
    apply head_filter_unique; [|done]. intros y z Hy Hz E1 E2.
    eapply NoDup_fmap_eq; [apply (wf_ids _ Hwf')|done..|congruence].
  - destruct Hsr as (Hi & _ & Ht & _). by apply idx_Some.
Qed.

(** [first_gap] is the contiguous frontier of a series: every index below it is present and it
    is not, however many records lie beyond the hole. *)
Theorem first_gap_is_frontier (st : Store.t) (s : RecordSeriesKey) :
  store_wf st → Tag.canonical (s_tag s) = true →
  let g := Store.first_gap st s in
  0 ≤ g ∧ (∀ i, 0 ≤ i < g → ∃ r, Store.idx st s i = Some r ∧ r_idx r = i) ∧
  (fits_i64 g → Store.idx st s g = None).
Proof.
  intros Hwf Hc g. destruct (first_gap_spec st s Hwf Hc) as (Hg & Hn & Hall).
  split_and!; [done| |].
  - intros i Hi. destruct (Hall i Hi) as (r & Hin & Hs & He). exists r. split; [|done].
    apply idx_Some; [done..| |done]. eapply has_idx_fits; [exact Hwf|]. by apply Hall.
  - intros Hf. apply idx_None; [done..|]. intros r Hin Hs He. apply Hn. by exists r.
Qed.

(** The status index of a store maps each series to the index of its last record, which is the
    greatest index present, and maps exactly the series that have a record. *)
Theorem status_maps_tails (st : Store.t) (s : RecordSeriesKey) :
  store_wf st → Tag.canonical (s_tag s) = true →
  Status.get (Store.status st) s = r_idx <$> Store.last st s ∧
  (∀ m, Status.get (Store.status st) s = Some m ↔
    (∃ r, Store.idx st s m = Some r) ∧ fits_i64 m ∧
    ∀ r, r ∈ Store.load_all st → series_key r = s → r_idx r ≤ m) ∧
  Store.len st s = match Status.get (Store.status st) s with Some m => m + 1 | None => 0 end.
Proof.
  intros Hwf Hc. split_and!; [by apply status_last| |].
  - intros m. rewrite status_get_Some by done. split.
    + intros [Hm Hmax]. pose proof (has_idx_fits st s m Hwf Hm) as Hf. split_and!; [|done|].
      * destruct Hm as (r & ?). exists r. by apply idx_Some.
      * intros r Hin Hs. apply Hmax. by exists r.
    + intros ([r Hr] & Hf & Hmax). apply idx_Some in Hr; [|done..]. split; [by exists r|].
      intros i (r' & Hin & Hs & <-). by apply Hmax.
  - rewrite len_spec, status_last by done. by destruct (Store.last st s).
Qed.

(** [next] returns the first [limit] records of the series at or after the index, in strictly
    increasing index order: everything it skips lies beyond everything it returns. *)
Theorem next_is_ordered_window (st : Store.t) (s : RecordSeriesKey) (i limit : Z) :
  store_wf st → Tag.canonical (s_tag s) = true → fits_i64 i → fits_i64 limit →
  let page := Store.next st s i limit in
  StronglySorted (λ a b : enc_record, r_idx a < r_idx b) page ∧
  Z.of_nat (length page) ≤ limit ∧
  (∀ r, r ∈ page → r ∈ Store.load_all st ∧ series_key r = s ∧ i ≤ r_idx r) ∧
  (∀ r, r ∈ Store.load_all st → series_key r = s → i ≤ r_idx r →
    r ∈ page ∨ (Z.of_nat (length page) = limit ∧ ∀ x, x ∈ page → r_idx x < r_idx r)).
Proof.
  intros Hwf Hc Hi Hl page. unfold page. rewrite next_take by done.
  pose proof (series_from_sorted st s i Hwf) as Hs.
  assert (∀ r, r ∈ series_from st s i ↔ _) as Hin by (intros; by apply elem_of_series_from).
  destruct Hl as [Hl0 Hl1].
  rewrite <- (take_drop (Z.to_nat limit) (series_from st s i)) in Hs, Hin.
  apply StronglySorted_app in Hs as (Hlt & Hs & _). split_and!; [done| | |].
  - rewrite length_take. lia.
  - intros r Hr. apply Hin. apply elem_of_app. by left.
  - intros r Hr1 Hr2 Hr3. assert (r ∈ take (Z.to_nat limit) (series_from st s i) ++ drop (Z.to_nat limit) (series_from st s i)) as Hr by (by apply Hin).
    apply elem_of_app in Hr as [Hr|Hr]; [by left|right]. split.
    + assert (drop (Z.to_nat limit) (series_from st s i) ≠ []) as Hne by (intros E; rewrite E in Hr; by apply not_elem_of_nil in Hr).
      rewrite length_take. pose proof (length_drop (series_from st s i) (Z.to_nat limit)) as Hd.
      destruct (drop _ _); [done|]. simpl in Hd. lia.
    + intros x Hx. by apply Hlt.
Qed.

(** Rekeying is all or nothing. If every record decrypts under the old key it succeeds, keeps
    every id, position and timestamp, and each record reads the same under the new key; if it
    fails the store is untouched. *)
Theorem re_encrypt_all_or_nothing `{CryptoLaws} (nonce : RecordId → N) (k k' : key) (st : Store.t) :
  store_wf st →
  ((∀ r, r ∈ Store.load_all st → ∃ p, decrypt k r = Ok p) →
   ∃ st', Store.re_encrypt nonce k k' st = (st', Ok tt) ∧ store_wf st' ∧
     Forall2 (λ r r' : enc_record, ∃ d p, r' = with_data d r ∧ decrypt k r = Ok p ∧ decrypt k' r' = Ok p)
       (Store.load_all st) (Store.load_all st')) ∧
  (∀ st' e, Store.re_encrypt nonce k k' st = (st', Err e) → st' = st).
Proof.
  intros Hwf. split; [|intros; by eapply re_encrypt_Err_unchanged].
  intros Hd. destruct (re_encrypt_total nonce k k' st Hd) as [st' Hst']. exists st'.
  destruct (re_encrypt_Ok_inv _ _ _ _ _ Hwf Hst') as [Hwf' Hl]. split_and!; [done|done|].
  eapply Forall2_impl_elem; [exact Hl|]. simpl. intros r r' Hr _ (d & -> & Hre).
  destruct (Hd r Hr) as [p Hp].
  destruct (reencrypt_record (nonce (r_id r)) k k' r p Hp) as (d' & Hre' & _ & Hp'). inv_res. eauto.
Qed.

(** [purge] keeps exactly the records that decrypt under the key, after which [verify] accepts
    the store; [verify] accepts a store exactly when every record decrypts. *)
Theorem purge_then_verify `{CryptoLaws} (k : key) (st : Store.t) :
  store_wf st →
  (∀ r, r ∈ Store.load_all (Store.purge st k) ↔ r ∈ Store.load_all st ∧ ∃ d, decrypt k r = Ok d) ∧
  Store.verify (Store.purge st k) k = Ok tt ∧
  (Store.verify st k = Ok tt ↔ ∀ r, r ∈ Store.load_all st → ∃ d, decrypt k r = Ok d).
Proof.
  intros Hwf.
  assert (∀ st', Store.verify st' k = Ok tt ↔ ∀ r, r ∈ Store.load_all st' → ∃ d, decrypt k r = Ok d) as Hv.
  { intros st'. unfold Store.verify. rewrite rbind_Ok. split.
    - intros (l & Hl & _) r Hr. apply try_map_Ok_Forall2 in Hl.
      eapply Forall2_flip, Forall2_elem_r in Hl as (d & _ & Hd); [|exact Hr]. eauto.
    - intros Hd. destruct (try_map (decrypt k) (Store.load_all st')) as [l|e] eqn:E; [by eexists|].
      exfalso. assert (∀ l, (∀ r, r ∈ l → ∃ d, decrypt k r = Ok d) → ∃ y, try_map (decrypt k) l = Ok y) as Hall.
      { clear. intros l. induction l as [|r l IH]; intros Hl; simpl; [by eexists|].
        destruct (Hl r) as [d ->]; [left|]. destruct IH as [y Hy]; [intros; apply Hl; by right|].
        simpl. rewrite Hy. by eexists. }
      destruct (Hall _ Hd) as [y Hy]. congruence. }
  split_and!; [intros; by apply elem_of_purge| |apply Hv].
  apply Hv. intros r Hr. by apply elem_of_purge in Hr as [_ ?].
Qed.

(** ** Witnesses *)

Definition st1 : Store.t := Store.push_batch Store.empty [sample_enc; sample_moved].

Lemma sample_storable : storable sample_enc ∧ storable sample_moved.
Proof. split; (split_and!; [split; vm_compute; congruence..| |]; vm_compute; reflexivity). Qed.

Lemma samples_storable : Forall storable [sample_enc; sample_moved].
Proof. destruct sample_storable. by repeat constructor. Qed.

Lemma st1_wf : store_wf st1.
Proof. apply push_batch_wf; [apply empty_wf|apply samples_storable]. Qed.

Lemma reachable_store_wf_witness : rtc store_step Store.empty st1 ∧ store_wf st1.
Proof.
  assert (rtc store_step Store.empty st1) as Hr.
  { apply rtc_once, step_push, samples_storable. }
  split; [exact Hr|exact (reachable_store_wf st1 Hr)].
Defined.

Lemma push_batch_inserts_or_ignores_witness :
  (∀ r, r ∈ Store.load_all Store.empty → r ∈ Store.load_all st1) ∧
  (∀ r, r ∈ Store.load_all st1 → r ∈ Store.load_all Store.empty ∨ r ∈ [sample_enc; sample_moved]) ∧
  (∀ r, r ∈ [sample_enc; sample_moved] →
    (Store.get st1 (r_id r) = Some r ∧ Store.idx st1 (series_key r) (r_idx r) = Some r) ∨
    ∃ r', r' ∈ Store.load_all st1 ∧ r' ≠ r ∧ clashes r r').
Proof.
  exact (push_batch_inserts_or_ignores Store.empty [sample_enc; sample_moved] empty_wf samples_storable).
Defined.

Definition series1 : RecordSeriesKey := mk_series 2 History.

Lemma first_gap_is_frontier_witness :
  Store.first_gap st1 series1 = 1 ∧
  0 ≤ Store.first_gap st1 series1 ∧
  (∀ i, 0 ≤ i < Store.first_gap st1 series1 → ∃ r, Store.idx st1 series1 i = Some r ∧ r_idx r = i) ∧
  (fits_i64 (Store.first_gap st1 series1) → Store.idx st1 series1 (Store.first_gap st1 series1) = None).
Proof.
  split; [vm_compute; reflexivity|]. exact (first_gap_is_frontier st1 series1 st1_wf eq_refl).
Defined.

Lemma status_maps_tails_witness :
  Status.get (Store.status st1) series1 = Some 0 ∧
  Status.get (Store.status st1) series1 = r_idx <$> Store.last st1 series1.
Proof.
  split; [vm_compute; reflexivity|]. exact (proj1 (status_maps_tails st1 series1 st1_wf eq_refl)).
Defined.

Lemma next_is_ordered_window_witness :
  Z.of_nat (length (Store.next st1 series1 0 10)) = 1 ∧
  StronglySorted (λ a b : enc_record, r_idx a < r_idx b) (Store.next st1 series1 0 10).
Proof.
  split; [vm_compute; reflexivity|].
  refine (proj1 (next_is_ordered_window st1 series1 0 10 st1_wf eq_refl _ _));
    split; vm_compute; congruence.
Defined.

Lemma re_encrypt_all_or_nothing_witness :
  (∀ r, r ∈ Store.load_all st1 → ∃ p, decrypt Toy.key1 r = Ok p) ∧
  ∃ st', Store.re_encrypt (λ _, 4%N) Toy.key1 Toy.key2 st1 = (st', Ok tt) ∧ store_wf st' ∧
     Forall2 (λ r r' : enc_record, ∃ d p, r' = with_data d r ∧ decrypt Toy.key1 r = Ok p ∧
       decrypt Toy.key2 r' = Ok p) (Store.load_all st1) (Store.load_all st').
Proof.
  assert (∀ r, r ∈ Store.load_all st1 → ∃ p, decrypt Toy.key1 r = Ok p) as Hd.
  { intros r Hr. replace (Store.load_all st1) with [sample_enc] in Hr by (vm_compute; reflexivity).
    apply list_elem_of_singleton in Hr as ->. exists sample. vm_compute. reflexivity. }
  split; [exact Hd|].
  exact (proj1 (re_encrypt_all_or_nothing (λ _, 4%N) Toy.key1 Toy.key2 st1 st1_wf) Hd).
Defined.

Lemma purge_then_verify_witness :
  Store.load_all (Store.purge st1 Toy.key2) = [] ∧
  Store.verify (Store.purge st1 Toy.key2) Toy.key2 = Ok tt.
Proof.
  split; [vm_compute; reflexivity|].
  exact (proj1 (proj2 (purge_then_verify Toy.key2 st1 st1_wf))).
Defined.
