(* ===== verification/Streams.v ===== *)
(** * Ranges in chunks and runs of equal keys
      ([atuin-common/src/range/chunks.rs], [atuin-common/src/futures/stream.rs])

    [Chunks] splits a [u64] range into sub-ranges of a fixed width; [chunk_by_bounded] groups
    adjacent items of equal key, at most [max] to a group. *)
From S2P Require Import Prelude.

(** ** Chunks of a range *)

Module Chunks.

(** A [Range<u64>] is its bounds. *)
Abbreviation range := (Z * Z)%type (only parsing).

Record t : Type := mk { cursor : Z; end_ : Z; size : Z }.

(** [into_nonzero_saturating] *)
Definition into_nonzero_saturating (size : Z) : Z := if size =? 0 then 1 else size.

Definition new (r : range) (size : Z) : t := mk r.1 r.2 (into_nonzero_saturating size).

(** [Iterator::next] *)
Definition next (c : t) : option (range * t) :=
  if end_ c <=? cursor c then None
  else
    let stop := Z.min (saturating_add (cursor c) (size c)) (end_ c) in
    Some ((cursor c, stop), mk stop (end_ c) (size c)).

(** [collect]: every step moves the cursor, so the width of the range is enough fuel. *)
Fixpoint collect_fuel (fuel : nat) (c : t) : list range :=
  match fuel with
  | O => []
  | S fuel' => match next c with None => [] | Some (r, c') => r :: collect_fuel fuel' c' end
  end.
Definition collect (c : t) : list range := collect_fuel (S (Z.to_nat (end_ c - cursor c))) c.

End Chunks.

(** ** Runs of equal keys *)

Section chunk_by.
Context {A K : Type} `{EqDecision K} (key : A → K).

(** The inner [while]: take items of the target key while the chunk has room. *)
Fixpoint take_run (max : nat) (target : K) (l : list A) : list A * list A :=
  match max, l with
  | S max', x :: l' =>
      if decide (key x = target)
      then let '(run, rest) := take_run max' target l' in (x :: run, rest)
      else ([], l)
  | _, _ => ([], l)
  end.

(** The [unfold]; each round takes at least one item. *)
Fixpoint chunk_by_fuel (fuel : nat) (max : nat) (l : list A) : list (K * list A) :=
  match fuel, l with
  | S fuel', x :: _ =>
      let '(run, rest) := take_run max (key x) l in (key x, run) :: chunk_by_fuel fuel' max rest
  | _, _ => []
  end.
Definition chunk_by_bounded (max : nat) (l : list A) : list (K * list A) :=
  chunk_by_fuel (length l) max l.
End chunk_by.

(** ** Lemmas *)

(** [rs] is a tiling of [a, b) by non-empty ranges no wider than [w]. *)
Inductive tiles (w : Z) : Z → Z → list (Z * Z) → Prop :=
| tiles_nil a : tiles w a a []
| tiles_cons a m b rs : a < m ≤ b → m - a ≤ w → tiles w m b rs → tiles w a b ((a, m) :: rs).

Lemma chunks_next_some c r c' :
  0 < Chunks.size c → is_u64 (Chunks.end_ c) → 0 ≤ Chunks.cursor c →
  Chunks.next c = Some (r, c') →
  r = (Chunks.cursor c, Chunks.cursor c') ∧ Chunks.end_ c' = Chunks.end_ c ∧
  Chunks.size c' = Chunks.size c ∧
  Chunks.cursor c < Chunks.cursor c' ≤ Chunks.end_ c ∧
  Chunks.cursor c' - Chunks.cursor c ≤ Chunks.size c.
Proof.
  unfold Chunks.next, saturating_add, is_u64. intros Hs He Hc.
  destruct (Z.leb_spec (Chunks.end_ c) (Chunks.cursor c)); [done|]. intros [= <- <-]; simpl.
  split_and!; try done; lia.
Qed.

Lemma chunks_collect_tiles fuel c :
  0 < Chunks.size c → is_u64 (Chunks.end_ c) → 0 ≤ Chunks.cursor c ≤ Chunks.end_ c →
  (Z.to_nat (Chunks.end_ c - Chunks.cursor c) < fuel)%nat →
  tiles (Chunks.size c) (Chunks.cursor c) (Chunks.end_ c) (Chunks.collect_fuel fuel c).
Proof.
  revert c; induction fuel as [|fuel IH]; intros c Hs He Hc Hf; [lia|]. simpl.
  destruct (Chunks.next c) as [[r c']|] eqn:E.
  - apply chunks_next_some in E as (-> & He' & Hs' & Hlt & Hw); [|done|done|lia].
    constructor; [lia|lia|]. rewrite <- He', <- Hs'. apply IH; rewrite ?He', ?Hs'; try done; lia.
  - unfold Chunks.next in E. destruct (Z.leb_spec (Chunks.end_ c) (Chunks.cursor c)); [|done].
    replace (Chunks.cursor c) with (Chunks.end_ c) by lia. constructor.
Qed.

Lemma tiles_le w a b rs : tiles w a b rs → a ≤ b.
Proof. induction 1; lia. Qed.

(** Every index of the range lies in a tile, and a tile holds only indices of the range. *)
Lemma tiles_cover w a b rs i : tiles w a b rs → a ≤ i < b ↔ ∃ r, r ∈ rs ∧ r.1 ≤ i < r.2.
Proof.
  induction 1 as [a|a m b rs Ham Hw Ht IH].
  - split; [lia|]. by intros (r & ?%not_elem_of_nil & _).
  - pose proof (tiles_le _ _ _ _ Ht). split.
    + intros Hi. destruct (decide (i < m)).
      * exists (a, m). split; [left|simpl; lia].
      * destruct (proj1 IH) as (r & Hr & Hri); [lia|]. exists r. split; [by right|done].
    + intros (r & [->|Hr]%elem_of_cons & Hri); [simpl in Hri; lia|].
      assert (m ≤ i < b) by (apply IH; eauto). lia.
Qed.

Lemma tiles_elem w a b rs r : tiles w a b rs → r ∈ rs → a ≤ r.1 < r.2 ∧ r.2 ≤ b ∧ r.2 - r.1 ≤ w.
Proof.
  induction 1 as [a|a m b rs Ham Hw Ht IH]; [by intros ?%not_elem_of_nil|].
  pose proof (tiles_le _ _ _ _ Ht).
  intros [->|Hr]%elem_of_cons; [simpl; lia|]. specialize (IH Hr). lia.
Qed.

Section chunk_by_laws.
Context {A K : Type} `{EqDecision K} (key : A → K).

Lemma take_run_spec max target l run rest :
  take_run key max target l = (run, rest) →
  l = run ++ rest ∧ (length run ≤ max)%nat ∧ Forall (λ x, key x = target) run ∧
  (length run = max ∨ ∀ x rest', rest = x :: rest' → key x ≠ target).
Proof.
  revert l run rest; induction max as [|max IH]; intros l run rest; simpl.
  - destruct l; intros [= <- <-]; split_and!; auto.
  - destruct l as [|x l]; [intros [= <- <-]; split_and!; auto; simpl; lia|].
    case_decide as Hk.
    + destruct (take_run key max target l) as [run' rest'] eqn:E. intros [= <- <-].
      apply IH in E as (-> & Hl & Hf & Hr). split_and!; [done|simpl; lia|by constructor|].
      simpl. destruct Hr as [<-|Hr]; auto.
    + intros [= <- <-]. split_and!; [done|simpl; lia|constructor|]. right. by intros ? ? [= <- <-].
Qed.

Lemma take_run_head max x l :
  ∃ run rest, take_run key (S max) (key x) (x :: l) = (x :: run, rest) ∧
    take_run key max (key x) l = (run, rest).
Proof.
  simpl. rewrite decide_True by done. destruct (take_run key max (key x) l) as [run rest].
  eauto.
Qed.

Lemma chunk_by_fuel_spec fuel max l :
  (0 < max)%nat → (length l ≤ fuel)%nat →
  concat (snd <$> chunk_by_fuel key fuel max l) = l ∧
  Forall (λ c, c.2 ≠ [] ∧ (length c.2 ≤ max)%nat ∧ Forall (λ x, key x = c.1) c.2)
    (chunk_by_fuel key fuel max l).
Proof.
  intros Hm. destruct max as [|max]; [lia|]. revert l; induction fuel as [|fuel IH]; intros l Hl.
  - destruct l; [|simpl in Hl; lia]. done.
  - destruct l as [|x l]; [done|]. cbn [chunk_by_fuel].
    destruct (take_run_head max x l) as (run & rest & Ht & Ht'). rewrite Ht.
    apply take_run_spec in Ht' as (-> & Hlen & Hf & _).
    simpl in Hl. rewrite length_app in Hl.
    destruct (IH rest) as [Hc Hall]; [lia|]. split.
    + rewrite fmap_cons. cbn [concat snd]. by rewrite Hc.
    + constructor; [|done]. cbn [snd fst]. split_and!; [done|simpl; lia|by constructor].
Qed.
End chunk_by_laws.

(** ** Theorems *)

(** [range.chunks(size)] terminates and tiles the range in order with non-empty sub-ranges of at
    most [size] (at least 1) indices, also where the cursor saturates at the top of [u64]. *)
Theorem chunks_tile_range (a b size : Z) :
  0 ≤ a ≤ b → is_u64 b → is_u64 size →
  tiles (Z.max 1 size) a b (Chunks.collect (Chunks.new (a, b) size)).
Proof.
  intros Hab Hb Hs. unfold Chunks.collect, Chunks.new, Chunks.into_nonzero_saturating. simpl fst. simpl snd.
  assert ((if size =? 0 then 1 else size) = Z.max 1 size) as ->.
  { unfold is_u64 in Hs. destruct (Z.eqb_spec size 0); lia. }
  apply (chunks_collect_tiles _ (Chunks.mk a b (Z.max 1 size))); simpl; try done; lia.
Qed.

Lemma chunks_tile_range_witness :
  Chunks.collect (Chunks.new (3, 9) 4) = [(3, 7); (7, 9)] ∧
  tiles 4 3 9 (Chunks.collect (Chunks.new (3, 9) 4)).
Proof.
  split; [vm_compute; reflexivity|].
  apply (chunks_tile_range 3 9 4); unfold is_u64, u64_limit; lia.
Defined.

(** Grouping by key loses and reorders nothing, and every group is non-empty, of one key and of
    at most [max] items. *)
Lemma chunk_by_bounded_partitions {A K : Type} `{EqDecision K} (key : A → K) (max : nat) (l : list A) :
  (0 < max)%nat →
  concat (snd <$> chunk_by_bounded key max l) = l ∧
  Forall (λ c, c.2 ≠ [] ∧ (length c.2 ≤ max)%nat ∧ Forall (λ x, key x = c.1) c.2)
    (chunk_by_bounded key max l).
Proof. intros Hm. by apply chunk_by_fuel_spec. Qed.
