(* ===== verification/Packfile.v ===== *)
(** * Packfiles ([atuin-client/src/packfile/record.rs], [atuin-client/src/packfile/packer.rs])

    A packfile bundles a run of history records into one encrypted blob; a manifest, itself a record
    of the host's [packfile] series, names the run. Module [Manifest] models the manifest's codec,
    [Pack] the blob's, and [try_pack] the packer that writes manifests as history accumulates.
    serde_json on the manifest and zstd are the interface [PackLib]. *)
From S2P Require Import Prelude Text Record Status Rmp RmpWire Encryption SqliteStore.

(** ** Data *)

(** [PackManifestDataV1], the only version of [PackManifestData]. *)
Record PackManifestDataV1 : Type := mk_manifest {
  m_host : HostId; m_tag : RecordTag; start_idx : RecordIdx; end_idx : RecordIdx
}.

(** [PackIA]: what a packfile's ciphertext is bound to. *)
Record PackIA : Type := mk_pack_ia {
  ia_manifest_id : RecordId; ia_manifest_idx : RecordIdx; ia_manifest_version : string;
  ia_host : HostId; ia_tag : string
}.

(** [InvalidRangeError] *)
Record InvalidRangeError : Type := mk_invalid_range { ir_start : RecordIdx; ir_end : RecordIdx }.

Inductive ParsingError : Type :=
| WrongTag (t : RecordTag)
| UnknownVersion
| MalformedBody (e : LibError)
| InvalidRange (e : InvalidRangeError).

(** ** The interface to serde_json and zstd *)

Class PackLib : Type := {
  manifest_to_json : PackManifestDataV1 → result string LibError;
  manifest_from_json : string → result PackManifestDataV1 LibError;
  ia_to_json : PackIA → string;
  zstd_encode : list Z → result (list Z) LibError;
  zstd_decode : list Z → result (list Z) LibError
}.

Definition manifest_ok (m : PackManifestDataV1) : Prop :=
  Tag.canonical (m_tag m) = true ∧ is_u64 (start_idx m) ∧ is_u64 (end_idx m).

Class PackLibLaws `{PackLib} : Prop := {
  manifest_json_roundtrip m :
    manifest_ok m → ∃ s, manifest_to_json m = Ok s ∧ manifest_from_json s = Ok m;
  ia_to_json_inj : Inj (=) (=) ia_to_json;
  zstd_roundtrip bs : ∃ z, zstd_encode bs = Ok z ∧ zstd_decode z = Ok bs
}.

(** ** Manifests *)

Module Manifest.
Section manifest.
Context `{PackLib}.

(** [record_count]: the count of an inclusive range. *)
Definition record_count (m : PackManifestDataV1) : result Z InvalidRangeError :=
  match checked_sub (end_idx m) (start_idx m) with
  | Some c => Ok (wrapping_add c 1)
  | None => Err (mk_invalid_range (start_idx m) (end_idx m))
  end.

(** [PackManifestData::parse] *)
Definition parse (r : enc_record) : result PackManifestDataV1 ParsingError :=
  if decide (r_tag r = Packfile) then
    match strip_prefix "001" (raw (r_data r)) with
    | Some body =>
        let? m := map_err MalformedBody (manifest_from_json body) in
        let? _ := map_err InvalidRange (record_count m) in
        Ok m
    | None => Err UnknownVersion
    end
  else Err (WrongTag (r_tag r)).

(** [PackManifestData::range]: half open, the end computed on [u64]. *)
Definition range (m : PackManifestDataV1) : Z * Z := (start_idx m, wrapping_add (end_idx m) 1).

(** [PackManifestDataV1::encode]: plaintext behind a version prefix, with no content key. *)
Definition encode (m : PackManifestDataV1) : result EncryptedData LibError :=
  let? body := manifest_to_json m in Ok (mk_encrypted ("001" ++ body) "").
End manifest.
End Manifest.

(** ** The blob *)

(** The errors of packing and unpacking. A store failure ([LoadStore]) never occurs in the model; a
    panic inside the blocking task is propagated by the [unwrap] of its join, so the join errors
    never show, and [UnpackPanic] stands for the panic of a record's encryption. *)
Inductive RecordLoadingError : Type :=
| LoadStore (msg : string)
| LoadInvalidRange (e : InvalidRangeError).

Section pack_errors.
Context `{Crypto}.

Inductive PackError : Type :=
| PackDecrypt (e : DecryptionError)
| PackSerialize (e : EncodeError)
| PackCompress (e : LibError)
| PackEncrypt (e : EncryptionError).

Inductive PackingError : Type :=
| Loading (e : RecordLoadingError)
| PackFailed (e : PackError).

Inductive UnpackError : Type :=
| UnpackDeserialize (e : DecodeError)
| UnpackDecrypt (e : DecryptionError)
| UnpackDecompress (e : LibError)
| UnpackPanic (e : EncryptionError).
End pack_errors.

(** [PackManifestRecordView] *)
Record PackManifestRecordView : Type := mk_view { v_record : enc_record; v_manifest : PackManifestDataV1 }.

Module Pack.
Section pack.
Context `{Rmp, Crypto, PackLib}.

(** [Uuid::into_bytes] and [Uuid::from_bytes]. *)
Definition uuid_bytes (u : Uuid) : list Z := be 16 (Z.of_N u).
Definition uuid_of_bytes (bs : list Z) : Uuid := Z.to_N (unbe bs).

Definition read_uuid : Reader DecodeError Uuid :=
  let! bs := read_fixed_binary_array 16 in st_ret (uuid_of_bytes bs).

Definition write_uuid (u : Uuid) : result (list Z) EncodeError := write_binary_array (uuid_bytes u).

Definition read_record : Reader DecodeError (record (list Z)) :=
  let! id := read_uuid in
  let! idx := rd_map_err ValueRead read_u64 in
  let! host := read_uuid in
  let! _name := read_string in
  let! timestamp := rd_map_err ValueRead read_u64 in
  let! version := with_str Version.from_string in
  let! tag := with_str Tag.from_string in
  let! data := read_binary_array in
  st_ret (mk_record id idx host timestamp version tag data).

Definition write_record (r : record (list Z)) : result (list Z) EncodeError :=
  let? id := write_uuid (r_id r) in
  let? host := write_uuid (r_host r) in
  let? data := write_binary_array (r_data r) in
  Ok (id ++ write_u64 (r_idx r) ++ host ++ write_str "" ++ write_u64 (r_timestamp r)
      ++ write_str (Version.as_str (r_version r)) ++ write_str (Tag.as_str (r_tag r)) ++ data).

Definition read_encrypted_data : Reader DecodeError EncryptedData :=
  let! r := read_string in
  let! c := read_string in
  st_ret (mk_encrypted r c).

Definition write_encrypted_data (d : EncryptedData) : list Z := write_str (raw d) ++ write_str (cek d).

(** [PackManifestRecordView::new] *)
Definition new (r : enc_record) : result PackManifestRecordView ParsingError :=
  let? m := Manifest.parse r in Ok (mk_view r m).

(** [PackManifestRecordView::ia] *)
Definition ia (v : PackManifestRecordView) : PackIA :=
  mk_pack_ia (r_id (v_record v)) (r_idx (v_record v)) (Version.as_str (r_version (v_record v)))
    (r_host (v_record v)) (Tag.as_str (r_tag (v_record v))).

(** [load_encrypted_packed_records] *)
Definition load_encrypted_packed_records (v : PackManifestRecordView) (st : Store.t) : list enc_record :=
  let '(start, stop) := Manifest.range (v_manifest v) in
  let count := (stop - start) mod u64_limit in
  Store.next st (mk_series (r_host (v_record v)) History) start count.

(** The body of [pack_records] up to the encrypted blob: decrypt, serialize, compress, encrypt. *)
Definition pack_envelope (e : Entropy) (v : PackManifestRecordView) (k : key)
    (encrypted_records : list enc_record) : result EncryptedData PackError :=
  let? packed := map_err (λ x, match x with
                               | TE_Encode e => PackSerialize e
                               | TE_Inner e => PackDecrypt e
                               end)
                   (try_write_array (decrypt k <$> encrypted_records) write_record) in
  let? compressed := map_err PackCompress (zstd_encode packed) in
  map_err PackEncrypt (encrypt_sync e compressed (Some (ia_to_json (ia v))) k).

(** [pack_records] *)
Definition pack_records (e : Entropy) (v : PackManifestRecordView) (st : Store.t) (k : key)
    : result (list Z * list RecordId) PackingError :=
  let encrypted_records := load_encrypted_packed_records v st in
  let? d := map_err PackFailed (pack_envelope e v k encrypted_records) in
  Ok (write_encrypted_data d, r_id <$> encrypted_records).

Fixpoint encrypt_all (es : nat → Entropy) (k : key) (rs : list (record (list Z)))
    : result (list enc_record) EncryptionError :=
  match rs with
  | [] => Ok []
  | r :: rs' =>
      let? x := encrypt (es 0%nat) k r in
      let? xs := encrypt_all (λ n, es (S n)) k rs' in
      Ok (x :: xs)
  end.

(** [unpack_records]: [es] is the randomness of the records' re-encryption, in order. *)
Definition unpack_records (es : nat → Entropy) (v : PackManifestRecordView) (packed_bytes : list Z)
    (k : key) : result (list enc_record) UnpackError :=
  let? encrypted := map_err UnpackDeserialize (read_encrypted_data packed_bytes).2 in
  let? decrypted := map_err UnpackDecrypt (decrypt_sync encrypted (Some (ia_to_json (ia v))) k) in
  let? decompressed := map_err UnpackDecompress (zstd_decode decrypted) in
  let? records := map_err UnpackDeserialize (read_array read_record decompressed).2 in
  map_err UnpackPanic (encrypt_all es k records).
End pack.
End Pack.

(** ** The packer *)

(** [PackingError] of [packer.rs]; store failures are not modelled. *)
Inductive PackerError : Type :=
| ManifestLoad (e : ParsingError)
| ManifestStore (e : LibError).

Module Packer.
Section packer.
Context `{PackLib}.
(** The id and timestamp that [Record::builder] draws for the manifest at a given index. *)
Context (fresh : RecordIdx → RecordId * Z).

Definition manifest_record (s : RecordSeriesKey) (pack_idx : RecordIdx) (d : EncryptedData) : enc_record :=
  mk_record (fresh pack_idx).1 pack_idx (host_id s) (fresh pack_idx).2 V1 Packfile d.

(** The [while] loop. Each round moves the cursor forward, so the distance to the ceiling is enough
    fuel. *)
Fixpoint pack_loop (fuel : nat) (s : RecordSeriesKey) (count ceiling cursor pack_idx : Z)
    : stm Store.t PackerError unit := λ st,
  match fuel with
  | O => (st, Ok tt)
  | S fuel' =>
      if (cursor <=? ceiling) && (count <=? ceiling - cursor + 1) then
        match last (Store.next st s cursor count) with
        | None => (st, Ok tt)
        | Some r =>
            match Manifest.encode (mk_manifest (host_id s) (s_tag s) cursor (r_idx r)) with
            | Err e => (st, Err (ManifestStore e))
            | Ok d =>
                pack_loop fuel' s count ceiling (wrapping_add (r_idx r) 1) (wrapping_add pack_idx 1)
                  (Store.push st (manifest_record s pack_idx d))
            end
        end
      else (st, Ok tt)
  end.

(** [try_pack]; [cap] is the capability's record count, when the server has it. *)
Definition try_pack (s : RecordSeriesKey) (cap : option Z) : stm Store.t PackerError unit := λ st,
  match cap with
  | Some count =>
      if 0 <? count then
        let last_pack := Store.last st (mk_series (host_id s) Packfile) in
        match (match last_pack with
               | Some r => let? m := map_err ManifestLoad (Manifest.parse r) in Ok (Manifest.range m).2
               | None => Ok 0
               end) with
        | Err e => (st, Err e)
        | Ok start =>
            let pack_idx := match last_pack with Some r => wrapping_add (r_idx r) 1 | None => 0 end in
            match Store.last st s with
            | None => (st, Ok tt)
            | Some r =>
                let ceiling := r_idx r in
                if ceiling <? start then (st, Ok tt)
                else pack_loop (Z.to_nat (ceiling - start + 1)) s count ceiling start pack_idx st
            end
        end
      else (st, Ok tt)
  | None => (st, Ok tt)
  end.
End packer.
End Packer.

(** ** Lemmas on the codecs *)

Section manifest_laws.
Context `{PackLibLaws}.

Lemma manifest_encode_total m : manifest_ok m → ∃ d, Manifest.encode m = Ok d ∧ cek d = "".
Proof.
  intros Hm. destruct (manifest_json_roundtrip m Hm) as (s & Hs & _).
  unfold Manifest.encode. rewrite Hs. simpl. by eexists.
Qed.

Lemma manifest_parse_encode m r :
  manifest_ok m → start_idx m ≤ end_idx m → r_tag r = Packfile →
  Manifest.encode m = Ok (r_data r) → Manifest.parse r = Ok m.
Proof.
  intros Hm Hle Ht He. destruct (manifest_json_roundtrip m Hm) as (s & Hs & Hp).
  unfold Manifest.encode in He. rewrite Hs in He. simpl in He. inv_res.
  unfold Manifest.parse. rewrite decide_True by done. rewrite <- He. cbn [raw].
  rewrite strip_prefix_app, Hp. simpl. unfold Manifest.record_count.
  rewrite (proj2 (checked_sub_Some _ _ (end_idx m - start_idx m))); [done|lia].
Qed.
End manifest_laws.

Section pack_laws.
Context `{RmpLaws, CryptoLaws, PackLibLaws}.

(** A record within the ranges of its Rust types. *)
Definition wire_record (r : record (list Z)) : Prop :=
  (r_id r < 2 ^ 128)%N ∧ (r_host r < 2 ^ 128)%N ∧ is_u64 (r_idx r) ∧ is_u64 (r_timestamp r) ∧
  is_str (Version.as_str (r_version r)) ∧ is_str (Tag.as_str (r_tag r)) ∧
  Version.canonical (r_version r) = true ∧ Tag.canonical (r_tag r) = true.

Lemma read_write_uuid u bs rest :
  (u < 2 ^ 128)%N → Pack.write_uuid u = Ok bs → Pack.read_uuid (bs ++ rest) = (rest, Ok u).
Proof.
  intros Hu Hw. unfold Pack.read_uuid, st_bind.
  rewrite (read_fixed_binary_array_write 16 (Pack.uuid_bytes u) bs rest); [| |exact Hw].
  - unfold st_ret, Pack.uuid_of_bytes, Pack.uuid_bytes. rewrite unbe_be, N2Z.id; [done|].
    split; [lia|]. change (256 ^ Z.of_nat 16) with (Z.of_N (2 ^ 128)). lia.
  - unfold Pack.uuid_bytes. by rewrite length_be.
Qed.

Lemma read_write_record r bs rest :
  wire_record r → Pack.write_record r = Ok bs → Pack.read_record (bs ++ rest) = (rest, Ok r).
Proof.
  intros (Hid & Hhost & Hidx & Hts & Hv & Ht & Hcv%version_canonical_spec & Hct%tag_canonical_spec) Hw.
  unfold Pack.write_record in Hw. repeat case_res Hw. injection Hw as <-.
  rewrite <- !app_assoc. unfold Pack.read_record, st_bind.
  erewrite (read_write_uuid (r_id r)) by eassumption. unfold rd_map_err.
  rewrite read_write_u64 by done. cbn [map_err].
  erewrite (read_write_uuid (r_host r)) by eassumption.
  rewrite read_string_write by (apply is_str_ascii; [done|simpl; lia]).
  rewrite read_write_u64 by done. cbn [map_err].
  rewrite !with_str_write by done. rewrite Hcv, Hct.
  erewrite read_binary_array_write by done. unfold st_ret. by destruct r.
Qed.

Lemma read_write_encrypted_data d rest :
  is_str (raw d) → is_str (cek d) →
  Pack.read_encrypted_data (Pack.write_encrypted_data d ++ rest) = (rest, Ok d).
Proof.
  intros Hr Hc. unfold Pack.read_encrypted_data, Pack.write_encrypted_data, st_bind.
  rewrite <- app_assoc, !read_string_write by done. by destruct d.
Qed.

(** A run of decryptions that serialized is a run of successes. *)
Lemma try_write_items_inv {T I} (items : list (result T I)) (write : T → result (list Z) EncodeError) bs :
  try_write_items items write = Ok bs →
  ∃ xs, items = Ok <$> xs ∧ try_write_items (I := Empty_set) (Ok <$> xs) write = Ok bs.
Proof.
  revert bs; induction items as [|item items IH]; intros bs Hw; simpl in Hw.
  - exists []. by inv_res.
  - destruct item as [x|]; simpl in Hw; [|done].
    destruct (write x) as [b|] eqn:Hx; simpl in Hw; [|done].
    destruct (try_write_items items write) as [bs'|] eqn:E; simpl in Hw; inv_res.
    destruct (IH bs' eq_refl) as (xs & -> & Hxs). exists (x :: xs). split; [done|].
    rewrite fmap_cons. cbn [try_write_items map_err rbind]. rewrite Hx. cbn [map_err rbind].
    by rewrite Hxs.
Qed.

Lemma encrypt_all_spec (es : nat → Entropy) k rs :
  (∀ n, entropy_ok (es n)) →
  ∃ xs, Pack.encrypt_all es k rs = Ok xs ∧
    Forall2 (λ r x, decrypt k x = Ok r ∧ with_data (r_data r) x = r) rs xs.
Proof.
  revert es; induction rs as [|r rs IH]; intros es Hes; simpl; [by eexists|].
  destruct (encrypt_sync_total (es 0%nat) (r_data r) (Some (ad_to_json (additional_data r))) k (Hes 0%nat))
    as (d & Hd).
  assert (encrypt (es 0%nat) k r = Ok (with_data d r)) as Hx by (unfold encrypt; by rewrite Hd).
  rewrite Hx. simpl. destruct (IH (λ n, es (S n))) as (xs & -> & Hxs); [done|]. simpl.
  eexists. split; [done|]. constructor; [|done]. split; [by eapply decrypt_encrypt|by destruct r].
Qed.

Lemma unpack_pack e es v k rs d :
  Pack.pack_envelope e v k rs = Ok d → is_str (raw d) → is_str (cek d) →
  (∀ n, entropy_ok (es n)) →
  (∀ r p, r ∈ rs → decrypt k r = Ok p → wire_record p) →
  ∃ xs, Pack.unpack_records es v (Pack.write_encrypted_data d) k = Ok xs ∧
    Forall2 (λ r x, ∃ p, decrypt k r = Ok p ∧ decrypt k x = Ok p) rs xs.
Proof.
  intros Hp Hr Hc Hes Hwire. unfold Pack.pack_envelope in Hp. repeat case_res Hp.
  destruct (encrypt_sync e _ _ k) as [d'|] eqn:Hd; simpl in Hp; inv_res.
  unfold try_write_array, try_write_array_impl in E. rewrite length_fmap in E.
  destruct (Z.ltb_spec (Z.of_nat (length rs)) (2 ^ 32)) as [Hlen|]; [|done].
  case_res E. inv_res. apply try_write_items_inv in E1 as (ps & Hps & Hw).
  assert (length rs = length ps) as Hl.
  { apply (f_equal length) in Hps. by rewrite !length_fmap in Hps. }
  assert (Forall2 (λ r p, decrypt k r = Ok p) rs ps) as Hf.
  { clear -Hps. revert ps Hps. induction rs as [|r rs IH]; intros [|p ps] Hps; try done.
    rewrite !fmap_cons in Hps. injection Hps as Hp Hps. constructor; [done|by apply IH]. }
  unfold Pack.unpack_records. rewrite <- (app_nil_r (Pack.write_encrypted_data d)).
  rewrite read_write_encrypted_data by done. cbn [snd map_err rbind].
  rewrite (decrypt_encrypt_sync _ _ _ _ _ Hd). cbn [map_err rbind].
  destruct (zstd_roundtrip (write_array_len (Z.of_nat (length rs)) ++ a1)) as (z & Hz & Hz').
  inv_res. rewrite Hz'. cbn [map_err rbind].
  assert (write_array ps Pack.write_record = Ok (write_array_len (Z.of_nat (length rs)) ++ a1)) as Ha.
  { unfold write_array, try_write_array, try_write_array_impl. rewrite length_fmap, <- Hl.
    destruct (Z.ltb_spec (Z.of_nat (length rs)) (2 ^ 32)); [|lia]. rewrite Hw. done. }
  pose proof (read_array_write Pack.read_record Pack.write_record ps _ [] Ha) as Hread.
  rewrite app_nil_r in Hread. rewrite Hread.
  - cbn [snd map_err rbind]. destruct (encrypt_all_spec es k ps Hes) as (xs & -> & Hxs).
    simpl. exists xs. split; [done|].
    clear -Hf Hxs. revert xs Hxs. induction Hf as [|r p rs ps Hp Hf IH]; intros xs Hxs;
      inversion Hxs as [|? x ? xs' [Hx _] Hxs']; subst; constructor; eauto.
  - intros p b rest Hin Hb. apply read_write_record; [|done].
    destruct (Forall2_elem_r _ _ _ _ Hf Hin) as (r & Hr' & Hd'). by eapply Hwire.
Qed.
End pack_laws.

(** ** Lemmas on the packer *)

Section packer_laws.
Context `{PackLibLaws}.
Context (fresh : RecordIdx → RecordId * Z).

(** Ids drawn for manifests are new and distinct, timestamps in range: what UUIDv7 and the clock
    provide. *)
Definition fresh_from (st : Store.t) (pi : Z) : Prop :=
  (∀ j, pi ≤ j → fits_i64 (fresh j).2 ∧ ∀ row, row ∈ st → row_id row ≠ (fresh j).1) ∧
  (∀ i j, pi ≤ i → pi ≤ j → (fresh i).1 = (fresh j).1 → i = j).

(** The manifests of a run of packs of [count] records from [start]. *)
Definition manifests_tile (s : RecordSeriesKey) (count start pi : Z) (ms : list enc_record) : Prop :=
  ∀ j r, ms !! j = Some r →
    r_idx r = pi + Z.of_nat j ∧ series_key r = mk_series (host_id s) Packfile ∧
    Manifest.parse r = Ok (mk_manifest (host_id s) (s_tag s)
      (start + Z.of_nat j * count) (start + (Z.of_nat j + 1) * count - 1)).

Lemma push_manifest st s pi d :
  store_wf st → fits_i64 pi → fresh_from st pi →
  (∀ i, has_idx st (mk_series (host_id s) Packfile) i → i < pi) →
  Store.push st (Packer.manifest_record fresh s pi d) =
    st ++ [Store.to_row (Packer.manifest_record fresh s pi d)] ∧
  store_wf (Store.push st (Packer.manifest_record fresh s pi d)).
Proof.
  intros Hwf Hpi [Hf _] Hlt. destruct (Hf pi) as [Hts Hid]; [lia|].
  assert (storable (Packer.manifest_record fresh s pi d)) as Hst by done.
  split; [|by apply save_raw_wf]. change (Store.push st ?x) with (Store.save_raw st x).
  destruct (save_raw_cases st (Packer.manifest_record fresh s pi d) Hwf Hst) as [[_ (x & Hx & Hc)]|[-> _]]; [|done].
  exfalso. destruct Hc as [He|[He1 He2]].
  - apply list_elem_of_fmap in Hx as (row & -> & Hin). by apply (Hid row).
  - assert (pi < pi); [|lia]. apply Hlt. exists x. by rewrite <- He1, <- He2.
Qed.

Lemma fresh_from_app st pi row :
  fresh_from st pi → row_id row = (fresh pi).1 → fresh_from (st ++ [row]) (pi + 1).
Proof.
  intros [Hf Hi] Hr. split.
  - intros j Hj. destruct (Hf j) as [Hts Hid]; [lia|]. split; [done|].
    intros x [Hx|Hx]%elem_of_app; [by apply Hid|]. apply list_elem_of_singleton in Hx as ->.
    rewrite Hr. intros He. apply Hi in He; lia.
  - intros i j Hpi Hpj. apply Hi; lia.
Qed.

Lemma has_idx_app st row s i :
  store_wf (st ++ [row]) → store_wf st → Tag.canonical (s_tag s) = true →
  has_idx (st ++ [row]) s i ↔ has_idx st s i ∨ (series_key (Store.from_row row) = s ∧ r_idx (Store.from_row row) = i).
Proof.
  intros Hwf' Hwf Hc. unfold has_idx, Store.load_all. rewrite fmap_app. simpl.
  setoid_rewrite elem_of_app. setoid_rewrite list_elem_of_singleton. naive_solver.
Qed.

Lemma last_of_full_page st s cursor count :
  store_wf st → Tag.canonical (s_tag s) = true → 0 < count → 0 ≤ cursor → fits_i64 (cursor + count) →
  (∀ i, cursor ≤ i < cursor + count → has_idx st s i) →
  ∃ r, last (Store.next st s cursor count) = Some r ∧ r_idx r = cursor + count - 1.
Proof.
  intros Hwf Hc Hcount Hcur Hfit Hall. unfold fits_i64 in Hfit.
  assert (r_idx <$> Store.next st s cursor count = seqZ cursor count) as Hnext.
  { apply next_contiguous; [done..| | |]; [unfold fits_i64; lia..|done]. }
  apply (f_equal last) in Hnext. rewrite fmap_last, last_seqZ in Hnext by done.
  apply fmap_Some in Hnext as (r & Hr & Hridx). by exists r.
Qed.

Lemma manifests_tile_cons s count cursor pi d ms :
  let m := mk_manifest (host_id s) (s_tag s) cursor (cursor + count - 1) in
  manifest_ok m → 0 < count → Manifest.encode m = Ok d →
  manifests_tile s count (cursor + count) (pi + 1) ms →
  manifests_tile s count cursor pi (Packer.manifest_record fresh s pi d :: ms).
Proof.
  intros m Hm Hcount Hd Htile [|j] x Hx; simpl in Hx.
  - injection Hx as <-. split_and!; [simpl; lia|done|].
    replace (start_idx m + Z.of_nat 0 * count) with cursor by (simpl; lia).
    rewrite (manifest_parse_encode m); [|done|simpl; lia|done|done]. unfold m. do 2 f_equal; lia.
  - apply Htile in Hx as (-> & Hs & ->). split_and!; [lia|done|]. do 2 f_equal; lia.
Qed.

Lemma pack_loop_spec fuel st s count ceiling cursor pi :
  store_wf st → Tag.canonical (s_tag s) = true → s_tag s ≠ Packfile → 0 < count →
  0 ≤ cursor ≤ ceiling + 1 → (∀ i, cursor ≤ i ≤ ceiling → has_idx st s i) → fits_i64 (ceiling + 1) →
  0 ≤ pi → fits_i64 (pi + (ceiling + 1 - cursor)) → fresh_from st pi →
  (∀ i, has_idx st (mk_series (host_id s) Packfile) i → i < pi) →
  (Z.to_nat (ceiling + 1 - cursor) ≤ fuel)%nat →
  ∃ ms, Packer.pack_loop fresh fuel s count ceiling cursor pi st = (st ++ (Store.to_row <$> ms), Ok tt) ∧
    Z.of_nat (length ms) = (ceiling + 1 - cursor) / count ∧ manifests_tile s count cursor pi ms.
Proof.
  revert st cursor pi; induction fuel as [|fuel IH];
    intros st cursor pi Hwf Hc Hnp Hcount Hcur Hall Hceil Hpi Hpi' Hfr Hlt Hfuel.
  { exists []. rewrite fmap_nil, app_nil_r. split_and!; [done| |intros ??; by rewrite lookup_nil].
    simpl. symmetry. apply Z.div_small. lia. }
  simpl. destruct (Z.leb_spec cursor ceiling), (Z.leb_spec count (ceiling - cursor + 1)); simpl.
  2-4: exists []; rewrite fmap_nil, app_nil_r; split_and!;
    [done|simpl; symmetry; apply Z.div_small; lia|intros ??; by rewrite lookup_nil].
  unfold fits_i64 in Hceil, Hpi'.
  destruct (last_of_full_page st s cursor count) as (r & Hr & Hridx);
    [done..|lia|unfold fits_i64; lia|intros i Hi; apply Hall; lia|]. rewrite Hr, Hridx.
  set (m := mk_manifest _ _ cursor (cursor + count - 1)).
  assert (manifest_ok m) as Hm.
  { split_and!; [done|..]; unfold is_u64, u64_limit, i64_limit in *; simpl; lia. }
  destruct (manifest_encode_total m Hm) as (d & Hd & _). rewrite Hd.
  destruct (push_manifest st s pi d Hwf) as [Hpush Hwf'];
    [unfold fits_i64; lia|done|done|]. rewrite Hpush in *.
  set (row := Store.to_row (Packer.manifest_record fresh s pi d)) in *.
  assert (Store.from_row row = Packer.manifest_record fresh s pi d) as Hrow.
  { apply from_to_row. destruct Hfr as [Hfr _]. destruct (Hfr pi) as [Hts _]; [lia|].
    split_and!; [unfold fits_i64; simpl; lia|done|done|done]. }
  rewrite !wrapping_add_exact, Z.sub_add by wrap_lia.
  assert (∀ s', Tag.canonical (s_tag s') = true → ∀ i, has_idx (st ++ [row]) s' i ↔
    has_idx st s' i ∨ (mk_series (host_id s) Packfile = s' ∧ pi = i)) as Hidx.
  { intros s' Hc' i. rewrite has_idx_app by done. by rewrite Hrow. }
  destruct (IH (st ++ [row]) (cursor + count) (pi + 1)) as (ms & Hloop & Hlen & Htile).
  1-4: done.
  - lia.
  - intros i Hi. apply Hidx; [done|]. left. apply Hall. lia.
  - done.
  - lia.
  - unfold fits_i64. lia.
  - by apply fresh_from_app.
  - intros i Hi. apply Hidx in Hi as [Hi|[_ <-]]; [|lia|done]. apply Hlt in Hi. lia.
  - lia.
  - exists (Packer.manifest_record fresh s pi d :: ms). rewrite Hloop. split_and!.
    + by rewrite <- app_assoc.
    + simpl length. rewrite Nat2Z.inj_succ, Hlen.
      replace (ceiling + 1 - cursor) with ((ceiling + 1 - (cursor + count)) + 1 * count) by lia.
      rewrite Z.div_add by lia. lia.
    + by apply (manifests_tile_cons s count cursor pi d ms).
Qed.
End packer_laws.

(** ** A concrete instance of the interface *)

Module ToyPack.

Definition m_tuple (m : PackManifestDataV1) := (m_host m, m_tag m, start_idx m, end_idx m).
Definition of_tuple (p : HostId * RecordTag * Z * Z) : PackManifestDataV1 :=
  mk_manifest p.1.1.1 p.1.1.2 p.1.2 p.2.
Definition ia_tuple (i : PackIA) :=
  (ia_manifest_id i, ia_manifest_idx i, ia_manifest_version i, ia_host i, ia_tag i).

#[global] Instance toy_pack : PackLib := {|
  manifest_to_json m := Ok (Toy.show (m_tuple m));
  manifest_from_json s := let? p := Toy.read s in Ok (of_tuple p);
  ia_to_json i := Toy.show (ia_tuple i);
  zstd_encode := Ok;
  zstd_decode := Ok
|}.

#[global] Instance toy_pack_laws : PackLibLaws.
Proof.
  split; simpl.
  - intros m _. eexists. split; [done|]. rewrite Toy.read_show. simpl. by destruct m.
  - intros i j Hij%Toy.show_inj. destruct i, j. unfold ia_tuple in Hij. simpl in Hij. by simplify_eq.
  - eauto.
Qed.

End ToyPack.

(** ** Theorems *)

(** C35: what a packfile was built from is what a client unpacks from it: as many records, in the
    same order, each decrypting under the key to the same record, metadata included. *)
Theorem pack_unpack_roundtrip `{RmpLaws, CryptoLaws, PackLibLaws} (e : Entropy) (es : nat → Entropy)
    (v : PackManifestRecordView) (st : Store.t) (k : key) (d : EncryptedData) :
  Pack.pack_envelope e v k (Pack.load_encrypted_packed_records v st) = Ok d →
  is_str (raw d) → is_str (cek d) → (∀ n, entropy_ok (es n)) →
  (∀ r p, r ∈ Pack.load_encrypted_packed_records v st → decrypt k r = Ok p → wire_record p) →
  ∃ blob ids xs,
    Pack.pack_records e v st k = Ok (blob, ids) ∧
    Pack.unpack_records es v blob k = Ok xs ∧
    Forall2 (λ r x, ∃ p, decrypt k r = Ok p ∧ decrypt k x = Ok p)
      (Pack.load_encrypted_packed_records v st) xs.
Proof.
  intros Hp Hr Hc Hes Hw. unfold Pack.pack_records. rewrite Hp. cbn [rbind].
  destruct (unpack_pack e es v k _ d Hp Hr Hc Hes Hw) as (xs & Hxs & Hf). eauto 10.
Qed.

(** Packing a hole-free series writes exactly the manifests of a maximal tiling: packs of
    [count] consecutive records from the first unpacked index on, numbered consecutively after the
    last manifest, leaving fewer than [count] records unpacked; nothing else in the store changes. *)
Theorem try_pack_tiles_history `{PackLibLaws} (fresh : RecordIdx → RecordId * Z) (st : Store.t)
    (s : RecordSeriesKey) (count start pi : Z) (tail : enc_record) :
  store_wf st → Tag.canonical (s_tag s) = true → s_tag s ≠ Packfile → 0 < count →
  Store.last st s = Some tail →
  match Store.last st (mk_series (host_id s) Packfile) with
  | None => start = 0 ∧ pi = 0
  | Some r => ∃ m, Manifest.parse r = Ok m ∧ fits_i64 (end_idx m) ∧ start = end_idx m + 1 ∧ pi = r_idx r + 1
  end →
  0 ≤ start ≤ r_idx tail + 1 → (∀ i, start ≤ i ≤ r_idx tail → has_idx st s i) →
  fits_i64 (r_idx tail + 1) → fits_i64 (pi + (r_idx tail + 1 - start)) → fresh_from fresh st pi →
  ∃ ms, Packer.try_pack fresh s (Some count) st = (st ++ (Store.to_row <$> ms), Ok tt) ∧
    Z.of_nat (length ms) = (r_idx tail + 1 - start) / count ∧ manifests_tile s count start pi ms.
Proof.
  intros Hwf Hc Hnp Hcount Hlast Hpack Hstart Hall Htail Hpi Hfr.
  set (ps := mk_series (host_id s) Packfile) in *.
  assert (∀ i, has_idx st ps i → i < pi) as Hlt.
  { destruct (Store.last st ps) as [r|] eqn:E.
    - destruct Hpack as (m & _ & _ & _ & ->). apply last_spec in E as (_ & _ & Hmax); [|done..].
      intros i Hi%Hmax. lia.
    - destruct Hpack as [_ ->]. intros i Hi. rewrite last_None in E by done. by destruct (E i). }
  assert (0 ≤ pi) as Hpi0.
  { destruct (Store.last st ps) as [r|] eqn:E; [|lia].
    destruct Hpack as (m & _ & _ & _ & ->). apply last_spec in E as (Hin & _); [|done..].
    apply load_all_storable in Hin as ([? _] & _); [lia|done]. }
  unfold Packer.try_pack. destruct (Z.ltb_spec 0 count) as [_|]; [|lia].
  fold ps. rewrite Hlast.
  assert (match Store.last st ps with
          | Some r => let? m := map_err ManifestLoad (Manifest.parse r) in Ok (Manifest.range m).2
          | None => Ok 0 end = Ok start ∧
          match Store.last st ps with Some r => wrapping_add (r_idx r) 1 | None => 0 end = pi) as [-> ->].
  { destruct (Store.last st ps) as [r|]; [|naive_solver].
    destruct Hpack as (m & -> & Hm & -> & ->). simpl.
    by rewrite !wrapping_add_exact by wrap_lia. }
  destruct (Z.ltb_spec (r_idx tail) start) as [Hgt|Hle].
  - exists []. rewrite fmap_nil, app_nil_r. split_and!; [done| |intros ??; by rewrite lookup_nil].
    simpl. symmetry. apply Z.div_small. lia.
  - apply pack_loop_spec; try done. lia.
Qed.

(** A manifest carries no content key, so that a store with one in it cannot be rekeyed: the
    re-encryption fails and changes nothing, verification fails under every key, and purging
    deletes the manifest whatever the key. *)
Theorem manifest_blocks_rekey_and_verify `{CryptoLaws, PackLib} (m : PackManifestDataV1)
    (r : enc_record) (st : Store.t) (nonce : RecordId → N) (k k' : key) (err : LibError) :
  cek_from_json "" = Err err → store_wf st → r ∈ Store.load_all st →
  Manifest.encode m = Ok (r_data r) →
  (∃ e, Store.re_encrypt nonce k k' st = (st, Err e)) ∧
  (∃ e, Store.verify st k = Err e) ∧ r ∉ Store.load_all (Store.purge st k).
Proof.
  intros Hj Hwf Hin He. unfold Manifest.encode in He. case_res He. injection He as He.
  assert (cek_decrypt (cek (r_data r)) k = Err (CekJson err)) as Hcek.
  { rewrite <- He. simpl. unfold cek_decrypt. by rewrite Hj. }
  assert (∃ e, decrypt k r = Err e) as [e Hd].
  { unfold decrypt, decrypt_sync. rewrite Hcek. by eexists. }
  split_and!.
  - unfold Store.re_encrypt. edestruct (try_map_Err (λ r0 : enc_record,
      let? d := reencrypt_sync (nonce (r_id r0)) (r_data r0) k k' in Ok (with_data d r0))
      (Store.load_all st) r) as [e' ->]; [done| |by eexists].
    unfold reencrypt_sync. by rewrite Hcek.
  - unfold Store.verify. destruct (try_map_Err (decrypt k) _ _ _ Hin Hd) as [e' ->]. by eexists.
  - intros [_ [d Hok]]%elem_of_purge; [congruence|done].
Qed.

(** The manifest check misses the top of the index range: a manifest that ends at the last [u64]
    passes [parse], and its [range] then ends at 0 (in a build with overflow checks, a panic). *)
Theorem manifest_range_overflows `{PackLibLaws} (m : PackManifestDataV1) (r : enc_record) :
  manifest_ok m → end_idx m = u64_limit - 1 → r_tag r = Packfile →
  Manifest.encode m = Ok (r_data r) →
  Manifest.parse r = Ok m ∧ Manifest.range m = (start_idx m, 0).
Proof.
  intros Hm He Ht Hr. destruct Hm as (Hm1 & Hm2 & Hm3). split.
  - apply manifest_parse_encode; [done|unfold is_u64 in *; lia|done|done].
  - unfold Manifest.range, wrapping_add. rewrite He.
    replace (u64_limit - 1 + 1) with u64_limit by lia. by rewrite Z.mod_same.
Qed.

(** ** Witnesses *)

Definition hist (id idx : Z) : record (list Z) :=
  mk_record (Z.to_N id) idx 2 1700000000 V1 History [idx].

(** A record encrypted under [Toy.key1]. *)
Definition enc (r : record (list Z)) : enc_record :=
  match encrypt Toy.rng Toy.key1 r with Ok er => er | Err _ => with_data (mk_encrypted "" "") r end.

Definition hist_store : Store.t := Store.push_batch Store.empty (enc <$> [hist 10 0; hist 11 1; hist 12 2]).

Lemma hist_store_wf : store_wf hist_store.
Proof.
  apply push_batch_wf; [apply empty_wf|]. apply Forall_fmap.
  repeat (constructor; [repeat split; vm_compute; congruence|]). constructor.
Qed.

Definition fresh_ids (i : Z) : RecordId * Z := (Z.to_N (1000 + i), 1700000001).
Definition series2 : RecordSeriesKey := mk_series 2 History.

Lemma hist_has_idx i : 0 ≤ i ≤ 2 → has_idx hist_store series2 i.
Proof.
  intros Hi. apply elem_of_series_rows; [apply hist_store_wf|done|].
  assert (row_idx <$> Store.series_rows hist_store series2 = [0; 1; 2]) as -> by (vm_compute; reflexivity).
  set_unfold. lia.
Qed.

Lemma try_pack_tiles_history_witness :
  ∃ ms, Packer.try_pack fresh_ids series2 (Some 2) hist_store =
      (hist_store ++ (Store.to_row <$> ms), Ok tt) ∧
    Z.of_nat (length ms) = (2 + 1 - 0) / 2 ∧ manifests_tile series2 2 0 0 ms.
Proof.
  apply (try_pack_tiles_history fresh_ids hist_store series2 2 0 0 (enc (hist 12 2))).
  - exact hist_store_wf.
  - reflexivity.
  - discriminate.
  - lia.
  - vm_compute; reflexivity.
  - vm_compute; split; reflexivity.
  - change (r_idx (enc (hist 12 2))) with 2. lia.
  - change (r_idx (enc (hist 12 2))) with 2. exact hist_has_idx.
  - split; vm_compute; congruence.
  - split; vm_compute; congruence.
  - split.
    + intros j Hj. split; [split; vm_compute; congruence|].
      intros row Hrow. assert (row_id row ∈ row_id <$> hist_store) as Hid by (by apply list_elem_of_fmap_2).
      replace (row_id <$> hist_store) with [10%N; 11%N; 12%N] in Hid by (vm_compute; reflexivity).
      unfold fresh_ids; simpl. set_unfold. lia.
    + unfold fresh_ids; simpl. lia.
Defined.

(** A manifest of the first two records, and its view. *)
Definition manifest1 : PackManifestDataV1 := mk_manifest 2 History 0 1.
Definition manifest1_record : enc_record :=
  mk_record 50 0 2 1700000001 V1 Packfile
    (match Manifest.encode manifest1 with Ok d => d | Err _ => mk_encrypted "" "" end).
Definition view1 : PackManifestRecordView := mk_view manifest1_record manifest1.
Definition envelope1 : EncryptedData :=
  match Pack.pack_envelope Toy.rng view1 Toy.key1 (Pack.load_encrypted_packed_records view1 hist_store) with
  | Ok d => d | Err _ => mk_encrypted "" "" end.

Lemma pack_unpack_roundtrip_witness :
  ∃ blob ids xs,
    Pack.pack_records Toy.rng view1 hist_store Toy.key1 = Ok (blob, ids) ∧
    Pack.unpack_records (λ _, Toy.rng) view1 blob Toy.key1 = Ok xs ∧
    Forall2 (λ r x, ∃ p, decrypt Toy.key1 r = Ok p ∧ decrypt Toy.key1 x = Ok p)
      (Pack.load_encrypted_packed_records view1 hist_store) xs.
Proof.
  assert (Pack.load_encrypted_packed_records view1 hist_store = enc <$> [hist 10 0; hist 11 1]) as Hl
    by (vm_compute; reflexivity).
  apply (pack_unpack_roundtrip Toy.rng (λ _, Toy.rng) view1 hist_store Toy.key1 envelope1).
  - vm_compute; reflexivity.
  - vm_compute; reflexivity.
  - vm_compute; reflexivity.
  - intros _. exact Toy.rng_ok.
  - intros r p Hr Hd. rewrite Hl in Hr.
    assert (decrypt Toy.key1 (enc (hist 10 0)) = Ok (hist 10 0)) as H1 by (vm_compute; reflexivity).
    assert (decrypt Toy.key1 (enc (hist 11 1)) = Ok (hist 11 1)) as H2 by (vm_compute; reflexivity).
    rewrite fmap_cons, fmap_cons, fmap_nil in Hr.
    apply elem_of_cons in Hr as [->|[->|?%not_elem_of_nil]%elem_of_cons]; [| |done].
    + rewrite H1 in Hd. assert (p = hist 10 0) as -> by congruence. repeat split; vm_compute; congruence.
    + rewrite H2 in Hd. assert (p = hist 11 1) as -> by congruence. repeat split; vm_compute; congruence.
Defined.

Definition manifest_store : Store.t := Store.push hist_store manifest1_record.

Lemma manifest_blocks_rekey_and_verify_witness :
  (∃ e, Store.re_encrypt (λ _, 0%N) Toy.key1 Toy.key2 manifest_store = (manifest_store, Err e)) ∧
  (∃ e, Store.verify manifest_store Toy.key1 = Err e) ∧
  manifest1_record ∉ Store.load_all (Store.purge manifest_store Toy.key1).
Proof.
  apply (manifest_blocks_rekey_and_verify manifest1 manifest1_record manifest_store (λ _, 0%N)
    Toy.key1 Toy.key2 "malformed").
  - vm_compute; reflexivity.
  - apply save_raw_wf; [exact hist_store_wf|]. repeat split; vm_compute; congruence.
  - assert (last (Store.load_all manifest_store) = Some manifest1_record) as Hl by (vm_compute; reflexivity).
    by apply last_Some_elem_of.
  - vm_compute; reflexivity.
Defined.

Definition manifest_top : PackManifestDataV1 := mk_manifest 2 History 5 (u64_limit - 1).

Lemma manifest_range_overflows_witness :
  Manifest.parse (with_data (mk_encrypted ("001" ++ Toy.show (ToyPack.m_tuple manifest_top)) "") manifest1_record)
    = Ok manifest_top ∧ Manifest.range manifest_top = (5, 0).
Proof.
  apply (manifest_range_overflows manifest_top
    (with_data (mk_encrypted ("001" ++ Toy.show (ToyPack.m_tuple manifest_top)) "") manifest1_record)).
  - split; [reflexivity|]. split; split; vm_compute; congruence.
  - reflexivity.
  - reflexivity.
  - reflexivity.
Defined.

(** ** Packing across a hole *)

(** History with a hole at index 1. *)
Definition gap_store : Store.t := Store.push_batch Store.empty (enc <$> [hist 10 0; hist 12 2; hist 13 3]).

(** The manifest the packer writes for it, with packs of two. *)
Definition gap_manifest : PackManifestDataV1 := mk_manifest 2 History 0 2.

(** A packfile is loaded by the width of its range, not by its end, so that across a hole it
    takes in a record that lies beyond the range its own manifest names. *)
Theorem packfile_overreaches_hole :
  (Manifest.parse <$> Store.last (Packer.try_pack fresh_ids series2 (Some 2) gap_store).1
     (mk_series 2 Packfile)) = Some (Ok gap_manifest) ∧
  Manifest.range gap_manifest = (0, 3) ∧
  r_idx <$> Pack.load_encrypted_packed_records (mk_view manifest1_record gap_manifest) gap_store = [0; 2; 3].
Proof. split_and!; vm_compute; reflexivity. Qed.
