(* ===== verification/Server.v ===== *)
(** * The sync server ([atuin-server], [atuin-server-database], [atuin-server-sqlite],
      [atuin-server-postgres])

    [Database] is the trait the handlers are written against; [DatabaseLaws] is what it promises
    them: every user has a table of records of their own, uploads insert or ignore, pages and the
    index read that table. The handlers (Module [Handlers]) are proved against the laws alone. The
    SQLite and PostgreSQL backends are two instances over the tables of their migrations; failures
    of the database itself and the lag of a read replica are not modelled. *)
From S2P Require Import Prelude Text Record Status Encryption SqliteStore.

(** ** Models ([atuin-server-database/src/models.rs]) *)

Record User : Type := mk_user { u_id : Z; u_username : string; u_email : string; u_password : string }.
Record Session : Type := mk_session { se_id : Z; se_user_id : Z; se_token : string }.
Record NewUser : Type := mk_new_user { nu_username : string; nu_email : string; nu_password : string }.
Record NewSession : Type := mk_new_session { ns_user_id : Z; ns_token : string }.

Inductive DbError : Type :=
| NotFound
| OtherDb (reason : string).

(** ** The trait *)

Class Database (DB : Type) : Type := {
  get_session : DB → string → result Session DbError;
  get_session_user : DB → string → result User DbError;
  add_session : NewSession → stm DB DbError unit;
  get_user : DB → string → result User DbError;
  get_user_session : DB → User → result Session DbError;
  add_user : NewUser → stm DB DbError Z;
  update_user_password : User → stm DB DbError unit;
  delete_user : User → stm DB DbError unit;
  delete_store : User → stm DB DbError unit;
  add_records : User → list enc_record → stm DB DbError unit;
  next_records : DB → User → RecordSeriesKey → option RecordIdx → Z → result (list enc_record) DbError;
  status : DB → User → result Status.t DbError
}.

(** An upload into one user's table: on conflict do nothing, where only the place in the series is
    unique. *)
Definition save_key (st : Store.t) (r : enc_record) : Store.t :=
  if existsb (λ row, bool_decide (Store.row_key row = Store.row_key (Store.to_row r))) st
  then st else st ++ [Store.to_row r].

(** What the handlers may rely on. [table db u] is the abstract table of user [u]. *)
Class DatabaseLaws (DB : Type) `{Database DB} : Type := {
  db_ok : DB → Prop;
  table : DB → Z → Store.t;
  table_wf db u : db_ok db → rows_wf (table db u);
  add_records_spec db user rs :
    db_ok db → Forall storable rs →
    ∃ db', add_records user rs db = (db', Ok tt) ∧ db_ok db' ∧
      (∀ u, table db' u = if decide (u = u_id user) then foldl save_key (table db u) rs else table db u) ∧
      (∀ token, get_session_user db' token = get_session_user db token);
  delete_store_spec db user :
    db_ok db →
    ∃ db', delete_store user db = (db', Ok tt) ∧ db_ok db' ∧
      (∀ u, table db' u = if decide (u = u_id user) then [] else table db u) ∧
      (∀ token, get_session_user db' token = get_session_user db token);
  next_records_spec db user s start count :
    next_records db user s start count = Ok (Store.next (table db (u_id user)) s (default 0 start) count);
  status_spec db user token :
    db_ok db → get_session_user db token = Ok user →
    ∃ st, status db user = Ok st ∧
      ∀ s, Status.get st s = Status.get (Store.status (table db (u_id user))) s
}.

(** ** Password hashing *)

(** argon2: [parse_hash] is [PasswordHash::new], [hash_password] takes the salt it draws. *)
Class Argon2 : Type := {
  PwHash : Type;
  parse_hash : string → option PwHash;
  verify_password : PwHash → string → bool;
  hash_password : N → string → string
}.

Class Argon2Laws `{Argon2} : Prop := {
  hash_verifies salt p : ∃ h, parse_hash (hash_password salt p) = Some h ∧ verify_password h p = true
}.

(** ** Handlers *)

(** [ErrorResponseStatus]: the HTTP status and the reason. *)
Record HttpError : Type := mk_http { http_status : Z; reason : string }.

(** The settings the handlers read. *)
Record Settings : Type := mk_settings { open_registration : bool; max_record_size : Z }.

(** An [Authorization] header: absent, not text, or text. *)
Inductive AuthHeader : Type :=
| NoHeader
| BadHeader
| HeaderText (s : string).

Module Handlers.
Section handlers.
Context {DB : Type} `{Database DB, Argon2} (settings : Settings).

Definition space : Ascii.ascii := byte 32.

(** [UserAuth::from_request_parts] *)
Definition user_auth (h : AuthHeader) (db : DB) : result User HttpError :=
  match h with
  | NoHeader => Err (mk_http 400 "missing authorization header")
  | BadHeader => Err (mk_http 400 "invalid authorization header encoding")
  | HeaderText s =>
      match split_once space s with
      | None => Err (mk_http 400 "invalid authorization header encoding")
      | Some (typ, token) =>
          if decide (typ = "Token") then
            map_err (λ e, match e with
                          | NotFound => mk_http 403 "session not found"
                          | OtherDb _ => mk_http 500 "could not query user session"
                          end) (get_session_user db token)
          else Err (mk_http 400 "invalid authorization header encoding")
      end
  end.

(** Run a handler as the authenticated user. *)
Definition with_auth {A} (h : AuthHeader) (k : User → stm DB HttpError A) : stm DB HttpError A := λ db,
  match user_auth h db with
  | Ok user => k user db
  | Err e => (db, Err e)
  end.

Definition lift_db {A} (e : HttpError) (m : stm DB DbError A) : stm DB HttpError A := λ db,
  let '(db', r) := m db in (db', map_err (λ _, e) r).

(** [handlers::v0::record::post] *)
Definition record_post (h : AuthHeader) (records : list enc_record) : stm DB HttpError unit :=
  with_auth h (λ user,
    let keep := forallb (λ r : enc_record,
      (Z.of_nat (String.length (raw (r_data r))) <=? max_record_size settings)
      || (max_record_size settings =? 0)) records in
    if keep then lift_db (mk_http 500 "failed to add record") (add_records user records)
    else st_fail (mk_http 400 "could not add records; record too large")).

(** [handlers::v0::record::index] *)
Definition record_index (h : AuthHeader) : stm DB HttpError Status.t :=
  with_auth h (λ user db,
    (db, map_err (λ _, mk_http 500 "failed to calculate record index") (status db user))).

(** [handlers::v0::record::next] *)
Definition record_next (h : AuthHeader) (s : RecordSeriesKey) (start : option RecordIdx) (count : Z)
    : stm DB HttpError (list enc_record) :=
  with_auth h (λ user db,
    (db, map_err (λ _, mk_http 500 "failed to calculate record index")
           (next_records db user s start count))).

(** [handlers::v0::store::delete] *)
Definition store_delete (h : AuthHeader) : stm DB HttpError unit :=
  with_auth h (λ user, lift_db (mk_http 500 "failed to delete store") (delete_store user)).

(** [handlers::v0::me::get] *)
Definition me_get (h : AuthHeader) : stm DB HttpError string :=
  with_auth h (λ user, st_ret (u_username user)).

(** [verify_str] *)
Definition verify_str (hash password : string) : bool :=
  match parse_hash hash with Some h => verify_password h password | None => false end.

(** [handlers::user::get] *)
Definition user_get (username : string) (db : DB) : result string HttpError :=
  match get_user db username with
  | Ok user => Ok (u_username user)
  | Err NotFound => Err (mk_http 404 "user not found")
  | Err (OtherDb _) => Err (mk_http 500 "database error")
  end.

(** The characters a username may have. *)
Definition username_char (c : Ascii.ascii) : bool :=
  let z := code c in
  ((97 <=? z) && (z <=? 122)) || ((65 <=? z) && (z <=? 90)) || ((48 <=? z) && (z <=? 57)) || (z =? 45).

(** [handlers::user::register]: [salt] and [token] are the random values drawn; the webhook has no
    effect on the result. *)
Definition register (salt : N) (token : string) (username email password : string)
    : stm DB HttpError string :=
  if negb (open_registration settings) then
    st_fail (mk_http 400 "this server is not open for registrations")
  else if negb (forallb username_char (chars username)) then
    st_fail (mk_http 400 "Only alphanumeric and hyphens (-) are allowed in usernames")
  else
    let! user_id := lift_db (mk_http 400 "failed to add user")
                      (add_user (mk_new_user username email (hash_password salt password))) in
    let! _ := lift_db (mk_http 400 "failed to register user") (add_session (mk_new_session user_id token)) in
    st_ret token.

(** [handlers::user::delete] *)
Definition user_delete (h : AuthHeader) : stm DB HttpError unit :=
  with_auth h (λ user, lift_db (mk_http 500 "failed to delete user") (delete_user user)).

(** [handlers::user::change_password] *)
Definition change_password (salt : N) (h : AuthHeader) (current_password new_password : string)
    : stm DB HttpError unit :=
  with_auth h (λ user,
    if verify_str (u_password user) current_password then
      lift_db (mk_http 500 "failed to change user password")
        (update_user_password
           (mk_user (u_id user) (u_username user) (u_email user) (hash_password salt new_password)))
    else st_fail (mk_http 401 "password is not correct")).

(** [handlers::user::login] *)
Definition login (username password : string) (db : DB) : result string HttpError :=
  match get_user db username with
  | Err NotFound => Err (mk_http 404 "user not found")
  | Err (OtherDb _) => Err (mk_http 500 "database error")
  | Ok user =>
      match get_user_session db user with
      | Err NotFound => Err (mk_http 404 "user not found")
      | Err (OtherDb _) => Err (mk_http 500 "database error")
      | Ok session =>
          if verify_str (u_password user) password then Ok (se_token session)
          else Err (mk_http 401 "password is not correct")
      end
  end.
End handlers.
End Handlers.

(** ** The tables of the two backends *)

(** [users], [sessions], [store] (each row with its [user_id]), [store_idx_cache] (unique per user,
    host and tag), the owners of the rows of the legacy [history] table, and the sequences behind
    the automatic ids, which never give an id twice. *)
Record Tables : Type := mk_tables {
  users : list User;
  sessions : list Session;
  store : list (Z * Row);
  idx_cache : gmap (Z * (HostId * string)) Z;
  history : list Z;
  next_user : Z;
  next_session : Z
}.

Module Tables.

Definition empty : Tables := mk_tables [] [] [] ∅ [] 1 1.

(** The rows of one user. *)
Definition user_rows (t : Tables) (u : Z) : Store.t := snd <$> filter (λ p, p.1 = u) (store t).

(** [fetch_one] *)
Definition fetch_one {A} (l : list A) : result A DbError := ok_or (head l) NotFound.

Definition get_session (t : Tables) (token : string) : result Session DbError :=
  fetch_one (filter (λ s, se_token s = token) (sessions t)).

(** The inner join of [users] and [sessions]. *)
Definition get_session_user (t : Tables) (token : string) : result User DbError :=
  fetch_one (u ← users t; s ← sessions t;
             if decide (u_id u = se_user_id s ∧ se_token s = token) then [u] else []).

Definition get_user (t : Tables) (username : string) : result User DbError :=
  fetch_one (filter (λ u, u_username u = username) (users t)).

Definition get_user_session (t : Tables) (u : User) : result Session DbError :=
  fetch_one (filter (λ s, se_user_id s = u_id u) (sessions t)).

(** [token] is unique. *)
Definition add_session (s : NewSession) : stm Tables DbError unit := λ t,
  if existsb (λ x, bool_decide (se_token x = ns_token s)) (sessions t)
  then (t, Err (OtherDb "unique constraint"))
  else (mk_tables (users t)
          (sessions t ++ [mk_session (next_session t) (ns_user_id s) (ns_token s)])
          (store t) (idx_cache t) (history t) (next_user t) (next_session t + 1), Ok tt).

(** SQL [LOWER] on the ASCII letters. *)
Definition lower_char (c : Ascii.ascii) : Ascii.ascii :=
  if (65 <=? code c) && (code c <=? 90) then byte (code c + 32) else c.
Definition lower (s : string) : string := unchars (lower_char <$> chars s).

(** The unique columns and indices of [users]. *)
Definition user_clash (n : NewUser) (u : User) : bool :=
  bool_decide (u_username u = nu_username n ∨ u_email u = nu_email n ∨ u_password u = nu_password n ∨
               lower (u_username u) = lower (nu_username n) ∨ lower (u_email u) = lower (nu_email n)).

Definition add_user (n : NewUser) : stm Tables DbError Z := λ t,
  if existsb (user_clash n) (users t)
  then (t, Err (OtherDb "unique constraint"))
  else (mk_tables
          (users t ++ [mk_user (next_user t) (nu_username n) (nu_email n) (nu_password n)])
          (sessions t) (store t) (idx_cache t) (history t) (next_user t + 1) (next_session t),
        Ok (next_user t)).

(** Password hashes are unique among the other users. *)
Definition update_user_password (u : User) : stm Tables DbError unit := λ t,
  if existsb (λ x, bool_decide (u_id x ≠ u_id u ∧ u_password x = u_password u)) (users t) &&
     existsb (λ x, bool_decide (u_id x = u_id u)) (users t)
  then (t, Err (OtherDb "unique constraint"))
  else (mk_tables
          ((λ x, if decide (u_id x = u_id u)
                 then mk_user (u_id x) (u_username x) (u_email x) (u_password u) else x) <$> users t)
          (sessions t) (store t) (idx_cache t) (history t) (next_user t) (next_session t), Ok tt).

(** One insert of [add_records]; says whether a row was added. *)
Definition insert_record (u : Z) (rows : list (Z * Row)) (r : enc_record) : list (Z * Row) * bool :=
  if existsb (λ p, bool_decide (p.1 = u ∧ Store.row_key p.2 = Store.row_key (Store.to_row r))) rows
  then (rows, false) else (rows ++ [(u, Store.to_row r)], true).

Definition next_records (t : Tables) (user : User) (s : RecordSeriesKey) (start : option RecordIdx)
    (count : Z) : result (list enc_record) DbError :=
  Ok (Store.from_row <$> sql_limit (u64_as_i64 count)
        (sort_by_key row_idx
           (filter (λ row, u64_as_i64 (default 0 start) ≤ row_idx row)
              (filter (Store.in_series s) (user_rows t (u_id user)))))).

(** [select host, tag, max(idx) .. group by host, tag] of one user. *)
Definition aggregate (t : Tables) (u : Z) : list (HostId * string * Z) :=
  (λ g, (g, Store.group_max (user_rows t u) g)) <$> Store.groups (user_rows t u).

(** The [for] loop that fills a [RecordStatus]. *)
Definition to_status (l : list (HostId * string * Z)) : Status.t :=
  foldl (λ acc p, Status.set_raw acc (mk_series p.1.1 (Tag.from_string p.1.2)) (i64_as_u64 p.2))
    Status.new l.

Definition set_store (t : Tables) (rows : list (Z * Row)) : Tables :=
  mk_tables (users t) (sessions t) rows (idx_cache t) (history t) (next_user t) (next_session t).
Definition set_cache (t : Tables) (c : gmap (Z * (HostId * string)) Z) : Tables :=
  mk_tables (users t) (sessions t) (store t) c (history t) (next_user t) (next_session t).

End Tables.

(** *** SQLite ([atuin-server-sqlite/src/lib.rs]) *)

Record Sqlite : Type := mk_sqlite { sqlite : Tables }.

Definition on_sqlite {A} (m : stm Tables DbError A) : stm Sqlite DbError A := λ db,
  let '(t, r) := m (sqlite db) in (mk_sqlite t, r).

Module SqliteDb.

Definition delete_user (u : User) : stm Tables DbError unit := λ t,
  (mk_tables (filter (λ x, u_id x ≠ u_id u) (users t)) (filter (λ s, se_user_id s ≠ u_id u) (sessions t))
     (store t) (idx_cache t) (filter (λ h, h ≠ u_id u) (history t)) (next_user t) (next_session t), Ok tt).

Definition delete_store (u : User) : stm Tables DbError unit := λ t,
  (Tables.set_store t (filter (λ p, p.1 ≠ u_id u) (store t)), Ok tt).

Definition add_records (user : User) (records : list enc_record) : stm Tables DbError unit := λ t,
  (Tables.set_store t (foldl (λ rows r, (Tables.insert_record (u_id user) rows r).1) (store t) records), Ok tt).

Definition status (t : Tables) (user : User) : result Status.t DbError :=
  Ok (Tables.to_status (Tables.aggregate t (u_id user))).

End SqliteDb.

#[export] Instance sqlite_database : Database Sqlite := {|
  get_session db := Tables.get_session (sqlite db);
  get_session_user db := Tables.get_session_user (sqlite db);
  add_session s := on_sqlite (Tables.add_session s);
  get_user db := Tables.get_user (sqlite db);
  get_user_session db := Tables.get_user_session (sqlite db);
  add_user n := on_sqlite (Tables.add_user n);
  update_user_password u := on_sqlite (Tables.update_user_password u);
  delete_user u := on_sqlite (SqliteDb.delete_user u);
  delete_store u := on_sqlite (SqliteDb.delete_store u);
  add_records u rs := on_sqlite (SqliteDb.add_records u rs);
  next_records db := Tables.next_records (sqlite db);
  status db := SqliteDb.status (sqlite db)
|}.

(** *** PostgreSQL ([atuin-server-postgres/src/lib.rs]) *)

(** [use_idx_cache] is the outcome of the draw that [status] makes. *)
Record Postgres : Type := mk_postgres { postgres : Tables; use_idx_cache : bool }.

Definition on_postgres {A} (m : stm Tables DbError A) : stm Postgres DbError A := λ db,
  let '(t, r) := m (postgres db) in (mk_postgres t (use_idx_cache db), r).

(** Reads that the code sends to [read_pool] see the tables of the primary here: a replica, where one is configured, is
    taken to have caught up. *)
Module PostgresDb.

(** The number of characters of a UTF-8 string. *)
Definition char_count (s : string) : Z :=
  Z.of_nat (length (filter (λ c, ¬ (128 ≤ code c < 192)) (chars s))).

(** The [varchar] limits of the columns of [users] and [sessions]. *)
Definition add_user (n : NewUser) : stm Tables DbError Z := λ t,
  if (char_count (nu_username n) <=? 32) && (char_count (nu_email n) <=? 128) &&
     (char_count (nu_password n) <=? 128)
  then Tables.add_user n t else (t, Err (OtherDb "value too long")).

Definition add_session (s : NewSession) : stm Tables DbError unit := λ t,
  if char_count (ns_token s) <=? 128 then Tables.add_session s t
  else (t, Err (OtherDb "value too long")).

Definition delete_user (u : User) : stm Tables DbError unit := λ t,
  (mk_tables (filter (λ x, u_id x ≠ u_id u) (users t)) (filter (λ s, se_user_id s ≠ u_id u) (sessions t))
     (filter (λ p, p.1 ≠ u_id u) (store t)) (idx_cache t)
     (filter (λ h, h ≠ u_id u) (history t)) (next_user t) (next_session t), Ok tt).

Definition delete_store (u : User) : stm Tables DbError unit := λ t,
  (Tables.set_cache (Tables.set_store t (filter (λ p, p.1 ≠ u_id u) (store t)))
     (filter (λ kv, kv.1.1 ≠ u_id u) (idx_cache t)), Ok tt).

(** [heads.entry(..).and_modify(max).or_insert(idx)] *)
Definition note_head (heads : gmap (HostId * string) Z) (r : enc_record) : gmap (HostId * string) Z :=
  let k := (r_host r, Tag.as_str (r_tag r)) in
  match heads !! k with
  | Some e => if e <? r_idx r then <[k := r_idx r]> heads else heads
  | None => <[k := r_idx r]> heads
  end.

(** The first loop: insert, and keep the greatest inserted index of each series. *)
Definition insert_and_note (u : Z) (acc : list (Z * Row) * gmap (HostId * string) Z) (r : enc_record)
    : list (Z * Row) * gmap (HostId * string) Z :=
  let '(rows, inserted) := Tables.insert_record u acc.1 r in
  (rows, if inserted then note_head acc.2 r else acc.2).

(** The second loop: raise the cached index of each series to its new head. *)
Definition cache_head (u : Z) (cache : gmap (Z * (HostId * string)) Z) (p : HostId * string * Z)
    : gmap (Z * (HostId * string)) Z :=
  let v := u64_as_i64 p.2 in
  <[(u, p.1) := match cache !! (u, p.1) with Some c => Z.max c v | None => v end]> cache.

Definition add_records (user : User) (records : list enc_record) : stm Tables DbError unit := λ t,
  let '(rows, heads) := foldl (insert_and_note (u_id user)) (store t, ∅) records in
  (Tables.set_cache (Tables.set_store t rows)
     (foldl (cache_head (u_id user)) (idx_cache t) (map_to_list heads)), Ok tt).

(** The cached rows of one user. *)
Definition cached (t : Tables) (u : Z) : list (HostId * string * Z) :=
  omap (λ p, if decide (p.1.1 = u) then Some (p.1.2, p.2) else None) (map_to_list (idx_cache t)).

Definition status (use_cache : bool) (t : Tables) (user : User) : result Status.t DbError :=
  let res := if use_cache then cached t (u_id user) else Tables.aggregate t (u_id user) in
  Ok (Tables.to_status (sort_by leb res)).

End PostgresDb.

#[export] Instance postgres_database : Database Postgres := {|
  get_session db := Tables.get_session (postgres db);
  get_session_user db := Tables.get_session_user (postgres db);
  add_session s := on_postgres (PostgresDb.add_session s);
  get_user db := Tables.get_user (postgres db);
  get_user_session db := Tables.get_user_session (postgres db);
  add_user n := on_postgres (PostgresDb.add_user n);
  update_user_password u := on_postgres (Tables.update_user_password u);
  delete_user u := on_postgres (PostgresDb.delete_user u);
  delete_store u := on_postgres (PostgresDb.delete_store u);
  add_records u rs := on_postgres (PostgresDb.add_records u rs);
  next_records db := Tables.next_records (postgres db);
  status db := PostgresDb.status (use_idx_cache db) (postgres db)
|}.

(** ** Lemmas on one user's table *)

Section tables.
Implicit Types (st : Store.t) (t : Tables) (r : enc_record).

Lemma save_key_wf st r : rows_wf st → storable r → rows_wf (save_key st r).
Proof.
  intros [Hk Hf] (Hr1 & Hr2 & _). unfold save_key. destruct (existsb _ st) eqn:E; [done|].
  rewrite existsb_false in E. split; rewrite ?fmap_app; simpl.
  - apply NoDup_app. split_and!; [done| |apply NoDup_singleton].
    intros x (row & -> & Hin)%list_elem_of_fmap. rewrite list_elem_of_singleton.
    specialize (E row Hin). by rewrite bool_decide_eq_false in E.
  - apply Forall_app. split; [done|]. apply Forall_singleton. simpl. by rewrite !u64_as_i64_fits.
Qed.

Lemma save_keys_wf st rs : rows_wf st → Forall storable rs → rows_wf (foldl save_key st rs).
Proof.
  intros Hwf Hrs. revert st Hwf. induction Hrs as [|r rs Hr Hrs IH]; intros st Hwf; simpl; [done|].
  apply IH. by apply save_key_wf.
Qed.

(** Same place in the same series. *)
Definition same_place (r r' : enc_record) : Prop := series_key r = series_key r' ∧ r_idx r = r_idx r'.

Lemma row_key_iff row r :
  fits_i64 (row_idx row) ∧ fits_i64 (row_timestamp row) → storable r →
  Store.row_key row = Store.row_key (Store.to_row r) ↔ same_place (Store.from_row row) r.
Proof.
  intros [Hi _] (Hr & _ & Ht & _). unfold Store.row_key, same_place, series_key; simpl.
  rewrite u64_as_i64_fits, i64_as_u64_fits by done. apply tag_canonical_spec in Ht. split.
  - intros [= -> -> ->]. by rewrite Ht.
  - intros [[= -> <-] ->]. by rewrite tag_as_str_from_string.
Qed.

Lemma elem_of_save_key st r x :
  rows_wf st → storable r →
  x ∈ Store.load_all (save_key st r) ↔
  x ∈ Store.load_all st ∨ (x = r ∧ ∀ y, y ∈ Store.load_all st → ¬ same_place y r).
Proof.
  intros Hwf Hr. unfold save_key. destruct (existsb _ st) eqn:E.
  - split; [by left|]. intros [?|[-> Hn]]; [done|exfalso].
    apply existsb_true in E as (row & Hin & He%bool_decide_eq_true).
    apply (Hn (Store.from_row row)); [by apply list_elem_of_fmap_2|].
    apply row_key_iff in He; [done|by apply (row_wf st)|done].
  - rewrite existsb_false in E. unfold Store.load_all. rewrite fmap_app, elem_of_app. simpl.
    rewrite list_elem_of_singleton, from_to_row by done. split; intros [?|Hx]; auto.
    + subst. right. split; [done|]. intros y (row & -> & Hin)%list_elem_of_fmap Hs.
      specialize (E row Hin). rewrite bool_decide_eq_false in E. apply E.
      apply row_key_iff; [by apply (row_wf st)|done|done].
    + right. by destruct Hx.
Qed.

(** After an upload every place of the batch is taken, and nothing stored before has changed. *)
Lemma save_keys_spec st rs :
  rows_wf st → Forall storable rs →
  (∀ x, x ∈ Store.load_all st → x ∈ Store.load_all (foldl save_key st rs)) ∧
  (∀ x, x ∈ Store.load_all (foldl save_key st rs) → x ∈ Store.load_all st ∨ x ∈ rs) ∧
  (∀ r, r ∈ rs → ∃ x, x ∈ Store.load_all (foldl save_key st rs) ∧ same_place x r).
Proof.
  intros Hwf Hrs. revert st Hwf. induction Hrs as [|r rs Hr Hrs IH]; intros st Hwf; simpl.
  - split_and!; [done|by left|by intros ? ?%not_elem_of_nil].
  - destruct (IH (save_key st r)) as (H1 & H2 & H3); [by apply save_key_wf|]. split_and!.
    + intros x Hx. apply H1, elem_of_save_key; auto.
    + intros x [Hx|Hx]%H2; [|by right; right].
      apply elem_of_save_key in Hx as [?|[-> _]]; [by left|right; left|done|done].
    + intros x [->|Hx]%elem_of_cons; [|by apply H3].
      destruct (existsb (λ row, bool_decide (Store.row_key row = Store.row_key (Store.to_row r))) st) eqn:E.
      * apply existsb_true in E as (row & Hin & He%bool_decide_eq_true).
        exists (Store.from_row row). split.
        -- apply H1, elem_of_save_key; [done..|]. left. by apply list_elem_of_fmap_2.
        -- apply row_key_iff in He; [done|by apply (row_wf st)|done].
      * exists r. split; [|done]. apply H1, elem_of_save_key; [done..|]. right. split; [done|].
        intros y (row & -> & Hin)%list_elem_of_fmap Hs. rewrite existsb_false in E.
        specialize (E row Hin). rewrite bool_decide_eq_false in E. apply E.
        apply row_key_iff; [by apply (row_wf st)|done|done].
Qed.

#[export] Instance same_place_dec r r' : Decision (same_place r r').
Proof. unfold same_place. apply _. Defined.

(** The record of a list that was the first in its place, the place of [r]. *)
Definition first_at (r : enc_record) (l : list enc_record) : option enc_record := head (filter (λ x, same_place x r) l).

Lemma first_at_app r l l' : first_at r (l ++ l') = match first_at r l with Some x => Some x | None => first_at r l' end.
Proof. unfold first_at. rewrite filter_app. by destruct (filter _ l). Qed.
Lemma first_at_Some r l x : first_at r l = Some x → x ∈ l ∧ same_place x r.
Proof. intros Hx%head_Some_elem_of. by apply list_elem_of_filter in Hx as [? ?]. Qed.
Lemma first_at_None r l : first_at r l = None ↔ ∀ x, x ∈ l → ¬ same_place x r.
Proof.
  unfold first_at. rewrite head_None. split.
  - intros E x Hx Hs. apply (not_elem_of_nil x). rewrite <- E. by apply list_elem_of_filter.
  - intros Hn. apply elem_of_nil_inv. intros x [Hs Hx]%list_elem_of_filter. by apply (Hn x).
Qed.
Lemma first_at_free r l rs :
  (∀ x, x ∈ l → ¬ same_place x r) → (∀ x, x ∈ rs → same_place x r → x = r) → r ∈ rs → first_at r (l ++ rs) = Some r.
Proof.
  intros Hl Hrs Hr. rewrite first_at_app, (proj2 (first_at_None r l) Hl). destruct (first_at r rs) as [x|] eqn:E.
  - apply first_at_Some in E as [Hx Hs]. by rewrite (Hrs x Hx Hs).
  - by destruct (proj1 (first_at_None r rs) E r Hr).
Qed.

(** An upload leaves in each place the record that was first there, of those stored before it and its own. *)
Lemma save_keys_first st rs r :
  rows_wf st → Forall storable rs → first_at r (Store.load_all (foldl save_key st rs)) = first_at r (Store.load_all st ++ rs).
Proof.
  intros Hwf Hrs. revert st Hwf. induction Hrs as [|y rs Hy Hrs IH]; intros st Hwf; simpl; [by rewrite app_nil_r|].
  rewrite IH by (by apply save_key_wf). rewrite (first_at_app r _ rs), (first_at_app r _ (y :: rs)).
  change (y :: rs) with ([y] ++ rs). rewrite (first_at_app r [y] rs). unfold save_key. destruct (existsb _ st) eqn:E.
  - apply existsb_true in E as (row & Hin & He%bool_decide_eq_true). apply row_key_iff in He as [H1 H2]; [|by apply (row_wf st)|done].
    destruct (first_at r (Store.load_all st)) eqn:Ef; [done|]. destruct (first_at r [y]) as [z|] eqn:Ey; [exfalso|done].
    apply first_at_Some in Ey as [->%list_elem_of_singleton [H3 H4]].
    apply (proj1 (first_at_None r _) Ef (Store.from_row row)); [by apply list_elem_of_fmap_2|]. split; congruence.
  - unfold Store.load_all. rewrite fmap_app, (first_at_app r). cbn [fmap list_fmap]. rewrite from_to_row by done.
    by destruct (first_at r (Store.from_row <$> st)).
Qed.

(** An insert into the shared table is an insert into the user's own, and no other's. *)
Lemma insert_record_rows u rows r v :
  snd <$> filter (λ p : Z * Row, p.1 = v) (Tables.insert_record u rows r).1 =
  if decide (v = u) then save_key (snd <$> filter (λ p : Z * Row, p.1 = u) rows) r
  else snd <$> filter (λ p : Z * Row, p.1 = v) rows.
Proof.
  unfold Tables.insert_record, save_key.
  assert (existsb (λ p : Z * Row, bool_decide (p.1 = u ∧ Store.row_key p.2 = Store.row_key (Store.to_row r))) rows =
    existsb (λ row, bool_decide (Store.row_key row = Store.row_key (Store.to_row r)))
      (snd <$> filter (λ p : Z * Row, p.1 = u) rows)) as He.
  { induction rows as [|p rows IH]; [done|]. simpl. rewrite IH. destruct (decide (p.1 = u)) as [Hp|Hp].
    - rewrite filter_cons_True by done. rewrite fmap_cons. simpl. f_equal.
      apply bool_decide_ext. split; [by intros [_ ?]|done].
    - rewrite filter_cons_False by done. rewrite bool_decide_eq_false_2 by (by intros [? _]). done. }
  rewrite He. destruct (existsb _ (snd <$> _)) eqn:E; simpl.
  - by case_decide; subst.
  - rewrite filter_app, fmap_app. case_decide as Hv.
    + subst. by rewrite filter_cons_True, filter_nil.
    + rewrite filter_cons_False, filter_nil, app_nil_r by (simpl; congruence). done.
Qed.

Lemma insert_records_rows u rs rows v :
  snd <$> filter (λ p : Z * Row, p.1 = v) (foldl (λ rows r, (Tables.insert_record u rows r).1) rows rs) =
  if decide (v = u) then foldl save_key (snd <$> filter (λ p : Z * Row, p.1 = u) rows) rs
  else snd <$> filter (λ p : Z * Row, p.1 = v) rows.
Proof.
  revert rows; induction rs as [|r rs IH]; intros rows; simpl; [by case_decide; subst|].
  rewrite IH. destruct (decide (v = u)) as [->|Hne].
  - by rewrite insert_record_rows, decide_True.
  - by rewrite insert_record_rows, decide_False.
Qed.

Lemma user_rows_delete rows u v :
  snd <$> filter (λ p : Z * Row, p.1 = v) (filter (λ p, p.1 ≠ u) rows) =
  if decide (v = u) then [] else snd <$> filter (λ p : Z * Row, p.1 = v) rows.
Proof.
  induction rows as [|p rows IH]; [by case_decide|].
  destruct (decide (p.1 = u)) as [Hu|Hu].
  - rewrite filter_cons_False by (intros Hn; by apply Hn). rewrite IH. case_decide; [done|].
    by rewrite (filter_cons_False _ p rows) by congruence.
  - rewrite filter_cons_True by done. destruct (decide (p.1 = v)) as [Hv|Hv].
    + rewrite !(filter_cons_True (λ p : Z * Row, p.1 = v)) by done. rewrite !fmap_cons, IH.
      by rewrite !decide_False by congruence.
    + rewrite !(filter_cons_False (λ p : Z * Row, p.1 = v)) by done. exact IH.
Qed.

Lemma to_status_aggregate t u :
  Tables.to_status (Tables.aggregate t u) = Store.status (Tables.user_rows t u).
Proof.
  unfold Tables.to_status, Tables.aggregate, Store.status. generalize Status.new.
  induction (Store.groups (Tables.user_rows t u)) as [|g l IH]; intros acc; simpl; [done|]. apply IH.
Qed.
End tables.

(** ** SQLite keeps the promises *)

#[export] Instance sqlite_laws : DatabaseLaws Sqlite.
Proof.
  refine {|
    db_ok db := ∀ u, rows_wf (Tables.user_rows (sqlite db) u);
    table db := Tables.user_rows (sqlite db)
  |}.
  - intros db u Hok. apply Hok.
  - intros [t] user rs Hok Hrs. eexists. split; [done|]. simpl in *.
    assert (∀ u, Tables.user_rows (Tables.set_store t
        (foldl (λ rows r, (Tables.insert_record (u_id user) rows r).1) (store t) rs)) u =
      if decide (u = u_id user) then foldl save_key (Tables.user_rows t u) rs else Tables.user_rows t u) as Hrows.
    { intros u. unfold Tables.user_rows. simpl. rewrite insert_records_rows. by case_decide; subst. }
    split_and!; [|exact Hrows|done].
    intros u. rewrite Hrows. case_decide; [by apply save_keys_wf|done].
  - intros [t] user Hok. eexists. split; [done|]. simpl in *.
    assert (∀ u, Tables.user_rows (Tables.set_store t (filter (λ p, p.1 ≠ u_id user) (store t))) u =
      if decide (u = u_id user) then [] else Tables.user_rows t u) as Hrows.
    { intros u. unfold Tables.user_rows. simpl. apply user_rows_delete. }
    split_and!; [|exact Hrows|done].
    intros u. rewrite Hrows. case_decide; [split; constructor|done].
  - done.
  - intros [t] user token Hok _. eexists. split; [done|]. intros s. simpl. by rewrite to_status_aggregate.
Defined.

(** ** The index cache of PostgreSQL *)

Section cache.
Implicit Types (rows : list (Z * Row)) (st : Store.t) (g : HostId * string).

(** The greatest index of a group, from the rows themselves. *)
Definition group_tail st g : option Z :=
  Store.sql_max (row_idx <$> filter (λ row, (row_host row, row_tag row) = g) st).

(** The greater of two optional indices. *)
Definition omax (a b : option Z) : option Z :=
  match a, b with Some x, Some y => Some (Z.max x y) | Some x, None => Some x | None, _ => b end.

Lemma sql_max_snoc l x : Store.sql_max (l ++ [x]) = omax (Store.sql_max l) (Some x).
Proof. destruct l as [|y l]; [done|]. simpl. by rewrite foldl_app. Qed.

Lemma omax_None_r a : omax a None = a.
Proof. by destruct a. Qed.

Lemma omax_assoc a b c : omax a (omax b c) = omax (omax a b) c.
Proof. destruct a, b, c; simpl; f_equal; lia. Qed.

Lemma group_tail_snoc st row g :
  group_tail (st ++ [row]) g =
  if decide ((row_host row, row_tag row) = g) then omax (group_tail st g) (Some (row_idx row)) else group_tail st g.
Proof.
  unfold group_tail. rewrite filter_app, fmap_app. case_decide as Hg.
  - rewrite filter_cons_True, filter_nil by done.
    change (row_idx <$> [row]) with [row_idx row]. apply sql_max_snoc.
  - rewrite filter_cons_False by done. by rewrite filter_nil, app_nil_r.
Qed.

Lemma note_head_lookup heads r g :
  PostgresDb.note_head heads r !! g =
  if decide ((r_host r, Tag.as_str (r_tag r)) = g) then omax (heads !! g) (Some (r_idx r)) else heads !! g.
Proof.
  unfold PostgresDb.note_head. case_decide as Hg.
  - subst. destruct (heads !! _) as [e|] eqn:E; simpl; [|by rewrite lookup_insert_eq].
    destruct (Z.ltb_spec e (r_idx r)); [rewrite lookup_insert_eq|rewrite E]; f_equal; lia.
  - destruct (heads !! (r_host r, Tag.as_str (r_tag r))) as [e|]; [destruct (e <? r_idx r)|];
      rewrite ?lookup_insert_ne by done; done.
Qed.

(** The first loop: the heads are the tails of what was inserted. *)
Lemma insert_and_note_spec u rs rows heads rows0 :
  Forall storable rs → map_Forall (λ _ v, fits_i64 v) heads →
  (∀ g, group_tail (snd <$> filter (λ p : Z * Row, p.1 = u) rows) g =
        omax (group_tail (snd <$> filter (λ p : Z * Row, p.1 = u) rows0) g) (heads !! g)) →
  let '(rows', heads') := foldl (PostgresDb.insert_and_note u) (rows, heads) rs in
  rows' = foldl (λ rows r, (Tables.insert_record u rows r).1) rows rs ∧
  map_Forall (λ _ v, fits_i64 v) heads' ∧
  ∀ g, group_tail (snd <$> filter (λ p : Z * Row, p.1 = u) rows') g =
       omax (group_tail (snd <$> filter (λ p : Z * Row, p.1 = u) rows0) g) (heads' !! g).
Proof.
  intros Hrs. revert rows heads. induction Hrs as [|r rs (Hr & _) Hrs IH]; intros rows heads Hh Ht; simpl.
  { by split_and!. }
  unfold PostgresDb.insert_and_note at 2. simpl fst. simpl snd.
  destruct (Tables.insert_record u rows r) as [rows' ins] eqn:E. simpl fst.
  apply IH; unfold Tables.insert_record in E; destruct (existsb _ rows); simplify_eq.
  - done.
  - intros g v. rewrite note_head_lookup. case_decide; [|apply Hh].
    destruct (heads !! g) as [e|] eqn:Eg; simpl; intros [= <-]; [|done].
    apply Hh in Eg. unfold fits_i64 in *. lia.
  - done.
  - intros g. rewrite filter_app, filter_cons_True, filter_nil, fmap_app by done. simpl.
    rewrite group_tail_snoc, note_head_lookup. simpl. rewrite u64_as_i64_fits by done.
    case_decide; [|apply Ht]. by rewrite Ht, omax_assoc.
Qed.

(** The second loop: each cached index is raised to its head. *)
Lemma cache_heads_lookup u (l : list (HostId * string * Z)) cache v g :
  NoDup l.*1 → (∀ p, p ∈ l → fits_i64 p.2) →
  foldl (PostgresDb.cache_head u) cache l !! (v, g) =
  if decide (v = u) then omax (cache !! (u, g)) (list_to_map (M := gmap (HostId * string) Z) l !! g)
  else cache !! (v, g).
Proof.
  revert cache; induction l as [|[k i] l IH]; intros cache Hnd Hf; simpl.
  { rewrite lookup_empty, omax_None_r. by case_decide; subst. }
  rewrite fmap_cons in Hnd. apply NoDup_cons in Hnd as [Hk Hnd].
  rewrite IH; [|done|intros; apply Hf; by right].
  unfold PostgresDb.cache_head. simpl. rewrite u64_as_i64_fits by (apply (Hf (k, i)); left).
  case_decide as Hv; [subst|by rewrite lookup_insert_ne by congruence].
  destruct (decide (k = g)) as [->|Hg].
  - rewrite !lookup_insert_eq, not_elem_of_list_to_map_1, omax_None_r by done.
    by destruct (cache !! (u, g)).
  - by rewrite !lookup_insert_ne by congruence.
Qed.

(** A status filled from a list of groups answers by looking the group up. *)
Lemma to_status_get (l : list (HostId * string * Z)) s :
  NoDup l.*1 →
  Status.get (Tables.to_status l) s =
  if decide (Tag.canonical (s_tag s) = true)
  then i64_as_u64 <$> list_to_map (M := gmap (HostId * string) Z) l !! (host_id s, Tag.as_str (s_tag s))
  else None.
Proof.
  intros Hnd. unfold Tables.to_status.
  assert (∀ acc, Status.get (foldl (λ acc p, Status.set_raw acc (mk_series p.1.1 (Tag.from_string p.1.2))
      (i64_as_u64 p.2)) acc l) s =
    match (if decide (Tag.canonical (s_tag s) = true)
           then i64_as_u64 <$> list_to_map (M := gmap (HostId * string) Z) l !! (host_id s, Tag.as_str (s_tag s))
           else None) with Some i => Some i | None => Status.get acc s end) as Hgen.
  { induction l as [|[g i] l IH]; intros acc; simpl.
    - case_decide; [by rewrite lookup_empty|done].
    - rewrite fmap_cons in Hnd. apply NoDup_cons in Hnd as [Hg Hnd]. rewrite IH by done.
      rewrite status_get_set_raw. destruct s as [h t]; simpl in *.
      destruct (decide (Tag.canonical t = true)) as [Hc|Hc]; simpl.
      + destruct (decide (g = (h, Tag.as_str t))) as [->|Hne].
        * rewrite not_elem_of_list_to_map_1, lookup_insert_eq by done. simpl.
          rewrite (proj1 (tag_canonical_spec t) Hc). by rewrite decide_True.
        * rewrite lookup_insert_ne by done. destruct (list_to_map l !! _); [done|]. simpl.
          rewrite decide_False; [done|]. intros [= H1 H2]. apply Hne. destruct g; simpl in *.
          subst. by rewrite tag_as_str_from_string.
      + rewrite decide_False; [done|]. intros [= H1 H2]. subst. by rewrite tag_from_string_canonical in Hc. }
  rewrite Hgen, status_get_new. by case_match.
Qed.

(** The cache of a user agrees with the user's rows. *)
Definition cache_ok (t : Tables) (u : Z) : Prop :=
  ∀ g, idx_cache t !! (u, g) = group_tail (Tables.user_rows t u) g.

Lemma aggregate_lookup t u g :
  list_to_map (M := gmap (HostId * string) Z) (Tables.aggregate t u) !! g = group_tail (Tables.user_rows t u) g.
Proof.
  unfold Tables.aggregate. set (st := Tables.user_rows t u).
  assert (NoDup ((λ g, (g, Store.group_max st g)) <$> Store.groups st).*1) as Hnd.
  { rewrite <- list_fmap_compose. rewrite (list_fmap_ext _ id), list_fmap_id by done. apply NoDup_remove_dups. }
  destruct (list_to_map _ !! g) as [m|] eqn:E.
  - apply elem_of_list_to_map in E; [|done]. apply list_elem_of_fmap in E as (g' & [= <- ->] & Hg).
    unfold Store.group_max, group_tail. apply elem_of_remove_dups, list_elem_of_fmap in Hg as (row & -> & Hin).
    destruct (Store.sql_max _) eqn:Em; [done|].
    assert (row_idx row ∈ row_idx <$> filter (λ x, (row_host x, row_tag x) = (row_host row, row_tag row)) st) as Hx.
    { apply list_elem_of_fmap_2, list_elem_of_filter. by split. }
    destruct (row_idx <$> _); [by apply not_elem_of_nil in Hx|done].
  - apply not_elem_of_list_to_map in E. rewrite <- list_fmap_compose in E.
    rewrite (list_fmap_ext _ id), list_fmap_id in E by done. unfold group_tail.
    destruct (filter _ st) as [|row l] eqn:Ef; [done|]. exfalso. apply E.
    assert (row ∈ filter (λ row, (row_host row, row_tag row) = g) st) as [Hg Hin]%list_elem_of_filter
      by (rewrite Ef; left).
    apply elem_of_remove_dups, list_elem_of_fmap. by exists row.
Qed.

Lemma aggregate_NoDup t u : NoDup (Tables.aggregate t u).*1.
Proof.
  unfold Tables.aggregate. rewrite <- list_fmap_compose.
  rewrite (list_fmap_ext _ id), list_fmap_id by done. apply NoDup_remove_dups.
Qed.

Lemma elem_of_cached t u g i : (g, i) ∈ PostgresDb.cached t u ↔ idx_cache t !! (u, g) = Some i.
Proof.
  unfold PostgresDb.cached. rewrite list_elem_of_omap. split.
  - intros ([[v g'] j] & Hin%elem_of_map_to_list & Heq). simpl in Heq. case_decide; by simplify_eq.
  - intros Hl. exists ((u, g), i). rewrite elem_of_map_to_list. simpl. by rewrite decide_True.
Qed.

Lemma cached_NoDup t u : NoDup (PostgresDb.cached t u).*1.
Proof.
  unfold PostgresDb.cached. eapply NoDup_fmap_omap; [|apply NoDup_fst_map_to_list].
  intros [[v g] i] [[v' g'] i'] b c; simpl. intros; repeat case_decide; by simplify_eq/=.
Qed.

Lemma cached_lookup t u g :
  list_to_map (M := gmap (HostId * string) Z) (PostgresDb.cached t u) !! g = idx_cache t !! (u, g).
Proof.
  apply option_eq. intros i. rewrite <- elem_of_cached. symmetry. apply elem_of_list_to_map, cached_NoDup.
Qed.

(** Cached or aggregated, sorted or not, the status is that of the user's rows. *)
Lemma postgres_status_get (c : bool) t u s :
  cache_ok t u →
  Status.get (Tables.to_status (sort_by leb (if c then PostgresDb.cached t u else Tables.aggregate t u))) s =
  Status.get (Store.status (Tables.user_rows t u)) s.
Proof.
  intros Hc. set (l := if c then _ else _). rewrite <- to_status_aggregate.
  assert (NoDup l.*1) as Hnd by (unfold l; destruct c; [apply cached_NoDup|apply aggregate_NoDup]).
  rewrite (to_status_get (sort_by leb l)) by (by rewrite sort_by_perm).
  rewrite to_status_get by apply aggregate_NoDup. case_decide; [|done].
  rewrite (list_to_map_proper _ l); [|by rewrite sort_by_perm|apply sort_by_perm].
  rewrite aggregate_lookup. unfold l. destruct c; [|by rewrite aggregate_lookup].
  by rewrite cached_lookup, Hc.
Qed.
End cache.

(** ** PostgreSQL keeps the promises *)

(** The cache need only be right for users that exist: a deleted user's rows of it are left behind. *)
Definition postgres_ok (t : Tables) : Prop :=
  (∀ u, rows_wf (Tables.user_rows t u)) ∧ (∀ x, x ∈ users t → cache_ok t (u_id x)).

Lemma session_user_exists t token user : Tables.get_session_user t token = Ok user → user ∈ users t.
Proof.
  unfold Tables.get_session_user, Tables.fetch_one. destruct (head _) as [u|] eqn:E; [|done].
  intros [= <-]. apply head_Some_elem_of, list_elem_of_bind in E as (x & Hx & Hin).
  apply list_elem_of_bind in Hx as (s & Hx & _). case_decide; [|by apply not_elem_of_nil in Hx].
  by apply list_elem_of_singleton in Hx as ->.
Qed.

Lemma postgres_add_records_spec t user rs :
  postgres_ok t → Forall storable rs →
  ∃ t', PostgresDb.add_records user rs t = (t', Ok tt) ∧ postgres_ok t' ∧
    users t' = users t ∧ sessions t' = sessions t ∧
    ∀ u, Tables.user_rows t' u =
      if decide (u = u_id user) then foldl save_key (Tables.user_rows t u) rs else Tables.user_rows t u.
Proof.
  intros [Hwf Hc] Hrs. unfold PostgresDb.add_records.
  pose proof (insert_and_note_spec (u_id user) rs (store t) ∅ (store t) Hrs) as Hspec.
  destruct (foldl _ _ rs) as [rows heads]. destruct Hspec as (-> & Hfit & Htail).
  { apply map_Forall_empty. }
  { intros g. by rewrite lookup_empty, omax_None_r. }
  eexists. split; [done|].
  assert (∀ u, snd <$> filter (λ p : Z * Row, p.1 = u)
      (foldl (λ rows r, (Tables.insert_record (u_id user) rows r).1) (store t) rs) =
    if decide (u = u_id user) then foldl save_key (Tables.user_rows t u) rs else Tables.user_rows t u) as Hrows.
  { intros u. rewrite insert_records_rows. unfold Tables.user_rows. by case_decide; subst. }
  split_and!; [split| done|done|exact Hrows].
  - intros u. unfold Tables.user_rows at 1. simpl. rewrite Hrows. case_decide; [by apply save_keys_wf|done].
  - intros x Hx g. simpl in Hx. simpl. rewrite cache_heads_lookup;
      [|apply NoDup_fst_map_to_list|intros [k v] Hin%elem_of_map_to_list; by apply (Hfit k)].
    rewrite list_to_map_to_list. unfold Tables.user_rows. simpl. case_decide as Hu.
    + pose proof (Hc x Hx g) as Hcg. rewrite Hu in *. by rewrite Htail, Hcg.
    + rewrite Hrows, decide_False by done. by apply Hc.
Qed.

#[export] Instance postgres_laws : DatabaseLaws Postgres.
Proof.
  refine {| db_ok db := postgres_ok (postgres db); table db := Tables.user_rows (postgres db) |}.
  - intros db u [Hok _]. apply Hok.
  - intros [t c] user rs Hok Hrs. simpl in *.
    destruct (postgres_add_records_spec t user rs Hok Hrs) as (t' & Ht & Hok' & Hu & Hs & Hrows).
    exists (mk_postgres t' c). unfold on_postgres. simpl. rewrite Ht. split_and!; [done..|exact Hrows|].
    intros token. simpl. unfold Tables.get_session_user. by rewrite Hu, Hs.
  - intros [t c] user [Hwf Hc]. eexists. split; [done|]. simpl in *.
    assert (∀ u, Tables.user_rows (Tables.set_cache (Tables.set_store t
        (filter (λ p, p.1 ≠ u_id user) (store t))) (filter (λ kv, kv.1.1 ≠ u_id user) (idx_cache t))) u =
      if decide (u = u_id user) then [] else Tables.user_rows t u) as Hrows.
    { intros u. unfold Tables.user_rows. simpl. apply user_rows_delete. }
    split_and!; [split|exact Hrows|done].
    + intros u. rewrite Hrows. case_decide; [split; constructor|done].
    + intros x Hx g. simpl in Hx. rewrite Hrows. simpl. case_decide as Hu.
      * apply map_lookup_filter_None. right. intros i _ Hn. by apply Hn.
      * rewrite <- (Hc x Hx g). apply option_eq. intros i.
        rewrite map_lookup_filter_Some. naive_solver.
  - done.
  - intros [t c] user token [Hwf Hc] Hs. eexists. split; [done|]. intros s. simpl in *.
    apply postgres_status_get, Hc. by eapply session_user_exists.
Defined.

(** ** Lemmas on the handlers *)

Section handler_laws.
Context {DB : Type} `{DatabaseLaws DB, Argon2} (settings : Settings).

Lemma user_auth_token h (db : DB) user :
  Handlers.user_auth h db = Ok user → ∃ token, get_session_user db token = Ok user.
Proof.
  unfold Handlers.user_auth. destruct h as [| |s]; [done|done|].
  destruct (split_once _ s) as [[typ token]|]; [|done]. case_decide; [|done].
  destruct (get_session_user db token) eqn:E; simpl; [|done]. intros [= <-]. eauto.
Qed.

Lemma user_auth_ext h (db db' : DB) :
  (∀ token, get_session_user db' token = get_session_user db token) →
  Handlers.user_auth h db' = Handlers.user_auth h db.
Proof. intros He. unfold Handlers.user_auth. by repeat case_match; rewrite ?He. Qed.

Lemma record_index_spec h (db : DB) user :
  db_ok db → Handlers.user_auth h db = Ok user →
  ∃ st, Handlers.record_index h db = (db, Ok st) ∧
    ∀ s, Status.get st s = Status.get (Store.status (table db (u_id user))) s.
Proof.
  intros Hok Ha. destruct (user_auth_token _ _ _ Ha) as [token Ht].
  destruct (status_spec db user token Hok Ht) as (st & Hst & Hget). exists st. split; [|done].
  unfold Handlers.record_index, Handlers.with_auth. by rewrite Ha, Hst.
Qed.

Lemma record_next_spec h (db : DB) user s start count :
  Handlers.user_auth h db = Ok user →
  Handlers.record_next h s start count db =
    (db, Ok (Store.next (table db (u_id user)) s (default 0 start) count)).
Proof.
  intros Ha. unfold Handlers.record_next, Handlers.with_auth. by rewrite Ha, next_records_spec.
Qed.

(** The record at a place is the first of a page that starts there. *)
Lemma next_one (st : Store.t) s i x :
  rows_wf st → Tag.canonical (s_tag s) = true → fits_i64 i →
  x ∈ Store.load_all st → series_key x = s → r_idx x = i → Store.next st s i 1 = [x].
Proof.
  intros Hwf Hc Hi Hx Hs Hidx.
  assert (r_idx <$> Store.next st s i 1 = [i]) as Hn.
  { apply (next_contiguous st s i 1 Hwf Hc Hi); [split; vm_compute; congruence|].
    intros j Hj. exists x. split_and!; [done|done|lia]. }
  destruct (Store.next st s i 1) as [|y [|? ?]] eqn:E; try done. injection Hn as Hy. f_equal.
  assert (y ∈ series_from st s i) as Hys.
  { assert (y ∈ Store.next st s i 1) as Hy' by (rewrite E; left).
    rewrite next_take in Hy' by (split; vm_compute; congruence).
    eapply subseteq_take, Hy'. }
  apply elem_of_series_from in Hys as (Hin & Hsy & _); [|done..].
  eapply load_all_unique; [done..|congruence|congruence].
Qed.
End handler_laws.

(** ** Theorems *)

Section server_theorems.
Context {DB : Type} `{DatabaseLaws DB, Argon2} (settings : Settings).

(** C34: an authenticated upload of records within the size limit succeeds. Afterwards the user's index reaches
    every uploaded record, and the page at its place serves the record that was first there, whole: the
    one stored before the upload, if there was one, or the first of the upload with that place, and so the
    uploaded record itself where its place was free and the upload has no other for it. All the user had
    is still served, and no other user's index or pages change. *)
Theorem record_post_visible_and_isolated (h : AuthHeader) (db : DB) (user : User) (rs : list enc_record) :
  db_ok db → Handlers.user_auth h db = Ok user → Forall storable rs →
  (max_record_size settings = 0 ∨
   ∀ r, r ∈ rs → Z.of_nat (String.length (raw (r_data r))) ≤ max_record_size settings) →
  let before := Store.load_all (table db (u_id user)) in
  ∃ db' st, Handlers.record_post settings h rs db = (db', Ok tt) ∧ db_ok db' ∧
    Handlers.record_index h db' = (db', Ok st) ∧
    (∀ r, r ∈ before ++ rs → ∃ m x, Status.get st (series_key r) = Some m ∧ r_idx r ≤ m ∧
      Handlers.record_next h (series_key r) (Some (r_idx r)) 1 db' = (db', Ok [x]) ∧
      first_at r (before ++ rs) = Some x ∧
      (r ∈ before → x = r) ∧
      ((∀ y, y ∈ before → ¬ same_place y r) → (∀ y, y ∈ rs → same_place y r → y = r) → x = r)) ∧
    (∀ h' user', Handlers.user_auth h' db = Ok user' → u_id user' ≠ u_id user →
      ∀ s start count, (Handlers.record_next h' s start count db').2 = (Handlers.record_next h' s start count db).2 ∧
        ∃ i i', (Handlers.record_index h' db).2 = Ok i ∧ (Handlers.record_index h' db').2 = Ok i' ∧
          Status.get i' s = Status.get i s).
Proof.
  intros Hok Ha Hrs Hsize before.
  destruct (add_records_spec db user rs Hok Hrs) as (db' & Hadd & Hok' & Htab & Hses).
  assert (∀ h', Handlers.user_auth h' db' = Handlers.user_auth h' db) as Hauth by (intros; by apply user_auth_ext).
  destruct (record_index_spec h db' user Hok') as (st & Hst & Hget); [by rewrite Hauth|].
  exists db', st. split_and!; [|done|done| |].
  - unfold Handlers.record_post, Handlers.with_auth. rewrite Ha.
    rewrite (proj2 (forallb_forall _ rs)); [unfold Handlers.lift_db; by rewrite Hadd|].
    intros r Hr%list_elem_of_In. apply orb_true_iff. destruct Hsize as [->|Hsize]; [by right|left].
    by apply Z.leb_le, Hsize.
  - intros r Hr. pose proof (table_wf db (u_id user) Hok) as Hwf.
    pose proof (table_wf db' (u_id user) Hok') as Hwf'. rewrite Htab, decide_True in Hwf' by done.
    destruct (first_at r (before ++ rs)) as [x|] eqn:Ef; [|by destruct (proj1 (first_at_None r _) Ef r Hr)].
    assert (x ∈ Store.load_all (foldl save_key (table db (u_id user)) rs) ∧ same_place x r) as [Hx [Hs Hidx]].
    { apply first_at_Some. by rewrite save_keys_first. }
    assert (storable r) as (Hi & _ & Hc & _).
    { apply elem_of_app in Hr as [Hr|Hr]; [by apply (load_all_storable (table db (u_id user)))|eapply Forall_forall in Hrs; eauto]. }
    pose proof (status_get _ (series_key r) Hwf' Hc) as Hm.
    rewrite <- (decide_True (P := u_id user = u_id user) (foldl save_key (table db (u_id user)) rs) (table db (u_id user))), <- Htab in Hm by done.
    rewrite <- Hget in Hm. destruct (Status.get st (series_key r)) as [m|].
    + exists m, x. destruct Hm as [_ Hmax]. split_and!; [done| | |done| |].
      * apply Hmax. rewrite Htab, decide_True by done. by exists x.
      * by rewrite (record_next_spec h db' user), Htab, decide_True, (next_one _ _ _ x) by (done || by rewrite Hauth).
      * intros Hb. destruct (save_keys_spec _ rs Hwf Hrs) as (Hmono & _). eapply load_all_unique; [exact Hwf'|done|by apply Hmono|done|done].
      * intros Hfree Honly. rewrite first_at_free in Ef; [by injection Ef as <-|done..|].
        apply elem_of_app in Hr as [Hr|Hr]; [by destruct (Hfree r Hr)|done].
    + exfalso. apply (Hm (r_idx r)). rewrite Htab, decide_True by done. by exists x.
  - intros h' user' Ha' Hne s start count.
    assert (table db' (u_id user') = table db (u_id user')) as Htab' by (by rewrite Htab, decide_False).
    rewrite !(record_next_spec h' _ user') by (done || by rewrite Hauth). simpl. rewrite Htab'. split; [done|].
    destruct (record_index_spec h' db user' Hok Ha') as (i & -> & Hi).
    destruct (record_index_spec h' db' user' Hok') as (i' & -> & Hi'); [by rewrite Hauth|].
    exists i, i'. split_and!; [done|done|]. by rewrite Hi, Hi', Htab'.
Qed.

(** A request that fails authentication gets that error from every handler that requires a user
    and changes nothing; an upload with a record over the size limit is refused whole. *)
Theorem rejected_requests_change_nothing (h : AuthHeader) (db : DB) :
  (∀ e, Handlers.user_auth h db = Err e →
    (∀ rs, Handlers.record_post settings h rs db = (db, Err e)) ∧
    Handlers.record_index h db = (db, Err e) ∧
    (∀ s start count, Handlers.record_next h s start count db = (db, Err e)) ∧
    Handlers.store_delete h db = (db, Err e) ∧ Handlers.user_delete h db = (db, Err e) ∧
    (∀ salt p p', Handlers.change_password salt h p p' db = (db, Err e))) ∧
  (∀ rs r user, Handlers.user_auth h db = Ok user → max_record_size settings ≠ 0 →
    r ∈ rs → max_record_size settings < Z.of_nat (String.length (raw (r_data r))) →
    Handlers.record_post settings h rs db =
      (db, Err (mk_http 400 "could not add records; record too large"))).
Proof.
  split.
  - intros e He. split_and!; intros; unfold Handlers.record_post, Handlers.record_index,
      Handlers.record_next, Handlers.store_delete, Handlers.user_delete, Handlers.change_password,
      Handlers.with_auth; by rewrite He.
  - intros rs r user Ha Hmax Hr Hlen. unfold Handlers.record_post, Handlers.with_auth. rewrite Ha.
    destruct (forallb _ rs) eqn:E; [exfalso|done]. rewrite forallb_forall in E.
    specialize (E r (proj1 (list_elem_of_In _ _) Hr)). apply orb_true_iff in E as [E|E].
    + apply Z.leb_le in E. lia.
    + apply Z.eqb_eq in E. done.
Qed.
End server_theorems.

(** ** Reachable PostgreSQL states *)

Section pg_reach.
Implicit Types (t : Tables).

(** The operations of the trait, records being added by users that exist. *)
Inductive pg_step : Tables → Tables → Prop :=
| pg_add_user n t : pg_step t (PostgresDb.add_user n t).1
| pg_add_session s t : pg_step t (PostgresDb.add_session s t).1
| pg_update_password u t : pg_step t (Tables.update_user_password u t).1
| pg_delete_user u t : pg_step t (PostgresDb.delete_user u t).1
| pg_delete_store u t : pg_step t (PostgresDb.delete_store u t).1
| pg_add_records u rs t :
    u ∈ users t → Forall storable rs → pg_step t (PostgresDb.add_records u rs t).1.

(** The automatic ids are ahead of every id in use. *)
Definition ids_below t : Prop :=
  (∀ x, x ∈ users t → u_id x < next_user t) ∧ (∀ p, p ∈ store t → p.1 < next_user t) ∧
  (∀ k v, idx_cache t !! k = Some v → k.1 < next_user t).

Lemma elem_of_insert_records u rs rows p :
  p ∈ foldl (λ rows r, (Tables.insert_record u rows r).1) rows rs → p ∈ rows ∨ p.1 = u.
Proof.
  revert rows; induction rs as [|r rs IH]; intros rows; simpl; [by left|].
  intros [Hp|Hp]%IH; [|by right]. unfold Tables.insert_record in Hp.
  destruct (existsb _ rows); simpl in Hp; [by left|].
  apply elem_of_app in Hp as [?|Hp]; [by left|]. apply list_elem_of_singleton in Hp as ->. by right.
Qed.

Lemma user_rows_above t u : ids_below t → next_user t ≤ u → Tables.user_rows t u = [].
Proof.
  intros (_ & Hs & _) Hu. unfold Tables.user_rows.
  destruct (filter _ (store t)) as [|p l] eqn:E; [done|exfalso].
  assert (p ∈ filter (λ p : Z * Row, p.1 = u) (store t)) as [Hp Hin]%list_elem_of_filter by (rewrite E; left).
  apply Hs in Hin. lia.
Qed.

Lemma pg_add_user_inv n t :
  postgres_ok t → ids_below t → let t' := (PostgresDb.add_user n t).1 in postgres_ok t' ∧ ids_below t'.
Proof.
  intros Hok Hb. unfold PostgresDb.add_user, Tables.add_user.
  destruct (_ && _ && _); [|done]. destruct (existsb _ (users t)); [done|]. simpl.
  destruct Hok as [Hwf Hc]. pose proof Hb as (Hu & Hs & Hk). split; split_and!; simpl.
  - done.
  - intros x [Hx|Hx]%elem_of_app; [by apply Hc|]. apply list_elem_of_singleton in Hx as ->. simpl.
    intros g. simpl. unfold Tables.user_rows at 1. simpl.
    fold (Tables.user_rows t (next_user t)). rewrite user_rows_above by (done || lia).
    destruct (idx_cache t !! (next_user t, g)) eqn:E; [|done]. apply Hk in E. simpl in E. lia.
  - intros x [Hx%Hu|Hx]%elem_of_app; [lia|]. apply list_elem_of_singleton in Hx as ->. simpl. lia.
  - intros p Hp%Hs. lia.
  - intros k v Hkv%Hk. lia.
Qed.

Lemma pg_add_records_inv u rs t :
  u ∈ users t → Forall storable rs → postgres_ok t → ids_below t →
  let t' := (PostgresDb.add_records u rs t).1 in postgres_ok t' ∧ ids_below t'.
Proof.
  intros Hin Hrs Hok Hb. destruct (postgres_add_records_spec t u rs Hok Hrs) as (t' & Ht & Hok' & _).
  rewrite Ht. simpl. split; [done|]. unfold PostgresDb.add_records in Ht.
  pose proof (insert_and_note_spec (u_id u) rs (store t) ∅ (store t) Hrs) as Hspec.
  destruct (foldl _ _ rs) as [rows heads]. destruct Hspec as (-> & Hfit & _).
  { apply map_Forall_empty. }
  { intros g. by rewrite lookup_empty, omax_None_r. }
  injection Ht as <-. destruct Hb as (Hu & Hs & Hk). split_and!; simpl.
  - done.
  - intros p [Hp%Hs| ->]%elem_of_insert_records; [done|by apply Hu].
  - intros [v g] i. rewrite cache_heads_lookup;
      [|apply NoDup_fst_map_to_list|intros [k j] Hj%elem_of_map_to_list; by apply (Hfit k)].
    case_decide as Hv; [intros _; subst; by apply Hu|]. intros Hki%Hk. done.
Qed.

Lemma pg_step_inv t t' : pg_step t t' → postgres_ok t ∧ ids_below t → postgres_ok t' ∧ ids_below t'.
Proof.
  intros Hstep [Hok Hb]. destruct Hstep as [n t|s t|u t|u t|u t|u rs t Hu Hrs].
  - by apply pg_add_user_inv.
  - unfold PostgresDb.add_session, Tables.add_session.
    destruct (_ <=? _); [|done]. by destruct (existsb _ (sessions t)).
  - unfold Tables.update_user_password. destruct (_ && _); [done|]. simpl.
    destruct Hok as [Hwf Hc], Hb as (Hu & Hs & Hk). split; split_and!; simpl; try done.
    + intros x (y & -> & Hy)%list_elem_of_fmap. case_decide; exact (Hc y Hy).
    + intros x (y & -> & Hy)%list_elem_of_fmap. case_decide; exact (Hu y Hy).
  - destruct Hok as [Hwf Hc], Hb as (Hu & Hs & Hk).
    assert (∀ v, Tables.user_rows (PostgresDb.delete_user u t).1 v =
      if decide (v = u_id u) then [] else Tables.user_rows t v) as Hrows.
    { intros v. unfold Tables.user_rows. simpl. apply user_rows_delete. }
    split; split_and!; simpl.
    + intros v. rewrite Hrows. case_decide; [split; constructor|done].
    + intros x [Hne Hx]%list_elem_of_filter g. rewrite Hrows, decide_False by done. by apply Hc.
    + intros x [_ Hx]%list_elem_of_filter. by apply Hu.
    + intros p [_ Hp]%list_elem_of_filter. by apply Hs.
    + done.
  - assert (db_ok (mk_postgres t false)) as Hdb by exact Hok.
    destruct (delete_store_spec (mk_postgres t false) u Hdb) as (db' & Hdel & Hok' & _).
    injection Hdel as <-. split; [exact Hok'|]. destruct Hb as (Hu & Hs & Hk). split_and!; simpl.
    + done.
    + intros p [_ Hp]%list_elem_of_filter. by apply Hs.
    + intros k v [Hkv _]%map_lookup_filter_Some. by eapply Hk.
  - by apply pg_add_records_inv.
Qed.
End pg_reach.

(** In every state PostgreSQL reaches from empty tables, the index of a user with a session is
    the index of that user's rows, whether it is read from the cache or aggregated. *)
Theorem postgres_index_exact (t : Tables) (token : string) (user : User) (use_cache : bool) :
  rtc pg_step Tables.empty t → Tables.get_session_user t token = Ok user →
  ∃ st, PostgresDb.status use_cache t user = Ok st ∧
    ∀ s, Status.get st s = Status.get (Store.status (Tables.user_rows t (u_id user))) s.
Proof.
  intros Hr Hs. assert (postgres_ok t ∧ ids_below t) as [[_ Hc] _].
  { assert (∀ a b, rtc pg_step a b → postgres_ok a ∧ ids_below a → postgres_ok b ∧ ids_below b) as Hgen.
    { induction 1 as [|a b c Hab _ IH]; [done|]. intros. by eapply IH, pg_step_inv. }
    eapply Hgen; [exact Hr|]. split; split_and!.
    - intros u. split; constructor.
    - by intros x ?%not_elem_of_nil.
    - by intros x ?%not_elem_of_nil.
    - by intros x ?%not_elem_of_nil.
    - intros k v. unfold Tables.empty; simpl. by rewrite lookup_empty. }
  eexists. split; [done|]. intros s. apply postgres_status_get, Hc. by eapply session_user_exists.
Qed.

(** ** Accounts *)

Section accounts.
Context `{Argon2Laws} (settings : Settings).

Lemma filter_nil_iff {A} (P : A → Prop) `{∀ x, Decision (P x)} (l : list A) :
  (∀ x, x ∈ l → ¬ P x) → filter P l = [].
Proof.
  intros Hn. destruct (filter P l) as [|x l'] eqn:E; [done|exfalso].
  assert (x ∈ filter P l) as [HP Hin]%list_elem_of_filter by (rewrite E; left). by apply (Hn x).
Qed.

(** The ids of users and of the owners of sessions are behind the sequence. *)
Definition accounts_below (t : Tables) : Prop :=
  (∀ x, x ∈ users t → u_id x < next_user t) ∧ (∀ s, s ∈ sessions t → se_user_id s < next_user t).

(** The state right after a successful registration. *)
Lemma register_Ok_inv salt token username email password (db db' : Sqlite) tok :
  Handlers.register settings salt token username email password db = (db', Ok tok) →
  let t := sqlite db in
  let user := mk_user (next_user t) username email (hash_password salt password) in
  tok = token ∧
  (∀ x, x ∈ users t → u_username x ≠ username) ∧ (∀ s, s ∈ sessions t → se_token s ≠ token) ∧
  users (sqlite db') = users t ++ [user] ∧
  sessions (sqlite db') = sessions t ++ [mk_session (next_session t) (next_user t) token].
Proof.
  unfold Handlers.register. destruct (negb (open_registration settings)); [done|].
  destruct (negb _); [done|]. unfold st_bind, Handlers.lift_db. simpl.
  unfold on_sqlite, Tables.add_user, Tables.add_session. simpl.
  destruct (existsb (Tables.user_clash _) _) eqn:E1; [done|]. simpl.
  destruct (existsb _ (sessions (sqlite db))) eqn:E2; simpl; [done|]. intros [= <- <-].
  rewrite existsb_false in E1. rewrite existsb_false in E2. split_and!; [done| | |done|done].
  - intros x Hx%E1 He. unfold Tables.user_clash in Hx. rewrite bool_decide_eq_false in Hx.
    apply Hx. by left.
  - intros s Hs%E2. by rewrite bool_decide_eq_false in Hs.
Qed.

(** Once registered, a user can log in with the same password and gets the session token, and a
    request with that token is authenticated as that user. *)
Theorem register_then_login (salt : N) (token username email password tok : string) (db db' : Sqlite) :
  accounts_below (sqlite db) →
  Handlers.register settings salt token username email password db = (db', Ok tok) →
  Handlers.login username password db' = Ok tok ∧
  ∃ user, Handlers.user_auth (HeaderText ("Token " ++ tok)) db' = Ok user ∧ u_username user = username.
Proof.
  intros [Hu Hs] Hreg. apply register_Ok_inv in Hreg as (-> & Hnu & Hns & Husers & Hsess).
  set (user := mk_user _ _ _ _) in Husers.
  assert (Tables.get_user (sqlite db') username = Ok user) as Hget.
  { unfold Tables.get_user, Tables.fetch_one. rewrite Husers, filter_app, filter_nil_iff by done.
    simpl. by rewrite filter_cons_True. }
  assert (Tables.get_session_user (sqlite db') token = Ok user) as Hsu.
  { unfold Tables.get_session_user, Tables.fetch_one. rewrite Husers, Hsess, bind_app.
    match goal with |- context [head (?l ++ _)] => assert (l = []) as -> end.
    { destruct (_ ≫= _) as [|x l] eqn:E; [done|exfalso].
      assert (x ∈ x :: l) as Hx by left. rewrite <- E in Hx.
      apply list_elem_of_bind in Hx as (y & Hx & Hy). apply list_elem_of_bind in Hx as (s & Hx & Hsin).
      case_decide as Hc; [|by apply not_elem_of_nil in Hx]. destruct Hc as [Hc1 Hc2].
      apply elem_of_app in Hsin as [Hsin|Hsin]; [by apply (Hns s)|].
      apply list_elem_of_singleton in Hsin as ->. simpl in Hc1. apply Hu in Hy. lia. }
    rewrite app_nil_l. simpl. rewrite app_nil_r, bind_app.
    match goal with |- context [head (?l ++ _)] => assert (l = []) as -> end.
    { destruct (_ ≫= _) as [|x l] eqn:E; [done|exfalso].
      assert (x ∈ x :: l) as Hx by left. rewrite <- E in Hx.
      apply list_elem_of_bind in Hx as (s & Hx & Hsin).
      case_decide as Hc; [|by apply not_elem_of_nil in Hx]. destruct Hc as [_ Hc]. by apply (Hns s). }
    simpl. by rewrite decide_True. }
  split.
  - unfold Handlers.login. simpl. rewrite Hget. simpl.
    unfold Tables.get_user_session, Tables.fetch_one. rewrite Hsess, filter_app, filter_nil_iff.
    + simpl. rewrite filter_cons_True by done. simpl. unfold Handlers.verify_str. simpl.
      destruct (hash_verifies salt password) as (h & -> & ->). done.
    + intros s Hsin%Hs. simpl. lia.
  - exists user. split; [|done]. unfold Handlers.user_auth.
    assert (split_once Handlers.space ("Token " ++ token) = Some ("Token", token)) as ->.
    { unfold split_once. rewrite chars_app. simpl. by rewrite unchars_chars. }
    rewrite decide_True by done. simpl. by rewrite Hsu.
Qed.
End accounts.

(** Deleting an account empties its record table on PostgreSQL, while on SQLite every record of
    the account stays in the database. *)
Theorem sqlite_delete_user_keeps_records (u : User) (t : Tables) :
  Tables.user_rows (SqliteDb.delete_user u t).1 (u_id u) = Tables.user_rows t (u_id u) ∧
  Tables.user_rows (PostgresDb.delete_user u t).1 (u_id u) = [].
Proof.
  split; [done|]. unfold Tables.user_rows. simpl. rewrite user_rows_delete. by rewrite decide_True.
Qed.

(** ** Witnesses *)

#[export] Instance toy_argon : Argon2 := {|
  PwHash := string;
  parse_hash := Some;
  verify_password h p := bool_decide (h = p);
  hash_password _ p := p
|}.

#[export] Instance toy_argon_laws : Argon2Laws.
Proof. split. intros salt p. exists p. split; [done|]. simpl. by rewrite bool_decide_eq_true. Qed.

Definition srv_settings : Settings := mk_settings true 0.
Definition srv0 : Sqlite := mk_sqlite Tables.empty.
Definition srv1 : Sqlite := (Handlers.register srv_settings 0 "tok" "ellie" "e@x" "pw" srv0).1.
Definition user1 : User := mk_user 1 "ellie" "e@x" "pw".

Lemma register_then_login_witness :
  Handlers.login "ellie" "pw" srv1 = Ok "tok" ∧
  ∃ user, Handlers.user_auth (HeaderText ("Token " ++ "tok")) srv1 = Ok user ∧ u_username user = "ellie".
Proof.
  apply (register_then_login srv_settings 0 "tok" "ellie" "e@x" "pw" "tok" srv0 srv1).
  - split; by intros x ?%not_elem_of_nil.
  - vm_compute; reflexivity.
Defined.

Lemma record_post_visible_and_isolated_witness :
  ∃ db' st m, Handlers.record_post srv_settings (HeaderText "Token tok") [sample_enc] srv1 = (db', Ok tt) ∧
    Handlers.record_index (HeaderText "Token tok") db' = (db', Ok st) ∧
    Status.get st (series_key sample_enc) = Some m ∧
    Handlers.record_next (HeaderText "Token tok") (series_key sample_enc) (Some (r_idx sample_enc)) 1 db' = (db', Ok [sample_enc]).
Proof.
  destruct (record_post_visible_and_isolated srv_settings (HeaderText "Token tok") srv1 user1 [sample_enc])
    as (db' & st & Hpost & _ & Hidx & Hvis & _).
  - intros u. split; constructor.
  - vm_compute; reflexivity.
  - apply Forall_singleton. exact (proj1 sample_storable).
  - by left.
  - destruct (Hvis sample_enc) as (m & x & Hm & _ & Hx & _ & _ & He); [by apply list_elem_of_singleton|].
    exists db', st, m. split_and!; [done|done|done|]. rewrite Hx, He; [done| |].
    + intros y Hy. by apply not_elem_of_nil in Hy.
    + intros y Hy _. by apply list_elem_of_singleton in Hy.
Defined.

Definition strict_settings : Settings := mk_settings true 1.

Lemma rejected_requests_change_nothing_witness :
  Handlers.record_index NoHeader srv1 = (srv1, Err (mk_http 400 "missing authorization header")) ∧
  Handlers.record_post strict_settings (HeaderText "Token tok") [sample_enc] srv1 =
    (srv1, Err (mk_http 400 "could not add records; record too large")).
Proof.
  split.
  - exact (proj1 (proj2 (proj1 (rejected_requests_change_nothing strict_settings NoHeader srv1) _ eq_refl))).
  - apply (proj2 (rejected_requests_change_nothing strict_settings (HeaderText "Token tok") srv1)
      [sample_enc] sample_enc user1); [vm_compute; reflexivity|discriminate|left|vm_compute; reflexivity].
Defined.

Definition pg1 : Tables := (PostgresDb.add_user (mk_new_user "ellie" "e@x" "pw") Tables.empty).1.
Definition pg2 : Tables := (PostgresDb.add_session (mk_new_session 1 "tok") pg1).1.
Definition pg3 : Tables := (PostgresDb.add_records user1 [sample_enc] pg2).1.

Lemma postgres_index_exact_witness :
  Tables.get_session_user pg3 "tok" = Ok user1 ∧
  ∃ st, PostgresDb.status true pg3 user1 = Ok st ∧
    ∀ s, Status.get st s = Status.get (Store.status (Tables.user_rows pg3 (u_id user1))) s.
Proof.
  split; [vm_compute; reflexivity|].
  apply (postgres_index_exact pg3 "tok" user1 true); [|vm_compute; reflexivity].
  eapply rtc_l; [exact (pg_add_user (mk_new_user "ellie" "e@x" "pw") Tables.empty)|].
  eapply rtc_l; [exact (pg_add_session (mk_new_session 1 "tok") pg1)|].
  apply rtc_once. apply (pg_add_records user1 [sample_enc] pg2).
  - vm_compute. left.
  - apply Forall_singleton. exact (proj1 sample_storable).
Defined.
