(* ===== verification/ApiClient.v ===== *)
(** * Streaming the records of a series ([RecordsRequest] in [atuin-client/src/api_client.rs])

    Pages are requested at planned offsets; after the first short page the rest is fetched serially
    from the real progress. A stream is the list of the pages it yields and the error it ends with,
    if any. [page] is the request to the server, taken as a function of the range: the remote does
    not change while one stream runs. *)
From S2P Require Import Prelude Record Status Encryption SqliteStore Streams.

(** ** Definitions *)

Section stream.
Context {E : Type}.
(** [RecordsRequest::page]: the records of [start..end]. *)
Context (page : Z → Z → result (list enc_record) E).

Abbreviation stream_t := (list (list enc_record) * option E)%type (only parsing).

Definition page_len (p : list enc_record) : Z := Z.of_nat (length p).

(** The parallel phase: pages in order, until an error, an empty page or a short page. The last
    component is the progress at a short page. *)
Fixpoint parallel (plan : list (Z * Z)) (progress : Z) : stream_t * option Z :=
  match plan with
  | [] => (([], None), None)
  | (a, b) :: plan' =>
      match page a b with
      | Err e => (([], Some e), None)
      | Ok p =>
          if page_len p =? 0 then (([], None), None)
          else if page_len p <? b - a then (([p], None), Some (progress + page_len p))
          else
            let '((ps, err), short) := parallel plan' (progress + page_len p) in
            ((p :: ps, err), short)
      end
  end.

(** The serial finish: [unfold] from the real progress. Each round moves the cursor by a non-empty
    page, so the distance to the end is enough fuel. *)
Fixpoint recovery (fuel : nat) (cursor end_ size : Z) : stream_t :=
  match fuel with
  | O => ([], None)
  | S fuel' =>
      if end_ <=? cursor then ([], None)
      else
        match page cursor (Z.min (wrapping_add cursor size) end_) with
        | Err e => ([], Some e)
        | Ok p =>
            if page_len p =? 0 then ([], None)
            else
              let '(ps, err) := recovery fuel' (wrapping_add cursor (page_len p)) end_ size in
              (p :: ps, err)
        end
  end.

(** [RecordsRequest::stream] *)
Definition stream (c : Chunks.t) : stream_t :=
  let '((ps, err), short) := parallel (Chunks.collect c) 0 in
  match err, short with
  | None, Some progress =>
      let cursor := wrapping_add (Chunks.cursor c) progress in
      let '(ps', err') := recovery (Z.to_nat (Chunks.end_ c - cursor)) cursor (Chunks.end_ c) (Chunks.size c) in
      (ps ++ ps', err')
  | _, _ => (ps, err)
  end.

(** [RecordsRequest::one] *)
Definition one : result (option enc_record) E :=
  match stream (Chunks.new (0, 1) 1) with
  | (p :: _, _) => Ok (head p)
  | ([], Some e) => Err e
  | ([], None) => Ok None
  end.
End stream.

(** ** Pages of an honest server *)

Section honest.
Context {E : Type} (page : Z → Z → result (list enc_record) E).
Context (tbl : Store.t) (s : RecordSeriesKey).

(** A page is a non-empty prefix of what follows its start, no longer than asked for, and empty only
    when nothing follows. *)
Definition honest_page (a b : Z) : Prop :=
  ∃ n : nat, page a b = Ok (take n (series_from tbl s a)) ∧ Z.of_nat n ≤ b - a ∧
    (series_from tbl s a ≠ [] → (0 < n)%nat).

Context (Hwf : rows_wf tbl) (Hc : Tag.canonical (s_tag s) = true).
Context (Hpage : ∀ a b, fits_i64 a → a < b ≤ i64_limit → fits_i64 (b - a) → honest_page a b).

(** A run of pages covers the places from [a] up to [b]. *)
Definition covers (ps : list (list enc_record)) (a b : Z) : Prop :=
  ∀ x, x ∈ Store.load_all tbl → series_key x = s → a ≤ r_idx x < b → x ∈ concat ps.

(** What a non-empty page of records from [a] on holds: everything up to the position its length
    alone accounts for. *)
Lemma page_covers a n :
  fits_i64 a → (n ≤ length (series_from tbl s a))%nat →
  ∀ x, x ∈ Store.load_all tbl → series_key x = s → a ≤ r_idx x < a + Z.of_nat n →
  x ∈ take n (series_from tbl s a).
Proof.
  intros Ha Hn x Hx Hs Hi.
  assert (x ∈ series_from tbl s a) as Hin by (apply elem_of_series_from; [done..|]; split_and!; [done..|lia]).
  pose proof (series_from_sorted tbl s a Hwf) as Hsort.
  rewrite <- (take_drop n (series_from tbl s a)) in Hin, Hsort.
  apply elem_of_app in Hin as [?|Hin]; [done|exfalso].
  apply StronglySorted_app in Hsort as (Hlt & Hs1 & _).
  (* the first [n] indices are distinct integers from [a] on, all below [x]'s *)
  assert (∀ l : list enc_record, StronglySorted (λ a b : enc_record, r_idx a < r_idx b) l →
    ∀ lo hi, (∀ y, y ∈ l → lo ≤ r_idx y < hi) → lo ≤ hi → lo + Z.of_nat (length l) ≤ hi) as Hcount.
  { clear. induction 1 as [|y l Hs IH Hall]; intros lo hi Hb Hle; simpl; [lia|].
    assert (lo ≤ r_idx y < hi) as Hy by (apply Hb; left).
    specialize (IH (r_idx y + 1) hi). rewrite Nat2Z.inj_succ.
    assert (r_idx y + 1 + Z.of_nat (length l) ≤ hi); [|lia]. apply IH; [|lia].
    intros z Hz. eapply Forall_forall in Hall; [|exact Hz]. assert (lo ≤ r_idx z < hi) by (apply Hb; by right). lia. }
  specialize (Hcount _ Hs1 a (r_idx x)). rewrite length_take in Hcount.
  assert (a + Z.of_nat (n `min` length (series_from tbl s a)) ≤ r_idx x); [|lia].
  apply Hcount; [|lia]. intros y Hy. split; [|by apply Hlt].
  assert (y ∈ series_from tbl s a) as Hy' by (eapply subseteq_take, Hy).
  by apply elem_of_series_from in Hy' as (_ & _ & ?).
Qed.

(** What a prefix of the records from [a] on says about the table. *)
Lemma prefix_spec a n :
  fits_i64 a → (series_from tbl s a ≠ [] → (0 < n)%nat) →
  let p := take n (series_from tbl s a) in
  covers [p] a (a + page_len p) ∧
  (page_len p = 0 → ∀ x, x ∈ Store.load_all tbl → series_key x = s → r_idx x < a) ∧
  ∀ x, x ∈ p → x ∈ Store.load_all tbl ∧ series_key x = s ∧ a ≤ r_idx x.
Proof.
  intros Ha Hne p. unfold p, page_len. rewrite length_take. split_and!.
  - intros x Hx Hs Hi. simpl. rewrite app_nil_r.
    assert (x ∈ take (n `min` length (series_from tbl s a)) (series_from tbl s a)) as Hin.
    { apply page_covers; try done. lia. }
    rewrite <- firstn_firstn in Hin. rewrite firstn_all in Hin. done.
  - intros H0 x Hx Hs. destruct (decide (r_idx x < a)) as [|Hge]; [done|exfalso].
    assert (x ∈ series_from tbl s a) as Hin by (apply elem_of_series_from; [done..|]; split_and!; [done..|lia]).
    assert (series_from tbl s a ≠ []) as Hs0 by (intros He; rewrite He in Hin; by apply not_elem_of_nil in Hin).
    specialize (Hne Hs0). destruct (series_from tbl s a); [done|]. simpl in H0. lia.
  - intros x Hx%subseteq_take. by apply elem_of_series_from in Hx.
Qed.

Lemma honest_page_spec a b :
  fits_i64 a → a < b ≤ i64_limit → fits_i64 (b - a) →
  ∃ p, page a b = Ok p ∧ page_len p ≤ b - a ∧ covers [p] a (a + page_len p) ∧
    (page_len p = 0 → ∀ x, x ∈ Store.load_all tbl → series_key x = s → r_idx x < a) ∧
    ∀ x, x ∈ p → x ∈ Store.load_all tbl ∧ series_key x = s ∧ a ≤ r_idx x.
Proof.
  intros Ha Hab Hba. destruct (Hpage a b Ha Hab Hba) as (n & Hp & Hn & Hne).
  exists (take n (series_from tbl s a)). destruct (prefix_spec a n Ha Hne) as (? & ? & ?).
  split_and!; try done. unfold page_len. rewrite length_take. lia.
Qed.

Lemma covers_app ps ps' a m b : covers ps a m → covers ps' m b → covers (ps ++ ps') a b.
Proof.
  intros H1 H2 x Hx Hs Hi. rewrite concat_app. apply elem_of_app.
  destruct (decide (r_idx x < m)); [left; apply H1|right; apply H2]; try done; lia.
Qed.

Lemma covers_none ps a b :
  (∀ x, x ∈ Store.load_all tbl → series_key x = s → r_idx x < a) → covers ps a b.
Proof. intros Hn x Hx Hs Hi. specialize (Hn x Hx Hs). lia. Qed.

(** Only records of the series are yielded. *)
Definition sound (ps : list (list enc_record)) : Prop :=
  ∀ x, x ∈ concat ps → x ∈ Store.load_all tbl ∧ series_key x = s.

Lemma recovery_spec fuel cursor end_ size :
  0 ≤ cursor → end_ ≤ i64_limit → 0 < size → fits_i64 size →
  (Z.to_nat (end_ - cursor) ≤ fuel)%nat →
  ∃ ps, recovery page fuel cursor end_ size = (ps, None) ∧ covers ps cursor end_ ∧ sound ps.
Proof.
  revert cursor; induction fuel as [|fuel IH]; intros cursor Hcur Hend Hsize Hov Hf; simpl.
  { exists []. split_and!; [done|intros x; lia|by intros x ?%not_elem_of_nil]. }
  destruct (Z.leb_spec end_ cursor) as [|Hlt].
  { exists []. split_and!; [done|intros x; lia|by intros x ?%not_elem_of_nil]. }
  unfold fits_i64, i64_limit in *.
  rewrite (wrapping_add_exact cursor size) by wrap_lia.
  destruct (honest_page_spec cursor (Z.min (cursor + size) end_)) as (p & Hp & Hlen & Hcov & Hempty & Hsound);
    [unfold fits_i64, i64_limit; lia..|]. rewrite Hp.
  destruct (Z.eqb_spec (page_len p) 0) as [H0|H0].
  - exists []. split_and!; [done|apply covers_none; by apply Hempty|by intros x ?%not_elem_of_nil].
  - assert (0 < page_len p) as Hpos by (unfold page_len in *; lia).
    rewrite (wrapping_add_exact cursor (page_len p)) by wrap_lia.
    destruct (IH (cursor + page_len p)) as (ps & -> & Hps & Hps'); [lia..|].
    exists (p :: ps). split_and!; [done| |].
    + by apply (covers_app [p] ps _ (cursor + page_len p)).
    + intros x. simpl. rewrite elem_of_app. intros [Hx|Hx]; [apply Hsound in Hx; tauto|by apply Hps'].
Qed.

Lemma parallel_spec w plan a b :
  tiles w a b plan → fits_i64 w → 0 ≤ a → b ≤ i64_limit → ∀ progress,
  ∃ ps short, parallel page plan progress = ((ps, None), short) ∧ sound ps ∧
    match short with
    | None => covers ps a b
    | Some q => progress < q ≤ progress + (b - a) ∧ covers ps a (a + (q - progress))
    end.
Proof.
  intros Ht Hfw. induction Ht as [a|a m b plan Ham Hw Ht IH]; intros Ha Hb progress; simpl.
  { exists [], None. split_and!; [done|by intros x ?%not_elem_of_nil|intros x; lia]. }
  pose proof (tiles_le _ _ _ _ Ht) as Hmb.
  destruct (honest_page_spec a m) as (p & Hp & Hlen & Hcov & Hempty & Hsound); [unfold fits_i64 in *; lia..|].
  rewrite Hp. destruct (Z.eqb_spec (page_len p) 0) as [H0|H0].
  - exists [], None. split_and!; [done|by intros x ?%not_elem_of_nil|apply covers_none; by apply Hempty].
  - assert (0 < page_len p) as Hpos by (unfold page_len in *; lia).
    assert (sound [p]) as Hs1.
    { intros x. simpl. rewrite app_nil_r. intros Hx%Hsound. tauto. }
    destruct (Z.ltb_spec (page_len p) (m - a)) as [Hshort|Hfull].
    + exists [p], (Some (progress + page_len p)). split_and!; [done|done|lia|lia|].
      by replace (a + (progress + page_len p - progress)) with (a + page_len p) by lia.
    + destruct (IH) with (progress := progress + page_len p) as (ps & short & -> & Hs & Hspec);
        [lia..|].
      exists (p :: ps), short. split_and!; [done| |].
      * intros x. simpl. rewrite elem_of_app. intros [Hx|Hx]; [apply Hsound in Hx; tauto|by apply Hs].
      * replace (a + page_len p) with m in Hcov by lia. destruct short as [q|].
        -- destruct Hspec as [[Hq1 Hq2] Hq]. split_and!; [lia|lia|].
           apply (covers_app [p] ps _ m); [done|].
           by replace (a + (q - progress)) with (m + (q - (progress + page_len p))) by lia.
        -- by apply (covers_app [p] ps _ m).
Qed.

Lemma stream_spec a b size :
  0 ≤ a ≤ b → b ≤ i64_limit → 0 < size → fits_i64 size →
  ∃ ps, stream page (Chunks.new (a, b) size) = (ps, None) ∧ covers ps a b ∧ sound ps.
Proof.
  intros Hab Hb Hsize Hfs. unfold stream.
  assert (tiles (Z.max 1 size) a b (Chunks.collect (Chunks.new (a, b) size))) as Ht.
  { unfold Chunks.collect, Chunks.new, Chunks.into_nonzero_saturating. simpl fst; simpl snd.
    destruct (Z.eqb_spec size 0); [lia|]. replace (Z.max 1 size) with size by lia.
    apply (chunks_collect_tiles _ (Chunks.mk a b size)); simpl; unfold fits_i64, i64_limit, is_u64, u64_limit in *; lia. }
  assert (fits_i64 (Z.max 1 size)) as Hfw by (by replace (Z.max 1 size) with size by lia).
  destruct (parallel_spec _ _ _ _ Ht Hfw (proj1 Hab) Hb 0) as (ps & short & -> & Hs & Hspec).
  destruct short as [q|]; [|eauto]. destruct Hspec as [[Hq1 Hq2] Hq].
  assert (Chunks.size (Chunks.new (a, b) size) = size) as Hsz.
  { unfold Chunks.new, Chunks.into_nonzero_saturating; simpl. destruct (Z.eqb_spec size 0); lia. }
  rewrite Hsz. simpl Chunks.cursor. simpl Chunks.end_. rewrite (wrapping_add_exact a q) by wrap_lia.
  destruct (recovery_spec (Z.to_nat (b - (a + q))) (a + q) b size) as (ps' & -> & Hc' & Hs');
    [lia|done..|lia|].
  exists (ps ++ ps'). split_and!; [done| |].
  - apply (covers_app ps ps' _ (a + q)); [|done]. by replace (a + q) with (a + (q - 0)) by lia.
  - intros x. rewrite concat_app, elem_of_app. intros [Hx|Hx]; auto.
Qed.
End honest.

(** ** Theorems *)

(** Against a server whose pages are honest, though they may be shorter than asked for, the
    stream of a range ends without an error, yields only records of the series, and yields every
    record the server has in the range, whatever holes the series has. *)
Theorem stream_complete {E : Type} (page : Z → Z → result (list enc_record) E) (tbl : Store.t)
    (s : RecordSeriesKey) (a b size : Z) :
  rows_wf tbl → Tag.canonical (s_tag s) = true →
  (∀ a b, fits_i64 a → a < b ≤ i64_limit → fits_i64 (b - a) → honest_page page tbl s a b) →
  0 ≤ a ≤ b → b ≤ i64_limit → 0 < size → fits_i64 size →
  ∃ ps, stream page (Chunks.new (a, b) size) = (ps, None) ∧
    (∀ x, x ∈ concat ps → x ∈ Store.load_all tbl ∧ series_key x = s) ∧
    (∀ x, x ∈ Store.load_all tbl → series_key x = s → a ≤ r_idx x < b → x ∈ concat ps).
Proof.
  intros Hwf Hc Hpage Hab Hb Hsize Hf.
  destruct (stream_spec page tbl s Hwf Hc Hpage a b size Hab Hb Hsize Hf) as (ps & ? & ? & ?). eauto.
Qed.

(** Reading a table directly is an honest page, at most [limit] records at a time. *)
Lemma next_honest {E} (tbl : Store.t) (s : RecordSeriesKey) (limit a b : Z) :
  0 < limit → a < b → fits_i64 (b - a) →
  honest_page (λ a b, Ok (E := E) (Store.next tbl s a (Z.min limit (b - a)))) tbl s a b.
Proof.
  intros Hl Hab Hf. exists (Z.to_nat (Z.min limit (b - a))). unfold fits_i64 in Hf.
  rewrite next_take by (unfold fits_i64; lia). split_and!; [done|lia|]. intros _. lia.
Qed.

(** ** Witnesses *)

(** A series with a hole at index 2, read one record at a time. *)
Definition at_idx (i : Z) : enc_record :=
  mk_record (Z.to_N (100 + i)) i 2 5 V1 History (mk_encrypted "r" "c").
Definition holed : Store.t := Store.push_batch Store.empty [at_idx 0; at_idx 1; at_idx 3; at_idx 4].

Lemma at_idx_storable i : fits_i64 i → storable (at_idx i).
Proof. intros Hi. split_and!; [done|split; vm_compute; congruence|reflexivity|reflexivity]. Qed.

Lemma holed_wf : store_wf holed.
Proof.
  apply push_batch_wf; [apply empty_wf|].
  repeat apply Forall_cons_2; try apply at_idx_storable; try apply Forall_nil_2; (split; vm_compute; congruence).
Qed.

Lemma stream_complete_witness :
  stream (λ a b, Ok (E := string) (Store.next holed series1 a (Z.min 1 (b - a)))) (Chunks.new (0, 5) 2) =
    ([[at_idx 0]; [at_idx 1]; [at_idx 3]; [at_idx 3]; [at_idx 4]], None) ∧
  ∃ ps, stream (λ a b, Ok (E := string) (Store.next holed series1 a (Z.min 1 (b - a)))) (Chunks.new (0, 5) 2) = (ps, None) ∧
    (∀ x, x ∈ concat ps → x ∈ Store.load_all holed ∧ series_key x = series1) ∧
    (∀ x, x ∈ Store.load_all holed → series_key x = series1 → 0 ≤ r_idx x < 5 → x ∈ concat ps).
Proof.
  split; [vm_compute; reflexivity|].
  apply (stream_complete _ holed series1 0 5 2).
  - apply holed_wf.
  - reflexivity.
  - intros a b _ Hab Hf. apply next_honest; lia || done.
  - lia.
  - vm_compute; congruence.
  - lia.
  - split; vm_compute; congruence.
Defined.
