(* ===== verification/Log.v ===== *)
(** * Event logs over the record store

    The history, key-value, script, alias and variable stores share one shape: an event is
    serialized, encrypted and pushed as the next record of the host's series of the store's tag
    ([push_record] of each store), and the store is read by decrypting and decoding every record of
    the tag in time order, skipping the ones that fail. [EventCodec] is what a store provides,
    [EventCodecLaws] what it proves; the log's theorems are proved once against them. *)
From S2P Require Import Prelude Record Rmp Encryption SqliteStore.

(** ** Errors *)

(** An [eyre::Report] built while decoding. *)
Inductive Eyre : Type :=
| EyreMsg (s : string)
| EyreValue (e : ValueReadError)
| EyreStr (e : DecodeStringError)
| EyreDecode (e : DecodeError).

(** ** The interface *)

(** [ev_known] are the versions the store's reader attempts; writing into a [Vec] does not fail. *)
Class EventCodec (A : Type) : Type := {
  ev_tag : RecordTag;
  ev_version : RecordVersion;
  ev_known : RecordVersion → bool;
  ev_serialize : A → list Z;
  ev_deserialize : list Z → RecordVersion → result A Eyre
}.
Arguments ev_tag A {_}.
Arguments ev_version A {_}.
Arguments ev_known A {_}.

Class EventCodecLaws (A : Type) `{EventCodec A} : Type := {
  ev_ok : A → Prop;
  ev_tag_canonical : Tag.canonical (ev_tag A) = true;
  ev_version_canonical : Version.canonical (ev_version A) = true;
  ev_version_known : ev_known A (ev_version A) = true;
  ev_roundtrip a : ev_ok a → ev_deserialize (ev_serialize a) (ev_version A) = Ok a
}.

(** ** Definitions *)

(** What one record draws from outside: the id and time of [Record::builder], and the randomness of
    its encryption. *)
Section draw.
Context `{Crypto}.

Record Draw : Type := mk_draw { draw_id : RecordId; draw_now : Z; draw_entropy : Entropy }.
End draw.

Section log.
Context `{Crypto} {A : Type} `{EventCodec A}.

(** [last(series).map_or(0, |p| p.idx + 1)] *)
Definition next_idx (st : Store.t) (s : RecordSeriesKey) : RecordIdx :=
  match Store.last st s with Some p => wrapping_add (r_idx p) 1 | None => 0 end.

(** The plaintext record of an event. *)
Definition event_record (d : Draw) (host : HostId) (idx : RecordIdx) (a : A) : record (list Z) :=
  mk_record (draw_id d) idx host (draw_now d) (ev_version A) (ev_tag A) (ev_serialize a).

(** [push_record]; an error is the panic of [encrypt]. *)
Definition push_event (d : Draw) (k : key) (host : HostId) (a : A)
    : stm Store.t EncryptionError (RecordId * RecordIdx) := λ st,
  let idx := next_idx st (mk_series host (ev_tag A)) in
  match encrypt (draw_entropy d) k (event_record d host idx a) with
  | Err e => (st, Err e)
  | Ok r => (Store.push st r, Ok (draw_id d, idx))
  end.

(** A record's event, unless its version is unknown or it fails to decrypt or decode. *)
Definition read_event (k : key) (r : enc_record) : option A :=
  if ev_known A (r_version r) then
    match decrypt k r with
    | Ok p => res_ok (ev_deserialize (r_data p) (r_version p))
    | Err _ => None
    end
  else None.

(** The events of a store, oldest first. *)
Definition read_log (k : key) (st : Store.t) : list A :=
  omap (read_event k) (Store.all_tagged st (ev_tag A)).
End log.

(** ** Lemmas *)

(** The next record can be appended: its id is new, its clock is ahead of the log's and nothing is
    at the limit of its column. *)
Record appendable `{Crypto} (st : Store.t) (tag : RecordTag) (d : Draw) : Prop := mk_appendable {
  ap_entropy : entropy_ok (draw_entropy d);
  ap_fresh r : r ∈ Store.load_all st → r_id r ≠ draw_id d;
  ap_clock r : r ∈ Store.load_all st → r_tag r = tag → r_timestamp r < draw_now d;
  ap_now : fits_i64 (draw_now d);
  ap_room r : r ∈ Store.load_all st → r_idx r + 1 < i64_limit
}.

Section log_laws.
Context `{CryptoLaws} {A : Type} `{EventCodecLaws A}.
Implicit Types (st : Store.t) (d : Draw) (k : key) (a : A).

Lemma next_idx_spec st s :
  rows_wf st → Tag.canonical (s_tag s) = true → (∀ r, r ∈ Store.load_all st → r_idx r + 1 < i64_limit) →
  fits_i64 (next_idx st s) ∧ ∀ i, has_idx st s i → i < next_idx st s.
Proof.
  intros Hwf Hc Hroom. unfold next_idx. destruct (Store.last st s) as [p|] eqn:E.
  - apply last_spec in E as (Hp & _ & Hmax); [|done..]. specialize (Hroom p Hp).
    destruct (load_all_storable st p Hwf Hp) as [[Hp0 _] _].
    rewrite wrapping_add_exact by wrap_lia.
    split; [unfold fits_i64; lia|]. intros i Hi. specialize (Hmax i Hi). lia.
  - pose proof (proj1 (last_None st s Hwf Hc) E) as Hnone. split; [unfold fits_i64, i64_limit; lia|]. intros i Hi. by apply Hnone in Hi.
Qed.

Lemma all_tagged_snoc st r tag :
  storable r → (∀ x, x ∈ Store.load_all st → r_tag x = tag → r_timestamp x < r_timestamp r) → rows_wf st →
  Tag.canonical tag = true →
  Store.all_tagged (st ++ [Store.to_row r]) tag =
    if decide (r_tag r = tag) then Store.all_tagged st tag ++ [r] else Store.all_tagged st tag.
Proof.
  intros Hr Hclock Hwf Hc. unfold Store.all_tagged. rewrite filter_app.
  destruct (decide (r_tag r = tag)) as [<-|Hne].
  - rewrite filter_cons_True, filter_nil by done. unfold sort_by_key. rewrite sort_by_snoc.
    + rewrite fmap_app. simpl. by rewrite from_to_row.
    + intros row [Ht Hin]%list_elem_of_filter. apply leb_Z. simpl.
      pose proof (row_wf st row Hwf Hin) as [Hf1 Hf2]. destruct Hr as (_ & Hr2 & _ & _).
      rewrite u64_as_i64_fits by done.
      specialize (Hclock (Store.from_row row)). simpl in Hclock. rewrite i64_as_u64_fits in Hclock by done.
      assert (row_timestamp row < r_timestamp r); [|lia]. apply Hclock; [by apply list_elem_of_fmap_2|].
      rewrite Ht. by apply tag_canonical_spec.
  - rewrite filter_cons_False, filter_nil; [by rewrite app_nil_r|]. simpl. intros He. apply Hne.
    destruct Hr as (_ & _ & Ht & _). by apply tag_as_str_inj.
Qed.

(** The record that a push appends. *)
Lemma push_event_spec st d k host a :
  store_wf st → appendable st (ev_tag A) d →
  ∃ r, encrypt (draw_entropy d) k (event_record d host (next_idx st (mk_series host (ev_tag A))) a) = Ok r ∧
    push_event d k host a st = (st ++ [Store.to_row r], Ok (draw_id d, next_idx st (mk_series host (ev_tag A)))) ∧
    store_wf (st ++ [Store.to_row r]) ∧ storable r ∧
    (∃ data, r = with_data data (event_record d host (next_idx st (mk_series host (ev_tag A))) a)) ∧
    Store.load_all (st ++ [Store.to_row r]) = Store.load_all st ++ [r].
Proof.
  intros Hwf [He Hfresh Hclock Hnow Hroom]. set (s := mk_series host (ev_tag A)).
  set (p := event_record d host (next_idx st s) a).
  destruct (encrypt_sync_total (draw_entropy d) (r_data p) (Some (ad_to_json (additional_data p))) k He) as [data Hdata].
  assert (encrypt (draw_entropy d) k p = Ok (with_data data p)) as Hen by (unfold encrypt; by rewrite Hdata).
  destruct (next_idx_spec st s) as [Hfit Hmax]; [done|apply ev_tag_canonical|done|].
  assert (storable (with_data data p)) as Hst.
  { split_and!; [done|done|apply ev_tag_canonical|apply ev_version_canonical]. }
  assert (Store.push st (with_data data p) = st ++ [Store.to_row (with_data data p)]) as Hpush.
  { unfold Store.push, Store.push_batch. simpl foldl.
    destruct (save_raw_cases st (with_data data p) Hwf Hst) as [[_ (x & Hx & [Hc|[Hc1 Hc2]])]|[-> _]]; [..|done].
    - by destruct (Hfresh x Hx).
    - assert (r_idx x < next_idx st s); [apply Hmax; by exists x|]. simpl in Hc2. lia. }
  exists (with_data data p). split_and!; try done.
  - unfold push_event. fold s p. rewrite Hen. by rewrite Hpush.
  - rewrite <- Hpush. apply push_batch_wf; [done|]. by apply Forall_singleton.
  - by exists data.
  - unfold Store.load_all. rewrite fmap_app. simpl. by rewrite from_to_row.
Qed.

Lemma read_event_pushed d k host i a r :
  ev_ok a → encrypt (draw_entropy d) k (event_record d host i a) = Ok r → read_event k r = Some a.
Proof.
  intros Ha Hen. unfold read_event. rewrite (decrypt_encrypt _ _ _ _ Hen).
  apply encrypt_meta in Hen as (data & -> & _). simpl.
  by rewrite ev_version_known, ev_roundtrip.
Qed.

Lemma push_event_log st d k host a :
  store_wf st → appendable st (ev_tag A) d → ev_ok a →
  ∃ st', push_event d k host a st = (st', Ok (draw_id d, next_idx st (mk_series host (ev_tag A)))) ∧
    store_wf st' ∧ read_log k st' = read_log k st ++ [a].
Proof.
  intros Hwf Hap Ha.
  destruct (push_event_spec st d k host a Hwf Hap) as (r & Hen & Hpush & Hwf' & Hst & (data & Hr) & _).
  exists (st ++ [Store.to_row r]). split_and!; [done|done|].
  unfold read_log. rewrite all_tagged_snoc; [|done| |done|apply ev_tag_canonical].
  - rewrite decide_True by (by subst r). rewrite omap_app. cbn [omap list_omap].
    by rewrite (read_event_pushed _ _ _ _ _ _ Ha Hen).
  - intros x Hx Ht. subst r. by apply (ap_clock _ _ _ Hap).
Qed.

(** Another tag's log does not see the record. *)
Lemma push_event_other {B} `{EventCodecLaws B} st d k host a :
  ev_tag B ≠ ev_tag A → read_log (A := B) k (push_event d k host a st).1 = read_log k st.
Proof.
  intros Hne. unfold push_event. destruct (encrypt _ _ _) as [r|e] eqn:Hen; [|done].
  apply encrypt_meta in Hen as (data & -> & _). simpl.
  unfold Store.push, Store.push_batch, Store.save_raw. simpl. destruct (existsb _ st); [done|].
  unfold read_log, Store.all_tagged. rewrite filter_app, filter_cons_False, filter_nil; [by rewrite app_nil_r|].
  simpl. intros He. apply Hne. symmetry. apply tag_as_str_inj; [apply ev_tag_canonical..|done].
Qed.
End log_laws.

(** ** Theorems *)

(** Pushing an event succeeds, puts the record after every index of the host's series, and a
    reader of the log then sees the events it saw before followed by the new one; the log of any
    other tag reads as before. *)
Theorem log_reads_its_writes `{CryptoLaws} {A B : Type} `{EventCodecLaws A, EventCodecLaws B}
    (st : Store.t) (d : Draw) (k : key) (host : HostId) (a : A) :
  store_wf st → appendable st (ev_tag A) d → ev_ok a → ev_tag B ≠ ev_tag A →
  ∃ st' i, push_event d k host a st = (st', Ok (draw_id d, i)) ∧ store_wf st' ∧
    (∀ j, has_idx st (mk_series host (ev_tag A)) j → j < i) ∧
    read_log k st' = read_log k st ++ [a] ∧
    read_log (A := B) k st' = read_log k st.
Proof.
  intros Hwf Hap Ha Hne.
  destruct (push_event_log st d k host a Hwf Hap Ha) as (st' & Hpush & Hwf' & Hlog).
  exists st', (next_idx st (mk_series host (ev_tag A))). split_and!; [done|done| |done|].
  - apply next_idx_spec; [done|apply ev_tag_canonical|apply Hap].
  - rewrite <- (push_event_other (B := B) st d k host a Hne). by rewrite Hpush.
Qed.
