(* ===== verification/Kv.v ===== *)
(** * The key-value store ([atuin-kv])

    [KvRecord] and its codec, the table [kv] of the cache database, and [KvStore]: [set] and
    [delete] write to the log and to the cache, [build] recomputes the cache from the log. *)
From S2P Require Import Prelude Text Record Status Rmp RmpWire Encryption SqliteStore Log.

(** ** Records ([store/record.rs]) *)

Record KvRecord : Type := mk_kv { kv_namespace : string; kv_key : string; kv_value : option string }.

Section kv_codec.
Context `{Rmp}.

(** [KvRecord::serialize] *)
Definition kv_serialize (r : KvRecord) : list Z :=
  write_array_len 4 ++ write_str (kv_namespace r) ++ write_str (kv_key r)
  ++ write_bool (bool_decide (is_Some (kv_value r)))
  ++ match kv_value r with Some v => write_str v | None => [] end.

(** [KvRecord::deserialize] *)
Definition kv_deserialize (data : list Z) (version : RecordVersion) : result KvRecord Eyre :=
  match version with
  | V0 =>
      let '(bytes, n) := read_array_len data in
      let? nfields := map_err EyreValue n in
      if nfields =? 3 then
        let? (namespace, bytes) := map_err EyreStr (read_str_from_slice bytes) in
        let? (k, bytes) := map_err EyreStr (read_str_from_slice bytes) in
        let? (value, bytes) := map_err EyreStr (read_str_from_slice bytes) in
        match bytes with
        | [] => Ok (mk_kv namespace k (Some value))
        | _ => Err (EyreMsg "trailing bytes in encoded kvrecord. malformed")
        end
      else Err (EyreMsg "too many entries in v0 kv record")
  | V1 =>
      let '(bytes, n) := read_array_len data in
      let? nfields := map_err EyreValue n in
      if nfields =? 4 then
        let? (namespace, bytes) := map_err EyreStr (read_str_from_slice bytes) in
        let? (k, bytes) := map_err EyreStr (read_str_from_slice bytes) in
        let '(bytes, b) := read_bool bytes in
        let? has_value := map_err EyreValue b in
        let? (value, bytes) :=
          if has_value
          then let? (v, bytes) := map_err EyreStr (read_str_from_slice bytes) in Ok (Some v, bytes)
          else Ok (None, bytes) in
        match bytes with
        | [] => Ok (mk_kv namespace k value)
        | _ => Err (EyreMsg "trailing bytes in encoded kvrecord. malformed")
        end
      else Err (EyreMsg "too many entries in v1 kv record")
  | _ => Err (EyreMsg "unknown version")
  end.
End kv_codec.

#[export] Instance kv_codec `{Rmp} : EventCodec KvRecord := {|
  ev_tag := Kv;
  ev_version := V1;
  ev_known v := match v with V0 | V1 => true | _ => false end;
  ev_serialize := kv_serialize;
  ev_deserialize := kv_deserialize
|}.

(** ** The cache ([database.rs]) *)

(** [KvEntry] *)
Record KvEntry : Type := mk_entry { en_namespace : string; en_key : string; en_value : string }.

Module KvDb.

(** The table [kv], unique by namespace and key. *)
Abbreviation t := (gmap (string * string) string) (only parsing).

(** [save]: insert, or update on conflict. *)
Definition save (db : t) (e : KvEntry) : t := <[(en_namespace e, en_key e) := en_value e]> db.

Definition delete (db : t) (namespace k : string) : t := base.delete (namespace, k) db.

Definition load (db : t) (namespace k : string) : option KvEntry :=
  mk_entry namespace k <$> db !! (namespace, k).

Definition entry_of (p : string * string * string) : KvEntry := mk_entry p.1.1 p.1.2 p.2.

(** [list]: order by key within a namespace, by namespace and key without. *)
Definition list (db : t) (namespace : option string) : list KvEntry :=
  match namespace with
  | Some ns => sort_by_key en_key (filter (λ e, en_namespace e = ns) (entry_of <$> map_to_list db))
  | None => sort_by_key (λ e, (en_namespace e, en_key e)) (entry_of <$> map_to_list db)
  end.

End KvDb.

(** ** The store ([store.rs]) *)

Record KvState : Type := mk_kv_state { record_store : Store.t; kv_db : KvDb.t }.

Module KvStore.
Section kv_store.
Context `{Rmp, Crypto} (k : key) (host_id : HostId).

(** [push_record] *)
Definition push_record (d : Draw) (r : KvRecord) : stm KvState EncryptionError (RecordId * RecordIdx) := λ s,
  let '(st, res) := push_event d k host_id r (record_store s) in (mk_kv_state st (kv_db s), res).

Definition on_db (f : KvDb.t → KvDb.t) : stm KvState EncryptionError unit := λ s,
  (mk_kv_state (record_store s) (f (kv_db s)), Ok tt).

(** [set] *)
Definition set (d : Draw) (namespace ky value : string) : stm KvState EncryptionError unit :=
  let! _ := push_record d (mk_kv namespace ky (Some value)) in
  on_db (λ db, KvDb.save db (mk_entry namespace ky value)).

(** [get] *)
Definition get (s : KvState) (namespace ky : string) : option string :=
  en_value <$> KvDb.load (kv_db s) namespace ky.

(** [delete]: each key with what its record draws. *)
Fixpoint delete (namespace : string) (keys : list (string * Draw)) : stm KvState EncryptionError unit :=
  match keys with
  | [] => st_ret tt
  | (ky, d) :: keys' =>
      let! _ := push_record d (mk_kv namespace ky None) in
      let! _ := on_db (λ db, KvDb.delete db namespace ky) in
      delete namespace keys'
  end.

(** [format!("{}.{}", namespace, key)] *)
Definition uniq_id (namespace ky : string) : string := namespace ++ "." ++ ky.

(** The body of [build]'s first loop. *)
Definition apply_newest (acc : KvDb.t * gset string) (r : KvRecord) : KvDb.t * gset string :=
  let id := uniq_id (kv_namespace r) (kv_key r) in
  if decide (id ∈ acc.2) then acc
  else
    (match kv_value r with
     | Some v => KvDb.save acc.1 (mk_entry (kv_namespace r) (kv_key r) v)
     | None => KvDb.delete acc.1 (kv_namespace r) (kv_key r)
     end, {[id]} ∪ acc.2).

(** The body of the second loop. *)
Definition drop_unvisited (visited : gset string) (db : KvDb.t) (e : KvEntry) : KvDb.t :=
  if decide (uniq_id (en_namespace e) (en_key e) ∈ visited) then db
  else KvDb.delete db (en_namespace e) (en_key e).

(** [build] *)
Definition build (s : KvState) : KvState :=
  let tagged := reverse (Store.all_tagged (record_store s) Kv) in
  let cached := KvDb.list (kv_db s) None in
  let '(db, visited) := foldl apply_newest (kv_db s, ∅) (omap (read_event k) tagged) in
  mk_kv_state (record_store s) (foldl (drop_unvisited visited) db cached).
End kv_store.
End KvStore.

(** ** Lemmas on the codec *)

Definition kv_ok `{Rmp} (r : KvRecord) : Prop :=
  is_str (kv_namespace r) ∧ is_str (kv_key r) ∧ ∀ v, kv_value r = Some v → is_str v.

Section kv_codec_laws.
Context `{RmpLaws}.

Lemma kv_roundtrip r : kv_ok r → kv_deserialize (kv_serialize r) V1 = Ok r.
Proof.
  intros (Hns & Hk & Hv). unfold kv_deserialize, kv_serialize.
  rewrite read_write_array_len by lia. cbn [map_err rbind]. change (4 =? 4) with true. cbv iota.
  rewrite read_write_str by done. cbn [map_err rbind]. rewrite read_write_str by done. cbn [map_err rbind].
  rewrite read_write_bool. cbn [map_err rbind]. destruct r as [ns ky [v|]]; simpl in *.
  - rewrite <- (app_nil_r (write_str v)), read_write_str by auto. done.
  - done.
Qed.

(** The layout of version 0, which has no deletions. *)
Lemma kv_v0_decodes ns ky v :
  is_str ns → is_str ky → is_str v →
  kv_deserialize (write_array_len 3 ++ write_str ns ++ write_str ky ++ write_str v) V0 =
    Ok (mk_kv ns ky (Some v)).
Proof.
  intros Hns Hk Hv. unfold kv_deserialize. rewrite read_write_array_len by lia. cbn [map_err rbind].
  change (3 =? 3) with true. cbv iota.
  rewrite read_write_str by done. cbn [map_err rbind]. rewrite read_write_str by done. cbn [map_err rbind].
  rewrite <- (app_nil_r (write_str v)), read_write_str by done. done.
Qed.

#[export] Instance kv_codec_laws : EventCodecLaws KvRecord.
Proof. refine {| ev_ok := kv_ok |}; [reflexivity..|exact kv_roundtrip]. Defined.
End kv_codec_laws.

(** ** Lemmas on [build] *)

(** Where a namespace has no dot, the joined id tells the pairs apart. *)
Definition dot : Ascii.ascii := byte 46.
Definition no_dot (s : string) : Prop := contains_char dot s = false.

Lemma uniq_id_inj ns ky ns' ky' :
  no_dot ns → no_dot ns' → KvStore.uniq_id ns ky = KvStore.uniq_id ns' ky' → ns = ns' ∧ ky = ky'.
Proof.
  unfold no_dot, contains_char, KvStore.uniq_id. rewrite !bool_decide_eq_false. intros Hn Hn' He.
  apply (f_equal chars) in He. rewrite !chars_app in He. change (chars ".") with [dot] in He. simpl in He.
  assert (∀ a b x y, dot ∉ a → dot ∉ b → a ++ dot :: x = b ++ dot :: y → a = b ∧ x = y) as Hsplit.
  { clear. induction a as [|c a IH]; intros [|c' b] x y Ha Hb Heq; simpl in *; simplify_eq; [done|..].
    - destruct Hb. left.
    - destruct Ha. left.
    - rewrite not_elem_of_cons in Ha, Hb. destruct (IH b x y) as [-> ->]; tauto. }
  apply Hsplit in He as [H1 H2]; [|done..]. split; by apply chars_inj.
Qed.

Section kv_build.
Implicit Types (db : KvDb.t) (vis : gset string) (l : list KvRecord).

Definition kv_is (ns ky : string) (r : KvRecord) : Prop := kv_namespace r = ns ∧ kv_key r = ky.
#[export] Instance kv_is_dec ns ky r : Decision (kv_is ns ky r).
Proof. unfold kv_is. apply _. Defined.

(** Events that [build] takes for events of one key. *)
Definition same_id (ns ky : string) (r : KvRecord) : Prop := KvStore.uniq_id ns ky = KvStore.uniq_id (kv_namespace r) (kv_key r).
#[export] Instance same_id_dec ns ky r : Decision (same_id ns ky r).
Proof. unfold same_id. apply _. Defined.

Lemma kv_is_same_id ns ky r : kv_is ns ky r → same_id ns ky r.
Proof. by intros [<- <-]. Qed.

Lemma apply_newest_visited l db vis i :
  i ∈ (foldl KvStore.apply_newest (db, vis) l).2 ↔
  i ∈ vis ∨ ∃ r, r ∈ l ∧ i = KvStore.uniq_id (kv_namespace r) (kv_key r).
Proof.
  revert db vis. induction l as [|r l IH]; intros db vis; simpl.
  { split; [by left|]. intros [?|(? & ?%not_elem_of_nil & _)]; done. }
  unfold KvStore.apply_newest at 2. simpl. case_decide as Hv; rewrite IH.
  - split; [intros [?|(x & ? & ?)]; [by left|right; exists x; split; [by right|done]]|].
    intros [?|(x & [->|Hx]%elem_of_cons & ->)]; [by left|by left|right; eauto].
  - rewrite elem_of_union, elem_of_singleton. split.
    + intros [[->|?]|(x & ? & ?)]; [right; exists r; split; [left|done]|by left|right; exists x; split; [by right|done]].
    + intros [?|(x & [->|Hx]%elem_of_cons & ->)]; [left; by right|left; by left|right; eauto].
Qed.

Lemma apply_newest_other db vis r ns ky : ¬ kv_is ns ky r → (KvStore.apply_newest (db, vis) r).1 !! (ns, ky) = db !! (ns, ky).
Proof.
  intros Hne. unfold KvStore.apply_newest. case_decide; [done|].
  assert ((kv_namespace r, kv_key r) ≠ (ns, ky)) by (intros [= Hx1 Hx2]; by apply Hne).
  destruct (kv_value r); unfold KvDb.save, KvDb.delete; simpl; [by rewrite lookup_insert_ne|by rewrite lookup_delete_ne].
Qed.

(** An id that is visited is left alone. *)
Lemma apply_newest_stays l db vis ns ky :
  KvStore.uniq_id ns ky ∈ vis → (foldl KvStore.apply_newest (db, vis) l).1 !! (ns, ky) = db !! (ns, ky).
Proof.
  revert db vis. induction l as [|x l IH]; intros db vis Hin; [done|]. cbn [foldl].
  pose proof (apply_newest_other db vis x ns ky) as Ho. unfold KvStore.apply_newest in *. cbn [fst snd] in *.
  case_decide as Hx; [by apply IH|]. rewrite IH by set_solver. apply Ho. intros [<- <-]. done.
Qed.

Lemma apply_newest_lookup l db vis ns ky :
  KvStore.uniq_id ns ky ∉ vis →
  (foldl KvStore.apply_newest (db, vis) l).1 !! (ns, ky) =
    match head (filter (same_id ns ky) l) with
    | Some r => if decide (kv_is ns ky r) then kv_value r else db !! (ns, ky)
    | None => db !! (ns, ky)
    end.
Proof.
  revert db vis. induction l as [|r l IH]; intros db vis Hvis; [done|]. cbn [foldl].
  destruct (decide (same_id ns ky r)) as [Hs|Hs].
  - rewrite filter_cons_True by done. cbn [head]. pose proof (apply_newest_other db vis r ns ky) as Ho.
    unfold KvStore.apply_newest at 2. unfold KvStore.apply_newest in Ho. unfold same_id in Hs. cbn [fst snd] in *.
    rewrite decide_False in Ho |- * by congruence. rewrite apply_newest_stays by set_solver. case_decide as Hk; [|by apply Ho].
    destruct Hk as [<- <-]. destruct (kv_value r); unfold KvDb.save, KvDb.delete; simpl; [by rewrite lookup_insert_eq|by rewrite lookup_delete_eq].
  - rewrite filter_cons_False by done. pose proof (apply_newest_other db vis r ns ky) as Ho. unfold KvStore.apply_newest in *. cbn [fst snd] in *.
    case_decide as Hr; [by apply IH|]. rewrite IH; [|unfold same_id in Hs; set_solver]. cbn [fst] in Ho. by rewrite Ho by (intros ?%kv_is_same_id; done).
Qed.

Lemma drop_unvisited_kept vis (es : list KvEntry) db ns ky :
  KvStore.uniq_id ns ky ∈ vis → foldl (KvStore.drop_unvisited vis) db es !! (ns, ky) = db !! (ns, ky).
Proof.
  intros Hin. revert db. induction es as [|e es IH]; intros db; [done|]. cbn [foldl]. rewrite IH.
  unfold KvStore.drop_unvisited. case_decide as He; [done|]. unfold KvDb.delete.
  rewrite lookup_delete_ne; [done|]. intros [= <- <-]. done.
Qed.

Lemma drop_unvisited_dropped vis (es : list KvEntry) db ns ky :
  KvStore.uniq_id ns ky ∉ vis → (∀ v, db !! (ns, ky) = Some v → ∃ v', mk_entry ns ky v' ∈ es) →
  foldl (KvStore.drop_unvisited vis) db es !! (ns, ky) = None.
Proof.
  intros Hout. revert db. induction es as [|e es IH]; intros db Hdb; cbn [foldl].
  - apply eq_None_not_Some. intros [v Hv]. by apply Hdb in Hv as (? & ?%not_elem_of_nil).
  - apply IH. unfold KvStore.drop_unvisited. case_decide as He.
    + intros v (v' & [<-|?]%elem_of_cons)%Hdb; [done|eauto].
    + unfold KvDb.delete. intros v [Hne Hv]%lookup_delete_Some.
      apply Hdb in Hv as (v' & [<-|?]%elem_of_cons); [done|eauto].
Qed.

Lemma elem_of_kv_list db e : e ∈ KvDb.list db None ↔ db !! (en_namespace e, en_key e) = Some (en_value e).
Proof.
  unfold KvDb.list, sort_by_key. rewrite elem_of_sort_by, list_elem_of_fmap. split.
  - intros ([[ns ky] v] & -> & Hin%elem_of_map_to_list). done.
  - intros Hl. exists (en_namespace e, en_key e, en_value e). split; [by destruct e|].
    by apply elem_of_map_to_list.
Qed.
End kv_build.

Lemma omap_reverse {A B} (f : A → option B) (l : list A) : omap f (reverse l) = reverse (omap f l).
Proof.
  induction l as [|x l IH]; [done|]. rewrite reverse_cons, omap_app, IH. simpl.
  destruct (f x); simpl; [by rewrite reverse_cons|by rewrite app_nil_r].
Qed.

Lemma filter_reverse {A} (P : A → Prop) `{∀ x, Decision (P x)} (l : list A) :
  filter P (reverse l) = reverse (filter P l).
Proof.
  induction l as [|x l IH]; [done|]. rewrite reverse_cons, filter_app, IH.
  destruct (decide (P x)).
  - by rewrite !filter_cons_True, reverse_cons by done.
  - rewrite !filter_cons_False by done. by rewrite filter_nil, app_nil_r.
Qed.

(** The value a log gives a key: that of its last event. *)
Definition last_write (log : list KvRecord) (ns ky : string) : option string :=
  last (filter (kv_is ns ky) log) ≫= kv_value.

Lemma last_write_snoc log r ns ky :
  last_write (log ++ [r]) ns ky = if decide (kv_is ns ky r) then kv_value r else last_write log ns ky.
Proof.
  unfold last_write. rewrite filter_app. case_decide.
  - rewrite filter_cons_True, filter_nil by done. by rewrite last_snoc.
  - rewrite filter_cons_False, filter_nil by done. by rewrite app_nil_r.
Qed.

(** What [build] makes of a cache: the newest event of an id decides for its key; any other key with that id is
    left as it was cached, and a key whose id no event has is dropped. *)
Lemma build_lookup `{Rmp, Crypto} (k : key) (s : KvState) ns ky :
  kv_db (KvStore.build k s) !! (ns, ky) =
    match last (filter (same_id ns ky) (read_log k (record_store s))) with
    | Some r => if decide (kv_is ns ky r) then kv_value r else kv_db s !! (ns, ky)
    | None => None
    end.
Proof.
  unfold KvStore.build. rewrite omap_reverse.
  change (omap (read_event k) (Store.all_tagged (record_store s) Kv)) with (read_log (A := KvRecord) k (record_store s)).
  set (log := read_log k (record_store s)) in *.
  pose proof (apply_newest_lookup (reverse log) (kv_db s) ∅ ns ky ltac:(set_solver)) as Hlook.
  pose proof (apply_newest_visited (reverse log) (kv_db s) ∅ (KvStore.uniq_id ns ky)) as Hvis.
  destruct (foldl KvStore.apply_newest _ _) as [db vis]. simpl in *.
  rewrite filter_reverse, head_reverse in Hlook.
  destruct (last (filter (same_id ns ky) log)) as [r|] eqn:Hlast.
  - assert (r ∈ filter (same_id ns ky) log) as [Hs Hr]%list_elem_of_filter by (by apply last_Some_elem_of).
    rewrite drop_unvisited_kept; [done|]. apply Hvis. right. exists r. by rewrite elem_of_reverse.
  - apply drop_unvisited_dropped.
    + rewrite Hvis. intros [?|(r & Hr & He)]; [set_solver|]. rewrite elem_of_reverse in Hr. apply list.last_None in Hlast.
      apply (not_elem_of_nil r). rewrite <- Hlast. by apply list_elem_of_filter.
    + intros v Hv. exists v. apply elem_of_kv_list. simpl. by rewrite <- Hlook.
Qed.

(** The newest event of an id, where it is one of the key, is the key's last. *)
Lemma last_of_id log ns ky :
  match last (filter (same_id ns ky) log) with
  | Some r => kv_is ns ky r → last_write log ns ky = kv_value r
  | None => last_write log ns ky = None
  end.
Proof.
  induction log as [|r log IH] using rev_ind; [done|]. rewrite last_write_snoc, filter_app. destruct (decide (same_id ns ky r)) as [Hs|Hs].
  - rewrite filter_cons_True, filter_nil, last_snoc by done. intros Hk. by rewrite decide_True.
  - rewrite filter_cons_False, filter_nil, app_nil_r by done. rewrite decide_False; [done|]. by intros ?%kv_is_same_id.
Qed.

(** No event of another key has the id of this one. *)
Definition own_id (log : list KvRecord) (ns ky : string) : Prop := ∀ r, r ∈ log → same_id ns ky r → kv_is ns ky r.

(** A cache that holds the last writes still does when it is built again; from any cache a key with an id of its
    own gets its last write. *)
Lemma build_last_write `{Rmp, Crypto} (k : key) (s : KvState) ns ky :
  let log := read_log k (record_store s) in
  kv_db s !! (ns, ky) = last_write log ns ky ∨ own_id log ns ky →
  kv_db (KvStore.build k s) !! (ns, ky) = last_write log ns ky.
Proof.
  intros log Hc. rewrite build_lookup. fold log. pose proof (last_of_id log ns ky) as Hl.
  destruct (last (filter (same_id ns ky) log)) as [r|] eqn:E; [|done]. case_decide as Hk; [by rewrite Hl|].
  destruct Hc as [Hc|Hown]; [done|]. destruct Hk. apply last_Some_elem_of in E. apply list_elem_of_filter in E as [Hs Hr]. by apply Hown.
Qed.

(** Among namespaces without a dot every key has. *)
Lemma own_id_no_dot log ns ky : Forall (λ r, no_dot (kv_namespace r)) log → no_dot ns → own_id log ns ky.
Proof.
  intros Hl Hns r Hr Hs. rewrite Forall_forall in Hl. apply uniq_id_inj in Hs as [-> ->]; [done|done|by apply Hl].
Qed.

(** ** Histories of a store *)

Section kv_steps.
Context `{RmpLaws, CryptoLaws} (k : key) (host : HostId).

(** One call on the store, at a moment when its record can be appended: its id is new, and its time is later
    than those of the records of the tag. A deletion of several keys is one of each. *)
Inductive kv_step : KvState → KvState → Prop :=
| kv_set s s' d ns ky v :
    appendable (record_store s) Kv d → kv_ok (mk_kv ns ky (Some v)) →
    KvStore.set k host d ns ky v s = (s', Ok tt) → kv_step s s'
| kv_delete s s' d ns ky :
    appendable (record_store s) Kv d → kv_ok (mk_kv ns ky None) →
    KvStore.delete k host ns [(ky, d)] s = (s', Ok tt) → kv_step s s'
| kv_build s : kv_step s (KvStore.build k s).

(** The cache holds what the log says. *)
Record kv_inv (s : KvState) : Prop := mk_kv_inv {
  kvi_wf : store_wf (record_store s);
  kvi_cache ns ky : kv_db s !! (ns, ky) = last_write (read_log k (record_store s)) ns ky
}.

Lemma kv_push_inv s d r db :
  kv_inv s → appendable (record_store s) Kv d → kv_ok r →
  (∀ ns ky, db !! (ns, ky) = if decide (kv_is ns ky r) then kv_value r else kv_db s !! (ns, ky)) →
  ∃ i st', KvStore.push_record k host d r s = (mk_kv_state st' (kv_db s), Ok (draw_id d, i)) ∧
    kv_inv (mk_kv_state st' db).
Proof.
  intros [Hwf Hc] Hap Hok Hdb.
  pose proof (push_event_log (record_store s) d k host r Hwf) as Hp.
  destruct (Hp Hap Hok) as (st' & Hpush & Hwf' & Hlog).
  eexists _, st'. unfold KvStore.push_record. rewrite Hpush. split; [done|]. split; simpl; [done|].
  intros ns ky. by rewrite Hlog, last_write_snoc, Hdb, Hc.
Qed.

Lemma kv_step_inv s s' : kv_step s s' → kv_inv s → kv_inv s'.
Proof.
  intros Hstep Hinv. destruct Hstep as [s s' d ns ky v Hap Hok Hset|s s' d ns ky Hap Hok Hdel|s].
  - destruct (kv_push_inv s d (mk_kv ns ky (Some v)) (KvDb.save (kv_db s) (mk_entry ns ky v)) Hinv Hap Hok)
      as (i & st' & Hpush & Hinv').
    { intros ns' ky'. unfold KvDb.save, kv_is. simpl. case_decide as Hd.
      - destruct Hd as [-> ->]. by rewrite lookup_insert_eq.
      - rewrite lookup_insert_ne; [done|]. intros [= -> ->]. by apply Hd. }
    unfold KvStore.set, st_bind in Hset. rewrite Hpush in Hset. unfold KvStore.on_db in Hset. simpl in Hset.
    by injection Hset as <-.
  - destruct (kv_push_inv s d (mk_kv ns ky None) (KvDb.delete (kv_db s) ns ky) Hinv Hap Hok)
      as (i & st' & Hpush & Hinv').
    { intros ns' ky'. unfold KvDb.delete, kv_is. simpl. case_decide as Hd.
      - destruct Hd as [-> ->]. by rewrite lookup_delete_eq.
      - rewrite lookup_delete_ne; [done|]. intros [= -> ->]. by apply Hd. }
    cbn [KvStore.delete] in Hdel. unfold st_bind, st_ret in Hdel. rewrite Hpush in Hdel.
    unfold KvStore.on_db in Hdel. simpl in Hdel. by injection Hdel as <-.
  - destruct Hinv as [Hwf Hc].
    assert (record_store (KvStore.build k s) = record_store s) as Hst.
    { unfold KvStore.build. by destruct (foldl _ _ _). }
    split; rewrite ?Hst; [done|]. intros ns ky. apply build_last_write. by left.
Qed.
End kv_steps.

(** ** Theorems *)

(** The record of a key-value event, deletions included, decodes to itself; the older layout
    decodes to the value it holds. *)
Theorem kv_record_roundtrip `{RmpLaws} (r : KvRecord) :
  kv_ok r →
  kv_deserialize (kv_serialize r) V1 = Ok r ∧
  ∀ v, kv_value r = Some v →
    kv_deserialize (write_array_len 3 ++ write_str (kv_namespace r) ++ write_str (kv_key r) ++ write_str v) V0 = Ok r.
Proof.
  intros Hok. split; [by apply kv_roundtrip|]. intros v Hv. destruct Hok as (Hns & Hk & Hs).
  rewrite kv_v0_decodes by auto. destruct r; simpl in *. by subst.
Qed.

(** C36: from an empty log on, whatever sequence of [set], [delete] and [build] runs, each write at a later
    time than the records before it, the cache holds for every key of every namespace the value of its last
    event in the log. A build from any other cache, lost or stale, brings back the answer for each key whose
    joined text of namespace and key no event of another key has, which is every key where no namespace
    has a dot; it leaves the other keys with one text as they were cached, except that of the newest event. *)
Theorem kv_cache_is_last_write `{RmpLaws, CryptoLaws} (k : key) (host : HostId) (st : Store.t) (s : KvState) :
  store_wf st → read_log (A := KvRecord) k st = [] → rtc (kv_step k host) (mk_kv_state st ∅) s →
  let log := read_log k (record_store s) in
  (∀ ns ky, KvStore.get s ns ky = last_write log ns ky) ∧
  ∀ db ns ky, let rebuilt := KvStore.build k (mk_kv_state (record_store s) db) in
    (own_id log ns ky → KvStore.get rebuilt ns ky = KvStore.get s ns ky) ∧
    (Forall (λ r, no_dot (kv_namespace r)) log → no_dot ns → KvStore.get rebuilt ns ky = KvStore.get s ns ky) ∧
    (∀ r, last (filter (same_id ns ky) log) = Some r →
       KvStore.get rebuilt ns ky = if decide (kv_is ns ky r) then KvStore.get s ns ky else db !! (ns, ky)).
Proof.
  intros Hwf Hlog Hr log.
  assert (kv_inv k s) as [Hwf' Hc].
  { assert (∀ a b, rtc (kv_step k host) a b → kv_inv k a → kv_inv k b) as Hgen.
    { induction 1 as [|a b c Hab _ IH]; [done|]. intros. by eapply IH, kv_step_inv. }
    eapply Hgen; [exact Hr|]. split; simpl; [done|]. rewrite Hlog. intros ns ky. by rewrite lookup_empty. }
  assert (∀ s' ns ky, KvStore.get s' ns ky = kv_db s' !! (ns, ky)) as Hget.
  { intros s' ns ky. unfold KvStore.get, KvDb.load. by destruct (kv_db s' !! (ns, ky)). }
  split; [intros; by rewrite Hget|]. intros db ns ky rebuilt. rewrite !Hget, Hc. fold log. split_and!.
  - intros Ho. apply (build_last_write k (mk_kv_state (record_store s) db)). by right.
  - intros Hl Hns. apply (build_last_write k (mk_kv_state (record_store s) db)). right. by apply own_id_no_dot.
  - intros r E. unfold rebuilt. rewrite build_lookup. cbn [record_store kv_db]. fold log. rewrite E. case_decide; [|done].
    pose proof (last_of_id log ns ky) as Hl. rewrite E in Hl. by rewrite Hl.
Qed.

(** ** Witnesses *)

Lemma appendable_empty `{Crypto} tag (d : Draw) :
  entropy_ok (draw_entropy d) → fits_i64 (draw_now d) → appendable Store.empty tag d.
Proof. intros He Hn. split; [done|..|done|]; by intros r ?%not_elem_of_nil. Qed.

Definition draw1 : Draw := mk_draw 1 5 Toy.rng.
Definition draw2 : Draw := mk_draw 2 6 Toy.rng.
Definition kv0 : KvState := mk_kv_state Store.empty ∅.
Definition kv1 : KvState := (KvStore.set Toy.key1 2 draw1 "ns" "k" "v" kv0).1.

Lemma ascii_str s : ascii_string s = true → Z.of_nat (String.length s) < 65536 → is_str (Rmp := Wire.wire) s.
Proof. apply is_str_ascii. Qed.

Lemma demo_kv_ok : kv_ok (mk_kv "ns" "k" (Some "v")).
Proof. split_and!; [by apply ascii_str..|]. intros v [= <-]. by apply ascii_str. Qed.

Lemma kv_record_roundtrip_witness :
  kv_deserialize (kv_serialize (mk_kv "ns" "k" (Some "v"))) V1 = Ok (mk_kv "ns" "k" (Some "v")).
Proof. exact (proj1 (kv_record_roundtrip (mk_kv "ns" "k" (Some "v")) demo_kv_ok)). Defined.

Lemma kv_cache_is_last_write_witness :
  KvStore.get kv1 "ns" "k" = Some "v" ∧
  KvStore.get (KvStore.build Toy.key1 (mk_kv_state (record_store kv1) ∅)) "ns" "k" = KvStore.get kv1 "ns" "k".
Proof.
  split; [vm_compute; reflexivity|].
  refine (proj1 (proj2 (proj2 (kv_cache_is_last_write Toy.key1 2 Store.empty kv1 _ _ _) ∅ "ns" "k")) _ _).
  - apply empty_wf.
  - reflexivity.
  - apply rtc_once. apply (kv_set Toy.key1 2 kv0 kv1 draw1 "ns" "k" "v").
    + apply appendable_empty; [exact Toy.rng_ok|split; vm_compute; congruence].
    + exact demo_kv_ok.
    + vm_compute. reflexivity.
  - vm_compute. by repeat constructor.
  - reflexivity.
Defined.

(** Two keys whose joined ids are the same text. *)
Definition kv_dotted : KvState :=
  (KvStore.set Toy.key1 2 draw2 "a" "b.c" "2" (KvStore.set Toy.key1 2 draw1 "a.b" "c" "1" kv0).1).1.

(** [build] joins namespace and key with a dot, so that two keys whose namespaces hold dots can
    meet in one id: both are readable after they are set, but a cache rebuilt from the log lacks
    the older of the two. *)
Theorem kv_build_confuses_dotted_keys :
  KvStore.get kv_dotted "a.b" "c" = Some "1" ∧ KvStore.get kv_dotted "a" "b.c" = Some "2" ∧
  last_write (read_log Toy.key1 (record_store kv_dotted)) "a.b" "c" = Some "1" ∧
  KvStore.get (KvStore.build Toy.key1 (mk_kv_state (record_store kv_dotted) ∅)) "a.b" "c" = None ∧
  KvStore.get (KvStore.build Toy.key1 (mk_kv_state (record_store kv_dotted) ∅)) "a" "b.c" = Some "2".
Proof. split_and!; vm_compute; reflexivity. Qed.
