(* ===== verification/Dotfiles.v ===== *)
(** * The alias and variable stores ([atuin-dotfiles/src/store.rs], [store/var.rs])

    Two event logs of the same shape: an entry is created whole or deleted by its name, the current
    entries are the fold of the log in a map ordered by name, and every change writes the configuration
    files of all shells again. The source has the code twice; here it is once, over the type of entries.
    The configuration directory is a map from file names to their contents; its failures are not
    modelled. *)
From S2P Require Import Prelude Text ShellConfig Record Status Rmp RmpWire Encryption SqliteStore Log Kv.

(** ** Events *)

(** [AliasRecord], [VarRecord] *)
Inductive NamedRecord (A : Type) : Type := Create (a : A) | Delete (name : string).
Arguments Create {A}.
Arguments Delete {A}.

Section codec.
Context `{Rmp}.

Definition no_trailing {A} (bytes : list Z) (msg : string) (a : A) : result A Eyre :=
  match bytes with [] => Ok a | _ => Err (EyreMsg msg) end.

(** The arm of deletions, which both records share. *)
Definition delete_deserialize {A} (bytes : list Z) : result (NamedRecord A) Eyre :=
  let '(bytes, n) := read_array_len bytes in
  let? nfields := map_err EyreValue n in
  if nfields =? 1 then
    let? (name, bytes) := map_err EyreStr (read_str_from_slice bytes) in
    no_trailing bytes "trailing bytes" (Delete name)
  else Err (EyreMsg "too many entries in v0 delete record").

Definition delete_serialize (name : string) : list Z := write_u8 1 ++ write_array_len 1 ++ write_str name.

(** [AliasRecord::serialize] *)
Definition alias_serialize (r : NamedRecord Alias) : list Z :=
  match r with
  | Create a => write_u8 0 ++ write_array_len 2 ++ write_str (al_name a) ++ write_str (al_value a)
  | Delete name => delete_serialize name
  end.

(** [AliasRecord::deserialize] *)
Definition alias_deserialize (data : list Z) (version : RecordVersion) : result (NamedRecord Alias) Eyre :=
  match version with
  | V0 =>
      let '(bytes, t) := read_u8 data in
      let? record_type := map_err EyreValue t in
      if record_type =? 0 then
        let '(bytes, n) := read_array_len bytes in
        let? nfields := map_err EyreValue n in
        if nfields =? 2 then
          let? (name, bytes) := map_err EyreStr (read_str_from_slice bytes) in
          let? (value, bytes) := map_err EyreStr (read_str_from_slice bytes) in
          no_trailing bytes "trailing bytes" (Create (mk_alias name value))
        else Err (EyreMsg "too many entries in v0 shell alias create record")
      else if record_type =? 1 then delete_deserialize bytes
      else Err (EyreMsg "unknown AliasRecord type")
  | _ => Err (EyreMsg "unknown alias record version")
  end.

(** [Var::serialize], [Var::deserialize] *)
Definition var_fields (v : Var) : list Z :=
  write_array_len 3 ++ write_str (va_name v) ++ write_str (va_value v) ++ write_bool (va_export v).

Definition read_var (bytes : list Z) : result Var Eyre :=
  let '(bytes, n) := read_array_len bytes in
  let? nfields := map_err EyreValue n in
  if nfields =? 3 then
    let? (name, bytes) := map_err EyreStr (read_str_from_slice bytes) in
    let? (value, bytes) := map_err EyreStr (read_str_from_slice bytes) in
    let '(bytes, b) := read_bool bytes in
    let? export := map_err EyreValue b in
    no_trailing bytes "trailing bytes" (mk_var name value export)
  else Err (EyreMsg "too many entries in v0 dotfiles env create record").

(** [VarRecord::serialize], [VarRecord::deserialize] *)
Definition var_serialize (r : NamedRecord Var) : list Z :=
  match r with Create v => write_u8 0 ++ var_fields v | Delete name => delete_serialize name end.

Definition var_deserialize (data : list Z) (version : RecordVersion) : result (NamedRecord Var) Eyre :=
  match version with
  | V0 =>
      let '(bytes, t) := read_u8 data in
      let? record_type := map_err EyreValue t in
      if record_type =? 0 then let? v := read_var bytes in Ok (Create v)
      else if record_type =? 1 then delete_deserialize bytes
      else Err (EyreMsg "unknown Dotfiles var record type")
  | _ => Err (EyreMsg "unknown var record version")
  end.
End codec.

Definition only_v0 (v : RecordVersion) : bool := match v with V0 => true | _ => false end.

#[export] Instance alias_codec `{Rmp} : EventCodec (NamedRecord Alias) := {|
  ev_tag := ConfigShellAlias; ev_version := V0; ev_known := only_v0;
  ev_serialize := alias_serialize; ev_deserialize := alias_deserialize
|}.

#[export] Instance var_codec `{Rmp} : EventCodec (NamedRecord Var) := {|
  ev_tag := DotfilesVar; ev_version := V0; ev_known := only_v0;
  ev_serialize := var_serialize; ev_deserialize := var_deserialize
|}.

(** ** The stores *)

(** What an entry type gives its store: the name of an entry, its length, and the configuration files. *)
Class Dotfile (A : Type) : Type := {
  entry_name : A → string;
  entry_len : A → Z;
  config_files : list A → list (string * string)
}.

Definition str_len (s : string) : Z := Z.of_nat (String.length s).

#[export] Instance alias_dotfile : Dotfile Alias := {|
  entry_name := al_name;
  entry_len a := str_len (al_name a) + str_len (al_value a);
  config_files l := [("aliases.zsh", format_posix_aliases l); ("aliases.bash", format_posix_aliases l);
                     ("aliases.fish", format_posix_aliases l); ("aliases.xsh", format_xonsh_aliases l);
                     ("aliases.ps1", format_powershell_aliases l)]%string
|}.

(** [char::is_alphanumeric] outside ASCII. *)
Class WideChars : Type := wide_alphanumeric : list Ascii.ascii → bool.

#[export] Instance var_dotfile `{WideChars} : Dotfile Var := {|
  entry_name := va_name;
  entry_len v := str_len (va_name v) + str_len (va_value v);
  config_files l := let wide := wide_alphanumeric in
                    [("vars.zsh", format_posix_vars wide l); ("vars.bash", format_posix_vars wide l);
                     ("vars.fish", format_fish_vars wide l); ("vars.xsh", format_xonsh_vars wide l);
                     ("vars.ps1", format_powershell_vars l)]%string
|}.

Record DotState : Type := mk_dot { dot_records : Store.t; dot_files : gmap string string }.

Inductive DotError : Type := TooLarge | EncryptPanic (e : EncryptionError).

(** [CONFIG_SHELL_ALIAS_FIELD_MAX_LEN], [DOTFILES_VAR_LEN] *)
Definition FIELD_MAX_LEN : Z := 20000.

Module DotStore.
Section store.
Context `{Rmp, Crypto} {A : Type} `{Dotfile A, EventCodec (NamedRecord A)} (k : key) (host : HostId).

(** The [match] of the loop of [aliases] and of [vars]. *)
Definition apply_record (build : gmap string A) (r : NamedRecord A) : gmap string A :=
  match r with
  | Create a => <[entry_name a := a]> build
  | Delete name => delete name build
  end.

(** [aliases], [vars] *)
Definition entry_map (st : Store.t) : gmap string A := foldl apply_record ∅ (read_log k st).
Definition entries (st : Store.t) : list A := (sort_by_key fst (map_to_list (entry_map st))).*2.

(** [build] *)
Definition build (s : DotState) : DotState :=
  mk_dot (dot_records s) (foldl (λ fs f, <[f.1 := f.2]> fs) (dot_files s) (config_files (entries (dot_records s)))).

(** What [set] and [delete] do with their record. *)
Definition push_named (d : Draw) (r : NamedRecord A) : stm DotState DotError unit := λ s,
  match push_event d k host r (dot_records s) with
  | (st, Ok _) => (build (mk_dot st (dot_files s)), Ok tt)
  | (st, Err e) => (mk_dot st (dot_files s), Err (EncryptPanic e))
  end.

Definition set (d : Draw) (a : A) : stm DotState DotError unit := λ s,
  if FIELD_MAX_LEN <? entry_len a then (s, Err TooLarge) else push_named d (Create a) s.

Definition delete (d : Draw) (name : string) : stm DotState DotError unit := λ s,
  if FIELD_MAX_LEN <? str_len name then (s, Err TooLarge) else push_named d (Delete name) s.
End store.
End DotStore.

(** ** Laws of the codecs *)

Section codec_laws.
Context `{RmpLaws}.

Definition alias_ok (r : NamedRecord Alias) : Prop :=
  match r with Create a => is_str (al_name a) ∧ is_str (al_value a) | Delete name => is_str name end.
Definition var_ok (r : NamedRecord Var) : Prop :=
  match r with Create v => is_str (va_name v) ∧ is_str (va_value v) | Delete name => is_str name end.

Lemma delete_roundtrip {A} name :
  is_str name → delete_deserialize (A := A) (write_array_len 1 ++ write_str name) = Ok (Delete name).
Proof.
  intros Hn. unfold delete_deserialize. rewrite read_write_array_len by lia. cbn [map_err rbind]. change (1 =? 1) with true. cbv iota.
  rewrite <- (app_nil_r (write_str name)), read_write_str by done. done.
Qed.

Lemma alias_roundtrip r : alias_ok r → alias_deserialize (alias_serialize r) V0 = Ok r.
Proof.
  unfold alias_deserialize, alias_serialize, delete_serialize. destruct r as [[n v]|name]; cbn.
  - intros [Hn Hv]. rewrite read_write_u8 by lia. cbn [map_err rbind]. change (0 =? 0) with true. cbv iota.
    rewrite read_write_array_len by lia. cbn [map_err rbind]. change (2 =? 2) with true. cbv iota.
    rewrite read_write_str by done. cbn [map_err rbind]. rewrite <- (app_nil_r (write_str v)), read_write_str by done. done.
  - intros Hn. rewrite read_write_u8 by lia. cbn [map_err rbind]. change (1 =? 0) with false. change (1 =? 1) with true. cbv iota.
    by apply delete_roundtrip.
Qed.

Lemma var_roundtrip r : var_ok r → var_deserialize (var_serialize r) V0 = Ok r.
Proof.
  unfold var_deserialize, var_serialize, delete_serialize. destruct r as [[n v e]|name]; cbn.
  - intros [Hn Hv]. rewrite read_write_u8 by lia. cbn [map_err rbind]. change (0 =? 0) with true. cbv iota.
    unfold read_var, var_fields. cbn [va_name va_value va_export].
    rewrite read_write_array_len by lia. cbn [map_err rbind]. change (3 =? 3) with true. cbv iota.
    rewrite read_write_str by done. cbn [map_err rbind]. rewrite read_write_str by done. cbn [map_err rbind].
    rewrite <- (app_nil_r (write_bool e)), read_write_bool. done.
  - intros Hn. rewrite read_write_u8 by lia. cbn [map_err rbind]. change (1 =? 0) with false. change (1 =? 1) with true. cbv iota.
    by apply delete_roundtrip.
Qed.

#[export] Instance alias_codec_laws : EventCodecLaws (NamedRecord Alias).
Proof. refine {| ev_ok := alias_ok |}; [reflexivity..|exact alias_roundtrip]. Defined.
#[export] Instance var_codec_laws : EventCodecLaws (NamedRecord Var).
Proof. refine {| ev_ok := var_ok |}; [reflexivity..|exact var_roundtrip]. Defined.
End codec_laws.

(** ** The stores as maps *)

Class DotfileLaws (A : Type) `{Dotfile A} : Prop := { config_names l : NoDup (config_files l).*1 }.

#[export] Instance alias_dotfile_laws : DotfileLaws Alias.
Proof. constructor. intros l. apply (bool_decide_unpack _). vm_compute. exact I. Qed.
#[export] Instance var_dotfile_laws `{WideChars} : DotfileLaws Var.
Proof. constructor. intros l. apply (bool_decide_unpack _). vm_compute. exact I. Qed.

(** A call of a client. *)
Inductive Call `{Crypto} (A : Type) : Type := CallSet (d : Draw) (a : A) | CallDelete (d : Draw) (name : string).
Arguments CallSet {_ A}.
Arguments CallDelete {_ A}.

Section refinement.
Context `{RmpLaws, CryptoLaws} {A : Type} `{DotfileLaws A, !EventCodec (NamedRecord A), !EventCodecLaws (NamedRecord A)}.
Context (k : key) (host : HostId).

Definition run_call (c : Call A) : stm DotState DotError unit :=
  match c with CallSet d a => DotStore.set k host d a | CallDelete d name => DotStore.delete k host d name end.

(** The call on the abstract map. *)
Definition spec_call (m : gmap string A) (c : Call A) : gmap string A :=
  match c with
  | CallSet _ a => if FIELD_MAX_LEN <? entry_len a then m else <[entry_name a := a]> m
  | CallDelete _ name => if FIELD_MAX_LEN <? str_len name then m else delete name m
  end.

Definition spec_result (c : Call A) : result unit DotError :=
  match c with
  | CallSet _ a => if FIELD_MAX_LEN <? entry_len a then Err TooLarge else Ok tt
  | CallDelete _ name => if FIELD_MAX_LEN <? str_len name then Err TooLarge else Ok tt
  end.

(** The record of a call can be appended. *)
Definition call_ok (s : DotState) (c : Call A) : Prop :=
  match c with
  | CallSet d a => appendable (dot_records s) (ev_tag (NamedRecord A)) d ∧ ev_ok (Create a)
  | CallDelete d name => appendable (dot_records s) (ev_tag (NamedRecord A)) d ∧ ev_ok (Delete (A := A) name)
  end.

Definition sorted_values (m : gmap string A) : list A := (sort_by_key fst (map_to_list m)).*2.

(** The log stands for the map, and the files are those of its entries. *)
Record simulates (s : DotState) (m : gmap string A) : Prop := {
  sim_wf : store_wf (dot_records s);
  sim_map : DotStore.entry_map k (dot_records s) = m;
  sim_files f text : (f, text) ∈ config_files (sorted_values m) → dot_files s !! f = Some text
}.

Lemma files_written l (fs : gmap string string) f text :
  NoDup l.*1 → (f, text) ∈ l → foldl (λ fs f, <[f.1 := f.2]> fs) fs l !! f = Some text.
Proof.
  revert fs. induction l as [|[g t] l IH]; intros fs Hnd Hin; [by apply not_elem_of_nil in Hin|].
  cbn in Hnd. apply NoDup_cons in Hnd as [Hg Hnd]. cbn [foldl]. apply elem_of_cons in Hin as [[= -> ->]|Hin]; [|by apply IH].
  clear IH. cbn [fst snd]. assert (∀ fs : gmap string string, fs !! g = Some t → foldl (λ fs f, <[f.1 := f.2]> fs) fs l !! g = Some t) as Hk.
  { clear -Hg. induction l as [|[h u] l IH]; intros fs Hf; [done|]. cbn [foldl fst snd]. cbn in Hg. apply not_elem_of_cons in Hg as [H1 H2].
    apply IH; [done|]. by rewrite lookup_insert_ne. }
  apply Hk, lookup_insert_eq.
Qed.

Lemma push_named_simulates s m d r :
  simulates s m → appendable (dot_records s) (ev_tag (NamedRecord A)) d → ev_ok r →
  ∃ s', DotStore.push_named k host d r s = (s', Ok tt) ∧ simulates s' (DotStore.apply_record m r).
Proof.
  intros [Hwf Hm _] Hap Hok. destruct (push_event_log _ d k host r Hwf Hap Hok) as (st' & Hpush & Hwf' & Hlog).
  unfold DotStore.push_named. rewrite Hpush. eexists. split; [reflexivity|].
  assert (DotStore.entry_map k st' = DotStore.apply_record m r) as Hm'.
  { unfold DotStore.entry_map. rewrite Hlog, foldl_snoc. by rewrite <- Hm. }
  constructor; [done|done|]. intros f text Hin. cbn. unfold DotStore.entries. cbn. rewrite Hm'.
  apply files_written; [apply config_names|exact Hin].
Qed.

Lemma run_call_simulates s m c :
  simulates s m → call_ok s c → ∃ s', run_call c s = (s', spec_result c) ∧ simulates s' (spec_call m c).
Proof.
  intros Hs Hc. destruct c as [d a|d name]; destruct Hc as [Hap Hok]; cbn; unfold DotStore.set, DotStore.delete;
    (destruct (_ <? _); [by eexists|]); apply (push_named_simulates _ _ _ _ Hs Hap Hok).
Qed.
End refinement.

Fixpoint run_calls `{RmpLaws, CryptoLaws} {A : Type} `{Dotfile A, EventCodec (NamedRecord A)} (k : key) (host : HostId)
    (cs : list (Call A)) (s : DotState) : DotState :=
  match cs with [] => s | c :: cs' => run_calls k host cs' (run_call k host c s).1 end.

(** Every record can be appended when its turn comes. *)
Fixpoint calls_ok `{RmpLaws, CryptoLaws} {A : Type} `{Dotfile A, EventCodec (NamedRecord A), !EventCodecLaws (NamedRecord A)}
    (k : key) (host : HostId) (cs : list (Call A)) (s : DotState) : Prop :=
  match cs with [] => True | c :: cs' => call_ok s c ∧ calls_ok k host cs' (run_call k host c s).1 end.

Lemma run_calls_simulates `{RmpLaws, CryptoLaws} {A : Type} `{DotfileLaws A, !EventCodec (NamedRecord A), !EventCodecLaws (NamedRecord A)}
    k host (cs : list (Call A)) s m :
  simulates k s m → calls_ok k host cs s → simulates k (run_calls k host cs s) (foldl spec_call m cs).
Proof.
  revert s m. induction cs as [|c cs IH]; intros s m Hs Hc; [done|]. destruct Hc as [Hc Hcs]. cbn [run_calls foldl].
  destruct (run_call_simulates k host s m c Hs Hc) as (s' & E & Hs'). rewrite E in Hcs |- *. by apply IH.
Qed.

(** What the values of a map come from. *)
Definition call_sets {A} `{Crypto} (P : A → Prop) (c : Call A) : Prop := match c with CallSet _ a => P a | CallDelete _ _ => True end.

Lemma spec_calls_values `{Crypto} {A : Type} `{Dotfile A} (P : A → Prop) (cs : list (Call A)) m :
  Forall (call_sets P) cs → map_Forall (λ _, P) m → map_Forall (λ _, P) (foldl spec_call m cs).
Proof.
  intros Hcs. revert m. induction Hcs as [|c cs Hc _ IH]; intros m Hm; [done|]. cbn [foldl]. apply IH.
  destruct c as [d a|d name]; cbn; destruct (_ <? _); try done; [by apply map_Forall_insert_2|by apply map_Forall_delete].
Qed.

Lemma sorted_values_elem {A : Type} (m : gmap string A) a : a ∈ sorted_values m → ∃ n, m !! n = Some a.
Proof.
  unfold sorted_values, sort_by_key. intros ([n b] & -> & Hin)%list_elem_of_fmap. rewrite elem_of_sort_by in Hin.
  apply elem_of_map_to_list in Hin. by exists n.
Qed.

(** ** Correctness *)

(** The store of aliases and that of variables refine a map from names to entries: whatever sequence
    of calls runs, each is answered as on the map, with the entries that are too large refused, the
    decrypted log stands for the map, and all configuration files are those of its entries. *)
Theorem dotfiles_refine_map `{RmpLaws, CryptoLaws} {A : Type} `{DotfileLaws A, !EventCodec (NamedRecord A), !EventCodecLaws (NamedRecord A)}
    k host (cs : list (Call A)) s m c :
  simulates k s m → calls_ok k host (cs ++ [c]) s →
  let s1 := run_calls k host cs s in
  simulates k s1 (foldl spec_call m cs) ∧ (run_call k host c s1).2 = spec_result c ∧
  simulates k (run_call k host c s1).1 (spec_call (foldl spec_call m cs) c).
Proof.
  intros Hs Hc. cbv zeta.
  assert (calls_ok k host cs s ∧ call_ok (run_calls k host cs s) c) as [Hcs Hlast].
  { clear Hs. revert s Hc. induction cs as [|x cs IH]; intros s Hc; cbn in *; [by destruct Hc|]. destruct Hc as [Hx Hc].
    destruct (IH _ Hc) as [H5 H6]. done. }
  pose proof (run_calls_simulates k host cs s m Hs Hcs) as Hs1. split; [done|].
  destruct (run_call_simulates k host _ _ c Hs1 Hlast) as (s' & -> & Hs'). done.
Qed.

(** A shell that sources the generated [vars.bash] ends up with exactly the variables that were last
    set and not deleted since, in the order of their names, with their values and nothing expanded. *)
Theorem sourced_variables_are_last_set `{RmpLaws, CryptoLaws, WideChars} k host (cs : list (Call Var)) s :
  simulates (A := Var) k s ∅ → calls_ok k host cs s →
  Forall (call_sets (λ v, is_name (va_name v) = true ∧ is_text (va_value v))) cs →
  ∃ text, dot_files (run_calls k host cs s) !! "vars.bash"%string = Some text ∧
    source_posix (length (chars text)) (chars text) = Some (sorted_values (foldl spec_call ∅ cs)).
Proof.
  intros Hs Hc Hv. pose proof (run_calls_simulates k host cs s ∅ Hs Hc) as [_ _ Hf].
  eexists. split; [apply Hf; right; left|]. apply source_posix_vars; [|done].
  apply Forall_forall. intros v [n Hn]%sorted_values_elem.
  by apply (spec_calls_values _ cs ∅ Hv (map_Forall_empty _) n).
Qed.

(** ** Witnesses *)

#[export] Instance no_wide_chars : WideChars := λ _, false.

Definition dot0 : DotState := DotStore.build (A := Var) Toy.key1 (mk_dot Store.empty ∅).
Definition set_editor : Call Var := CallSet draw1 (mk_var "EDITOR" "vim -u 'x'" true).

Lemma dot0_simulates : simulates (A := Var) Toy.key1 dot0 ∅.
Proof.
  constructor; [apply empty_wf|reflexivity|]. intros f text Hin. unfold dot0, DotStore.build. cbn [dot_files].
  apply files_written; [apply config_names|exact Hin].
Qed.

Lemma set_editor_ok : calls_ok Toy.key1 2 [set_editor] dot0.
Proof.
  split; [|done]. split; [apply appendable_empty; [exact Toy.rng_ok|split; vm_compute; congruence]|].
  split; by apply ascii_str.
Qed.

Lemma dotfiles_refine_map_witness :
  simulates Toy.key1 (run_call Toy.key1 2 set_editor dot0).1 (spec_call ∅ set_editor).
Proof. exact (proj2 (proj2 (dotfiles_refine_map Toy.key1 2 [] dot0 ∅ set_editor dot0_simulates set_editor_ok))). Defined.

Lemma sourced_variables_are_last_set_witness :
  ∃ text, dot_files (run_calls Toy.key1 2 [set_editor] dot0) !! "vars.bash"%string = Some text ∧
    source_posix (length (chars text)) (chars text) = Some [mk_var "EDITOR" "vim -u 'x'" true].
Proof.
  refine (sourced_variables_are_last_set Toy.key1 2 [set_editor] dot0 dot0_simulates set_editor_ok _).
  apply Forall_singleton. split; [reflexivity|]. apply (bool_decide_unpack _). vm_compute. exact I.
Defined.
