(* ===== verification/Scripts.v ===== *)
(** * The script store ([atuin-scripts/src/store.rs], [store/script.rs], [store/record.rs], [database.rs])

    Scripts and their log records, the two tables of the script database with their unique columns, and
    the rebuild of the database from the log. The text of a UUID is an interface. *)
From S2P Require Import Prelude Text Record Status Rmp RmpWire Encryption SqliteStore Log Kv.

(** ** Scripts *)

(** [Uuid]'s [Display] and [parse_str]. *)
Class UuidText : Type := { uuid_text : Uuid → string; parse_uuid_text : string → option Uuid }.

Class UuidTextLaws `{Rmp, UuidText} : Prop := {
  uuid_text_parses u : parse_uuid_text (uuid_text u) = Some u;
  uuid_text_str u : is_str (uuid_text u)
}.

Record Script : Type := mk_script {
  sc_id : Uuid; sc_name : string; sc_description : string; sc_shebang : string; sc_tags : list string; sc_script : string
}.

#[export] Instance Script_eq_dec : EqDecision Script.
Proof. solve_decision. Defined.

(** [ScriptRecord] *)
Inductive ScriptRecord : Type := SCreate (s : Script) | SUpdate (s : Script) | SDelete (id : Uuid).

(** A failure is a panic of an [unwrap], or an error. *)
Inductive ScriptError : Type := ScriptPanic | ScriptEyre (e : Eyre).

Definition unwrap {A E} (r : result A E) : result A ScriptError := map_err (λ _, ScriptPanic) r.

Section codec.
Context `{Rmp, UuidText}.

Definition sort_tags (l : list string) : list string := sort_by_key id l.

(** [Script::serialize] *)
Definition script_serialize (s : Script) : list Z :=
  write_array_len 6 ++ write_str (uuid_text (sc_id s)) ++ write_str (sc_name s) ++ write_str (sc_description s)
  ++ write_str (sc_shebang s) ++ write_array_len (Z.of_nat (length (sc_tags s)))
  ++ (sort_tags (sc_tags s) ≫= write_str) ++ write_str (sc_script s).

(** The loop that reads the tags. *)
Fixpoint read_tags (n : nat) (bytes : list Z) : result (list string * list Z) ScriptError :=
  match n with
  | O => Ok ([], bytes)
  | S n' =>
      let? (tag, bytes) := unwrap (read_str_from_slice bytes) in
      let? (tags, bytes) := read_tags n' bytes in
      Ok (tag :: tags, bytes)
  end.

(** [Script::deserialize] *)
Definition script_deserialize (bytes : list Z) : result Script ScriptError :=
  let '(bytes, n) := read_array_len bytes in
  let? nfields := unwrap n in
  if nfields =? 6 then
    let? (id, bytes) := unwrap (read_str_from_slice bytes) in
    let? (name, bytes) := unwrap (read_str_from_slice bytes) in
    let? (description, bytes) := unwrap (read_str_from_slice bytes) in
    let? (shebang, bytes) := unwrap (read_str_from_slice bytes) in
    let '(bytes, n) := read_array_len bytes in
    let? tags_len := unwrap n in
    let? (tags, bytes) := read_tags (Z.to_nat tags_len) bytes in
    let? (script, bytes) := unwrap (read_str_from_slice bytes) in
    match bytes with
    | [] => match parse_uuid_text id with
            | Some id => Ok (mk_script id name description shebang tags script)
            | None => Err ScriptPanic
            end
    | _ => Err (ScriptEyre (EyreMsg "trailing bytes in encoded script record. malformed"))
    end
  else Err (ScriptEyre (EyreMsg "too many entries in v0 script record")).

(** [ScriptRecord::serialize] *)
Definition srec_serialize (r : ScriptRecord) : list Z :=
  match r with
  | SCreate s => write_u8 0 ++ write_bin (script_serialize s)
  | SDelete id => write_u8 1 ++ write_str (uuid_text id)
  | SUpdate s => write_u8 2 ++ write_bin (script_serialize s)
  end.

(** [ScriptRecord::deserialize] *)
Definition srec_deserialize (data : list Z) (version : RecordVersion) : result ScriptRecord ScriptError :=
  let bad e := Err (ScriptEyre e) in
  match version with
  | V0 =>
      let '(bytes, t) := read_u8 data in
      let? record_type := map_err (λ e, ScriptEyre (EyreValue e)) t in
      let whole (c : Script → ScriptRecord) :=
        let '(bytes, n) := read_bin_len bytes in
        let? _ := map_err (λ e, ScriptEyre (EyreValue e)) n in
        let? s := script_deserialize bytes in Ok (c s) in
      if record_type =? 0 then whole SCreate
      else if record_type =? 1 then
        let? (id, _) := map_err (λ e, ScriptEyre (EyreStr e)) (read_str_from_slice bytes) in
        match parse_uuid_text id with Some id => Ok (SDelete id) | None => bad (EyreMsg "invalid UUID") end
      else if record_type =? 2 then whole SUpdate
      else bad (EyreMsg "unknown script record type")
  | _ => bad (EyreMsg "unknown script record version")
  end.

(** As an event: a panic is the end of the program, and no event. *)
Definition srec_event (data : list Z) (version : RecordVersion) : result ScriptRecord Eyre :=
  map_err (λ e, match e with ScriptEyre e => e | ScriptPanic => EyreMsg "panic" end) (srec_deserialize data version).
End codec.

#[export] Instance script_codec `{Rmp, UuidText} : EventCodec ScriptRecord := {|
  ev_tag := Record.Script; ev_version := V0; ev_known v := match v with V0 => true | _ => false end;
  ev_serialize := srec_serialize; ev_deserialize := srec_event
|}.

(** ** The database *)

Module ScriptDb.

(** The rows of [scripts], with no tags, and of [script_tags]. *)
Record t : Type := mk { scripts : list Script; tags : list (Uuid * string) }.

Definition row (s : Script) : Script := mk_script (sc_id s) (sc_name s) (sc_description s) (sc_shebang s) [] (sc_script s).

(** The unique columns of [scripts] that a row shares with another. *)
Definition clashes (s x : Script) : Prop := sc_id x = sc_id s ∨ sc_name x = sc_name s.
#[export] Instance clashes_dec s x : Decision (clashes s x).
Proof. unfold clashes. apply _. Defined.

(** The loop that inserts tags: insert or ignore. *)
Definition insert_tags (id : Uuid) (new : list string) (l : list (Uuid * string)) : list (Uuid * string) :=
  foldl (λ l tag, if decide ((id, tag) ∈ l) then l else l ++ [(id, tag)]) l new.

(** [save_raw]: insert or ignore, the tags in any case. *)
Definition save (s : Script) (db : t) : t :=
  mk (if decide (Exists (clashes s) (scripts db)) then scripts db else scripts db ++ [row s])
     (insert_tags (sc_id s) (sc_tags s) (tags db)).

Definition save_bulk (l : list Script) (db : t) : t := foldl (λ db s, save s db) db l.

Definition clear (db : t) : t := mk [] [].

Definition delete (id : Uuid) (db : t) : t :=
  mk (filter (λ x, sc_id x ≠ id) (scripts db)) (filter (λ p, p.1 ≠ id) (tags db)).

(** [update]: [None] is the error of the unique column, which rolls the transaction back. *)
Definition update (s : Script) (db : t) : option t :=
  if decide (Exists (λ x, sc_id x = sc_id s) (scripts db) ∧ Exists (λ x, sc_id x ≠ sc_id s ∧ sc_name x = sc_name s) (scripts db))
  then None
  else Some (mk ((λ x, if decide (sc_id x = sc_id s) then row s else x) <$> scripts db)
               (insert_tags (sc_id s) (sc_tags s) (filter (λ p, p.1 ≠ sc_id s) (tags db)))).

Definition with_tags (db : t) (s : Script) : Script :=
  mk_script (sc_id s) (sc_name s) (sc_description s) (sc_shebang s)
    (snd <$> filter (λ p, p.1 = sc_id s) (tags db)) (sc_script s).

(** [load], [list], [get_by_name] *)
Definition load (db : t) (id : Uuid) : option Script := with_tags db <$> List.find (λ s, bool_decide (sc_id s = id)) (scripts db).
Definition list (db : t) : list Script := with_tags db <$> scripts db.
Definition get_by_name (db : t) (name : string) : option Script :=
  with_tags db <$> List.find (λ s, bool_decide (sc_name s = name)) (scripts db).

End ScriptDb.

(** ** The store *)

Module ScriptStore.
Section store.
Context `{Rmp, UuidText, Crypto} (k : key) (host : HostId).

(** [create], [update], [delete]: one record each. *)
Definition create (d : Draw) (s : Script) := push_event d k host (SCreate s).
Definition update (d : Draw) (s : Script) := push_event d k host (SUpdate s).
Definition delete (d : Draw) (id : Uuid) := push_event d k host (SDelete id).

(** The loop of [scripts]: records that fail are skipped; [None] is a panic. *)
Fixpoint scripts_loop (l : list enc_record) : option (list ScriptRecord) :=
  match l with
  | [] => Some []
  | r :: l' =>
      let decoded := match r_version r with
                     | V0 => match decrypt k r with
                             | Ok p => srec_deserialize (r_data p) V0
                             | Err _ => Err (ScriptEyre (EyreMsg "decrypt"))
                             end
                     | _ => Err (ScriptEyre (EyreMsg "unknown script version"))
                     end in
      match decoded with
      | Ok s => cons s <$> scripts_loop l'
      | Err ScriptPanic => None
      | Err (ScriptEyre _) => scripts_loop l'
      end
  end.

Definition scripts (st : Store.t) : option (list ScriptRecord) := scripts_loop (Store.all_tagged st Record.Script).

(** The loop of [build]: the database so far, and whether a statement failed. *)
Definition replay_one (db : ScriptDb.t) (r : ScriptRecord) : option ScriptDb.t :=
  match r with
  | SCreate s => Some (ScriptDb.save s db)
  | SUpdate s => ScriptDb.update s db
  | SDelete id => Some (ScriptDb.delete id db)
  end.

Fixpoint replay (l : list ScriptRecord) (db : ScriptDb.t) : ScriptDb.t * result unit unit :=
  match l with
  | [] => (db, Ok tt)
  | r :: l' => match replay_one db r with Some db' => replay l' db' | None => (db, Err tt) end
  end.

(** [build] *)
Definition build (st : Store.t) (db : ScriptDb.t) : option (ScriptDb.t * result unit unit) :=
  l ← scripts st; Some (replay l (ScriptDb.clear db)).
End store.
End ScriptStore.

(** ** The codec *)

Definition with_sorted_tags (s : Script) : Script :=
  mk_script (sc_id s) (sc_name s) (sc_description s) (sc_shebang s) (sort_tags (sc_tags s)) (sc_script s).

Definition sorted_record (r : ScriptRecord) : ScriptRecord :=
  match r with
  | SCreate s => SCreate (with_sorted_tags s) | SUpdate s => SUpdate (with_sorted_tags s) | SDelete id => SDelete id
  end.

Section codec_laws.
Context `{RmpLaws, !UuidText, !UuidTextLaws}.

Record script_ok (s : Script) : Prop := {
  so_strs : is_str (sc_name s) ∧ is_str (sc_description s) ∧ is_str (sc_shebang s) ∧ is_str (sc_script s);
  so_tags : Forall is_str (sc_tags s);
  so_count : Z.of_nat (length (sc_tags s)) < 2 ^ 32;
  so_size : Z.of_nat (length (script_serialize s)) < 2 ^ 32
}.

Lemma read_tags_written tags rest :
  Forall is_str tags → read_tags (length tags) ((tags ≫= write_str) ++ rest) = Ok (tags, rest).
Proof.
  induction 1 as [|t tags Ht _ IH]; [done|]. cbn [length read_tags]. rewrite bind_cons, <- app_assoc, read_write_str by done.
  cbn. rewrite IH. done.
Qed.

Lemma script_roundtrip s : script_ok s → script_deserialize (script_serialize s) = Ok (with_sorted_tags s).
Proof.
  intros [(Hn & Hd & Hb & Hs) Ht Hc _]. unfold script_deserialize, script_serialize.
  rewrite read_write_array_len by lia. cbn [unwrap map_err rbind]. change (6 =? 6) with true. cbv iota.
  rewrite read_write_str by apply uuid_text_str. cbn [unwrap map_err rbind].
  do 3 (rewrite read_write_str by done; cbn [unwrap map_err rbind]).
  rewrite read_write_array_len by lia. cbn [unwrap map_err rbind].
  assert (length (sort_tags (sc_tags s)) = length (sc_tags s)) as Hl by apply length_sort_by.
  rewrite Nat2Z.id, <- Hl, read_tags_written.
  - cbn [rbind]. rewrite <- (app_nil_r (write_str (sc_script s))), read_write_str by done. cbn [unwrap map_err rbind].
    by rewrite uuid_text_parses.
  - apply Forall_forall. intros t Hin. unfold sort_tags, sort_by_key in Hin. rewrite elem_of_sort_by in Hin.
    rewrite Forall_forall in Ht. by apply Ht.
Qed.

Definition srec_ok (r : ScriptRecord) : Prop :=
  match r with SCreate s | SUpdate s => script_ok s | SDelete _ => True end.

Lemma srec_roundtrip r : srec_ok r → srec_deserialize (srec_serialize r) V0 = Ok (sorted_record r).
Proof.
  intros Hok. unfold srec_deserialize, srec_serialize. destruct r as [s|s|id]; rewrite read_write_u8 by lia; cbn [map_err rbind].
  - change (0 =? 0) with true. cbv iota. destruct Hok as [? ? ? Hsz] eqn:E. clear E.
    rewrite write_bin_eq, read_write_bin_len by lia. cbn [map_err rbind]. by rewrite script_roundtrip.
  - change (2 =? 0) with false. change (2 =? 1) with false. change (2 =? 2) with true. cbv iota. destruct Hok as [? ? ? Hsz] eqn:E. clear E.
    rewrite write_bin_eq, read_write_bin_len by lia. cbn [map_err rbind]. by rewrite script_roundtrip.
  - change (1 =? 0) with false. change (1 =? 1) with true. cbv iota.
    rewrite <- (app_nil_r (write_str (uuid_text id))), read_write_str by apply uuid_text_str. cbn [map_err rbind].
    by rewrite uuid_text_parses.
Qed.

#[export] Instance script_codec_laws : EventCodecLaws ScriptRecord.
Proof.
  refine {| ev_ok r := srec_ok r ∧ sorted_record r = r |}; [reflexivity..|].
  intros r [Hok Hs]. cbn. unfold srec_event. by rewrite srec_roundtrip, Hs.
Defined.
End codec_laws.

(** ** The rebuild *)

Definition add_tag (l : list string) (t : string) : list string := if decide (t ∈ l) then l else l ++ [t].

Definition tags_of (id : Uuid) (l : list (Uuid * string)) : list string := snd <$> filter (λ p, p.1 = id) l.

Lemma insert_tags_same id new l : tags_of id (ScriptDb.insert_tags id new l) = foldl add_tag (tags_of id l) new.
Proof.
  revert l. induction new as [|t new IH]; intros l; [done|]. cbn [foldl ScriptDb.insert_tags].
  change (foldl _ ?l0 new) with (ScriptDb.insert_tags id new l0) at 1. rewrite IH. f_equal. unfold add_tag, tags_of.
  assert ((id, t) ∈ l ↔ t ∈ snd <$> filter (λ p, p.1 = id) l) as Hin.
  { rewrite list_elem_of_fmap. split.
    - intros Hl. exists (id, t). split; [done|]. by apply list_elem_of_filter.
    - intros ([i u] & -> & [Hi Hp]%list_elem_of_filter). cbn in *. by subst. }
  destruct (decide ((id, t) ∈ l)) as [Hl|Hl].
  - rewrite decide_True by (by apply Hin). done.
  - rewrite decide_False by (by rewrite <- Hin). rewrite filter_app, fmap_app. by rewrite filter_cons_True.
Qed.

Lemma insert_tags_other id id' new l : id' ≠ id → tags_of id' (ScriptDb.insert_tags id new l) = tags_of id' l.
Proof.
  intros Hne. revert l. induction new as [|t new IH]; intros l; [done|]. cbn [foldl ScriptDb.insert_tags].
  change (foldl _ ?l0 new) with (ScriptDb.insert_tags id new l0) at 1. rewrite IH. case_decide; [done|].
  unfold tags_of. rewrite filter_app, filter_cons_False by (cbn; congruence). by rewrite filter_nil, app_nil_r.
Qed.

Lemma tags_of_filter id id' l : tags_of id' (filter (λ p, p.1 ≠ id) l) = if decide (id' = id) then [] else tags_of id' l.
Proof.
  unfold tags_of. rewrite list_filter_filter. case_decide as Hd.
  - subst. induction l as [|p l IH]; [done|]. rewrite filter_cons_False; [done|]. naive_solver.
  - f_equal. apply list_filter_iff. intros p. naive_solver.
Qed.

(** A script as the database keeps it: each tag once. *)
Definition stored (s : Script) : Script :=
  mk_script (sc_id s) (sc_name s) (sc_description s) (sc_shebang s) (foldl add_tag [] (sc_tags s)) (sc_script s).

(** The log as a map from ids to scripts. *)
Definition spec_record (m : gmap Uuid Script) (r : ScriptRecord) : gmap Uuid Script :=
  match r with
  | SCreate s | SUpdate s => <[sc_id s := stored s]> m
  | SDelete id => delete id m
  end.

(** A record that no other clashes with: a created script is new, an updated one is there, and its name
    is not taken. *)
Definition tidy (m : gmap Uuid Script) (r : ScriptRecord) : Prop :=
  match r with
  | SCreate s => m !! sc_id s = None ∧ map_Forall (λ _ x, sc_name x ≠ sc_name s) m
  | SUpdate s => is_Some (m !! sc_id s) ∧ map_Forall (λ i x, i ≠ sc_id s → sc_name x ≠ sc_name s) m
  | SDelete _ => True
  end.

Fixpoint tidy_log (m : gmap Uuid Script) (l : list ScriptRecord) : Prop :=
  match l with [] => True | r :: l' => tidy m r ∧ tidy_log (spec_record m r) l' end.

(** The tables stand for the map. *)
Record stands_for (db : ScriptDb.t) (m : gmap Uuid Script) : Prop := {
  sf_ids : NoDup (sc_id <$> ScriptDb.scripts db);
  sf_rows x : x ∈ ScriptDb.scripts db ↔ ∃ s, m !! sc_id x = Some s ∧ x = ScriptDb.row s;
  sf_tags id : tags_of id (ScriptDb.tags db) = from_option sc_tags [] (m !! id);
  sf_key id s : m !! id = Some s → sc_id s = id
}.

Lemma clear_stands db : stands_for (ScriptDb.clear db) ∅.
Proof.
  constructor; cbn; [constructor| |done|done]. intros x. split; [by intros ?%not_elem_of_nil|].
  intros (s & Hs & _). by rewrite lookup_empty in Hs.
Qed.

Lemma save_stands db m s :
  stands_for db m → tidy m (SCreate s) → stands_for (ScriptDb.save s db) (spec_record m (SCreate s)).
Proof.
  intros [Hids Hrows Htags Hkey] [Hnew Hname].
  assert (¬ Exists (ScriptDb.clashes s) (ScriptDb.scripts db)) as Hno.
  { rewrite Exists_exists. intros (x & (y & Hy & ->)%Hrows & [Hc|Hc]); cbn in *; [congruence|]. by apply (Hname _ _ Hy). }
  unfold ScriptDb.save. rewrite decide_False by done. constructor; cbn [ScriptDb.scripts ScriptDb.tags spec_record].
  - rewrite fmap_app. apply NoDup_app. split_and!; [done| |apply NoDup_singleton].
    intros i (x & -> & Hx)%list_elem_of_fmap Hs%list_elem_of_singleton. cbn in Hs. apply Hrows in Hx as (y & Hy & _). congruence.
  - intros x. rewrite elem_of_app, list_elem_of_singleton, Hrows. split.
    + intros [(y & Hy & Hx)|Hx].
      * exists y. split; [|done]. rewrite lookup_insert_ne by congruence. done.
      * exists (stored s). rewrite Hx. cbn. by rewrite lookup_insert_eq.
    + intros (y & [[He <-]|[Hne Hy]]%lookup_insert_Some & Hx); [by right|left; eauto].
  - intros id. destruct (decide (id = sc_id s)) as [->|Hne].
    + rewrite insert_tags_same, lookup_insert_eq. cbn. by rewrite Htags, Hnew.
    + rewrite insert_tags_other, lookup_insert_ne by done. apply Htags.
  - intros id y [[He <-]|[Hne Hy]]%lookup_insert_Some; [done|by apply Hkey].
Qed.

Lemma delete_stands db m id : stands_for db m → stands_for (ScriptDb.delete id db) (spec_record m (SDelete id)).
Proof.
  intros [Hids Hrows Htags Hkey]. constructor; cbn [ScriptDb.delete ScriptDb.scripts ScriptDb.tags spec_record].
  - by apply NoDup_fmap_filter.
  - intros x. rewrite list_elem_of_filter, Hrows. split.
    + intros [Hne (y & Hy & Hx)]. exists y. by rewrite lookup_delete_ne.
    + intros (y & [Hne Hy]%lookup_delete_Some & Hx). split; [done|eauto].
  - intros i. rewrite tags_of_filter. case_decide as Hd; [subst; by rewrite lookup_delete_eq|by rewrite lookup_delete_ne].
  - intros i y [_ Hy]%lookup_delete_Some. by apply Hkey.
Qed.

Lemma update_stands db m s :
  stands_for db m → tidy m (SUpdate s) →
  ∃ db', ScriptDb.update s db = Some db' ∧ stands_for db' (spec_record m (SUpdate s)).
Proof.
  intros [Hids Hrows Htags Hkey] [[old Hold] Hname]. unfold ScriptDb.update. rewrite decide_False.
  2: { intros [_ (x & (y & Hy & ->)%Hrows & Hne & Hn)%Exists_exists]. cbn in *. by apply (Hname _ _ Hy). }
  eexists. split; [reflexivity|]. constructor; cbn [ScriptDb.scripts ScriptDb.tags spec_record].
  - rewrite <- list_fmap_compose.
    assert (∀ l, (sc_id ∘ λ x, if decide (sc_id x = sc_id s) then ScriptDb.row s else x) <$> l = sc_id <$> l) as ->; [|exact Hids].
    intros l. apply list_fmap_ext. intros _ x _. cbn. by case_decide.
  - intros x. rewrite list_elem_of_fmap. split.
    + intros (z & -> & (y & Hy & Hz)%Hrows). case_decide as Hd.
      * exists (stored s). cbn. by rewrite lookup_insert_eq.
      * exists y. by rewrite lookup_insert_ne.
    + intros (y & [[He <-]|[Hne Hy]]%lookup_insert_Some & Hx).
      * exists (ScriptDb.row old). rewrite decide_True by (cbn; by apply Hkey). split; [done|]. apply Hrows. exists old.
        cbn. by rewrite (Hkey _ _ Hold).
      * exists x. rewrite decide_False by done. split; [done|]. apply Hrows. eauto.
  - intros id. destruct (decide (id = sc_id s)) as [->|Hne].
    + rewrite insert_tags_same, lookup_insert_eq, tags_of_filter, decide_True by done. done.
    + rewrite insert_tags_other, lookup_insert_ne, tags_of_filter, decide_False by done. apply Htags.
  - intros id y [[He <-]|[Hne Hy]]%lookup_insert_Some; [done|by apply Hkey].
Qed.

Lemma replay_stands l db m :
  stands_for db m → tidy_log m l →
  ∃ db', ScriptStore.replay l db = (db', Ok tt) ∧ stands_for db' (foldl spec_record m l).
Proof.
  revert db m. induction l as [|r l IH]; intros db m Hs Ht; [by exists db|]. destruct Ht as [Hr Hl]. cbn [ScriptStore.replay foldl].
  assert (∃ db', ScriptStore.replay_one db r = Some db' ∧ stands_for db' (spec_record m r)) as (db' & -> & Hs').
  { destruct r as [s|s|id]; cbn [ScriptStore.replay_one].
    - eexists. split; [done|]. by apply save_stands.
    - by apply update_stands.
    - eexists. split; [done|]. by apply delete_stands. }
  by apply IH.
Qed.

Lemma scripts_read_log `{Rmp, UuidText, Crypto} k st l : ScriptStore.scripts k st = Some l → l = read_log k st.
Proof.
  unfold ScriptStore.scripts, read_log. cbn [ev_tag script_codec]. generalize (Store.all_tagged st Record.Script). intros rs. revert l.
  induction rs as [|r rs IH]; intros l; cbn [ScriptStore.scripts_loop omap list_omap]; [by intros [= <-]|].
  unfold read_event at 1. cbn [ev_known ev_deserialize script_codec].
  destruct (r_version r) eqn:Ev; try (intros E; rewrite (IH _ E); done).
  destruct (decrypt k r) as [p|e] eqn:Ed; [|intros E; by rewrite (IH _ E)].
  assert (r_version p = V0) as ->.
  { apply decrypt_Ok_inv in Ed as [-> _]. exact Ev. }
  unfold srec_event. destruct (srec_deserialize (r_data p) V0) as [s|[|e]]; cbn.
  - destruct (ScriptStore.scripts_loop k rs) as [l'|]; cbn; [|done]. intros [= <-]. by rewrite <- (IH l').
  - done.
  - intros E. by rewrite (IH _ E).
Qed.

(** ** Correctness *)

(** A script record reads back as it was written, with its tags sorted; the log then gives it to every
    reader with the key. *)
Theorem script_record_roundtrip `{RmpLaws, !UuidText, !UuidTextLaws} r :
  srec_ok r → srec_deserialize (srec_serialize r) V0 = Ok (sorted_record r).
Proof. apply srec_roundtrip. Qed.

(** The rebuilt script database is the map of the log, whatever it held before: with records that
    decode and do not clash, [build] succeeds, and the database then lists exactly the scripts that were
    created and not deleted since, each in its latest version and with each of its tags once. *)
Theorem scripts_rebuild `{Rmp, UuidText, Crypto} k st db l :
  ScriptStore.scripts k st = Some l → tidy_log ∅ l →
  ∃ db', ScriptStore.build k st db = Some (db', Ok tt) ∧ l = read_log k st ∧
    NoDup (sc_id <$> ScriptDb.list db') ∧
    ∀ s, s ∈ ScriptDb.list db' ↔ foldl spec_record ∅ l !! sc_id s = Some s.
Proof.
  intros Hl Ht. unfold ScriptStore.build. rewrite Hl. cbn [mbind option_bind].
  destruct (replay_stands l (ScriptDb.clear db) ∅ (clear_stands db) Ht) as (db' & -> & [Hids Hrows Htags Hkey]).
  exists db'. split; [done|]. split; [by apply scripts_read_log|].
  assert (∀ x s, x = ScriptDb.row s → foldl spec_record ∅ l !! sc_id x = Some s → ScriptDb.with_tags db' x = s) as Hw.
  { intros x s -> Hs. unfold ScriptDb.with_tags. cbn in *. pose proof (Htags (sc_id s)) as Hts. unfold tags_of in Hts.
    rewrite Hts, Hs. by destruct s. }
  split.
  - unfold ScriptDb.list. rewrite <- list_fmap_compose. done.
  - intros s. unfold ScriptDb.list. rewrite list_elem_of_fmap. split.
    + intros (x & -> & (y & Hy & Hx)%Hrows). rewrite (Hw x y Hx Hy). subst x. done.
    + intros Hs. exists (ScriptDb.row s). assert (foldl spec_record ∅ l !! sc_id (ScriptDb.row s) = Some s) as Hs' by done.
      split; [by rewrite (Hw _ s)|]. apply Hrows. by exists s.
Qed.

(** ** Witnesses *)

(** A UUID written in unary. *)
#[export] Instance unary_uuid : UuidText := {|
  uuid_text u := unchars (replicate (N.to_nat u) (byte 49));
  parse_uuid_text s := Some (N.of_nat (String.length s))
|}.

Definition script_a : Script := mk_script 1 "a" "" "" ["x"; "x"]%string "echo".
Definition script_b (name : string) : Script := mk_script 2 name "" "" [] "true".

Definition push_all (rs : list (Draw * ScriptRecord)) : Store.t :=
  foldl (λ st p, (push_event p.1 Toy.key1 2 p.2 st).1) Store.empty rs.

Definition scripts_store : Store.t := push_all [(draw1, SCreate script_a); (draw2, SCreate (script_b "b"))].

Lemma scripts_rebuild_witness :
  ∃ db, ScriptStore.build Toy.key1 scripts_store (ScriptDb.mk [] []) = Some (db, Ok tt) ∧
    stored script_a ∈ ScriptDb.list db.
Proof.
  destruct (scripts_rebuild Toy.key1 scripts_store (ScriptDb.mk [] []) [SCreate script_a; SCreate (script_b "b")]) as (db & E & _ & _ & Hin).
  - vm_compute. reflexivity.
  - repeat split; try done; apply (bool_decide_unpack _); vm_compute; exact I.
  - exists db. split; [exact E|]. apply Hin. vm_compute. reflexivity.
Defined.

(** ** Where the rebuild fails *)

(** A script renamed to a name in use, as two hosts can do without knowing of each other, makes every
    rebuild end in an error, with the later records left out. *)
Lemma renamed_script_blocks_build :
  let st := push_all [(draw1, SCreate script_a); (draw2, SCreate (script_b "b")); (mk_draw 3 7 Toy.rng, SUpdate (script_b "a"));
                      (mk_draw 4 8 Toy.rng, SDelete 1)] in
  ∃ db, ScriptStore.build Toy.key1 st (ScriptDb.mk [] []) = Some (db, Err tt) ∧ sc_name <$> ScriptDb.list db = ["a"; "b"]%string.
Proof. eexists. split; vm_compute; reflexivity. Qed.

(** Of two scripts created with one name the second is not stored, its tags are. *)
Lemma same_name_script_dropped :
  ∃ db, ScriptStore.replay [SCreate script_a; SCreate (mk_script 2 "a" "" "" ["t"%string] "")] (ScriptDb.mk [] []) = (db, Ok tt) ∧
    sc_id <$> ScriptDb.list db = [1%N] ∧ (2%N, "t"%string) ∈ ScriptDb.tags db.
Proof. eexists. split; [vm_compute; reflexivity|]. split; [reflexivity|]. apply (bool_decide_unpack _). vm_compute. exact I. Qed.

(** A script that does not decode panics instead of being skipped. *)
Lemma malformed_script_panics :
  srec_deserialize (write_u8 0 ++ write_bin (write_array_len 6)) V0 = Err ScriptPanic.
Proof. vm_compute. reflexivity. Qed.
