(* ===== verification/History.v ===== *)
(** * History entries ([atuin-client/src/history.rs], [history/builder.rs],
      [atuin-domain/src/record/cmd_origin.rs])

    The entry type, who ran a command, and the three versions of its encoding. A point in time is its
    number of nanoseconds since the epoch. The environment a new entry reads is the record
    [Probe]. *)
From S2P Require Import Prelude Text Record Rmp RmpWire Encryption SqliteStore Log.

(** ** The origin of a command *)

(** [CmdOrigin]: the text and the position of its separator. *)
Record CmdOrigin : Type := mk_origin { o_raw : string; o_sep : nat }.

#[export] Instance CmdOrigin_eq_dec : EqDecision CmdOrigin.
Proof. solve_decision. Defined.

Definition UNKNOWN_USER : string := "unknown-user".

Module Origin.

Definition colon : Ascii.ascii := byte 58.

(** [str::find] of a character. *)
Fixpoint find_l (c : Ascii.ascii) (l : list Ascii.ascii) : option nat :=
  match l with
  | [] => None
  | a :: l' => if decide (a = c) then Some O else S <$> find_l c l'
  end.

Definition new (host user : string) : CmdOrigin := mk_origin (host ++ ":" ++ user) (String.length host).

Definition host (o : CmdOrigin) : string := unchars (take (o_sep o) (chars (o_raw o))).

Definition user (o : CmdOrigin) : string := unchars (drop (S (o_sep o)) (chars (o_raw o))).

(** [parse_lenient]: a text without a colon is a host of an unknown user. *)
Definition parse_lenient (value : string) : CmdOrigin :=
  match find_l colon (chars value) with
  | Some sep => mk_origin value sep
  | None => new value UNKNOWN_USER
  end.

(** [TryFrom<String>]; the error is the text. *)
Definition try_from (value : string) : result CmdOrigin string :=
  match find_l colon (chars value) with
  | Some sep => Ok (mk_origin value sep)
  | None => Err value
  end.

End Origin.

(** ** Authors *)

Inductive AuthorKind : Type := KindUser | KindAgent.

#[export] Instance AuthorKind_eq_dec : EqDecision AuthorKind.
Proof. solve_decision. Defined.

(** [AuthorKind::as_u8] and strum's [from_repr]. *)
Definition kind_as_u8 (a : AuthorKind) : Z := match a with KindUser => 1 | KindAgent => 2 end.
Definition kind_from_repr (z : Z) : option AuthorKind :=
  if z =? 1 then Some KindUser else if z =? 2 then Some KindAgent else None.

Definition KNOWN_AGENTS : list string := ["claude-code"; "codex"; "copilot"; "opencode"; "pi"].
Definition is_known_agent (author : string) : bool := bool_decide (author ∈ KNOWN_AGENTS).

Inductive AuthorPattern : Type := AllUser | AllAgent | AuthorName (s : string).

(** [From<String> for AuthorPattern] *)
Definition pattern_from_string (value : string) : AuthorPattern :=
  if decide (value = "$all-user") then AllUser
  else if decide (value = "$all-agent") then AllAgent
  else AuthorName value.

(** ** Entries *)

(** [struct History] *)
Record Entry : Type := mk_hist {
  h_id : string; h_timestamp : Z; h_duration : Z; h_exit : Z; h_command : string; h_cwd : string;
  h_session : string; h_origin : CmdOrigin; h_author : string; h_intent : option string;
  h_deleted_at : option Z; h_shell : option string; h_author_kind : option AuthorKind
}.

#[export] Instance Entry_eq_dec : EqDecision Entry.
Proof. solve_decision. Defined.

(** [normalize_optional_string] *)
Definition normalize_optional_string (s : option string) : option string :=
  s ← s; let t := trim_start (trim_end s) in if decide (t = "") then None else Some t.

(** What the environment answers: [ATUIN_SESSION], [ATUIN_HISTORY_AUTHOR], [ATUIN_HISTORY_INTENT],
    the current origin, and the two fresh UUIDs in their simple form. *)
Record Probe : Type := mk_probe {
  p_session : option string; p_author : option string; p_intent : option string;
  p_origin : CmdOrigin; p_new_session : string; p_new_id : string
}.

Definition or_else {A} (x y : option A) : option A := match x with Some _ => x | None => y end.

Module Entry.

(** [History::new] *)
Definition new (p : Probe) (timestamp : Z) (command cwd : string) (exit duration : Z)
    (session : option string) (cmd_origin : option CmdOrigin) (author intent : option string)
    (deleted_at : option Z) (shell : option string) (author_kind : option AuthorKind) : Entry :=
  let session := default (p_new_session p) (or_else session (p_session p)) in
  let cmd_origin := default (p_origin p) cmd_origin in
  let author := default (Origin.user cmd_origin)
                  (or_else (normalize_optional_string author) (normalize_optional_string (p_author p))) in
  let intent := or_else (normalize_optional_string intent) (normalize_optional_string (p_intent p)) in
  mk_hist (p_new_id p) timestamp duration exit command cwd session cmd_origin author intent deleted_at
    (normalize_optional_string shell) author_kind.

(** [From<HistoryCaptured>]: a stated agent name that is not the user's own marks an agent. *)
Definition captured (p : Probe) (timestamp : Z) (command cwd : string) (author : option string)
    (cmd_origin : option CmdOrigin) (intent shell : option string) (author_kind : option AuthorKind) : Entry :=
  let author := normalize_optional_string author in
  let cmd_origin := default (p_origin p) cmd_origin in
  let stated := map_or false (λ a, is_known_agent a && negb (bool_decide (a = Origin.user cmd_origin))) author in
  let author_kind := or_else author_kind (if stated then Some KindAgent else None) in
  new p timestamp command cwd (-1) (-1) None (Some cmd_origin) author intent None shell author_kind.

(** [History::is_agent] *)
Definition is_agent (h : Entry) : bool :=
  match h_author_kind h with
  | Some kind => bool_decide (kind = KindAgent)
  | None =>
      let user := Origin.user (h_origin h) in
      let defaulted := if decide (user = UNKNOWN_USER) then Origin.host (h_origin h) else user in
      is_known_agent (h_author h) && negb (bool_decide (h_author h = defaulted))
  end.

(** [History::success] *)
Definition success (h : Entry) : bool := (h_exit h =? 0) || (h_duration h =? -1).

(** [History::should_save]; the regular expressions of the settings and of the secrets are
    arguments. *)
Definition should_save (history_filter cwd_filter : string → bool) (secrets_filter : bool)
    (secret : string → bool) (h : Entry) : bool :=
  negb (starts_with " " (h_command h)
        || bool_decide (h_command h = "")
        || history_filter (h_command h)
        || cwd_filter (h_cwd h)
        || (secrets_filter && secret (h_command h))).

End Entry.

(** ** Versions *)

Inductive HVersion : Type := HZero | HOne | HTwo.

#[export] Instance HVersion_eq_dec : EqDecision HVersion.
Proof. solve_decision. Defined.

Module HVersion.

Definition from_name (s : string) : option HVersion :=
  if decide (s = "v0") then Some HZero
  else if decide (s = "v1") then Some HOne
  else if decide (s = "v2") then Some HTwo
  else None.

Definition name (v : HVersion) : string := match v with HZero => "v0" | HOne => "v1" | HTwo => "v2" end.
Definition as_int (v : HVersion) : Z := match v with HZero => 0 | HOne => 1 | HTwo => 2 end.
Definition min_fields (v : HVersion) : Z := match v with HZero => 9 | HOne => 10 | HTwo => 12 end.
Definition max_fields (v : HVersion) : option Z :=
  match v with HZero => Some 9 | HOne => Some 11 | HTwo => None end.

End HVersion.

Definition LATEST_SERIALIZED_FIELDS : Z := 13.
Definition V2_AUTHOR_KIND_FIELD_NUMBER : Z := 13.

(** ** The codec *)

(** [d.unix_timestamp_nanos() as u64] *)
Definition nanos_as_u64 (t : Z) : Z := t mod u64_limit.

Section codec.
Context `{Rmp}.

(** The nine fields every version has. *)
Definition write_common (h : Entry) : list Z :=
  write_str (h_id h) ++ write_u64 (nanos_as_u64 (h_timestamp h)) ++ write_sint (h_duration h)
  ++ write_sint (h_exit h) ++ write_str (h_command h) ++ write_str (h_cwd h) ++ write_str (h_session h)
  ++ write_str (o_raw (h_origin h)) ++ write_optional (nanos_as_u64 <$> h_deleted_at h) write_u64.

(** The four fields of version 2. *)
Definition write_v2_fields (h : Entry) : list Z :=
  write_str (h_author h) ++ write_optional (h_intent h) write_str ++ write_optional (h_shell h) write_str
  ++ write_optional (kind_as_u8 <$> h_author_kind h) write_uint8.

(** [History::serialize] *)
Definition hist_serialize (h : Entry) : list Z :=
  write_u16 (HVersion.as_int HTwo) ++ write_array_len LATEST_SERIALIZED_FIELDS
  ++ write_common h ++ write_v2_fields h.

Abbreviation HReader A := (stm (list Z) Eyre A) (only parsing).

Definition rd_value {A} (r : stm (list Z) ValueReadError A) : HReader A :=
  rd_map_err (λ e, EyreDecode (ValueRead e)) r.
Definition rd_i64 : HReader Z :=
  rd_map_err (λ e, EyreDecode (NumValueRead e)) (read_int (- i64_limit) (i64_limit - 1)).
Definition rd_string : HReader string := rd_map_err EyreDecode read_string.
Definition rd_opt {A} (r : stm (list Z) DecodeError A) : HReader (option A) :=
  rd_map_err EyreDecode (read_optional r).
Definition rd_guard (b : bool) (msg : string) : HReader unit := if b then st_ret tt else st_fail (EyreMsg msg).
Definition rd_rest : HReader (list Z) := λ bs, (bs, Ok bs).

(** [History::deserialize] of a known version. *)
Definition hist_reader (v : HVersion) : HReader Entry :=
  let! real_version := rd_value read_u16 in
  let! _ := rd_guard (real_version =? HVersion.as_int v) "expected another version" in
  let! nfields := rd_value read_array_len in
  let! _ := rd_guard (negb ((nfields <? HVersion.min_fields v)
                            || map_or false (λ m, m <? nfields) (HVersion.max_fields v)))
              "unexpected number of fields" in
  let! id := rd_string in
  let! timestamp := rd_value read_u64 in
  let! duration := rd_i64 in
  let! exit := rd_i64 in
  let! command := rd_string in
  let! cwd := rd_string in
  let! session := rd_string in
  let! raw_origin := rd_string in
  let cmd_origin := Origin.parse_lenient raw_origin in
  let! deleted_at := rd_opt (rd_map_err ValueRead read_u64) in
  let! author := if 1 <=? HVersion.as_int v then rd_opt read_string else st_ret None in
  let! intent := if (match v with
                     | HZero => false
                     | HOne => HVersion.min_fields v <? nfields
                     | HTwo => true
                     end) then rd_opt read_string else st_ret None in
  let! shell := if 2 <=? HVersion.as_int v then rd_opt read_string else st_ret None in
  let! kind := if (2 <=? HVersion.as_int v) && (V2_AUTHOR_KIND_FIELD_NUMBER <=? nfields)
               then rd_opt (rd_map_err NumValueRead (read_int 0 255)) else st_ret None in
  let! rest := rd_rest in
  let! _ := rd_guard (negb ((HVersion.as_int v <? 2) && negb (bool_decide (rest = []))))
              "trailing bytes in encoded history. malformed" in
  st_ret (mk_hist id timestamp duration exit command cwd session cmd_origin
            (default (Origin.user cmd_origin) author) intent deleted_at shell (kind ≫= kind_from_repr)).

(** [History::deserialize] *)
Definition hist_deserialize (bytes : list Z) (version : string) : result Entry Eyre :=
  match HVersion.from_name version with
  | None => Err (EyreMsg "unknown version")
  | Some v => (hist_reader v bytes).2
  end.
End codec.

(** ** Lemmas *)

(** An entry within the ranges of its Rust types, whose origin is one its text parses to. *)
Record entry_ok `{Rmp} (h : Entry) : Prop := mk_entry_ok {
  eo_strs : is_str (h_id h) ∧ is_str (h_command h) ∧ is_str (h_cwd h) ∧ is_str (h_session h) ∧
            is_str (o_raw (h_origin h)) ∧ is_str (h_author h);
  eo_opts : (∀ s, h_intent h = Some s → is_str s) ∧ (∀ s, h_shell h = Some s → is_str s);
  eo_times : is_u64 (h_timestamp h) ∧ ∀ t, h_deleted_at h = Some t → is_u64 t;
  eo_ints : (- i64_limit ≤ h_duration h < i64_limit) ∧ (- i64_limit ≤ h_exit h < i64_limit);
  eo_origin : Origin.parse_lenient (o_raw (h_origin h)) = h_origin h
}.

Section codec_laws.
Context `{RmpLaws}.

Lemma rd_string_write s rest : is_str s → rd_string (write_str s ++ rest) = (rest, Ok s).
Proof. intros Hs. unfold rd_string, rd_map_err. by rewrite read_string_write. Qed.

Lemma rd_u64_write n rest : is_u64 n → rd_value read_u64 (write_u64 n ++ rest) = (rest, Ok n).
Proof. intros Hn. unfold rd_value, rd_map_err. by rewrite read_write_u64. Qed.

Lemma rd_i64_write n rest : - i64_limit ≤ n < i64_limit → rd_i64 (write_sint n ++ rest) = (rest, Ok n).
Proof. intros Hn. unfold rd_i64, rd_map_err. rewrite read_write_sint by lia. done. Qed.

Lemma rd_opt_string v rest :
  (∀ s, v = Some s → is_str s) → rd_opt read_string (write_optional v write_str ++ rest) = (rest, Ok v).
Proof. intros Hv. unfold rd_opt, rd_map_err. by rewrite read_optional_string. Qed.

Lemma rd_opt_u64 v rest :
  (∀ n, v = Some n → is_u64 n) →
  rd_opt (rd_map_err ValueRead read_u64) (write_optional v write_u64 ++ rest) = (rest, Ok v).
Proof. intros Hv. unfold rd_opt. unfold rd_map_err at 1. by rewrite read_optional_u64. Qed.

Lemma rd_opt_kind v rest :
  rd_opt (rd_map_err NumValueRead (read_int 0 255)) (write_optional (kind_as_u8 <$> v) write_uint8 ++ rest)
    = (rest, Ok (kind_as_u8 <$> v)).
Proof.
  unfold rd_opt. unfold rd_map_err at 1. rewrite read_optional_write; [done|..].
  - intros x Hx. unfold rd_map_err. destruct v as [a|]; [|done]. injection Hx as <-.
    rewrite read_write_uint8 by (destruct a; simpl; lia). done.
  - intros _. unfold rd_map_err. rewrite read_int_nil. by eexists.
Qed.

Lemma kind_roundtrip v : (kind_as_u8 <$> v) ≫= kind_from_repr = v.
Proof. by destruct v as [[]|]. Qed.

Lemma nanos_fits t : is_u64 t → nanos_as_u64 t = t.
Proof. unfold nanos_as_u64, is_u64. intros. by apply Z.mod_small. Qed.

(** What reading the common fields leaves to the rest of the reader. *)
Definition after_common (v : HVersion) (nfields : Z) (h : Entry) : stm (list Z) Eyre Entry :=
  let! author := if 1 <=? HVersion.as_int v then rd_opt read_string else st_ret None in
  let! intent := if (match v with
                     | HZero => false
                     | HOne => HVersion.min_fields v <? nfields
                     | HTwo => true
                     end) then rd_opt read_string else st_ret None in
  let! shell := if 2 <=? HVersion.as_int v then rd_opt read_string else st_ret None in
  let! kind := if (2 <=? HVersion.as_int v) && (V2_AUTHOR_KIND_FIELD_NUMBER <=? nfields)
               then rd_opt (rd_map_err NumValueRead (read_int 0 255)) else st_ret None in
  let! rest := rd_rest in
  let! _ := rd_guard (negb ((HVersion.as_int v <? 2) && negb (bool_decide (rest = []))))
              "trailing bytes in encoded history. malformed" in
  st_ret (mk_hist (h_id h) (h_timestamp h) (h_duration h) (h_exit h) (h_command h) (h_cwd h) (h_session h)
            (h_origin h) (default (Origin.user (h_origin h)) author) intent (h_deleted_at h) shell
            (kind ≫= kind_from_repr)).

Lemma hist_reader_common v n h tl :
  entry_ok h → HVersion.min_fields v ≤ n < 2 ^ 32 → (∀ m, HVersion.max_fields v = Some m → n ≤ m) →
  hist_reader v (write_u16 (HVersion.as_int v) ++ write_array_len n ++ write_common h ++ tl) =
    after_common v n h tl.
Proof.
  intros [(Hid & Hcmd & Hcwd & Hse & Ho & _) _ [Hts Hdel] [Hdur Hex] Hor] Hn Hm.
  unfold hist_reader. rewrite (st_bind_ok _ _ _ (write_array_len n ++ write_common h ++ tl) (HVersion.as_int v)).
  2:{ unfold rd_value, rd_map_err. rewrite read_write_u16 by (destruct v; simpl; lia). done. }
  unfold rd_guard at 1. rewrite Z.eqb_refl. rewrite (st_bind_ok (st_ret tt) _ _ _ tt) by done.
  rewrite (st_bind_ok _ _ _ (write_common h ++ tl) n).
  2:{ unfold rd_value, rd_map_err. rewrite read_write_array_len by (destruct v; simpl in Hn; lia). done. }
  assert (negb ((n <? HVersion.min_fields v) || map_or false (λ m, m <? n) (HVersion.max_fields v)) = true) as ->.
  { destruct (Z.ltb_spec n (HVersion.min_fields v)); [lia|]. simpl.
    destruct (HVersion.max_fields v) as [m|]; [|done]. simpl. specialize (Hm m eq_refl).
    destruct (Z.ltb_spec m n); [lia|done]. }
  unfold rd_guard at 1. rewrite (st_bind_ok (st_ret tt) _ _ _ tt) by done.
  unfold write_common. rewrite <- !app_assoc. rewrite nanos_fits by done.
  erewrite st_bind_ok by (by apply rd_string_write).
  erewrite st_bind_ok by (by apply rd_u64_write).
  erewrite st_bind_ok by (by apply rd_i64_write).
  erewrite st_bind_ok by (by apply rd_i64_write).
  do 4 (erewrite st_bind_ok by (by apply rd_string_write)).
  rewrite Hor. cbv zeta.
  assert (nanos_as_u64 <$> h_deleted_at h = h_deleted_at h) as ->.
  { destruct (h_deleted_at h) as [t|]; [|done]. simpl. by rewrite nanos_fits by auto. }
  erewrite st_bind_ok by (by apply rd_opt_u64). done.
Qed.

(** Later versions may append fields: they are skipped. *)
Lemma hist_v2_decodes n h extra :
  entry_ok h → 13 ≤ n < 2 ^ 32 →
  hist_deserialize (write_u16 2 ++ write_array_len n ++ write_common h ++ write_v2_fields h ++ extra) "v2" = Ok h.
Proof.
  intros Hok Hn. unfold hist_deserialize. change (HVersion.from_name "v2") with (Some HTwo). cbv iota.
  rewrite (hist_reader_common HTwo); [|done|simpl; lia|done].
  pose proof Hok as [(_ & _ & _ & _ & _ & Ha) [Hi Hs] _ _ _].
  unfold after_common, write_v2_fields. cbn [HVersion.as_int HVersion.min_fields].
  change (1 <=? 2) with true. change (2 <=? 2) with true. change (2 <? 2) with false.
  unfold V2_AUTHOR_KIND_FIELD_NUMBER. destruct (Z.leb_spec 13 n); [|lia]. cbn [andb negb].
  rewrite <- !app_assoc.
  change (write_str (h_author h)) with (write_optional (Some (h_author h)) write_str).
  erewrite st_bind_ok by (apply rd_opt_string; intros s [= <-]; done).
  erewrite st_bind_ok by (by apply rd_opt_string).
  erewrite st_bind_ok by (by apply rd_opt_string).
  erewrite st_bind_ok by (by apply rd_opt_kind).
  unfold st_bind, rd_rest, rd_guard, st_ret. rewrite kind_roundtrip. by destruct h.
Qed.

(** Version 2 before the author's kind was appended. *)
Lemma hist_v2_launch_decodes h :
  entry_ok h →
  hist_deserialize (write_u16 2 ++ write_array_len 12 ++ write_common h ++ write_str (h_author h)
    ++ write_optional (h_intent h) write_str ++ write_optional (h_shell h) write_str) "v2" =
  Ok (mk_hist (h_id h) (h_timestamp h) (h_duration h) (h_exit h) (h_command h) (h_cwd h) (h_session h)
        (h_origin h) (h_author h) (h_intent h) (h_deleted_at h) (h_shell h) None).
Proof.
  intros Hok. unfold hist_deserialize. change (HVersion.from_name "v2") with (Some HTwo). cbv iota.
  rewrite (hist_reader_common HTwo); [|done|simpl; lia|done].
  pose proof Hok as [(_ & _ & _ & _ & _ & Ha) [Hi Hs] _ _ _].
  unfold after_common. cbn [HVersion.as_int HVersion.min_fields].
  change (1 <=? 2) with true. change (2 <=? 2) with true. change (2 <? 2) with false.
  change (V2_AUTHOR_KIND_FIELD_NUMBER <=? 12) with false. cbn [andb negb].
  change (write_str (h_author h)) with (write_optional (Some (h_author h)) write_str).
  erewrite st_bind_ok by (apply rd_opt_string; intros s [= <-]; done).
  erewrite st_bind_ok by (by apply rd_opt_string).
  rewrite <- (app_nil_r (write_optional (h_shell h) write_str)).
  erewrite st_bind_ok by (by apply rd_opt_string). done.
Qed.

(** Version 1, with and without an intent. *)
Lemma hist_v1_decodes h (author : option string) (intent : option (option string)) :
  entry_ok h → (∀ s, author = Some s → is_str s) → (∀ s, intent = Some (Some s) → is_str s) →
  hist_deserialize (write_u16 1 ++ write_array_len (match intent with Some _ => 11 | None => 10 end)
    ++ write_common h ++ write_optional author write_str
    ++ match intent with Some i => write_optional i write_str | None => [] end) "v1" =
  Ok (mk_hist (h_id h) (h_timestamp h) (h_duration h) (h_exit h) (h_command h) (h_cwd h) (h_session h)
        (h_origin h) (default (Origin.user (h_origin h)) author) (default None intent) (h_deleted_at h) None None).
Proof.
  intros Hok Ha Hi. unfold hist_deserialize. change (HVersion.from_name "v1") with (Some HOne). cbv iota.
  rewrite (hist_reader_common HOne); [|done|by destruct intent|].
  2:{ intros m [= <-]. by destruct intent. }
  unfold after_common. cbn [HVersion.as_int HVersion.min_fields].
  change (1 <=? 1) with true. change (2 <=? 1) with false. change (1 <? 2) with true. cbn [andb].
  erewrite st_bind_ok by (by apply rd_opt_string). destruct intent as [i|].
  - change (10 <? 11) with true. cbv iota. rewrite <- (app_nil_r (write_optional i write_str)).
    erewrite st_bind_ok by (apply rd_opt_string; intros s ->; by apply Hi). done.
  - done.
Qed.

(** Version 0, whose author is the user of its origin. *)
Lemma hist_v0_decodes h :
  entry_ok h →
  hist_deserialize (write_u16 0 ++ write_array_len 9 ++ write_common h) "v0" =
  Ok (mk_hist (h_id h) (h_timestamp h) (h_duration h) (h_exit h) (h_command h) (h_cwd h) (h_session h)
        (h_origin h) (Origin.user (h_origin h)) None (h_deleted_at h) None None).
Proof.
  intros Hok. unfold hist_deserialize. change (HVersion.from_name "v0") with (Some HZero). cbv iota.
  rewrite <- (app_nil_r (write_common h)).
  rewrite (hist_reader_common HZero); [|done|simpl; lia|by intros m [= <-]]. done.
Qed.
End codec_laws.

(** ** Log records of the history store ([HistoryRecord] of [history/store.rs]) *)

Inductive HistoryRecord : Type :=
| HCreate (h : Entry)
| HDelete (id : string).

Section record_codec.
Context `{Rmp}.

(** [HistoryRecord::serialize] *)
Definition hrec_serialize (r : HistoryRecord) : list Z :=
  match r with
  | HCreate h => write_u8 0 ++ write_bin (hist_serialize h)
  | HDelete id => write_u8 1 ++ write_str id
  end.

(** [HistoryRecord::deserialize] *)
Definition hrec_deserialize (data : list Z) (version : string) : result HistoryRecord Eyre :=
  let '(bytes, t) := read_u8 data in
  let? record_type := map_err EyreValue t in
  if record_type =? 0 then
    let '(bytes, n) := read_bin_len bytes in
    let? _ := map_err EyreValue n in
    let? h := hist_deserialize bytes version in
    Ok (HCreate h)
  else if record_type =? 1 then
    let? (id, bytes) := map_err EyreStr (read_str_from_slice bytes) in
    match bytes with
    | [] => Ok (HDelete id)
    | _ => Err (EyreMsg "trailing bytes decoding HistoryRecord::Delete - malformed?")
    end
  else Err (EyreMsg "unknown HistoryRecord type").

Definition hrec_ok (r : HistoryRecord) : Prop :=
  match r with
  | HCreate h => entry_ok h ∧ Z.of_nat (length (hist_serialize h)) < 2 ^ 32
  | HDelete id => is_str id
  end.
End record_codec.

#[export] Instance history_codec `{Rmp} : EventCodec HistoryRecord := {|
  ev_tag := History;
  ev_version := V2;
  ev_known v := bool_decide (is_Some (HVersion.from_name (Version.as_str v)));
  ev_serialize := hrec_serialize;
  ev_deserialize data v := hrec_deserialize data (Version.as_str v)
|}.

Lemma hrec_roundtrip `{RmpLaws} r : hrec_ok r → hrec_deserialize (hrec_serialize r) "v2" = Ok r.
Proof.
  intros Hok. unfold hrec_deserialize, hrec_serialize. destruct r as [h|id].
  - destruct Hok as [Hok Hlen]. rewrite read_write_u8 by lia. cbn [map_err rbind].
    change (0 =? 0) with true. cbv iota. rewrite write_bin_eq, read_write_bin_len by lia. cbn [map_err rbind].
    unfold hist_serialize. rewrite <- (app_nil_r (write_v2_fields h)).
    rewrite (hist_v2_decodes 13 h []) by (done || lia). done.
  - rewrite read_write_u8 by lia. cbn [map_err rbind]. change (1 =? 0) with false. change (1 =? 1) with true.
    cbv iota. rewrite <- (app_nil_r (write_str id)), read_write_str by done. done.
Qed.

#[export] Instance history_codec_laws `{RmpLaws} : EventCodecLaws HistoryRecord.
Proof. refine {| ev_ok := hrec_ok |}; [reflexivity..|exact hrec_roundtrip]. Defined.

(** ** Theorems *)

(** C38: an entry written by the current version is read back exactly, also when a later version has
    appended fields, and the layouts of every earlier version are still read: without a kind
    (version 2 at launch), without a shell (version 1, with and without an intent), and without an
    author (version 0), where the author is the user of the entry's origin. *)
Theorem history_codec_all_versions `{RmpLaws} (h : Entry) (n : Z) (extra : list Z) (i : option string) :
  entry_ok h → 13 ≤ n < 2 ^ 32 → (∀ s, i = Some s → is_str s) →
  let entry author intent shell kind :=
    mk_hist (h_id h) (h_timestamp h) (h_duration h) (h_exit h) (h_command h) (h_cwd h) (h_session h)
      (h_origin h) author intent (h_deleted_at h) shell kind in
  let user := Origin.user (h_origin h) in
  hist_deserialize (hist_serialize h) "v2" = Ok h ∧
  hist_deserialize (write_u16 2 ++ write_array_len n ++ write_common h ++ write_v2_fields h ++ extra) "v2" = Ok h ∧
  hist_deserialize (write_u16 2 ++ write_array_len 12 ++ write_common h ++ write_str (h_author h)
    ++ write_optional (h_intent h) write_str ++ write_optional (h_shell h) write_str) "v2" =
    Ok (entry (h_author h) (h_intent h) (h_shell h) None) ∧
  hist_deserialize (write_u16 1 ++ write_array_len 11 ++ write_common h ++ write_str (h_author h)
    ++ write_optional i write_str) "v1" = Ok (entry (h_author h) i None None) ∧
  hist_deserialize (write_u16 1 ++ write_array_len 10 ++ write_common h ++ write_nil) "v1" = Ok (entry user None None None) ∧
  hist_deserialize (write_u16 0 ++ write_array_len 9 ++ write_common h) "v0" = Ok (entry user None None None).
Proof.
  intros Hok Hn Hi. pose proof Hok as [(_ & _ & _ & _ & _ & Ha) _ _ _ _]. split_and!.
  - unfold hist_serialize. rewrite <- (app_nil_r (write_v2_fields h)). apply hist_v2_decodes; [done|unfold LATEST_SERIALIZED_FIELDS; lia].
  - by apply hist_v2_decodes.
  - by apply hist_v2_launch_decodes.
  - apply (hist_v1_decodes h (Some (h_author h)) (Some i)); [done|by intros s [= <-]|]. intros s [= Hs]. by apply Hi.
  - rewrite <- (app_nil_r write_nil). by apply (hist_v1_decodes h None None).
  - by apply hist_v0_decodes.
Qed.

#[local] Arguments normalize_optional_string : simpl never.

Lemma known_agent_not_placeholder : is_known_agent UNKNOWN_USER = false.
Proof. vm_compute. reflexivity. Qed.

(** A captured command with a stated author is an agent's exactly when the author is a known
    agent and not the user's own name; a stated kind decides alone; and a command whose author is
    not stated anywhere is never an agent's, even for a user who is called like one. *)
Theorem capture_attributes_authors (p : Probe) (t : Z) (command cwd author : string)
    (origin : option CmdOrigin) (intent shell : option string) (kind : AuthorKind) :
  normalize_optional_string (Some author) = Some author →
  let user := Origin.user (default (p_origin p) origin) in
  Entry.is_agent (Entry.captured p t command cwd (Some author) origin intent shell None) =
    is_known_agent author && negb (bool_decide (author = user)) ∧
  Entry.is_agent (Entry.captured p t command cwd (Some author) origin intent shell (Some kind)) =
    bool_decide (kind = KindAgent) ∧
  (normalize_optional_string (p_author p) = None →
   Entry.is_agent (Entry.captured p t command cwd None origin intent shell None) = false).
Proof.
  intros Hnorm user. unfold Entry.captured, Entry.is_agent. split_and!.
  - rewrite Hnorm. simpl map_or. fold user.
    destruct (is_known_agent author) eqn:Hk; simpl.
    + destruct (decide (author = user)) as [He|Hne].
      * rewrite bool_decide_eq_true_2 by done. simpl. rewrite Hnorm. simpl. fold user.
        rewrite decide_False; [|intros Hu; rewrite <- He in Hu; rewrite Hu, known_agent_not_placeholder in Hk; done].
        rewrite bool_decide_eq_true_2 by done. by rewrite Hk.
      * by rewrite bool_decide_eq_false_2.
    + rewrite Hnorm. simpl. by rewrite Hk.
  - done.
  - intros Hp. simpl. rewrite Hp. simpl. fold user. case_decide as Hu.
    + by rewrite Hu, known_agent_not_placeholder.
    + by rewrite bool_decide_eq_true_2, andb_false_r.
Qed.

(** ** Witnesses *)

Definition demo_origin : CmdOrigin := Origin.parse_lenient "box:pi".
Definition demo_entry : Entry :=
  mk_hist "id1" 5 7 0 "ls" "/" "s" demo_origin "codex" None None (Some "zsh") (Some KindAgent).

Lemma demo_entry_ok : entry_ok demo_entry.
Proof.
  split.
  - split_and!; apply is_str_ascii; reflexivity.
  - split; [done|]. intros s [= <-]. by apply is_str_ascii.
  - split; [split; vm_compute; congruence|done].
  - split; vm_compute; split; congruence.
  - reflexivity.
Qed.

Lemma history_codec_all_versions_witness :
  hist_deserialize (hist_serialize demo_entry) "v2" = Ok demo_entry.
Proof.
  refine (proj1 (history_codec_all_versions demo_entry 14 [192] (Some "why") demo_entry_ok _ _)); [lia|].
  intros s [= <-]. by apply is_str_ascii.
Defined.

Definition demo_probe : Probe := mk_probe None None None demo_origin "s" "id2".

Lemma capture_attributes_authors_witness :
  Entry.is_agent (Entry.captured demo_probe 5 "ls" "/" (Some "codex") None None None None) = true ∧
  Entry.is_agent (Entry.captured demo_probe 5 "ls" "/" (Some "pi") None None None None) = false ∧
  Entry.is_agent (Entry.captured demo_probe 5 "ls" "/" None None None None None) = false.
Proof.
  split_and!.
  - exact (proj1 (capture_attributes_authors demo_probe 5 "ls" "/" "codex" None None None KindUser eq_refl)).
  - exact (proj1 (capture_attributes_authors demo_probe 5 "ls" "/" "pi" None None None KindUser eq_refl)).
  - exact (proj2 (proj2 (capture_attributes_authors demo_probe 5 "ls" "/" "pi" None None None KindUser eq_refl)) eq_refl).
Defined.
