(* ===== verification/Semantic.v ===== *)
(** * The daemon's store of captured commands ([atuin-daemon/src/components/semantic.rs])

    Captures of commands arrive from the terminal proxy, the history entries that they belong to from
    the shell hooks, in either order. The store keeps the captures of the sessions that were used last,
    within limits, and finds them by history id. A [HashMap] is a [gmap], a [VecDeque] a list from front
    to back. [usize] is 64 bits wide. *)
From S2P Require Import Prelude Text Record History.

(** ** Data *)

Definition MAX_SESSIONS : nat := 20.
Definition MAX_COMMANDS_PER_SESSION : nat := 128.
Definition MAX_BYTES_PER_SESSION : Z := 32 * 1024 * 1024.
Definition MAX_PENDING_HISTORIES : nat := 128.

(** The messages of [semantic.proto]. *)
Record CommandCapture : Type := mk_capture {
  cc_prompt : string; cc_command : string; cc_output : string; cc_exit : option Z; cc_history_id : option string;
  cc_session_id : option string; cc_truncated : bool; cc_observed : Z
}.
Record OutputRange : Type := mk_range { r_start : Z; r_end : Z }.
Record OutputLine : Type := mk_line { l_number : Z; l_content : string }.
Record CommandOutputReply : Type := mk_reply {
  rp_found : bool; rp_output : string; rp_bytes : Z; rp_total_lines : Z; rp_lines : list OutputLine; rp_truncated : bool; rp_observed : Z
}.

Record CaptureRef : Type := mk_ref { cr_session : string; cr_id : Z }.
Record SemanticCommandRecord : Type := mk_semantic { sm_capture : CommandCapture; sm_history : option Entry }.
Record StoredCapture : Type := mk_stored { sd_id : Z; sd_history_id : string; sd_bytes : Z; sd_record : SemanticCommandRecord }.
Record SessionCaptures : Type := mk_captures { next_id : Z; records : list StoredCapture; output_bytes : Z }.
Record SemanticState : Type := mk_state {
  sessions : gmap string SessionCaptures; session_lru : list string; history_index : gmap string CaptureRef; pending_histories : list Entry
}.
Definition state_new : SemanticState := mk_state ∅ [] ∅ [].

#[export] Instance CaptureRef_eq_dec : EqDecision CaptureRef.
Proof. solve_decision. Defined.

Definition out_len (c : CommandCapture) : Z := Z.of_nat (String.length (cc_output c)).

(** [SessionId::try_from], [history_id_from_str] *)
Definition id_from_str (value : string) : option string := let t := trim value in if decide (t = "") then None else Some t.
Definition history_id_from_str (value : option string) : option string := v ← value; id_from_str v.

(** ** The captures of a session *)

(** [evict_to_limits]: from the front, until the rest is within the limits. *)
Fixpoint evict_to_limits (max_commands : nat) (max_bytes : Z) (rs : list StoredCapture) (bytes : Z)
    : list StoredCapture * Z * list (string * Z) :=
  match rs with
  | [] => ([], bytes, [])
  | r :: rs' =>
      if (max_commands <? length rs)%nat || (max_bytes <? bytes)
      then let '(rest, bytes, evicted) := evict_to_limits max_commands max_bytes rs' (saturating_sub bytes (sd_bytes r)) in
           (rest, bytes, (sd_history_id r, sd_id r) :: evicted)
      else (rs, bytes, [])
  end.

(** [push_with_limits], [push] *)
Definition push_with_limits (history_id : string) (record : SemanticCommandRecord) (max_commands : nat) (max_bytes : Z) (s : SessionCaptures)
    : SessionCaptures * Z * list (string * Z) :=
  let id := next_id s in
  let bytes := out_len (sm_capture record) in
  let rs := records s ++ [mk_stored id history_id bytes record] in
  let '(rs, total, evicted) := evict_to_limits max_commands max_bytes rs (saturating_add (output_bytes s) bytes) in
  (mk_captures (saturating_add id 1) rs total, id, evicted).
Definition push (history_id : string) (record : SemanticCommandRecord) (s : SessionCaptures) : SessionCaptures * Z * list (string * Z) :=
  push_with_limits history_id record MAX_COMMANDS_PER_SESSION MAX_BYTES_PER_SESSION s.
Definition captures_new : SessionCaptures := mk_captures 0 [] 0.

(** [stored_capture]; [stored_capture_mut] with what is done to it. *)
Definition stored_capture (id : Z) (s : SessionCaptures) : option StoredCapture := List.find (λ r, sd_id r =? id) (records s).
Fixpoint modify_first {A} (p : A → bool) (f : A → A) (l : list A) : list A :=
  match l with [] => [] | x :: l => if p x then f x :: l else x :: modify_first p f l end.

(** ** The state *)

Definition with_index (st : SemanticState) (i : gmap string CaptureRef) : SemanticState :=
  mk_state (sessions st) (session_lru st) i (pending_histories st).
Definition with_pending (st : SemanticState) (p : list Entry) : SemanticState :=
  mk_state (sessions st) (session_lru st) (history_index st) p.
Definition with_sessions (st : SemanticState) (m : gmap string SessionCaptures) : SemanticState :=
  mk_state m (session_lru st) (history_index st) (pending_histories st).

(** [VecDeque::remove] at [position]. *)
Fixpoint remove_first {A} (p : A → bool) (l : list A) : list A :=
  match l with [] => [] | x :: l => if p x then l else x :: remove_first p l end.

(** [touch_session] *)
Definition touch_session (s : string) (st : SemanticState) : SemanticState :=
  mk_state (sessions st) (remove_first (λ x, bool_decide (x = s)) (session_lru st) ++ [s]) (history_index st) (pending_histories st).

(** [remove_history_index_if_matches] *)
Definition remove_if_matches (s : string) (history_id : string) (id : Z) (index : gmap string CaptureRef) : gmap string CaptureRef :=
  if decide (index !! history_id = Some (mk_ref s id)) then delete history_id index else index.
Definition remove_all_matching (s : string) (evicted : list (string * Z)) (index : gmap string CaptureRef) : gmap string CaptureRef :=
  foldl (λ i e, remove_if_matches s e.1 e.2 i) index evicted.

(** [expire_lru_sessions] *)
Fixpoint expire_lru (lru : list string) (m : gmap string SessionCaptures) (index : gmap string CaptureRef)
    : list string * gmap string SessionCaptures * gmap string CaptureRef :=
  match lru with
  | [] => ([], m, index)
  | s :: lru' =>
      if (MAX_SESSIONS <? length lru)%nat then
        match m !! s with
        | None => expire_lru lru' m index
        | Some c => expire_lru lru' (delete s m) (remove_all_matching s ((λ r, (sd_history_id r, sd_id r)) <$> records c) index)
        end
      else (lru, m, index)
  end.

(** [push_record] *)
Definition push_record (s history_id : string) (record : SemanticCommandRecord) (st : SemanticState) : SemanticState :=
  let st := touch_session s st in
  let '(c, id, evicted) := push history_id record (default captures_new (sessions st !! s)) in
  let index := remove_all_matching s evicted (<[history_id := mk_ref s id]> (history_index st)) in
  let '(lru, m, index) := expire_lru (session_lru st) (<[s := c]> (sessions st)) index in
  mk_state m lru index (pending_histories st).

(** [take_pending_history], [push_pending_history] with [trim_front] *)
Definition has_id (id : string) (h : Entry) : bool := bool_decide (h_id h = id).
Definition take_pending_history (id : string) (l : list Entry) : list Entry * option Entry :=
  (remove_first (has_id id) l, List.find (has_id id) l).
Definition push_pending_history (h : Entry) (l : list Entry) : list Entry :=
  let l := remove_first (has_id (h_id h)) l ++ [h] in drop (length l - MAX_PENDING_HISTORIES) l.

(** [record_capture]: false when the capture was dropped. *)
Definition record_capture (c : CommandCapture) (st : SemanticState) : SemanticState * bool :=
  match history_id_from_str (cc_history_id c) with
  | None => (st, false)
  | Some history_id =>
      let '(pending, history) := take_pending_history history_id (pending_histories st) in
      let st := with_pending st pending in
      match or_else (v ← cc_session_id c; id_from_str v) (h ← history; id_from_str (h_session h)) with
      | None => (st, false)
      | Some s =>
          let observed := if cc_observed c =? 0 then out_len c else cc_observed c in
          let c := mk_capture (cc_prompt c) (cc_command c) (cc_output c) (cc_exit c) (Some history_id) (Some s) (cc_truncated c) observed in
          (push_record s history_id (mk_semantic c history) st, true)
      end
  end.

(** [record_history] *)
Definition set_history (h : Entry) (r : StoredCapture) : StoredCapture :=
  mk_stored (sd_id r) (sd_history_id r) (sd_bytes r) (mk_semantic (sm_capture (sd_record r)) (Some h)).
Definition record_history (h : Entry) (st : SemanticState) : SemanticState :=
  match history_index st !! h_id h with
  | Some ref =>
      match c ← sessions st !! cr_session ref; stored_capture (cr_id ref) c with
      | Some _ =>
          with_sessions st (alter (λ c, mk_captures (next_id c) (modify_first (λ r, sd_id r =? cr_id ref) (set_history h) (records c)) (output_bytes c))
                              (cr_session ref) (sessions st))
      | None => with_pending (with_index st (delete (h_id h) (history_index st))) (push_pending_history h (pending_histories st))
      end
  | None => with_pending st (push_pending_history h (pending_histories st))
  end.

(** ** Reading output *)

(** [normalize_line_range] *)
Definition normalize_line_range (start end_ : Z) (line_count : nat) : option (nat * nat) :=
  let count := Z.of_nat line_count in
  if i64_limit <=? count then None
  else
    let start := if start <? 0 then count + start else start in
    let end_ := if end_ <? 0 then count + end_ else end_ in
    if (end_ <? 0) || (count <=? start) then None
    else
      let start := Z.max start 0 in
      let end_ := Z.min end_ (count - 1) in
      if start <=? end_ then Some (Z.to_nat start, Z.to_nat end_) else None.

(** The ranges merged from left to right; the last of [merged] is its head. *)
Fixpoint merge_ranges (merged ranges : list (nat * nat)) : list (nat * nat) :=
  match ranges with
  | [] => reverse merged
  | (s, e) :: ranges =>
      match merged with
      | (s', e') :: merged' => if (s <=? S e')%nat then merge_ranges ((s', Nat.max e' e) :: merged') ranges
                               else merge_ranges ((s, e) :: merged) ranges
      | [] => merge_ranges [(s, e)] ranges
      end
  end.

(** [lines[start..=end]] with the numbers of the lines. *)
Definition numbered (ls : list string) (r : nat * nat) : list OutputLine :=
  imap (λ o l, mk_line (Z.of_nat (r.1 + o + 1)) l) (take (S r.2 - r.1) (drop r.1 ls)).

(** [select_output_ranges] *)
Definition select_output_ranges (output : string) (ranges : list OutputRange) : list OutputLine :=
  let ls := lines output in
  if decide (ls = []) then []
  else
    let ranges := match ranges with [] => [mk_range 0 999] | _ => ranges end in
    let ranges := omap (λ r, normalize_line_range (r_start r) (r_end r) (length ls)) ranges in
    let ranges := sort_by (λ x y : nat * nat, (x.1 <=? y.1)%nat) ranges in
    concat (numbered ls <$> merge_ranges [] ranges).

Definition not_found : CommandOutputReply := mk_reply false "" 0 0 [] false 0.

(** [command_output_for_ref] *)
Definition command_output_for_ref (ref : CaptureRef) (ranges : list OutputRange) (st : SemanticState) : option CommandOutputReply :=
  c ← sessions st !! cr_session ref; r ← stored_capture (cr_id ref) c;
  let cap := sm_capture (sd_record r) in
  Some (mk_reply true "" (out_len cap) (Z.of_nat (length (lines (cc_output cap)))) (select_output_ranges (cc_output cap) ranges)
          (cc_truncated cap) (Z.max (cc_observed cap) (out_len cap))).

(** [command_output] of the state, and of the service, which refuses an empty id. *)
Definition command_output (history_id : string) (ranges : list OutputRange) (st : SemanticState) : SemanticState * CommandOutputReply :=
  match history_id_from_str (Some history_id) with
  | None => (st, not_found)
  | Some id =>
      match history_index st !! id with
      | None => (st, not_found)
      | Some ref =>
          match command_output_for_ref ref ranges st with
          | None => (with_index st (delete id (history_index st)), not_found)
          | Some reply => (touch_session (cr_session ref) st, reply)
          end
      end
  end.
Definition command_output_rpc (history_id : string) (ranges : list OutputRange) (st : SemanticState)
    : SemanticState * result CommandOutputReply string :=
  if decide (trim history_id = "") then (st, Err "history_id is required"%string)
  else let '(st, r) := command_output history_id ranges st in (st, Ok r).

(** [record_commands]: the captures of a stream and how many were accepted. *)
Fixpoint record_commands (cs : list CommandCapture) (accepted : Z) (st : SemanticState) : SemanticState * Z :=
  match cs with
  | [] => (st, accepted)
  | c :: cs => let '(st, ok) := record_capture c st in record_commands cs (if ok : bool then accepted + 1 else accepted) st
  end.

(** ** What lines are selected *)

Section ranges.
Implicit Types (rs : list (nat * nat)) (i : nat).

Definition within (r : nat * nat) i : Prop := (r.1 ≤ i ≤ r.2)%nat.
#[local] Instance within_dec r i : Decision (within r i).
Proof. unfold within. apply _. Defined.
Definition covers rs i : Prop := Exists (λ r, within r i) rs.
#[local] Instance covers_dec rs i : Decision (covers rs i).
Proof. unfold covers. apply _. Defined.

(** Ranges from left to right with a gap between neighbours; the first starts at [lo] or later. *)
Fixpoint spaced (lo : nat) rs : Prop :=
  match rs with [] => True | (s, e) :: rs => (lo ≤ s ≤ e)%nat ∧ spaced (S (S e)) rs end.

Lemma spaced_weaken lo lo' rs : (lo' ≤ lo)%nat → spaced lo rs → spaced lo' rs.
Proof. destruct rs as [|[s e] rs]; [done|]. cbn. intros H [H1 H2]. split; [lia|done]. Qed.

(** The merged ranges, the last first. *)
Fixpoint spaced_rev rs : Prop :=
  match rs with
  | [] => True
  | (s, e) :: rs => (s ≤ e)%nat ∧ match rs with (s', e') :: _ => (S e' < s)%nat | [] => True end ∧ spaced_rev rs
  end.

Lemma spaced_reverse m rs :
  spaced_rev m → (match m with (s, e) :: _ => spaced (S (S e)) rs | [] => spaced 0 rs end) → spaced 0 (reverse m ++ rs).
Proof.
  revert rs. induction m as [|[s e] m IH]; intros rs Hm Hr; [done|]. rewrite reverse_cons, <- app_assoc. cbn [app]. destruct Hm as (Hse & Hp & Hm).
  apply IH; [done|]. destruct m as [|[s' e'] m]; cbn; (split; [lia|done]).
Qed.

Lemma merge_ranges_spec m rs :
  spaced_rev m → StronglySorted (λ x y : nat * nat, (x.1 ≤ y.1)%nat) rs → Forall (λ r : nat * nat, (r.1 ≤ r.2)%nat) rs →
  (match m with (s, _) :: _ => Forall (λ r : nat * nat, (s ≤ r.1)%nat) rs | [] => True end) →
  spaced 0 (merge_ranges m rs) ∧ ∀ i, covers (merge_ranges m rs) i ↔ covers m i ∨ covers rs i.
Proof.
  unfold covers. revert m. induction rs as [|[s e] rs IH]; intros m Hm Hs Hw Hlo; cbn [merge_ranges].
  - split; [rewrite <- (app_nil_r (reverse m)); apply spaced_reverse; [done|by destruct m as [|[]]]|].
    intros i. rewrite Exists_nil, !Exists_exists. setoid_rewrite elem_of_reverse. tauto.
  - inversion_clear Hs as [|? ? Hs' Hf]. inversion_clear Hw as [|? ? He Hw']. cbn in He.
    destruct m as [|[s' e'] m].
    + destruct (IH [(s, e)]) as [H1 H2]; [cbn; split_and!; done|done|done|exact Hf|]. split; [done|]. intros i. rewrite H2, !Exists_cons, !Exists_nil. tauto.
    + inversion_clear Hlo as [|? ? Hle Hlo']. cbn in Hle. destruct (Nat.leb_spec s (S e')) as [Hj|Hj].
      * destruct (IH ((s', Nat.max e' e) :: m)) as [H1 H2]; [|done|done|exact Hlo'|].
        { destruct Hm as (A & B & C). cbn. split_and!; [lia|done|done]. }
        split; [done|]. intros i. rewrite H2, !Exists_cons. unfold within. cbn.
        assert ((s' ≤ i ≤ Nat.max e' e)%nat ↔ (s' ≤ i ≤ e')%nat ∨ (s ≤ i ≤ e)%nat) as -> by lia. tauto.
      * destruct (IH ((s, e) :: (s', e') :: m)) as [H1 H2]; [|done|done|exact Hf|].
        { destruct Hm as (A & B & C). cbn. split_and!; done. }
        split; [done|]. intros i. rewrite H2, !Exists_cons. tauto.
Qed.

(** The lines with their positions. *)
Definition positions (ls : list string) : list (nat * string) := imap pair ls.
Definition line_of (p : nat * string) : OutputLine := mk_line (Z.of_nat p.1 + 1) p.2.

Lemma lookup_positions ls i p : positions ls !! i = Some p ↔ p.1 = i ∧ ls !! i = Some p.2.
Proof. unfold positions. rewrite list_lookup_imap, fmap_Some. destruct p. naive_solver. Qed.

Lemma numbered_positions ls r : numbered ls r = line_of <$> take (S r.2 - r.1) (drop r.1 (positions ls)).
Proof.
  apply list_eq. intros k. unfold numbered. rewrite list_lookup_imap, list_lookup_fmap.
  destruct (decide (k < S r.2 - r.1)%nat) as [Hk|Hk].
  - rewrite !lookup_take_lt, !lookup_drop by done. unfold positions. rewrite list_lookup_imap. destruct (ls !! (r.1 + k)%nat); [|done].
    cbn. unfold line_of. cbn. do 2 f_equal. lia.
  - by rewrite !lookup_take_ge by lia.
Qed.

Lemma filter_agree {A} (P Q : A → Prop) `{∀ x, Decision (P x), ∀ x, Decision (Q x)} (l : list A) :
  (∀ x, x ∈ l → P x ↔ Q x) → filter P l = filter Q l.
Proof.
  induction l as [|x l IH]; intros Hl; [done|]. rewrite !filter_cons, IH by (intros y Hy; apply Hl; by right).
  pose proof (Hl x ltac:(left)) as Hx. destruct (decide (P x)), (decide (Q x)); tauto.
Qed.
Lemma filter_none {A} (P : A → Prop) `{∀ x, Decision (P x)} (l : list A) : (∀ x, x ∈ l → ¬ P x) → filter P l = [].
Proof. intros Hn. rewrite (filter_agree P (λ _, False)) by naive_solver. induction l as [|x l IH]; [done|]. apply IH. intros y Hy. apply Hn. by right. Qed.
Lemma filter_every {A} (P : A → Prop) `{∀ x, Decision (P x)} (l : list A) : (∀ x, x ∈ l → P x) → filter P l = l.
Proof. intros Hn. rewrite (filter_agree P (λ _, True)) by naive_solver. induction l as [|x l IH]; [done|]. cbn. f_equal. apply IH. intros y Hy. apply Hn. by right. Qed.

Lemma positions_in ls a b p : p ∈ take a (drop b (positions ls)) → (b ≤ p.1 < b + a)%nat.
Proof.
  intros [k Hk]%list_elem_of_lookup. apply lookup_take_Some in Hk as [Hk Hlt]. rewrite lookup_drop in Hk. apply lookup_positions in Hk as [-> _]. lia.
Qed.

Lemma numbered_concat ls lo rs :
  spaced lo rs → concat (numbered ls <$> rs) = line_of <$> filter (λ p, covers rs p.1) (drop lo (positions ls)).
Proof.
  unfold covers. revert lo. induction rs as [|[s e] rs IH]; intros lo Hr.
  - cbn. rewrite filter_none; [done|]. intros p _. intros H. inversion H.
  - destruct Hr as [Hse Hr]. cbn [fmap list_fmap concat]. rewrite (IH _ Hr), numbered_positions. cbn [fst snd].
    replace (drop lo (positions ls)) with
      (take (s - lo) (drop lo (positions ls)) ++ take (S e - s) (drop s (positions ls)) ++ take 1 (drop (S e) (positions ls)) ++ drop (S (S e)) (positions ls)).
    2:{ replace (drop (S (S e)) (positions ls)) with (drop 1 (drop (S e) (positions ls))) by (rewrite drop_drop; f_equal; lia). rewrite take_drop.
        replace (drop (S e) (positions ls)) with (drop (S e - s) (drop s (positions ls))) by (rewrite drop_drop; f_equal; lia). rewrite take_drop.
        replace (drop s (positions ls)) with (drop (s - lo) (drop lo (positions ls))) by (rewrite drop_drop; f_equal; lia). by rewrite take_drop. }
    assert (∀ i, (i < S (S e))%nat → ¬ Exists (λ r, within r i) rs) as Hbelow.
    { intros i Hi. rewrite Exists_exists. intros (r & Hin & Hw). clear -Hr Hin Hw Hi. revert Hr Hi. generalize (S (S e)). induction Hin as [[s' e'] rs|? [s' e'] rs Hin IH]; intros n [H1 H2] Hi.
      - unfold within in Hw. cbn in *. lia.
      - eapply (IH Hw); [exact H2|]. lia. }
    assert (∀ p, p ∈ drop (S (S e)) (positions ls) → (S (S e) ≤ p.1)%nat) as Habove.
    { intros p [k Hk]%list_elem_of_lookup. rewrite lookup_drop in Hk. apply lookup_positions in Hk as [-> _]. lia. }
    rewrite !filter_app. rewrite (filter_none _ (take (s - lo) _)), (filter_every _ (take (S e - s) _)), (filter_none _ (take 1 _)).
    + rewrite !app_nil_l, fmap_app. do 2 f_equal. apply filter_agree. intros p Hp%Habove. rewrite Exists_cons. unfold within at 2. cbn. split; [by right|].
      intros [?|?]; [lia|done].
    + intros p Hp%positions_in. rewrite Exists_cons. unfold within at 1. cbn. intros [?|He]; [lia|]. apply (Hbelow p.1); [lia|done].
    + intros p Hp%positions_in. rewrite Exists_cons. left. unfold within. cbn. lia.
    + intros p Hp%positions_in. rewrite Exists_cons. unfold within at 1. cbn. intros [?|He]; [lia|]. apply (Hbelow p.1); [lia|done].
Qed.

Lemma strongly_sorted_impl {A} (R R' : A → A → Prop) l : (∀ x y, R x y → R' x y) → StronglySorted R l → StronglySorted R' l.
Proof. intros HR. induction 1 as [|x l Hs IH Hf]; constructor; [done|]. eapply Forall_impl; [exact Hf|]. auto. Qed.

(** A position that a request names; negative numbers count from the end. *)
Definition resolve (n : nat) (z : Z) : Z := if z <? 0 then Z.of_nat n + z else z.
Definition requested (n : nat) (ranges : list OutputRange) (i : nat) : Prop :=
  Exists (λ r, resolve n (r_start r) ≤ Z.of_nat i ≤ resolve n (r_end r)) ranges.
#[local] Instance requested_dec n ranges i : Decision (requested n ranges i).
Proof. unfold requested. apply _. Defined.

Lemma normalize_spec s e n i :
  Z.of_nat n < i64_limit → (i < n)%nat →
  (∃ r, normalize_line_range s e n = Some r ∧ within r i) ↔ resolve n s ≤ Z.of_nat i ≤ resolve n e.
Proof.
  intros Hn Hi. unfold normalize_line_range, resolve, within. rewrite (proj2 (Z.leb_gt _ _) Hn).
  set (s' := if s <? 0 then _ else _). set (e' := if e <? 0 then _ else _).
  destruct (Z.ltb_spec e' 0); [split; [by intros (? & ? & _)|lia]|]. destruct (Z.leb_spec (Z.of_nat n) s'); [split; [by intros (? & ? & _)|lia]|]. cbn.
  destruct (Z.leb_spec (Z.max s' 0) (Z.min e' (Z.of_nat n - 1))).
  - split; [intros (r & [= <-] & ?); cbn in *; lia|]. intros ?. eexists. split; [done|]. cbn. lia.
  - split; [by intros (? & ? & _)|lia].
Qed.

Lemma normalize_ordered s e n r : normalize_line_range s e n = Some r → (r.1 ≤ r.2)%nat.
Proof.
  unfold normalize_line_range. destruct (i64_limit <=? _); [done|]. set (s' := if s <? 0 then _ else _). set (e' := if e <? 0 then _ else _).
  destruct (_ || _); [done|]. destruct (Z.leb_spec (Z.max s' 0) (Z.min e' (Z.of_nat n - 1))); [|done]. intros [= <-]. cbn. lia.
Qed.

(** Of a captured output exactly the lines that a request names are returned, each once, in order and
    with its number, however the ranges overlap; without ranges the first thousand. *)
Theorem selected_lines_exact output ranges :
  let ls := lines output in
  Z.of_nat (length ls) < i64_limit →
  select_output_ranges output ranges =
    line_of <$> filter (λ p, requested (length ls) (match ranges with [] => [mk_range 0 999] | _ => ranges end) p.1) (positions ls).
Proof.
  intros ls Hn. unfold select_output_ranges. fold ls. case_decide as Hls; [by rewrite Hls|]. set (rs := match ranges with [] => _ | _ => _ end).
  set (ns := omap _ rs). set (sorted := sort_by _ ns).
  assert (∀ r, r ∈ sorted ↔ r ∈ ns) as Hin by (intros r; apply elem_of_sort_by).
  assert (Forall (λ r : nat * nat, (r.1 ≤ r.2)%nat) sorted) as Hord.
  { apply Forall_forall. intros r (x & _ & Hx)%Hin%list_elem_of_omap. by eapply normalize_ordered. }
  destruct (merge_ranges_spec [] sorted) as [Hs Hc]; [done| |done|done|].
  { unfold sorted. apply (strongly_sorted_impl (λ x y : nat * nat, (x.1 <=? y.1)%nat = true)); [|apply sort_by_sorted]; cbn beta.
    - intros x y. apply Nat.leb_le.
    - intros x y. destruct (Nat.leb_spec x.1 y.1); [by left|right]. apply Nat.leb_le. lia.
    - intros x y z. rewrite !Nat.leb_le. lia. }
  rewrite (numbered_concat ls 0 _ Hs), drop_0. f_equal. apply filter_agree. intros p Hp.
  apply list_elem_of_lookup in Hp as [k Hk]. apply lookup_positions in Hk as [<- Hk%lookup_lt_Some].
  rewrite Hc. unfold covers at 1, requested. rewrite Exists_nil. unfold covers. rewrite !Exists_exists. split.
  - intros [[]|(r & (x & Hx & Ex)%Hin%list_elem_of_omap & Hr)]. exists x. split; [done|]. apply normalize_spec; [done..|]. by exists r.
  - intros (x & Hx & Hr%normalize_spec); [|done..]. destruct Hr as (r & Er & Hr). right. exists r. split; [|done]. apply Hin, list_elem_of_omap. by exists x.
Qed.
End ranges.

(** ** What the store holds *)

Section store.
Implicit Types (st : SemanticState) (c : SessionCaptures) (r : StoredCapture) (index : gmap string CaptureRef) (m : gmap string SessionCaptures).

Definition total (rs : list StoredCapture) : Z := foldr (λ r n, sd_bytes r + n) 0 rs.

(** A stored capture of a session: it has the ids under which it is found, and the history entry that was
    joined to it is its own. *)
Record RecordOk (s : string) (next : Z) r : Prop := mk_record_ok {
  ro_id : 0 ≤ sd_id r < next;
  ro_bytes : sd_bytes r = out_len (sm_capture (sd_record r));
  ro_ids : cc_history_id (sm_capture (sd_record r)) = Some (sd_history_id r) ∧ cc_session_id (sm_capture (sd_record r)) = Some s;
  ro_history : ∀ h, sm_history (sd_record r) = Some h → h_id h = sd_history_id r
}.
Record SessionOk (n : Z) (s : string) c : Prop := mk_session_ok {
  so_next : 0 ≤ next_id c ≤ n;
  so_records : Forall (RecordOk s (next_id c)) (records c);
  so_ids : NoDup (sd_id <$> records c);
  so_count : (length (records c) ≤ MAX_COMMANDS_PER_SESSION)%nat;
  so_bytes : output_bytes c = total (records c) ∧ output_bytes c ≤ MAX_BYTES_PER_SESSION
}.
Definition IndexOk m index : Prop :=
  ∀ h ref, index !! h = Some ref → ∃ c r, m !! cr_session ref = Some c ∧ r ∈ records c ∧ sd_id r = cr_id ref ∧ sd_history_id r = h.
Record StateOk (n : Z) st : Prop := mk_state_ok {
  sk_lru : NoDup (session_lru st);
  sk_sessions : (length (session_lru st) ≤ MAX_SESSIONS)%nat;
  sk_dom : ∀ s, s ∈ session_lru st ↔ is_Some (sessions st !! s);
  sk_ok : map_Forall (SessionOk n) (sessions st);
  sk_index : IndexOk (sessions st) (history_index st);
  sk_pending : NoDup (h_id <$> pending_histories st) ∧ (length (pending_histories st) ≤ MAX_PENDING_HISTORIES)%nat
}.

(** *** Eviction *)

Lemma out_len_nonneg (k : CommandCapture) : 0 ≤ out_len k.
Proof. unfold out_len. lia. Qed.
Lemma record_bytes_nonneg s n rs : Forall (RecordOk s n) rs → Forall (λ r, 0 ≤ sd_bytes r) rs.
Proof. intros Hf. eapply Forall_impl; [exact Hf|]. intros r [_ -> _ _]. apply out_len_nonneg. Qed.
Lemma total_nonneg rs : Forall (λ r, 0 ≤ sd_bytes r) rs → 0 ≤ total rs.
Proof. induction 1 as [|r rs Hr _ IH]; [done|]. unfold total in *. cbn. lia. Qed.
Lemma total_app a b : total (a ++ b) = total a + total b.
Proof. unfold total. induction a as [|r a IH]; [done|]. cbn in *. lia. Qed.

(** What is kept is the longest end of the list that is within the limits. *)
Lemma evict_spec mc mb rs : 0 ≤ mb → Forall (λ r, 0 ≤ sd_bytes r) rs →
  let '(kept, bytes, evicted) := evict_to_limits mc mb rs (total rs) in
  (∃ old, rs = old ++ kept ∧ evicted = (λ r, (sd_history_id r, sd_id r)) <$> old) ∧ bytes = total kept ∧
  (length kept ≤ mc)%nat ∧ bytes ≤ mb ∧
  ∀ a b, rs = a ++ b → (length b ≤ mc)%nat → total b ≤ mb → ∃ a', kept = a' ++ b.
Proof.
  intros Hmb. induction rs as [|r rs IH]; intros Hf.
  - cbn. split_and!; [by exists []|done|lia|done|]. intros [|] b E _ _; [|done]. by exists [].
  - inversion_clear Hf as [|? ? Hr Hf']. specialize (IH Hf'). cbn [evict_to_limits]. pose proof (total_nonneg rs Hf').
    assert (total (r :: rs) = sd_bytes r + total rs) as Et by done. destruct (_ || _) eqn:Ec.
    + replace (saturating_sub (total (r :: rs)) (sd_bytes r)) with (total rs) by (unfold saturating_sub; lia).
      destruct (evict_to_limits mc mb rs (total rs)) as [[kept bytes] ev]. destruct IH as ((old & -> & ->) & -> & Hk & Hb & Hmax).
      split_and!; [by exists (r :: old)|done..|]. intros a b E Hlb Htb. destruct a as [|x a].
      * cbn in E. subst b. exfalso. apply orb_true_iff in Ec as [Ec%Nat.ltb_lt|Ec%Z.ltb_lt]; lia.
      * injection E as _ E. by apply (Hmax a).
    + apply orb_false_iff in Ec as [Ec%Nat.ltb_ge Eb%Z.ltb_ge]. split_and!; [by exists []|done..|]. intros a b E _ _. by exists a.
Qed.

(** *** The index *)

Lemma lookup_remove_if s hid id index h ref :
  remove_if_matches s hid id index !! h = Some ref ↔ index !! h = Some ref ∧ ¬ (h = hid ∧ ref = mk_ref s id).
Proof.
  unfold remove_if_matches. case_decide as E.
  - rewrite lookup_delete_Some. split; [intros [Hne Hl]; split; [done|]; by intros [-> _]|]. intros [Hl Hn]. split; [|done]. intros <-. apply Hn. split; congruence.
  - split; [|by intros [? _]]. intros Hl. split; [done|]. intros [-> ->]. done.
Qed.

Lemma lookup_remove_all s ev index h ref :
  remove_all_matching s ev index !! h = Some ref ↔ index !! h = Some ref ∧ ¬ (cr_session ref = s ∧ (h, cr_id ref) ∈ ev).
Proof.
  unfold remove_all_matching. revert index. induction ev as [|[hid id] ev IH]; intros index; cbn [foldl fst snd].
  - split; [|by intros [? _]]. intros Hl. split; [done|]. intros [_ Hn]. by apply elem_of_nil in Hn.
  - rewrite IH, lookup_remove_if, elem_of_cons. destruct ref as [s' id']. cbn. split.
    + intros [[Hl Hn] Hn']. split; [done|]. intros [-> [[= -> ->]|Hin]]; [by apply Hn|by apply Hn'].
    + intros [Hl Hn]. split_and!; [done| |]; [intros [-> [= -> ->]]; apply Hn; auto|intros [-> Hin]; apply Hn; auto].
Qed.

(** [expire_lru_sessions] drops the sessions at the front with all that is known of them. *)
Lemma expire_spec lru m index :
  NoDup lru → IndexOk m index →
  let '(lru', m', index') := expire_lru lru m index in
  let old := take (length lru - MAX_SESSIONS) lru in
  lru' = drop (length lru - MAX_SESSIONS) lru ∧ (∀ s, m' !! s = if decide (s ∈ old) then None else m !! s) ∧ IndexOk m' index' ∧
  (∀ h ref, index !! h = Some ref → cr_session ref ∉ old → index' !! h = Some ref) ∧ (∀ h ref, index' !! h = Some ref → index !! h = Some ref).
Proof.
  revert m index. induction lru as [|s lru IH]; intros m index Hn Hi; cbn [expire_lru].
  { cbn. split_and!; try done. }
  destruct (Nat.ltb_spec MAX_SESSIONS (length (s :: lru))) as [Hl|Hl].
  2:{ replace (length (s :: lru) - MAX_SESSIONS)%nat with O by lia. cbn [take drop]. split_and!; done. }
  inversion_clear Hn as [|? ? Hs Hn']. replace (length (s :: lru) - MAX_SESSIONS)%nat with (S (length lru - MAX_SESSIONS)) by (cbn [length] in *; lia).
  cbn [take drop]. set (m1 := match m !! s with Some _ => delete s m | None => m end).
  set (i1 := match m !! s with Some c => remove_all_matching s ((λ r, (sd_history_id r, sd_id r)) <$> records c) index | None => index end).
  assert (IndexOk m1 i1) as H1.
  { unfold m1, i1. destruct (m !! s) as [c|] eqn:Em; [|done]. intros h ref [Hl1 Hn1]%lookup_remove_all. destruct (Hi h ref Hl1) as (c' & r & Hc & Hr & Hid & Hh).
    exists c', r. split_and!; try done. rewrite lookup_delete_ne; [done|]. intros Es. apply Hn1. split; [done|]. rewrite <- Es, Em in Hc. injection Hc as ->.
    apply list_elem_of_fmap. exists r. by rewrite Hh, Hid. }
  specialize (IH m1 i1 Hn' H1).
  replace (match m !! s with Some c => expire_lru lru (delete s m) (remove_all_matching s ((λ r, (sd_history_id r, sd_id r)) <$> records c) index) | None => expire_lru lru m index end)
    with (expire_lru lru m1 i1) by (unfold m1, i1; by destruct (m !! s)).
  destruct (expire_lru lru m1 i1) as [[lru' m'] index']. destruct IH as (-> & Hm & Hok & Hkeep & Hback).
  assert (∀ x, m1 !! x = if decide (x = s) then None else m !! x) as Hm1.
  { intros x. unfold m1. destruct (m !! s) eqn:Em; case_decide; subst; rewrite ?lookup_delete_eq, ?lookup_delete_ne; done. }
  split_and!; [done| |done| |].
  - intros x. rewrite Hm, Hm1. repeat case_decide; set_solver.
  - intros h ref Hl1 Hno. apply not_elem_of_cons in Hno as [Hne Hno]. apply Hkeep; [|done]. unfold i1. destruct (m !! s); [|done].
    apply lookup_remove_all. split; [done|]. by intros [? _].
  - intros h ref Hl1%Hback. unfold i1 in Hl1. destruct (m !! s); [|done]. by apply lookup_remove_all in Hl1 as [? _].
Qed.

(** *** Recording a capture *)

Definition stored (c : SessionCaptures) (hid : string) (rec : SemanticCommandRecord) : StoredCapture := mk_stored (next_id c) hid (out_len (sm_capture rec)) rec.

Lemma stored_ids n s c hid rec : SessionOk n s c → NoDup (sd_id <$> (records c ++ [stored c hid rec])).
Proof.
  intros [_ Hr Hi _ _]. rewrite fmap_app. apply NoDup_app. split_and!; [done| |apply NoDup_singleton].
  intros x (r & -> & Hin)%list_elem_of_fmap Hx%list_elem_of_singleton. eapply Forall_forall in Hr; [|exact Hin]. destruct Hr as [Hr _ _ _]. cbn in Hx. lia.
Qed.

Lemma push_capture_ok n s c hid rec :
  SessionOk n s c → n + 1 < u64_limit → out_len (sm_capture rec) < i64_limit →
  cc_history_id (sm_capture rec) = Some hid → cc_session_id (sm_capture rec) = Some s → (∀ h, sm_history rec = Some h → h_id h = hid) →
  let '(c', id, ev) := push hid rec c in
  SessionOk (n + 1) s c' ∧ id = next_id c ∧
  (∃ old, records c ++ [stored c hid rec] = old ++ records c' ∧ ev = (λ r, (sd_history_id r, sd_id r)) <$> old) ∧
  ∀ a b, records c ++ [stored c hid rec] = a ++ b → (length b ≤ MAX_COMMANDS_PER_SESSION)%nat → total b ≤ MAX_BYTES_PER_SESSION → ∃ a', records c' = a' ++ b.
Proof.
  intros [Hn Hr Hi Hc [Hb Hbm]] Hlim Hlen Hh Hs Hhist. unfold push, push_with_limits.
  assert (Forall (RecordOk s (next_id c + 1)) (records c ++ [stored c hid rec])) as Hr'.
  { apply Forall_app. split.
    - eapply Forall_impl; [exact Hr|]. intros r [H1 H2 H3 H4]. split; [lia|done..].
    - constructor; [|done]. split; cbn; [lia|done..]. }
  pose proof (out_len_nonneg (sm_capture rec)) as Hp.
  replace (saturating_add (output_bytes c) (out_len (sm_capture rec))) with (total (records c ++ [stored c hid rec])).
  2:{ rewrite total_app, <- Hb. unfold saturating_add. cbn. unfold MAX_BYTES_PER_SESSION, i64_limit, u64_limit in *. lia. }
  replace (saturating_add (next_id c) 1) with (next_id c + 1) by (unfold saturating_add; lia). fold (stored c hid rec).
  pose proof (evict_spec MAX_COMMANDS_PER_SESSION MAX_BYTES_PER_SESSION (records c ++ [stored c hid rec])) as He.
  destruct (evict_to_limits _ _ _ _) as [[kept bytes] ev]. destruct He as ((old & Eo & ->) & -> & Hk & Hkb & Hmax); [done|by eapply record_bytes_nonneg|].
  cbn [records]. split_and!; [|done|by exists old|done]. split; cbn [next_id records output_bytes].
  - lia.
  - rewrite Eo in Hr'. by apply Forall_app in Hr' as [_ ?].
  - pose proof (stored_ids n s c hid rec ltac:(by split)) as Hnd. rewrite Eo, fmap_app in Hnd. by apply NoDup_app in Hnd as (_ & _ & ?).
  - done.
  - done.
Qed.

Lemma session_weaken n n' s c : n ≤ n' → SessionOk n s c → SessionOk n' s c.
Proof. intros Hn [H1 H2 H3 H4 H5]. split; try done. lia. Qed.
Lemma captures_new_ok n s : 0 ≤ n → SessionOk n s captures_new.
Proof. intros Hn. split; cbn; try done; try constructor; unfold MAX_COMMANDS_PER_SESSION; lia. Qed.

Lemma remove_first_elem {A} `{EqDecision A} (s x : A) l : NoDup l → x ∈ remove_first (λ y, bool_decide (y = s)) l ↔ x ∈ l ∧ x ≠ s.
Proof.
  induction 1 as [|y l Hy Hn IH]; cbn; [split; [by intros ?%elem_of_nil|by intros [?%elem_of_nil _]]|].
  case_bool_decide as E; [subst|]; rewrite !elem_of_cons, ?IH; naive_solver.
Qed.
Lemma remove_first_sublist {A} (p : A → bool) l : sublist (remove_first p l) l.
Proof. induction l as [|x l IH]; cbn; [done|]. destruct (p x); [by constructor|by constructor]. Qed.

Lemma touch_lru s st : NoDup (session_lru st) →
  NoDup (session_lru (touch_session s st)) ∧ (∀ x, x ∈ session_lru (touch_session s st) ↔ x ∈ session_lru st ∨ x = s) ∧
  (length (session_lru (touch_session s st)) ≤ S (length (session_lru st)))%nat.
Proof.
  intros Hn. cbn. split_and!.
  - apply NoDup_app. split_and!; [eapply sublist_NoDup; [exact Hn|apply remove_first_sublist]| |apply NoDup_singleton].
    intros x Hx ->%list_elem_of_singleton. by apply remove_first_elem in Hx as [_ ?].
  - intros x. rewrite elem_of_app, list_elem_of_singleton, remove_first_elem by done. destruct (decide (x = s)); naive_solver.
  - rewrite length_app. cbn. pose proof (sublist_length _ _ (remove_first_sublist (λ x, bool_decide (x = s)) (session_lru st))). lia.
Qed.

(** The state after a capture: what is left of its session ends with it. *)
Lemma push_record_ok n s hid rec st :
  StateOk n st → 0 ≤ n → n + 1 < u64_limit → out_len (sm_capture rec) < i64_limit →
  cc_history_id (sm_capture rec) = Some hid → cc_session_id (sm_capture rec) = Some s → (∀ h, sm_history rec = Some h → h_id h = hid) →
  let st' := push_record s hid rec st in
  let c := default captures_new (sessions st !! s) in
  StateOk (n + 1) st' ∧ pending_histories st' = pending_histories st ∧
  ∃ old, old = take (length (session_lru (touch_session s st)) - MAX_SESSIONS) (session_lru (touch_session s st)) ∧ (s ∉ old) ∧
    session_lru st' = drop (length (session_lru (touch_session s st)) - MAX_SESSIONS) (session_lru (touch_session s st)) ∧
    (∀ x, x ≠ s → sessions st' !! x = if decide (x ∈ old) then None else sessions st !! x) ∧
    (∃ c', sessions st' !! s = Some c' ∧ next_id c' = next_id c + 1 ∧
       (∃ gone, records c ++ [stored c hid rec] = gone ++ records c') ∧
       (∀ a b, records c ++ [stored c hid rec] = a ++ b → (length b ≤ MAX_COMMANDS_PER_SESSION)%nat → total b ≤ MAX_BYTES_PER_SESSION → ∃ a', records c' = a' ++ b) ∧
       (stored c hid rec ∈ records c' → history_index st' !! hid = Some (mk_ref s (next_id c))) ∧
       (∀ h ref, h ≠ hid → history_index st !! h = Some ref → cr_session ref ∉ old →
          (cr_session ref = s → ∃ r, r ∈ records c' ∧ sd_id r = cr_id ref ∧ sd_history_id r = h) → history_index st' !! h = Some ref)).
Proof.
  intros [K1 K2 K3 K4 K5 K6] H0 Hlim Hlen Hh Hs Hhist st' c. destruct (touch_lru s st K1) as (T1 & T2 & T3).
  assert (SessionOk n s c) as Hc.
  { unfold c. destruct (sessions st !! s) as [c0|] eqn:E; cbn; [by apply K4|by apply captures_new_ok]. }
  pose proof (push_capture_ok n s c hid rec Hc Hlim Hlen Hh Hs Hhist) as Hp. subst st'. unfold push_record. cbn [sessions history_index pending_histories touch_session].
  fold c. destruct (push hid rec c) as [[c' id] ev] eqn:Ep. destruct Hp as (Hc' & -> & (gone & Eg & Eev) & Hmax).
  assert (next_id c' = next_id c + 1) as Hnext.
  { unfold push, push_with_limits in Ep. destruct (evict_to_limits _ _ _ _) as [[? ?] ?]. injection Ep as <- _. cbn. destruct Hc as [? _ _ _ _]. unfold saturating_add. lia. }
  set (i1 := remove_all_matching s ev (<[hid := mk_ref s (next_id c)]> (history_index st))).
  assert (∀ r r' : StoredCapture, r ∈ gone → r' ∈ records c' → sd_id r ≠ sd_id r') as Hapart.
  { intros r r' Hr Hr'. pose proof (stored_ids n s c hid rec Hc) as Hnd. rewrite Eg, fmap_app in Hnd. apply NoDup_app in Hnd as (_ & Hd & _). intros E.
    apply (Hd (sd_id r)); [apply list_elem_of_fmap; by exists r|]. rewrite E. apply list_elem_of_fmap. by exists r'. }
  assert (∀ r, r ∈ records c ++ [stored c hid rec] → (sd_history_id r, sd_id r) ∉ ev → r ∈ records c') as Hkept.
  { intros r Hr Hn. rewrite Eg in Hr. apply elem_of_app in Hr as [Hr|]; [|done]. destruct Hn. rewrite Eev. apply list_elem_of_fmap. by exists r. }
  assert (IndexOk (<[s := c']> (sessions st)) i1) as Hi1.
  { intros h ref [Hl Hn]%lookup_remove_all. apply lookup_insert_Some in Hl as [[<- <-]|[Hne Hl]].
    - exists c', (stored c hid rec). cbn. rewrite lookup_insert_eq. split_and!; try done. apply Hkept; [by apply elem_of_app; right; left|]. intros Hin. by apply Hn.
    - destruct (K5 h ref Hl) as (c0 & r & Hc0 & Hr & Hid & Hhi). destruct (decide (cr_session ref = s)) as [Es|Es].
      + exists c', r. rewrite Es, lookup_insert_eq. split_and!; try done. rewrite Es in Hc0. apply Hkept.
        * apply elem_of_app. left. unfold c. by rewrite Hc0.
        * intros Hin. apply Hn. split; [done|]. by rewrite <- Hid, <- Hhi.
      + exists c0, r. rewrite lookup_insert_ne by done. done. }
  pose proof (expire_spec (session_lru (touch_session s st)) (<[s := c']> (sessions st)) i1 T1 Hi1) as He. cbn [session_lru touch_session] in *.
  set (lru1 := remove_first _ (session_lru st) ++ [s]) in *. set (k := (length lru1 - MAX_SESSIONS)%nat) in *.
  destruct (expire_lru lru1 (<[s := c']> (sessions st)) i1) as [[lru' m'] i']. destruct He as (-> & Hm & Hi' & Hkeep & Hback).
  assert (s ∉ take k lru1) as Hold.
  { assert (k ≤ length (remove_first (λ x, bool_decide (x = s)) (session_lru st)))%nat as Hk by (unfold k, lru1; rewrite length_app; cbn; unfold MAX_SESSIONS; lia).
    unfold lru1. rewrite take_app_le by done. intros Hin%subseteq_take. by apply remove_first_elem in Hin as [_ ?]. }
  rewrite <- (take_drop k lru1) in T1. apply NoDup_app in T1 as (_ & Hdis & Hnd).
  split_and!; cbn [pending_histories]; [|done|].
  - split; cbn [session_lru sessions history_index pending_histories].
    + done.
    + rewrite length_drop. unfold k. lia.
    + intros x. rewrite Hm. assert (x ∈ lru1 ↔ is_Some (<[s := c']> (sessions st) !! x)) as Hx.
      { rewrite T2, K3. destruct (decide (x = s)) as [->|]; [rewrite lookup_insert_eq|rewrite lookup_insert_ne by done]; split; try done; [by right|by intros [|]|by left]. }
      rewrite <- (take_drop k lru1), elem_of_app in Hx. case_decide as Ht; [|tauto]. split; [intros Hd; by destruct (Hdis x)|by intros [??]].
    + intros x c0 Hx. rewrite Hm in Hx. case_decide; [done|]. apply lookup_insert_Some in Hx as [[<- <-]|[_ Hx]]; [done|]. eapply session_weaken; [|by apply K4]. lia.
    + done.
    + done.
  - exists (take k lru1). split_and!; try done.
    + intros x Hx. cbn. rewrite Hm, lookup_insert_ne by done. done.
    + exists c'. cbn. split_and!; try done.
      * rewrite Hm, decide_False, lookup_insert_eq by done. done.
      * by exists gone.
      * intros Hin. apply Hkeep; [|done]. apply lookup_remove_all. rewrite lookup_insert_eq. split; [done|]. intros [_ Hev]. cbn in Hev. rewrite Eev in Hev.
        apply list_elem_of_fmap in Hev as (r & [= _ Hid] & Hr). by apply (Hapart r (stored c hid rec)).
      * intros h ref Hne Hl Hno Hs'. apply Hkeep; [|done]. apply lookup_remove_all. rewrite lookup_insert_ne by done. split; [done|]. intros [Es Hev]. rewrite Eev in Hev.
        apply list_elem_of_fmap in Hev as (r & [= _ Hid] & Hr). destruct (Hs' Es) as (r' & Hr' & Hid' & _). apply (Hapart r r'); congruence.
Qed.

(** *** The other operations *)

Definition PendingOk (l : list Entry) : Prop := NoDup (h_id <$> l) ∧ (length l ≤ MAX_PENDING_HISTORIES)%nat.

Lemma remove_first_ids id l : NoDup (h_id <$> l) → h_id <$> remove_first (has_id id) l = remove_first (λ x, bool_decide (x = id)) (h_id <$> l).
Proof. intros _. induction l as [|h l IH]; [done|]. cbn. unfold has_id at 1. case_bool_decide; [done|]. cbn. by rewrite IH. Qed.

Lemma take_pending_ok id l : PendingOk l → PendingOk (take_pending_history id l).1.
Proof.
  intros [Hn Hl]. cbn. pose proof (remove_first_sublist (has_id id) l) as Hs. split; [|apply sublist_length in Hs; lia].
  rewrite remove_first_ids by done. eapply sublist_NoDup; [exact Hn|apply remove_first_sublist].
Qed.

Lemma push_pending_ok h l : PendingOk l → PendingOk (push_pending_history h l).
Proof.
  intros [Hn Hl]. unfold push_pending_history. set (l1 := remove_first _ l ++ [h]). split; [|rewrite length_drop; lia].
  assert (NoDup (h_id <$> l1)) as H1.
  { unfold l1. rewrite fmap_app, remove_first_ids by done. apply NoDup_app. split_and!; [eapply sublist_NoDup; [exact Hn|apply remove_first_sublist]| |apply NoDup_singleton].
    intros x Hx ->%list_elem_of_singleton. by apply remove_first_elem in Hx as [_ ?]. }
  rewrite <- (take_drop (length l1 - MAX_PENDING_HISTORIES) l1), fmap_app in H1. by apply NoDup_app in H1 as (_ & _ & ?).
Qed.

Lemma find_has_id id l h : List.find (has_id id) l = Some h → h_id h = id.
Proof. intros [_ Hh]%find_some. by apply bool_decide_eq_true in Hh. Qed.

Lemma state_weaken n n' st : n ≤ n' → StateOk n st → StateOk n' st.
Proof. intros Hn [K1 K2 K3 K4 K5 K6]. split; try done. intros s c Hs. eapply session_weaken; [exact Hn|by apply K4]. Qed.

Lemma with_pending_ok n st l : PendingOk l → StateOk n st → StateOk n (with_pending st l).
Proof. intros Hl [K1 K2 K3 K4 K5 K6]. by split. Qed.

Lemma record_capture_ok n k st :
  StateOk n st → 0 ≤ n → n + 1 < u64_limit → out_len k < i64_limit → StateOk (n + 1) (record_capture k st).1.
Proof.
  intros Hok H0 Hlim Hlen. unfold record_capture. destruct (history_id_from_str (cc_history_id k)) as [hid|]; [|eapply state_weaken; [|exact Hok]; lia].
  cbn [take_pending_history]. pose proof (with_pending_ok n st _ (take_pending_ok hid _ (sk_pending _ _ Hok)) Hok) as Hok'. cbn [fst take_pending_history] in Hok'.
  destruct (or_else _ _) as [s|]; cbn [fst]; [|eapply state_weaken; [|exact Hok']; lia].
  eapply push_record_ok; try done. intros h. cbn [sm_history]. apply find_has_id.
Qed.

Lemma modify_first_ids f id (l : list StoredCapture) :
  (∀ r, sd_id (f r) = sd_id r ∧ sd_bytes (f r) = sd_bytes r) →
  sd_id <$> modify_first (λ r, sd_id r =? id) f l = sd_id <$> l ∧ total (modify_first (λ r, sd_id r =? id) f l) = total l ∧
  length (modify_first (λ r, sd_id r =? id) f l) = length l.
Proof.
  intros Hf. induction l as [|r l (I1 & I2 & I3)]; [done|]. destruct (Hf r) as [F1 F2]. cbn [modify_first]. destruct (sd_id r =? id); cbn; unfold total in *; cbn; split_and!; congruence.
Qed.
Lemma modify_first_elem {A} (p : A → bool) f l x : x ∈ modify_first p f l → x ∈ l ∨ ∃ y, y ∈ l ∧ p y = true ∧ x = f y.
Proof.
  induction l as [|z l IH]; cbn; [by intros ?%elem_of_nil|]. destruct (p z) eqn:E; rewrite !elem_of_cons; setoid_rewrite elem_of_cons; naive_solver.
Qed.
Lemma modify_first_kept {A} (p : A → bool) f l x : x ∈ l → x ∈ modify_first p f l ∨ f x ∈ modify_first p f l.
Proof. induction 1 as [|y l Hin IH]; cbn; [destruct (p x); rewrite !elem_of_cons; auto|destruct (p _); rewrite !elem_of_cons; naive_solver]. Qed.

Lemma stored_capture_Some id c r : stored_capture id c = Some r → r ∈ records c ∧ sd_id r = id.
Proof. intros [Hin Hid]%find_some. split; [by apply list_elem_of_In|by apply Z.eqb_eq]. Qed.

Lemma stored_capture_found c r : r ∈ records c → ∃ r', stored_capture (sd_id r) c = Some r'.
Proof.
  intros Hr. destruct (stored_capture (sd_id r) c) as [r'|] eqn:E; [by exists r'|]. apply list_elem_of_In in Hr. pose proof (find_none _ _ E r Hr) as Hn. cbn in Hn. by rewrite Z.eqb_refl in Hn.
Qed.

Lemma set_history_ok n s c id h :
  SessionOk n s c → (∀ r, r ∈ records c → sd_id r = id → sd_history_id r = h_id h) →
  SessionOk n s (mk_captures (next_id c) (modify_first (λ r, sd_id r =? id) (set_history h) (records c)) (output_bytes c)).
Proof.
  intros [H1 H2 H3 H4 H5] Hid. destruct (modify_first_ids (set_history h) id (records c)) as (M1 & M2 & M3); [done|]. split; cbn [next_id records output_bytes].
  - done.
  - apply Forall_forall. intros r [Hr|(r' & Hr & Hp & ->)]%modify_first_elem; (eapply Forall_forall in H2; [|exact Hr]; destruct H2 as [R1 R2 R3 R4]); [done|].
    split; cbn; try done. intros h' [= <-]. symmetry. apply Hid; [done|]. by apply Z.eqb_eq.
  - by rewrite M1.
  - by rewrite M3.
  - by rewrite M2.
Qed.

Lemma record_history_ok n h st : StateOk n st → StateOk n (record_history h st).
Proof.
  intros Hok. pose proof Hok as [K1 K2 K3 K4 K5 K6]. unfold record_history. destruct (history_index st !! h_id h) as [ref|] eqn:Ei.
  2:{ apply with_pending_ok; [by apply push_pending_ok|done]. }
  destruct (K5 _ _ Ei) as (c & r & Hc & Hr & Hid & Hhi). rewrite Hc. cbn [mbind option_bind]. destruct (stored_capture (cr_id ref) c) as [r'|] eqn:Er.
  - apply stored_capture_Some in Er as [Hr' Hid']. split; cbn [session_lru sessions history_index pending_histories with_sessions]; try done.
    + intros x. rewrite K3. destruct (decide (x = cr_session ref)) as [->|]; [rewrite lookup_alter_eq|by rewrite lookup_alter_ne by done]. by rewrite fmap_is_Some.
    + intros x c0 Hx. apply lookup_alter_Some in Hx as [(<- & c1 & Hc1 & ->)|[_ Hx]]; [|by apply K4]. rewrite Hc in Hc1. injection Hc1 as <-.
      apply set_history_ok; [by apply K4|]. intros r0 Hr0 Hid0. assert (r0 = r) as ->; [|done].
      eapply (NoDup_fmap_eq sd_id); [exact (so_ids _ _ _ (K4 _ _ Hc))|done|done|congruence].
    + intros h' ref' Hl. destruct (K5 _ _ Hl) as (c0 & r0 & Hc0 & Hr0 & Hid0 & Hhi0). destruct (decide (cr_session ref' = cr_session ref)) as [Es|Es].
      * rewrite Es in *. rewrite lookup_alter_eq, Hc0. cbn [fmap option_fmap option_map]. eexists. destruct (modify_first_kept (λ r, sd_id r =? cr_id ref) (set_history h) _ _ Hr0).
        -- by exists r0.
        -- by exists (set_history h r0).
      * rewrite lookup_alter_ne by done. by exists c0, r0.
  - destruct (stored_capture_found c r Hr) as [r' Er']. congruence.
Qed.

Lemma touch_ok n s st : is_Some (sessions st !! s) → StateOk n st → StateOk n (touch_session s st).
Proof.
  intros Hs [K1 K2 K3 K4 K5 K6]. destruct (touch_lru s st K1) as (T1 & T2 & T3). split; try done.
  - apply K3 in Hs. assert (length (session_lru (touch_session s st)) = length (session_lru st)) as ->; [|done].
    cbn. rewrite length_app. cbn. clear -Hs. induction (session_lru st) as [|x l IH]; [by apply elem_of_nil in Hs|]. cbn. case_bool_decide; [lia|]. cbn.
    rewrite <- IH; [lia|]. by apply elem_of_cons in Hs as [->|].
  - intros x. rewrite T2, K3. cbn. split; [|by left]. intros [?|E]; [done|by rewrite E].
Qed.

Lemma command_output_ok n id ranges st : StateOk n st → StateOk n (command_output id ranges st).1.
Proof.
  intros Hok. unfold command_output. destruct (history_id_from_str _) as [hid|]; [|done]. destruct (history_index st !! hid) as [ref|] eqn:Ei; [|done].
  unfold command_output_for_ref. destruct (sk_index _ _ Hok _ _ Ei) as (c & r & Hc & Hr & Hid & _). rewrite Hc. cbn. destruct (stored_capture_found c r Hr) as [r' Er].
  rewrite Hid in Er. rewrite Er. cbn. apply touch_ok; [by rewrite Hc|done].
Qed.

(** *** Events *)

Inductive SemEvent : Type := ECapture (c : CommandCapture) | EHistory (h : Entry) | EQuery (id : string) (ranges : list OutputRange).
Definition sem_step st (e : SemEvent) : SemanticState :=
  match e with ECapture c => (record_capture c st).1 | EHistory h => record_history h st | EQuery id ranges => (command_output id ranges st).1 end.

(** A text is shorter than half of the address space. *)
Definition event_fits (e : SemEvent) : Prop := match e with ECapture c => out_len c < i64_limit | _ => True end.

Lemma sem_steps_ok evs n st :
  StateOk n st → 0 ≤ n → n + Z.of_nat (length evs) < u64_limit → Forall event_fits evs → StateOk (n + Z.of_nat (length evs)) (foldl sem_step st evs).
Proof.
  revert n st. induction evs as [|e evs IH]; intros n st Hok H0 Hlim Hf; [by rewrite Z.add_0_r|]. inversion_clear Hf as [|? ? He Hf'].
  cbn [foldl length] in *. replace (n + Z.of_nat (S (length evs))) with (n + 1 + Z.of_nat (length evs)) by lia. apply IH; [|lia|lia|done].
  destruct e; cbn.
  - apply record_capture_ok; [done|done|lia|done].
  - eapply state_weaken; [|by apply record_history_ok]. lia.
  - eapply state_weaken; [|by apply command_output_ok]. lia.
Qed.

Lemma reachable_ok evs :
  Forall event_fits evs → Z.of_nat (length evs) < u64_limit → StateOk (Z.of_nat (length evs)) (foldl sem_step state_new evs).
Proof.
  intros Hf Hlim. apply (sem_steps_ok evs 0); [|lia|lia|done]. split.
  - constructor.
  - cbn. lia.
  - intros s. cbn. rewrite lookup_empty. split; [by intros ?%elem_of_nil|by intros [? ?]].
  - intros s c Hx. unfold state_new in Hx. cbn [sessions] in Hx. by rewrite lookup_empty in Hx.
  - intros h ref Hx. unfold state_new in Hx. cbn [history_index] in Hx. by rewrite lookup_empty in Hx.
  - split; [constructor|cbn; lia].
Qed.

(** Whatever is recorded and asked for, the store stays within its limits (sessions, captures and bytes
    of a session, entries that wait), its counters are those of what it holds, every id in its index leads
    to the capture with that id, and a capture is only ever joined with its own history entry. *)
Theorem captures_stay_in_bounds evs :
  Forall event_fits evs → Z.of_nat (length evs) < u64_limit → StateOk (Z.of_nat (length evs)) (foldl sem_step state_new evs).
Proof. apply reachable_ok. Qed.

(** ** How long a capture is kept *)

(** The session that a capture is stored in, and the one that an event uses. *)
Definition capture_session (k : CommandCapture) st : option string :=
  hid ← history_id_from_str (cc_history_id k);
  or_else (v ← cc_session_id k; id_from_str v) (h ← List.find (has_id hid) (pending_histories st); id_from_str (h_session h)).
Definition event_session st (e : SemEvent) : option string :=
  match e with
  | ECapture k => capture_session k st
  | EHistory _ => None
  | EQuery id _ => hid ← history_id_from_str (Some id); ref ← history_index st !! hid; Some (cr_session ref)
  end.

(** The sessions that events use, and the sizes of what is captured in one. *)
Fixpoint used st (evs : list SemEvent) : gset string :=
  match evs with
  | [] => ∅
  | e :: evs => match event_session st e with Some s => {[s]} | None => ∅ end ∪ used (sem_step st e) evs
  end.
Fixpoint captured (s : string) st (evs : list SemEvent) : list Z :=
  match evs with
  | [] => []
  | e :: evs =>
      match e with ECapture k => if decide (capture_session k st = Some s) then [out_len k] else [] | _ => [] end ++ captured s (sem_step st e) evs
  end.
Definition other_capture (hid : string) (e : SemEvent) : Prop :=
  match e with ECapture k => history_id_from_str (cc_history_id k) ≠ Some hid | _ => True end.
#[local] Instance other_capture_dec hid e : Decision (other_capture hid e).
Proof. destruct e; cbn; apply _. Defined.

(** The capture [k] is the one with its id, [own] were stored in its session after it, and only [others]
    were used since its session was. *)
Record Kept (s hid : string) (id : Z) (k : CommandCapture) (own : list Z) (others : gset string) st : Prop := mk_kept {
  kp_index : history_index st !! hid = Some (mk_ref s id);
  kp_record : ∃ c pre r post, sessions st !! s = Some c ∧ records c = pre ++ r :: post ∧ sd_id r = id ∧ sd_history_id r = hid ∧
    sm_capture (sd_record r) = k ∧ sd_bytes <$> post = own;
  kp_lru : ∃ l1 l2, session_lru st = l1 ++ s :: l2 ∧ ∀ x, x ∈ l2 → x ∈ others
}.

Lemma modify_first_split f id (pre : list StoredCapture) r post :
  (∀ r, sd_id (f r) = sd_id r ∧ sd_history_id (f r) = sd_history_id r ∧ sd_bytes (f r) = sd_bytes r ∧ sm_capture (sd_record (f r)) = sm_capture (sd_record r)) →
  ∃ pre' r' post', modify_first (λ r, sd_id r =? id) f (pre ++ r :: post) = pre' ++ r' :: post' ∧ sd_id r' = sd_id r ∧ sd_history_id r' = sd_history_id r ∧
    sm_capture (sd_record r') = sm_capture (sd_record r) ∧ sd_bytes <$> post' = sd_bytes <$> post.
Proof.
  intros Hf. induction pre as [|x pre IH]; cbn.
  - destruct (Hf r) as (F1 & F2 & F3 & F4). destruct (sd_id r =? id).
    + by exists [], (f r), post.
    + exists [], r, (modify_first (λ r, sd_id r =? id) f post). split_and!; try done. induction post as [|y post IH]; [done|]. cbn. destruct (Hf y) as (_ & _ & Fy & _).
      destruct (sd_id y =? id); cbn; [by rewrite Fy|by rewrite IH].
  - destruct (sd_id x =? id); [by exists (f x :: pre), r, post|]. destruct IH as (pre' & r' & post' & -> & IH). by exists (x :: pre'), r', post'.
Qed.

Lemma kept_touch s hid id k own others st s' :
  NoDup (session_lru st) → Kept s hid id k own others st → Kept s hid id k own (others ∪ {[s']} ∖ {[s]}) (touch_session s' st).
Proof.
  intros Hn [K1 K2 (l1 & l2 & El & Hl)]. split; [done|done|]. cbn. rewrite El in *. destruct (decide (s' = s)) as [->|Hne].
  - exists (remove_first (λ x, bool_decide (x = s)) (l1 ++ s :: l2)), []. split; [done|]. intros x Hx. by apply elem_of_nil in Hx.
  - assert (∃ l1' l2', remove_first (λ x, bool_decide (x = s')) (l1 ++ s :: l2) = l1' ++ s :: l2' ∧ ∀ x, x ∈ l2' → x ∈ l2) as (l1' & l2' & -> & Hl').
    { clear -Hne. induction l1 as [|x l1 IH]; cbn.
      - rewrite bool_decide_false by done. exists [], (remove_first (λ x, bool_decide (x = s')) l2). split; [done|]. intros x Hx.
        eapply elem_of_sublist; [exact Hx|apply remove_first_sublist].
      - case_bool_decide; [by exists l1, l2|]. destruct IH as (l1' & l2' & -> & IH). by exists (x :: l1'), l2'. }
    exists l1', (l2' ++ [s']). split; [by rewrite <- app_assoc|]. intros x [Hx%Hl'%Hl| ->%list_elem_of_singleton]%elem_of_app; set_solver.
Qed.

Lemma kept_fits s (others : gset string) (l1 l2 : list string) :
  NoDup (l1 ++ s :: l2) → (∀ x, x ∈ l2 → x ∈ others) → (size (others ∖ {[s]}) < MAX_SESSIONS)%nat →
  (length (l1 ++ s :: l2) - MAX_SESSIONS ≤ length l1)%nat ∧ (s ∉ take (length (l1 ++ s :: l2) - MAX_SESSIONS) (l1 ++ s :: l2)).
Proof.
  intros Hn Hl Hsz. apply NoDup_app in Hn as (_ & Hd & Hn2). apply NoDup_cons in Hn2 as [Hs Hn2].
  assert (length l2 ≤ size (others ∖ {[s]}))%nat.
  { rewrite <- (size_list_to_set (C := gset string) l2) by done. apply subseteq_size. intros x Hx%elem_of_list_to_set. apply elem_of_difference. split; [by apply Hl|].
    intros ->%elem_of_singleton. done. }
  assert (length (l1 ++ s :: l2) - MAX_SESSIONS ≤ length l1)%nat as Hle by (rewrite length_app; cbn; lia). split; [done|].
  rewrite take_app_le by done. intros Hin%subseteq_take. destruct (Hd s); [done|]. left.
Qed.

Lemma total_sum rs : total rs = foldr Z.add 0 (sd_bytes <$> rs).
Proof. unfold total. induction rs as [|r rs IH]; [done|]. cbn in *. lia. Qed.

Lemma kept_capture n s hid id k own others st k' s' :
  StateOk n st → 0 ≤ n → n + 1 < u64_limit → out_len k' < i64_limit → Kept s hid id k own others st →
  history_id_from_str (cc_history_id k') ≠ Some hid → capture_session k' st = Some s' →
  let own' := own ++ if decide (s' = s) then [out_len k'] else [] in
  let others' := others ∪ {[s']} ∖ {[s]} in
  (length own' < MAX_COMMANDS_PER_SESSION)%nat → out_len k + foldr Z.add 0 own' ≤ MAX_BYTES_PER_SESSION → (size (others' ∖ {[s]}) < MAX_SESSIONS)%nat →
  Kept s hid id k own' others' (record_capture k' st).1.
Proof.
  intros Hok H0 Hlim Hlen HK Hhid Hses own' others' Hcnt Hby Hsz. unfold record_capture, capture_session in *.
  destruct (history_id_from_str (cc_history_id k')) as [hid'|]; [|done]. cbn [mbind option_bind] in Hses. cbn [take_pending_history].
  change (or_else (v ← cc_session_id k'; id_from_str v) (h ← List.find (has_id hid') (pending_histories st); id_from_str (h_session h)) = Some s') in Hses.
  rewrite Hses. cbn [fst].
  set (st0 := with_pending st _). set (rec := mk_semantic _ _).
  assert (StateOk n st0) as Hok0 by (apply with_pending_ok; [apply take_pending_ok, Hok|done]).
  assert (Kept s hid id k own others st0) as HK0 by (by destruct HK).
  destruct (push_record_ok n s' hid' rec st0) as (Hok' & _ & old & Eold & Hs'old & Elru & Hses' & c' & Hc' & Hnext & _ & Hmax & _ & Hidx); try done.
  { intros h. cbn. apply find_has_id. }
  pose proof (kept_touch _ _ _ _ _ _ _ s' (sk_lru _ _ Hok0) HK0) as HKt.
  destruct (touch_lru s' st0 (sk_lru _ _ Hok0)) as (T1 & _ & _). destruct HKt as [_ _ (l1 & l2 & El & Hl)].
  rewrite El in *. destruct (kept_fits s others' l1 l2 T1 Hl Hsz) as [Hle Hsold]. rewrite <- Eold in Hsold.
  destruct HK0 as [K1 (c & pre & r & post & Hc & Er & Hid & Hh & Hk & Hpost) _].
  assert (∃ c1 pre1 post1, sessions (push_record s' hid' rec st0) !! s = Some c1 ∧ records c1 = pre1 ++ r :: post1 ∧ sd_bytes <$> post1 = own') as (c1 & pre1 & post1 & Hc1 & Er1 & Hp1).
  { unfold own'. destruct (decide (s' = s)) as [->|Hne].
    - replace (default captures_new (sessions st0 !! s)) with c in Hmax by (by rewrite Hc). destruct (Hmax pre (r :: post ++ [stored c hid' rec])) as [a' Ea].
      + by rewrite Er, <- app_assoc.
      + unfold own' in Hcnt. rewrite <- Hpost in Hcnt. rewrite !length_app, length_fmap in Hcnt. cbn in *. rewrite length_app. cbn. lia.
      + rewrite total_sum. cbn [fmap list_fmap foldr]. rewrite fmap_app. unfold own' in Hby. rewrite <- Hpost in Hby.
        assert (sd_bytes r = out_len k) as ->; [|done]. pose proof (so_records _ _ _ (sk_ok _ _ Hok0 _ _ Hc)) as Hf. rewrite Er in Hf.
        apply Forall_app in Hf as [_ Hf]. inversion_clear Hf as [|? ? [_ Hb _ _] _]. by rewrite Hb, Hk.
      + exists c', a', (post ++ [stored c hid' rec]). rewrite fmap_app, Hpost. done.
    - exists c, pre, post. rewrite Hses', decide_False by done. by rewrite app_nil_r. }
  split.
  - apply Hidx; [congruence|done|done|]. cbn. intros ->. rewrite Hc1 in Hc'. injection Hc' as <-. exists r. rewrite Er1. split_and!; [|done..]. apply elem_of_app. right. left.
  - by exists c1, pre1, r, post1.
  - rewrite Elru. exists (drop (length (l1 ++ s :: l2) - MAX_SESSIONS) l1), l2. split; [by rewrite drop_app_le|done].
Qed.

Lemma kept_mono s hid id k own others others' st : others ⊆ others' → Kept s hid id k own others st → Kept s hid id k own others' st.
Proof. intros Hs [K1 K2 (l1 & l2 & El & Hl)]. split; [done|done|]. exists l1, l2. split; [done|]. intros x Hx. by apply Hs, Hl. Qed.

Lemma kept_history n s hid id k own others st h : StateOk n st → Kept s hid id k own others st → Kept s hid id k own others (record_history h st).
Proof.
  intros Hok [K1 (c & pre & r & post & Hc & Er & Hid & Hh & Hk & Hp) K3]. unfold record_history.
  destruct (history_index st !! h_id h) as [ref|] eqn:Ei; [|by split; [..|exists c, pre, r, post|]].
  destruct (sk_index _ _ Hok _ _ Ei) as (c0 & r0 & Hc0 & Hr0 & Hid0 & _). rewrite Hc0. cbn [mbind option_bind].
  destruct (stored_capture_found c0 r0 Hr0) as [r' Er']. rewrite Hid0 in Er'. rewrite Er'. split; [done| |done]. cbn [with_sessions sessions].
  destruct (decide (cr_session ref = s)) as [Es|Es].
  - rewrite Es, lookup_alter_eq, Hc. cbn [fmap option_fmap option_map]. destruct (modify_first_split (set_history h) (cr_id ref) pre r post) as (pre' & r1 & post' & Em & E1 & E2 & E3 & E4); [done|].
    eexists _, pre', r1, post'. split_and!; [done|cbn [records]; by rewrite Er|congruence..].
  - rewrite lookup_alter_ne by done. by exists c, pre, r, post.
Qed.

Lemma kept_query n s hid id k own others st q ranges :
  StateOk n st → Kept s hid id k own others st →
  Kept s hid id k own (others ∪ match event_session st (EQuery q ranges) with Some s' => {[s']} | None => ∅ end) (command_output q ranges st).1.
Proof.
  intros Hok HK. unfold command_output, event_session. destruct (history_id_from_str (Some q)) as [hq|]; cbn [mbind option_bind]; [|eapply kept_mono; [|exact HK]; set_solver].
  destruct (history_index st !! hq) as [ref|] eqn:Ei; cbn [option_bind]; [|eapply kept_mono; [|exact HK]; set_solver].
  destruct (sk_index _ _ Hok _ _ Ei) as (c & r & Hc & Hr & Hid & _). unfold command_output_for_ref. rewrite Hc. cbn [mbind option_bind].
  destruct (stored_capture_found c r Hr) as [r' Er]. rewrite Hid in Er. rewrite Er. cbn [fst].
  eapply kept_mono; [|apply kept_touch; [apply Hok|exact HK]]. set_solver.
Qed.

Lemma sum_nonneg_app (a b : list Z) : Forall (λ z, 0 ≤ z) b → foldr Z.add 0 a ≤ foldr Z.add 0 (a ++ b).
Proof.
  intros Hb. induction a as [|x a IH]; cbn; [|lia]. induction Hb as [|y b Hy _ IH]; cbn; lia.
Qed.
Lemma captured_nonneg s st evs : Forall (λ z, 0 ≤ z) (captured s st evs).
Proof.
  revert st. induction evs as [|e evs IH]; intros st; [constructor|]. cbn. apply Forall_app. split; [|apply IH].
  destruct e as [k| |]; try constructor. case_decide; repeat constructor. apply out_len_nonneg.
Qed.

Lemma kept_steps evs n s hid id k own others st :
  StateOk n st → 0 ≤ n → n + Z.of_nat (length evs) < u64_limit → Forall event_fits evs → Forall (other_capture hid) evs →
  Kept s hid id k own others st →
  (length (own ++ captured s st evs) < MAX_COMMANDS_PER_SESSION)%nat → out_len k + foldr Z.add 0 (own ++ captured s st evs) ≤ MAX_BYTES_PER_SESSION →
  (size ((others ∪ used st evs) ∖ {[s]}) < MAX_SESSIONS)%nat →
  ∃ own' others', Kept s hid id k own' others' (foldl sem_step st evs).
Proof.
  revert n own others st. induction evs as [|e evs IH]; intros n own others st Hok H0 Hlim Hf Ho HK Hc Hb Hsz; [by exists own, others|].
  inversion_clear Hf as [|? ? He Hf']. inversion_clear Ho as [|? ? Hoe Ho']. cbn [foldl length captured used] in *.
  set (mine := match e with ECapture _ => _ | _ => _ end) in *. set (us := match event_session st e with Some _ => _ | None => _ end) in *.
  assert (StateOk (n + 1) (sem_step st e)) as Hok1 by (apply (sem_steps_ok [e] n); [done|done|cbn; lia|by constructor]).
  assert (Kept s hid id k (own ++ mine) (others ∪ us) (sem_step st e)) as HK1.
  2:{ eapply (IH (n + 1)); try done; [lia|lia| | |]; [by rewrite <- app_assoc|by rewrite <- app_assoc|by rewrite <- (assoc_L (∪))]. }
  destruct e as [k'|h|q ranges]; cbn [sem_step].
  - cbn [event_session] in us. destruct (capture_session k' st) as [s'|] eqn:Es.
    + assert (mine = if decide (s' = s) then [out_len k'] else []) as Em by (unfold mine; repeat case_decide; congruence).
      eapply kept_mono; [|rewrite Em; eapply (kept_capture n); try done].
      * unfold us. set_solver.
      * lia.
      * rewrite <- Em. rewrite !length_app in *. lia.
      * rewrite <- Em. pose proof (sum_nonneg_app (own ++ mine) _ (captured_nonneg s (sem_step st (ECapture k')) evs)) as Hs. rewrite <- app_assoc in Hs. lia.
      * eapply Nat.le_lt_trans; [|exact Hsz]. apply subseteq_size. unfold us. set_solver.
    + assert (mine = []) as -> by (unfold mine; by rewrite decide_False by congruence). rewrite app_nil_r.
      assert (Kept s hid id k own others (record_capture k' st).1) as HK'; [|eapply kept_mono; [|exact HK']; set_solver].
      unfold record_capture, capture_session in *. destruct (history_id_from_str (cc_history_id k')) as [hid'|]; [|done]. cbn [mbind option_bind take_pending_history] in *.
      change (or_else (v ← cc_session_id k'; id_from_str v) (h ← List.find (has_id hid') (pending_histories st); id_from_str (h_session h)) = None) in Es.
      rewrite Es. by destruct HK.
  - unfold us, mine. cbn. rewrite app_nil_r. eapply kept_mono; [|by eapply kept_history]. set_solver.
  - unfold mine. rewrite app_nil_r. by eapply kept_query.
Qed.

(** The capture as it is stored. *)
Definition as_stored (k : CommandCapture) (hid s : string) : CommandCapture :=
  mk_capture (cc_prompt k) (cc_command k) (cc_output k) (cc_exit k) (Some hid) (Some s) (cc_truncated k) (if cc_observed k =? 0 then out_len k else cc_observed k).

Lemma kept_new n hid s k st :
  StateOk n st → 0 ≤ n → n + 1 < u64_limit → out_len k ≤ MAX_BYTES_PER_SESSION →
  history_id_from_str (cc_history_id k) = Some hid → capture_session k st = Some s →
  Kept s hid (next_id (default captures_new (sessions st !! s))) (as_stored k hid s) [] ∅ (record_capture k st).1.
Proof.
  intros Hok H0 Hlim Hlen Hh Hs. unfold record_capture, capture_session in *. rewrite Hh in *. cbn [mbind option_bind take_pending_history] in *.
  change (or_else (v ← cc_session_id k; id_from_str v) (h ← List.find (has_id hid) (pending_histories st); id_from_str (h_session h)) = Some s) in Hs.
  rewrite Hs. cbn [fst]. set (st0 := with_pending st _). fold (as_stored k hid s). set (rec := mk_semantic _ _).
  destruct (push_record_ok n s hid rec st0) as (_ & _ & old & Eold & Hsold & Elru & _ & c' & Hc' & _ & _ & Hmax & Hidx & _); try done.
  { apply with_pending_ok; [apply take_pending_ok, Hok|done]. }
  { cbn. unfold MAX_BYTES_PER_SESSION, i64_limit in *. change (out_len (as_stored k hid s)) with (out_len k). lia. }
  { intros h. cbn. apply find_has_id. }
  set (c := default captures_new (sessions st0 !! s)) in *. destruct (Hmax (records c) [stored c hid rec]) as [a' Ea]; [done|cbn; unfold MAX_COMMANDS_PER_SESSION; lia| |].
  { cbn. change (out_len (as_stored k hid s)) with (out_len k). lia. }
  split.
  - apply Hidx. rewrite Ea. apply elem_of_app. right. left.
  - exists c', a', (stored c hid rec), []. done.
  - rewrite Elru. exists (drop (length (session_lru (touch_session s st0)) - MAX_SESSIONS) (remove_first (λ x, bool_decide (x = s)) (session_lru st0))), [].
    split; [|intros x Hx; by apply elem_of_nil in Hx]. cbn [touch_session session_lru]. rewrite drop_app_le; [done|]. rewrite length_app. cbn. unfold MAX_SESSIONS. lia.
Qed.

Lemma kept_served n s hid id k own others st q ranges :
  StateOk n st → Kept s hid id k own others st → history_id_from_str (Some q) = Some hid →
  (command_output q ranges st).2 =
    mk_reply true "" (out_len k) (Z.of_nat (length (lines (cc_output k)))) (select_output_ranges (cc_output k) ranges) (cc_truncated k) (Z.max (cc_observed k) (out_len k)).
Proof.
  intros Hok [K1 (c & pre & r & post & Hc & Er & Hid & Hh & Hk & _) _] Hq. unfold command_output. rewrite Hq, K1. unfold command_output_for_ref. cbn [cr_session cr_id]. rewrite Hc. cbn [mbind option_bind].
  assert (r ∈ records c) as Hr by (rewrite Er; apply elem_of_app; right; left). destruct (stored_capture_found c r Hr) as [r' Er']. rewrite Hid in Er'. rewrite Er'.
  apply stored_capture_Some in Er' as [Hr' Hid']. assert (r' = r) as ->; [|cbn; by rewrite Hk].
  eapply (NoDup_fmap_eq sd_id); [exact (so_ids _ _ _ (sk_ok _ _ Hok _ _ Hc))|done|done|congruence].
Qed.

(** The output of a command that was captured can be read until its session has taken 127 more captures
    or filled its space, or 20 other sessions were used, whatever else is recorded and asked for
    meanwhile. *)
Theorem recent_output_served evs0 k hid s evs q ranges :
  let st := foldl sem_step state_new evs0 in
  let st1 := (record_capture k st).1 in
  Forall event_fits evs0 → Forall event_fits evs → Z.of_nat (length evs0 + 1 + length evs) < u64_limit →
  history_id_from_str (cc_history_id k) = Some hid → capture_session k st = Some s →
  Forall (other_capture hid) evs →
  (length (captured s st1 evs) < MAX_COMMANDS_PER_SESSION)%nat → out_len k + foldr Z.add 0 (captured s st1 evs) ≤ MAX_BYTES_PER_SESSION →
  (size (used st1 evs ∖ {[s]}) < MAX_SESSIONS)%nat →
  history_id_from_str (Some q) = Some hid →
  (command_output q ranges (foldl sem_step st1 evs)).2 =
    mk_reply true "" (out_len k) (Z.of_nat (length (lines (cc_output k)))) (select_output_ranges (cc_output k) ranges) (cc_truncated k) (Z.max (cc_observed k) (out_len k)).
Proof.
  intros st st1 Hf0 Hf Hlim Hh Hs Ho Hc Hb Hsz Hq.
  assert (StateOk (Z.of_nat (length evs0)) st) as Hok by (apply reachable_ok; [done|lia]).
  pose proof (sum_nonneg_app [] _ (captured_nonneg s st1 evs)) as Hnn. cbn in Hnn.
  pose proof (kept_new (Z.of_nat (length evs0)) hid s k st Hok ltac:(lia) ltac:(lia) ltac:(lia) Hh Hs) as HK. fold st1 in HK. set (id := next_id _) in HK.
  assert (StateOk (Z.of_nat (length evs0) + 1) st1) as Hok1 by (apply record_capture_ok; [done|lia|lia|unfold MAX_BYTES_PER_SESSION, i64_limit in *; lia]).
  destruct (kept_steps evs (Z.of_nat (length evs0) + 1) s hid id (as_stored k hid s) [] ∅ st1) as (own & others & HK'); try done; [lia|lia|by rewrite union_empty_l_L|].
  rewrite (kept_served (Z.of_nat (length evs0) + 1 + Z.of_nat (length evs)) s hid id (as_stored k hid s) own others); [|apply sem_steps_ok; [done|lia|lia|done]|done|done].
  change (out_len (as_stored k hid s)) with (out_len k). cbn. f_equal. pose proof (out_len_nonneg k). destruct (Z.eqb_spec (cc_observed k) 0) as [->|]; lia.
Qed.

(** ** The order of a capture and its history entry *)

Lemma modify_snoc f (l : list StoredCapture) x :
  Forall (λ r, sd_id r ≠ sd_id x) l → modify_first (λ r, sd_id r =? sd_id x) f (l ++ [x]) = l ++ [f x].
Proof.
  induction 1 as [|r l Hr _ IH]; cbn; [by rewrite Z.eqb_refl|]. rewrite (proj2 (Z.eqb_neq _ _) Hr). by rewrite IH.
Qed.

(** Eviction does not look at the entry that a capture is joined with. *)
Lemma evict_joined mc mb h l x b :
  Forall (λ r, sd_id r ≠ sd_id x) l →
  evict_to_limits mc mb (l ++ [set_history h x]) b =
    let '(rest, b', ev) := evict_to_limits mc mb (l ++ [x]) b in (modify_first (λ r, sd_id r =? sd_id x) (set_history h) rest, b', ev).
Proof.
  intros Hf. revert b. induction Hf as [|r l Hr Hf IH]; intros b.
  - cbn. destruct (_ || _); [done|]. cbn. by rewrite Z.eqb_refl.
  - cbn [app evict_to_limits]. rewrite IH. cbn [length]. rewrite !length_app. cbn [length]. destruct (_ || _).
    + by destruct (evict_to_limits mc mb (l ++ [x]) _) as [[rest b'] ev].
    + cbn [modify_first]. rewrite (proj2 (Z.eqb_neq _ _) Hr). by rewrite modify_snoc.
Qed.

Definition join_history (h : Entry) (id : Z) (c : SessionCaptures) : SessionCaptures :=
  mk_captures (next_id c) (modify_first (λ r, sd_id r =? id) (set_history h) (records c)) (output_bytes c).

Lemma join_history_keys h id c : (λ r, (sd_history_id r, sd_id r)) <$> records (join_history h id c) = (λ r, (sd_history_id r, sd_id r)) <$> records c.
Proof. cbn. induction (records c) as [|r l IH]; [done|]. cbn. destruct (sd_id r =? id); cbn; [done|by rewrite IH]. Qed.

Lemma expire_joined h id s lru m index :
  expire_lru lru (alter (join_history h id) s m) index = let '(l, m', i') := expire_lru lru m index in (l, alter (join_history h id) s m', i').
Proof.
  revert m index. induction lru as [|x lru IH]; intros m index; [done|]. cbn [expire_lru]. destruct (_ <? _)%nat; [|done].
  destruct (decide (x = s)) as [->|Hne].
  - rewrite lookup_alter_eq. destruct (m !! s) as [c|] eqn:Em; cbn [fmap option_fmap option_map].
    + rewrite join_history_keys. rewrite <- IH. f_equal. apply map_eq. intros y. destruct (decide (y = s)) as [->|]; [by rewrite lookup_alter_eq, !lookup_delete_eq|].
      by rewrite !lookup_alter_ne, !lookup_delete_ne, lookup_alter_ne by done.
    + by rewrite IH.
  - rewrite lookup_alter_ne by done. destruct (m !! x) as [c|]; [|by rewrite IH]. rewrite <- IH. f_equal. by rewrite delete_alter_ne by done.
Qed.

Lemma push_record_joined n s hid k h st :
  StateOk n st → 0 ≤ n →
  push_record s hid (mk_semantic k (Some h)) st =
    let st' := push_record s hid (mk_semantic k None) st in
    with_sessions st' (alter (join_history h (next_id (default captures_new (sessions st !! s)))) s (sessions st')).
Proof.
  intros Hok H0. unfold push_record. cbn [sessions touch_session history_index session_lru pending_histories]. set (c := default captures_new (sessions st !! s)).
  assert (SessionOk n s c) as Hc by (unfold c; destruct (sessions st !! s) as [c0|] eqn:E; cbn; [by apply Hok|by apply captures_new_ok]).
  unfold push, push_with_limits. change (sm_capture (mk_semantic k (Some h))) with k. change (sm_capture (mk_semantic k None)) with k.
  change (mk_stored (next_id c) hid (out_len k) (mk_semantic k (Some h))) with (set_history h (mk_stored (next_id c) hid (out_len k) (mk_semantic k None))).
  rewrite evict_joined.
  2:{ eapply Forall_impl; [apply Hc|]. intros r [Hr _ _ _]. cbn. lia. }
  destruct (evict_to_limits _ _ _ _) as [[rest b'] ev]. cbn [sd_id].
  set (c1 := mk_captures (saturating_add (next_id c) 1) rest b').
  change (mk_captures (saturating_add (next_id c) 1) (modify_first (λ r, sd_id r =? next_id c) (set_history h) rest) b') with (join_history h (next_id c) c1).
  replace (<[s := join_history h (next_id c) c1]> (sessions st)) with (alter (join_history h (next_id c)) s (<[s := c1]> (sessions st))) by (by rewrite alter_insert_eq).
  rewrite expire_joined. by destruct (expire_lru _ _ _) as [[lru m'] i'].
Qed.

(** It does not matter whether the entry of a command or its captured output arrives first: the store
    ends up in the same state, with the two joined. *)
Theorem capture_and_entry_commute evs0 k v s h :
  let st := foldl sem_step state_new evs0 in
  Forall event_fits evs0 → Z.of_nat (length evs0) + 1 < u64_limit → out_len k ≤ MAX_BYTES_PER_SESSION →
  history_id_from_str (cc_history_id k) = Some (h_id h) → cc_session_id k = Some v → id_from_str v = Some s →
  history_index st !! h_id h = None → h_id h ∉ h_id <$> pending_histories st → (length (pending_histories st) < MAX_PENDING_HISTORIES)%nat →
  (record_capture k (record_history h st)).1 = record_history h (record_capture k st).1.
Proof.
  intros st Hf Hlim Hlen Hid Hv Hs Hi Hp Hpl. assert (StateOk (Z.of_nat (length evs0)) st) as Hok by (apply reachable_ok; [done|lia]).
  assert (∀ l, h_id h ∉ h_id <$> l → remove_first (has_id (h_id h)) l = l ∧ List.find (has_id (h_id h)) l = None ∧
            remove_first (has_id (h_id h)) (l ++ [h]) = l ∧ List.find (has_id (h_id h)) (l ++ [h]) = Some h) as Hl.
  { clear. intros l. induction l as [|x l IH]; intros Hn; cbn.
    - unfold has_id. by rewrite bool_decide_true by done.
    - cbn in Hn. apply not_elem_of_cons in Hn as [Hx Hn]. destruct (IH Hn) as (-> & -> & -> & ->).
      assert (has_id (h_id h) x = false) as -> by (by apply bool_decide_eq_false). done. }
  destruct (Hl _ Hp) as (L1 & L2 & L3 & L4).
  assert (record_history h st = with_pending st (pending_histories st ++ [h])) as ->.
  { unfold record_history. rewrite Hi. unfold push_pending_history. rewrite L1. f_equal. rewrite length_app. cbn [length].
    replace (length (pending_histories st) + 1 - MAX_PENDING_HISTORIES)%nat with O by lia. done. }
  unfold record_capture. rewrite Hid. cbn [take_pending_history with_pending pending_histories]. rewrite L1, L2, L3, L4, Hv. cbn [mbind option_bind]. rewrite Hs. cbn [or_else fst].
  replace (with_pending (with_pending st (pending_histories st ++ [h])) (pending_histories st)) with st by (by destruct st).
  replace (with_pending st (pending_histories st)) with st by (by destruct st). fold (as_stored k (h_id h) s).
  rewrite (push_record_joined (Z.of_nat (length evs0))) by (done || lia). cbv zeta.
  destruct (kept_new (Z.of_nat (length evs0)) (h_id h) s k st) as [Kx (c' & pre & r & post & Hc' & Er & Hrid & _ & _ & _) _]; [done|lia|lia|done|done| |].
  { unfold capture_session. rewrite Hid, Hv. cbn. by rewrite Hs. }
  assert ((record_capture k st).1 = push_record s (h_id h) (mk_semantic (as_stored k (h_id h) s) None) st) as Es.
  { unfold record_capture. rewrite Hid. cbn [take_pending_history]. rewrite L1, L2, Hv. cbn [mbind option_bind]. rewrite Hs. cbn [or_else fst]. by replace (with_pending st (pending_histories st)) with st by (by destruct st). }
  rewrite Es in *. unfold record_history. rewrite Kx. cbn [cr_session cr_id]. rewrite Hc'. cbn [mbind option_bind].
  assert (r ∈ records c') as Hr by (rewrite Er; apply elem_of_app; right; left). destruct (stored_capture_found c' r Hr) as [r' Er']. rewrite Hrid in Er'. by rewrite Er'.
Qed.
End store.

(** ** A session at work *)

Module SemanticDemo.
Definition nl : string := String (Ascii.ascii_of_nat 10) EmptyString.
Definition entry (id : string) : Entry :=
  mk_hist id 1700000000000000000 5 0 "make"%string "/src"%string "one"%string (Origin.new "box" "ann") "ann"%string None None None (Some KindUser).
Definition cap (id session output : string) : CommandCapture := mk_capture "$"%string "make"%string output (Some 0) (Some id) (Some session) false 0.

(** Output with four lines; then another capture of the session, one of a second session, an entry and a
    question. *)
Definition text : string := ("a" ++ nl ++ "b" ++ nl ++ "c" ++ nl ++ "d")%string.
Definition before : list SemEvent := [ECapture (cap "h0" "one" "old"); EHistory (entry "h9")].
Definition later : list SemEvent := [ECapture (cap "h2" "one" "x"); EHistory (entry "h1"); ECapture (cap "h3" "two" "y"); EQuery "h3" []].

Lemma selected_lines_exact_witness :
  let ls := lines text in
  Z.of_nat (length ls) < i64_limit ∧
  select_output_ranges text [mk_range (-1) 99; mk_range 0 1; mk_range 1 1] =
    line_of <$> filter (λ p, requested (length ls) [mk_range (-1) 99; mk_range 0 1; mk_range 1 1] p.1) (positions ls) ∧
  select_output_ranges text [mk_range (-1) 99; mk_range 0 1; mk_range 1 1] = [mk_line 1 "a"; mk_line 2 "b"; mk_line 4 "d"].
Proof. split; [by vm_compute|]. split; [apply (selected_lines_exact text [mk_range (-1) 99; mk_range 0 1; mk_range 1 1]); by vm_compute|by vm_compute]. Defined.

Lemma captures_stay_in_bounds_witness :
  Forall event_fits (before ++ later) ∧ StateOk 6 (foldl sem_step state_new (before ++ later)) ∧
  length (session_lru (foldl sem_step state_new (before ++ later))) = 2%nat.
Proof.
  assert (Forall event_fits (before ++ later)) as Hf by (repeat constructor).
  split; [done|]. split; [exact (captures_stay_in_bounds (before ++ later) Hf eq_refl)|by vm_compute].
Defined.

Lemma recent_output_served_witness :
  (command_output " h1 " [mk_range 1 2] (foldl sem_step (record_capture (cap "h1" "one" text) (foldl sem_step state_new before)).1 later)).2 =
    mk_reply true "" 7 4 [mk_line 2 "b"; mk_line 3 "c"] false 7.
Proof.
  refine (recent_output_served before (cap "h1" "one" text) "h1" "one" later " h1 " [mk_range 1 2] _ _ _ _ _ _ _ _ _ _).
  - repeat constructor.
  - repeat constructor.
  - by vm_compute.
  - by vm_compute.
  - by vm_compute.
  - repeat constructor; by vm_compute.
  - apply (bool_decide_unpack _). by vm_compute.
  - by vm_compute.
  - apply (bool_decide_unpack _). by vm_compute.
  - by vm_compute.
Defined.

Lemma capture_and_entry_commute_witness :
  let st := foldl sem_step state_new (before ++ later) in
  (record_capture (cap "h7" "two" text) (record_history (entry "h7") st)).1 = record_history (entry "h7") (record_capture (cap "h7" "two" text) st).1.
Proof.
  refine (capture_and_entry_commute (before ++ later) (cap "h7" "two" text) "two" "two" (entry "h7") _ _ _ _ _ _ _ _ _).
  - repeat constructor.
  - by vm_compute.
  - by vm_compute.
  - by vm_compute.
  - done.
  - by vm_compute.
  - by vm_compute.
  - apply (bool_decide_unpack _). by vm_compute.
  - apply (bool_decide_unpack _). by vm_compute.
Defined.
End SemanticDemo.
