(* ===== verification/SearchIndex.v ===== *)
(** * The daemon's search index ([atuin-daemon/src/search], [atuin-common/src/path/display_rich.rs])

    Every command once, with what is known of its runs; a search filters the commands, has them matched
    by the fuzzy matcher and ranks them. The string interner ([lasso]), the matcher ([frizbee]), UUIDs
    and the arithmetic on floating point numbers are interfaces. Maps that may be shared between threads
    are plain ones; a panic is [None]. *)
From S2P Require Import Prelude Text Filter Record History.

(** [path.display_rich().trailing_slash(true)] *)
Definition trailing_slash (p : string) : string := if ends_with "/" p then p else (p +:+ "/")%string.

(** ** Queries and normal forms *)

Definition MAX_QUERY_LEN : nat := 512.
(** [truncate_query] *)
Definition truncate_query (query : string) : string :=
  if (String.length query <=? MAX_QUERY_LEN)%nat then query else String.concat "" (take MAX_QUERY_LEN (str_chars query)).

(** The table of [normalize.rs], a copy of another project's. *)
Class Diacritics : Type := normalize_char : string → string.

(** [normalize_diacritics] *)
Definition normalize_diacritics `{Diacritics} (s : string) : string :=
  if is_ascii s || forallb (λ c, bool_decide (normalize_char c = c)) (str_chars s) then s
  else String.concat "" (normalize_char <$> str_chars s).

(** ** Interfaces *)

(** [Uuid::parse_str], as bytes. *)
Class UuidBytes : Type := parse_uuid_bytes : string → option (list Z).

(** [ThreadedRodeo] *)
Class Rodeo : Type := {
  Spur : Type; Interner : Type; rodeo_new : Interner; get_or_intern : string → Interner → Interner * Spur;
  rodeo_get : Interner → string → option Spur; rodeo_resolve : Interner → Spur → string;
  Spur_dec :: EqDecision Spur; Spur_count :: Countable Spur
}.
Class RodeoLaws `{Rodeo} : Prop := {
  get_new s : rodeo_get rodeo_new s = None;
  get_interned s i : rodeo_get (get_or_intern s i).1 s = Some (get_or_intern s i).2;
  get_kept s t k i : rodeo_get i t = Some k → rodeo_get (get_or_intern s i).1 t = Some k;
  get_other s t i : t ≠ s → rodeo_get i t = None → rodeo_get (get_or_intern s i).1 t = None;
  resolve_get s k i : rodeo_get i s = Some k → rodeo_resolve i k = s
}.

(** [frizbee]: whether a query has patterns, and the matches with their scores and places. *)
Class Frizbee : Type := {
  no_patterns : string → bool; match_one : string → string → option Z; match_list : string → list string → list (Z * nat)
}.
(** Matching in the order of the list, one element after the other. *)
Class FrizbeeLaws `{Frizbee} : Prop := {
  match_list_each q l : match_list q l = omap (λ p : nat * string, (λ sc, (sc, p.1)) <$> match_one q p.2) (imap pair l)
}.

(** The sum of the weighted scores in [compute], and the multiplier of [rebuild_frecency], rounded. *)
Class Weights : Type := { combine : Z → Z → Z; scale : Z → Z }.

(** ** Frecency *)

Record FrecencyData : Type := mk_frecency { fr_count : Z; last_used : Z }.
Definition frecency_default : FrecencyData := mk_frecency 0 0.
Definition u32_limit : Z := 2 ^ 32.

(** [record_use] *)
Definition record_use (timestamp : Z) (f : FrecencyData) : FrecencyData :=
  mk_frecency ((fr_count f + 1) mod u32_limit) (if last_used f <? timestamp then timestamp else last_used f).

(** The [match] on the age in hours. *)
Definition recency_score (hours : Z) : Z :=
  if hours =? 0 then 100 else if hours <=? 6 then 90 else if hours <=? 24 then 70 else if hours <=? 72 then 50
  else if hours <=? 168 then 30 else if hours <=? 720 then 15 else 5.

(** [compute] *)
Definition compute `{Weights} (now : Z) (f : FrecencyData) : Z :=
  if fr_count f =? 0 then 0 else combine (recency_score (Z.max (now - last_used f) 0 / 3600)) (fr_count f).

(** ** Commands *)

Section index.
Context `{Diacritics, UuidBytes, Rodeo, Frizbee, Weights}.

Record CommandData : Type := mk_data {
  most_recent_id : list Z; most_recent_timestamp : Z; global_frecency : FrecencyData; directories : gset Spur; hosts : gset Spur;
  cd_sessions : gset (list Z); haystack_index : nat
}.

(** [unix_timestamp] of a time in nanoseconds. *)
Definition unix_timestamp (h : Entry) : Z := h_timestamp h / 1000000000.

(** [CommandData::new] *)
Definition data_new (h : Entry) (haystack_index : nat) (i : Interner) : option (CommandData * Interner) :=
  if u32_limit <=? Z.of_nat haystack_index then None
  else
    id ← parse_uuid_bytes (h_id h); session ← parse_uuid_bytes (h_session h);
    let timestamp := unix_timestamp h in
    let '(i, dir_key) := get_or_intern (trailing_slash (h_cwd h)) i in
    let '(i, host_key) := get_or_intern (o_raw (h_origin h)) i in
    Some (mk_data id timestamp (record_use timestamp frecency_default) {[dir_key]} {[host_key]} {[session]} haystack_index, i).

(** [add_invocation] *)
Definition add_invocation (h : Entry) (d : CommandData) (i : Interner) : CommandData * Interner :=
  match parse_uuid_bytes (h_id h), parse_uuid_bytes (h_session h) with
  | Some id, Some session =>
      let timestamp := unix_timestamp h in
      let '(i, dir_key) := get_or_intern (trailing_slash (h_cwd h)) i in
      let '(i, host_key) := get_or_intern (o_raw (h_origin h)) i in
      let newer := most_recent_timestamp d <? timestamp in
      (mk_data (if newer then id else most_recent_id d) (if newer then timestamp else most_recent_timestamp d)
         (record_use timestamp (global_frecency d)) ({[dir_key]} ∪ directories d) ({[host_key]} ∪ hosts d) ({[session]} ∪ cd_sessions d)
         (haystack_index d), i)
  | _, _ => (d, i)
  end.

(** [has_invocation_in_*] *)
Definition has_invocation_in_dir (dir : Spur) (d : CommandData) : bool := bool_decide (dir ∈ directories d).
Definition has_invocation_in_workspace (prefix : string) (i : Interner) (d : CommandData) : bool :=
  existsb (λ k, starts_with prefix (rodeo_resolve i k)) (elements (directories d)).
Definition has_invocation_on_host (host : Spur) (d : CommandData) : bool := bool_decide (host ∈ hosts d).
Definition has_invocation_in_session (session : list Z) (d : CommandData) : bool := bool_decide (session ∈ cd_sessions d).

(** ** Filters *)

Inductive IndexFilterMode : Type := IGlobal | IDirectory (s : string) | IWorkspace (s : string) | IHost (s : string) | ISession (s : string).
Inductive CompiledFilter : Type := FAll | FDir (k : Spur) | FPrefix (s : string) | FOnHost (k : Spur) | FInSession (u : list Z) | FNothing.

(** [IndexFilterMode::compile] *)
Definition compile (m : IndexFilterMode) (i : Interner) : CompiledFilter :=
  match m with
  | IGlobal => FAll
  | IDirectory dir => match rodeo_get i dir with Some k => FDir k | None => FNothing end
  | IWorkspace prefix => FPrefix prefix
  | IHost host => match rodeo_get i host with Some k => FOnHost k | None => FNothing end
  | ISession s => match parse_uuid_bytes s with Some u => FInSession u | None => FNothing end
  end.

Definition filter_holds (f : CompiledFilter) (i : Interner) (d : CommandData) : bool :=
  match f with
  | FAll => true
  | FDir k => has_invocation_in_dir k d
  | FPrefix p => has_invocation_in_workspace p i d
  | FOnHost k => has_invocation_on_host k d
  | FInSession u => has_invocation_in_session u d
  | FNothing => false
  end.

(** ** The index *)

Record HaystackEntry : Type := mk_hay { original : string; normalized : string }.
Definition hay_new (text : string) : HaystackEntry := mk_hay text (normalize_diacritics text).

Record SearchIndex : Type := mk_index {
  commands : gmap string CommandData; haystack : list HaystackEntry; frecency_map : option (list Z); interner : Interner; shells : OrFilter string
}.

(** [SearchIndex::new] *)
Definition index_new (shells : OrFilter string) : SearchIndex := mk_index ∅ [] None rodeo_new shells.

(** [add_history], [add_histories] *)
Definition add_history (h : Entry) (ix : SearchIndex) : SearchIndex :=
  if Entry.is_agent h then ix
  else if negb (Filter.contains (shells ix) (default ""%string (h_shell h))) then ix
  else
    match commands ix !! h_command h with
    | Some d =>
        let '(d, i) := add_invocation h d (interner ix) in
        mk_index (<[h_command h := d]> (commands ix)) (haystack ix) (frecency_map ix) i (shells ix)
    | None =>
        match data_new h (length (haystack ix)) (interner ix) with
        | None => ix
        | Some (d, i) => mk_index (<[h_command h := d]> (commands ix)) (haystack ix ++ [hay_new (h_command h)]) (frecency_map ix) i (shells ix)
        end
    end.
Definition add_histories (hs : list Entry) (ix : SearchIndex) : SearchIndex := foldl (λ ix h, add_history h ix) ix hs.
Definition command_count (ix : SearchIndex) : nat := size (commands ix).

(** ** Searching *)

Record Score : Type := mk_score { fuzzy_score : Z; sc_frecency : Z; sc_index : nat }.

(** [Score::cmp] *)
Definition score_cmp (a b : Score) : comparison :=
  cmp (fuzzy_score b, sc_frecency b, Z.of_nat (sc_index a)) (fuzzy_score a, sc_frecency a, Z.of_nat (sc_index b)).
Definition score_leb (a b : Score) : bool := match score_cmp a b with Gt => false | _ => true end.

(** The candidates of a filter: places in the haystack, in order. *)
Definition candidates (f : CompiledFilter) (ix : SearchIndex) : list nat :=
  match f with
  | FAll => seq 0 (length (haystack ix))
  | FNothing => []
  | _ =>
      sort_by Nat.leb
        (haystack_index <$> filter (λ d, filter_holds f (interner ix) d = true)
           (filter (λ d, (haystack_index d < length (haystack ix))%nat) (snd <$> map_to_list (commands ix))))
  end.

Definition candidate_frecency (ix : SearchIndex) (hay_idx : nat) : Z := default 0 (m ← frecency_map ix; m !! hay_idx).

(** The scores of the candidates; no candidate lies outside of the haystack unless this is a panic. *)
Definition scored (query : string) (cs : list nat) (ix : SearchIndex) : option (list Score) :=
  if no_patterns query then Some (imap (λ i c, mk_score 0 (candidate_frecency ix c) i) cs)
  else
    texts ← mapM (λ c, normalized <$> haystack ix !! c) cs;
    mapM (λ m : Z * nat, c ← cs !! m.2; Some (mk_score m.1 (candidate_frecency ix c) m.2)) (match_list query texts).

(** The best [limit] scores in order ([select_nth_unstable], [truncate], [sort_unstable]). *)
Definition best (limit : nat) (l : list Score) : list Score :=
  sort_by score_leb (if (limit <? length l)%nat then take limit (sort_by score_leb l) else l).

(** [SearchIndex::search] *)
Definition search (query : string) (mode : IndexFilterMode) (limit : nat) (ix : SearchIndex) : option (list (list Z)) :=
  let query := normalize_diacritics (truncate_query query) in
  let cs := candidates (compile mode (interner ix)) ix in
  l ← scored query cs ix;
  r ← mapM (λ sc, c ← cs !! sc_index sc; h ← haystack ix !! c; Some (most_recent_id <$> commands ix !! original h)) (best limit l);
  Some (omap id r).

(** [rebuild_frecency] *)
Definition rebuild_frecency (now : Z) (ix : SearchIndex) : SearchIndex :=
  let f := (λ h, match commands ix !! original h with Some d => scale (compute now (global_frecency d)) | None => 0 end) <$> haystack ix in
  mk_index (commands ix) (haystack ix) (Some f) (interner ix) (shells ix).
End index.

(** ** What the index knows *)

Section known.
Context `{Diacritics, UuidBytes, RodeoLaws, FrizbeeLaws, Weights}.
Implicit Types (h : Entry) (hs : list Entry) (c : string) (ix : SearchIndex).

Section runs.
Context (f : OrFilter string).

(** The runs that are indexed: of a user, of a shell that is included, with readable ids. *)
Definition indexed h : bool :=
  negb (Entry.is_agent h) && Filter.contains f (default ""%string (h_shell h)) && bool_decide (is_Some (parse_uuid_bytes (h_id h))) && bool_decide (is_Some (parse_uuid_bytes (h_session h))).
Definition runs hs c : list Entry := filter (λ h, indexed h = true ∧ h_command h = c) hs.

(** The commands in the order of their first runs. *)
Definition note_command (l : list string) h : list string := if indexed h then if decide (h_command h ∈ l) then l else l ++ [h_command h] else l.
Definition uniques hs : list string := foldl note_command [] hs.

(** The first of the runs with the greatest time. *)
Definition newest (l : list Entry) : option Entry := List.find (λ h, forallb (λ h', unix_timestamp h' <=? unix_timestamp h) l) l.
Definition last_time (l : list Entry) : Z := foldl (λ z h, Z.max z (unix_timestamp h)) 0 l.

Record DataOk hs (i : Interner) c (d : CommandData) : Prop := mk_data_ok {
  do_newest : ∃ r, newest (runs hs c) = Some r ∧ parse_uuid_bytes (h_id r) = Some (most_recent_id d) ∧ most_recent_timestamp d = unix_timestamp r;
  do_frecency : global_frecency d = mk_frecency (Z.of_nat (length (runs hs c)) mod u32_limit) (last_time (runs hs c));
  do_dirs : ∀ k, k ∈ directories d ↔ ∃ h, h ∈ runs hs c ∧ rodeo_get i (trailing_slash (h_cwd h)) = Some k;
  do_hosts : ∀ k, k ∈ hosts d ↔ ∃ h, h ∈ runs hs c ∧ rodeo_get i (o_raw (h_origin h)) = Some k;
  do_sessions : ∀ u, u ∈ cd_sessions d ↔ ∃ h, h ∈ runs hs c ∧ parse_uuid_bytes (h_session h) = Some u;
  do_place : uniques hs !! haystack_index d = Some c
}.

Record IndexOk hs ix : Prop := mk_index_ok {
  io_shells : shells ix = f;
  io_commands : ∀ c, commands ix !! c = None ↔ runs hs c = [];
  io_data : ∀ c d, commands ix !! c = Some d → DataOk hs (interner ix) c d;
  io_haystack : haystack ix = hay_new <$> uniques hs;
  io_interned : ∀ h, h ∈ hs → indexed h = true → is_Some (rodeo_get (interner ix) (trailing_slash (h_cwd h))) ∧ is_Some (rodeo_get (interner ix) (o_raw (h_origin h)))
}.

Lemma runs_snoc hs h c : runs (hs ++ [h]) c = runs hs c ++ if decide (indexed h = true ∧ h_command h = c) then [h] else [].
Proof. unfold runs. by rewrite filter_app. Qed.
Lemma runs_in hs h : indexed h = true → runs (hs ++ [h]) (h_command h) = runs hs (h_command h) ++ [h].
Proof. intros Hi. by rewrite runs_snoc, decide_True. Qed.
Lemma runs_out hs h c : ¬ (indexed h = true ∧ h_command h = c) → runs (hs ++ [h]) c = runs hs c.
Proof. intros Hn. by rewrite runs_snoc, decide_False, app_nil_r. Qed.
Lemma uniques_snoc hs h : uniques (hs ++ [h]) = note_command (uniques hs) h.
Proof. unfold uniques. by rewrite foldl_app. Qed.

Lemma elem_of_uniques hs c : c ∈ uniques hs ↔ runs hs c ≠ [].
Proof.
  induction hs as [|h hs IH] using rev_ind; [split; [by intros ?%elem_of_nil|by intros []]|]. rewrite uniques_snoc. unfold note_command.
  destruct (decide (indexed h = true ∧ h_command h = c)) as [[Hi <-]|Hn].
  - rewrite runs_in, Hi by done. case_decide as Hin; [|rewrite elem_of_app, list_elem_of_singleton]; (split; [intros _; by destruct (runs hs (h_command h))|intros _; tauto]).
  - rewrite runs_out by done. rewrite <- IH. destruct (indexed h); [|done]. case_decide; [done|]. rewrite elem_of_app, list_elem_of_singleton. naive_solver.
Qed.

Lemma NoDup_uniques hs : NoDup (uniques hs).
Proof.
  induction hs as [|h hs IH] using rev_ind; [constructor|]. rewrite uniques_snoc. unfold note_command. destruct (indexed h); [|done]. case_decide; [done|].
  apply NoDup_app. split_and!; [done| |apply NoDup_singleton]. by intros x Hx ->%list_elem_of_singleton.
Qed.

Lemma find_split {A} (p : A → bool) l x : List.find p l = Some x ↔ ∃ l1 l2, l = l1 ++ x :: l2 ∧ p x = true ∧ ∀ y, y ∈ l1 → p y = false.
Proof.
  split.
  - induction l as [|y l IH]; [done|]. cbn. destruct (p y) eqn:E; [intros [= <-]; exists [], l; split_and!; [done..|by intros ? ?%elem_of_nil]|].
    intros (l1 & l2 & -> & Hx & Hl)%IH. exists (y :: l1), l2. split_and!; [done..|]. intros z [->|Hz]%elem_of_cons; [done|by apply Hl].
  - intros (l1 & l2 & -> & Hx & Hl). induction l1 as [|y l1 IH]; cbn; [by rewrite Hx|]. rewrite (Hl y) by left. apply IH. intros z Hz. apply Hl. by right.
Qed.

Lemma forallb_le l h : forallb (λ h', unix_timestamp h' <=? unix_timestamp h) l = true ↔ ∀ h', h' ∈ l → unix_timestamp h' ≤ unix_timestamp h.
Proof. rewrite forallb_forall. setoid_rewrite Z.leb_le. setoid_rewrite list_elem_of_In. done. Qed.

Lemma newest_snoc l h r : newest l = Some r → newest (l ++ [h]) = Some (if unix_timestamp r <? unix_timestamp h then h else r).
Proof.
  unfold newest. intros (l1 & l2 & El & Hr & Hl1)%find_split. rewrite forallb_le in Hr. destruct (Z.ltb_spec (unix_timestamp r) (unix_timestamp h)) as [Hlt|Hge]; apply find_split.
  - exists l, []. split_and!; [done| |].
    + apply forallb_le. intros h' [Hh'| ->%list_elem_of_singleton]%elem_of_app; [|lia]. pose proof (Hr _ Hh'). lia.
    + intros y Hy. apply not_true_is_false. rewrite forallb_le. intros Hall. pose proof (Hall h ltac:(apply elem_of_app; right; left)). pose proof (Hr _ Hy). lia.
  - exists l1, (l2 ++ [h]). split_and!; [by rewrite El, <- app_assoc| |].
    + apply forallb_le. intros h' [Hh'| ->%list_elem_of_singleton]%elem_of_app; [|lia]. by apply Hr.
    + intros y Hy. apply not_true_is_false. rewrite forallb_le. intros Hall. pose proof (Hl1 y Hy) as Hf. apply not_true_iff_false in Hf. apply Hf. apply forallb_le. intros h' Hh'. apply Hall. apply elem_of_app. by left.
Qed.
Lemma newest_one h : newest [h] = Some h.
Proof. unfold newest. cbn. by rewrite Z.leb_refl. Qed.
Lemma last_time_snoc l h : last_time (l ++ [h]) = Z.max (last_time l) (unix_timestamp h).
Proof. unfold last_time. by rewrite foldl_app. Qed.

(** *** Adding an entry *)

Definition interned2 h (i : Interner) : Interner := (get_or_intern (o_raw (h_origin h)) (get_or_intern (trailing_slash (h_cwd h)) i).1).1.

Lemma interned2_spec h i t k : rodeo_get i t = Some k → rodeo_get (interned2 h i) t = Some k.
Proof. intros Hk. unfold interned2. by do 2 apply get_kept. Qed.

Lemma interned2_keys h i :
  rodeo_get (interned2 h i) (trailing_slash (h_cwd h)) = Some (get_or_intern (trailing_slash (h_cwd h)) i).2 ∧
  rodeo_get (interned2 h i) (o_raw (h_origin h)) = Some (get_or_intern (o_raw (h_origin h)) (get_or_intern (trailing_slash (h_cwd h)) i).1).2.
Proof. unfold interned2. split; [apply get_kept, get_interned|apply get_interned]. Qed.

(** What is interned already has the same key later. *)
Lemma same_key h i t k : is_Some (rodeo_get i t) → rodeo_get (interned2 h i) t = Some k ↔ rodeo_get i t = Some k.
Proof. intros [k' Hk]. rewrite (interned2_spec h i t k' Hk). by rewrite Hk. Qed.

Lemma uniques_lookup hs h n c : uniques hs !! n = Some c → uniques (hs ++ [h]) !! n = Some c.
Proof. rewrite uniques_snoc. unfold note_command. repeat case_match; try done. intros Hn. by apply lookup_app_l_Some. Qed.

Lemma elem_of_runs hs c h : h ∈ runs hs c ↔ h ∈ hs ∧ indexed h = true ∧ h_command h = c.
Proof. unfold runs. rewrite list_elem_of_filter. naive_solver. Qed.

(** An entry that is not indexed changes nothing. *)
Lemma add_skipped h ix : shells ix = f → indexed h = false → add_history h ix = ix.
Proof.
  intros Hf. unfold indexed, add_history. rewrite Hf. destruct (Entry.is_agent h); [done|]. destruct (Filter.contains f _); [|done]. cbn [negb andb].
  unfold data_new, add_invocation. destruct (parse_uuid_bytes (h_id h)) as [u|] eqn:Eu, (parse_uuid_bytes (h_session h)) as [v|] eqn:Ev; cbn; try done; intros _;
    (destruct (commands ix !! h_command h) as [d|] eqn:Ed; [rewrite insert_id, <- Hf by done; by destruct ix|by destruct (u32_limit <=? _)]).
Qed.

Lemma index_skipped hs h ix : indexed h = false → IndexOk hs ix → IndexOk (hs ++ [h]) ix.
Proof.
  intros Hi [I1 I2 I3 I4 I5]. assert (∀ c, runs (hs ++ [h]) c = runs hs c) as Er by (intros c; apply runs_out; intros [? _]; congruence).
  assert (uniques (hs ++ [h]) = uniques hs) as Eu by (rewrite uniques_snoc; unfold note_command; by rewrite Hi). split; try done.
  - intros c. by rewrite Er.
  - intros c d [D1 D2 D3 D4 D5 D6]%I3. split; rewrite ?Er, ?Eu; done.
  - by rewrite Eu.
  - intros h' [Hh| ->%list_elem_of_singleton]%elem_of_app Hi'; [by apply I5|congruence].
Qed.

(** The other commands do not notice. *)
Lemma data_other hs h ix c d :
  IndexOk hs ix → c ≠ h_command h → commands ix !! c = Some d → DataOk (hs ++ [h]) (interned2 h (interner ix)) c d.
Proof.
  intros [I1 I2 I3 I4 I5] Hne Hd. destruct (I3 c d Hd) as [D1 D2 D3 D4 D5 D6]. assert (runs (hs ++ [h]) c = runs hs c) as Er by (apply runs_out; naive_solver).
  assert (∀ h', h' ∈ runs hs c → is_Some (rodeo_get (interner ix) (trailing_slash (h_cwd h'))) ∧ is_Some (rodeo_get (interner ix) (o_raw (h_origin h')))) as Hin.
  { intros h' (Hh & Hi & _)%elem_of_runs. by apply I5. }
  split; rewrite ?Er; try done.
  - intros k. rewrite D3. split; intros (h' & Hh & Hk); (exists h'; split; [done|]); destruct (Hin h' Hh); first [by rewrite (same_key h) in Hk by done|by rewrite (same_key h) by done].
  - intros k. rewrite D4. split; intros (h' & Hh & Hk); (exists h'; split; [done|]); destruct (Hin h' Hh); first [by rewrite (same_key h) in Hk by done|by rewrite (same_key h) by done].
  - by apply uniques_lookup.
Qed.

(** The command that was run. *)
Lemma data_added hs h ix d u v :
  IndexOk hs ix → indexed h = true → commands ix !! h_command h = Some d →
  parse_uuid_bytes (h_id h) = Some u → parse_uuid_bytes (h_session h) = Some v →
  (add_invocation h d (interner ix)).2 = interned2 h (interner ix) ∧
  DataOk (hs ++ [h]) (interned2 h (interner ix)) (h_command h) (add_invocation h d (interner ix)).1.
Proof.
  intros [I1 I2 I3 I4 I5] Hi Hd Hu Hv. destruct (I3 _ _ Hd) as [(r & Hr & Hrid & Hrt) D2 D3 D4 D5 D6]. destruct (interned2_keys h (interner ix)) as [K1 K2].
  unfold add_invocation. rewrite Hu, Hv. unfold interned2 in *. destruct (get_or_intern (trailing_slash (h_cwd h)) (interner ix)) as [i1 dk] eqn:E1. cbn [fst snd] in *.
  destruct (get_or_intern (o_raw (h_origin h)) i1) as [i2 hk] eqn:E2. cbn [fst snd] in *. split; [done|].
  assert (∀ t k, is_Some (rodeo_get (interner ix) t) → rodeo_get i2 t = Some k ↔ rodeo_get (interner ix) t = Some k) as Hsame.
  { intros t k Ht. pose proof (same_key h (interner ix) t k Ht) as Hk. unfold interned2 in Hk. rewrite E1 in Hk. cbn [fst] in Hk. by rewrite E2 in Hk. }
  assert (∀ h', h' ∈ runs hs (h_command h) → is_Some (rodeo_get (interner ix) (trailing_slash (h_cwd h'))) ∧ is_Some (rodeo_get (interner ix) (o_raw (h_origin h')))) as Hin.
  { intros h' (Hh & Hi' & _)%elem_of_runs. by apply I5. }
  split; rewrite ?runs_in by done; cbn [most_recent_id most_recent_timestamp global_frecency directories hosts cd_sessions haystack_index].
  - rewrite (newest_snoc _ _ _ Hr), Hrt. eexists. split; [done|]. by destruct (unix_timestamp r <? unix_timestamp h).
  - rewrite D2, last_time_snoc, length_app. unfold record_use. cbn [fr_count last_used]. f_equal.
    + rewrite Zplus_mod_idemp_l. f_equal. cbn. lia.
    + destruct (Z.ltb_spec (last_time (runs hs (h_command h))) (unix_timestamp h)); lia.
  - intros k. rewrite elem_of_union, elem_of_singleton, D3. setoid_rewrite elem_of_app. setoid_rewrite list_elem_of_singleton. split.
    + intros [->|(h' & Hh & Hk)]; [exists h; auto|]. exists h'. split; [by left|]. apply Hsame; [|done]. by apply (Hin h').
    + intros (h' & [Hh| ->] & Hk); [|left; congruence]. right. exists h'. split; [done|]. apply Hsame; [|done]. by apply (Hin h').
  - intros k. rewrite elem_of_union, elem_of_singleton, D4. setoid_rewrite elem_of_app. setoid_rewrite list_elem_of_singleton. split.
    + intros [->|(h' & Hh & Hk)]; [exists h; auto|]. exists h'. split; [by left|]. apply Hsame; [|done]. by apply (Hin h').
    + intros (h' & [Hh| ->] & Hk); [|left; congruence]. right. exists h'. split; [done|]. apply Hsame; [|done]. by apply (Hin h').
  - intros w. rewrite elem_of_union, elem_of_singleton, D5. setoid_rewrite elem_of_app. setoid_rewrite list_elem_of_singleton. naive_solver.
  - by apply uniques_lookup.
Qed.

Lemma data_created hs h ix u v :
  IndexOk hs ix → indexed h = true → commands ix !! h_command h = None → Z.of_nat (length (uniques hs)) < u32_limit →
  parse_uuid_bytes (h_id h) = Some u → parse_uuid_bytes (h_session h) = Some v →
  ∃ d, data_new h (length (haystack ix)) (interner ix) = Some (d, interned2 h (interner ix)) ∧ DataOk (hs ++ [h]) (interned2 h (interner ix)) (h_command h) d.
Proof.
  intros [I1 I2 I3 I4 I5] Hi Hd Hlim Hu Hv. destruct (interned2_keys h (interner ix)) as [K1 K2]. apply I2 in Hd.
  unfold data_new. rewrite I4, length_fmap. destruct (Z.leb_spec u32_limit (Z.of_nat (length (uniques hs)))); [lia|]. rewrite Hu, Hv. cbn [mbind option_bind].
  unfold interned2 in *. destruct (get_or_intern (trailing_slash (h_cwd h)) (interner ix)) as [i1 dk] eqn:E1. cbn [fst snd] in *.
  destruct (get_or_intern (o_raw (h_origin h)) i1) as [i2 hk] eqn:E2. cbn [fst snd] in *. eexists. split; [done|].
  split; rewrite ?runs_in, ?Hd by done; cbn [app most_recent_id most_recent_timestamp global_frecency directories hosts cd_sessions haystack_index].
  - rewrite newest_one. by exists h.
  - unfold record_use, last_time. cbn. f_equal. destruct (Z.ltb_spec 0 (unix_timestamp h)); lia.
  - intros k. rewrite elem_of_singleton. setoid_rewrite list_elem_of_singleton. naive_solver.
  - intros k. rewrite elem_of_singleton. setoid_rewrite list_elem_of_singleton. naive_solver.
  - intros w. rewrite elem_of_singleton. setoid_rewrite list_elem_of_singleton. naive_solver.
  - rewrite uniques_snoc. unfold note_command. rewrite Hi, decide_False by (rewrite elem_of_uniques; naive_solver). by rewrite lookup_app_r, Nat.sub_diag by done.
Qed.

Lemma add_history_ok hs h ix :
  IndexOk hs ix → Z.of_nat (length (uniques hs)) < u32_limit → IndexOk (hs ++ [h]) (add_history h ix).
Proof.
  intros Hok Hlim. destruct (indexed h) eqn:Hi.
  2:{ rewrite add_skipped by (done || apply Hok). by apply index_skipped. }
  pose proof Hi as Hi0. unfold indexed in Hi0. rewrite !andb_true_iff, !bool_decide_eq_true in Hi0. destruct Hi0 as [[[Ha Hs] [u Hu]] [v Hv]].
  unfold add_history. apply negb_true_iff in Ha. rewrite Ha, (io_shells _ _ Hok), Hs. cbn [negb].
  assert (∀ d' hay, DataOk (hs ++ [h]) (interned2 h (interner ix)) (h_command h) d' → hay = hay_new <$> uniques (hs ++ [h]) →
     IndexOk (hs ++ [h]) (mk_index (<[h_command h := d']> (commands ix)) hay (frecency_map ix) (interned2 h (interner ix)) f)) as Hbuild.
  { intros d' hay Hd' Hhay. split; cbn [shells commands interner haystack]; try done.
    - intros c. destruct (decide (c = h_command h)) as [->|Hne].
      + rewrite lookup_insert_eq, runs_in by done. split; [done|]. by intros [_ ?]%app_nil.
      + rewrite lookup_insert_ne, runs_out by naive_solver. apply Hok.
    - intros c d [[<- <-]|[Hne Hd]]%lookup_insert_Some; [done|]. by apply data_other.
    - intros h' [Hh| ->%list_elem_of_singleton]%elem_of_app Hi'.
      + destruct (io_interned _ _ Hok h' Hh Hi') as [[k1 G1] [k2 G2]]. rewrite (interned2_spec _ _ _ _ G1), (interned2_spec _ _ _ _ G2). done.
      + destruct (interned2_keys h (interner ix)) as [-> ->]. done. }
  destruct (commands ix !! h_command h) as [d|] eqn:Ed.
  - destruct (data_added hs h ix d u v Hok Hi Ed Hu Hv) as [E1 Hd']. destruct (add_invocation h d (interner ix)) as [d' i']. cbn [fst snd] in *. subst i'.
    apply Hbuild; try done. rewrite (io_haystack _ _ Hok), uniques_snoc. unfold note_command. rewrite Hi, decide_True; [done|].
    apply elem_of_uniques. rewrite <- (io_commands _ _ Hok). congruence.
  - destruct (data_created hs h ix u v Hok Hi Ed Hlim Hu Hv) as (d & -> & Hd'). apply Hbuild; try done.
    rewrite (io_haystack _ _ Hok), uniques_snoc. unfold note_command. rewrite Hi, decide_False, fmap_app; [done|].
    rewrite elem_of_uniques, <- (io_commands _ _ Hok). naive_solver.
Qed.

(** *** Filters *)

(** What a filter means for the runs of a command. *)
Definition mode_holds (m : IndexFilterMode) (l : list Entry) : bool :=
  match m with
  | IGlobal => true
  | IDirectory dir => existsb (λ h, bool_decide (trailing_slash (h_cwd h) = dir)) l
  | IWorkspace prefix => existsb (λ h, starts_with prefix (trailing_slash (h_cwd h))) l
  | IHost host => existsb (λ h, bool_decide (o_raw (h_origin h) = host)) l
  | ISession s => match parse_uuid_bytes s with Some u => existsb (λ h, bool_decide (parse_uuid_bytes (h_session h) = Some u)) l | None => false end
  end.

Lemma existsb_elem {A} (p : A → bool) l : existsb p l = true ↔ ∃ x, x ∈ l ∧ p x = true.
Proof. rewrite existsb_exists. setoid_rewrite list_elem_of_In. done. Qed.

Lemma key_text i s t k : rodeo_get i s = Some k → rodeo_get i t = Some k → s = t.
Proof. intros Hs%resolve_get Ht%resolve_get. congruence. Qed.

Lemma filter_spec hs ix m c d :
  IndexOk hs ix → commands ix !! c = Some d → filter_holds (compile m (interner ix)) (interner ix) d = mode_holds m (runs hs c).
Proof.
  intros Hok Hd. destruct (io_data _ _ Hok _ _ Hd) as [_ _ D3 D4 D5 _].
  assert (∀ h, h ∈ runs hs c → is_Some (rodeo_get (interner ix) (trailing_slash (h_cwd h))) ∧ is_Some (rodeo_get (interner ix) (o_raw (h_origin h)))) as Hin.
  { intros h (Hh & Hi & _)%elem_of_runs. by apply (io_interned _ _ Hok). }
  apply eq_bool_prop_intro. rewrite !Is_true_true. destruct m as [|dir|prefix|host|s]; cbn [compile mode_holds]; [done|..].
  - rewrite existsb_elem. setoid_rewrite bool_decide_eq_true. destruct (rodeo_get (interner ix) dir) as [k|] eqn:E; cbn [filter_holds].
    + unfold has_invocation_in_dir. rewrite bool_decide_eq_true, D3. split; intros (h & Hh & Hk); exists h; (split; [done|]); [by eapply key_text|by rewrite Hk].
    + split; [done|]. intros (h & Hh & Hk). destruct (Hin h Hh) as [[? Hs] _]. congruence.
  - cbn [filter_holds]. unfold has_invocation_in_workspace. rewrite !existsb_elem. setoid_rewrite elem_of_elements. setoid_rewrite D3. split.
    + intros (k & (h & Hh & Hk) & Hp). exists h. by rewrite (resolve_get _ _ _ Hk) in Hp.
    + intros (h & Hh & Hp). destruct (Hin h Hh) as [[k Hk] _]. exists k. split; [by exists h|]. by rewrite (resolve_get _ _ _ Hk).
  - rewrite existsb_elem. setoid_rewrite bool_decide_eq_true. destruct (rodeo_get (interner ix) host) as [k|] eqn:E; cbn [filter_holds].
    + unfold has_invocation_on_host. rewrite bool_decide_eq_true, D4. split; intros (h & Hh & Hk); exists h; (split; [done|]); [by eapply key_text|by rewrite Hk].
    + split; [done|]. intros (h & Hh & Hk). destruct (Hin h Hh) as [_ [? Hs]]. congruence.
  - destruct (parse_uuid_bytes s) as [u|]; [|done]. cbn [filter_holds]. unfold has_invocation_in_session. rewrite existsb_elem, bool_decide_eq_true, D5.
    by setoid_rewrite bool_decide_eq_true.
Qed.

(** The places of the commands that a filter lets through. *)
Definition place_holds hs (m : IndexFilterMode) (j : nat) : bool := match uniques hs !! j with Some c => mode_holds m (runs hs c) | None => false end.
Definition places hs (m : IndexFilterMode) : list nat := filter (λ j, place_holds hs m j = true) (seq 0 (length (uniques hs))).

Lemma sorted_same_elements (l l' : list nat) : StronglySorted Nat.lt l → StronglySorted Nat.lt l' → (∀ x, x ∈ l ↔ x ∈ l') → l = l'.
Proof.
  revert l'. induction l as [|x l IH]; intros [|y l'] Hs Hs' He; [done| | |].
  - pose proof (proj2 (He y) ltac:(left)) as Hy. by apply elem_of_nil in Hy.
  - pose proof (proj1 (He x) ltac:(left)) as Hx. by apply elem_of_nil in Hx.
  - inversion_clear Hs as [|? ? Hs1 Hf]. inversion_clear Hs' as [|? ? Hs1' Hf']. rewrite Forall_forall in Hf, Hf'.
    assert (x = y) as ->.
    { pose proof (proj1 (He x) ltac:(left)) as [|Hx]%elem_of_cons; [done|]. pose proof (proj2 (He y) ltac:(left)) as [|Hy]%elem_of_cons; [done|].
      apply Hf' in Hx. apply Hf in Hy. unfold Nat.lt in *. lia. }
    f_equal. apply IH; [done..|]. intros z. pose proof (He z) as Hz. rewrite !elem_of_cons in Hz. split; intros Hi.
    + destruct (proj1 Hz ltac:(by right)) as [->|]; [|done]. apply Hf in Hi. unfold Nat.lt in *. lia.
    + destruct (proj2 Hz ltac:(by right)) as [->|]; [|done]. apply Hf' in Hi. unfold Nat.lt in *. lia.
Qed.

Lemma strongly_sorted_filter {A} (R : A → A → Prop) (P : A → Prop) `{∀ x, Decision (P x)} l : StronglySorted R l → StronglySorted R (filter P l).
Proof.
  induction 1 as [|x l Hs IH Hf]; [constructor|]. rewrite filter_cons. case_decide; [|done]. constructor; [done|]. rewrite Forall_forall in Hf |- *.
  intros y [_ Hy]%list_elem_of_filter. by apply Hf.
Qed.
Lemma seq_sorted n k : StronglySorted Nat.lt (seq n k).
Proof.
  revert n. induction k as [|k IH]; intros n; [constructor|]. cbn. constructor; [apply IH|]. apply Forall_forall. intros x Hx%elem_of_seq. unfold Nat.lt. lia.
Qed.
Lemma sort_nats_sorted (l : list nat) : NoDup l → StronglySorted Nat.lt (sort_by Nat.leb l).
Proof.
  intros Hn. assert (StronglySorted (λ x y, Nat.leb x y = true) (sort_by Nat.leb l)) as Hs.
  { apply sort_by_sorted; [|intros x y z; rewrite !Nat.leb_le; lia]. intros x y. destruct (Nat.leb_spec x y); [by left|right]. apply Nat.leb_le. lia. }
  rewrite <- (sort_by_perm Nat.leb l) in Hn. induction Hs as [|x s Hs IH Hf]; [constructor|]. apply NoDup_cons in Hn as [Hx Hn]. constructor; [by apply IH|].
  rewrite Forall_forall in Hf |- *. intros y Hy. pose proof (Hf y Hy) as Hle%Nat.leb_le. assert (x ≠ y) by (by intros ->). unfold Nat.lt. lia.
Qed.

Lemma candidates_spec hs ix m : IndexOk hs ix → candidates (compile m (interner ix)) ix = places hs m.
Proof.
  intros Hok. assert (length (haystack ix) = length (uniques hs)) as Hlen by (rewrite (io_haystack _ _ Hok); by rewrite length_fmap).
  assert (∀ j, place_holds hs m j = true ↔ ∃ c d, commands ix !! c = Some d ∧ haystack_index d = j ∧ filter_holds (compile m (interner ix)) (interner ix) d = true) as Hpl.
  { intros j. unfold place_holds. split.
    - destruct (uniques hs !! j) as [c|] eqn:Ej; [|done]. intros Hm. assert (runs hs c ≠ []) as Hr by (apply elem_of_uniques; by eapply list_elem_of_lookup_2).
      destruct (commands ix !! c) as [d|] eqn:Ed; [|by apply (io_commands _ _ Hok) in Ed]. exists c, d. rewrite (filter_spec hs ix m c d Hok Ed). split_and!; try done.
      destruct (io_data _ _ Hok _ _ Ed) as [_ _ _ _ _ D6]. by eapply NoDup_lookup; [apply (NoDup_uniques hs)|..].
    - intros (c & d & Hd & <- & Hf). destruct (io_data _ _ Hok _ _ Hd) as [_ _ _ _ _ ->]. by rewrite <- (filter_spec hs ix m c d Hok Hd). }
  assert (∀ j, j ∈ places hs m ↔ place_holds hs m j = true) as Hel.
  { intros j. unfold places. rewrite list_elem_of_filter, elem_of_seq. split; [by intros [? _]|]. intros Hj. split; [done|]. unfold place_holds in Hj.
    destruct (uniques hs !! j) eqn:Ej; [|done]. apply lookup_lt_Some in Ej. lia. }
  apply sorted_same_elements.
  - assert (NoDup (haystack_index <$> (snd <$> map_to_list (commands ix)))) as Hnd.
    { rewrite <- list_fmap_compose. apply NoDup_fmap_2_strong; [|apply NoDup_map_to_list]. intros [c d] [c' d'] Hc%elem_of_map_to_list Hc'%elem_of_map_to_list E. cbn in E.
      assert (c = c') as ->; [|congruence]. destruct (io_data _ _ Hok _ _ Hc) as [_ _ _ _ _ P1], (io_data _ _ Hok _ _ Hc') as [_ _ _ _ _ P2]. congruence. }
    unfold candidates. destruct (compile m (interner ix)); try apply seq_sorted; try constructor; by apply sort_nats_sorted, NoDup_fmap_filter, NoDup_fmap_filter.
  - apply strongly_sorted_filter, seq_sorted.
  - intros j. rewrite Hel, Hpl. unfold candidates.
    assert (∀ g, j ∈ sort_by Nat.leb (haystack_index <$> filter (λ d, filter_holds g (interner ix) d = true)
              (filter (λ d, (haystack_index d < length (haystack ix))%nat) (snd <$> map_to_list (commands ix)))) ↔
            ∃ c d, commands ix !! c = Some d ∧ haystack_index d = j ∧ filter_holds g (interner ix) d = true) as Hgen.
    { intros g. rewrite elem_of_sort_by, list_elem_of_fmap. setoid_rewrite list_elem_of_filter. setoid_rewrite list_elem_of_filter. setoid_rewrite list_elem_of_fmap. split.
      - intros (d & -> & Hf & _ & ([c d'] & -> & Hc%elem_of_map_to_list)). by exists c, d'.
      - intros (c & d & Hd & <- & Hf). exists d. split_and!; try done.
        + destruct (io_data _ _ Hok _ _ Hd) as [_ _ _ _ _ D6%lookup_lt_Some]. lia.
        + exists (c, d). split; [done|]. by apply elem_of_map_to_list. }
    destruct (compile m (interner ix)) eqn:Ef; try apply Hgen.
    + rewrite elem_of_seq, Hlen. split; [|intros (c & d & Hd & <- & _); destruct (io_data _ _ Hok _ _ Hd) as [_ _ _ _ _ D6%lookup_lt_Some]; lia].
      intros [_ Hj]. cbn in Hj. destruct (lookup_lt_is_Some_2 (uniques hs) j Hj) as [c Hc]. apply (Hpl j). unfold place_holds. rewrite Hc. by destruct m; cbn in Ef; repeat case_match.
    + split; [by intros ?%elem_of_nil|]. intros (c & d & _ & _ & Hf). done.
Qed.

(** *** Ranking *)

Lemma insert_by_ext {A} (le le' : A → A → bool) x l : (∀ y, y ∈ l → le x y = le' x y) → insert_by le x l = insert_by le' x l.
Proof.
  induction l as [|y l IH]; intros Hl; [done|]. cbn. rewrite (Hl y) by left. destruct (le' x y); [done|]. f_equal. apply IH. intros z Hz. apply Hl. by right.
Qed.
Lemma sort_by_ext {A} (le le' : A → A → bool) l : (∀ x y, x ∈ l → y ∈ l → le x y = le' x y) → sort_by le l = sort_by le' l.
Proof.
  induction l as [|x l IH]; intros Hl; [done|]. cbn. fold (sort_by le l) (sort_by le' l). rewrite IH by (intros y z Hy Hz; apply Hl; by right).
  apply insert_by_ext. intros y Hy. rewrite elem_of_sort_by in Hy. apply Hl; [left|by right].
Qed.
Lemma sort_by_fmap {A B} (g : A → B) (le : B → B → bool) l : sort_by le (g <$> l) = g <$> sort_by (λ x y, le (g x) (g y)) l.
Proof.
  induction l as [|x l IH]; [done|]. cbn. fold (sort_by le (g <$> l)) (sort_by (λ x y, le (g x) (g y)) l). rewrite IH. generalize (sort_by (λ x y, le (g x) (g y)) l).
  intros s. induction s as [|y s IHs]; [done|]. cbn. destruct (le (g x) (g y)); [done|]. cbn. by rewrite IHs.
Qed.
Lemma mapM_pure {A B} (g : A → option B) (k : A → B) (l : list A) : (∀ x, x ∈ l → g x = Some (k x)) → mapM g l = Some (k <$> l).
Proof. intros Hl. apply mapM_Some, Forall2_fmap_r, Forall_Forall2_diag, Forall_forall, Hl. Qed.
Lemma omap_fmap_l {A B C} (g : A → B) (k : B → option C) (l : list A) : omap k (g <$> l) = omap (λ x, k (g x)) l.
Proof. induction l as [|x l IH]; [done|]. cbn. by rewrite IH. Qed.
Lemma omap_agree {A B} (g k : A → option B) (l : list A) : (∀ x, x ∈ l → g x = k x) → omap g l = omap k l.
Proof. induction l as [|x l IH]; intros Hl; [done|]. cbn. rewrite (Hl x) by left. destruct (k x); rewrite IH; try done; intros y Hy; apply Hl; by right. Qed.
Lemma omap_filter {A B} (P : A → Prop) `{∀ x, Decision (P x)} (g : A → option B) (l : list A) : omap g (filter P l) = omap (λ x, if decide (P x) then g x else None) l.
Proof. induction l as [|x l IH]; [done|]. rewrite filter_cons. cbn. case_decide; cbn; by rewrite IH. Qed.

Definition score_key (a : Score) : Z * Z * Z := (- fuzzy_score a, - sc_frecency a, Z.of_nat (sc_index a)).

Lemma score_leb_key a b : score_leb a b = leb (score_key a) (score_key b).
Proof.
  unfold score_leb, score_cmp, leb, score_key, cmp, ord_prod. cbn [fst snd]. unfold cmp, ord_prod, cmp, ord_Z. cbn [fst snd].
  by rewrite !Z.compare_opp.
Qed.

Lemma best_spec limit l : best limit l = take limit (sort_by_key score_key l).
Proof.
  assert (∀ l, sort_by score_leb l = sort_by_key score_key l) as Hs.
  { intros l'. unfold sort_by_key. apply sort_by_ext. intros x y _ _. apply score_leb_key. }
  unfold best. rewrite !Hs. destruct (Nat.ltb_spec limit (length l)) as [Hl|Hl].
  - unfold sort_by_key at 1. apply sort_by_sorted_id. pose proof (sort_by_key_sorted score_key l) as Hst.
    rewrite <- (take_drop limit (sort_by_key score_key l)) in Hst. by apply StronglySorted_app in Hst as (_ & ? & _).
  - rewrite take_ge; [done|]. unfold sort_by_key. by rewrite length_sort_by.
Qed.

(** *** Searching *)

Definition score_of (q t : string) : option Z := if no_patterns q then Some 0 else match_one q t.

(** What is found: its place among the candidates, its place in the haystack and its score. *)
Definition hits hs (m : IndexFilterMode) (q : string) : list (nat * nat * Z) :=
  omap (λ p : nat * nat, sc ← (c ← uniques hs !! p.2; score_of q (normalize_diacritics c)); Some (p.1, p.2, sc)) (imap pair (places hs m)).

Lemma hits_elem hs m q x : x ∈ hits hs m q → places hs m !! x.1.1 = Some x.1.2 ∧ ∃ c, uniques hs !! x.1.2 = Some c.
Proof.
  intros ([i j] & Hp & Hx)%list_elem_of_omap. cbn in Hx. apply bind_Some in Hx as (sc & (c & Hc & _)%bind_Some & [= <-]). cbn.
  apply list_elem_of_lookup in Hp as [k Hk]. rewrite list_lookup_imap in Hk. apply fmap_Some in Hk as (j' & Hj & [= -> ->]). split; [done|by exists c].
Qed.

Lemma places_known hs m j : j ∈ places hs m → ∃ c, uniques hs !! j = Some c.
Proof. intros [_ Hj%elem_of_seq]%list_elem_of_filter. apply lookup_lt_is_Some_2. lia. Qed.

Lemma scored_spec hs ix m q :
  IndexOk hs ix →
  scored q (places hs m) ix = Some ((λ x, mk_score x.2 (candidate_frecency ix x.1.2) x.1.1) <$> hits hs m q).
Proof.
  intros Hok. unfold scored. set (cs := places hs m). assert (∀ p, p ∈ imap pair cs → ∃ c, uniques hs !! p.2 = Some c) as Hp.
  { intros [i j] [k Hk]%list_elem_of_lookup. rewrite list_lookup_imap in Hk. apply fmap_Some in Hk as (j' & Hj & [= -> ->]).
    apply (places_known hs m). by eapply list_elem_of_lookup_2. }
  destruct (no_patterns q) eqn:En.
  - f_equal. transitivity ((λ p : nat * nat, mk_score 0 (candidate_frecency ix p.2) p.1) <$> imap pair cs); [by rewrite fmap_imap|].
    unfold hits, score_of. rewrite En, list_fmap_omap. fold cs. rewrite <- (omap_agree (λ p : nat * nat, Some (mk_score 0 (candidate_frecency ix p.2) p.1))).
    + clear. induction (imap pair cs) as [|p l IH]; [done|]. cbn. by rewrite <- IH.
    + intros p Hin. destruct (Hp p Hin) as [c Hc]. by rewrite Hc.
  - rewrite (mapM_pure _ (λ j, normalize_diacritics (default ""%string (uniques hs !! j)))).
    2:{ intros j [c Hc]%places_known. rewrite (io_haystack _ _ Hok), list_lookup_fmap, Hc. done. }
    cbn [mbind option_bind]. rewrite match_list_each, imap_fmap. set (t := λ j, normalize_diacritics (default ""%string (uniques hs !! j))).
    replace (imap (λ n, pair n ∘ t) cs) with ((λ p : nat * nat, (p.1, t p.2)) <$> imap pair cs) by (by rewrite fmap_imap).
    rewrite omap_fmap_l. cbn [fst snd].
    assert (omap (λ p : nat * nat, (λ sc, (sc, p.1)) <$> match_one q (t p.2)) (imap pair cs) = (λ x : nat * nat * Z, (x.2, x.1.1)) <$> hits hs m q) as ->.
    { unfold hits, score_of. rewrite En, list_fmap_omap. apply omap_agree. intros p Hin. destruct (Hp p Hin) as [c Hc]. unfold t. cbn. rewrite Hc. cbn. by destruct (match_one q _). }
    rewrite (mapM_pure _ (λ y : Z * nat, mk_score y.1 (candidate_frecency ix (default O (cs !! y.2))) y.2)).
    + f_equal. rewrite <- list_fmap_compose. apply list_fmap_ext. intros k x Hx%list_elem_of_lookup_2%hits_elem. destruct Hx as [Hx _]. cbn. unfold cs. by rewrite Hx.
    + intros y (x & -> & Hx)%list_elem_of_fmap. apply hits_elem in Hx as [Hx _]. cbn. unfold cs. by rewrite Hx.
Qed.

(** The search as it is meant: of the commands whose runs pass the filter those that match, the best first
    and of equals the most used, and of these the one that was seen first; each as its newest run. *)
Definition latest_id hs c : option (list Z) := r ← newest (runs hs c); parse_uuid_bytes (h_id r).
Definition found hs (m : IndexFilterMode) (q : string) (frecency : nat → Z) : list (Z * Z * Z * string) :=
  omap (λ j, c ← uniques hs !! j;
             if mode_holds m (runs hs c) then sc ← score_of q (normalize_diacritics c); Some (- sc, - frecency j, Z.of_nat j, c) else None)
    (seq 0 (length (uniques hs))).
Definition reference hs (query : string) (m : IndexFilterMode) (limit : nat) (frecency : nat → Z) : list (list Z) :=
  omap (λ x, latest_id hs x.2) (take limit (sort_by_key fst (found hs m (normalize_diacritics (truncate_query query)) frecency))).

Lemma found_hits hs m q frecency :
  found hs m q frecency = (λ x : nat * nat * Z, (- x.2, - frecency x.1.2, Z.of_nat x.1.2, default ""%string (uniques hs !! x.1.2))) <$> hits hs m q.
Proof.
  unfold hits. rewrite list_fmap_omap.
  transitivity (omap (λ j, sc ← (c ← uniques hs !! j; score_of q (normalize_diacritics c)); Some (- sc, - frecency j, Z.of_nat j, default ""%string (uniques hs !! j))) (places hs m)).
  - unfold found, places. rewrite omap_filter. apply omap_agree. intros j Hj. unfold place_holds. destruct (uniques hs !! j) as [c|]; [|by case_decide]. cbn.
    destruct (mode_holds m (runs hs c)); [rewrite decide_True by done|by rewrite decide_False by done]. by destruct (score_of q _).
  - assert (places hs m = snd <$> imap pair (places hs m)) as Es.
    { apply list_eq. intros k. rewrite list_lookup_fmap, list_lookup_imap. by destruct (places hs m !! k). }
    rewrite Es at 1. rewrite omap_fmap_l. apply omap_agree. intros p _. destruct (uniques hs !! p.2) as [c|] eqn:Ec; [|done]. cbn. destruct (score_of q _); [|done]. cbn. by rewrite Ec.
Qed.

Lemma places_sorted hs m i i' j j' : places hs m !! i = Some j → places hs m !! i' = Some j' → (Z.of_nat i ?= Z.of_nat i') = (Z.of_nat j ?= Z.of_nat j').
Proof.
  assert (StronglySorted Nat.lt (places hs m)) as Hs by (apply strongly_sorted_filter, seq_sorted).
  assert (∀ a b x y, (a < b)%nat → places hs m !! a = Some x → places hs m !! b = Some y → (x < y)%nat) as Hlt.
  { intros a b x y Hab Ha Hb. exact (sorted_lookup _ _ a b x y Hs Ha Hb Hab). }
  intros Hi Hi'. destruct (Nat.lt_trichotomy i i') as [Hl|[->|Hl]].
  - pose proof (Hlt _ _ _ _ Hl Hi Hi'). rewrite !(proj2 (Z.compare_lt_iff _ _)) by lia. done.
  - assert (j = j') as -> by congruence. by rewrite !Z.compare_refl.
  - pose proof (Hlt _ _ _ _ Hl Hi' Hi). rewrite !(proj2 (Z.compare_gt_iff _ _)) by lia. done.
Qed.

Lemma search_spec hs ix query m limit :
  IndexOk hs ix → search query m limit ix = Some (reference hs query m limit (candidate_frecency ix)).
Proof.
  intros Hok. unfold search, reference. set (q := normalize_diacritics (truncate_query query)). rewrite (candidates_spec hs ix m Hok), (scored_spec hs ix m q Hok). cbn [mbind option_bind].
  rewrite best_spec, found_hits. unfold sort_by_key. rewrite !sort_by_fmap. set (L := hits hs m q).
  rewrite (sort_by_ext (λ x y, leb (score_key (mk_score x.2 (candidate_frecency ix x.1.2) x.1.1)) (score_key (mk_score y.2 (candidate_frecency ix y.1.2) y.1.1)))
    (λ x y : nat * nat * Z, leb (- x.2, - candidate_frecency ix x.1.2, Z.of_nat x.1.2) (- y.2, - candidate_frecency ix y.1.2, Z.of_nat y.1.2))).
  2:{ intros x y [Hx _]%hits_elem [Hy _]%hits_elem. unfold score_key, leb, cmp, ord_prod, cmp, ord_prod, cmp, ord_Z. cbn [fst snd fuzzy_score sc_frecency sc_index].
      by rewrite (places_sorted hs m _ _ _ _ Hx Hy). }
  cbn [fst snd]. set (S := sort_by _ L).
  assert (∀ x, x ∈ take limit S → x ∈ L) as HS by (intros x Hx%subseteq_take; unfold S in Hx; by rewrite elem_of_sort_by in Hx).
  rewrite <- !fmap_take. rewrite (mapM_pure _ (λ sc, latest_id hs (default ""%string (uniques hs !! default O (places hs m !! sc_index sc))))).
  - cbn [mbind option_bind]. f_equal. rewrite !omap_fmap_l. apply omap_agree. intros x [Hx _]%HS%hits_elem. cbn. by rewrite Hx.
  - intros sc (x & -> & [Hx [c Hc]]%HS%hits_elem)%list_elem_of_fmap. cbn. rewrite Hx. cbn. rewrite (io_haystack _ _ Hok), list_lookup_fmap, Hc. cbn. f_equal. unfold latest_id.
    destruct (commands ix !! c) as [d|] eqn:Ed.
    + destruct (io_data _ _ Hok _ _ Ed) as [(r & -> & Hr & _) _ _ _ _ _]. cbn. by rewrite Hr.
    + apply (io_commands _ _ Hok) in Ed. apply list_elem_of_lookup_2, elem_of_uniques in Hc. done.
Qed.

(** *** The index over time *)

Inductive IndexEvent : Type := IAdd h | IRefresh (now : Z).
Definition index_step ix (e : IndexEvent) : SearchIndex := match e with IAdd h => add_history h ix | IRefresh now => rebuild_frecency now ix end.

(** What is to be remembered of the events: the entries, and the weights of the commands at the last
    refresh. *)
Definition weight (now : Z) (l : list Entry) : Z := scale (compute now (mk_frecency (Z.of_nat (length l) mod u32_limit) (last_time l))).
Definition remember (x : list Entry * list Z) (e : IndexEvent) : list Entry * list Z :=
  match e with IAdd h => (x.1 ++ [h], x.2) | IRefresh now => (x.1, (λ c, weight now (runs x.1 c)) <$> uniques x.1) end.
Definition remembered (evs : list IndexEvent) : list Entry * list Z := foldl remember ([], []) evs.

Lemma length_uniques hs : (length (uniques hs) ≤ length hs)%nat.
Proof.
  induction hs as [|h hs IH] using rev_ind; [done|]. rewrite uniques_snoc, length_app. unfold note_command. repeat case_match; rewrite ?length_app; cbn; lia.
Qed.

Lemma refresh_ok hs ix now :
  IndexOk hs ix → IndexOk hs (rebuild_frecency now ix) ∧ frecency_map (rebuild_frecency now ix) = Some ((λ c, weight now (runs hs c)) <$> uniques hs).
Proof.
  intros Hok. split; [by destruct Hok; split|]. cbn. f_equal. rewrite (io_haystack _ _ Hok), <- list_fmap_compose. apply list_fmap_ext. intros j c Hc%list_elem_of_lookup_2. cbn.
  destruct (commands ix !! c) as [d|] eqn:Ed; [by destruct (io_data _ _ Hok _ _ Ed) as [_ -> _ _ _ _]|]. apply (io_commands _ _ Hok) in Ed. by apply elem_of_uniques in Hc.
Qed.

Lemma index_new_ok : IndexOk [] (index_new f).
Proof.
  split; [done|done| |done|].
  - intros c d Hd. change ((∅ : gmap string CommandData) !! c = Some d) in Hd. by apply lookup_empty_Some in Hd.
  - intros h Hh. by apply elem_of_nil in Hh.
Qed.

Lemma index_steps_ok evs :
  Z.of_nat (length evs) < u32_limit →
  let ix := foldl index_step (index_new f) evs in
  IndexOk (remembered evs).1 ix ∧ (∀ j, candidate_frecency ix j = default 0 ((remembered evs).2 !! j)) ∧ (length (remembered evs).1 ≤ length evs)%nat.
Proof.
  induction evs as [|e evs IH] using rev_ind; intros Hlim; [split_and!; [apply index_new_ok|done|done]|]. rewrite length_app in *. cbn [length] in *.
  destruct IH as (I1 & I2 & I3); [lia|]. unfold remembered in *. rewrite !foldl_app. cbn [foldl]. set (x := foldl remember ([], []) evs) in *.
  set (ix := foldl index_step (index_new f) evs) in *. destruct e as [h|now]; cbn [index_step remember fst snd].
  - pose proof (length_uniques x.1). split_and!; [apply add_history_ok; [done|lia]| |rewrite length_app; cbn; lia].
    intros j. rewrite <- I2. unfold candidate_frecency. assert (frecency_map (add_history h ix) = frecency_map ix) as ->; [|done].
    unfold add_history. repeat case_match; done.
  - destruct (refresh_ok x.1 ix now I1) as [R1 R2]. split_and!; [done| |lia]. intros j. unfold candidate_frecency. by rewrite R2.
Qed.

(** C26: after any sequence of entries and refreshes a search of the daemon's index never panics and returns
    what it is meant to: of the commands that users ran in a shell that is included, those with a run that
    passes the filter and a text that matches, the best match first, of equals the one with the greater
    weight at the last refresh, each command once and as its newest run, up to the limit. *)
Theorem index_search_exact evs query m limit :
  Z.of_nat (length evs) < u32_limit →
  search query m limit (foldl index_step (index_new f) evs) =
    Some (reference (remembered evs).1 query m limit (λ j, default 0 ((remembered evs).2 !! j))).
Proof.
  intros Hlim. destruct (index_steps_ok evs Hlim) as (I1 & I2 & _). rewrite (search_spec _ _ query m limit I1). unfold reference, found. do 2 f_equal.
  unfold sort_by_key. f_equal. f_equal. apply omap_agree. intros j _. by rewrite I2.
Qed.
End runs.
End known.

(** ** An index at work *)

Module IndexDemo.
#[export] Instance no_diacritics : Diacritics := λ c, c.
#[export] Instance text_uuids : UuidBytes := λ s, if decide (s = "") then None else Some ((λ c, Z.of_N (Ascii.N_of_ascii c)) <$> chars s).
#[export] Instance set_rodeo : Rodeo := {
  Spur := string; Interner := gset string; rodeo_new := ∅; get_or_intern := λ s i, ({[s]} ∪ i, s);
  rodeo_get := λ i s, if decide (s ∈ i) then Some s else None; rodeo_resolve := λ _ k, k
}.
#[export] Instance set_rodeo_laws : RodeoLaws.
Proof.
  split; cbn.
  - intros s. by rewrite decide_False by (apply not_elem_of_empty).
  - intros s i. by rewrite decide_True by set_solver.
  - intros s t k i. repeat case_decide; set_solver.
  - intros s t i. repeat case_decide; set_solver.
  - intros s k i. case_decide; congruence.
Qed.
Definition prefix_score (q s : string) : option Z := if starts_with q s then Some (Z.of_nat (String.length q)) else None.
#[export] Instance prefix_frizbee : Frizbee := {
  no_patterns := λ q, bool_decide (q = ""); match_one := prefix_score;
  match_list := λ q l, omap (λ p : nat * string, (λ sc, (sc, p.1)) <$> prefix_score q p.2) (imap pair l)
}.
#[export] Instance prefix_frizbee_laws : FrizbeeLaws.
Proof. by split. Qed.
#[export] Instance plain_weights : Weights := { combine := Z.mul; scale := λ x, x }.

(** Runs of [make] in two directories, of [make test] in one, of an agent. *)
Definition run (id : string) (secs : Z) (command cwd : string) (kind : AuthorKind) : Entry :=
  mk_hist id (secs * 1000000000) 5 0 command cwd "s"%string (Origin.new "box" "ann") "ann"%string None None None (Some kind).
Definition entries : list Entry :=
  [run "1" 7200 "make" "/src" KindUser; run "2" 7300 "make test" "/src" KindUser; run "3" 7400 "make" "/doc" KindUser; run "4" 7500 "make all" "/src" KindAgent].
Definition events : list IndexEvent := (IAdd <$> entries) ++ [IRefresh 7600].

(** Of the two commands that match, the one with two runs comes first, as its newer run. *)
Lemma index_search_exact_witness :
  search "mak" (IDirectory "/src/") 5 (foldl index_step (index_new Filter.all) events) =
    Some (reference Filter.all (remembered Filter.all events).1 "mak" (IDirectory "/src/") 5 (λ j, default 0 ((remembered Filter.all events).2 !! j))) ∧
  search "mak" (IDirectory "/src/") 5 (foldl index_step (index_new Filter.all) events) = Some [[51]; [50]].
Proof. split; [apply (index_search_exact Filter.all events "mak" (IDirectory "/src/") 5); by vm_compute|by vm_compute]. Defined.
End IndexDemo.
