(* ===== verification/Normalize.v ===== *)
(** * Latin letters without their diacritics ([atuin-daemon/src/search/normalize.rs])

    The table by which the search index and the queries drop diacritics, on code points, and characters
    as UTF-8. It is the instance of [Diacritics] that the daemon uses. *)
From S2P Require Import Prelude Text SearchIndex.

(** ** Characters as bytes *)

(** [char::encode_utf8], and the code point of a character that is given by its bytes. *)
Definition encode_char (c : Z) : list Ascii.ascii :=
  if c <? 128 then [byte c]
  else if c <? 2048 then [byte (192 + c / 64); byte (128 + c mod 64)]
  else if c <? 65536 then [byte (224 + c / 4096); byte (128 + c / 64 mod 64); byte (128 + c mod 64)]
  else [byte (240 + c / 262144); byte (128 + c / 4096 mod 64); byte (128 + c / 64 mod 64); byte (128 + c mod 64)].
Definition decode_char (l : list Ascii.ascii) : Z :=
  match code <$> l with
  | [a] => a
  | [a; b] => (a - 192) * 64 + (b - 128)
  | [a; b; c] => (a - 224) * 4096 + (b - 128) * 64 + (c - 128)
  | [a; b; c; d] => (a - 240) * 262144 + (b - 128) * 4096 + (c - 128) * 64 + (d - 128)
  | _ => 65533
  end.
Definition text_of (cs : list Z) : string := unchars (concat (encode_char <$> cs)).

(** ** The tables *)

(** From U+00A0, U+1E00 and U+2070 on. *)
Definition LATIN_1AB : list Z := [
  160; 33; 162; 163; 164; 165; 166; 167; 168; 169; 97; 171; 172; 173; 174; 175; 176; 177; 50; 51; 180; 181; 182; 183;
  184; 49; 48; 187; 188; 189; 190; 63; 65; 65; 65; 65; 65; 65; 198; 67; 69; 69; 69; 69; 73; 73; 73; 73; 68; 78; 79;
  79; 79; 79; 79; 215; 79; 85; 85; 85; 85; 89; 222; 115; 97; 97; 97; 97; 97; 97; 230; 99; 101; 101; 101; 101; 105;
  105; 105; 105; 100; 110; 111; 111; 111; 111; 111; 247; 111; 117; 117; 117; 117; 121; 254; 121; 65; 97; 65; 97; 65;
  97; 67; 99; 67; 99; 67; 99; 67; 99; 68; 100; 68; 100; 69; 101; 69; 101; 69; 101; 69; 101; 69; 101; 71; 103; 71;
  103; 71; 103; 71; 103; 72; 104; 72; 104; 73; 105; 73; 105; 73; 105; 73; 105; 73; 105; 306; 307; 74; 106; 75; 107;
  312; 76; 108; 76; 108; 76; 108; 76; 108; 76; 108; 78; 110; 78; 110; 78; 110; 110; 78; 110; 79; 111; 79; 111; 79;
  111; 338; 339; 82; 114; 82; 114; 82; 114; 83; 115; 83; 115; 83; 115; 83; 115; 84; 116; 84; 116; 84; 116; 85; 117;
  85; 117; 85; 117; 85; 117; 85; 117; 85; 117; 87; 119; 89; 121; 89; 90; 122; 90; 122; 90; 122; 115; 98; 66; 98; 98;
  98; 389; 79; 67; 99; 68; 68; 100; 100; 397; 69; 101; 69; 70; 102; 71; 404; 104; 73; 73; 408; 107; 108; 411; 77; 78;
  110; 79; 79; 111; 418; 419; 80; 112; 82; 83; 115; 425; 108; 116; 84; 116; 84; 85; 117; 433; 86; 89; 121; 90; 122;
  439; 440; 441; 442; 443; 444; 445; 446; 447; 448; 449; 450; 33; 452; 453; 454; 455; 456; 457; 458; 459; 460; 65;
  97; 73; 105; 79; 111; 85; 117; 85; 117; 85; 117; 85; 117; 85; 117; 101; 65; 97; 65; 97; 198; 230; 71; 103; 71; 103;
  75; 107; 79; 111; 79; 111; 494; 495; 106; 497; 498; 499; 71; 103; 502; 503; 78; 110; 65; 97; 198; 230; 79; 111; 65;
  97; 65; 97; 69; 101; 69; 101; 73; 105; 73; 105; 79; 111; 79; 111; 82; 114; 82; 114; 85; 117; 85; 117; 83; 115; 84;
  116; 540; 541; 72; 104; 78; 100; 546; 547; 90; 122; 65; 97; 69; 101; 79; 111; 79; 111; 79; 111; 79; 111; 89; 121;
  108; 110; 116; 106; 568; 569; 65; 67; 99; 76; 84; 115; 122; 577; 578; 66; 85; 86; 69; 101; 74; 106; 81; 113; 82;
  114; 89; 121; 97; 97; 97; 98; 99; 99; 100; 100; 101; 101; 101; 101; 101; 101; 101; 106; 103; 103; 71; 103; 117;
  104; 104; 104; 105; 105; 73; 108; 108; 108; 622; 109; 109; 109; 110; 110; 78; 111; 630; 631; 632; 114; 114; 114;
  114; 114; 114; 114; 82; 82; 115; 643; 644; 645; 646; 116; 116; 117; 650; 118; 118; 119; 121; 89; 122; 122; 658;
  659; 660; 661; 662; 99; 664; 66; 101; 71; 72; 106; 107; 76].
Definition LATIN_EXTENDED_ADDITIONAL : list Z := [
  65; 97; 66; 98; 66; 98; 66; 98; 67; 99; 68; 101; 68; 100; 68; 100; 68; 100; 68; 100; 69; 101; 69; 101; 69; 101; 69;
  101; 69; 101; 70; 102; 71; 103; 72; 103; 72; 103; 72; 103; 72; 103; 72; 104; 73; 105; 73; 105; 75; 107; 75; 107;
  75; 107; 76; 108; 76; 108; 76; 108; 76; 108; 77; 109; 77; 109; 77; 109; 78; 110; 78; 110; 78; 110; 78; 110; 79;
  111; 79; 111; 79; 111; 79; 111; 80; 112; 80; 112; 82; 114; 82; 114; 82; 114; 82; 114; 83; 115; 83; 115; 83; 115;
  83; 115; 83; 115; 84; 116; 84; 116; 84; 116; 84; 116; 85; 117; 85; 117; 85; 117; 85; 117; 85; 117; 86; 118; 86;
  118; 87; 119; 87; 119; 87; 119; 87; 119; 87; 106; 88; 120; 88; 120; 89; 121; 90; 122; 90; 122; 90; 122; 104; 116;
  119; 121; 97; 105; 102; 102; 7838; 7839; 65; 97; 65; 97; 65; 97; 65; 97; 65; 97; 65; 97; 65; 97; 65; 97; 65; 97;
  65; 97; 65; 97; 65; 97; 69; 101; 69; 101; 69; 101; 69; 101; 69; 101; 69; 101; 69; 101; 69; 101; 73; 105; 73; 105;
  79; 111; 79; 111; 79; 111; 79; 111; 79; 111; 79; 111; 79; 111; 79; 111; 79; 111; 79; 111; 79; 111; 79; 111; 85;
  117; 85; 117; 85; 117; 85; 117; 85; 117; 85; 117; 85; 117; 89; 121; 89; 121; 89; 121; 89; 121; 7930; 7931; 7932;
  7933; 7934; 7935].
Definition SUPERSCRIPTS_AND_SUBSCRIPTS : list Z := [
  48; 105; 8306; 8307; 52; 53; 54; 55; 56; 48; 43; 45; 61; 40; 41; 110; 48; 49; 50; 51; 52; 53; 54; 55; 56; 57; 43;
  45; 61; 40; 41; 8335; 97; 101; 111; 120; 101; 104; 107; 108; 109; 110; 112; 115; 116; 8349; 8350; 8351].

(** [normalize]; an index outside of its table would be a panic. *)
Definition at_index (t : list Z) (i : Z) : option Z := if i <? 0 then None else t !! Z.to_nat i.
Definition normalize (c : Z) : option Z :=
  if (c <? 0xa0) || (0x20a0 <=? c) then Some c
  else if c <=? 0x29f then at_index LATIN_1AB (c - 0xa0)
  else if c <? 0x1e00 then Some c
  else if c <=? 0x1eff then at_index LATIN_EXTENDED_ADDITIONAL (c - 0x1e00)
  else if c <? 0x2070 then Some c
  else at_index SUPERSCRIPTS_AND_SUBSCRIPTS (c - 0x2070).

(** On a character of a text. *)
#[export] Instance latin_table : Diacritics := λ ch, unchars (encode_char (default 65533 (normalize (decode_char (chars ch))))).

(** ** UTF-8 *)

(** The values of [char]. *)
Definition scalar (c : Z) : Prop := 0 ≤ c < 0x110000.

Ltac div_lia := Z.to_euclidean_division_equations; lia.
Ltac utf8_lia := repeat first [rewrite (proj2 (Z.ltb_lt _ _)) by div_lia | rewrite (proj2 (Z.ltb_ge _ _)) by div_lia]; try div_lia.

(** How a character is cut from the front of a text, and read. *)
Lemma encode_char_spec c :
  scalar c → ∃ b l, encode_char c = b :: l ∧ utf8_len b = S (length l) ∧ decode_char (b :: l) = c.
Proof.
  unfold scalar, encode_char, utf8_len, decode_char. intros Hc.
  destruct (Z.ltb_spec c 128); [|destruct (Z.ltb_spec c 2048); [|destruct (Z.ltb_spec c 65536)]];
    eexists _, _; (split; [done|]); cbn [fmap list_fmap length]; rewrite !code_byte by div_lia; split; utf8_lia; done.
Qed.

Lemma char_list_encoded cs n :
  Forall scalar cs → (length (concat (encode_char <$> cs)) ≤ n)%nat → char_list n (concat (encode_char <$> cs)) = encode_char <$> cs.
Proof.
  intros Hcs. revert n. induction Hcs as [|c cs Hc _ IH]; intros n Hn; [by destruct n|]. cbn [fmap list_fmap concat] in *.
  destruct (encode_char_spec c Hc) as (b & l & E & Hl & _). rewrite E in *. cbn [app length] in Hn. rewrite length_app in Hn. destruct n as [|n]; [lia|].
  cbn [app char_list]. rewrite Hl. cbn [take drop]. rewrite take_app_length, drop_app_length. f_equal. apply IH. lia.
Qed.

Lemma str_chars_text cs : Forall scalar cs → str_chars (text_of cs) = unchars ∘ encode_char <$> cs.
Proof.
  intros Hcs. unfold str_chars, text_of. rewrite chars_unchars, char_list_encoded; [by rewrite <- list_fmap_compose|done|].
  by rewrite <- length_chars, chars_unchars.
Qed.

Lemma concat_text (cs : list Z) : String.concat "" (unchars ∘ encode_char <$> cs) = text_of cs.
Proof.
  unfold text_of. apply chars_inj. rewrite chars_unchars. induction cs as [|c cs IH]; [done|]. destruct cs as [|c' cs].
  - cbn [fmap list_fmap String.concat concat compose]. by rewrite chars_unchars, app_nil_r.
  - change (String.concat "" (unchars ∘ encode_char <$> c :: c' :: cs)) with (unchars (encode_char c) ++ ("" ++ String.concat "" (unchars ∘ encode_char <$> c' :: cs)))%string.
    rewrite !chars_app, chars_unchars. change (chars "") with (@nil Ascii.ascii). cbn [app]. rewrite IH. done.
Qed.

(** ** What the table does *)

(** Every entry is its own character, or one that the table keeps. *)
Definition kept_entry (c : Z) : bool :=
  match normalize c with Some d => bool_decide (scalar d) && bool_decide (normalize d = Some d) | None => false end.

Lemma entries_ok : forallb kept_entry (seqZ 0 0x20a0) = true.
Proof. vm_compute. reflexivity. Qed.

Lemma normalize_total c : scalar c → ∃ d, normalize c = Some d ∧ scalar d ∧ normalize d = Some d.
Proof.
  intros Hc. unfold scalar in Hc. destruct (decide (c < 0x20a0)) as [Hlt|Hge].
  - assert (kept_entry c = true) as Hok.
    { pose proof entries_ok as Hall. rewrite forallb_forall in Hall. apply Hall, list_elem_of_In, elem_of_seqZ. lia. }
    unfold kept_entry in Hok. destruct (normalize c) as [d|]; [|done]. apply andb_true_iff in Hok as [H1 H2]. exists d. split; [done|]. by apply bool_decide_eq_true in H1, H2.
  - assert (normalize c = Some c) as E by (unfold normalize; by rewrite (proj2 (Z.leb_le 0x20a0 c)), orb_true_r by lia). by exists c.
Qed.

Definition normal (c : Z) : Z := default 65533 (normalize c).

Lemma normal_spec c : scalar c → normalize c = Some (normal c) ∧ scalar (normal c) ∧ normal (normal c) = normal c.
Proof. intros (d & Hd & Hs & Hi)%normalize_total. unfold normal. rewrite Hd. cbn. by rewrite Hi. Qed.

Lemma normal_ascii c : scalar c → c < 128 → normal c = c.
Proof. intros Hc Hlt. unfold normal, normalize. by rewrite (proj2 (Z.ltb_lt c 0xa0)) by lia. Qed.

Lemma normalize_char_encoded c : scalar c → normalize_char (unchars (encode_char c)) = unchars (encode_char (normal c)).
Proof.
  intros Hc. unfold normalize_char, latin_table. rewrite chars_unchars. destruct (encode_char_spec c Hc) as (b & l & -> & _ & ->). done.
Qed.

Lemma ascii_text cs : Forall scalar cs → is_ascii (text_of cs) = true → Forall (λ c, c < 128) cs.
Proof.
  unfold is_ascii, text_of. rewrite chars_unchars. induction 1 as [|c cs Hc _ IH]; [constructor|]. cbn [fmap list_fmap concat]. rewrite forallb_app, andb_true_iff. intros [H1 H2].
  constructor; [|by apply IH]. unfold scalar in Hc. revert H1. unfold encode_char. destruct (Z.ltb_spec c 128) as [|Hge]; [done|].
  destruct (Z.ltb_spec c 2048); [|destruct (Z.ltb_spec c 65536)]; cbn [forallb]; rewrite code_byte by div_lia; rewrite (proj2 (Z.ltb_ge _ 128)) by div_lia; done.
Qed.

Lemma map_normal_fixed cs : Forall scalar cs → Forall (λ c, normal c = c) cs → normalize_diacritics (text_of cs) = text_of cs.
Proof.
  intros Hs Hf. unfold normalize_diacritics. rewrite str_chars_text by done. destruct (is_ascii _ || _) eqn:E; [done|]. exfalso. apply not_true_iff_false in E. apply E.
  rewrite orb_true_iff. right. apply forallb_forall. intros x (c & -> & Hc)%list_elem_of_In%list_elem_of_fmap. apply bool_decide_eq_true. cbn [compose].
  rewrite Forall_forall in Hs, Hf. by rewrite normalize_char_encoded, Hf by auto.
Qed.

Lemma normalize_text cs : Forall scalar cs → normalize_diacritics (text_of cs) = text_of (normal <$> cs).
Proof.
  intros Hs. destruct (decide (Forall (λ c, normal c = c) cs)) as [Hf|Hn].
  - rewrite map_normal_fixed by done. f_equal. symmetry. clear Hs. induction Hf as [|c cs Hc _ IH]; [done|]. cbn. by rewrite Hc, IH.
  - unfold normalize_diacritics. rewrite str_chars_text by done. destruct (is_ascii _ || _) eqn:E.
    + exfalso. apply Hn. apply orb_true_iff in E as [E|E].
      * pose proof (ascii_text cs Hs E) as Ha. rewrite Forall_forall in *. intros c Hc. apply normal_ascii; auto.
      * rewrite Forall_forall in *. intros c Hc. rewrite forallb_forall in E. specialize (E (unchars (encode_char c))).
        rewrite bool_decide_eq_true, normalize_char_encoded in E by auto.
        assert (encode_char (normal c) = encode_char c) as Ee.
        { rewrite <- (chars_unchars (encode_char (normal c))), E, chars_unchars; [done|]. apply list_elem_of_In, list_elem_of_fmap. by exists c. }
        destruct (encode_char_spec c (Hs c Hc)) as (b & l & E1 & _ & E2), (encode_char_spec (normal c)) as (b' & l' & E1' & _ & E2'); [by apply normal_spec, Hs|]. congruence.
    + rewrite <- concat_text, <- !list_fmap_compose. f_equal. apply list_fmap_ext. intros i c Hc%list_elem_of_lookup_2. rewrite Forall_forall in Hs. cbn. by rewrite normalize_char_encoded by auto.
Qed.

(** Dropping the diacritics of a text never reads outside of the tables, replaces character by
    character so that positions are kept, and does nothing to a text that has been through it. *)
Theorem diacritics_dropped_in_place cs :
  Forall scalar cs →
  ∃ ds, mapM normalize cs = Some ds ∧ Forall scalar ds ∧ normalize_diacritics (text_of cs) = text_of ds ∧
    length (str_chars (text_of ds)) = length (str_chars (text_of cs)) ∧ normalize_diacritics (text_of ds) = text_of ds.
Proof.
  intros Hs. exists (normal <$> cs).
  assert (Forall scalar (normal <$> cs)) as Hd by (apply Forall_fmap; eapply Forall_impl; [exact Hs|]; intros c Hc; by apply normal_spec).
  split_and!; [|done|by apply normalize_text|by rewrite !str_chars_text, !length_fmap by done|].
  - apply mapM_pure. intros c Hc. rewrite Forall_forall in Hs. by apply normal_spec, Hs.
  - apply map_normal_fixed; [done|]. apply Forall_fmap. eapply Forall_impl; [exact Hs|]. intros c Hc. by apply normal_spec.
Qed.

Lemma diacritics_dropped_in_place_witness :
  Forall scalar [233; 116; 233; 0x1ef7; 960] ∧ normalize_diacritics (text_of [233; 116; 233; 0x1ef7; 960]) = text_of [101; 116; 101; 121; 960].
Proof.
  assert (Forall scalar [233; 116; 233; 0x1ef7; 960]) as Hs by (repeat constructor; lia).
  split; [done|]. destruct (diacritics_dropped_in_place _ Hs) as (ds & Hm & _ & -> & _). vm_compute in Hm. by injection Hm as <-.
Defined.

(** Two letters with a macron or an acute become letters that are not ASCII. *)
Theorem ligatures_are_normalized : normalize 0x1e2 = Some 0xc6 ∧ normalize 0x1fd = Some 0xe6 ∧ normalize 0xba = Some 48.
Proof. by vm_compute. Qed.
