(* ===== verification/SearchLoop.v ===== *)
(** * The loop of the interactive search ([search/interactive.rs] [history], [search/history_list.rs])

    What a frame keeps of what it draws, what the loop does with the outcome of each event, the new query
    after a batch of events, the entry that the inspector shows, and the text that the search returns.
    The answers of the database are arguments: the results of a query, the entry with an id and the
    statistics of an entry. [None] is a panic; [usize] is 64 bits wide and wraps. *)
From S2P Require Import Prelude Text Record Conditions Keys Keymaps Cursor History Interactive.

(** ** Data *)

(** [HistoryStats], as far as the loop reads it. *)
Record Stats : Type := mk_stats { st_previous : option string; st_next : option string }.

(** What the loop asks the history store to delete. *)
Inductive Deletion : Type := DEntry (e : Entry) | DCommand (command : string).

(** The variables of the loop, and the deletions so far. *)
Record World : Type := mk_world {
  app : State; results : list Entry; stats : option Stats; stats_for : option string;
  inspecting : option Entry; deletions : list Deletion
}.

(** The area of the list, and whether the style shows a preview of the selected command. *)
Record Frame : Type := mk_frame { list_width : Z; list_height : Z; shows_preview : bool }.

(** The answers to the queries of a round. *)
Record Answer : Type := mk_answer {
  a_results : list Entry; a_daemon_fails : bool; a_loaded : option Entry; a_stats : Stats
}.

Inductive Turn : Type := Next (w : World) | Pause (w : World) | Leave (r : InputAction) (w : World).

Definition with_app (s : State) (w : World) : World :=
  mk_world s (results w) (stats w) (stats_for w) (inspecting w) (deletions w).

Definition len_z {A} (l : list A) : Z := Z.of_nat (length l).
Definition get {A} (l : list A) (i : Z) : option A := if 0 <=? i then l !! Z.to_nat i else None.

(** ** Drawing *)

(** [HistoryList::get_items_bounds] *)
Definition get_items_bounds (len selected offset height : Z) : Z * Z :=
  let offset := Z.min offset (saturating_sub len 1) in
  let max_scroll_space := Z.min (Z.min height 10) (wrapping_sub len selected) in
  if wrapping_add offset height <? wrapping_add selected max_scroll_space then
    let end_ := wrapping_add selected max_scroll_space in (wrapping_sub end_ height, end_)
  else if selected <? offset then (selected, wrapping_add selected height)
  else (offset, wrapping_add offset height).

(** [HistoryList::render], the state it leaves. *)
Definition render (f : Frame) (len : Z) (l : ListState) : ListState :=
  if (list_width f <? 1) || (list_height f <? 1) || (len =? 0) then l
  else let '(start, end_) := get_items_bounds len (selected l) (offset l) (list_height f) in
       mk_list start (selected l) (wrapping_sub end_ start).

(** [State::draw]: the list with a preview of the selected command, or the inspector. *)
Definition draw (f : Frame) (w : World) : option World :=
  let s := app w in
  if tab_index s =? 0 then
    let w' := with_app (with_list (render f (len_z (results w)) (results_state s)) s) w in
    if bool_decide (results w = []) || negb (shows_preview f) then Some w'
    else _ ← get (results w) (sel s); Some w'
  else if tab_index s =? 1 then
    if bool_decide (results w = []) then Some w
    else
      _ ← match inspecting w with Some e => Some e | None => get (results w) (sel s) end;
      _ ← stats w; Some w
  else None.

(** ** One event *)

Section loop.
Context (width : list char → Z) (in_git_repo : string → bool) (st : UiSettings) (initial_root : bool)
        (default_filter_mode : FilterMode).

Definition default_list : ListState := mk_list 0 0 0.

(** The arm of [InputAction::Delete]. *)
Definition delete_one (i : Z) (w : World) : option World :=
  let s := app w in
  let n := wrapping_sub (ui_results_len s) 1 in
  let s := with_results_len n s in
  let s := if sel s =? n then select (wrapping_sub (sel s) 1) (with_inspecting reset s) else s in
  entry ← get (results w) i;
  Some (mk_world (with_tab 0 s) (delete (Z.to_nat i) (results w)) (stats w) (stats_for w) (inspecting w)
          (deletions w ++ [DEntry entry])).

(** The arm of [InputAction::DeleteAllMatching]. *)
Definition delete_all (i : Z) (w : World) : option World :=
  entry ← get (results w) i;
  let rest := filter (λ e, h_command e ≠ h_command entry) (results w) in
  let s := with_tab 0 (with_inspecting reset (with_list default_list (with_results_len (len_z rest) (app w)))) in
  Some (mk_world s rest (stats w) (stats_for w) (inspecting w) (deletions w ++ [DCommand (h_command entry)])).

(** The arm of [InputAction::SwitchContext]. *)
Definition switch_context (i : option Z) (w : World) : World :=
  let s := app w in
  match (i ← i; get (results w) i) with
  | Some entry =>
      with_app (with_list default_list
        (with_search (mk_search (cursor_from []) FSession (in_git_repo (h_cwd entry)) (Some (h_id entry))) s)) w
  | None => with_app (with_search (mk_search (input (search s)) default_filter_mode initial_root None) s) w
  end.

(** The [match] on the outcome of an event. *)
Definition act (f : Frame) (r : InputAction) (w : World) : option Turn :=
  match r with
  | IContinue => Some (Next w)
  | IDelete i => if bool_decide (results w = []) then Some (Pause w) else Next <$> delete_one i w
  | IDeleteAllMatching i => if bool_decide (results w = []) then Some (Pause w) else Next <$> delete_all i w
  | ISwitchContext i => Some (Next (switch_context i w))
  | IRedraw => Next <$> draw f w
  | r => Some (Leave r w)
  end.

Definition turn (f : Frame) (e : Event) (w : World) : option Turn :=
  '(s, r) ← handle_input width st e (app w); act f r (with_app s w).

(** The inner [loop]: the events that wait. *)
Fixpoint batch (f : Frame) (es : list Event) (w : World) : option Turn :=
  match es with
  | [] => Some (Next w)
  | e :: es' => t ← turn f e w; match t with Next w' => batch f es' w' | _ => Some t end
  end.

(** ** After a batch *)

(** The search engine's error sets [daemon_failed]. *)
Definition with_daemon_failed (s : State) : State :=
  let s' := mk_state (results_state s) (switched_search_mode s) (search_mode_raw s) true (ui_results_len s) (accept s)
    (ui_keymap_mode s) (prefix_active s) (current_cursor s) (tab_index s) (pending_vim_key s) (ui_original_input_empty s)
    (inspecting_state s) (keymaps s) (search s) (engine s) in
  with_mode_search (switched_search_mode s') (search_mode_raw s') (search_mode s') s'.

(** [State::query_results] *)
Definition query_results (a : Answer) (w : World) : World :=
  let s := app w in
  let s := if bool_decide (search_mode s = SDaemonFuzzy) && a_daemon_fails a then with_daemon_failed s else s in
  let s := with_results_len (len_z (a_results a)) (select 0 (with_inspecting reset s)) in
  mk_world s (a_results a) (stats w) (stats_for w) (inspecting w) (deletions w).

(** What the new query depends on. *)
Definition queried (s : State) : list char * FilterMode * SearchMode * option string :=
  (source (input (search s)), filter_mode (search s), search_mode s, custom_context (search s)).

Definition requery (a : Answer) (before : State) (w : World) : World :=
  if decide (queried before = queried (app w)) then w else query_results a w.

(** The entry that was used to enter a context is selected. *)
Definition highlight (before : State) (w : World) : World :=
  let s := app w in
  match custom_context (search s) with
  | Some id =>
      if bool_decide (source (input (search s)) = [])
         && (bool_decide (custom_context (search before) ≠ custom_context (search s))
             || bool_decide (filter_mode (search before) ≠ filter_mode (search s)))
      then match list_find (λ e, h_id e = id) (results w) with
           | Some (pos, _) => with_app (select (Z.of_nat pos) s) w
           | None => w
           end
      else w
  | None => w
  end.

(** The entry that the inspector shows is loaded when it has changed. *)
Definition load_inspecting (a : Answer) (w : World) : World :=
  let entry := match is_current (inspecting_state (app w)) with
               | None => None
               | Some id => match inspecting w with
                            | Some e => if decide (id = h_id e) then Some e else a_loaded a
                            | None => a_loaded a
                            end
               end in
  mk_world (app w) (results w) (stats w) (stats_for w) entry (deletions w).

Definition refresh_stats (a : Answer) (w : World) : option World :=
  let s := app w in
  let put x id s := mk_world s (results w) x id (inspecting w) (deletions w) in
  if (tab_index s =? 0) || bool_decide (results w = []) then Some (put None None s)
  else
    selected ← match inspecting w with Some e => Some e | None => get (results w) (sel s) end;
    if decide (stats_for w = Some (h_id selected)) then Some w
    else Some (put (Some (a_stats a)) (Some (h_id selected))
                 (with_inspecting (mk_inspecting (Some (h_id selected)) (st_next (a_stats a)) (st_previous (a_stats a))) s)).

Definition settle (a : Answer) (before : State) (w : World) : option World :=
  refresh_stats a (load_inspecting a (highlight before (requery a before w))).

(** One round of the loop labelled ['render]: it goes on, or leaves with an action. *)
Definition round (f : Frame) (a : Answer) (es : list Event) (w : World) : option Turn :=
  w ← draw f w;
  t ← batch f es w;
  match t with
  | Next w' | Pause w' => Next <$> settle a (app w) w'
  | Leave r w' => Some (Leave r w')
  end.

(** ** Before and after the loop *)

Definition ui_mode (m : KeymapMode) : KeymapMode := match m with MAuto => MEmacs | m => m end.

(** [initialize_keymap_cursor] *)
Definition initialize_keymap_cursor (s : State) : State :=
  match ui_keymap_mode s with
  | MEmacs => with_keymap MEmacs (keymap_style st s "emacs") s
  | MVimNormal => with_keymap MVimNormal (keymap_style st s "vim_normal") s
  | MVimInsert => with_keymap MVimInsert (keymap_style st s "vim_insert") s
  | MAuto => s
  end.

Definition is_command_chaining (command_chaining : bool) (q : string) : bool :=
  command_chaining && (ends_with "&&" (trim_end q) || ends_with "|" (trim_end q)).

Definition text_chars (s : string) : list char := char_of <$> str_chars s.
Definition chars_text (l : list char) : string := unchars (l ≫= bytes).

(** The state before the first query. *)
Definition initial (km : KeymapSet) (daemon : bool) (chaining : bool) (original_query : string) : State :=
  let m := active_search_mode st in
  let s := mk_state default_list false m (negb daemon) 0 false (ui_mode (keymap_mode (ui_keys st))) false None 0 None
    (bool_decide (original_query = "")) reset km
    (mk_search (cursor_end (cursor_from (if chaining then [] else text_chars original_query))) default_filter_mode
       initial_root None) m in
  initialize_keymap_cursor (with_mode_search false m (search_mode s) s).

Definition start (km : KeymapSet) (daemon chaining : bool) (original_query : string) (a : Answer) : World :=
  query_results a (mk_world (initial km daemon chaining original_query) [] None None None []).

Definition accept_prefix : string := "__atuin_accept__:".

(** The text that the search returns; [shell_accepts] is whether the shell runs a marked command. *)
Definition returned (shell_accepts chaining : bool) (original_query : string) (r : InputAction) (w : World) : option string :=
  let accept := accept (app w) && shell_accepts in
  let marked c := if accept then accept_prefix +:+ c else c in
  let query := chars_text (source (input (search (app w)))) in
  match r with
  | IAcceptInspecting => Some (match inspecting w with Some e => marked (h_command e) | None => "" end)
  | IAccept i =>
      match get (results w) i with
      | Some e => Some (if chaining then trim_end original_query +:+ " " +:+ h_command e else marked (h_command e))
      | None => Some query
      end
  | IReturnOriginal => Some ""
  | ICopy i => (λ _, ""%string) <$> get (results w) i
  | IReturnQuery => Some query
  | _ => None
  end.
End loop.

(** ** Sequences of rounds *)

Section reach.
Context (width : list char → Z) (in_git_repo : string → bool) (st : UiSettings) (initial_root : bool)
        (default_filter_mode : FilterMode).

Notation turn := (turn width in_git_repo st initial_root default_filter_mode).
Notation batch := (batch width in_git_repo st initial_root default_filter_mode).
Notation round := (round width in_git_repo st initial_root default_filter_mode).
Notation act := (act in_git_repo initial_root default_filter_mode).

(** The worlds that rounds lead to, from the first on. *)
Inductive reaches (km : KeymapSet) : World → Prop :=
| reaches_start daemon chaining q a : reaches km (start st initial_root default_filter_mode km daemon chaining q a)
| reaches_round f a es w w' : reaches km w → round f a es w = Some (Next w') → reaches km w'.

(** The state after a round of which only [P] is known: [P] does not depend on what the loop itself changes. *)
Definition loop_stable (P : State → Prop) : Prop :=
  (∀ l s, P s → P (with_list l s)) ∧ (∀ n s, P s → P (with_results_len n s)) ∧ (∀ i s, P s → P (with_inspecting i s)) ∧
  (∀ s, P s → P (with_tab 0 s)) ∧ (∀ v s, P s → P (with_search v s)) ∧ (∀ s, P s → P (with_daemon_failed s)).

Lemma draw_stable P f w w' : loop_stable P → draw f w = Some w' → P (app w) → P (app w').
Proof.
  intros (Hl & _). unfold draw. intros E Hp.
  destruct (tab_index (app w) =? 0).
  - destruct (_ || _); [injection E as <-; by apply Hl|]. destruct (get _ _); [|done]. injection E as <-. by apply Hl.
  - destruct (tab_index (app w) =? 1); [|done]. destruct (bool_decide _); [by injection E as <-|].
    destruct (match inspecting w with Some e => Some e | None => _ end); [|done]. destruct (stats w); [|done]. by injection E as <-.
Qed.

Definition turn_world (t : Turn) : World := match t with Next w | Pause w | Leave _ w => w end.

Lemma act_stable P f r w t : loop_stable P → act f r w = Some t → P (app w) → P (app (turn_world t)).
Proof.
  intros HP. destruct HP as (Hl & Hn & Hi & Ht & Hs & Hd) eqn:EP. intros E Hp. destruct r; cbn in E;
    try (injection E as <-; exact Hp).
  - case_bool_decide; [by injection E as <-|]. unfold delete_one in E. destruct (get (results w) i); [|done]. cbn in E.
    injection E as <-. cbn. apply Ht. destruct (_ =? _); [apply Hl, Hi, Hn, Hp|apply Hn, Hp].
  - case_bool_decide; [by injection E as <-|]. unfold delete_all in E. destruct (get (results w) i); [|done]. cbn in E.
    injection E as <-. cbn. apply Ht, Hi, Hl, Hn, Hp.
  - destruct (draw f w) as [w'|] eqn:Ed; [|done]. injection E as <-. by apply (draw_stable P f w).
  - injection E as <-. unfold switch_context. destruct (i ≫= _); cbn; [apply Hl, Hs, Hp|apply Hs, Hp].
Qed.

Lemma settle_stable P a before w w' : loop_stable P → settle a before w = Some w' → P (app w) → P (app w').
Proof.
  intros (Hl & Hn & Hi & Ht & Hs & Hd) E Hp. unfold settle in E.
  assert (P (app (requery a before w))) as H1.
  { unfold requery. destruct (decide _); [done|]. cbn. apply Hn, Hl, Hi. destruct (_ && _); [by apply Hd|done]. }
  assert (P (app (highlight before (requery a before w)))) as H2.
  { unfold highlight. destruct (custom_context _); [|done]. destruct (_ && _); [|done].
    destruct (list_find _ _) as [[pos e]|]; [apply Hl|]; done. }
  revert E H2. generalize (highlight before (requery a before w)). clear -Hi. intros w1 E H2.
  unfold refresh_stats in E. destruct (_ || _); [by injection E as <-|].
  destruct (match inspecting (load_inspecting a w1) with Some e => Some e | None => _ end) as [e|]; [|done]. cbn in E.
  destruct (decide _); injection E as <-; [done|]. by apply Hi.
Qed.

(** A property of the state that every event keeps, on which the loop itself does not depend. *)
Lemma batch_keeps P f es w t :
  loop_stable P → (∀ e s s' r, P s → handle_input width st e s = Some (s', r) → P s') →
  batch f es w = Some t → P (app w) → P (app (turn_world t)).
Proof.
  intros HP He. revert w. induction es as [|e es IH]; intros w E Hp; cbn in E; [by injection E as <-|].
  unfold SearchLoop.turn in E. destruct (handle_input width st e (app w)) as [[s r]|] eqn:Eh; cbn in E; [|done].
  destruct (act f r (with_app s w)) as [t'|] eqn:Ea; cbn in E; [|done].
  pose proof (act_stable P f r _ t' HP Ea (He _ _ _ _ Hp Eh)) as Ht.
  destruct t'; cbn in E; [by apply (IH w0)|by injection E as <-..].
Qed.

Lemma round_keeps P f a es w t :
  loop_stable P → (∀ e s s' r, P s → handle_input width st e s = Some (s', r) → P s') →
  round f a es w = Some t → P (app w) → P (app (turn_world t)).
Proof.
  intros HP He E Hp. unfold SearchLoop.round in E. destruct (draw f w) as [w1|] eqn:Ed; cbn in E; [|done].
  apply (draw_stable P) in Ed; [|done..]. destruct (batch f es w1) as [t1|] eqn:Eb; cbn in E; [|done].
  apply (batch_keeps P) in Eb; [|done..]. destruct t1 as [w2|w2|r w2]; cbn in Eb; [..|by injection E as <-].
  all: destruct (settle a (app w1) w2) as [w3|] eqn:Es; cbn in E; [|done]; injection E as <-; by apply (settle_stable P) in Es.
Qed.

Lemma reaches_keeps P km w :
  loop_stable P → (∀ e s s' r, P s → handle_input width st e s = Some (s', r) → P s') →
  (∀ daemon chaining q, P (initial st initial_root default_filter_mode km daemon chaining q)) →
  reaches km w → P (app w).
Proof.
  intros HP He H0. induction 1 as [daemon chaining q a|f a es w w' _ IH E]; [|by apply (round_keeps P) in E].
  destruct HP as (Hl & Hn & Hi & _ & _ & Hd). cbn. apply Hn, Hl, Hi. destruct (_ && _); [apply Hd|]; apply H0.
Qed.
End reach.

(** ** Running a command is asked for *)

(** The actions that mark the command to be run. *)
Definition marks (a : Action) : bool := match a with Accept | AcceptNth _ => true | _ => false end.

(** A keymap set whose keymaps offer only such actions. *)
Definition set_offers (P : Action → Prop) (km : KeymapSet) : Prop :=
  Forall (offers P) [emacs km; vim_normal km; vim_insert km; inspector km; prefix_map km].

Ltac each_bind :=
  static_keys; unfold bind_scroll_key;
  repeat match goal with |- context [if ?b then _ else _] => destruct b end;
  repeat constructor; cbn; done.

Lemma defaults_unmarked `{UnicodeLib} ks km :
  enter_accept ks = false → defaults ks = Some km → set_offers (λ a, marks a = false) km.
Proof.
  intros Ha Hd. unfold defaults, default_emacs_keymap, default_vim_normal_keymap, default_vim_insert_keymap,
    default_inspector_keymap, default_prefix_keymap in Hd.
  destruct (run_binds ∅ (emacs_binds ks)) as [e|] eqn:He; [|discriminate Hd].
  destruct (run_binds ∅ (vim_normal_binds ks)) as [n|] eqn:Hv; [|discriminate Hd].
  destruct (run_binds ∅ (vim_insert_binds ks)) as [i|] eqn:Hi; [|discriminate Hd].
  destruct (run_binds ∅ (inspector_binds ks)) as [s|] eqn:Hs; [|discriminate Hd].
  destruct (run_binds ∅ prefix_binds) as [p|] eqn:Hp; [|discriminate Hd]. injection Hd as <-.
  assert (Forall (λ b, binding_offers (λ a, marks a = false) b.2) (emacs_binds ks)) as Hemacs.
  { unfold emacs_binds, add_common_bindings, accept_action. rewrite Ha. cbv zeta. each_bind. }
  repeat constructor; cbn [emacs vim_normal vim_insert inspector prefix_map].
  - by apply (offers_binds _ _ _ He).
  - apply (offers_binds _ _ _ Hv). unfold vim_normal_binds, add_common_bindings, accept_action. rewrite Ha. cbv zeta. each_bind.
  - apply (offers_binds _ _ _ Hi). unfold vim_insert_binds. apply Forall_app. split; [done|]. each_bind.
  - apply (offers_binds _ _ _ Hs). unfold inspector_binds, accept_action. rewrite Ha. each_bind.
  - apply (offers_binds _ _ _ Hp). unfold prefix_binds. each_bind.
Qed.

Lemma resolve_key_offers P width s single :
  P Noop → set_offers P (keymaps s) → match (resolve_key width s single).1 with Some a => P a | None => True end.
Proof.
  intros Hnoop Hp. assert (offers P (prefix_map (keymaps s)) ∧ offers P (mode_keymap s)) as [H1 H2].
  { unfold set_offers in Hp. rewrite !Forall_cons in Hp. destruct Hp as (? & ? & ? & ? & ? & _). split; [done|].
    unfold mode_keymap. destruct (_ =? _); [done|]. by destruct (ui_keymap_mode s). }
  assert (∀ k ctx, match resolve (mode_keymap s) k ctx with Some a => P a | None => True end) as H3.
  { intros k ctx. destruct (resolve _ k ctx) eqn:E; [|done]. by apply (resolve_offers P) in E. }
  unfold resolve_key. destruct (if prefix_active s then _ else None) eqn:E.
  { destruct (prefix_active s); [|done]. by apply (resolve_offers P) in E. }
  destruct (pending_vim_key s) as [c|].
  - pose proof (H3 (Sequence [mk_key (KChar c) false false false false; single]) (eval_context width s)) as H4.
    destruct (resolve _ (Sequence _) _); cbn; [done|]. apply H3.
  - destruct (k_code single); try apply H3. destruct (_ && _); cbn; [done|apply H3].
Qed.

Lemma edit_inv f s s' r : edit f s = Some (s', r) → ∃ c, f (input (search s)) = Some c ∧ s' = with_input c s ∧ r = IContinue.
Proof. unfold edit. destruct (f _) as [c|] eqn:E; cbn; [|done]. intros [= <- <-]. by exists c. Qed.

(** The cases of an action that has gone well. *)
Ltac action_cases E :=
  unfold execute_action in E; cbv zeta in E;
  match type of E with
  | edit _ _ = Some _ => apply edit_inv in E as (? & ? & -> & ->)
  | (edit ?f ?s ≫= _) = Some _ =>
      let E' := fresh "E" in
      destruct (edit f s) as [[? ?]|] eqn:E'; cbn in E; [|discriminate E]; injection E as <- <-;
      apply edit_inv in E' as (? & ? & -> & ->)
  | _ => repeat match type of E with context [if ?b then _ else _] => destruct b eqn:? end; injection E as <- <-
  end.

Lemma execute_action_frame st a s s' r :
  execute_action st a s = Some (s', r) →
  keymaps s' = keymaps s ∧ (marks a = false → accept s' = accept s) ∧ ui_results_len s' = ui_results_len s ∧
  offset (results_state s') = offset (results_state s).
Proof.
  intros E. destruct a; action_cases E; try done; unfold scroll; by repeat match goal with |- context [if ?b then _ else _] => destruct b end.
Qed.

Definition unmarked (km : KeymapSet) (s : State) : Prop := keymaps s = km ∧ accept s = false.

Lemma handle_input_unmarked width st km e s s' r :
  set_offers (λ a, marks a = false) km → unmarked km s → handle_input width st e s = Some (s', r) → unmarked km s'.
Proof.
  intros Hp [Hk Ha] E. destruct e as [rel k|m|text|]; cbn [handle_input] in E.
  - unfold handle_key_input in E. destruct rel; [by injection E as <- <-|]. destruct (from_event k) as [single|]; [|by injection E as <- <-].
    set (s1 := with_mode_search _ _ _ s) in E. pose proof (resolve_key_offers (λ a, marks a = false) width s1 single) as Hr.
    destruct (resolve_key width s1 single) as [[a|] p].
    + apply execute_action_frame in E as (Hk' & Ha' & _). cbn in Hk', Ha', Hr. split; [by rewrite Hk'|].
      rewrite Ha'; [done|]. apply Hr; [done|]. by rewrite Hk.
    + destruct (if is_insert_mode _ then _ else None) as [ch|]; [|by injection E as <- <-].
      apply edit_inv in E as (c & _ & -> & _). by split.
  - injection E as <- <-. split; [rewrite <- Hk|rewrite <- Ha]; by destruct m, (invert (ui_keys st)).
  - apply edit_inv in E as (c & _ & -> & _). by split.
  - by injection E as <- <-.
Qed.

Lemma unmarked_stable km : loop_stable (unmarked km).
Proof. by repeat split; match goal with H : unmarked _ _ |- _ => destruct H end. Qed.

Lemma initialize_unmarked st km s : unmarked km s → unmarked km (initialize_keymap_cursor st s).
Proof. intros [Hk Ha]. unfold initialize_keymap_cursor. by destruct (ui_keymap_mode s). Qed.

(** C18: with the default keymaps and [enter_accept] off, whatever the events, in however many rounds and
    batches, and whatever the database answers, the search never returns a command marked to be run: the
    text is the one that a shell without support for the mark gets. *)
Theorem nothing_runs_unless_asked `{UnicodeLib} width in_git_repo st root fm km w f a es r w' chaining q :
  enter_accept (ui_keys st) = false → config_is_empty (keymap (ui_keys st)) = true → from_settings (ui_keys st) = Some km →
  reaches width in_git_repo st root fm km w → round width in_git_repo st root fm f a es w = Some (Leave r w') →
  accept (app w') = false ∧ returned true chaining q r w' = returned false chaining q r w'.
Proof.
  intros He Hc Hf Hw E. unfold from_settings in Hf. rewrite Hc in Hf. pose proof (defaults_unmarked _ _ He Hf) as Hp.
  assert (∀ e s s' r, unmarked km s → handle_input width st e s = Some (s', r) → unmarked km s') as Hs.
  { intros ???? Hu Eh. by apply (handle_input_unmarked _ _ km) in Eh. }
  assert (unmarked km (app w)) as Hu.
  { apply (reaches_keeps width in_git_repo st root fm _ km); [apply unmarked_stable|exact Hs| |done]. intros daemon ch q'.
    unfold initial. apply initialize_unmarked. split; reflexivity. }
  apply (round_keeps width in_git_repo st root fm (unmarked km)) in E as [_ Ha]; [|apply unmarked_stable|exact Hs|done].
  cbn in Ha. split; [done|]. unfold returned. by rewrite Ha.
Qed.

(** ** The selection *)

(** The selected index is that of a result, when there are results. *)
Definition in_range (s : State) : Prop := 0 ≤ sel s ∧ (0 < ui_results_len s → sel s < ui_results_len s).
Definition good_tab (s : State) : Prop := tab_index s = 0 ∨ tab_index s = 1.

Definition is_delete_or_copy (r : InputAction) (i : Z) : Prop := r = IDelete i ∨ r = IDeleteAllMatching i ∨ r = ICopy i.

Lemma wrapping_add_nonneg a b : 0 ≤ wrapping_add a b.
Proof. apply Z.mod_pos_bound. reflexivity. Qed.

Lemma scroll_in_range up n s : 0 ≤ n → 0 ≤ ui_results_len s → in_range s → in_range (scroll up n s).
Proof.
  intros Hn Hl [H1 H2]. pose proof (wrapping_add_nonneg (sel s) n). unfold scroll, scroll_up, scroll_down, in_range.
  destruct up; unfold sel in *; cbn in *; unfold saturating_sub; lia.
Qed.

Lemma saturating_sub_nonneg a b : 0 ≤ saturating_sub a b.
Proof. unfold saturating_sub. lia. Qed.

Lemma scroll_tab up n s : tab_index (scroll up n s) = tab_index s.
Proof. by destruct up. Qed.

Lemma execute_action_range st a s s' r :
  execute_action st a s = Some (s', r) → 0 ≤ ui_results_len s → 0 ≤ offset (results_state s) → in_range s → good_tab s →
  (a = ScrollToScreenBottom → 0 < ui_results_len s → offset (results_state s) < ui_results_len s) →
  in_range s' ∧ good_tab s' ∧ (∀ i, is_delete_or_copy r i → i = sel s') ∧ (r = IRedraw → tab_index s' = tab_index s).
Proof.
  intros E Hl Ho Hr Ht Hb.
  assert (∀ s' r, in_range s' → tab_index s' = tab_index s → (∀ i, is_delete_or_copy r i → i = sel s') →
    in_range s' ∧ good_tab s' ∧ (∀ i, is_delete_or_copy r i → i = sel s') ∧ (r = IRedraw → tab_index s' = tab_index s)) as Hk.
  { intros s1 r1 H1 H2 H3. split_and!; try done. unfold good_tab. by rewrite H2. }
  assert (∀ i, 0 ≤ i → (0 < ui_results_len s → i < ui_results_len s) → in_range (jump i s)) as Hj by done.
  destruct a; action_cases E;
    try (apply Hk; [solve [exact Hr|apply scroll_in_range; [first [lia|apply saturating_sub_nonneg|apply Z.div_pos; [apply saturating_sub_nonneg|lia]]|done|done]]|by rewrite ?scroll_tab|
         intros ? [?|[?|?]]; try discriminate; simplify_eq; reflexivity]);
    try (apply Hk; [apply Hj; unfold saturating_sub|reflexivity|by intros ? [?|[?|?]]];
         try match goal with |- context [wrapping_add ?x ?y] => pose proof (wrapping_add_nonneg x y) end; lia);
    try (split_and!; [done|done|intros ? [?|[?|?]]; try discriminate; simplify_eq; reflexivity|done]).
  - apply Hk; [apply Hj; [done|by apply Hb]|reflexivity|by intros ? [?|[?|?]]].
  - unfold handle_key_exit. apply Hk; [done|done|]. destruct (exit_mode st); by intros ? [?|[?|?]].
  - split_and!; [done| |by intros ? [?|[?|?]]|done]. destruct Ht as [Ht|Ht]; [right|left]; cbn; by rewrite Ht.
Qed.

(** The keymaps of the inspector do not jump to the bottom of the screen, which is not drawn there. *)
Definition stays (a : Action) : Prop := a ≠ ScrollToScreenBottom.
Definition inspector_stays (km : KeymapSet) : Prop := offers stays (inspector km) ∧ offers stays (prefix_map km).

Lemma defaults_inspector_stays `{UnicodeLib} ks km : defaults ks = Some km → inspector_stays km.
Proof.
  intros Hd. unfold defaults, default_inspector_keymap, default_prefix_keymap in Hd.
  destruct (default_emacs_keymap ks); [|discriminate Hd]. destruct (default_vim_normal_keymap ks); [|discriminate Hd].
  destruct (default_vim_insert_keymap ks); [|discriminate Hd].
  destruct (run_binds ∅ (inspector_binds ks)) as [s|] eqn:Hs; [|discriminate Hd].
  destruct (run_binds ∅ prefix_binds) as [p|] eqn:Hp; [|discriminate Hd]. injection Hd as <-. split; cbn [inspector prefix_map].
  - apply (offers_binds _ _ _ Hs). unfold inspector_binds, accept_action. destruct (enter_accept ks); each_bind.
  - apply (offers_binds _ _ _ Hp). unfold prefix_binds. each_bind.
Qed.

Lemma resolve_key_inspector width s single :
  inspector_stays (keymaps s) → tab_index s = 1 → (resolve_key width s single).1 ≠ Some ScrollToScreenBottom.
Proof.
  intros [Hi Hp] Ht. set (km := mk_set (inspector (keymaps s)) (inspector (keymaps s)) (inspector (keymaps s))
    (inspector (keymaps s)) (prefix_map (keymaps s))).
  set (s' := mk_state (results_state s) (switched_search_mode s) (search_mode_raw s) (daemon_failed s) (ui_results_len s)
    (accept s) (ui_keymap_mode s) (prefix_active s) (current_cursor s) (tab_index s) (pending_vim_key s)
    (ui_original_input_empty s) (inspecting_state s) km (search s) (engine s)).
  assert (resolve_key width s' single = resolve_key width s single) as <-.
  { unfold resolve_key, eval_context, mode_keymap, sel. cbn. by rewrite Ht. }
  pose proof (resolve_key_offers stays width s' single ltac:(done)) as Hr.
  destruct (resolve_key width s' single).1 as [a|]; [|done]. intros [= ->]. apply Hr; [|done]. by repeat constructor.
Qed.

(** What an event keeps, whatever the loop then does. *)
Definition ready (km : KeymapSet) (s : State) : Prop :=
  line_ok s ∧ keymaps s = km ∧ 0 ≤ ui_results_len s ∧ 0 ≤ offset (results_state s) ∧ in_range s ∧ good_tab s.

Definition visible (s : State) : Prop :=
  tab_index s = 0 → 0 < ui_results_len s → offset (results_state s) ≤ sel s.

Lemma handle_input_ready width st km e s :
  inspector_stays km → ready km s → visible s →
  ∃ s' r, handle_input width st e s = Some (s', r) ∧ ready km s' ∧ ui_results_len s' = ui_results_len s ∧
    (∀ i, is_delete_or_copy r i → i = sel s') ∧ (r = IRedraw → tab_index s' = tab_index s).
Proof.
  intros Hkm (Hline & Hk & Hl & Ho & Hr & Ht) Hv.
  destruct (handle_input_ok width st e s Hline) as (s' & r & E & Hline'). exists s', r. split; [done|].
  assert (∀ s1, s' = s1 → r = IContinue → keymaps s1 = km → ui_results_len s1 = ui_results_len s → in_range s1 →
    offset (results_state s1) = offset (results_state s) → tab_index s1 = tab_index s →
    ready km s' ∧ ui_results_len s' = ui_results_len s ∧ (∀ i, is_delete_or_copy r i → i = sel s') ∧
    (r = IRedraw → tab_index s' = tab_index s)) as Hdone.
  { intros s1 -> -> H1 H2 H3 H4 H5. unfold ready, good_tab. rewrite H2, H4, H5. split_and!; try done. by intros ? [?|[?|?]]. }
  destruct e as [rel k|m|text|]; cbn [handle_input] in E.
  - unfold handle_key_input in E. destruct rel; [injection E as <- <-; by apply (Hdone s)|].
    destruct (from_event k) as [single|]; [|injection E as <- <-; by eapply Hdone].
    set (s1 := with_mode_search _ _ _ s) in E. pose proof (resolve_key_inspector width s1 single) as Hi.
    destruct (resolve_key width s1 single) as [[a|] p].
    + pose proof (execute_action_frame _ _ _ _ _ E) as (H1 & _ & H2 & H3). cbn in H1, H2, H3.
      destruct (execute_action_range _ _ _ _ _ E) as (H4 & H5 & H6 & H7); try done.
      { intros -> Hpos. cbn in Hpos |- *. destruct Ht as [Ht|Ht].
        - pose proof (Hv Ht Hpos). pose proof (proj2 Hr Hpos). lia.
        - destruct Hi; [by subst km|done..]. }
      split_and!; try done. unfold ready. rewrite H1, H2, H3. by split_and!.
    + destruct (if is_insert_mode _ then _ else None) as [ch|]; [|injection E as <- <-; by eapply Hdone].
      apply edit_inv in E as (c & _ & -> & ->). by eapply Hdone.
  - injection E as <- <-. apply (Hdone _ eq_refl eq_refl); try (by destruct m, (invert (ui_keys st))).
    destruct m; [by apply scroll_in_range..|done].
  - apply edit_inv in E as (c & _ & -> & ->). by eapply Hdone.
  - injection E as <- <-. by eapply Hdone.
Qed.

(** ** The part of the list in view *)

Definition vec_limit : Z := 2 ^ 63.

Lemma wrapping_add_small a b : 0 ≤ a + b < u64_limit → wrapping_add a b = a + b.
Proof. apply Z.mod_small. Qed.

Lemma wrapping_sub_small a b : 0 ≤ a - b < u64_limit → wrapping_sub a b = a - b.
Proof. apply Z.mod_small. Qed.

Lemma items_bounds len s o h start end_ :
  0 ≤ s < len → len < vec_limit → 0 ≤ o → 1 ≤ h < 2 ^ 16 → get_items_bounds len s o h = (start, end_) →
  0 ≤ start ≤ s ∧ s < end_ ∧ end_ = start + h.
Proof.
  intros Hs Hl Ho Hh. unfold vec_limit in Hl.
  unfold get_items_bounds, saturating_sub. cbv zeta. rewrite (wrapping_sub_small len s) by wrap_lia.
  rewrite !(wrapping_add_small _ h) by wrap_lia. rewrite !(wrapping_add_small s) by wrap_lia.
  case_match eqn:E; [|case_match eqn:E2]; intros [= <- <-]; rewrite ?Z.ltb_lt, ?Z.ltb_ge in *; [rewrite wrapping_sub_small by wrap_lia|..]; lia.
Qed.

(** The list is drawn around the selection: with a list area of at least one line, whatever the window
    was and however far the selection moved, the rows drawn are as many as the area is high, begin inside
    the list and contain the selected entry. *)
Theorem selection_in_view f len l :
  0 ≤ selected l < len → len < vec_limit → 0 ≤ offset l → 1 ≤ list_width f → 1 ≤ list_height f < 2 ^ 16 →
  let l' := render f len l in
  selected l' = selected l ∧ max_entries l' = list_height f ∧
  0 ≤ offset l' ≤ selected l' ∧ selected l' < offset l' + max_entries l'.
Proof.
  intros Hs Hl Ho Hw Hh. cbv zeta. unfold render.
  destruct (list_width f <? 1) eqn:E1; [lia|]. destruct (list_height f <? 1) eqn:E2; [lia|]. destruct (len =? 0) eqn:E3; [lia|]. cbn.
  destruct (get_items_bounds len (selected l) (offset l) (list_height f)) as [start end_] eqn:E.
  apply items_bounds in E as (H1 & H2 & ->); [|done..]. cbn. unfold vec_limit in *. rewrite wrapping_sub_small by wrap_lia. lia.
Qed.

Lemma selection_in_view_witness :
  let l' := render (mk_frame 80 5 true) 100 (mk_list 0 42 5) in
  selected l' = 42 ∧ max_entries l' = 5 ∧ 0 ≤ offset l' ≤ 42 ∧ 42 < offset l' + 5.
Proof.
  destruct (selection_in_view (mk_frame 80 5 true) 100 (mk_list 0 42 5)) as (H1 & H2 & H3 & H4); cbn; [lia|done|lia..|].
  cbn in *. by repeat split.
Defined.

(** ** No round panics *)

Definition seen (f : Frame) : Prop := 1 ≤ list_width f ∧ 1 ≤ list_height f < 2 ^ 16.

(** The world between two rounds. *)
Record steady (km : KeymapSet) (w : World) : Prop := {
  sd_ready : ready km (app w);
  sd_len : ui_results_len (app w) = len_z (results w) ∧ len_z (results w) < vec_limit;
  sd_stats : is_Some (stats_for w) → is_Some (stats w);
  sd_inspector : tab_index (app w) = 1 → results w ≠ [] → is_Some (stats w)
}.

Lemma len_z_pos {A} (l : list A) : l ≠ [] ↔ 0 < len_z l.
Proof. unfold len_z. destruct l; cbn; [split; [done|lia]|split; [lia|done]]. Qed.

Lemma get_is_Some {A} (l : list A) i : 0 ≤ i < len_z l → is_Some (get l i).
Proof. intros [H1 H2]. unfold get. destruct (Z.leb_spec 0 i); [|lia]. apply lookup_lt_is_Some. unfold len_z in H2. lia. Qed.

Lemma get_inv {A} (l : list A) i x : get l i = Some x → 0 ≤ i ∧ l !! Z.to_nat i = Some x ∧ i < len_z l.
Proof.
  unfold get. destruct (Z.leb_spec 0 i); [|done]. intros E. apply lookup_lt_Some in E as Hl. unfold len_z. split_and!; [done|done|lia].
Qed.

(** The selected result. *)
Lemma selected_result km s (l : list Entry) : ready km s → ui_results_len s = len_z l → l ≠ [] → is_Some (get l (sel s)).
Proof. intros (_ & _ & _ & _ & [H1 H2] & _) Hl Hne%len_z_pos. apply get_is_Some. rewrite <- Hl. split; [done|]. apply H2. lia. Qed.

Lemma draw_total km f w :
  steady km w → seen f → ∃ w', draw f w = Some w' ∧ steady km w' ∧ visible (app w') ∧ results w' = results w ∧
    tab_index (app w') = tab_index (app w).
Proof.
  intros Hsd [Hw Hh]. pose proof Hsd as [Hr [Hl Hlim] Hs Hi]. pose proof (selected_result _ _ _ Hr Hl) as Hsel. unfold draw.
  destruct Hr as (Hline & Hk & Hl0 & Ho & [Hs0 Hs1] & Ht). destruct Ht as [Ht|Ht].
  - set (w1 := with_app _ w). assert (steady km w1 ∧ visible (app w1) ∧ results w1 = results w ∧ tab_index (app w1) = tab_index (app w)) as Hw1.
    { assert (0 ≤ offset (results_state (app w1)) ∧ selected (results_state (app w1)) = sel (app w) ∧
        (0 < len_z (results w) → offset (results_state (app w1)) ≤ sel (app w))) as (H1 & H2 & H3).
      { cbn. unfold render. destruct (_ || _) eqn:Eb.
        - split_and!; [done|done|]. intros Hp. apply orb_true_iff in Eb. rewrite orb_true_iff in Eb. lia.
        - apply orb_false_iff in Eb as [_ Eb%Z.eqb_neq].
          destruct (get_items_bounds _ _ _ _) as [a b] eqn:E. cbn. apply items_bounds in E as (? & ? & ?); [|unfold sel, len_z in *; lia|done..].
          unfold sel. split_and!; [lia|done|intros _; lia]. }
      assert (in_range (app w1)) as Hin by (unfold in_range, sel in *; rewrite H2; cbn; done).
      split_and!; [|intros _ Hp; unfold sel at 1; rewrite H2; apply H3; cbn in Hp; lia|done|done].
      constructor; try done. split_and!; done || by left. }
    rewrite Ht in Hw1 |- *. cbn [Z.eqb]. destruct (_ || _) eqn:Eb; [by exists w1|].
    destruct Hsel as [e ->]; [|by exists w1]. intros E. by rewrite E in Eb.
  - rewrite Ht. cbn [Z.eqb]. assert (visible (app w)) as Hv by (intros E; lia).
    case_bool_decide as Hb; [exists w; split_and!; done|].
    destruct Hsel as [e Hsel]; [done|]. destruct (Hi Ht Hb) as [x ->].
    destruct (inspecting w); [|rewrite Hsel]; exists w; split_and!; done.
Qed.

(** The world between an event and the end of its round. *)
Record loose (km : KeymapSet) (w : World) : Prop := {
  ls_ready : ready km (app w);
  ls_len : ui_results_len (app w) = len_z (results w) ∧ len_z (results w) < vec_limit;
  ls_stats : is_Some (stats_for w) → is_Some (stats w)
}.

Lemma steady_loose km w : steady km w → loose km w.
Proof. by intros [? ? ? _]. Qed.

Lemma delete_one_total km w :
  loose km w → results w ≠ [] → ∃ w', delete_one (sel (app w)) w = Some w' ∧ loose km w'.
Proof.
  intros [Hr [Hl Hlim] Hs] Hne. destruct (selected_result _ _ _ Hr Hl Hne) as [e He]. unfold delete_one. rewrite He.
  eexists. split; [reflexivity|]. apply get_inv in He as (Hs0 & He & Hlt). rewrite <- Hl in Hlt.
  pose proof (proj1 (len_z_pos _) Hne) as Hpos. destruct Hr as (Hline & Hk & Hl0 & Ho & _ & _). unfold vec_limit in *.
  assert (wrapping_sub (ui_results_len (app w)) 1 = ui_results_len (app w) - 1) as Hsub by (apply wrapping_sub_small; wrap_lia).
  assert (len_z (delete (Z.to_nat (sel (app w))) (results w)) = ui_results_len (app w) - 1) as Hd.
  { rewrite Hl. unfold len_z in *. rewrite length_delete by done. lia. }
  pose proof (Z.mod_pos_bound (sel (app w) - 1) u64_limit ltac:(reflexivity)) as Hm.
  change (sel (with_results_len _ _)) with (sel (app w)). rewrite Hsub.
  constructor; [|cbn; rewrite Hd|done].
  - destruct (Z.eqb_spec (sel (app w)) (ui_results_len (app w) - 1)) as [E|E]; (split_and!; [done|done|cbn; lia|done| |by left]);
      unfold in_range, sel in *; cbn; [|lia].
    split; [unfold wrapping_sub; lia|]. intros. rewrite wrapping_sub_small by wrap_lia. lia.
  - split; [by destruct (_ =? _)|]. unfold vec_limit. lia.
Qed.

Lemma delete_all_total km w :
  loose km w → results w ≠ [] → ∃ w', delete_all (sel (app w)) w = Some w' ∧ loose km w'.
Proof.
  intros [Hr [Hl Hlim] Hs] Hne. destruct (selected_result _ _ _ Hr Hl Hne) as [e He]. unfold delete_all. rewrite He.
  eexists. split; [reflexivity|]. destruct Hr as (Hline & Hk & Hl0 & Ho & _ & _).
  assert (∀ P `{∀ x, Decision (P x)}, len_z (filter P (results w)) ≤ len_z (results w)) as Hf.
  { intros P HP. unfold len_z. pose proof (length_filter P (results w)). lia. }
  constructor; cbn [app results stats stats_for]; [|split; [done|eapply Z.le_lt_trans; [apply Hf|done]]|done].
  split_and!; try done; try (by left); unfold in_range, sel; cbn; unfold len_z; lia.
Qed.

Lemma switch_context_loose git root fm i km w : loose km w → loose km (switch_context git root fm i w).
Proof.
  intros [Hr [Hl Hlim] Hs]. destruct Hr as (Hline & Hk & Hl0 & Ho & Hin & Ht). unfold switch_context.
  destruct (i ≫= _) as [e|] eqn:E; [|by constructor].
  constructor; [|done|done]. split_and!; try done. apply boundary_start.
Qed.

(** A copy asks for the selected result, which may not be there. *)
Definition copies_nothing (r : InputAction) (w : World) : Prop := ∃ i, r = ICopy i ∧ results w = [].

Lemma turn_total width git st root fm km f e w :
  inspector_stays km → steady km w → visible (app w) → seen f →
  ∃ t, turn width git st root fm f e w = Some t ∧
    match t with
    | Next w' | Pause w' => loose km w'
    | Leave r w' => copies_nothing r w' ∨ ∀ accepts chaining q, is_Some (returned accepts chaining q r w')
    end.
Proof.
  intros Hkm Hsd Hv Hf. pose proof Hsd as [Hr [Hl Hlim] Hs Hi].
  destruct (handle_input_ready width st km e _ Hkm Hr Hv) as (s' & r & E & Hr' & Hl' & Hidx & Htab).
  unfold turn. rewrite E. cbn [mbind option_bind].
  assert (loose km (with_app s' w)) as Hlo by (constructor; [done|cbn; by rewrite Hl'|done]).
  destruct r as [i| |i|i|i| | | | |i]; cbn [act];
    try (eexists; split; [reflexivity|]; cbn; first [exact Hlo|by right|right; intros; unfold returned; by destruct (get _ _)]).
  - eexists. split; [reflexivity|]. destruct (decide (results w = [])) as [Hn|Hn]; [left; by exists i|right]. intros. cbn.
    rewrite (Hidx i) by (by right; right). apply fmap_is_Some. by apply (selected_result km); [|rewrite Hl'|].
  - case_bool_decide as Hn; [by eexists|]. rewrite (Hidx i) by (by left).
    destruct (delete_one_total km (with_app s' w) Hlo Hn) as (w' & E1 & Hw'). cbn [app with_app] in E1. rewrite E1. by eexists.
  - case_bool_decide as Hn; [by eexists|]. rewrite (Hidx i) by (by right; left).
    destruct (delete_all_total km (with_app s' w) Hlo Hn) as (w' & E1 & Hw'). cbn [app with_app] in E1. rewrite E1. by eexists.
  - destruct (draw_total km f (with_app s' w)) as (w' & -> & Hw' & _); [|done|by eexists; split; [done|apply steady_loose]].
    constructor; [done|cbn; by rewrite Hl'|done|]. cbn. rewrite Htab by done. exact Hi.
  - eexists. split; [reflexivity|]. by apply switch_context_loose.
Qed.

Lemma query_results_loose a km w : len_z (a_results a) < vec_limit → loose km w → loose km (query_results a w).
Proof.
  intros Ha [(Hline & Hk & Hl0 & Ho & Hin & Ht) _ Hs]. constructor; [|done|done].
  unfold query_results, ready, good_tab, in_range, line_ok, sel. cbv zeta. cbn [app].
  destruct (_ && _); cbn; (split_and!; try done; unfold len_z; lia).
Qed.

Lemma highlight_loose before km w : loose km w → loose km (highlight before w).
Proof.
  intros Hw. unfold highlight. destruct (custom_context _) as [id|]; [|done]. destruct (_ && _); [|done].
  destruct (list_find _ _) as [[pos e]|] eqn:E; [|done]. apply list_find_Some in E as (E & _). apply lookup_lt_Some in E.
  destruct Hw as [(Hline & Hk & Hl0 & Ho & Hin & Ht) [Hl Hlim] Hs]. constructor; [|done|done]. split_and!; try done.
  unfold in_range, sel. cbn. rewrite Hl. unfold len_z. lia.
Qed.

Lemma settle_total a before km w :
  len_z (a_results a) < vec_limit → loose km w → ∃ w', settle a before w = Some w' ∧ steady km w'.
Proof.
  intros Ha Hw. unfold settle. set (w1 := highlight before (requery a before w)).
  assert (loose km w1) as H1.
  { apply highlight_loose. unfold requery. destruct (decide _); [done|]. by apply query_results_loose. }
  clearbody w1. clear w Hw before. destruct H1 as [Hr [Hl Hlim] Hs]. pose proof (selected_result _ _ _ Hr Hl) as Hsel.
  unfold refresh_stats. cbn [load_inspecting app results stats stats_for].
  destruct (tab_index (app w1) =? 0) eqn:E0; cbn [orb].
  { eexists. split; [reflexivity|]. constructor; [done|done|by intros []|]. cbn. lia. }
  case_bool_decide as Hn. { eexists. split; [reflexivity|]. constructor; try done. by intros []. }
  destruct (Hsel Hn) as [e He].
  assert (∃ x, match inspecting (load_inspecting a w1) with Some e => Some e | None => get (results w1) (sel (app w1)) end = Some x) as [x Hx].
  { destruct (inspecting (load_inspecting a w1)); eauto. }
  rewrite Hx. cbn [mbind option_bind]. destruct (decide _) as [Hd|Hd]; (eexists; split; [reflexivity|]); constructor; try done.
  cbn. intros _ _. apply Hs. by rewrite Hd.
Qed.

(** Worlds that are reached with a frame drawn between any two events. *)
Inductive paced width git st root fm (km : KeymapSet) : World → Prop :=
| paced_start daemon chaining q a :
    len_z (a_results a) < vec_limit → paced width git st root fm km (start st root fm km daemon chaining q a)
| paced_round f a e w w' :
    paced width git st root fm km w → seen f → len_z (a_results a) < vec_limit →
    round width git st root fm f a [e] w = Some (Next w') → paced width git st root fm km w'.

Lemma round_total width git st root fm km f a e w :
  inspector_stays km → steady km w → seen f → len_z (a_results a) < vec_limit →
  ∃ t, round width git st root fm f a [e] w = Some t ∧
    match t with
    | Next w' | Pause w' => steady km w'
    | Leave r w' => copies_nothing r w' ∨ ∀ accepts chaining q, is_Some (returned accepts chaining q r w')
    end.
Proof.
  intros Hkm Hw Hf Ha. unfold round, batch. destruct (draw_total km f w Hw Hf) as (w1 & -> & Hw1 & Hv & _). cbn [mbind option_bind].
  destruct (turn_total width git st root fm km f e w1 Hkm Hw1 Hv Hf) as (t & -> & Ht). cbn [mbind option_bind].
  destruct t as [w2|w2|r w2]; cbn [mbind option_bind]; [| |by eexists].
  all: destruct (settle_total a (app w1) km w2 Ha Ht) as (w3 & -> & Hw3); by eexists.
Qed.

Lemma start_steady st root fm km daemon chaining q a :
  len_z (a_results a) < vec_limit → steady km (start st root fm km daemon chaining q a).
Proof.
  intros Ha. set (s := initial st root fm km daemon chaining q).
  assert (ready km s ∧ tab_index s = 0) as [Hr Ht].
  { unfold s, initial. set (s1 := with_mode_search _ _ _ _).
    assert (ready km s1) as (Hline & Hk & Hrest); [|unfold initialize_keymap_cursor; by destruct (ui_keymap_mode s1)].
    split_and!; try done; [apply boundary_end|by left]. }
  destruct (query_results_loose a km (mk_world s [] None None None []) Ha) as [H1 H2 H3].
  { constructor; [done| |by intros []]. split; [|done]. unfold s, initial, initialize_keymap_cursor. by destruct (ui_keymap_mode _). }
  constructor; [done|done|done|]. intros E. exfalso. revert E. unfold start, query_results. cbv zeta. cbn [app]. fold s.
  destruct (_ && _); cbn; by rewrite Ht.
Qed.

(** C16: no sequence of events makes the search panic, as long as a frame with room for the list is drawn
    between any two of them: with the default keymaps the selection always names a result where there
    are results, the inspector always has what it shows, every round goes on to such a state or leaves,
    and what is then returned is a text, a copy with no result to copy apart. *)
Theorem search_never_panics `{UnicodeLib} width git st root fm km w :
  config_is_empty (keymap (ui_keys st)) = true → from_settings (ui_keys st) = Some km → paced width git st root fm km w →
  in_range (app w) ∧ ui_results_len (app w) = len_z (results w) ∧
  ∀ f a e, seen f → len_z (a_results a) < vec_limit → ∃ t, round width git st root fm f a [e] w = Some t ∧
    ∀ r w', t = Leave r w' → copies_nothing r w' ∨ ∀ accepts chaining q, is_Some (returned accepts chaining q r w').
Proof.
  intros Hc Hf Hw. unfold from_settings in Hf. rewrite Hc in Hf. apply defaults_inspector_stays in Hf.
  assert (steady km w) as Hs.
  { induction Hw as [daemon chaining q a Ha|f a e w w' _ IH Hseen Ha E]; [by apply start_steady|].
    destruct (round_total width git st root fm km f a e w Hf IH Hseen Ha) as (t & E' & Ht). rewrite E in E'. by injection E' as <-. }
  pose proof Hs as [(_ & _ & _ & _ & Hin & _) [Hl _] _ _]. split_and!; [done|done|]. intros f a e Hseen Ha.
  destruct (round_total width git st root fm km f a e w Hf Hs Hseen Ha) as (t & E & Ht). exists t. split; [done|].
  by intros r w' ->.
Qed.

(** ** What enter returns *)

Definition enter_event : Event := EvKey false (mk_event (EvCode Enter) false false false false).

(** In the search tab of the default keymaps, whatever the mode, enter leaves with the command of the
    selected result: after the original query when a command is being chained, marked to be run when
    [enter_accept] is on and the shell supports it, and as it is otherwise. With no results the text of
    the input line is returned. *)
Theorem enter_returns_selection `{UnicodeLib} width git st root fm km f w accepts chaining q :
  config_is_empty (keymap (ui_keys st)) = true → from_settings (ui_keys st) = Some km → keymaps (app w) = km →
  tab_index (app w) = 0 → prefix_active (app w) = false → pending_vim_key (app w) = None → accept (app w) = false →
  ∃ w', turn width git st root fm f enter_event w = Some (Leave (IAccept (sel (app w))) w') ∧
    returned accepts chaining q (IAccept (sel (app w))) w' =
      Some (match get (results w) (sel (app w)) with
            | Some e => if chaining then trim_end q +:+ " " +:+ h_command e
                        else if enter_accept (ui_keys st) && accepts then accept_prefix +:+ h_command e
                        else h_command e
            | None => chars_text (source (input (search (app w))))
            end).
Proof.
  intros Hc Hf Hk Ht Hp Hpend Ha. unfold from_settings in Hf. rewrite Hc in Hf. apply enter_bound in Hf.
  rewrite !Forall_cons in Hf. destruct Hf as (H1 & H2 & H3 & _).
  assert (∀ s, keymaps s = km → tab_index s = 0 → mode_keymap s !! enter = Some (simple (accept_action (ui_keys st)))) as Hm.
  { intros s Hks Hts. unfold mode_keymap. rewrite Hts, Hks. cbn [Z.eqb]. by destruct (ui_keymap_mode s). }
  unfold turn, handle_input, enter_event, handle_key_input. cbn [from_event ev_code].
  set (s1 := with_mode_search _ _ _ _). set (single := mk_key Enter false false false false).
  assert (resolve_key width s1 single = (Some (accept_action (ui_keys st)), None)) as Er.
  { unfold resolve_key. change (prefix_active s1) with (prefix_active (app w)). rewrite Hp.
    change (pending_vim_key s1) with (pending_vim_key (app w)). rewrite Hpend. cbn [k_code single].
    change (Single single) with enter. unfold resolve. by rewrite (Hm s1 Hk Ht). }
  change (from_event (mk_event (EvCode Enter) false false false false)) with (Some single). cbv iota beta. rewrite Er.
  unfold accept_action. destruct (enter_accept (ui_keys st)) eqn:Ee; cbn [execute_action with_pending tab_index];
    change (tab_index s1) with (tab_index (app w)); rewrite Ht; cbn [Z.eqb mbind option_bind act];
    (eexists; split; [reflexivity|]); unfold returned; cbn [app with_app accept with_accept with_pending results];
    change (accept s1) with (accept (app w)); rewrite ?Ha; cbn [andb]; destruct (get (results w) (sel (app w))); done.
Qed.

(** ** Concrete runs *)

Definition plain_ui (accepts : bool) : UiSettings :=
  mk_ui_settings (mk_settings accepts false false MAuto (mk_keys true true true false false "a") no_config)
    ExitReturnOriginal [] Emacs 1 ∅ [FGlobal; FHost; FSession] false SFuzzy.

Definition no_keymaps : KeymapSet := mk_set ∅ ∅ ∅ ∅ ∅.
Definition plain_keymaps (accepts : bool) : KeymapSet := default no_keymaps (from_settings (ui_keys (plain_ui accepts))).

Definition entry (id command : string) : Entry :=
  mk_hist id 0 0 0 command "/" "s" (mk_origin "h:u" 1) "u" None None None None.
Definition two_entries : list Entry := [entry "1" "ls"; entry "2" "rm -r target"].
Definition answer (l : list Entry) : Answer := mk_answer l false (Some (entry "0" "make")) (mk_stats (Some "0"%string) None).
Definition plain_frame : Frame := mk_frame 80 20 true.

Definition ascii_width (l : list char) : Z := len_z l.
Definition plain_start (accepts : bool) (l : list Entry) : World :=
  start (plain_ui accepts) false FGlobal (plain_keymaps accepts) false false "" (answer l).
#[local] Notation plain_round l es w :=
  (round ascii_width (λ _, false) (plain_ui false) false FGlobal plain_frame (answer l) es w) (only parsing).

Lemma plain_keymaps_built accepts : from_settings (ui_keys (plain_ui accepts)) = Some (plain_keymaps accepts).
Proof.
  unfold plain_keymaps. destruct (proj2 (defaults_total (ui_keys (plain_ui accepts)))) as [km Hkm].
  { apply (bool_decide_unpack _). vm_compute. exact I. }
  change (from_settings (ui_keys (plain_ui accepts))) with (defaults (ui_keys (plain_ui accepts))). by rewrite Hkm.
Qed.

#[local] Opaque plain_keymaps.

Definition press (code : KeyCodeValue) (ctrl : bool) : Event := EvKey false (mk_event (EvCode code) ctrl false false false).

(** How a round ends, for the runs below. *)
Inductive Ending : Type := Panicked | Going | Left_with (r : InputAction).
Definition ending (t : option Turn) : Ending :=
  match t with None => Panicked | Some (Leave r _) => Left_with r | Some _ => Going end.

Lemma ending_left t r : ending t = Left_with r → ∃ w, t = Some (Leave r w).
Proof. destruct t as [[| |r' w]|]; try done. intros [= ->]. by exists w. Qed.

Lemma plain_paced l : len_z l < vec_limit → paced ascii_width (λ _, false) (plain_ui false) false FGlobal (plain_keymaps false) (plain_start false l).
Proof. intros Hl. unfold plain_start. apply paced_start. exact Hl. Qed.

Lemma plain_reaches l : reaches ascii_width (λ _, false) (plain_ui false) false FGlobal (plain_keymaps false) (plain_start false l).
Proof. unfold plain_start. apply reaches_start. Qed.

Lemma enter_leaves : ending (plain_round two_entries [press Enter false] (plain_start false two_entries)) = Left_with (IAccept 0).
Proof. vm_compute. reflexivity. Qed.

Lemma search_never_panics_witness :
  in_range (app (plain_start false two_entries)) ∧
  ∃ t, round ascii_width (λ _, false) (plain_ui false) false FGlobal plain_frame (answer two_entries) [press Up false]
         (plain_start false two_entries) = Some t.
Proof.
  destruct (search_never_panics ascii_width (λ _, false) (plain_ui false) false FGlobal (plain_keymaps false)
    (plain_start false two_entries) eq_refl (plain_keymaps_built false) (plain_paced two_entries eq_refl)) as (H1 & _ & H2).
  split; [exact H1|]. destruct (H2 plain_frame (answer two_entries) (press Up false)) as (t & E & _); [by split|reflexivity|].
  exact (ex_intro _ t E).
Defined.

Lemma nothing_runs_unless_asked_witness :
  ∃ w', plain_round two_entries [press Enter false] (plain_start false two_entries) = Some (Leave (IAccept 0) w') ∧ accept (app w') = false.
Proof.
  destruct (ending_left _ _ enter_leaves) as [w' E]. exists w'. split; [exact E|].
  exact (proj1 (nothing_runs_unless_asked ascii_width (λ _, false) (plain_ui false) false FGlobal (plain_keymaps false)
    (plain_start false two_entries) plain_frame (answer two_entries) [press Enter false] (IAccept 0) w' false ""
    eq_refl eq_refl (plain_keymaps_built false) (plain_reaches two_entries) E)).
Defined.

Lemma enter_returns_selection_witness :
  ∃ w', turn ascii_width (λ _, false) (plain_ui true) false FGlobal plain_frame enter_event (plain_start true two_entries)
          = Some (Leave (IAccept 0) w') ∧
        returned true false "" (IAccept 0) w' = Some "__atuin_accept__:ls"%string.
Proof.
  exact (enter_returns_selection ascii_width (λ _, false) (plain_ui true) false FGlobal (plain_keymaps true) plain_frame
    (plain_start true two_entries) true false "" eq_refl (plain_keymaps_built true) eq_refl eq_refl eq_refl eq_refl eq_refl).
Defined.

(** ** Where the loop departs from what it is meant to do *)

(** Rounds one after the other, each with its batch of events. *)
Fixpoint run (l : list Entry) (batches : list (list Event)) (w : World) : option Turn :=
  match batches with
  | [] => Some (Next w)
  | es :: batches' => t ← plain_round l es w; match t with Next w' | Pause w' => run l batches' w' | _ => Some t end
  end.

Definition after {A} (l : list Entry) (batches : list (list Event)) (g : World → A) : option A :=
  (λ t, g (turn_world t)) <$> run l batches (plain_start false l).

(** Ctrl-d in the inspector deletes the result that is selected in the list, not the entry on display. *)
Lemma inspector_deletes_selected :
  after two_entries [[press (KChar "o") true]; [press Up false]] (λ w, h_command <$> inspecting w) = Some (Some "make"%string) ∧
  after two_entries [[press (KChar "o") true]; [press Up false]; [press (KChar "d") true]] deletions = Some [DEntry (entry "1" "ls")].
Proof. split; vm_compute; reflexivity. Qed.

(** The inspector is drawn without its statistics when it is opened and moved before a frame. *)
Lemma hasty_inspector_panics :
  ending (run two_entries [[press (KChar "o") true; press Up false]] (plain_start false two_entries)) = Panicked ∧
  ending (run two_entries [[press (KChar "o") true]; [press Up false]] (plain_start false two_entries)) = Going.
Proof. split; vm_compute; reflexivity. Qed.

(** Deleting the only result leaves the selection below zero. *)
Lemma deleting_only_result_underflows :
  after [entry "1" "ls"] [[press (KChar "a") true]; [press (KChar "d") false]] (λ w, (sel (app w), length (results w)))
  = Some (u64_limit - 1, 0%nat).
Proof. vm_compute. reflexivity. Qed.

(** Copying with no results panics. *)
Lemma copying_nothing_panics :
  ending (run [] [[press (KChar "y") true]] (plain_start false [])) = Left_with (ICopy 0) ∧
  returned true false "" (ICopy 0) (plain_start false []) = None.
Proof. split; vm_compute; reflexivity. Qed.

(** Pasted text reaches the input line from the inspector, where keys do not. *)
Lemma paste_leaks_from_inspector :
  after two_entries [[press (KChar "o") true]; [press (KChar "x") false]] (λ w, source (input (search (app w)))) = Some [] ∧
  after two_entries [[press (KChar "o") true]; [EvPaste [(byte 120, [])]]] (λ w, source (input (search (app w)))) = Some [(byte 120, [])].
Proof. split; vm_compute; reflexivity. Qed.

(** A cursor at the end of a text with a character of more bytes than columns is not at the end. *)
Lemma cursor_at_end_in_bytes :
  let s := with_input (cursor_end (cursor_from [(byte 195, [byte 169])])) (app (plain_start false [])) in
  evaluate (Atom CursorAtEnd) (eval_context ascii_width s) = false.
Proof. vm_compute. reflexivity. Qed.
