(* ===== verification/SearchQuery.v ===== *)
(** * Search queries ([atuin-client/src/database.rs], [ordering.rs])

    The tokens of a query, the patterns that they become and what they mean, and the conditions of a
    query. Text is matched by SQLite's [LIKE] and [GLOB] and by a regular expression, which are an
    interface with the documented meaning of their wildcards; the clauses are put together by
    [sql_builder], which is an interface too. Where both the pattern and the text are UTF-8 the bytes may
    be compared, since a character never begins inside another. *)
From S2P Require Import Prelude Text Interactive.

Definition char_pct : Ascii.ascii := byte 37.
Definition char_star : Ascii.ascii := byte 42.
Definition space : Ascii.ascii := byte 32.

(** ** Tokens *)

Inductive QueryToken : Type :=
| QMatch (term : string) (inverse : bool)
| QMatchStart (term : string) (inverse : bool)
| QMatchEnd (term : string) (inverse : bool)
| QMatchFull (term : string) (inverse : bool)
| QOr
| QRegex (r : string).

(** [QueryToken::is_inverse] *)
Definition is_inverse (t : QueryToken) : bool :=
  match t with QMatch _ i | QMatchStart _ i | QMatchEnd _ i | QMatchFull _ i => i | QOr | QRegex _ => false end.

(** [str::find] of a text. *)
Fixpoint find_text (p l : list Ascii.ascii) : option nat :=
  match strip_prefix_l p l with
  | Some _ => Some O
  | None => match l with [] => None | _ :: l' => S <$> find_text p l' end
  end.

(** The token of a part between spaces. *)
Definition part_token (part : string) : QueryToken :=
  if decide (part = "|") then QOr
  else
    let '(part, inverse) := match strip_prefix "!" part with Some s => (s, true) | None => (part, false) end in
    match strip_prefix "^" part with
    | Some s => QMatchStart s inverse
    | None =>
        match strip_suffix "$" part with
        | Some s => QMatchEnd s inverse
        | None => match strip_prefix "'" part with Some s => QMatchFull s inverse | None => QMatch part inverse end
        end
    end.

(** [QueryTokenizer::next], on what remains of the query. *)
Definition next_token (remaining : list Ascii.ascii) : option (QueryToken * list Ascii.ascii) :=
  match remaining with
  | [] => None
  | _ =>
      match strip_prefix_l (chars "r/") remaining with
      | Some rest =>
          match find_text (chars "/ ") rest with
          | Some e => Some (QRegex (unchars (take e rest)), drop (e + 2) rest)
          | None => Some (QRegex (default (unchars rest) (strip_suffix "/" (unchars rest))), [])
          end
      | None =>
          match find_text [space] remaining with
          | Some sp => Some (part_token (unchars (take sp remaining)), drop (S sp) remaining)
          | None => Some (part_token (unchars remaining), [])
          end
      end
  end.

(** The tokens of a query; each takes a byte or more, so the length is enough fuel. *)
Fixpoint tokens_from (fuel : nat) (l : list Ascii.ascii) : list QueryToken :=
  match fuel with
  | O => []
  | S fuel => match next_token l with Some (t, l) => t :: tokens_from fuel l | None => [] end
  end.
Definition query_tokens (query : string) : list QueryToken := tokens_from (String.length query) (chars query).

(** ** Conditions *)

Inductive DbSearchMode : Type := DbPrefix | DbFullText | DbFuzzy.
#[export] Instance DbSearchMode_eq_dec : EqDecision DbSearchMode.
Proof. solve_decision. Defined.

(** [SearchMode::closest_db_mode] *)
Definition closest_db_mode (m : SearchMode) : DbSearchMode :=
  match m with SPrefix => DbPrefix | SFullText => DbFullText | SFuzzy | SDaemonFuzzy => DbFuzzy end.

(** A condition on the command: [fuzzy_condition], [and_where_like_left] or [regexp]. *)
Inductive CommandCond : Type := CFuzzy (mask : string) (inverse glob : bool) | CLikeLeft (mask : string) | CRegexp (r : string).

(** [and_where] and [or_where]. *)
Inductive WOp (C : Type) : Type := And_ (c : C) | Or_ (c : C).
Arguments And_ {C} c.
Arguments Or_ {C} c.

(** [char::is_uppercase] *)
Class CharCase : Type := is_uppercase : string → bool.

(** [slice::join] *)
Definition join_with (sep : string) (l : list string) : string := String.concat sep l.

Section conditions.
Context `{CharCase}.

(** [QueryToken::has_uppercase] *)
Definition has_uppercase (t : QueryToken) : bool :=
  match t with
  | QMatch term _ | QMatchStart term _ | QMatchEnd term _ | QMatchFull term _ => existsb is_uppercase (str_chars term)
  | QOr | QRegex _ => false
  end.

(** The [match] on a token that is neither a regular expression nor the first of its [|]. *)
Definition token_mask (mode : DbSearchMode) (glob : string) (t : QueryToken) : string :=
  match t with
  | QMatchStart term _ => term +:+ glob
  | QMatchEnd term _ => glob +:+ term
  | QMatchFull term _ => glob +:+ term +:+ glob
  | QMatch term _ =>
      if decide (mode = DbFullText) then glob +:+ term +:+ glob
      else join_with glob (("" :: str_chars term ++ [""])%string)
  | QOr => glob +:+ "|" +:+ glob
  | QRegex _ => ""
  end.

(** The loop over the tokens: the conditions in order, and the regular expressions aside. *)
Fixpoint token_conditions (mode : DbSearchMode) (is_or : bool) (ts : list QueryToken) : list (WOp CommandCond) * list string :=
  match ts with
  | [] => ([], [])
  | t :: ts =>
      let is_glob := has_uppercase t in
      let glob := if is_glob then "*" else "%" in
      match t, is_or with
      | QRegex r, _ => let '(ops, rs) := token_conditions mode is_or ts in (ops, r :: rs)
      | QOr, false => token_conditions mode true ts
      | _, _ =>
          let c := CFuzzy (token_mask mode glob t) (is_inverse t) is_glob in
          let '(ops, rs) := token_conditions mode false ts in ((if is_or then Or_ c else And_ c) :: ops, rs)
      end
  end.

(** [str::replace('*', "%")] *)
Definition star_to_percent (s : string) : string := unchars ((λ c, if decide (c = char_star) then char_pct else c) <$> chars s).

(** The conditions of [search] on the command. *)
Definition command_conditions (mode : DbSearchMode) (query : string) : list (WOp CommandCond) :=
  match mode with
  | DbPrefix => [And_ (CLikeLeft (star_to_percent query))]
  | DbFullText | DbFuzzy =>
      let '(ops, rs) := token_conditions mode false (query_tokens query) in ops ++ ((λ r, And_ (CRegexp r)) <$> rs)
  end.
End conditions.

(** The text that the ranking compares with: the terms of the tokens that are not negated. *)
Definition reorder_query (query : string) : string :=
  join_with "" (omap (λ t, match t with QMatch s false | QMatchStart s false | QMatchEnd s false | QMatchFull s false => Some s | _ => None end)
                     (query_tokens query)).

(** [ordering::reorder]: by the length of the shortest span of the command that holds the query;
    [minspan::span] is a parameter. *)
Definition span_key (span : list string → list string → option (Z * Z)) (query command : string) : Z :=
  match span (str_chars query) (str_chars command) with Some (from, to) => 1 + to - from | None => u64_limit - 1 end.

Definition reorder_fuzzy {A} (span : list string → list string → option (Z * Z)) (mode : DbSearchMode) (query : string)
    (command : A → string) (res : list A) : list A :=
  match mode with
  | DbFuzzy => sort_by_key (λ a, span_key span query (command a)) res
  | DbPrefix | DbFullText => res
  end.

(** ** What the database makes of them *)

(** A pattern with one wildcard, which stands for any text. *)
Fixpoint wild (fold : Ascii.ascii → Ascii.ascii) (any : Ascii.ascii) (p s : list Ascii.ascii) : bool :=
  match p with
  | [] => bool_decide (s = [])
  | c :: p =>
      if decide (c = any) then
        (fix skip s := wild fold any p s || match s with [] => false | _ :: s' => skip s' end) s
      else match s with [] => false | x :: s => bool_decide (fold c = fold x) && wild fold any p s end
  end.

Class SqlText : Type := {
  like : string → string → bool;
  glob : string → string → bool;
  regexp : string → string → bool
}.

(** [LIKE] ignores the case of ASCII letters, [GLOB] does not; patterns with the other wildcards ([_],
    [?] and character sets) are left open. *)
Class SqlTextLaws `{SqlText} : Prop := {
  like_percent p s : contains_char (byte 95) p = false → like p s = wild ascii_lower char_pct (chars p) (chars s);
  glob_star p s : contains_char (byte 63) p = false → contains_char (byte 91) p = false → glob p s = wild id char_star (chars p) (chars s)
}.

Definition command_holds `{SqlText} (c : CommandCond) (command : string) : bool :=
  match c with
  | CFuzzy mask inverse is_glob => xorb inverse (if is_glob then glob mask command else like mask command)
  | CLikeLeft mask => like (mask +:+ "%") command
  | CRegexp r => regexp r command
  end.

(** [sql_builder]: a condition that is added with [or_where] is an alternative to the last one, and all
    of them have to hold. *)
Definition add_clause {C} (w : list (list C)) (op : WOp C) : list (list C) :=
  match op with
  | And_ c => w ++ [[c]]
  | Or_ c => match reverse w with [] => [[c]] | l :: w' => reverse w' ++ [l ++ [c]] end
  end.
Definition clauses {C} (ops : list (WOp C)) : list (list C) := foldl add_clause [] ops.

Class SqlBuilder : Type := where_holds : ∀ {C}, list (WOp C) → (C → bool) → bool.
Class SqlBuilderLaws `{SqlBuilder} : Prop := {
  where_clauses {C} (ops : list (WOp C)) ev : where_holds ops ev = forallb (existsb ev) (clauses ops)
}.

(** ** Patterns *)

(** Texts that stand in this order in another, with anything between them. *)
Fixpoint pieces_in (fold : Ascii.ascii → Ascii.ascii) (ps : list (list Ascii.ascii)) (s : list Ascii.ascii) : Prop :=
  match ps with
  | [] => True
  | p :: ps => ∃ a m b, s = a ++ m ++ b ∧ fold <$> m = fold <$> p ∧ pieces_in fold ps b
  end.

Section wild.
Context (fold : Ascii.ascii → Ascii.ascii) (any : Ascii.ascii).

Lemma wild_any p s : wild fold any (any :: p) s = true ↔ ∃ a b, s = a ++ b ∧ wild fold any p b = true.
Proof.
  cbn [wild]. rewrite decide_True by done. induction s as [|x s IH].
  - rewrite orb_false_r. split; [by exists [], []|]. by intros ([|] & [|] & ? & ?).
  - rewrite orb_true_iff, IH. split.
    + intros [Hw|(a & b & -> & Hw)]; [by exists [], (x :: s)|by exists (x :: a), b].
    + intros ([|y a] & b & E & Hw); cbn in E; [subst; by left|]. injection E as -> ->. right. eauto.
Qed.

Lemma wild_literal l p s :
  any ∉ l → wild fold any (l ++ p) s = true ↔ ∃ m b, s = m ++ b ∧ fold <$> m = fold <$> l ∧ wild fold any p b = true.
Proof.
  revert s. induction l as [|c l IH]; intros s Hl.
  - split; [by exists [], s|]. intros (m & b & -> & ->%fmap_nil_inv & ?). done.
  - apply not_elem_of_cons in Hl as [Hc Hl]. cbn [app wild]. rewrite decide_False by done. destruct s as [|x s].
    + split; [done|]. by intros ([|] & b & ? & ? & ?).
    + rewrite andb_true_iff, bool_decide_eq_true, IH by done. split.
      * intros (Hx & m & b & -> & Hm & Hw). exists (x :: m), b. cbn. by rewrite Hx, Hm.
      * intros ([|y m] & b & E & Hm & Hw); [done|]. cbn in E, Hm. injection E as -> ->. injection Hm as ? ?. eauto 8.
Qed.

(** A pattern with the wildcard around every piece. *)
Definition weave (ps : list (list Ascii.ascii)) : list Ascii.ascii := any :: concat ((λ p, p ++ [any]) <$> ps).

Lemma wild_pieces ps s : Forall (λ p, any ∉ p) ps → wild fold any (weave ps) s = true ↔ pieces_in fold ps s.
Proof.
  intros Hp. revert s. induction Hp as [|p ps Hp Hps IH]; intros s.
  - unfold weave. cbn [fmap list_fmap concat]. rewrite wild_any. split; [done|]. intros _. exists s, []. split; [by rewrite app_nil_r|]. by cbn.
  - unfold weave. cbn [fmap list_fmap concat]. rewrite wild_any, <- app_assoc. cbn [pieces_in]. split.
    + intros (a & b & -> & (m & b' & -> & Hm & Hw)%wild_literal); [|done]. exists a, m, b'. split_and!; [done..|]. by apply IH.
    + intros (a & m & b & -> & Hm & Hin). exists a, (m ++ b). split; [done|]. apply wild_literal; [done|]. exists m, b. split_and!; [done..|]. by apply IH.
Qed.

Lemma wild_prefix l s : any ∉ l → wild fold any (l ++ [any]) s = true ↔ ∃ m b, s = m ++ b ∧ fold <$> m = fold <$> l.
Proof.
  intros Hl. rewrite wild_literal by done. split; [intros (m & b & -> & Hm & _); eauto|].
  intros (m & b & -> & Hm). exists m, b. split_and!; try done. apply wild_any. exists b, []. by rewrite app_nil_r.
Qed.
End wild.

(** ** Plain words *)

(** A word without an operator, a wildcard or a capital. *)
Definition plain_char (c : Ascii.ascii) : bool :=
  graphic c && negb (is_upper c) && negb (bool_decide (c ∈ byte <$> [33; 36; 37; 39; 42; 63; 91; 94; 95; 124])).
Definition plain (w : string) : bool :=
  forallb plain_char (chars w) && negb (bool_decide (w = "")) && negb (starts_with "r/" w).

Class CharCaseLaws `{CharCase} : Prop := { uppercase_ascii c : code c < 128 → is_uppercase (unchars [c]) = is_upper c }.

Lemma plain_spec w :
  plain w = true → Forall (λ c, plain_char c = true) (chars w) ∧ chars w ≠ [] ∧ strip_prefix_l (chars "r/") (chars w) = None.
Proof.
  unfold plain. rewrite !andb_true_iff, !negb_true_iff. intros [[H1 H2] H3]. split_and!.
  - apply Forall_forall. intros c Hc. rewrite forallb_forall in H1. by apply H1, list_elem_of_In.
  - apply bool_decide_eq_false in H2. intros E. apply H2. by rewrite <- (unchars_chars w), E.
  - apply bool_decide_eq_false in H3. destruct (strip_prefix_l _ _) eqn:E; [|done]. destruct H3. unfold strip_prefix. rewrite E. by eexists.
Qed.

Lemma plain_char_not c z : plain_char c = true → z ∈ [33; 36; 37; 39; 42; 63; 91; 94; 95; 124; 32] → c ≠ byte z.
Proof.
  unfold plain_char. rewrite !andb_true_iff, !negb_true_iff. intros [[H1 _] H3%bool_decide_eq_false] Hz ->.
  destruct (decide (z = 32)) as [->|Hne]; [done|]. apply H3. apply list_elem_of_fmap. exists z. split; [done|].
  set_solver.
Qed.

Lemma find_space w r : Forall (λ c, plain_char c = true) w → find_text [space] (w ++ space :: r) = Some (length w).
Proof.
  induction 1 as [|c w Hc Hw IH]; [done|]. cbn [app find_text strip_prefix_l length]. rewrite decide_False.
  - by rewrite IH.
  - intros E. by apply (plain_char_not c 32) in Hc; [|by right; right; right; right; right; right; right; right; right; right; left].
Qed.

Lemma find_no_space w : Forall (λ c, plain_char c = true) w → find_text [space] w = None.
Proof.
  induction 1 as [|c w Hc Hw IH]; [done|]. cbn [find_text strip_prefix_l]. rewrite decide_False, IH; [done|].
  intros E. by apply (plain_char_not c 32) in Hc; [|by right; right; right; right; right; right; right; right; right; right; left].
Qed.

Lemma strip_prefix_plain z l :
  Forall (λ c, plain_char c = true) l → z ∈ [33; 36; 37; 39; 42; 63; 91; 94; 95; 124; 32] → strip_prefix_l [byte z] l = None.
Proof.
  intros Hl Hz. destruct Hl as [|c l Hc Hl]; [done|]. cbn. rewrite decide_False; [done|]. intros E.
  by apply (plain_char_not c z) in Hc.
Qed.

Lemma part_token_plain w : plain w = true → part_token w = QMatch w false.
Proof.
  intros (Hw & Hne & _)%plain_spec. unfold part_token. rewrite decide_False; [|intros ->; apply Forall_cons in Hw as [Hw _]; done].
  unfold strip_prefix, strip_suffix.
  assert (∀ z l, Forall (λ c, plain_char c = true) l → z ∈ [33; 36; 37; 39; 42; 63; 91; 94; 95; 124; 32] →
    @fmap option option_fmap _ _ unchars (strip_prefix_l [byte z] l) = None) as Hs by (intros z l Hl Hz; by rewrite strip_prefix_plain).
  change (chars "!") with [byte 33]. rewrite (Hs 33) by (done || set_solver). cbv beta iota zeta.
  change (chars "^") with [byte 94]. rewrite (Hs 94) by (done || set_solver). cbv beta iota zeta.
  change (reverse (chars "$")) with [byte 36]. rewrite (strip_prefix_plain 36) by (by apply Forall_reverse || set_solver).
  cbn [fmap option_fmap option_map]. change (chars "'") with [byte 39]. by rewrite (Hs 39) by (done || set_solver).
Qed.

(** Words one after the other. *)
Lemma tokens_plain ws fuel :
  Forall (λ w, plain w = true) ws → (length (chars (String.concat " " ws)) ≤ fuel)%nat →
  tokens_from fuel (chars (String.concat " " ws)) = (λ w, QMatch w false) <$> ws.
Proof.
  intros Hw. revert fuel. induction Hw as [|w ws Hw Hws IH]; intros fuel Hf; [by destruct fuel|].
  destruct (plain_spec w Hw) as (Hp & Hne & Hr). destruct fuel as [|fuel].
  { exfalso. assert (length (chars w) ≤ length (chars (String.concat " " (w :: ws))))%nat by
      (destruct ws; cbn [String.concat]; rewrite ?chars_app, ?length_app; lia). destruct (chars w); [done|]. cbn [length] in *. lia. }
  cbn [tokens_from]. unfold next_token. destruct ws as [|w' ws].
  - cbn [String.concat fmap list_fmap]. rewrite Hr, find_no_space, unchars_chars, part_token_plain by done.
    destruct (chars w) eqn:E; [done|]. cbn. by destruct fuel.
  - set (rest := String.concat " " (w' :: ws)) in *.
    assert (chars (String.concat " " (w :: w' :: ws)) = chars w ++ space :: chars rest) as E by (cbn [String.concat]; by rewrite !chars_app).
    rewrite E in *. assert (strip_prefix_l (chars "r/") (chars w ++ space :: chars rest) = None) as ->.
    { destruct (chars w) as [|a [|b l]]; [done| |].
      - cbn in Hr |- *. case_match; [|done]. case_match; [done|]. done.
      - cbn in Hr |- *. repeat case_match; done. }
    rewrite find_space, take_app_length, unchars_chars, part_token_plain by done.
    replace (S (length (chars w))) with (length (chars w) + 1)%nat by lia. rewrite <- drop_drop, drop_app_length. cbn [drop].
    rewrite length_app in Hf. cbn [length] in Hf. destruct (chars w ++ space :: chars rest) eqn:E'; [by destruct (chars w)|].
    cbn [fmap list_fmap]. f_equal. rewrite drop_0. apply IH. lia.
Qed.

Lemma query_tokens_plain ws :
  Forall (λ w, plain w = true) ws → query_tokens (String.concat " " ws) = (λ w, QMatch w false) <$> ws.
Proof. intros Hw. apply tokens_plain; [done|]. by rewrite length_chars. Qed.

(** The characters of a text of ASCII. *)
Lemma char_list_ascii n l : Forall (λ c, code c < 128) l → (length l ≤ n)%nat → char_list n l = (λ c, [c]) <$> l.
Proof.
  revert l. induction n as [|n IH]; intros l Hl Hn; [by destruct l; [|cbn in Hn; lia]|]. destruct Hl as [|c l Hc Hl]; [done|].
  cbn [char_list]. unfold utf8_len. rewrite (proj2 (Z.ltb_lt _ _)) by done. cbn [take drop fmap list_fmap]. rewrite drop_0, take_0. f_equal.
  apply IH; [done|]. cbn in Hn. lia.
Qed.

Lemma plain_ascii w : plain w = true → Forall (λ c, code c < 128) (chars w).
Proof.
  intros (Hw & _)%plain_spec. eapply Forall_impl; [exact Hw|]. unfold plain_char, graphic. cbn. intros c Hc. lia.
Qed.

Lemma str_chars_plain w : plain w = true → str_chars w = (λ c, unchars [c]) <$> chars w.
Proof.
  intros Hw. unfold str_chars. rewrite char_list_ascii; [|by apply plain_ascii|by rewrite length_chars]. by rewrite <- list_fmap_compose.
Qed.

Lemma plain_lowercase `{CharCaseLaws} w : plain w = true → has_uppercase (QMatch w false) = false.
Proof.
  intros Hw. cbn. rewrite str_chars_plain by done. apply existsb_false. intros s (c & -> & Hc)%list_elem_of_fmap.
  pose proof (plain_ascii w Hw) as Ha. rewrite Forall_forall in Ha. rewrite uppercase_ascii by auto. apply plain_spec in Hw as (Hw & _).
  rewrite Forall_forall in Hw. specialize (Hw c Hc). unfold plain_char in Hw. rewrite !andb_true_iff, !negb_true_iff in Hw. tauto.
Qed.

(** The pieces that a word has to have in a command. *)
Definition word_pieces (mode : DbSearchMode) (w : string) : list (list Ascii.ascii) :=
  match mode with DbFuzzy => (λ c, [c]) <$> chars w | _ => [chars w] end.

Lemma chars_join l :
  chars (String.concat "%" (("" :: l ++ [""])%string)) = weave char_pct (chars <$> l).
Proof.
  unfold weave. assert (∀ l, chars (String.concat "%" (l ++ [""%string])) = concat ((λ p, p ++ [char_pct]) <$> (chars <$> l))) as H.
  { clear l. induction l as [|x l IH]; [done|]. cbn [app fmap list_fmap concat]. rewrite <- IH.
    destruct (l ++ [""%string]) as [|y l'] eqn:E; [by destruct l|]. cbn [String.concat]. rewrite !chars_app. by rewrite <- app_assoc. }
  rewrite <- H. destruct (l ++ [""%string]) eqn:E; [by destruct l|]. cbn [String.concat]. rewrite !chars_app. done.
Qed.

Lemma mask_chars mode w :
  plain w = true → mode ≠ DbPrefix → chars (token_mask mode "%" (QMatch w false)) = weave char_pct (word_pieces mode w).
Proof.
  intros Hw Hm. destruct mode; [done|..]; cbn [token_mask word_pieces].
  - rewrite decide_True by done. rewrite !chars_app. unfold weave. cbn. by rewrite app_nil_r.
  - rewrite decide_False by done. unfold join_with. rewrite chars_join, str_chars_plain by done. rewrite <- list_fmap_compose. done.
Qed.

Lemma plain_absent z w : plain w = true → z ∈ [33; 36; 37; 39; 42; 63; 91; 94; 95; 124; 32] → byte z ∉ chars w.
Proof. intros (Hw & _)%plain_spec Hz Hin. rewrite Forall_forall in Hw. by apply Hw, plain_char_not with (z := z) in Hin. Qed.

Lemma pieces_absent z mode w :
  plain w = true → z ∈ [33; 36; 37; 39; 42; 63; 91; 94; 95; 124; 32] → Forall (λ p, byte z ∉ p) (word_pieces mode w).
Proof.
  intros Hw Hz. pose proof (plain_absent z w Hw Hz) as Hn. destruct mode; cbn [word_pieces]; [by constructor|by constructor|].
  rewrite Forall_fmap. apply Forall_forall. intros c Hc E%list_elem_of_singleton. cbn in E. congruence.
Qed.

Lemma weave_absent any c ps : c ≠ any → Forall (λ p, c ∉ p) ps → c ∉ weave any ps.
Proof.
  intros Hc Hp. unfold weave. apply not_elem_of_cons. split; [done|]. induction Hp as [|p ps Hp Hps IH]; [apply not_elem_of_nil|].
  cbn. rewrite !not_elem_of_app. split; [split; [done|]|done]. by intros ?%list_elem_of_singleton.
Qed.

Section meaning.
Context `{SqlTextLaws, CharCaseLaws}.

Lemma word_holds mode w command :
  plain w = true → mode ≠ DbPrefix →
  command_holds (CFuzzy (token_mask mode "%" (QMatch w false)) false false) command = true ↔
  pieces_in ascii_lower (word_pieces mode w) (chars command).
Proof.
  intros Hw Hm. cbn [command_holds]. rewrite xorb_false_l, like_percent.
  - rewrite mask_chars by done. apply wild_pieces. apply (pieces_absent 37); [done|set_solver].
  - unfold contains_char. rewrite mask_chars by done. apply bool_decide_eq_false, weave_absent; [done|].
    apply pieces_absent; [done|set_solver].
Qed.

Lemma token_conditions_plain mode ws :
  Forall (λ w, plain w = true) ws →
  token_conditions mode false ((λ w, QMatch w false) <$> ws) =
  ((λ w, And_ (CFuzzy (token_mask mode "%" (QMatch w false)) false false)) <$> ws, []).
Proof.
  induction 1 as [|w ws Hw Hws IH]; [done|]. rewrite !fmap_cons. cbn [token_conditions]. rewrite plain_lowercase by done. cbn [is_inverse].
  by rewrite IH.
Qed.

Lemma clauses_and {C} (cs : list C) (w : list (list C)) : foldl add_clause w (And_ <$> cs) = w ++ ((λ c, [c]) <$> cs).
Proof. revert w. induction cs as [|c cs IH]; intros w; cbn; [by rewrite app_nil_r|]. rewrite IH, <- app_assoc. done. Qed.

(** The words of a query are found: a command satisfies the conditions of a query of plain words if
    and only if it has every word in it, whatever the case of its ASCII letters; in fuzzy mode it has
    the letters of every word in their order. *)
Theorem query_words_found `{SqlBuilderLaws} mode ws command :
  Forall (λ w, plain w = true) ws → mode ≠ DbPrefix →
  where_holds (command_conditions mode (String.concat " " ws)) (λ c, command_holds c command) = true ↔
  ∀ w, w ∈ ws → pieces_in ascii_lower (word_pieces mode w) (chars command).
Proof.
  intros Hw Hm. assert (command_conditions mode (String.concat " " ws) =
    And_ <$> ((λ w, CFuzzy (token_mask mode "%" (QMatch w false)) false false) <$> ws)) as ->.
  { unfold command_conditions. rewrite query_tokens_plain, token_conditions_plain by done. cbn [fmap list_fmap]. rewrite app_nil_r, <- list_fmap_compose.
    by destruct mode. }
  rewrite where_clauses. unfold clauses. rewrite clauses_and. cbn [app]. rewrite forallb_forall. setoid_rewrite <- list_elem_of_In.
  rewrite Forall_forall in Hw. split.
  - intros Hf w Hin. apply (word_holds mode w command); auto. specialize (Hf [CFuzzy (token_mask mode "%" (QMatch w false)) false false]).
    cbn [existsb] in Hf. rewrite orb_false_r in Hf. apply Hf. apply list_elem_of_fmap. eexists. split; [done|]. apply list_elem_of_fmap. eauto.
  - intros Hp l (c & -> & (w & -> & Hin)%list_elem_of_fmap)%list_elem_of_fmap. cbn [existsb]. rewrite orb_false_r. apply word_holds; auto.
Qed.
End meaning.
