(* ===== verification/HistorySearch.v ===== *)
(** * Queries of the history database ([atuin-client/src/database.rs])

    The rows of the history table with their nullable columns, and the queries over them: a table is the
    list of its rows, a query the rows that it selects. The order of rows with equal keys, which SQL
    leaves open, is that of the table. Session ids carry a time that the [uuid] crate reads, dates are
    read by [interim]; both are parameters, as is the lower case of other letters than those of
    ASCII. *)
From S2P Require Import Prelude Text Interactive Filter History SearchQuery.

(** ** Rows *)

Record Row : Type := mk_row {
  w_id : string; w_timestamp : Z; w_duration : Z; w_exit : Z; w_command : string; w_cwd : string; w_session : string;
  w_hostname : string; w_author : option string; w_intent : option string; w_deleted_at : option Z; w_shell : option string;
  w_author_kind : option Z
}.
#[export] Instance Row_eq_dec : EqDecision Row.
Proof. solve_decision. Defined.

(** [Option::filter] with a text that is not blank. *)
Definition not_blank (s : option string) : option string := s ← s; if decide (trim s = "") then None else Some s.

(** [FromRow for History] *)
Definition from_row (r : Row) : Entry :=
  let author := default (match Origin.try_from (w_hostname r) with Err e => e | Ok o => Origin.user o end) (not_blank (w_author r)) in
  mk_hist (w_id r) (w_timestamp r) (w_duration r) (w_exit r) (w_command r) (w_cwd r) (w_session r) (Origin.parse_lenient (w_hostname r))
    author (not_blank (w_intent r)) (w_deleted_at r) (w_shell r)
    (k ← w_author_kind r; if (0 <=? k) && (k <? 256) then kind_from_repr k else None).

(** What [save_raw] binds; times as [i64]. *)
Definition to_row (h : Entry) : Row :=
  mk_row (h_id h) (u64_as_i64 (i64_as_u64 (h_timestamp h))) (h_duration h) (h_exit h) (h_command h) (h_cwd h) (h_session h) (o_raw (h_origin h))
    (Some (h_author h)) (h_intent h) ((λ t, u64_as_i64 (i64_as_u64 t)) <$> h_deleted_at h) (h_shell h) (kind_as_u8 <$> h_author_kind h).

(** ** Context and options *)

Record Context_ : Type := mk_context {
  c_session : string; c_cwd : string; c_origin : CmdOrigin; c_git_root : option (option string)
}.

Record OptFilters : Type := mk_opts {
  o_exit : option Z; o_exclude_exit : option Z; o_only_failed : bool; o_cwd : option string; o_exclude_cwd : option string;
  o_before : option string; o_after : option string; o_limit : option Z; o_offset : option Z; o_reverse : bool;
  o_include_duplicates : bool; o_authors : OrFilter AuthorPattern; o_shells : OrFilter string
}.

Class SearchLib : Type := {
  uuid_time : string → option (Z * Z);
  parse_date_string : string → option Z;
  lowercase : string → string
}.

Section search.
Context `{SearchLib, SqlText, CharCase, SqlBuilder}.

(** [get_session_start_time] *)
Definition get_session_start_time (session : string) : option Z :=
  '(seconds, nanos) ← uuid_time session;
  if (i64_limit <=? seconds) then None
  else if (seconds * 1000000000 <? - i64_limit) || (i64_limit <=? seconds * 1000000000) then None
  else let t := seconds * 1000000000 + nanos in if i64_limit <=? t then None else Some t.

(** ** Conditions on a row *)

Inductive Cond : Type :=
| COrigin (host : string) | CSession (s : string) | CTimeLt (t : Z) | CTimeGt (t : Z) | CTimeGe (t : Z) | CTimeLe (t : Z) | CCwd (s : string) | CCwdNot (s : string)
| CCwdLeft (mask : string) | CCommand (c : CommandCond) | CExit (z : Z) | CExitNot (z : Z) | CFailed
| CAuthors (l : list AuthorPattern) | CShells (shells : list string) (null : bool) | CAlive.

(** SQL's [lower], [trim], [instr] and [substr] as they are used. *)
Definition sql_lower (s : string) : string := unchars (ascii_lower <$> chars s).
Definition spaces_only (s : string) : bool := forallb (λ c, bool_decide (c = space)) (chars s).

Definition user_expr (hostname : string) : string :=
  match Origin.find_l Origin.colon (chars hostname) with
  | Some i => unchars (drop (S i) (chars hostname))
  | None => hostname
  end.

Definition author_expr (r : Row) : string :=
  match w_author r with
  | None => user_expr (w_hostname r)
  | Some a => if spaces_only a then user_expr (w_hostname r) else a
  end.

Definition defaulted_expr (hostname : string) : string :=
  match Origin.find_l Origin.colon (chars hostname) with
  | None => hostname
  | Some i => if decide (unchars (drop (S i) (chars hostname)) = UNKNOWN_USER) then unchars (take i (chars hostname))
              else unchars (drop (S i) (chars hostname))
  end.

(** The [CASE] expression of [is_agent]. *)
Definition is_agent_expr (r : Row) : bool :=
  if bool_decide (w_author_kind r ∈ [Some 1; Some 2]) then bool_decide (w_author_kind r = Some 2)
  else match w_author r with
       | None => false
       | Some a => if spaces_only a then false
                   else is_known_agent a && negb (bool_decide (a = defaulted_expr (w_hostname r)))
       end.

Definition author_cond (r : Row) (p : AuthorPattern) : bool :=
  match p with
  | AllUser => negb (is_agent_expr r)
  | AllAgent => is_agent_expr r
  | AuthorName name => bool_decide (author_expr r = name)
  end.

(** The value of a condition; that of the shells is [NULL], and so not true, on a row without one. *)
Definition cond_holds (r : Row) (c : Cond) : bool :=
  match c with
  | COrigin host =>
      let h := sql_lower (w_hostname r) in
      bool_decide (h = host) ||
      (bool_decide (String.compare h (host +:+ ":") ≠ Lt) && bool_decide (String.compare h (host +:+ ";") = Lt))
  | CSession s => bool_decide (w_session r = s)
  | CTimeLt t => w_timestamp r <? t
  | CTimeGt t => t <? w_timestamp r
  | CTimeGe t => t <=? w_timestamp r
  | CTimeLe t => w_timestamp r <=? t
  | CCwd s => bool_decide (w_cwd r = s)
  | CCwdNot s => negb (bool_decide (w_cwd r = s))
  | CCwdLeft mask => like (mask +:+ "%") (w_cwd r)
  | CCommand c => command_holds c (w_command r)
  | CExit z => w_exit r =? z
  | CExitNot z => negb (w_exit r =? z)
  | CFailed => negb (w_exit r =? 0) && negb (w_exit r =? -1)
  | CAuthors l => existsb (author_cond r) l
  | CShells shells null => match w_shell r with Some s => bool_decide (s ∈ shells) | None => null end
  | CAlive => bool_decide (w_deleted_at r = None)
  end.

(** [origin_sql_filter], [apply_author_filter], [apply_shell_filter] *)
Definition origin_sql_filter (o : CmdOrigin) : Cond := COrigin (lowercase (Origin.host o)).
Definition apply_author_filter (f : OrFilter AuthorPattern) : list (WOp Cond) :=
  match Filter.items f with ItemsAll => [] | ItemsSome l => [And_ (CAuthors l)] end.
Definition apply_shell_filter (f : OrFilter string) : list (WOp Cond) :=
  match Filter.items f with
  | ItemsAll => []
  | ItemsSome l => [And_ (CShells (filter (λ s, s ≠ ""%string) l) (bool_decide (""%string ∈ l)))]
  end.

Definition git_root (ctx : Context_) : string :=
  match c_git_root ctx with Some g => default "/" g | None => c_cwd ctx end.

(** The [match] on a filter mode in [search] and [list]. *)
Definition mode_ops (ctx : Context_) (f : FilterMode) : list (WOp Cond) :=
  match f with
  | FGlobal => []
  | FHost => [And_ (origin_sql_filter (c_origin ctx))]
  | FSession => [And_ (CSession (c_session ctx))]
  | FSessionPreload =>
      And_ (CSession (c_session ctx)) ::
      match get_session_start_time (c_session ctx) with Some t => [Or_ (CTimeLt t)] | None => [] end
  | FDirectory => [And_ (CCwd (c_cwd ctx))]
  | FWorkspace => [And_ (CCwdLeft (git_root ctx))]
  end.

Definition wop_map {C D} (f : C → D) (op : WOp C) : WOp D := match op with And_ c => And_ (f c) | Or_ c => Or_ (f c) end.
Definition opt_op {A} (o : option A) (f : A → Cond) : list (WOp Cond) := match o with Some a => [And_ (f a)] | None => [] end.

(** The [WHERE] of the inner query of [search]; an unreadable date is an error. *)
Definition search_ops (mode : DbSearchMode) (filter : FilterMode) (ctx : Context_) (query : string) (o : OptFilters)
    : result (list (WOp Cond)) string :=
  let? before := match o_before o with None => Ok [] | Some s => match parse_date_string s with Some t => Ok [And_ (CTimeLt t)] | None => Err s end end in
  let? after := match o_after o with None => Ok [] | Some s => match parse_date_string s with Some t => Ok [And_ (CTimeGt t)] | None => Err s end end in
  Ok (mode_ops ctx filter ++ (wop_map CCommand <$> command_conditions mode query)
      ++ opt_op (o_exit o) CExit ++ opt_op (o_exclude_exit o) CExitNot ++ (if o_only_failed o then [And_ CFailed] else [])
      ++ opt_op (o_cwd o) CCwd ++ opt_op (o_exclude_cwd o) CCwdNot ++ before ++ after
      ++ apply_author_filter (o_authors o) ++ apply_shell_filter (o_shells o) ++ [And_ CAlive]).

(** ** Queries *)

Definition select (ops : list (WOp Cond)) (db : list Row) : list Row := filter (λ r, where_holds ops (cond_holds r) = true) db.

Definition sort_desc (db : list Row) : list Row := sort_by_key (λ r, - w_timestamp r) db.
Definition sort_asc (db : list Row) : list Row := sort_by_key w_timestamp db.

(** The row values compared by [(f2.timestamp, f2.id) > (f.timestamp, f.id)]. *)
Definition newer (r r' : Row) : Prop := cmp (w_timestamp r', w_id r') (w_timestamp r, w_id r) = Lt.
#[export] Instance newer_dec r r' : Decision (newer r r').
Proof. unfold newer. apply _. Defined.

(** The outer query of [search]: for every command the newest of the selected rows. *)
Definition dedup (f : list Row) : list Row := filter (λ r, ¬ Exists (λ r', w_command r' = w_command r ∧ newer r' r) f) f.

(** [LIMIT] and [OFFSET]. *)
Definition page (limit offset : option Z) (l : list Row) : list Row :=
  match limit, offset with
  | Some n, Some k => sql_limit n (drop (Z.to_nat k) l)
  | Some n, None => sql_limit n l
  | None, Some k => drop (Z.to_nat k) l
  | None, None => l
  end.

Context (span : list string → list string → option (Z * Z)).

(** [search] *)
Definition search (mode : DbSearchMode) (filter : FilterMode) (ctx : Context_) (query : string) (o : OptFilters) (db : list Row)
    : result (list Row) string :=
  let? ops := search_ops mode filter ctx query o in
  let f := select ops db in
  let f := if o_include_duplicates o then f else dedup f in
  let f := if o_reverse o then sort_asc f else sort_desc f in
  Ok (reorder_fuzzy span mode (reorder_query query) w_command (page (o_limit o) (o_offset o) f)).

(** [load], [load_active] *)
Definition load (id : string) (db : list Row) : option Row := List.find (λ r, bool_decide (w_id r = id)) db.

Definition LOAD_CHUNK : nat := 500.
Fixpoint load_active (fuel : nat) (ids : list string) (db : list Row) : list Row :=
  match fuel, ids with
  | S fuel, _ :: _ =>
      filter (λ r, w_id r ∈ take LOAD_CHUNK ids ∧ w_deleted_at r = None) db ++ load_active fuel (drop LOAD_CHUNK ids) db
  | _, _ => []
  end.

(** [update]: every column but the shell. *)
Definition update (h : Entry) (db : list Row) : list Row :=
  (λ r, if decide (w_id r = h_id h)
        then let n := to_row h in mk_row (w_id r) (w_timestamp n) (w_duration n) (w_exit n) (w_command n) (w_cwd n) (w_session n)
               (w_hostname n) (w_author n) (w_intent n) (w_deleted_at n) (w_shell r) (w_author_kind n)
        else r) <$> db.

(** [GROUP BY] some columns [HAVING max(timestamp)]: of every group the first row of the greatest time,
    where that time is not zero. *)
Fixpoint group_newest {K} `{EqDecision K} (key : Row → K) (all before rs : list Row) : list Row :=
  match rs with
  | [] => []
  | r :: rs =>
      (if decide (¬ Exists (λ r', key r' = key r ∧ w_timestamp r < w_timestamp r') all ∧
                  ¬ Exists (λ r', key r' = key r ∧ w_timestamp r' = w_timestamp r) before ∧ w_timestamp r ≠ 0)
       then [r] else []) ++ group_newest key all (before ++ [r]) rs
  end.

(** [list] *)
Definition list_history (filters : list FilterMode) (ctx : Context_) (max : option nat) (unique include_deleted : bool)
    (range : option (Z * Z)) (db : list Row) : list Row :=
  let ops := (if include_deleted then [] else [And_ CAlive]) ++ concat (mode_ops ctx <$> filters)
             ++ match range with Some (from, to) => [And_ (CTimeGe from); And_ (CTimeLe to)] | None => [] end in
  let rows := select ops db in
  let rows := if unique then group_newest w_command rows [] rows else rows in
  let rows := sort_desc rows in
  match max with Some n => take n rows | None => rows end.

(** [range], [last], [before], [history_count] *)
Definition range (from to : Z) (db : list Row) : list Row := sort_asc (filter (λ r, from ≤ w_timestamp r ∧ w_timestamp r ≤ to) db).
Definition last_finished (db : list Row) : option Row := head (sort_desc (filter (λ r, 0 ≤ w_duration r) db)).
Definition before (timestamp count : Z) (db : list Row) : list Row :=
  sql_limit count (sort_desc (filter (λ r, w_timestamp r < timestamp) db)).
Definition history_count (include_deleted : bool) (db : list Row) : nat :=
  length (if include_deleted then db else filter (λ r, w_deleted_at r = None) db).

(** [get_dups]: the rows after the [dupkeep] newest of their command, directory and origin. *)
Definition dup_key (r : Row) : string * string * string := (w_command r, w_cwd r, w_hostname r).
Fixpoint row_numbers (seen rs : list Row) : list (nat * Row) :=
  match rs with
  | [] => []
  | r :: rs => (S (length (filter (λ r', dup_key r' = dup_key r) seen)), r) :: row_numbers (r :: seen) rs
  end.
Definition get_dups (before dupkeep : Z) (db : list Row) : list Row :=
  snd <$> filter (λ p, dupkeep < Z.of_nat p.1 ∧ w_timestamp p.2 < before) (row_numbers [] (sort_desc db)).

(** The parts of [stats] that compare rows: the neighbours in the session and the total. *)
Definition previous (h : Entry) (db : list Row) : option Row :=
  head (sort_desc (filter (λ r, w_timestamp r < h_timestamp h ∧ w_session r = h_session h ∧ w_deleted_at r = None) db)).
Definition next_in_session (h : Entry) (db : list Row) : option Row :=
  head (sort_asc (filter (λ r, h_timestamp h < w_timestamp r ∧ w_session r = h_session h ∧ w_deleted_at r = None) db)).
Definition total (h : Entry) (db : list Row) : nat := length (filter (λ r, w_command r = h_command h) db).

(** ** Pages *)

(** [Paged]: all rows from the greatest id down. *)
Record Paged : Type := mk_paged { page_size : nat; last_id : option string; pg_deleted : bool; pg_unique : bool }.
Definition page_key (r : Row) : string * string * string * string := (w_command r, w_cwd r, w_hostname r, w_session r).

Definition sort_id_desc (rs : list Row) : list Row := reverse (sort_by_key w_id rs).

Definition page_row (p : Paged) (r : Row) : bool :=
  (pg_deleted p || bool_decide (w_deleted_at r = None)) &&
  match last_id p with Some i => bool_decide (cmp (w_id r) i = Lt) | None => true end.

(** [Paged::next] *)
Definition paged_next (p : Paged) (db : list Row) : Paged * option (list Row) :=
  let rows := filter (λ r, page_row p r = true) db in
  let rows := if pg_unique p then group_newest page_key rows [] rows else rows in
  let res := take (page_size p) (sort_id_desc rows) in
  match last res with
  | None => (p, None)
  | Some r => (mk_paged (page_size p) (Some (w_id r)) (pg_deleted p) (pg_unique p), Some res)
  end.

(** The pages until the first that is empty. *)
Fixpoint pages (fuel : nat) (p : Paged) (db : list Row) : list (list Row) :=
  match fuel with
  | O => []
  | S fuel => match paged_next p db with (p, Some rows) => rows :: pages fuel p db | (_, None) => [] end
  end.
End search.

(** ** The newest row of every command *)

Section newest.

Lemma newer_irrefl r : ¬ newer r r.
Proof. unfold newer. by rewrite cmp_refl. Qed.

Lemma not_newer_trans x y z : ¬ newer x y → ¬ newer y z → ¬ newer x z.
Proof.
  unfold newer. intros Hxy Hyz Hxz.
  assert (leb (w_timestamp x, w_id x) (w_timestamp y, w_id y) = true) as H1.
  { unfold leb. rewrite (cmp_opp (w_timestamp y, w_id y)). destruct (cmp (w_timestamp y, w_id y) (w_timestamp x, w_id x)); done. }
  assert (leb (w_timestamp y, w_id y) (w_timestamp z, w_id z) = true) as H2.
  { unfold leb. rewrite (cmp_opp (w_timestamp z, w_id z)). destruct (cmp (w_timestamp z, w_id z) (w_timestamp y, w_id y)); done. }
  pose proof (leb_trans _ _ _ H1 H2) as H3. unfold leb in H3. rewrite (cmp_opp (w_timestamp z, w_id z)), Hxz in H3. done.
Qed.

Lemma not_newer_both x y : ¬ newer x y → ¬ newer y x → w_timestamp x = w_timestamp y ∧ w_id x = w_id y.
Proof.
  unfold newer. intros Hxy Hyx. rewrite (cmp_opp (w_timestamp y, w_id y)) in Hyx.
  destruct (cmp (w_timestamp y, w_id y) (w_timestamp x, w_id x)) eqn:E; try done. apply cmp_eq_iff in E. by injection E as -> ->.
Qed.

Lemma not_newer_time x y : ¬ newer x y → w_timestamp x ≤ w_timestamp y.
Proof.
  unfold newer, cmp, ord_prod, cmp, ord_Z. cbn [fst snd]. intros Hn. destruct (Z.compare_spec (w_timestamp y) (w_timestamp x)); try lia. by destruct Hn.
Qed.

Lemma newest_exists (l : list Row) x : x ∈ l → ∃ m, m ∈ l ∧ ∀ y, y ∈ l → ¬ newer y m.
Proof.
  revert x. induction l as [|a l IH]; intros x Hx; [by apply not_elem_of_nil in Hx|]. destruct l as [|b l].
  { exists a. split; [left|]. intros y ->%list_elem_of_singleton. apply newer_irrefl. }
  destruct (IH b ltac:(left)) as (m & Hm & Hmax). destruct (decide (newer a m)) as [Ha|Ha].
  - exists a. split; [left|]. intros y [->|Hy]%elem_of_cons; [apply newer_irrefl|].
    apply (not_newer_trans _ m); [by apply Hmax|]. unfold newer in *. rewrite (cmp_opp (w_timestamp m, w_id m)), Ha. done.
  - exists m. split; [by right|]. intros y [->|Hy]%elem_of_cons; [done|by apply Hmax].
Qed.

Lemma elem_of_newest f r : r ∈ dedup f ↔ r ∈ f ∧ ∀ r', r' ∈ f → w_command r' = w_command r → ¬ newer r' r.
Proof.
  unfold dedup. rewrite list_elem_of_filter, Exists_exists. split.
  - intros [Hn Hr]. split; [done|]. intros r' Hr' Hc Hnew. apply Hn. eauto.
  - intros [Hr Hn]. split; [|done]. intros (r' & Hr' & Hc & Hnew). by apply (Hn r').
Qed.

Lemma dedup_represents f r : r ∈ f → ∃ r', r' ∈ dedup f ∧ w_command r' = w_command r ∧ w_timestamp r ≤ w_timestamp r'.
Proof.
  intros Hr. destruct (newest_exists (filter (λ x, w_command x = w_command r) f) r) as (m & [Hc Hm]%list_elem_of_filter & Hmax); [by apply list_elem_of_filter|].
  exists m. split_and!; [|done|by apply not_newer_time, Hmax, list_elem_of_filter]. apply elem_of_newest. split; [done|].
  intros r' Hr' Hc'. apply Hmax, list_elem_of_filter. split; [congruence|done].
Qed.

Lemma dedup_NoDup f : NoDup (w_id <$> f) → NoDup (w_command <$> dedup f).
Proof.
  intros Hn. apply NoDup_fmap_2_strong.
  - intros x y [Hx Hx']%elem_of_newest [Hy Hy']%elem_of_newest Hc. destruct (not_newer_both x y) as [_ Hid]; [by apply Hy'|by apply Hx'|].
    by apply (NoDup_fmap_eq w_id f).
  - unfold dedup. by apply NoDup_filter, (NoDup_fmap_1 w_id).
Qed.
End newest.

(** ** What a search finds *)

Definition no_opts : OptFilters :=
  mk_opts None None false None None None None None None false false Filter.all Filter.all.

Section found.
Context `{SearchLib, SqlTextLaws, CharCaseLaws, SqlBuilderLaws}.

(** What the conditions of a filter mode say of a row. *)
Definition mode_holds (ctx : Context_) (f : FilterMode) (r : Row) : bool :=
  match f with
  | FGlobal => true
  | FHost => cond_holds r (origin_sql_filter (c_origin ctx))
  | FSession => bool_decide (w_session r = c_session ctx)
  | FSessionPreload =>
      bool_decide (w_session r = c_session ctx) ||
      match get_session_start_time (c_session ctx) with Some t => w_timestamp r <? t | None => false end
  | FDirectory => bool_decide (w_cwd r = c_cwd ctx)
  | FWorkspace => like (git_root ctx +:+ "%") (w_cwd r)
  end.

Lemma mode_clauses ctx f r : forallb (existsb (cond_holds r)) (clauses (mode_ops ctx f)) = mode_holds ctx f r.
Proof.
  destruct f; cbn [mode_ops mode_holds]; try (unfold clauses; cbn [foldl add_clause app forallb existsb]; by rewrite orb_false_r, andb_true_r).
  - done.
  - destruct (get_session_start_time _); unfold clauses; cbn [foldl add_clause app reverse rev_append forallb existsb];
      by rewrite !orb_false_r, andb_true_r.
Qed.

(** Conditions that are all added with [and_where]. *)
Lemma and_clauses {C} (ops : list (WOp C)) (cs : list C) ev :
  forallb (existsb ev) (clauses (ops ++ (And_ <$> cs))) = forallb (existsb ev) (clauses ops) && forallb ev cs.
Proof.
  unfold clauses. rewrite foldl_app, clauses_and, forallb_app. f_equal. induction cs as [|c cs IH]; [done|]. cbn. rewrite orb_false_r. by f_equal.
Qed.

(** The conditions of the words, one after the other. *)
Lemma command_conditions_plain mode ws :
  Forall (λ w, plain w = true) ws → mode ≠ DbPrefix →
  command_conditions mode (String.concat " " ws) = And_ <$> ((λ w, CFuzzy (token_mask mode "%" (QMatch w false)) false false) <$> ws).
Proof.
  intros Hw Hm. unfold command_conditions. rewrite query_tokens_plain, token_conditions_plain by done. cbn [fmap list_fmap].
  rewrite app_nil_r, <- list_fmap_compose. by destruct mode.
Qed.

(** A command that a query of plain words asks for: one that begins with the text of the query in prefix mode, one
    that has the pieces of every word otherwise, whatever the case of ASCII letters. *)
Definition begins_with (p s : list Ascii.ascii) : Prop := ∃ m b, s = m ++ b ∧ ascii_lower <$> m = ascii_lower <$> p.
Definition asked_for (mode : DbSearchMode) (ws : list string) (command : string) : Prop :=
  match mode with
  | DbPrefix => begins_with (chars (String.concat " " ws)) (chars command)
  | DbFullText | DbFuzzy => ∀ w, w ∈ ws → pieces_in ascii_lower (word_pieces mode w) (chars command)
  end.

Lemma like_left p s : byte 95 ∉ chars p → byte 37 ∉ chars p → like (p +:+ "%") s = true ↔ begins_with (chars p) (chars s).
Proof.
  intros Hu Hp. rewrite like_percent.
  - rewrite chars_app. apply (wild_prefix ascii_lower char_pct). done.
  - unfold contains_char. rewrite bool_decide_eq_false, chars_app, not_elem_of_app. split; [done|]. by intros ?%list_elem_of_singleton.
Qed.

Lemma query_absent z ws :
  Forall (λ w, plain w = true) ws → z ∈ [33; 36; 37; 39; 42; 63; 91; 94; 95; 124] → byte z ∉ chars (String.concat " " ws).
Proof.
  intros Hw Hz. assert (byte z ∉ chars " ") as Hs.
  { clear Hw. repeat (apply elem_of_cons in Hz as [->|Hz]; [apply (bool_decide_unpack _); by vm_compute|]). by apply not_elem_of_nil in Hz. }
  induction Hw as [|w ws Hw Hws IH]; [apply not_elem_of_nil|]. assert (byte z ∉ chars w) as Ha by (apply plain_absent; [done|set_solver]).
  destruct ws; [done|]. change (String.concat " " (w :: s :: ws)) with (w +:+ " " +:+ String.concat " " (s :: ws)).
  rewrite !chars_app, !not_elem_of_app. done.
Qed.

Lemma star_absent s : byte 42 ∉ chars s → star_to_percent s = s.
Proof.
  intros Ha. unfold star_to_percent. rewrite <- (unchars_chars s) at 2. f_equal. induction (chars s) as [|c l IH]; [done|].
  apply not_elem_of_cons in Ha as [Hc Hl]. cbn. rewrite decide_False by (intros ->; by apply Hc). by rewrite IH.
Qed.

(** The conditions on the command, which are all added with [and_where]. *)
Lemma command_conditions_hold mode ws :
  Forall (λ w, plain w = true) ws →
  ∃ cs, command_conditions mode (String.concat " " ws) = And_ <$> cs ∧
    ∀ command, forallb (λ c, command_holds c command) cs = true ↔ asked_for mode ws command.
Proof.
  intros Hw. destruct (decide (mode = DbPrefix)) as [->|Hm].
  - exists [CLikeLeft (String.concat " " ws)]. cbn [command_conditions]. rewrite star_absent by (apply query_absent; [done|set_solver]).
    split; [done|]. intros command. cbn [forallb command_holds asked_for]. rewrite andb_true_r. apply like_left; (apply query_absent; [done|set_solver]).
  - exists ((λ w, CFuzzy (token_mask mode "%" (QMatch w false)) false false) <$> ws). split; [by apply command_conditions_plain|].
    intros command. assert (asked_for mode ws command ↔ ∀ w, w ∈ ws → pieces_in ascii_lower (word_pieces mode w) (chars command)) as -> by (by destruct mode).
    rewrite forallb_forall. setoid_rewrite <- list_elem_of_In. rewrite Forall_forall in Hw. split.
    + intros Hf w Hin. apply (word_holds mode w); auto. refine (Hf (CFuzzy (token_mask mode "%" (QMatch w false)) false false) _).
      apply list_elem_of_fmap. by exists w.
    + intros Hp c (w & -> & Hin)%list_elem_of_fmap. cbn. apply word_holds; auto.
Qed.

Lemma plain_search_holds mode f ctx ws :
  Forall (λ w, plain w = true) ws →
  ∃ ops, search_ops mode f ctx (String.concat " " ws) no_opts = Ok ops ∧
    ∀ r, where_holds ops (cond_holds r) = true ↔
     mode_holds ctx f r = true ∧ w_deleted_at r = None ∧ asked_for mode ws (w_command r).
Proof.
  intros Hw. destruct (command_conditions_hold mode ws Hw) as (cs & Hcs & Hiff).
  exists (mode_ops ctx f ++ (And_ <$> ((CCommand <$> cs) ++ [CAlive]))). split.
  { unfold search_ops. cbn [no_opts o_before o_after o_exit o_exclude_exit o_only_failed o_cwd o_exclude_cwd rbind opt_op app].
    rewrite Hcs, fmap_app, <- !list_fmap_compose. done. }
  intros r. rewrite where_clauses, and_clauses, mode_clauses, forallb_app, !andb_true_iff. cbn [forallb cond_holds]. rewrite andb_true_r, bool_decide_eq_true.
  assert (forallb (cond_holds r) (CCommand <$> cs) = forallb (λ c, command_holds c (w_command r)) cs) as ->.
  { clear. induction cs as [|c cs IH]; [done|]. cbn. by rewrite IH. }
  rewrite Hiff. tauto.
Qed.

Lemma StronglySorted_weaken {A} (R S : A → A → Prop) l : (∀ x y, R x y → S x y) → StronglySorted R l → StronglySorted S l.
Proof. intros Hw. induction 1 as [|x l Hl IH Hx]; constructor; [done|]. eapply Forall_impl; [exact Hx|]. auto. Qed.

Lemma elem_of_sort_desc r l : r ∈ sort_desc l ↔ r ∈ l.
Proof. apply elem_of_sort_by. Qed.

Lemma reorder_perm span mode q (l : list Row) : reorder_fuzzy span mode q w_command l ≡ₚ l.
Proof. destruct mode; cbn; [done|done|]. apply sort_by_perm. Qed.
End found.

(** ** Authors *)

Definition pattern_matches (p : AuthorPattern) (h : Entry) : bool :=
  match p with
  | AllUser => negb (Entry.is_agent h)
  | AllAgent => Entry.is_agent h
  | AuthorName name => bool_decide (h_author h = name)
  end.

Lemma kind_column k :
  (k ← k; if (0 <=? k) && (k <? 256) then kind_from_repr k else None) =
  (if bool_decide (k = Some 2) then Some KindAgent else if bool_decide (k = Some 1) then Some KindUser else None).
Proof.
  destruct k as [k|]; [|done]. cbn. unfold kind_from_repr. destruct (Z.eqb_spec k 1) as [->|H1]; [done|].
  destruct (Z.eqb_spec k 2) as [->|H2]; [done|]. rewrite !bool_decide_false by congruence. by case_match.
Qed.

(** The name that an entry without an author falls back to. *)
Definition fallback_author (hostname : string) : string :=
  match Origin.try_from hostname with Err e => e | Ok o => Origin.user o end.

Lemma fallback_user_expr hostname : fallback_author hostname = user_expr hostname.
Proof.
  unfold fallback_author, Origin.try_from, user_expr, Origin.user. destruct (Origin.find_l Origin.colon (chars hostname)); done.
Qed.

Lemma defaulted_origin hostname :
  (if decide (Origin.user (Origin.parse_lenient hostname) = UNKNOWN_USER) then Origin.host (Origin.parse_lenient hostname)
   else Origin.user (Origin.parse_lenient hostname)) = defaulted_expr hostname.
Proof.
  unfold Origin.parse_lenient, defaulted_expr, Origin.user, Origin.host. destruct (Origin.find_l Origin.colon (chars hostname)) as [i|]; cbn [o_raw o_sep].
  - done.
  - unfold Origin.new. cbn [o_raw o_sep]. rewrite !chars_app. rewrite <- length_chars.
    replace (S (length (chars hostname))) with (length (chars hostname) + 1)%nat by lia.
    rewrite <- drop_drop, drop_app_length, take_app_length, unchars_chars. by rewrite decide_True.
Qed.

Lemma fallback_not_agent hostname :
  is_known_agent (fallback_author hostname) && negb (bool_decide (fallback_author hostname = defaulted_expr hostname)) = false.
Proof.
  rewrite fallback_user_expr. unfold user_expr, defaulted_expr. destruct (Origin.find_l Origin.colon (chars hostname)) as [i|].
  - case_decide as E; [by rewrite E|]. by rewrite bool_decide_true, andb_false_r.
  - by rewrite bool_decide_true, andb_false_r.
Qed.

Lemma spaces_blank a : spaces_only a = true → trim a = "".
Proof.
  unfold spaces_only. intros Ha. assert (∀ n l, forallb (λ c, bool_decide (c = space)) l = true → (length l ≤ n)%nat → strip_all n white_space l = []) as H.
  { induction n as [|n IH]; intros l Hl Hn; destruct l as [|c l]; try done; [cbn in Hn; lia|]. cbn [forallb] in Hl. apply andb_prop in Hl as [->%bool_decide_eq_true Hl].
    cbn [strip_all]. change (strip_any white_space (space :: l)) with (Some l). apply IH; [done|]. cbn in Hn. lia. }
  unfold trim, trim_start. rewrite H by (done || by rewrite length_chars). done.
Qed.

Lemma known_agent_not_blank a : is_known_agent a = true → trim a ≠ "".
Proof.
  unfold is_known_agent. rewrite bool_decide_eq_true. intros Ha.
  repeat (apply elem_of_cons in Ha as [->|Ha]; [by apply (bool_decide_unpack _); vm_compute|]). by apply not_elem_of_nil in Ha.
Qed.

Lemma is_agent_agrees r : is_agent_expr r = Entry.is_agent (from_row r).
Proof.
  unfold is_agent_expr, Entry.is_agent, from_row. cbn [h_author_kind h_author h_origin]. rewrite kind_column.
  destruct (bool_decide_reflect (w_author_kind r = Some 2)) as [->|H2]; [done|].
  destruct (bool_decide_reflect (w_author_kind r = Some 1)) as [->|H1]; [done|].
  rewrite bool_decide_false by (rewrite !elem_of_cons, elem_of_nil; naive_solver). cbv zeta. rewrite (defaulted_origin (w_hostname r)).
  fold (fallback_author (w_hostname r)). pose proof (fallback_not_agent (w_hostname r)) as Hf.
  destruct (w_author r) as [a|]; cbn [not_blank mbind option_bind default from_option]; [|by rewrite Hf].
  destruct (decide (trim a = "")) as [Ht|Ht]; cbn [default from_option].
  - rewrite Hf. destruct (spaces_only a); [done|]. destruct (is_known_agent a) eqn:Ek; [by apply known_agent_not_blank in Ek|done].
  - destruct (spaces_only a) eqn:Es; [by apply spaces_blank in Es|done].
Qed.

(** The SQL of the author filter selects the rows whose entries the filter means: the expression for an
    agent agrees with [History::is_agent] on every row, and a name with the author that the entry is read
    with, where the column is not blank in another way than with spaces. *)
Theorem author_filter_agrees r p :
  (∀ a, w_author r = Some a → trim a = "" → spaces_only a = true) → author_cond r p = pattern_matches p (from_row r).
Proof.
  intros Hb. destruct p as [| |name]; cbn [author_cond pattern_matches]; [by rewrite is_agent_agrees|by rewrite is_agent_agrees|].
  unfold author_expr, from_row. cbn [h_author]. fold (fallback_author (w_hostname r)). rewrite fallback_user_expr.
  destruct (w_author r) as [a|]; cbn [not_blank mbind option_bind]; [|done].
  destruct (decide (trim a = "")) as [Ht|Ht]; cbn [default from_option].
  - by rewrite (Hb a).
  - destruct (spaces_only a) eqn:Es; [by apply spaces_blank in Es|done].
Qed.

(** ** Hosts *)

Class LowercaseLaws `{SearchLib} : Prop := { lowercase_ascii s : is_ascii s = true → lowercase s = sql_lower s }.

Lemma ascii_compare_eq a b : Ascii.compare a b = Eq ↔ a = b.
Proof. split; [apply Ascii.compare_eq_iff|]. intros ->. unfold Ascii.compare. apply N.compare_refl. Qed.

Lemma string_compare_cons a b s t :
  String.compare (String a s) (String b t) = match Ascii.compare a b with Eq => String.compare s t | c => c end.
Proof. done. Qed.

Lemma compare_prefix_range (p h : list Ascii.ascii) :
  String.compare (unchars h) (unchars (p ++ [byte 58])) ≠ Lt ∧ String.compare (unchars h) (unchars (p ++ [byte 59])) = Lt ↔
  ∃ rest, h = p ++ byte 58 :: rest.
Proof.
  revert h. induction p as [|c p IH]; intros h.
  - cbn [app]. split.
    + intros [H1 H2]. destruct h as [|x h]; [done|]. change (unchars (x :: h)) with (String x (unchars h)) in *.
      change (unchars [?c]) with (String c "") in *. rewrite string_compare_cons in H1, H2. exists h. f_equal.
      unfold Ascii.compare in *. apply Ascii.compare_eq_iff. unfold Ascii.compare.
      change (Ascii.N_of_ascii (byte 58)) with 58%N in *. change (Ascii.N_of_ascii (byte 59)) with 59%N in *.
      destruct (N.compare_spec (Ascii.N_of_ascii x) 58), (N.compare_spec (Ascii.N_of_ascii x) 59); try done; try lia.
      by destruct (unchars h).
    + intros [rest ->]. split; [|done]. change (unchars (byte 58 :: rest)) with (String (byte 58) (unchars rest)).
      change (unchars [byte 58]) with (String (byte 58) ""). rewrite string_compare_cons, (proj2 (ascii_compare_eq _ _)) by done.
      by destruct (unchars rest).
  - destruct h as [|x h]; [split; [by intros [? _]|by intros [? ?]]|].
    change (unchars (x :: h)) with (String x (unchars h)). change (unchars ((c :: p) ++ ?l)) with (String c (unchars (p ++ l))).
    rewrite !string_compare_cons. destruct (Ascii.compare x c) eqn:E.
    + apply ascii_compare_eq in E as ->. rewrite IH. split; intros [rest E]; exists rest; [by rewrite E|by injection E].
    + split; [by intros [? _]|]. intros [rest [= -> _]]. by rewrite (proj2 (ascii_compare_eq c c)) in E.
    + split; [by intros [_ ?]|]. intros [rest [= -> _]]. by rewrite (proj2 (ascii_compare_eq c c)) in E.
Qed.

Lemma find_l_spec c l :
  match Origin.find_l c l with Some i => l = take i l ++ c :: drop (S i) l ∧ c ∉ take i l | None => c ∉ l end.
Proof.
  induction l as [|a l IH]; cbn; [apply not_elem_of_nil|]. case_decide as E; [subst; split; [by rewrite drop_0|apply not_elem_of_nil]|].
  destruct (Origin.find_l c l) as [i|]; cbn.
  - destruct IH as [IH1 IH2]. split; [by f_equal|]. apply not_elem_of_cons. split; [congruence|done].
  - apply not_elem_of_cons. split; [congruence|done].
Qed.

Lemma lower_colon c : ascii_lower c = Origin.colon → c = Origin.colon.
Proof.
  unfold ascii_lower. destruct (is_upper c) eqn:E; [|done]. unfold is_upper in E. intros H. exfalso. unfold byte in H.
  assert (Ascii.nat_of_ascii (Ascii.ascii_of_nat (Z.to_nat (code c + 32))) = Ascii.nat_of_ascii Origin.colon) as H' by (by rewrite H).
  rewrite Ascii.nat_ascii_embedding in H' by (unfold code in *; lia). change (Ascii.nat_of_ascii Origin.colon) with 58%nat in H'. unfold code in *. lia.
Qed.

Lemma lower_no_colon (l : list Ascii.ascii) : Origin.colon ∉ l → Origin.colon ∉ ascii_lower <$> l.
Proof. intros H (c & E & Hc)%list_elem_of_fmap. symmetry in E. apply lower_colon in E as ->. done. Qed.

Lemma lower_is_colon : ascii_lower Origin.colon = Origin.colon.
Proof. reflexivity. Qed.

Lemma colon_split (a b c d : list Ascii.ascii) :
  Origin.colon ∉ a → Origin.colon ∉ c → a ++ Origin.colon :: b = c ++ Origin.colon :: d → a = c.
Proof.
  revert c. induction a as [|x a IH]; intros [|y c]; cbn; rewrite ?not_elem_of_cons; try done.
  - intros _ [H _] E. exfalso. apply H. apply (f_equal head) in E. by apply Some_inj in E.
  - intros [H _] _ E. exfalso. apply H. apply (f_equal head) in E. by apply Some_inj in E.
  - intros [_ Ha] [_ Hc] E. assert (x = y) as -> by (apply (f_equal head) in E; by apply Some_inj in E). f_equal. apply IH; [done..|].
    by apply (f_equal tail) in E.
Qed.

(** The host filter selects the rows of the host of the context, ignoring the case of ASCII letters and
    whether the column names a user, an empty user or none. *)
Theorem host_filter_matches_host `{LowercaseLaws, SqlText} ctx r :
  is_ascii (Origin.host (c_origin ctx)) = true → Origin.colon ∉ chars (Origin.host (c_origin ctx)) →
  mode_holds ctx FHost r =
  bool_decide (sql_lower (Origin.host (Origin.parse_lenient (w_hostname r))) = sql_lower (Origin.host (c_origin ctx))).
Proof.
  intros Ha Hn. cbn [mode_holds cond_holds origin_sql_filter]. rewrite lowercase_ascii by done. set (host := Origin.host (c_origin ctx)) in *.
  unfold sql_lower. set (hc := ascii_lower <$> chars host). set (l := chars (w_hostname r)).
  assert (Origin.colon ∉ hc) as Hc by (by apply lower_no_colon).
  apply eq_true_iff_eq. rewrite orb_true_iff, andb_true_iff, !bool_decide_eq_true.
  assert (∀ x, (unchars hc +:+ unchars [x]) = unchars (hc ++ [x])) as Hu by (intros x; apply chars_inj; by rewrite chars_app, !chars_unchars).
  change ":" with (unchars [byte 58]). change ";" with (unchars [byte 59]). rewrite !Hu, compare_prefix_range.
  assert (∀ x y, unchars x = unchars y ↔ x = y) as Hinj by (intros x y; split; [intros E; by rewrite <- (chars_unchars x), E, chars_unchars|by intros ->]).
  unfold Origin.parse_lenient, Origin.host. fold l. pose proof (find_l_spec Origin.colon l) as Hf. destruct (Origin.find_l Origin.colon l) as [i|]; cbn [o_raw o_sep].
  - destruct Hf as [Hl Hi]. fold l. rewrite chars_unchars, !Hinj. split.
    + intros [E|[rest E]].
      * exfalso. apply Hc. rewrite <- E, Hl, fmap_app, fmap_cons, lower_is_colon. apply elem_of_app. right. left.
      * rewrite Hl, fmap_app, fmap_cons, lower_is_colon in E. by apply colon_split in E; [|apply lower_no_colon|].
    + intros E. right. exists (ascii_lower <$> drop (S i) l). rewrite Hl at 1. by rewrite fmap_app, fmap_cons, lower_is_colon, E.
  - unfold Origin.new. cbn [o_raw o_sep]. rewrite <- length_chars, !chars_app, take_app_length, chars_unchars, !Hinj. fold l. split; [|by left].
    intros [E|[rest E]]; [done|]. exfalso. apply (lower_no_colon l Hf). rewrite E. apply elem_of_app. right. left.
Qed.

(** ** The rows of a filter mode *)

Section scope.
Context `{SearchLib, SqlTextLaws, CharCaseLaws, SqlBuilderLaws, !LowercaseLaws}.

(** The rows that a filter mode is for. A workspace has the rows whose directory begins with the text of its root. *)
Definition in_scope (ctx : Context_) (f : FilterMode) (r : Row) : Prop :=
  match f with
  | FGlobal => True
  | FHost => sql_lower (Origin.host (Origin.parse_lenient (w_hostname r))) = sql_lower (Origin.host (c_origin ctx))
  | FSession => w_session r = c_session ctx
  | FSessionPreload => w_session r = c_session ctx ∨ ∃ t, get_session_start_time (c_session ctx) = Some t ∧ w_timestamp r < t
  | FDirectory => w_cwd r = c_cwd ctx
  | FWorkspace => begins_with (chars (git_root ctx)) (chars (w_cwd r))
  end.

(** A host in ASCII, and a root without the wildcards of [LIKE]. *)
Definition plain_context (ctx : Context_) (f : FilterMode) : Prop :=
  match f with
  | FHost => is_ascii (Origin.host (c_origin ctx)) = true ∧ Origin.colon ∉ chars (Origin.host (c_origin ctx))
  | FWorkspace => byte 95 ∉ chars (git_root ctx) ∧ byte 37 ∉ chars (git_root ctx)
  | _ => True
  end.

Lemma mode_holds_scope ctx f r : plain_context ctx f → mode_holds ctx f r = true ↔ in_scope ctx f r.
Proof.
  destruct f; cbn [plain_context in_scope]; intros Hc; rewrite ?host_filter_matches_host by apply Hc; cbn [mode_holds];
    rewrite ?orb_true_iff, ?bool_decide_eq_true; try done.
  - destruct Hc. by apply like_left.
  - destruct (get_session_start_time _) as [t|]; rewrite ?Z.ltb_lt; naive_solver.
Qed.

(** C17: a search for plain words returns, of every command that has a row in the scope of the filter mode that is
    not deleted and that the words ask for, exactly one row, the newest of them, and nothing else; without
    the fuzzy ranking the newest commands come first. In prefix mode the words ask for the commands that
    begin with their text, else for those that have every word in them, and in fuzzy mode the letters of every
    word in their order. The scope of a host is the rows of that name, with whatever user, and that of a
    workspace the rows whose directory begins with the text of its root, and so its neighbours too whose
    names continue that of the root. The words are without capitals and without the characters that the query
    language gives a meaning to ([plain]); a host that is filtered by is in ASCII and without a colon, and the root of a workspace
    has neither [_] nor [%]; no other option of the search is set. *)
Theorem search_finds_words span mode f ctx ws db :
  Forall (λ w, plain w = true) ws → plain_context ctx f → NoDup (w_id <$> db) →
  let found r := r ∈ db ∧ w_deleted_at r = None ∧ in_scope ctx f r ∧ asked_for mode ws (w_command r) in
  ∃ res, search span mode f ctx (String.concat " " ws) no_opts db = Ok res ∧
    NoDup (w_command <$> res) ∧
    (∀ r, r ∈ res → found r ∧ ∀ r', found r' → w_command r' = w_command r → ¬ newer r' r) ∧
    (∀ r, found r → ∃ r', r' ∈ res ∧ w_command r' = w_command r ∧ w_timestamp r ≤ w_timestamp r') ∧
    (mode ≠ DbFuzzy → StronglySorted (λ r r', w_timestamp r' ≤ w_timestamp r) res).
Proof.
  intros Hw Hc Hn found. destruct (plain_search_holds mode f ctx ws Hw) as (ops & Hops & Hiff).
  assert (∀ r, r ∈ select ops db ↔ found r) as Hsel.
  { intros r. unfold select. rewrite list_elem_of_filter, Hiff, mode_holds_scope by done. unfold found. tauto. }
  unfold search. rewrite Hops. cbn [rbind no_opts o_include_duplicates o_reverse o_limit o_offset page].
  eexists. split; [done|]. set (q := reorder_query _). set (d := dedup (select ops db)).
  pose proof (reorder_perm span mode q (sort_desc d)) as Hp. pose proof (sort_by_perm (λ x y, leb (- w_timestamp x) (- w_timestamp y)) d) as Hs.
  assert (∀ r, r ∈ reorder_fuzzy span mode q w_command (sort_desc d) ↔ r ∈ d) as Hin by (intros r; by rewrite Hp, elem_of_sort_desc).
  split_and!.
  - rewrite Hp. unfold sort_desc, sort_by_key. rewrite Hs. apply dedup_NoDup. by apply NoDup_fmap_filter.
  - intros r [Hr Hnew]%Hin%elem_of_newest. apply Hsel in Hr. split; [done|]. intros r' Hr' Hcm. apply Hnew; [by apply Hsel|done].
  - intros r Hr%Hsel. destruct (dedup_represents _ _ Hr) as (r' & Hr' & Hcm & Ht). exists r'. by rewrite Hin.
  - intros Hm. pose proof (sort_by_key_sorted (λ r, - w_timestamp r) d) as Hss.
    assert (StronglySorted (λ r r', w_timestamp r' ≤ w_timestamp r) (sort_desc d)) as Hd.
    { unfold sort_desc. eapply StronglySorted_weaken; [|exact Hss]. cbn. intros x y. rewrite leb_Z. lia. }
    by destruct mode.
Qed.
End scope.

(** ** Stored entries *)

Definition in_i64 (z : Z) : Prop := - i64_limit ≤ z < i64_limit.

Lemma i64_bits z : in_i64 z → u64_as_i64 (i64_as_u64 z) = z.
Proof.
  unfold in_i64, u64_as_i64, i64_as_u64. intros Hz. assert (u64_limit = 2 * i64_limit) as E by done. assert (0 < i64_limit) by done. rewrite E.
  destruct (decide (0 ≤ z)) as [H0|H0].
  - rewrite Z.mod_small by lia. by rewrite (proj2 (Z.ltb_lt _ _)) by lia.
  - rewrite <- (Z.mod_unique z (2 * i64_limit) (-1) (z + 2 * i64_limit)) by lia. rewrite (proj2 (Z.ltb_ge _ _)) by lia. lia.
Qed.

(** What the history code builds: times in range, an author and an intent that are not blank, an origin
    that is split at its first colon. *)
Record storable (h : Entry) : Prop := {
  st_time : in_i64 (h_timestamp h);
  st_deleted : from_option in_i64 True (h_deleted_at h);
  st_author : trim (h_author h) ≠ "";
  st_intent : from_option (λ i, trim i ≠ "") True (h_intent h);
  st_origin : Origin.find_l Origin.colon (chars (o_raw (h_origin h))) = Some (o_sep (h_origin h))
}.

(** An entry that is saved is read back from its row as it was. *)
Theorem stored_entry_reads_back h : storable h → from_row (to_row h) = h.
Proof.
  intros [H1 H2 H3 H4 H5]. destruct h as [id ts du ex cm cw se [raw sep] au it de sh ki].
  cbn [h_timestamp h_deleted_at h_author h_intent h_origin o_raw o_sep] in *. unfold from_row, to_row, Origin.parse_lenient.
  cbn [h_id h_timestamp h_duration h_exit h_command h_cwd h_session h_origin h_author h_intent h_deleted_at h_shell h_author_kind o_raw
    w_id w_timestamp w_duration w_exit w_command w_cwd w_session w_hostname w_author w_intent w_deleted_at w_shell w_author_kind].
  rewrite i64_bits, H5 by done. cbn [not_blank mbind option_bind]. rewrite decide_False by done. cbn [default]. f_equal.
  - destruct it as [i|]; [|done]. cbn in *. by rewrite decide_False.
  - destruct de as [t|]; [|done]. cbn in *. by rewrite i64_bits.
  - by destruct ki as [[]|].
Qed.

(** ** Pages *)

Section paged.
Definition rows_of (p : Paged) (db : list Row) : list Row := sort_by_key w_id (filter (λ r, page_row p r = true) db).

Definition id_before (r r' : Row) : Prop := cmp (w_id r) (w_id r') = Lt.
#[local] Instance id_before_dec r r' : Decision (id_before r r').
Proof. unfold id_before. apply _. Defined.

Lemma ascending_ids (rs : list Row) : NoDup (w_id <$> rs) → StronglySorted id_before (sort_by_key w_id rs).
Proof.
  intros Hn. assert (NoDup (w_id <$> sort_by_key w_id rs)) as Hd by (unfold sort_by_key; by rewrite sort_by_perm).
  pose proof (sort_by_key_sorted w_id rs) as Hs.
  induction Hs as [|r l Hl IH Hr]; constructor; rewrite fmap_cons, NoDup_cons in Hd; destruct Hd as [Hni Hd]; [by apply IH|].
  rewrite Forall_forall in Hr |- *. intros x Hx. specialize (Hr x Hx). unfold leb in Hr. unfold id_before.
  destruct (cmp (w_id r) (w_id x)) eqn:E; try done. apply cmp_eq_iff in E. destruct Hni. rewrite E. apply list_elem_of_fmap. eauto.
Qed.

Lemma rows_of_sorted p db : NoDup (w_id <$> db) → StronglySorted id_before (rows_of p db).
Proof. intros Hn. by apply ascending_ids, NoDup_fmap_filter. Qed.

Lemma filter_sorted_take (l : list Row) k r :
  StronglySorted id_before l → l !! k = Some r → filter (λ x, id_before x r) l = take k l.
Proof.
  intros Hs. revert k. induction Hs as [|x l Hl IH Hx]; intros k Hk; [done|]. rewrite Forall_forall in Hx.
  destruct k as [|k]; cbn in Hk.
  - injection Hk as ->. cbn [take]. rewrite filter_cons_False by (unfold id_before; by rewrite cmp_refl).
    apply elem_of_nil_inv. intros y [Hy Hin]%list_elem_of_filter. specialize (Hx y Hin). unfold id_before in *.
    rewrite (cmp_opp (w_id r)), Hx in Hy. done.
  - cbn [take]. rewrite filter_cons_True by (apply Hx; by eapply list_elem_of_lookup_2). f_equal. by apply IH.
Qed.

Lemma rows_of_next p db k r :
  NoDup (w_id <$> db) → rows_of p db !! k = Some r →
  rows_of (mk_paged (page_size p) (Some (w_id r)) (pg_deleted p) (pg_unique p)) db = take k (rows_of p db).
Proof.
  intros Hn Hk. pose proof (rows_of_sorted p db Hn) as Hs. rewrite <- (filter_sorted_take _ k r Hs Hk).
  assert (page_row p r = true) as Hr.
  { apply list_elem_of_lookup_2 in Hk. unfold rows_of, sort_by_key in Hk. rewrite elem_of_sort_by in Hk. by apply list_elem_of_filter in Hk as [? _]. }
  unfold rows_of at 1. set (f := filter _ db) at 1.
  assert (f = filter (λ x, id_before x r) (filter (λ x, page_row p x = true) db)) as ->.
  { unfold f. rewrite list_filter_filter. apply list_filter_iff. intros x. unfold page_row, id_before in *. cbn [pg_deleted last_id].
    rewrite !andb_true_iff in *. rewrite bool_decide_eq_true. split; [|tauto]. intros [H1 H2]. split_and!; try done.
    destruct (last_id p) as [i|]; [|done]. apply bool_decide_eq_true. eapply cmp_lt_trans; [done|].
    destruct Hr as [_ Hr]. by apply bool_decide_eq_true in Hr. }
  rewrite <- (sort_by_sorted_id (λ x y, leb (w_id x) (w_id y)) (filter _ (rows_of p db))).
  - apply sort_by_key_unique_on.
    + intros x y Hx Hy E. rewrite !list_elem_of_filter in Hx, Hy. destruct Hx as (_ & _ & Hx), Hy as (_ & _ & Hy).
      apply list_elem_of_lookup in Hx as [i Hi], Hy as [j Hj].
      assert (i = j) as -> by (eapply (NoDup_lookup (w_id <$> db)); [done|by rewrite list_lookup_fmap, Hi|rewrite list_lookup_fmap, Hj; cbn; by f_equal]).
      congruence.
    + unfold rows_of, sort_by_key. by rewrite sort_by_perm.
  - rewrite (filter_sorted_take _ k r Hs Hk).
    eapply StronglySorted_weaken with (R := id_before); [intros x y; unfold leb, id_before; by intros ->|].
    apply (StronglySorted_app_1_l id_before _ (drop k (rows_of p db))). by rewrite take_drop.
Qed.

(** Reading page after page without [unique] delivers every row that is wanted once, from the greatest
    id down, and ends. *)
Theorem pages_deliver_all p db fuel :
  pg_unique p = false → (0 < page_size p)%nat → NoDup (w_id <$> db) → (length db ≤ fuel)%nat →
  concat (pages fuel p db) = reverse (rows_of p db).
Proof.
  intros Hu Hp Hn Hf. assert (length (rows_of p db) ≤ fuel)%nat as Hl.
  { unfold rows_of, sort_by_key. rewrite length_sort_by. pose proof (length_filter (λ r, page_row p r = true) db). lia. }
  clear Hf. revert p Hu Hp Hl. induction fuel as [|fuel IH]; intros p Hu Hp Hl.
  { destruct (rows_of p db); [done|cbn in Hl; lia]. }
  cbn [pages]. unfold paged_next. rewrite Hu. unfold sort_id_desc. fold (rows_of p db).
  set (l := rows_of p db) in *. set (k := (length l - page_size p)%nat).
  rewrite <- (take_drop (page_size p) (reverse l)) at 2. rewrite take_reverse, drop_reverse. fold k. rewrite last_reverse.
  destruct (drop k l) as [|r rest] eqn:E; cbn [head].
  - assert (length (drop k l) = 0%nat) as El by (by rewrite E). rewrite length_drop in El.
    assert (length l = 0%nat) as El'%length_zero_iff_nil by lia. by rewrite El', take_nil.
  - assert (l !! k = Some r) as Hk by (by rewrite <- (Nat.add_0_r k), <- lookup_drop, E).
    pose proof (rows_of_next p db k r Hn Hk) as Hnext. fold l in Hnext. rewrite Hu in Hnext. cbn [concat]. f_equal. rewrite <- Hnext.
    apply IH; [done..|]. rewrite Hnext, length_take. assert (0 < length l)%nat by (destruct l; [by rewrite drop_nil in E|cbn; lia]). lia.
Qed.
End paged.

(** ** Duplicates *)

Section dups.

Lemma dups_of_key k before dupkeep seen rs :
  0 ≤ dupkeep →
  filter (λ r, dup_key r = k) (snd <$> filter (λ p : nat * Row, dupkeep < Z.of_nat p.1 ∧ w_timestamp p.2 < before) (row_numbers seen rs)) =
  filter (λ r, w_timestamp r < before)
    (drop (Z.to_nat dupkeep - length (filter (λ r, dup_key r = k) seen)) (filter (λ r, dup_key r = k) rs)).
Proof.
  intros Hd. revert seen. induction rs as [|r rs IH]; intros seen; [cbn; by destruct (_ - _)%nat|]. cbn [row_numbers].
  set (n := length (filter (λ r', dup_key r' = dup_key r) seen)).
  destruct (decide (dup_key r = k)) as [E|E].
  - rewrite (filter_cons_True _ r rs) by done. rewrite filter_cons. cbn [fst snd]. subst k. fold n.
    specialize (IH (r :: seen)). rewrite (filter_cons_True _ r seen) in IH by done. cbn [length] in IH. fold n in IH.
    destruct (decide (dupkeep < Z.of_nat (S n) ∧ w_timestamp r < before)) as [[H1 H2]|H].
    + rewrite fmap_cons, filter_cons_True by done. cbn [snd]. rewrite IH.
      replace (Z.to_nat dupkeep - S n)%nat with O by lia. replace (Z.to_nat dupkeep - n)%nat with O by lia.
      rewrite !drop_0. by rewrite filter_cons_True.
    + rewrite IH. destruct (decide (dupkeep < Z.of_nat (S n))) as [Hl|Hl].
      * replace (Z.to_nat dupkeep - S n)%nat with O by lia. replace (Z.to_nat dupkeep - n)%nat with O by lia.
        rewrite !drop_0, filter_cons_False; [done|]. intros ?. by apply H.
      * replace (Z.to_nat dupkeep - n)%nat with (S (Z.to_nat dupkeep - S n)) by lia. done.
  - rewrite (filter_cons_False _ r rs) by done. specialize (IH (r :: seen)). rewrite (filter_cons_False _ r seen) in IH by done.
    rewrite <- IH, filter_cons. cbn [fst snd]. destruct (decide _); [|done]. by rewrite fmap_cons, filter_cons_False.
Qed.

(** Of every command in a directory on a host, what [get_dups] names is all but the [dupkeep] newest
    runs, as far as they are older than the date given. *)
Theorem dups_spare_the_newest k before dupkeep db :
  0 ≤ dupkeep →
  filter (λ r, dup_key r = k) (get_dups before dupkeep db) =
  filter (λ r, w_timestamp r < before) (drop (Z.to_nat dupkeep) (filter (λ r, dup_key r = k) (sort_desc db))).
Proof. intros Hd. unfold get_dups. rewrite dups_of_key by done. by rewrite filter_nil, Nat.sub_0_r. Qed.
End dups.

(** ** Examples *)

Module Demo.
#[local] Instance demo_lib : SearchLib :=
  {| uuid_time s := if decide (s = "s1") then Some (100, 0) else None; parse_date_string _ := None; lowercase := sql_lower |}.
#[local] Instance demo_lowercase : LowercaseLaws.
Proof. done. Qed.
#[local] Instance demo_text : SqlText :=
  {| like p s := wild ascii_lower char_pct (chars p) (chars s); glob p s := wild id char_star (chars p) (chars s); regexp _ _ := true |}.
#[local] Instance demo_text_laws : SqlTextLaws.
Proof. done. Qed.
#[local] Instance demo_case : CharCase := λ s, existsb is_upper (chars s).
#[local] Instance demo_case_laws : CharCaseLaws.
Proof. constructor. intros c _. apply orb_false_r. Qed.
#[local] Instance demo_builder : SqlBuilder := λ C ops ev, forallb (existsb ev) (clauses ops).
#[local] Instance demo_builder_laws : SqlBuilderLaws.
Proof. done. Qed.

Definition row (id : string) (t : Z) (command cwd : string) : Row :=
  mk_row id t 1 0 command cwd "s1" "box:ellie" (Some "ellie") None None None None.
Definition table : list Row :=
  [row "1" 10 "cargo build" "/p"; row "2" 20 "cargo test" "/p"; row "3" 30 "ls" "/p2"; row "4" 40 "cargo build" "/p"].
Definition ctx : Context_ := mk_context "s1" "/p" (Origin.new "box" "ellie") (Some (Some "/p")).
Definition spans : list string → list string → option (Z * Z) := λ _ _, None.

Lemma table_ids : NoDup (w_id <$> table).
Proof. apply (bool_decide_unpack _). by vm_compute. Qed.

Lemma search_finds_words_witness :
  ∃ res, search spans DbPrefix FWorkspace ctx "cargo b" no_opts table = Ok res ∧
    (∃ r', r' ∈ res ∧ w_command r' = "cargo build" ∧ 10 ≤ w_timestamp r') ∧
    StronglySorted (λ r r', w_timestamp r' ≤ w_timestamp r) res.
Proof.
  destruct (search_finds_words spans DbPrefix FWorkspace ctx ["cargo"; "b"] table) as (res & H1 & _ & _ & H2 & H3).
  - by repeat constructor.
  - split; apply (bool_decide_unpack _); by vm_compute.
  - apply table_ids.
  - exists res. split_and!; [exact H1| |by apply H3]. apply (H2 (row "1" 10 "cargo build" "/p")). split_and!.
    + left.
    + reflexivity.
    + by exists (chars "/p"), [].
    + by exists (chars "cargo b"), (chars "uild").
Defined.

Lemma author_filter_agrees_witness :
  author_cond (mk_row "5" 50 1 0 "ls" "/p" "s1" "box:claude-code" (Some " ") None None None None) AllAgent = false.
Proof.
  rewrite (author_filter_agrees (mk_row "5" 50 1 0 "ls" "/p" "s1" "box:claude-code" (Some " ") None None None None) AllAgent).
  - vm_compute. reflexivity.
  - by intros a [= <-] _.
Defined.

Lemma host_filter_matches_host_witness :
  mode_holds ctx FHost (row "1" 10 "ls" "/p") = true.
Proof.
  rewrite (host_filter_matches_host ctx (row "1" 10 "ls" "/p")).
  - vm_compute. reflexivity.
  - reflexivity.
  - apply (bool_decide_unpack _). by vm_compute.
Defined.

Lemma stored_entry_reads_back_witness :
  let h := mk_hist "1" 10 5 0 "ls" "/p" "s1" (Origin.new "box" "ellie") "ellie" (Some "look") (Some 7) None (Some KindAgent) in
  from_row (to_row h) = h.
Proof. apply stored_entry_reads_back. constructor; done. Defined.

Lemma pages_deliver_all_witness :
  concat (pages 4 (mk_paged 3 None false false) table) = reverse table.
Proof.
  rewrite (pages_deliver_all (mk_paged 3 None false false) table 4).
  - vm_compute. reflexivity.
  - done.
  - cbn. lia.
  - apply table_ids.
  - cbn. lia.
Defined.

Lemma dups_spare_the_newest_witness :
  filter (λ r, dup_key r = ("cargo build", "/p", "box:ellie")) (get_dups 100 1 table) = [row "1" 10 "cargo build" "/p"].
Proof. rewrite (dups_spare_the_newest ("cargo build", "/p", "box:ellie") 100 1 table); [vm_compute; reflexivity|done]. Defined.

(** The clause of a [|] that comes first is an alternative to the filter mode. *)
Lemma leading_or_leaves_scope :
  search spans DbFullText FDirectory ctx "| ls" no_opts table =
    Ok [row "4" 40 "cargo build" "/p"; row "3" 30 "ls" "/p2"; row "2" 20 "cargo test" "/p"].
Proof. vm_compute. reflexivity. Qed.

(** The workspace [/p] takes in the directory [/p2] beside it. *)
Lemma workspace_takes_siblings :
  search spans DbFullText FWorkspace ctx "ls" no_opts table = Ok [row "3" 30 "ls" "/p2"].
Proof. vm_compute. reflexivity. Qed.

(** With [unique] a command comes again on a later page. *)
Lemma unique_pages_repeat :
  pages 9 (mk_paged 2 None false true) table =
    [[row "4" 40 "cargo build" "/p"; row "3" 30 "ls" "/p2"]; [row "2" 20 "cargo test" "/p"; row "1" 10 "cargo build" "/p"]].
Proof. vm_compute. reflexivity. Qed.
End Demo.
