(* ===== verification/HistoryStore.v ===== *)
(** * The history store and its database ([atuin-client/src/history/store.rs], the table of
      [atuin-client/src/database.rs])

    The history store appends creations and deletions to the log; the history database is the cache
    that searches read, filled by [build] from the whole log and by [incremental_build] from the
    records a sync brought. A row of the database is the entry it stores. *)
From S2P Require Import Prelude Text Record Status Rmp RmpWire Encryption SqliteStore Streams Log Kv History.

(** ** The history table *)

Module HistoryDb.

Abbreviation t := (list Entry) (only parsing).

(** [t.unix_timestamp_nanos() as i64] *)
Definition nanos_as_i64 (t : Z) : Z := u64_as_i64 (nanos_as_u64 t).

(** The primary key and [unique(timestamp, cwd, command)]. *)
Definition conflicts (h h' : Entry) : bool :=
  bool_decide (h_id h = h_id h' ∨
    (nanos_as_i64 (h_timestamp h) = nanos_as_i64 (h_timestamp h') ∧ h_cwd h = h_cwd h' ∧ h_command h = h_command h')).

(** [save_raw]: insert or ignore. *)
Definition save_raw (db : t) (h : Entry) : t := if existsb (conflicts h) db then db else db ++ [h].

Definition save_bulk (db : t) (hs : list Entry) : t := foldl save_raw db hs.

Definition delete_row_raw (db : t) (id : string) : t := filter (λ h, h_id h ≠ id) db.

Definition delete_rows (db : t) (ids : list string) : t := foldl delete_row_raw db ids.

End HistoryDb.

(** ** The store *)

(** [HistoryRecordKind] *)
Inductive HistoryRecordKind : Type := KCreate | KDelete.

#[export] Instance HistoryRecordKind_eq_dec : EqDecision HistoryRecordKind.
Proof. solve_decision. Defined.

Definition kind_of (r : HistoryRecord) : HistoryRecordKind :=
  match r with HCreate _ => KCreate | HDelete _ => KDelete end.

Definition created (r : HistoryRecord) : option Entry := match r with HCreate h => Some h | HDelete _ => None end.
Definition deleted (r : HistoryRecord) : option string := match r with HCreate _ => None | HDelete id => Some id end.

Definition BUILD_BATCH_SIZE : nat := Z.to_nat 5000.

Module HistoryStore.
Section history_store.
Context `{Rmp, Crypto} (k : key) (host : HostId).

(** [push_record] *)
Definition push_record (d : Draw) (r : HistoryRecord) : stm Store.t EncryptionError (RecordId * RecordIdx) :=
  push_event d k host r.

(** The [for] loop of [push_batch]: the records from index [idx] on. *)
Fixpoint batch_records (idx : RecordIdx) (n : nat) (rs : list (Draw * HistoryRecord))
    : result (list enc_record) EncryptionError :=
  match rs with
  | [] => Ok []
  | (d, r) :: rs' =>
      let? x := encrypt (draw_entropy d) k (event_record d host (wrapping_add idx (Z.of_nat n)) r) in
      let? xs := batch_records idx (S n) rs' in
      Ok (x :: xs)
  end.

(** [push_batch] *)
Definition push_batch (rs : list (Draw * HistoryRecord)) : stm Store.t EncryptionError unit := λ st,
  match batch_records (next_idx st (mk_series host History)) 0 rs with
  | Err e => (st, Err e)
  | Ok ret => (Store.push_batch st ret, Ok tt)
  end.

(** [delete] *)
Definition delete (d : Draw) (id : string) : stm Store.t EncryptionError (RecordId * RecordIdx) :=
  push_record d (HDelete id).

(** [delete_entries] *)
Fixpoint delete_entries (entries : list (Draw * Entry)) : stm Store.t EncryptionError (list RecordId) :=
  match entries with
  | [] => st_ret []
  | (d, h) :: entries' =>
      let! p := delete d (h_id h) in
      let! ids := delete_entries entries' in
      st_ret (p.1 :: ids)
  end.

(** [push] *)
Definition push (d : Draw) (h : Entry) : stm Store.t EncryptionError (RecordId * RecordIdx) :=
  push_record d (HCreate h).

(** [history] *)
Definition history (st : Store.t) : list HistoryRecord := read_log k st.

(** [build]: all creations, then all deletions. *)
Definition build (st : Store.t) (db : HistoryDb.t) : HistoryDb.t :=
  let log := history st in
  let creates := omap created log in
  let deletes := omap deleted log in
  HistoryDb.delete_rows (HistoryDb.save_bulk db creates) deletes.

(** [decode] *)
Definition decode (st : Store.t) (id : RecordId) : option HistoryRecord :=
  r ← Store.get st id;
  if decide (r_tag r = History) then read_event k r else None.

(** One chunk of [incremental_build]. *)
Definition apply_chunk (db : HistoryDb.t) (c : HistoryRecordKind * list HistoryRecord) : HistoryDb.t :=
  match c.1 with
  | KCreate => HistoryDb.save_bulk db (omap created c.2)
  | KDelete => HistoryDb.delete_rows db (omap deleted c.2)
  end.

Definition chunk_yield (c : HistoryRecordKind * list HistoryRecord) : list Entry :=
  match c.1 with KCreate => omap created c.2 | KDelete => [] end.

(** [incremental_build]: the database after it and the batches it yields. *)
Definition incremental_build (st : Store.t) (ids : list RecordId) (db : HistoryDb.t)
    : HistoryDb.t * list (list Entry) :=
  let chunks := chunk_by_bounded kind_of BUILD_BATCH_SIZE (omap (decode st) ids) in
  (foldl apply_chunk db chunks, chunk_yield <$> chunks).

(** [build_all] *)
Definition build_all (st : Store.t) (ids : list RecordId) (db : HistoryDb.t) : HistoryDb.t :=
  (incremental_build st ids db).1.

(** [history_ids] *)
Definition history_ids (st : Store.t) : gset string :=
  list_to_set ((λ r, match r with HCreate h => h_id h | HDelete id => id end) <$> history st).

(** [init_store]: the entries of an older database that the store does not know yet; [old] is what
    [db.list] returns, each with what its record draws. *)
Definition init_store (old : list (Draw * Entry)) : stm Store.t EncryptionError unit := λ st,
  let store_ids := history_ids st in
  let records :=
    omap (λ p, if decide (h_id p.2 ∈ store_ids) then None
               else Some (p.1, match h_deleted_at p.2 with Some _ => HDelete (h_id p.2) | None => HCreate p.2 end))
      old in
  match records with
  | [] => (st, Ok tt)
  | _ => push_batch records st
  end.
End history_store.
End HistoryStore.

(** ** Lemmas *)

(** One record applied on its own. *)
Definition apply_record (db : HistoryDb.t) (r : HistoryRecord) : HistoryDb.t :=
  match r with HCreate h => HistoryDb.save_raw db h | HDelete id => HistoryDb.delete_row_raw db id end.

Lemma apply_chunk_sequential kind rs db :
  Forall (λ r, kind_of r = kind) rs → HistoryStore.apply_chunk db (kind, rs) = foldl apply_record db rs.
Proof.
  intros Hall. unfold HistoryStore.apply_chunk, HistoryDb.save_bulk, HistoryDb.delete_rows. simpl.
  revert db. induction Hall as [|r rs Hr Hall IH]; intros db; [by destruct kind|].
  destruct kind, r as [h|id]; try done; simpl; apply IH.
Qed.

Lemma chunk_yield_created kind rs :
  Forall (λ r, kind_of r = kind) rs → HistoryStore.chunk_yield (kind, rs) = omap created rs.
Proof.
  intros Hall. unfold HistoryStore.chunk_yield. simpl. destruct kind; [done|].
  induction Hall as [|[h|id] rs Hr Hall IH]; [done|done|simpl; exact IH].
Qed.

Lemma chunks_sequential (cs : list (HistoryRecordKind * list HistoryRecord)) db :
  Forall (λ c, Forall (λ r, kind_of r = c.1) c.2) cs →
  foldl HistoryStore.apply_chunk db cs = foldl apply_record db (concat (snd <$> cs)) ∧
  concat (HistoryStore.chunk_yield <$> cs) = omap created (concat (snd <$> cs)).
Proof.
  intros Hall. revert db. induction Hall as [|[kind rs] cs Hc Hall IH]; intros db; [done|].
  rewrite !fmap_cons. cbn [concat foldl snd]. rewrite foldl_app, omap_app.
  rewrite apply_chunk_sequential, chunk_yield_created by done. destruct (IH (foldl apply_record db rs)) as [-> ->]. done.
Qed.

Lemma elem_of_delete_rows ids db h : h ∈ HistoryDb.delete_rows db ids ↔ h ∈ db ∧ h_id h ∉ ids.
Proof.
  unfold HistoryDb.delete_rows. revert db. induction ids as [|id ids IH]; intros db; simpl.
  - split; [intros; split; [done|apply not_elem_of_nil]|tauto].
  - rewrite IH. unfold HistoryDb.delete_row_raw. rewrite list_elem_of_filter, not_elem_of_cons. tauto.
Qed.

Definition clash (h h' : Entry) : Prop := HistoryDb.conflicts h h' = true.

Lemma elem_of_save_raw_db db h x :
  (∀ y, y ∈ db → clash h y → y = h) → x ∈ HistoryDb.save_raw db h ↔ x ∈ db ∨ x = h.
Proof.
  intros Hc. unfold HistoryDb.save_raw. destruct (existsb _ db) eqn:E.
  - split; [by left|]. intros [?| ->]; [done|]. apply existsb_true in E as (y & Hy & Hcy).
    by rewrite <- (Hc y Hy Hcy).
  - by rewrite elem_of_app, list_elem_of_singleton.
Qed.

Lemma elem_of_save_bulk (hs : list Entry) db x :
  (∀ h y, h ∈ hs → y ∈ db ∨ y ∈ hs → clash h y → y = h) →
  x ∈ HistoryDb.save_bulk db hs ↔ x ∈ db ∨ x ∈ hs.
Proof.
  unfold HistoryDb.save_bulk. revert db. induction hs as [|h hs IH]; intros db Hc; simpl.
  { split; [by left|]. by intros [?|?%not_elem_of_nil]. }
  assert (∀ z, z ∈ HistoryDb.save_raw db h ↔ z ∈ db ∨ z = h) as Hsave.
  { intros z. apply elem_of_save_raw_db. intros y Hy. apply Hc; [left|by left]. }
  rewrite IH, Hsave, elem_of_cons; [tauto|].
  intros h' y Hh' Hy. apply Hc; [by right|]. rewrite Hsave in Hy. rewrite elem_of_cons. tauto.
Qed.

(** The same without bulk: where no entry is created after its deletion. *)
Lemma elem_of_apply_records (rs : list HistoryRecord) db x :
  (∀ h y, HCreate h ∈ rs → y ∈ db ∨ HCreate y ∈ rs → clash h y → y = h) →
  (∀ i j id h, rs !! i = Some (HDelete id) → rs !! j = Some (HCreate h) → h_id h = id → (j < i)%nat) →
  x ∈ foldl apply_record db rs ↔ (x ∈ db ∨ HCreate x ∈ rs) ∧ HDelete (h_id x) ∉ rs.
Proof.
  revert db. induction rs as [|r rs IH]; intros db Hc Hord; simpl.
  { split; [intros; split; [by left|apply not_elem_of_nil]|]. by intros [[?|?%not_elem_of_nil] _]. }
  assert (∀ i j id h, rs !! i = Some (HDelete id) → rs !! j = Some (HCreate h) → h_id h = id → (j < i)%nat) as Hord'.
  { intros i j id h Hi Hj He. specialize (Hord (S i) (S j) id h Hi Hj He). lia. }
  destruct r as [h|id]; simpl.
  - assert (∀ z, z ∈ HistoryDb.save_raw db h ↔ z ∈ db ∨ z = h) as Hsave.
    { intros z. apply elem_of_save_raw_db. intros y Hy. apply Hc; [left|by left]. }
    rewrite IH; [|..|done].
    + rewrite Hsave, !elem_of_cons. split.
      * intros [[[?| ->]|?] Hd]; (split; [auto|]); intros [?|?]; done.
      * intros [[?|[[= ->]|?]] Hd]; (split; [auto|]); intros ?; apply Hd; by right.
    + intros h' y Hh' Hy. apply Hc; [by right|]. rewrite Hsave in Hy. rewrite elem_of_cons.
      destruct Hy as [[?| ->]|?]; auto.
  - rewrite IH; [|..|done].
    + unfold HistoryDb.delete_row_raw. rewrite list_elem_of_filter, !elem_of_cons. split.
      * intros [[[Hne ?]|Hx] Hd]; (split; [auto|]); intros [[= He]|?]; try done.
        apply list_elem_of_lookup in Hx as [j Hj].
        specialize (Hord 0%nat (S j) id x eq_refl Hj He). lia.
      * intros [[?|[?|?]] Hd]; [|done|].
        -- split; [left; split; [|done]; intros He; apply Hd; left; by rewrite He|]. intros ?; apply Hd; by right.
        -- split; [by right|]. intros ?; apply Hd; by right.
    + intros h y Hh Hy. apply Hc; [by right|]. unfold HistoryDb.delete_row_raw in Hy.
      rewrite list_elem_of_filter in Hy. rewrite elem_of_cons. tauto.
Qed.

Section log_ids.
Context `{Rmp, Crypto} (k : key).

Lemma elem_of_all_tagged st tag r :
  rows_wf st → Tag.canonical tag = true → r ∈ Store.all_tagged st tag → r ∈ Store.load_all st ∧ r_tag r = tag.
Proof.
  intros Hwf Hc. unfold Store.all_tagged, sort_by_key.
  rewrite list_elem_of_fmap. intros (row & -> & Hin). rewrite elem_of_sort_by, list_elem_of_filter in Hin.
  destruct Hin as [Ht Hin]. split; [by apply list_elem_of_fmap_2|]. simpl. rewrite Ht. by apply tag_canonical_spec.
Qed.

Lemma get_by_id st r : store_wf st → r ∈ Store.load_all st → Store.get st (r_id r) = Some r.
Proof.
  intros Hwf Hr. pose proof Hr as [Hs Hin]%elem_of_load_all; [|done]. unfold Store.get. rewrite fmap_Some.
  exists (Store.to_row r). rewrite from_to_row by done. split; [|done].
  apply head_filter_unique; [|done]. intros y z Hy Hz E1 E2.
  eapply NoDup_fmap_eq; [apply (wf_ids _ Hwf)|done..|congruence].
Qed.

(** Decoding every history record by its id, in time order, reads the log. *)
Lemma decode_all st :
  store_wf st → omap (HistoryStore.decode k st) (r_id <$> Store.all_tagged st History) = HistoryStore.history k st.
Proof.
  intros Hwf. unfold HistoryStore.history, read_log. change (ev_tag HistoryRecord) with History.
  assert (∀ r, r ∈ Store.all_tagged st History → HistoryStore.decode k st (r_id r) = read_event k r) as Hd.
  { intros r [Hr Ht]%elem_of_all_tagged; [|done..]. unfold HistoryStore.decode.
    rewrite get_by_id by done. simpl. by rewrite decide_True. }
  induction (Store.all_tagged st History) as [|r l IH]; [done|]. cbn [fmap list_fmap omap list_omap].
  rewrite Hd by left. rewrite IH; [done|]. intros x Hx. apply Hd. by right.
Qed.

Lemma elem_of_created (log : list HistoryRecord) h : h ∈ omap created log ↔ HCreate h ∈ log.
Proof.
  rewrite list_elem_of_omap. split; [by intros ([x|id] & Hx & [= <-])|]. intros Hh. by exists (HCreate h).
Qed.

Lemma elem_of_deleted (log : list HistoryRecord) id : id ∈ omap deleted log ↔ HDelete id ∈ log.
Proof.
  rewrite list_elem_of_omap. split; [by intros ([x|i] & Hx & [= <-])|]. intros Hh. by exists (HDelete id).
Qed.
End log_ids.

(** ** Theorems *)

(** C37: [incremental_build] gathers the decoded records into bulk transactions without changing
    anything: the database is the one that applying the records one by one in order gives, and the
    batches it yields are the created entries in order. *)
Theorem incremental_build_is_sequential `{Rmp, Crypto} (k : key) (st : Store.t) (ids : list RecordId)
    (db : HistoryDb.t) :
  let records := omap (HistoryStore.decode k st) ids in
  (HistoryStore.incremental_build k st ids db).1 = foldl apply_record db records ∧
  concat (HistoryStore.incremental_build k st ids db).2 = omap created records.
Proof.
  intros records. unfold HistoryStore.incremental_build. fold records. simpl.
  destruct (chunk_by_bounded_partitions kind_of BUILD_BATCH_SIZE records) as [Hcat Hall].
  { unfold BUILD_BATCH_SIZE. lia. }
  set (cs := chunk_by_bounded _ _ _) in *.
  destruct (chunks_sequential cs db) as [-> ->]; [|by rewrite Hcat].
  eapply Forall_impl; [exact Hall|]. by intros c (_ & _ & ?).
Qed.

(** Where no two created entries clash and none is created again after its deletion, a database
    rebuilt from the whole log holds exactly the entries created and not deleted, and so does one
    filled incrementally from all its records. *)
Theorem history_rebuild_agrees `{Rmp, Crypto} (k : key) (st : Store.t) (h : Entry) :
  let log := HistoryStore.history k st in
  store_wf st →
  (∀ a b, HCreate a ∈ log → HCreate b ∈ log → clash a b → b = a) →
  (∀ i j id a, log !! i = Some (HDelete id) → log !! j = Some (HCreate a) → h_id a = id → (j < i)%nat) →
  (h ∈ HistoryStore.build k st [] ↔ HCreate h ∈ log ∧ HDelete (h_id h) ∉ log) ∧
  (h ∈ HistoryStore.build_all k st (r_id <$> Store.all_tagged st History) [] ↔
     HCreate h ∈ log ∧ HDelete (h_id h) ∉ log).
Proof.
  intros log Hwf Hclash Hord. split.
  - unfold HistoryStore.build. fold log. rewrite elem_of_delete_rows, elem_of_deleted, elem_of_save_bulk, elem_of_created.
    + split; [intros [[?%not_elem_of_nil|?] ?]; done|tauto].
    + intros a b Ha [?%not_elem_of_nil|Hb]; [done|]. rewrite elem_of_created in Ha. rewrite elem_of_created in Hb. by apply Hclash.
  - unfold HistoryStore.build_all, HistoryStore.incremental_build. simpl.
    rewrite decode_all by done. fold log.
    destruct (chunk_by_bounded_partitions kind_of BUILD_BATCH_SIZE log) as [Hcat Hall].
    { unfold BUILD_BATCH_SIZE. lia. }
    set (cs := chunk_by_bounded _ _ _) in *.
    assert (Forall (λ c, Forall (λ r, kind_of r = c.1) c.2) cs) as Hk.
    { eapply Forall_impl; [exact Hall|]. by intros c (_ & _ & ?). }
    rewrite (proj1 (chunks_sequential cs [] Hk)), Hcat, elem_of_apply_records; [|..|done].
    + split; [intros [[?%not_elem_of_nil|?] ?]; done|tauto].
    + intros a b Ha [?%not_elem_of_nil|Hb]; [done|by apply Hclash].
Qed.

(** ** Witnesses *)

Definition demo_entry2 : Entry :=
  mk_hist "id2" 5 7 0 "ls" "/" "s" demo_origin "codex" None None (Some "zsh") None.

Definition hist1 : Store.t := (HistoryStore.push Toy.key1 2 draw1 demo_entry Store.empty).1.
Definition hist2 : Store.t := (HistoryStore.delete Toy.key1 2 draw2 "id1" hist1).1.
Definition hist3 : Store.t := (HistoryStore.push Toy.key1 2 (mk_draw 3 7 Toy.rng) demo_entry2 hist2).1.

Lemma hist1_log : HistoryStore.history Toy.key1 hist1 = [HCreate demo_entry].
Proof. vm_compute. reflexivity. Qed.

Lemma demo_hrec_ok : hrec_ok (HCreate demo_entry).
Proof. split; [exact demo_entry_ok|]. vm_compute. reflexivity. Qed.

Lemma hist1_wf : store_wf hist1.
Proof.
  pose proof (push_event_log Store.empty draw1 Toy.key1 2 (HCreate demo_entry) empty_wf) as Hp.
  destruct Hp as (st' & Hpush & Hwf & _);
    [apply appendable_empty; [exact Toy.rng_ok|split; vm_compute; congruence]|exact demo_hrec_ok|].
  unfold hist1, HistoryStore.push, HistoryStore.push_record. by rewrite Hpush.
Qed.

Lemma history_rebuild_agrees_witness :
  (demo_entry ∈ HistoryStore.build Toy.key1 hist1 [] ↔
     HCreate demo_entry ∈ HistoryStore.history Toy.key1 hist1 ∧
     HDelete "id1" ∉ HistoryStore.history Toy.key1 hist1).
Proof.
  refine (proj1 (history_rebuild_agrees Toy.key1 hist1 demo_entry hist1_wf _ _)); rewrite hist1_log.
  - intros a b Ha Hb _. apply list_elem_of_singleton in Ha, Hb. congruence.
  - intros [|i] j id a Hi; done.
Defined.

(** An entry is created, deleted and imported again under a new id. *)
Lemma hist3_log : HistoryStore.history Toy.key1 hist3 = [HCreate demo_entry; HDelete "id1"; HCreate demo_entry2].
Proof. vm_compute. reflexivity. Qed.

(** After an entry is deleted and imported again under a new id, the incremental build shows it
    and a rebuild of the database loses it: [build] saves all creations before all deletions, and
    the table is unique by time, directory and command. *)
Theorem history_rebuild_drops_reimport :
  HistoryStore.history Toy.key1 hist3 = [HCreate demo_entry; HDelete "id1"; HCreate demo_entry2] ∧
  HistoryStore.build_all Toy.key1 hist3 (r_id <$> Store.all_tagged hist3 History) [] = [demo_entry2] ∧
  HistoryStore.build Toy.key1 hist3 [] = [].
Proof. split_and!; vm_compute; reflexivity. Qed.

Lemma log_reads_its_writes_witness :
  ∃ st' i, push_event draw2 Toy.key1 2 (mk_kv "ns" "k" (Some "v")) Store.empty = (st', Ok (draw_id draw2, i)) ∧
    store_wf st' ∧ (∀ j, has_idx Store.empty (mk_series 2 (ev_tag KvRecord)) j → j < i) ∧
    read_log Toy.key1 st' = read_log Toy.key1 Store.empty ++ [mk_kv "ns" "k" (Some "v")] ∧
    read_log (A := HistoryRecord) Toy.key1 st' = read_log Toy.key1 Store.empty.
Proof.
  apply (log_reads_its_writes (A := KvRecord) (B := HistoryRecord) Store.empty draw2 Toy.key1 2
    (mk_kv "ns" "k" (Some "v"))).
  - apply empty_wf.
  - apply appendable_empty; [exact Toy.rng_ok|split; vm_compute; congruence].
  - exact demo_kv_ok.
  - discriminate.
Defined.
