(* ===== verification/Stats.v ===== *)
(** * Statistics of the history ([atuin-history/src/stats.rs], [atuin/src/command/client/stats.rs])

    The commands of a list of entries are cut at their pipes, reduced to the word that is of interest and
    counted, alone or in groups of neighbours. Grapheme clusters are those of the crate
    [unicode_segmentation], an interface; texts are bytes. The order of a hash map is a parameter, and with
    it that of an unstable sort. *)
From S2P Require Import Prelude Text Interactive Record Status Rmp Encryption SqliteStore Streams Log Kv History HistoryStore Semantic SearchQuery HistorySearch.

Abbreviation chunk := (list Ascii.ascii) (only parsing).

(** ** Settings *)

Record StatsSettings : Type := mk_ssettings {
  common_prefix : list string; common_subcommands : list string; ignored_commands : list string
}.

(** ** The word of interest *)

(** [char::is_ascii_whitespace] *)
Definition ascii_whitespace (c : Ascii.ascii) : bool := bool_decide (c ∈ byte <$> [9; 10; 12; 13; 32]).

(** [first_non_whitespace], [first_whitespace] *)
Fixpoint find_index {A} (p : A → bool) (l : list A) : option nat :=
  match l with [] => None | x :: l => if p x then Some 0%nat else S <$> find_index p l end.
Definition first_non_whitespace (l : chunk) : option nat := find_index (λ c, negb (ascii_whitespace c)) l.
Definition first_whitespace (l : chunk) : nat := default (length l) (find_index ascii_whitespace l).

(** The settings with the longest text first. *)
Definition longest_first (l : list string) : list string := sort_by_key (λ s, - Z.of_nat (String.length s)) l.

(** The loop over the prefixes: the prefix when nothing follows it, or what follows. *)
Fixpoint strip_common (ps : list string) (command : string) : string + string :=
  match ps with
  | [] => inr command
  | p :: ps =>
      match strip_prefix p command with
      | Some rest => let rest := trim_start rest in if decide (rest = "") then inl p else inr rest
      | None => strip_common ps command
      end
  end.

(** The loop over the subcommands: the subcommand with the word after it. *)
Fixpoint with_subcommand (ps : list string) (command : string) : option string :=
  match ps with
  | [] => None
  | p :: ps =>
      match strip_prefix p command with
      | Some rest =>
          if decide (String.length p = String.length command) then Some command
          else
            let rest := chars rest in
            let n := default 0%nat (first_non_whitespace rest) in
            let j := (String.length p + n + first_whitespace (drop n rest))%nat in
            Some (unchars (take j (chars command)))
      | None => with_subcommand ps command
      end
  end.

(** [interesting_command] *)
Definition interesting_command (st : StatsSettings) (command : string) : string :=
  match strip_common (longest_first (common_prefix st)) command with
  | inl prefix => prefix
  | inr command =>
      match with_subcommand (longest_first (common_subcommands st)) command with
      | Some s => s
      | None => unchars (take (first_whitespace (chars command)) (chars command))
      end
  end.

(** ** Pipes *)

Definition dquote : Ascii.ascii := byte 34.
Definition squote : Ascii.ascii := byte 39.
Definition backslash : Ascii.ascii := byte 92.
Definition pipe : Ascii.ascii := byte 124.

(** Clusters with their offsets. *)
Fixpoint indexed (i : nat) (gs : list (list Ascii.ascii)) : list (nat * list Ascii.ascii) :=
  match gs with [] => [] | g :: gs => (i, g) :: indexed (i + length g) gs end.

Definition slice (a b : nat) (l : chunk) : chunk := take (b - a) (drop a l).
Definition begins_with_pipe (l : chunk) : bool := match l with c :: _ => bool_decide (c = pipe) | [] => false end.

(** The loop of [split_at_pipe]: what it has pushed and where the next piece starts. *)
Fixpoint pipe_loop (l : chunk) (gs : list (nat * list Ascii.ascii)) (quoted : bool) (start : nat) (result : list (list Ascii.ascii))
    : list (list Ascii.ascii) * nat :=
  match gs with
  | [] => (result, start)
  | (current, c) :: gs' =>
      if decide (c = [dquote] ∧ slice start current l ≠ [dquote]) then pipe_loop l gs' (negb quoted) start result
      else if decide (c = [squote] ∧ slice start current l ≠ [squote]) then pipe_loop l gs' (negb quoted) start result
      else if decide (c = [backslash])
      then match gs' with _ :: gs'' => pipe_loop l gs'' quoted start result | [] => (result, start) end
      else if decide (c = [pipe] ∧ quoted = false)
      then
        let start := if (start <? current)%nat && begins_with_pipe (drop start l) then S start else start in
        pipe_loop l gs' quoted current (result ++ [slice start current l])
      else pipe_loop l gs' quoted start result
  end.

Section stats.
Context `{Graphemes} (st : StatsSettings).

(** [split_at_pipe] *)
Definition split_pieces (l : chunk) : list (list Ascii.ascii) :=
  let '(result, start) := pipe_loop l (indexed 0 (graphemes l)) false 0 [] in
  let start := if begins_with_pipe (drop start l) then S start else start in
  result ++ [drop start l].
Definition split_at_pipe (command : string) : list string := unchars <$> split_pieces (chars command).

(** ** Leading variables *)

Record EnvScan : Type := mk_scan {
  in_token : bool; token_start_pos : nat; in_single_quotes : bool; in_double_quotes : bool; escape_next : bool; has_equals_outside_quotes : bool
}.

(** The loop of [strip_leading_env_vars]: where the last token begins. *)
Fixpoint env_loop (gs : list (nat * list Ascii.ascii)) (s : EnvScan) : nat :=
  match gs with
  | [] => token_start_pos s
  | (i, g) :: gs =>
      if escape_next s then env_loop gs (mk_scan (in_token s) (token_start_pos s) (in_single_quotes s) (in_double_quotes s) false (has_equals_outside_quotes s))
      else
        let start := if in_token s then token_start_pos s else i in
        let single := in_single_quotes s in
        let double := in_double_quotes s in
        let equals := has_equals_outside_quotes s in
        if decide (g = [backslash]) then env_loop gs (mk_scan true start single double true equals)
        else if decide (g = [squote] ∧ double = false) then env_loop gs (mk_scan true start (negb single) double false equals)
        else if decide (g = [dquote] ∧ single = false) then env_loop gs (mk_scan true start single (negb double) false equals)
        else if decide (g = [byte 61] ∧ single = false ∧ double = false) then env_loop gs (mk_scan true start single double false true)
        else if decide ((g = [byte 32] ∨ g = [byte 9]) ∧ single = false ∧ double = false)
        then
          if in_token s then if equals then env_loop gs (mk_scan false start single double false false) else start
          else env_loop gs (mk_scan false start single double false equals)
        else env_loop gs (mk_scan true start single double false equals)
  end.

(** [strip_leading_env_vars] *)
Definition strip_leading_env_vars (command : string) : string :=
  if negb (contains_char (byte 61) command) then command
  else
    let start := env_loop (indexed 0 (graphemes (chars command))) (mk_scan false 0 false false false false) in
    trim (unchars (drop start (chars command))).

(** ** Counting *)

(** [slice::windows]; a window of no elements is a panic. *)
Fixpoint windows_l {A} (n : nat) (l : list A) : list (list A) :=
  match l with [] => [] | x :: l' => if (n <=? length l)%nat then take n l :: windows_l n l' else [] end.
Definition windows {A} (n : nat) (l : list A) : option (list (list A)) := if (n =? 0)%nat then None else Some (windows_l n l).

Record Stats : Type := mk_stats { total_commands : nat; unique_commands : nat; top : list (list string * nat) }.

(** What is counted on the way: the texts of commands, the entries and the groups. *)
Record Counts : Type := mk_counts { seen : gset string; total_unignored : nat; prefixes : gmap (list string) nat }.
Definition bump (m : gmap (list string) nat) (g : list string) : gmap (list string) nat := <[g := S (default 0%nat (m !! g))]> m.

(** One entry of the loop of [compute]. *)
Definition count_entry (ngram_size : nat) (c : Counts) (h : Entry) : option Counts :=
  let command := strip_leading_env_vars (trim (h_command h)) in
  let prefix := interesting_command st command in
  if decide (prefix ∈ ignored_commands st) then Some c
  else
    let pieces : list string := trim <$> split_at_pipe command in
    ws ← windows ngram_size pieces;
    Some (mk_counts (list_to_set pieces ∪ ({[command]} ∪ seen c)) (S (total_unignored c))
            (foldl bump (prefixes c) ((λ w : list string, interesting_command st <$> w) <$> ws))).

Fixpoint count_all (ngram_size : nat) (c : Counts) (hs : list Entry) : option Counts :=
  match hs with [] => Some c | h :: hs => c ← count_entry ngram_size c h; count_all ngram_size c hs end.

(** [compute]; the outer [None] is a panic. *)
Definition compute (hash_order : list (list string * nat) → list (list string * nat)) (history : list Entry) (count ngram_size : nat)
    : option (option Stats) :=
  c ← count_all ngram_size (mk_counts ∅ 0 ∅) history;
  let top := take count (sort_by_key (λ x, - Z.of_nat x.2) (hash_order (map_to_list (prefixes c)))) in
  Some (match top with [] => None | _ => Some (mk_stats (total_unignored c) (size (seen c)) top) end).
End stats.

(** ** The command *)

(** [parse_ngram_size]; [parse] is [str::parse] of a [usize]. *)
Definition parse_ngram_size (parse : string → option nat) (s : string) : result nat string :=
  match parse s with
  | None => Err ("'" ++ s ++ "' is not a valid window size")%string
  | Some O => Err "ngram window size must be at least 1"
  | Some n => Ok n
  end.

Definition DAY : Z := 86400 * 1000000000.

(** The range of the period; [last_night] is the last midnight in the time zone of the settings. *)
Definition stats_range (parse_date : string → result Z string) (last_night : Z) (words : string) : result (option (Z * Z)) string :=
  if decide (words = "all") then Ok None
  else if decide (trim words = "today") then Ok (Some (last_night, last_night + DAY))
  else if decide (trim words = "month") then Ok (Some (last_night - 31 * DAY, last_night))
  else if decide (trim words = "week") then Ok (Some (last_night - 7 * DAY, last_night))
  else if decide (trim words = "year") then Ok (Some (last_night - 365 * DAY, last_night))
  else let? start := parse_date words in Ok (Some (start, start + DAY)).

(** [Cmd::run] up to the printing. *)
Definition run_stats `{Graphemes, SearchLib, SqlText, SqlBuilder} (st : StatsSettings) (ctx : Context_)
    (parse_date : string → result Z string) (last_night : Z) (period : list string) (filter : option FilterMode)
    (hash_order : list (list string * nat) → list (list string * nat)) (count ngram_size : nat) (db : HistoryDb.t)
    : option (result (option Stats) string) :=
  let words := match period with [] => "all"%string | _ => String.concat " " period end in
  match stats_range parse_date last_night words with
  | Err e => Some (Err e)
  | Ok range =>
      let history := from_row <$> list_history (option_list filter) ctx None false false range (to_row <$> db) in
      r ← compute st hash_order history count ngram_size; Some (Ok r)
  end.

(** ** Pieces: lemmas *)

Fixpoint join_pipe (ps : list (list Ascii.ascii)) : chunk :=
  match ps with [] => [] | [p] => p | p :: ps => p ++ pipe :: join_pipe ps end.

Lemma join_snoc ps p : ps ≠ [] → join_pipe (ps ++ [p]) = join_pipe ps ++ pipe :: p.
Proof.
  induction ps as [|q ps IH]; [done|]. intros _. destruct ps as [|q' ps]; [done|].
  change (join_pipe ((q :: q' :: ps) ++ [p])) with (q ++ pipe :: join_pipe ((q' :: ps) ++ [p])). rewrite IH by done.
  change (join_pipe (q :: q' :: ps)) with (q ++ pipe :: join_pipe (q' :: ps)). by rewrite <- app_assoc.
Qed.

(** A cluster that is not the pipe alone does not begin with one. *)
Definition pipe_alone (g : list Ascii.ascii) : Prop := g ≠ [] ∧ (g ≠ [pipe] → head g ≠ Some pipe).

(** The pieces that were pushed before the offset, joined, are the text before the next one's pipe. *)
Definition pieces_inv (l : chunk) (off : nat) (quoted : bool) (start : nat) (result : list (list Ascii.ascii)) : Prop :=
  (result = [] ∧ start = 0%nat ∧ (off = 0%nat ∧ quoted = false ∨ head l ≠ Some pipe)) ∨
  (result ≠ [] ∧ (start < off)%nat ∧ l !! start = Some pipe ∧ join_pipe result = take start l).

Lemma inv_advance l off off' q q' start result :
  pieces_inv l off q start result → (off = 0%nat → head l ≠ Some pipe) → (off ≤ off')%nat → pieces_inv l off' q' start result.
Proof.
  intros [(-> & -> & Hh)|(Hr & Hs & Hl & Hj)] Hz Ho; [left|right; split_and!; [done|lia|done..]].
  split_and!; [done..|]. right. destruct Hh as [[Hoff _]|Hh]; [by apply Hz|done].
Qed.

Lemma begins_lookup l start : begins_with_pipe (drop start l) = true ↔ l !! start = Some pipe.
Proof.
  rewrite <- (Nat.add_0_r start) at 2. rewrite <- lookup_drop. destruct (drop start l) as [|c l']; [done|]. cbn. rewrite bool_decide_eq_true. naive_solver.
Qed.

Lemma inv_push l off q start result :
  pieces_inv l off q start result → l !! off = Some pipe →
  let start' := if (start <? off)%nat && begins_with_pipe (drop start l) then S start else start in
  pieces_inv l (S off) false off (result ++ [slice start' off l]).
Proof.
  intros Hi Hp start'. right. split_and!; [by destruct result|lia|done|]. unfold start', slice. destruct Hi as [(-> & -> & Hh)|(Hr & Hs & Hl & Hj)].
  - cbn [app join_pipe]. destruct (begins_with_pipe (drop 0 l)) eqn:Eb; [|by rewrite andb_false_r, Nat.sub_0_r, drop_0].
    apply begins_lookup in Eb. destruct Hh as [[-> _]|Hh]; [done|]. by destruct l as [|c l]; [|destruct Hh].
  - rewrite (proj2 (Nat.ltb_lt _ _) Hs), (proj2 (begins_lookup _ _) Hl). cbn [andb]. rewrite join_snoc, Hj by done.
    rewrite <- (take_drop start (take off l)). rewrite take_take, Nat.min_l by lia. f_equal.
    rewrite skipn_firstn_comm. rewrite (drop_S l pipe start Hl). by replace (off - start)%nat with (S (off - S start)) by lia.
Qed.

Lemma head_of_rest (l pre : chunk) (g : list Ascii.ascii) rest : l = pre ++ g ++ rest → length pre = 0%nat → g ≠ [] → head l = head g.
Proof. intros -> Hz Hg. destruct pre; [|done]. by destruct g. Qed.

(** A step over a cluster that cuts nothing. *)
Lemma inv_skip l pre g rest q q' start result :
  l = pre ++ g ++ rest → pipe_alone g → (g = [pipe] → q = true) → pieces_inv l (length pre) q start result →
  pieces_inv l (length pre + length g) q' start result.
Proof.
  intros El [Hg Hp] Hq Hi. destruct (decide (g = [pipe])) as [Ep|Ep].
  - destruct Hi as [(-> & -> & [[_ Hf]|Hh])|Hi]; [by rewrite (Hq Ep) in Hf|left; split_and!; by auto|].
    right. destruct Hi as (? & ? & ? & ?). split_and!; [done|lia|done..].
  - eapply inv_advance; [exact Hi| |lia]. intros Hz. rewrite (head_of_rest l pre g rest El Hz Hg). by apply Hp.
Qed.

Lemma pipe_loop_inv l n gs pre quoted start result :
  (length gs ≤ n)%nat → l = pre ++ concat gs → Forall pipe_alone gs → pieces_inv l (length pre) quoted start result →
  let '(result', start') := pipe_loop l (indexed (length pre) gs) quoted start result in
  pieces_inv l (length l) true start' result' ∨ l = [].
Proof.
  revert gs pre quoted start result. induction n as [|n IH]; intros [|g gs] pre quoted start result Hn El Hall Hi; cbn [indexed pipe_loop length] in *; try lia.
  1,2: destruct l as [|c l]; [by right|]; left; cbn [concat] in El; rewrite app_nil_r in El; rewrite El at 2; eapply inv_advance; [exact Hi| |lia]; by rewrite <- El.
  apply Forall_cons in Hall as [Hg Hall]. cbn [concat] in El. assert (length gs ≤ n)%nat as Hn' by lia.
  assert (l = (pre ++ g) ++ concat gs) as El' by (by rewrite <- app_assoc).
  assert (∀ q', (g = [pipe] → quoted = true) → pieces_inv l (length (pre ++ g)) q' start result) as Hskip.
  { intros q' Hq. rewrite length_app. by apply (inv_skip l pre g (concat gs) quoted). }
  rewrite <- length_app.
  destruct (decide (g = [dquote] ∧ _)) as [[-> _]|_]; [apply IH; [done..|by apply Hskip]|].
  destruct (decide (g = [squote] ∧ _)) as [[-> _]|_]; [apply IH; [done..|by apply Hskip]|].
  destruct (decide (g = [backslash])) as [->|_].
  - destruct gs as [|g2 gs]; cbn [indexed].
    + left. cbn [concat] in El'. rewrite app_nil_r in El'. rewrite El' at 2. by apply Hskip.
    + apply Forall_cons in Hall as [Hg2 Hall]. rewrite <- length_app. apply IH; [cbn in Hn'; lia| |done|].
      * rewrite El'. cbn [concat]. by rewrite <- !app_assoc.
      * eapply inv_advance; [by apply (Hskip quoted)| |rewrite !length_app; lia]. rewrite length_app. cbn [length]. lia.
  - destruct (decide (g = [pipe] ∧ quoted = false)) as [[-> ->]|Hd].
    + apply IH; [done..|]. rewrite length_app. cbn [length]. rewrite Nat.add_1_r. apply inv_push with (q := false); [done|].
      rewrite El, lookup_app_r, Nat.sub_diag by lia. done.
    + apply IH; [done..|]. apply Hskip. intros ->. destruct quoted; [done|]. by destruct Hd.
Qed.

(** Cutting a command at its pipes loses nothing: the pieces, joined by pipes, are the command. *)
Theorem pieces_join_to_command `{GraphemesLaws} l : Forall pipe_alone (graphemes l) → join_pipe (split_pieces l) = l.
Proof.
  intros Hall. unfold split_pieces. destruct (decide (l = [])) as [->|Hl0].
  { pose proof (graphemes_join []) as Hj. pose proof (graphemes_nonempty []) as Hn. destruct (graphemes []) as [|g gs]; [done|].
    apply Forall_cons in Hn as [Hg _]. by destruct g. }
  pose proof (pipe_loop_inv l (length (graphemes l)) (graphemes l) [] false 0 []) as Hinv. cbn [length] in Hinv.
  destruct (pipe_loop _ _ _ _ _) as [result start]. destruct Hinv as [[(-> & -> & [[_ ?]|Hh])|(Hr & Hs & Hl & Hj)]|?]; [done| |done| |done| | |done].
  - symmetry. apply graphemes_join.
  - left. split_and!; [done..|by left].
  - cbn [app join_pipe]. destruct (begins_with_pipe (drop 0 l)) eqn:Eb; [|done]. apply begins_lookup in Eb. destruct l; [done|]. by destruct Hh.
  - rewrite (proj2 (begins_lookup _ _) Hl), join_snoc, Hj by done. rewrite <- (drop_S l pipe start Hl). apply take_drop.
Qed.

(** ** Counting: lemmas *)

Definition occurrences (g : list string) (ws : list (list string)) : nat := length (filter (λ w, w = g) ws).

Lemma bump_counts ws m g : foldl bump m ws !! g = if decide (g ∈ ws) then Some (default 0 (m !! g) + occurrences g ws)%nat else m !! g.
Proof.
  revert m. induction ws as [|w ws IH]; intros m; [done|]. cbn [foldl]. rewrite IH. unfold bump, occurrences. rewrite filter_cons.
  destruct (decide (w = g)) as [->|Hne].
  - rewrite lookup_insert_eq, (decide_True (P := g ∈ g :: ws)) by left. cbn [length default]. destruct (decide (g ∈ ws)) as [Hg|Hg].
    + f_equal. cbn. lia.
    + rewrite filter_none; [cbn; f_equal; lia|]. by intros x Hx ->.
  - rewrite lookup_insert_ne by done. destruct (decide (g ∈ ws)) as [Hg|Hg].
    + by rewrite decide_True by (by right).
    + rewrite decide_False; [done|]. rewrite elem_of_cons. intros [|]; [by apply Hne|done].
Qed.

Section counting.
Context `{Graphemes} (st : StatsSettings) (n : nat).

(** The entries that count, and the groups of neighbours in one of them. *)
Definition counted (h : Entry) : Prop := interesting_command st (strip_leading_env_vars (trim (h_command h))) ∉ ignored_commands st.
Definition pieces_of (h : Entry) : list string := trim <$> split_at_pipe (strip_leading_env_vars (trim (h_command h))).
Definition groups (h : Entry) : list (list string) := (λ w : list string, interesting_command st <$> w) <$> windows_l n (pieces_of h).
Definition texts (h : Entry) : list string := strip_leading_env_vars (trim (h_command h)) :: pieces_of h.
#[export] Instance counted_dec h : Decision (counted h).
Proof. unfold counted. apply _. Defined.

Lemma count_all_spec hs c : n ≠ 0%nat →
  let hs' := filter counted hs in
  ∃ c', count_all st n c hs = Some c' ∧ total_unignored c' = (total_unignored c + length hs')%nat ∧
    seen c' = list_to_set (concat (texts <$> hs')) ∪ seen c ∧ prefixes c' = foldl bump (prefixes c) (concat (groups <$> hs')).
Proof.
  intros Hn. revert c. induction hs as [|h hs IH]; intros c; cbn zeta; cbn [count_all].
  { exists c. rewrite filter_nil. cbn. split_and!; [done|lia|set_solver|done]. }
  rewrite filter_cons. unfold count_entry. destruct (decide (counted h)) as [Hc|Hc]; unfold counted in Hc.
  - rewrite decide_False by done. unfold windows. rewrite (proj2 (Nat.eqb_neq n 0) Hn). cbn [mbind option_bind].
    fold (pieces_of h). fold (groups h).
    destruct (IH (mk_counts (list_to_set (pieces_of h) ∪
      ({[strip_leading_env_vars (trim (h_command h))]} ∪ seen c)) (S (total_unignored c)) (foldl bump (prefixes c) (groups h)))) as (c' & -> & Ht & Hs & Hp).
    exists c'. cbn [total_unignored seen prefixes] in *. split_and!; [done|rewrite Ht; cbn; lia| |].
    + rewrite Hs, !fmap_cons. cbn [concat]. unfold texts at 2. rewrite list_to_set_app_L. cbn [list_to_set]. set_solver.
    + rewrite Hp, fmap_cons. cbn [concat]. by rewrite foldl_app.
  - rewrite decide_True by (by destruct (decide (interesting_command st (strip_leading_env_vars (trim (h_command h))) ∈ ignored_commands st))).
    cbn [mbind option_bind]. apply IH.
Qed.
End counting.

(** The first of a list that is sorted: what is left out is not before what is there. *)
Lemma take_sorted_rest {A} (R : A → A → Prop) n (l : list A) x y : StronglySorted R l → x ∈ take n l → y ∈ drop n l → R x y.
Proof. intros Hs. rewrite <- (take_drop n l) in Hs. by apply StronglySorted_app_1_elem_of. Qed.

Section exact.
Context `{Graphemes} (st : StatsSettings).

(** The statistics are exact: every entry that is not ignored counts once, the list has the groups that
    are most frequent, as many as asked for, each once and with the number of times that it occurs, the
    most frequent first, and no group that is left out occurs more often than one that is there. *)
Theorem stats_count_exactly hash_order history count n :
  (∀ l, hash_order l ≡ₚ l) → n ≠ 0%nat →
  let hs := filter (counted st) history in
  let ws := concat (groups st n <$> hs) in
  ∃ top, compute st hash_order history count n =
           Some (match top with [] => None | _ => Some (mk_stats (length hs) (size (list_to_set (concat (texts <$> hs)) : gset string)) top) end) ∧
    length top = Nat.min count (size (list_to_set ws : gset (list string))) ∧ NoDup (fst <$> top) ∧
    (∀ g c, (g, c) ∈ top → c = occurrences g ws ∧ g ∈ ws) ∧ StronglySorted (λ x y, (y.2 ≤ x.2)%nat) top ∧
    ∀ g x, g ∈ ws → g ∉ fst <$> top → x ∈ top → (occurrences g ws ≤ x.2)%nat.
Proof.
  intros Hord Hn hs ws. unfold compute. destruct (count_all_spec st n history (mk_counts ∅ 0 ∅) Hn) as (c & -> & Ht & Hs & Hp).
  fold hs in Ht, Hs, Hp. fold ws in Hp. cbn [total_unignored seen prefixes mbind option_bind] in *. rewrite Ht, Hs, union_empty_r_L. cbn [Nat.add].
  set (m := map_to_list (prefixes c)). set (sorted := sort_by_key _ (hash_order m)). exists (take count sorted). split; [done|].
  assert (∀ g k, (g, k) ∈ m ↔ k = occurrences g ws ∧ g ∈ ws) as Hm.
  { intros g k. unfold m. rewrite elem_of_map_to_list, Hp, bump_counts, lookup_empty. cbn [default]. destruct (decide (g ∈ ws)) as [Hg|Hg].
    - split; [intros E; by injection E as <-|by intros [-> _]].
    - split; [done|by intros [_ ?]]. }
  assert (sorted ≡ₚ m) as Hperm by (unfold sorted, sort_by_key; by rewrite sort_by_perm, Hord).
  assert (NoDup (fst <$> sorted)) as Hnd by (rewrite Hperm; apply NoDup_fst_map_to_list).
  assert (dom (prefixes c) = list_to_set ws) as Hdom.
  { apply set_eq. intros g. rewrite elem_of_dom, elem_of_list_to_set, Hp, bump_counts, lookup_empty.
    destruct (decide (g ∈ ws)) as [Hg|Hg]; [split; [done|by eexists]|]. split; [by intros [? ?]|done]. }
  assert (StronglySorted (λ x y, (y.2 ≤ x.2)%nat) sorted) as Hso.
  { eapply StronglySorted_weaken; [|apply sort_by_key_sorted]. intros x y. rewrite leb_Z. lia. }
  split_and!.
  - rewrite length_take. f_equal. rewrite Hperm. unfold m. by rewrite length_map_to_list, <- Hdom, size_dom.
  - rewrite fmap_take. eapply sublist_NoDup; [exact Hnd|apply sublist_take].
  - intros g k Hgk. apply Hm. rewrite <- Hperm. eapply elem_of_take in Hgk as (i & Hi & _). by eapply list_elem_of_lookup_2.
  - rewrite <- (take_drop count sorted) in Hso. by apply StronglySorted_app_1_l in Hso.
  - intros g x Hg Hout Hx. assert ((g, occurrences g ws) ∈ sorted) as Hin by (rewrite Hperm; by apply Hm).
    rewrite <- (take_drop count sorted), elem_of_app in Hin. destruct Hin as [Hin|Hin]; [exfalso; apply Hout; change g with (g, occurrences g ws).1; by apply list_elem_of_fmap_2|].
    apply (take_sorted_rest _ count sorted x (g, occurrences g ws) Hso Hx Hin).
Qed.
End exact.

(** ** Examples *)

Module StatsDemo.
#[local] Instance ascii_graphemes : Graphemes := λ l, (λ c, [c]) <$> l.
#[local] Instance ascii_graphemes_laws : GraphemesLaws.
Proof.
  split.
  - intros l. unfold graphemes, ascii_graphemes. induction l as [|c l IH]; [done|]. cbn. by rewrite IH.
  - intros l. apply Forall_forall. by intros g (c & -> & _)%list_elem_of_fmap.
  - done.
Qed.

Definition settings : StatsSettings := mk_ssettings ["sudo"] ["cargo"; "git"] ["cd"].
Definition ran (command : string) : Entry := mk_hist "1" 1 5 0 command "/" "s" (Origin.new "h" "u") "u" None None None None.

Example interesting : interesting_command settings "sudo   cargo build foo" = "cargo build" ∧ strip_leading_env_vars "FOO=1 B='x y' echo a=b" = "echo a=b".
Proof. done. Qed.

Definition day : list Entry := [ran "git log | wc"; ran "cd x"; ran "A=1 git log"].

Lemma stats_count_exactly_witness :
  ∃ t, compute settings id day 1 1 = Some (match t with [] => None | _ => Some (mk_stats 2 3 t) end) ∧ length t = 1%nat ∧
    ∀ c, (["git log"], c) ∈ t → c = 2%nat.
Proof.
  destruct (stats_count_exactly settings id day 1 1) as (t & Hc & Hl & _ & Hg & _); [done..|]. exists t. split_and!.
  - assert (length (filter (counted settings) day) = 2%nat) as E1 by (by vm_compute).
    assert (size (list_to_set (concat (texts <$> filter (counted settings) day)) : gset string) = 3%nat) as E2 by (by vm_compute).
    by rewrite E1, E2 in Hc.
  - rewrite Hl. by vm_compute.
  - intros c [-> _]%Hg. by vm_compute.
Defined.

Lemma pieces_join_to_command_witness : join_pipe (split_pieces (chars "a | b || c")) = chars "a | b || c".
Proof. apply pieces_join_to_command. apply (bool_decide_unpack _). by vm_compute. Defined.

(** ** Where the statistics differ from what is meant *)

(** A prefix is taken off the middle of a word. *)
Theorem prefix_cuts_words : interesting_command settings "sudoku play" = "ku".
Proof. done. Qed.

(** Quotes of one kind inside the other are taken for quotes, and the pipe after them is not seen. *)
Theorem apostrophe_hides_pipe : split_at_pipe (unchars (chars "echo " ++ [dquote] ++ chars "it's" ++ [dquote] ++ chars " | wc")) =
  [unchars (chars "echo " ++ [dquote] ++ chars "it's" ++ [dquote] ++ chars " | wc")].
Proof. done. Qed.

(** The alternative of a command counts as a pipe, with a command of no text between. *)
Theorem alternative_counts_empty_command : split_at_pipe "a || b" = ["a "; ""; " b"].
Proof. done. Qed.
End StatsDemo.
