(* ===== verification/Import.v ===== *)
(** * Importing the history of other programs ([atuin-client/src/import], [command/client/import.rs])

    Each importer reads a file (its bytes) or the rows of a database into imported entries, which the
    loader saves in batches. The present time, the fresh ids and the environment are arguments. A date
    lies in the range that the tests of [offset_date_time.rs] document, in nanoseconds; arithmetic that
    leaves it panics where the code does not check. The xonsh and resh importers, which read floating
    point numbers, are left out. *)
From S2P Require Import Prelude Text Record Rmp RmpWire Encryption SqliteStore Log History HistoryStore.

Abbreviation bytes := (list Ascii.ascii) (only parsing).

(** ** Text of the standard library *)

(** [str::from_utf8]: the ranges of the bytes that are still expected. *)
Definition any_tail : Z * Z := (128, 191).
Definition lead_byte (c : Ascii.ascii) : option (list (Z * Z)) :=
  let z := code c in
  if z <? 128 then Some []
  else if (194 <=? z) && (z <=? 223) then Some [any_tail]
  else if z =? 224 then Some [(160, 191); any_tail]
  else if z =? 237 then Some [(128, 159); any_tail]
  else if (225 <=? z) && (z <=? 239) then Some [any_tail; any_tail]
  else if z =? 240 then Some [(144, 191); any_tail; any_tail]
  else if (241 <=? z) && (z <=? 243) then Some [any_tail; any_tail; any_tail]
  else if z =? 244 then Some [(128, 143); any_tail; any_tail]
  else None.

Definition utf8_step (st : list (Z * Z)) (c : Ascii.ascii) : option (list (Z * Z)) :=
  match st with
  | [] => lead_byte c
  | (lo, hi) :: st => if (lo <=? code c) && (code c <=? hi) then Some st else None
  end.

Fixpoint utf8_run (st : list (Z * Z)) (l : bytes) : option (list (Z * Z)) :=
  match l with
  | [] => Some st
  | c :: l => match utf8_step st c with Some st => utf8_run st l | None => None end
  end.
Definition valid_utf8 (l : bytes) : bool := bool_decide (utf8_run [] l = Some []).
Definition from_utf8 (l : bytes) : option bytes := if valid_utf8 l then Some l else None.

(** [String::from_utf8_lossy]: every longest part that begins no character becomes U+FFFD. *)
Definition replacement : bytes := byte <$> [239; 191; 189].
Fixpoint lossy (st : list (Z * Z)) (cur l : bytes) : bytes :=
  match l with
  | [] => match st with [] => [] | _ => replacement end
  | c :: l =>
      match utf8_step st c with
      | Some [] => cur ++ c :: lossy [] [] l
      | Some st => lossy st (cur ++ [c]) l
      | None =>
          match st with
          | [] => replacement ++ lossy [] [] l
          | _ =>
              replacement ++
              match lead_byte c with
              | Some [] => c :: lossy [] [] l
              | Some st => lossy st [c] l
              | None => replacement ++ lossy [] [] l
              end
          end
      end
  end.
Definition from_utf8_lossy (l : bytes) : string := unchars (lossy [] [] l).

(** [str::parse::<i64>] *)
Definition parse_i64 (l : bytes) : option Z :=
  let '(neg, ds) := match l with
                    | c :: r => if decide (c = byte 45) then (true, r) else if decide (c = byte 43) then (false, r) else (false, l)
                    | [] => (false, [])
                    end in
  if bool_decide (ds = []) || negb (forallb is_digit ds) then None
  else
    let v := if neg : bool then - digits_value ds else digits_value ds in
    if (- i64_limit <=? v) && (v <? i64_limit) then Some v else None.

(** [i64::saturating_mul] *)
Definition saturating_mul (x y : Z) : Z := Z.max (- i64_limit) (Z.min (i64_limit - 1) (x * y)).

(** [strip_suffix] with an ASCII character. *)
Definition strip_last (c : Ascii.ascii) (l : bytes) : option bytes :=
  match reverse l with x :: r => if decide (x = c) then Some (reverse r) else None | [] => None end.

(** [str::replace]; each step takes a byte or more, so the length is enough fuel. *)
Fixpoint replace_text (fuel : nat) (p w l : bytes) : bytes :=
  match fuel, l with
  | S fuel, c :: l' =>
      match strip_prefix_l p l with
      | Some r => w ++ replace_text fuel p w r
      | None => c :: replace_text fuel p w l'
      end
  | _, _ => l
  end.
Definition str_replace (p w l : bytes) : bytes := replace_text (length l) p w l.

Definition backslash : Ascii.ascii := byte 92.
Definition char_n : Ascii.ascii := byte 110.
Definition semicolon : Ascii.ascii := byte 59.
Definition backtick : Ascii.ascii := byte 96.
Definition carriage_return : Ascii.ascii := byte 13.
Definition etb : Ascii.ascii := byte 23.

(** ** Dates *)

Definition SECOND : Z := 1000000000.
Definition MILLI : Z := 1000000.
Definition MIN_DATE : Z := -377705116800 * SECOND.
Definition MAX_DATE : Z := 253402300800 * SECOND - 1.

(** [from_unix_nanos]: none out of range. [checked_add] and [checked_sub] answer alike. *)
Definition date (t : Z) : option Z := if (MIN_DATE <=? t) && (t <=? MAX_DATE) then Some t else None.
(** [OffsetDateTime::from_unix_timestamp] *)
Definition from_unix_timestamp (secs : Z) : option Z := date (secs * SECOND).
(** [OffsetDateTimeExt::from_timespec] *)
Definition from_timespec (secs nsecs : Z) : option Z :=
  let i128 := 2 ^ 127 in
  let in_i128 z := (- i128 <=? z) && (z <? i128) in
  if in_i128 (secs * SECOND) && in_i128 (secs * SECOND + nsecs) then date (secs * SECOND + nsecs) else None.
(** [u32::try_from(n).unwrap_or(u32::MAX)] *)
Definition as_u32 (n : nat) : Z := Z.min (Z.of_nat n) (2 ^ 32 - 1).

(** ** Imported entries *)

(** [HistoryImported] with what the importers set. *)
Record Imported : Type := mk_imported {
  i_timestamp : Z; i_command : string; i_cwd : string; i_exit : Z; i_duration : Z;
  i_session : option string; i_origin : option CmdOrigin; i_shell : option string
}.
#[export] Instance Imported_eq_dec : EqDecision Imported.
Proof. solve_decision. Defined.

Definition DEFAULT_EXIT : Z := -1.
Definition DEFAULT_DURATION : Z := -1.

(** [History::import()] with a shell, a time and a command. *)
Definition import_line (shell : string) (t : Z) (command : bytes) : Imported :=
  mk_imported t (unchars command) "unknown" DEFAULT_EXIT DEFAULT_DURATION None None (Some shell).

(** [From<HistoryImported> for History] *)
Definition imported_entry (p : Probe) (i : Imported) : Entry :=
  Entry.new p (i_timestamp i) (i_command i) (i_cwd i) (i_exit i) (i_duration i) (i_session i) (i_origin i) None None None (i_shell i) None.

(** [unix_byte_lines]: the lines that are terminated. *)
Definition unix_byte_lines (l : bytes) : list bytes := removelast (split_l line_feed l).
Definition count_lines (l : bytes) : nat := length (unix_byte_lines l).

(** ** Bash *)

Module Bash.

Inductive LineType : Type := NotUtf8 | Empty | Timestamp (t : Z) | Command (c : bytes).

Definition try_parse_line_as_timestamp (line : bytes) : option Z :=
  s ← strip_prefix_l (chars "#") line; seconds ← parse_i64 s; from_unix_timestamp seconds.

(** [From<&[u8]> for LineType] *)
Definition line_type (b : bytes) : LineType :=
  match from_utf8 b with
  | None => NotUtf8
  | Some [] => Empty
  | Some line => match try_parse_line_as_timestamp line with Some t => Timestamp t | None => Command line end
  end.

Definition is_command (l : LineType) : bool := match l with Command _ => true | _ => false end.
Definition is_text (l : LineType) : bool := match l with NotUtf8 => false | _ => true end.

(** [entries] *)
Definition entries (file : bytes) : nat := length (List.filter is_command (line_type <$> unix_byte_lines file)).

(** [find_map] over the enumerated lines. *)
Fixpoint first_timestamp (i : nat) (ls : list LineType) : option (nat * Z) :=
  match ls with
  | [] => None
  | Timestamp t :: _ => Some (i, t)
  | _ :: ls => first_timestamp (S i) ls
  end.

Definition start (now : Z) (ls : list LineType) : Z :=
  let '(before, first) := default (length ls, now) (first_timestamp 0 ls) in
  default first (date (first - MILLI * as_u32 before)).

(** The loop over the lines. *)
Fixpoint load_lines (next : Z) (ls : list LineType) : list Imported :=
  match ls with
  | [] => []
  | NotUtf8 :: ls | Empty :: ls => load_lines next ls
  | Timestamp t :: ls => load_lines t ls
  | Command c :: ls => import_line "bash" next c :: load_lines (default next (date (next + MILLI))) ls
  end.

(** [load] *)
Definition load (now : Z) (file : bytes) : list Imported :=
  let ls := List.filter is_text (line_type <$> unix_byte_lines file) in load_lines (start now ls) ls.
End Bash.

(** ** Zsh *)

Module Zsh.

Record ZEntry : Type := mk_zentry { z_command : bytes; z_timestamp : option Z; z_duration : option Z }.

Definition trim_end_l (l : bytes) : bytes := chars (trim_end (unchars l)).

(** [Entry::parse] *)
Definition parse (line : bytes) : ZEntry :=
  match (rest ← strip_prefix_l (chars ": ") line;
         '(time, rest) ← split_once_l Origin.colon rest;
         '(dur, cmd) ← split_once_l semicolon rest; Some (time, dur, cmd)) with
  | None => mk_zentry (trim_end_l line) None None
  | Some (time, duration, command) =>
      mk_zentry (trim_end_l command) (t ← parse_i64 time; from_unix_timestamp t)
        (Some (match parse_i64 duration with Some t => saturating_mul t SECOND | None => -1 end))
  end.

Definition Meta : Ascii.ascii := byte 131.
Definition flip32 (c : Ascii.ascii) : Ascii.ascii := byte (Z.lxor (code c) 32).

(** [unmetafy] *)
Fixpoint unmeta (is_meta : bool) (l : bytes) : bytes :=
  match l with
  | [] => []
  | c :: l =>
      if decide (c = Meta) then unmeta true l
      else if is_meta then flip32 c :: unmeta false l
      else c :: unmeta false l
  end.
Definition unmetafy (line : bytes) : option bytes := from_utf8 (if bool_decide (Meta ∈ line) then unmeta false line else line).

(** The loop over the lines: [line] is what has been continued. *)
Fixpoint read_entries (line : bytes) (ls : list bytes) : list ZEntry :=
  match ls with
  | [] => []
  | b :: ls =>
      match unmetafy b with
      | None => read_entries line ls
      | Some s =>
          match strip_last backslash s with
          | Some s => read_entries (line ++ s ++ [line_feed]) ls
          | None => parse (line ++ s) :: read_entries [] ls
          end
      end
  end.

Fixpoint first_timestamp (i : nat) (es : list ZEntry) : option (nat * Z) :=
  match es with
  | [] => None
  | e :: es => match z_timestamp e with Some t => Some (S i, t) | None => first_timestamp (S i) es end
  end.

Definition start (now : Z) (es : list ZEntry) : Z :=
  let '(until, first) := default (length es, now) (first_timestamp 0 es) in
  default first (date (first - MILLI * as_u32 until)).

Fixpoint load_entries (timestamp : Z) (es : list ZEntry) : list Imported :=
  match es with
  | [] => []
  | e :: es =>
      let t := match z_timestamp e with Some t => t | None => default timestamp (date (timestamp + MILLI)) end in
      mk_imported t (unchars (z_command e)) "unknown" DEFAULT_EXIT (default DEFAULT_DURATION (z_duration e)) None None (Some "zsh")
      :: load_entries t es
  end.

Definition num_entries (file : bytes) : nat := count_lines file.

(** [load] *)
Definition load (now : Z) (file : bytes) : list Imported :=
  let es := read_entries [] (unix_byte_lines file) in load_entries (start now es) es.
End Zsh.

(** ** Fish *)

Module Fish.

(** The two replacements of a command. *)
Definition unescape (c : bytes) : bytes :=
  str_replace [backslash; char_n] [line_feed] (str_replace [backslash; backslash] [backslash] c).

Definition process_cmd (now : Z) (cmd : option bytes) (time : option Z) : list Imported :=
  match cmd with None => [] | Some cmd => [import_line "fish" (default now time) cmd] end.

Fixpoint load_lines (now : Z) (time : option Z) (cmd : option bytes) (ls : list bytes) : list Imported :=
  match ls with
  | [] => process_cmd now cmd time
  | b :: ls =>
      match from_utf8 b with
      | None => load_lines now time cmd ls
      | Some s =>
          match strip_prefix_l (chars "- cmd: ") s with
          | Some c => process_cmd now cmd time ++ load_lines now time (Some (unescape c)) ls
          | None =>
              match strip_prefix_l (chars "  when: ") s with
              | Some t => load_lines now (or_else (t ← parse_i64 t; from_unix_timestamp t) time) cmd ls
              | None => load_lines now time cmd ls
              end
          end
      end
  end.

(** [load] *)
Definition load (now : Z) (file : bytes) : list Imported := load_lines now None None (unix_byte_lines file).
End Fish.

(** ** Nushell, replxx and PowerShell *)

Module Nu.
Fixpoint load_lines (t : Z) (ls : list bytes) : option (list Imported) :=
  match ls with
  | [] => Some []
  | b :: ls =>
      next ← date (t + MILLI);
      rest ← load_lines next ls;
      Some (match from_utf8 b with None => rest | Some s => import_line "nu" t (str_replace (chars "<\n>") [line_feed] s) :: rest end)
  end.

(** [load]: none where a date overflows and the process panics. *)
Definition load (now : Z) (file : bytes) : option (list Imported) :=
  t ← date (now - MILLI * as_u32 (count_lines file - 1)); load_lines t (unix_byte_lines file).
End Nu.

Module Replxx.
Fixpoint load_lines (parse_date : bytes → option Z) (t : Z) (ls : list bytes) : list Imported :=
  match ls with
  | [] => []
  | b :: ls =>
      match from_utf8 b with
      | None => load_lines parse_date t ls
      | Some s =>
          match (d ← strip_prefix_l (chars "### ") s; parse_date d) with
          | Some t => load_lines parse_date t ls
          | None => import_line "replxx" t ((λ c, if decide (c = etb) then line_feed else c) <$> s) :: load_lines parse_date t ls
          end
      end
  end.

(** [load]; the format is read by the [time] crate. *)
Definition load (parse_date : bytes → option Z) (file : bytes) : list Imported := load_lines parse_date 0 (unix_byte_lines file).
Definition entries (file : bytes) : nat := (count_lines file / 2)%nat.
End Replxx.

Module PowerShell.

Definition read_line (b : bytes) : option bytes := s ← from_utf8 b; Some (default s (strip_last carriage_return s)).

(** The commands of the lines; [cur] is one whose last backtick has been taken off. *)
Fixpoint commands (cur : option bytes) (ls : list bytes) : list bytes :=
  match ls with
  | [] => match cur with Some c => [c] | None => [] end
  | b :: ls =>
      match read_line b, cur with
      | None, None => commands None ls
      | None, Some c => c :: commands None ls
      | Some s, _ =>
          let cmd := match cur with None => s | Some c => c ++ line_feed :: s end in
          match strip_last backtick cmd with
          | Some c => commands (Some c) ls
          | None => cmd :: commands None ls
          end
      end
  end.

Fixpoint stamp (t : Z) (cmds : list bytes) : option (list Imported) :=
  match cmds with
  | [] => Some []
  | c :: cmds => d ← date t; rest ← stamp (t + MILLI) cmds; Some (import_line "powershell" d c :: rest)
  end.

(** [load]: none where a date overflows and the process panics. *)
Definition load (now : Z) (file : bytes) : option (list Imported) :=
  start ← date (now - MILLI * Z.of_nat (count_lines file));
  stamp start (filter (λ c, c ≠ []) (commands None (unix_byte_lines file))).
End PowerShell.

(** ** The history databases of zsh and nushell *)

Module ZshHistDb.
Record DbEntry : Type := mk_dbentry {
  d_start_time : Z; d_host : bytes; d_dir : bytes; d_argv : bytes; d_duration : Z; d_exit_status : Z; d_session : Z
}.

(** [load]; [fresh] are the ids for new sessions, [probe] the present host and [username] the user. *)
Fixpoint load (probe username : string) (sessions : gmap Z string) (fresh : list string) (es : list DbEntry) : list Imported :=
  match es with
  | [] => []
  | e :: es =>
      match from_utf8 (d_argv e), from_utf8 (d_dir e) with
      | Some command, Some cwd =>
          let hostname := match from_utf8 (d_host e) with Some h => unchars h | None => probe end in
          let '(session, sessions, fresh) :=
            match sessions !! d_session e with
            | Some s => (s, sessions, fresh)
            | None => let s := default ""%string (head fresh) in (s, <[d_session e := s]> sessions, tail fresh)
            end in
          mk_imported (d_start_time e) (trim_end (unchars command)) (trim_end (unchars cwd)) (d_exit_status e) (saturating_mul (d_duration e) SECOND)
            (Some session) (Some (Origin.new hostname username)) (Some "zsh"%string) :: load probe username sessions fresh es
      | _, _ => load probe username sessions fresh es
      end
  end.
End ZshHistDb.

Module NuHistDb.
Record DbEntry : Type := mk_dbentry {
  d_command_line : bytes; d_start_timestamp : Z; d_session_id : Z; d_hostname : bytes; d_cwd : bytes; d_duration_ms : Z; d_exit_status : Z
}.

Definition hex_digit (z : Z) : Ascii.ascii := byte (if z <? 10 then 48 + z else 87 + z).
Fixpoint hex_digits (fuel : nat) (z : Z) (acc : bytes) : bytes :=
  match fuel with
  | O => acc
  | S fuel => let acc := hex_digit (z mod 16) :: acc in if z <? 16 then acc else hex_digits fuel (z / 16) acc
  end.
(** [format!("{:x}")] of an [i64]: its bits, sixteen digits at most. *)
Definition hex_i64 (z : Z) : string := unchars (hex_digits 16 (i64_as_u64 z) []).

(** [From<HistDbEntry> for History] *)
Definition imported (e : DbEntry) : Imported :=
  let secs := Z.quot (d_start_timestamp e) 1000 in
  let ns := Z.rem (d_start_timestamp e) 1000 * 1000000 in
  mk_imported (default 0 (from_timespec secs ns)) (from_utf8_lossy (d_command_line e)) (from_utf8_lossy (d_cwd e)) (d_exit_status e)
    (d_duration_ms e) (Some (hex_i64 (d_session_id e))) (Some (Origin.new (from_utf8_lossy (d_hostname e)) UNKNOWN_USER)) (Some "nu"%string).

(** [load] of the rows, which the query orders by time. *)
Definition load (es : list DbEntry) : list Imported := imported <$> es.
End NuHistDb.

(** ** The loader *)

Module HistoryImporter.

Record t : Type := mk_importer { buf : list Entry; db : list Entry }.

Definition BATCH_SIZE : nat := 100.
Definition new (db : list Entry) : t := mk_importer [] db.

(** [push]; [Vec::with_capacity] allocates the capacity or more. *)
Definition push (capacity : nat) (s : t) (h : Entry) : t :=
  let buf := buf s ++ [h] in
  if decide (length buf = capacity) then mk_importer [] (HistoryDb.save_bulk (db s) buf) else mk_importer buf (db s).

(** [flush] *)
Definition flush (s : t) : list Entry := HistoryDb.save_bulk (db s) (buf s).

(** [import]: each entry is made from what the environment answers at that time. *)
Definition import (capacity : nat) (database : list Entry) (probes : list Probe) (items : list Imported) : list Entry :=
  flush (foldl (push capacity) (new database) (zip_with imported_entry probes items)).
End HistoryImporter.

(** ** The choice of an importer *)

Inductive Shell_ : Type := IZsh | IZshHistDb | IBash | IReplxx | IResh | IFish | INu | INuHistDb | IXonsh | IXonshSqlite | IPowerShell.

(** [Cmd::Auto]; [has_zsh_histdb] and [has_nu_histdb] tell whether those databases were found. *)
Definition detect (windows ps_module_path : bool) (lowercase : string → string) (xonsh_histfile shell : option string)
    (has_zsh_histdb has_nu_histdb : bool) : option Shell_ :=
  if windows then if ps_module_path then Some IPowerShell else None
  else
    let histfile := lowercase (default ""%string xonsh_histfile) in
    let shell := default "NO_SHELL"%string shell in
    if ends_with ".json" histfile then Some IXonsh
    else if ends_with ".sqlite" histfile then Some IXonshSqlite
    else if ends_with "/zsh" shell then Some (if has_zsh_histdb then IZshHistDb else IZsh)
    else if ends_with "/fish" shell then Some IFish
    else if ends_with "/bash" shell then Some IBash
    else if ends_with "/nu" shell then Some (if has_nu_histdb then INuHistDb else INu)
    else if ends_with "/pwsh" shell then Some IPowerShell
    else None.

(** ** Lemmas on text *)

Section text_lemmas.

Lemma utf8_run_app st a b : utf8_run st (a ++ b) = st' ← utf8_run st a; utf8_run st' b.
Proof. revert st. induction a as [|c a IH]; intros st; [done|]. cbn [app utf8_run]. by destruct (utf8_step st c). Qed.

Lemma lead_byte_ranges c st : lead_byte c = Some st → Forall (λ r, 128 ≤ r.1) st.
Proof. unfold lead_byte. repeat case_match; intros [= <-]; repeat constructor; cbn; lia. Qed.

Lemma utf8_run_ranges st l st' : Forall (λ r, 128 ≤ r.1) st → utf8_run st l = Some st' → Forall (λ r, 128 ≤ r.1) st'.
Proof.
  revert st. induction l as [|c l IH]; intros st Hst; cbn [utf8_run]; [by intros [= <-]|].
  destruct (utf8_step st c) as [st1|] eqn:E; [|done]. apply IH. destruct st as [|[lo hi] st]; cbn in E.
  - by eapply lead_byte_ranges.
  - apply Forall_cons in Hst as [_ Hst]. destruct (_ && _); [by injection E as <-|done].
Qed.

(** An ASCII character stands between characters, so text may be cut at it. *)
Lemma valid_utf8_cut x c y : code c < 128 → valid_utf8 (x ++ c :: y) = valid_utf8 x && valid_utf8 y.
Proof.
  intros Hc. unfold valid_utf8. rewrite utf8_run_app. destruct (utf8_run [] x) as [st|] eqn:Ex; cbn [mbind option_bind]; [|done].
  destruct st as [|[lo hi] st].
  - cbn [utf8_run utf8_step]. unfold lead_byte. rewrite (proj2 (Z.ltb_lt _ _)) by done. by rewrite (bool_decide_eq_true_2 (Some [] = Some [])).
  - pose proof (utf8_run_ranges [] x _ ltac:(constructor) Ex) as [Hlo _]%Forall_cons. cbn in Hlo. cbn [utf8_run utf8_step].
    rewrite (proj2 (Z.leb_gt lo (code c))) by lia. done.
Qed.

Lemma valid_utf8_ascii p y : Forall (λ c, code c < 128) p → valid_utf8 (p ++ y) = valid_utf8 y.
Proof.
  induction 1 as [|c p Hc Hp IH]; [done|]. change ((c :: p) ++ y) with ([] ++ c :: (p ++ y)). rewrite valid_utf8_cut by done. cbn. exact IH.
Qed.

Lemma from_utf8_valid l : valid_utf8 l = true → from_utf8 l = Some l.
Proof. unfold from_utf8. by intros ->. Qed.

Lemma strip_last_snoc c l : strip_last c (l ++ [c]) = Some l.
Proof. unfold strip_last. rewrite reverse_snoc, decide_True by done. by rewrite reverse_involutive. Qed.

Lemma strip_last_None c l : last l ≠ Some c → strip_last c l = None.
Proof.
  unfold strip_last. destruct l as [|x l _] using rev_ind; [done|]. rewrite reverse_snoc, last_snoc. intros Hx.
  rewrite decide_False; [done|]. by intros ->.
Qed.

Lemma split_once_first c x y : c ∉ x → split_once_l c (x ++ c :: y) = Some (x, y).
Proof.
  induction x as [|a x IH]; intros Hx; cbn; [by rewrite decide_True|]. apply not_elem_of_cons in Hx as [Ha Hx].
  rewrite decide_False by congruence. by rewrite IH.
Qed.

Lemma split_at (c : Ascii.ascii) x y : c ∉ x → split_l c (x ++ c :: y) = x :: split_l c y.
Proof.
  induction x as [|a x IH]; intros Hx; cbn; [by rewrite decide_True|]. apply not_elem_of_cons in Hx as [Ha Hx].
  rewrite decide_False by congruence. by rewrite IH.
Qed.

Lemma split_no_sep (c : Ascii.ascii) x : Forall (λ l, c ∉ l) (split_l c x) ∧ split_l c x ≠ [].
Proof.
  induction x as [|a x [IH Hne]]; cbn; [split; [by constructor; [apply not_elem_of_nil|]|done]|].
  destruct (decide (a = c)) as [->|Ha]; [split; [constructor; [apply not_elem_of_nil|done]|done]|].
  destruct (split_l c x) as [|w ws]; [done|]. split; [|done]. apply Forall_cons in IH as [Hw Hws]. constructor; [|done].
  apply not_elem_of_cons. split; [congruence|done].
Qed.

(** A file of terminated lines. *)
Definition write_lines (ls : list bytes) : bytes := concat ((λ l, l ++ [line_feed]) <$> ls).

Lemma byte_lines_written ls : Forall (λ l, line_feed ∉ l) ls → unix_byte_lines (write_lines ls) = ls.
Proof.
  intros Hl. unfold unix_byte_lines. assert (split_l line_feed (write_lines ls) = ls ++ [[]]) as ->; [|apply removelast_last].
  induction Hl as [|l ls Hl Hls IH]; [done|]. unfold write_lines. cbn [fmap list_fmap concat]. rewrite <- app_assoc. cbn [app].
  rewrite split_at by done. cbn [app]. f_equal. exact IH.
Qed.

Fixpoint join_lines (ls : list bytes) : bytes :=
  match ls with [] => [] | [l] => l | l :: ls => l ++ line_feed :: join_lines ls end.

Lemma join_lines_cons l ls : ls ≠ [] → join_lines (l :: ls) = l ++ line_feed :: join_lines ls.
Proof. by destruct ls. Qed.

Lemma join_split l : join_lines (split_l line_feed l) = l.
Proof.
  induction l as [|a l IH]; [done|]. cbn [split_l]. pose proof (split_no_sep line_feed l) as [_ Hne]. case_decide as E.
  - rewrite join_lines_cons by done. by rewrite IH, E.
  - destruct (split_l line_feed l) as [|w ws]; [done|]. destruct ws as [|w' ws]; [cbn in *; by f_equal|].
    rewrite join_lines_cons in IH |- * by done. cbn [app]. by f_equal.
Qed.

Lemma valid_split l : valid_utf8 l = true → Forall (λ p, valid_utf8 p = true) (split_l line_feed l).
Proof.
  intros Hl. rewrite <- (join_split l) in Hl. pose proof (split_no_sep line_feed l) as [_ Hne]. revert Hl Hne.
  induction (split_l line_feed l) as [|p ps IH]; [done|]. intros Hl _. destruct ps as [|q ps]; [by repeat constructor|].
  rewrite join_lines_cons, valid_utf8_cut in Hl by done. apply andb_true_iff in Hl as [Hp Hps]. constructor; [done|by apply IH].
Qed.

(** *** Numbers *)

Fixpoint dec_digits (fuel : nat) (n : Z) (acc : bytes) : bytes :=
  match fuel with
  | O => acc
  | S fuel => let acc := byte (48 + n mod 10) :: acc in if n <? 10 then acc else dec_digits fuel (n / 10) acc
  end.
(** The decimal digits of a number below [2 ^ 63]. *)
Definition dec (n : Z) : bytes := dec_digits 19 n [].

Lemma dec_digits_value fuel n acc :
  0 ≤ n < 10 ^ Z.of_nat fuel → (0 < fuel)%nat →
  foldl (λ n c, 10 * n + (code c - 48)) 0 (dec_digits fuel n acc) = foldl (λ n c, 10 * n + (code c - 48)) n acc.
Proof.
  revert n acc. induction fuel as [|fuel IH]; intros n acc Hn Hf; [lia|]. cbn [dec_digits].
  pose proof (Z.mod_pos_bound n 10). destruct (n <? 10) eqn:E.
  - apply Z.ltb_lt in E. cbn [foldl]. f_equal. rewrite code_byte by lia. rewrite Z.mod_small; lia.
  - apply Z.ltb_ge in E. rewrite Nat2Z.inj_succ, Z.pow_succ_r in Hn by lia. assert (fuel ≠ O) by (intros ->; cbn in Hn; lia).
    rewrite IH; [|split; [apply Z.div_pos; lia|apply Z.div_lt_upper_bound; lia]|lia]. cbn [foldl]. f_equal.
    rewrite code_byte by lia. pose proof (Z.div_mod n 10). lia.
Qed.

Lemma dec_digits_all fuel n acc : 0 ≤ n → forallb is_digit acc = true → forallb is_digit (dec_digits fuel n acc) = true.
Proof.
  revert n acc. induction fuel as [|fuel IH]; intros n acc Hn Ha; [done|]. cbn [dec_digits]. pose proof (Z.mod_pos_bound n 10).
  assert (forallb is_digit (byte (48 + n mod 10) :: acc) = true) as H'.
  { cbn [forallb]. rewrite Ha, andb_true_r. unfold is_digit. rewrite code_byte by lia. lia. }
  destruct (n <? 10); [done|]. apply IH; [apply Z.div_pos; lia|done].
Qed.

Lemma dec_digits_ne fuel n acc : acc ≠ [] ∨ (0 < fuel)%nat → dec_digits fuel n acc ≠ [].
Proof.
  revert n acc. induction fuel as [|fuel IH]; intros n acc H; cbn [dec_digits]; [destruct H; [done|lia]|]. destruct (n <? 10); [done|]. apply IH. by left.
Qed.

Lemma dec_is_digits n : 0 ≤ n → Forall (λ c, is_digit c = true) (dec n).
Proof.
  intros Hn. pose proof (dec_digits_all 19 n [] Hn eq_refl) as H. rewrite forallb_forall in H. apply Forall_forall. intros c Hc. by apply H, list_elem_of_In.
Qed.

Lemma parse_dec n : 0 ≤ n < i64_limit → parse_i64 (dec n) = Some n.
Proof.
  intros Hn. pose proof (dec_is_digits n ltac:(lia)) as Hd. unfold parse_i64. pose proof (dec_digits_ne 19 n [] ltac:(right; lia)) as Hne. fold (dec n) in Hne.
  assert (match dec n with
          | c :: r => if decide (c = byte 45) then (true, r) else if decide (c = byte 43) then (false, r) else (false, dec n)
          | [] => (false, [])
          end = (false, dec n)) as ->.
  { destruct (dec n) as [|c r]; [done|]. apply Forall_cons in Hd as [Hc _].
    rewrite !decide_False; [done|intros ->; done|intros ->; done]. }
  rewrite bool_decide_eq_false_2 by done. assert (forallb is_digit (dec n) = true) as ->.
  { apply (dec_digits_all 19 n []); [lia|done]. }
  cbn [orb negb]. assert (digits_value (dec n) = n) as ->.
  { unfold digits_value, dec. rewrite dec_digits_value; [done| |lia]. split; [lia|]. change i64_limit with (2 ^ 63) in Hn. lia. }
  rewrite (proj2 (Z.leb_le _ _)), (proj2 (Z.ltb_lt _ _)); [done|lia|]. pose proof (eq_refl : (0 <? i64_limit) = true) as H0%Z.ltb_lt. lia.
Qed.

Lemma not_in_dec c n : 0 ≤ n → is_digit c = false → c ∉ dec n.
Proof. intros Hn Hc Hin. pose proof (dec_is_digits n Hn) as Hd. rewrite Forall_forall in Hd. specialize (Hd c Hin). by rewrite Hc in Hd. Qed.

Lemma dec_ascii n : 0 ≤ n → Forall (λ c, code c < 128) (dec n).
Proof. intros Hn. eapply Forall_impl; [by apply dec_is_digits|]. intros c. unfold is_digit. cbn. lia. Qed.
End text_lemmas.

(** ** Bash *)

Section bash.
Import Bash.

(** No time reversal is warned of and no date reaches the end of the range. *)
Fixpoint orderly (next : Z) (ls : list LineType) : bool :=
  match ls with
  | [] => true
  | NotUtf8 :: ls | Empty :: ls => orderly next ls
  | Timestamp t :: ls => (next <=? t) && orderly t ls
  | Command _ :: ls => (next + MILLI <=? MAX_DATE) && orderly (next + MILLI) ls
  end.

Lemma date_in_range t : MIN_DATE ≤ t → t ≤ MAX_DATE → date t = Some t.
Proof. intros H1 H2. unfold date. by rewrite (proj2 (Z.leb_le _ _) H1), (proj2 (Z.leb_le _ _) H2). Qed.

Lemma load_lines_order next ls :
  orderly next ls = true → MIN_DATE ≤ next → 
  Forall (λ i, next ≤ i_timestamp i) (load_lines next ls) ∧ StronglySorted (λ i j, i_timestamp i < i_timestamp j) (load_lines next ls).
Proof.
  revert next. induction ls as [|l ls IH]; intros next Ho Hm; [by repeat constructor|]. destruct l as [| |t|c]; cbn [orderly load_lines] in *; [by apply IH..| |].
  - apply andb_true_iff in Ho as [Ht Ho]. apply Z.leb_le in Ht. destruct (IH t Ho ltac:(lia)) as [H1 H2]. split; [|done].
    eapply Forall_impl; [exact H1|]. cbn. lia.
  - apply andb_true_iff in Ho as [Ht Ho]. apply Z.leb_le in Ht. assert (0 < MILLI) by done. rewrite date_in_range by lia. cbn [default from_option id].
    destruct (IH (next + MILLI) Ho ltac:(lia)) as [H1 H2]. split.
    + constructor; [done|]. eapply Forall_impl; [exact H1|]. cbn. lia.
    + constructor; [done|]. eapply Forall_impl; [exact H1|]. cbn. lia.
Qed.

Lemma load_lines_commands next ls :
  i_command <$> load_lines next ls = omap (λ l, match l with Command c => Some (unchars c) | _ => None end) ls.
Proof. revert next. induction ls as [|[| |t|c] ls IH]; intros next; cbn; [done|apply IH..|]. f_equal. apply IH. Qed.

Lemma commands_text (ls : list LineType) :
  omap (λ l, match l with Command c => Some (unchars c) | _ => None end) (List.filter is_text ls) =
  omap (λ l, match l with Command c => Some (unchars c) | _ => None end) ls.
Proof. induction ls as [|[| |t|c] ls IH]; cbn; [done..| |]; [exact IH|by f_equal]. Qed.

Lemma length_commands (ls : list LineType) :
  length (omap (λ l, match l with Command c => Some (unchars c) | _ => None end) ls) = length (List.filter is_command ls).
Proof. induction ls as [|[| |t|c] ls IH]; cbn; [done|exact IH..|by f_equal]. Qed.

(** A bash history is imported command by command in the order of the file, as many as were announced,
    and unless a time reversal is warned of the times are in that order too, also those of commands that
    have none recorded. *)
Theorem bash_import_keeps_order now file :
  let ls := List.filter is_text (line_type <$> unix_byte_lines file) in
  i_command <$> load now file = omap (λ l, match l with Command c => Some (unchars c) | _ => None end) (line_type <$> unix_byte_lines file) ∧
  length (load now file) = entries file ∧
  (orderly (start now ls) ls = true → MIN_DATE ≤ start now ls → StronglySorted (λ i j, i_timestamp i < i_timestamp j) (load now file)).
Proof.
  intros ls. unfold load. fold ls. rewrite load_lines_commands. split; [apply commands_text|]. split.
  - rewrite <- (length_fmap i_command), load_lines_commands. unfold ls. rewrite commands_text. apply length_commands.
  - intros Ho Hm. by apply load_lines_order.
Qed.

(** The file that bash writes with [HISTTIMEFORMAT] set. *)
Definition bash_file (es : list (Z * bytes)) : bytes := write_lines (concat ((λ e, [chars "#" ++ dec e.1; e.2]) <$> es)).

Definition bash_entry (e : Z * bytes) : Prop :=
  0 ≤ e.1 ∧ e.1 * SECOND ≤ MAX_DATE ∧ valid_utf8 e.2 = true ∧ e.2 ≠ [] ∧ (line_feed ∉ e.2) ∧ try_parse_line_as_timestamp e.2 = None.

Lemma in_date_i64 t : 0 ≤ t → t * SECOND ≤ MAX_DATE → t < i64_limit ∧ from_unix_timestamp t = Some (t * SECOND).
Proof.
  intros H0 Ht. unfold from_unix_timestamp. unfold MAX_DATE, SECOND in *. split; [change i64_limit with (2 ^ 63); lia|].
  apply date_in_range; unfold MIN_DATE, MAX_DATE, SECOND; lia.
Qed.

Lemma hash_line t : 0 ≤ t → t * SECOND ≤ MAX_DATE → line_type (chars "#" ++ dec t) = Timestamp (t * SECOND).
Proof.
  intros H0 Ht. destruct (in_date_i64 t H0 Ht) as [Hi Hd]. unfold line_type. rewrite from_utf8_valid.
  - cbn [app chars String.list_ascii_of_string]. unfold try_parse_line_as_timestamp. rewrite (strip_prefix_l_app (chars "#") (dec t)).
    cbn [mbind option_bind]. rewrite parse_dec by done. cbn [mbind option_bind]. by rewrite Hd.
  - rewrite <- (app_nil_r (dec t)), app_assoc, valid_utf8_ascii; [done|]. apply Forall_app. split; [by repeat constructor|by apply dec_ascii].
Qed.

Lemma command_line c : valid_utf8 c = true → c ≠ [] → try_parse_line_as_timestamp c = None → line_type c = Command c.
Proof. intros Hv Hne Ht. unfold line_type. rewrite from_utf8_valid by done. destruct c; [done|]. by rewrite Ht. Qed.

(** A bash history with a time for every command is imported with just those. *)
Theorem bash_file_imports now es :
  Forall bash_entry es → load now (bash_file es) = (λ e, import_line "bash" (e.1 * SECOND) e.2) <$> es.
Proof.
  intros Hes. unfold load, bash_file. rewrite byte_lines_written.
  - set (x := List.filter _ _). generalize (start now x). unfold x. clear x. induction Hes as [|[t c] es (H0 & Ht & Hv & Hne & Hl & Hp) Hes IH]; intros next; [done|].
    cbn [fst snd] in *. cbn [fmap list_fmap concat app]. rewrite hash_line, command_line by done. cbn [List.filter is_text load_lines]. f_equal. apply IH.
  - induction Hes as [|[t c] es (H0 & Ht & Hv & Hne & Hl & Hp) Hes IH]; [done|]. cbn [fst snd] in *. cbn [fmap list_fmap concat app].
    constructor; [|by constructor]. cbn. apply not_elem_of_cons. split; [done|]. by apply not_in_dec.
Qed.
End bash.

(** ** Zsh *)

Section zsh.
Import Zsh.

(** Zsh writes the byte [Meta] and then the byte with a bit flipped for a NUL and for the bytes of a range
    that holds [Meta]. *)
Class ZshMeta : Type := is_meta_byte : Ascii.ascii → bool.
Class ZshMetaLaws `{ZshMeta} : Prop := {
  meta_itself : is_meta_byte Meta = true;
  meta_range c : is_meta_byte c = true → c = byte 0 ∨ 131 ≤ code c ≤ 162
}.
Context `{ZshMetaLaws}.

Fixpoint metafy (l : bytes) : bytes :=
  match l with [] => [] | c :: l => if is_meta_byte c then Meta :: flip32 c :: metafy l else c :: metafy l end.

Definition flip_check : bool :=
  forallb (λ n, let c := Ascii.ascii_of_nat n in
    if bool_decide (c = byte 0) || ((131 <=? code c) && (code c <=? 162))
    then bool_decide (flip32 c ≠ Meta) && bool_decide (flip32 (flip32 c) = c) && bool_decide (flip32 c ≠ line_feed) && bool_decide (c ≠ line_feed)
    else true) (seq 0 256).

Lemma flip_meta c : is_meta_byte c = true → flip32 c ≠ Meta ∧ flip32 (flip32 c) = c ∧ flip32 c ≠ line_feed ∧ c ≠ line_feed.
Proof.
  intros Hc%meta_range. assert (flip_check = true) as Hf by (by vm_compute). unfold flip_check in Hf. rewrite forallb_forall in Hf.
  specialize (Hf (Ascii.nat_of_ascii c)). rewrite Ascii.ascii_nat_embedding in Hf.
  assert (In (Ascii.nat_of_ascii c) (seq 0 256)) as Hin. { apply in_seq. pose proof (Ascii.nat_ascii_bounded c). lia. }
  specialize (Hf Hin). cbn zeta in Hf.
  assert (bool_decide (c = byte 0) || ((131 <=? code c) && (code c <=? 162)) = true) as E.
  { apply orb_true_iff. rewrite bool_decide_eq_true, andb_true_iff, !Z.leb_le. tauto. }
  rewrite E, !andb_true_iff, !bool_decide_eq_true in Hf. tauto.
Qed.

Lemma unmeta_metafy l : unmeta false (metafy l) = l.
Proof.
  induction l as [|c l IH]; [done|]. cbn [metafy]. destruct (is_meta_byte c) eqn:E.
  - destruct (flip_meta c E) as (H1 & H2 & _). cbn [unmeta]. rewrite decide_True, decide_False by done. by rewrite H2, IH.
  - cbn [unmeta]. rewrite decide_False; [by f_equal|]. intros ->. by rewrite meta_itself in E.
Qed.

Lemma metafy_plain l : Meta ∉ metafy l → metafy l = l.
Proof.
  induction l as [|c l IH]; [done|]. cbn [metafy]. destruct (is_meta_byte c); rewrite not_elem_of_cons; intros [Hc Hl]; [done|]. f_equal. by apply IH.
Qed.

Lemma unmetafy_metafy_all l : unmetafy (metafy l) = from_utf8 l.
Proof. unfold unmetafy. case_bool_decide as E; [by rewrite unmeta_metafy|by rewrite metafy_plain]. Qed.

Lemma unmetafy_metafy l : valid_utf8 l = true → unmetafy (metafy l) = Some l.
Proof. rewrite unmetafy_metafy_all. apply from_utf8_valid. Qed.

Lemma metafy_line_feed l : line_feed ∉ l → line_feed ∉ metafy l.
Proof.
  induction l as [|c l IH]; [done|]. rewrite not_elem_of_cons. intros [Hc Hl]. cbn [metafy]. destruct (is_meta_byte c) eqn:E.
  - destruct (flip_meta c E) as (_ & _ & H3 & _). rewrite !not_elem_of_cons. split_and!; [done|congruence|by apply IH].
  - apply not_elem_of_cons. split; [done|by apply IH].
Qed.

(** The lines of a command in the file: all but the last end in a backslash. *)
Fixpoint continued (ps : list bytes) : list bytes :=
  match ps with [] => [] | [p] => [p] | p :: ps => (p ++ [backslash]) :: continued ps end.

Lemma continued_cons p ps : ps ≠ [] → continued (p :: ps) = (p ++ [backslash]) :: continued ps.
Proof. by destruct ps. Qed.

Lemma valid_backslash p : valid_utf8 (p ++ [backslash]) = valid_utf8 p.
Proof. rewrite valid_utf8_cut by done. by rewrite andb_true_r. Qed.

Lemma read_continued ps acc rest :
  ps ≠ [] → Forall (λ p, valid_utf8 p = true) ps → last (join_lines ps) ≠ Some backslash →
  read_entries acc ((metafy <$> continued ps) ++ rest) = parse (acc ++ join_lines ps) :: read_entries [] rest.
Proof.
  intros Hne Hv. revert acc. induction Hv as [|p ps Hp Hps IH]; [done|]. intros acc Hl. destruct ps as [|q ps].
  - cbn [continued fmap list_fmap app read_entries join_lines]. rewrite unmetafy_metafy by done. by rewrite strip_last_None.
  - rewrite continued_cons, join_lines_cons in * by done. rewrite fmap_cons. cbn [app read_entries].
    rewrite unmetafy_metafy by (by rewrite valid_backslash). rewrite strip_last_snoc. rewrite IH; [|done|].
    + rewrite <- !app_assoc. done.
    + intros E. apply Hl. rewrite last_app, last_cons, E. done.
Qed.

(** What zsh writes of a command; [zw_pad] is the number of blanks that it puts after the command, so that a
    backslash at its end is not taken for a continued line. *)
Record ZshWritten : Type := mk_written { zw_time : Z; zw_duration : Z; zw_command : bytes; zw_pad : nat }.
Definition space : Ascii.ascii := byte 32.
Definition zw_text (e : ZshWritten) : bytes := zw_command e ++ replicate (zw_pad e) space.
Definition zsh_prefix (e : ZshWritten) : bytes := chars ": " ++ dec (zw_time e) ++ Origin.colon :: dec (zw_duration e) ++ [semicolon].
Definition zsh_lines (e : ZshWritten) : list bytes :=
  match split_l line_feed (zw_text e) with [] => [] | p :: ps => continued ((zsh_prefix e ++ p) :: ps) end.
(** The file that zsh writes with [EXTENDED_HISTORY] set. *)
Definition zsh_file (es : list ZshWritten) : bytes := write_lines (metafy <$> concat (zsh_lines <$> es)).

Record zsh_written_ok (e : ZshWritten) : Prop := {
  zo_time : 0 ≤ zw_time e ∧ zw_time e * SECOND ≤ MAX_DATE;
  zo_duration : 0 ≤ zw_duration e < i64_limit;
  zo_command : valid_utf8 (zw_command e) = true ∨ line_feed ∉ zw_command e;
  zo_last : last (zw_text e) ≠ Some backslash
}.

Lemma trim_end_pad l n : trim_end_l (l ++ replicate n space) = trim_end_l l.
Proof.
  induction n as [|n IH]; [by rewrite app_nil_r|]. rewrite <- IH. replace (S n) with (n + 1)%nat by lia. rewrite replicate_add, app_assoc.
  generalize (l ++ replicate n space). clear. intros l. unfold trim_end_l, trim_end. do 3 f_equal. rewrite <- !length_chars, !chars_unchars.
  cbn [replicate]. rewrite reverse_snoc, length_app, Nat.add_comm. done.
Qed.

Lemma valid_text e : valid_utf8 (zw_text e) = valid_utf8 (zw_command e).
Proof.
  unfold zw_text. induction (zw_pad e) as [|n IH]; [by rewrite app_nil_r|]. cbn [replicate]. rewrite valid_utf8_cut by done.
  rewrite <- (app_nil_r (replicate n space)), valid_utf8_ascii; [by rewrite andb_true_r|]. by apply Forall_replicate.
Qed.

Lemma text_line_feed e : line_feed ∉ zw_command e → line_feed ∉ zw_text e.
Proof. intros Hc. unfold zw_text. rewrite not_elem_of_app. split; [done|]. intros [E _]%elem_of_replicate. done. Qed.

Lemma parse_written e :
  zsh_written_ok e →
  parse (zsh_prefix e ++ zw_text e) =
  mk_zentry (trim_end_l (zw_command e)) (Some (zw_time e * SECOND)) (Some (saturating_mul (zw_duration e) SECOND)).
Proof.
  intros [[Ht0 Ht1] Hd2 _ _]. unfold parse, zsh_prefix. rewrite <- !app_assoc. rewrite strip_prefix_l_app. cbn [mbind option_bind app].
  rewrite <- !app_assoc. cbn [app]. rewrite split_once_first by (by apply not_in_dec). cbn [mbind option_bind].
  rewrite split_once_first by (apply not_in_dec; [lia|done]). cbn [mbind option_bind].
  destruct (in_date_i64 _ Ht0 Ht1) as [Hi Hd]. rewrite !parse_dec by lia. cbn [mbind option_bind]. rewrite Hd. f_equal. apply trim_end_pad.
Qed.

Lemma prefix_ascii e : zsh_written_ok e → Forall (λ c, code c < 128) (zsh_prefix e).
Proof.
  intros [[Ht0 _] [Ht1 _] _ _]. unfold zsh_prefix. repeat (apply Forall_app; split); [by repeat constructor|by apply dec_ascii|].
  constructor; [done|]. apply Forall_app. split; [by apply dec_ascii|by repeat constructor].
Qed.

Lemma ascii_no_line_feed n : 0 ≤ n → line_feed ∉ dec n.
Proof. intros Hn. by apply not_in_dec. Qed.

Lemma prefix_no_line_feed e : zsh_written_ok e → line_feed ∉ zsh_prefix e.
Proof.
  intros [[Ht0 _] [Ht1 _] _ _]. unfold zsh_prefix. rewrite !not_elem_of_app, not_elem_of_cons, not_elem_of_app.
  split_and!; try (by apply ascii_no_line_feed); [|done|]; apply (bool_decide_unpack _); by vm_compute.
Qed.

Lemma continued_no_line_feed ps : Forall (λ p, line_feed ∉ p) ps → Forall (λ p, line_feed ∉ p) (continued ps).
Proof.
  induction 1 as [|p ps Hp Hps IH]; [done|]. destruct ps as [|q ps]; [by repeat constructor|]. rewrite continued_cons by done. constructor; [|done].
  apply not_elem_of_app. split; [done|]. apply (bool_decide_unpack _); by vm_compute.
Qed.

Lemma zsh_lines_no_line_feed e : zsh_written_ok e → Forall (λ p, line_feed ∉ p) (zsh_lines e).
Proof.
  intros He. unfold zsh_lines. pose proof (split_no_sep line_feed (zw_text e)) as [Hf _]. destruct (split_l _ _) as [|p ps]; [done|].
  apply continued_no_line_feed. apply Forall_cons in Hf as [Hp Hps]. constructor; [|done]. apply not_elem_of_app. split; [by apply prefix_no_line_feed|done].
Qed.

Lemma read_written e rest :
  zsh_written_ok e → valid_utf8 (zw_command e) = true →
  read_entries [] ((metafy <$> zsh_lines e) ++ rest) = parse (zsh_prefix e ++ zw_text e) :: read_entries [] rest.
Proof.
  intros He Hv3. rewrite <- valid_text in Hv3. pose proof (zo_last _ He) as Hl5. unfold zsh_lines. pose proof (split_no_sep line_feed (zw_text e)) as [_ Hne].
  pose proof (valid_split _ Hv3) as Hv. pose proof (join_split (zw_text e)) as Hj. destruct (split_l _ _) as [|p ps]; [done|].
  assert (join_lines ((zsh_prefix e ++ p) :: ps) = zsh_prefix e ++ zw_text e) as Hj'.
  { rewrite <- Hj. destruct ps; [done|]. rewrite !join_lines_cons by done. by rewrite <- app_assoc. }
  rewrite read_continued; [by rewrite Hj'|done| |].
  - apply Forall_cons in Hv as [Hp Hps]. constructor; [|done]. rewrite valid_utf8_ascii; [done|by apply prefix_ascii].
  - rewrite Hj', last_app. destruct (last (zw_text e)) eqn:E; [by rewrite <- E in *|]. unfold zsh_prefix.
    rewrite last_app, last_app, last_cons, last_app. done.
Qed.

(** A line that is not UTF-8 is passed over. *)
Lemma read_invalid e rest :
  zsh_written_ok e → valid_utf8 (zw_command e) = false → read_entries [] ((metafy <$> zsh_lines e) ++ rest) = read_entries [] rest.
Proof.
  intros He Hv. destruct (zo_command _ He) as [?|Hl%text_line_feed]; [congruence|]. unfold zsh_lines.
  assert (split_l line_feed (zw_text e) = [zw_text e]) as ->.
  { revert Hl. generalize (zw_text e). induction l as [|c l IH]; [done|]. rewrite not_elem_of_cons. intros [Hc Hl].
    cbn [split_l]. rewrite decide_False by congruence. by rewrite IH. }
  cbn [continued fmap list_fmap app read_entries]. rewrite unmetafy_metafy_all. unfold from_utf8.
  by rewrite valid_utf8_ascii, valid_text, Hv by (by apply prefix_ascii).
Qed.

(** What the importer makes of a command. *)
Definition zsh_imported (e : ZshWritten) : option Imported :=
  if valid_utf8 (zw_command e)
  then Some (mk_imported (zw_time e * SECOND) (trim_end (unchars (zw_command e))) "unknown" (-1) (saturating_mul (zw_duration e) SECOND) None None (Some "zsh"%string))
  else None.

(** C40: a history file that zsh wrote with its times, with commands over several lines, bytes that zsh
    escapes and blanks after a final backslash, is imported as the commands, times and durations that it was
    written from, in their order: each command without the white space at its end, and a command of one
    line that is not UTF-8 not at all. Commands over several lines have to be UTF-8. *)
Theorem zsh_file_imports now es : Forall zsh_written_ok es → Zsh.load now (zsh_file es) = omap zsh_imported es.
Proof.
  intros Hes. unfold Zsh.load, zsh_file. rewrite byte_lines_written.
  2:{ rewrite Forall_fmap. apply Forall_concat. rewrite Forall_fmap. eapply Forall_impl; [exact Hes|]. cbn. intros e He.
      eapply Forall_impl; [by apply zsh_lines_no_line_feed|]. cbn. apply metafy_line_feed. }
  set (entry e := mk_zentry (trim_end_l (zw_command e)) (Some (zw_time e * SECOND)) (Some (saturating_mul (zw_duration e) SECOND))).
  assert (read_entries [] (metafy <$> concat (zsh_lines <$> es)) = entry <$> filter (λ e, valid_utf8 (zw_command e) = true) es) as ->.
  { induction Hes as [|e es He Hes IH]; [done|]. cbn [fmap list_fmap concat]. rewrite fmap_app. destruct (valid_utf8 (zw_command e)) eqn:Hv.
    - rewrite filter_cons_True by done. rewrite read_written, parse_written by done. cbn [fmap list_fmap]. by f_equal.
    - rewrite filter_cons_False by congruence. by rewrite read_invalid. }
  generalize (Zsh.start now (entry <$> filter (λ e, valid_utf8 (zw_command e) = true) es)).
  clear Hes. induction es as [|e es IH]; intros t; [done|]. cbn [omap list_omap]. unfold zsh_imported at 1. destruct (valid_utf8 (zw_command e)) eqn:Hv.
  - rewrite filter_cons_True by done. cbn [fmap list_fmap load_entries z_timestamp z_command z_duration default from_option id entry].
    f_equal; [|apply IH]. unfold trim_end_l. by rewrite unchars_chars.
  - rewrite filter_cons_False by congruence. apply IH.
Qed.
End zsh.

(** ** Fish *)

Section fish.
Import Fish.

Lemma replace_text_None fuel p w c l :
  strip_prefix_l p (c :: l) = None → replace_text (S fuel) p w (c :: l) = c :: replace_text fuel p w l.
Proof. intros E. cbn [replace_text]. by rewrite E. Qed.

Lemma replace_text_Some fuel p w c l r :
  strip_prefix_l p (c :: l) = Some r → replace_text (S fuel) p w (c :: l) = w ++ replace_text fuel p w r.
Proof. intros E. cbn [replace_text]. by rewrite E. Qed.

(** How fish writes a command. *)
Definition escape (l : bytes) : bytes :=
  l ≫= λ c, if decide (c = backslash) then [backslash; backslash] else if decide (c = line_feed) then [backslash; char_n] else [c].
Definition half (l : bytes) : bytes := l ≫= λ c, if decide (c = line_feed) then [backslash; char_n] else [c].

Lemma unescape_backslashes l fuel :
  (length (escape l) ≤ fuel)%nat → replace_text fuel [backslash; backslash] [backslash] (escape l) = half l.
Proof.
  revert fuel. induction l as [|c l IH]; intros fuel Hf; [by destruct fuel|]. unfold escape, half in *. cbn [mbind list_bind] in *.
  rewrite length_app in Hf. destruct (decide (c = backslash)) as [->|Hb]; [|destruct (decide (c = line_feed)) as [->|Hl]].
  - cbn [length] in Hf. destruct fuel as [|fuel]; [lia|]. cbn [app]. rewrite replace_text_Some with (r := l ≫= _) by done.
    rewrite decide_False by done. cbn [app]. f_equal. apply IH. cbn in Hf |- *. lia.
  - cbn [length] in Hf. destruct fuel as [|[|fuel]]; [lia..|]. cbn [app].
    rewrite replace_text_None, replace_text_None by done. do 2 f_equal. apply IH. lia.
  - cbn [length] in Hf. destruct fuel as [|fuel]; [lia|]. cbn [app]. rewrite replace_text_None by (cbn; by rewrite decide_False).
    f_equal. apply IH. lia.
Qed.

(** No backslash stands before an [n]. *)
Fixpoint no_backslash_n (l : bytes) : bool :=
  match l with c :: (d :: _) as l' => negb (bool_decide (c = backslash) && bool_decide (d = char_n)) && no_backslash_n l' | _ => true end.

Lemma unescape_line_feeds l fuel :
  (length (half l) ≤ fuel)%nat → no_backslash_n l = true → replace_text fuel [backslash; char_n] [line_feed] (half l) = l.
Proof.
  revert fuel. induction l as [|c l IH]; intros fuel Hf Hn; [by destruct fuel|]. unfold half in *. cbn [mbind list_bind] in *. rewrite length_app in Hf.
  assert (no_backslash_n l = true) as Hn' by (destruct l; [done|]; cbn [no_backslash_n] in Hn; by apply andb_true_iff in Hn as [_ ?]).
  destruct (decide (c = line_feed)) as [->|Hl].
  - cbn [length] in Hf. destruct fuel as [|fuel]; [lia|]. cbn [app]. rewrite replace_text_Some with (r := l ≫= _) by done. cbn [app]. f_equal. apply IH; [cbn in Hf |- *; lia|done].
  - cbn [length] in Hf. destruct fuel as [|fuel]; [lia|]. cbn [app]. rewrite replace_text_None; [f_equal; apply IH; [lia|done]|].
    cbn [strip_prefix_l]. destruct (decide (backslash = c)) as [<-|Hc]; [|done]. destruct l as [|d l]; [done|]. cbn [mbind list_bind].
    destruct (decide (d = line_feed)) as [->|Hd]; cbn [app strip_prefix_l]; [done|]. rewrite decide_False; [done|].
    intros <-. cbn [no_backslash_n] in Hn. by rewrite !bool_decide_eq_true_2 in Hn.
Qed.

Lemma unescape_escape l : no_backslash_n l = true → unescape (escape l) = l.
Proof. intros Hn. unfold unescape, str_replace. rewrite unescape_backslashes by done. by apply unescape_line_feeds. Qed.

Definition fish_entry (e : Z * bytes) : Prop :=
  0 ≤ e.1 ∧ e.1 * SECOND ≤ MAX_DATE ∧ valid_utf8 e.2 = true ∧ no_backslash_n e.2 = true.
Definition fish_lines (e : Z * bytes) : list bytes := [(chars "- cmd: " ++ escape (snd e)); (chars "  when: " ++ dec (fst e))].
Definition fish_file (es : list (Z * bytes)) : bytes := write_lines (concat (fish_lines <$> es)).

Lemma escape_no_line_feed l : line_feed ∉ escape l.
Proof.
  unfold escape. intros (c & Hc & _)%list_elem_of_bind. revert Hc. destruct (decide (c = backslash)) as [->|Hb]; [|destruct (decide (c = line_feed)) as [->|Hl]].
  - apply (bool_decide_unpack (line_feed ∉ [backslash; backslash])). by vm_compute.
  - apply (bool_decide_unpack (line_feed ∉ [backslash; char_n])). by vm_compute.
  - intros E%list_elem_of_singleton. congruence.
Qed.

(** Replacing an ASCII character by ASCII text keeps the rest as it is. *)
Lemma escape_run l st : Forall (λ r : Z * Z, 128 ≤ r.1) st → utf8_run st l = Some [] → utf8_run st (escape l) = Some [].
Proof.
  revert st. induction l as [|c l IH]; intros st Hst Hr; [done|]. unfold escape. cbn [mbind list_bind]. fold (escape l). rewrite utf8_run_app.
  cbn [utf8_run] in Hr. destruct (utf8_step st c) as [st'|] eqn:Es; [|done].
  assert (Forall (λ r : Z * Z, 128 ≤ r.1) st') as Hst' by (apply (utf8_run_ranges st [c] st' Hst); cbn; by rewrite Es).
  assert (code c < 128 → st = [] ∧ st' = []) as Ha.
  { intros Hc. destruct st as [|[lo hi] st]; cbn in Es.
    - unfold lead_byte in Es. rewrite (proj2 (Z.ltb_lt _ _) Hc) in Es. by injection Es as <-.
    - apply Forall_cons in Hst as [Hlo _]. cbn in Hlo. by rewrite (proj2 (Z.leb_gt lo (code c))) in Es by lia. }
  destruct (decide (c = backslash)) as [->|Hb]; [|destruct (decide (c = line_feed)) as [->|Hl]].
  - destruct Ha as [-> ->]; [done|]. change (utf8_run [] [backslash; backslash]) with (Some (@nil (Z * Z))). cbn [mbind option_bind]. by apply IH.
  - destruct Ha as [-> ->]; [done|]. change (utf8_run [] [backslash; char_n]) with (Some (@nil (Z * Z))). cbn [mbind option_bind]. by apply IH.
  - cbn [utf8_run]. rewrite Es. cbn [mbind option_bind]. by apply IH.
Qed.

Lemma valid_escape l : valid_utf8 l = true → valid_utf8 (escape l) = true.
Proof. unfold valid_utf8. rewrite !bool_decide_eq_true. by apply escape_run. Qed.

Lemma load_fish_lines now time cmd e rest :
  fish_entry e →
  load_lines now time cmd (fish_lines e ++ rest) = process_cmd now cmd time ++ load_lines now (Some (e.1 * SECOND)) (Some e.2) rest.
Proof.
  intros (H0 & H1 & H2 & H3). unfold fish_lines. cbn [app]. cbn [load_lines].
  rewrite (from_utf8_valid (_ ++ _)), strip_prefix_l_app, unescape_escape; [|done|rewrite valid_utf8_ascii by (by repeat constructor); by apply valid_escape].
  f_equal. rewrite from_utf8_valid.
  - change (strip_prefix_l (chars "- cmd: ") (chars "  when: " ++ dec e.1)) with (@None bytes). rewrite strip_prefix_l_app.
    destruct (in_date_i64 _ H0 H1) as [Hi Hd]. rewrite parse_dec by done. cbn [mbind option_bind]. by rewrite Hd.
  - rewrite <- (app_nil_r (dec e.1)), app_assoc, valid_utf8_ascii; [done|]. apply Forall_app. split; [by repeat constructor|by apply dec_ascii].
Qed.

(** A fish history is imported as the commands and times that it was written from, if no command has
    a backslash before the letter n. *)
Theorem fish_file_imports now es :
  Forall fish_entry es → load now (fish_file es) = (λ e, import_line "fish" (e.1 * SECOND) e.2) <$> es.
Proof.
  intros Hes. unfold load, fish_file. rewrite byte_lines_written.
  - assert (∀ time cmd, load_lines now time cmd (concat (fish_lines <$> es)) =
                        process_cmd now cmd time ++ ((λ e, import_line "fish" (e.1 * SECOND) e.2) <$> es)) as Hl; [|by rewrite Hl].
    induction Hes as [|e es He Hes IH]; intros time cmd; [cbn; by rewrite app_nil_r|]. rewrite fmap_cons. cbn [concat].
    rewrite load_fish_lines by done. f_equal. rewrite IH. done.
  - apply Forall_concat. rewrite Forall_fmap. eapply Forall_impl; [exact Hes|]. intros e (H0 & _). unfold fish_lines. cbn [compose].
    assert ((line_feed ∉ chars "- cmd: ") ∧ (line_feed ∉ chars "  when: ")) as [Hc Hw] by (split; apply (bool_decide_unpack _); by vm_compute).
    constructor; [|constructor; [|done]]; apply not_elem_of_app; (split; [done|]); [apply escape_no_line_feed|by apply not_in_dec].
Qed.
End fish.

(** ** PowerShell *)

Section powershell.
Import PowerShell.

(** PSReadLine ends every line of a command but the last with a backtick. *)
Fixpoint ticked (ps : list bytes) : list bytes :=
  match ps with [] => [] | [p] => [p] | p :: ps => (p ++ [backtick]) :: ticked ps end.

Lemma ticked_cons p ps : ps ≠ [] → ticked (p :: ps) = (p ++ [backtick]) :: ticked ps.
Proof. by destruct ps. Qed.

Definition ps_command (c : bytes) : Prop :=
  c ≠ [] ∧ valid_utf8 c = true ∧ last c ≠ Some backtick ∧ carriage_return ∉ c.

Lemma last_not_in (c : Ascii.ascii) (l : bytes) : c ∉ l → last l ≠ Some c.
Proof. intros Hc E. apply Hc. apply last_Some in E as [l' ->]. apply elem_of_app. right. left. Qed.

Lemma read_line_plain p : valid_utf8 p = true → carriage_return ∉ p → read_line p = Some p.
Proof. intros Hv Hr. unfold read_line. rewrite from_utf8_valid by done. cbn [mbind option_bind]. by rewrite strip_last_None by (by apply last_not_in). Qed.

Lemma valid_tick p : valid_utf8 (p ++ [backtick]) = valid_utf8 p.
Proof. rewrite valid_utf8_cut by done. by rewrite andb_true_r. Qed.

Lemma not_in_tick p : carriage_return ∉ p → carriage_return ∉ p ++ [backtick].
Proof. intros Hp. apply not_elem_of_app. split; [done|]. apply (bool_decide_unpack _). by vm_compute. Qed.

Definition continue_with (cur : option bytes) (s : bytes) : bytes := match cur with None => s | Some c => c ++ line_feed :: s end.

Lemma commands_ticked ps cur rest :
  ps ≠ [] → Forall (λ p, valid_utf8 p = true ∧ carriage_return ∉ p) ps → last (join_lines ps) ≠ Some backtick →
  commands cur (ticked ps ++ rest) = continue_with cur (join_lines ps) :: commands None rest.
Proof.
  intros Hne Hv. revert cur. induction Hv as [|p ps [Hp Hr] Hps IH]; [done|]. intros cur Hl. destruct ps as [|q ps].
  - cbn [ticked app commands join_lines] in *. rewrite read_line_plain by done. fold (continue_with cur p). rewrite strip_last_None; [done|].
    destruct cur; cbn [continue_with]; [|done]. rewrite last_app, last_cons. destruct (last p) eqn:E; [by rewrite <- E in *|done].
  - rewrite ticked_cons, join_lines_cons in * by done. cbn [app commands].
    rewrite read_line_plain by (first [by rewrite valid_tick | by apply not_in_tick]). fold (continue_with cur (p ++ [backtick])).
    assert (continue_with cur (p ++ [backtick]) = continue_with cur p ++ [backtick]) as -> by (destruct cur; cbn [continue_with]; [by rewrite <- app_assoc|done]).
    rewrite strip_last_snoc, IH; [|done|].
    + cbn [continue_with]. f_equal. destruct cur; cbn [continue_with]; [by rewrite <- app_assoc|done].
    + intros E. apply Hl. rewrite last_app, last_cons, E. done.
Qed.

Definition ps_file (cs : list bytes) : bytes := write_lines (concat ((λ c, ticked (split_l line_feed c)) <$> cs)).

Lemma split_not_in (d : Ascii.ascii) c l : d ∉ l → Forall (λ p, d ∉ p) (split_l c l).
Proof.
  induction l as [|a l IH]; [by repeat constructor; apply not_elem_of_nil|]. rewrite not_elem_of_cons. intros [Ha Hl]. specialize (IH Hl). cbn [split_l].
  case_decide; [constructor; [apply not_elem_of_nil|done]|]. destruct (split_l c l) as [|w ws].
  - repeat constructor. apply not_elem_of_cons. split; [done|apply not_elem_of_nil].
  - apply Forall_cons in IH as [Hw Hws]. constructor; [|done]. by apply not_elem_of_cons.
Qed.

Lemma commands_of_file cs : Forall ps_command cs → commands None (concat ((λ c, ticked (split_l line_feed c)) <$> cs)) = cs.
Proof.
  induction 1 as [|c cs (Hne & Hv & Hl & Hr) Hcs IH]; [done|]. rewrite fmap_cons. cbn [concat]. rewrite commands_ticked.
  - by rewrite join_split, IH.
  - by apply split_no_sep.
  - apply Forall_and. split; [by apply valid_split|by apply split_not_in].
  - by rewrite join_split.
Qed.

Lemma stamp_times t cs :
  MIN_DATE ≤ t → t + MILLI * Z.of_nat (length cs) ≤ MAX_DATE →
  stamp t cs = Some (imap (λ i c, import_line "powershell" (t + MILLI * Z.of_nat i) c) cs).
Proof.
  revert t. induction cs as [|c cs IH]; intros t H1 H2; [done|]. cbn [length] in H2. cbn [stamp imap]. assert (0 < MILLI) by done.
  rewrite date_in_range by lia. cbn [mbind option_bind]. rewrite IH by lia. cbn [mbind option_bind]. do 2 f_equal; [f_equal; lia|].
  apply imap_ext. intros i c' _. cbn. f_equal. lia.
Qed.

Lemma ticked_no_line_feed ps : Forall (λ p, line_feed ∉ p) ps → Forall (λ p, line_feed ∉ p) (ticked ps).
Proof.
  induction 1 as [|p ps Hp Hps IH]; [done|]. destruct ps as [|q ps]; [by repeat constructor|]. rewrite ticked_cons by done. constructor; [|done].
  apply not_elem_of_app. split; [done|]. apply (bool_decide_unpack _). by vm_compute.
Qed.

(** A PowerShell history is imported as the commands that it was written from, a millisecond apart and
    the last before the present. *)
Theorem powershell_file_imports now cs :
  Forall ps_command cs → let start := now - MILLI * Z.of_nat (count_lines (ps_file cs)) in
  MIN_DATE ≤ start → now ≤ MAX_DATE →
  load now (ps_file cs) = Some (imap (λ i c, import_line "powershell" (start + MILLI * Z.of_nat i) c) cs) ∧
  (length cs ≤ count_lines (ps_file cs))%nat.
Proof.
  intros Hcs start H1 H2. assert (unix_byte_lines (ps_file cs) = concat ((λ c, ticked (split_l line_feed c)) <$> cs)) as El.
  { unfold ps_file. apply byte_lines_written. apply Forall_concat. rewrite Forall_fmap. apply Forall_true. intros c. cbn [compose].
    apply ticked_no_line_feed. by apply split_no_sep. }
  assert (length cs ≤ count_lines (ps_file cs))%nat as Hlen.
  { unfold count_lines. rewrite El. clear. induction cs as [|c cs IH]; [done|]. cbn [fmap list_fmap concat length]. rewrite length_app.
    pose proof (split_no_sep line_feed c) as [_ Hne]. destruct (split_l line_feed c) as [|p [|q ps]]; [done|cbn; lia|]. rewrite ticked_cons by done. cbn [length]. lia. }
  split; [|done]. unfold load. assert (0 < MILLI) by done. fold start. rewrite date_in_range by lia. cbn [mbind option_bind].
  rewrite El, commands_of_file by done. assert (filter (λ c, c ≠ []) cs = cs) as ->.
  { clear -Hcs. induction Hcs as [|c cs [Hc _] Hcs IH]; [done|]. by rewrite filter_cons_True, IH. }
  apply stamp_times; [done|]. unfold start, MILLI. lia.
Qed.
End powershell.

(** ** Saving *)

Section loader.
Import HistoryImporter.

Lemma save_bulk_app db a b : HistoryDb.save_bulk db (a ++ b) = HistoryDb.save_bulk (HistoryDb.save_bulk db a) b.
Proof. apply foldl_app. Qed.

Lemma push_all capacity hs s :
  flush (foldl (push capacity) s hs) = HistoryDb.save_bulk (db s) (buf s ++ hs).
Proof.
  revert s. induction hs as [|h hs IH]; intros s; [unfold flush; cbn; by rewrite app_nil_r|]. cbn [foldl]. rewrite IH. unfold push.
  case_decide; cbn [buf db]; [|by rewrite <- app_assoc]. by rewrite <- save_bulk_app, <- app_assoc.
Qed.

(** The batches save what one by one would have been saved, none left behind in the buffer. *)
Theorem import_saves_everything capacity database probes items :
  import capacity database probes items = HistoryDb.save_bulk database (zip_with imported_entry probes items).
Proof. unfold import. by rewrite push_all. Qed.

Definition same_row (h h' : Entry) : Prop :=
  HistoryDb.nanos_as_i64 (h_timestamp h) = HistoryDb.nanos_as_i64 (h_timestamp h') ∧ h_cwd h = h_cwd h' ∧ h_command h = h_command h'.

Lemma save_bulk_keeps hs db x : x ∈ db → x ∈ HistoryDb.save_bulk db hs.
Proof.
  revert db. induction hs as [|h hs IH]; intros db Hx; [done|]. apply IH. unfold HistoryDb.save_raw. destruct (existsb _ _); [done|]. apply elem_of_app. by left.
Qed.

Lemma save_bulk_covers hs db h :
  NoDup (h_id <$> db ++ hs) → h ∈ hs → ∃ y, y ∈ HistoryDb.save_bulk db hs ∧ same_row h y.
Proof.
  revert db. induction hs as [|g hs IH]; intros db Hn Hh; [by apply not_elem_of_nil in Hh|]. cbn [HistoryDb.save_bulk foldl].
  fold (HistoryDb.save_bulk (HistoryDb.save_raw db g) hs). apply elem_of_cons in Hh as [->|Hh].
  - unfold HistoryDb.save_raw. destruct (existsb (HistoryDb.conflicts g) db) eqn:E.
    + apply existsb_exists in E as (y & Hy%list_elem_of_In & Hc%bool_decide_eq_true). exists y. split; [by apply save_bulk_keeps|].
      destruct Hc as [Hid|Hc]; [|done]. rewrite fmap_app, NoDup_app in Hn. destruct Hn as (_ & Hd & _). exfalso.
      apply (Hd (h_id g)); [rewrite Hid; apply list_elem_of_fmap; by exists y|rewrite fmap_cons; left].
    + exists g. split; [|done]. apply save_bulk_keeps, elem_of_app. right. left.
  - apply IH; [|done]. unfold HistoryDb.save_raw. destruct (existsb _ _).
    + rewrite fmap_app, fmap_cons in Hn. rewrite fmap_app. eapply sublist_NoDup; [exact Hn|]. apply sublist_app; [done|]. by apply sublist_cons.
    + by rewrite <- app_assoc.
Qed.

Lemma save_bulk_ignored hs db : (∀ h, h ∈ hs → ∃ y, y ∈ db ∧ same_row h y) → HistoryDb.save_bulk db hs = db.
Proof.
  induction hs as [|h hs IH]; intros Hs; [done|]. cbn [HistoryDb.save_bulk foldl]. unfold HistoryDb.save_raw at 2.
  assert (existsb (HistoryDb.conflicts h) db = true) as ->.
  { destruct (Hs h ltac:(left)) as (y & Hy & Hr). apply existsb_exists. exists y. split; [by apply list_elem_of_In|]. apply bool_decide_eq_true. by right. }
  apply IH. intros g Hg. apply Hs. by right.
Qed.

Lemma load_entries_stamped t t' es :
  Forall (λ e, is_Some (Zsh.z_timestamp e)) es → Zsh.load_entries t es = Zsh.load_entries t' es.
Proof.
  intros Hes. destruct Hes as [|e es [d Hd] Hes]; [done|]. cbn [Zsh.load_entries]. by rewrite Hd.
Qed.

(** Importing a zsh history with recorded times a second time adds nothing, whenever it is done. *)
Theorem zsh_import_idempotent capacity database now now' probes probes' file :
  let es := Zsh.read_entries [] (unix_byte_lines file) in
  Forall (λ e, is_Some (Zsh.z_timestamp e)) es →
  (length es ≤ length probes)%nat →
  NoDup (h_id <$> database ++ zip_with imported_entry probes (Zsh.load now file)) →
  let once := import capacity database probes (Zsh.load now file) in
  import capacity once probes' (Zsh.load now' file) = once.
Proof.
  intros es Hes Hp Hn once. unfold once. rewrite !import_saves_everything. apply save_bulk_ignored. intros h Hh.
  assert (Zsh.load now' file = Zsh.load now file) as El by (unfold Zsh.load; by apply load_entries_stamped). rewrite El in Hh.
  apply list_elem_of_lookup in Hh as [i Hi]. apply lookup_zip_with_Some in Hi as (p' & d & -> & Hp' & Hd).
  assert (length (Zsh.load now file) = length es) as Hlen.
  { unfold Zsh.load. fold es. generalize (Zsh.start now es). clear. induction es as [|e es IH]; intros t; [done|]. cbn [Zsh.load_entries length]. by f_equal. }
  destruct (lookup_lt_is_Some_2 probes i) as [p Hpi]; [apply lookup_lt_Some in Hd; lia|].
  destruct (save_bulk_covers _ _ (imported_entry p d) Hn) as (y & Hy & Hs).
  - apply list_elem_of_lookup. exists i. apply lookup_zip_with_Some. eauto.
  - exists y. split; [exact Hy|]. exact Hs.
Qed.
End loader.

(** A row of the nushell database with a time that can be represented keeps it to the millisecond. *)
Theorem nu_row_time_kept e :
  MIN_DATE ≤ NuHistDb.d_start_timestamp e * MILLI → NuHistDb.d_start_timestamp e * MILLI ≤ MAX_DATE →
  i_timestamp (NuHistDb.imported e) = NuHistDb.d_start_timestamp e * MILLI.
Proof.
  intros H1 H2. unfold NuHistDb.imported. cbn [i_timestamp]. unfold from_timespec.
  assert (∀ z, Z.quot z 1000 * SECOND + Z.rem z 1000 * 1000000 = z * MILLI) as E.
  { intros z. unfold SECOND, MILLI. pose proof (Z.quot_rem' z 1000). lia. }
  rewrite E. set (z := NuHistDb.d_start_timestamp e) in *.
  assert (- 2 ^ 127 ≤ Z.quot z 1000 * SECOND < 2 ^ 127) as Hq.
  { pose proof (Z.quot_rem' z 1000). pose proof (Z.rem_bound_abs z 1000 ltac:(lia)). unfold MIN_DATE, MAX_DATE, SECOND, MILLI in *. lia. }
  assert (- 2 ^ 127 ≤ z * MILLI < 2 ^ 127) as Hz by (unfold MIN_DATE, MAX_DATE, SECOND, MILLI in *; lia).
  rewrite !(proj2 (Z.leb_le _ _)), !(proj2 (Z.ltb_lt _ _)) by lia. cbn [andb]. by rewrite date_in_range.
Qed.

(** ** Examples *)

Module ImportDemo.
#[local] Instance demo_meta : ZshMeta := λ c, bool_decide (c = byte 0) || ((131 <=? code c) && (code c <=? 162)).
#[local] Instance demo_meta_laws : ZshMetaLaws.
Proof.
  constructor; [done|]. unfold is_meta_byte, demo_meta. intros c. rewrite orb_true_iff, bool_decide_eq_true, andb_true_iff, !Z.leb_le. done.
Qed.

(** A command over two lines with the letter à, whose second byte zsh escapes. *)
Definition two_lines : bytes := chars "echo " ++ (byte <$> [195; 160; 10; 120]).

Lemma zsh_file_imports_witness :
  Zsh.load 0 (zsh_file [mk_written 7 2 two_lines 0; mk_written 8 0 [byte 255] 0; mk_written 9 0 (chars "ls \") 1]) =
  [mk_imported (7 * SECOND) (unchars two_lines) "unknown" (-1) (2 * SECOND) None None (Some "zsh"%string);
   mk_imported (9 * SECOND) "ls \" "unknown" (-1) 0 None None (Some "zsh"%string)].
Proof.
  rewrite (zsh_file_imports 0 [mk_written 7 2 two_lines 0; mk_written 8 0 [byte 255] 0; mk_written 9 0 (chars "ls \") 1]); [vm_compute; reflexivity|].
  repeat apply Forall_cons_2; [..|apply Forall_nil_2]; constructor; try (split; vm_compute; congruence); try (by left); try (vm_compute; congruence).
  right. apply (bool_decide_unpack _). by vm_compute.
Defined.

Lemma bash_import_keeps_order_witness :
  StronglySorted (λ i j, i_timestamp i < i_timestamp j) (Bash.load 0 (write_lines [chars "ls"; chars "pwd"; chars "#5"; chars "id"; chars "df"])).
Proof.
  destruct (bash_import_keeps_order 0 (write_lines [chars "ls"; chars "pwd"; chars "#5"; chars "id"; chars "df"])) as (_ & _ & H).
  apply H; [vm_compute; reflexivity|vm_compute; intros ?; discriminate].
Defined.

Lemma bash_file_imports_witness :
  Bash.load 0 (bash_file [(5, chars "ls"); (6, chars "#pwd")]) = [import_line "bash" (5 * SECOND) (chars "ls"); import_line "bash" (6 * SECOND) (chars "#pwd")].
Proof.
  rewrite (bash_file_imports 0 [(5, chars "ls"); (6, chars "#pwd")]); [reflexivity|].
  repeat constructor; try done; apply (bool_decide_unpack _); by vm_compute.
Defined.

Lemma fish_file_imports_witness :
  Fish.load 0 (fish_file [(5, chars "echo a\b"); (6, two_lines)]) =
  [import_line "fish" (5 * SECOND) (chars "echo a\b"); import_line "fish" (6 * SECOND) two_lines].
Proof. rewrite (fish_file_imports 0 [(5, chars "echo a\b"); (6, two_lines)]); [reflexivity|]. repeat constructor; done. Defined.

Lemma powershell_file_imports_witness :
  PowerShell.load 100000000000 (ps_file [two_lines; chars "ls"]) =
  Some [import_line "powershell" (100000000000 - 3 * MILLI) two_lines; import_line "powershell" (100000000000 - 2 * MILLI) (chars "ls")].
Proof.
  destruct (powershell_file_imports 100000000000 [two_lines; chars "ls"]) as [H _].
  - repeat constructor; try done; apply (bool_decide_unpack _); by vm_compute.
  - vm_compute. intros ?. discriminate.
  - vm_compute. intros ?. discriminate.
  - rewrite H. vm_compute. reflexivity.
Defined.

Definition probe (id : string) : Probe := mk_probe None None None (Origin.new "box" "ellie") "s" id.

Lemma zsh_import_idempotent_witness :
  let file := zsh_file [mk_written 7 2 two_lines 0; mk_written 9 0 (chars "ls") 0] in
  let once := HistoryImporter.import 100 [] [probe "1"; probe "2"] (Zsh.load 0 file) in
  HistoryImporter.import 100 once [probe "3"; probe "4"] (Zsh.load 50 file) = once ∧ length once = 2%nat.
Proof.
  split; [|vm_compute; reflexivity].
  apply (zsh_import_idempotent 100 [] 0 50 [probe "1"; probe "2"] [probe "3"; probe "4"] (zsh_file [mk_written 7 2 two_lines 0; mk_written 9 0 (chars "ls") 0])).
  - vm_compute. repeat constructor; by eexists.
  - vm_compute. lia.
  - apply (bool_decide_unpack _). by vm_compute.
Defined.

Lemma nu_row_time_kept_witness :
  i_timestamp (NuHistDb.imported (NuHistDb.mk_dbentry [] 1500 1 [] [] 100 0)) = 1500000000.
Proof. rewrite (nu_row_time_kept (NuHistDb.mk_dbentry [] 1500 1 [] [] 100 0)); [reflexivity|vm_compute; intros ?; discriminate..]. Defined.

(** Where the last of a command's lines is not UTF-8 it is passed over, and the lines before it are continued
    with the next command. *)
Lemma zsh_broken_line_joins_commands :
  i_command <$> Zsh.load 0 (zsh_file [mk_written 7 0 (chars "echo a" ++ [line_feed; byte 255]) 0; mk_written 9 0 (chars "ls") 0]) =
  [unchars (chars "echo a" ++ [line_feed] ++ chars ": 9:0;ls")].
Proof. vm_compute. reflexivity. Qed.

(** A [\n] that was typed is imported as a line break. *)
Lemma fish_backslash_n_lost :
  i_command <$> Fish.load 0 (fish_file [(5, chars "printf a\n")]) = [unchars (chars "printf a" ++ [line_feed])].
Proof. vm_compute. reflexivity. Qed.

(** A duration of 100 milliseconds is imported as 100 nanoseconds. *)
Lemma nu_duration_not_scaled : i_duration (NuHistDb.imported (NuHistDb.mk_dbentry [] 1500 1 [] [] 100 0)) = 100.
Proof. reflexivity. Qed.

(** A last line that is not terminated is left out. *)
Lemma unterminated_line_dropped : Bash.load 0 (chars "ls") = [].
Proof. reflexivity. Qed.
End ImportDemo.
