(* ===== verification/AiTools.v ===== *)
(** * The agent's tool calls ([atuin-ai/src/tools])

    A tool call arrives as a name and a JSON input; [try_from] parses it. The file also holds the
    descriptors, the outcome a tool reports, its text for the model, and the matching of a path
    against the scope of a permission rule. The crates [shellexpand], [uuid] and [glob-match] are the
    interface [ToolLib]; the current directory is an argument. *)
From stdpp Require Import pretty.
From S2P Require Import Prelude Text Filter Json History.

(** [shellexpand::tilde], [Uuid::parse_str] and [glob_match::glob_match]. *)
Class ToolLib : Type := {
  tilde : string → string;
  parse_uuid : string → option N;
  glob_match : string → string → bool
}.

(** ** The tool calls *)

Record ReadToolCall : Type := mk_read { rd_path : string; rd_offset : Z; rd_limit : Z }.

Record EditToolCall : Type := mk_edit {
  ed_path : string; ed_old_string : string; ed_new_string : string; ed_replace_all : bool
}.

Record WriteToolCall : Type := mk_write { wr_path : string; wr_content : string; wr_overwrite : bool }.

Record ShellToolCall : Type := mk_shell {
  sh_dir : option string; sh_command : string; sh_shell : string; sh_timeout_secs : Z;
  sh_description : option string
}.

Inductive HistorySearchFilterMode : Type := HGlobal | HHost | HSession | HDirectory | HWorkspace.

Record AtuinHistoryToolCall : Type := mk_ahistory {
  ah_filter_modes : list HistorySearchFilterMode; ah_query : string; ah_limit : Z;
  ah_only_failed : bool; ah_authors : OrFilter AuthorPattern
}.

Record AtuinOutputToolCall : Type := mk_aoutput {
  ao_history_id : N; ao_ranges : list (Z * Z); ao_command : option string
}.

Record LoadSkillToolCall : Type := mk_skill { ls_name : string }.

Inductive ClientToolCall : Type :=
| CRead (c : ReadToolCall)
| CEdit (c : EditToolCall)
| CWrite (c : WriteToolCall)
| CShell (c : ShellToolCall)
| CAtuinHistory (c : AtuinHistoryToolCall)
| CAtuinOutput (c : AtuinOutputToolCall)
| CLoadSkill (c : LoadSkillToolCall).

(** The derived order of [AuthorPattern]. *)
#[export] Instance ord_author : Ord AuthorPattern :=
  ord_on (λ a, match a with AllUser => (0, ""%string) | AllAgent => (1, ""%string) | AuthorName s => (2, s) end).

(** ** Parsing *)

Definition DEFAULT_FILE_READ_LINES : Z := 100.
Definition MAX_FILE_READ_LINES : Z := 1000.

Section parsing.
Context `{Json, ToolLib}.

(** [value.get(k).and_then(|v| v.as_str())] and the like. *)
Definition get_str (v : Value) (k : string) : option string := get v k ≫= as_str.
Definition get_u64 (v : Value) (k : string) : option Z := get v k ≫= as_u64.
Definition get_bool (v : Value) (k : string) : option bool := get v k ≫= as_bool.

Definition expand_path (p : string) : string := tilde p.

Definition try_read (v : Value) : result ReadToolCall string :=
  let? path := ok_or (get_str v "file_path") "Missing path" in
  let offset := default 0 (get_u64 v "offset") in
  let limit := Z.min (default DEFAULT_FILE_READ_LINES (get_u64 v "limit")) MAX_FILE_READ_LINES in
  Ok (mk_read (expand_path path) offset limit).

Definition try_edit (v : Value) : result EditToolCall string :=
  let? path := ok_or (get_str v "file_path") "Missing file_path" in
  let? old_string := ok_or (get_str v "old_string") "Missing old_string" in
  let? new_string := ok_or (get_str v "new_string") "Missing new_string" in
  let replace_all := default false (get_bool v "replace_all") in
  Ok (mk_edit (expand_path path) old_string new_string replace_all).

Definition try_write (v : Value) : result WriteToolCall string :=
  let? path := ok_or (get_str v "file_path") "Missing file_path" in
  let? content := ok_or (get_str v "content") "Missing content" in
  let overwrite := default false (get_bool v "overwrite") in
  Ok (mk_write (expand_path path) content overwrite).

Definition try_shell (v : Value) : result ShellToolCall string :=
  let dir := get_str v "dir" in
  let? command := ok_or (get_str v "command") "Missing command" in
  let shell := default "bash"%string (get_str v "shell") in
  let timeout := get_u64 v "timeout" ≫= λ t, if 0 <? t then Some t else None in
  let description := get_str v "description" in
  Ok (mk_shell (expand_path <$> dir) command shell (Z.min (default 30 timeout) 600) description).

Definition filter_mode (v : Value) : result HistorySearchFilterMode string :=
  let? mode := ok_or (as_str v) "Invalid filter mode" in
  if decide (mode = "global") then Ok HGlobal
  else if decide (mode = "host") then Ok HHost
  else if decide (mode = "session") then Ok HSession
  else if decide (mode = "directory") then Ok HDirectory
  else if decide (mode = "workspace") then Ok HWorkspace
  else Err ("Invalid filter mode: " +:+ mode).

Definition author_entry (v : Value) : result AuthorPattern string :=
  ok_or (pattern_from_string <$> as_str v) "authors entries must be strings".

Definition try_history (v : Value) : result AtuinHistoryToolCall string :=
  let? modes := ok_or (get v "filter_modes" ≫= as_array) "Missing filter_modes" in
  let? filter_modes := try_map filter_mode modes in
  let? query := ok_or (get_str v "query") "Missing query" in
  let limit := Z.max 1 (Z.min (default 10 (get v "limit" ≫= as_i64)) 50) in
  let only_failed := default false (get_bool v "only_failed") in
  let? authors := match get v "authors" with
                  | Some a => let? l := ok_or (as_array a) "authors must be an array of strings" in
                              try_map author_entry l
                  | None => Ok []
                  end in
  Ok (mk_ahistory filter_modes query limit only_failed (default Filter.all (Filter.from_list authors))).

Definition output_range (v : Value) : result (Z * Z) string :=
  match as_array v with
  | Some [a; b] =>
      let? start := ok_or (as_i64 a) "Range start must be an integer" in
      let? end_ := ok_or (as_i64 b) "Range end must be an integer" in
      Ok (start, end_)
  | _ => Err "Each range must be a [start, end] array"%string
  end.

Definition try_output (v : Value) : result AtuinOutputToolCall string :=
  let? history_id := ok_or (get_str v "history_id" ≫= parse_uuid) "Missing or invalid history ID" in
  let? ranges := try_map output_range (default [] (get v "ranges" ≫= as_array)) in
  Ok (mk_aoutput history_id ranges None).

Definition try_skill (v : Value) : result LoadSkillToolCall string :=
  let? name := ok_or (get_str v "name") "Missing skill name" in Ok (mk_skill name).

(** [TryFrom<(&str, &Value)> for ClientToolCall] *)
Definition try_from (name : string) (input : Value) : result ClientToolCall string :=
  if decide (name = "read_file") then let? c := try_read input in Ok (CRead c)
  else if decide (name = "edit_file") then let? c := try_edit input in Ok (CEdit c)
  else if decide (name = "write_file") then let? c := try_write input in Ok (CWrite c)
  else if decide (name = "execute_shell_command") then let? c := try_shell input in Ok (CShell c)
  else if decide (name = "atuin_history") then let? c := try_history input in Ok (CAtuinHistory c)
  else if decide (name = "atuin_output") then let? c := try_output input in Ok (CAtuinOutput c)
  else if decide (name = "load_skill") then let? c := try_skill input in Ok (CLoadSkill c)
  else Err ("Unknown tool call: " +:+ name).
End parsing.

(** ** Descriptors ([tools/descriptor.rs]) *)

Record ToolDescriptor : Type := mk_desc {
  canonical_names : list string; capability : option string; display_verb : string;
  progressive_verb : string; past_verb : string; is_client : bool
}.

Definition READ := mk_desc ["read_file"] (Some "client_v1_read_file") "read" "Reading file..." "Read file" true.
Definition EDIT := mk_desc ["edit_file"] (Some "client_v1_edit_file") "edit" "Editing file..." "Edited file" true.
Definition WRITE := mk_desc ["write_file"] (Some "client_v1_write_file") "write to" "Writing file..." "Wrote file" true.
Definition SHELL :=
  mk_desc ["execute_shell_command"] (Some "client_v1_execute_shell_command") "run" "Running command..." "Ran command" true.
Definition ATUIN_HISTORY :=
  mk_desc ["atuin_history"] (Some "client_v1_atuin_history") "search your Atuin history for" "Searching..." "Searched" true.
Definition ATUIN_OUTPUT :=
  mk_desc ["atuin_output"] (Some "client_v1_atuin_output") "view the output for command" "Viewing output..."
    "Viewed output" true.
Definition LOAD_SKILL :=
  mk_desc ["load_skill"] (Some "client_v1_load_skill") "load skill" "Loading skill..." "Loaded skill" true.
Definition SERVER_SEARCH := mk_desc ["web_search"] None "search" "Searching..." "Searched" false.
Definition SERVER_SCRAPE := mk_desc ["web_scrape"] None "scrape" "Scraping..." "Scraped" false.

Definition ALL_DESCRIPTORS : list ToolDescriptor :=
  [READ; EDIT; WRITE; SHELL; ATUIN_HISTORY; ATUIN_OUTPUT; LOAD_SKILL; SERVER_SEARCH; SERVER_SCRAPE].

Definition by_name (name : string) : option ToolDescriptor :=
  List.find (λ d, bool_decide (name ∈ canonical_names d)) ALL_DESCRIPTORS.

Definition descriptor (c : ClientToolCall) : ToolDescriptor :=
  match c with
  | CRead _ => READ | CEdit _ => EDIT | CWrite _ => WRITE | CShell _ => SHELL
  | CAtuinHistory _ => ATUIN_HISTORY | CAtuinOutput _ => ATUIN_OUTPUT | CLoadSkill _ => LOAD_SKILL
  end.

Definition rule_name (c : ClientToolCall) : string :=
  match c with
  | CRead _ => "Read" | CEdit _ => "Write" | CWrite _ => "Write" | CShell _ => "Shell"
  | CAtuinHistory _ => "AtuinHistory" | CAtuinOutput _ => "AtuinOutput" | CLoadSkill _ => "LoadSkill"
  end.

Definition is_auto_approved (c : ClientToolCall) : bool := match c with CLoadSkill _ => true | _ => false end.

(** [resolved_path] of the file tools and [resolved_file_path]; [cwd] is [current_dir().ok()]. *)
Definition resolved_path (cwd : option string) (p : string) : string :=
  if is_relative p then match cwd with Some d => path_join d p | None => p end else p.

Definition resolved_file_path (cwd : option string) (c : ClientToolCall) : option string :=
  match c with
  | CRead t => Some (resolved_path cwd (rd_path t))
  | CEdit t => Some (resolved_path cwd (ed_path t))
  | CWrite t => Some (resolved_path cwd (wr_path t))
  | _ => None
  end.

Definition target_dir (c : ClientToolCall) : option string :=
  match c with
  | CRead t => Some (rd_path t)
  | CEdit t => Some (ed_path t)
  | CWrite t => Some (wr_path t)
  | CShell t => sh_dir t
  | _ => None
  end.

(** [path_matches_scope] *)
Definition backslash : Ascii.ascii := byte 92.

Definition path_matches_scope `{ToolLib} (cwd : option string) (p scope : string) : bool :=
  let path := resolved_path cwd p in
  let path_str := replace_char backslash slash path in
  if negb (starts_with "/" scope) then
    (match file_name path with Some name => glob_match scope name | None => false end)
    || glob_match scope path_str
    || (match cwd with
        | Some d => match path_strip_prefix path d with
                    | Some rel => glob_match scope (replace_char backslash slash rel)
                    | None => false
                    end
        | None => false
        end)
  else glob_match scope path_str.

(** ** Outcomes *)

Inductive InterruptReason : Type := IUser | ITimeout (secs : Z).

Inductive ToolOutcome : Type :=
| Success (s : string)
| Error (e : string)
| Structured (stdout stderr : string) (exit_code : option Z) (duration_ms : Z) (interrupted : bool).

Definition newline : string := String line_feed EmptyString.

Definition format_for_llm (o : ToolOutcome) (reason : option InterruptReason) : string :=
  match o with
  | Success s => s
  | Error e => e
  | Structured stdout stderr exit_code duration_ms interrupted =>
      String.concat (newline +:+ newline)
        ((match exit_code with Some c => ["Exit code: " +:+ pretty c] | None => [] end)
         ++ ["Duration: " +:+ pretty duration_ms +:+ "ms"]
         ++ [if decide (stdout = "") then "stdout: (empty)" else "stdout:" +:+ newline +:+ stdout]
         ++ [if decide (stderr = "") then "stderr: (empty)" else "stderr:" +:+ newline +:+ stderr]
         ++ (if interrupted : bool then
               [match reason with
                | Some (ITimeout secs) => "[Timed out after " +:+ pretty secs +:+ "s]"
                | _ => "[Interrupted by user]"
                end]
             else []))
  end.

Definition is_error (o : ToolOutcome) : bool :=
  match o with
  | Error _ => true
  | Structured _ _ (Some code) _ _ => negb (code =? 0)
  | _ => false
  end.

(** ** Well-formed calls *)

#[export] Instance ord_author_laws : OrdLaws AuthorPattern.
Proof. apply ord_on_laws. intros [] [] E; simplify_eq; done. Qed.

(** The bounds that the tools rely on. *)
Definition wf_call (c : ClientToolCall) : Prop :=
  match c with
  | CRead r => is_u64 (rd_offset r) ∧ 0 ≤ rd_limit r ≤ MAX_FILE_READ_LINES
  | CShell s => 1 ≤ sh_timeout_secs s ≤ 600
  | CAtuinHistory h => 1 ≤ ah_limit h ≤ 50 ∧ StronglySorted strict (of_inner (ah_authors h))
  | CAtuinOutput o => ao_command o = None
  | CEdit _ | CWrite _ | CLoadSkill _ => True
  end.

Lemma try_read_wf `{JsonLaws, ToolLib} v c : try_read v = Ok c → wf_call (CRead c).
Proof.
  unfold try_read, get_u64. destruct (ok_or _ _); [|done]. intros [= <-]. cbn.
  assert (∀ k d, is_u64 d → is_u64 (default d (get v k ≫= as_u64))) as Hu.
  { intros k d Hd. destruct (get v k) as [w|]; [|done]. cbn. destruct (as_u64 w) eqn:E; [|done]. by eapply as_u64_range. }
  split; [by apply Hu|]. assert (is_u64 (default DEFAULT_FILE_READ_LINES (get v "limit" ≫= as_u64))) as Hl by (by apply Hu).
  unfold is_u64, MAX_FILE_READ_LINES in *. lia.
Qed.

Lemma try_shell_wf `{Json, ToolLib} v c : try_shell v = Ok c → wf_call (CShell c).
Proof.
  unfold try_shell. destruct (ok_or _ _); [|done]. intros [= <-]. cbn.
  destruct (get_u64 v "timeout") as [t|]; cbn; [|lia]. destruct (Z.ltb_spec 0 t); cbn; lia.
Qed.

Lemma try_history_wf `{Json} v c : try_history v = Ok c → wf_call (CAtuinHistory c).
Proof.
  unfold try_history. intros E. do 4 case_res E. injection E as <-. cbn. split; [lia|].
  match goal with |- context [Filter.from_list ?l] => destruct (Filter.from_list l) as [f|] eqn:El end; [|constructor].
  by apply from_list_inner in El as (_ & ? & _).
Qed.

(** C39: a tool call that parses keeps its bounds (a read limit of at most a thousand lines, a timeout
    between one second and ten minutes, a history limit between 1 and 50 and authors sorted without
    duplicates, no command yet for an output), and its name is one its descriptor lists, so that the
    descriptor is the one found by name. *)
Theorem tool_calls_well_formed `{JsonLaws, ToolLib} name v c :
  try_from name v = Ok c → wf_call c ∧ name ∈ canonical_names (descriptor c) ∧ by_name name = Some (descriptor c).
Proof.
  unfold try_from. repeat case_decide; subst; intros E; try discriminate E.
  - destruct (try_read v) eqn:Er; [|done]. injection E as <-. by split; [eapply try_read_wf|split; [left|]].
  - destruct (try_edit v) eqn:Er; [|done]. injection E as <-. by split; [|split; [left|]].
  - destruct (try_write v) eqn:Er; [|done]. injection E as <-. by split; [|split; [left|]].
  - destruct (try_shell v) eqn:Er; [|done]. injection E as <-. by split; [eapply try_shell_wf|split; [left|]].
  - destruct (try_history v) eqn:Er; [|done]. injection E as <-. by split; [eapply try_history_wf|split; [left|]].
  - destruct (try_output v) eqn:Er; [|done]. injection E as <-. split; [|by split; [left|]]. revert Er. unfold try_output.
    destruct (ok_or _ _); [|done]. cbn. destruct (try_map _ _); [|done]. by intros [= <-].
  - destruct (try_skill v) eqn:Er; [|done]. injection E as <-. by split; [|split; [left|]].
Qed.

Definition toy_tools : ToolLib := {|
  tilde := id; parse_uuid := λ _, None; glob_match := λ p s, bool_decide (p = s) |}.

Lemma tool_calls_well_formed_witness :
  wf_call (CShell (mk_shell None "ls" "bash" 600 None)) ∧ by_name "execute_shell_command" = Some SHELL.
Proof.
  destruct (tool_calls_well_formed (H0 := toy_json_laws) (H1 := toy_tools) "execute_shell_command"
    (JObj [("command", JStr "ls"); ("timeout", JNum 9000)])%string (CShell (mk_shell None "ls" "bash" 600 None))) as (Hw & _ & Hb);
    [reflexivity|]. exact (conj Hw Hb).
Defined.
