(* ===== verification/Permissions.v ===== *)
(** * Permissions of the agent's tool calls ([atuin-ai/src/permissions])

    A permission file lists rules to allow, deny or ask. [Rule] is parsed from and printed to text;
    a shell command is split into its subcommands, by the syntax tree where there is a parser for
    the shell and by separators otherwise; a rule's scope is matched against their words; and
    [check] decides a call by the first file with a rule that applies. The tree-sitter parsers and
    the non-ASCII part of the word class of the [regex] crate are the interface [ShellLib]. *)
From S2P Require Import Prelude Text Filter Json History AiTools.

(** ** Rules ([rule.rs]) *)

Record Rule : Type := mk_rule { r_tool : string; r_scope : option string }.

Inductive RuleError : Type := InvalidRule (s : string).

(** [tree_sitter::Node], as far as the code reads it. *)
Inductive Node : Type := mk_node (kind : string) (start_byte end_byte : nat) (children : list Node).
Definition n_kind (n : Node) : string := let 'mk_node k _ _ _ := n in k.
Definition n_start (n : Node) : nat := let 'mk_node _ s _ _ := n in s.
Definition n_end (n : Node) : nat := let 'mk_node _ _ e _ := n in e.

Class ShellLib : Type := {
  unicode_word : list Ascii.ascii → bool;
  parse_bash_tree : string → option Node;
  parse_fish_tree : string → option Node
}.

Definition lparen : Ascii.ascii := byte 40.
Definition rparen : Ascii.ascii := byte 41.
Definition star : Ascii.ascii := byte 42.
Definition semicolon : Ascii.ascii := byte 59.
Definition ampersand : Ascii.ascii := byte 38.
Definition pipe : Ascii.ascii := byte 124.

Definition ascii_word (c : Ascii.ascii) : bool :=
  ((48 <=? code c) && (code c <? 58)) || ((65 <=? code c) && (code c <? 91))
  || ((97 <=? code c) && (code c <? 123)) || (code c =? 95).

Section rules.
Context `{ShellLib}.

(** [\w+] at the start of the text, and the rest; the length of the text is enough fuel. *)
Fixpoint word_prefix (fuel : nat) (l : list Ascii.ascii) : list Ascii.ascii * list Ascii.ascii :=
  match fuel, l with
  | S f, c :: _ =>
      let n := utf8_len c in
      if (if code c <? 128 then ascii_word c else unicode_word (take n l)) then
        let '(w, rest) := word_prefix f (drop n l) in (take n l ++ w, rest)
      else ([], l)
  | _, _ => ([], l)
  end.

(** The captures of the rule's regular expression: a word, then optionally a text without line feeds
    in parentheses, then the end. *)
Definition rule_captures (l : list Ascii.ascii) : option (list Ascii.ascii * option (list Ascii.ascii)) :=
  match word_prefix (length l) l with
  | ([], _) => None
  | (w, []) => Some (w, None)
  | (w, c :: rest) =>
      match reverse rest with
      | d :: body =>
          if decide (c = lparen ∧ d = rparen ∧ line_feed ∉ body) then Some (w, Some (reverse body)) else None
      | [] => None
      end
  end.

(** [TryFrom<&str> for Rule] *)
Definition rule_try_from (value : string) : result Rule RuleError :=
  let value := trim value in
  match rule_captures (chars value) with
  | Some (t, s) => Ok (mk_rule (unchars t) (unchars <$> s))
  | None => Err (InvalidRule value)
  end.
End rules.

(** [Display for Rule] *)
Definition rule_to_string (r : Rule) : string :=
  match r_scope r with
  | Some scope => r_tool r +:+ "(" +:+ scope +:+ ")"
  | None => r_tool r
  end.

(** ** Subcommands of a shell command ([shell.rs]) *)

Record ShellCommand : Type := mk_cmd { c_name : string; c_full : string }.

Inductive ShellKind : Type := Posix | Fish | OtherShell.

Definition from_shell_name (name : string) : ShellKind :=
  if decide (name ∈ ["bash"; "sh"; "zsh"; "dash"; "ksh"]) then Posix
  else if decide (name = "fish") then Fish
  else OtherShell.

(** [&source[start..end]] as text. The ranges are those of a node, or from the start of a command's
    name to the end of an argument after it, so they are in order and at character boundaries. *)
Definition slice_text (source : string) (start end_ : nat) : string :=
  unchars (take (end_ - start) (drop start (chars source))).
Definition utf8_text (n : Node) (source : string) : string := slice_text source (n_start n) (n_end n).

Module Bash.

Definition BASH_LEAVES : list string :=
  ["command_name"; "word"; "number"; "simple_expansion"; "expansion"; "arithmetic_expansion"; "ansi_c_string";
   "special_variable_name"; "variable_name"; "file_descriptor"; "heredoc_body"; "heredoc_start"; "regex";
   "heredoc_redirect"].

Definition ARGUMENTS : list string :=
  ["word"; "string"; "raw_string"; "concatenation"; "number"; "simple_expansion"; "expansion";
   "arithmetic_expansion"; "ansi_c_string"; "process_substitution"].

(** The scan over the children: the last name with its start, and the end of the last argument. *)
Definition scan (source : string) (acc : option (string * nat) * option nat) (child : Node)
    : option (string * nat) * option nat :=
  if decide (n_kind child = "command_name") then (Some (utf8_text child source, n_start child), acc.2)
  else if decide (n_kind child ∈ ARGUMENTS) then (acc.1, Some (n_end child))
  else acc.

Definition extract_bash_command (children : list Node) (source : string) : option ShellCommand :=
  match foldl (scan source) (None, None) children with
  | (None, _) => None
  | (Some (name, start), Some end_) => Some (mk_cmd name (slice_text source start end_))
  | (Some (name, _), None) => Some (mk_cmd name name)
  end.

Fixpoint walk_bash_node (source : string) (n : Node) : list ShellCommand :=
  let 'mk_node kind _ _ children := n in
  if decide (kind = "command") then
    option_list (extract_bash_command children source)
    ++ concat (map (λ c, if decide (n_kind c ∈ BASH_LEAVES) then [] else walk_bash_node source c) children)
  else concat (map (walk_bash_node source) children).
End Bash.

Module FishTree.

Definition FISH_COMPOUND : list string :=
  ["conditional_execution"; "pipe"; "job"; "command_substitution"; "block"; "for_statement"; "while_statement";
   "if_statement"; "switch_statement"; "function_definition"; "begin_statement"; "redirected_statement"].

Definition extract_fish_command (n : Node) (children : list Node) (source : string) : option ShellCommand :=
  match List.find (λ c, bool_decide (n_kind c = "command_name" ∨ n_kind c = "word")) children with
  | Some c => Some (mk_cmd (utf8_text c source) (trim (utf8_text n source)))
  | None => None
  end.

Fixpoint walk_fish_node (source : string) (n : Node) : list ShellCommand :=
  let 'mk_node kind _ _ children := n in
  if decide (kind = "command") then
    option_list (extract_fish_command n children source)
    ++ concat (map (λ c, if decide (n_kind c ∈ FISH_COMPOUND) then walk_fish_node source c else []) children)
  else concat (map (walk_fish_node source) children).
End FishTree.

(** [push_segment] *)
Definition push_segment (segment : list Ascii.ascii) : list ShellCommand :=
  let trimmed := trim (unchars segment) in
  if decide (trimmed = "") then []
  else match head (split_whitespace trimmed) with
       | Some name => [mk_cmd name trimmed]
       | None => []
       end.

(** [parse_fallback]; [segment] is the segment so far, reversed. *)
Fixpoint parse_fallback_l (segment l : list Ascii.ascii) : list ShellCommand :=
  match l with
  | [] => push_segment (reverse segment)
  | c :: l' =>
      if decide (c = semicolon) then push_segment (reverse segment) ++ parse_fallback_l [] l'
      else if decide (c = pipe) then
        push_segment (reverse segment)
        ++ match l' with
           | d :: l'' => if decide (d = pipe) then parse_fallback_l [] l'' else parse_fallback_l [] l'
           | [] => parse_fallback_l [] l'
           end
      else match l' with
           | d :: l'' =>
               if decide (c = ampersand ∧ d = ampersand) then push_segment (reverse segment) ++ parse_fallback_l [] l''
               else parse_fallback_l (c :: segment) l'
           | [] => parse_fallback_l (c :: segment) l'
           end
  end.
Definition parse_fallback (s : string) : list ShellCommand := parse_fallback_l [] (chars s).

(** [parse_shell_command], on the platforms built with the tree-sitter feature. *)
Definition parse_shell_command `{ShellLib} (s : string) (shell : ShellKind) : list ShellCommand :=
  match shell with
  | Posix => match parse_bash_tree s with Some t => Bash.walk_bash_node s t | None => parse_fallback s end
  | Fish => match parse_fish_tree s with Some t => FishTree.walk_fish_node s t | None => parse_fallback s end
  | OtherShell => parse_fallback s
  end.

(** ** Scopes *)

(** [find_subslice] *)
Fixpoint find_from (n i : nat) (haystack needle : list string) : option nat :=
  match n with
  | O => None
  | S n' => if decide (take (length needle) (drop i haystack) = needle) then Some i
            else find_from n' (S i) haystack needle
  end.
Definition find_subslice (haystack needle : list string) : option nat :=
  match needle with
  | [] => Some O
  | _ :: _ => if decide (length haystack < length needle)%nat then None
              else find_from (length haystack - length needle + 1) 0 haystack needle
  end.

(** [words.len() >= prefix.len() && words[..prefix.len()] == prefix] *)
Definition words_start_with (words prefix : list string) : bool :=
  bool_decide (length prefix ≤ length words)%nat && bool_decide (take (length prefix) words = prefix).

(** The loop of [scope_matches_words] after the first segment; [word_idx] words are consumed. *)
Fixpoint match_segments (words : list string) (word_idx : nat) (segments : list (list string)) : bool :=
  match segments with
  | [] => true
  | [] :: rest => match_segments words word_idx rest
  | [last] =>
      if decide (length words - word_idx < length last)%nat then false
      else bool_decide (drop (length words - length last) words = last)
  | segment :: rest =>
      match find_subslice (drop word_idx words) segment with
      | Some idx => match_segments words (word_idx + idx + length segment) rest
      | None => false
      end
  end.

(** [scope_matches_words] *)
Definition scope_matches_words (scope : string) (words : list string) : bool :=
  match split_char star scope with
  | [] | [_] => words_start_with words (split_whitespace scope)
  | first :: rest =>
      let segment := split_whitespace first in
      let tail := split_whitespace <$> rest in
      match segment with
      | [] => match_segments words 0 tail
      | _ :: _ => if words_start_with words segment then match_segments words (length segment) tail else false
      end
  end.

(** [any_subcommand_matches] *)
Definition any_subcommand_matches (subcommands : list ShellCommand) (prefix_bare : bool) (scope : string) : bool :=
  let scope := trim scope in
  let words c := split_whitespace (c_full c) in
  if decide (scope = "" ∨ scope = "*") then true
  else match strip_suffix " *" scope with
  | Some prefix =>
      existsb (λ c, bool_decide (prefix = "") || words_start_with (words c) (split_whitespace prefix)) subcommands
  | None =>
      match strip_suffix "*" scope with
      | Some prefix => existsb (λ c, starts_with prefix (c_full c)) subcommands
      | None =>
          if contains_char star scope then existsb (λ c, scope_matches_words scope (words c)) subcommands
          else existsb (λ c, if prefix_bare then words_start_with (words c) (split_whitespace scope)
                             else bool_decide (words c = split_whitespace scope)) subcommands
      end
  end.

(** ** Matching a call ([PermissibleToolCall] of each tool) *)

Section matching.
Context `{ToolLib, ShellLib}.
Context (cwd : option string).

Definition file_rule (tools : list string) (path : string) (r : Rule) : bool :=
  if decide (r_tool r ∉ tools) then false
  else match r_scope r with
       | None => true
       | Some scope => if decide (scope = "*") then true else path_matches_scope cwd path scope
       end.

Definition matches_rule (c : ClientToolCall) (r : Rule) : bool :=
  match c with
  | CRead t => file_rule ["Read"; "Write"] (rd_path t) r
  | CEdit t => file_rule ["Write"] (ed_path t) r
  | CWrite t => file_rule ["Write"] (wr_path t) r
  | CShell t =>
      if decide (r_tool r ≠ "Shell") then false
      else match r_scope r with
           | None => true
           | Some scope =>
               any_subcommand_matches (parse_shell_command (sh_command t) (from_shell_name (sh_shell t))) true scope
           end
  | CAtuinHistory _ => bool_decide (r_tool r = "AtuinHistory")
  | CAtuinOutput _ => bool_decide (r_tool r = "AtuinOutput")
  | CLoadSkill _ => bool_decide (r_tool r = "LoadSkill")
  end.

(** The rule covers one subcommand. *)
Definition covers (r : Rule) (c : ShellCommand) : bool :=
  if decide (r_tool r ≠ "Shell") then false
  else match r_scope r with
       | None => true
       | Some scope => if decide (scope = "*") then true else any_subcommand_matches [c] false scope
       end.

Definition all_covered_by (c : ClientToolCall) (rules : list Rule) : bool :=
  match c with
  | CShell t =>
      match parse_shell_command (sh_command t) (from_shell_name (sh_shell t)) with
      | [] => false
      | subs => forallb (λ sub, existsb (λ r, covers r sub) rules) subs
      end
  | _ => existsb (matches_rule c) rules
  end.

(** ** Deciding ([check.rs]) *)

(** [RuleFilePermissions], with the directory of its file. *)
Record RuleFile : Type := mk_rulefile {
  rf_path : string; rf_allow : list Rule; rf_deny : list Rule; rf_ask : list Rule
}.

Inductive Verdict : Type := Allowed | Denied | Ask.

(** [PermissionChecker::check] *)
Fixpoint check (files : list RuleFile) (c : ClientToolCall) : Verdict :=
  match files with
  | [] => Ask
  | f :: files' =>
      if existsb (matches_rule c) (rf_ask f) then Ask
      else if existsb (matches_rule c) (rf_deny f) then Denied
      else if all_covered_by c (rf_allow f) then Allowed
      else check files' c
  end.
End matching.

(** ** Finding the files ([walker.rs])

    [loaded depth] is the outcome of loading the file of the directory at that depth, the global file
    last; [order] is the order in which the tasks complete. A failure is logged and skipped. *)
Definition walk (loaded : nat → result (option RuleFile) string) (order : list nat) : list RuleFile :=
  (sort_by_key (λ p, Z.of_nat p.1)
     (omap (λ d, match loaded d with Ok (Some f) => Some (d, f) | _ => None end) order)).*2.

(** ** Lemmas on scopes *)

(** The meaning of a pattern's segments after its first star: each is preceded by any words, and the
    last one ends the command. *)
Fixpoint tail_matches (segments : list (list string)) (words : list string) : Prop :=
  match segments with
  | [] => words = []
  | s :: segments' => ∃ gap rest, words = gap ++ s ++ rest ∧ tail_matches segments' rest
  end.

Lemma tail_matches_app s segs pre ws : tail_matches (s :: segs) ws → tail_matches (s :: segs) (pre ++ ws).
Proof.
  intros (gap & rest & -> & Ht). exists (pre ++ gap), rest. split; [by rewrite <- app_assoc|done].
Qed.

Lemma tail_matches_empty s segs ws : tail_matches ([] :: s :: segs) ws ↔ tail_matches (s :: segs) ws.
Proof.
  split.
  - intros (gap & rest & -> & Ht). by apply tail_matches_app.
  - intros Ht. by exists [], ws.
Qed.

Definition occurs_at (hay needle : list string) (i : nat) : Prop :=
  take (length needle) (drop i hay) = needle.

Lemma occurs_at_app gap needle rest : occurs_at (gap ++ needle ++ rest) needle (length gap).
Proof. unfold occurs_at. by rewrite drop_app_length, take_app_length. Qed.

Lemma occurs_at_split hay needle i :
  occurs_at hay needle i → drop i hay = needle ++ drop (i + length needle) hay.
Proof.
  unfold occurs_at. intros Ho. rewrite <- (take_drop (length needle) (drop i hay)) at 1.
  rewrite Ho, drop_drop. done.
Qed.

Lemma find_from_spec n i hay needle :
  match find_from n i hay needle with
  | Some j => occurs_at hay needle j ∧ (i ≤ j < i + n)%nat ∧ ∀ k, (i ≤ k < j)%nat → ¬ occurs_at hay needle k
  | None => ∀ k, (i ≤ k < i + n)%nat → ¬ occurs_at hay needle k
  end.
Proof.
  revert i. induction n as [|n IH]; intros i; cbn [find_from]; [intros; lia|].
  case_decide as Ho; [split_and!; [done|lia|lia|intros; lia]|].
  specialize (IH (S i)). destruct (find_from n (S i) hay needle) as [j|].
  - destruct IH as (Hj & Hr & Hmin). split_and!; [done|lia|lia|]. intros k Hk.
    destruct (decide (k = i)) as [->|]; [done|]. apply Hmin. lia.
  - intros k Hk. destruct (decide (k = i)) as [->|]; [done|]. apply IH. lia.
Qed.

Lemma occurs_at_bound hay needle k : needle ≠ [] → occurs_at hay needle k → (k + length needle ≤ length hay)%nat.
Proof.
  unfold occurs_at. intros Hn Ho. apply (f_equal length) in Ho. rewrite length_take, length_drop in Ho.
  assert (0 < length needle)%nat by (destruct needle; simpl; [done|lia]). lia.
Qed.

Lemma find_subslice_spec hay needle :
  needle ≠ [] →
  match find_subslice hay needle with
  | Some j => occurs_at hay needle j ∧ ∀ k, (k < j)%nat → ¬ occurs_at hay needle k
  | None => ∀ k, ¬ occurs_at hay needle k
  end.
Proof.
  intros Hn. unfold find_subslice. destruct needle as [|w needle]; [done|]. case_decide as Hl.
  { intros k Ho. apply occurs_at_bound in Ho; [lia|done]. }
  pose proof (find_from_spec (length hay - length (w :: needle) + 1) 0 hay (w :: needle)) as Hf.
  destruct (find_from _ _ _ _) as [j|].
  - destruct Hf as (Hj & _ & Hmin). split; [done|]. intros k Hk. apply Hmin. lia.
  - intros k Ho. apply (Hf k); [|done]. apply occurs_at_bound in Ho; [lia|done].
Qed.

(** The last segment must end the words. *)
Lemma last_segment_spec last words idx :
  (idx ≤ length words)%nat →
  (length last ≤ length words - idx)%nat ∧ drop (length words - length last) words = last ↔
  tail_matches [last] (drop idx words).
Proof.
  intros Hidx. split.
  - intros [Hl Hd]. exists (drop idx (take (length words - length last) words)), []. rewrite app_nil_r. split; [|done].
    rewrite <- Hd at 2. rewrite <- (take_drop (length words - length last) words) at 1.
    rewrite drop_app_le; [done|]. rewrite length_take. lia.
  - intros (gap & rest & Hd & ->). rewrite app_nil_r in Hd.
    assert (length words - idx = length gap + length last)%nat as Hlen.
    { rewrite <- length_app, <- Hd, length_drop. done. }
    split; [lia|]. replace (length words - length last)%nat with (idx + length gap)%nat by lia.
    by rewrite <- drop_drop, Hd, drop_app_length.
Qed.

(** Taking the first occurrence of a segment loses no match of the others. *)
Lemma first_segment_spec s s' segs words i :
  occurs_at words s i → (∀ k, (k < i)%nat → ¬ occurs_at words s k) →
  tail_matches (s' :: segs) (drop (i + length s) words) ↔ tail_matches (s :: s' :: segs) words.
Proof.
  intros Ho Hmin. pose proof (occurs_at_split _ _ _ Ho) as Hsp. split.
  - intros Ht. exists (take i words), (drop (i + length s) words). split; [|done].
    rewrite <- (take_drop i words) at 1. by rewrite Hsp.
  - intros (gap & rest & Hd & Ht).
    assert (i ≤ length gap)%nat as Hle.
    { destruct (decide (length gap < i)%nat) as [Hlt|]; [|lia]. exfalso. apply (Hmin _ Hlt). rewrite Hd. apply occurs_at_app. }
    assert (rest = drop (length gap - i) (drop (i + length s) words)) as Hrest.
    { rewrite drop_drop. replace (i + length s + (length gap - i))%nat with (length gap + length s)%nat by lia.
      by rewrite Hd, app_assoc, <- length_app, drop_app_length. }
    rewrite Hrest in Ht. rewrite <- (take_drop (length gap - i) (drop (i + length s) words)).
    by apply tail_matches_app.
Qed.

Lemma match_segments_spec segs words idx :
  segs ≠ [] → (idx ≤ length words)%nat →
  match_segments words idx segs = true ↔ tail_matches segs (drop idx words).
Proof.
  revert idx. induction segs as [|s segs IH]; intros idx Hne Hidx; [done|].
  destruct s as [|w s].
  { destruct segs as [|s' segs]; cbn [match_segments].
    - split; [intros _|done]. exists (drop idx words), []. by rewrite app_nil_r.
    - rewrite tail_matches_empty. apply (IH idx); done. }
  destruct segs as [|s' segs].
  - rewrite <- last_segment_spec by done. cbn [match_segments].
    case_decide; [split; [done|intros [? _]; simpl in *; lia]|].
    rewrite bool_decide_eq_true. split; [intros Hd; split; [lia|done]|by intros [_ ?]].
  - change (match_segments words idx ((w :: s) :: s' :: segs)) with
      (match find_subslice (drop idx words) (w :: s) with
       | Some i => match_segments words (idx + i + length (w :: s)) (s' :: segs)
       | None => false end).
    pose proof (find_subslice_spec (drop idx words) (w :: s)) as Hf. specialize (Hf ltac:(done)).
    destruct (find_subslice _ _) as [i|].
    + destruct Hf as [Ho Hmin].
      assert (i + length (w :: s) ≤ length (drop idx words))%nat as Hb by (by apply occurs_at_bound).
      rewrite length_drop in Hb.
      rewrite IH by (done || lia). rewrite <- (first_segment_spec _ _ _ _ i Ho Hmin), drop_drop, Nat.add_assoc. done.
    + split; [done|]. intros (gap & rest & Hd & _). exfalso. apply (Hf (length gap)). rewrite Hd. apply occurs_at_app.
Qed.

Lemma words_start_with_spec words prefix : words_start_with words prefix = true ↔ prefix `prefix_of` words.
Proof.
  unfold words_start_with. rewrite andb_true_iff, !bool_decide_eq_true. split.
  - intros [_ Ht]. exists (drop (length prefix) words). by rewrite <- Ht at 1; rewrite take_drop.
  - intros [rest ->]. by rewrite take_app_length, length_app; split; [lia|].
Qed.

Lemma any_subcommand_bare subs scope :
  any_subcommand_matches subs false scope = true → any_subcommand_matches subs true scope = true.
Proof.
  unfold any_subcommand_matches. case_decide; [done|]. destruct (strip_suffix " *" _); [done|].
  destruct (strip_suffix "*" _); [done|]. destruct (contains_char _ _); [done|].
  rewrite !existsb_true. intros (c & Hc & Hb). exists c. split; [done|].
  apply bool_decide_eq_true in Hb. rewrite Hb. by apply words_start_with_spec.
Qed.

Lemma any_subcommand_elem subs c bare scope :
  c ∈ subs → any_subcommand_matches [c] bare scope = true → any_subcommand_matches subs bare scope = true.
Proof.
  intros Hc. unfold any_subcommand_matches. case_decide; [done|].
  assert (∀ p, existsb p [c] = true → existsb p subs = true) as Hex.
  { intros p. rewrite !existsb_true. intros (x & ->%list_elem_of_singleton & Hx). by exists c. }
  destruct (strip_suffix " *" _); [apply Hex|]. destruct (strip_suffix "*" _); [apply Hex|].
  destruct (contains_char _ _); apply Hex.
Qed.

(** A rule that covers a subcommand when it allows applies to the call when it denies. *)
Lemma covers_matches `{ToolLib, ShellLib} cwd t r sub :
  sub ∈ parse_shell_command (sh_command t) (from_shell_name (sh_shell t)) → covers r sub = true →
  matches_rule cwd (CShell t) r = true.
Proof.
  intros Hs. unfold covers, matches_rule. case_decide; [done|]. destruct (r_scope r) as [scope|]; [|done].
  case_decide as Hstar; [intros _; by subst|]. intros Hc.
  apply any_subcommand_bare in Hc. by apply any_subcommand_elem with sub.
Qed.

Lemma check_decides `{ToolLib, ShellLib} cwd files c v :
  check cwd files c = v → v ≠ Ask →
  ∃ pre f post, files = pre ++ f :: post ∧
    (∀ g r, g ∈ pre → r ∈ rf_ask g ++ rf_deny g → matches_rule cwd c r = false) ∧
    (∀ r, r ∈ rf_ask f → matches_rule cwd c r = false) ∧
    (v = Denied → ∃ r, r ∈ rf_deny f ∧ matches_rule cwd c r = true) ∧
    (v = Allowed → all_covered_by cwd c (rf_allow f) = true ∧ ∀ r, r ∈ rf_deny f → matches_rule cwd c r = false).
Proof.
  induction files as [|f files IH]; cbn [check]; [by intros <-|].
  destruct (existsb _ (rf_ask f)) eqn:Ea; [by intros <-|]. rewrite existsb_false in Ea.
  destruct (existsb _ (rf_deny f)) eqn:Ed.
  { intros <- _. apply existsb_true in Ed. exists [], f, files. split_and!; [done| |done|done|done].
    by intros g r ?%not_elem_of_nil. }
  rewrite existsb_false in Ed. destruct (all_covered_by _ _ (rf_allow f)) eqn:Ec.
  { intros <- _. exists [], f, files. split_and!; [done| |done|done|done]. by intros g r ?%not_elem_of_nil. }
  intros Hv Hn. destruct (IH Hv Hn) as (pre & g & post & -> & Hpre & Hrest).
  exists (f :: pre), g, post. split_and!; [done| |apply Hrest..].
  intros h r [->|Hh]%elem_of_cons [Hr|Hr]%elem_of_app; [by apply Ea|by apply Ed|..]; (eapply Hpre; [done|]); set_solver.
Qed.

(** ** Lemmas on rules *)

Lemma code_lt c : (code c < 256)%Z.
Proof. unfold code. pose proof (Ascii.nat_ascii_bounded c). lia. Qed.

Lemma ascii_word_code c : ascii_word c = true → (code c <? 128) = true.
Proof. unfold ascii_word. rewrite !orb_true_iff, !andb_true_iff, !Z.leb_le, !Z.ltb_lt, Z.eqb_eq. lia. Qed.

Lemma ascii_word_graphic c : ascii_word c = true → graphic c = true.
Proof.
  unfold ascii_word, graphic. rewrite !orb_true_iff, !andb_true_iff, !Z.leb_le, !Z.ltb_lt, Z.eqb_eq. lia.
Qed.

Lemma word_prefix_ascii `{ShellLib} w rest fuel :
  forallb ascii_word w = true → (length w ≤ fuel)%nat →
  (∀ c l, rest = c :: l → (code c <? 128) = true ∧ ascii_word c = false) →
  word_prefix fuel (w ++ rest) = (w, rest).
Proof.
  intros Hw Hf Hr. revert fuel Hf Hw. induction w as [|c w IH]; intros fuel Hf Hw; simpl in Hf, Hw.
  - destruct fuel, rest as [|c l]; try done. simpl. destruct (Hr c l eq_refl) as [-> ->]. done.
  - apply andb_true_iff in Hw as [Hc Hw]. destruct fuel as [|fuel]; [lia|]. cbn [word_prefix app].
    unfold utf8_len. rewrite (ascii_word_code c Hc), Hc. cbn [take drop]. rewrite IH by (done || lia). done.
Qed.

Lemma trim_graphic_ends s a b l :
  chars s = a :: l → graphic a = true → (∃ l', chars s = l' ++ [b]) → graphic b = true → trim s = s.
Proof.
  intros Hs Ha [l' Hs'] Hb. unfold trim, trim_start. rewrite strip_all_None; [|].
  - rewrite unchars_chars. by eapply trim_end_graphic.
  - rewrite Hs. apply strip_any_head. intros p Hp. apply head_ws; [apply elem_of_app; by left|done].
Qed.

(** ** Concrete instances of the interfaces *)

(** No shell is parsed by a tree, as where the feature is not built. *)
Definition toy_shell : ShellLib := {|
  unicode_word := λ _, false; parse_bash_tree := λ _, None; parse_fish_tree := λ _, None |}.

(** ** Correctness *)

(** The matcher of scopes with inner wildcards, which takes the first occurrence of each segment,
    accepts exactly the commands that the pattern means: its first segment, then for each star any
    number of words and the next segment, up to the end. *)
Theorem scope_matches_is_glob (scope first : string) (rest : list string) (words : list string) :
  split_char star scope = first :: rest → rest ≠ [] →
  scope_matches_words scope words = true ↔
  ∃ ws, words = split_whitespace first ++ ws ∧ tail_matches (split_whitespace <$> rest) ws.
Proof.
  intros Hs Hne. unfold scope_matches_words. rewrite Hs. destruct rest as [|r rest]; [done|]. clear Hs Hne.
  assert (split_whitespace <$> r :: rest ≠ []) as Hne by done.
  destruct (split_whitespace first) as [|w seg].
  - rewrite match_segments_spec, drop_0 by (done || lia). naive_solver.
  - destruct (words_start_with words (w :: seg)) eqn:E.
    + apply words_start_with_spec in E as [ws ->]. rewrite match_segments_spec by (done || rewrite length_app; lia).
      rewrite drop_app_length. split; [by exists ws|]. intros (ws' & Heq & Ht). by apply app_inv_head in Heq as ->.
    + split; [done|]. intros (ws & -> & _). exfalso.
      assert (words_start_with ((w :: seg) ++ ws) (w :: seg) = true) as Ht; [|by rewrite E in Ht].
      apply words_start_with_spec. by exists ws.
Qed.

Lemma scope_matches_is_glob_witness :
  scope_matches_words "git * --amend" ["git"; "commit"; "-m"; "--amend"] = true.
Proof.
  apply (scope_matches_is_glob "git * --amend" "git " [" --amend"]); [vm_compute; reflexivity|discriminate|].
  exists ["commit"; "-m"; "--amend"]. split; [reflexivity|]. exists ["commit"; "-m"], []. split; reflexivity.
Defined.

(** C29: a shell call is allowed only by a file in which every one of its subcommands is covered by an
    allow rule, and only when neither that file nor a deeper one has an ask or deny rule that applies
    to the call, which covers every rule that would itself allow one of the subcommands. *)
Theorem shell_allowed_is_covered `{ToolLib, ShellLib} (cwd : option string) (files : list RuleFile) (t : ShellToolCall) :
  check cwd files (CShell t) = Allowed →
  let subs := parse_shell_command (sh_command t) (from_shell_name (sh_shell t)) in
  subs ≠ [] ∧
  ∃ pre f post, files = pre ++ f :: post ∧
    (∀ sub, sub ∈ subs → ∃ r, r ∈ rf_allow f ∧ covers r sub = true) ∧
    (∀ g r, g ∈ pre ++ [f] → r ∈ rf_ask g ++ rf_deny g →
       matches_rule cwd (CShell t) r = false ∧ ∀ sub, sub ∈ subs → covers r sub = false).
Proof.
  intros Hc subs. destruct (check_decides _ _ _ _ Hc) as (pre & f & post & -> & Hpre & Hask & _ & Hall); [done|].
  destruct (Hall eq_refl) as [Hcov Hdeny]. unfold all_covered_by in Hcov. fold subs in Hcov. clear Hall Hc.
  split; [by destruct subs|]. exists pre, f, post. split_and!; [done| |].
  - intros sub Hsub. destruct subs as [|s ss]; [done|]. rewrite forallb_forall in Hcov.
    apply list_elem_of_In, Hcov, existsb_true in Hsub as (r & ? & ?). by exists r.
  - intros g r Hg Hr. assert (matches_rule cwd (CShell t) r = false) as Hm.
    { apply elem_of_app in Hg as [Hg| ->%list_elem_of_singleton]; [by eapply Hpre|].
      apply elem_of_app in Hr as [Hr|Hr]; [by apply Hask|by apply Hdeny]. }
    split; [done|]. intros sub Hsub. destruct (covers r sub) eqn:E; [|done].
    apply (covers_matches cwd t) in E; [congruence|done].
Qed.

Definition git_only : RuleFile := mk_rulefile "/p" [mk_rule "Shell" (Some "git *")] [mk_rule "Shell" (Some "git push")] [].
Definition nu_call (s : string) : ShellToolCall := mk_shell None s "nu" 30 None.

Lemma shell_allowed_is_covered_witness :
  parse_shell_command (H := toy_shell) "git add . && git commit" OtherShell ≠ [].
Proof.
  exact (proj1 (shell_allowed_is_covered (H := toy_tools) (H0 := toy_shell) None [git_only]
    (nu_call "git add . && git commit") eq_refl)).
Defined.

(** In a shell without a syntax tree a line feed does not end a command: a rule that allows git
    commands allows a second command on the next line, which a deny rule for it does not see either,
    while separated by a semicolon both rules work. *)
Theorem fallback_misses_line_breaks :
  let check := check (H := toy_tools) (H0 := toy_shell) None in
  let rules := mk_rulefile "/p" [mk_rule "Shell" (Some "git *")] [mk_rule "Shell" (Some "rm")] [] in
  check [rules] (CShell (nu_call ("git status" +:+ newline +:+ "rm -rf /"))) = Allowed ∧
  check [rules] (CShell (nu_call "git status; rm -rf /")) = Denied.
Proof. split; vm_compute; reflexivity. Qed.

(** A scope with an inner wildcard that also ends in one is matched literally up to its end: the
    inner star only matches a star in the command. *)
Theorem trailing_wildcard_is_literal :
  let cmd s := [mk_cmd "git" s] in
  any_subcommand_matches (cmd "git -C dir push --force") true "git * push *" = false ∧
  any_subcommand_matches (cmd "git -C dir push") true "git * push" = true ∧
  any_subcommand_matches (cmd "git * push --force") true "git * push *" = true.
Proof. split_and!; vm_compute; reflexivity. Qed.

(** A rule whose tool is an ASCII word and whose scope has no line feed is read back from its
    text. *)
Theorem rule_text_roundtrip `{ShellLib} (r : Rule) :
  r_tool r ≠ "" → forallb ascii_word (chars (r_tool r)) = true →
  (∀ s, r_scope r = Some s → line_feed ∉ chars s) →
  rule_try_from (rule_to_string r) = Ok r.
Proof.
  destruct r as [tool scope]. cbn [r_tool r_scope]. intros Hne Hw Hs.
  destruct (chars tool) as [|a w] eqn:Et; [exfalso; apply Hne; by apply chars_inj|].
  assert (graphic a = true) as Ha by (apply andb_true_iff in Hw as [? _]; by apply ascii_word_graphic).
  unfold rule_try_from. rewrite (trim_graphic_ends _ a (match scope with Some _ => rparen | None => List.last (a :: w) a end)
    (w ++ match scope with Some s => lparen :: chars s ++ [rparen] | None => [] end)).
  - unfold rule_to_string; cbn [r_tool r_scope]. destruct scope as [s|].
    + rewrite !chars_app, Et. change (chars "(") with [lparen]. change (chars ")") with [rparen].
      unfold rule_captures. rewrite word_prefix_ascii; [|done|rewrite length_app; lia|by intros c l [= <- _]].
      cbn [app]. rewrite reverse_snoc. rewrite decide_True by (split_and!; [done..|]; rewrite elem_of_reverse; by apply Hs).
      rewrite reverse_involutive, <- Et, !unchars_chars. simpl. by rewrite unchars_chars.
    + unfold rule_captures. rewrite <- (app_nil_r (chars tool)), Et, word_prefix_ascii; [|done|rewrite length_app; lia|done].
      by rewrite <- Et, unchars_chars.
  - unfold rule_to_string; cbn [r_tool r_scope]. destruct scope as [s|]; [by rewrite !chars_app, Et|by rewrite Et, app_nil_r].
  - done.
  - unfold rule_to_string; cbn [r_tool r_scope]. destruct scope as [s|].
    + rewrite !chars_app. exists (chars tool ++ [lparen] ++ chars s). simpl. by rewrite <- app_assoc.
    + rewrite Et. exists (removelast (a :: w)). by apply app_removelast_last.
  - destruct scope; [done|]. apply ascii_word_graphic. rewrite forallb_forall in Hw. apply Hw.
    destruct (exists_last (l := a :: w)) as (l' & b & Heq); [done|]. rewrite Heq, List.last_last. apply in_app_iff. right. by left.
Qed.

Lemma rule_text_roundtrip_witness :
  rule_try_from (H := toy_shell) "Shell(git commit *)" = Ok (mk_rule "Shell" (Some "git commit *")).
Proof.
  apply (rule_text_roundtrip (H := toy_shell) (mk_rule "Shell" (Some "git commit *"))); [discriminate|reflexivity|].
  intros s [= <-]. apply (bool_decide_unpack _). vm_compute. exact I.
Defined.

(** Whatever order the directories are read in, the files are those found, from the deepest directory
    to the root, the global file last. *)
Lemma walk_deepest_first (loaded : nat → result (option RuleFile) string) (n : nat) (order : list nat) :
  order ≡ₚ seq 0 n →
  walk loaded order = omap (λ d, match loaded d with Ok (Some f) => Some f | _ => None end) (seq 0 n).
Proof.
  intros Hp. unfold walk. set (found := λ d, match loaded d with Ok (Some f) => Some (d, f) | _ => None end).
  assert (∀ d p, found d = Some p → p.1 = d) as Hfst.
  { unfold found. intros d p. destruct (loaded d) as [[f|]|]; by intros [= <-]. }
  rewrite (sort_by_key_unique_on _ (omap found order) (omap found (seq 0 n))); [| |by rewrite Hp].
  - unfold sort_by_key. rewrite sort_by_sorted_id.
    + clear Hp. induction (seq 0 n) as [|d ds IH]; [done|]. csimpl. unfold found at 1.
      destruct (loaded d) as [[f|]|]; csimpl; by rewrite IH.
    + assert (∀ m, StronglySorted (λ p q : nat * RuleFile, leb (Z.of_nat p.1) (Z.of_nat q.1) = true) (omap found (seq m n))) as Hs; [|apply Hs].
      clear Hp. induction n as [|n IH]; intros m; [constructor|]. simpl. destruct (found m) as [p|] eqn:E; [|apply IH].
      constructor; [apply IH|]. apply Forall_forall. intros q (d & Hd & Hq)%list_elem_of_omap.
      apply Hfst in E, Hq. subst. apply elem_of_seq in Hd. apply leb_Z. lia.
  - intros p q (d1 & _ & E1)%list_elem_of_omap (d2 & _ & E2)%list_elem_of_omap Heq.
    pose proof (Hfst _ _ E1). pose proof (Hfst _ _ E2). assert (d1 = d2) by (simpl in Heq; lia). congruence.
Qed.
