(* ===== verification/Conversation.v ===== *)
(** * The agent's conversation log ([atuin-ai/src/tui/state.rs], [context_window.rs],
      [event_serde.rs])

    A conversation is a list of events. [events_to_messages] turns a slice of it into the messages of
    the API, [build] chooses the slices that fit a budget: the first turn, then as many of the last
    ones as fit, with a marker where turns were dropped. [serialize_event] and [deserialize_event]
    are the stored form. Lengths are those of texts in memory, so their sums fit a [usize]. *)
From S2P Require Import Prelude Text Json.

(** ** Events *)

Section events.
Context `{Json}.

Inductive ConversationEvent : Type :=
| UserMessage (content : string)
| TextEvent (content : string)
| ToolCall (id name : string) (input : Value)
| ToolResult (tool_use_id content : string) (is_error remote : bool) (content_length : option Z)
| OutOfBandOutput (name : string) (command : option string) (content : string)
| SystemContext (content : string)
| SkillInvocation (name : string) (arguments : option string) (content : string).

Definition is_api_content (e : ConversationEvent) : bool :=
  match e with OutOfBandOutput _ _ _ | SystemContext _ => false | _ => true end.

(** [as_command] *)
Definition as_command (e : ConversationEvent) : option string :=
  match e with
  | ToolCall _ name input => if decide (name = "suggest_command") then get input "command" ≫= as_str else None
  | _ => None
  end.

(** ** Messages *)

Definition nl : string := String line_feed EmptyString.

Definition role (r : string) (content : Value) : Value := jobj [("role", jstr r); ("content", content)].

Definition tool_use (id name : string) (input : Value) : Value :=
  jobj [("type", jstr "tool_use"); ("id", jstr id); ("name", jstr name); ("input", input)].

Definition text_block (s : string) : Value := jobj [("type", jstr "text"); ("text", jstr s)].

Definition tool_result_block (id content : string) (is_error remote : bool) (len : option Z) : Value :=
  if remote : bool then
    jobj ([("type", jstr "tool_result"); ("tool_use_id", jstr id); ("remote", jbool true); ("is_error", jbool is_error)]
          ++ match len with Some n => [("content_length", jnum n)] | None => [] end)
  else jobj [("type", jstr "tool_result"); ("tool_use_id", jstr id); ("content", jstr content); ("is_error", jbool is_error)].

(** The inner loops: the tool calls that come next, and the rest. *)
Fixpoint take_tool_uses (l : list ConversationEvent) : list Value * list ConversationEvent :=
  match l with
  | ToolCall id name input :: l' => let '(us, rest) := take_tool_uses l' in (tool_use id name input :: us, rest)
  | _ => ([], l)
  end.

Definition skill_header (name : string) (arguments : option string) : string :=
  match arguments with
  | Some args => "[Loaded skill: " +:+ name +:+ "]" +:+ nl +:+ "[Arguments: " +:+ args +:+ "]"
  | None => "[Loaded skill: " +:+ name +:+ "]"
  end.

(** [events_to_messages]; each round consumes an event, so the number of them is enough fuel. *)
Fixpoint to_messages (fuel : nat) (l : list ConversationEvent) : list Value :=
  match fuel, l with
  | S fuel', e :: l' =>
      match e with
      | UserMessage content => role "user" (jstr content) :: to_messages fuel' l'
      | TextEvent content =>
          if decide (content = "") then to_messages fuel' l'
          else match take_tool_uses l' with
               | ([], _) => role "assistant" (jstr content) :: to_messages fuel' l'
               | (us, rest) => role "assistant" (jarr (text_block content :: us)) :: to_messages fuel' rest
               end
      | ToolCall _ _ _ =>
          let '(us, rest) := take_tool_uses l in role "assistant" (jarr us) :: to_messages fuel' rest
      | ToolResult id content is_error remote len =>
          role "user" (jarr [tool_result_block id content is_error remote len]) :: to_messages fuel' l'
      | OutOfBandOutput _ _ _ => to_messages fuel' l'
      | SystemContext content => role "user" (jstr content) :: to_messages fuel' l'
      | SkillInvocation name arguments content =>
          role "user" (jstr (skill_header name arguments +:+ nl +:+ nl +:+ content)) :: to_messages fuel' l'
      end
  | _, _ => []
  end.
Definition events_to_messages (l : list ConversationEvent) : list Value := to_messages (length l) l.

(** ** The context window *)

Definition DEFAULT_BUDGET_CHARS : nat := 200 * 1000.
Definition FROZEN_PREFIX_TURNS : nat := 1.

Definition turn_boundary (e : ConversationEvent) : bool :=
  match e with UserMessage _ | SystemContext _ => true | _ => false end.

(** [group_into_turns]: [start] is where the current turn starts, [i] the next index. *)
Fixpoint group_from (start i : nat) (l : list ConversationEvent) : list (nat * nat) :=
  match l with
  | [] => if decide (start < i)%nat then [(start, i)] else []
  | e :: l' =>
      if bool_decide (start < i)%nat && turn_boundary e then (start, i) :: group_from i (S i) l'
      else group_from start (S i) l'
  end.
Definition group_into_turns (events : list ConversationEvent) : list (nat * nat) := group_from 0 0 events.

Definition slice_events (events : list ConversationEvent) (r : nat * nat) : list ConversationEvent :=
  take (r.2 - r.1) (drop r.1 events).

Definition estimate_chars (messages : list Value) : nat := sum_list_with json_len messages.

Definition truncation_marker : Value :=
  role "user" (jstr "[Earlier conversation context was omitted to fit within the context window. The conversation continues below.]").

(** The backward loop: [i] turns are left to look at, the tail starts at [tail_start]. *)
Fixpoint extend_tail (turn_chars : list nat) (prefix_count i remaining tail_start : nat) : nat :=
  match i with
  | O => tail_start
  | S i' =>
      if decide (i' < prefix_count)%nat then tail_start
      else let c := nth i' turn_chars O in
           if decide (c ≤ remaining)%nat then extend_tail turn_chars prefix_count i' (remaining - c) i'
           else tail_start
  end.

(** The rest of [build], from the messages of the turns on. *)
Definition build_turns (budget : nat) (turn_messages : list (list Value)) : list Value :=
  let turn_chars := estimate_chars <$> turn_messages in
  if decide (sum_list turn_chars ≤ budget)%nat then concat turn_messages
  else
    let n := length turn_messages in
    let prefix_count := Nat.min FROZEN_PREFIX_TURNS n in
    let remaining := (budget - (sum_list (take prefix_count turn_chars) + estimate_chars [truncation_marker]))%nat in
    let tail_start := extend_tail turn_chars prefix_count n remaining n in
    let tail_start := if decide (n ≤ tail_start ∧ prefix_count < n)%nat then (n - 1)%nat else tail_start in
    concat (take prefix_count turn_messages)
    ++ (if decide (prefix_count < tail_start)%nat then [truncation_marker] else [])
    ++ concat (drop tail_start turn_messages).

(** [ContextWindowBuilder::build] *)
Definition build (budget : nat) (events : list ConversationEvent) : list Value :=
  match events with
  | [] => []
  | _ :: _ => build_turns budget ((λ r, events_to_messages (slice_events events r)) <$> group_into_turns events)
  end.

(** ** Storage *)

Definition serialize_event (e : ConversationEvent) : string * string :=
  match e with
  | UserMessage content => ("user_message", to_json (jobj [("content", jstr content)]))
  | TextEvent content => ("text", to_json (jobj [("content", jstr content)]))
  | ToolCall id name input =>
      ("tool_call", to_json (jobj [("id", jstr id); ("name", jstr name); ("input", input)]))
  | ToolResult id content is_error remote len =>
      ("tool_result",
       to_json (jobj [("tool_use_id", jstr id); ("content", jstr content); ("is_error", jbool is_error);
                      ("remote", jbool remote); ("content_length", jopt jnum len)]))
  | OutOfBandOutput name command content =>
      ("out_of_band_output",
       to_json (jobj [("name", jstr name); ("command", jopt jstr command); ("content", jstr content)]))
  | SystemContext content => ("system_context", to_json (jobj [("content", jstr content)]))
  | SkillInvocation name arguments content =>
      ("skill_invocation",
       to_json (jobj [("name", jstr name); ("arguments", jopt jstr arguments); ("content", jstr content)]))
  end.

Definition json_string (data : Value) (k : string) : result string string :=
  ok_or (get data k ≫= as_str) ("missing or non-string field '" +:+ k +:+ "'").

(** [v] unless it is null, as text. *)
Definition non_null_str (v : Value) : option string := if is_null v then None else as_str v.

Definition deserialize_event (event_type event_data : string) : result ConversationEvent string :=
  let? data := map_err (λ e, "failed to parse event_data JSON: " +:+ e) (from_json event_data) in
  if decide (event_type = "user_message") then
    let? content := json_string data "content" in Ok (UserMessage content)
  else if decide (event_type = "text") then
    let? content := json_string data "content" in Ok (TextEvent content)
  else if decide (event_type = "tool_call") then
    let? id := json_string data "id" in
    let? name := json_string data "name" in
    let? input := ok_or (get data "input") "tool_call missing 'input' field" in
    Ok (ToolCall id name input)
  else if decide (event_type = "tool_result") then
    let? id := json_string data "tool_use_id" in
    let? content := json_string data "content" in
    let? is_error := ok_or (get data "is_error" ≫= as_bool) "tool_result missing 'is_error' field" in
    Ok (ToolResult id content is_error (default false (get data "remote" ≫= as_bool))
          (get data "content_length" ≫= as_u64))
  else if decide (event_type = "out_of_band_output") then
    let? name := json_string data "name" in
    let command := get data "command" ≫= non_null_str in
    let? content := json_string data "content" in
    Ok (OutOfBandOutput name command content)
  else if decide (event_type = "system_context") then
    let? content := json_string data "content" in Ok (SystemContext content)
  else if decide (event_type = "skill_invocation") then
    let? name := json_string data "name" in
    let arguments := get data "arguments" ≫= non_null_str in
    let? content := json_string data "content" in
    Ok (SkillInvocation name arguments content)
  else Err ("unknown event type: " +:+ event_type).
End events.

(** ** Lemmas on turns *)

Section turns.
Context `{Json}.
Implicit Types l : list ConversationEvent.

(** The ranges tile the events: each starts where the one before ends, and none is empty. *)
Fixpoint ranges_tile (a b : nat) (rs : list (nat * nat)) : Prop :=
  match rs with
  | [] => a = b
  | (x, y) :: rs' => x = a ∧ (x < y)%nat ∧ ranges_tile y b rs'
  end.

Lemma group_from_tile start i l :
  (start ≤ i)%nat → ranges_tile start (i + length l) (group_from start i l).
Proof.
  revert start i. induction l as [|e l IH]; intros start i Hi; cbn [group_from length].
  - case_decide; simpl; [split_and!; [done|done|lia]|lia].
  - replace (i + S (length l))%nat with (S i + length l)%nat by lia.
    destruct (bool_decide_reflect (start < i)%nat) as [Hlt|Hge]; cbn [andb]; [|apply IH; lia].
    destruct (turn_boundary e); [|apply IH; lia]. cbn [ranges_tile]. split_and!; [done|done|]. apply IH. lia.
Qed.

Lemma ranges_tile_le a b rs : ranges_tile a b rs → (a ≤ b)%nat.
Proof. revert a. induction rs as [|[x y] rs IH]; intros a; simpl; [lia|]. intros (-> & ? & ?%IH). lia. Qed.

Lemma ranges_tile_concat a b rs l :
  ranges_tile a b rs → (b ≤ length l)%nat → concat (slice_events l <$> rs) = take (b - a) (drop a l).
Proof.
  revert a. induction rs as [|[x y] rs IH]; intros a Ht Hb; simpl in Ht.
  - subst. by rewrite Nat.sub_diag.
  - destruct Ht as (-> & Hlt & Ht). pose proof (ranges_tile_le _ _ _ Ht). cbn. rewrite (IH y) by done.
    unfold slice_events. cbn [fst snd]. replace (b - a)%nat with ((y - a) + (b - y))%nat by lia.
    rewrite <- take_take_drop, drop_drop. do 3 f_equal. lia.
Qed.

Lemma turns_concat l : concat (slice_events l <$> group_into_turns l) = l.
Proof.
  rewrite (ranges_tile_concat 0 (length l)); [|by apply (group_from_tile 0 0 l)|done].
  by rewrite Nat.sub_0_r, drop_0, take_ge.
Qed.

(** A turn ends at a boundary or with the events. *)
Lemma group_from_ends start i l r :
  (start ≤ i)%nat → r ∈ group_from start i l →
  r.2 = (i + length l)%nat ∨ (i ≤ r.2)%nat ∧ ∃ e, l !! (r.2 - i)%nat = Some e ∧ turn_boundary e = true.
Proof.
  revert start i. induction l as [|e l IH]; intros start i Hi Hr; cbn [group_from length] in *.
  { case_decide; [|by apply not_elem_of_nil in Hr]. apply list_elem_of_singleton in Hr as ->. simpl. left; lia. }
  assert (∀ s, (s ≤ S i)%nat → r ∈ group_from s (S i) l →
    r.2 = (i + S (length l))%nat ∨ (i ≤ r.2)%nat ∧ ∃ e', (e :: l) !! (r.2 - i)%nat = Some e' ∧ turn_boundary e' = true) as Hrec.
  { intros s Hs Hin. destruct (IH s (S i) Hs Hin) as [->|(Hle & e' & He' & Hb)]; [left; lia|].
    right. split; [lia|]. exists e'. replace (r.2 - i)%nat with (S (r.2 - S i)) by lia. done. }
  destruct (bool_decide_reflect (start < i)%nat) as [Hs|Hs]; cbn [andb] in Hr; [|by apply Hrec with start; [lia|]].
  destruct (turn_boundary e) eqn:Hb; [|by apply Hrec with start; [lia|]].
  apply elem_of_cons in Hr as [->|Hr]; [|by apply Hrec with i; [lia|]].
  right. split; [done|]. exists e. by rewrite Nat.sub_diag.
Qed.
End turns.

(** ** Lemmas on the window *)

Lemma sum_list_drop (l : list nat) (i : nat) :
  (i < length l)%nat → sum_list (drop i l) = (nth i l O + sum_list (drop (S i) l))%nat.
Proof.
  revert i. induction l as [|x l IH]; intros i Hi; simpl in Hi; [lia|]. destruct i as [|i]; [done|].
  simpl. apply IH. lia.
Qed.

(** The tail found by the loop fits, and with one more turn it would not. *)
Lemma extend_tail_spec tc p i rem :
  (p ≤ i ≤ length tc)%nat →
  let used := sum_list (drop i tc) in let t := extend_tail tc p i rem i in
  (p ≤ t ≤ i)%nat ∧ (sum_list (drop t tc) ≤ used + rem)%nat ∧
  (t = p ∨ (used + rem < sum_list (drop (t - 1) tc))%nat).
Proof.
  revert rem. induction i as [|i IH]; intros rem Hi; cbn [extend_tail].
  { split_and!; [lia|lia|lia|]. left; lia. }
  case_decide as Hp; [split_and!; [lia|lia|lia|left; lia]|].
  pose proof (sum_list_drop tc i ltac:(lia)) as Hs. case_decide as Hc.
  - destruct (IH (rem - nth i tc O)%nat ltac:(lia)) as (Hr & Hle & Hmax).
    split_and!; [lia|lia|lia|]. destruct Hmax as [->|Hmax]; [by left|right; lia].
  - split_and!; [lia|lia|lia|]. right. replace (S i - 1)%nat with i by lia. lia.
Qed.

Section window.
Context `{Json}.

Lemma estimate_app l k : estimate_chars (l ++ k) = (estimate_chars l + estimate_chars k)%nat.
Proof. unfold estimate_chars. induction l as [|x l IH]; simpl; [done|]. rewrite IH. lia. Qed.

Lemma estimate_concat (ms : list (list Value)) : estimate_chars (concat ms) = sum_list (estimate_chars <$> ms).
Proof.
  induction ms as [|m ms IH]; [done|]. rewrite fmap_cons. cbn [concat sum_list sum_list_with fold_right].
  by rewrite estimate_app, IH.
Qed.

(** What is sent when the turns do not all fit: the first turn [m], the marker if turns are dropped,
    and the turns from the [k]-th on. *)
Definition window (m : list Value) (ms : list (list Value)) (k : nat) : list Value :=
  m ++ (if decide (0 < k)%nat then [truncation_marker] else []) ++ concat (drop k ms).

Lemma sum_list_drop_le (l : list nat) i j : (i ≤ j)%nat → (sum_list (drop j l) ≤ sum_list (drop i l))%nat.
Proof.
  revert i j. induction l as [|x l IH]; intros i j Hij; [by rewrite !drop_nil|]. destruct i as [|i], j as [|j]; [done| |lia|apply IH; lia].
  cbn [drop]. specialize (IH O j ltac:(lia)). rewrite drop_0 in IH. change (sum_list (x :: l)) with (x + sum_list l)%nat. lia.
Qed.

(** The first turn to keep: as early as its tail fits into [room], and the last one at the latest. *)
Definition earliest_fit (room : nat) (ms : list (list Value)) (k : nat) : Prop :=
  (k ≤ length ms - 1)%nat ∧ (k = (length ms - 1)%nat ∨ (estimate_chars (concat (drop k ms)) ≤ room)%nat) ∧
  ∀ j, (j < k)%nat → (room < estimate_chars (concat (drop j ms)))%nat.

(** The choice of the tail, for the first turn's messages [m] and the others' [ms]. *)
Lemma choose_tail ms room t :
  (t ≤ length ms)%nat → (sum_list (drop t (estimate_chars <$> ms)) ≤ room)%nat →
  (t = O ∨ (room < sum_list (drop (t - 1) (estimate_chars <$> ms)))%nat) →
  earliest_fit room ms (if decide (length ms ≤ t ∧ 0 < length ms)%nat then (length ms - 1)%nat else t).
Proof.
  intros Ht Hfit Hmax. set (k := if decide _ then _ else _).
  assert (∀ j, estimate_chars (concat (drop j ms)) = sum_list (drop j (estimate_chars <$> ms))) as Hest.
  { intros j. by rewrite estimate_concat, fmap_drop. }
  assert (k ≤ length ms - 1 ∧ k ≤ t)%nat as [Hk Hkt] by (unfold k; case_decide; lia).
  split_and!; [done| |].
  - unfold k. case_decide; [by left|]. right. by rewrite Hest.
  - intros j Hj. rewrite Hest. destruct Hmax as [->|Hmax]; [lia|].
    pose proof (sum_list_drop_le (estimate_chars <$> ms) j (t - 1) ltac:(lia)). lia.
Qed.

Lemma build_turns_window budget m ms :
  ∃ k, build_turns budget (m :: ms) = window m ms k ∧
    if decide (estimate_chars (concat (m :: ms)) ≤ budget)%nat then k = O
    else earliest_fit (budget - (estimate_chars m + estimate_chars [truncation_marker])) ms k.
Proof.
  rewrite estimate_concat. unfold build_turns. case_decide as Hb; [by exists O|].
  change (Nat.min FROZEN_PREFIX_TURNS (length (m :: ms))) with 1%nat. rewrite fmap_cons.
  set (tc := estimate_chars <$> ms). set (rem := (budget - (sum_list _ + _))%nat).
  replace (budget - _)%nat with rem.
  2:{ unfold rem. change (sum_list (take 1 (estimate_chars m :: tc))) with (estimate_chars m + 0)%nat. lia. }
  destruct (extend_tail_spec (estimate_chars m :: tc) 1 (length (m :: ms)) rem) as (Ht & Hfit & Hmax).
  { unfold tc. simpl. rewrite length_fmap. lia. }
  set (t := extend_tail _ _ _ _ _) in *. clearbody t. destruct t as [|t]; [lia|].
  rewrite (drop_ge (estimate_chars m :: tc) (length (m :: ms))) in Hfit, Hmax by (unfold tc; simpl; rewrite length_fmap; lia). simpl in Ht, Hfit, Hmax.
  pose proof (choose_tail ms rem t ltac:(lia) Hfit) as Hk.
  set (k := if decide _ then _ else _) in Hk. exists k.
  assert ((if decide (length (m :: ms) ≤ S t ∧ 1 < length (m :: ms))%nat then (length (m :: ms) - 1)%nat else S t) = S k) as ->.
  { unfold k. simpl. repeat case_decide; lia. }
  split.
  { unfold window. simpl. rewrite app_nil_r. by repeat case_decide; try lia. }
  apply Hk. destruct Hmax as [Hmax|Hmax]; [left; lia|]. destruct t as [|t]; [by left|]. right. simpl. by rewrite Nat.sub_0_r.
Qed.

(** A window of the first turn and a tail is within the budget where the last turn is. *)
Lemma window_fits budget m ms k :
  earliest_fit (budget - (estimate_chars m + estimate_chars [truncation_marker])) ms k →
  (estimate_chars (m ++ [truncation_marker] ++ concat (drop (length ms - 1) ms)) ≤ budget)%nat →
  (estimate_chars (window m ms k) ≤ budget)%nat.
Proof.
  intros (_ & Hk & _). unfold window. rewrite !estimate_app. destruct Hk as [->|Hk]; case_decide; change (estimate_chars []) with O; lia.
Qed.
End window.

(** ** Correctness *)

(** C33: where the messages of a conversation fit the budget all of them are sent. Otherwise those of the
    first turn are, with a marker where turns are left out, and of the last turns: as many whole turns as
    fit beside the first one and the marker, but at least the last one, and so the budget is exceeded only
    if the first turn, the marker and the last turn exceed it alone. The turns are the whole conversation
    in order, and a turn ends only where a user message or system context begins, so that a tool call
    is never parted from a result before the next of those. *)
Theorem context_window_bounded `{Json} (budget : nat) (events : list ConversationEvent) :
  events ≠ [] →
  let turns := slice_events events <$> group_into_turns events in
  concat turns = events ∧
  (∀ r, r ∈ group_into_turns events →
     r.2 = length events ∨ ∃ e, events !! r.2 = Some e ∧ turn_boundary e = true) ∧
  ∃ m ms k, events_to_messages <$> turns = m :: ms ∧ build budget events = window m ms k ∧
    if decide (estimate_chars (concat (m :: ms)) ≤ budget)%nat then build budget events = concat (m :: ms)
    else
      earliest_fit (budget - (estimate_chars m + estimate_chars [truncation_marker])) ms k ∧
      ((estimate_chars (m ++ [truncation_marker] ++ concat (drop (length ms - 1) ms)) ≤ budget)%nat →
       (estimate_chars (build budget events) ≤ budget)%nat).
Proof.
  intros Hne turns. assert (concat turns = events) as Hturns by apply turns_concat. split_and!; [done| |].
  { intros r Hr. apply group_from_ends in Hr as [?|(_ & e & ? & ?)]; [by left| |done].
    right. exists e. by rewrite Nat.sub_0_r in *. }
  assert (build budget events = build_turns budget (events_to_messages <$> turns)) as ->.
  { unfold build, turns. destruct events; [done|]. by rewrite <- list_fmap_compose. }
  destruct (events_to_messages <$> turns) as [|m ms] eqn:Em.
  { apply fmap_nil_inv in Em. rewrite Em in Hturns. by destruct Hne. }
  destruct (build_turns_window budget m ms) as (k & -> & Hk). exists m, ms, k. split_and!; [done|done|].
  case_decide; [by subst k|]. split; [done|]. by apply window_fits.
Qed.

Lemma context_window_bounded_witness :
  let events := [UserMessage "a"; TextEvent "b"; UserMessage "c"; TextEvent "d"; UserMessage "e"] in
  (slice_events (H := toy_json) events <$> group_into_turns events) =
    [[UserMessage "a"; TextEvent "b"]; [UserMessage "c"; TextEvent "d"]; [UserMessage "e"]] ∧
  concat (slice_events (H := toy_json) events <$> group_into_turns events) = events.
Proof.
  intros events. split; [reflexivity|].
  exact (proj1 (context_window_bounded 1 events ltac:(discriminate))).
Defined.

(** Every event is read back from its stored form. *)
Theorem event_storage_roundtrip `{JsonLaws} (e : ConversationEvent) :
  (∀ id content err remote n, e = ToolResult id content err remote (Some n) → is_u64 n) →
  deserialize_event (serialize_event e).1 (serialize_event e).2 = Ok e.
Proof.
  intros Hlen.
  destruct e as [c|c|id name input|id c err remote len|name cmd c|c|name args c]; unfold deserialize_event;
    cbn [serialize_event fst snd]; rewrite from_to_json; cbn [map_err rbind];
    repeat (rewrite decide_False by done); rewrite decide_True by done; unfold json_string; json_get;
    cbn [mbind option_bind]; rewrite ?as_str_jstr, ?as_bool_jbool; cbn [ok_or rbind default]; try done.
  - destruct len as [n|]; cbn [jopt].
    + rewrite as_u64_jnum by (by eapply Hlen). done.
    + by rewrite as_u64_jnull.
  - destruct cmd as [s|]; cbn [jopt]; unfold non_null_str; by rewrite ?is_null_jstr, ?as_str_jstr, ?is_null_jnull.
  - destruct args as [s|]; cbn [jopt]; unfold non_null_str; by rewrite ?is_null_jstr, ?as_str_jstr, ?is_null_jnull.
Qed.

Lemma event_storage_roundtrip_witness :
  deserialize_event (H := toy_json) "tool_result"
    (to_json (jobj [("tool_use_id", jstr "t"); ("content", jstr "ok"); ("is_error", jbool false);
                    ("remote", jbool false); ("content_length", jnum 7)]))
  = Ok (ToolResult "t" "ok" false false (Some 7)).
Proof.
  apply (event_storage_roundtrip (H := toy_json) (ToolResult "t" "ok" false false (Some 7))).
  intros id c e r n Heq. injection Heq as _ _ _ _ <-. split; [lia|reflexivity].
Defined.
