(* ===== verification/AgentFsm.v ===== *)
(** * The agent's state machine ([atuin-ai/src/fsm])

    [handle] takes an event and returns the next state with the effects the driver is to run. A turn
    streams a response; tool calls in it are checked, executed and answered; when the stream has ended
    and every call of the turn is resolved, the results are sent back or the turn ends. [None] is a
    panic of the source ([unreachable!], a slice out of range). A [HashMap] is a [gmap], a time is its
    number of seconds. [Value]s are those of the interface [Json]; the current directory, which the
    scope of a rule is computed from, is an argument. *)
From stdpp Require Import pretty.
From S2P Require Import Prelude Text Filter Json History AiTools Permissions Conversation.

(** ** Tools ([fsm/tools.rs]) *)

Inductive ToolState : Type := CheckingPermission | AwaitingPermission | Executing | Completed | DeniedState.

#[export] Instance ToolState_eq_dec : EqDecision ToolState.
Proof. solve_decision. Defined.

(** [EditPreview], [DiffHunk], [DiffLine] and [WritePreview] of [diff.rs]. *)
Inductive DiffLine : Type := DContext (s : string) | DAdded (s : string) | DRemoved (s : string).
Record DiffHunk : Type := mk_hunk { before_start : Z; after_start : Z; h_lines : list DiffLine }.
Record EditPreview : Type := mk_edit_preview { hunks : list DiffHunk }.
Record WritePreview : Type := mk_write_preview { wp_lines : list string; total_lines : Z }.

Inductive ToolPreviewData : Type :=
| PShell (lines : list string) (exit_code : option Z) (interrupted : option InterruptReason)
| PEdit (p : EditPreview)
| PWrite (p : WritePreview).

Record TrackedTool : Type := mk_tracked {
  tr_id : string; tr_tool : ClientToolCall; tr_state : ToolState;
  tr_preview : option ToolPreviewData; tr_interrupt : option InterruptReason
}.

Definition set_state (s : ToolState) (t : TrackedTool) : TrackedTool :=
  mk_tracked (tr_id t) (tr_tool t) s (tr_preview t) (tr_interrupt t).
Definition set_preview (p : option ToolPreviewData) (t : TrackedTool) : TrackedTool :=
  mk_tracked (tr_id t) (tr_tool t) (tr_state t) p (tr_interrupt t).
Definition set_interrupt (i : option InterruptReason) (t : TrackedTool) : TrackedTool :=
  mk_tracked (tr_id t) (tr_tool t) (tr_state t) (tr_preview t) i.
Definition set_tool (c : ClientToolCall) (t : TrackedTool) : TrackedTool :=
  mk_tracked (tr_id t) c (tr_state t) (tr_preview t) (tr_interrupt t).

Definition is_resolved (t : TrackedTool) : bool :=
  match tr_state t with Completed | DeniedState => true | _ => false end.

Module ToolManager.

Definition t : Type := list TrackedTool.

Definition insert (tools : t) (id : string) (c : ClientToolCall) : t :=
  tools ++ [mk_tracked id c CheckingPermission None None].

Definition get (tools : t) (id : string) : option TrackedTool :=
  List.find (λ x, bool_decide (tr_id x = id)) tools.

(** [get_mut] and an update of what it returns: the first tool of that id. *)
Fixpoint update (tools : t) (id : string) (f : TrackedTool → TrackedTool) : t :=
  match tools with
  | [] => []
  | x :: tools' => if decide (tr_id x = id) then f x :: tools' else x :: update tools' id f
  end.

Definition all_resolved (tools : t) (ids : list string) : bool :=
  forallb (λ id, match get tools id with None => true | Some x => is_resolved x end) ids.

Definition awaiting_permission (tools : t) : option TrackedTool :=
  List.find (λ x, bool_decide (tr_state x = AwaitingPermission)) tools.

Definition pending_ids (tools : t) : list string := tr_id <$> filter (λ x, is_resolved x = false) tools.
Definition executing_ids (tools : t) : list string := tr_id <$> filter (λ x, tr_state x = Executing) tools.
End ToolManager.

(** ** Effects and events ([fsm/effects.rs], [fsm/events.rs]) *)

Inductive PermissionTarget : Type := Project | Global.
Inductive RuleDisposition : Type := DispAllow | DispDeny.
Inductive TimeoutKind : Type := Confirmation | ToolExecution (tool_id : string).
Inductive ExitAction : Type := Execute (cmd : string) | Insert (cmd : string) | ExitCancel.
Inductive PermissionResponse : Type := PAllowed | PDenied | PAsk | PSessionGranted.
Inductive PermissionChoice : Type := CAllow | CAllowForSession | CAlwaysAllowInProject | CAlwaysAllow | CDeny.

Record ModelInfo : Type := mk_model { m_alias : string; m_name : string; m_description : string }.
Record ModelList : Type := mk_models { ml_default : string; ml_models : list ModelInfo }.
#[export] Instance ModelInfo_eq_dec : EqDecision ModelInfo.
Proof. solve_decision. Defined.
#[export] Instance ModelList_eq_dec : EqDecision ModelList.
Proof. solve_decision. Defined.

Inductive ModelPicker : Type := Loading | Ready (l : ModelList).
#[export] Instance ModelPicker_eq_dec : EqDecision ModelPicker.
Proof. solve_decision. Defined.

Inductive StreamingStatus : Type := Processing | Searching | Thinking | WaitingForTools.

Definition status_from_str (s : string) : StreamingStatus :=
  if decide (s = "processing") then Processing
  else if decide (s = "searching") then Searching
  else if decide (s = "waiting_for_tools") then WaitingForTools
  else Thinking.

Inductive StreamPhase : Type := Connecting | Streaming (status : option StreamingStatus) | Done.

Record PendingConfirmation : Type := mk_confirm { pc_command : string; pc_timeout_id : Z }.

Inductive AgentState : Type :=
| Idle (confirmation : option PendingConfirmation)
| Turn (stream : StreamPhase)
| SError (e : string).

Section fsm.
Context `{Json}.

Inductive Effect : Type :=
| StartStream (messages : list Value) (session_id : option string)
| AbortStream
| CheckPermission (tool_id : string) (tool : ClientToolCall)
| ExecuteTool (tool_id : string) (tool : ClientToolCall)
| AbortTool (tool_id : string)
| ResolveOutputCommand (tool_id : string) (history_id : N)
| LoadSkill (name : string) (arguments : option string)
| FetchModels
| Persist
| WritePermissionRule (target : PermissionTarget) (rule : Rule) (disposition : RuleDisposition)
| CacheSessionGrant (path : string)
| SaveModelSelection (alias : string)
| ArchiveSession
| TurnEnded
| ScheduleTimeout (timeout_id duration : Z) (kind : TimeoutKind)
| ExitApp (action : ExitAction).

Inductive Event : Type :=
| UserSubmit (msg : string)
| Cancel
| ExecuteCommand
| InsertCommand
| Retry
| InterruptTools
| SessionIdReceived (id : string)
| StreamStarted
| StreamChunk (text : string)
| StreamToolCall (id name : string) (input : Value)
| StreamServerToolResult (tool_use_id content : string) (is_error remote : bool) (content_length : option Z)
| StreamStatusChanged (status : string)
| StreamDone (session_id : string)
| StreamError (e : string)
| SuggestCommand (id : string) (input : Value)
| PermissionResolved (tool_id : string) (response : PermissionResponse)
| PermissionUserChoice (tool_id : string) (choice : PermissionChoice)
| ToolExecutionDone (tool_id : string) (outcome : ToolOutcome) (preview : option ToolPreviewData)
| ToolPreviewUpdate (tool_id : string) (lines : list string) (exit_code : option Z)
| OutputCommandResolved (tool_id : string) (command : option string)
| ConfirmationTimeout (timeout_id : Z)
| ToolExecutionTimeout (timeout_id : Z) (tool_id : string)
| NewSession
| SlashCommand (command content : string)
| OpenModelPicker
| ModelListLoaded (r : result ModelList string)
| ModelSelected (alias : string)
| RequestSkillLoad (name : string) (arguments : option string)
| SkillLoaded (name : string) (arguments : option string) (content : string).

(** ** The context *)

Record AgentContext : Type := mk_ctx {
  events : list ConversationEvent;
  session_id : option string;
  current_response : string;
  tools : ToolManager.t;
  current_turn_tool_ids : list string;
  tool_timeout_ids : gmap Z string;
  next_timeout_id : Z;
  capabilities : list string;
  invocation_id : string;
  model : option string;
  models_cache : option ModelList;
  model_picker : option ModelPicker;
  view_start_index : nat;
  resumed : bool;
  last_event_time : option Z;
  archived_events : list ConversationEvent
}.

Record AgentFsm : Type := mk_fsm { state : AgentState; ctx : AgentContext }.

(** Assignments to the fields. *)
Definition with_events (v : list ConversationEvent) (c : AgentContext) : AgentContext :=
  mk_ctx v (session_id c) (current_response c) (tools c) (current_turn_tool_ids c) (tool_timeout_ids c)
    (next_timeout_id c) (capabilities c) (invocation_id c) (model c) (models_cache c) (model_picker c)
    (view_start_index c) (resumed c) (last_event_time c) (archived_events c).
Definition with_session (v : option string) (c : AgentContext) : AgentContext :=
  mk_ctx (events c) v (current_response c) (tools c) (current_turn_tool_ids c) (tool_timeout_ids c)
    (next_timeout_id c) (capabilities c) (invocation_id c) (model c) (models_cache c) (model_picker c)
    (view_start_index c) (resumed c) (last_event_time c) (archived_events c).
Definition with_response (v : string) (c : AgentContext) : AgentContext :=
  mk_ctx (events c) (session_id c) v (tools c) (current_turn_tool_ids c) (tool_timeout_ids c)
    (next_timeout_id c) (capabilities c) (invocation_id c) (model c) (models_cache c) (model_picker c)
    (view_start_index c) (resumed c) (last_event_time c) (archived_events c).
Definition with_tools (v : ToolManager.t) (c : AgentContext) : AgentContext :=
  mk_ctx (events c) (session_id c) (current_response c) v (current_turn_tool_ids c) (tool_timeout_ids c)
    (next_timeout_id c) (capabilities c) (invocation_id c) (model c) (models_cache c) (model_picker c)
    (view_start_index c) (resumed c) (last_event_time c) (archived_events c).
Definition with_turn_ids (v : list string) (c : AgentContext) : AgentContext :=
  mk_ctx (events c) (session_id c) (current_response c) (tools c) v (tool_timeout_ids c)
    (next_timeout_id c) (capabilities c) (invocation_id c) (model c) (models_cache c) (model_picker c)
    (view_start_index c) (resumed c) (last_event_time c) (archived_events c).
Definition with_timeouts (v : gmap Z string) (n : Z) (c : AgentContext) : AgentContext :=
  mk_ctx (events c) (session_id c) (current_response c) (tools c) (current_turn_tool_ids c) v
    n (capabilities c) (invocation_id c) (model c) (models_cache c) (model_picker c)
    (view_start_index c) (resumed c) (last_event_time c) (archived_events c).
Definition with_model (v : option string) (c : AgentContext) : AgentContext :=
  mk_ctx (events c) (session_id c) (current_response c) (tools c) (current_turn_tool_ids c) (tool_timeout_ids c)
    (next_timeout_id c) (capabilities c) (invocation_id c) v (models_cache c) (model_picker c)
    (view_start_index c) (resumed c) (last_event_time c) (archived_events c).
Definition with_cache (v : option ModelList) (c : AgentContext) : AgentContext :=
  mk_ctx (events c) (session_id c) (current_response c) (tools c) (current_turn_tool_ids c) (tool_timeout_ids c)
    (next_timeout_id c) (capabilities c) (invocation_id c) (model c) v (model_picker c)
    (view_start_index c) (resumed c) (last_event_time c) (archived_events c).
Definition with_picker (v : option ModelPicker) (c : AgentContext) : AgentContext :=
  mk_ctx (events c) (session_id c) (current_response c) (tools c) (current_turn_tool_ids c) (tool_timeout_ids c)
    (next_timeout_id c) (capabilities c) (invocation_id c) (model c) (models_cache c) v
    (view_start_index c) (resumed c) (last_event_time c) (archived_events c).
Definition with_view (start : nat) (res : bool) (archived : list ConversationEvent) (c : AgentContext) : AgentContext :=
  mk_ctx (events c) (session_id c) (current_response c) (tools c) (current_turn_tool_ids c) (tool_timeout_ids c)
    (next_timeout_id c) (capabilities c) (invocation_id c) (model c) (models_cache c) (model_picker c)
    start res (last_event_time c) archived.

Definition push_event (e : ConversationEvent) (c : AgentContext) : AgentContext := with_events (events c ++ [e]) c.

(** ** Constructors *)

(** [from_session] *)
Definition from_session (evs : list ConversationEvent) (sid : option string) (caps : list string) (inv : string)
    (view : nat) (res : bool) (last : option Z) : AgentFsm :=
  mk_fsm (Idle None) (mk_ctx evs sid "" [] [] ∅ 0 caps inv None None None view res last []).

(** [new] *)
Definition new (caps : list string) (inv : string) : AgentFsm := from_session [] None caps inv 0 false None.

(** ** Helpers *)

Definition RESULT_USER_CANCELLED : string := "Error: user cancelled this operation".
Definition RESULT_DENIED_BY_RULES : string := "Permission denied on the user's system".
Definition RESULT_DENIED_BY_USER : string := "Permission denied by the user".

(** A local result that the machine itself reports. *)
Definition error_result (id content : string) : ConversationEvent := ToolResult id content true false None.

Definition build_messages (c : AgentContext) : list Value := build DEFAULT_BUDGET_CHARS (events c).

Definition start_stream (c : AgentContext) : AgentFsm * list Effect :=
  (mk_fsm (Turn Connecting) c, [StartStream (build_messages c) (session_id c)]).

(** [start_turn] *)
Definition start_turn (msg : string) (c : AgentContext) : AgentFsm * list Effect :=
  start_stream (with_turn_ids [] (with_response "" (push_event (UserMessage msg) (with_picker None c)))).

(** [commit_streaming_text] *)
Definition commit_streaming_text (c : AgentContext) : AgentContext :=
  let trimmed := trim_start (current_response c) in
  let c := with_response "" c in
  if decide (trimmed = "") then c else push_event (TextEvent trimmed) c.

(** [commit_streaming_text_as_cancelled] *)
Definition commit_streaming_text_as_cancelled (c : AgentContext) : AgentContext :=
  let trimmed := trim_start (current_response c) in
  let c := with_response "" c in
  if decide (trimmed = "") then c
  else push_event (TextEvent (trimmed +:+ nl +:+ nl +:+ "[User cancelled this generation]")) c.

(** [handle_slash_command] *)
Definition handle_slash_command (command content : string) (c : AgentContext) : AgentContext :=
  push_event (OutOfBandOutput "System" (Some command) content) c.

(** [current_invocation_events], [current_command], [is_current_command_dangerous] *)
Definition current_invocation_events (c : AgentContext) : list ConversationEvent :=
  drop (Nat.min (view_start_index c) (length (events c))) (events c).

Definition find_map {A B} (f : A → option B) (l : list A) : option B := head (omap f l).

Definition current_command (c : AgentContext) : option string :=
  find_map as_command (reverse (current_invocation_events c)).

Definition danger_of (e : ConversationEvent) : option bool :=
  match e with
  | ToolCall _ name input =>
      if decide (name = "suggest_command") then
        let danger := default "low" (get input "danger" ≫= as_str) in
        Some (bool_decide (danger = "high") || bool_decide (danger = "medium") || bool_decide (danger = "med"))
      else None
  | _ => None
  end.

Definition is_current_command_dangerous (c : AgentContext) : bool :=
  default false (find_map danger_of (reverse (current_invocation_events c))).

(** [next_timeout_id()] *)
Definition fresh_timeout (c : AgentContext) : Z * AgentContext :=
  (next_timeout_id c, with_timeouts (tool_timeout_ids c) (wrapping_add (next_timeout_id c) 1) c).

(** [emit_execute_tool] *)
Definition emit_execute_tool (tool_id : string) (tool : ClientToolCall) (c : AgentContext)
    : AgentContext * list Effect :=
  match tool with
  | CShell shell =>
      let '(timeout_id, c) := fresh_timeout c in
      (with_timeouts (<[timeout_id := tool_id]> (tool_timeout_ids c)) (next_timeout_id c) c,
       [ExecuteTool tool_id tool; ScheduleTimeout timeout_id (sh_timeout_secs shell) (ToolExecution tool_id)])
  | _ => (c, [ExecuteTool tool_id tool])
  end.

(** [check_turn_completion] *)
Definition check_turn_completion (f : AgentFsm) : AgentFsm * list Effect :=
  match state f with
  | Turn Done =>
      if ToolManager.all_resolved (tools (ctx f)) (current_turn_tool_ids (ctx f)) then
        match current_turn_tool_ids (ctx f) with
        | _ :: _ =>
            let c := with_turn_ids [] (ctx f) in
            (mk_fsm (Turn Connecting) (with_response "" c), [StartStream (build_messages c) (session_id c)])
        | [] => (mk_fsm (Idle None) (ctx f), [TurnEnded; Persist])
        end
      else (f, [])
  | _ => (f, [])
  end.

(** [handle_stream_tool_call] *)
Definition handle_stream_tool_call `{ToolLib} (id name : string) (input : Value) (f : AgentFsm)
    : AgentFsm * list Effect :=
  let refuse content :=
    (mk_fsm (state f)
       (with_turn_ids (current_turn_tool_ids (ctx f) ++ [id])
          (push_event (error_result id content) (push_event (ToolCall id name input) (ctx f)))), []) in
  match try_from name input with
  | Err err => refuse ("Error: " +:+ err)
  | Ok tool =>
      match capability (descriptor tool) ≫= λ cap, if decide (cap ∈ capabilities (ctx f)) then None else Some cap with
      | Some cap => refuse ("Tool not enabled: capability '" +:+ cap +:+ "' was not advertised by this client")
      | None =>
          let c := push_event (ToolCall id name input)
                     (with_turn_ids (current_turn_tool_ids (ctx f) ++ [id])
                        (with_tools (ToolManager.insert (tools (ctx f)) id tool) (ctx f))) in
          (mk_fsm (match state f with Turn (Streaming _) => Turn (Streaming None) | s => s end) c,
           (match tool with CAtuinOutput call => [ResolveOutputCommand id (ao_history_id call)] | _ => [] end)
           ++ [CheckPermission id tool])
      end
  end.

Definition with_ctx (f : AgentFsm) (c : AgentContext) : AgentFsm := mk_fsm (state f) c.

(** The tool of that id changed, in the context. *)
Definition update_tool (id : string) (g : TrackedTool → TrackedTool) (c : AgentContext) : AgentContext :=
  with_tools (ToolManager.update (tools c) id g) c.

(** The unresolved tool of that id; the handlers ignore any other. *)
Definition unresolved (c : AgentContext) (id : string) : option TrackedTool :=
  match ToolManager.get (tools c) id with
  | Some t => if is_resolved t then None else Some t
  | None => None
  end.

(** [tracked.state = Executing] and [emit_execute_tool]. *)
Definition begin_execution (f : AgentFsm) (id : string) (t : TrackedTool) : AgentFsm * list Effect :=
  let '(c, effects) := emit_execute_tool id (tr_tool t) (update_tool id (set_state Executing) (ctx f)) in
  (with_ctx f c, effects).

(** [tracked.state = Denied] and the result. *)
Definition deny (f : AgentFsm) (id content : string) : AgentFsm * list Effect :=
  check_turn_completion
    (with_ctx f (push_event (error_result id content) (update_tool id (set_state DeniedState) (ctx f)))).

(** [handle_permission_resolved] *)
Definition handle_permission_resolved (f : AgentFsm) (id : string) (response : PermissionResponse)
    : AgentFsm * list Effect :=
  match unresolved (ctx f) id with
  | None => (f, [])
  | Some t =>
      match response with
      | PAllowed | PSessionGranted => begin_execution f id t
      | PAsk => (with_ctx f (update_tool id (set_state AwaitingPermission) (ctx f)), [])
      | PDenied => deny f id RESULT_DENIED_BY_RULES
      end
  end.

(** [handle_permission_choice] *)
Definition handle_permission_choice (cwd : option string) (f : AgentFsm) (id : string) (choice : PermissionChoice)
    : AgentFsm * list Effect :=
  match unresolved (ctx f) id with
  | None => (f, [])
  | Some t =>
      let '(f', effects) := begin_execution f id t in
      let path := resolved_file_path cwd (tr_tool t) in
      match choice with
      | CAllow => (f', effects)
      | CAllowForSession => (f', effects ++ match path with Some p => [CacheSessionGrant p] | None => [] end)
      | CAlwaysAllowInProject =>
          (f', effects ++ [WritePermissionRule Project (mk_rule (rule_name (tr_tool t)) None) DispAllow])
      | CAlwaysAllow =>
          (f', effects ++ [WritePermissionRule Global (mk_rule (rule_name (tr_tool t)) path) DispAllow])
      | CDeny => deny f id RESULT_DENIED_BY_USER
      end
  end.

(** The merge of the previews in [handle_tool_done]. *)
Definition merge_preview (old new_ : option ToolPreviewData) (reason : option InterruptReason) : option ToolPreviewData :=
  match old, new_ with
  | Some (PShell lines _ _), Some (PShell _ final_exit _) => Some (PShell lines final_exit reason)
  | _, Some (PShell lines exit _) => Some (PShell lines exit reason)
  | _, Some p => Some p
  | _, None => old
  end.

(** [handle_tool_done] *)
Definition handle_tool_done (f : AgentFsm) (id : string) (outcome : ToolOutcome) (preview : option ToolPreviewData)
    : AgentFsm * list Effect :=
  match unresolved (ctx f) id with
  | None => (f, [])
  | Some t =>
      let reason := match tr_interrupt t with
                    | Some r => Some r
                    | None => match outcome with Structured _ _ _ _ true => Some IUser | _ => None end
                    end in
      let t' t := set_preview (merge_preview (tr_preview t) preview reason) (set_interrupt None (set_state Completed t)) in
      let c := update_tool id t' (ctx f) in
      let c := with_timeouts (filter (λ p, p.2 ≠ id) (tool_timeout_ids c)) (next_timeout_id c) c in
      check_turn_completion
        (with_ctx f (push_event (ToolResult id (format_for_llm outcome reason) (is_error outcome) false None) c))
  end.

(** [handle_tool_execution_timeout]; [None] is [unreachable!]. *)
Definition handle_tool_execution_timeout (f : AgentFsm) (timeout_id : Z) (id : string)
    : option (AgentFsm * list Effect) :=
  match tool_timeout_ids (ctx f) !! timeout_id with
  | None => Some (f, [])
  | Some _ =>
      let c := with_timeouts (delete timeout_id (tool_timeout_ids (ctx f))) (next_timeout_id (ctx f)) (ctx f) in
      match unresolved c id with
      | None => Some (with_ctx f c, [])
      | Some t =>
          match tr_tool t with
          | CShell s =>
              Some (with_ctx f (update_tool id (set_interrupt (Some (ITimeout (sh_timeout_secs s)))) c), [AbortTool id])
          | _ => None
          end
      end
  end.

(** The preview a late update leaves. *)
Definition update_preview (lines : list string) (exit_code : option Z) (t : TrackedTool) : TrackedTool :=
  if is_resolved t then
    match tr_preview t with
    | Some (PShell _ e i) => set_preview (Some (PShell lines e i)) t
    | _ => t
    end
  else set_preview (Some (PShell lines exit_code None)) t.

(** One round of the loop of [InterruptTools]. *)
Definition interrupt_tool (c : AgentContext) (id : string) : AgentContext :=
  let c := update_tool id (set_interrupt (Some IUser)) c in
  with_timeouts (filter (λ p, p.2 ≠ id) (tool_timeout_ids c)) (next_timeout_id c) c.

(** One round of the loop of [Cancel]: the tool completes with an error result, and is aborted if it
    was executing. *)
Definition cancel_tool (acc : AgentContext * list Effect) (id : string) : AgentContext * list Effect :=
  let '(c, effects) := acc in
  let abort := match ToolManager.get (tools c) id with
               | Some t => if decide (tr_state t = Executing) then [AbortTool id] else []
               | None => []
               end in
  (push_event (error_result id RESULT_USER_CANCELLED) (update_tool id (set_state Completed) c), effects ++ abort).

Definition CANCELLED_CONTEXT : string :=
  "The user cancelled the previous generation. Tool calls that were in progress have been aborted.".

(** [Cancel] during a turn. *)
Definition cancel_turn (stream : StreamPhase) (c : AgentContext) : AgentFsm * list Effect :=
  let effects := match stream with Done => [] | _ => [AbortStream] end in
  let pending := ToolManager.pending_ids (tools c) in
  let '(c, effects) := foldl cancel_tool (c, effects) pending in
  let c := commit_streaming_text_as_cancelled c in
  let c := match pending with [] => c | _ :: _ => push_event (SystemContext CANCELLED_CONTEXT) c end in
  (mk_fsm (Idle None) (with_timeouts ∅ (next_timeout_id c) c), effects ++ [Persist]).

(** [NewSession]; [None] when the view starts beyond the events. *)
Definition new_session (c : AgentContext) : option (AgentFsm * list Effect) :=
  if decide (view_start_index c ≤ length (events c))%nat then
    let visible := drop (view_start_index c) (events c) in
    let c := with_view 0 false (archived_events c ++ visible) c in
    let c := with_picker None (with_turn_ids [] (with_session None (with_events [] c))) in
    Some (mk_fsm (Idle None) (push_event (OutOfBandOutput "System" (Some "/new") "Started a new session.") c),
          [ArchiveSession; Persist])
  else None.

(** [ModelSelected] *)
Definition model_selected (alias : string) (c : AgentContext) : AgentContext * list Effect :=
  let display := default alias
    (m_name <$> (models_cache c ≫= λ l, List.find (λ m, bool_decide (m_alias m = alias)) (ml_models l))) in
  (handle_slash_command "/model" ("Model set to " +:+ display +:+ " for this and future sessions.")
     (with_model (Some alias) (with_picker None c)), [SaveModelSelection alias]).

(** [ModelListLoaded] *)
Definition model_list_loaded (r : result ModelList string) (c : AgentContext) : AgentContext :=
  match r with
  | Ok l =>
      let c := with_cache (Some l) c in
      if decide (model_picker c = Some Loading) then with_picker (Some (Ready l)) c else c
  | Err e =>
      if decide (model_picker c = Some Loading) then
        handle_slash_command "/model" ("Could not load the model list: " +:+ e) (with_picker None c)
      else c
  end.

(** [OutputCommandResolved] *)
Definition set_output_command (command : option string) (t : TrackedTool) : TrackedTool :=
  match tr_tool t with
  | CAtuinOutput call => set_tool (CAtuinOutput (mk_aoutput (ao_history_id call) (ao_ranges call) command)) t
  | _ => t
  end.

(** ** The transitions *)

(** The arms of the idle state; [None] where none of them applies. *)
Definition handle_idle (confirmation : option PendingConfirmation) (c : AgentContext) (e : Event)
    : option (option (AgentFsm * list Effect)) :=
  let idle c := mk_fsm (Idle confirmation) c in
  match e with
  | UserSubmit msg => Some (Some (start_turn msg c))
  | ExecuteCommand =>
      match confirmation with
      | None =>
          match current_command c with
          | None => Some (Some (idle c, [ExitApp ExitCancel]))
          | Some cmd =>
              if is_current_command_dangerous c then
                let '(timeout_id, c) := fresh_timeout c in
                Some (Some (mk_fsm (Idle (Some (mk_confirm cmd timeout_id))) c,
                            [ScheduleTimeout timeout_id 5 Confirmation]))
              else Some (Some (idle c, [ExitApp (Execute cmd)]))
          end
      | Some confirm => Some (Some (mk_fsm (Idle None) c, [ExitApp (Execute (pc_command confirm))]))
      end
  | InsertCommand =>
      Some (Some (idle c, match current_command c with Some cmd => [ExitApp (Insert cmd)] | None => [] end))
  | Cancel =>
      match confirmation with
      | Some _ => Some (Some (mk_fsm (Idle None) c, []))
      | None => match model_picker c with
                | Some _ => Some (Some (idle (with_picker None c), []))
                | None => Some (Some (idle c, [ExitApp ExitCancel]))
                end
      end
  | ConfirmationTimeout timeout_id =>
      match confirmation with
      | Some confirm => if decide (pc_timeout_id confirm = timeout_id) then Some (Some (mk_fsm (Idle None) c, []))
                        else Some (Some (idle c, []))
      | None => Some (Some (idle c, []))
      end
  | NewSession => Some (new_session c)
  | SlashCommand command content => Some (Some (idle (handle_slash_command command content c), []))
  | OpenModelPicker =>
      match models_cache c with
      | Some l => Some (Some (idle (with_picker (Some (Ready l)) c), []))
      | None => Some (Some (idle (with_picker (Some Loading) c), [FetchModels]))
      end
  | ModelSelected alias => let '(c, effects) := model_selected alias c in Some (Some (idle c, effects))
  | SkillLoaded name arguments content =>
      Some (Some (start_stream (with_turn_ids [] (with_response "" (push_event (SkillInvocation name arguments content) c)))))
  | _ => None
  end.

(** The arms of a turn. *)
Definition handle_turn `{ToolLib} (cwd : option string) (stream : StreamPhase) (c : AgentContext) (e : Event)
    : option (option (AgentFsm * list Effect)) :=
  let f := mk_fsm (Turn stream) c in
  match e with
  | StreamStarted =>
      match stream with Connecting => Some (Some (mk_fsm (Turn (Streaming None)) c, [])) | _ => None end
  | StreamError err =>
      match stream with
      | Connecting => Some (Some (mk_fsm (SError err) c, []))
      | Streaming _ =>
          Some (Some (mk_fsm (SError err) (with_timeouts ∅ (next_timeout_id c) c),
                      AbortTool <$> ToolManager.executing_ids (tools c)))
      | Done => None
      end
  | StreamChunk text =>
      match stream with
      | Streaming _ => Some (Some (mk_fsm (Turn stream) (with_response (current_response c +:+ text) c), []))
      | _ => None
      end
  | StreamStatusChanged s =>
      match stream with
      | Streaming _ => Some (Some (mk_fsm (Turn (Streaming (Some (status_from_str s)))) c, []))
      | _ => None
      end
  | StreamToolCall id name input =>
      Some (Some (handle_stream_tool_call id name input (with_ctx f (commit_streaming_text c))))
  | SuggestCommand id input =>
      Some (Some (mk_fsm (Idle None) (push_event (ToolCall id "suggest_command" input) (commit_streaming_text c)),
                  [TurnEnded; Persist]))
  | StreamServerToolResult id content err remote len =>
      match stream with
      | Streaming _ => Some (Some (with_ctx f (push_event (ToolResult id content err remote len) c), []))
      | _ => None
      end
  | StreamDone sid =>
      let c := commit_streaming_text c in
      let c := if decide (sid = "") then c else with_session (Some sid) c in
      Some (Some (check_turn_completion (mk_fsm (Turn Done) c)))
  | PermissionResolved id response => Some (Some (handle_permission_resolved f id response))
  | PermissionUserChoice id choice => Some (Some (handle_permission_choice cwd f id choice))
  | ToolExecutionDone id outcome preview => Some (Some (handle_tool_done f id outcome preview))
  | ToolPreviewUpdate id lines exit_code =>
      Some (Some (with_ctx f (update_tool id (update_preview lines exit_code) c), []))
  | InterruptTools =>
      let ids := ToolManager.executing_ids (tools c) in
      Some (Some (with_ctx f (foldl interrupt_tool c ids), AbortTool <$> ids))
  | ToolExecutionTimeout timeout_id id => Some (handle_tool_execution_timeout f timeout_id id)
  | Cancel => Some (Some (cancel_turn stream c))
  | _ => None
  end.

(** The arms of the error state. *)
Definition handle_error (err : string) (c : AgentContext) (e : Event) : option (option (AgentFsm * list Effect)) :=
  match e with
  | Retry => Some (Some (start_stream c))
  | Cancel => Some (Some (mk_fsm (SError err) c, [ExitApp ExitCancel]))
  | _ => None
  end.

(** The arms for any state, after the others. *)
Definition handle_any (f : AgentFsm) (e : Event) : AgentFsm * list Effect :=
  match e with
  | StreamDone sid =>
      (if decide (sid = "") then f else with_ctx f (with_session (Some sid) (ctx f)), [Persist])
  | SlashCommand command content => (with_ctx f (handle_slash_command command content (ctx f)), [])
  | ModelListLoaded r => (with_ctx f (model_list_loaded r (ctx f)), [])
  | OutputCommandResolved id command => (with_ctx f (update_tool id (set_output_command command) (ctx f)), [])
  | RequestSkillLoad name arguments => (f, [LoadSkill name arguments])
  | SkillLoaded name arguments content =>
      (with_ctx f (push_event (SkillInvocation name arguments content) (ctx f)), [])
  | _ => (f, [])
  end.

(** [handle] *)
Definition handle `{ToolLib} (cwd : option string) (f : AgentFsm) (e : Event) : option (AgentFsm * list Effect) :=
  let c := match e with
           | SessionIdReceived id => with_session (Some (default id (session_id (ctx f)))) (ctx f)
           | _ => ctx f
           end in
  match (match state f with
         | Idle confirmation => handle_idle confirmation c e
         | Turn stream => handle_turn cwd stream c e
         | SError err => handle_error err c e
         end) with
  | Some r => r
  | None => Some (handle_any (with_ctx f c) e)
  end.
End fsm.

(** ** Lemmas on the tools *)

Module ToolLemmas.
Import ToolManager.

Lemma get_Some tools id t : get tools id = Some t → t ∈ tools ∧ tr_id t = id.
Proof.
  unfold get. intros [Hin Heq]%find_some. apply bool_decide_eq_true in Heq. by rewrite list_elem_of_In.
Qed.

Lemma get_cons x tools id : get (x :: tools) id = if decide (tr_id x = id) then Some x else get tools id.
Proof. unfold get. simpl. case_bool_decide; by case_decide. Qed.

Lemma get_insert tools id c id' :
  get (insert tools id c) id' =
    match get tools id' with
    | Some t => Some t
    | None => if decide (id = id') then Some (mk_tracked id c CheckingPermission None None) else None
    end.
Proof.
  induction tools as [|x tools IH]; [cbn; unfold get; simpl; case_bool_decide; by case_decide|].
  change (insert (x :: tools) id c) with (x :: insert tools id c). rewrite !get_cons, IH. by destruct (decide (tr_id x = id')).
Qed.

Lemma get_update tools id g id' :
  (∀ t, tr_id (g t) = tr_id t) →
  get (update tools id g) id' = if decide (id = id') then g <$> get tools id else get tools id'.
Proof.
  intros Hg. induction tools as [|x tools IH]; cbn [update].
  - unfold get. simpl. by case_decide.
  - destruct (decide (tr_id x = id)) as [Hx|Hx]; rewrite !get_cons, ?Hg.
    + rewrite Hx. repeat case_decide; subst; done.
    + rewrite IH. repeat case_decide; subst; try done.
Qed.

Lemma elem_of_update tools id g t : t ∈ update tools id g → t ∈ tools ∨ ∃ x, x ∈ tools ∧ t = g x.
Proof.
  induction tools as [|x tools IH]; cbn [update]; [by left|]. case_decide.
  - intros [->|?]%elem_of_cons; [right; exists x; split; [by left|done]|left; by right].
  - intros [->|[?|(y & ? & ?)]%IH]%elem_of_cons; [left; by left|left; by right|right; exists y; split; [by right|done]].
Qed.

Lemma ids_update tools id g : (∀ t, tr_id (g t) = tr_id t) → tr_id <$> update tools id g = tr_id <$> tools.
Proof.
  intros Hg. induction tools as [|x tools IH]; [done|]. cbn [update]. case_decide; csimpl; by rewrite ?Hg, ?IH.
Qed.

Lemma get_elem tools t : NoDup (tr_id <$> tools) → t ∈ tools → get tools (tr_id t) = Some t.
Proof.
  intros Hnd. induction tools as [|x tools IH]; intros Hin; [by apply not_elem_of_nil in Hin|].
  rewrite fmap_cons in Hnd. apply NoDup_cons in Hnd as [Hx Hnd]. rewrite get_cons.
  apply elem_of_cons in Hin as [->|Hin]; [by rewrite decide_True|].
  rewrite decide_False; [by apply IH|]. intros He. apply Hx. rewrite He. by apply list_elem_of_fmap_2.
Qed.

Lemma get_None tools id : get tools id = None ↔ id ∉ tr_id <$> tools.
Proof.
  induction tools as [|x tools IH]; [split; [intros _; apply not_elem_of_nil|done]|].
  rewrite get_cons, fmap_cons, not_elem_of_cons. case_decide; naive_solver.
Qed.

Lemma elem_of_pending tools id :
  NoDup (tr_id <$> tools) → id ∈ pending_ids tools ↔ ∃ t, get tools id = Some t ∧ is_resolved t = false.
Proof.
  intros Hnd. unfold pending_ids. rewrite list_elem_of_fmap. split.
  - intros (t & -> & [Hr Hin]%list_elem_of_filter). exists t. split; [by apply get_elem|done].
  - intros (t & Hg & Hr). apply get_Some in Hg as [Hin <-]. exists t. split; [done|]. by apply list_elem_of_filter.
Qed.
End ToolLemmas.
Import ToolLemmas.

(** One tool after another event: of the same kind, and resolved if it was. *)
Definition kind_of_tool (c : ClientToolCall) : nat :=
  match c with
  | CRead _ => 0 | CEdit _ => 1 | CWrite _ => 2 | CShell _ => 3
  | CAtuinHistory _ => 4 | CAtuinOutput _ => 5 | CLoadSkill _ => 6
  end.

Definition tool_evolves (t t' : TrackedTool) : Prop :=
  tr_id t' = tr_id t ∧ kind_of_tool (tr_tool t') = kind_of_tool (tr_tool t) ∧
  (is_resolved t = true → is_resolved t' = true).

Definition tools_evolve (ts ts' : ToolManager.t) : Prop :=
  ∀ id t, ToolManager.get ts id = Some t → ∃ t', ToolManager.get ts' id = Some t' ∧ tool_evolves t t'.

#[export] Instance tool_evolves_preorder : PreOrder tool_evolves.
Proof. split; [by intros t|]. intros t1 t2 t3 (? & ? & ?) (? & ? & ?). split_and!; [congruence..|auto]. Qed.

#[export] Instance tools_evolve_preorder : PreOrder tools_evolve.
Proof.
  split.
  - intros ts id t Ht. exists t. by split.
  - intros ts1 ts2 ts3 H1 H2 id t Ht. apply H1 in Ht as (t2 & Ht2 & E1). apply H2 in Ht2 as (t3 & Ht3 & E2).
    exists t3. split; [done|]. by etrans.
Qed.

Lemma insert_evolves ts id c : tools_evolve ts (ToolManager.insert ts id c).
Proof. intros id' t Ht. exists t. by rewrite get_insert, Ht. Qed.

Lemma update_evolves ts id g :
  (∀ t, ToolManager.get ts id = Some t → tool_evolves t (g t)) → (∀ t, tr_id (g t) = tr_id t) →
  tools_evolve ts (ToolManager.update ts id g).
Proof.
  intros Hg Hid id' t Ht. rewrite get_update by done. case_decide; subst; [|by exists t].
  rewrite Ht. exists (g t). split; [done|by apply Hg].
Qed.

(** ** Growth of the context

    No transition but a new session drops an event of the conversation, and none makes a resolved
    tool unresolved or changes what kind of tool a call is. *)

Section growth.
Context `{Json}.

Record ctx_grows (c c' : AgentContext) : Prop := mk_grows {
  cg_tools : tools_evolve (tools c) (tools c');
  cg_events : events c `prefix_of` events c';
  cg_view : view_start_index c' = view_start_index c
}.

#[export] Instance ctx_grows_preorder : PreOrder ctx_grows.
Proof.
  split; [by intros c; split|]. intros c1 c2 c3 [? ? ?] [? ? ?]. split; [by etrans|by etrans|congruence].
Qed.

Lemma push_event_grows e c : ctx_grows c (push_event e c).
Proof. split; [done|by apply prefix_app_r|done]. Qed.

Lemma with_timeouts_grows v n c : ctx_grows c (with_timeouts v n c).
Proof. by split. Qed.

Lemma update_tool_grows id g c :
  (∀ t, ToolManager.get (tools c) id = Some t → tool_evolves t (g t)) → (∀ t, tr_id (g t) = tr_id t) →
  ctx_grows c (update_tool id g c).
Proof. intros Hg Hid. split; [by apply update_evolves|done|done]. Qed.

(** A change of the state of a tool that was not resolved. *)
Lemma set_state_grows id s t c :
  unresolved c id = Some t → ctx_grows c (update_tool id (set_state s) c).
Proof.
  unfold unresolved. intros Hu. apply update_tool_grows; [|done]. intros t' Ht'. rewrite Ht' in Hu.
  destruct (is_resolved t') eqn:E; [done|]. split_and!; [done|done|]. by rewrite E.
Qed.

Lemma commit_grows c : ctx_grows c (commit_streaming_text c).
Proof. unfold commit_streaming_text. case_decide; [by split|]. split; [done|by apply prefix_app_r|done]. Qed.

Lemma commit_cancelled_grows c : ctx_grows c (commit_streaming_text_as_cancelled c).
Proof. unfold commit_streaming_text_as_cancelled. case_decide; [by split|]. split; [done|by apply prefix_app_r|done]. Qed.

Lemma check_turn_completion_grows f : ctx_grows (ctx f) (ctx (check_turn_completion f).1).
Proof.
  unfold check_turn_completion. destruct (state f) as [|[| |]|]; try done.
  destruct (ToolManager.all_resolved _ _); [|done]. by destruct (current_turn_tool_ids (ctx f)).
Qed.

Lemma emit_execute_grows id c tool : ctx_grows c (emit_execute_tool id tool c).1.
Proof. by destruct tool. Qed.

Lemma begin_execution_grows f id t :
  unresolved (ctx f) id = Some t → ctx_grows (ctx f) (ctx (begin_execution f id t).1).
Proof.
  intros Hu. unfold begin_execution. pose proof (emit_execute_grows id (update_tool id (set_state Executing) (ctx f)) (tr_tool t)) as Hg.
  destruct (emit_execute_tool _ _ _) as [c eff]. cbn [fst] in *. etrans; [by eapply set_state_grows|done].
Qed.

Lemma deny_grows f id t content : unresolved (ctx f) id = Some t → ctx_grows (ctx f) (ctx (deny f id content).1).
Proof.
  intros Hu. unfold deny. etrans; [|apply check_turn_completion_grows]. cbn.
  etrans; [by eapply set_state_grows|apply push_event_grows].
Qed.

Lemma tool_call_grows `{ToolLib} id name input f : ctx_grows (ctx f) (ctx (handle_stream_tool_call id name input f).1).
Proof.
  unfold handle_stream_tool_call. destruct (try_from name input) as [tool|err].
  - destruct (_ ≫= _) as [cap|]; cbn.
    + split; cbn; [done|rewrite <- app_assoc; by apply prefix_app_r|done].
    + split; cbn; [apply insert_evolves|by apply prefix_app_r|done].
  - split; cbn; [done|rewrite <- app_assoc; by apply prefix_app_r|done].
Qed.

Lemma permission_resolved_grows f id r : ctx_grows (ctx f) (ctx (handle_permission_resolved f id r).1).
Proof.
  unfold handle_permission_resolved. destruct (unresolved _ _) as [t|] eqn:E; [|done].
  destruct r; [by apply begin_execution_grows|by eapply deny_grows|by eapply set_state_grows|by apply begin_execution_grows].
Qed.

Lemma permission_choice_grows cwd f id ch : ctx_grows (ctx f) (ctx (handle_permission_choice cwd f id ch).1).
Proof.
  unfold handle_permission_choice. destruct (unresolved _ _) as [t|] eqn:E; [|done].
  pose proof (begin_execution_grows _ _ _ E). destruct (begin_execution _ _ _) as [f' eff].
  destruct ch; try done. by eapply deny_grows.
Qed.

Lemma tool_done_grows f id o p : ctx_grows (ctx f) (ctx (handle_tool_done f id o p).1).
Proof.
  unfold handle_tool_done. destruct (unresolved _ _) as [t|] eqn:E; [|done].
  etrans; [|apply check_turn_completion_grows]. unfold with_ctx; cbn [ctx].
  etrans; [|apply push_event_grows]. etrans; [|apply with_timeouts_grows].
  apply update_tool_grows; [|done]. intros t' _. by split_and!.
Qed.

Lemma timeout_grows f tid id f' eff :
  handle_tool_execution_timeout f tid id = Some (f', eff) → ctx_grows (ctx f) (ctx f').
Proof.
  unfold handle_tool_execution_timeout. destruct (_ !! tid); [|by intros [= <- <-]].
  destruct (unresolved _ id) as [t|]; [|by intros [= <- <-]]. destruct (tr_tool t); try done. intros [= <- <-].
  cbn. transitivity (with_timeouts (delete tid (tool_timeout_ids (ctx f))) (next_timeout_id (ctx f)) (ctx f)); [by split|].
  by apply update_tool_grows.
Qed.

Lemma interrupt_grows ids c : ctx_grows c (foldl interrupt_tool c ids).
Proof.
  revert c. induction ids as [|id ids IH]; intros c; [done|]. cbn. etrans; [|apply IH]. unfold interrupt_tool.
  transitivity (update_tool id (set_interrupt (Some IUser)) c); [by apply update_tool_grows|by split].
Qed.

Lemma cancel_tools_grows ids acc : ctx_grows acc.1 (foldl cancel_tool acc ids).1.
Proof.
  revert acc. induction ids as [|id ids IH]; intros [c eff]; [done|]. cbn [foldl]. etrans; [|apply IH]. cbn.
  transitivity (update_tool id (set_state Completed) c); [by apply update_tool_grows|apply push_event_grows].
Qed.

Lemma cancel_turn_grows stream c : ctx_grows c (ctx (cancel_turn stream c).1).
Proof.
  unfold cancel_turn. set (eff := match stream with Done => _ | _ => _ end).
  pose proof (cancel_tools_grows (ToolManager.pending_ids (tools c)) (c, eff)) as Hg.
  destruct (foldl _ _ _) as [c' eff']. cbn [fst ctx] in *. etrans; [exact Hg|].
  etrans; [apply commit_cancelled_grows|]. etrans; [|apply with_timeouts_grows].
  destruct (ToolManager.pending_ids _); [done|apply push_event_grows].
Qed.

Lemma output_command_grows id cmd c : ctx_grows c (update_tool id (set_output_command cmd) c).
Proof.
  apply update_tool_grows; [|intros t; unfold set_output_command; by destruct (tr_tool t)].
  intros t _. unfold tool_evolves, set_output_command. destruct (tr_tool t) eqn:E; cbn; rewrite ?E; by split_and!.
Qed.

Lemma preview_grows id lines exit c : ctx_grows c (update_tool id (update_preview lines exit) c).
Proof.
  apply update_tool_grows.
  - intros t _. unfold update_preview. destruct (is_resolved t) eqn:E; [|by split_and!].
    destruct (tr_preview t) as [[| |]|]; by split_and!.
  - intros t. unfold update_preview. destruct (is_resolved t); [|done]. by destruct (tr_preview t) as [[| |]|].
Qed.
End growth.

Section steps.
Context `{Json, ToolLib}.
Context (cwd : option string).

(** A new session keeps the tools and starts the view afresh. *)
Definition session_reset (c c' : AgentContext) : Prop :=
  tools c' = tools c ∧ view_start_index c' = O.

Lemma handle_idle_grows conf c e f' eff :
  handle_idle conf c e = Some (Some (f', eff)) → ctx_grows c (ctx f') ∨ e = NewSession ∧ session_reset c (ctx f').
Proof.
  destruct e; cbn [handle_idle fresh_timeout model_selected]; try discriminate;
    repeat match goal with |- context [match ?x with _ => _ end] => destruct x end; try discriminate.
  all: try (intros Ei; injection Ei as <- <-; left; split; cbn; [done|by try apply prefix_app_r|done]).
  all: unfold new_session; case_decide; intros Ei; try discriminate; injection Ei as <- <-; by right.
Qed.

Lemma handle_turn_grows stream c e f' eff :
  handle_turn cwd stream c e = Some (Some (f', eff)) → ctx_grows c (ctx f').
Proof.
  assert (∀ f r, Some (Some r) = Some (Some (f', eff)) → ctx_grows (ctx f) (ctx r.1) → ctx_grows (ctx f) (ctx f')) as Hr.
  { intros f r [= ->]. done. }
  destruct e; cbn [handle_turn]; try discriminate; try (destruct stream; discriminate).
  - intros E. eapply (Hr (mk_fsm (Turn stream) c)); [exact E|]. apply cancel_turn_grows.
  - intros E. eapply (Hr (mk_fsm (Turn stream) c)); [exact E|]. apply interrupt_grows.
  - destruct stream; intros E; try discriminate. by injection E as <- <-.
  - destruct stream; intros E; try discriminate. injection E as <- <-. by split.
  - intros E. eapply (Hr (mk_fsm (Turn stream) c)); [exact E|]. cbn [ctx]. etrans; [apply commit_grows|].
    apply (tool_call_grows id name input (mk_fsm (Turn stream) (commit_streaming_text c))).
  - destruct stream; intros E; try discriminate. injection E as <- <-. apply push_event_grows.
  - destruct stream; intros E; try discriminate. by injection E as <- <-.
  - intros E. eapply (Hr (mk_fsm (Turn stream) c)); [exact E|]. cbn [ctx]. etrans; [|apply check_turn_completion_grows]. cbn [ctx].
    etrans; [apply commit_grows|]. case_decide; [done|by split].
  - destruct stream; intros E; try discriminate; by injection E as <- <-; try split.
  - intros E. eapply (Hr (mk_fsm (Turn stream) c)); [exact E|]. cbn. etrans; [apply commit_grows|apply push_event_grows].
  - intros E. eapply (Hr (mk_fsm (Turn stream) c)); [exact E|]. apply (permission_resolved_grows (mk_fsm (Turn stream) c)).
  - intros E. eapply (Hr (mk_fsm (Turn stream) c)); [exact E|]. apply (permission_choice_grows cwd (mk_fsm (Turn stream) c)).
  - intros E. eapply (Hr (mk_fsm (Turn stream) c)); [exact E|]. apply (tool_done_grows (mk_fsm (Turn stream) c)).
  - intros E. eapply (Hr (mk_fsm (Turn stream) c)); [exact E|]. apply preview_grows.
  - intros E. injection E as E. by apply timeout_grows in E.
Qed.

Lemma handle_any_grows f e : ctx_grows (ctx f) (ctx (handle_any f e).1).
Proof.
  destruct e; try done; cbn [handle_any fst]; try (apply push_event_grows).
  - case_decide; [done|by split].
  - apply output_command_grows.
  - unfold model_list_loaded. destruct r; case_decide; cbn; split; cbn; done || by apply prefix_app_r.
Qed.

Lemma handle_grows f e f' eff :
  handle cwd f e = Some (f', eff) →
  ctx_grows (ctx f) (ctx f') ∨ (e = NewSession ∧ ∃ conf, state f = Idle conf) ∧ session_reset (ctx f) (ctx f').
Proof.
  unfold handle. set (c := match e with SessionIdReceived _ => _ | _ => _ end).
  assert (ctx_grows (ctx f) c ∧ tools c = tools (ctx f)) as [Hc Ht] by (unfold c; destruct e; by split; try split).
  assert (Some (handle_any (with_ctx f c) e) = Some (f', eff) → ctx_grows (ctx f) (ctx f')) as Hany.
  { intros [= E]. etrans; [exact Hc|]. pose proof (handle_any_grows (with_ctx f c) e) as Hg. by rewrite E in Hg. }
  destruct (state f) as [conf|stream|err].
  - destruct (handle_idle conf c e) as [r|] eqn:Ei; [|left; by apply Hany]. intros ->.
    apply handle_idle_grows in Ei as [Hg|(He & Ht' & Hv)]; [left; by etrans|right].
    split; [by eauto|split; [by rewrite Ht'|done]].
  - destruct (handle_turn cwd stream c e) as [r|] eqn:Ei; [|left; by apply Hany]. intros ->.
    apply handle_turn_grows in Ei. left. by etrans.
  - destruct (handle_error err c e) as [r|] eqn:Ei; [|left; by apply Hany]. intros ->. left. etrans; [exact Hc|].
    destruct e; cbn in Ei; try discriminate; by injection Ei as <- <-.
Qed.

(** The tool that an effect starts, or schedules the timeout of. *)
Definition execution_of (x : Effect) : option string :=
  match x with
  | ExecuteTool id _ => Some id
  | ScheduleTimeout _ _ (ToolExecution id) => Some id
  | _ => None
  end.

Definition quiet (eff : list Effect) : Prop := ∀ x, x ∈ eff → execution_of x = None.

Lemma quiet_nil : quiet [].
Proof. by intros x ?%not_elem_of_nil. Qed.

Lemma quiet_cons x eff : execution_of x = None → quiet eff → quiet (x :: eff).
Proof. intros Hx He y [->|Hy]%elem_of_cons; [done|by apply He]. Qed.

Lemma quiet_app e1 e2 : quiet e1 → quiet e2 → quiet (e1 ++ e2).
Proof. intros H1' H2' x [Hx|Hx]%elem_of_app; [by apply H1'|by apply H2']. Qed.

Lemma quiet_aborts ids : quiet (AbortTool <$> ids).
Proof. by intros x (id & -> & _)%list_elem_of_fmap. Qed.

Lemma check_turn_completion_quiet f : quiet (check_turn_completion f).2.
Proof.
  unfold check_turn_completion. destruct (state f) as [|[| |]|]; try apply quiet_nil.
  destruct (ToolManager.all_resolved _ _); [|apply quiet_nil].
  destruct (current_turn_tool_ids (ctx f)); cbn; repeat (apply quiet_cons; [done|]); apply quiet_nil.
Qed.

(** The events that permit a tool to run. *)
Definition grants (e : Event) (id : string) : Prop :=
  e = PermissionResolved id PAllowed ∨ e = PermissionResolved id PSessionGranted ∨
  ∃ ch, e = PermissionUserChoice id ch ∧ ch ≠ CDeny.

(** What the effects [eff] of one step to [f'] may start: only the tool [id], tracked and unresolved
    before, and then executing. *)
Definition starts (c : AgentContext) (f' : AgentFsm) (eff : list Effect) (id : string) : Prop :=
  ∃ t, unresolved c id = Some t ∧ tools (ctx f') = ToolManager.update (tools c) id (set_state Executing) ∧
    ∀ x i, x ∈ eff → execution_of x = Some i →
      i = id ∧ (x = ExecuteTool id (tr_tool t) ∨
        (∃ tid d, x = ScheduleTimeout tid d (ToolExecution id)) ∧ kind_of_tool (tr_tool t) = 3%nat).

Lemma begin_execution_starts f id t :
  unresolved (ctx f) id = Some t → starts (ctx f) (begin_execution f id t).1 (begin_execution f id t).2 id.
Proof.
  intros Hu. exists t. split; [done|]. unfold begin_execution, emit_execute_tool.
  destruct (tr_tool t) eqn:E; cbn; split; try done; intros x i; set_unfold; rewrite ?E; naive_solver.
Qed.

Lemma starts_quiet c f' eff more id : starts c f' eff id → quiet more → starts c f' (eff ++ more) id.
Proof.
  intros (t & Hu & Ht & Hx) Hm. exists t. split_and!; [done..|].
  intros x i [Hin|Hin]%elem_of_app He; [by apply Hx|]. apply Hm in Hin. congruence.
Qed.

Ltac quiet_list := repeat (apply quiet_cons; [done|]); apply quiet_nil.

Lemma handle_idle_quiet conf c e f' eff : handle_idle conf c e = Some (Some (f', eff)) → quiet eff.
Proof.
  destruct e; cbn [handle_idle fresh_timeout model_selected]; try discriminate;
    repeat match goal with |- context [match ?x with _ => _ end] => destruct x end; try discriminate.
  all: try (intros Ei; injection Ei as <- <-; quiet_list).
  all: unfold new_session; case_decide; intros Ei; try discriminate; injection Ei as <- <-; quiet_list.
Qed.

Lemma handle_any_quiet f e : quiet (handle_any f e).2.
Proof. destruct e; cbn [handle_any snd]; quiet_list. Qed.

Lemma tool_call_quiet id name input f : quiet (handle_stream_tool_call id name input f).2.
Proof.
  unfold handle_stream_tool_call. destruct (try_from name input) as [tool|]; [|apply quiet_nil].
  destruct (_ ≫= _); [apply quiet_nil|]. cbn. apply quiet_app; [|quiet_list]. destruct tool; quiet_list.
Qed.

Lemma cancel_turn_quiet stream c : quiet (cancel_turn stream c).2.
Proof.
  unfold cancel_turn. set (eff := match stream with Done => _ | _ => _ end).
  assert (quiet eff) as Hq by (unfold eff; destruct stream; quiet_list).
  assert (∀ ids acc, quiet acc.2 → quiet (foldl cancel_tool acc ids).2) as Hf.
  { induction ids as [|id ids IH]; intros [c' e'] Ha; [done|]. cbn [foldl]. apply IH. cbn. apply quiet_app; [done|].
    destruct (ToolManager.get _ _); [|quiet_list]. case_decide; quiet_list. }
  specialize (Hf (ToolManager.pending_ids (tools c)) (c, eff) Hq). destruct (foldl _ _ _) as [c' e']. cbn.
  apply quiet_app; [done|quiet_list].
Qed.

Lemma timeout_quiet f tid id f' eff : handle_tool_execution_timeout f tid id = Some (f', eff) → quiet eff.
Proof.
  unfold handle_tool_execution_timeout. destruct (_ !! tid); [|intros [= <- <-]; quiet_list].
  destruct (unresolved _ id) as [t|]; [|intros [= <- <-]; quiet_list].
  destruct (tr_tool t); try done. intros [= <- <-]. quiet_list.
Qed.

Lemma tool_done_quiet f id o p : quiet (handle_tool_done f id o p).2.
Proof.
  unfold handle_tool_done. destruct (unresolved _ _); [|quiet_list]. apply check_turn_completion_quiet.
Qed.

Lemma permission_resolved_starts f id r :
  quiet (handle_permission_resolved f id r).2 ∨
  grants (PermissionResolved id r) id ∧
  starts (ctx f) (handle_permission_resolved f id r).1 (handle_permission_resolved f id r).2 id.
Proof.
  unfold handle_permission_resolved. destruct (unresolved _ _) as [t|] eqn:E; [|left; quiet_list].
  destruct r; [right|left; apply check_turn_completion_quiet|left; quiet_list|right].
  - split; [by left|by apply begin_execution_starts].
  - split; [by right; left|by apply begin_execution_starts].
Qed.

Lemma permission_choice_starts f id ch :
  quiet (handle_permission_choice cwd f id ch).2 ∨
  grants (PermissionUserChoice id ch) id ∧
  starts (ctx f) (handle_permission_choice cwd f id ch).1 (handle_permission_choice cwd f id ch).2 id.
Proof.
  unfold handle_permission_choice. destruct (unresolved _ _) as [t|] eqn:E; [|left; quiet_list].
  pose proof (begin_execution_starts f id t E) as Hs. destruct (begin_execution f id t) as [f' eff]. cbn [fst snd] in Hs.
  assert (ch ≠ CDeny → grants (PermissionUserChoice id ch) id) as Hg by (intros Hn; right; right; by exists ch).
  destruct ch; cbn [fst snd]; [right|right|right|right|left; apply check_turn_completion_quiet]; (split; [by apply Hg|]).
  - done.
  - apply starts_quiet; [done|]. destruct (resolved_file_path _ _); quiet_list.
  - apply starts_quiet; [done|quiet_list].
  - apply starts_quiet; [done|quiet_list].
Qed.

(** A step starts nothing, or it handles a permission during a turn. *)
Lemma handle_execution f e f' eff :
  handle cwd f e = Some (f', eff) →
  quiet eff ∨ ∃ stream id, state f = Turn stream ∧ grants e id ∧ starts (ctx f) f' eff id.
Proof.
  unfold handle. set (c := match e with SessionIdReceived _ => _ | _ => _ end).
  assert (Some (handle_any (with_ctx f c) e) = Some (f', eff) → quiet eff) as Hany.
  { intros [= Hh]. pose proof (handle_any_quiet (with_ctx f c) e) as Hq. by rewrite Hh in Hq. }
  destruct (state f) as [conf|stream|err] eqn:Es.
  - intros Hh. left. destruct (handle_idle conf c e) as [r|] eqn:Ei; [subst r; by eapply handle_idle_quiet|by apply Hany].
  - destruct (handle_turn cwd stream c e) as [r|] eqn:Ei; [intros ->|intros Hh; left; by apply Hany].
    assert (∀ r, Some (Some r) = Some (Some (f', eff)) → quiet r.2 → quiet eff) as Hq by (intros r [= ->]; done).
    destruct e; cbn [handle_turn] in Ei; try discriminate Ei.
    all: try (left; destruct stream; try discriminate Ei; injection Ei as <- <-; quiet_list).
    all: try (left; eapply Hq; [exact Ei|]; cbn [snd]; done || apply cancel_turn_quiet || apply quiet_aborts
              || apply tool_call_quiet || apply check_turn_completion_quiet || apply tool_done_quiet || quiet_list).
    + left. destruct stream; try discriminate Ei; injection Ei as <- <-; [quiet_list|apply quiet_aborts].
    + change c with (ctx f) in Ei. pose proof (permission_resolved_starts (mk_fsm (Turn stream) (ctx f)) tool_id response) as Hp.
      injection Ei as Ei. rewrite Ei in Hp. destruct Hp as [Hp|[Hg Hs]]; [by left|]. right. by exists stream, tool_id.
    + change c with (ctx f) in Ei. pose proof (permission_choice_starts (mk_fsm (Turn stream) (ctx f)) tool_id choice) as Hp.
      injection Ei as Ei. rewrite Ei in Hp. destruct Hp as [Hp|[Hg Hs]]; [by left|]. right. by exists stream, tool_id.
    + left. injection Ei as Ei. by eapply timeout_quiet.
  - intros Hh. left. destruct (handle_error err c e) as [r|] eqn:Ei; [subst r|by apply Hany].
    destruct e; cbn in Ei; try discriminate Ei; injection Ei as <- <-; quiet_list.
Qed.
End steps.

(** ** Results and resolutions

    Over one step, the results that the log gains for a tool are the tool's becoming resolved. *)

Section results.
Context `{Json}.

Definition result_for (id : string) (e : ConversationEvent) : bool :=
  match e with ToolResult i _ _ _ _ => bool_decide (i = id) | _ => false end.

Definition count_results (id : string) (l : list ConversationEvent) : nat :=
  length (filter (λ e, result_for id e = true) l).

Definition resolved_count (ts : ToolManager.t) (id : string) : nat :=
  match ToolManager.get ts id with Some t => if is_resolved t then 1 else 0 | None => 0 end.

Definition balanced_at (c c' : AgentContext) (id : string) : Prop :=
  (count_results id (events c') + resolved_count (tools c) id)%nat
  = (count_results id (events c) + resolved_count (tools c') id)%nat.
(** No tool is added, and the books balance for every one. *)
Definition balanced (c c' : AgentContext) : Prop :=
  tr_id <$> tools c' = tr_id <$> tools c ∧ ∀ id, balanced_at c c' id.

#[export] Instance balanced_preorder : PreOrder balanced.
Proof.
  split; [done|]. intros c1 c2 c3 [Hi1 H1'] [Hi2 H2']. split; [congruence|]. intros id.
  specialize (H1' id). specialize (H2' id). unfold balanced_at in *. lia.
Qed.

Lemma count_results_app id l k : count_results id (l ++ k) = (count_results id l + count_results id k)%nat.
Proof. unfold count_results. by rewrite filter_app, length_app. Qed.

Lemma count_results_one id e : count_results id [e] = if result_for id e then 1%nat else 0%nat.
Proof. unfold count_results. rewrite filter_cons, filter_nil. case_decide as Hd; destruct (result_for id e); done. Qed.

Ltac bal := unfold balanced_at, update_tool, push_event, with_events, with_tools; cbn [events tools].

(** Changes that touch neither the events nor the tools. *)
Lemma balanced_same c c' : events c' = events c → tools c' = tools c → balanced c c'.
Proof. intros He Ht. split; [by rewrite Ht|]. intros id. unfold balanced_at. by rewrite He, Ht. Qed.

Lemma push_other_balanced e c : (∀ id, result_for id e = false) → balanced c (push_event e c).
Proof.
  intros He. split; [done|]. intros id. bal. rewrite count_results_app, count_results_one, He. lia.
Qed.

Lemma resolved_count_update ts id g id' :
  (∀ t, tr_id (g t) = tr_id t) →
  resolved_count (ToolManager.update ts id g) id' =
    if decide (id = id') then
      match ToolManager.get ts id with Some t => if is_resolved (g t) then 1%nat else 0%nat | None => 0%nat end
    else resolved_count ts id'.
Proof.
  intros Hg. unfold resolved_count. rewrite get_update by done. case_decide; [|done].
  by destruct (ToolManager.get ts id).
Qed.

Lemma update_same_balanced id g c :
  (∀ t, tr_id (g t) = tr_id t) → (∀ t, ToolManager.get (tools c) id = Some t → is_resolved (g t) = is_resolved t) →
  balanced c (update_tool id g c).
Proof.
  intros Hid Hg. split; [by apply ids_update|]. intros id'. bal. rewrite resolved_count_update by done. case_decide; subst; [|done].
  unfold resolved_count. destruct (ToolManager.get _ _) as [t|] eqn:E; [|done]. by rewrite Hg.
Qed.

Lemma unresolved_spec c id t : unresolved c id = Some t ↔ ToolManager.get (tools c) id = Some t ∧ is_resolved t = false.
Proof.
  unfold unresolved. destruct (ToolManager.get _ _) as [t'|]; [|naive_solver].
  destruct (is_resolved t') eqn:E; split; [done|intros [[= <-] ?]; congruence|by intros [= <-]|by intros [[= <-] _]].
Qed.

Lemma resolve_balanced id g e c t :
  unresolved c id = Some t → (∀ t, tr_id (g t) = tr_id t) → is_resolved (g t) = true →
  (∀ id', result_for id' e = bool_decide (id = id')) →
  balanced c (push_event e (update_tool id g c)).
Proof.
  intros [Ht Hr]%unresolved_spec Hid Hg He. split; [by apply ids_update|]. intros id'. bal.
  rewrite count_results_app, count_results_one, He, resolved_count_update by done.
  unfold resolved_count. case_bool_decide; subst.
  - rewrite decide_True, Ht, Hr, Hg by done. lia.
  - rewrite decide_False by done. lia.
Qed.

Lemma commit_balanced c : balanced c (commit_streaming_text c).
Proof.
  unfold commit_streaming_text. case_decide; [by apply balanced_same|].
  etrans; [|by apply push_other_balanced]. by apply balanced_same.
Qed.

Lemma commit_cancelled_balanced c : balanced c (commit_streaming_text_as_cancelled c).
Proof.
  unfold commit_streaming_text_as_cancelled. case_decide; [by apply balanced_same|].
  etrans; [|by apply push_other_balanced]. by apply balanced_same.
Qed.

Lemma check_turn_completion_balanced f : balanced (ctx f) (ctx (check_turn_completion f).1).
Proof.
  unfold check_turn_completion. destruct (state f) as [|[| |]|]; try done.
  destruct (ToolManager.all_resolved _ _); [|done].
  destruct (current_turn_tool_ids (ctx f)); [done|]. by apply balanced_same.
Qed.

Lemma begin_execution_balanced f id t :
  unresolved (ctx f) id = Some t → balanced (ctx f) (ctx (begin_execution f id t).1).
Proof.
  intros Hu. transitivity (update_tool id (set_state Executing) (ctx f)).
  - apply unresolved_spec in Hu as [Ht Hr]. apply update_same_balanced; [done|]. intros t' Ht'. by simplify_eq.
  - unfold begin_execution, emit_execute_tool. destruct (tr_tool t); by apply balanced_same.
Qed.

Lemma deny_balanced f id t content : unresolved (ctx f) id = Some t → balanced (ctx f) (ctx (deny f id content).1).
Proof.
  intros Hu. unfold deny. etrans; [|apply check_turn_completion_balanced]. by eapply resolve_balanced.
Qed.

Lemma permission_resolved_balanced f id r : balanced (ctx f) (ctx (handle_permission_resolved f id r).1).
Proof.
  unfold handle_permission_resolved. destruct (unresolved _ _) as [t|] eqn:E; [|done].
  destruct r; [by apply begin_execution_balanced|by eapply deny_balanced| |by apply begin_execution_balanced].
  apply unresolved_spec in E as [Ht Hr]. apply update_same_balanced; [done|]. intros t' Ht'. by simplify_eq.
Qed.

Lemma permission_choice_balanced cwd f id ch : balanced (ctx f) (ctx (handle_permission_choice cwd f id ch).1).
Proof.
  unfold handle_permission_choice. destruct (unresolved _ _) as [t|] eqn:E; [|done].
  pose proof (begin_execution_balanced _ _ _ E). destruct (begin_execution _ _ _) as [f' eff].
  destruct ch; try done. by eapply deny_balanced.
Qed.

Lemma tool_done_balanced f id o p : balanced (ctx f) (ctx (handle_tool_done f id o p).1).
Proof.
  unfold handle_tool_done. destruct (unresolved _ _) as [t|] eqn:E; [|done].
  etrans; [|apply check_turn_completion_balanced]. unfold with_ctx; cbn [ctx].
  match goal with |- balanced _ (push_event ?e (with_timeouts _ _ (update_tool _ ?g _))) =>
    transitivity (push_event e (update_tool id g (ctx f))) end; [by eapply resolve_balanced|by apply balanced_same].
Qed.

Lemma timeout_balanced f tid id f' eff :
  handle_tool_execution_timeout f tid id = Some (f', eff) → balanced (ctx f) (ctx f').
Proof.
  unfold handle_tool_execution_timeout. destruct (_ !! tid); [|by intros [= <- <-]].
  destruct (unresolved _ id) as [t|]; [|intros [= <- <-]; by apply balanced_same].
  destruct (tr_tool t); try done. intros [= <- <-]. etrans; [|by apply update_same_balanced]. by apply balanced_same.
Qed.

Lemma interrupt_balanced ids c : balanced c (foldl interrupt_tool c ids).
Proof.
  revert c. induction ids as [|id ids IH]; intros c; [done|]. cbn [foldl]. etrans; [|apply IH].
  transitivity (update_tool id (set_interrupt (Some IUser)) c); [by apply update_same_balanced|by apply balanced_same].
Qed.

(** Cancelling tools that are distinct and unresolved. *)
Lemma cancel_tools_balanced ids acc :
  NoDup ids → (∀ id, id ∈ ids → is_Some (unresolved acc.1 id)) → balanced acc.1 (foldl cancel_tool acc ids).1.
Proof.
  revert acc. induction ids as [|id ids IH]; intros [c eff] Hnd Hu; [done|]. apply NoDup_cons in Hnd as [Hid Hnd].
  cbn [fst] in *. destruct (Hu id) as [t Ht]; [by left|]. cbn [foldl]. etrans; [|apply IH; [done|]]; cbn [cancel_tool fst].
  - by eapply resolve_balanced.
  - intros id' Hid'. destruct (Hu id') as [t' Ht']; [by right|]. exists t'. apply unresolved_spec in Ht' as [? ?].
    apply unresolved_spec. unfold push_event, update_tool, with_events, with_tools; cbn [tools]. rewrite get_update by done. rewrite decide_False; [done|]. intros ->. done.
Qed.

Lemma cancel_turn_balanced stream c : NoDup (tr_id <$> tools c) → balanced c (ctx (cancel_turn stream c).1).
Proof.
  intros Hnd. unfold cancel_turn. set (eff := match stream with Done => _ | _ => _ end).
  pose proof (cancel_tools_balanced (ToolManager.pending_ids (tools c)) (c, eff)) as Hb.
  destruct (foldl _ _ _) as [c' eff']. cbn [fst ctx] in *. etrans; [apply Hb|].
  - apply NoDup_fmap_filter. done.
  - intros id Hid. apply elem_of_pending in Hid as (t & ? & ?); [|done]. exists t. by apply unresolved_spec.
  - etrans; [apply commit_cancelled_balanced|].
    destruct (ToolManager.pending_ids _); [by apply balanced_same|].
    transitivity (push_event (SystemContext CANCELLED_CONTEXT) (commit_streaming_text_as_cancelled c'));
      [by apply push_other_balanced|by apply balanced_same].
Qed.
End results.

Section balance.
Context `{Json, ToolLib}.
Context (cwd : option string).

(** The tool calls and results that come from the server carry ids of its choice. *)
Definition introduces (e : Event) : option string :=
  match e with
  | StreamServerToolResult id _ _ _ _ => Some id
  | StreamToolCall id _ _ => Some id
  | _ => None
  end.

Lemma tool_call_balance id name input f :
  let f' := (handle_stream_tool_call id name input f).1 in
  (∀ id', id' ≠ id → balanced_at (ctx f) (ctx f') id') ∧
  (tr_id <$> tools (ctx f') = tr_id <$> tools (ctx f) ∨
   tr_id <$> tools (ctx f') = (tr_id <$> tools (ctx f)) ++ [id] ∧
   count_results id (events (ctx f')) = count_results id (events (ctx f)) ∧
   (ToolManager.get (tools (ctx f)) id = None → resolved_count (tools (ctx f')) id = O)).
Proof.
  assert (∀ content f, let c' := push_event (error_result id content) (push_event (ToolCall id name input) (ctx f)) in
    ∀ id', id' ≠ id → balanced_at (ctx f) c' id') as Href.
  { intros content g c' id' Hn. unfold c', balanced_at, push_event, with_events. cbn [events tools].
    rewrite !count_results_app, !count_results_one. cbn [result_for error_result]. rewrite bool_decide_false by done. lia. }
  unfold handle_stream_tool_call. destruct (try_from name input) as [tool|err]; [destruct (_ ≫= _) as [cap|]|]; cbn [fst ctx].
  - split; [|by left]. intros id' Hn. by apply (Href _ f).
  - unfold push_event, with_events, with_turn_ids, with_tools, ToolManager.insert; cbn [events tools]. split.
    + intros id' Hn. unfold balanced_at; cbn [events tools]. rewrite count_results_app, count_results_one; cbn [result_for].
      unfold resolved_count. rewrite (get_insert (tools (ctx f)) id tool). destruct (ToolManager.get _ id'); [lia|].
      rewrite decide_False by done. lia.
    + right. rewrite fmap_app, count_results_app, count_results_one. split_and!; [done|cbn; lia|]. intros Hg.
      unfold resolved_count. rewrite (get_insert (tools (ctx f)) id tool), Hg, decide_True by done. done.
  - split; [|by left]. intros id' Hn. by apply (Href _ f).
Qed.

Lemma handle_idle_balanced conf c e f' eff :
  handle_idle conf c e = Some (Some (f', eff)) →
  balanced c (ctx f') ∨ (e = NewSession ∧ tools (ctx f') = tools c ∧ ∀ id, count_results id (events (ctx f')) = O).
Proof.
  destruct e; cbn [handle_idle fresh_timeout model_selected]; try discriminate;
    repeat match goal with |- context [match ?x with _ => _ end] => destruct x end; try discriminate.
  all: try (intros Ei; injection Ei as <- <-; left; by apply balanced_same).
  all: try (intros Ei; injection Ei as <- <-; left; split; [done|]; intros id; unfold balanced_at, start_turn, start_stream; cbn [ctx fst];
            unfold handle_slash_command, push_event, with_events, with_turn_ids, with_response, with_picker, with_model; cbn [events tools];
            rewrite count_results_app, count_results_one; cbn [result_for]; lia).
  all: unfold new_session; case_decide; intros Ei; try discriminate; injection Ei as <- <-; by right.
Qed.

Lemma handle_any_balanced f e : balanced (ctx f) (ctx (handle_any f e).1).
Proof.
  destruct e; try done; cbn [handle_any fst]; try (by apply push_other_balanced).
  - case_decide; [done|by apply balanced_same].
  - apply update_same_balanced; intros t; unfold set_output_command; by destruct (tr_tool t).
  - unfold model_list_loaded. destruct r; case_decide; try (by apply balanced_same). cbn [with_ctx ctx].
    etrans; [|by apply push_other_balanced]. by apply balanced_same.
Qed.

Lemma handle_turn_balanced stream c e f' eff :
  introduces e = None → NoDup (tr_id <$> tools c) →
  handle_turn cwd stream c e = Some (Some (f', eff)) → balanced c (ctx f').
Proof.
  assert (∀ r, Some (Some r) = Some (Some (f', eff)) → balanced c (ctx r.1) → balanced c (ctx f')) as Hr by (intros r [= ->]; done).
  intros Hi Hnd. set (f := mk_fsm (Turn stream) c).
  destruct e; cbn [handle_turn]; try discriminate; try (intros E; eapply Hr; [exact E|]; clear E).
  - by apply cancel_turn_balanced.
  - apply interrupt_balanced.
  - destruct stream; intros E; try discriminate. injection E as <- <-. done.
  - destruct stream; intros E; try discriminate. injection E as <- <-. by apply balanced_same.
  - destruct stream; intros E; try discriminate. injection E as <- <-. done.
  - etrans; [|apply check_turn_completion_balanced]. cbn [ctx]. etrans; [apply commit_balanced|].
    case_decide; [done|by apply balanced_same].
  - destruct stream; intros E; try discriminate; injection E as <- <-; by apply balanced_same.
  - cbn [ctx fst]. etrans; [apply commit_balanced|by apply push_other_balanced].
  - apply (permission_resolved_balanced f).
  - apply (permission_choice_balanced cwd f).
  - apply (tool_done_balanced f).
  - cbn [fst with_ctx ctx]. apply update_same_balanced; intros t; unfold update_preview.
    + destruct (is_resolved t); [|done]. by destruct (tr_preview t) as [[| |]|].
    + intros _. destruct (is_resolved t) eqn:E; [|done]. by destruct (tr_preview t) as [[| |]|].
  - intros E. injection E as E. by apply timeout_balanced in E.
Qed.
End balance.

(** ** Reachable states *)

Section reach.
Context `{Json, ToolLib}.
Context (cwd : option string).

(** The machine, every event its log has ever held, and the tool timeouts it has scheduled. *)
Record World : Type := mk_world {
  w_fsm : AgentFsm; w_log : list ConversationEvent; w_timers : list (Z * string)
}.

(** The events that a step added to the log. *)
Definition pushed (f : AgentFsm) (e : Event) (f' : AgentFsm) : list ConversationEvent :=
  match e, state f with
  | NewSession, Idle _ => events (ctx f')
  | _, _ => drop (length (events (ctx f))) (events (ctx f'))
  end.

Definition timers_of (eff : list Effect) : list (Z * string) :=
  omap (λ x, match x with ScheduleTimeout tid _ (ToolExecution id) => Some (tid, id) | _ => None end) eff.

(** The driver fires only timeouts that were scheduled, and the server gives each tool call an id it
    has not used. *)
Definition env_ok (w : World) (e : Event) : Prop :=
  (∀ tid id, e = ToolExecutionTimeout tid id → (tid, id) ∈ w_timers w) ∧
  (∀ id, introduces e = Some id → ToolManager.get (tools (ctx (w_fsm w))) id = None) ∧
  (∀ id name input, e = StreamToolCall id name input → count_results id (w_log w) = O).

Inductive reach : World → Prop :=
| reach_start evs sid caps inv view res last :
    (view ≤ length evs)%nat → reach (mk_world (from_session evs sid caps inv view res last) evs [])
| reach_step w e f' eff :
    reach w → env_ok w e → handle cwd (w_fsm w) e = Some (f', eff) →
    reach (mk_world f' (w_log w ++ pushed (w_fsm w) e f') (w_timers w ++ timers_of eff)).

Record world_ok (w : World) : Prop := mk_world_ok {
  wo_ids : NoDup (tr_id <$> tools (ctx (w_fsm w)));
  wo_answers id t : ToolManager.get (tools (ctx (w_fsm w))) id = Some t →
    count_results id (w_log w) = if is_resolved t then 1%nat else 0%nat;
  wo_view : (view_start_index (ctx (w_fsm w)) ≤ length (events (ctx (w_fsm w))))%nat;
  wo_timers tid id : (tid, id) ∈ w_timers w →
    ∃ t, ToolManager.get (tools (ctx (w_fsm w))) id = Some t ∧ kind_of_tool (tr_tool t) = 3%nat
}.

(** A panic comes from a view beyond the events or from a timeout of a tool that is not a shell
    command. *)
Lemma handle_panics f e :
  handle cwd f e = None →
  e = NewSession ∧ (length (events (ctx f)) < view_start_index (ctx f))%nat ∨
  ∃ tid id t, e = ToolExecutionTimeout tid id ∧ ToolManager.get (tools (ctx f)) id = Some t ∧
    kind_of_tool (tr_tool t) ≠ 3%nat.
Proof.
  unfold handle. set (c := match e with SessionIdReceived _ => _ | _ => _ end). destruct (state f) as [conf|stream|err].
  - destruct (handle_idle conf c e) as [r|] eqn:Ei; [|done]. intros ->. left. destruct e; cbn [handle_idle fresh_timeout model_selected] in Ei;
      repeat match type of Ei with context [match ?x with _ => _ end] => destruct x end; try discriminate.
    unfold new_session in Ei. case_decide; [done|]. split; [done|]. change c with (ctx f) in *. lia.
  - destruct (handle_turn cwd stream c e) as [r|] eqn:Ei; [|done]. intros ->. right.
    destruct e; cbn [handle_turn] in Ei; try (destruct stream); try discriminate; change c with (ctx f) in Ei;
      unfold handle_tool_execution_timeout in Ei; injection Ei as Ei; destruct (_ !! _); try discriminate;
      destruct (unresolved _ _) as [t|] eqn:Eu; try discriminate; apply unresolved_spec in Eu as [Hg _];
      exists timeout_id, tool_id, t; (split; [done|split; [exact Hg|]]); by destruct (tr_tool t).
  - destruct (handle_error err c e) as [r|] eqn:Ei; [|done]. intros ->. by destruct e.
Qed.

(** What the books say after a step of [f]: [log] grows by what was pushed. *)
Lemma pushed_count f e f' id :
  ctx_grows (ctx f) (ctx f') → (e = NewSession → ∀ conf, state f ≠ Idle conf) →
  (count_results id (events (ctx f)) + count_results id (pushed f e f'))%nat = count_results id (events (ctx f')).
Proof.
  intros [_ [k Hk] _] Hn. assert (pushed f e f' = k) as ->; [|by rewrite Hk, count_results_app].
  unfold pushed. rewrite Hk, drop_app_length. destruct e; try done. destruct (state f) eqn:E; try done.
  by exfalso; eapply Hn.
Qed.

(** A step that introduces no id of the server's. *)
Lemma handle_balanced f e f' eff :
  handle cwd f e = Some (f', eff) → introduces e = None → NoDup (tr_id <$> tools (ctx f)) →
  balanced (ctx f) (ctx f') ∧ (e = NewSession → ∀ conf, state f ≠ Idle conf) ∨
  tools (ctx f') = tools (ctx f) ∧ ∀ id, count_results id (pushed f e f') = O.
Proof.
  unfold handle. set (c := match e with SessionIdReceived _ => _ | _ => _ end). intros Hh Hi Hnd.
  assert (balanced (ctx f) c ∧ tools c = tools (ctx f)) as [Hc Ht] by (unfold c; destruct e; done || (split; [by apply balanced_same|done])).
  assert (Some (handle_any (with_ctx f c) e) = Some (f', eff) → balanced (ctx f) (ctx f')) as Hany.
  { intros [= E]. etrans; [exact Hc|]. pose proof (handle_any_balanced (with_ctx f c) e) as Hg. by rewrite E in Hg. }
  destruct (state f) as [conf|stream|err] eqn:Es.
  - destruct (handle_idle conf c e) as [r|] eqn:Ei.
    + subst r. pose proof Ei as Ei'. apply handle_idle_balanced in Ei as [Hg|(-> & Ht' & Hz)].
      * destruct (decide (is_Some (match e with NewSession => Some tt | _ => None end))) as [He|He].
        -- right. destruct e; try (by destruct He). cbn in Ei'. unfold new_session in Ei'. case_decide; [|done].
           injection Ei' as <- <-. split; [done|]. intros id. unfold pushed. by rewrite Es.
        -- left. split; [by etrans|]. intros ->. by destruct He.
      * right. split; [congruence|]. intros id. unfold pushed. rewrite Es. apply Hz.
    + left. split; [by apply Hany|]. by intros ->.
  - left. split; [|done]. destruct (handle_turn cwd stream c e) as [r|] eqn:Ei; [|by apply Hany]. subst r.
    apply handle_turn_balanced in Ei; [by etrans|done|by rewrite Ht].
  - left. split; [|done]. destruct (handle_error err c e) as [r|] eqn:Ei; [|by apply Hany]. subst r. etrans; [exact Hc|].
    destruct e; cbn in Ei; try discriminate; injection Ei as <- <-; done.
Qed.

(** A step that introduces the id [i]. *)
Lemma handle_introduces f e f' eff i :
  handle cwd f e = Some (f', eff) → introduces e = Some i →
  (∀ id, id ≠ i → balanced_at (ctx f) (ctx f') id) ∧
  (tr_id <$> tools (ctx f') = tr_id <$> tools (ctx f) ∨
   (∃ name input, e = StreamToolCall i name input) ∧
   tr_id <$> tools (ctx f') = (tr_id <$> tools (ctx f)) ++ [i] ∧
   count_results i (events (ctx f')) = count_results i (events (ctx f)) ∧
   (ToolManager.get (tools (ctx f)) i = None → resolved_count (tools (ctx f')) i = O)).
Proof.
  unfold handle. destruct e; intros Hh; try discriminate; cbn [introduces]; intros [= ->]; cbn [handle_idle handle_error] in Hh.
  - destruct (state f) as [|stream|]; cbn [handle_turn handle_any] in Hh; try (injection Hh as <- <-; by split; [|left]).
    injection Hh as Hh. pose proof (tool_call_balance i name input (mk_fsm (Turn stream) (commit_streaming_text (ctx f)))) as Hb.
    cbn zeta in Hb. unfold with_ctx in Hh; cbn [state] in Hh. rewrite Hh in Hb. cbn [fst ctx] in Hb.
    pose proof (commit_balanced (ctx f)) as [Hids Hcb]. rewrite Hids in Hb. destruct Hb as [Hother Hids'].
    assert (tools (commit_streaming_text (ctx f)) = tools (ctx f)) as Ht by (unfold commit_streaming_text; by case_decide).
    rewrite Ht in Hids'. split.
    + intros id Hn. specialize (Hother id Hn). specialize (Hcb id). unfold balanced_at in *. rewrite Ht in *. lia.
    + destruct Hids' as [?|(? & Hc & ?)]; [by left|right]. split_and!; [by eexists _, _|done| |done].
      rewrite Hc. specialize (Hcb i). unfold balanced_at in Hcb. rewrite Ht in Hcb. lia.
  - destruct (state f) as [|[| |]|]; cbn [handle_turn handle_any] in Hh; injection Hh as <- <-; cbn [with_ctx ctx];
      (split; [|by left]); try done.
    intros id Hn. unfold balanced_at, push_event, with_events; cbn [events tools].
    rewrite count_results_app, count_results_one; cbn [result_for]. rewrite bool_decide_false by done. lia.
Qed.

(** One step: a tool of [f] is answered exactly when the step resolves it, and a tool that is added is
    the one the event introduces, unanswered. *)
Lemma handle_books f e f' eff :
  handle cwd f e = Some (f', eff) → NoDup (tr_id <$> tools (ctx f)) →
  (∀ id, introduces e ≠ Some id →
     (count_results id (pushed f e f') + resolved_count (tools (ctx f)) id)%nat = resolved_count (tools (ctx f')) id) ∧
  (tr_id <$> tools (ctx f') = tr_id <$> tools (ctx f) ∨
   ∃ id name input, e = StreamToolCall id name input ∧
     tr_id <$> tools (ctx f') = (tr_id <$> tools (ctx f)) ++ [id] ∧ count_results id (pushed f e f') = O ∧
     (ToolManager.get (tools (ctx f)) id = None → resolved_count (tools (ctx f')) id = O)).
Proof.
  intros Hh Hnd. destruct (introduces e) as [i|] eqn:Hi.
  - assert (e = NewSession → ∀ conf, state f ≠ Idle conf) as Hne by (by intros ->).
    pose proof (handle_grows cwd f e f' eff Hh) as Hg.
    assert (ctx_grows (ctx f) (ctx f')) as Hgr.
    { destruct Hg as [Hg|[[He [conf Hc]] _]]; [done|]. by destruct (Hne He conf). }
    pose proof (λ id, pushed_count f e f' id Hgr Hne) as Hp.
    destruct (handle_introduces f e f' eff i Hh Hi) as [Hb Hids]. split.
    + intros id Hn. specialize (Hp id). specialize (Hb id). unfold balanced_at in Hb. lapply Hb; [lia|congruence].
    + destruct Hids as [?|((name & input & ->) & ? & Hc & ?)]; [by left|right]. exists i, name, input.
      split_and!; try done. specialize (Hp i). lia.
  - destruct (handle_balanced f e f' eff Hh Hi Hnd) as [[[Hids Hb] Hne]|[Ht Hz]].
    + split; [|by left]. intros id _. 
      destruct (handle_grows cwd f e f' eff Hh) as [Hg|[[He [conf Hc]] _]]; [|by destruct (Hne He conf)].
      specialize (Hb id). unfold balanced_at in Hb. pose proof (pushed_count f e f' id Hg Hne). lia.
    + rewrite Ht. split; [|by left]. intros id _. rewrite Hz. done.
Qed.

(** The timeouts a step schedules are those of shell commands that are tracked. *)
Lemma timers_of_shells f e f' eff tid id :
  handle cwd f e = Some (f', eff) → (tid, id) ∈ timers_of eff →
  ∃ t, ToolManager.get (tools (ctx f)) id = Some t ∧ kind_of_tool (tr_tool t) = 3%nat.
Proof.
  intros Hh (x & Hx & Ex)%list_elem_of_omap.
  assert (execution_of x = Some id ∧ ∀ c, x ≠ ExecuteTool id c) as [Hi Hn].
  { destruct x; try discriminate. destruct kind; try discriminate. by injection Ex as <- <-. }
  apply handle_execution in Hh as [Hq|(stream & id' & Hs & Hg & (t & [Hu Hr]%unresolved_spec & _ & Hst))].
  - apply Hq in Hx. congruence.
  - destruct (Hst x id Hx Hi) as [<- [->|[_ Hk]]]; [by destruct (Hn (tr_tool t))|]. by exists t.
Qed.

(** The books after a step from a world in order. *)
Lemma answers_step w e f' eff id t' :
  world_ok w → env_ok w e → handle cwd (w_fsm w) e = Some (f', eff) →
  ToolManager.get (tools (ctx f')) id = Some t' →
  count_results id (w_log w ++ pushed (w_fsm w) e f') = if is_resolved t' then 1%nat else 0%nat.
Proof.
  intros [Hnd Hans _ _] (_ & Hfresh & Hunused) Hh Ht'.
  destruct (handle_books (w_fsm w) e f' eff Hh Hnd) as [Hbooks Hids]. rewrite count_results_app.
  assert (resolved_count (tools (ctx f')) id = if is_resolved t' then 1%nat else 0%nat) as Hrc by (unfold resolved_count; by rewrite Ht').
  destruct (ToolManager.get (tools (ctx (w_fsm w))) id) as [t|] eqn:Ht.
  - rewrite (Hans id t Ht). rewrite <- Hrc, <- Hbooks.
    + unfold resolved_count. rewrite Ht. lia.
    + intros Hi. apply Hfresh in Hi. congruence.
  - assert (id ∈ tr_id <$> tools (ctx f')) as Hin by (apply get_Some in Ht' as [Hin <-]; by apply list_elem_of_fmap_2).
    pose proof Ht as Hnin. apply get_None in Hnin. destruct Hids as [Hids|(i & name & input & -> & Hids & Hp & Hz)]; rewrite Hids in Hin; [done|].
    apply elem_of_app in Hin as [Hin| ->%list_elem_of_singleton]; [done|]. rewrite (Hunused _ _ _ eq_refl), Hp, <- Hrc, Hz by done. done.
Qed.

(** Every reachable world is in order. *)
Lemma reach_ok w : reach w → world_ok w.
Proof.
  induction 1 as [evs sid caps inv view res last Hv|w e f' eff Hr IH (Htimer & Hfresh & Hunused) Hh].
  - split; cbn; [constructor|done|done|by intros tid id ?%not_elem_of_nil].
  - destruct w as [f log timers]; cbn [w_fsm w_log w_timers] in *.
    pose proof IH as [Hnd Hans Hview Htim]; cbn [w_fsm w_log w_timers] in *.
    destruct (handle_books f e f' eff Hh Hnd) as [Hbooks Hids].
    pose proof (handle_grows cwd f e f' eff Hh) as Hg.
    assert (tools_evolve (tools (ctx f)) (tools (ctx f'))) as Hev by (destruct Hg as [[Hev _ _]|[_ [Heq _]]]; [done|by rewrite Heq]).
    split; cbn [w_fsm w_log w_timers].
    + destruct Hids as [Hids|(id & name & input & -> & Hids & _)]; rewrite Hids; [done|]. apply NoDup_app. split_and!; [done| |apply NoDup_singleton].
      intros x Hx ->%list_elem_of_singleton. apply list_elem_of_fmap in Hx as (t & -> & Hx).
      pose proof (Hfresh (tr_id t) eq_refl) as Hn. by rewrite get_elem in Hn.
    + intros id t' Ht'. by eapply (answers_step (mk_world f log timers)).
    + destruct Hg as [[_ [k Hk] Hv]|[_ [_ Hv]]]; rewrite Hv, ?Hk, ?length_app; lia.
    + intros tid id Hin.
      assert (∃ t, ToolManager.get (tools (ctx f)) id = Some t ∧ kind_of_tool (tr_tool t) = 3%nat) as (t & Ht & Hk).
      { apply elem_of_app in Hin as [Hin|Hin]; [by eapply Htim|by eapply timers_of_shells]. }
      destruct (Hev id t Ht) as (t' & Ht' & _ & Hk' & _). exists t'. split; [done|congruence].
Qed.
End reach.
