(* ===== verification/AgentProps.v ===== *)
(** * What the agent's state machine promises

    Theorems on [AgentFsm.handle]: the books of tool calls and results over every reachable state, what
    may run a tool or a command, that a turn whose tools have all reported goes back to the server, and
    two places where the machine does not do what it means to. *)
From S2P Require Import Prelude Text Filter Json History AiTools Permissions Conversation AgentFsm.
Import ToolLemmas.

Section props.
Context `{Json, ToolLib}.
Context (cwd : option string).

(** C9: In every reachable state of the agent the tool ids are distinct, the log has held exactly one
    result for a tool that is resolved and none for one that is not, and no event that the driver and
    the server can produce makes [handle] panic. *)
Theorem agent_invariant w :
  reach cwd w →
  NoDup (tr_id <$> tools (ctx (w_fsm w))) ∧
  (∀ id t, ToolManager.get (tools (ctx (w_fsm w))) id = Some t →
     count_results id (w_log w) = if is_resolved t then 1%nat else 0%nat) ∧
  (∀ e, env_ok w e → is_Some (handle cwd (w_fsm w) e)).
Proof.
  intros [Hnd Hans Hview Htim]%reach_ok. split_and!; [done|done|]. intros e (Ht & _ & _).
  destruct (handle cwd (w_fsm w) e) as [r|] eqn:Hh; [by exists r|].
  apply handle_panics in Hh as [[_ Hv]|(tid & id & t & He & Hg & Hk)]; [lia|].
  destruct (Htim tid id (Ht tid id He)) as (t' & Hg' & Hk'). congruence.
Qed.

(** A step of a turn neither leaves the program nor asks for a confirmation. *)
Definition stays (x : Effect) : Prop := match x with ExitApp _ => False | _ => True end.

Definition calm (r : AgentFsm * list Effect) : Prop :=
  Forall stays r.2 ∧ ∀ p, state r.1 ≠ Idle (Some p).

Lemma check_turn_completion_calm f : (∀ p, state f ≠ Idle (Some p)) → calm (check_turn_completion f).
Proof.
  intros Hf. assert (calm (f, [])) as Hc by by split. unfold check_turn_completion.
  destruct (state f) as [|[| |]|]; try done. destruct (ToolManager.all_resolved _ _); [|done].
  destruct (current_turn_tool_ids (ctx f)); split; cbn; repeat constructor; done.
Qed.

Lemma begin_execution_calm f id t : (∀ p, state f ≠ Idle (Some p)) → calm (begin_execution f id t).
Proof.
  intros Hf. unfold begin_execution, emit_execute_tool. destruct (tr_tool t); split; cbn; repeat constructor; done.
Qed.

Lemma permission_resolved_calm f id r : (∀ p, state f ≠ Idle (Some p)) → calm (handle_permission_resolved f id r).
Proof.
  intros Hf. unfold handle_permission_resolved. destruct (unresolved _ _) as [t|]; [|by split].
  destruct r; [by apply begin_execution_calm|by apply check_turn_completion_calm|by split|by apply begin_execution_calm].
Qed.

Lemma permission_choice_calm f id ch : (∀ p, state f ≠ Idle (Some p)) → calm (handle_permission_choice cwd f id ch).
Proof.
  intros Hf. unfold handle_permission_choice. destruct (unresolved _ _) as [t|]; [|by split].
  pose proof (begin_execution_calm f id t Hf) as [He Hs]. destruct (begin_execution f id t) as [f' eff]; cbn [fst snd] in *.
  destruct ch; [done| | | |by apply check_turn_completion_calm]; (split; [|done]); cbn [snd]; apply Forall_app; (split; [done|]).
  - destruct (resolved_file_path _ _); by repeat constructor.
  - by repeat constructor.
  - by repeat constructor.
Qed.

Lemma tool_call_calm id name input f :
  (∀ p, state f ≠ Idle (Some p)) → calm (handle_stream_tool_call id name input f).
Proof.
  intros Hf. unfold handle_stream_tool_call. destruct (try_from name input) as [tool|err]; [|by split].
  destruct (_ ≫= _); [by split|]. split; cbn.
  - apply Forall_app. split; [by destruct tool; repeat constructor|by repeat constructor].
  - intros p. specialize (Hf p). by destruct (state f) as [|[| |]|].
Qed.

Lemma cancel_tools_stay ids acc : Forall stays acc.2 → Forall stays (foldl cancel_tool acc ids).2.
Proof.
  revert acc. induction ids as [|id ids IH]; intros [c eff] Hs; [done|]. cbn [foldl]. apply IH. cbn.
  apply Forall_app. split; [done|]. destruct (ToolManager.get _ _); [case_decide|]; by repeat constructor.
Qed.

Lemma cancel_turn_calm stream c : calm (cancel_turn stream c).
Proof.
  unfold cancel_turn. set (eff := match stream with Done => _ | _ => _ end).
  pose proof (cancel_tools_stay (ToolManager.pending_ids (tools c)) (c, eff)) as Hs. destruct (foldl _ _ _) as [c' eff'].
  split; [|done]. cbn. apply Forall_app. split; [|by repeat constructor]. apply Hs. unfold eff. destruct stream; by repeat constructor.
Qed.

Lemma timeout_calm f tid id r :
  (∀ p, state f ≠ Idle (Some p)) → handle_tool_execution_timeout f tid id = Some r → calm r.
Proof.
  intros Hf. unfold handle_tool_execution_timeout. destruct (_ !! tid); [|by intros [= <-]].
  destruct (unresolved _ id) as [t|]; [|by intros [= <-]]. destruct (tr_tool t); try done.
  intros [= <-]. split; [by repeat constructor|done].
Qed.

Lemma handle_turn_calm stream c e r : handle_turn cwd stream c e = Some (Some r) → calm r.
Proof.
  assert (∀ p, state (mk_fsm (Turn stream) c) ≠ Idle (Some p)) as Hf by done.
  assert (∀ ids, Forall stays (AbortTool <$> ids)) as Ha.
  { intros ids. apply Forall_fmap, Forall_true. done. }
  destruct e; cbn [handle_turn]; try discriminate;
    try (destruct stream; intros E; try discriminate; injection E as <-; (split; [|done]); cbn [snd]; (apply Ha || by repeat constructor));
    intros E; injection E as E; try subst r.
  - apply cancel_turn_calm.
  - by apply tool_call_calm.
  - by apply check_turn_completion_calm.
  - by apply permission_resolved_calm.
  - by apply permission_choice_calm.
  - unfold handle_tool_done. destruct (unresolved _ _); [|by split]. by apply check_turn_completion_calm.
  - by eapply timeout_calm.
Qed.

Lemma handle_any_calm f e : Forall stays (handle_any f e).2 ∧ state (handle_any f e).1 = state f.
Proof. destruct e; cbn; try case_decide; split; repeat constructor; done. Qed.

Lemma handle_idle_execute conf c e f' eff :
  handle_idle conf c e = Some (Some (f', eff)) →
  (∀ cmd, ExitApp (Execute cmd) ∈ eff → e = ExecuteCommand ∧
     match conf with
     | Some p => pc_command p = cmd
     | None => current_command c = Some cmd ∧ is_current_command_dangerous c = false
     end) ∧
  (∀ p, state f' = Idle (Some p) → conf = Some p ∨
     conf = None ∧ e = ExecuteCommand ∧ current_command c = Some (pc_command p) ∧ is_current_command_dangerous c = true).
Proof.
  destruct e; cbn [handle_idle fresh_timeout model_selected]; try discriminate.
  all: repeat match goal with
    | |- context [match ?x with _ => _ end = Some (Some _)] => destruct x eqn:?
    | |- context [new_session] => unfold new_session; case_decide
    end; try discriminate.
  all: intros Ei; injection Ei as <- <-; split; cbn; intros ? Hx; try destruct (current_command c); set_unfold; naive_solver.
Qed.

(** C10: A tool is executed only during a turn, in answer to its own permission (allowed by the rules or
    the session, or chosen by the user), while it is tracked and unresolved; it is executed with the
    call that was tracked, and is then marked as executing. *)
Theorem tools_run_only_when_permitted f e f' eff id tool :
  handle cwd f e = Some (f', eff) → ExecuteTool id tool ∈ eff →
  (∃ stream, state f = Turn stream) ∧ grants e id ∧
  ∃ t, ToolManager.get (tools (ctx f)) id = Some t ∧ is_resolved t = false ∧ tr_tool t = tool ∧
    ToolManager.get (tools (ctx f')) id = Some (set_state Executing t).
Proof.
  intros Hh Hx. apply handle_execution in Hh as [Hq|(stream & id' & Hs & Hg & t & [Ht Hr]%unresolved_spec & Hu & Hst)].
  - by apply Hq in Hx.
  - destruct (Hst _ id Hx eq_refl) as [-> Hk]. split; [by exists stream|split; [done|]]. exists t.
    split_and!; [done|done| |by rewrite Hu, get_update, decide_True, Ht].
    by destruct Hk as [[= ->]|[(tid & d & ?) _]].
Qed.

(** The program leaves to run a command only on [ExecuteCommand] in the idle state, and then either
    runs the current command, which the latest suggestion does not call dangerous, or the command of the
    confirmation that is pending; and a confirmation is pending only after an [ExecuteCommand] that
    found the current command to be that one and dangerous. *)
Theorem command_runs_confirmed f e f' eff :
  handle cwd f e = Some (f', eff) →
  (∀ cmd, ExitApp (Execute cmd) ∈ eff → e = ExecuteCommand ∧ ∃ conf, state f = Idle conf ∧
     match conf with
     | Some p => pc_command p = cmd
     | None => current_command (ctx f) = Some cmd ∧ is_current_command_dangerous (ctx f) = false
     end) ∧
  (∀ p, state f' = Idle (Some p) → state f = Idle (Some p) ∨
     state f = Idle None ∧ e = ExecuteCommand ∧ current_command (ctx f) = Some (pc_command p) ∧
     is_current_command_dangerous (ctx f) = true).
Proof.
  unfold handle. set (c := match e with SessionIdReceived _ => _ | _ => _ end).
  assert (∀ r : AgentFsm * list Effect, Forall stays r.2 → ∀ cmd, ExitApp (Execute cmd) ∈ r.2 → False) as Hno.
  { intros r Hs cmd Hx. eapply Forall_forall in Hs; [|exact Hx]. done. }
  assert (Some (handle_any (with_ctx f c) e) = Some (f', eff) →
          (∀ cmd, ExitApp (Execute cmd) ∈ eff → False) ∧ state f' = state f) as Hany.
  { intros [= Hh]. destruct (handle_any_calm (with_ctx f c) e) as [Hs Hst]. rewrite Hh in Hs, Hst. by split; [apply (Hno (f', eff))|]. }
  destruct (state f) as [conf|stream|err].
  - destruct (handle_idle conf c e) as [r|] eqn:Ei; [intros ->|intros [Hx Hst]%Hany; rewrite Hst; naive_solver].
    apply handle_idle_execute in Ei as [Hx Hp]. split.
    + intros cmd Hin. destruct (Hx cmd Hin) as [-> Hc]. split; [done|]. by exists conf.
    + intros p Hs. destruct (Hp p Hs) as [->|(-> & -> & Hc)]; [by left|by right].
  - destruct (handle_turn cwd stream c e) as [r|] eqn:Ei; [intros ->|intros [Hx Hst]%Hany; rewrite Hst; naive_solver].
    apply handle_turn_calm in Ei as [Hs Hst]. split; [intros cmd Hin; by destruct (Hno _ Hs cmd)|intros p Hp; by destruct (Hst p)].
  - destruct (handle_error err c e) as [r|] eqn:Ei; [intros ->|intros [Hx Hst]%Hany; rewrite Hst; naive_solver].
    destruct e; cbn in Ei; try discriminate; injection Ei as <- <-; (split; [intros cmd Hin; set_unfold; naive_solver|done]).
Qed.

(** The machine over a list of events, and what it asks of the driver on the way. *)
Fixpoint run (f : AgentFsm) (es : list Event) : option (AgentFsm * list Effect) :=
  match es with
  | [] => Some (f, [])
  | e :: es =>
      match handle cwd f e with
      | Some (f1, eff1) => match run f1 es with Some (f2, eff2) => Some (f2, eff1 ++ eff2) | None => None end
      | None => None
      end
  end.

(** What a report of a tool leaves in the log. *)
Definition report_of (c : AgentContext) (d : string * ToolOutcome * option ToolPreviewData) : ConversationEvent :=
  let '(id, outcome, _) := d in
  let reason := match ToolManager.get (tools c) id ≫= tr_interrupt with
                | Some r => Some r
                | None => match outcome with Structured _ _ _ _ true => Some IUser | _ => None end
                end in
  ToolResult id (format_for_llm outcome reason) (is_error outcome) false None.

Definition report (d : string * ToolOutcome * option ToolPreviewData) : Event :=
  let '(id, outcome, preview) := d in ToolExecutionDone id outcome preview.

Lemma all_resolved_spec c ids :
  ToolManager.all_resolved (tools c) ids = true ↔ ∀ id, id ∈ ids → unresolved c id = None.
Proof.
  unfold ToolManager.all_resolved. rewrite forallb_forall. unfold unresolved.
  setoid_rewrite <- list_elem_of_In. apply forall_proper; intros id. destruct (ToolManager.get _ _) as [t|]; [|naive_solver].
  destruct (is_resolved t); naive_solver.
Qed.

(** The context after the report of an unresolved tool. *)
Lemma tool_done_step f id o p t :
  unresolved (ctx f) id = Some t →
  ∃ c', handle_tool_done f id o p = check_turn_completion (with_ctx f c') ∧
    events c' = events (ctx f) ++ [report_of (ctx f) (id, o, p)] ∧
    current_turn_tool_ids c' = current_turn_tool_ids (ctx f) ∧ session_id c' = session_id (ctx f) ∧
    (∀ id', unresolved c' id' = if decide (id = id') then None else unresolved (ctx f) id') ∧
    (∀ id', id ≠ id' → ToolManager.get (tools c') id' = ToolManager.get (tools (ctx f)) id').
Proof.
  intros Hu. unfold handle_tool_done. rewrite Hu. eexists. split; [reflexivity|].
  unfold push_event, with_events, with_timeouts, update_tool, with_tools, report_of; cbn [events current_turn_tool_ids session_id tools].
  apply unresolved_spec in Hu as [Hg Hr]. rewrite Hg. cbn [mbind option_bind]. split_and!; [done..| |].
  - intros id'. unfold unresolved. cbn [tools]. rewrite get_update by done. case_decide; [|done]. by rewrite Hg.
  - intros id' Hn. rewrite get_update by done. by rewrite decide_False.
Qed.

(** C28: When the stream of a turn has ended, the reports of the tools that the turn still waits for, in
    whatever order they come, append each result to the log once and, with the last of them, send the
    conversation back to the server; nothing is asked of the driver before. *)
Theorem turn_completes f dones :
  state f = Turn Done → dones ≠ [] → NoDup (fst ∘ fst <$> dones) →
  (∀ id, id ∈ (fst ∘ fst <$> dones) ↔ id ∈ current_turn_tool_ids (ctx f) ∧ is_Some (unresolved (ctx f) id)) →
  ∃ c', run f (report <$> dones) = Some (mk_fsm (Turn Connecting) c', [StartStream (build_messages c') (session_id c')]) ∧
    events c' = events (ctx f) ++ (report_of (ctx f) <$> dones) ∧
    current_turn_tool_ids c' = [] ∧ session_id c' = session_id (ctx f).
Proof.
  revert f. induction dones as [|[[id o] p] dones IH]; intros f Hs Hne Hnd Hids; [done|].
  rewrite fmap_cons in Hnd, Hids. cbn [compose fst] in Hnd, Hids. apply NoDup_cons in Hnd as [Hid Hnd].
  destruct (proj1 (Hids id)) as [Hturn [t Ht]]; [by left|].
  destruct (tool_done_step f id o p t Ht) as (c1 & Hdone & Hev & Hcur & Hses & Hun & Hget).
  assert (handle cwd f (ToolExecutionDone id o p) = Some (check_turn_completion (with_ctx f c1))) as Hh.
  { unfold handle. rewrite Hs. cbn [handle_turn]. rewrite <- Hdone. destruct f as [st c]. cbn in Hs. by rewrite Hs. }
  rewrite fmap_cons. cbn [report run]. rewrite Hh.
  assert (∀ id', id' ∈ (fst ∘ fst <$> dones) ↔ id' ∈ current_turn_tool_ids c1 ∧ is_Some (unresolved c1 id')) as Hids1.
  { intros id'. rewrite Hcur, Hun. specialize (Hids id'). rewrite elem_of_cons in Hids. case_decide; subst.
    - split; [done|by intros [_ [? ?]]].
    - naive_solver. }
  unfold check_turn_completion. cbn [with_ctx state ctx]. rewrite Hs.
  destruct dones as [|d dones].
  - rewrite (proj2 (all_resolved_spec c1 _)).
    + rewrite Hcur. destruct (current_turn_tool_ids (ctx f)) as [|i0 ids0] eqn:Eids; [by apply not_elem_of_nil in Hturn|].
      exists (with_response "" (with_turn_ids [] c1)). split; [done|].
      unfold with_response, with_turn_ids; cbn [events current_turn_tool_ids session_id]. by rewrite Hev, Hses.
    + intros id' Hin. destruct (unresolved c1 id') as [t'|] eqn:E; [|done].
      exfalso. apply (not_elem_of_nil id'). apply (Hids1 id'). by rewrite E.
  - destruct (ToolManager.all_resolved _ _) eqn:Ea.
    { destruct (proj1 (Hids1 (fst (fst d)))) as [Hin [t' Ht']]; [by left|]. eapply all_resolved_spec in Ea; [|exact Hin]. congruence. }
    destruct (IH (with_ctx f c1)) as (c' & Hrun & Hev' & Hcur' & Hses'); [done|done|done|exact Hids1|].
    rewrite Hrun. exists c'. split_and!; [done| |done|by rewrite Hses'].
    rewrite Hev'. cbn [with_ctx ctx]. rewrite Hev, (fmap_cons _ (id, o, p)), <- app_assoc. f_equal. cbn [app]. f_equal.
    apply list_fmap_ext. intros i [[id' o'] p'] Hi. unfold report_of. rewrite Hget; [done|]. intros ->.
    apply Hid. apply list_elem_of_lookup_2 in Hi. by apply (list_elem_of_fmap_2 (fst ∘ fst)) in Hi.
Qed.

(** A stream that fails while a tool executes strands the tool: its report, which comes in the error
    state, is dropped, so after a retry whose stream ends well the turn waits for a tool that has
    already reported, and the log, which the retry sent to the server, has no result for it. *)
Theorem stream_error_strands_tool f status id t err o p sid :
  state f = Turn (Streaming status) → ToolManager.get (tools (ctx f)) id = Some t → tr_state t = Executing →
  id ∈ current_turn_tool_ids (ctx f) →
  ∃ c' aborts, run f [StreamError err; ToolExecutionDone id o p; Retry; StreamStarted; StreamDone sid] =
      Some (mk_fsm (Turn Done) c', aborts ++ [StartStream (build_messages (ctx f)) (session_id (ctx f))]) ∧
    id ∈ current_turn_tool_ids c' ∧ unresolved c' id = Some t ∧
    count_results id (events c') = count_results id (events (ctx f)).
Proof.
  intros Hs Hg Ht Hin. set (c := commit_streaming_text (with_timeouts ∅ (next_timeout_id (ctx f)) (ctx f))).
  set (c' := if decide (sid = "") then c else with_session (Some sid) c).
  assert (tools c' = tools (ctx f) ∧ current_turn_tool_ids c' = current_turn_tool_ids (ctx f)) as [Htools Hturn].
  { unfold c', c, commit_streaming_text. by repeat case_decide. }
  assert (unresolved c' id = Some t) as Hu.
  { apply unresolved_spec. rewrite Htools. split; [done|]. unfold is_resolved. by rewrite Ht. }
  exists c', (AbortTool <$> ToolManager.executing_ids (tools (ctx f))). split_and!; [|by rewrite Hturn|done|].
  - set (c0 := with_timeouts ∅ (next_timeout_id (ctx f)) (ctx f)). set (aborts := AbortTool <$> _).
    assert (handle cwd f (StreamError err) = Some (mk_fsm (SError err) c0, aborts)) as H1.
    { unfold handle. by rewrite Hs. }
    assert (handle cwd (mk_fsm (SError err) c0) (ToolExecutionDone id o p) = Some (mk_fsm (SError err) c0, [])) as H2 by done.
    assert (handle cwd (mk_fsm (SError err) c0) Retry =
            Some (mk_fsm (Turn Connecting) c0, [StartStream (build_messages (ctx f)) (session_id (ctx f))])) as H3 by done.
    assert (handle cwd (mk_fsm (Turn Connecting) c0) StreamStarted = Some (mk_fsm (Turn (Streaming None)) c0, [])) as H4 by done.
    assert (handle cwd (mk_fsm (Turn (Streaming None)) c0) (StreamDone sid) = Some (mk_fsm (Turn Done) c', [])) as H5.
    { change (Some (check_turn_completion (mk_fsm (Turn Done) c')) = Some (mk_fsm (Turn Done) c', [])).
      unfold check_turn_completion; cbn [state ctx]. destruct (ToolManager.all_resolved _ _) eqn:Ea; [|done].
      eapply all_resolved_spec in Ea; [|by rewrite Hturn]. congruence. }
    cbn [run]. rewrite H1, H2, H3, H4, H5. done.
  - pose proof (commit_balanced (with_timeouts ∅ (next_timeout_id (ctx f)) (ctx f))) as [_ Hb]. specialize (Hb id).
    unfold balanced_at in Hb. fold c in Hb. assert (events c' = events c ∧ tools c = tools (ctx f)) as [-> Hc].
    { unfold c', c, commit_streaming_text. by repeat case_decide. }
    rewrite Hc in Hb. cbn [with_timeouts events tools] in Hb. lia.
Qed.
End props.

(** ** Concrete runs *)

Module Demo.

Definition ls : ShellToolCall := mk_shell None "ls" "bash" 30 None.

(** A turn in which the server has called the shell, the tool in state [st]. *)
Definition in_turn (phase : StreamPhase) (st : ToolState) : AgentFsm (H := toy_json) :=
  mk_fsm (Turn phase)
    (mk_ctx (H := toy_json)
       [UserMessage "list"; ToolCall (H := toy_json) "t1" "execute_shell_command" (JObj [("command", JStr "ls")])]
       None "" [mk_tracked "t1" (CShell ls) st None None] ["t1"%string] ∅ 0 ["client_v1_execute_shell_command"%string] "inv"
       None None None 0 false None []).

Definition finished : string * ToolOutcome * option ToolPreviewData := ("t1", Success "a.txt", None)%string.

(** A suggestion in the log. *)
Definition suggested (input : jtree) : AgentFsm (H := toy_json) :=
  from_session [ToolCall (H := toy_json) "s1" "suggest_command" input] None [] "inv" 0 false None.
End Demo.
Import Demo.

Lemma agent_invariant_witness :
  let w := mk_world (in_turn (Streaming None) CheckingPermission)
             (events (ctx (in_turn (Streaming None) CheckingPermission))) [] in
  count_results "t1" (w_log w) = 0%nat ∧ is_Some (handle (H0 := toy_tools) None (w_fsm w) Cancel).
Proof.
  intros w. assert (reach (H0 := toy_tools) None w) as Hw.
  { set (f0 := from_session (H := toy_json) [] None ["client_v1_execute_shell_command"%string] "inv" 0 false None).
    set (f1 := (start_turn "list" (ctx f0)).1).
    assert (reach (H0 := toy_tools) None (mk_world f0 [] [])) as H0 by (by apply reach_start).
    assert (reach (H0 := toy_tools) None (mk_world f1 (events (ctx f1)) [])) as H1.
    { apply (reach_step None _ (UserSubmit "list") f1 (start_turn "list" (ctx f0)).2 H0); [by split_and!|reflexivity]. }
    assert (reach (H0 := toy_tools) None (mk_world (mk_fsm (Turn (Streaming None)) (ctx f1)) (events (ctx f1)) [])) as H2.
    { apply (reach_step None _ StreamStarted (mk_fsm (Turn (Streaming None)) (ctx f1)) [] H1); [by split_and!|reflexivity]. }
    apply (reach_step (H := toy_json) None _ (StreamToolCall (H := toy_json) "t1" "execute_shell_command" (JObj [("command"%string, JStr "ls")]))
      (w_fsm w) [CheckPermission "t1" (CShell ls)] H2); [split_and!; [done|by intros id [= <-]|by intros id name input [= <- _ _]]|reflexivity]. }
  destruct (agent_invariant (H0 := toy_tools) None w Hw) as (_ & Hc & Hok). split.
  - by apply (Hc "t1"%string (mk_tracked "t1" (CShell ls) CheckingPermission None None)).
  - apply Hok. by split_and!.
Defined.

Lemma tools_run_only_when_permitted_witness :
  let f := in_turn (Streaming None) CheckingPermission in
  ∃ t, ToolManager.get (tools (ctx f)) "t1" = Some t ∧ is_resolved t = false.
Proof.
  intros f. set (e := PermissionResolved (H := toy_json) "t1" PAllowed). set (r := begin_execution f "t1" (mk_tracked "t1" (CShell ls) CheckingPermission None None)).
  destruct (tools_run_only_when_permitted (H0 := toy_tools) None f e r.1 r.2 "t1" (CShell ls)) as (_ & _ & t & Ht & Hr & _);
    [reflexivity|apply elem_of_cons; by left|]. exists t. by split.
Defined.

Lemma command_runs_confirmed_witness :
  ∃ conf, state (suggested (JObj [("command", JStr "ls")])) = Idle conf.
Proof.
  destruct (command_runs_confirmed (H0 := toy_tools) None (suggested (JObj [("command", JStr "ls")])) ExecuteCommand
    (suggested (JObj [("command", JStr "ls")])) [ExitApp (Execute "ls")]) as [Hx _]; [reflexivity|].
  destruct (Hx "ls"%string) as (_ & conf & Hc & _); [apply elem_of_cons; by left|]. by exists conf.
Defined.

Lemma turn_completes_witness :
  ∃ c', run (H0 := toy_tools) None (in_turn Done Executing) [report finished] =
    Some (mk_fsm (Turn Connecting) c', [StartStream (build_messages c') (session_id c')]).
Proof.
  destruct (turn_completes (H0 := toy_tools) None (in_turn Done Executing) [finished]) as (c' & Hrun & _);
    [reflexivity|done|apply NoDup_singleton| |exists c'; exact Hrun].
  intros id. change (current_turn_tool_ids (ctx (in_turn Done Executing))) with ["t1"%string].
  change (fst ∘ fst <$> [finished]) with ["t1"%string].
  split; [|by intros [? _]]. intros Hin. split; [done|]. apply list_elem_of_singleton in Hin as ->. eexists. reflexivity.
Defined.

Lemma stream_error_strands_tool_witness :
  ∃ (c' : AgentContext (H := toy_json)) t, unresolved c' "t1" = Some t ∧ count_results "t1" (events c') = O.
Proof.
  destruct (stream_error_strands_tool (H0 := toy_tools) None (in_turn (Streaming None) Executing)
    None "t1" (mk_tracked "t1" (CShell ls) Executing None None) "lost" (Success "a.txt") None "s")
    as (c' & aborts & _ & _ & Hu & Hc); [reflexivity|reflexivity|reflexivity|apply elem_of_cons; by left|].
  exists c'. eexists. split; [exact Hu|]. rewrite Hc. reflexivity.
Defined.

(** The danger of the current command is read from the latest suggestion, the command itself from
    the latest suggestion that has one: after a suggestion without a command a dangerous one runs with
    no confirmation. *)
Theorem danger_of_other_suggestion :
  let f := from_session (H := toy_json)
    [ToolCall (H := toy_json) "s1" "suggest_command" (JObj [("command", JStr "rm -rf /"); ("danger", JStr "high")]);
     ToolCall (H := toy_json) "s2" "suggest_command" (JObj [])] None [] "inv" 0 false None in
  current_command (ctx f) = Some "rm -rf /"%string ∧
  handle (H0 := toy_tools) None f ExecuteCommand = Some (f, [ExitApp (Execute "rm -rf /")]).
Proof. split; reflexivity. Qed.

