(* ===== verification/AiDiff.v ===== *)
(** * The preview of an edit ([atuin-ai/src/diff.rs])

    The crate [imara-diff] compares two texts by lines and answers with the hunks that differ; it is
    the interface [DiffLib], whose law says what a difference is. [compute] groups hunks that are close
    and surrounds each group with unchanged lines. Positions are the [u32]s of the code, lengths are
    those of texts in memory. *)
From S2P Require Import Prelude Text Filter Json History AiTools Permissions Conversation AgentFsm.

Definition CONTEXT_LINES : nat := 3.
Definition WRITE_PREVIEW_LINES : nat := 10.

(** [imara_diff::Hunk]: the lines that differ, before and after. *)
Record Hunk : Type := mk_raw { b_start : nat; b_end : nat; a_start : nat; a_end : nat }.

(** The tokens of [InternedInput::new]: the lines of a text, each with its line feed. *)
Fixpoint tokens_l (l : list Ascii.ascii) : list (list Ascii.ascii) :=
  match l with
  | [] => []
  | c :: l =>
      if decide (c = line_feed) then [c] :: tokens_l l
      else match tokens_l l with [] => [[c]] | w :: ws => (c :: w) :: ws end
  end.
Definition line_tokens (s : string) : list string := unchars <$> tokens_l (chars s).

(** [Diff::compute] and [postprocess_lines], as the hunks they leave. *)
Class DiffLib : Type := { line_diff : list string → list string → list Hunk }.

Definition slice {A} (i k : nat) (l : list A) : list A := take (k - i) (drop i l).

(** From [i] before and [j] after on, the texts agree except for the hunks. *)
Fixpoint aligned (i j : nat) (hs : list Hunk) (before after : list string) : Prop :=
  match hs with
  | [] => drop i before = drop j after
  | h :: hs =>
      (i ≤ b_start h ≤ b_end h)%nat ∧ (b_end h ≤ length before)%nat ∧ (j ≤ a_start h ≤ a_end h)%nat ∧
      (a_end h ≤ length after)%nat ∧ (b_start h - i = a_start h - j)%nat ∧
      slice i (b_start h) before = slice j (a_start h) after ∧ aligned (b_end h) (a_end h) hs before after
  end.

Class DiffLaws `{DiffLib} : Prop := {
  line_diff_aligned before after : aligned 0 0 (line_diff before after) before after
}.

(** [str::strip_suffix] with a character. *)
Definition strip_end (c : Ascii.ascii) (s : string) : option string := strip_suffix (String c EmptyString) s.

(** [token_text] *)
Definition token_text (text : string) : string :=
  let line := default text (strip_end line_feed text) in
  default (default text (strip_end line_feed text)) (strip_end (byte 13) line).

(** The grouping loop of [compute]; [cur] is [current_group]. *)
Fixpoint merge_groups (cur : list Hunk) (hs : list Hunk) : list (list Hunk) :=
  match hs with
  | [] => [cur]
  | h :: hs =>
      match last cur with
      | Some prev => if (b_start h - b_end prev <=? 2 * CONTEXT_LINES)%nat then merge_groups (cur ++ [h]) hs
                     else cur :: merge_groups [h] hs
      | None => []
      end
  end.

(** The loop of [build_hunk] from [pos] on: the lines. *)
Fixpoint group_lines (pos : nat) (group : list Hunk) (before after : list string) : list DiffLine :=
  match group with
  | [] => []
  | h :: group =>
      (DContext <$> slice pos (b_start h) before) ++ (DRemoved <$> slice (b_start h) (b_end h) before)
      ++ (DAdded <$> slice (a_start h) (a_end h) after) ++ group_lines (b_end h) group before after
  end.

Definition wrap_u32 (z : Z) : Z := z mod 2 ^ 32.

(** [build_hunk]; the texts of the tokens are taken beforehand. None where [unwrap] panics. *)
Definition build_hunk (group : list Hunk) (before after : list string) : option DiffHunk :=
  first ← head group;
  last ← last group;
  let context_start := (b_start first - CONTEXT_LINES)%nat in
  let context_end := Nat.min (b_end last + CONTEXT_LINES) (length before) in
  let after_context_start := wrap_u32 (Z.of_nat (a_start first) - (Z.of_nat (b_start first) - Z.of_nat context_start)) in
  Some (mk_hunk (Z.of_nat context_start + 1) (after_context_start + 1)
          (group_lines context_start group before after ++ (DContext <$> slice (b_end last) context_end before))).

Fixpoint all_some {A} (l : list (option A)) : option (list A) :=
  match l with
  | [] => Some []
  | x :: l => a ← x; r ← all_some l; Some (a :: r)
  end.

(** [EditPreview::compute] *)
Definition compute `{DiffLib} (old new_ : string) : option EditPreview :=
  let before := line_tokens old in
  let after := line_tokens new_ in
  match line_diff before after with
  | [] => Some (mk_edit_preview [])
  | h :: hs =>
      built ← all_some ((λ g, build_hunk g (token_text <$> before) (token_text <$> after)) <$> merge_groups [h] hs);
      Some (mk_edit_preview built)
  end.

(** [max_line_number] *)
Definition advance (acc : Z * Z) (l : DiffLine) : Z * Z :=
  match l with
  | DContext _ => (acc.1 + 1, acc.2 + 1)
  | DRemoved _ => (acc.1 + 1, acc.2)
  | DAdded _ => (acc.1, acc.2 + 1)
  end.
Definition max_line_number (p : EditPreview) : Z :=
  foldr Z.max 0 ((λ h, let '(b, a) := foldl advance (before_start h, after_start h) (h_lines h) in Z.max 0 (Z.max b a - 1)) <$> hunks p).

(** [WritePreview::from_content] and [remaining_lines] *)
Definition from_content (content : string) : WritePreview :=
  let all_lines := lines content in
  mk_write_preview (take WRITE_PREVIEW_LINES all_lines) (Z.of_nat (length all_lines)).
Definition remaining_lines (p : WritePreview) : Z := Z.max 0 (total_lines p - Z.of_nat (length (wp_lines p))).

(** ** Reading a preview *)

(** The lines of a hunk that were there before, and those that are there after. *)
Definition old_side (ls : list DiffLine) : list string :=
  omap (λ l, match l with DContext s | DRemoved s => Some s | DAdded _ => None end) ls.
Definition new_side (ls : list DiffLine) : list string :=
  omap (λ l, match l with DContext s | DAdded s => Some s | DRemoved _ => None end) ls.

(** What a reader makes of a preview: from line [pos] of [ls] on, the old lines of each hunk are
    replaced by its new ones. *)
Fixpoint patch (pos : nat) (hs : list DiffHunk) (ls : list string) : list string :=
  match hs with
  | [] => drop pos ls
  | h :: hs =>
      let start := Z.to_nat (before_start h - 1) in
      slice pos start ls ++ new_side (h_lines h) ++ patch (start + length (old_side (h_lines h))) hs ls
  end.

(** ** Slices *)

Section slices.
Context {A : Type}.
Implicit Types l : list A.

Lemma slice_join i j k l : (i ≤ j ≤ k)%nat → slice i j l ++ slice j k l = slice i k l.
Proof.
  intros Hij. unfold slice. replace (k - i)%nat with ((j - i) + (k - j))%nat by lia.
  replace (drop j l) with (drop (j - i) (drop i l)) by (rewrite drop_drop; f_equal; lia).
  generalize (drop i l). intros l'. rewrite <- (take_drop (j - i) (take (j - i + (k - j)) l')).
  rewrite take_take. f_equal; [f_equal; lia|]. by rewrite skipn_firstn_comm; f_equal; lia.
Qed.

Lemma slice_drop i j l : (i ≤ j)%nat → slice i j l ++ drop j l = drop i l.
Proof.
  intros Hij. unfold slice. replace (drop j l) with (drop (j - i) (drop i l)) by (rewrite drop_drop; f_equal; lia).
  apply take_drop.
Qed.

Lemma slice_self i l : slice i i l = [].
Proof. unfold slice. by rewrite Nat.sub_diag. Qed.

Lemma length_slice i j l : (j ≤ length l)%nat → length (slice i j l) = (j - i)%nat.
Proof. intros Hj. unfold slice. rewrite length_take, length_drop. lia. Qed.

Lemma fmap_slice {B} (f : A → B) i j l : f <$> slice i j l = slice i j (f <$> l).
Proof. unfold slice. by rewrite fmap_take, fmap_drop. Qed.
End slices.

(** ** What a preview shows *)

Section preview.
Implicit Types (before after : list string) (g : list Hunk).

Lemma aligned_fmap f i j hs before after : aligned i j hs before after → aligned i j hs (f <$> before) (f <$> after).
Proof.
  revert i j. induction hs as [|h hs IH]; intros i j; cbn [aligned].
  - rewrite <- !fmap_drop. by intros ->.
  - rewrite !length_fmap, <- !fmap_slice. intros (? & ? & ? & ? & ? & -> & Ha). split_and!; try done; [lia..|by apply IH].
Qed.

(** The common lines before the next hunk. *)
Lemma aligned_forward k i j hs before after :
  aligned i j hs before after → (match head hs with Some h => i + k ≤ b_start h | None => True end)%nat →
  slice i (i + k) before = slice j (j + k) after ∧ aligned (i + k) (j + k) hs before after.
Proof.
  destruct hs as [|h hs]; cbn [aligned head].
  - intros E _. unfold slice. replace (i + k - i)%nat with k by lia. replace (j + k - j)%nat with k by lia.
    rewrite E. split; [done|]. by rewrite <- !drop_drop, E.
  - intros (H1 & H2 & H3 & H4 & H5 & Hs & Ha) Hk.
    assert (∀ x m (l : list string), (x + k ≤ m)%nat → take k (slice x m l) = slice x (x + k) l) as Htk.
    { intros x m l Hm. unfold slice. rewrite take_take. f_equal. lia. }
    assert (∀ x m (l : list string), (x + k ≤ m)%nat → drop k (slice x m l) = slice (x + k) m l) as Hdr.
    { intros x m l Hm. unfold slice. rewrite skipn_firstn_comm, drop_drop. f_equal. lia. }
    rewrite <- (Htk i (b_start h)), <- (Htk j (a_start h)), Hs by lia. split_and!; try done; try lia. rewrite <- (Hdr i), <- (Hdr j), Hs by lia. done.
Qed.

Lemma old_side_app l1 l2 : old_side (l1 ++ l2) = old_side l1 ++ old_side l2.
Proof. apply omap_app. Qed.
Lemma new_side_app l1 l2 : new_side (l1 ++ l2) = new_side l1 ++ new_side l2.
Proof. apply omap_app. Qed.

Lemma sides_context l : old_side (DContext <$> l) = l ∧ new_side (DContext <$> l) = l.
Proof. induction l as [|x l [IH1 IH2]]; [done|]. split; [exact IH1 || exact (f_equal (cons x) IH1)|exact IH2 || exact (f_equal (cons x) IH2)]. Qed.
Lemma sides_removed l : old_side (DRemoved <$> l) = l ∧ new_side (DRemoved <$> l) = [].
Proof. induction l as [|x l [IH1 IH2]]; [done|]. split; [exact IH1 || exact (f_equal (cons x) IH1)|exact IH2 || exact (f_equal (cons x) IH2)]. Qed.
Lemma sides_added l : old_side (DAdded <$> l) = [] ∧ new_side (DAdded <$> l) = l.
Proof. induction l as [|x l [IH1 IH2]]; [done|]. split; [exact IH1 || exact (f_equal (cons x) IH1)|exact IH2 || exact (f_equal (cons x) IH2)]. Qed.

Lemma group_sides g i j rest l before after :
  aligned i j (g ++ rest) before after → last g = Some l →
  old_side (group_lines i g before after) = slice i (b_end l) before ∧
  new_side (group_lines i g before after) = slice j (a_end l) after ∧
  (i ≤ b_end l ≤ length before)%nat ∧ (j ≤ a_end l ≤ length after)%nat ∧ aligned (b_end l) (a_end l) rest before after.
Proof.
  revert i j. induction g as [|h g IH]; intros i j; [done|]. cbn [app aligned]. intros (H1 & H2 & H3 & H4 & H5 & Hs & Ha) Hl.
  cbn [group_lines]. rewrite !old_side_app, !new_side_app.
  destruct (sides_context (slice i (b_start h) before)) as [-> ->], (sides_removed (slice (b_start h) (b_end h) before)) as [-> ->],
    (sides_added (slice (a_start h) (a_end h) after)) as [-> ->]. cbn [app].
  destruct g as [|h' g].
  - injection Hl as <-. cbn [group_lines old_side new_side omap list_omap]. rewrite !app_nil_r.
    split; [apply slice_join; lia|]. split; [rewrite Hs; apply slice_join; lia|]. split_and!; done || lia.
  - change (last (h :: h' :: g)) with (last (h' :: g)) in Hl. destruct (IH (b_end h) (a_end h)) as (Ho & Hn & Hb & Hc & Hr); [done..|].
    rewrite Ho, Hn. split; [by rewrite !slice_join by lia|]. split; [by rewrite Hs, !slice_join by lia|].
    split_and!; done || lia.
Qed.

(** Consecutive groups are so far apart that their contexts do not meet. *)
Fixpoint spaced (p : nat) (gs : list (list Hunk)) : Prop :=
  match gs with
  | [] => True
  | g :: gs => ∃ f l, head g = Some f ∧ last g = Some l ∧ (p ≤ b_start f - CONTEXT_LINES)%nat ∧ (b_start f ≤ b_end l)%nat ∧
                       spaced (b_end l + CONTEXT_LINES) gs ∧
                       match head gs ≫= head with Some f' => (b_end l + CONTEXT_LINES ≤ b_start f')%nat | None => True end
  end.

(** A hunk stands where its numbers say, in both files. *)
Definition placed before after (h : DiffHunk) : Prop :=
  let i := Z.to_nat (before_start h - 1) in
  let j := Z.to_nat (after_start h - 1) in
  old_side (h_lines h) = slice i (i + length (old_side (h_lines h))) before ∧
  new_side (h_lines h) = slice j (j + length (new_side (h_lines h))) after.

Lemma head_concat_groups (gs : list (list Hunk)) : (∀ g, g ∈ gs → g ≠ []) → head (concat gs) = head gs ≫= head.
Proof. destruct gs as [|[|h g] gs]; [done| |done]. intros Hne. by destruct (Hne [] ltac:(left)). Qed.

Lemma spaced_nonempty p gs g : spaced p gs → g ∈ gs → g ≠ [].
Proof.
  revert p. induction gs as [|g' gs IH]; intros p; [intros _ Hg; by apply elem_of_nil in Hg|].
  cbn. intros (f & l & Hf & _ & _ & _ & Hs & _) [->|Hg]%elem_of_cons; [by intros ->|by eapply IH].
Qed.

Lemma build_hunk_spec g gs p p' before after :
  aligned p p' (concat (g :: gs)) before after → spaced p (g :: gs) → (Z.of_nat (length after) < 2 ^ 32) →
  ∃ h e e', build_hunk g before after = Some h ∧ placed before after h ∧ (p ≤ Z.to_nat (before_start h - 1))%nat ∧
    (Z.to_nat (before_start h - 1) + length (old_side (h_lines h)) = e)%nat ∧
    slice p (Z.to_nat (before_start h - 1)) before ++ new_side (h_lines h) = slice p' e' after ∧
    (p' ≤ e')%nat ∧ aligned e e' (concat gs) before after ∧ spaced e gs.
Proof.
  intros Ha (f & l & Hf & Hl & Hp & Hfl & Hsp & Hgap) Hlen. cbn [concat] in Ha.
  unfold build_hunk. rewrite Hf, Hl. cbn [mbind option_bind]. set (cs := (b_start f - CONTEXT_LINES)%nat) in *.
  set (ce := Nat.min (b_end l + CONTEXT_LINES) (length before)).
  assert (∃ g', g = f :: g') as [g' ->] by (destruct g; [done|]; injection Hf as ->; by eexists).
  destruct (aligned_forward (cs - p) _ _ _ _ _ Ha) as [Hs1 Ha1]; [cbn; unfold cs, CONTEXT_LINES in *; lia|].
  assert (b_start f - p = a_start f - p' ∧ p' ≤ a_start f)%nat as [Hd Hpf] by (cbn [app aligned] in Ha; lia).
  assert (a_start f ≤ length after)%nat as Haf by (cbn [app aligned] in Ha; lia).
  replace (p + (cs - p))%nat with cs in * by lia. set (cs' := (p' + (cs - p))%nat) in *.
  destruct (group_sides _ _ _ _ _ _ _ Ha1 Hl) as (Ho & Hn & Hb & Hc & Hr).
  assert (head (concat gs) = head gs ≫= head) as Hh by (apply head_concat_groups; intros; by eapply spaced_nonempty).
  destruct (aligned_forward (ce - b_end l) _ _ _ _ _ Hr) as [Hs2 Ha2].
  { rewrite Hh. destruct (head gs ≫= head); [|done]. unfold ce. lia. }
  replace (b_end l + (ce - b_end l))%nat with ce in * by (unfold ce; lia).
  assert (wrap_u32 (Z.of_nat (a_start f) - (Z.of_nat (b_start f) - Z.of_nat cs)) = Z.of_nat cs') as Hw.
  { unfold wrap_u32. rewrite Z.mod_small; unfold cs', cs, CONTEXT_LINES in *; lia. }
  eexists _, ce, (a_end l + (ce - b_end l))%nat. split; [done|]. cbn [before_start after_start h_lines]. rewrite Hw.
  rewrite !Z.add_simpl_r, !Nat2Z.id, old_side_app, new_side_app. unfold placed. cbn [before_start after_start h_lines].
  rewrite !Z.add_simpl_r, !Nat2Z.id, old_side_app, new_side_app.
  destruct (sides_context (slice (b_end l) ce before)) as [-> ->]. rewrite Ho, Hn.
  assert (slice cs (b_end l) before ++ slice (b_end l) ce before = slice cs ce before) as -> by (apply slice_join; unfold ce; lia).
  rewrite Hs2. assert (slice cs' (a_end l) after ++ slice (a_end l) (a_end l + (ce - b_end l)) after
    = slice cs' (a_end l + (ce - b_end l)) after) as -> by (apply slice_join; lia).
  assert (length (slice cs ce before) = ce - cs)%nat as Hlo by (apply length_slice; unfold ce; lia).
  assert (cs ≤ ce)%nat as Hcc by (unfold ce; lia).
  assert (length (slice (b_end l) ce before) = ce - b_end l)%nat as Hl2 by (apply length_slice; unfold ce; lia).
  assert (length (slice (a_end l) (a_end l + (ce - b_end l)) after) = ce - b_end l)%nat as Hl3 by (by rewrite <- Hs2).
  assert (length (slice cs' (a_end l + (ce - b_end l)) after) = a_end l + (ce - b_end l) - cs')%nat as Hln.
  { rewrite <- (slice_join cs' (a_end l)) by lia. rewrite length_app, Hl3, length_slice by lia. lia. }
  rewrite Hlo, Hln. split_and!; try lia.
  - f_equal. lia.
  - f_equal. lia.
  - rewrite Hs1. apply slice_join. lia.
  - done.
  - destruct gs as [|g2 gs]; [done|]. destruct Hsp as (f2 & l2 & ? & ? & ? & ? & ? & ?). exists f2, l2. split_and!; try done.
    unfold ce. lia.
Qed.

Lemma build_all_spec gs p p' before after :
  aligned p p' (concat gs) before after → spaced p gs → (Z.of_nat (length after) < 2 ^ 32) →
  ∃ hs, all_some ((λ g, build_hunk g before after) <$> gs) = Some hs ∧ Forall (placed before after) hs ∧
    patch p hs before = drop p' after.
Proof.
  revert p p'. induction gs as [|g gs IH]; intros p p' Ha Hs Hl; [by exists []|].
  destruct (build_hunk_spec g gs p p' before after Ha Hs Hl) as (h & e & e' & Hb & Hp & Hle & He & Hsl & Hpe & Ha' & Hs').
  destruct (IH e e' Ha' Hs' Hl) as (hs & Hhs & Hpl & Hpa). exists (h :: hs). cbn [fmap list_fmap all_some].
  rewrite Hb. cbn [mbind option_bind]. rewrite Hhs. split_and!; [done|by constructor|].
  cbn [patch]. rewrite He, Hpa, app_assoc, Hsl. by apply slice_drop.
Qed.
End preview.

Lemma concat_merge cur hs : cur ≠ [] → concat (merge_groups cur hs) = cur ++ hs.
Proof.
  revert cur. induction hs as [|h hs IH]; intros cur Hne; cbn [merge_groups]; [done|].
  destruct (last cur) as [prev|] eqn:El; [|by apply list.last_None in El].
  destruct (_ <=? _)%nat; [rewrite IH by (by destruct cur); by rewrite <- app_assoc|].
  cbn [concat]. by rewrite IH.
Qed.

Lemma head_merge cur hs : cur ≠ [] → head (merge_groups cur hs) ≫= head = head cur.
Proof.
  revert cur. induction hs as [|h hs IH]; intros cur Hne; cbn [merge_groups]; [done|].
  destruct (last cur) as [prev|] eqn:El; [|by apply list.last_None in El].
  destruct (_ <=? _)%nat; [|done]. rewrite IH by (by destruct cur). by destruct cur.
Qed.

Lemma aligned_order i j cur rest before after f l :
  aligned i j (cur ++ rest) before after → head cur = Some f → last cur = Some l → (b_start f ≤ b_end l)%nat.
Proof.
  intros Ha Hf Hl. assert (∃ cur', cur = f :: cur') as [cur' ->] by (destruct cur; [done|]; injection Hf as ->; by eexists).
  assert (i ≤ b_start f)%nat by (cbn [app aligned] in Ha; lia).
  destruct (aligned_forward (b_start f - i) _ _ _ _ _ Ha) as [_ Ha']; [cbn; lia|].
  destruct (group_sides _ _ _ _ _ _ _ Ha' Hl) as (_ & _ & Hb & _). lia.
Qed.

Lemma merge_spaced hs cur p i j before after f :
  aligned i j (cur ++ hs) before after → head cur = Some f → (p ≤ b_start f - CONTEXT_LINES)%nat → spaced p (merge_groups cur hs).
Proof.
  revert cur p i j f. induction hs as [|h hs IH]; intros cur p i j f Ha Hf Hp; cbn [merge_groups].
  - destruct (last cur) as [l|] eqn:El; [|apply list.last_None in El; by subst].
    cbn. exists f, l. split_and!; try done. by eapply aligned_order.
  - destruct (last cur) as [prev|] eqn:El; [|apply list.last_None in El; by subst].
    destruct (Nat.leb_spec (b_start h - b_end prev) (2 * CONTEXT_LINES)) as [Hle|Hgt].
    + eapply (IH _ _ i j f); [|destruct cur; [done|]; exact Hf|done]. by rewrite <- app_assoc.
    + exists f, prev. split_and!; try done; [by eapply aligned_order| |].
      * destruct (group_sides cur i j (h :: hs) prev before after Ha El) as (_ & _ & _ & _ & Hr).
        eapply (IH [h] _ (b_end prev) (a_end prev) h); [exact Hr|done|]. unfold CONTEXT_LINES in *. lia.
      * rewrite head_merge by done. cbn. unfold CONTEXT_LINES in *. lia.
Qed.

(** C14: The preview of an edit is always built; whoever replaces the old lines of each of its hunks by the
    new ones in the old text gets the new text, and every hunk stands at the line numbers that are
    shown, in the old text and in the new one. *)
Theorem preview_is_a_patch `{DiffLaws} old new_ :
  Z.of_nat (length (line_tokens new_)) < 2 ^ 32 →
  ∃ p, compute old new_ = Some p ∧
    patch 0 (hunks p) (token_text <$> line_tokens old) = token_text <$> line_tokens new_ ∧
    Forall (placed (token_text <$> line_tokens old) (token_text <$> line_tokens new_)) (hunks p).
Proof.
  intros Hl. unfold compute. pose proof (line_diff_aligned (line_tokens old) (line_tokens new_)) as Ha.
  apply (aligned_fmap token_text) in Ha. destruct (line_diff _ _) as [|h hs].
  { exists (mk_edit_preview []). split_and!; [done|exact Ha|constructor]. }
  destruct (build_all_spec (merge_groups [h] hs) 0 0 (token_text <$> line_tokens old) (token_text <$> line_tokens new_))
    as (built & Hb & Hp & Hpatch).
  - by rewrite concat_merge.
  - by eapply (merge_spaced hs [h] 0 0 0); [exact Ha|done|lia].
  - by rewrite length_fmap.
  - rewrite Hb. cbn [mbind option_bind]. exists (mk_edit_preview built). split_and!; [done|exact Hpatch|exact Hp].
Qed.

(** ** A difference line by line *)

Module PointDiff.

Fixpoint pointwise (i : nat) (before after : list string) : list Hunk :=
  match before, after with
  | [], [] => []
  | x :: before', y :: after' =>
      if decide (x = y) then pointwise (S i) before' after' else mk_raw i (S i) i (S i) :: pointwise (S i) before' after'
  | _, _ => [mk_raw i (i + length before) i (i + length after)]
  end.

#[export] Instance lib : DiffLib := {| line_diff := pointwise 0 |}.

Lemma aligned_back i x hs p q before after :
  length p = i → length q = i → aligned (S i) (S i) hs (p ++ x :: before) (q ++ x :: after) → aligned i i hs (p ++ x :: before) (q ++ x :: after).
Proof.
  intros Hp Hq. assert (∀ r (l : list string), length r = i → drop i (r ++ x :: l) = x :: drop (S i) (r ++ x :: l)) as Hd.
  { intros r l <-. rewrite drop_app_length. rewrite (drop_app_ge _ _ (S _)) by lia. by replace (S (length r) - length r)%nat with 1%nat by lia. }
  destruct hs as [|h hs]; cbn [aligned]; [by rewrite !Hd by done; intros ->|].
  intros (? & ? & ? & ? & ? & Hs & ?). split_and!; try done; try lia.
  unfold slice in *. rewrite !Hd by done. replace (b_start h - i)%nat with (S (b_start h - S i)) by lia.
  replace (a_start h - i)%nat with (S (a_start h - S i)) by lia. cbn [take]. by f_equal.
Qed.

Lemma pointwise_aligned before after p q i :
  length p = i → length q = i → aligned i i (pointwise i before after) (p ++ before) (q ++ after).
Proof.
  revert after p q i. induction before as [|x before IH]; intros [|y after] p q i Hp Hq; cbn [pointwise].
  - cbn [aligned]. by rewrite !app_nil_r, !drop_ge by lia.
  - cbn [aligned b_start b_end a_start a_end]. rewrite !length_app, !slice_self, !drop_ge by (rewrite length_app; cbn; lia). split_and!; done || (cbn in *; lia).
  - cbn [aligned b_start b_end a_start a_end]. rewrite !length_app, !slice_self, !drop_ge by (rewrite length_app; cbn; lia). split_and!; done || (cbn in *; lia).
  - assert (aligned (S i) (S i) (pointwise (S i) before after) (p ++ x :: before) (q ++ y :: after)) as Hr.
    { rewrite (cons_middle x), (cons_middle y), !app_assoc. apply IH; rewrite length_app; cbn; lia. }
    case_decide as E; [subst y; by apply aligned_back|].
    cbn [aligned b_start b_end a_start a_end]. rewrite !length_app, !slice_self. split_and!; done || (cbn in *; lia).
Qed.

#[export] Instance laws : DiffLaws.
Proof. split. intros before after. by apply (pointwise_aligned before after [] [] 0). Qed.

Definition nl : string := String line_feed EmptyString.
Definition text (l : list string) : string := foldr (λ a s, a +:+ nl +:+ s) "" l.
Definition old_text : string := text ["a"; "b"; "c"; "d"; "e"; "f"; "g"; "h"; "i"; "j"; "k"; "l"]%string.
Definition new_text : string := text ["A"; "b"; "c"; "d"; "e"; "f"; "g"; "h"; "i"; "j"; "k"; "L"; "m"]%string.
End PointDiff.
Import PointDiff.

(** Two hunks, since the changes are more than six lines apart. *)
Lemma preview_is_a_patch_witness :
  (λ p, before_start <$> hunks p) <$> compute old_text new_text = Some [1; 9] ∧
  ∃ p, compute old_text new_text = Some p ∧
    patch 0 (hunks p) (token_text <$> line_tokens old_text) = token_text <$> line_tokens new_text.
Proof.
  split; [vm_compute; reflexivity|].
  destruct (preview_is_a_patch old_text new_text) as (p & Hc & Hp & _); [vm_compute; reflexivity|]. by exists p.
Defined.
