(* ===== verification/AiFiles.v ===== *)
(** * The assistant and the user's files ([atuin-ai/src/file_tracker.rs], [snapshots.rs],
      [edit_permissions.rs], the file tools of [tools/mod.rs] and their driver in [tui/app.rs])

    A file is edited only when the assistant has read it and it has not changed since: the tracker
    keeps a hash and a time for every file that was read. Before a file is edited or overwritten for
    the first time its content goes to the session's snapshot directory. Permissions for a file last an
    hour. The file system is a map from paths to files and directories; a path is its text, without
    links and redundant components. What the operating system permits, the hash [xxh3], the calendar
    and the JSON texts are the interface [FilesLib]. A file is written at one instant, as the rename
    of [atomic_write_file] makes it. *)
From stdpp Require Import pretty.
From S2P Require Import Prelude Text Filter Json History ShellConfig Import AiTools Permissions Conversation AgentFsm AiDiff.

(** ** The file system *)

(** Content, modification time in nanoseconds since 1970, permissions. *)
Record File : Type := mk_file { f_bytes : bytes; f_mtime : Z; f_mode : Z }.
Inductive FsNode : Type := NFile (f : File) | NDir.
Abbreviation Fs := (gmap string FsNode).

(** State recorded for a file that was read; the entry of a snapshot. *)
Record FileReadState : Type := mk_read_state { content_hash : Z; mtime_ms : Z }.
Record SnapshotEntry : Type := mk_entry { original_path : string; snapshot_at : string; size_bytes : Z }.

Abbreviation FileReadTracker := (gmap string FileReadState).
Abbreviation EditPermissionCache := (gmap string Z).
Abbreviation SnapshotManifest := (gmap string SnapshotEntry).

Class FilesLib : Type := {
  can_read : string → bool;                     (* the permissions of the process *)
  can_write : string → bool;
  dir_names : Fs → string → list string;        (* read_dir *)
  os_error : string → string;                   (* the text of an error *)
  hash_content : bytes → Z;                     (* xxh3_64 *)
  civil : Z → Z * Z * Z * Z * Z * Z;            (* year, month, day, hour, minute, second *)
  manifest_json : SnapshotManifest → string;
  manifest_of_json : string → option SnapshotManifest;
  tracker_json : FileReadTracker → string;
  tracker_of_json : string → option FileReadTracker;
  grants_json : EditPermissionCache → string;
  grants_of_json : string → option EditPermissionCache
}.

(** What is written as JSON is read back. *)
Class FilesLaws `{FilesLib} : Prop := {
  manifest_roundtrip m : manifest_of_json (manifest_json m) = Some m;
  tracker_roundtrip t : tracker_of_json (tracker_json t) = Some t;
  grants_roundtrip g : grants_of_json (grants_json g) = Some g
}.

(** [Path::parent] of a path without redundant components: None for the root and the empty path. *)
Definition path_parent (p : string) : option string :=
  if bool_decide (p = "") || bool_decide (p = "/") then None
  else match split_once_l slash (reverse (chars p)) with
       | None => Some ""%string
       | Some (_, []) => Some "/"%string
       | Some (_, up) => Some (unchars (reverse up))
       end.

(** A path and the directories above it; each is shorter, so the length is enough fuel. *)
Fixpoint ancestors (fuel : nat) (p : string) : list string :=
  match fuel with
  | O => [p]
  | S fuel => match path_parent p with Some q => p :: ancestors fuel q | None => [p] end
  end.
Definition dirs_of (p : string) : list string := ancestors (String.length p) p.

Definition exists_ (fs : Fs) (p : string) : bool := bool_decide (is_Some (fs !! p)).
Definition is_dir (fs : Fs) (p : string) : bool := match fs !! p with Some NDir => true | _ => false end.
Definition is_file (fs : Fs) (p : string) : bool := match fs !! p with Some (NFile _) => true | _ => false end.

Section files.
Context `{FilesLib}.

(** [std::fs::read] *)
Definition fs_read (fs : Fs) (p : string) : option bytes :=
  match fs !! p with Some (NFile f) => if can_read p then Some (f_bytes f) else None | _ => None end.

(** [std::fs::metadata(..).modified()] *)
Definition fs_modified (fs : Fs) (p : string) : option Z :=
  match fs !! p with Some (NFile f) => Some (f_mtime f) | _ => None end.

(** [create_dir_all]: the first component that is a file, or cannot be made, is an error. *)
Definition make_dir (acc : Fs * result unit string) (d : string) : Fs * result unit string :=
  match acc.2 with
  | Err _ => acc
  | Ok _ =>
      match acc.1 !! d with
      | Some NDir => acc
      | Some (NFile _) => (acc.1, Err (os_error d))
      | None => if bool_decide (d = "") then acc
                else if can_write d then (<[d := NDir]> acc.1, Ok tt) else (acc.1, Err (os_error d))
      end
  end.
Definition create_dir_all (fs : Fs) (d : string) : Fs * result unit string :=
  foldl make_dir (fs, Ok tt) (reverse (dirs_of d)).

(** [atomic_write_file]: a temporary file, made for its owner alone, takes the place of the target with
    the permissions the target had. *)
Definition PRIVATE_MODE : Z := 384.
Definition atomic_write_file (now : Z) (fs : Fs) (target : string) (content : bytes) : Fs * result unit string :=
  match path_parent target with
  | None => (fs, Err "target path has no parent directory"%string)
  | Some dir =>
      match create_dir_all fs dir with
      | (fs, Err e) => (fs, Err e)
      | (fs, Ok _) =>
          if can_write target then
            match fs !! target with
            | Some NDir => (fs, Err ("failed to persist atomic write to " +:+ target +:+ ": " +:+ os_error target))
            | Some (NFile f) => (<[target := NFile (mk_file content now (f_mode f))]> fs, Ok tt)
            | None => (<[target := NFile (mk_file content now PRIVATE_MODE)]> fs, Ok tt)
            end
          else (fs, Err (os_error target))
      end
  end.

(** ** The tracker ([file_tracker.rs]) *)

Inductive FreshnessCheck : Type := Fresh | NotRead | Stale.

(** [as i64] of a number of milliseconds. *)
Definition system_time_to_ms (t : Z) : Z :=
  if t <? 0 then 0 else u64_as_i64 ((t / 1000000) mod u64_limit).

Definition record_read (tr : FileReadTracker) (path : string) (content : bytes) (mtime : Z) : FileReadTracker :=
  <[path := mk_read_state (hash_content content) (system_time_to_ms mtime)]> tr.

Definition update_after_edit (tr : FileReadTracker) (path : string) (new_content : bytes) (new_mtime : Z) : FileReadTracker :=
  <[path := mk_read_state (hash_content new_content) (system_time_to_ms new_mtime)]> tr.

Definition check_freshness (fs : Fs) (tr : FileReadTracker) (path : string) : result FreshnessCheck string :=
  match tr !! path with
  | None => Ok NotRead
  | Some state =>
      match fs !! path with
      | None => Ok Stale
      | Some node =>
          let current := match node with NFile f => f_mtime f | NDir => 0 end in
          if system_time_to_ms current =? mtime_ms state then Ok Fresh
          else match fs_read fs path with
               | None => Err (os_error path)
               | Some content => if hash_content content =? content_hash state then Ok Fresh else Ok Stale
               end
      end
  end.

(** ** Snapshots ([snapshots.rs]) *)

Definition percent : Ascii.ascii := byte 37.

Definition encode_name (s : string) : string :=
  unchars (replace_char AiTools.backslash (chars "%5C") (replace_char slash (chars "%2F") (replace_char percent (chars "%25") (chars s)))).

Definition is_alphabetic (c : Ascii.ascii) : bool := is_lower c || is_upper c.

Definition strip_drive (s : string) : string :=
  match chars s with
  | a :: b :: c :: rest =>
      if is_alphabetic a && bool_decide (b = byte 58) && (bool_decide (c = AiTools.backslash) || bool_decide (c = slash))
      then unchars rest else s
  | _ => s
  end.

Definition sanitize_path (path : string) : string :=
  encode_name (match strip_prefix "/" path with Some s => s | None => strip_drive path end).

Record SnapshotStore : Type := mk_store { session_dir : string; manifest : SnapshotManifest }.

Definition manifest_path (dir : string) : string := path_join dir "manifest.json".

Definition open (fs : Fs) (dir : string) : result SnapshotStore string :=
  if exists_ fs (manifest_path dir) then
    let? data := ok_or (fs_read fs (manifest_path dir)) (os_error (manifest_path dir)) in
    let? m := ok_or (manifest_of_json (unchars data)) (os_error (manifest_path dir)) in
    Ok (mk_store dir m)
  else Ok (mk_store dir ∅).

Definition zero_pad (width : nat) (n : Z) : string :=
  let s := pretty n in unchars (replicate (width - String.length s) (byte 48) ++ chars s).

Definition format_iso8601 (t : Z) : string :=
  let '(year, month, day, hour, minute, second) := civil t in
  zero_pad 4 year +:+ "-" +:+ zero_pad 2 month +:+ "-" +:+ zero_pad 2 day +:+ "T" +:+ zero_pad 2 hour +:+ ":"
    +:+ zero_pad 2 minute +:+ ":" +:+ zero_pad 2 second +:+ "Z".

Definition save_manifest (now : Z) (fs : Fs) (s : SnapshotStore) : Fs * result unit string :=
  atomic_write_file now fs (manifest_path (session_dir s)) (chars (manifest_json (manifest s))).

Definition ensure_snapshot (now : Z) (fs : Fs) (s : SnapshotStore) (path : string) (content : bytes)
    : Fs * SnapshotStore * result bool string :=
  let filename := sanitize_path path in
  match manifest s !! filename with
  | Some _ => (fs, s, Ok false)
  | None =>
      match create_dir_all fs (session_dir s) with
      | (fs, Err e) => (fs, s, Err e)
      | (fs, Ok _) =>
          match atomic_write_file now fs (path_join (session_dir s) filename) content with
          | (fs, Err e) => (fs, s, Err e)
          | (fs, Ok _) =>
              let entry := mk_entry path (format_iso8601 now) (Z.of_nat (length content)) in
              let s := mk_store (session_dir s) (<[filename := entry]> (manifest s)) in
              match save_manifest now fs s with
              | (fs, Err e) => (fs, s, Err e)
              | (fs, Ok _) => (fs, s, Ok true)
              end
          end
      end
  end.

(** ** The file tools ([tools/mod.rs]) *)

(** Text in a field of [width], to the right. *)
Definition pad_left (width : nat) (s : string) : string :=
  unchars (replicate (width - String.length s) (byte 32)) +:+ s.

(** The lines of a file as [BufRead::lines] gives them. *)
Definition raw_lines (content : bytes) : list bytes := lines_l (split_l line_feed content).

Definition MAX_READ_BYTES : Z := 100000.

(** [ReadToolCall::execute]; [ilog10() + 1] of a number is the length of its decimal form. *)
Definition read_execute (fs : Fs) (cwd : option string) (c : ReadToolCall) : ToolOutcome :=
  let path := resolved_path cwd (rd_path c) in
  match fs !! path with
  | None => Error ("Error: file does not exist: " +:+ path)
  | Some NDir =>
      if can_read path then Success ("Directory contents:" +:+ newline +:+ String.concat newline (dir_names fs path))
      else Error ("Error: could not read directory: " +:+ path)
  | Some (NFile f) =>
      if negb (can_read path) then Error ("Error opening file: " +:+ os_error path)
      else
        let ls := take (Z.to_nat (rd_limit c)) (drop (Z.to_nat (rd_offset c)) (raw_lines (f_bytes f))) in
        if forallb valid_utf8 ls then
          let first_line_no := wrapping_add (rd_offset c) 1 in
          let last_line_no := first_line_no + Z.of_nat (length ls - 1) in
          let width := String.length (pretty (Z.max last_line_no 1)) in
          let numbered := String.concat newline
            (imap (λ i l, pad_left width (pretty (first_line_no + Z.of_nat i)) +:+ String (byte 9) (unchars l)) ls) in
          if MAX_READ_BYTES <? Z.of_nat (String.length numbered) then
            Error ("Error: file is too large to read (" +:+ pretty (N.of_nat (String.length numbered)) +:+ " bytes in "
                   +:+ pretty (N.of_nat (length ls)) +:+ " lines); use view_range to read a subset of the file")
          else Success numbered
        else Error ("Error reading file: " +:+ os_error path)
  end.

(** [str::matches(p).count()] of a pattern that is not empty: occurrences that do not overlap, from the
    left. Each step takes a byte or more, so the length is enough fuel. *)
Fixpoint count_from (fuel : nat) (p l : bytes) : nat :=
  match fuel, l with
  | S fuel, _ :: l' => match strip_prefix_l p l with Some r => S (count_from fuel p r) | None => count_from fuel p l' end
  | _, _ => O
  end.
Definition count_matches (p l : bytes) : nat := count_from (length l) p l.

(** [str::replacen(p, w, 1)] *)
Fixpoint replace_first (p w l : bytes) : bytes :=
  match strip_prefix_l p l with
  | Some r => w ++ r
  | None => match l with [] => [] | c :: l' => c :: replace_first p w l' end
  end.

(** The new content of [EditToolCall::execute], with the number of matches; the errors are its own. *)
Definition edited (c : EditToolCall) (path : string) (content : bytes) : result (bytes * nat) string :=
  let old := chars (ed_old_string c) in
  let new_ := chars (ed_new_string c) in
  match count_matches old content with
  | O => Err ("old_string not found in " +:+ path +:+ ". Make sure it matches exactly, including whitespace and indentation.")
  | S n =>
      if (1 <? S n)%nat && negb (ed_replace_all c) then
        Err ("Found " +:+ pretty (N.of_nat (S n)) +:+ " matches of old_string in " +:+ path +:+ ", but replace_all is false. "
             +:+ "Either provide more context to make the match unique, or set replace_all to true.")
      else Ok (if ed_replace_all c then str_replace old new_ content else replace_first old new_ content, S n)
  end.

(** [EditToolCall::execute] *)
Definition edit_execute (now : Z) (fs : Fs) (tr : FileReadTracker) (path : string) (c : EditToolCall)
    : Fs * ToolOutcome * option bytes :=
  match fs !! path with
  | None => (fs, Error ("Error: file does not exist: " +:+ path), None)
  | Some NDir => (fs, Error ("Error: path is a directory, not a file: " +:+ path), None)
  | Some (NFile _) =>
      if decide (ed_old_string c = "") then
        (fs, Error "old_string must not be empty. To create a new file, use write_file instead.", None)
      else
        match check_freshness fs tr path with
        | Ok NotRead => (fs, Error "File has not been read yet. Read it first before editing.", None)
        | Ok Stale =>
            (fs, Error ("File has been modified since read, either by the user or by a linter. "
                        +:+ "Read it again before attempting to edit it."), None)
        | Err e => (fs, Error ("Error checking file state: " +:+ e), None)
        | Ok Fresh =>
            match fs_read fs path ≫= from_utf8 with
            | None => (fs, Error ("Error reading file: " +:+ os_error path), None)
            | Some content =>
                match edited c path content with
                | Err e => (fs, Error e, None)
                | Ok (new_bytes, n) =>
                    match atomic_write_file now fs path new_bytes with
                    | (fs, Err e) => (fs, Error ("Error writing file: " +:+ e), None)
                    | (fs, Ok _) =>
                        (fs, Success ("Edited " +:+ path +:+ ": replaced " +:+ pretty (N.of_nat n) +:+ " "
                                      +:+ (if (n =? 1)%nat then "occurrence" else "occurrences")
                                      +:+ " of old_string with new_string."), Some new_bytes)
                    end
                end
            end
        end
  end.

(** [WriteToolCall::execute] *)
Definition write_execute (now : Z) (fs : Fs) (path : string) (c : WriteToolCall) : Fs * ToolOutcome * option bytes :=
  if is_dir fs path then (fs, Error ("Error: path is a directory, not a file: " +:+ path), None)
  else if exists_ fs path && negb (wr_overwrite c) then
    (fs, Error ("File already exists: " +:+ path +:+ ". Set overwrite to true to replace it, or use edit_file to make targeted changes."), None)
  else
    let existed := exists_ fs path in
    let content_bytes := chars (wr_content c) in
    match atomic_write_file now fs path content_bytes with
    | (fs, Err e) => (fs, Error ("Error writing file: " +:+ e), None)
    | (fs, Ok _) =>
        (fs, Success ((if existed : bool then "Overwrote" else "Created") +:+ " " +:+ path +:+ " ("
                      +:+ pretty (N.of_nat (length (lines (wr_content c)))) +:+ " lines)."), Some content_bytes)
    end.

(** ** Permissions for a file ([edit_permissions.rs]) *)

Definition TTL_MS : Z := 3600000.

(** [now_ms] is [system_time_to_ms] of the present time. *)
Definition grant (g : EditPermissionCache) (path : string) (now : Z) : EditPermissionCache :=
  <[path := system_time_to_ms now]> g.
Definition has_valid_grant (g : EditPermissionCache) (path : string) (now : Z) : bool :=
  match g !! path with Some granted_at => system_time_to_ms now - granted_at <? TTL_MS | None => false end.

(** ** The driver ([tui/app.rs]) *)

(** What [IoContext] holds of all this; [yolo] is that of the [AppContext]. *)
Record IoContext : Type := mk_io {
  io_yolo : bool; io_tracker : FileReadTracker; io_grants : EditPermissionCache; io_snapshots : option SnapshotStore
}.

Definition with_tracker (t : FileReadTracker) (io : IoContext) : IoContext :=
  mk_io (io_yolo io) t (io_grants io) (io_snapshots io).
Definition with_grants (g : EditPermissionCache) (io : IoContext) : IoContext :=
  mk_io (io_yolo io) (io_tracker io) g (io_snapshots io).
Definition with_snapshots (s : option SnapshotStore) (io : IoContext) : IoContext :=
  mk_io (io_yolo io) (io_tracker io) (io_grants io) s.

(** The snapshot before an edit or a write: a failure is only logged. *)
Definition snapshot_first (now : Z) (fs : Fs) (io : option IoContext) (path : string) (content : option bytes)
    : Fs * option IoContext :=
  match content, io with
  | Some content, Some io =>
      match io_snapshots io with
      | Some store => let '(fs, store, _) := ensure_snapshot now fs store path content in (fs, Some (with_snapshots (Some store) io))
      | None => (fs, Some io)
      end
  | _, _ => (fs, io)
  end.

(** The tracker after an edit or a write. *)
Definition track_written (fs : Fs) (io : option IoContext) (path : string) (written : option bytes) : option IoContext :=
  match written, io, fs_modified fs path with
  | Some new_bytes, Some io, Some mtime => Some (with_tracker (update_after_edit (io_tracker io) path new_bytes mtime) io)
  | _, _, _ => io
  end.

(** The arms of [execute_tool] for the file tools, up to the event it sends; None for the others. The
    inner option is that of the preview. *)
Definition execute_tool `{DiffLib} (now : Z) (cwd : option string) (fs : Fs) (io : option IoContext) (tool : ClientToolCall)
    : option (Fs * option IoContext * (ToolOutcome * option ToolPreviewData)) :=
  match tool with
  | CEdit c =>
      let resolved := resolved_path cwd (ed_path c) in
      let old_content := fs_read fs resolved in
      let '(fs, io) := snapshot_first now fs io resolved old_content in
      let '(fs, outcome, new_content) := edit_execute now fs (from_option io_tracker ∅ io) resolved c in
      let io := track_written fs io resolved new_content in
      let preview := match old_content, new_content with
                     | Some old_bytes, Some new_bytes =>
                         diff ← compute (from_utf8_lossy old_bytes) (from_utf8_lossy new_bytes);
                         (if decide (hunks diff = []) then None else Some (PEdit diff))
                     | _, _ => None
                     end in
      Some (fs, io, (outcome, preview))
  | CWrite c =>
      let resolved := resolved_path cwd (wr_path c) in
      let '(fs, io) := snapshot_first now fs io resolved (fs_read fs resolved) in
      let '(fs, outcome, written) := write_execute now fs resolved c in
      let io := track_written fs io resolved written in
      Some (fs, io, (outcome, if is_error outcome then None else Some (PWrite (from_content (wr_content c)))))
  | CRead c =>
      let outcome := read_execute fs cwd c in
      let resolved := resolved_path cwd (rd_path c) in
      let io := if is_error outcome then io
                else match io, fs_read fs resolved, fs_modified fs resolved with
                     | Some io, Some content, Some mtime => Some (with_tracker (record_read (io_tracker io) resolved content mtime) io)
                     | _, _, _ => io
                     end in
      Some (fs, io, (outcome, None))
  | _ => None
  end.

(** [check_permission]; [resolved] is what the rules say ([PermissionResolver]). *)
Definition check_permission (now : Z) (cwd : option string) (io : option IoContext) (tool : ClientToolCall)
    (resolved : result Verdict string) : PermissionResponse :=
  match io with
  | None => PAsk
  | Some io =>
      if io_yolo io || is_auto_approved tool then PAllowed
      else if match resolved_file_path cwd tool with Some p => has_valid_grant (io_grants io) p now | None => false end
           then PSessionGranted
      else match resolved with
           | Ok Allowed => PAllowed
           | Ok Denied => PDenied
           | Ok Ask => PAsk
           | Err _ => PAsk
           end
  end.

(** What the effects of the machine do to the context: of those in [handle_fsm] only this one. *)
Definition io_effect `{Json} (now : Z) (io : option IoContext) (x : Effect) : option IoContext :=
  match x with
  | CacheSessionGrant path => (λ io, with_grants (grant (io_grants io) path now) io) <$> io
  | _ => io
  end.
End files.

(** ** The names of snapshots *)

(** One character of a name. *)
Definition encode_char (c : Ascii.ascii) : bytes :=
  if decide (c = percent) then chars "%25"
  else if decide (c = slash) then chars "%2F"
  else if decide (c = AiTools.backslash) then chars "%5C"
  else [c].

Lemma encode_name_chars s : chars (encode_name s) = chars s ≫= encode_char.
Proof.
  unfold encode_name. rewrite chars_unchars. induction (chars s) as [|c l IH]; [done|].
  change ((c :: l) ≫= encode_char) with (encode_char c ++ (l ≫= encode_char)). rewrite <- IH.
  rewrite replace_cons, !replace_app. f_equal. unfold encode_char. case_decide; [reflexivity|].
  rewrite replace_cons. case_decide; [reflexivity|]. cbn [app]. rewrite replace_cons. by case_decide.
Qed.

Lemma encode_char_plain c : encode_char c = [c] ∧ c ≠ percent ∧ c ≠ slash ∧ c ≠ AiTools.backslash ∨
  ∃ a b, encode_char c = [percent; a; b] ∧
    ((c, a, b) = (percent, byte 50, byte 53) ∨ (c, a, b) = (slash, byte 50, byte 70) ∨ (c, a, b) = (AiTools.backslash, byte 53, byte 67)).
Proof.
  unfold encode_char. repeat case_decide; subst; [right; eexists _, _; split; [reflexivity|]..|]; [by left|right; by left|right; by right|].
  by left.
Qed.

Lemma encode_chars_inj l1 l2 : l1 ≫= encode_char = l2 ≫= encode_char → l1 = l2.
Proof.
  revert l2. induction l1 as [|c1 l1 IH]; intros [|c2 l2] E; [done| | |].
  - destruct (encode_char_plain c2) as [(E2 & _)|(a & b & E2 & _)]; cbn in E; rewrite E2 in E; done.
  - destruct (encode_char_plain c1) as [(E1 & _)|(a & b & E1 & _)]; cbn in E; rewrite E1 in E; done.
  - change (encode_char c1 ++ (l1 ≫= encode_char) = encode_char c2 ++ (l2 ≫= encode_char)) in E.
    destruct (encode_char_plain c1) as [(E1 & Hc1 & _)|(a1 & b1 & E1 & H1)],
      (encode_char_plain c2) as [(E2 & Hc2 & _)|(a2 & b2 & E2 & H2)]; rewrite E1, E2 in E.
    + injection E as -> E. f_equal. by apply IH.
    + by injection E as -> _.
    + by injection E as <- _.
    + injection E as -> -> E. f_equal; [|by apply IH].
      destruct H1 as [H1|[H1|H1]], H2 as [H2|[H2|H2]]; simplify_eq; done.
Qed.

(** Different absolute paths have different names, which are names of files in one directory. *)
Lemma sanitize_inj p q :
  is_absolute p = true → is_absolute q = true → sanitize_path p = sanitize_path q → p = q.
Proof.
  unfold is_absolute, starts_with, sanitize_path. rewrite !bool_decide_eq_true. intros [a Ha] [b Hb]. rewrite Ha, Hb. intros E.
  assert (a = b) as <-.
  { apply chars_inj, encode_chars_inj. by rewrite <- !encode_name_chars, E. }
  unfold strip_prefix in *. destruct (strip_prefix_l _ (chars p)) as [lp|] eqn:Ep; [|done].
  destruct (strip_prefix_l _ (chars q)) as [lq|] eqn:Eq; [|done]. apply chars_inj.
  assert (∀ l r, strip_prefix_l (chars "/") l = Some r → l = chars "/" ++ r) as Hs.
  { intros [|c l] r; [done|]. cbn. case_decide; [|done]. by intros [= ->]; subst. }
  apply Hs in Ep as ->. apply Hs in Eq as ->. f_equal. injection Ha as <-. injection Hb as E2.
  rewrite <- (chars_unchars lp), <- (chars_unchars lq). congruence.
Qed.

Lemma sanitize_flat p : (slash ∉ chars (sanitize_path p)) ∧ (AiTools.backslash ∉ chars (sanitize_path p)).
Proof.
  unfold sanitize_path. generalize (match strip_prefix "/" p with Some s => s | None => strip_drive p end). intros s.
  rewrite encode_name_chars. split; intros (c & Hc & _)%list_elem_of_bind;
    destruct (encode_char_plain c) as [(E & _ & Hn1 & Hn2)|(a & b & E & Hv)]; rewrite E in Hc;
    repeat (apply elem_of_cons in Hc as [Hc|Hc]); try (by apply elem_of_nil in Hc); subst; try done;
    destruct Hv as [Hv|[Hv|Hv]]; simplify_eq.
Qed.

(** ** What writing a file changes *)

Lemma split_once_l_app c l x y : split_once_l c l = Some (x, y) → l = x ++ c :: y ∧ c ∉ x.
Proof.
  revert x y. induction l as [|a l IH]; intros x y; [done|]. cbn. case_decide as E.
  - intros [= <- <-]. subst. split; [done|apply not_elem_of_nil].
  - destruct (split_once_l c l) as [[x' y']|]; [|done]. intros [= <- <-]. destruct (IH x' y' eq_refl) as [-> Hn].
    split; [done|]. apply not_elem_of_cons. by split; [congruence|].
Qed.

Lemma split_once_l_first c x y : c ∉ x → split_once_l c (x ++ c :: y) = Some (x, y).
Proof.
  induction x as [|a x IH]; intros Hn; cbn; [by rewrite decide_True|].
  apply not_elem_of_cons in Hn as [Ha Hx]. rewrite decide_False by congruence. by rewrite IH.
Qed.

Lemma path_parent_prefix p q : path_parent p = Some q → chars q `prefix_of` chars p.
Proof.
  unfold path_parent. destruct (_ || _); [done|].
  destruct (split_once_l slash (reverse (chars p))) as [[x up]|] eqn:E.
  - apply split_once_l_app in E as [E _]. apply (f_equal reverse) in E. rewrite reverse_involutive in E.
    rewrite reverse_app, reverse_cons in E. rewrite E.
    destruct up as [|u up]; intros [= <-]; [by exists (reverse x)|].
    rewrite chars_unchars, <- app_assoc. by apply prefix_app_r.
  - intros [= <-]. apply prefix_nil.
Qed.

Lemma dirs_of_prefix d a : a ∈ dirs_of d → chars a `prefix_of` chars d.
Proof.
  unfold dirs_of. generalize (String.length d). intros fuel. revert d.
  induction fuel as [|fuel IH]; intros d; cbn; [by intros ->%list_elem_of_singleton|].
  destruct (path_parent d) as [q|] eqn:E; [|by intros ->%list_elem_of_singleton].
  intros [->|Ha]%elem_of_cons; [done|]. etrans; [by apply IH|]. by apply path_parent_prefix.
Qed.

Section fs_lemmas.
Context `{FilesLib}.

(** Nothing but new directories among [ds]. *)
Definition only_dirs (ds : list string) (fs fs' : Fs) : Prop :=
  ∀ p, fs' !! p = fs !! p ∨ fs !! p = None ∧ fs' !! p = Some NDir ∧ p ∈ ds.

Lemma only_dirs_refl ds fs : only_dirs ds fs fs.
Proof. intros p. by left. Qed.

Lemma only_dirs_trans ds fs1 fs2 fs3 : only_dirs ds fs1 fs2 → only_dirs ds fs2 fs3 → only_dirs ds fs1 fs3.
Proof.
  intros H1 H2 p. destruct (H1 p) as [E1|(? & ? & ?)], (H2 p) as [E2|(? & ? & ?)];
    [left; congruence|right; split_and!; congruence || done..].
Qed.

Lemma make_dirs_frame ds0 ds acc : (∀ d, d ∈ ds → d ∈ ds0) → only_dirs ds0 acc.1 (foldl make_dir acc ds).1.
Proof.
  revert acc. induction ds as [|d ds IH]; intros acc Hd; [apply only_dirs_refl|]. cbn [foldl].
  eapply only_dirs_trans; [|apply IH; intros; apply Hd; by right]. unfold make_dir. destruct acc as [fs [[]|e]]; [|apply only_dirs_refl].
  cbn [fst snd]. destruct (fs !! d) as [[f|]|] eqn:E; [apply only_dirs_refl..|]. case_bool_decide; [apply only_dirs_refl|].
  destruct (can_write d); [|apply only_dirs_refl]. cbn [fst]. intros p. destruct (decide (p = d)) as [->|Hne].
  - right. rewrite lookup_insert_eq. split_and!; [done|done|]. apply Hd. left.
  - left. by rewrite lookup_insert_ne.
Qed.

Lemma create_dir_all_frame fs d : only_dirs (dirs_of d) fs (create_dir_all fs d).1.
Proof. apply (make_dirs_frame _ _ (fs, Ok tt)). intros a. by rewrite elem_of_reverse. Qed.

(** A directory that is there, or can be made. *)
Definition dir_ok (fs : Fs) (d : string) : Prop := fs !! d = Some NDir ∨ fs !! d = None ∧ can_write d = true.

Lemma make_dirs_ok ds fs : (∀ d, d ∈ ds → dir_ok fs d) → (foldl make_dir (fs, Ok tt) ds).2 = Ok tt.
Proof.
  revert fs. induction ds as [|d ds IH]; intros fs Hd; [done|]. cbn [foldl].
  assert (∀ a, a ∈ ds → dir_ok fs a) as Hd' by (intros a Ha; apply Hd; by right).
  unfold make_dir at 2. cbn [fst snd]. destruct (Hd d) as [->|[-> Hw]]; [left|by apply IH|].
  case_bool_decide; [by apply IH|]. rewrite Hw. apply IH. intros a Ha. unfold dir_ok.
  destruct (decide (a = d)) as [->|Hne]; [left; by rewrite lookup_insert_eq|rewrite lookup_insert_ne by done; by apply Hd'].
Qed.

Lemma create_dir_all_ok fs d : (∀ a, a ∈ dirs_of d → dir_ok fs a) → (create_dir_all fs d).2 = Ok tt.
Proof. intros Ha. apply make_dirs_ok. intros a. rewrite elem_of_reverse. apply Ha. Qed.

(** A write that succeeds changes its target, and makes directories above it. *)
Lemma atomic_write_frame now fs t c fs' r :
  atomic_write_file now fs t c = (fs', r) →
  ∃ fs1, only_dirs (from_option dirs_of [] (path_parent t)) fs fs1 ∧
    match r with
    | Ok _ => ∃ mode, fs' = <[t := NFile (mk_file c now mode)]> fs1
    | Err _ => fs' = fs1
    end.
Proof.
  unfold atomic_write_file. destruct (path_parent t) as [d|]; [|intros [= <- <-]; exists fs; by split; [apply only_dirs_refl|]].
  pose proof (create_dir_all_frame fs d) as Hf. destruct (create_dir_all fs d) as [fs1 [[]|e]]; cbn [fst] in Hf; [|by intros [= <- <-]; exists fs1].
  destruct (can_write t); [|by intros [= <- <-]; exists fs1].
  destruct (fs1 !! t) as [[f|]|]; intros [= <- <-]; exists fs1; (split; [done|]); by try eexists.
Qed.

Lemma atomic_write_ok now fs t c d :
  path_parent t = Some d → (∀ a, a ∈ dirs_of d → dir_ok fs a) →
  can_write t = true → is_dir fs t = false → t ∉ dirs_of d → ∃ fs', atomic_write_file now fs t c = (fs', Ok tt).
Proof.
  intros Hp Hd Hw Ht Hn. unfold atomic_write_file. rewrite Hp.
  pose proof (create_dir_all_frame fs d) as Hf. pose proof (create_dir_all_ok fs d Hd) as Ho.
  destruct (create_dir_all fs d) as [fs1 r]; cbn [fst snd] in *. subst r. rewrite Hw.
  unfold is_dir in Ht. destruct (Hf t) as [->|(? & ? & ?)]; [|done]. destruct (fs !! t) as [[f|]|]; [|done|]; by eexists.
Qed.

Lemma atomic_write_refused now fs t c d :
  path_parent t = Some d → can_write t = false → ∃ e, atomic_write_file now fs t c = ((create_dir_all fs d).1, Err e).
Proof. intros Hp Hw. unfold atomic_write_file. rewrite Hp, Hw. destruct (create_dir_all fs d) as [fs1 [[]|e]]; by eexists. Qed.
End fs_lemmas.

(** ** The snapshot directory *)

(** The directory itself, those above it, and all that is below. *)
Definition private (dir p : string) : Prop := p ∈ dirs_of dir ∨ chars dir ++ [slash] `prefix_of` chars p.

(** A directory as [data_dir().join(..)] makes it. *)
Definition plain_dir (dir : string) : Prop := dir ≠ ""%string ∧ ends_with "/" dir = false.

Lemma path_join_flat dir name : plain_dir dir → slash ∉ chars name → chars (path_join dir name) = chars dir ++ slash :: chars name.
Proof.
  intros [Hne Hend] Hn. unfold path_join. assert (is_absolute name = false) as ->.
  { unfold is_absolute, starts_with. apply bool_decide_eq_false. intros [r Hr]. unfold strip_prefix in Hr.
    destruct (chars name) as [|c l]; [done|]. cbn in Hr. case_decide; [subst|done]. apply Hn. left. }
  rewrite bool_decide_eq_false_2 by done. rewrite Hend. cbn [orb]. rewrite !chars_app. done.
Qed.

Lemma path_join_inj dir n1 n2 : plain_dir dir → slash ∉ chars n1 → slash ∉ chars n2 → path_join dir n1 = path_join dir n2 → n1 = n2.
Proof.
  intros Hd H1 H2 E. apply (f_equal chars) in E. rewrite !path_join_flat in E by done.
  apply app_inv_head in E. injection E as E. by apply chars_inj.
Qed.

Lemma path_join_below dir name : plain_dir dir → slash ∉ chars name → chars dir ++ [slash] `prefix_of` chars (path_join dir name).
Proof. intros Hd Hn. rewrite path_join_flat by done. exists (chars name). by rewrite <- app_assoc. Qed.

Lemma path_parent_join dir name : plain_dir dir → slash ∉ chars name → path_parent (path_join dir name) = Some dir.
Proof.
  intros Hd Hn. pose proof (path_join_flat dir name Hd Hn) as E. destruct Hd as [Hne _]. unfold path_parent.
  assert (chars dir ≠ []) as Hc by (intros E0; apply Hne, chars_inj; by rewrite E0).
  rewrite !bool_decide_eq_false_2.
  - cbn [orb]. rewrite E, reverse_app, reverse_cons, <- app_assoc. cbn [app].
    rewrite split_once_l_first by (by rewrite elem_of_reverse).
    destruct (reverse (chars dir)) as [|u up] eqn:Er; [by apply (f_equal reverse) in Er; rewrite reverse_involutive in Er|].
    rewrite <- Er, reverse_involutive. by rewrite unchars_chars.
  - intros E0. rewrite E0 in E. by destruct (chars dir) as [|? [|]].
  - intros E0. rewrite E0 in E. by destruct (chars dir).
Qed.

Lemma private_or_not dir p : private dir p ∨ ¬ private dir p.
Proof.
  unfold private. destruct (decide (p ∈ dirs_of dir)); [left; by left|].
  destruct (decide (chars dir ++ [slash] `prefix_of` chars p)); [left; by right|]. right. by intros [?|?].
Qed.

(** A file below the directory is not above it. *)
Lemma below_not_above dir p : chars dir ++ [slash] `prefix_of` chars p → p ∉ dirs_of dir.
Proof.
  intros [k E] Hp%dirs_of_prefix. apply prefix_length in Hp. rewrite E, !length_app in Hp. cbn in Hp. lia.
Qed.

Lemma manifest_flat : slash ∉ chars "manifest.json".
Proof. apply (bool_decide_unpack _). vm_compute. exact I. Qed.

Section snapshot_lemmas.
Context `{FilesLib} (dir : string) (Hdir : plain_dir dir).

(** The directory is there or can be made, and there is no directory in it. *)
Definition place_ok (fs : Fs) : Prop :=
  (∀ a, a ∈ dirs_of dir → dir_ok fs a) ∧
  (∀ name, slash ∉ chars name → is_dir fs (path_join dir name) = false).

(** The private part of the file system is kept, but for directories made above. *)
Definition keeps (fs fs' : Fs) : Prop :=
  ∀ p, private dir p → fs' !! p = fs !! p ∨ fs !! p = None ∧ fs' !! p = Some NDir ∧ p ∈ dirs_of dir.

Lemma keeps_place fs fs' : keeps fs fs' → place_ok fs → place_ok fs'.
Proof.
  intros Hk [Ha Hn]. split.
  - intros a Hin. unfold dir_ok in *. destruct (Hk a) as [->|(_ & -> & _)]; [by left|by apply Ha|by left].
  - intros name Hf. pose proof (path_join_below dir name Hdir Hf) as Hb. unfold is_dir in *.
    destruct (Hk (path_join dir name)) as [->|(_ & _ & Hin)]; [by right|by apply Hn|by destruct (below_not_above _ _ Hb Hin)].
Qed.

Lemma keeps_file fs fs' name f :
  keeps fs fs' → slash ∉ chars name → fs !! path_join dir name = Some (NFile f) → fs' !! path_join dir name = Some (NFile f).
Proof.
  intros Hk Hn Hf. destruct (Hk (path_join dir name)) as [->|(E & _)]; [right; by apply path_join_below|done|congruence].
Qed.

(** A write elsewhere. *)
Lemma write_keeps now fs t c fs' r : ¬ private dir t → atomic_write_file now fs t c = (fs', r) → keeps fs fs'.
Proof.
  intros Ht (fs1 & Ho & Hr)%atomic_write_frame p Hp.
  assert (fs' !! p = fs1 !! p) as ->.
  { destruct r as [[]|]; [destruct Hr as [mode ->]|by subst]. rewrite lookup_insert_ne; [done|]. by intros ->. }
  destruct (Ho p) as [->|(E1 & E2 & Hin)]; [by left|]. right. split_and!; [done|done|].
  destruct Hp as [Hp|Hp]; [done|]. destruct Ht. right. etrans; [exact Hp|].
  destruct (path_parent t) as [d|] eqn:Ed; [|by apply elem_of_nil in Hin]. cbn in Hin.
  etrans; [by apply dirs_of_prefix|by apply path_parent_prefix].
Qed.

(** A write of a file of the directory. *)
Lemma private_write now fs name c :
  place_ok fs → slash ∉ chars name → can_write (path_join dir name) = true →
  ∃ fs' mode, atomic_write_file now fs (path_join dir name) c = (fs', Ok tt) ∧ place_ok fs' ∧
    fs' !! path_join dir name = Some (NFile (mk_file c now mode)) ∧
    ∀ q, q ≠ path_join dir name → fs' !! q = fs !! q ∨ fs !! q = None ∧ fs' !! q = Some NDir ∧ q ∈ dirs_of dir.
Proof.
  intros [Ha Hn] Hf Hcw. pose proof (path_join_below dir name Hdir Hf) as Hb.
  destruct (atomic_write_ok now fs (path_join dir name) c dir) as [fs' E].
  { by apply path_parent_join. } { done. } { done. } { by apply Hn. } { by apply below_not_above. }
  destruct (atomic_write_frame _ _ _ _ _ _ E) as (fs1 & Ho & mode & ->). rewrite path_parent_join in Ho by done. cbn in Ho.
  exists (<[path_join dir name := NFile (mk_file c now mode)]> fs1), mode.
  assert (∀ q, q ≠ path_join dir name → <[path_join dir name := NFile (mk_file c now mode)]> fs1 !! q = fs1 !! q) as Hne
    by (intros q Hq; by rewrite lookup_insert_ne).
  split_and!; [done| |by rewrite lookup_insert_eq|intros q Hq; rewrite Hne by done; apply Ho].
  split.
  - intros a Hin. unfold dir_ok. rewrite Hne by (intros ->; by destruct (below_not_above _ _ Hb)).
    destruct (Ho a) as [->|(_ & -> & _)]; [by apply Ha|by left].
  - intros n Hfn. unfold is_dir. destruct (decide (path_join dir n = path_join dir name)) as [->|Hq]; [by rewrite lookup_insert_eq|].
    rewrite Hne by done. destruct (Ho (path_join dir n)) as [->|(_ & _ & Hin)]; [by apply Hn|].
    by destruct (below_not_above _ _ (path_join_below dir n Hdir Hfn)).
Qed.

Lemma create_dir_place fs : place_ok fs → ∃ fs', create_dir_all fs dir = (fs', Ok tt) ∧ place_ok fs' ∧
  ∀ q, fs' !! q = fs !! q ∨ fs !! q = None ∧ fs' !! q = Some NDir ∧ q ∈ dirs_of dir.
Proof.
  intros Hp. pose proof (create_dir_all_frame fs dir) as Hf. pose proof (create_dir_all_ok fs dir) as Ho.
  destruct (create_dir_all fs dir) as [fs' r]. cbn [fst snd] in *. exists fs'. split_and!.
  - f_equal. apply Ho. apply Hp.
  - eapply keeps_place; [|exact Hp]. intros p _. apply Hf.
  - exact Hf.
Qed.

(** The snapshot of a path can be written. *)
Definition takes_snapshot (path : string) : Prop := can_write (path_join dir (sanitize_path path)) = true.

(** Where it cannot, directories may be made, and nothing is listed. *)
Lemma ensure_refused now fs m path content :
  place_ok fs → ¬ takes_snapshot path → m !! sanitize_path path = None →
  ∃ fs' e, ensure_snapshot now fs (mk_store dir m) path content = (fs', mk_store dir m, Err e) ∧ place_ok fs' ∧
    ∀ q, fs' !! q = fs !! q ∨ fs !! q = None ∧ fs' !! q = Some NDir ∧ q ∈ dirs_of dir.
Proof.
  intros Hp Ht%not_true_is_false Hm. destruct (sanitize_flat path) as [Hf _]. unfold ensure_snapshot. cbn [manifest session_dir]. rewrite Hm.
  destruct (create_dir_place fs Hp) as (fs1 & -> & Hp1 & Hq1).
  destruct (atomic_write_refused now fs1 (path_join dir (sanitize_path path)) content dir) as [e ->]; [by apply path_parent_join|done|].
  destruct (create_dir_place fs1 Hp1) as (fs2 & -> & Hp2 & Hq2). exists fs2, e. split_and!; [done|done|].
  exact (only_dirs_trans (dirs_of dir) fs fs1 fs2 Hq1 Hq2).
Qed.

(** A first snapshot: the content and the list of the snapshots are written, nothing else. *)
Lemma ensure_first now fs m path content :
  place_ok fs → takes_snapshot path → can_write (manifest_path dir) = true → m !! sanitize_path path = None →
  ∃ fs' entry mode mode',
    ensure_snapshot now fs (mk_store dir m) path content = (fs', mk_store dir (<[sanitize_path path := entry]> m), Ok true) ∧
    place_ok fs' ∧
    (sanitize_path path ≠ "manifest.json"%string →
       fs' !! path_join dir (sanitize_path path) = Some (NFile (mk_file content now mode))) ∧
    fs' !! manifest_path dir = Some (NFile (mk_file (chars (manifest_json (<[sanitize_path path := entry]> m))) now mode')) ∧
    ∀ q, q ≠ path_join dir (sanitize_path path) → q ≠ manifest_path dir →
      fs' !! q = fs !! q ∨ fs !! q = None ∧ fs' !! q = Some NDir ∧ q ∈ dirs_of dir.
Proof.
  intros Hp Hts Hcm Hm. destruct (sanitize_flat path) as [Hf _]. unfold ensure_snapshot. cbn [manifest session_dir]. rewrite Hm.
  destruct (create_dir_place fs Hp) as (fs1 & -> & Hp1 & Hq1).
  destruct (private_write now fs1 (sanitize_path path) content Hp1 Hf Hts) as (fs2 & mode & -> & Hp2 & Hw2 & Hq2).
  set (entry := mk_entry _ _ _). unfold save_manifest. cbn [session_dir manifest].
  destruct (private_write now fs2 "manifest.json" (chars (manifest_json (<[sanitize_path path := entry]> m))) Hp2 manifest_flat Hcm)
    as (fs3 & mode' & E3 & Hp3 & Hw3 & Hq3). unfold manifest_path. rewrite E3.
  exists fs3, entry, mode, mode'. split_and!; [done|done| |done|].
  - intros Hne. destruct (Hq3 (path_join dir (sanitize_path path))) as [->|(E & _)]; [|done|congruence].
    intros E. apply Hne. exact (path_join_inj dir _ _ Hdir Hf manifest_flat E).
  - intros q H1 H2. destruct (Hq3 q H2) as [->|(E & ? & ?)].
    + destruct (Hq2 q H1) as [->|(E & ? & ?)]; [apply Hq1|]. right. split_and!; [|done|done].
      destruct (Hq1 q) as [<-|(? & ? & _)]; [done|congruence].
    + right. split_and!; [|done|done]. destruct (Hq2 q H1) as [E2|(E2 & ? & _)]; [|congruence]. rewrite E2 in E.
      destruct (Hq1 q) as [<-|(? & ? & _)]; [done|congruence].
Qed.
End snapshot_lemmas.

(** ** The assistant among other programs *)

(** A tool call, or what another program does to a file, which may set any time on it. *)
Inductive Act : Type :=
| ATool (c : ClientToolCall)
| AWrite (p : string) (content : bytes) (mtime mode : Z)
| AMkdir (p : string)
| ADelete (p : string).

(** With the state, what the assistant has last seen of each file, and the content of each file when a
    tool was first to change it. *)
Record FileWorld : Type := mk_fw {
  w_fs : Fs; w_io : IoContext; w_seen : gmap string bytes; w_first : gmap string bytes
}.

Section acts.
Context `{FilesLib, DiffLib} (cwd : option string).

Definition saw (fs fs' : Fs) (c : ClientToolCall) (seen : gmap string bytes) : gmap string bytes :=
  match c with
  | CRead r => let p := resolved_path cwd (rd_path r) in
               match fs_read fs p with Some content => <[p := content]> seen | None => seen end
  | CEdit e => let p := resolved_path cwd (ed_path e) in
               match fs' !! p with Some (NFile f) => <[p := f_bytes f]> seen | _ => seen end
  | CWrite t => let p := resolved_path cwd (wr_path t) in
                match fs' !! p with Some (NFile f) => <[p := f_bytes f]> seen | _ => seen end
  | _ => seen
  end.

(** The path that a call may change. *)
Definition changes (c : ClientToolCall) : option string :=
  match c with
  | CEdit e => Some (resolved_path cwd (ed_path e))
  | CWrite t => Some (resolved_path cwd (wr_path t))
  | _ => None
  end.

Definition met (fs : Fs) (c : ClientToolCall) (first : gmap string bytes) : gmap string bytes :=
  match changes c with
  | Some p => match fs_read fs p, first !! p with Some content, None => <[p := content]> first | _, _ => first end
  | None => first
  end.

Definition act (now : Z) (w : FileWorld) (a : Act) : FileWorld :=
  match a with
  | ATool c =>
      match execute_tool now cwd (w_fs w) (Some (w_io w)) c with
      | Some (fs', Some io', (outcome, _)) =>
          mk_fw fs' io' (if is_error outcome then w_seen w else saw (w_fs w) fs' c (w_seen w)) (met (w_fs w) c (w_first w))
      | _ => w
      end
  | AWrite p content mtime mode => mk_fw (<[p := NFile (mk_file content mtime mode)]> (w_fs w)) (w_io w) (w_seen w) (w_first w)
  | AMkdir p => mk_fw (<[p := NDir]> (w_fs w)) (w_io w) (w_seen w) (w_first w)
  | ADelete p => mk_fw (delete p (w_fs w)) (w_io w) (w_seen w) (w_first w)
  end.

Definition acts (l : list (Z * Act)) (w : FileWorld) : FileWorld := foldl (λ w a, act a.1 w a.2) w l.

(** No write of another program puts the very time on a file, in milliseconds, that is recorded of it. *)
Fixpoint unmasked (l : list (Z * Act)) (w : FileWorld) : Prop :=
  match l with
  | [] => True
  | (now, a) :: l =>
      match a with
      | AWrite p _ mtime _ => ∀ st, io_tracker (w_io w) !! p = Some st → system_time_to_ms mtime ≠ mtime_ms st
      | _ => True
      end ∧ unmasked l (act now w a)
  end.
End acts.

(** ** Files that were read and have not changed *)

Section tracking.
Context `{FilesLib, DiffLib} (cwd : option string).

(** Every file of [fs'] outside of [P] was there before. *)
Definition same_but (P : string → Prop) (fs fs' : Fs) : Prop :=
  ∀ q f, fs' !! q = Some (NFile f) → P q ∨ fs !! q = Some (NFile f).

Lemma same_but_refl P fs : same_but P fs fs.
Proof. intros q f Hf. by right. Qed.

Lemma atomic_write_same now fs t c fs' r :
  atomic_write_file now fs t c = (fs', r) → same_but (λ q, q = t ∧ r = Ok tt) fs fs'.
Proof.
  intros (fs1 & Ho & Hr)%atomic_write_frame q f Hf.
  assert (fs1 !! q = Some (NFile f) → fs !! q = Some (NFile f)) as Hd by (destruct (Ho q) as [->|(_ & -> & _)]; done).
  destruct r as [[]|]; [|right; apply Hd; congruence]. destruct Hr as [mode ->]. destruct (decide (q = t)) as [->|Hne]; [by left|].
  rewrite lookup_insert_ne in Hf by done. right. by apply Hd.
Qed.

Lemma snapshot_first_io now fs io p content :
  ∃ s, snapshot_first now fs (Some io) p content = ((snapshot_first now fs (Some io) p content).1, Some (with_snapshots s io)).
Proof.
  unfold snapshot_first. assert (with_snapshots (io_snapshots io) io = io) as Hio by (by destruct io).
  destruct content as [content|]; [|exists (io_snapshots io); by rewrite Hio].
  destruct (io_snapshots io) as [s|] eqn:E; [|exists None; by rewrite Hio].
  destruct (ensure_snapshot now fs s p content) as [[fs' s'] r]. by exists (Some s').
Qed.

(** What an edit did when it answers with content. *)
Lemma edit_execute_spec now fs tr p c fs' o written :
  edit_execute now fs tr p c = (fs', o, written) →
  same_but (λ q, q = p ∧ is_Some written) fs fs' ∧
  match written with
  | None => is_error o = true
  | Some b => is_error o = false ∧ check_freshness fs tr p = Ok Fresh ∧
      ∃ f n mode, fs !! p = Some (NFile f) ∧ can_read p = true ∧ edited c p (f_bytes f) = Ok (b, n) ∧
        fs' !! p = Some (NFile (mk_file b now mode))
  end.
Proof.
  assert (∀ P, same_but P fs fs) as Hsame by (intros; apply same_but_refl).
  unfold edit_execute, fs_read. destruct (fs !! p) as [[f|]|] eqn:Ef; [|by intros [= <- <- <-]..].
  case_decide; [by intros [= <- <- <-]|]. destruct (check_freshness fs tr p) as [[| |]|e] eqn:Ec; [|by intros [= <- <- <-]..].
  destruct (can_read p) eqn:Er; [|by intros [= <- <- <-]]. cbn [mbind option_bind]. unfold from_utf8.
  destruct (valid_utf8 _); [|by intros [= <- <- <-]]. destruct (edited c p (f_bytes f)) as [[b n]|e] eqn:Ee; [|by intros [= <- <- <-]].
  destruct (atomic_write_file now fs p b) as [fs1 r] eqn:Ew. pose proof (atomic_write_same _ _ _ _ _ _ Ew) as Hs.
  assert (same_but (λ q, q = p ∧ is_Some (if r is Ok _ then Some b else None)) fs fs1) as Hs'.
  { intros q g Hg. destruct (Hs q g Hg) as [[-> ->]|?]; [left; split; [done|by eexists]|by right]. }
  destruct r as [[]|e]; intros [= <- <- <-]; [|done].
  apply atomic_write_frame in Ew as (fs2 & _ & mode & ->). split_and!; try done. exists f, n, mode. by rewrite lookup_insert_eq.
Qed.

Lemma write_execute_spec now fs p c fs' o written :
  write_execute now fs p c = (fs', o, written) →
  same_but (λ q, q = p ∧ is_Some written) fs fs' ∧
  match written with
  | None => is_error o = true
  | Some b => is_error o = false ∧ b = chars (wr_content c) ∧ is_dir fs p = false ∧ (exists_ fs p = true → wr_overwrite c = true) ∧
      ∃ mode, fs' !! p = Some (NFile (mk_file b now mode))
  end.
Proof.
  assert (∀ P, same_but P fs fs) as Hsame by (intros; apply same_but_refl).
  unfold write_execute. destruct (is_dir fs p) eqn:Ed; [by intros [= <- <- <-]|].
  destruct (exists_ fs p && negb (wr_overwrite c)) eqn:Ex; [by intros [= <- <- <-]|].
  destruct (atomic_write_file now fs p _) as [fs1 r] eqn:Ew. pose proof (atomic_write_same _ _ _ _ _ _ Ew) as Hs.
  assert (same_but (λ q, q = p ∧ is_Some (if r is Ok _ then Some (chars (wr_content c)) else None)) fs fs1) as Hs'.
  { intros q g Hg. destruct (Hs q g Hg) as [[-> ->]|?]; [left; split; [done|by eexists]|by right]. }
  destruct r as [[]|e]; intros [= <- <- <-]; [|done].
  apply atomic_write_frame in Ew as (fs2 & _ & mode & ->). split_and!; try done.
  - intros Hx. rewrite Hx in Ex. by destruct (wr_overwrite c).
  - exists mode. by rewrite lookup_insert_eq.
Qed.

(** ** Replacing *)

Fixpoint interleave (sep : bytes) (parts : list bytes) : bytes :=
  match parts with
  | [] => []
  | [x] => x
  | x :: parts => x ++ sep ++ interleave sep parts
  end.

Lemma strip_prefix_l_Some {A} `{EqDecision A} (p l r : list A) : strip_prefix_l p l = Some r → l = p ++ r.
Proof.
  revert l. induction p as [|x p IH]; intros l; cbn; [by intros [= ->]|]. destruct l as [|y l]; [done|].
  case_decide; [|done]. subst. intros E%IH. by subst.
Qed.

Lemma replace_parts p w fuel l : p ≠ [] → (length l ≤ fuel)%nat →
  ∃ parts, l = interleave p parts ∧ replace_text fuel p w l = interleave w parts ∧ length parts = S (count_from fuel p l).
Proof.
  intros Hp. revert l. induction fuel as [|fuel IH]; intros l Hl.
  { destruct l; [|cbn in Hl; lia]. by exists [[]]. }
  destruct l as [|c l]; [by exists [[]]|]. cbn [replace_text count_from]. destruct (strip_prefix_l p (c :: l)) as [r|] eqn:E.
  - apply strip_prefix_l_Some in E. assert (length r ≤ fuel)%nat as Hr.
    { apply (f_equal length) in E. rewrite length_app in E. destruct p; [done|]. cbn in *. lia. }
    destruct (IH r Hr) as ([|x parts] & E1 & E2 & E3); [done|]. exists ([] :: x :: parts). rewrite E, E2. cbn [length] in *.
    split_and!; [by rewrite E1 at 1|done|lia].
  - destruct (IH l) as ([|x parts] & E1 & E2 & E3); [cbn in Hl; lia|done|]. exists ((c :: x) :: parts). rewrite E2. cbn [length] in *.
    split_and!; [rewrite E1 at 1; by destruct parts|by destruct parts|done].
Qed.

Lemma replace_none p w fuel l : count_from fuel p l = O → replace_text fuel p w l = l.
Proof.
  revert l. induction fuel as [|fuel IH]; intros [|c l]; cbn; try done. destruct (strip_prefix_l p (c :: l)); [done|].
  intros E. by rewrite IH.
Qed.

Lemma replace_first_once p w fuel l : (length l ≤ fuel)%nat → p ≠ [] → count_from fuel p l = 1%nat → replace_first p w l = replace_text fuel p w l.
Proof.
  intros Hl Hp. revert l Hl. induction fuel as [|fuel IH]; intros l Hl; [by destruct l|].
  destruct l as [|c l]; [done|]. cbn [count_from replace_text replace_first]. destruct (strip_prefix_l p (c :: l)) as [r|].
  - intros [= E]. by rewrite replace_none.
  - intros E. f_equal. apply IH; [cbn in Hl; lia|done].
Qed.

(** An edit that is accepted replaces the occurrences of the old text, of which there is one unless all
    were to be replaced. *)
Lemma edited_replaces c p content b n :
  ed_old_string c ≠ ""%string → edited c p content = Ok (b, n) →
  ∃ parts, content = interleave (chars (ed_old_string c)) parts ∧ b = interleave (chars (ed_new_string c)) parts ∧
    length parts = S n ∧ (0 < n)%nat ∧ (ed_replace_all c = false → n = 1%nat).
Proof.
  intros Hne. assert (chars (ed_old_string c) ≠ []) as Hp by (intros E; apply Hne, chars_inj; by rewrite E).
  unfold edited, count_matches, str_replace. set (old := chars (ed_old_string c)) in *. set (new_ := chars (ed_new_string c)).
  destruct (replace_parts old new_ (length content) content Hp) as (parts & E1 & E2 & E3); [done|].
  destruct (count_from (length content) old content) as [|k] eqn:Ec; [done|].
  destruct (ed_replace_all c) eqn:Er.
  - rewrite andb_false_r. intros [= <- <-]. exists parts. split_and!; [done|done|done|lia|done].
  - rewrite andb_true_r. destruct (Nat.ltb_spec 1 (S k)); [done|]. assert (k = 0)%nat as -> by lia.
    intros [= <- <-]. exists parts. rewrite (replace_first_once _ _ (length content)) by done. split_and!; [done|done|done|lia|done].
Qed.
End tracking.

(** ** Snapshots of what is about to change *)

Lemma is_absolute_iff p : is_absolute p = true ↔ ∃ l, chars p = slash :: l.
Proof.
  unfold is_absolute, starts_with, strip_prefix. rewrite bool_decide_eq_true. destruct (chars p) as [|c l]; cbn.
  - split; [by intros [? ?]|by intros [? ?]].
  - case_decide as E.
    + split; [|by eexists]. intros _. exists l. by rewrite <- E.
    + split; [by intros [? ?]|]. intros [l' El]. injection El as -> _. by destruct E.
Qed.

Lemma resolved_absolute d p : is_absolute d = true → is_absolute (resolved_path (Some d) p) = true.
Proof.
  intros Hd. unfold resolved_path, is_relative. destruct (is_absolute p) eqn:Hp; [done|]. cbn [negb]. unfold path_join. rewrite Hp.
  apply is_absolute_iff in Hd as [l Hl]. destruct (_ || _); apply is_absolute_iff; rewrite !chars_app, Hl; by eexists.
Qed.

Section snapshots.
Context `{FilesLaws, DiffLib} (dir d : string).
Context (Hdir : plain_dir dir) (Habs : is_absolute d = true).
Context (Hlist : can_write (manifest_path dir) = true) (Hread : can_read (manifest_path dir) = true).
Abbreviation cwd := (Some d).

(** Outside the directory a snapshot changes nothing. *)
Lemma private_write_public now fs name c q :
  slash ∉ chars name → ¬ private dir q → (atomic_write_file now fs (path_join dir name) c).1 !! q = fs !! q.
Proof.
  intros Hn Hq. destruct (atomic_write_file _ _ _ _) as [fs' r] eqn:E. apply atomic_write_frame in E as (fs1 & Ho & Hr).
  rewrite path_parent_join in Ho by done. cbn in Ho |- *.
  assert (fs' !! q = fs1 !! q) as ->.
  { destruct r as [[]|]; [destruct Hr as [mode ->]|by subst]. rewrite lookup_insert_ne; [done|].
    intros <-. apply Hq. right. by apply path_join_below. }
  destruct (Ho q) as [->|(_ & _ & Hin)]; [done|]. destruct Hq. by left.
Qed.

Lemma ensure_public now fs m path content q :
  ¬ private dir q → (ensure_snapshot now fs (mk_store dir m) path content).1.1 !! q = fs !! q.
Proof.
  intros Hq. destruct (sanitize_flat path) as [Hf _]. unfold ensure_snapshot. cbn [manifest session_dir]. destruct (m !! _); [done|].
  assert ((create_dir_all fs dir).1 !! q = fs !! q) as Hd1.
  { destruct (create_dir_all_frame fs dir q) as [->|(_ & _ & Hin)]; [done|]. destruct Hq. by left. }
  destruct (create_dir_all fs dir) as [fs1 [[]|e]]; cbn [fst] in Hd1; [|done]. rewrite <- Hd1.
  pose proof (private_write_public now fs1 (sanitize_path path) content q Hf Hq) as Hd2.
  destruct (atomic_write_file now fs1 _ _) as [fs2 [[]|e]]; cbn [fst] in Hd2; [|done]. rewrite <- Hd2.
  unfold save_manifest, manifest_path. cbn [session_dir manifest].
  match goal with |- context [atomic_write_file now fs2 _ ?x] => pose proof (private_write_public now fs2 "manifest.json" x q manifest_flat Hq) as Hd3 end.
  by destruct (atomic_write_file now fs2 _ _) as [fs3 [[]|e]].
Qed.

Lemma snapshot_first_public now fs io m p content q :
  io_snapshots io = Some (mk_store dir m) → ¬ private dir q → (snapshot_first now fs (Some io) p content).1 !! q = fs !! q.
Proof.
  intros Hs Hq. unfold snapshot_first. destruct content as [content|]; [|done]. rewrite Hs.
  pose proof (ensure_public now fs m p content q Hq) as He. by destruct (ensure_snapshot _ _ _ _ _) as [[fs' s'] r].
Qed.

(** The store stays where it is. *)
Definition store_at (io : IoContext) : Prop := ∃ m, io_snapshots io = Some (mk_store dir m).

Lemma ensure_dir now fs s path content : session_dir (ensure_snapshot now fs s path content).1.2 = session_dir s.
Proof.
  unfold ensure_snapshot. destruct (manifest s !! _); [done|]. destruct (create_dir_all _ _) as [fs1 [[]|e]]; [|done].
  destruct (atomic_write_file now fs1 _ _) as [fs2 [[]|e]]; [|done]. by destruct (save_manifest now fs2 _) as [fs3 [[]|e]].
Qed.

Lemma snapshot_first_store now fs io p content :
  store_at io → ∃ s, snapshot_first now fs (Some io) p content = ((snapshot_first now fs (Some io) p content).1, Some (with_snapshots s io)) ∧
    store_at (with_snapshots s io).
Proof.
  intros [m Hm]. unfold snapshot_first, store_at. assert (with_snapshots (io_snapshots io) io = io) as Hio by (by destruct io).
  destruct content as [content|]; [|exists (io_snapshots io); rewrite Hio; split; [done|by exists m]].
  rewrite Hm. pose proof (ensure_dir now fs (mk_store dir m) p content) as Hd.
  destruct (ensure_snapshot now fs (mk_store dir m) p content) as [[fs' s'] r]. exists (Some s'). split; [done|]. exists (manifest s').
  destruct s'. cbn in *. by subst.
Qed.

Lemma snapshot_first_same now fs io p content :
  store_at io → same_but (private dir) fs (snapshot_first now fs (Some io) p content).1.
Proof.
  intros [m Hm] q f Hf. destruct (private_or_not dir q) as [Hq|Hq]; [by left|right]. by rewrite (snapshot_first_public now fs io m p content q Hm Hq) in Hf.
Qed.

(** The tracker holds what was seen. Where [S] holds, a file whose time is the recorded one has the content that was
    seen, too. *)
Definition tracked (S : Prop) (fs : Fs) (tr : FileReadTracker) (seen : gmap string bytes) : Prop :=
  ∀ p st, tr !! p = Some st → ∃ c, seen !! p = Some c ∧ content_hash st = hash_content c ∧
    (S → ¬ private dir p → ∀ f, fs !! p = Some (NFile f) → system_time_to_ms (f_mtime f) = mtime_ms st → f_bytes f = c).

Lemma tracked_same S P fs fs' tr seen :
  tracked S fs tr seen → same_but P fs fs' → (∀ q, P q → S → ¬ private dir q → ∀ st f, tr !! q = Some st →
    fs' !! q = Some (NFile f) → system_time_to_ms (f_mtime f) ≠ mtime_ms st) → tracked S fs' tr seen.
Proof.
  intros Ht Hs Hp p st Hst. destruct (Ht p st Hst) as (c & Hc & Hh & Hsame). exists c. split_and!; [done|done|].
  intros HS Hn f Hf He. destruct (Hs p f Hf) as [HP|Hf']; [by destruct (Hp p HP HS Hn st f Hst Hf)|by apply Hsame].
Qed.

Lemma tracked_set S P fs fs' tr seen p f :
  tracked S fs tr seen → same_but P fs fs' → (∀ q, P q → private dir q ∨ q = p) → fs' !! p = Some (NFile f) →
  tracked S fs' (<[p := mk_read_state (hash_content (f_bytes f)) (system_time_to_ms (f_mtime f))]> tr) (<[p := f_bytes f]> seen).
Proof.
  intros Ht Hs HP Hp q st. destruct (decide (q = p)) as [->|Hne].
  - rewrite !lookup_insert_eq. intros [= <-]. cbn. exists (f_bytes f). split_and!; [done|done|]. intros _ _ f' Hf' _. congruence.
  - rewrite !lookup_insert_ne by done. intros Hst. destruct (Ht q st Hst) as (c & Hc & Hh & Hsame). exists c. split_and!; [done|done|].
    intros HS Hn g Hg. destruct (Hs q g Hg) as [[?|?]%HP|Hg']; [done|done|by apply Hsame].
Qed.

Definition world_tracked (S : Prop) (w : FileWorld) : Prop :=
  store_at (w_io w) ∧ tracked S (w_fs w) (io_tracker (w_io w)) (w_seen w).

(** After a call that may have written [p]: the driver and the ghost state agree. *)
Lemma tracked_written S fs0 fs1 fs io seen p written o :
  tracked S fs0 (io_tracker io) seen → same_but (private dir) fs0 fs1 → same_but (λ q, q = p ∧ is_Some written) fs1 fs →
  match written with
  | None => is_error o = true
  | Some b => is_error o = false ∧ ∃ now mode, fs !! p = Some (NFile (mk_file b now mode))
  end →
  ∃ io', track_written fs (Some io) p written = Some io' ∧
    tracked S fs (io_tracker io')
      (if is_error o then seen else match fs !! p with Some (NFile f) => <[p := f_bytes f]> seen | _ => seen end) ∧
    io_snapshots io' = io_snapshots io.
Proof.
  intros Ht Hs1 Hs2 Hw. assert (same_but (λ q, private dir q ∨ q = p ∧ is_Some written) fs0 fs) as Hs.
  { intros q f Hf. destruct (Hs2 q f Hf) as [?|Hf1]; [left; by right|]. destruct (Hs1 q f Hf1); [left; by left|by right]. }
  unfold track_written. destruct written as [b|].
  - destruct Hw as (-> & now & mode & Hp). unfold fs_modified. rewrite Hp. eexists. split_and!; [done| |done].
    apply (tracked_set S _ fs0 fs _ seen p (mk_file b now mode) Ht Hs); [|done]. intros q [?|[? _]]; [by left|by right].
  - rewrite Hw. exists io. split_and!; [done| |done]. eapply tracked_same; [exact Ht|exact Hs|]. intros q [?|[_ [? ?]]]; done.
Qed.

Lemma act_tracked S now w a :
  world_tracked S w →
  (S → match a with
       | AWrite p _ mtime _ => ∀ st, io_tracker (w_io w) !! p = Some st → system_time_to_ms mtime ≠ mtime_ms st
       | _ => True
       end) →
  world_tracked S (act cwd now w a).
Proof.
  intros [Hst Ht] Hc. destruct a as [c|p content mtime mode|p|p]; cbn [act].
  - destruct c as [r|e|t| | | |]; cbn [execute_tool]; try done.
    + unfold world_tracked in *. cbn [w_fs w_io w_seen saw].
      destruct (is_error (read_execute (w_fs w) cwd r)); [done|]. unfold fs_read, fs_modified.
      destruct (w_fs w !! resolved_path cwd (rd_path r)) as [[f|]|] eqn:Ef; [|done..]. destruct (can_read (resolved_path cwd (rd_path r))); [|done].
      split; [exact Hst|]. cbn. apply (tracked_set S (λ _, False) (w_fs w) (w_fs w) _ _ _ f Ht); [apply same_but_refl|done|done].
    + set (p := resolved_path cwd (ed_path e)). pose proof (snapshot_first_same now (w_fs w) (w_io w) p (fs_read (w_fs w) p) Hst) as Hs.
      destruct (snapshot_first_store now (w_fs w) (w_io w) p (fs_read (w_fs w) p) Hst) as (s & -> & Hst'). set (fs1 := (snapshot_first _ _ _ _ _).1) in *.
      destruct (edit_execute now fs1 _ p e) as [[fs2 o] written] eqn:Ee. apply edit_execute_spec in Ee as [Hs2 Hw].
      destruct (tracked_written S (w_fs w) fs1 fs2 (with_snapshots s (w_io w)) (w_seen w) p written o) as (io' & -> & Hr & Hio); [exact Ht|exact Hs|exact Hs2| |].
      * destruct written as [b|]; [|done]. destruct Hw as (? & _ & f & n & mode & _ & _ & _ & Hp). split; [done|by exists now, mode].
      * split; [|exact Hr]. destruct Hst' as [m Hm]. exists m. cbn [w_io]. congruence.
    + set (p := resolved_path cwd (wr_path t)). pose proof (snapshot_first_same now (w_fs w) (w_io w) p (fs_read (w_fs w) p) Hst) as Hs.
      destruct (snapshot_first_store now (w_fs w) (w_io w) p (fs_read (w_fs w) p) Hst) as (s & -> & Hst'). set (fs1 := (snapshot_first _ _ _ _ _).1) in *.
      destruct (write_execute now fs1 p t) as [[fs2 o] written] eqn:Ee. apply write_execute_spec in Ee as [Hs2 Hw].
      destruct (tracked_written S (w_fs w) fs1 fs2 (with_snapshots s (w_io w)) (w_seen w) p written o) as (io' & -> & Hr & Hio); [exact Ht|exact Hs|exact Hs2| |].
      * destruct written as [b|]; [|done]. destruct Hw as (? & _ & _ & _ & mode & Hp). split; [done|by exists now, mode].
      * split; [|exact Hr]. destruct Hst' as [m Hm]. exists m. cbn [w_io]. congruence.
  - split; [done|]. eapply (tracked_same S (λ q, q = p)); [exact Ht| |].
    + intros q f. cbn. destruct (decide (q = p)) as [->|?]; [by left|rewrite lookup_insert_ne by done; by right].
    + intros q -> HS _ st f Hq. cbn. rewrite lookup_insert_eq. intros [= <-]. by apply Hc.
  - split; [done|]. eapply (tracked_same S (λ _, False)); [exact Ht| |done]. intros q f. cbn. destruct (decide (q = p)) as [->|?];
      [by rewrite lookup_insert_eq|rewrite lookup_insert_ne by done; by right].
  - split; [done|]. eapply (tracked_same S (λ _, False)); [exact Ht| |done]. intros q f Hq. cbn in Hq. apply lookup_delete_Some in Hq as [_ Hq]. by right.
Qed.

Lemma acts_tracked S l w : world_tracked S w → (S → unmasked cwd l w) → world_tracked S (acts cwd l w).
Proof.
  revert w. induction l as [|[now a] l IH]; intros w Ht Hk; [done|].
  apply (IH (act cwd now w a)); [apply act_tracked; [done|intros HS; by destruct (Hk HS)]|intros HS; by destruct (Hk HS)].
Qed.

(** The tools change one path, and nothing of the directory. *)
Lemma edit_execute_frame now fs tr p c :
  ∃ fs1, only_dirs (from_option dirs_of [] (path_parent p)) fs fs1 ∧
    (∀ q, q ≠ p → (edit_execute now fs tr p c).1.1 !! q = fs1 !! q) ∧
    (¬ private dir p → keeps dir fs (edit_execute now fs tr p c).1.1).
Proof.
  assert (keeps dir fs fs) as Hk by (intros q _; by left).
  assert (∃ fs1, only_dirs (from_option dirs_of [] (path_parent p)) fs fs1 ∧
    (∀ q, q ≠ p → fs !! q = fs1 !! q) ∧ (¬ private dir p → keeps dir fs fs)) as Hsame
    by (exists fs; split_and!; [apply only_dirs_refl|done|done]).
  unfold edit_execute. destruct (fs !! p) as [[f|]|]; [|exact Hsame..].
  case_decide; [exact Hsame|]. destruct (check_freshness fs tr p) as [[| |]|e]; [|exact Hsame..].
  destruct (fs_read fs p ≫= from_utf8) as [content|]; [|exact Hsame].
  destruct (edited c p content) as [[b n]|e]; [|exact Hsame].
  destruct (atomic_write_file now fs p b) as [fs' r] eqn:E. pose proof (atomic_write_frame _ _ _ _ _ _ E) as (fs1 & Ho & Hr).
  exists fs1. split; [done|]. destruct r as [[]|e]; cbn [fst].
  - destruct Hr as [mode ->]. split; [intros q Hq; by rewrite lookup_insert_ne|]. intros Hp. by eapply write_keeps.
  - subst. split; [done|]. intros Hp. by eapply write_keeps.
Qed.

Lemma write_execute_frame now fs p c :
  ∃ fs1, only_dirs (from_option dirs_of [] (path_parent p)) fs fs1 ∧
    (∀ q, q ≠ p → (write_execute now fs p c).1.1 !! q = fs1 !! q) ∧
    (¬ private dir p → keeps dir fs (write_execute now fs p c).1.1).
Proof.
  assert (keeps dir fs fs) as Hk by (intros q _; by left).
  unfold write_execute. destruct (is_dir fs p); [exists fs; split_and!; [apply only_dirs_refl|done|done]|].
  destruct (_ && _); [exists fs; split_and!; [apply only_dirs_refl|done|done]|].
  destruct (atomic_write_file now fs p _) as [fs' r] eqn:E. pose proof (atomic_write_frame _ _ _ _ _ _ E) as (fs1 & Ho & Hr).
  exists fs1. split; [done|]. destruct r as [[]|e]; cbn [fst].
  - destruct Hr as [mode ->]. split; [intros q Hq; by rewrite lookup_insert_ne|]. intros Hp. by eapply write_keeps.
  - subst. split; [done|]. intros Hp. by eapply write_keeps.
Qed.

(** A call of a tool that may change [p]: a snapshot of what is there, then a change of [p]. *)
Lemma act_changes now w c p m :
  changes cwd c = Some p → io_snapshots (w_io w) = Some (mk_store dir m) →
  ∃ fs1 fs2 fs3 io2 store, snapshot_first now (w_fs w) (Some (w_io w)) p (fs_read (w_fs w) p) = (fs1, Some (with_snapshots store (w_io w))) ∧
    only_dirs (from_option dirs_of [] (path_parent p)) fs1 fs2 ∧ (∀ q, q ≠ p → fs3 !! q = fs2 !! q) ∧
    (¬ private dir p → keeps dir fs1 fs3) ∧ io_snapshots io2 = store ∧
    ∃ seen, act cwd now w (ATool c) = mk_fw fs3 io2 seen (met cwd (w_fs w) c (w_first w)).
Proof.
  intros Hc Hs. destruct (snapshot_first_io now (w_fs w) (w_io w) p (fs_read (w_fs w) p)) as [store E].
  set (fs1 := (snapshot_first now (w_fs w) (Some (w_io w)) p (fs_read (w_fs w) p)).1) in *.
  assert (∀ fs' written, ∃ io2, track_written fs' (Some (with_snapshots store (w_io w))) p written = Some io2 ∧ io_snapshots io2 = store) as Htr.
  { intros fs' written. unfold track_written. destruct written as [b|]; [|by eexists]. destruct (fs_modified fs' p); by eexists. }
  destruct c as [r|e|t| | | |]; try done; cbn [changes] in Hc; injection Hc as Hp.
  - destruct (edit_execute_frame now fs1 (io_tracker (w_io w)) p e) as (fs2 & Ho & Hq & Hk).
    destruct (edit_execute now fs1 (io_tracker (w_io w)) p e) as [[fs3 o] written] eqn:Ee. destruct (Htr fs3 written) as (io2 & Ht & Hio).
    exists fs1, fs2, fs3, io2, store. split_and!; try done. eexists. cbn [act execute_tool]. rewrite Hp, E.
    cbn [from_option]. change (io_tracker (with_snapshots store (w_io w))) with (io_tracker (w_io w)). rewrite Ee, Ht. done.
  - destruct (write_execute_frame now fs1 p t) as (fs2 & Ho & Hq & Hk).
    destruct (write_execute now fs1 p t) as [[fs3 o] written] eqn:Ee. destruct (Htr fs3 written) as (io2 & Ht & Hio).
    exists fs1, fs2, fs3, io2, store. split_and!; try done. eexists. cbn [act execute_tool]. rewrite Hp, E, Ee, Ht. done.
Qed.

Definition apart (a : Act) : Prop :=
  match a with
  | ATool c => match changes cwd c with Some p => ¬ private dir p | None => True end
  | AWrite p _ _ _ | AMkdir p | ADelete p => ¬ private dir p
  end.

Definition holds (fs : Fs) (p : string) (c : bytes) : Prop := ∃ f, fs !! p = Some (NFile f) ∧ f_bytes f = c.

(** The directory holds the first content of every file that a tool was to change and that has a snapshot, and
    its list. *)
Record snap_ok (w : FileWorld) (m : SnapshotManifest) : Prop := mk_snap_ok {
  sn_store : io_snapshots (w_io w) = Some (mk_store dir m);
  sn_place : place_ok dir (w_fs w);
  sn_abs p : is_Some (w_first w !! p) → is_absolute p = true;
  sn_dom p : is_absolute p = true → is_Some (m !! sanitize_path p) ↔ takes_snapshot dir p ∧ is_Some (w_first w !! p);
  sn_files p c : w_first w !! p = Some c → takes_snapshot dir p → sanitize_path p ≠ "manifest.json"%string →
    holds (w_fs w) (path_join dir (sanitize_path p)) c;
  sn_list : m = ∅ ∧ w_fs w !! manifest_path dir = None ∨ holds (w_fs w) (manifest_path dir) (chars (manifest_json m))
}.

Lemma keeps_holds fs fs' name c : keeps dir fs fs' → slash ∉ chars name → holds fs (path_join dir name) c → holds fs' (path_join dir name) c.
Proof. intros Hk Hn (f & Hf & Hc). exists f. split; [|done]. by eapply keeps_file. Qed.

(** Changes elsewhere do not matter. *)
Lemma snap_keeps w m fs io seen :
  snap_ok w m → keeps dir (w_fs w) fs → io_snapshots io = io_snapshots (w_io w) → snap_ok (mk_fw fs io seen (w_first w)) m.
Proof.
  intros [Hs Hp Ha Hd Hf Hl] Hk Hio. split; cbn [w_fs w_io w_first]; [congruence|by eapply keeps_place|done|done| |].
  - intros p c Hc Hts Hne. destruct (sanitize_flat p). by eapply keeps_holds, Hf.
  - destruct Hl as [[-> Hn]|Hl]; [left|right; by eapply keeps_holds; [|apply manifest_flat|]].
    split; [done|]. pose proof (path_join_below dir "manifest.json" Hdir manifest_flat) as Hb.
    destruct (Hk (manifest_path dir)) as [->|(_ & _ & Hin)]; [by right|done|by destruct (below_not_above _ _ Hb Hin)].
Qed.

(** A snapshot that is taken now, or could not be. *)
Lemma snap_first now w m p content :
  snap_ok w m → is_absolute p = true → w_first w !! p = None →
  ∃ m', snap_ok (mk_fw (ensure_snapshot now (w_fs w) (mk_store dir m) p content).1.1
                   (with_snapshots (Some (ensure_snapshot now (w_fs w) (mk_store dir m) p content).1.2) (w_io w)) (w_seen w)
                   (<[p := content]> (w_first w))) m'.
Proof.
  intros [Hs Hp Ha Hd Hf Hl] Hpa Hn. assert (m !! sanitize_path p = None) as Hm.
  { apply eq_None_not_Some. rewrite Hd, Hn by done. by intros [_ [? ?]]. }
  assert (∀ q, is_Some (<[p := content]> (w_first w) !! q) → is_absolute q = true) as Ha'.
  { intros q [c Hc]. destruct (decide (q = p)) as [->|Hne]; [done|]. rewrite lookup_insert_ne in Hc by done. apply Ha. by eexists. }
  destruct (decide (can_write (path_join dir (sanitize_path p)) = true)) as [Hts|Hts].
  - destruct (ensure_first dir Hdir now (w_fs w) m p content Hp Hts Hlist Hm) as (fs' & entry & mode & mode' & -> & Hp' & Hw & Hlist' & Hq).
    exists (<[sanitize_path p := entry]> m). cbn [fst snd]. split; cbn [w_fs w_io w_first w_seen]; [done|done|done| | |].
    + intros q Hqa. destruct (decide (q = p)) as [->|Hne]; [rewrite !lookup_insert_eq; split; [by eexists|by eexists]|].
      rewrite !lookup_insert_ne; [by apply Hd|done|]. intros E. apply Hne. symmetry. by apply sanitize_inj.
    + intros q c Hc Htq Hname. destruct (decide (q = p)) as [->|Hne].
      { rewrite lookup_insert_eq in Hc. injection Hc as <-. eexists. split; [by apply Hw|done]. }
      rewrite lookup_insert_ne in Hc by done. destruct (Hf q c Hc Htq Hname) as (f & Hf' & Hb). exists f. split; [|done].
      destruct (sanitize_flat q) as [Hflat _]. destruct (sanitize_flat p) as [Hflatp _].
      destruct (Hq (path_join dir (sanitize_path q))) as [->|(E & _)]; [| |done|congruence].
      * intros E. apply path_join_inj in E; [|done..]. apply sanitize_inj in E; [done| |done]. apply Ha. by eexists.
      * intros E. apply path_join_inj in E; [done|done|done|apply manifest_flat].
    + right. eexists. by split.
  - destruct (ensure_refused dir Hdir now (w_fs w) m p content Hp Hts Hm) as (fs' & e & -> & Hp' & Hq). exists m. cbn [fst snd].
    assert (keeps dir (w_fs w) fs') as Hk by (intros q _; apply Hq).
    destruct (snap_keeps w m fs' (with_snapshots (Some (mk_store dir m)) (w_io w)) (w_seen w)) as [Hs' _ _ _ Hf' Hl']; [by split|done|by rewrite Hs|].
    cbn [w_fs w_io w_first] in *. split; cbn [w_fs w_io w_first]; [done|done|done| | |done].
    + intros q Hqa. rewrite Hd by done. destruct (decide (q = p)) as [->|Hne]; [|by rewrite lookup_insert_ne].
      unfold takes_snapshot. rewrite Hn. split; by intros [? ?].
    + intros q c Hc Htq Hname. destruct (decide (q = p)) as [->|Hne]; [done|]. rewrite lookup_insert_ne in Hc by done. by apply Hf'.
Qed.

(** A second snapshot is not taken, or cannot be again. *)
Lemma snap_again now w m p content c0 :
  snap_ok w m → is_absolute p = true → w_first w !! p = Some c0 →
  let r := ensure_snapshot now (w_fs w) (mk_store dir m) p content in keeps dir (w_fs w) r.1.1 ∧ r.1.2 = mk_store dir m.
Proof.
  intros Hok Hpa Hfirst r. destruct (decide (can_write (path_join dir (sanitize_path p)) = true)) as [Hts|Hts].
  - destruct (proj2 (sn_dom _ _ Hok p Hpa)) as [x Hx]; [split; [done|by eexists]|]. unfold r, ensure_snapshot. cbn [manifest]. rewrite Hx.
    split; [intros q _; by left|done].
  - assert (m !! sanitize_path p = None) as Hm.
    { apply eq_None_not_Some. rewrite (sn_dom _ _ Hok p Hpa). by intros [? _]. }
    destruct (ensure_refused dir Hdir now (w_fs w) m p content (sn_place _ _ Hok) Hts Hm) as (fs' & e & E & _ & Hq). unfold r. rewrite E.
    split; [intros q _; apply Hq|done].
Qed.

Lemma keeps_trans fs1 fs2 fs3 : keeps dir fs1 fs2 → keeps dir fs2 fs3 → keeps dir fs1 fs3.
Proof.
  intros Hk1 Hk2 p Hp. destruct (Hk1 p Hp) as [E1|(? & ? & ?)], (Hk2 p Hp) as [E2|(? & ? & ?)];
    [left; congruence|right; split_and!; congruence || done..].
Qed.

Lemma snap_act now w m a : snap_ok w m → apart a → ∃ m', snap_ok (act cwd now w a) m'.
Proof.
  intros Hok Ha. assert (∀ p node, ¬ private dir p → keeps dir (w_fs w) (<[p := node]> (w_fs w))) as Hins.
  { intros p node Hp q Hq. left. rewrite lookup_insert_ne; [done|]. by intros ->. }
  destruct a as [c|p content mtime mode|p|p]; cbn [apart] in Ha.
  - destruct (changes cwd c) as [p|] eqn:Hc.
    + destruct (act_changes now w c p m Hc (sn_store _ _ Hok)) as (fs1 & fs2 & fs3 & io2 & store & E & _ & _ & Hk & Hio & seen & ->).
      specialize (Hk Ha). unfold met. rewrite Hc.
      assert (is_absolute p = true) as Hpa.
      { destruct c as [|e|t| | | |]; try done; injection Hc as <-; apply resolved_absolute, Habs. }
      destruct (fs_read (w_fs w) p) as [content|] eqn:Er; cbn [snapshot_first] in E.
      * rewrite (sn_store _ _ Hok) in E. destruct (w_first w !! p) as [c0|] eqn:Hfirst.
        -- destruct (snap_again now w m p content c0 Hok Hpa Hfirst) as [Hk0 Hs0].
           destruct (ensure_snapshot now (w_fs w) (mk_store dir m) p content) as [[fs' s'] r]. cbn [fst snd] in *. subst s'.
           injection E as <- E. exists m. eapply snap_keeps; [exact Hok|by eapply keeps_trans|].
           rewrite Hio, <- E. symmetry. apply (sn_store _ _ Hok).
        -- destruct (snap_first now w m p content Hok Hpa Hfirst) as [m' Hok'].
           destruct (ensure_snapshot now (w_fs w) (mk_store dir m) p content) as [[fs' s'] r]. cbn [fst snd] in Hok'.
           injection E as <- E. exists m'. eapply (snap_keeps _ m' fs3 io2 seen Hok'); [exact Hk|]. cbn. by rewrite Hio.
      * injection E as <- E. exists m. eapply snap_keeps; [exact Hok|exact Hk|]. rewrite Hio.
        apply (f_equal io_snapshots) in E. cbn in E. by rewrite <- E.
    + exists m. destruct c as [r| | | | | |]; try done. cbn [act execute_tool]. unfold met. cbn [changes].
      destruct (is_error _); [|destruct (fs_read _ _); [destruct (fs_modified _ _)|]];
        (eapply (snap_keeps w m); [exact Hok|intros q _; by left|done]).
  - exists m. eapply snap_keeps; [exact Hok|by apply Hins|done].
  - exists m. eapply snap_keeps; [exact Hok|by apply Hins|done].
  - exists m. eapply snap_keeps; [exact Hok| |done]. intros q Hq. left. rewrite lookup_delete_ne; [done|]. by intros ->.
Qed.

Lemma snap_acts l w m : snap_ok w m → Forall apart l.*2 → ∃ m', snap_ok (acts cwd l w) m'.
Proof.
  revert w m. induction l as [|[now a] l IH]; intros w m Hok Ha; [by exists m|]. inversion_clear Ha as [|? ? H1' H2'].
  destruct (snap_act now w m a Hok H1') as [m1 Hok1]. by apply (IH (act cwd now w a) m1).
Qed.

(** A file of the beginning is still there, or its content is the first that was met. *)
Definition restorable (p : string) (f0 : File) (w : FileWorld) : Prop :=
  w_fs w !! p = Some (NFile f0) ∧ w_first w !! p = None ∨ w_first w !! p = Some (f_bytes f0).

(** What is not a write of another program to this file. *)
Definition spares (p : string) (a : Act) : Prop :=
  match a with ATool _ => True | AWrite q _ _ _ | AMkdir q | ADelete q => q ≠ p end.

Lemma restorable_act p f0 now w a m :
  snap_ok w m → apart a → spares p a → can_read p = true → ¬ private dir p → restorable p f0 w → restorable p f0 (act cwd now w a).
Proof.
  intros Hok Ha Hsp Hcr Hp Hr. destruct a as [c|q content mtime mode|q|q]; cbn [apart spares] in Ha, Hsp.
  2-4: (unfold restorable in *; cbn; rewrite ?lookup_insert_ne, ?lookup_delete_ne by done; done).
  destruct (changes cwd c) as [t|] eqn:Hc.
  - destruct (act_changes now w c t m Hc (sn_store _ _ Hok)) as (fs1 & fs2 & fs3 & io2 & store & E & Ho & Hq & _ & _ & seen & ->).
    unfold restorable. cbn [w_fs w_first]. unfold met. rewrite Hc. destruct Hr as [[Hf Hn]|Hf]; cycle 1.
    { right. destruct (fs_read (w_fs w) t) as [content|]; [|done]. destruct (w_first w !! t) as [x|] eqn:Ht; [done|].
      rewrite lookup_insert_ne; [done|]. intros ->. congruence. }
    destruct (decide (p = t)) as [<-|Hne].
    + right. unfold fs_read. rewrite Hf, Hcr, Hn. by rewrite lookup_insert_eq.
    + left. split.
      * rewrite Hq by done. assert (fs1 !! p = Some (NFile f0)) as Hf1.
        { rewrite <- Hf. change fs1 with (fs1, Some (with_snapshots store (w_io w))).1. rewrite <- E.
          by eapply snapshot_first_public; [apply (sn_store _ _ Hok)|]. }
        destruct (Ho p) as [->|(? & _)]; [done|congruence].
      * destruct (fs_read (w_fs w) t); [|done]. destruct (w_first w !! t); [done|]. by rewrite lookup_insert_ne.
  - assert (w_fs (act cwd now w (ATool c)) = w_fs w ∧ w_first (act cwd now w (ATool c)) = w_first w) as [E1 E2]; [|unfold restorable; by rewrite E1, E2].
    destruct c as [r| | | | | |]; try done. cbn [act execute_tool]. unfold met. cbn [changes].
    destruct (is_error _); [done|]. destruct (fs_read _ _); [|done]. by destruct (fs_modified _ _).
Qed.

Lemma restorable_acts p f0 l w m :
  snap_ok w m → Forall apart l.*2 → Forall (spares p) l.*2 → can_read p = true → ¬ private dir p →
  restorable p f0 w → restorable p f0 (acts cwd l w).
Proof.
  intros Hok Ha Ht Hcr Hp. revert w m Hok. induction l as [|[now a] l IH]; intros w m Hok Hr; [done|]. inversion_clear Ha as [|? ? H1' H2'].
  inversion_clear Ht as [|? ? H3' H4']. destruct (snap_act now w m a Hok H1') as [m1 Hok1].
  apply (IH H2' H4' (act cwd now w a) m1); [done|]. by eapply restorable_act.
Qed.

(** The store that the next invocation opens. *)
Lemma snap_reopens w m : snap_ok w m → open (w_fs w) dir = Ok (mk_store dir m).
Proof.
  intros [_ _ _ _ _ Hl]. unfold open, exists_. destruct Hl as [[-> Hn]|(f & Hf & Hb)].
  - by rewrite bool_decide_eq_false_2 by (rewrite Hn; by intros [? ?]).
  - rewrite bool_decide_eq_true_2 by (by eexists). unfold fs_read. rewrite Hf, Hread. cbn [ok_or rbind].
    by rewrite Hb, unchars_chars, manifest_roundtrip.
Qed.


(** C11: if a call of the edit tool succeeds, after any sequence of tool calls and of writes by other programs,
    then the assistant has read or written that file, and the new content is the old one with the old text
    replaced, in one place unless all were to be replaced. The content it finds has the hash of what the
    assistant last saw, unless it carries the very time, in milliseconds, that was recorded then; and this is
    so only where another program has put that time on a file of which it was recorded. *)
Theorem edits_apply_to_what_was_seen l w c now fs' io' o pv :
  world_tracked (unmasked cwd l w) w → ¬ private dir (resolved_path cwd (ed_path c)) →
  execute_tool now cwd (w_fs (acts cwd l w)) (Some (w_io (acts cwd l w))) (CEdit c) = Some (fs', io', (o, pv)) →
  is_error o = false →
  ∃ f st seen parts mode,
    w_fs (acts cwd l w) !! resolved_path cwd (ed_path c) = Some (NFile f) ∧
    io_tracker (w_io (acts cwd l w)) !! resolved_path cwd (ed_path c) = Some st ∧
    w_seen (acts cwd l w) !! resolved_path cwd (ed_path c) = Some seen ∧ content_hash st = hash_content seen ∧
    (hash_content (f_bytes f) = hash_content seen ∨ system_time_to_ms (f_mtime f) = mtime_ms st) ∧
    (unmasked cwd l w → hash_content (f_bytes f) = hash_content seen) ∧
    f_bytes f = interleave (chars (ed_old_string c)) parts ∧
    fs' !! resolved_path cwd (ed_path c) = Some (NFile (mk_file (interleave (chars (ed_new_string c)) parts) now mode)) ∧
    (2 ≤ length parts)%nat ∧ (ed_replace_all c = false → length parts = 2%nat).
Proof.
  intros Ht Hp. destruct (acts_tracked _ l w Ht id) as [[m Hs] Hw]. set (w' := acts cwd l w) in *. set (S := unmasked cwd l w) in *.
  set (p := resolved_path cwd (ed_path c)) in *. cbn [execute_tool]. fold p.
  destruct (snapshot_first_io now (w_fs w') (w_io w') p (fs_read (w_fs w') p)) as [store ->].
  pose proof (snapshot_first_public now (w_fs w') (w_io w') m p (fs_read (w_fs w') p) p Hs Hp) as Hfs.
  set (fs1 := (snapshot_first _ _ _ _ _).1) in *. cbn [from_option]. change (io_tracker (with_snapshots store (w_io w'))) with (io_tracker (w_io w')).
  assert (ed_old_string c = "" → ∀ fs2 o2 r, edit_execute now fs1 (io_tracker (w_io w')) p c = (fs2, o2, r) → is_error o2 = true)%string as Hempty.
  { intros He fs2 o2 r. unfold edit_execute. destruct (fs1 !! p) as [[g|]|]; [|by intros [= <- <- <-]..]. rewrite decide_True by done. by intros [= <- <- <-]. }
  destruct (edit_execute now fs1 _ p c) as [[fs2 o2] written] eqn:Ee. intros [= <- _ <- _] Ho.
  pose proof (edit_execute_spec _ _ _ _ _ _ _ _ Ee) as [_ Hspec]. destruct written as [b|]; [|congruence].
  destruct Hspec as (_ & Hfresh & f & n & mode & Hf & Hcr & Hed & Hf2). rewrite Hfs in Hf.
  assert (ed_old_string c ≠ ""%string) as Hne by (intros E; rewrite (Hempty E _ _ _ eq_refl) in Ho; done).
  destruct (edited_replaces c p (f_bytes f) b n Hne Hed) as (parts & E1 & E2 & E3 & E4 & E5).
  unfold check_freshness, fs_read in Hfresh. rewrite Hfs, Hf, Hcr in Hfresh.
  destruct (io_tracker (w_io w') !! p) as [st|] eqn:Est; [|done]. destruct (Hw p st Est) as (seen & Hseen & Hh & Hsame).
  exists f, st, seen, parts, mode. rewrite <- E2. split_and!; try done; [| |lia|intros Hr; rewrite E3, E5 by done; done].
  - destruct (Z.eqb_spec (system_time_to_ms (f_mtime f)) (mtime_ms st)) as [Em|_]; [by right|left].
    destruct (Z.eqb_spec (hash_content (f_bytes f)) (content_hash st)); [congruence|done].
  - intros HS. destruct (Z.eqb_spec (system_time_to_ms (f_mtime f)) (mtime_ms st)) as [Em|_]; [by rewrite (Hsame HS Hp f Hf Em)|].
    destruct (Z.eqb_spec (hash_content (f_bytes f)) (content_hash st)); [congruence|done].
Qed.
End snapshots.

(** ** Permissions that last an hour *)

(** A file is edited without a question, where no rule says so, only within an hour of the user's
    allowing that very file. *)
Theorem session_grant_is_recent `{FilesLib, Json} (l : list (Z * Effect)) yolo snaps tr now cwd c r :
  let io := foldl (λ io x, io_effect x.1 io x.2) (Some (mk_io yolo tr ∅ snaps)) l in
  check_permission now cwd io c r = PSessionGranted →
  ∃ t p, resolved_file_path cwd c = Some p ∧ (t, CacheSessionGrant p) ∈ l ∧ system_time_to_ms now - system_time_to_ms t < TTL_MS.
Proof.
  intros io. assert (∃ g, io = Some (mk_io yolo tr g snaps) ∧ ∀ p ms, g !! p = Some ms → ∃ t, (t, CacheSessionGrant p) ∈ l ∧ ms = system_time_to_ms t)
    as (g & -> & Hg).
  { unfold io. clear io. induction l as [|[t x] l IH] using rev_ind; [by exists ∅|]. rewrite foldl_app. destruct IH as (g & -> & Hg).
    cbn [foldl fst snd]. assert (∀ p ms, g !! p = Some ms → ∃ t0, (t0, CacheSessionGrant p) ∈ l ++ [(t, x)] ∧ ms = system_time_to_ms t0) as Hg'.
    { intros p ms Hp. destruct (Hg p ms Hp) as (t0 & Hin & ->). exists t0. split; [apply elem_of_app; by left|done]. }
    destruct x as [| | | | | | | | | |path| | | | |]; cbn [io_effect fmap option_fmap option_map]; try (by exists g).
    eexists. split; [done|]. intros p ms. unfold grant. destruct (decide (p = path)) as [->|Hne].
    - cbn. rewrite lookup_insert_eq. intros [= <-]. exists t. split; [apply elem_of_app; right; left|done].
    - cbn. rewrite lookup_insert_ne by done. apply Hg'. }
  unfold check_permission. cbn [io_yolo io_grants]. destruct (yolo || is_auto_approved c); [done|].
  destruct (resolved_file_path cwd c) as [p|]; [|by destruct r as [[| |]|]].
  unfold has_valid_grant. destruct (g !! p) as [ms|] eqn:E; [|by destruct r as [[| |]|]].
  destruct (Z.ltb_spec (system_time_to_ms now - ms) TTL_MS); [|by destruct r as [[| |]|]]. intros _.
  destruct (Hg p ms E) as (t & Hin & ->). by exists t, p.
Qed.

(** ** Concrete runs *)

Module FilesDemo.

(** A text of a countable type: the bits of its code. *)
Fixpoint bits (p : positive) : string :=
  match p with xH => EmptyString | xO p => String (byte 48) (bits p) | xI p => String (byte 49) (bits p) end.
Fixpoint of_bits (s : string) : positive :=
  match s with EmptyString => xH | String c s => if decide (c = byte 48) then xO (of_bits s) else xI (of_bits s) end.

Lemma of_bits_bits p : of_bits (bits p) = p.
Proof. induction p as [p IH|p IH|]; cbn; [by rewrite IH|by rewrite IH|done]. Qed.

#[export] Instance read_state_dec : EqDecision FileReadState.
Proof. solve_decision. Defined.
#[export] Instance read_state_countable : Countable FileReadState.
Proof. apply (inj_countable' (λ s, (content_hash s, mtime_ms s)) (λ x, mk_read_state x.1 x.2)). by intros []. Defined.
#[export] Instance entry_dec : EqDecision SnapshotEntry.
Proof. solve_decision. Defined.
#[export] Instance entry_countable : Countable SnapshotEntry.
Proof.
  apply (inj_countable' (λ s, (original_path s, snapshot_at s, size_bytes s)) (λ x, mk_entry x.1.1 x.1.2 x.2)). by intros [].
Defined.

(** An operating system that permits everything, but for names longer than the limit. *)
Definition os (limit : option nat) : FilesLib := {|
  can_read := λ _, true;
  can_write := λ p, match limit with Some n => (from_option String.length 0%nat (file_name p) <=? n)%nat | None => true end;
  dir_names := λ _ _, [];
  os_error := λ _, "error"%string;
  hash_content := λ l, foldl (λ h c, (h * 257 + code c + 1) mod u64_limit) 0 l;
  civil := λ t, (1970, 1, 1, 0, 0, t / 1000000000);
  manifest_json := λ m, bits (encode m);
  manifest_of_json := λ s, decode (of_bits s);
  tracker_json := λ m, bits (encode m);
  tracker_of_json := λ s, decode (of_bits s);
  grants_json := λ m, bits (encode m);
  grants_of_json := λ s, decode (of_bits s)
|}.

#[export] Instance os_laws limit : FilesLaws (H := os limit).
Proof.
  split; intros x; cbn [manifest_json manifest_of_json tracker_json tracker_of_json grants_json grants_of_json os];
    rewrite of_bits_bits; apply decode_encode.
Qed.

Definition second (n : Z) : Z := n * 1000000000.
Definition DIR : string := "/data/ai".

(** A file system with one file, an hour before the first act. *)
Definition with_file (p content : string) : Fs := {[p := NFile (mk_file (chars content) (second 1) 420)]}.

Definition world (fs : Fs) : FileWorld := mk_fw fs (mk_io false ∅ ∅ (Some (mk_store DIR ∅))) ∅ ∅.

Definition read (p : string) : Act := ATool (CRead (mk_read p 0 100)).
Definition edit (p old new_ : string) : Act := ATool (CEdit (mk_edit p old new_ false)).

Definition later (t : Z) (l : list Act) : list (Z * Act) := imap (λ i a, (second (t + Z.of_nat i), a)) l.
Definition play (l : list Act) (fs : Fs) : FileWorld := acts (H := os (Some 255%nat)) (H0 := PointDiff.lib) (Some "/p"%string) (later 10 l) (world fs).

Definition content (w : FileWorld) (p : string) : option string :=
  match w_fs w !! p with Some (NFile f) => Some (unchars (f_bytes f)) | _ => None end.
Definition snapshot (w : FileWorld) (p : string) : option string := content w (path_join DIR (sanitize_path p)).

Example read_then_edit :
  let w := play [read "a.txt"; edit "a.txt" "one" "two"] (with_file "/p/a.txt" "one line") in
  content w "/p/a.txt" = Some "two line"%string ∧ snapshot w "/p/a.txt" = Some "one line"%string.
Proof. vm_compute. done. Qed.

Example edit_needs_read :
  content (play [edit "a.txt" "one" "two"] (with_file "/p/a.txt" "one line")) "/p/a.txt" = Some "one line"%string.
Proof. vm_compute. done. Qed.

Example edit_refused_when_changed :
  content (play [read "a.txt"; AWrite "/p/a.txt" (chars "one word") (second 11) 420; edit "a.txt" "one" "two"] (with_file "/p/a.txt" "one line"))
    "/p/a.txt" = Some "one word"%string.
Proof. vm_compute. done. Qed.
End FilesDemo.
Import FilesDemo.

Lemma not_private_dec p : bool_decide (p ∈ dirs_of DIR) = false → bool_decide (chars DIR ++ [slash] `prefix_of` chars p) = false → ¬ private DIR p.
Proof. intros H1%bool_decide_eq_false H2%bool_decide_eq_false [Hp|Hp]; done. Qed.

(** The times decide where they are equal: what another program wrote with the recorded time passes for what was
    read, and is edited. *)
Theorem equal_time_passes_for_unchanged :
  content (play [read "a.txt"; AWrite "/p/a.txt" (chars "one word") (second 1) 420; edit "a.txt" "one" "two"] (with_file "/p/a.txt" "one line"))
    "/p/a.txt" = Some "two word"%string.
Proof. vm_compute. done. Qed.

Lemma demo_snap_ok :
  snap_ok (H := os None) DIR (world (with_file "/p/a.txt" "one line")) ∅.
Proof.
  split; cbn [world w_fs w_io w_first io_snapshots]; try done.
  - split.
    + intros a Ha. assert (a ∈ ["/data/ai"; "/data"; "/"]%string) as Hin by exact Ha.
      repeat (apply elem_of_cons in Hin as [->|Hin]; [by right|]). by apply elem_of_nil in Hin.
    + intros name Hn. unfold is_dir. destruct (with_file _ _ !! path_join DIR name) as [[f|]|] eqn:E; [done| |done].
      unfold with_file in E. apply lookup_singleton_Some in E as [_ E]. done.
  - intros p [? Hp]. done.
  - intros p _. rewrite !lookup_empty. split; [by intros [? ?]|by intros [_ [? ?]]].
  - left. split; [done|]. reflexivity.
Qed.


Definition after_read : FileWorld :=
  acts (H := os None) (H0 := PointDiff.lib) (Some "/p"%string) (later 10 [read "a.txt"]) (world (with_file "/p/a.txt" "one line")).
Definition edit_call : option (Fs * option IoContext * (ToolOutcome * option ToolPreviewData)) :=
  execute_tool (H := os None) (H0 := PointDiff.lib) (second 20) (Some "/p"%string) (w_fs after_read) (Some (w_io after_read))
    (CEdit (mk_edit "a.txt" "one" "two" false)).

Lemma edit_call_succeeds : match edit_call with Some (_, _, (o, _)) => is_error o = false | None => False end.
Proof. vm_compute. reflexivity. Qed.

Lemma edits_apply_to_what_was_seen_witness :
  ∃ f seen parts, w_fs after_read !! "/p/a.txt"%string = Some (NFile f) ∧ w_seen after_read !! "/p/a.txt"%string = Some seen ∧
    hash_content (FilesLib := os None) (f_bytes f) = hash_content (FilesLib := os None) seen ∧
    f_bytes f = interleave (chars "one") parts ∧ length parts = 2%nat.
Proof.
  pose proof edit_call_succeeds as Ho. destruct edit_call as [[[fs' io'] [o pv]]|] eqn:E; [|done].
  destruct (edits_apply_to_what_was_seen (H := os None) (H1 := PointDiff.lib) DIR "/p") with
    (l := later 10 [read "a.txt"]) (w := world (with_file "/p/a.txt" "one line"))
    (c := mk_edit "a.txt" "one" "two" false) (now := second 20) (fs' := fs') (io' := io') (o := o) (pv := pv)
    as (f & st & seen & parts & mode & H1 & _ & H2 & _ & _ & H3 & H4 & _ & _ & H5).
  - split; [done|reflexivity].
  - split; [by exists ∅|]. intros p st Hst. done.
  - by apply not_private_dec; reflexivity.
  - exact E.
  - exact Ho.
  - exists f, seen, parts. split_and!; [exact H1|exact H2|by apply H3|exact H4|by apply H5].
Defined.

(** A file [/manifest.json] has the name of the list of the snapshots, which overwrites its snapshot. *)
Theorem manifest_snapshot_overwritten :
  let w := play [read "/manifest.json"; edit "/manifest.json" "one" "two"] (with_file "/manifest.json" "one line") in
  content w "/manifest.json" = Some "two line"%string ∧ snapshot w "/manifest.json" ≠ Some "one line"%string.
Proof. vm_compute. split; [reflexivity|discriminate]. Qed.

(** A refused edit takes the snapshot: what the user writes after it is not kept when the assistant
    then changes the file for the first time. *)
Theorem refused_edit_takes_snapshot :
  let w := play [edit "a.txt" "one" "two"; AWrite "/p/a.txt" (chars "one word of mine") (second 11) 420; read "a.txt"; edit "a.txt" "one" "two"]
             (with_file "/p/a.txt" "one line") in
  content w "/p/a.txt" = Some "two word of mine"%string ∧ snapshot w "/p/a.txt" = Some "one line"%string.
Proof. vm_compute. done. Qed.

(** A path whose encoded form is longer than a file name may be is edited without a snapshot. *)
Theorem long_path_edited_without_snapshot :
  let p := foldr (λ _ s, "/directory" +:+ s) "/a.txt" (seq 0 25) in
  let w := play [read p; edit p "one" "two"] (with_file p "one line") in
  content w p = Some "two line"%string ∧ snapshot w p = None.
Proof. vm_compute. done. Qed.

(** Beginning a new session neither revokes the permissions of the old one nor opens another snapshot
    directory. *)
Theorem new_session_keeps_grants `{FilesLib, Json, ToolLib} cwd f f' eff conf now io :
  state f = Idle conf → handle cwd f NewSession = Some (f', eff) → foldl (io_effect now) io eff = io.
Proof.
  intros Hs. unfold handle. rewrite Hs. cbn [handle_idle]. unfold new_session. case_decide; [|done]. by intros [= _ <-].
Qed.
