(* ===== verification/Skills.v ===== *)
(** * Skills and context files of the assistant ([atuin-ai/src/skills], [atuin-ai/src/user_context])

    A skill is a file of instructions with a header. The skills of the project and of the user are found,
    their descriptions are sent within a budget, and their texts are loaded when they are asked for. Context
    files are found on the way from the working directory to the root, and are gathered once until they are
    reloaded. Both kinds of text may hold commands, whose output takes their place. YAML and Markdown are
    interfaces to their crates; running a process is an argument. Texts are bytes. *)
From stdpp Require Import pretty.
From S2P Require Import Prelude Text Ellipsis Import AiTools AiFiles.

(** ** Headers ([skills/frontmatter.rs]) *)

Record Frontmatter : Type := mk_front { fm_name : option string; fm_description : option string; fm_disable : bool }.
Definition no_frontmatter : Frontmatter := mk_front None None false.
Record ParsedSkillFile : Type := mk_parsed { frontmatter : Frontmatter; body : string }.

(** A YAML document, and its value for a key. *)
Inductive Yaml : Type := YString (s : string) | YBoolean (b : bool) | YOther.
Class YamlLib : Type := { Doc : Type; load_from_str : string → result (list Doc) string; doc_index : Doc → string → Yaml }.

(** What is after the line. *)
Definition after_line (l : bytes) : bytes := match split_once_l line_feed l with Some (_, r) => r | None => [] end.

(** A slice at an offset inside a character panics. *)
Definition continuation (c : Ascii.ascii) : bool := (128 <=? code c) && (code c <? 192).
Definition cut (l : bytes) (i : nat) : option (bytes * bytes) :=
  match drop i l with
  | [] => if (i <=? length l)%nat then Some (take i l, []) else None
  | c :: r => if continuation c then None else Some (take i l, c :: r)
  end.

(** The first line that matches, by its number. *)
Fixpoint find_line (p : bytes → bool) (ls : list (list Ascii.ascii)) : option nat :=
  match ls with [] => None | l :: ls => if p l then Some 0%nat else S <$> find_line p ls end.

(** [split_frontmatter]; the outer [None] is a panic. *)
Definition split_frontmatter (content : string) : option (option (string * string)) :=
  match strip_prefix "---" (trim_start content) with
  | None => Some None
  | Some after_open =>
      let after_open := after_line (chars after_open) in
      let ls := lines_l (split_l line_feed after_open) in
      match find_line (λ l, bool_decide (trim (unchars l) = "---")) ls with
      | None => Some None
      | Some i =>
          let close_pos := sum_list_with (λ l, length l + 1)%nat (take i ls) in
          '(yaml_str, rest) ← cut after_open close_pos;
          let rest := default rest (strip_prefix_l (chars "---") rest) in
          Some (Some (unchars yaml_str, unchars (after_line rest)))
      end
  end.

Section parse.
Context `{YamlLib}.

(** [extract_fields] *)
Definition extract_fields (doc : Doc) : Frontmatter :=
  mk_front (match doc_index doc "name" with YString s => Some s | _ => None end)
    (match doc_index doc "description" with YString s => Some (trim s) | _ => None end)
    (match doc_index doc "disable-model-invocation" with
     | YBoolean b => b
     | YString s => bool_decide (s ∈ ["true"; "yes"; "1"])
     | YOther => false
     end).

(** [parse] *)
Definition parse (content : string) : option ParsedSkillFile :=
  split ← split_frontmatter content;
  Some match split with
       | None => mk_parsed no_frontmatter content
       | Some (yaml_str, body) =>
           mk_parsed (match load_from_str yaml_str with Ok (doc :: _) => extract_fields doc | _ => no_frontmatter end) body
       end.
End parse.

(** ** Finding skills ([skills/walker.rs]) *)

(** A directory with its entries in the order in which they are listed, where it can be listed, and a file
    with its text, where it can be read. *)
Inductive Tree : Type := TFile (content : option string) | TDir (listed : bool) (entries : list (string * Tree)).
Record RawSkillFile : Type := mk_raw { raw_path : string; dir_name : string; is_project : bool; raw_content : string }.
Definition SKILL_FILENAME : string := "SKILL.md".

Definition skill_in (entries : list (string * Tree)) : option string :=
  match snd <$> List.find (λ e, bool_decide (e.1 = SKILL_FILENAME)) entries with Some (TFile content) => content | _ => None end.

(** [scan_dir]: the files of the directories that are listed, then what is below each of them. *)
Fixpoint scan_dir (project : bool) (dir : string) (t : Tree) : list RawSkillFile :=
  match t with
  | TDir true entries =>
      omap (λ e : string * Tree,
        match e.2 with
        | TDir _ es => content ← skill_in es; Some (mk_raw (path_join (path_join dir e.1) SKILL_FILENAME) e.1 project content)
        | TFile _ => None
        end) entries ++
      concat ((λ e : string * Tree, scan_dir project (path_join dir e.1) e.2) <$> entries)
  | _ => []
  end.

(** [discover] *)
Definition scan_root (project : bool) (dir : option (string * Tree)) : list RawSkillFile :=
  match dir with Some (path, t) => scan_dir project path t | None => [] end.
Definition discover_files (project global : option (string * Tree)) : list RawSkillFile := scan_root true project ++ scan_root false global.

(** ** The registry ([skills/mod.rs]) *)

Definition MAX_DESCRIPTION_LEN : nat := 1024.
Definition DEFAULT_DESCRIPTION_BUDGET : nat := Z.to_nat 9992.
Definition PER_ENTRY_OVERHEAD : nat := 30.

Record SkillDescriptor : Type := mk_descriptor { sk_name : string; sk_description : string; source_path : string; disable_model_invocation : bool }.
Record SkillSummary : Type := mk_summary { sum_name : string; sum_description : string }.

(** [sanitize_name]: the characters of the result are ASCII. *)
Definition sanitize_char (c : string) : Ascii.ascii :=
  match chars c with
  | [c] => if is_lower c || is_upper c || is_digit c || bool_decide (c = byte 45) then ascii_lower c else byte 45
  | _ => byte 45
  end.
Definition sanitize_name (name : string) : string := unchars (sanitize_char <$> str_chars name).

(** [first_paragraph] *)
Fixpoint take_while {A} (p : A → bool) (l : list A) : list A :=
  match l with [] => [] | x :: l => if p x then x :: take_while p l else [] end.
Definition first_paragraph (body : string) : option string :=
  let trimmed := trim body in
  if decide (trimmed = "") then None
  else
    let para := trim (String.concat " " (take_while (λ line, negb (bool_decide (trim line = ""))) (lines trimmed))) in
    if decide (para = "") then None else Some para.

(** [contains] with a text. *)
Fixpoint contains_text (p l : bytes) : bool :=
  match strip_prefix_l p l, l with Some _, _ => true | None, _ :: l => contains_text p l | None, [] => false end.

(** [substitute_arguments] *)
Definition substitute_arguments (body : string) (arguments : option string) : string :=
  let args := default "" arguments in
  if contains_text (chars "$ARGUMENTS") (chars body) then unchars (str_replace (chars "$ARGUMENTS") (chars args) (chars body))
  else if decide (args = "") then body
  else (body ++ String line_feed (String line_feed ("ARGUMENTS: " ++ args)))%string.

Section registry.
Context `{YamlLib}.

(** The loop of [discover_from_dirs]; [None] is a panic. *)
Fixpoint discover_loop (seen : list string) (raw_files : list RawSkillFile) : option (list SkillDescriptor) :=
  match raw_files with
  | [] => Some []
  | raw :: raw_files =>
      parsed ← parse (raw_content raw);
      let fm := frontmatter parsed in
      let name := default (sanitize_name (dir_name raw)) (fm_name fm) in
      if decide (name ∈ seen) then discover_loop seen raw_files
      else
        let description := default "" (match fm_description fm with Some d => Some d | None => first_paragraph (body parsed) end) in
        skills ← discover_loop (name :: seen) raw_files;
        Some (mk_descriptor name description (raw_path raw) (fm_disable fm) :: skills)
  end.
Definition discover_from_dirs (project global : option (string * Tree)) : option (list SkillDescriptor) :=
  discover_loop [] (discover_files project global).
End registry.

(** [get] *)
Definition skill_get (skills : list SkillDescriptor) (name : string) : option SkillDescriptor :=
  List.find (λ s, bool_decide (sk_name s = name)) skills.

(** A turn of the loop of [server_skills_with_budget]: the summaries, the bytes used and the names left out. *)
Section packing.
Context `{Graphemes, Columns}.
Definition truncated_desc (s : SkillDescriptor) : string :=
  unchars (display (ellipsize (chars (sk_description s)) (MBytes MAX_DESCRIPTION_LEN) PEnd ASCII)).
Definition summary (s : SkillDescriptor) : SkillSummary := mk_summary (sk_name s) (truncated_desc s).
Definition entry_size (s : SkillSummary) : nat := (String.length (sum_name s) + String.length (sum_description s) + PER_ENTRY_OVERHEAD)%nat.

Definition pack_skill (budget : nat) (acc : list SkillSummary * nat * list string) (s : SkillDescriptor) : list SkillSummary * nat * list string :=
  let '(summaries, used, overflow) := acc in
  if (budget <? used + entry_size (summary s))%nat && negb (bool_decide (summaries = []))
  then (summaries, used, overflow ++ [sk_name s])
  else (summaries ++ [summary s], used + entry_size (summary s), overflow)%nat.

Definition eligible (skills : list SkillDescriptor) : list SkillDescriptor := filter (λ s, disable_model_invocation s = false) skills.
Definition packed (budget : nat) (skills : list SkillDescriptor) : list SkillSummary * nat * list string :=
  foldl (pack_skill budget) ([], 0%nat, []) (eligible skills).
Definition server_skills_with_budget (budget : nat) (skills : list SkillDescriptor) : list SkillSummary * option string :=
  let '(summaries, _, overflow) := packed budget skills in
  (summaries,
   match overflow with
   | [] => None
   | _ => Some (pretty (length overflow) ++ " additional skill(s) not listed due to size limits: " ++ String.concat ", " overflow)%string
   end).
Definition server_skills : list SkillDescriptor → list SkillSummary * option string := server_skills_with_budget DEFAULT_DESCRIPTION_BUDGET.
End packing.

(** ** Commands in a text ([user_context/interpolate.rs]) *)

(** The events of [pulldown_cmark] with their ranges; a code block is fenced, with its info, or indented. *)
Inductive MdEvent : Type := ECode (code : string) | EBlock (info : option string) | EText (text : string) | EEndBlock | EOther.
Class Markdown : Type := into_offset_iter : string → list (MdEvent * (nat * nat)).

Record Command : Type := mk_command { cmd_start : nat; cmd_end : nat; cmd_body : string }.
Definition bang : Ascii.ascii := byte 33.

(** The loop of [parse_commands]. *)
Fixpoint commands_loop (source : bytes) (events : list (MdEvent * (nat * nat))) (block_start : option nat) (block_body : string) : list Command :=
  match events with
  | [] => []
  | (event, (a, b)) :: events =>
      match event with
      | ECode code =>
          if (0 <? a)%nat && bool_decide (source !! (a - 1)%nat = Some bang)
          then mk_command (a - 1) b code :: commands_loop source events block_start block_body
          else commands_loop source events block_start block_body
      | EBlock info => if decide (info = Some "!") then commands_loop source events (Some a) "" else commands_loop source events block_start block_body
      | EText text =>
          commands_loop source events block_start (match block_start with Some _ => (block_body ++ text)%string | None => block_body end)
      | EEndBlock =>
          match block_start with
          | None => commands_loop source events block_start block_body
          | Some start =>
              let trimmed := trim block_body in
              if decide (trimmed = "") then commands_loop source events None "" else mk_command start b trimmed :: commands_loop source events None ""
          end
      | EOther => commands_loop source events block_start block_body
      end
  end.
Definition parse_commands `{Markdown} (source : string) : list Command := commands_loop (chars source) (into_offset_iter source) None "".

(** [run_command]: what a process comes to, and its text. *)
Inductive ProcessEnd : Type := Exited (success : bool) (code : option Z) (stdout stderr : list Ascii.ascii) | NotStarted (e : string) | TimedOut.
Definition MAX_OUTPUT_BYTES : nat := Z.to_nat 65536.
Definition run_command (p : ProcessEnd) : string :=
  match p with
  | Exited true _ stdout _ =>
      if (MAX_OUTPUT_BYTES <? length stdout)%nat
      then (trim (from_utf8_lossy (take MAX_OUTPUT_BYTES stdout)) ++ String line_feed "[output truncated at 64KB]")%string
      else trim (from_utf8_lossy stdout)
  | Exited false code _ stderr =>
      ("[error: exit code " ++ pretty (default (-1) code) ++ ": " ++ trim (from_utf8_lossy stderr) ++ "]")%string
  | NotStarted e => ("[error: " ++ e ++ "]")%string
  | TimedOut => "[error: command timed out after 5s]"
  end.

(** The text with the outputs in place; [None] is a slice that panics. *)
Fixpoint rebuild (source : bytes) (cursor : nat) (replacements : list (Command * string)) : option (list Ascii.ascii) :=
  match replacements with
  | [] => if (cursor <=? length source)%nat then Some (drop cursor source) else None
  | (c, output) :: replacements =>
      if (cursor <=? cmd_start c)%nat && (cmd_start c <=? length source)%nat
      then out ← rebuild source (cmd_end c) replacements; Some (take (cmd_start c - cursor) (drop cursor source) ++ chars output ++ out)
      else None
  end.

(** [interpolate]; [run] gives what each of the commands comes to. *)
Section interpolate.
Context `{Markdown} (run : nat → string → ProcessEnd).
Definition interpolate (source : string) : option string :=
  match parse_commands source with
  | [] => Some source
  | commands =>
      let results := imap (λ i c, run_command (run i (cmd_body c))) commands in
      unchars <$> rebuild (chars source) 0 (sort_by_key (λ r : Command * string, Z.of_nat (cmd_start r.1)) (zip commands results))
  end.

(** [SkillRegistry::load]; the outer [None] is a panic. *)
Definition load `{YamlLib} (files : string → result string string) (skills : list SkillDescriptor) (name : string) (arguments : option string)
    : option (result string string) :=
  match skill_get skills name with
  | None => Some (Err ("Unknown skill: " ++ name)%string)
  | Some skill =>
      match files (source_path skill) with
      | Err e => Some (Err e)
      | Ok content =>
          parsed ← parse content;
          if decide (trim (body parsed) = "") then Some (Ok ("(Skill '" ++ name ++ "' has no body content)")%string)
          else Ok <$> interpolate (substitute_arguments (body parsed) arguments)
      end
  end.

(** [load_skill_content] *)
Definition load_skill_content `{YamlLib} (files : string → result string string) (skills : list SkillDescriptor) (name : string) (arguments : option string)
    : option string :=
  r ← load files skills name arguments;
  Some match r with Ok body => body | Err e => ("Failed to load skill '" ++ name ++ "': " ++ e)%string end.
End interpolate.

(** ** Context files ([user_context/walker.rs], [user_context/mod.rs]) *)

Definition CONTEXT_FILENAME : string := "TERMINAL.md".
Record FoundFile : Type := mk_found { depth : nat; found_path : string; found_content : string }.
Record UserContext : Type := mk_context_file { uc_path : string; uc_data : string }.

(** The paths that [walk] reads, each with its depth. *)
Definition context_paths (start : string) (global : option string) : list (nat * string) :=
  let dirs := dirs_of start in
  concat (imap (λ i dir, [(i, path_join (path_join dir ".atuin") CONTEXT_FILENAME); (i, path_join dir CONTEXT_FILENAME)]) dirs) ++
  match global with Some g => [(length dirs, g)] | None => [] end.

(** [load_context_file]; a file that is not there and one that cannot be read are left out alike. *)
Definition load_context_file (read : string → option string) (f : nat * string) : option FoundFile :=
  content ← read f.2; Some (mk_found f.1 f.2 content).

(** [walk]; [joined] is the order in which the reads complete. *)
Definition walk_contexts (read : string → option string) (joined : list FoundFile → list FoundFile) (start : string) (global : option string) : list FoundFile :=
  sort_by_key (λ f, - Z.of_nat (depth f)) (joined (omap (load_context_file read) (context_paths start global))).

(** [gather]; a task that panics is left out. *)
Definition gather `{Markdown} (run : string → nat → string → ProcessEnd) (read : string → option string) (joined : list FoundFile → list FoundFile)
    (start : string) (global : option string) : list UserContext :=
  omap (λ f, data ← interpolate (run (found_path f)) (found_content f); Some (mk_context_file (found_path f) data)) (walk_contexts read joined start global).

(** [UserContextCache] *)
Record CacheSlot : Type := mk_slot { epoch : Z; contexts : option (list UserContext) }.
Definition fresh_slot : CacheSlot := mk_slot 0 None.

(** [get_or_gather] up to the gathering, and after it. *)
Definition begin_get (s : CacheSlot) : list UserContext + Z := match contexts s with Some c => inl c | None => inr (epoch s) end.
Definition finish_get (began : Z) (gathered : list UserContext) (s : CacheSlot) : CacheSlot :=
  if (epoch s =? began) && bool_decide (contexts s = None) then mk_slot (epoch s) (Some gathered) else s.
Definition invalidate (s : CacheSlot) : CacheSlot := mk_slot (wrapping_add (epoch s) 1) None.
Definition has_gathered (s : CacheSlot) : option bool := (λ c, negb (bool_decide (c = []))) <$> contexts s.

(** Requests and reloads side by side: what happens, and the requests that are gathering, with the epoch that
    they read. *)
Inductive CacheAct : Type := CBegin (t : nat) | CServed (t : nat) (c : list UserContext) | CGathered (t : nat) (c : list UserContext) | CReload.
Inductive cache_trace : list CacheAct → CacheSlot → gmap nat Z → Prop :=
| cache_start : cache_trace [] fresh_slot ∅
| cache_hit tr s g t c : cache_trace tr s g → g !! t = None → begin_get s = inl c → cache_trace (tr ++ [CServed t c]) s g
| cache_miss tr s g t e : cache_trace tr s g → g !! t = None → begin_get s = inr e → cache_trace (tr ++ [CBegin t]) s (<[t := e]> g)
| cache_gathered tr s g t e c : cache_trace tr s g → g !! t = Some e → cache_trace (tr ++ [CGathered t c]) (finish_get e c s) (delete t g)
| cache_reload tr s g : cache_trace tr s g → cache_trace (tr ++ [CReload]) (invalidate s) g.

(** ** Headers: what is cut *)

(** The lines of a text, each ended by a line feed. *)
Definition ended_lines (ls : list (list Ascii.ascii)) : bytes := concat ((λ l, l ++ [line_feed]) <$> ls).

(** A line that is read back as it is: no line feed in it and no carriage return at its end. *)
Definition plain_line (l : bytes) : Prop := (line_feed ∉ l) ∧ strip_cr l = l.

Lemma lines_of_ended ls r : Forall plain_line ls → lines_l (split_l line_feed (ended_lines ls ++ r)) = ls ++ lines_l (split_l line_feed r).
Proof.
  induction 1 as [|l ls [Hlf Hcr] _ IH]; [done|]. unfold ended_lines in *. cbn [fmap list_fmap concat]. rewrite <- !app_assoc. cbn [app].
  rewrite (split_at line_feed l), <- IH by done. destruct (split_no_sep line_feed (concat ((λ l, l ++ [line_feed]) <$> ls) ++ r)) as [_ Hne].
  cbn [lines_l]. destruct (split_l line_feed _) as [|x xs]; [done|]. by rewrite Hcr.
Qed.

Lemma find_line_first p ls l r : Forall (λ l, p l = false) ls → p l = true → find_line p (ls ++ l :: r) = Some (length ls).
Proof. intros Hls Hl. induction Hls as [|x ls Hx _ IH]; cbn; [by rewrite Hl|]. by rewrite Hx, IH. Qed.

Lemma length_ended ls : sum_list_with (λ l, length l + 1)%nat ls = length (ended_lines ls).
Proof. unfold ended_lines. induction ls as [|l ls IH]; [done|]. cbn. rewrite IH, !length_app. cbn. lia. Qed.

Lemma after_line_app l r : line_feed ∉ l → after_line (l ++ line_feed :: r) = r.
Proof.
  intros Hl. unfold after_line. assert (split_once_l line_feed (l ++ line_feed :: r) = Some (l, r)) as ->; [|done].
  induction l as [|c l IH]; cbn; [by rewrite decide_True|]. apply not_elem_of_cons in Hl as [Hc Hl]. by rewrite decide_False, (IH Hl) by done.
Qed.

(** A header between lines of three dashes is taken off, whatever follows the dashes of the first line, and
    the text after it is the body. *)
Theorem frontmatter_split_exact open ls r :
  line_feed ∉ chars open → Forall plain_line ls → Forall (λ l, trim (unchars l) ≠ "---"%string) ls →
  split_frontmatter ("---" ++ open ++ String line_feed (unchars (ended_lines ls) ++ "---" ++ String line_feed r)) = Some (Some (unchars (ended_lines ls), r)).
Proof.
  intros Ho Hls Hno. unfold split_frontmatter.
  assert (∀ s, trim_start ("---" ++ s) = ("---" ++ s)%string) as Ht.
  { intros s. unfold trim_start. rewrite strip_all_None; [apply unchars_chars|]. rewrite chars_app. change (chars "---") with [byte 45; byte 45; byte 45]. cbn [app].
    apply strip_any_head. intros p Hp. apply (head_ws p (byte 45)); [apply elem_of_app; by left|by vm_compute]. }
  rewrite Ht, strip_prefix_app, !chars_app. cbn [chars]. change (chars (String line_feed ?x)) with (line_feed :: chars x).
  rewrite (after_line_app (chars open)), !chars_app, chars_unchars by done. change (chars (String line_feed r)) with (line_feed :: chars r).
  set (rest := chars "---" ++ line_feed :: chars r). rewrite lines_of_ended by done.
  assert (lines_l (split_l line_feed rest) = chars "---" :: lines_l (split_l line_feed (chars r))) as ->.
  { unfold rest. rewrite (split_at line_feed (chars "---")) by (apply (bool_decide_unpack _); by vm_compute). cbn [lines_l].
    destruct (split_no_sep line_feed (chars r)) as [_ Hne]. by destruct (split_l line_feed (chars r)). }
  rewrite find_line_first; [| |by vm_compute].
  2: { eapply Forall_impl; [exact Hno|]. intros l Hl. by apply bool_decide_eq_false_2. }
  rewrite take_app_length, length_ended. unfold cut. rewrite drop_app_length, take_app_length. unfold rest. cbn [chars app String.list_ascii_of_string].
  change (continuation _) with false. cbv iota. cbn [mbind option_bind]. do 3 f_equal.
  etrans; [|apply unchars_chars]. done.
Qed.

(** ** The registry: whose skill it is, and what is sent *)

Section found.
Context `{YamlLib}.

Lemma discover_loop_names seen raws skills :
  discover_loop seen raws = Some skills → NoDup (sk_name <$> skills) ∧ Forall (λ s, sk_name s ∉ seen) skills.
Proof.
  revert seen skills. induction raws as [|raw raws IH]; intros seen skills; cbn [discover_loop]; [intros [= <-]; split; constructor|].
  intros (p & Hp & Hs)%bind_Some. destruct (decide (_ ∈ seen)) as [|Hn]; [by apply IH|]. apply bind_Some in Hs as (sk & Hsk & [= <-]).
  destruct (IH _ _ Hsk) as [Hnd Hall]. rewrite fmap_cons. cbn [sk_name]. split.
  - apply NoDup_cons. split; [|done]. intros (s & E & Hs)%list_elem_of_fmap. rewrite Forall_forall in Hall. apply (Hall s Hs). rewrite <- E. left.
  - constructor; [done|]. eapply Forall_impl; [exact Hall|]. intros s Hs Hin. apply Hs. by right.
Qed.

(** The name of a skill file. *)
Definition raw_name (raw : RawSkillFile) : option string := p ← parse (raw_content raw); Some (default (sanitize_name (dir_name raw)) (fm_name (frontmatter p))).

Lemma discover_loop_first seen raws skills name path :
  discover_loop seen raws = Some skills → name ∉ seen →
  source_path <$> skill_get skills name = Some path ↔ raw_path <$> List.find (λ r, bool_decide (raw_name r = Some name)) raws = Some path.
Proof.
  revert seen skills. induction raws as [|raw raws IH]; intros seen skills; cbn [discover_loop]; [by intros [= <-]|].
  intros (p & Hp & Hs)%bind_Some Hn. set (n := default (sanitize_name (dir_name raw)) (fm_name (frontmatter p))) in *.
  assert (raw_name raw = Some n) as Er by (unfold raw_name; by rewrite Hp). cbn [List.find]. rewrite Er. destruct (decide (n ∈ seen)) as [Hin|Hin].
  - rewrite bool_decide_eq_false_2 by (intros [= ->]; done). by apply (IH seen).
  - apply bind_Some in Hs as (sk & Hsk & [= <-]). unfold skill_get. cbn [List.find sk_name]. destruct (decide (n = name)) as [->|Hne].
    + by rewrite !bool_decide_eq_true_2.
    + rewrite !bool_decide_eq_false_2 by congruence. apply (IH (n :: seen)); [done|]. intros [?|?]%elem_of_cons; congruence.
Qed.

(** Of skills of one name the first that is found counts, and those of the project are found first. *)
Theorem project_skill_wins project global skills name :
  discover_from_dirs project global = Some skills →
  NoDup (sk_name <$> skills) ∧
  source_path <$> skill_get skills name =
    match List.find (λ r, bool_decide (raw_name r = Some name)) (scan_root true project) with
    | Some r => Some (raw_path r)
    | None => raw_path <$> List.find (λ r, bool_decide (raw_name r = Some name)) (scan_root false global)
    end.
Proof.
  intros Hd. split; [by apply (discover_loop_names [] _ _ Hd)|].
  assert (∀ a b : option string, (∀ p, a = Some p ↔ b = Some p) → a = b) as Hext.
  { intros [a|] b Hab; [symmetry; by apply Hab|]. destruct b as [b|]; [|done]. by apply Hab. }
  apply Hext. intros path. rewrite (discover_loop_first [] _ _ name path Hd) by apply not_elem_of_nil. unfold discover_files.
  assert (∀ (p : RawSkillFile → bool) l l', List.find p (l ++ l') = match List.find p l with Some r => Some r | None => List.find p l' end) as ->.
  { intros p l l'. induction l as [|x l IH]; [done|]. cbn. by destruct (p x). }
  by destruct (List.find _ (scan_root true project)).
Qed.
End found.

Section budget.
Context `{GraphemesLaws, Columns} (budget : nat).

Definition names_of (skills : list SkillDescriptor) : list string := sk_name <$> skills.

(** What is packed: the summaries with their size, the names that are left out. *)
Lemma packed_spec skills (acc : list SkillSummary * nat * list string) :
  (acc.1.1 = [] → acc.1.2 = 0%nat ∧ acc.2 = []) → acc.1.2 = sum_list_with entry_size acc.1.1 →
  (acc.1.2 ≤ Nat.max budget (match acc.1.1 with s :: _ => entry_size s | [] => 0 end))%nat →
  let '(summaries, used, overflow) := foldl (pack_skill budget) acc skills in
  used = sum_list_with entry_size summaries ∧ (used ≤ Nat.max budget (match summaries with s :: _ => entry_size s | [] => 0 end))%nat ∧
  ∃ listed left_out, skills ≡ₚ listed ++ left_out ∧ listed `sublist_of` skills ∧ left_out `sublist_of` skills ∧
    summaries = acc.1.1 ++ (summary <$> listed) ∧ overflow = acc.2 ++ names_of left_out.
Proof.
  revert acc. induction skills as [|s skills IH]; intros [[sums used] over] He Hu Hb; cbn [foldl].
  { cbn in *. split_and!; [done|done|]. exists [], []. cbn. rewrite !app_nil_r. split_and!; done. }
  cbn [fst snd] in *. specialize (IH (pack_skill budget (sums, used, over) s)). unfold pack_skill in *. cbv zeta in *.
  destruct ((budget <? used + entry_size (summary s))%nat && negb (bool_decide (sums = []))) eqn:Ec; cbn [fst snd] in IH.
  - apply andb_true_iff in Ec as [_ Hs%negb_true_iff%bool_decide_eq_false]. specialize (IH (λ E, False_ind _ (Hs E)) Hu Hb).
    destruct (foldl _ _ skills) as [[s' u'] o']. destruct IH as (-> & Hle & ls & lo & Hp & Hl & Hlo & -> & ->). split_and!; [done|done|].
    exists ls, (s :: lo). rewrite <- app_assoc. split_and!; [by rewrite Hp, Permutation_middle|by apply sublist_cons|by apply sublist_skip|done|done].
  - destruct (foldl _ _ skills) as [[s' u'] o']. destruct IH as (-> & Hle & ls & lo & Hp & Hl & Hlo & -> & ->).
    + by destruct sums.
    + rewrite sum_list_with_app, Hu. cbn. lia.
    + apply andb_false_iff in Ec as [Hc%Nat.ltb_ge|Hs%negb_false_iff%bool_decide_eq_true]; [lia|]. subst sums. destruct (He eq_refl) as [-> _]. cbn. lia.
    + split_and!; [done|done|]. exists (s :: ls), lo. rewrite fmap_cons, <- app_assoc. split_and!; [by rewrite Hp|by apply sublist_skip|by apply sublist_cons|done|done].
Qed.

Lemma truncated_fits s : (String.length (truncated_desc s) ≤ MAX_DESCRIPTION_LEN)%nat.
Proof.
  unfold truncated_desc. rewrite <- length_chars, chars_unchars.
  pose proof (ellipsized_bytes (chars (sk_description s)) MAX_DESCRIPTION_LEN PEnd ASCII). lia.
Qed.

(** Every skill that the model may use is listed, in order, with at most 1024 bytes of its description, or is
    named as left out; one that it may not use is neither. What is listed is within the budget, but for a
    first skill that is larger by itself. *)
Theorem skills_fit_budget skills :
  let '(summaries, message) := server_skills_with_budget budget skills in
  (sum_list_with entry_size summaries ≤ Nat.max budget (match summaries with s :: _ => entry_size s | [] => 0 end))%nat ∧
  Forall (λ s, (String.length (sum_description s) ≤ MAX_DESCRIPTION_LEN)%nat) summaries ∧
  ∃ listed left_out, eligible skills ≡ₚ listed ++ left_out ∧ listed `sublist_of` eligible skills ∧ summaries = summary <$> listed ∧
    (eligible skills ≠ [] → listed ≠ []) ∧
    message = match left_out with
              | [] => None
              | _ => Some (pretty (length left_out) ++ " additional skill(s) not listed due to size limits: " ++ String.concat ", " (names_of left_out))%string
              end.
Proof.
  unfold server_skills_with_budget, packed. pose proof (packed_spec (eligible skills) ([], 0%nat, [])) as Hp. cbn [fst snd] in Hp.
  destruct (foldl _ _ _) as [[sums used] over] eqn:Ef. destruct Hp as (-> & Hle & ls & lo & Hp & Hl & _ & -> & ->); [done|done|lia|]. cbn [app].
  split_and!; [done| |].
  - apply Forall_fmap, Forall_true. intros s. apply truncated_fits.
  - exists ls, lo. split_and!; [done|done|done| |by destruct lo; unfold names_of; rewrite ?length_fmap].
    intros Hne ->. destruct (eligible skills) as [|s rest]; [done|]. cbn [foldl] in Ef.
    assert (pack_skill budget ([], 0%nat, []) s = ([summary s], entry_size (summary s), [])) as E1 by (unfold pack_skill; by rewrite andb_false_r). rewrite E1 in Ef.
    pose proof (packed_spec rest ([summary s], entry_size (summary s), [])) as Hq. cbn [fst snd] in Hq. rewrite Ef in Hq.
    destruct Hq as (_ & _ & ? & ? & _ & _ & _ & E & _); [done|cbn; lia|lia|]. by cbn in E.
Qed.
End budget.

(** ** Commands: what is replaced *)

(** The elements of a document are in order and do not overlap, the end of a block has the range of its
    start, and the mark before a code span is not part of the element before it. *)
Fixpoint events_ok (source : bytes) (pos : nat) (block : option (option string * (nat * nat))) (events : list (MdEvent * (nat * nat))) : Prop :=
  match events with
  | [] => True
  | (event, (a, b)) :: events =>
      match event with
      | ECode _ => block = None ∧ (pos ≤ a < b)%nat ∧ (b ≤ length source)%nat ∧
          ((0 < a)%nat → source !! (a - 1)%nat = Some bang → (pos ≤ a - 1)%nat) ∧ events_ok source b None events
      | EBlock info => block = None ∧ (pos ≤ a < b)%nat ∧ (b ≤ length source)%nat ∧ events_ok source pos (Some (info, (a, b))) events
      | EEndBlock => match block with Some (_, r) => r = (a, b) ∧ events_ok source b None events | None => False end
      | EText _ | EOther => events_ok source pos block events
      end
  end.

(** Commands in order, apart from each other and within the text. *)
Fixpoint commands_ok (len pos : nat) (cs : list Command) : Prop :=
  match cs with [] => True | c :: cs => (pos ≤ cmd_start c < cmd_end c)%nat ∧ (cmd_end c ≤ len)%nat ∧ commands_ok len (cmd_end c) cs end.

Lemma commands_ok_weaken len pos pos' cs : (pos' ≤ pos)%nat → commands_ok len pos cs → commands_ok len pos' cs.
Proof. destruct cs; [done|]. cbn. intros ? [? ?]. split; [lia|done]. Qed.

(** Inside of a block that is a command. *)
Definition open_at (block : option (option string * (nat * nat))) : option nat :=
  match block with Some (info, (a, _)) => if decide (info = Some "!") then Some a else None | None => None end.

Lemma commands_loop_ok source events pos block text :
  events_ok source pos block events → (∀ info r, block = Some (info, r) → (pos ≤ r.1 < r.2)%nat ∧ (r.2 ≤ length source)%nat) →
  commands_ok (length source) pos (commands_loop source events (open_at block) text).
Proof.
  revert pos block text. induction events as [|[e [a b]] events IH]; intros pos block text Hev Hb; [done|]. destruct e as [code|info|t| |]; cbn [events_ok commands_loop] in *.
  - destruct Hev as (-> & Hab & Hlen & Hbang & Hev). cbn [open_at]. assert (∀ t, commands_ok (length source) b (commands_loop source events None t)) as Hrest by (intros t; by apply (IH b None t)).
    destruct ((0 <? a)%nat && bool_decide _) eqn:Ec; [|apply (commands_ok_weaken _ b); [lia|done]].
    apply andb_true_iff in Ec as [Ha%Nat.ltb_lt Hs%bool_decide_eq_true]. specialize (Hbang Ha Hs). cbn [commands_ok cmd_start cmd_end]. split_and!; [lia..|apply Hrest].
  - destruct Hev as (-> & Hab & Hlen & Hev). cbn [open_at] in *.
    assert (commands_ok (length source) pos (commands_loop source events (open_at (Some (info, (a, b)))) (if decide (info = Some "!"%string) then ""%string else text))) as Hrest.
    { apply IH; [done|]. by intros ? ? [= <- <-]. }
    cbn [open_at] in Hrest. by destruct (decide (info = Some "!"%string)).
  - by apply IH.
  - destruct block as [[info r]|]; [|done]. destruct Hev as [-> Hev]. destruct (Hb info (a, b) eq_refl) as [Hab Hlen]. cbn [fst snd open_at] in *.
    assert (∀ t, commands_ok (length source) b (commands_loop source events None t)) as Hrest by (intros t; by apply (IH b None t)).
    destruct (decide (info = Some "!"%string)); [|apply (commands_ok_weaken _ b); [lia|done]].
    destruct (decide _); [apply (commands_ok_weaken _ b); [lia|done]|]. cbn [commands_ok cmd_start cmd_end]. split_and!; [lia..|apply Hrest].
  - by apply IH.
Qed.

(** The text of a command. *)
Definition command_text (source : bytes) (c : Command) : bytes := take (cmd_end c - cmd_start c) (drop (cmd_start c) source).

(** The text with the outputs in place of the commands. *)
Lemma rebuild_spec source cs outs pos :
  commands_ok (length source) pos cs → (pos ≤ length source)%nat → length outs = length cs →
  ∃ texts last, length texts = length cs ∧ drop pos source = concat (zip_with (++) texts (command_text source <$> cs)) ++ last ∧
    rebuild source pos (zip cs outs) = Some (concat (zip_with (++) texts (chars <$> outs)) ++ last).
Proof.
  revert outs pos. induction cs as [|c cs IH]; intros [|o outs] pos Hok Hpos Hl; try done.
  { exists [], (drop pos source). cbn. by rewrite (proj2 (Nat.leb_le _ _) Hpos). }
  destruct Hok as (Hc & Hlen & Hok). destruct (IH outs (cmd_end c) Hok Hlen) as (ts & l & Hts & Hd & Hr); [cbn in Hl; lia|].
  exists (take (cmd_start c - pos) (drop pos source) :: ts), l. cbn [zip_with rebuild length fmap list_fmap concat]. change (zip_with pair cs outs) with (zip cs outs).
  rewrite (proj2 (Nat.leb_le pos (cmd_start c))), (proj2 (Nat.leb_le (cmd_start c) (length source))) by lia. cbn [andb]. rewrite Hr. cbn [mbind option_bind].
  split_and!; [by rewrite Hts| |by rewrite <- !app_assoc]. rewrite <- !app_assoc, <- Hd. unfold command_text.
  rewrite <- (take_drop (cmd_start c - pos) (drop pos source)) at 1. f_equal. rewrite drop_drop. replace (pos + (cmd_start c - pos))%nat with (cmd_start c) by lia.
  rewrite <- (take_drop (cmd_end c - cmd_start c) (drop (cmd_start c) source)) at 1. f_equal. rewrite drop_drop. f_equal. lia.
Qed.

Lemma commands_sorted len pos (rs : list (Command * string)) :
  commands_ok len pos rs.*1 → StronglySorted (λ x y, leb (Z.of_nat (cmd_start x.1)) (Z.of_nat (cmd_start y.1)) = true) rs ∧ Forall (λ r, (pos ≤ cmd_start r.1)%nat) rs.
Proof.
  revert pos. induction rs as [|[c o] rs IH]; intros pos Hok; [split; constructor|]. destruct Hok as (Hc & Hlen & Hok). destruct (IH _ Hok) as [Hs Hall].
  cbn [fst] in Hc. split; [constructor; [done|]|constructor; [cbn; lia|]]; (eapply Forall_impl; [exact Hall|]); intros r Hr; cbn in *; [|lia].
  apply Z.leb_le. lia.
Qed.

(** Interpolating a text leaves everything as it is but its commands, and puts the output of each in its
    place; it does not panic. *)
Theorem interpolation_replaces_commands `{Markdown} run source :
  events_ok (chars source) 0 None (into_offset_iter source) →
  let commands := parse_commands source in
  let results := imap (λ i c, run_command (run i (cmd_body c))) commands in
  ∃ texts last, length texts = length commands ∧
    chars source = concat (zip_with (++) texts (command_text (chars source) <$> commands)) ++ last ∧
    interpolate run source = Some (unchars (concat (zip_with (++) texts (chars <$> results)) ++ last)).
Proof.
  intros Hev commands results. assert (commands_ok (length (chars source)) 0 commands) as Hok by (by apply (commands_loop_ok _ _ 0%nat None)).
  assert (length results = length commands) as Hlen by apply length_imap.
  destruct (rebuild_spec (chars source) commands results 0 Hok) as (ts & l & Hts & Hd & Hr); [lia|done|]. rewrite drop_0 in Hd. exists ts, l. split_and!; [done|done|].
  assert (sort_by_key (λ r : Command * string, Z.of_nat (cmd_start r.1)) (zip commands results) = zip commands results) as Hsort.
  { apply sort_by_sorted_id. apply (commands_sorted (length (chars source)) 0). by rewrite fst_zip by lia. }
  unfold interpolate. fold commands. destruct commands as [|c cs] eqn:Ec.
  - destruct ts; [|done]. cbn in Hd. cbn. rewrite <- Hd. by rewrite unchars_chars.
  - change (imap (λ i c, run_command (run i (cmd_body c))) (c :: cs)) with results. rewrite Hsort, Hr. done.
Qed.

(** ** Context files: the order, and reloading *)

(** The files that are read come with the outermost directory first, after the global file, in whichever
    order the reads complete. *)
Theorem contexts_outermost_first read joined start global :
  (∀ l, joined l ≡ₚ l) →
  walk_contexts read joined start global ≡ₚ omap (load_context_file read) (context_paths start global) ∧
  StronglySorted (λ f f', (depth f' ≤ depth f)%nat) (walk_contexts read joined start global).
Proof.
  intros Hj. unfold walk_contexts. split; [unfold sort_by_key; by rewrite sort_by_perm, Hj|].
  pose proof (sort_by_key_sorted (λ f, - Z.of_nat (depth f)) (joined (omap (load_context_file read) (context_paths start global)))) as Hs.
  induction Hs as [|f l Hs IH Hall]; constructor; [done|]. eapply Forall_impl; [exact Hall|]. intros f' Hf%Z.leb_le. lia.
Qed.

Section cache.

Definition reloads (tr : list CacheAct) : nat := sum_list_with (λ a, match a with CReload => 1 | _ => 0 end)%nat tr.

(** A gathering that began and ended with no reload from its beginning on. *)
Definition gathered_since (tr : list CacheAct) (c : list UserContext) : Prop :=
  ∃ t before meanwhile after, tr = before ++ CBegin t :: meanwhile ++ CGathered t c :: after ∧ CReload ∉ meanwhile ++ after.

Lemma reloads_app tr tr' : reloads (tr ++ tr') = (reloads tr + reloads tr')%nat.
Proof. apply sum_list_with_app. Qed.

Lemma no_reload_elem tr : reloads tr = 0%nat → CReload ∉ tr.
Proof. induction tr as [|a tr IH]; cbn; [intros _; apply not_elem_of_nil|]. intros H0. apply not_elem_of_cons. split; [by intros <-|apply IH; unfold reloads; lia]. Qed.

Record cache_inv (tr : list CacheAct) (s : CacheSlot) (g : gmap nat Z) : Prop := mk_cache_inv {
  ci_epoch : epoch s = Z.of_nat (reloads tr) mod u64_limit;
  ci_cached c : contexts s = Some c → gathered_since tr c;
  ci_running t e : g !! t = Some e → ∃ before after, tr = before ++ CBegin t :: after ∧ e = Z.of_nat (reloads before) mod u64_limit
}.

Lemma cache_invariant tr0 s0 g0 : cache_trace tr0 s0 g0 → Z.of_nat (reloads tr0) < u64_limit → cache_inv tr0 s0 g0.
Proof.
  assert (∀ tr a c, a ≠ CReload → gathered_since tr c → gathered_since (tr ++ [a]) c) as Hgs.
  { intros tr a c Ha (t & l1 & l2 & l3 & -> & Hn). exists t, l1, l2, (l3 ++ [a]). split; [by rewrite <- !app_assoc; cbn; rewrite <- !app_assoc|].
    intros [?|[?|?%list_elem_of_singleton]%elem_of_app]%elem_of_app; [apply Hn, elem_of_app; by left|apply Hn, elem_of_app; by right|congruence]. }
  assert (∀ tr a (g : gmap nat Z), (∀ t e, g !! t = Some e → ∃ l l', tr = l ++ CBegin t :: l' ∧ e = Z.of_nat (reloads l) mod u64_limit) →
    ∀ t e, g !! t = Some e → ∃ l l', tr ++ [a] = l ++ CBegin t :: l' ∧ e = Z.of_nat (reloads l) mod u64_limit) as Hrun.
  { intros tr a g Hg t e (l & l' & -> & ->)%Hg. exists l, (l' ++ [a]). by rewrite <- app_assoc. }
  induction 1 as [|tr s g t c Ht IH Hg Hb|tr s g t e Ht IH Hg Hb|tr s g t e c Ht IH Hg|tr s g Ht IH]; intros Hlt.
  { by split. }
  all: rewrite reloads_app in Hlt; destruct IH as [I1 I2 I3]; [lia|].
  - split; [by rewrite reloads_app, Nat.add_0_r|intros; by apply Hgs, I2|by apply Hrun].
  - split; [by rewrite reloads_app, Nat.add_0_r|intros; by apply Hgs, I2|]. intros t' e' [[<- <-]|[Hne Ht']]%lookup_insert_Some; [|by apply (Hrun tr _ g)].
    exists tr, []. split; [done|]. unfold begin_get in Hb. destruct (contexts s); [done|]. injection Hb as <-. done.
  - assert (∀ t' e', delete t g !! t' = Some e' → ∃ l l', tr ++ [CGathered t c] = l ++ CBegin t' :: l' ∧ e' = Z.of_nat (reloads l) mod u64_limit) as Hdel.
    { intros t' e' [_ Ht']%lookup_delete_Some. by apply (Hrun tr _ g). }
    unfold finish_get. destruct ((epoch s =? e) && bool_decide (contexts s = None)) eqn:Ec.
    + split; [by rewrite reloads_app, Nat.add_0_r| |done]. intros c' [= <-]. apply andb_true_iff in Ec as [He%Z.eqb_eq _].
      destruct (I3 t e Hg) as (l & l' & -> & E). exists t, l, l', []. split; [by rewrite <- app_assoc|]. rewrite app_nil_r. apply no_reload_elem.
      rewrite I1 in He. rewrite E in He. rewrite reloads_app in He, Hlt. change (reloads (CBegin t :: l')) with (reloads l') in *.
      rewrite !Z.mod_small in He by lia. lia.
    + split; [by rewrite reloads_app, Nat.add_0_r|intros; by apply Hgs, I2|done].
  - split; [|done|by apply Hrun]. cbn [invalidate epoch]. rewrite I1, reloads_app. unfold wrapping_add. rewrite Zplus_mod_idemp_l. f_equal. cbn. lia.
Qed.

(** C15: whatever requests and reloads happen side by side, a request is answered from the cache only with
    contexts whose gathering began after the last reload, and a gathering that ends late never replaces what
    another one has cached meanwhile. *)
Theorem cache_never_predates_reload tr s g :
  cache_trace tr s g → Z.of_nat (reloads tr) < u64_limit →
  (∀ c, begin_get s = inl c → gathered_since tr c) ∧
  (∀ t e c c', g !! t = Some e → contexts s = Some c → finish_get e c' s = s).
Proof.
  intros Ht Hlt. destruct (cache_invariant tr s g Ht Hlt) as [_ I2 _]. split.
  - intros c. unfold begin_get. destruct (contexts s) as [c0|] eqn:Ec; [|done]. intros [= ->]. by apply I2.
  - intros t e c c' _ Hc. unfold finish_get. by rewrite Hc, andb_false_r.
Qed.
End cache.

(** ** Examples *)

Module SkillsDemo.
#[local] Instance each : Graphemes := λ l, (λ c, [c]) <$> l.
#[local] Instance one_column : Columns := length.

(** YAML of one line for each key, and Markdown of code spans. *)
Definition yaml_value (s : string) : Yaml :=
  if decide (s = "true") then YBoolean true else if decide (s = "false") then YBoolean false else YString s.
#[local] Instance line_yaml : YamlLib := {|
  Doc := list (string * string);
  load_from_str s := Ok [omap (λ l, '(k, v) ← split_once (byte 58) l; Some (k, trim v)) (lines s)];
  doc_index d k := match List.find (λ e : string * string, bool_decide (e.1 = k)) d with Some (_, v) => yaml_value v | None => YOther end
|}.
Fixpoint code_spans (fuel pos : nat) (l : bytes) : list (MdEvent * (nat * nat)) :=
  match fuel, split_once_l (byte 96) l with
  | S fuel, Some (a, r) =>
      match split_once_l (byte 96) r with
      | Some (code, r') =>
          let from := (pos + length a)%nat in
          let to := (from + length code + 2)%nat in
          (ECode (unchars code), (from, to)) :: code_spans fuel to r'
      | None => []
      end
  | _, _ => []
  end.
#[local] Instance span_markdown : Markdown := λ s, code_spans (String.length s) 0 (chars s).

(** A process that prints its command. *)
Definition echo (i : nat) (body : string) : ProcessEnd := Exited true (Some 0) (chars ("ran " ++ body)) [].
Example echoed : interpolate echo "a: !`x` `y` !`z`." = Some "a: ran x `y` ran z."%string.
Proof. by vm_compute. Qed.

Definition unix (ls : list string) : string := unchars (ended_lines (chars <$> ls)).
Definition dos (ls : list string) : string := unchars (ended_lines ((λ l, chars l ++ [byte 13]) <$> ls)).
Definition deploy : list string := ["---"; "name: deploy"; "description: ships it"; "disable-model-invocation: true"; "---"; "Run !`make`."].
Definition cafe : list string := ["---"; "name: c"; "model: m"; "description: caf" ++ unchars [byte 195; byte 169]; "---"; "Body"]%string.

Example unix_header : parse (unix deploy) = Some (mk_parsed (mk_front (Some "deploy") (Some "ships it") true) (unix ["Run !`make`."])).
Proof. by vm_compute. Qed.

(** With carriage returns before the line feeds the header ends as many bytes too early as it has lines: a
    skill that the model must not use loses its mark, its body begins with the dashes, and an offset inside
    a character panics. *)
Theorem carriage_returns_cut_header :
  (p ← parse (dos deploy); Some (fm_disable (frontmatter p), starts_with "---" (body p))) = Some (false, true) ∧
  is_Some (parse (unix cafe)) ∧ parse (dos cafe) = None.
Proof. split; [|split]; [by vm_compute|by vm_compute; eexists|by vm_compute]. Qed.

(** A skill that the model must not use is not listed, and is loaded when the model names it: its commands
    run without a question. *)
Definition skills : list SkillDescriptor := [mk_descriptor "deploy" "ships it" "/s/SKILL.md" true].
Theorem disabled_skill_is_loaded :
  server_skills skills = ([], None) ∧ is_auto_approved (CLoadSkill (mk_skill "deploy")) = true ∧
  load_skill_content echo (λ _, Ok (unix deploy)) skills "deploy" None = Some (unix ["Run ran make."]).
Proof. split; [|split]; by vm_compute. Qed.

(** A reload while a request gathers. *)
Definition old : list UserContext := [mk_context_file "/p/TERMINAL.md" "one"].
Definition new_ : list UserContext := [mk_context_file "/p/TERMINAL.md" "two"].
Definition happened : list CacheAct := [CBegin 1; CReload; CBegin 2; CGathered 2 new_; CGathered 1 old].

Lemma happens : cache_trace happened (mk_slot 1 (Some new_)) ∅.
Proof.
  pose proof cache_start as T. apply (cache_miss _ _ _ 1%nat 0) in T; [|done|done]. apply cache_reload in T. apply (cache_miss _ _ _ 2%nat 1) in T; [|by vm_compute|by vm_compute].
  apply (cache_gathered _ _ _ 2%nat 1 new_) in T; [|by vm_compute]. apply (cache_gathered _ _ _ 1%nat 0 old) in T; [|by vm_compute].
  exact T.
Qed.

Lemma cache_never_predates_reload_witness : begin_get (mk_slot 1 (Some new_)) = inl new_ ∧ gathered_since happened new_.
Proof.
  destruct (cache_never_predates_reload happened (mk_slot 1 (Some new_)) ∅ happens) as [W _]; [by vm_compute|]. split; [done|]. by apply W.
Defined.
End SkillsDemo.
