(* ===== verification/AiSession.v ===== *)
(** * The assistant's sessions ([atuin-ai/src/session.rs], [store.rs], [tui/persist.rs])

    A conversation is stored as a session of events in an SQLite database, so that the next invocation
    in the same directory continues it. The manager writes the events it has not written yet; a worker
    owns it and takes jobs in order. [open_session] is the part of [commands/inline.rs] that looks for
    a session to resume. Fresh ids and clock readings are arguments; the tables are lists of rows, an
    insertion fails on a clash of ids or an unknown session. *)
From stdpp Require Import pretty.
From S2P Require Import Prelude Text Filter Json History AiTools Permissions Conversation AgentFsm.

(** The arithmetic of an [i64] in a release build. *)
Definition wrap_i64 (z : Z) : Z := u64_as_i64 (i64_as_u64 z).

(** ** The database ([store.rs]) *)

Record StoredSession : Type := mk_session {
  ss_id : string; ss_head : option string; ss_server : option string; ss_directory : option string;
  ss_git_root : option string; ss_created : Z; ss_updated : Z; ss_archived : option Z
}.

Record StoredEvent : Type := mk_stored {
  se_id : string; se_session : string; se_parent : option string; se_invocation : string;
  se_type : string; se_data : string; se_created : Z
}.

(** The tables [sessions], [session_events], [session_metadata] and [usage]. *)
Record Db : Type := mk_db {
  db_sessions : list StoredSession; db_events : list StoredEvent;
  db_meta : gmap (string * string) (string * Z); db_usage : gmap string (string * Z)
}.

Definition empty_db : Db := mk_db [] [] ∅ ∅.

Definition update_session (sid : string) (g : StoredSession → StoredSession) (db : Db) : Db :=
  mk_db ((λ s, if decide (ss_id s = sid) then g s else s) <$> db_sessions db) (db_events db) (db_meta db) (db_usage db).

Definition known (db : Db) (sid : string) : Prop := sid ∈ ss_id <$> db_sessions db.
#[export] Instance known_dec db sid : Decision (known db sid).
Proof. unfold known. apply _. Defined.

Definition create_session (db : Db) (id : string) (directory git_root : option string) (now : Z) : result Db string :=
  if decide (known db id) then Err "UNIQUE constraint failed: sessions.id"%string
  else Ok (mk_db (db_sessions db ++ [mk_session id None None directory git_root now now None])
             (db_events db) (db_meta db) (db_usage db)).

Definition get_session (db : Db) (id : string) : option StoredSession :=
  List.find (λ s, bool_decide (ss_id s = id)) (db_sessions db).

(** The [where] of [find_resumable_session]: a comparison with a null is not true. *)
Definition resumable (directory git_root : option string) (cutoff : Z) (s : StoredSession) : bool :=
  bool_decide (ss_archived s = None) && (cutoff <? ss_updated s) &&
  (match ss_directory s, directory with Some a, Some b => bool_decide (a = b) | _, _ => false end
   || match ss_git_root s, git_root with Some a, Some b => bool_decide (a = b) | _, _ => false end).

Definition find_resumable_session (db : Db) (directory git_root : option string) (max_age_secs now : Z)
    : option StoredSession :=
  let cutoff := wrap_i64 (now - max_age_secs) in
  head (sort_by_key (λ s, - ss_updated s) (filter (λ s, resumable directory git_root cutoff s = true) (db_sessions db))).

Definition append_event (db : Db) (sid eid : string) (parent : option string) (invocation type_ data : string) (now : Z)
    : result Db string :=
  if decide (eid ∈ se_id <$> db_events db) then Err "UNIQUE constraint failed: session_events.id"%string
  else if decide (known db sid) then
    Ok (update_session sid
          (λ s, mk_session (ss_id s) (Some eid) (ss_server s) (ss_directory s) (ss_git_root s) (ss_created s) now (ss_archived s))
          (mk_db (db_sessions db) (db_events db ++ [mk_stored eid sid parent invocation type_ data now])
             (db_meta db) (db_usage db)))
  else Err "FOREIGN KEY constraint failed"%string.

(** [order by created_at, rowid]: the list is in the order of the row ids, and the sort is stable. *)
Definition load_events (db : Db) (sid : string) : list StoredEvent :=
  sort_by_key se_created (filter (λ e, se_session e = sid) (db_events db)).

Definition update_server_session_id (db : Db) (sid server : string) : Db :=
  update_session sid
    (λ s, mk_session (ss_id s) (ss_head s) (Some server) (ss_directory s) (ss_git_root s) (ss_created s) (ss_updated s) (ss_archived s)) db.

Definition archive_session (db : Db) (sid : string) (now : Z) : Db :=
  update_session sid
    (λ s, mk_session (ss_id s) (ss_head s) (ss_server s) (ss_directory s) (ss_git_root s) (ss_created s) (ss_updated s) (Some now)) db.

Definition db_get_metadata (db : Db) (sid key : string) : option string := fst <$> db_meta db !! (sid, key).

Definition db_set_metadata (db : Db) (sid key value : string) (now : Z) : result Db string :=
  if decide (known db sid) then
    Ok (mk_db (db_sessions db) (db_events db) (<[(sid, key) := (value, now)]> (db_meta db)) (db_usage db))
  else Err "FOREIGN KEY constraint failed"%string.

(** The snapshot is its JSON text. *)
Definition get_usage (db : Db) (user_key : string) : option (string * Z) := db_usage db !! user_key.
Definition set_usage (db : Db) (user_key snapshot : string) (now : Z) : Db :=
  mk_db (db_sessions db) (db_events db) (db_meta db) (<[user_key := (snapshot, now)]> (db_usage db)).

(** ** The manager ([session.rs]) *)

Record SessionManager : Type := mk_manager {
  m_session : string; m_invocation : string; m_count : nat; m_head : option string;
  m_directory : option string; m_git_root : option string; m_in_db : bool
}.

(** An id and a clock reading for each event that is written. *)
Abbreviation Draws := (nat → string * Z).

Section manager.
Context `{Json}.

Definition SM (A : Type) : Type := stm (Db * SessionManager) string A.

Definition create_new (session invocation : string) (directory git_root : option string) : SessionManager :=
  mk_manager session invocation 0 None directory git_root false.

(** [resume]: the manager, the events, the server's session id, the time of the last event and the
    invocation. *)
Definition resume (db : Db) (stored : StoredSession) (invocation : string)
    : result (SessionManager * list ConversationEvent * option string * option Z * string) string :=
  let stored_events := load_events db (ss_id stored) in
  let? events := try_map (λ se, deserialize_event (se_type se) (se_data se)) stored_events in
  Ok (mk_manager (ss_id stored) invocation (length events) (se_id <$> last stored_events)
        (ss_directory stored) (ss_git_root stored) true,
      events, ss_server stored, se_created <$> last stored_events, invocation).

Definition ensure_persisted (now : Z) : SM unit := λ '(db, m),
  if m_in_db m then ((db, m), Ok tt)
  else match create_session db (m_session m) (m_directory m) (m_git_root m) now with
       | Ok db => ((db, mk_manager (m_session m) (m_invocation m) (m_count m) (m_head m) (m_directory m) (m_git_root m) true), Ok tt)
       | Err e => ((db, m), Err e)
       end.

(** The body of the loop of [persist_events]. *)
Definition persist_one (draw : string * Z) (e : ConversationEvent) : SM unit := λ '(db, m),
  match append_event db (m_session m) draw.1 (m_head m) (m_invocation m) (serialize_event e).1 (serialize_event e).2 draw.2 with
  | Ok db => ((db, mk_manager (m_session m) (m_invocation m) (S (m_count m)) (Some draw.1) (m_directory m) (m_git_root m) (m_in_db m)), Ok tt)
  | Err e => ((db, m), Err e)
  end.

Fixpoint persist_all (draw : Draws) (evs : list ConversationEvent) : SM unit :=
  match evs with
  | [] => st_ret tt
  | e :: evs => let! _ := persist_one (draw O) e in persist_all (λ i, draw (S i)) evs
  end.

Definition persist_events (draw : Draws) (now : Z) (evs : list ConversationEvent) : SM unit := λ s,
  if (length evs <=? m_count s.2)%nat then (s, Ok tt)
  else (let! _ := ensure_persisted now in persist_all draw (drop (m_count s.2) evs)) s.

Definition persist_server_session_id (now : Z) (server : string) : SM unit :=
  let! _ := ensure_persisted now in λ '(db, m), ((update_server_session_id db (m_session m) server, m), Ok tt).

Definition archive_and_reset (session invocation : string) (now : Z) : SM unit := λ '(db, m),
  ((if m_in_db m then archive_session db (m_session m) now else db,
    mk_manager session invocation 0 None (m_directory m) (m_git_root m) false), Ok tt).

Definition get_metadata (db : Db) (m : SessionManager) (key : string) : option string :=
  if m_in_db m then db_get_metadata db (m_session m) key else None.

Definition set_metadata (now : Z) (key value : string) : SM unit :=
  let! _ := ensure_persisted now in λ '(db, m),
  match db_set_metadata db (m_session m) key value now with
  | Ok db => ((db, m), Ok tt)
  | Err e => ((db, m), Err e)
  end.

(** ** The worker ([tui/persist.rs]) *)

Inductive PersistJob : Type :=
| JSession (evs : list ConversationEvent) (server_session_id file_tracker edit_permissions : option string)
| JUsage (key snapshot : string)
| JArchive.

Definition FILE_TRACKER_KEY : string := "file_read_tracker".
Definition EDIT_PERMISSIONS_KEY : string := "edit_permissions".

(** What a job draws: ids and times for its events, the time of its other writes, and the ids of the
    session that [JArchive] begins. *)
Record JobDraws : Type := mk_draws { jd_events : Draws; jd_now : Z; jd_session : string; jd_invocation : string }.

(** A write whose error is only logged. *)
Definition logged (m : SM unit) (s : Db * SessionManager) : Db * SessionManager := (m s).1.

Definition when_some (v : option string) (k : string → SM unit) (s : Db * SessionManager) : Db * SessionManager :=
  match v with Some x => logged (k x) s | None => s end.

Definition run_job (d : JobDraws) (job : PersistJob) (s : Db * SessionManager) : Db * SessionManager :=
  match job with
  | JSession evs server ft ep =>
      let s := logged (persist_events (jd_events d) (jd_now d) evs) s in
      let s := when_some server (persist_server_session_id (jd_now d)) s in
      let s := when_some ft (set_metadata (jd_now d) FILE_TRACKER_KEY) s in
      when_some ep (set_metadata (jd_now d) EDIT_PERMISSIONS_KEY) s
  | JUsage key snapshot => (set_usage s.1 key snapshot (jd_now d), s.2)
  | JArchive => logged (archive_and_reset (jd_session d) (jd_invocation d) (jd_now d)) s
  end.

(** ** Starting ([commands/inline.rs]) *)

Definition NEW_INVOCATION_NOTE : ConversationEvent := SystemContext
  "[Note: The user has started a new invocation of Atuin AI. Prior messages from this session are from an earlier invocation.]".

(** The session to continue, or a new one: the manager, the machine, and the texts of the file tracker
    and of the edit permissions. The seconds of [max_age_secs] are an [i64]. *)
Definition open_session (db : Db) (cwd git_root : option string) (continue_minutes now : Z) (session invocation : string)
    (caps : list string) : result (SessionManager * AgentFsm * option string * option string) string :=
  let max_age_secs := wrap_i64 (Z.max continue_minutes 0 * 60) in
  match find_resumable_session db cwd git_root max_age_secs now with
  | Some stored =>
      let? r := resume db stored invocation in
      let '(mgr, events, server_sid, last_ts, inv) := r in
      if existsb is_api_content events then
        let events := events ++ [NEW_INVOCATION_NOTE] in
        Ok (mgr, from_session events server_sid caps inv (length events) true last_ts,
            get_metadata db mgr FILE_TRACKER_KEY, get_metadata db mgr EDIT_PERMISSIONS_KEY)
      else Ok (mgr, new caps inv, None, None)
  | None => Ok (create_new session invocation cwd git_root, new caps invocation, None, None)
  end.

(** ** The application: the machine, the jobs it has queued, and the worker *)

(** The jobs that [handle_fsm] queues for the effects of a transition. *)
Definition job_of (f : AgentFsm) (ft ep : option string) (x : Effect) : option PersistJob :=
  match x with
  | Persist => Some (JSession (events (ctx f)) (session_id (ctx f)) ft ep)
  | ArchiveSession => Some JArchive
  | _ => None
  end.

(** The conversation that the database holds for a session. *)
Definition conversation (db : Db) (sid : string) : result (list ConversationEvent) string :=
  try_map (λ se, deserialize_event (se_type se) (se_data se)) (load_events db sid).

(** The application, with two things that it does not keep: [a_saved] is what the last snapshot held that was
    asked for, and [a_old] what the invocation found in its session and left out of its conversation. *)
Record App : Type := mk_app {
  a_fsm : AgentFsm; a_queue : list PersistJob; a_db : Db; a_mgr : SessionManager;
  a_old : list ConversationEvent; a_saved : list ConversationEvent
}.

(** The events that the last of the queued snapshots holds; none after an archive. *)
Definition saved_by (f : AgentFsm) (saved : list ConversationEvent) (x : Effect) : list ConversationEvent :=
  match x with Persist => events (ctx f) | ArchiveSession => [] | _ => saved end.
Definition old_by (old : list ConversationEvent) (x : Effect) : list ConversationEvent :=
  match x with ArchiveSession => [] | _ => old end.

(** What an invocation leaves out: all that is stored where it begins with an empty conversation. *)
Definition left_out (db : Db) (m : SessionManager) (f : AgentFsm) : list ConversationEvent :=
  match events (ctx f), conversation db (m_session m) with [], Ok log => log | _, _ => [] end.

(** The length of a remote result is a [usize]. *)
Definition storable (e : ConversationEvent) : Prop :=
  match e with ToolResult _ _ _ _ (Some n) => is_u64 n | _ => True end.

(** Ids that are new, and a clock that does not go back. *)
Definition fresh_draws (db : Db) (draw : Draws) : Prop :=
  (∀ i, (draw i).1 ∉ se_id <$> db_events db) ∧ (∀ i j, (draw i).1 = (draw j).1 → i = j) ∧
  (∀ e, e ∈ db_events db → se_created e ≤ (draw O).2) ∧ (∀ i, (draw i).2 ≤ (draw (S i)).2).

Definition new_id (db : Db) (sid : string) : Prop := ¬ known db sid ∧ sid ∉ se_session <$> db_events db.

Definition fresh (db : Db) (m : SessionManager) (d : JobDraws) : Prop :=
  fresh_draws db (jd_events d) ∧ new_id db (jd_session d) ∧ jd_session d ≠ m_session m.

Inductive app_step `{ToolLib} (cwd : option string) : App → App → Prop :=
| app_handle f q db m old saved e f' eff ft ep :
    handle cwd f e = Some (f', eff) → Forall storable (events (ctx f')) →
    app_step cwd (mk_app f q db m old saved)
      (mk_app f' (q ++ omap (job_of f' ft ep) eff) db m (foldl old_by old eff) (foldl (saved_by f') saved eff))
| app_work f job q db m old saved d :
    fresh db m d →
    app_step cwd (mk_app f (job :: q) db m old saved) (mk_app f q (run_job d job (db, m)).1 (run_job d job (db, m)).2 old saved)
| app_restart f db m old saved dir git_root minutes now session invocation caps m' f' ft ep :
    new_id db session →
    open_session db dir git_root minutes now session invocation caps = Ok (m', f', ft, ep) →
    app_step cwd (mk_app f [] db m old saved) (mk_app f' [] db m' (left_out db m' f') (take (m_count m') (events (ctx f')))).

Inductive app_reach `{ToolLib} (cwd : option string) : App → Prop :=
| app_first caps session invocation dir git_root :
    app_reach cwd (mk_app (new caps invocation) [] empty_db (create_new session invocation dir git_root) [] [])
| app_next a a' : app_reach cwd a → app_step cwd a a' → app_reach cwd a'.
End manager.

(** ** The invariant *)

Section invariant.
Context `{JsonLaws}.

Definition own (db : Db) (sid : string) : list StoredEvent := filter (λ e, se_session e = sid) (db_events db).

Definition text_of (r : StoredEvent) : string * string := (se_type r, se_data r).

Record db_ok (db : Db) : Prop := mk_db_ok {
  do_sorted : StronglySorted (λ x y, se_created x ≤ se_created y) (db_events db);
  do_texts : Forall (λ r, ∃ e, storable e ∧ text_of r = serialize_event e) (db_events db);
  do_known : Forall (λ r, known db (se_session r)) (db_events db)
}.

(** The rows of the manager's session are the stored form of [log]. *)
Record stored (db : Db) (m : SessionManager) (log : list ConversationEvent) : Prop := mk_stored_ok {
  so_rows : text_of <$> own db (m_session m) = serialize_event <$> log;
  so_count : m_count m = length log;
  so_storable : Forall storable log;
  so_db : if m_in_db m then known db (m_session m) else new_id db (m_session m)
}.

Lemma deserialize_storable (e : ConversationEvent) :
  storable e → deserialize_event (serialize_event e).1 (serialize_event e).2 = Ok e.
Proof. intros He. apply event_storage_roundtrip. by intros id content err remote n ->. Qed.

Lemma Forall_own (P : StoredEvent → Prop) db sid : Forall P (db_events db) → Forall P (own db sid).
Proof.
  rewrite !Forall_forall. intros Hp r Hr. apply list_elem_of_filter in Hr as [_ Hr]. by apply Hp.
Qed.

Lemma load_events_own db sid : db_ok db → load_events db sid = own db sid.
Proof.
  intros [Hs _ _]. unfold load_events. apply sort_by_sorted_id. unfold own.
  induction Hs as [|r l Hs IH Hall]; [constructor|]. rewrite filter_cons. case_decide; [|done].
  constructor; [done|]. apply Forall_forall. intros x [_ Hx]%list_elem_of_filter.
  apply leb_Z. by eapply Forall_forall in Hall.
Qed.

Lemma try_map_texts rows log :
  text_of <$> rows = serialize_event <$> log → Forall storable log →
  try_map (λ se, deserialize_event (se_type se) (se_data se)) rows = Ok log.
Proof.
  revert log. induction rows as [|r rows IH]; intros [|e log] E Hs; try done.
  injection E as Ht E. inversion_clear Hs as [|? ? He Hs']. cbn [try_map].
  change (deserialize_event (se_type r) (se_data r)) with (deserialize_event (text_of r).1 (text_of r).2).
  rewrite Ht, deserialize_storable by done. cbn [rbind]. rewrite (IH log E Hs'). done.
Qed.

Lemma conversation_stored db m log : db_ok db → stored db m log → conversation db (m_session m) = Ok log.
Proof. intros Hdb [Hr _ Hs _]. unfold conversation. rewrite load_events_own by done. by apply try_map_texts. Qed.

(** Every stored session can be read. *)
Lemma own_readable db sid : db_ok db → ∃ log, text_of <$> own db sid = serialize_event <$> log ∧ Forall storable log.
Proof.
  intros [_ Ht _]. assert (Forall (λ r, ∃ e, storable e ∧ text_of r = serialize_event e) (own db sid)) as Ho.
  { by apply Forall_own. }
  clear Ht. induction Ho as [|r rows [e [He Et]] _ (log & El & Hl)]; [by exists []|].
  exists (e :: log). split; [|by constructor]. cbn. by rewrite Et, El.
Qed.

(** Updates of a session's row touch neither its id nor the events. *)
Lemma known_update sid g db sid' : (∀ s, ss_id (g s) = ss_id s) → known (update_session sid g db) sid' ↔ known db sid'.
Proof.
  intros Hg. unfold known. cbn. rewrite <- list_fmap_compose.
  assert (ss_id ∘ (λ s, if decide (ss_id s = sid) then g s else s) <$> db_sessions db = ss_id <$> db_sessions db) as ->; [|done].
  apply list_fmap_ext. intros i s _. cbn. case_decide; [apply Hg|done].
Qed.

Lemma new_id_update sid g db sid' : (∀ s, ss_id (g s) = ss_id s) → new_id (update_session sid g db) sid' ↔ new_id db sid'.
Proof. intros Hg. unfold new_id. by rewrite known_update. Qed.

Lemma db_ok_update sid g db : (∀ s, ss_id (g s) = ss_id s) → db_ok db → db_ok (update_session sid g db).
Proof.
  intros Hg [? ? Hk]. split; [done|done|]. eapply Forall_impl; [exact Hk|]. intros r Hr. by apply known_update.
Qed.

Lemma stored_update sid g db m log : (∀ s, ss_id (g s) = ss_id s) → stored db m log → stored (update_session sid g db) m log.
Proof.
  intros Hg [? ? ? Hd]. split; [done|done|done|]. destruct (m_in_db m); [by apply known_update|by apply new_id_update].
Qed.

Lemma own_new db sid : sid ∉ se_session <$> db_events db → own db sid = [].
Proof.
  intros Hn. destruct (own db sid) as [|r l] eqn:E; [done|].
  assert (r ∈ own db sid) as [<- Hr]%list_elem_of_filter by (rewrite E; left).
  by destruct Hn; apply list_elem_of_fmap_2.
Qed.

(** ** What the manager's writes do *)

Lemma ensure_persisted_ok db m log now :
  db_ok db → stored db m log →
  ∃ db' m', ensure_persisted now (db, m) = ((db', m'), Ok tt) ∧ db_ok db' ∧ stored db' m' log ∧
    m_in_db m' = true ∧ m_session m' = m_session m ∧ db_events db' = db_events db ∧
    (∀ sid, new_id db sid → sid ≠ m_session m → new_id db' sid).
Proof.
  intros Hdb Hst. unfold ensure_persisted. destruct (m_in_db m) eqn:Hin; [by eexists db, m|].
  destruct Hst as [Hr Hc Hs Hn]. rewrite Hin in Hn. destruct Hn as [Hk Hu]. unfold create_session.
  rewrite decide_False by done.
  assert (∀ sid, known (mk_db (db_sessions db ++ [mk_session (m_session m) None None (m_directory m) (m_git_root m) now now None])
      (db_events db) (db_meta db) (db_usage db)) sid ↔ known db sid ∨ sid = m_session m) as Hkn.
  { intros sid. unfold known. cbn. rewrite fmap_app, elem_of_app. cbn. by rewrite list_elem_of_singleton. }
  eexists _, _. split; [done|]. split_and!; try done.
  - destruct Hdb as [? ? Hd]. split; [done|done|]. eapply Forall_impl; [exact Hd|]. intros r Hrk. apply Hkn. by left.
  - split; [done|done|done|]. apply Hkn. by right.
  - intros sid [Hs1 Hs2] Hne. split; [|done]. rewrite Hkn. tauto.
Qed.

Lemma fresh_draws_next db draw sid parent inv ty data db' :
  fresh_draws db draw →
  append_event db sid (draw O).1 parent inv ty data (draw O).2 = Ok db' →
  fresh_draws db' (λ i, draw (S i)).
Proof.
  intros (Hid & Hinj & Ht & Hm). unfold append_event. case_decide; [done|]. case_decide; [|done]. intros [= <-].
  unfold fresh_draws. cbn [db_events update_session]. split_and!.
  - intros i. rewrite fmap_app, not_elem_of_app. split; [apply Hid|]. cbn. rewrite list_elem_of_singleton.
    intros E. by apply Hinj in E.
  - intros i j E. apply Hinj in E. lia.
  - intros e He. apply elem_of_app in He as [He|He]; [etrans; [by apply Ht|apply Hm]|].
    apply list_elem_of_singleton in He as ->. apply Hm.
  - intros i. apply Hm.
Qed.

Lemma persist_one_ok db m log draw e :
  db_ok db → stored db m log → m_in_db m = true → fresh_draws db draw → storable e →
  ∃ db' m', persist_one (draw O) e (db, m) = ((db', m'), Ok tt) ∧ db_ok db' ∧ stored db' m' (log ++ [e]) ∧
    m_in_db m' = true ∧ m_session m' = m_session m ∧ fresh_draws db' (λ i, draw (S i)) ∧
    (∀ sid, new_id db sid → sid ≠ m_session m → new_id db' sid).
Proof.
  intros [Hso Htx Hkn] [Hr Hc Hs Hn] Hin Hf He. rewrite Hin in Hn. unfold persist_one.
  destruct (append_event db _ _ _ _ _ _ _) as [db'|] eqn:Ha.
  2: { unfold append_event in Ha. rewrite decide_False in Ha by apply Hf. by rewrite decide_True in Ha. }
  pose proof (fresh_draws_next _ _ _ _ _ _ _ _ Hf Ha) as Hf'.
  unfold append_event in Ha. rewrite decide_False in Ha by apply Hf. rewrite decide_True in Ha by done.
  injection Ha as <-. eexists _, _. split; [done|]. split_and!; try done.
  - apply db_ok_update; [done|]. split; cbn [db_events].
    + apply StronglySorted_app. split_and!; [|done|by repeat constructor]. intros x y Hx Hy.
      apply list_elem_of_singleton in Hy as ->. cbn. destruct Hf as (_ & _ & Ht & _). by apply Ht.
    + apply Forall_app. split; [done|]. constructor; [|done]. exists e. split; [done|]. symmetry. apply surjective_pairing.
    + apply Forall_app. split; [done|]. by constructor.
  - apply stored_update; [done|]. split; cbn [m_session m_count m_in_db].
    + unfold own. cbn [db_events]. rewrite filter_app, !fmap_app. fold (own db (m_session m)). rewrite Hr. f_equal.
      rewrite filter_cons_True by done. cbn. f_equal. symmetry. apply surjective_pairing.
    + rewrite length_app. cbn. lia.
    + apply Forall_app. by repeat constructor.
    + by rewrite Hin.
  - intros sid Hnew Hne. apply new_id_update; [done|]. destruct Hnew as [Hk Hu]. split; [done|]. cbn [db_events].
    rewrite fmap_app, not_elem_of_app. split; [done|]. cbn. by rewrite list_elem_of_singleton.
Qed.

Lemma persist_all_ok evs db m log draw :
  db_ok db → stored db m log → m_in_db m = true → fresh_draws db draw → Forall storable evs →
  ∃ db' m', persist_all draw evs (db, m) = ((db', m'), Ok tt) ∧ db_ok db' ∧ stored db' m' (log ++ evs) ∧
    m_session m' = m_session m ∧ (∀ sid, new_id db sid → sid ≠ m_session m → new_id db' sid).
Proof.
  revert db m log draw. induction evs as [|e evs IH]; intros db m log draw Hdb Hst Hin Hf Hs.
  { rewrite app_nil_r. by exists db, m. }
  inversion_clear Hs as [|? ? He Hs'].
  destruct (persist_one_ok db m log draw e) as (db1 & m1 & E1 & Hdb1 & Hst1 & Hin1 & Hid1 & Hf1 & Hn1); [done..|].
  destruct (IH db1 m1 (log ++ [e]) (λ i, draw (S i))) as (db2 & m2 & E2 & Hdb2 & Hst2 & Hid2 & Hn2); [done..|].
  exists db2, m2. cbn [persist_all]. unfold st_bind. rewrite E1. rewrite <- app_assoc in Hst2. split_and!; try done.
  - congruence.
  - intros sid Hn Hne. apply Hn2; [by apply Hn1|congruence].
Qed.

(** A job, or a part of it, that stores [log'] where [log] was stored. *)
Definition advances (g : Db * SessionManager → Db * SessionManager) (db : Db) (m : SessionManager)
    (log : list ConversationEvent) : Prop :=
  db_ok (g (db, m)).1 ∧ stored (g (db, m)).1 (g (db, m)).2 log ∧ m_session (g (db, m)).2 = m_session m ∧
  (∀ sid, new_id db sid → sid ≠ m_session m → new_id (g (db, m)).1 sid).

(** The stored events count as the first ones of the conversation, whatever they are. *)
Lemma persist_events_ok db m log evs draw now :
  db_ok db → stored db m log → fresh_draws db draw → Forall storable evs →
  advances (logged (persist_events draw now evs)) db m (log ++ drop (length log) evs).
Proof.
  intros Hdb Hst Hf Hs. unfold advances, logged, persist_events. cbn [fst snd].
  pose proof (so_count _ _ _ Hst) as Hc. destruct (Nat.leb_spec (length evs) (m_count m)) as [Hle|Hlt].
  { rewrite drop_ge by lia. rewrite app_nil_r. by split_and!. }
  rewrite Hc. assert (Forall storable (drop (length log) evs)) as Hs' by (by apply Forall_drop).
  destruct (ensure_persisted_ok db m log now) as (db1 & m1 & E1 & Hdb1 & Hst1 & Hin1 & Hid1 & He1 & Hn1); [done..|].
  destruct (persist_all_ok (drop (length log) evs) db1 m1 log draw) as (db2 & m2 & E2 & Hdb2 & Hst2 & Hid2 & Hn2); [done..| |done|].
  { unfold fresh_draws. by rewrite He1. }
  unfold st_bind. rewrite E1, E2. cbn [fst snd]. split_and!; [done|done|congruence|].
  intros sid Hn Hne. apply Hn2; [by apply Hn1|congruence].
Qed.

(** A write after [ensure_persisted] that keeps the events. *)
Lemma ensured_ok db m log now (k : SM unit) :
  db_ok db → stored db m log →
  (∀ db m, db_ok db → stored db m log → m_in_db m = true → advances (logged k) db m log) →
  advances (logged (let! _ := ensure_persisted now in k)) db m log.
Proof.
  intros Hdb Hst Hk.
  destruct (ensure_persisted_ok db m log now) as (db1 & m1 & E1 & Hdb1 & Hst1 & Hin1 & Hid1 & _ & Hn1); [done..|].
  destruct (Hk db1 m1 Hdb1 Hst1 Hin1) as (H1 & H2 & H3 & H4). unfold advances, logged, st_bind in *. rewrite E1.
  split_and!; [done|done|congruence|]. intros sid Hn Hne. apply H4; [by apply Hn1|congruence].
Qed.

Lemma persist_server_ok db m log now server :
  db_ok db → stored db m log → advances (logged (persist_server_session_id now server)) db m log.
Proof.
  intros Hdb Hst. apply ensured_ok; [done..|]. clear. intros db m Hdb Hst _. split_and!; cbn.
  - by apply db_ok_update.
  - by apply stored_update.
  - done.
  - intros sid Hn _. by apply new_id_update.
Qed.

Lemma set_metadata_ok db m log now key value :
  db_ok db → stored db m log → advances (logged (set_metadata now key value)) db m log.
Proof.
  intros Hdb Hst. apply ensured_ok; [done..|]. clear. intros db m Hdb Hst Hin. unfold advances, logged, db_set_metadata.
  pose proof (so_db _ _ _ Hst) as Hk. rewrite Hin in Hk. rewrite decide_True by done. cbn [fst snd].
  destruct Hdb, Hst. by split_and!.
Qed.

Lemma when_some_ok v k db m log :
  db_ok db → stored db m log → (∀ x, advances (logged (k x)) db m log) → advances (when_some v k) db m log.
Proof. intros Hdb Hst Hk. destruct v as [x|]; [apply Hk|]. by split_and!. Qed.

Lemma advances_then g1 g2 db m log1 log2 :
  advances g1 db m log1 → (∀ db m, db_ok db → stored db m log1 → advances g2 db m log2) →
  advances (λ s, g2 (g1 s)) db m log2.
Proof.
  intros (H1 & H2 & H3 & H4) Hg. destruct (g1 (db, m)) as [db1 m1] eqn:E. cbn [fst snd] in *.
  destruct (Hg db1 m1 H1 H2) as (H5 & H6 & H7 & H8). unfold advances. rewrite E. split_and!; [done|done|congruence|].
  intros sid Hn Hne. apply H8; [by apply H4|congruence].
Qed.

Lemma session_job_ok d evs0 server ft ep db m log :
  db_ok db → stored db m log → fresh_draws db (jd_events d) → Forall storable evs0 →
  advances (run_job d (JSession evs0 server ft ep)) db m (log ++ drop (length log) evs0).
Proof.
  intros Hdb Hst Hf Hs. unfold run_job. set (evs := log ++ drop (length log) evs0).
  assert (∀ v key db m, db_ok db → stored db m evs → advances (when_some v (set_metadata (jd_now d) key)) db m evs) as Hmeta.
  { intros. apply when_some_ok; [done..|]. intros. by apply set_metadata_ok. }
  apply (advances_then _ (when_some ep (set_metadata (jd_now d) EDIT_PERMISSIONS_KEY)) _ _ evs); [|apply Hmeta].
  apply (advances_then _ (when_some ft (set_metadata (jd_now d) FILE_TRACKER_KEY)) _ _ evs); [|apply Hmeta].
  apply (advances_then _ (when_some server (persist_server_session_id (jd_now d))) _ _ evs).
  - by apply (persist_events_ok db m log).
  - intros. apply when_some_ok; [done..|]. intros. by apply persist_server_ok.
Qed.

Lemma archive_job_ok d db m log :
  db_ok db → stored db m log → fresh db m d →
  db_ok (run_job d JArchive (db, m)).1 ∧ stored (run_job d JArchive (db, m)).1 (run_job d JArchive (db, m)).2 [].
Proof.
  intros Hdb Hst (_ & Hn & Hne). unfold run_job, logged, archive_and_reset. cbn [fst snd].
  assert (new_id (if m_in_db m then archive_session db (m_session m) (jd_now d) else db) (jd_session d)) as Hn'.
  { destruct (m_in_db m); [by apply new_id_update|done]. }
  split; [destruct (m_in_db m); [by apply db_ok_update|done]|].
  split; cbn; [|done|done|done]. by rewrite own_new by apply Hn'.
Qed.
End invariant.

(** ** The application *)

Section app.
Context `{JsonLaws, ToolLib}.
Context (cwd : option string).

(** What is stored of a conversation in a session where [old] was found and left out. *)
Definition kept (old evs : list ConversationEvent) : list ConversationEvent := old ++ drop (length old) evs.

Lemma kept_nil evs : kept [] evs = evs.
Proof. apply drop_0. Qed.

Lemma kept_more old log evs : log `prefix_of` evs → kept old log ++ drop (length (kept old log)) evs = kept old evs.
Proof.
  intros [more ->]. unfold kept. rewrite <- app_assoc, length_app, length_drop. f_equal.
  destruct (decide (length log ≤ length old)%nat) as [Hl|Hl].
  - rewrite (drop_ge log) by done. cbn [app]. f_equal. lia.
  - replace (length old + _)%nat with (length log) by lia. by rewrite drop_app_length, drop_app_le by lia.
Qed.

(** With [log] of the conversation stored, the jobs of [q] store ever more of it, the last of them [saved]. *)
Fixpoint chain (old log : list ConversationEvent) (q : list PersistJob) (old' saved : list ConversationEvent) : Prop :=
  match q with
  | [] => old = old' ∧ log = saved
  | JSession evs _ _ _ :: q => log `prefix_of` evs ∧ Forall storable evs ∧ chain old evs q old' saved
  | JUsage _ _ :: q => chain old log q old' saved
  | JArchive :: q => chain [] [] q old' saved
  end.

Definition app_ok (a : App) : Prop :=
  db_ok (a_db a) ∧ a_saved a `prefix_of` events (ctx (a_fsm a)) ∧ existsb is_api_content (a_old a) = false ∧
  ∃ old log, stored (a_db a) (a_mgr a) (kept old log) ∧ chain old log (a_queue a) (a_old a) (a_saved a).

Lemma chain_snoc old log q old1 saved job old2 saved' :
  chain old log q old1 saved → chain old1 saved [job] old2 saved' → chain old log (q ++ [job]) old2 saved'.
Proof.
  revert old log. induction q as [|[evs sv ft ep|k u|] q IH]; intros old log Hc Hj; cbn in Hc |- *.
  - destruct Hc as [-> ->]. done.
  - destruct Hc as (? & ? & Hc). split_and!; [done|done|by apply IH].
  - by apply IH.
  - by apply IH.
Qed.

(** The jobs of a transition that keeps the events. *)
Lemma chain_effects f ft ep eff old log q old1 saved :
  saved `prefix_of` events (ctx f) → Forall storable (events (ctx f)) → chain old log q old1 saved →
  chain old log (q ++ omap (job_of f ft ep) eff) (foldl old_by old1 eff) (foldl (saved_by f) saved eff) ∧
  foldl (saved_by f) saved eff `prefix_of` events (ctx f).
Proof.
  intros Hp Hs. revert q old1 saved Hp. induction eff as [|x eff IH]; intros q old1 saved Hp Hc; cbn [omap list_omap foldl].
  { by rewrite app_nil_r. }
  assert (∀ job, job_of f ft ep x = Some job → chain old1 saved [job] (old_by old1 x) (saved_by f saved x)) as Hj.
  { intros job Hj. destruct x; try done; injection Hj as <-; by cbn. }
  assert (saved_by f saved x `prefix_of` events (ctx f)) as Hp' by (destruct x; try done; apply prefix_nil).
  destruct (job_of f ft ep x) as [job|] eqn:Ej.
  - specialize (Hj job eq_refl). destruct (IH (q ++ [job]) (old_by old1 x) (saved_by f saved x) Hp') as [Hi1 Hi2]; [by eapply chain_snoc|].
    rewrite <- app_assoc in Hi1. done.
  - assert (saved_by f saved x = saved ∧ old_by old1 x = old1) as [-> ->] by (by destruct x). by apply IH.
Qed.

Lemma old_by_notices eff old : existsb is_api_content old = false → existsb is_api_content (foldl old_by old eff) = false.
Proof. revert old. induction eff as [|x eff IH]; intros old Ho; [done|]. apply IH. by destruct x. Qed.

Lemma handle_ok f q db m old saved e f' eff ft ep :
  handle cwd f e = Some (f', eff) → Forall storable (events (ctx f')) → app_ok (mk_app f q db m old saved) →
  app_ok (mk_app f' (q ++ omap (job_of f' ft ep) eff) db m (foldl old_by old eff) (foldl (saved_by f') saved eff)).
Proof.
  intros Hh Hs (Hdb & Hp & Hn & old0 & log & Hst & Hc). cbn [a_fsm a_queue a_db a_mgr a_old a_saved] in *.
  destruct (handle_grows cwd f e f' eff Hh) as [[_ He _]|[[-> [conf Hi]] _]].
  - destruct (chain_effects f' ft ep eff old0 log q old saved) as [Hc' Hp']; [by etrans|done|done|].
    split_and!; [done|done|by apply old_by_notices|]. by exists old0, log.
  - assert (eff = [ArchiveSession; Persist]) as ->.
    { unfold handle in Hh. rewrite Hi in Hh. cbn [handle_idle] in Hh. unfold new_session in Hh.
      case_decide; [|done]. by injection Hh as _ <-. }
    destruct (chain_effects f' ft ep [Persist] old0 log (q ++ [JArchive]) [] []) as [Hc' Hp'].
    { apply prefix_nil. } { done. } { eapply chain_snoc; [exact Hc|]. by cbn. }
    split_and!; [done|done|done|]. exists old0, log. rewrite <- app_assoc in Hc'. done.
Qed.

Lemma work_ok f job q db m old saved d :
  fresh db m d → app_ok (mk_app f (job :: q) db m old saved) →
  app_ok (mk_app f q (run_job d job (db, m)).1 (run_job d job (db, m)).2 old saved).
Proof.
  intros Hf (Hdb & Hp & Hn & old0 & log & Hst & Hc). cbn [a_fsm a_queue a_db a_mgr a_old a_saved] in *.
  destruct job as [evs server ft ep|key snapshot|]; cbn [chain] in Hc.
  - destruct Hc as (Hpre & Hs & Hc). destruct Hf as (Hf & _).
    destruct (session_job_ok d evs server ft ep db m (kept old0 log)) as (H1' & H2' & _); [done..|]. rewrite kept_more in H2' by done.
    split_and!; [done|done|done|]. by exists old0, evs.
  - split_and!; [by destruct Hdb; split|done|done|]. exists old0, log. split; [|done]. by destruct Hst; split.
  - destruct (archive_job_ok d db m (kept old0 log)) as (H1' & H2'); [done..|]. split_and!; [done|done|done|]. by exists [], [].
Qed.

(** What [resume] returns. *)
Lemma resume_ok db s invocation :
  db_ok db → known db (ss_id s) → ∃ log,
  conversation db (ss_id s) = Ok log ∧
  resume db s invocation =
    Ok (mk_manager (ss_id s) invocation (length log) (se_id <$> last (load_events db (ss_id s))) (ss_directory s) (ss_git_root s) true,
        log, ss_server s, se_created <$> last (load_events db (ss_id s)), invocation) ∧
  stored db (mk_manager (ss_id s) invocation (length log) (se_id <$> last (load_events db (ss_id s))) (ss_directory s) (ss_git_root s) true) log.
Proof.
  intros Hdb Hk. destruct (own_readable db (ss_id s) Hdb) as (log & Hr & Hs).
  assert (conversation db (ss_id s) = Ok log) as Hc.
  { unfold conversation. rewrite load_events_own by done. by apply try_map_texts. }
  exists log. split_and!; [done| |by split]. unfold resume. unfold conversation in Hc. by rewrite Hc.
Qed.

Lemma find_resumable_known db dir git_root age now s :
  find_resumable_session db dir git_root age now = Some s → known db (ss_id s).
Proof.
  unfold find_resumable_session. intros Hs%head_Some_elem_of. apply elem_of_sort_by in Hs.
  apply list_elem_of_filter in Hs as [_ Hs]. by apply list_elem_of_fmap_2.
Qed.

Lemma restart_ok f db m old saved dir git_root minutes now session invocation caps m' f' ft ep :
  new_id db session →
  open_session db dir git_root minutes now session invocation caps = Ok (m', f', ft, ep) →
  app_ok (mk_app f [] db m old saved) → app_ok (mk_app f' [] db m' (left_out db m' f') (take (m_count m') (events (ctx f')))).
Proof.
  intros Hn Ho (Hdb & _). cbn [a_db] in Hdb. unfold open_session in Ho.
  unfold app_ok. cbn [a_fsm a_queue a_db a_mgr a_old a_saved chain]. split; [done|]. split; [apply prefix_take|]. unfold left_out.
  destruct (find_resumable_session _ _ _ _ _) as [s|] eqn:Hs.
  - destruct (resume_ok db s invocation Hdb) as (log & Hcv & Hr & Hst); [by eapply find_resumable_known|].
    rewrite Hr in Ho. cbn [rbind] in Ho. destruct (existsb is_api_content log) eqn:Ec.
    + injection Ho as <- <- _ _. cbn [m_count m_session ctx events from_session]. destruct (log ++ [NEW_INVOCATION_NOTE]) as [|x l] eqn:E.
      { by destruct log. }
      split; [done|]. exists [], log. rewrite kept_nil, <- E, take_app_length. done.
    + injection Ho as <- <- _ _. cbn [m_count m_session ctx events new]. rewrite Hcv. split; [done|]. exists log, []. unfold kept.
      change (events (ctx (new caps invocation))) with (@nil ConversationEvent). rewrite drop_nil, app_nil_r, take_nil. done.
  - injection Ho as <- <- _ _. cbn [m_count m_session ctx events new create_new].
    assert (stored db (create_new session invocation dir git_root) []) as Hst by (split; cbn; [by rewrite own_new by apply Hn|done|done|done]).
    pose proof (conversation_stored _ _ _ Hdb Hst) as Hcv. cbn [m_session create_new] in Hcv. rewrite Hcv. split; [done|]. by exists [], [].
Qed.

Lemma app_reach_ok a : app_reach cwd a → app_ok a.
Proof.
  induction 1 as [caps session invocation dir git_root|a a' _ IH Hs].
  { split_and!; [by repeat constructor|done|done|]. exists [], []. split; [|done].
    split; cbn; [done|done|constructor|]. unfold new_id, known. cbn. rewrite !elem_of_nil. tauto. }
  destruct Hs as [f q db m old saved e f' eff ft ep Hh Hst|f job q db m old saved d Hf
                 |f db m old saved dir git_root minutes now session invocation caps m' f' ft ep Hn Ho].
  - by eapply handle_ok.
  - by eapply work_ok.
  - by eapply restart_ok.
Qed.

End app.

(** ** The choice of the session *)

(** The session that is resumed is not archived, is of this directory or repository, was written within
    the window, and none such was written later; one is found when there is one. *)
Theorem newest_session_resumed db dir git_root age now :
  match find_resumable_session db dir git_root age now with
  | Some s => s ∈ db_sessions db ∧ resumable dir git_root (wrap_i64 (now - age)) s = true ∧
              ∀ s', s' ∈ db_sessions db → resumable dir git_root (wrap_i64 (now - age)) s' = true → ss_updated s' ≤ ss_updated s
  | None => ∀ s', s' ∈ db_sessions db → resumable dir git_root (wrap_i64 (now - age)) s' = false
  end.
Proof.
  unfold find_resumable_session. set (c := wrap_i64 _). set (l := filter _ _).
  assert (∀ s, s ∈ l ↔ resumable dir git_root c s = true ∧ s ∈ db_sessions db) as Hl by (intros s; unfold l; by rewrite list_elem_of_filter).
  pose proof (sort_by_key_sorted (λ s, - ss_updated s) l) as Hs.
  destruct (sort_by_key _ l) as [|s rest] eqn:E; cbn [head].
  - intros s' Hs'. destruct (resumable dir git_root c s') eqn:Er; [|done].
    assert (s' ∈ sort_by_key (λ s, - ss_updated s) l) as Hin by (by apply elem_of_sort_by, Hl). rewrite E in Hin. by apply elem_of_nil in Hin.
  - assert (∀ x, x ∈ s :: rest ↔ x ∈ l) as Hin by (intros x; rewrite <- E; apply elem_of_sort_by).
    destruct (proj1 (Hl s)) as [Hr Hm]; [by apply Hin; left|]. split_and!; [done|done|].
    intros s' Hm' Hr'. assert (s' ∈ s :: rest) as Hs' by (by apply Hin, Hl).
    apply elem_of_cons in Hs' as [->|Hs']; [done|]. inversion_clear Hs as [|? ? _ Hall].
    eapply Forall_forall in Hall; [|exact Hs']. apply leb_Z in Hall. lia.
Qed.

(** ** Concrete runs *)

Module SessionDemo.
#[local] Existing Instance toy_json.
#[local] Existing Instance toy_tools.

(** The events of the machine with the jobs they queue. *)
Fixpoint play (f : AgentFsm) (evs : list Event) : option (AgentFsm * list PersistJob) :=
  match evs with
  | [] => Some (f, [])
  | e :: evs =>
      '(f, eff) ← handle None f e;
      '(f', jobs) ← play f evs;
      Some (f', omap (job_of f None None) eff ++ jobs)
  end.

Definition draws (tag : string) (t : Z) : JobDraws :=
  mk_draws (λ i, (tag +:+ pretty (N.of_nat i), t)) t ("s-" +:+ tag) ("i-" +:+ tag).

Definition work (tag : string) (t : Z) (jobs : list PersistJob) (s : Db * SessionManager) : Db * SessionManager :=
  foldl (λ s job, run_job (draws tag t) job s) s jobs.

Definition talk : list Event := [UserSubmit "hi"; StreamStarted; StreamChunk "hello"; StreamDone "srv"].

Definition start : AgentFsm := new [] "inv".
Definition manager : SessionManager := create_new "s" "inv" (Some "/p"%string) None.

(** An exchange, and what the database holds of it. *)
Definition talked : option (AgentFsm * list PersistJob) := play start talk.
Definition saved_log : list ConversationEvent := [UserMessage "hi"; TextEvent "hello"].

Example talk_is_stored :
  (λ r, conversation (work "a" 100 r.2 (empty_db, manager)).1 "s") <$> talked = Some (Ok saved_log).
Proof. reflexivity. Qed.

(** [/new] in the first invocation, an exchange in the second. *)
Definition after_new : Db * SessionManager :=
  work "a" 100 (default [] (snd <$> play start [NewSession])) (empty_db, manager).

Definition second : result (SessionManager * AgentFsm * option string * option string) string :=
  open_session after_new.1 (Some "/p"%string) None 60 200 "unused" "inv2" [].

Definition after_talk : option Db :=
  match second with
  | Ok (m, f, _, _) => (λ r, (work "b" 200 r.2 (after_new.1, m)).1) <$> play f talk
  | Err _ => None
  end.
End SessionDemo.
Import SessionDemo.

(** A session that holds nothing but notices, as [/new] leaves it, is taken up by the next invocation
    with an empty conversation but with the count of the stored notices: as many events from the
    beginning of the new conversation are never written. Here the user's message is lost. *)
Theorem fresh_start_loses_message :
  (λ db, conversation (H := toy_json) db "s-a") <$> after_talk =
  Some (Ok [OutOfBandOutput "System" (Some "/new"%string) "Started a new session."; TextEvent "hello"]).
Proof. reflexivity. Qed.

Lemma draws_fresh tag t m : m_session m ≠ "s-" +:+ tag → fresh empty_db m (draws tag t).
Proof.
  intros Hm. split; [|split; [split; apply not_elem_of_nil|done]].
  split_and!; [intros i; apply not_elem_of_nil| |intros e He; by apply elem_of_nil in He|done].
  intros i j E. cbn in E. apply (inj (String.append tag)) in E. apply (inj pretty) in E. lia.
Qed.

(** The machine of [talk], and the exchange stored by the worker. *)
Definition talking (st : AgentState) (evs : list (ConversationEvent (H := toy_json))) (sid : option string) (response : string)
    : AgentFsm (H := toy_json) :=
  mk_fsm st (mk_ctx evs sid response [] [] ∅ 0 [] "inv" None None None 0 false None []).

Definition stored_app : App (H := toy_json) :=
  let s := run_job (draws "a" 100) (JSession saved_log (Some "srv"%string) None None) (empty_db, manager) in
  mk_app (talking (Idle None) saved_log (Some "srv"%string) "") [] s.1 s.2 [] saved_log.

Lemma play_step f q sv e f' eff q' sv' :
  app_reach (H := toy_json) (H0 := toy_tools) None (mk_app f q empty_db manager [] sv) →
  handle (H := toy_json) (H0 := toy_tools) None f e = Some (f', eff) → Forall storable (events (ctx f')) →
  q ++ omap (job_of f' None None) eff = q' → foldl (saved_by f') sv eff = sv' →
  app_reach (H := toy_json) (H0 := toy_tools) None (mk_app f' q' empty_db manager [] sv').
Proof.
  intros Ha Hh Hs <- <-. pose proof (app_handle (H := toy_json) (H0 := toy_tools) None f q empty_db manager [] sv e f' eff None None Hh Hs) as Hn.
  assert (foldl old_by [] eff = []) as E by (clear; induction eff as [|x eff IH]; [done|by destruct x]). rewrite E in Hn. by eapply app_next.
Qed.

Lemma stored_app_reach : app_reach (H := toy_json) (H0 := toy_tools) None stored_app.
Proof.
  assert (app_reach (H := toy_json) (H0 := toy_tools) None
            (mk_app (talking (Idle None) saved_log (Some "srv"%string) "") [JSession saved_log (Some "srv"%string) None None]
               empty_db manager [] saved_log)) as Hq.
  { pose proof (app_first (H := toy_json) (H0 := toy_tools) None [] "s" "inv" (Some "/p"%string) None) as H0.
    eapply (play_step _ _ _ (UserSubmit "hi") (talking (Turn Connecting) [UserMessage "hi"] None "") _ [] [])
      in H0; [|reflexivity|by repeat constructor|reflexivity..].
    eapply (play_step _ _ _ StreamStarted (talking (Turn (Streaming None)) [UserMessage "hi"] None "") _ [] [])
      in H0; [|reflexivity|by repeat constructor|reflexivity..].
    eapply (play_step _ _ _ (StreamChunk "hello") (talking (Turn (Streaming None)) [UserMessage "hi"] None "hello") _ [] [])
      in H0; [|reflexivity|by repeat constructor|reflexivity..].
    eapply (play_step _ _ _ (StreamDone "srv")); [exact H0|reflexivity|by repeat constructor|reflexivity..]. }
  eapply app_next; [exact Hq|]. apply (app_work (H := toy_json) (H0 := toy_tools) None). by apply draws_fresh.
Qed.

