(* ===== verification/Sync.v ===== *)
(** * The sync engine ([atuin-client/src/record/sync/mod.rs])

    The engine compares the local status index with the remote's, checks the key against a sample
    of the remote's data, resolves the difference into operations and runs them. [Remote] is the API
    client as the engine sees it; [RemoteLaws] is what an honest, reachable server promises.
    Concurrent transfers ([buffered]) are modelled in the order in which their results are consumed;
    progress bars, printing and logging are left out. *)
From S2P Require Import Prelude Text Record Status Rmp RmpWire Encryption SqliteStore Streams Packfile Server ApiClient.

(** ** The remote *)

(** The methods of [Client] the engine calls; an [eyre::Report] of the client is its text.
    [packfile_cap] is [caps().get_server::<PackfileCap>()], its [record_count]. *)
Class Remote (R : Type) : Type := {
  record_status : R → result Status.t string;
  page : R → RecordSeriesKey → Z → Z → result (list enc_record) string;
  post_records : list enc_record → stm R string unit;
  upload_packfile : RecordId → list RecordId → list Z → stm R string unit;
  download_packfile : R → RecordId → result (list Z) string;
  packfile_cap : R → option Z
}.

(** ** Errors *)

Section errors.
Context `{Crypto}.

Inductive PackfileDownloadError : Type :=
| PackManifest (e : ParsingError)
| Api (msg : string)
| Unpack (e : UnpackError)
| StoreFailure (msg : string).

(** The error whose text a [SyncError] carries. *)
Inductive Report : Type :=
| ClientReport (msg : string)
| ParsingReport (e : ParsingError)
| PackingReport (e : PackingError)
| DownloadReport (e : PackfileDownloadError).

Inductive SyncError : Type :=
| LocalAheadOtherHost
| LocalStoreError (msg : Report)
| SyncLogicError (msg : string)
| OperationalError (msg : Report)
| RemoteRequestError (msg : Report)
| WrongKey.

(** [PackfileDownloadError::is_permanent] *)
Definition is_permanent (e : PackfileDownloadError) : bool :=
  match e with
  | PackManifest _ => true
  | Unpack _ => true
  | Api _ | StoreFailure _ => false
  end.
End errors.

(** ** Operations *)

Inductive Operation : Type :=
| Upload (local : RecordIdx) (remote : option RecordIdx) (series : RecordSeriesKey)
| Download (remote : RecordIdx) (series : RecordSeriesKey)
| Noop (series : RecordSeriesKey).

Definition op_series (op : Operation) : RecordSeriesKey :=
  match op with Upload _ _ s | Download _ s | Noop s => s end.

(** The closure [operations] maps over the diffs. *)
Definition operation `{Crypto} (d : Diff) : result Operation SyncError :=
  match d_local d, d_remote d with
  | Some local, Some remote =>
      Ok (match cmp local remote with
          | Eq => Noop (d_series d)
          | Gt => Upload local (Some remote) (d_series d)
          | Lt => Download remote (d_series d)
          end)
  | None, Some remote => Ok (Download remote (d_series d))
  | Some local, None => Ok (Upload local None (d_series d))
  | None, None => Err (SyncLogicError "diff has nothing for local or remote - (host, tag) does not exist")
  end.

(** The key the operations are sorted by. *)
Definition op_key (op : Operation) : Z * (HostId * (Z * RecordTag)) :=
  match op with
  | Noop s => (0, (host_id s, (0, s_tag s)))
  | Upload _ _ s => (1, (host_id s, (0, s_tag s)))
  | Download _ s => (2, (host_id s, (if decide (s_tag s = Packfile) then 0 else 1, s_tag s)))
  end.

(** [SyncEngine::operations] *)
Definition operations `{Crypto} (diffs : list Diff) : result (list Operation) SyncError :=
  let? ops := try_map operation diffs in Ok (sort_by_key op_key ops).

(** ** The engine *)

Record PackedPackfile : Type := mk_packed {
  manifest_id : RecordId; packed_records : list RecordId; blob : list Z
}.

Section engine.
Context `{Rmp, Crypto, PackLib} {R : Type} `{Remote R}.
(** [SyncEngine::page_size] and [Keyed::key]. *)
Context (page_size : Z) (k : key).
(** The iteration order of the status index's [HashMap]s. *)
Context (hash_order : list RecordSeriesKey → list RecordSeriesKey).
(** The randomness drawn when the blob of a manifest is encrypted, and when the records of a
    manifest are. *)
Context (pack_entropy : RecordId → Entropy) (unpack_entropy : RecordId → nat → Entropy).

Abbreviation sync_state := (Store.t * R)%type (only parsing).
Abbreviation sync_m := (stm (Store.t * R) SyncError) (only parsing).

Definition remote_err {A} (r : result A string) : result A SyncError :=
  map_err (λ e, RemoteRequestError (ClientReport e)) r.

(** A call of the client that changes the remote. *)
Definition on_remote {A} (m : stm R string A) : sync_m A := λ '(st, rm),
  let '(rm', r) := m rm in ((st, rm'), remote_err r).

(** [SyncEngine::check_key_against_index]; [None] when the key is good. *)
Definition check_key_against_index (rm : R) (remote_index : Status.t) : option SyncError :=
  match head (filter (λ s, s_tag s ≠ Packfile) (hash_order (Status.entries remote_index).*1)) with
  | None => None
  | Some s =>
      match one (page rm s) with
      | Ok (Some r) => match decrypt k r with Ok _ => None | Err _ => Some WrongKey end
      | Ok None => None
      | Err e => Some (RemoteRequestError (ClientReport e))
      end
  end.

(** [SyncEngine::diff] *)
Definition diff (st : Store.t) (rm : R) : result (list Diff * Status.t) SyncError :=
  let local_index := Store.status st in
  let? remote_index := remote_err (record_status rm) in
  Ok (Status.diff local_index remote_index, remote_index).

(** The blobs of a page of manifests. *)
Definition pack_manifest (st : Store.t) (manifest : enc_record) : result PackedPackfile Report :=
  let? view := map_err ParsingReport (Pack.new manifest) in
  let? (b, ids) := map_err PackingReport
                      (Pack.pack_records (pack_entropy (r_id manifest)) view st k) in
  Ok (mk_packed (r_id (v_record view)) ids b).

(** [Client::upload_packfiles] *)
Fixpoint upload_packfiles (ps : list PackedPackfile) : stm R string unit :=
  match ps with
  | [] => st_ret tt
  | p :: ps' =>
      let! _ := upload_packfile (manifest_id p) (packed_records p) (blob p) in
      upload_packfiles ps'
  end.

(** The branch of [sync_upload] for a page of manifests. *)
Definition upload_packed (page : list enc_record) : sync_m unit := λ '(st, rm),
  match try_map (pack_manifest st) page with
  | Err e => ((st, rm), Err (RemoteRequestError e))
  | Ok packed => on_remote (upload_packfiles packed) (st, rm)
  end.

(** The [while] loop of [sync_upload]. Every round but the last uploads a record, so the count of
    records expected is enough fuel. *)
Fixpoint upload_loop (fuel : nat) (s : RecordSeriesKey) (first_missing_remote expected progress : Z)
    : sync_m Z := λ '(st, rm),
  match fuel with
  | O => ((st, rm), Ok progress)
  | S fuel' =>
      if progress <? expected then
        let pg := Store.next st s (wrapping_add first_missing_remote progress) page_size in
        if page_len pg =? 0 then ((st, rm), Ok progress)
        else
          (let! _ := if decide (s_tag s = Packfile) then upload_packed pg else st_ret tt in
           let! _ := on_remote (post_records pg) in
           upload_loop fuel' s first_missing_remote expected (wrapping_add progress (page_len pg)))
          (st, rm)
      else ((st, rm), Ok progress)
  end.

(** [Keyed::sync_upload] *)
Definition sync_upload (s : RecordSeriesKey) (local : RecordIdx) (remote : option RecordIdx) : sync_m Z :=
  let first_missing_remote := map_or 0 (λ n, wrapping_add n 1) remote in
  let expected := (local + 1 - first_missing_remote) mod u64_limit in
  upload_loop (Z.to_nat expected) s first_missing_remote expected 0.

(** [Keyed::download_packed] *)
Definition download_packed (manifest : enc_record)
    : stm sync_state PackfileDownloadError (list RecordId) := λ '(st, rm),
  match Pack.new manifest with
  | Err e => ((st, rm), Err (PackManifest e))
  | Ok view =>
      let head := Store.last st (mk_series (r_host (v_record view)) History) in
      let last_idx := ((Manifest.range (v_manifest view)).2 - 1) mod u64_limit in
      if map_or false (λ h, last_idx <=? r_idx h) head then
        ((st, rm), Ok (r_id <$> Pack.load_encrypted_packed_records view st))
      else
        match download_packfile rm (r_id (v_record view)) with
        | Err e => ((st, rm), Err (Api e))
        | Ok b =>
            match Pack.unpack_records (unpack_entropy (r_id manifest)) view b k with
            | Err e => ((st, rm), Err (Unpack e))
            | Ok records => ((Store.push_batch st records, rm), Ok (r_id <$> records))
            end
        end
  end.

(** [Keyed::expand_manifests] *)
Fixpoint expand_manifests (page : list enc_record) : sync_m (list RecordId) := λ '(st, rm),
  match page with
  | [] => ((st, rm), Ok [])
  | m :: page' =>
      match download_packed m (st, rm) with
      | (s', Ok expanded) => (let! ids := expand_manifests page' in st_ret (expanded ++ ids)) s'
      | (s', Err e) =>
          if is_permanent e then expand_manifests page' s'
          else (s', Err (RemoteRequestError (DownloadReport e)))
      end
  end.

(** The loop of [Keyed::download_pages] over the pages of the stream. *)
Fixpoint download_loop (s : RecordSeriesKey) (pages : list (list enc_record)) : sync_m (list RecordId) :=
  match pages with
  | [] => st_ret []
  | p :: pages' =>
      let! expanded := if decide (s_tag s = Packfile) then expand_manifests p else st_ret [] in
      let! _ := (λ '(st, rm), ((Store.push_batch st p, rm), Ok tt)) in
      let! ret := download_loop s pages' in
      st_ret (expanded ++ (r_id <$> p) ++ ret)
  end.

(** [Keyed::download_pages] *)
Definition download_pages (s : RecordSeriesKey) (chunks : Chunks.t) : sync_m (list RecordId) := λ '(st, rm),
  let '(pages, err) := stream (page rm s) chunks in
  (let! ret := download_loop s pages in
   st_lift (match err with
            | Some e => Err (RemoteRequestError (ClientReport e))
            | None => Ok ret
            end)) (st, rm).

(** [Keyed::sync_download] *)
Definition sync_download (s : RecordSeriesKey) (remote : RecordIdx) : sync_m (list RecordId) := λ '(st, rm),
  let first_missing_local := Store.first_gap st s in
  let expected := saturating_sub (wrapping_add remote 1) first_missing_local in
  download_pages s
    (Chunks.new (first_missing_local, wrapping_add first_missing_local expected) page_size) (st, rm).

(** The loop of [Keyed::sync_remote]. *)
Fixpoint run_operations (packfiles_enabled : bool) (ops : list Operation)
    (uploaded : Z) (downloaded : list RecordId) : sync_m (Z * list RecordId) :=
  match ops with
  | [] => st_ret (uploaded, downloaded)
  | Upload local remote s :: ops' =>
      if bool_decide (s_tag s = Packfile) && negb packfiles_enabled
      then run_operations packfiles_enabled ops' uploaded downloaded
      else
        let! n := sync_upload s local remote in
        run_operations packfiles_enabled ops' (wrapping_add uploaded n) downloaded
  | Download remote s :: ops' =>
      if bool_decide (s_tag s = Packfile) && negb packfiles_enabled
      then run_operations packfiles_enabled ops' uploaded downloaded
      else
        let! d := sync_download s remote in
        run_operations packfiles_enabled ops' uploaded (downloaded ++ d)
  | Noop _ :: ops' => run_operations packfiles_enabled ops' uploaded downloaded
  end.

Definition packfiles_enabled (rm : R) : bool := map_or false (λ n, 0 <? n) (packfile_cap rm).

(** [Keyed::sync_remote] *)
Definition sync_remote (ops : list Operation) : sync_m (Z * list RecordId) := λ '(st, rm),
  run_operations (packfiles_enabled rm) ops 0 [] (st, rm).

(** [Keyed::sync] *)
Definition sync : sync_m (Z * list RecordId) := λ '(st, rm),
  match diff st rm with
  | Err e => ((st, rm), Err e)
  | Ok (diffs, remote_index) =>
      match check_key_against_index rm remote_index with
      | Some err => ((st, rm), Err err)
      | None =>
          match operations diffs with
          | Err e => ((st, rm), Err e)
          | Ok ops => sync_remote ops (st, rm)
          end
      end
  end.
End engine.

(** ** What an honest server promises *)

(** [rm_table] is the account's table on the server, [rm_accepts] the records its size limit lets
    through. *)
Class RemoteLaws (R : Type) `{Remote R} : Type := {
  rm_ok : R → Prop;
  rm_table : R → Store.t;
  rm_accepts : enc_record → Prop;
  rm_table_wf rm : rm_ok rm → rows_wf (rm_table rm);
  record_status_spec rm :
    rm_ok rm → ∃ idx, record_status rm = Ok idx ∧
      ∀ s, Status.get idx s = Status.get (Store.status (rm_table rm)) s;
  page_spec rm s a b :
    rm_ok rm → fits_i64 a → a < b ≤ i64_limit → fits_i64 (b - a) →
    honest_page (page rm s) (rm_table rm) s a b;
  post_records_spec rm rs :
    rm_ok rm → Forall storable rs → Forall rm_accepts rs →
    ∃ rm', post_records rs rm = (rm', Ok tt) ∧ rm_ok rm' ∧
      rm_table rm' = foldl save_key (rm_table rm) rs ∧ packfile_cap rm' = packfile_cap rm
}.

(** No two records of the two tables claim one id or one place: ids are UUIDs and every series is
    written by its own host. *)
Definition coherent (L T : Store.t) : Prop :=
  ∀ x y, x ∈ Store.load_all L ∨ x ∈ Store.load_all T → y ∈ Store.load_all L ∨ y ∈ Store.load_all T →
  clashes x y → x = y.

(** [A'] is [A] with records of series [s] that [B] has. *)
Definition grows (s : RecordSeriesKey) (A A' B : Store.t) : Prop :=
  (∀ x, x ∈ Store.load_all A → x ∈ Store.load_all A') ∧
  (∀ x, x ∈ Store.load_all A' → x ∈ Store.load_all A ∨ (x ∈ Store.load_all B ∧ series_key x = s)).

Lemma grows_refl s A B : grows s A A B.
Proof. split; auto. Qed.

Lemma grows_trans s A A' A'' B : grows s A A' B → grows s A' A'' B → grows s A A'' B.
Proof. intros [H1 H2] [H3 H4]. split; [auto|]. intros x [Hx|Hx]%H4; [by apply H2|by right]. Qed.

(** A series other than [s] is untouched. *)
Lemma grows_other s A A' B x :
  grows s A A' B → series_key x ≠ s → x ∈ Store.load_all A' ↔ x ∈ Store.load_all A.
Proof. intros [H1 H2] Hs. split; [|by apply H1]. by intros [?|[_ ?]]%H2. Qed.

Lemma coherent_grows_l s L L' T : coherent L T → grows s L L' T → coherent L' T.
Proof.
  intros Hc [_ Hg] x y Hx Hy. apply Hc.
  - destruct Hx as [[?|[? _]]%Hg|?]; auto.
  - destruct Hy as [[?|[? _]]%Hg|?]; auto.
Qed.

Lemma coherent_grows_r s L T T' : coherent L T → grows s T T' L → coherent L T'.
Proof.
  intros Hc [_ Hg] x y Hx Hy. apply Hc.
  - destruct Hx as [?|[?|[? _]]%Hg]; auto.
  - destruct Hy as [?|[?|[? _]]%Hg]; auto.
Qed.

(** ** Operations of a diff *)

(** What has to happen to a series whose tails are [l] and [r]. *)
Definition classify (l r : option Z) (s : RecordSeriesKey) : option Operation :=
  match l, r with
  | Some l, Some r =>
      match l ?= r with
      | Eq => None
      | Gt => Some (Upload l (Some r) s)
      | Lt => Some (Download r s)
      end
  | Some l, None => Some (Upload l None s)
  | None, Some r => Some (Download r s)
  | None, None => None
  end.

Lemma classify_series l r s op : classify l r s = Some op → op_series op = s.
Proof.
  unfold classify. intros Hc. destruct l as [l|], r as [r|]; [destruct (l ?= r)|..]; by simplify_eq/=.
Qed.

Lemma classify_None l r s : classify l r s = None ↔ l = r.
Proof.
  unfold classify. destruct l as [l|], r as [r|]; try done.
  destruct (Z.compare_spec l r) as [->|Hlt|Hgt]; [done|..]; (split; [done|intros [= ->]; lia]).
Qed.

Section operations.
Context `{Crypto} (a b : Status.t).

Lemma operation_diff d :
  d ∈ Status.diff a b →
  ∃ op, operation d = Ok op ∧ op_series op = d_series d ∧
    classify (Status.get a (d_series d)) (Status.get b (d_series d)) (d_series d) = Some op.
Proof.
  intros [Hd Hne]%elem_of_diff. destruct d as [s l0 r0]. simpl in *.
  injection Hd as -> ->. unfold operation; simpl.
  destruct (classify _ _ _) as [op|] eqn:Hc; [|by apply classify_None in Hc].
  exists op. split_and!; [|by eapply classify_series|done].
  unfold classify in Hc. destruct (Status.get a _) as [l|], (Status.get b _) as [r|]; try congruence.
  unfold cmp, ord_Z. destruct (l ?= r); congruence.
Qed.

Lemma operations_spec :
  ∃ ops, operations (Status.diff a b) = Ok ops ∧ NoDup (op_series <$> ops) ∧
    StronglySorted (λ x y, leb (op_key x) (op_key y) = true) ops ∧
    ∀ op, op ∈ ops ↔ classify (Status.get a (op_series op)) (Status.get b (op_series op)) (op_series op) = Some op.
Proof.
  assert (∃ l, try_map operation (Status.diff a b) = Ok l) as [l Hl].
  { assert (∀ ds, (∀ d, d ∈ ds → ∃ op, operation d = Ok op) → ∃ l, try_map operation ds = Ok l) as Hall.
    { clear. induction ds as [|d ds IH]; intros Hd; cbn [try_map]; [by eexists|].
      destruct (Hd d) as [op ->]; [left|]. destruct IH as [l ->]; [intros; apply Hd; by right|]. by eexists. }
    apply Hall. intros d (op & ? & _)%operation_diff. by exists op. }
  exists (sort_by_key op_key l). unfold operations. rewrite Hl. split; [done|].
  apply try_map_Ok_Forall2 in Hl.
  assert (Forall2 (λ d op, op_series op = d_series d ∧
    classify (Status.get a (d_series d)) (Status.get b (d_series d)) (d_series d) = Some op)
    (Status.diff a b) l) as Hrel.
  { eapply Forall2_impl_elem; [exact Hl|]. intros d op Hd _ Hop. simpl.
    destruct (operation_diff d Hd) as (op' & Hop' & ? & ?). rewrite Hop in Hop'. injection Hop' as <-. done. }
  assert (op_series <$> l = d_series <$> Status.diff a b) as Hser.
  { clear Hl. induction Hrel as [|d op ds l [Hd _] _ IH]; [done|]. cbn. by rewrite IH, Hd. }
  split_and!; [|apply sort_by_key_sorted|].
  - unfold sort_by_key. rewrite sort_by_perm, Hser. apply diff_series_NoDup.
  - intros op. unfold sort_by_key. rewrite elem_of_sort_by. split.
    + intros Hin. destruct (Forall2_elem_r _ _ _ _ Hrel Hin) as (d & Hd & He & Hc). by rewrite He.
    + intros Hc. set (s := op_series op) in *.
      assert (mk_diff s (Status.get a s) (Status.get b s) ∈ Status.diff a b) as Hin.
      { apply elem_of_diff. simpl. split; [done|]. intros He.
        apply (classify_None _ _ s) in He. congruence. }
      apply Forall2_flip, (Forall2_elem_r _ _ _ (mk_diff s (Status.get a s) (Status.get b s))) in Hrel
        as (op' & Hop' & _ & Hc'); [|done]. simpl in Hc'. congruence.
Qed.
End operations.

Section convergence.
Context `{Rmp, Crypto, PackLib} {R : Type} `{RemoteLaws R}.
Context (page_size : Z) (k : key) (hash_order : list RecordSeriesKey → list RecordSeriesKey).
Context (pack_entropy : RecordId → Entropy) (unpack_entropy : RecordId → nat → Entropy).
Context (Hps : 0 < page_size) (Hpf : fits_i64 page_size).
Implicit Types (L T : Store.t) (rm : R) (s : RecordSeriesKey).

Record good L rm : Prop := mk_good {
  good_wf : store_wf L;
  good_ok : rm_ok rm;
  good_coherent : coherent L (rm_table rm);
  good_accepts x : x ∈ Store.load_all L ∨ x ∈ Store.load_all (rm_table rm) → rm_accepts x
}.

(** *** Upload *)

Lemma post_spec L rm s (p : list enc_record) :
  good L rm → (∀ x, x ∈ p → x ∈ Store.load_all L ∧ series_key x = s) →
  ∃ rm', post_records p rm = (rm', Ok tt) ∧ good L rm' ∧ packfile_cap rm' = packfile_cap rm ∧
    grows s (rm_table rm) (rm_table rm') L ∧ ∀ x, x ∈ p → x ∈ Store.load_all (rm_table rm').
Proof.
  intros [Hwf Hok Hcoh Hacc] Hp.
  assert (Forall storable p) as Hst.
  { apply Forall_forall. intros x Hx. exact (load_all_storable L x Hwf (proj1 (Hp x Hx))). }
  destruct (post_records_spec rm p Hok Hst) as (rm' & Hpost & Hok' & Ht & Hcap).
  { apply Forall_forall. intros x Hx. apply Hacc. left. by apply Hp. }
  destruct (save_keys_spec (rm_table rm) p (rm_table_wf rm Hok) Hst) as (Hmono & Hinv & Hpres).
  rewrite <- Ht in Hmono, Hinv, Hpres.
  assert (grows s (rm_table rm) (rm_table rm') L) as Hg.
  { split; [done|]. intros x [?|Hx]%Hinv; [by left|right]. by apply Hp. }
  exists rm'. split_and!; try done.
  - split; try done; [by eapply coherent_grows_r|]. intros x [?|Hx]; [auto|].
    apply Hg in Hx as [?|[? _]]; auto.
  - intros x Hx. destruct (Hpres x Hx) as (y & Hy & Hs & Hi).
    replace x with y; [done|]. apply Hcoh.
    + apply Hg in Hy as [?|[? _]]; auto.
    + left. by apply Hp.
    + right. done.
Qed.

Lemma upload_loop_spec fuel s fm expected progress L rm :
  good L rm → Tag.canonical (s_tag s) = true → s_tag s ≠ Packfile →
  0 ≤ fm → 0 ≤ progress → fm + expected ≤ i64_limit → (Z.to_nat (expected - progress) ≤ fuel)%nat →
  ∃ rm' n, upload_loop page_size k pack_entropy fuel s fm expected progress (L, rm) = ((L, rm'), Ok n) ∧
    good L rm' ∧ packfile_cap rm' = packfile_cap rm ∧ grows s (rm_table rm) (rm_table rm') L ∧
    ∀ x, x ∈ Store.load_all L → series_key x = s → fm + progress ≤ r_idx x < fm + expected →
      x ∈ Store.load_all (rm_table rm').
Proof.
  intros Hgood Hc Htag Hfm. revert progress rm Hgood.
  induction fuel as [|fuel IH]; intros progress rm Hgood Hpr Hlim Hfuel; cbn [upload_loop].
  { exists rm, progress. split_and!; [done..|apply grows_refl|]. intros x _ _ ?. lia. }
  destruct (Z.ltb_spec progress expected) as [Hlt|Hge].
  2:{ exists rm, progress. split_and!; [done..|apply grows_refl|]. intros x _ _ ?. lia. }
  assert (wrapping_add fm progress = fm + progress) as ->
    by (apply Z.mod_small; unfold i64_limit, u64_limit in *; lia).
  set (pg := Store.next L s (fm + progress) page_size).
  assert (pg = take (Z.to_nat page_size) (series_from L s (fm + progress))) as Hpg by (by apply next_take).
  destruct (prefix_spec L s (good_wf _ _ Hgood) Hc (fm + progress) (Z.to_nat page_size))
    as (Hcov & Hempty & Hsound); [unfold fits_i64; lia|lia|]. rewrite <- Hpg in Hcov, Hempty, Hsound.
  destruct (Z.eqb_spec (page_len pg) 0) as [Hz|Hz].
  { exists rm, progress. split_and!; [done..|apply grows_refl|]. intros x Hx Hs Hi.
    specialize (Hempty Hz x Hx Hs). lia. }
  rewrite decide_False by done. unfold st_bind, st_ret, on_remote.
  destruct (post_spec L rm s pg Hgood) as (rm1 & -> & Hgood1 & Hcap1 & Hg1 & Hp1).
  { intros x Hx. apply Hsound in Hx. tauto. }
  cbn [remote_err map_err].
  assert (0 < page_len pg ≤ page_size) as Hlen.
  { unfold page_len in *. rewrite Hpg, length_take in *. lia. }
  assert (wrapping_add progress (page_len pg) = progress + page_len pg) as ->
    by (apply Z.mod_small; unfold fits_i64, i64_limit, u64_limit in *; lia).
  destruct (IH (progress + page_len pg) rm1) as (rm2 & n & -> & Hgood2 & Hcap2 & Hg2 & Hp2); [done|lia..|].
  exists rm2, n. split_and!; [done..|congruence| |].
  - by eapply grows_trans.
  - intros x Hx Hs Hi. destruct (decide (r_idx x < fm + progress + page_len pg)) as [Hlo|Hhi].
    + apply Hg2, Hp1. assert (x ∈ concat [pg]) as Hin by (apply Hcov; done || lia).
      simpl in Hin. by rewrite app_nil_r in Hin.
    + apply Hp2; [done..|lia].
Qed.
(** *** Download *)

Lemma download_loop_plain s pages L rm :
  s_tag s ≠ Packfile →
  download_loop k unpack_entropy s pages (L, rm) =
    ((Store.push_batch L (concat pages), rm), Ok (r_id <$> concat pages)).
Proof.
  intros Ht. revert L. induction pages as [|p pages IH]; intros L; cbn [download_loop concat]; [done|].
  rewrite decide_False by done. unfold st_bind, st_ret. rewrite IH.
  by rewrite push_batch_app, fmap_app.
Qed.

Lemma sync_download_spec s remote L rm :
  good L rm → Tag.canonical (s_tag s) = true → s_tag s ≠ Packfile →
  Status.get (Store.status (rm_table rm)) s = Some remote →
  ∃ L' ids, sync_download page_size k unpack_entropy s remote (L, rm) = ((L', rm), Ok ids) ∧
    good L' rm ∧ grows s L L' (rm_table rm) ∧
    ∀ x, x ∈ Store.load_all (rm_table rm) → series_key x = s → x ∈ Store.load_all L'.
Proof.
  intros Hgood Hc Ht Htail. pose proof Hgood as [Hwf Hok Hcoh Hacc].
  pose proof (rm_table_wf rm Hok) as HwfT.
  apply status_get_Some in Htail as [Hhas Hmax]; [|done..].
  pose proof (has_idx_fits _ _ _ HwfT Hhas) as Hfr.
  destruct (first_gap_spec L s Hwf Hc) as (Hg0 & _ & Hgap).
  set (g := Store.first_gap L s) in *.
  assert (g ≤ i64_limit) as Hgl.
  { destruct (decide (g = 0)) as [->|]; [unfold i64_limit; lia|].
    destruct (has_idx_fits L s (g - 1) Hwf (Hgap (g - 1) ltac:(lia))). lia. }
  unfold fits_i64, i64_limit in Hfr, Hgl.
  unfold sync_download. fold g.
  rewrite (wrapping_add_exact remote 1) by wrap_lia.
  unfold saturating_sub.
  assert (wrapping_add g (Z.max 0 (remote + 1 - g)) = Z.max g (remote + 1)) as ->.
  { rewrite wrapping_add_exact by wrap_lia. lia. }
  unfold download_pages.
  destruct (stream_spec (page rm s) (rm_table rm) s HwfT Hc
    (λ a b Ha Hab Hf, page_spec rm s a b Hok Ha Hab Hf) g (Z.max g (remote + 1)) page_size)
    as (ps & -> & Hcov & Hsound); [lia|unfold i64_limit; lia|done..|].
  unfold st_bind at 1. rewrite download_loop_plain by done. cbn [st_lift].
  assert (∀ x, x ∈ Store.load_all (Store.push_batch L (concat ps)) ↔
    x ∈ Store.load_all L ∨ x ∈ concat ps) as Hpush.
  { apply push_batch_fresh; [done| | |].
    - apply Forall_forall. intros x [Hx _]%Hsound. exact (load_all_storable _ x HwfT Hx).
    - intros x y [Hx _]%Hsound Hy Hxy. symmetry. apply Hcoh; auto.
    - intros x y [Hx _]%Hsound [Hy _]%Hsound Hxy. symmetry. apply Hcoh; auto. }
  assert (grows s L (Store.push_batch L (concat ps)) (rm_table rm)) as Hgr.
  { split; [intros x Hx; apply Hpush; by left|]. intros x [?|Hx]%Hpush; [by left|right]. by apply Hsound. }
  eexists _, _. split; [done|]. split_and!; [|done|].
  - split; [|done|by eapply coherent_grows_l|].
    + apply push_batch_wf; [done|]. apply Forall_forall. intros x [Hx _]%Hsound. exact (load_all_storable _ x HwfT Hx).
    + intros x [Hx|Hx]; [|auto]. apply Hgr in Hx as [?|[? _]]; auto.
  - intros x Hx Hs. apply Hpush. destruct (decide (r_idx x < g)) as [Hlt|Hge].
    + left. destruct (Hgap (r_idx x)) as (y & Hy & Hys & Hyi).
      { destruct (load_all_storable _ x HwfT Hx) as [[? _] _]. lia. }
      replace x with y; [done|]. apply Hcoh; [auto..|]. right. split; congruence.
    + right. apply Hcov; [done..|]. assert (r_idx x ≤ remote) by (apply Hmax; by exists x). lia.
Qed.

(** *** A list of operations *)

Definition same_series s (A A' : Store.t) : Prop :=
  ∀ x, series_key x = s → x ∈ Store.load_all A' ↔ x ∈ Store.load_all A.

Lemma same_series_trans s A A' A'' : same_series s A A' → same_series s A' A'' → same_series s A A''.
Proof. intros E1 E2 x Hx. by rewrite (E2 x Hx), (E1 x Hx). Qed.

Lemma grows_same s s' A A' B : grows s A A' B → s' ≠ s → same_series s' A A'.
Proof. intros Hg Hne x Hx. eapply grows_other; [exact Hg|congruence]. Qed.

(** The tail of a series depends on its records alone. *)
Lemma same_series_tail s A A' :
  rows_wf A → rows_wf A' → Tag.canonical (s_tag s) = true → same_series s A A' →
  Status.get (Store.status A') s = Status.get (Store.status A) s.
Proof.
  intros Hwf Hwf' Hc Hs.
  assert (∀ i, has_idx A' s i ↔ has_idx A s i) as Hi.
  { intros i. split; intros (x & Hx & Hk & He); exists x; (split_and!; [|done..]); by apply Hs. }
  apply option_eq. intros m. rewrite !status_get_Some by done. rewrite Hi.
  split; intros [Hm Hmax]; (split; [done|]); intros i Hhas; apply Hmax; by apply Hi.
Qed.

(** What an operation finds and what it leaves. *)
Definition op_pre L T (op : Operation) : Prop :=
  Tag.canonical (s_tag (op_series op)) = true ∧
  classify (Status.get (Store.status L) (op_series op)) (Status.get (Store.status T) (op_series op))
    (op_series op) = Some op.

Definition op_post L T L' T' (op : Operation) : Prop :=
  match op with
  | Upload _ remote s =>
      same_series s L L' ∧
      ∀ x, x ∈ Store.load_all L → series_key x = s → (∀ n, remote = Some n → n < r_idx x) →
        x ∈ Store.load_all T'
  | Download _ s =>
      same_series s T T' ∧ ∀ x, x ∈ Store.load_all T → series_key x = s → x ∈ Store.load_all L'
  | Noop _ => True
  end.

(** Both sides keep what they have and gain only from each other. *)
Definition exchange L T L' T' : Prop :=
  (∀ x, x ∈ Store.load_all L → x ∈ Store.load_all L') ∧
  (∀ x, x ∈ Store.load_all T → x ∈ Store.load_all T') ∧
  (∀ x, x ∈ Store.load_all L' → x ∈ Store.load_all L ∨ x ∈ Store.load_all T) ∧
  (∀ x, x ∈ Store.load_all T' → x ∈ Store.load_all L ∨ x ∈ Store.load_all T).

Lemma exchange_refl L T : exchange L T L T.
Proof. split_and!; auto. Qed.

Lemma exchange_trans L T L1 T1 L2 T2 :
  exchange L T L1 T1 → exchange L1 T1 L2 T2 → exchange L T L2 T2.
Proof.
  intros (E1 & E2 & E3 & E4) (E5 & E6 & E7 & E8). split_and!; auto.
  - intros x [?|?]%E7; auto.
  - intros x [?|?]%E8; auto.
Qed.

Lemma classify_upload l r s n m o : classify l r s = Some (Upload n o m) → l = Some n ∧ r = o ∧ ∀ j, o = Some j → j < n.
Proof.
  unfold classify. destruct l as [l|], r as [r|]; try done.
  - destruct (Z.compare_spec l r); try done. intros [= -> <- _]. split_and!; [done..|]. by intros j [= <-].
  - intros [= -> <- _]. by split_and!.
Qed.

Lemma classify_download l r s n m : classify l r s = Some (Download n m) → r = Some n ∧ ∀ j, l = Some j → j < n.
Proof.
  unfold classify. destruct l as [l|], r as [r|]; try done.
  - destruct (Z.compare_spec l r); try done. intros [= -> _]. split; [done|]. by intros j [= <-].
  - by intros [= -> _].
Qed.

Lemma sync_upload_spec s local remote L rm :
  good L rm → op_pre L (rm_table rm) (Upload local remote s) → s_tag s ≠ Packfile →
  ∃ rm' n, sync_upload page_size k pack_entropy s local remote (L, rm) = ((L, rm'), Ok n) ∧
    good L rm' ∧ packfile_cap rm' = packfile_cap rm ∧ grows s (rm_table rm) (rm_table rm') L ∧
    op_post L (rm_table rm) L (rm_table rm') (Upload local remote s).
Proof.
  intros Hgood [Hc Hcl] Ht. simpl in Hc, Hcl. apply classify_upload in Hcl as (HL & HT & Hlt).
  pose proof (good_wf _ _ Hgood) as Hwf. pose proof (rm_table_wf rm (good_ok _ _ Hgood)) as HwfT.
  apply status_get_Some in HL as [HhasL HmaxL]; [|done..].
  pose proof (has_idx_fits _ _ _ Hwf HhasL) as Hfl.
  unfold sync_upload. set (fm := map_or 0 _ remote).
  assert (0 ≤ fm ≤ local ∧ ∀ i, fm ≤ i ↔ 0 ≤ i ∧ ∀ n, remote = Some n → n < i) as [Hfm Hspec].
  { unfold fits_i64, i64_limit in Hfl. destruct remote as [n|]; unfold fm; simpl.
    - apply status_get_Some in HT as [HhasT _]; [|done..].
      destruct (has_idx_fits _ _ _ HwfT HhasT). specialize (Hlt n eq_refl).
      rewrite (wrapping_add_exact n 1) by wrap_lia.
      split; [lia|]. intros i. split; [intros; split; [lia|intros m [= <-]; lia]|].
      intros [_ Hi]. specialize (Hi n eq_refl). lia.
    - split; [lia|]. intros i. split; [by intros|tauto]. }
  assert ((local + 1 - fm) mod u64_limit = local + 1 - fm) as ->.
  { apply Z.mod_small. unfold fits_i64, i64_limit, u64_limit in *. lia. }
  destruct (upload_loop_spec (Z.to_nat (local + 1 - fm)) s fm (local + 1 - fm) 0 L rm)
    as (rm' & n & Hrun & Hgood' & Hcap & Hg & Hp); try done; [lia|unfold fits_i64 in Hfl; lia|lia|].
  exists rm', n. split_and!; try done. split; [done|]. intros x Hx Hs Hn. apply Hp; [done..|].
  assert (r_idx x ≤ local) by (apply HmaxL; by exists x).
  assert (fm ≤ r_idx x); [|lia]. apply Hspec. split; [|done].
  by destruct (load_all_storable _ x Hwf Hx) as [[? _] _].
Qed.

Abbreviation run := (run_operations page_size k pack_entropy unpack_entropy) (only parsing).

(** One operation, packfiles being disabled. *)
Lemma run_operation op ops L rm up down :
  good L rm → op_pre L (rm_table rm) op →
  ∃ L1 rm1 up1 down1,
    run false (op :: ops) up down (L, rm) = run false ops up1 down1 (L1, rm1) ∧ good L1 rm1 ∧
    grows (op_series op) L L1 (rm_table rm) ∧ grows (op_series op) (rm_table rm) (rm_table rm1) L ∧
    packfile_cap rm1 = packfile_cap rm ∧
    (s_tag (op_series op) ≠ Packfile → op_post L (rm_table rm) L1 (rm_table rm1) op) ∧
    (s_tag (op_series op) = Packfile → L1 = L ∧ rm1 = rm).
Proof.
  intros Hgood Hpre. destruct op as [local remote s|remote s|s]; cbn [run_operations op_series] in *.
  - destruct (decide (s_tag s = Packfile)) as [Ht|Ht].
    + rewrite bool_decide_eq_true_2 by done. simpl. exists L, rm, up, down.
      split_and!; try done; apply grows_refl.
    + rewrite bool_decide_eq_false_2 by done. simpl.
      destruct (sync_upload_spec s local remote L rm Hgood Hpre Ht) as (rm' & n & Hrun & Hg' & Hcap & Hgr & Hpost).
      exists L, rm', (wrapping_add up n), down. unfold st_bind. rewrite Hrun.
      split_and!; try done; apply grows_refl.
  - destruct (decide (s_tag s = Packfile)) as [Ht|Ht].
    + rewrite bool_decide_eq_true_2 by done. simpl. exists L, rm, up, down.
      split_and!; try done; apply grows_refl.
    + rewrite bool_decide_eq_false_2 by done. simpl. destruct Hpre as [Hc Hcl].
      apply classify_download in Hcl as [HT _].
      destruct (sync_download_spec s remote L rm Hgood Hc Ht HT) as (L' & ids & Hrun & Hg' & Hgr & Hall).
      exists L', rm, up, (down ++ ids). unfold st_bind. rewrite Hrun.
      split_and!; try done; apply grows_refl.
  - exists L, rm, up, down. split_and!; try done; apply grows_refl.
Qed.

Lemma op_pre_same L T L1 T1 op :
  rows_wf L → rows_wf T → rows_wf L1 → rows_wf T1 →
  same_series (op_series op) L L1 → same_series (op_series op) T T1 → op_pre L T op → op_pre L1 T1 op.
Proof. intros ? ? ? ? Hl Ht [Hc Hcl]. split; [done|]. by rewrite (same_series_tail _ L L1), (same_series_tail _ T T1) by done. Qed.

Lemma op_post_same L T L1 T1 L' T' op :
  same_series (op_series op) L L1 → same_series (op_series op) T T1 →
  op_post L1 T1 L' T' op → op_post L T L' T' op.
Proof.
  intros Hl Ht. destruct op as [local remote s|remote s|s]; simpl in *; [| |done].
  - intros [Hs Hp]. split; [by eapply same_series_trans|]. intros x Hx Hk. apply Hp; [|done]. by apply Hl.
  - intros [Hs Hp]. split; [by eapply same_series_trans|]. intros x Hx Hk. apply Hp; [|done]. by apply Ht.
Qed.

Lemma op_post_later L T L1 T1 L' T' op :
  same_series (op_series op) L1 L' → same_series (op_series op) T1 T' →
  op_post L T L1 T1 op → op_post L T L' T' op.
Proof.
  intros Hl Ht. destruct op as [local remote s|remote s|s]; simpl in *; [| |done].
  - intros [Hs Hp]. split; [by eapply same_series_trans|]. intros x Hx Hk Hn. apply Ht; [done|]. by apply Hp.
  - intros [Hs Hp]. split; [by eapply same_series_trans|]. intros x Hx Hk. apply Hl; [done|]. by apply Hp.
Qed.

Lemma run_operations_spec ops L rm up down :
  good L rm → NoDup (op_series <$> ops) → (∀ op, op ∈ ops → op_pre L (rm_table rm) op) →
  ∃ L' rm' res, run false ops up down (L, rm) = ((L', rm'), Ok res) ∧ good L' rm' ∧
    packfile_cap rm' = packfile_cap rm ∧ exchange L (rm_table rm) L' (rm_table rm') ∧
    (∀ s, s ∉ op_series <$> ops ∨ s_tag s = Packfile →
      same_series s L L' ∧ same_series s (rm_table rm) (rm_table rm')) ∧
    (∀ op, op ∈ ops → s_tag (op_series op) ≠ Packfile → op_post L (rm_table rm) L' (rm_table rm') op).
Proof.
  revert L rm up down. induction ops as [|op ops IH]; intros L rm up down Hgood Hnd Hpre.
  { exists L, rm, (up, down). split_and!; try done; [apply exchange_refl|]. by intros op ?%not_elem_of_nil. }
  rewrite fmap_cons in Hnd. apply NoDup_cons in Hnd as [Hop Hnd].
  destruct (run_operation op ops L rm up down Hgood) as
    (L1 & rm1 & up1 & down1 & -> & Hgood1 & HgL & HgT & Hcap1 & Hpost1 & Hskip); [apply Hpre; left|].
  assert (∀ s, s ≠ op_series op ∨ s_tag s = Packfile →
    same_series s L L1 ∧ same_series s (rm_table rm) (rm_table rm1)) as Hsame.
  { intros s [Hs|Hs]; [split; by eapply grows_same|].
    destruct (decide (s = op_series op)) as [->|Hne]; [|split; by eapply grows_same].
    by destruct (Hskip Hs) as [-> ->]. }
  assert (∀ op', op' ∈ ops → op_series op' ≠ op_series op) as Hdiff.
  { intros op' Hin He. apply Hop. rewrite <- He. by apply list_elem_of_fmap_2. }
  destruct (IH L1 rm1 up1 down1 Hgood1 Hnd) as (L' & rm' & res & Hrun & Hgood' & Hcap' & Hex & Hrest & Hposts).
  { intros op' Hin. destruct (Hsame (op_series op')) as [Hl Ht]; [left; by apply Hdiff|].
    destruct Hgood as [Hwf Hok _ _], Hgood1 as [Hwf1 Hok1 _ _].
    eapply (op_pre_same L (rm_table rm)); [done|by apply rm_table_wf|done|by apply rm_table_wf|done|done|].
    apply Hpre. by right. }
  exists L', rm', res. split_and!; [done|done|congruence| | |].
  - eapply exchange_trans; [|exact Hex]. destruct HgL as [E1 E2], HgT as [E3 E4].
    split_and!; [done|done| |].
    + intros x [?|[? _]]%E2; auto.
    + intros x [?|[? _]]%E4; auto.
  - intros s Hs. rewrite fmap_cons, not_elem_of_cons in Hs.
    destruct (Hsame s) as [Hl Ht]; [tauto|]. destruct (Hrest s) as [Hl' Ht']; [tauto|].
    split; by eapply same_series_trans.
  - intros op' Hin Htag. apply elem_of_cons in Hin as [->|Hin].
    + destruct (Hrest (op_series op)) as [Hl Ht]; [by left|]. eapply op_post_later; [exact Hl|exact Ht|auto].
    + destruct (Hsame (op_series op')) as [Hl Ht]; [left; by apply Hdiff|].
      eapply op_post_same; [exact Hl|exact Ht|auto].
Qed.

(** *** The key check *)

Lemma one_spec rm s m :
  rm_ok rm → Status.get (Store.status (rm_table rm)) s = Some m →
  ∃ x, one (page rm s) = Ok (Some x) ∧ x ∈ Store.load_all (rm_table rm) ∧ series_key x = s.
Proof.
  intros Hok Hm. pose proof (rm_table_wf rm Hok) as Hwf. pose proof (status_canonical _ _ _ Hwf Hm) as Hc.
  apply status_get_Some in Hm as [(y & Hy & Hys & Hyi) _]; [|done..].
  destruct (honest_page_spec (page rm s) (rm_table rm) s Hwf Hc
    (λ a b Ha Hab Hf, page_spec rm s a b Hok Ha Hab Hf) 0 1)
    as (p & Hp & Hlen & _ & Hempty & Hsound); [by split|by split|by split|].
  unfold one, stream. change (Chunks.collect (Chunks.new (0, 1) 1)) with [(0, 1)]. cbn [parallel].
  rewrite Hp. destruct (Z.eqb_spec (page_len p) 0) as [Hz|Hz].
  { specialize (Hempty Hz y Hy Hys). destruct (load_all_storable _ y Hwf Hy) as [[? _] _]. lia. }
  destruct p as [|x p]; [done|]. exists x. destruct (Hsound x) as (? & ? & _); [left|].
  destruct (Z.ltb_spec (page_len (x :: p)) (1 - 0)) as [Hlt|]; [unfold page_len in *; simpl in *; lia|].
  by split_and!.
Qed.

Context (Hho : ∀ l, hash_order l ≡ₚ l).

(** The sample is a record of the remote, of any series that is not a packfile's. *)
Lemma check_key_sample rm idx :
  rm_ok rm → record_status rm = Ok idx →
  (check_key_against_index k hash_order rm idx = None ∧
   ∀ x, x ∈ Store.load_all (rm_table rm) → r_tag x = Packfile) ∨
  ∃ x, x ∈ Store.load_all (rm_table rm) ∧ r_tag x ≠ Packfile ∧
    check_key_against_index k hash_order rm idx =
      match decrypt k x with Ok _ => None | Err _ => Some WrongKey end.
Proof.
  intros Hok Hidx. pose proof (rm_table_wf rm Hok) as Hwf.
  destruct (record_status_spec rm Hok) as (idx' & Hidx' & Hget). rewrite Hidx in Hidx'. injection Hidx' as <-.
  unfold check_key_against_index. set (cands := filter _ _).
  assert (∀ s, s ∈ cands ↔ s_tag s ≠ Packfile ∧ ∃ m, Status.get idx s = Some m) as Hin.
  { intros s. unfold cands. rewrite list_elem_of_filter, Hho, list_elem_of_fmap. split.
    - intros [? ([s' m] & -> & Hm%status_entries_spec)]. split; [done|]. by exists m.
    - intros [? [m Hm]]. split; [done|]. exists (s, m). by rewrite status_entries_spec. }
  destruct cands as [|s cands]; simpl.
  - left. split; [done|]. intros x Hx. apply dec_stable. intros Ht.
    apply (not_elem_of_nil (series_key x)). apply Hin. split; [done|].
    assert (Tag.canonical (s_tag (series_key x)) = true) as Hc by (by destruct (load_all_storable _ x Hwf Hx) as (_ & _ & ? & _)).
    pose proof (status_get (rm_table rm) (series_key x) Hwf Hc) as Hs. rewrite Hget.
    destruct (Status.get (Store.status (rm_table rm)) (series_key x)) as [m|]; [by exists m|].
    exfalso. apply (Hs (r_idx x)). by exists x.
  - right. destruct (proj1 (Hin s)) as (Ht & m & Hm); [left|]. rewrite Hget in Hm.
    destruct (one_spec rm s m Hok Hm) as (x & -> & Hx & Hs). exists x. split_and!; [done| |done].
    by rewrite <- Hs in Ht.
Qed.

(** *** The whole run *)

Lemma op_pre_operations L rm idx (ops : list Operation) :
  good L rm → (∀ s, Status.get idx s = Status.get (Store.status (rm_table rm)) s) →
  (∀ op, op ∈ ops ↔ classify (Status.get (Store.status L) (op_series op)) (Status.get idx (op_series op))
                      (op_series op) = Some op) →
  ∀ op, op ∈ ops → op_pre L (rm_table rm) op.
Proof.
  intros Hgood Hget Hops op Hcl%Hops. rewrite Hget in Hcl. split; [|done].
  pose proof (good_wf _ _ Hgood) as Hwf. pose proof (rm_table_wf rm (good_ok _ _ Hgood)) as HwfT.
  destruct (Status.get (Store.status L) (op_series op)) as [l|] eqn:E1; [by eapply (status_canonical L)|].
  destruct (Status.get (Store.status (rm_table rm)) (op_series op)) as [r|] eqn:E2; [by eapply status_canonical|].
  done.
Qed.

Abbreviation sync_k := (sync page_size k hash_order pack_entropy unpack_entropy) (only parsing).

Lemma sync_run L rm :
  good L rm → packfiles_enabled rm = false →
  (∀ x, x ∈ Store.load_all (rm_table rm) → r_tag x ≠ Packfile → ∃ d, decrypt k x = Ok d) →
  ∃ L' rm' res, sync_k (L, rm) = ((L', rm'), Ok res) ∧ good L' rm' ∧
    exchange L (rm_table rm) L' (rm_table rm') ∧
    ∀ s, s_tag s ≠ Packfile →
      match classify (Status.get (Store.status L) s) (Status.get (Store.status (rm_table rm)) s) s with
      | Some op => op_post L (rm_table rm) L' (rm_table rm') op
      | None => same_series s L L' ∧ same_series s (rm_table rm) (rm_table rm')
      end.
Proof.
  intros Hgood Hpack Hdec. pose proof (good_ok _ _ Hgood) as Hok.
  destruct (record_status_spec rm Hok) as (idx & Hidx & Hget).
  destruct (operations_spec (Store.status L) idx) as (ops & Hops & Hnd & _ & Hin).
  destruct (run_operations_spec ops L rm 0 [] Hgood Hnd) as (L' & rm' & res & Hrun & Hgood' & _ & Hex & Hsame & Hpost).
  { by eapply op_pre_operations. }
  exists L', rm', res. unfold sync, diff, sync_remote. rewrite Hidx. cbn [remote_err map_err rbind].
  assert (check_key_against_index k hash_order rm idx = None) as ->.
  { destruct (check_key_sample rm idx Hok Hidx) as [[-> _]|(x & Hx & Ht & ->)]; [done|].
    by destruct (Hdec x Hx Ht) as [d ->]. }
  rewrite Hops, Hpack, Hrun. split_and!; [done..|]. intros s Ht.
  destruct (classify _ _ s) as [op|] eqn:Hcl.
  - pose proof (classify_series _ _ _ _ Hcl) as Hs. apply Hpost; [|by rewrite Hs].
    apply Hin. by rewrite Hget, Hs.
  - apply Hsame. left. intros (op & He & Hop%Hin)%list_elem_of_fmap.
    rewrite Hget in Hop. rewrite <- He in Hop. congruence.
Qed.
End convergence.

(** Every index up to the tail is present. *)
Definition contiguous (A : Store.t) (s : RecordSeriesKey) : Prop :=
  ∀ i j, has_idx A s i → 0 ≤ j ≤ i → has_idx A s j.

(** ** Appending only *)

Lemma push_batch_appends (rs : list enc_record) (st : Store.t) : ∃ extra, Store.push_batch st rs = st ++ extra.
Proof.
  unfold Store.push_batch. revert st. induction rs as [|r rs IH]; intros st; simpl; [by exists []; rewrite app_nil_r|].
  unfold Store.save_raw at 2. destruct (existsb _ st); [apply IH|].
  destruct (IH (st ++ [Store.to_row r])) as [extra ->]. eexists. by rewrite <- app_assoc.
Qed.

Section append_only.
Context `{Rmp, Crypto, PackLib} {R : Type} `{Remote R}.
Context (page_size : Z) (k : key) (hash_order : list RecordSeriesKey → list RecordSeriesKey).
Context (pack_entropy : RecordId → Entropy) (unpack_entropy : RecordId → nat → Entropy).

Definition appends {E A} (m : stm (Store.t * R) E A) : Prop :=
  ∀ p, ∃ extra, (m p).1.1 = p.1 ++ extra.

Lemma appends_ret {E A} (r : result A E) : appends (λ p : Store.t * R, (p, r)).
Proof. intros p. exists []. by rewrite app_nil_r. Qed.

Lemma appends_bind {E A B} (m : stm (Store.t * R) E A) (f : A → stm (Store.t * R) E B) :
  appends m → (∀ a, appends (f a)) → appends (st_bind m f).
Proof.
  intros Hm Hf p. unfold st_bind. destruct (Hm p) as [e1 E1]. destruct (m p) as [p' [a|e]]; simpl in *; [|eauto].
  destruct (Hf a p') as [e2 E2]. exists (e1 ++ e2). by rewrite E2, E1, app_assoc.
Qed.

Lemma appends_on_remote {A} (m : stm R string A) : appends (on_remote m).
Proof. intros [st rm]. unfold on_remote. destruct (m rm). exists []. by rewrite app_nil_r. Qed.

Lemma appends_upload_packed pg : appends (upload_packed k pack_entropy pg).
Proof.
  intros [st rm]. unfold upload_packed. destruct (try_map _ _); [apply appends_on_remote|].
  exists []. by rewrite app_nil_r.
Qed.

Lemma appends_upload_loop fuel s fm expected progress :
  appends (upload_loop page_size k pack_entropy fuel s fm expected progress).
Proof.
  revert progress. induction fuel as [|fuel IH]; intros progress [st rm]; cbn [upload_loop];
    [by exists []; rewrite app_nil_r|].
  destruct (_ <? _); [|by exists []; rewrite app_nil_r]. destruct (_ =? _); [by exists []; rewrite app_nil_r|].
  apply (appends_bind _ _); [|intros _; apply appends_bind; [apply appends_on_remote|done]].
  case_decide; [apply appends_upload_packed|apply appends_ret].
Qed.

Lemma appends_download_packed m : appends (download_packed k unpack_entropy m).
Proof.
  intros [st rm]. unfold download_packed. destruct (Pack.new m); [|by exists []; rewrite app_nil_r].
  destruct (map_or _ _ _); [by exists []; rewrite app_nil_r|].
  destruct (download_packfile _ _); [|by exists []; rewrite app_nil_r].
  destruct (Pack.unpack_records _ _ _ _); [apply push_batch_appends|by exists []; rewrite app_nil_r].
Qed.

Lemma appends_expand_manifests pg : appends (expand_manifests k unpack_entropy pg).
Proof.
  induction pg as [|m pg IH]; intros [st rm]; cbn [expand_manifests]; [by exists []; rewrite app_nil_r|].
  destruct (appends_download_packed m (st, rm)) as [e1 E1].
  destruct (download_packed k unpack_entropy m (st, rm)) as [p' [ids|e]]; simpl in E1.
  - destruct (appends_bind _ (λ l, st_ret (ids ++ l)) IH (λ l, appends_ret _) p') as [e2 E2].
    exists (e1 ++ e2). by rewrite E2, E1, app_assoc.
  - destruct (is_permanent e); [|eauto]. destruct (IH p') as [e2 E2]. exists (e1 ++ e2).
    by rewrite E2, E1, app_assoc.
Qed.

Lemma appends_download_loop s pages : appends (download_loop k unpack_entropy s pages).
Proof.
  induction pages as [|p pages IH]; cbn [download_loop]; [apply appends_ret|].
  apply appends_bind; [case_decide; [apply appends_expand_manifests|apply appends_ret]|].
  intros expanded. apply appends_bind; [intros [st rm]; apply push_batch_appends|].
  intros _. apply appends_bind; [done|]. intros ret. apply appends_ret.
Qed.

Lemma appends_sync_download s remote : appends (sync_download page_size k unpack_entropy s remote).
Proof.
  intros [st rm]. unfold sync_download, download_pages. destruct (stream _ _) as [pages err].
  apply (appends_bind _ _); [apply appends_download_loop|]. intros ret. apply appends_ret.
Qed.

Lemma appends_run enabled ops up down :
  appends (run_operations page_size k pack_entropy unpack_entropy enabled ops up down).
Proof.
  revert up down. induction ops as [|[local remote s|remote s|s] ops IH]; intros up down; cbn [run_operations].
  - apply appends_ret.
  - destruct (_ && _); [done|]. apply appends_bind; [apply appends_upload_loop|done].
  - destruct (_ && _); [done|]. apply appends_bind; [apply appends_sync_download|done].
  - done.
Qed.

(** C2: whatever the server answers, and whether the sync succeeds or stops at an error, the local
    table afterwards is the table before with rows appended: no local record is lost or altered. *)
Theorem sync_only_appends (st : Store.t) (rm : R) :
  ∃ extra, (sync page_size k hash_order pack_entropy unpack_entropy (st, rm)).1.1 = st ++ extra.
Proof.
  unfold sync. destruct (diff st rm) as [[diffs idx]|e]; [|by exists []; rewrite app_nil_r].
  destruct (check_key_against_index _ _ _ _); [by exists []; rewrite app_nil_r|].
  destruct (operations diffs); [|by exists []; rewrite app_nil_r]. apply appends_run.
Qed.
End append_only.

(** ** Theorems *)

(** C7: [operations] never fails on a diff and resolves it into exactly one operation per series on
    which the indices disagree: an upload where the local tail is ahead, a download where the
    remote's is. A host's packfile download comes before its other downloads. *)
Theorem operations_resolve_diff `{Crypto} (a b : Status.t) :
  ∃ ops, operations (Status.diff a b) = Ok ops ∧ NoDup (op_series <$> ops) ∧
    (∀ op, op ∈ ops ↔
      match op with
      | Upload l r s => Status.get a s = Some l ∧ Status.get b s = r ∧ ∀ n, r = Some n → n < l
      | Download r s => Status.get b s = Some r ∧ ∀ n, Status.get a s = Some n → n < r
      | Noop _ => False
      end) ∧
    ∀ i j h rp r t, ops !! i = Some (Download rp (mk_series h Packfile)) →
      ops !! j = Some (Download r (mk_series h t)) → t ≠ Packfile → (i < j)%nat.
Proof.
  destruct (operations_spec a b) as (ops & Hops & Hnd & Hsort & Hin). exists ops. split_and!; [done..| |].
  - intros op. rewrite Hin. split.
    + destruct op as [l r s|r s|s]; simpl; intros Hc.
      * by apply classify_upload in Hc.
      * by apply classify_download in Hc.
      * unfold classify in Hc. destruct (Status.get a s) as [x|], (Status.get b s) as [y|]; try done.
        by destruct (x ?= y).
    + destruct op as [l r s|r s|s]; simpl; [| |done].
      * intros (-> & -> & Hlt). unfold classify. destruct r as [r|]; [|done].
        specialize (Hlt r eq_refl). by destruct (Z.compare_spec l r); [lia..|].
      * intros (-> & Hlt). unfold classify. destruct (Status.get a s) as [l|]; [|done].
        specialize (Hlt l eq_refl). by destruct (Z.compare_spec l r); [lia|done|lia].
  - intros i j h rp r t Hi Hj Ht. destruct (decide (i < j)%nat) as [|Hge]; [done|exfalso].
    destruct (decide (i = j)) as [->|Hne]; [congruence|].
    assert (leb (op_key (Download r (mk_series h t))) (op_key (Download rp (mk_series h Packfile))) = true) as Hle.
    { exact (sorted_lookup _ ops j i _ _ Hsort Hj Hi ltac:(lia)). }
    unfold leb, op_key in Hle. simpl in Hle. unfold cmp, ord_prod in Hle. simpl in Hle.
    rewrite decide_False in Hle by done. unfold cmp, ord_Z, ord_prod, ord_N, then_cmp in Hle. simpl in Hle.
    unfold cmp in Hle. by rewrite N.compare_refl in Hle.
Qed.

Section theorems.
Context `{Rmp, Crypto, PackLib} {R : Type} `{RemoteLaws R}.
Context (page_size : Z) (k : key) (hash_order : list RecordSeriesKey → list RecordSeriesKey).
Context (pack_entropy : RecordId → Entropy) (unpack_entropy : RecordId → nat → Entropy).

Lemma tails_agree L T L' T' s :
  rows_wf L → rows_wf T → rows_wf L' → rows_wf T' → Tag.canonical (s_tag s) = true →
  exchange L T L' T' →
  match classify (Status.get (Store.status L) s) (Status.get (Store.status T) s) s with
  | Some op => op_post L T L' T' op
  | None => same_series s L L' ∧ same_series s T T'
  end →
  Status.get (Store.status L') s = Status.get (Store.status T') s.
Proof.
  intros HL HT HL' HT' Hc (Hx1 & Hx2 & Hx3 & Hx4) Hm.
  assert (∀ A i, has_idx A s i ↔ ∃ x, x ∈ Store.load_all A ∧ series_key x = s ∧ r_idx x = i) as Hdef by done.
  destruct (classify _ _ s) as [[l r s'|r s'|s']|] eqn:Hcl.
  - pose proof (classify_series _ _ _ _ Hcl) as Hs; simpl in Hs; subst s'.
    apply classify_upload in Hcl as (HsL & HsT & Hlt). destruct Hm as [Hsame Hup].
    rewrite (same_series_tail s L L') by done. rewrite HsL. symmetry. apply status_get_Some; [done..|].
    apply status_get_Some in HsL as [(x & Hx & Hk & Hi) Hmax]; [|done..]. split.
    + exists x. split_and!; [|done..]. apply Hup; [done..|]. intros n Hn. apply Hlt in Hn. lia.
    + intros i (y & Hy & Hyk & <-). apply Hx4 in Hy as [Hy|Hy]; [apply Hmax; by exists y|].
      destruct r as [n|].
      * apply status_get_Some in HsT as [_ Hn]; [|done..]. specialize (Hlt n eq_refl).
        assert (r_idx y ≤ n) by (apply Hn; by exists y). lia.
      * pose proof (status_get T s HT Hc) as Hnone. rewrite HsT in Hnone. exfalso. apply (Hnone (r_idx y)). by exists y.
  - pose proof (classify_series _ _ _ _ Hcl) as Hs; simpl in Hs; subst s'.
    apply classify_download in Hcl as (HsT & Hlt). destruct Hm as [Hsame Hdown].
    rewrite (same_series_tail s T T') by done. rewrite HsT. apply status_get_Some; [done..|].
    apply status_get_Some in HsT as [(x & Hx & Hk & Hi) Hmax]; [|done..]. split.
    + exists x. split_and!; [|done..]. by apply Hdown.
    + intros i (y & Hy & Hyk & <-). apply Hx3 in Hy as [Hy|Hy]; [|apply Hmax; by exists y].
      pose proof (status_get L s HL Hc) as HsL. destruct (Status.get (Store.status L) s) as [n|].
      * destruct HsL as [_ Hn]. specialize (Hlt n eq_refl). assert (r_idx y ≤ n) by (apply Hn; by exists y). lia.
      * exfalso. apply (HsL (r_idx y)). by exists y.
  - unfold classify in Hcl. destruct (Status.get _ s), (Status.get _ s); try done. by destruct (_ ?= _).
  - apply classify_None in Hcl. destruct Hm. by rewrite (same_series_tail s L L'), (same_series_tail s T T').
Qed.

(** If two contiguous series have tails [l] and [r] with [l <= r], the second holds the records of
    the first. *)
Lemma contiguous_contains L T s l r x :
  rows_wf L → rows_wf T → Tag.canonical (s_tag s) = true → coherent L T → contiguous T s →
  Status.get (Store.status L) s = Some l → Status.get (Store.status T) s = Some r → l ≤ r →
  x ∈ Store.load_all L → series_key x = s → x ∈ Store.load_all T.
Proof.
  intros HL HT Hc Hcoh Hcont Hl Hr Hle Hx Hs.
  apply status_get_Some in Hl as [_ Hl]; [|done..]. apply status_get_Some in Hr as [Hr _]; [|done..].
  destruct (Hcont r (r_idx x) Hr) as (y & Hy & Hys & Hyi).
  { destruct (load_all_storable L x HL Hx) as [[? _] _].
    assert (r_idx x ≤ l) by (apply Hl; by exists x). lia. }
  replace x with y; [done|]. apply Hcoh; [auto..|]. right. split; congruence.
Qed.

Lemma coherent_sym L T : coherent L T → coherent T L.
Proof. intros Hc x y Hx Hy. apply Hc; tauto. Qed.

(** The tail of a series that has a record. *)
Lemma tail_of A s x :
  rows_wf A → x ∈ Store.load_all A → series_key x = s →
  ∃ m, Status.get (Store.status A) s = Some m ∧ r_idx x ≤ m ∧ Tag.canonical (s_tag s) = true.
Proof.
  intros HA Hx Hs.
  assert (Tag.canonical (s_tag s) = true) as Hc by (by destruct (load_all_storable A x HA Hx) as (_ & _ & ? & _); subst).
  pose proof (status_get A s HA Hc) as Ht. destruct (Status.get (Store.status A) s) as [m|].
  - exists m. split_and!; [done| |done]. apply Ht. by exists x.
  - exfalso. apply (Ht (r_idx x)). by exists x.
Qed.

Lemma series_replicated L T L' T' s x :
  rows_wf L → rows_wf T → coherent L T → contiguous L s → contiguous T s →
  exchange L T L' T' →
  match classify (Status.get (Store.status L) s) (Status.get (Store.status T) s) s with
  | Some op => op_post L T L' T' op
  | None => same_series s L L' ∧ same_series s T T'
  end →
  series_key x = s → x ∈ Store.load_all L' ↔ x ∈ Store.load_all T'.
Proof.
  intros HL HT Hcoh HcL HcT (Hx1 & Hx2 & Hx3 & Hx4) Hm Hs.
  pose proof (coherent_sym _ _ Hcoh) as Hcoh'.
  destruct (classify _ _ s) as [[l r s'|r s'|s']|] eqn:Hcl.
  - pose proof (classify_series _ _ _ _ Hcl) as Hs'; simpl in Hs'; subst s'.
    apply classify_upload in Hcl as (HsL & HsT & Hlt). destruct Hm as [Hsame Hup]. rewrite (Hsame x Hs). split.
    + intros Hx. destruct r as [n|]; [|by apply Hup].
      destruct (decide (n < r_idx x)) as [Hn|Hn]; [apply Hup; [done..|by intros ? [= <-]]|].
      pose proof (status_canonical _ _ _ HL HsL) as Hc.
      apply status_get_Some in HsT as [Hn' _]; [|done..].
      destruct (HcT n (r_idx x) Hn') as (y & Hy & Hys & Hyi).
      { destruct (load_all_storable L x HL Hx) as [[? _] _]. lia. }
      apply Hx2. replace x with y; [done|]. apply Hcoh; [auto..|]. right. split; congruence.
    + intros [Hx|Hx]%Hx4; [done|]. destruct (tail_of T s x HT Hx Hs) as (m & Hm & Hi & Hc).
      eapply (contiguous_contains T L s m l); try done. assert (m < l) by (apply Hlt; congruence). lia.
  - pose proof (classify_series _ _ _ _ Hcl) as Hs'; simpl in Hs'; subst s'.
    apply classify_download in Hcl as (HsT & Hlt). destruct Hm as [Hsame Hdown]. rewrite (Hsame x Hs).
    split; [|by intros; apply Hdown]. intros [Hx|Hx]%Hx3; [|done].
    destruct (tail_of L s x HL Hx Hs) as (m & Hm & Hi & Hc).
    eapply (contiguous_contains L T s m r); try done. apply Hlt in Hm. lia.
  - unfold classify in Hcl. destruct (Status.get _ s), (Status.get _ s); try done. by destruct (_ ?= _).
  - apply classify_None in Hcl. destruct Hm as [Hl Ht]. rewrite (Hl x Hs), (Ht x Hs). split; intros Hx.
    + destruct (tail_of L s x HL Hx Hs) as (m & Hm & Hi & Hc). eapply (contiguous_contains L T s m m); (done || congruence || lia).
    + destruct (tail_of T s x HT Hx Hs) as (m & Hm & Hi & Hc). eapply (contiguous_contains T L s m m); (done || congruence || lia).
Qed.

(** C1: a sync with an honest server that does not offer packfiles (the one of this repository does not, see
    [server_remote]) succeeds, provided that every record of the server decrypts under this key, that the two sides
    have no two records of one id or one place of a series, and that the server takes records of this size. Neither
    side loses a record and each gains only the other's; afterwards the two indices agree on every series but the
    packfiles', and a series without holes on either side is replicated exactly. *)
Theorem sync_converges (L : Store.t) (rm : R) :
  store_wf L → rm_ok rm → coherent L (rm_table rm) →
  (∀ x, x ∈ Store.load_all L ∨ x ∈ Store.load_all (rm_table rm) → rm_accepts x) →
  (∀ x, x ∈ Store.load_all (rm_table rm) → r_tag x ≠ Packfile → ∃ d, decrypt k x = Ok d) →
  packfiles_enabled rm = false → (∀ l, hash_order l ≡ₚ l) → 0 < page_size → fits_i64 page_size →
  ∃ L' rm' res, sync page_size k hash_order pack_entropy unpack_entropy (L, rm) = ((L', rm'), Ok res) ∧
    store_wf L' ∧ rm_ok rm' ∧ exchange L (rm_table rm) L' (rm_table rm') ∧
    (∀ s, s_tag s ≠ Packfile →
      Status.get (Store.status L') s = Status.get (Store.status (rm_table rm')) s) ∧
    (∀ x, r_tag x ≠ Packfile → contiguous L (series_key x) → contiguous (rm_table rm) (series_key x) →
      x ∈ Store.load_all L' ↔ x ∈ Store.load_all (rm_table rm')).
Proof.
  intros Hwf Hok Hcoh Hacc Hdec Hpack Hho Hps Hpf.
  assert (good L rm) as Hgood by (by split).
  destruct (sync_run page_size k hash_order pack_entropy unpack_entropy Hps Hpf Hho L rm Hgood Hpack Hdec)
    as (L' & rm' & res & Hrun & [Hwf' Hok' _ _] & Hex & Hpost).
  pose proof (rm_table_wf rm Hok) as HT. pose proof (rm_table_wf rm' Hok') as HT'.
  exists L', rm', res. split_and!; try done.
  - intros s Ht. destruct (Tag.canonical (s_tag s)) eqn:Hc.
    + apply (tails_agree L (rm_table rm)); try done. by apply Hpost.
    + destruct (Status.get (Store.status L') s) as [m|] eqn:E1.
      { apply status_canonical in E1; [congruence|done]. }
      destruct (Status.get (Store.status (rm_table rm')) s) as [m|] eqn:E2; [|done].
      apply status_canonical in E2; [congruence|done].
  - intros x Ht HcL HcT. apply (series_replicated L (rm_table rm) L' (rm_table rm') (series_key x)); try done.
    by apply Hpost.
Qed.

Lemma run_skips (ops : list Operation) (L : Store.t) (rm : R) up down :
  (∀ op, op ∈ ops → s_tag (op_series op) = Packfile) →
  run_operations page_size k pack_entropy unpack_entropy false ops up down (L, rm) = ((L, rm), Ok (up, down)).
Proof.
  induction ops as [|op ops IH]; intros Hops; [done|].
  assert (s_tag (op_series op) = Packfile) as Ht by (apply Hops; left).
  destruct op; cbn [run_operations op_series] in *; rewrite ?bool_decide_eq_true_2 by done; simpl;
    (apply IH; intros; apply Hops; by right).
Qed.

(** Once the indices agree, another sync changes nothing on either side and reports nothing
    uploaded and nothing downloaded. *)
Theorem settled_sync_is_noop (L : Store.t) (rm : R) :
  rm_ok rm → packfiles_enabled rm = false → (∀ l, hash_order l ≡ₚ l) →
  (∀ x, x ∈ Store.load_all (rm_table rm) → r_tag x ≠ Packfile → ∃ d, decrypt k x = Ok d) →
  (∀ s, s_tag s ≠ Packfile →
    Status.get (Store.status L) s = Status.get (Store.status (rm_table rm)) s) →
  sync page_size k hash_order pack_entropy unpack_entropy (L, rm) = ((L, rm), Ok (0, [])).
Proof.
  intros Hok Hpack Hho Hdec Hagree. destruct (record_status_spec rm Hok) as (idx & Hidx & Hget).
  destruct (operations_spec (Store.status L) idx) as (ops & Hops & _ & _ & Hin).
  unfold sync, diff, sync_remote. rewrite Hidx. cbn [remote_err map_err rbind].
  assert (check_key_against_index k hash_order rm idx = None) as ->.
  { destruct (check_key_sample k hash_order Hho rm idx Hok Hidx) as [[-> _]|(x & Hx & Ht & ->)]; [done|].
    by destruct (Hdec x Hx Ht) as [d ->]. }
  rewrite Hops, Hpack. apply run_skips. intros op Hop%Hin. apply dec_stable. intros Ht.
  rewrite Hget, <- (Hagree _ Ht) in Hop. rewrite (proj2 (classify_None _ _ _)) in Hop; done.
Qed.

(** C6: when the remote holds data and none of it decrypts under this key, the sync reports the
    wrong key and neither side is changed, so nothing is ever uploaded under a second key. *)
Theorem wrong_key_changes_nothing (L : Store.t) (rm : R) (x : enc_record) :
  rm_ok rm → (∀ l, hash_order l ≡ₚ l) →
  x ∈ Store.load_all (rm_table rm) → r_tag x ≠ Packfile →
  (∀ y, y ∈ Store.load_all (rm_table rm) → r_tag y ≠ Packfile → ∃ e, decrypt k y = Err e) →
  sync page_size k hash_order pack_entropy unpack_entropy (L, rm) = ((L, rm), Err WrongKey).
Proof.
  intros Hok Hho Hx Ht Hdec. destruct (record_status_spec rm Hok) as (idx & Hidx & Hget).
  unfold sync, diff. rewrite Hidx. cbn [remote_err map_err rbind].
  destruct (check_key_sample k hash_order Hho rm idx Hok Hidx) as [[_ Hall]|(y & Hy & Hty & ->)].
  - by specialize (Hall x Hx).
  - by destruct (Hdec y Hy Hty) as [e ->].
Qed.
End theorems.

(** ** The repository's server as a remote *)

Section server_remote.
Context {DB : Type} `{DatabaseLaws DB} (settings : Settings) (h : AuthHeader).

(** The handlers behind the routes the client calls, JSON being carried faithfully. The server has
    no packfile routes and does not advertise the capability. *)
#[local] Instance server_remote : Remote DB := {|
  record_status db := map_err reason (Handlers.record_index h db).2;
  page db s a b := map_err reason (Handlers.record_next h s (Some a) (b - a) db).2;
  post_records rs db := let '(db', r) := Handlers.record_post settings h rs db in (db', map_err reason r);
  upload_packfile _ _ _ := st_fail "not found";
  download_packfile _ _ := Err "not found";
  packfile_cap _ := None
|}.

Definition server_table (db : DB) : Store.t :=
  match Handlers.user_auth h db with Ok u => table db (u_id u) | Err _ => [] end.

Definition server_accepts (r : enc_record) : Prop :=
  max_record_size settings = 0 ∨ Z.of_nat (String.length (raw (r_data r))) ≤ max_record_size settings.

#[local] Instance server_remote_laws : RemoteLaws DB.
Proof.
  refine {| rm_ok db := db_ok db ∧ ∃ user, Handlers.user_auth h db = Ok user;
            rm_table := server_table; rm_accepts := server_accepts |}.
  - intros db [Hok [u Hu]]. unfold server_table. rewrite Hu. by apply table_wf.
  - intros db [Hok [u Hu]]. destruct (record_index_spec h db u Hok Hu) as (st & Hst & Hget).
    exists st. simpl. rewrite Hst. split; [done|]. intros s. unfold server_table. by rewrite Hget, Hu.
  - intros db s a b [Hok [u Hu]] Ha Hab Hf. exists (Z.to_nat (b - a)). simpl.
    rewrite (record_next_spec h db u) by done. unfold server_table. rewrite Hu. simpl.
    rewrite next_take by done. split_and!; [done|lia|]. intros _. lia.
  - intros db rs [Hok [u Hu]] Hst Hacc.
    destruct (add_records_spec db u rs Hok Hst) as (db' & Hadd & Hok' & Htab & Hsess).
    assert (Handlers.user_auth h db' = Ok u) as Hu' by (by rewrite (user_auth_ext h db db')).
    exists db'. simpl. unfold Handlers.record_post, Handlers.with_auth. rewrite Hu.
    assert (forallb (λ r : enc_record, (Z.of_nat (String.length (raw (r_data r))) <=? max_record_size settings)
      || (max_record_size settings =? 0)) rs = true) as ->.
    { apply forallb_forall. intros r Hr%list_elem_of_In. eapply Forall_forall in Hacc as [->|Hle]; [| |exact Hr].
      - by rewrite Z.eqb_refl, orb_true_r.
      - by rewrite (proj2 (Z.leb_le _ _) Hle). }
    unfold Handlers.lift_db. rewrite Hadd. split_and!; [done| |by exists u| |done]; [done|].
    unfold server_table. by rewrite Hu, Hu', Htab, decide_True.
Defined.
End server_remote.

(** ** Witnesses *)

Definition token : AuthHeader := HeaderText "Token tok".
#[local] Instance demo_remote : Remote Sqlite := server_remote srv_settings token.
#[local] Instance demo_laws : RemoteLaws Sqlite := server_remote_laws srv_settings token.

(** Another host's record, already on the server. *)
Definition other_enc : enc_record :=
  match encrypt Toy.rng Toy.key1 (mk_record 9 0 3 1700000001 V0 Kv [104]) with
  | Ok er => er
  | Err _ => sample_enc
  end.
Definition srv2 : Sqlite := (Handlers.record_post srv_settings token [other_enc] srv1).1.

Lemma srv2_table : Store.load_all (rm_table srv2) = [other_enc].
Proof. vm_compute. reflexivity. Qed.

Lemma st1_records : Store.load_all st1 = [sample_enc].
Proof. vm_compute. reflexivity. Qed.

Lemma srv2_ok : rm_ok srv2.
Proof.
  split; [|exists user1; vm_compute; reflexivity].
  destruct (add_records_spec srv1 user1 [other_enc]) as (db' & Hadd & Hok & _).
  - intros u. split; constructor.
  - apply Forall_singleton. split_and!; [split; vm_compute; congruence..| |]; vm_compute; reflexivity.
  - assert (srv2 = db') as ->; [|done]. change db' with ((db', Ok (E := DbError) tt).1). rewrite <- Hadd. vm_compute. reflexivity.
Qed.

Lemma srv2_decrypts x :
  x ∈ Store.load_all (rm_table srv2) → r_tag x ≠ Packfile → ∃ d, decrypt Toy.key1 x = Ok d.
Proof. rewrite srv2_table. intros ->%list_elem_of_singleton _. eexists. vm_compute. reflexivity. Qed.

Lemma demo_coherent : coherent st1 (rm_table srv2).
Proof.
  intros x y. rewrite srv2_table, st1_records, !list_elem_of_singleton.
  intros [->| ->] [->| ->]; try done; (intros [Hc|[Hc _]]; vm_compute in Hc; discriminate Hc).
Qed.

Abbreviation demo_sync := (sync 100 Toy.key1 (λ l, l) (λ _, Toy.rng) (λ _ _, Toy.rng)) (only parsing).

Lemma sync_converges_witness :
  ∃ L' rm' res, demo_sync (st1, srv2) = ((L', rm'), Ok res) ∧
    store_wf L' ∧ rm_ok rm' ∧ exchange st1 (rm_table srv2) L' (rm_table rm') ∧
    (∀ s, s_tag s ≠ Packfile →
      Status.get (Store.status L') s = Status.get (Store.status (rm_table rm')) s) ∧
    (∀ x, r_tag x ≠ Packfile → contiguous st1 (series_key x) → contiguous (rm_table srv2) (series_key x) →
      x ∈ Store.load_all L' ↔ x ∈ Store.load_all (rm_table rm')).
Proof.
  apply (sync_converges 100 Toy.key1 (λ l, l) (λ _, Toy.rng) (λ _ _, Toy.rng) st1 srv2).
  - exact st1_wf.
  - exact srv2_ok.
  - exact demo_coherent.
  - intros x _. left. reflexivity.
  - exact srv2_decrypts.
  - reflexivity.
  - reflexivity.
  - reflexivity.
  - split; vm_compute; congruence.
Defined.

(** The exchange itself, evaluated. *)
Lemma demo_exchange :
  Store.load_all (demo_sync (st1, srv2)).1.1 = [sample_enc; other_enc] ∧
  Store.load_all (rm_table (demo_sync (st1, srv2)).1.2) = [other_enc; sample_enc] ∧
  (demo_sync (st1, srv2)).2 = Ok (1, [9%N]).
Proof. split_and!; vm_compute; reflexivity. Qed.

Definition settled : Store.t := Store.push_batch Store.empty [other_enc].

Lemma settled_sync_is_noop_witness : demo_sync (settled, srv2) = ((settled, srv2), Ok (0, [])).
Proof.
  apply (settled_sync_is_noop 100 Toy.key1 (λ l, l) (λ _, Toy.rng) (λ _ _, Toy.rng) settled srv2).
  - exact srv2_ok.
  - reflexivity.
  - reflexivity.
  - exact srv2_decrypts.
  - intros s _. assert (settled = rm_table srv2) as -> by (vm_compute; reflexivity). reflexivity.
Defined.

Lemma wrong_key_changes_nothing_witness :
  sync 100 Toy.key2 (λ l, l) (λ _, Toy.rng) (λ _ _, Toy.rng) (st1, srv2) = ((st1, srv2), Err WrongKey).
Proof.
  apply (wrong_key_changes_nothing 100 Toy.key2 (λ l, l) (λ _, Toy.rng) (λ _ _, Toy.rng) st1 srv2 other_enc).
  - exact srv2_ok.
  - reflexivity.
  - rewrite srv2_table. left.
  - discriminate.
  - intros y. rewrite srv2_table. intros ->%list_elem_of_singleton _. eexists. vm_compute. reflexivity.
Defined.
