(* ===== verification/Account.v ===== *)
(** * Accounts: the meta store, sessions, login and the key ([atuin-client/src/meta.rs], [auth.rs], [hub.rs],
    [login.rs], [register.rs], [logout.rs], [settings.rs], [atuin/src/command/client/account])

    A machine keeps two tokens in its meta store, of a sync server and of the Hub, the file with the key of the
    records, and the records. To log in stores a token, takes a key, re-encrypts the records where the key is a
    new one, and then asks the server whether the key reads what is there. Requests are an interface: a request
    changes the world and is answered by a status and what the bodies that the code knows decode to. *)
From stdpp Require Import pretty.
From S2P Require Import Prelude Text Record Status Rmp RmpWire Encryption SqliteStore Streams Packfile Server ApiClient Sync.

(** ** The meta store ([meta.rs]) *)

Module Meta.
Definition KEY_HOST_ID : string := "host_id".
Definition KEY_LAST_SYNC : string := "last_sync_time".
Definition KEY_LAST_VERSION_CHECK : string := "last_version_check_time".
Definition KEY_LATEST_VERSION : string := "latest_version".
Definition KEY_SESSION : string := "session".
Definition KEY_HUB_SESSION : string := "hub_session".
Definition KEY_FILES_MIGRATED : string := "files_migrated".
Definition LEGACY_SESSION_FILENAME : string := "session".

(** The table, by its key. *)
Abbreviation t := (gmap string string) (only parsing).
Definition get (key : string) (m : t) : option string := m !! key.
Definition set (key value : string) (m : t) : t := <[key := value]> m.
Definition delete (key : string) (m : t) : t := base.delete key m.

Section accessors.
(** UUIDs and times as texts. *)
Context (as_simple : HostId → string) (parse_uuid : string → option HostId).
Context (format_time : Z → string) (parse_time : string → result Z string).

(** [host_id]: what is stored, or a fresh one, which is stored; the reading and the storing are two
    statements. *)
Definition stored_host (m : t) : option (result HostId string) :=
  id ← get KEY_HOST_ID m; Some (ok_or (parse_uuid id) "failed to parse host ID").
Definition host_id (cached : option HostId) (fresh : HostId) (m : t) : t * result HostId string :=
  match cached with
  | Some id => (m, Ok id)
  | None => match stored_host m with Some r => (m, r) | None => (set KEY_HOST_ID (as_simple fresh) m, Ok fresh) end
  end.

Definition time_of (key : string) (m : t) : result Z string := match get key m with Some v => parse_time v | None => Ok 0 end.
Definition last_sync : t → result Z string := time_of KEY_LAST_SYNC.
Definition save_sync_time (now : Z) : t → t := set KEY_LAST_SYNC (format_time now).
Definition last_version_check : t → result Z string := time_of KEY_LAST_VERSION_CHECK.
Definition save_version_check_time (now : Z) : t → t := set KEY_LAST_VERSION_CHECK (format_time now).
Definition latest_version : t → option string := get KEY_LATEST_VERSION.
Definition save_latest_version (version : string) : t → t := set KEY_LATEST_VERSION version.
Definition session_token : t → option string := get KEY_SESSION.
Definition save_session (token : string) : t → t := set KEY_SESSION token.
Definition delete_session : t → t := delete KEY_SESSION.
Definition hub_session_token : t → option string := get KEY_HUB_SESSION.
Definition save_hub_session (token : string) : t → t := set KEY_HUB_SESSION token.
Definition delete_hub_session : t → t := delete KEY_HUB_SESSION.
Definition logged_in (m : t) : bool := bool_decide (is_Some (session_token m)) || bool_decide (is_Some (hub_session_token m)).
Definition hub_logged_in (m : t) : bool := bool_decide (is_Some (hub_session_token m)).

(** [migrate_files]; [file] is the text of a file of the data directory. *)
Definition migrate_one (file : string → option string) (name key : string) (valid : string → bool) (m : t) : t :=
  match file name with
  | None => m
  | Some value => let value := trim value in if bool_decide (value = "") || negb (valid value) then m else set key value m
  end.
Definition migrate_files (file : string → option string) (m : t) : t :=
  match get KEY_FILES_MIGRATED m with
  | Some _ => m
  | None =>
      let is_time s := match parse_time s with Ok _ => true | Err _ => false end in
      let m := migrate_one file "host_id" KEY_HOST_ID (λ s, bool_decide (is_Some (parse_uuid s))) m in
      let m := migrate_one file "last_sync_time" KEY_LAST_SYNC is_time m in
      let m := migrate_one file "last_version_check_time" KEY_LAST_VERSION_CHECK is_time m in
      let m := migrate_one file "latest_version" KEY_LATEST_VERSION (λ _, true) m in
      let m := migrate_one file LEGACY_SESSION_FILENAME KEY_SESSION (λ _, true) m in
      set KEY_FILES_MIGRATED "true" m
  end.
End accessors.
End Meta.

(** ** Where to authenticate ([settings.rs]) *)

Inductive SyncProtocol : Type := ProtoHub | ProtoLegacy | ProtoAuto.
Record SyncSettings : Type := mk_sync_settings { sync_protocol : SyncProtocol; sync_address : string; key_path : string }.
Inductive SyncAuth : Type := AuthLegacy (token : string) | AuthHub (token : string) | AuthHubViaCli (token : string) | NotLoggedIn (reason : string).
Inductive AuthToken : Type := Token (t : string) | Bearer (t : string).

Definition DEFAULT_SYNC_URL : string := "https://api.atuin.sh".
Definition DEFAULT_HUB_URL : string := "https://hub.atuin.sh".

Section settings.
(** The origin of a URL. *)
Context (origin : string → string).

Definition is_official_address (url : string) : bool :=
  bool_decide (origin url = origin DEFAULT_SYNC_URL) || bool_decide (origin url = origin DEFAULT_HUB_URL).
Definition is_hub_sync (st : SyncSettings) : bool :=
  match sync_protocol st with ProtoHub => true | ProtoLegacy => false | ProtoAuto => is_official_address (sync_address st) end.
Definition hub_endpoint (st : SyncSettings) : string :=
  if is_hub_sync st && negb (is_official_address (sync_address st)) then sync_address st else DEFAULT_HUB_URL.

(** [resolve_sync_auth] *)
Definition resolve_sync_auth (st : SyncSettings) (m : gmap string string) : gmap string string * SyncAuth :=
  if negb (is_hub_sync st) then
    (m, match Meta.session_token m with
        | Some token => AuthLegacy token
        | None => NotLoggedIn "Not logged in. Run 'atuin login' to authenticate with your sync server."
        end)
  else
    let via_cli m :=
      (m, match Meta.session_token m with
          | Some token => AuthHubViaCli token
          | None => NotLoggedIn "Not logged in. Run 'atuin login' or 'atuin register' to authenticate."
          end) in
    match Meta.hub_session_token m with
    | None => via_cli m
    | Some hub_token =>
        if starts_with "atapi_" hub_token then (m, AuthHub hub_token)
        else
          via_cli (match Meta.session_token m with
                   | None => Meta.delete_hub_session (Meta.save_session hub_token m)
                   | Some _ => Meta.delete_hub_session m
                   end)
    end.
End settings.

(** [into_auth_token] *)
Definition into_auth_token (a : SyncAuth) : result AuthToken string :=
  match a with AuthLegacy t | AuthHubViaCli t => Ok (Token t) | AuthHub t => Ok (Bearer t) | NotLoggedIn reason => Err reason end.

(** ** Requests *)

Inductive Request : Type :=
| LegacyLogin (username password : string)
| UserExists (username : string)
| LegacyRegister (username email password : string)
| LegacyPassword (token current new_ : string)
| LegacyDelete (token password : string)
| HubLogin (address username password : string) (totp : option string)
| HubRegister (address username email password : string)
| HubPassword (address token current new_ : string) (totp : option string)
| HubDelete (address token password : string) (totp : option string)
| HubCode (address : string)
| HubVerify (address code : string)
| HubLink (address token cli_token : string).

(** A status with what the body decodes to: [LoginResponse] and [RegisterResponse], an error with its reason
    and code, [CliCodeResponse], [CliVerifyResponse] with its token and error; and whether the version in the
    header will do. *)
Record Reply : Type := mk_reply {
  rp_status : Z; rp_version : result bool string; rp_session : result (string * option string) string;
  rp_error : option (string * option string); rp_code : result string string; rp_verify : result (option string * option string) string; rp_text : string
}.
Definition is_success (status : Z) : bool := (200 <=? status) && (status <? 300).

Class Service (W : Type) : Type := { send : Request → W → W * result Reply string; instant : W → Z; pause : Z → W → W }.

(** ** A machine *)

Record Machine (W : Type) : Type := mk_machine {
  mc_meta : gmap string string; mc_fs : Fs; mc_records : Store.t; mc_input : list string; mc_world : W
}.
Arguments mk_machine {W}. Arguments mc_meta {W}. Arguments mc_fs {W}. Arguments mc_records {W}. Arguments mc_input {W}. Arguments mc_world {W}.

Section errors.
Context `{Crypto}.
(** What a command fails with; [ExitWrongKey] is the end of the process. *)
Inductive Failure : Type :=
| Said (msg : string)
| KeyLoad (e : KeyFileLoadingError) | KeyStore (e : KeyFileStoringError) | KeyWrite | KeyText (e : MnemonicLoadingError)
| KeyGenerate (e : KeyFileLoadOrGenerateError) | ReencryptFailed (e : ReencryptionError)
| ExitWrongKey.
End errors.

(** Commands over a machine; [None] is fuel that ran out. *)
Section monad.
Context {W : Type} {E : Type}.
Definition acct (A : Type) : Type := Machine W → option (Machine W * result A E).
Definition ac_ret {A} (a : A) : acct A := λ M, Some (M, Ok a).
Definition ac_fail {A} (e : E) : acct A := λ M, Some (M, Err e).
Definition ac_bind {A B} (m : acct A) (k : A → acct B) : acct B := λ M,
  match m M with Some (M', Ok a) => k a M' | Some (M', Err e) => Some (M', Err e) | None => None end.
Definition ac_lift {A} (r : result A E) : acct A := λ M, Some (M, r).

(** Changes of one part. *)
Definition on_meta (f : gmap string string → gmap string string) : acct unit := λ M,
  Some (mk_machine (f (mc_meta M)) (mc_fs M) (mc_records M) (mc_input M) (mc_world M), Ok tt).
Definition on_fs {A F} (f : F → E) (m : stm Fs F A) : acct A := λ M,
  let '(fs, r) := m (mc_fs M) in Some (mk_machine (mc_meta M) fs (mc_records M) (mc_input M) (mc_world M), map_err f r).
Definition on_records {A F} (f : F → E) (m : stm Store.t F A) : acct A := λ M,
  let '(st, r) := m (mc_records M) in Some (mk_machine (mc_meta M) (mc_fs M) st (mc_input M) (mc_world M), map_err f r).
(** [read_user_input]: a line of the input, or its end. *)
Definition read_user_input : acct (option string) := λ M,
  match mc_input M with
  | [] => Some (M, Ok None)
  | l :: input => Some (mk_machine (mc_meta M) (mc_fs M) (mc_records M) input (mc_world M), Ok (Some l))
  end.
End monad.
Arguments acct : clear implicits.
Notation "'let@' x ':=' m 'in' k" := (ac_bind m (fun x => k)) (at level 10, x pattern, m at level 100, k at level 200) : atuin_scope.

(** ** The clients ([auth.rs], [api_client.rs]) *)

Inductive AuthResponse : Type := AuthSuccess (session : string) (auth_type : option string) | TwoFactorRequired.
Inductive MutateResponse : Type := MutateSuccess | MutateTwoFactor.
Inductive AnyAuthClient : Type := Legacy (session_token : option string) | Hub (address : string) (hub_token : option string).

Section replies.
(** A status as it is shown. *)
Context (status_text : Z → string).

(** [handle_resp_error] of [api_client.rs] *)
Definition handle_resp_error (url : string) (r : Reply) : result unit string :=
  let status := rp_status r in
  if status =? 503 then Err "Service unavailable: check https://status.atuin.sh (or get in touch with your host)"
  else if status =? 429 then Err "Rate limited; please wait before doing that again"
  else if is_success status then Ok tt
  else
    match rp_error r with
    | Some (reason, _) =>
        if (400 <=? status) && (status <? 500)
        then Err ("Invalid request to the service at " ++ url ++ ", " ++ status_text status ++ " - " ++ reason ++ ".")%string
        else Err ("There was an error with the atuin sync service at " ++ url ++ ", server error " ++ status_text status ++ ": " ++ reason ++ "." ++
                  String line_feed "If the problem persists, contact the host")%string
    | None =>
        Err ("There was an error with the atuin sync service at " ++ url ++ ", Status " ++ pretty status ++ "." ++
             String line_feed ("Response body: " ++ rp_text r ++ String line_feed "If the problem persists, contact the host"))%string
    end.

(** The session of an accepted [login] or [register]; the sync server names no kind of token. *)
Definition legacy_session (url mismatch : string) (r : Reply) : result (string * option string) string :=
  let? _ := handle_resp_error url r in
  let? ok := rp_version r in
  if ok : bool then rp_session r else Err mismatch.
Definition legacy_response (s : string * option string) : AuthResponse :=
  AuthSuccess s.1 (match s.2 with Some a => Some a | None => Some "cli"%string end).
Definition legacy_mutated (wrong : string) (r : Reply) : result MutateResponse string :=
  if rp_status r =? 200 then Ok MutateSuccess
  else if rp_status r =? 401 then Err wrong
  else if rp_status r =? 403 then Err "invalid login details"
  else Err "unknown error".

Definition hub_logged (r : Reply) : result AuthResponse string :=
  if is_success (rp_status r) then let? s := rp_session r in Ok (AuthSuccess s.1 s.2)
  else
    match rp_error r with
    | Some (reason, code) =>
        if rp_status r =? 403 then (if decide (code = Some "2fa_required") then Ok TwoFactorRequired else Err reason)
        else if rp_status r =? 401 then Err "invalid credentials" else Err ("Hub login failed with status " ++ status_text (rp_status r))%string
    | None => if rp_status r =? 401 then Err "invalid credentials" else Err ("Hub login failed with status " ++ status_text (rp_status r))%string
    end.
Definition hub_registered (r : Reply) : result AuthResponse string :=
  if is_success (rp_status r) then let? s := rp_session r in Ok (AuthSuccess s.1 s.2)
  else match rp_error r with Some (reason, _) => Err reason | None => Err ("Hub registration failed with status " ++ status_text (rp_status r))%string end.
Definition hub_mutated (wrong failed : string) (r : Reply) : result MutateResponse string :=
  if is_success (rp_status r) then Ok MutateSuccess
  else
    match rp_error r with
    | Some (reason, code) =>
        if decide (code = Some "2fa_required") then Ok MutateTwoFactor
        else if decide (code = Some "invalid_2fa_code") then Err "invalid two-factor code"
        else Err reason
    | None =>
        if rp_status r =? 401 then Err wrong
        else if rp_status r =? 403 then Err "invalid login details"
        else Err (failed ++ " failed with status " ++ status_text (rp_status r))%string
    end.

(** The token of an authenticated request. *)
Definition hub_token_of (hub_token : option string) : result string string :=
  match hub_token with
  | None => Err "Not logged in to Atuin Hub. Please run 'atuin login' to authenticate."
  | Some t =>
      if starts_with "atapi_" t then Ok t
      else Err "Your Hub session token is invalid. Please run 'atuin login' to re-authenticate with Atuin Hub."
  end.
End replies.

Section commands.
Context `{Rmp, Crypto, PackLib} {R W : Type} `{Remote R, Service W} (origin : string → string) (status_text : Z → string) (st : SyncSettings).
(** The order of a hash map, the nonces of a re-encryption, and the client of the sync server, with what
    the server is at each check of a key. *)
Context (hash_order : list RecordSeriesKey → list RecordSeriesKey) (nonce : RecordId → N) (connect : AuthToken → W → result (nat → R) string).
Abbreviation acct := (acct W Failure) (only parsing).

Definition request (q : Request) : acct Reply := λ M,
  let '(w, r) := send q (mc_world M) in Some (mk_machine (mc_meta M) (mc_fs M) (mc_records M) (mc_input M) w, map_err Said r).
Definition said {A} (r : result A string) : acct A := ac_lift (map_err Said r).
Definition gets {A} (f : Machine W → A) : acct A := λ M, Some (M, Ok (f M)).

(** [auth_client] *)
Definition auth_client (m : gmap string string) : AnyAuthClient :=
  if is_hub_sync origin st then Hub (hub_endpoint origin st) (Meta.hub_session_token m) else Legacy (Meta.session_token m).

(** [AuthClient] *)
Definition auth_login (c : AnyAuthClient) (username password : string) (totp : option string) : acct AuthResponse :=
  match c with
  | Legacy _ =>
      let@ r := request (LegacyLogin username password) in
      let@ s := said (legacy_session status_text (sync_address st ++ "/login")%string "Could not login due to version mismatch" r) in
      ac_ret (legacy_response s)
  | Hub address _ => let@ r := request (HubLogin address username password totp) in said (hub_logged status_text r)
  end.
(** [register] of [api_client.rs] *)
Definition api_register (username email password : string) : acct (string * option string) :=
  let@ r := request (UserExists username) in
  if is_success (rp_status r) then ac_fail (Said "username already in use")
  else
    let@ r := request (LegacyRegister username email password) in
    said (legacy_session status_text (sync_address st ++ "/register")%string "could not register user due to version mismatch" r).
Definition auth_register (c : AnyAuthClient) (username email password : string) : acct AuthResponse :=
  match c with
  | Legacy _ => let@ s := api_register username email password in ac_ret (legacy_response s)
  | Hub address _ => let@ r := request (HubRegister address username email password) in said (hub_registered status_text r)
  end.
Definition auth_change_password (c : AnyAuthClient) (current new_ : string) (totp : option string) : acct MutateResponse :=
  match c with
  | Legacy token =>
      let@ token := said (ok_or token "Not logged in") in
      let@ r := request (LegacyPassword token current new_) in said (legacy_mutated "current password is incorrect" r)
  | Hub address token =>
      let@ token := said (hub_token_of token) in
      let@ r := request (HubPassword address token current new_ totp) in
      said (hub_mutated status_text "current password is incorrect" "Hub password change" r)
  end.
Definition auth_delete_account (c : AnyAuthClient) (password : string) (totp : option string) : acct MutateResponse :=
  match c with
  | Legacy token =>
      let@ token := said (ok_or token "Not logged in") in
      let@ r := request (LegacyDelete token password) in said (legacy_mutated "password is incorrect" r)
  | Hub address token =>
      let@ token := said (hub_token_of token) in
      let@ r := request (HubDelete address token password totp) in
      said (hub_mutated status_text "password is incorrect" "Hub account deletion" r)
  end.

(** ** The Hub ([hub.rs]) *)

Inductive HubAuthStatus : Type := Pending | Complete (token : string) | FailedAuth (error : string).
(** In milliseconds. *)
Definition DEFAULT_POLL_INTERVAL : Z := 2000.
Definition DEFAULT_AUTH_TIMEOUT : Z := 600000.

(** [handle_resp_error] and [status_message] *)
Definition hub_checked (r : Reply) : result unit string :=
  let status := rp_status r in
  if is_success status then Ok tt
  else if status =? 503 then Err "Service unavailable: check https://status.atuin.sh"
  else if status =? 429 then Err "Rate limited; please wait before trying again"
  else match rp_error r with
       | Some (reason, _) => Err ("Hub error: " ++ status_text status ++ " - " ++ reason)%string
       | None => Err ("Hub request failed with status: " ++ status_text status)%string
       end.

(** [poll]: an error of the request is waited for too. *)
Definition poll_status (r : result Reply string) : HubAuthStatus :=
  match r with
  | Ok r =>
      if is_success (rp_status r) then
        match rp_verify r with
        | Ok (Some token, _) => Complete token
        | Ok (None, Some error) => FailedAuth error
        | Ok (None, None) | Err _ => Pending
        end
      else Pending
  | Err _ => Pending
  end.

(** [wait_for_completion] *)
Fixpoint wait_for_completion (fuel : nat) (address code : string) (start timeout poll_interval : Z) : acct string := λ M,
  match fuel with
  | O => None
  | S fuel =>
      if timeout <? instant (mc_world M) - start then Some (M, Err (Said "Authentication timed out. Please try again."))
      else
        let '(w, r) := send (HubVerify address code) (mc_world M) in
        let M w := mk_machine (mc_meta M) (mc_fs M) (mc_records M) (mc_input M) w in
        match poll_status r with
        | Complete token => Some (M w, Ok token)
        | FailedAuth error => Some (M w, Err (Said ("Authentication failed: " ++ error)%string))
        | Pending => wait_for_completion fuel address code start timeout poll_interval (M (pause poll_interval w))
        end
  end.
Definition poll_fuel (timeout poll_interval : Z) : nat := S (S (Z.to_nat (timeout / poll_interval))).

(** [HubAuthSession::start], the wait and [save_session]: what [ensure_hub_session] does. *)
Definition ensure_hub_session (address : string) : acct unit :=
  let@ r := request (HubCode address) in
  let@ _ := said (hub_checked r) in
  let@ code := said (rp_code r) in
  let@ start := gets (λ M, instant (mc_world M)) in
  let@ token := wait_for_completion (poll_fuel DEFAULT_AUTH_TIMEOUT DEFAULT_POLL_INTERVAL) address code start DEFAULT_AUTH_TIMEOUT DEFAULT_POLL_INTERVAL in
  on_meta (Meta.save_hub_session token).

(** [link_account] *)
Definition link_account (address cli_token : string) : acct unit :=
  let@ hub_token := gets (λ M, Meta.hub_session_token (mc_meta M)) in
  match hub_token with
  | None => ac_fail (Said "Not logged in to Hub - cannot link account")
  | Some hub_token =>
      let@ r := request (HubLink address hub_token cli_token) in
      if rp_status r =? 409 then ac_ret tt else said (hub_checked r)
  end.

(** ** Logging in ([account/login.rs]) *)

Record LoginCmd : Type := mk_login {
  l_username : option string; l_password : option string; l_key : option string; l_totp : option string; l_from_registration : bool
}.
(** What is typed at the password prompt, and whether the input is a terminal. *)
Context (typed_password : string) (terminal : bool).

Definition interactive (c : LoginCmd) : bool := negb (bool_decide (is_Some (l_key c))) && terminal.
Definition or_user_input (value : option string) : acct string :=
  match value with Some v => ac_ret v | None => let@ l := read_user_input in ac_ret (default "" l) end.

Definition load_key : acct key := λ M, Some (M, map_err KeyLoad (Key.try_load_from_path (key_path st) (mc_fs M))).

(** [store_key] *)
Definition store_key (k : key) : acct unit :=
  let@ exists_ := gets (λ M, bool_decide (is_Some (fs_entries (mc_fs M) !! key_path st))) in
  if negb exists_ then on_fs KeyStore (Key.try_write_path k (key_path st))
  else
    let@ current_key := load_key in
    if decide (k = current_key) then ac_ret tt
    else
      let@ _ := on_records ReencryptFailed (Store.re_encrypt nonce current_key k) in
      on_fs (λ _, KeyWrite) (Key.overwrite_path k (key_path st)).

(** The loop of [prompt_and_store_key]; a turn takes the flag or a line of the input. *)
Fixpoint key_prompt (fuel : nat) (interactive : bool) (flag_key : option string) : acct unit := λ M,
  match fuel with
  | O => None
  | S fuel =>
      (let@ k := match flag_key with Some k => ac_ret (Some k) | None => read_user_input end in
       match k with
       | None => ac_fail (Said "No encryption key provided")
       | Some text =>
           if decide (text = "") then
             let@ exists_ := gets (λ M, bool_decide (is_Some (fs_entries (mc_fs M) !! key_path st))) in
             if negb exists_ then
               if interactive then key_prompt fuel interactive None
               else ac_fail (Said "No key provided and no existing key file found. Please use 'atuin key' on your other machine, or recover your key from a backup")
             else let@ _ := load_key in ac_ret tt
           else
             match Key.try_from_mnemonic text with
             | Ok k => store_key k
             | Err e => if interactive then key_prompt fuel interactive None else ac_fail (KeyText e)
             end
       end) M
  end.
Definition prompt_and_store_key (c : LoginCmd) : acct unit := λ M, key_prompt (2 + length (mc_input M)) (interactive c) (l_key c) M.

(** The loop of the headless login. *)
Fixpoint login_loop (fuel : nat) (c : AnyAuthClient) (username password : string) (totp : option string) : acct (string * option string) := λ M,
  match fuel with
  | O => None
  | S fuel =>
      (let@ r := auth_login c username password totp in
       match r with
       | AuthSuccess session auth_type => ac_ret (session, auth_type)
       | TwoFactorRequired => let@ code := or_user_input None in login_loop fuel c username password (Some code)
       end) M
  end.
Definition is_hub_token (session : string) (auth_type : option string) : bool := bool_decide (auth_type = Some "hub"%string) || starts_with "atapi_" session.
Definition save_token (session : string) (auth_type : option string) : acct unit :=
  on_meta (if is_hub_token session auth_type then Meta.save_hub_session session else Meta.save_session session).

(** [run_hub_login] *)
Definition run_hub_login (fuel : nat) (c : LoginCmd) : acct unit :=
  let endpoint := hub_endpoint origin st in
  let@ _ :=
    match l_username c with
    | Some username =>
        let@ client := gets (λ M, auth_client (mc_meta M)) in
        let@ _ := prompt_and_store_key c in
        let@ s := login_loop fuel client username (default typed_password (l_password c)) (l_totp c) in
        save_token s.1 s.2
    | None =>
        let@ _ := if l_from_registration c then (let@ _ := load_key in ac_ret tt) else prompt_and_store_key c in
        ensure_hub_session endpoint
    end in
  let@ cli_token := gets (λ M, Meta.session_token (mc_meta M)) in
  match cli_token with
  | None => ac_ret tt
  | Some cli_token => λ M, match link_account endpoint cli_token M with Some (M, _) => Some (M, Ok tt) | None => None end
  end.

(** [run_legacy_login] *)
Definition run_legacy_login (c : LoginCmd) : acct unit :=
  let@ username := or_user_input (l_username c) in
  let@ _ := prompt_and_store_key c in
  let@ client := gets (λ M, auth_client (mc_meta M)) in
  let@ r := auth_login client username (default typed_password (l_password c)) None in
  match r with
  | AuthSuccess session _ => on_meta (Meta.save_session session)
  | TwoFactorRequired => ac_fail (Said "unexpected two-factor requirement from legacy server")
  end.

(** [logout_wrong_key] *)
Definition logout_wrong_key {A} : acct A :=
  let@ _ := on_meta (λ m, Meta.delete_hub_session (Meta.delete_session m)) in ac_fail ExitWrongKey.

(** [check_encryption_key] *)
Definition check_encryption_key (k : key) (rm : R) : option SyncError :=
  match record_status rm with
  | Err e => Some (RemoteRequestError (ClientReport e))
  | Ok idx => check_key_against_index k hash_order rm idx
  end.

(** The loop of [verify_key_against_remote]; a turn takes a line of the input. *)
Fixpoint verify_loop (fuel : nat) (interactive : bool) (rm : nat → R) (turn : nat) (k : key) : acct unit := λ M,
  match fuel with
  | O => None
  | S fuel =>
      match check_encryption_key k (rm turn) with
      | None => store_key k M
      | Some WrongKey =>
          if negb interactive then logout_wrong_key M
          else
            (let@ input := read_user_input in
             match input with
             | Some text =>
                 if decide (text = "") then logout_wrong_key
                 else match Key.try_from_mnemonic text with
                      | Ok candidate => verify_loop fuel interactive rm (S turn) candidate
                      | Err _ => verify_loop fuel interactive rm (S turn) k
                      end
             | None => logout_wrong_key
             end) M
      | Some _ => Some (M, Ok tt)
      end
  end.
Definition verify_key_against_remote (interactive : bool) : acct unit :=
  let@ k := load_key in
  let@ auth := λ M, (let '(m, a) := resolve_sync_auth origin st (mc_meta M) in
                     Some (mk_machine m (mc_fs M) (mc_records M) (mc_input M) (mc_world M), Ok a)) in
  let@ token := said (into_auth_token auth) in
  let@ rm := λ M, Some (M, map_err Said (connect token (mc_world M))) in
  λ M, verify_loop (2 + length (mc_input M)) interactive rm 0 k M.

(** [Cmd::run] of the login; [true] where it has logged in. *)
Definition run_login (fuel : nat) (c : LoginCmd) : acct bool :=
  let@ auth := λ M, (let '(m, a) := resolve_sync_auth origin st (mc_meta M) in
                     Some (mk_machine m (mc_fs M) (mc_records M) (mc_input M) (mc_world M), Ok a)) in
  match auth with
  | AuthHub _ | AuthLegacy _ => ac_ret false
  | AuthHubViaCli _ | NotLoggedIn _ =>
      let@ _ := if is_hub_sync origin st then run_hub_login fuel c else run_legacy_login c in
      let@ _ := verify_key_against_remote (interactive c) in
      ac_ret true
  end.

(** ** The other commands ([account], [logout.rs], [register.rs], [login.rs]) *)

Record RegisterCmd : Type := mk_register { r_username : option string; r_password : option string; r_email : option string }.
(** The key that would be generated. *)
Context (generated : key).
Definition load_or_generate : acct key := on_fs KeyGenerate (Key.try_load_or_generate generated (λ fs, fs) (key_path st)).

Definition legacy_register (c : RegisterCmd) : acct unit :=
  let@ username := or_user_input (r_username c) in
  let@ email := or_user_input (r_email c) in
  let password := default typed_password (r_password c) in
  if decide (password = "") then ac_fail (Said "please provide a password")
  else
    let@ s := api_register username email password in
    let@ _ := on_meta (Meta.save_session s.1) in
    let@ _ := load_or_generate in ac_ret tt.
Definition run_register (fuel : nat) (c : RegisterCmd) : acct bool :=
  let@ auth := λ M, (let '(m, a) := resolve_sync_auth origin st (mc_meta M) in
                     Some (mk_machine m (mc_fs M) (mc_records M) (mc_input M) (mc_world M), Ok a)) in
  match auth with
  | AuthHub _ | AuthLegacy _ | AuthHubViaCli _ => ac_ret false
  | NotLoggedIn _ =>
      if is_hub_sync origin st then
        match r_username c, r_email c, r_password c with
        | Some username, Some email, Some password =>
            let@ client := gets (λ M, auth_client (mc_meta M)) in
            if decide (password = "") then ac_fail (Said "please provide a password")
            else
              let@ r := auth_register client username email password in
              match r with
              | AuthSuccess session auth_type =>
                  let@ _ := save_token session auth_type in
                  let@ _ := load_or_generate in ac_ret true
              | TwoFactorRequired => ac_fail (Said "unexpected two-factor requirement during registration")
              end
        | _, _, _ => run_login fuel (mk_login None None None None true)
        end
      else let@ _ := legacy_register c in ac_ret true
  end.

(** [logout] *)
Definition logout : acct bool := λ M,
  if Meta.logged_in (mc_meta M)
  then (let@ _ := on_meta (λ m, Meta.delete_hub_session (Meta.delete_session m)) in ac_ret true) M
  else Some (M, Ok false).

Fixpoint mutate_loop (fuel : nat) (op : option string → acct MutateResponse) (totp : option string) : acct unit := λ M,
  match fuel with
  | O => None
  | S fuel =>
      (let@ r := op totp in
       match r with
       | MutateSuccess => ac_ret tt
       | MutateTwoFactor => let@ code := or_user_input None in mutate_loop fuel op (Some code)
       end) M
  end.

(** [Cmd::run] of [change_password.rs] and of [delete.rs]; what is typed at the prompts is an argument. *)
Definition run_change_password (fuel : nat) (current new_ : option string) (typed_current typed_new : string) (totp : option string) : acct unit :=
  let@ logged := gets (λ M, Meta.logged_in (mc_meta M)) in
  if negb logged then ac_fail (Said "You are not logged in")
  else
    let@ client := gets (λ M, auth_client (mc_meta M)) in
    let current := default typed_current current in
    if decide (current = "") then ac_fail (Said "please provide the current password")
    else
      let new_ := default typed_new new_ in
      if decide (new_ = "") then ac_fail (Said "please provide a new password")
      else mutate_loop fuel (auth_change_password client current new_) totp.
Definition run_delete (fuel : nat) (password totp : option string) : acct unit :=
  let@ logged := gets (λ M, Meta.logged_in (mc_meta M)) in
  if negb logged then ac_fail (Said "You are not logged in")
  else
    let@ client := gets (λ M, auth_client (mc_meta M)) in
    let password := default typed_password password in
    if decide (password = "") then ac_fail (Said "please provide your password")
    else
      let@ _ := mutate_loop fuel (auth_delete_account client password) totp in
      on_meta (λ m, Meta.delete_hub_session (Meta.delete_session m)).

(** [run] of [link.rs] *)
Definition run_link : acct unit :=
  let@ cli_token := gets (λ M, Meta.session_token (mc_meta M)) in
  let@ hub_token := gets (λ M, Meta.hub_session_token (mc_meta M)) in
  match cli_token with
  | None => ac_fail (Said "No CLI session found. Please log in first with 'atuin login'.")
  | Some cli_token =>
      let hub_address := hub_endpoint origin st in
      let@ _ := match hub_token with Some _ => ac_ret tt | None => ensure_hub_session hub_address end in
      link_account hub_address cli_token
  end.

(** [login] of [login.rs] and [register_classic] of [register.rs], which other programs call. *)
Definition client_login (username password key_text : string) : acct string :=
  let@ k := ac_lift (map_err KeyText (Key.try_from_mnemonic key_text)) in
  let@ _ := store_key k in
  let@ r := request (LegacyLogin username password) in
  let@ s := said (legacy_session status_text (sync_address st ++ "/login")%string "Could not login due to version mismatch" r) in
  let@ _ := on_meta (Meta.save_session s.1) in ac_ret s.1.
Definition register_classic (username email password : string) : acct string :=
  let@ s := api_register username email password in
  let@ _ := on_meta (Meta.save_session s.1) in
  let@ _ := load_or_generate in ac_ret s.1.
End commands.

(** ** Sessions *)

Section sessions.
Context (origin : string → string) (st : SyncSettings).
Abbreviation resolve := (resolve_sync_auth origin st).

Lemma session_after_repair m : Meta.session_token (Meta.delete_hub_session m) = Meta.session_token m.
Proof. unfold Meta.session_token, Meta.delete_hub_session, Meta.get, Meta.delete. by rewrite lookup_delete_ne. Qed.
Lemma hub_after_repair m : Meta.hub_session_token (Meta.delete_hub_session m) = None.
Proof. apply lookup_delete_eq. Qed.

(** Finding out how to authenticate leaves the Hub's slot with a token of the Hub or empty, moves a token that
    was put there by mistake where there is room for it, changes whether the machine is logged in in no case,
    and has nothing left to do the second time. *)
Theorem resolving_repairs_tokens m :
  let '(m', a) := resolve m in
  resolve m' = (m', a) ∧ Meta.logged_in m' = Meta.logged_in m ∧
  (∀ key, key ≠ Meta.KEY_SESSION → key ≠ Meta.KEY_HUB_SESSION → m' !! key = m !! key) ∧
  (is_hub_sync origin st = true →
    (∀ t, Meta.hub_session_token m' = Some t → starts_with "atapi_" t = true) ∧
    (match a with NotLoggedIn _ => Meta.logged_in m = false | _ => Meta.logged_in m = true end)).
Proof.
  unfold resolve_sync_auth. destruct (is_hub_sync origin st) eqn:Eh; cbn [negb]; [|done]. unfold Meta.logged_in.
  destruct (Meta.hub_session_token m) as [t|] eqn:Et.
  - destruct (starts_with "atapi_" t) eqn:Ea.
    + rewrite Et, Ea. split_and!; [done|done|done|]. intros _. split; [congruence|]. by rewrite orb_true_r.
    + destruct (Meta.session_token m) as [c|] eqn:Ec.
      * rewrite hub_after_repair, session_after_repair, Ec. split_and!; [done|done| |].
        -- intros key _ Hk. unfold Meta.delete_hub_session, Meta.delete. by rewrite lookup_delete_ne.
        -- intros _. split; [done|done].
      * assert (Meta.session_token (Meta.save_session t m) = Some t) as Es by apply lookup_insert_eq.
        rewrite hub_after_repair, session_after_repair, Es. split_and!; [done|done| |].
        -- intros key Hk1 Hk2. unfold Meta.delete_hub_session, Meta.delete, Meta.save_session, Meta.set. by rewrite lookup_delete_ne, lookup_insert_ne.
        -- intros _. split; [done|done].
  - rewrite Et. split_and!; [done|done|done|]. intros _. split; [congruence|]. by destruct (Meta.session_token m).
Qed.

Lemma logged_out m : Meta.logged_in (Meta.delete_hub_session (Meta.delete_session m)) = false.
Proof.
  unfold Meta.logged_in. rewrite hub_after_repair, session_after_repair. unfold Meta.session_token, Meta.delete_session, Meta.get, Meta.delete. by rewrite lookup_delete_eq.
Qed.
End sessions.

(** Files are migrated once. *)
Lemma migrated_once parse_uuid parse_time file file' m :
  Meta.migrate_files parse_uuid parse_time file' (Meta.migrate_files parse_uuid parse_time file m) = Meta.migrate_files parse_uuid parse_time file m.
Proof.
  unfold Meta.migrate_files. destruct (Meta.get Meta.KEY_FILES_MIGRATED m) as [v|] eqn:E; [by rewrite E|].
  unfold Meta.get at 1, Meta.set at 1. by rewrite lookup_insert_eq.
Qed.

(** A process keeps its host id, and so does the next one. *)
Lemma host_id_stays as_simple parse_uuid cached fresh fresh' m m' id :
  (∀ u, parse_uuid (as_simple u) = Some u) → cached = None →
  Meta.host_id as_simple parse_uuid cached fresh m = (m', Ok id) →
  Meta.host_id as_simple parse_uuid (Some id) fresh' m' = (m', Ok id) ∧ Meta.host_id as_simple parse_uuid None fresh' m' = (m', Ok id).
Proof.
  intros Hu -> Hh. split; [done|]. unfold Meta.host_id, Meta.stored_host, Meta.get in *. destruct (m !! Meta.KEY_HOST_ID) as [v|] eqn:E; cbn in *.
  - injection Hh as <- Hr. by rewrite E; cbn; rewrite Hr.
  - injection Hh as <- <-. unfold Meta.set. rewrite lookup_insert_eq. cbn. by rewrite Hu.
Qed.

(** ** The key and the records *)

Section keys.
Context `{RmpLaws, CryptoLaws, PackLib} {R W : Type} `{Remote R, Service W} (st : SyncSettings).
Context (hash_order : list RecordSeriesKey → list RecordSeriesKey) (nonce : RecordId → N).
Abbreviation store_key := (store_key (W := W) st nonce).
Abbreviation verify_loop := (verify_loop (W := W) st hash_order nonce).
Abbreviation check_encryption_key := (check_encryption_key hash_order).

Definition holds_key (M : Machine W) (k : key) : Prop := Key.try_load_from_path (key_path st) (mc_fs M) = Ok k.
Definition readable (k : key) (s : Store.t) : Prop := ∀ r, r ∈ Store.load_all s → ∃ p, decrypt k r = Ok p.
Definition plain (k : key) (s : Store.t) : list (result (record (list Z)) DecryptionError) := decrypt k <$> Store.load_all s.

(** A machine with a key. *)
Record machine_ok (k : key) (M : Machine W) : Prop := mk_machine_ok { mo_wf : store_wf (mc_records M); mo_key : holds_key M k }.

(** A record whose key was wrapped again reads the same, or fails the same way. *)
Lemma rewrapped_reads n k k' (r : enc_record) d : reencrypt_sync n (r_data r) k k' = Ok d → decrypt k' (with_data d r) = decrypt k r.
Proof.
  unfold reencrypt_sync, decrypt, decrypt_sync. change (additional_data (with_data d r)) with (additional_data r). change (r_data (with_data d r)) with d.
  destruct (cek_decrypt (cek (r_data r)) k) as [c|e]; cbn [map_err rbind]; [|done].
  destruct (cek_roundtrip n c k') as (s & Hs & Hs'). rewrite Hs. cbn [map_err rbind]. intros [= <-]. cbn [cek raw]. rewrite Hs'.
  cbn [map_err rbind]. by repeat (destruct (map_err _ _); cbn [rbind]; [|done]).
Qed.

Lemma re_encrypt_plain k k' s s' : store_wf s → Store.re_encrypt nonce k k' s = (s', Ok tt) → store_wf s' ∧ plain k' s' = plain k s.
Proof.
  intros Hwf Hre. destruct (re_encrypt_Ok_inv nonce k k' s s' Hwf Hre) as [Hwf' Hall]. split; [done|]. unfold plain.
  induction Hall as [|r r' l l' (d & -> & Hd) _ IH]; [done|]. rewrite !fmap_cons, IH. by rewrite (rewrapped_reads _ _ _ _ _ Hd).
Qed.

(** What taking a key over comes to on a machine with the key [k0]. Where it succeeds the key is in the file, and
    every record reads under it as it did under the old one. It fails on a key that is not the old one only: where a
    record does not read under the old key, and nothing changes, or where the key file cannot be written, and the
    records are under the new key all the same. *)
Definition taken_over (k0 k : key) (M M' : Machine W) (r : result unit Failure) : Prop :=
  mc_meta M' = mc_meta M ∧ mc_world M' = mc_world M ∧
  match r with
  | Ok _ => machine_ok k M' ∧ plain k (mc_records M') = plain k0 (mc_records M)
  | Err (ReencryptFailed _) => k ≠ k0 ∧ mc_fs M' = mc_fs M ∧ mc_records M' = mc_records M ∧ ~ readable k0 (mc_records M)
  | Err KeyWrite => k ≠ k0 ∧ mc_fs M' = mc_fs M ∧ creatable (mc_fs M) (key_path st) = false ∧ plain k (mc_records M') = plain k0 (mc_records M)
  | Err _ => False
  end.

Lemma store_key_spec k k0 M : is_key k → machine_ok k0 M → ∃ M' r, store_key k M = Some (M', r) ∧ taken_over k0 k M M' r.
Proof.
  intros Hk [Hwf Hkey]. unfold Account.store_key, ac_bind, gets, load_key. unfold holds_key in Hkey.
  assert (is_Some (fs_entries (mc_fs M) !! key_path st)) as He.
  { unfold Key.try_load_from_path in Hkey. by destruct (fs_entries (mc_fs M) !! key_path st). }
  rewrite (bool_decide_eq_true_2 _ He). cbn [negb]. rewrite Hkey. cbn [map_err].
  destruct (decide (k = k0)) as [->|Hne]; [exists M, (Ok tt); split; [done|]; split_and!; try done; by split|]. unfold on_records.
  destruct (Store.re_encrypt nonce k0 k (mc_records M)) as [s' [[]|e]] eqn:Hs'; cbn [map_err].
  - destruct (re_encrypt_plain k0 k _ _ Hwf Hs') as (Hwf' & Hp). unfold on_fs, Key.overwrite_path, Key.fs_write. cbn [mc_fs].
    destruct (creatable (mc_fs M) (key_path st)) eqn:Hc; cbn [map_err]; eexists _, _; (split; [reflexivity|]); [|by split_and!].
    split_and!; [done|done| |done]. split; [done|]. unfold holds_key, Key.try_load_from_path. cbn [mc_fs fs_entries]. rewrite lookup_insert_eq. cbn.
    by rewrite (key_decode_encode k) by (done || by apply trim_end_graphic_string, b64std_graphic).
  - eexists _, _. split; [reflexivity|]. pose proof (re_encrypt_Err_unchanged _ _ _ _ _ _ Hs'). split_and!; [done..|].
    intros Hr. destruct (re_encrypt_total nonce k0 k (mc_records M) Hr). congruence.
Qed.

(** What the check of the key comes to. A key that the server has confirmed is taken over, as above. Where the server
    could not be asked nothing changes. Where no right key was given the machine is logged out, with its key and its
    records as they were. *)
Definition verified (k0 : key) (rm : nat → R) (M M' : Machine W) (r : result unit Failure) : Prop :=
  (∃ i k, check_encryption_key k (rm i) = None ∧ taken_over k0 k M M' r) ∨
  (∃ i k e, e ≠ WrongKey ∧ check_encryption_key k (rm i) = Some e ∧ r = Ok tt ∧
    mc_meta M' = mc_meta M ∧ mc_fs M' = mc_fs M ∧ mc_records M' = mc_records M ∧ mc_world M' = mc_world M) ∨
  (r = Err ExitWrongKey ∧ Meta.logged_in (mc_meta M') = false ∧ mc_fs M' = mc_fs M ∧ mc_records M' = mc_records M ∧ mc_world M' = mc_world M).

Lemma logout_verified k0 rm (M M' : Machine W) :
  mc_fs M' = mc_fs M → mc_records M' = mc_records M → mc_world M' = mc_world M → ∃ M'' r, logout_wrong_key M' = Some (M'', r) ∧ verified k0 rm M M'' r.
Proof.
  intros E1 E2 E3. unfold logout_wrong_key, ac_bind, on_meta, ac_fail. eexists _, _. split; [reflexivity|]. right. right.
  split_and!; [done|apply logged_out|done..].
Qed.

End keys.

(** ** Waiting for the browser *)

Class ServiceLaws (W : Type) `{Service W} : Prop := {
  instant_send q w : instant w ≤ instant (send q w).1;
  instant_pause t w : 0 ≤ t → instant w + t ≤ instant (pause t w)
}.

Section waiting.
Context `{Crypto} {W : Type} `{ServiceLaws W}.

Lemma poll_fuel_enough timeout poll : 0 < poll → 0 ≤ timeout → timeout < (Z.of_nat (poll_fuel timeout poll) - 1) * poll.
Proof. intros Hp Ht. unfold poll_fuel. pose proof (Z.div_mod timeout poll). pose proof (Z.mod_pos_bound timeout poll Hp). pose proof (Z.div_pos timeout poll). nia. Qed.

Lemma wait_returns fuel address code start timeout poll M :
  0 < poll → (0 < fuel)%nat → timeout < instant (mc_world M) - start + (Z.of_nat fuel - 1) * poll →
  is_Some (wait_for_completion (W := W) fuel address code start timeout poll M).
Proof.
  intros Hp. revert M. induction fuel as [|fuel IH]; intros M Hf Ht; [lia|]. cbn [wait_for_completion].
  destruct (Z.ltb_spec timeout (instant (mc_world M) - start)); [by eexists|]. pose proof (instant_send (HubVerify address code) (mc_world M)) as Hs.
  destruct (send _ _) as [w r]. cbn [fst] in Hs. destruct (poll_status r); [|by eexists..].
  pose proof (instant_pause poll w). apply IH; [|cbn [mc_world]]; nia.
Qed.

(** Waiting for an authorization in the browser ends, whatever the Hub answers. *)
Theorem browser_login_returns address code timeout poll M :
  0 < poll → 0 ≤ timeout → is_Some (wait_for_completion (W := W) (poll_fuel timeout poll) address code (instant (mc_world M)) timeout poll M).
Proof. intros Hp Ht. apply wait_returns; [done|unfold poll_fuel; lia|]. pose proof (poll_fuel_enough timeout poll Hp Ht). lia. Qed.
End waiting.

(** ** Examples *)

Module AccountDemo.
Import ToyPack.

(** A server that may be out of reach, with the data of [srv2]. *)
#[local] Instance reachable_remote : Remote Sqlite := server_remote srv_settings token.
#[local] Instance remote : Remote (option Sqlite) := {|
  record_status rm := match rm with Some db => record_status db | None => Err "unreachable" end;
  page rm s a b := match rm with Some db => page db s a b | None => Err "unreachable" end;
  post_records rs rm := (rm, Err "not used"); upload_packfile _ _ _ rm := (rm, Err "not used"); download_packfile _ _ := Err "not used"; packfile_cap _ := None
|}.

(** A service that gives the same answers all the time. *)
Definition service (answer : Request → result Reply string) : Service Z := {| send q w := (w, answer q); instant w := w; pause t w := w + t |}.
#[local] Instance service_laws answer : ServiceLaws (H := service answer) Z.
Proof. split; cbn; lia. Qed.
Definition reply (status : Z) (session : string) (error : option (string * option string)) : Reply :=
  mk_reply status (Ok true) (Ok (session, None)) error (Ok "code") (Ok (None, None)) "".
Definition accepts (q : Request) : result Reply string := Ok (reply 200 "tok" None).
Definition needs_code (q : Request) : result Reply string := Ok (reply 403 "" (Some ("code", Some "2fa_required"%string))).
Definition linked (q : Request) : result Reply string := Ok (reply 409 "" (Some ("linked to another account", None))).

Definition origin (url : string) : string := url.
Definition self_hosted : SyncSettings := mk_sync_settings ProtoLegacy "https://example.org" "/k".
Definition on_hub : SyncSettings := mk_sync_settings ProtoHub DEFAULT_HUB_URL "/k".
Definition files (k : key) (writable : bool) : Fs := mk_fs {["/k" := File (Key.encode k)]} (λ _, writable).
Definition machine (k : key) (input : list string) : Machine Z := mk_machine ∅ (files k true) st1 input 0.
Definition text (k : key) : string := Toy.show k.

Definition check (rm : nat → option Sqlite) (input : list string) (held tried : key) : option (Machine Z * result unit Failure) :=
  verify_loop self_hosted (λ l, l) (λ _, 3%N) 5 true rm 0 tried (machine held input).

Lemma machine_is_ok input : machine_ok self_hosted Toy.key1 (machine Toy.key1 input).
Proof.
  split; [exact st1_wf|by vm_compute].
Qed.


(** ** Where the commands differ from what is said of them *)

Definition status_text (z : Z) : string := pretty z.
Definition connect (rm : nat → option Sqlite) (_ : AuthToken) (_ : Z) : result (nat → option Sqlite) string := Ok rm.
Definition login (answer : Request → result Reply string) (rm : nat → option Sqlite) (c : LoginCmd) (M : Machine Z) : option (Machine Z * result bool Failure) :=
  run_login (H3 := service answer) origin status_text self_hosted (λ l, l) (λ _, 3%N) (connect rm) "pw" true 5 c M.

(** A wrong key that is given to the command ends the session, but has by then taken the place of the right
    one: the key file has it and the records are encrypted with it. *)
Theorem refused_key_is_kept :
  match login accepts (λ _, Some srv2) (mk_login (Some "ann") (Some "pw") (Some (text Toy.key2)) None false) (machine Toy.key1 []) with
  | Some (M, Err ExitWrongKey) =>
      Key.try_load_from_path "/k" (mc_fs M) = Ok Toy.key2 ∧ forallb (λ r, match decrypt Toy.key1 r with Ok _ => false | Err _ => true end) (Store.load_all (mc_records M)) = true
  | _ => False
  end.
Proof. by vm_compute. Qed.

(** A key that the server has refused stays where the server cannot be asked about the next one: the login
    succeeds with it. *)
Theorem refused_key_survives_lost_connection :
  match check (λ i, if (i =? 0)%nat then Some srv2 else None) [text Toy.key1] Toy.key2 Toy.key2 with
  | Some (M, Ok _) => Key.try_load_from_path "/k" (mc_fs M) = Ok Toy.key2 ∧ check_encryption_key (λ l, l) Toy.key2 (Some srv2) = Some WrongKey
  | _ => False
  end.
Proof. by vm_compute. Qed.

(** Where the key file cannot be written the records are re-encrypted all the same, and no key that is stored
    reads them. *)
Theorem unwritten_key_strands_records :
  match store_key self_hosted (λ _, 3%N) Toy.key2 (mk_machine ∅ (files Toy.key1 false) st1 [] 0) with
  | Some (M, Err KeyWrite) =>
      Key.try_load_from_path "/k" (mc_fs M) = Ok Toy.key1 ∧ forallb (λ r, match decrypt Toy.key1 r with Ok _ => false | Err _ => true end) (Store.load_all (mc_records M)) = true
  | _ => False
  end.
Proof. by vm_compute. Qed.

(** With no input left the prompt for a second factor gives an empty code, and the login asks for ever. *)
Theorem two_factor_prompt_spins fuel totp (M : Machine Z) :
  mc_input M = [] → login_loop (H3 := service needs_code) status_text on_hub fuel (Hub DEFAULT_HUB_URL None) "ann" "pw" totp M = None.
Proof.
  revert totp M. induction fuel as [|fuel IH]; intros totp M Hin; [done|].
  assert (auth_login (H3 := service needs_code) status_text on_hub (Hub DEFAULT_HUB_URL None) "ann" "pw" totp M = Some (M, Ok TwoFactorRequired)) as E by (by destruct M).
  cbn [login_loop]. unfold ac_bind at 1. rewrite E. unfold ac_bind, or_user_input, ac_bind, read_user_input. rewrite Hin. cbn [ac_ret default]. by apply IH.
Qed.

(** An account that is linked to another one is reported as linked. *)
Theorem linked_elsewhere_is_success :
  link_account (H3 := service linked) status_text DEFAULT_HUB_URL "tok" (mk_machine {[Meta.KEY_HUB_SESSION := "atapi_1"%string]} (files Toy.key1 true) st1 [] 0) =
    Some (mk_machine {[Meta.KEY_HUB_SESSION := "atapi_1"%string]} (files Toy.key1 true) st1 [] 0, Ok tt).
Proof. by vm_compute. Qed.

(** With a token of the sync server only, the Hub's client refuses to change the password. *)
Theorem cli_session_cannot_change_password :
  let M := mk_machine {[Meta.KEY_SESSION := "tok"%string]} (files Toy.key1 true) st1 [] 0 in
  (resolve_sync_auth origin on_hub (mc_meta M)).2 = AuthHubViaCli "tok" ∧
  run_change_password (H3 := service accepts) origin status_text on_hub 5 (Some "old"%string) (Some "new"%string) "" "" None M =
    Some (M, Err (Said "Not logged in to Atuin Hub. Please run 'atuin login' to authenticate.")).
Proof. by vm_compute. Qed.

(** On a machine that has no key yet, registering through the browser fails before it begins. *)
Theorem registering_needs_a_key :
  let M := mk_machine ∅ (mk_fs ∅ (λ _, true)) Store.empty [] 0 in
  run_register (H3 := service accepts) origin status_text on_hub (λ l, l) (λ _, 3%N) (connect (λ _, Some srv2)) "pw" true Toy.key1 5 (mk_register None None None) M =
    Some (M, Err (KeyLoad LoadNoEntry)).
Proof. by vm_compute. Qed.

(** Two processes that start together both find no host id: each stores its own, and the one that was first
    goes on with an id that is no longer there. *)
Theorem two_processes_two_hosts :
  let simple (u : HostId) := Toy.show u in
  let parse s := match Toy.read s with Ok u => Some u | Err _ => None end in
  let m : gmap string string := ∅ in
  Meta.stored_host parse m = None ∧
  (let m1 := Meta.set Meta.KEY_HOST_ID (simple 1%N) m in
   let m2 := Meta.set Meta.KEY_HOST_ID (simple 2%N) m1 in
   (Meta.host_id simple parse (Some 1%N) 3%N m2).2 = Ok 1%N ∧ (Meta.host_id simple parse None 3%N m2).2 = Ok 2%N).
Proof. by vm_compute. Qed.
End AccountDemo.
