(* ===== verification/Daemon.v ===== *)
(** * The daemon ([atuin-daemon/src])

    The history service keeps the commands that run and records those that end; the search component
    keeps the index of [SearchIndex.v], filled from the history database in the background and by the
    events on the bus; the semantic component is [Semantic.v]; the sync component runs the engine of
    [Sync.v] on a timer. The components share the databases and the bus, a [tokio] broadcast channel of
    which only what its documentation promises is used. A request, the handling of an event and a page
    of the background loader are steps that may come in any order; time, randomness, and the answers of
    the server are inputs. *)
From S2P Require Import Prelude Text Interactive Filter Record Status Rmp RmpWire Encryption SqliteStore Streams Packfile Log Kv ShellConfig Dotfiles History HistoryStore Semantic SearchQuery HistorySearch SearchIndex Sync.

(** ** Events *)

Inductive DaemonEvent : Type :=
| HistoryStarted (h : Entry) | HistoryEnded (h : Entry) | HistorySynced (ids : list string)
| SyncCompleted (uploaded : Z) (downloaded : nat) | SyncFailed (error : string) | ForceSync
| HistoryPruned | HistoryRebuilt | HistoryDeleted (ids : list string) | SettingsReloaded | ShutdownRequested.

(** What a receiver of the bus gets. *)
Inductive Received : Type := Event (e : DaemonEvent) | Lagged (n : Z) | Closed.

(** [tokio::sync::broadcast] with the receiver of the event loop; [None] is a receiver that waits. *)
Class Broadcast : Type := {
  Chan : Type; chan_new : nat → Chan; chan_send : DaemonEvent → Chan → Chan; chan_recv : Chan → option (Received * Chan)
}.
(** [chan_pending] is what was sent and not received. A receiver lags when more is sent than the channel
    holds. *)
Class BroadcastLaws `{Broadcast} : Type := {
  chan_pending : Chan → list DaemonEvent;
  chan_intact : nat → Chan → Prop;
  pending_new n : chan_intact n (chan_new n) ∧ chan_pending (chan_new n) = [];
  pending_send n e c : chan_intact n c → (length (chan_pending c) < n)%nat →
    chan_intact n (chan_send e c) ∧ chan_pending (chan_send e c) = chan_pending c ++ [e];
  pending_recv n c : chan_intact n c →
    match chan_pending c with
    | [] => chan_recv c = None
    | e :: l => ∃ c', chan_recv c = Some (Event e, c') ∧ chan_intact n c' ∧ chan_pending c' = l
    end
}.
Definition BUS_CAPACITY : nat := 64.

(** The events of [control.proto] and [proto_event_to_daemon_event]. *)
Inductive ControlEvent : Type := CtlPruned | CtlRebuilt | CtlDeleted (ids : list string) | CtlForceSync | CtlSettings | CtlShutdown.
Definition proto_event_to_daemon_event (e : ControlEvent) : DaemonEvent :=
  match e with
  | CtlPruned => HistoryPruned | CtlRebuilt => HistoryRebuilt | CtlDeleted ids => HistoryDeleted ids
  | CtlForceSync => ForceSync | CtlSettings => SettingsReloaded | CtlShutdown => ShutdownRequested
  end.

(** ** Messages *)

Record StartHistoryRequest : Type := mk_start {
  sq_timestamp : Z; sq_command : string; sq_cwd : string; sq_session : string; sq_hostname : string; sq_author : string;
  sq_intent : string; sq_shell : string; sq_author_kind : Z
}.
Record EndHistoryRequest : Type := mk_end { eq_id : string; eq_exit : Z; eq_duration : Z }.
Record StartHistoryReply : Type := mk_start_reply { sr_id : string; sr_protocol : Z }.
Record EndHistoryReply : Type := mk_end_reply { er_id : RecordId; er_idx : RecordIdx; er_protocol : Z }.
Definition DAEMON_PROTOCOL_VERSION : Z := 1.

(** [tonic::Status] with the errors that the services report. *)
Section status.
Context `{Crypto}.
Inductive InternalError : Type := NotInitialized | PushFailed (e : EncryptionError).
Inductive Refusal : Type := InvalidArgument (msg : string) | NotFound (msg : string) | Internal (e : InternalError).
End status.

(** [From<AuthorKind> for Option] after the generated getter, and back. *)
Definition kind_of_proto (k : Z) : option AuthorKind := if k =? 1 then Some KindUser else if k =? 2 then Some KindAgent else None.
Definition kind_to_proto (k : option AuthorKind) : Z := match k with None => 0 | Some KindUser => 1 | Some KindAgent => 2 end.

(** [From<HistoryDaemonCapture> for History] *)
Definition daemon_capture (p : Probe) (timestamp : Z) (command cwd session : string) (origin : CmdOrigin) (author intent shell : string)
    (kind : option AuthorKind) : Entry :=
  Entry.new p timestamp command cwd (-1) (-1) (Some session) (Some origin) (Some author) (Some intent) None (Some shell) kind.

(** [HistoryEntry] of a tail reply: whether it ended, and its fields. *)
Record TailHistoryReply : Type := mk_tail {
  tr_ended : bool; tr_timestamp : Z; tr_id : string; tr_command : string; tr_cwd : string; tr_session : string; tr_hostname : string;
  tr_author : string; tr_intent : string; tr_exit : Z; tr_duration : Z; tr_shell : string; tr_kind : Z
}.
Definition history_to_tail_reply (ended : bool) (h : Entry) : TailHistoryReply :=
  mk_tail ended (h_timestamp h mod u64_limit) (h_id h) (h_command h) (h_cwd h) (h_session h) (o_raw (h_origin h)) (h_author h)
    (default ""%string (h_intent h)) (h_exit h) (h_duration h) (default ""%string (h_shell h)) (kind_to_proto (h_author_kind h)).

(** The task of [tail_history]: what it sends for what it receives; an error ends it. *)
Fixpoint tail_history (rs : list Received) : list (result TailHistoryReply Z) :=
  match rs with
  | [] => []
  | Event (HistoryStarted h) :: rs => Ok (history_to_tail_reply false h) :: tail_history rs
  | Event (HistoryEnded h) :: rs => Ok (history_to_tail_reply true h) :: tail_history rs
  | Event _ :: rs => tail_history rs
  | Lagged skipped :: _ => [Err skipped]
  | Closed :: _ => []
  end.

(** The task of [run_grpc_server] that waits for the end: whether the server is told to stop. *)
Fixpoint server_stops (rs : list Received) : bool :=
  match rs with
  | [] => false
  | Event ShutdownRequested :: _ => true
  | Event _ :: rs => server_stops rs
  | (Lagged _ | Closed) :: _ => true
  end.

(** The search service's messages. *)
Inductive ProtoFilterMode : Type := PGlobal | PHost | PSession | PDirectory | PWorkspace | PSessionPreload.
Record SearchContext : Type := mk_search_context { sx_session : string; sx_cwd : string; sx_hostname : string; sx_git_root : option string }.

(** [search_req.filter_mode.try_into().unwrap_or(FilterMode::Global)] *)
Definition proto_filter (z : Z) : ProtoFilterMode :=
  if z =? 1 then PHost else if z =? 2 then PSession else if z =? 3 then PDirectory else if z =? 4 then PWorkspace
  else if z =? 5 then PSessionPreload else PGlobal.

(** [convert_filter_mode] *)
Definition convert_filter_mode (mode : ProtoFilterMode) (context : option SearchContext) : IndexFilterMode :=
  match mode, context with
  | PGlobal, _ => IGlobal
  | PDirectory, Some ctx => IDirectory (trailing_slash (sx_cwd ctx))
  | PWorkspace, Some ctx =>
      match sx_git_root ctx with Some root => IWorkspace (trailing_slash root) | None => IDirectory (trailing_slash (sx_cwd ctx)) end
  | PHost, Some ctx => IHost (sx_hostname ctx)
  | PSession, Some ctx | PSessionPreload, Some ctx => ISession (sx_session ctx)
  | _, None => IGlobal
  end.

(** ** The sync component's data *)

Inductive SyncCommand : Type := CForceSync | CStop.
Inductive SyncState : Type := Idle | Retrying.
Record DaemonSettings : Type := mk_dsettings { auto_sync : bool; sync_frequency : Z }.

#[export] Instance SyncState_eq_dec : EqDecision SyncState.
Proof. solve_decision. Defined.
#[export] Instance OrFilter_eq_dec {A} `{EqDecision A} : EqDecision (OrFilter A).
Proof. solve_decision. Defined.

(** ** The daemon *)

Section daemon.
Context `{Diacritics, UuidBytes, Rodeo, Frizbee, Weights, Broadcast, Rmp, Crypto, PackLib, WideChars}.
(** The key, the host, and the ids and times of new manifests. *)
Context (k : key) (host : HostId) (fresh : RecordIdx → RecordId * Z).

(** The shared state, then the fields of the components: the history service, the search component with
    its background loader and the rebuilds that requests have started, the semantic component, and the
    sync component with its commands, its state and the period of its timer. *)
Record Daemon : Type := mk_daemon {
  d_started : bool; d_stopped : bool; d_settings : DaemonSettings;
  d_db : HistoryDb.t; d_records : Store.t; d_files : gmap string string; d_bus : Chan;
  d_running : gmap string Entry;
  d_index : SearchIndex; d_loader : option Paged; d_rebuilds : list (Paged * SearchIndex);
  d_semantic : SemanticState;
  d_commands : list SyncCommand; d_sync : SyncState; d_period : Z
}.

Definition set_shared (db : HistoryDb.t) (records : Store.t) (files : gmap string string) (bus : Chan) (D : Daemon) : Daemon :=
  mk_daemon (d_started D) (d_stopped D) (d_settings D) db records files bus (d_running D) (d_index D) (d_loader D) (d_rebuilds D) (d_semantic D)
    (d_commands D) (d_sync D) (d_period D).
Definition set_running (r : gmap string Entry) (D : Daemon) : Daemon :=
  mk_daemon (d_started D) (d_stopped D) (d_settings D) (d_db D) (d_records D) (d_files D) (d_bus D) r (d_index D) (d_loader D) (d_rebuilds D)
    (d_semantic D) (d_commands D) (d_sync D) (d_period D).
Definition set_search (ix : SearchIndex) (loader : option Paged) (rebuilds : list (Paged * SearchIndex)) (D : Daemon) : Daemon :=
  mk_daemon (d_started D) (d_stopped D) (d_settings D) (d_db D) (d_records D) (d_files D) (d_bus D) (d_running D) ix loader rebuilds
    (d_semantic D) (d_commands D) (d_sync D) (d_period D).
Definition set_semantic (s : SemanticState) (D : Daemon) : Daemon :=
  mk_daemon (d_started D) (d_stopped D) (d_settings D) (d_db D) (d_records D) (d_files D) (d_bus D) (d_running D) (d_index D) (d_loader D)
    (d_rebuilds D) s (d_commands D) (d_sync D) (d_period D).
Definition set_sync (c : list SyncCommand) (s : SyncState) (period : Z) (D : Daemon) : Daemon :=
  mk_daemon (d_started D) (d_stopped D) (d_settings D) (d_db D) (d_records D) (d_files D) (d_bus D) (d_running D) (d_index D) (d_loader D)
    (d_rebuilds D) (d_semantic D) c s period.
Definition set_index (ix : SearchIndex) (D : Daemon) : Daemon := set_search ix (d_loader D) (d_rebuilds D) D.
Definition set_stopped (D : Daemon) : Daemon :=
  mk_daemon (d_started D) true (d_settings D) (d_db D) (d_records D) (d_files D) (d_bus D) (d_running D) (d_index D) (d_loader D)
    (d_rebuilds D) (d_semantic D) (d_commands D) (d_sync D) (d_period D).

(** [DaemonHandle::emit], [apply_settings] *)
Definition emit (e : DaemonEvent) (D : Daemon) : Daemon := set_shared (d_db D) (d_records D) (d_files D) (chan_send e (d_bus D)) D.
Definition apply_settings (s : DaemonSettings) (D : Daemon) : Daemon :=
  emit SettingsReloaded
    (mk_daemon (d_started D) (d_stopped D) s (d_db D) (d_records D) (d_files D) (d_bus D) (d_running D) (d_index D) (d_loader D)
      (d_rebuilds D) (d_semantic D) (d_commands D) (d_sync D) (d_period D)).

(** [send_event] of the control service *)
Definition send_event (event : option ControlEvent) (D : Daemon) : Daemon * result unit Refusal :=
  match event with
  | None => (D, Err (InvalidArgument "event is required"))
  | Some e => (emit (proto_event_to_daemon_event e) D, Ok tt)
  end.

(** *** The history service *)

(** [CmdOriginParseError] as text. *)
Definition origin_error (value : string) : string := ("`" ++ value ++ "` is not a valid host:user command origin (missing `:`)")%string.

(** [start_history] *)
Definition start_history (p : Probe) (req : StartHistoryRequest) (D : Daemon) : Daemon * result StartHistoryReply Refusal :=
  match Origin.try_from (sq_hostname req) with
  | Err e => (D, Err (InvalidArgument (origin_error e)))
  | Ok origin =>
      let h := daemon_capture p (sq_timestamp req) (sq_command req) (sq_cwd req) (sq_session req) origin (sq_author req) (sq_intent req)
                 (sq_shell req) (kind_of_proto (sq_author_kind req)) in
      let D := if d_started D then emit (HistoryStarted h) D else D in
      (set_running (<[h_id h := h]> (d_running D)) D, Ok (mk_start_reply (h_id h) DAEMON_PROTOCOL_VERSION))
  end.

Definition not_running (id : string) : string := ("could not find history with id: " ++ id)%string.

(** What [end_history] sets: the exit code and the duration, measured when none is given. *)
Definition finished (now : Z) (req : EndHistoryRequest) (h : Entry) : Entry :=
  let elapsed := if eq_duration req =? 0 then Z.max 0 (now - h_timestamp h) else eq_duration req in
  mk_hist (h_id h) (h_timestamp h) (Z.min elapsed (i64_limit - 1)) (eq_exit req) (h_command h) (h_cwd h) (h_session h) (h_origin h) (h_author h)
    (h_intent h) (h_deleted_at h) (h_shell h) (h_author_kind h).

(** [end_history]; [cap] is the packfile capability of the server. *)
Definition end_history (now : Z) (d : Draw) (cap : option Z) (req : EndHistoryRequest) (D : Daemon) : Daemon * result EndHistoryReply Refusal :=
  match d_running D !! eq_id req with
  | None => (D, Err (NotFound (not_running (eq_id req))))
  | Some h =>
      let D := set_running (delete (eq_id req) (d_running D)) D in
      let h := finished now req h in
      if d_started D then
        let db := HistoryDb.save_raw (d_db D) h in
        match HistoryStore.push k host d h (d_records D) with
        | (records, Err e) => (set_shared db records (d_files D) (d_bus D) D, Err (Internal (PushFailed e)))
        | (records, Ok (record_id, idx)) =>
            let records := (Packer.try_pack fresh (mk_series host History) cap records).1 in
            (emit (HistoryEnded h) (set_shared db records (d_files D) (d_bus D) D), Ok (mk_end_reply record_id idx DAEMON_PROTOCOL_VERSION))
        end
      else (D, Err (Internal NotInitialized))
  end.

(** [cancel_history] *)
Definition cancel_history (id : string) (D : Daemon) : Daemon * result unit Refusal :=
  match d_running D !! id with
  | None => (D, Err (NotFound (not_running id)))
  | Some _ => (set_running (delete id (d_running D)) D, Ok tt)
  end.

(** *** The search component *)

Definition PAGE_SIZE : nat := Z.to_nat 5000.
Definition RESULTS_LIMIT : nat := 200.

Definition pager : Paged := mk_paged PAGE_SIZE None false true.
Definition rows (D : Daemon) : list HistorySearch.Row := to_row <$> d_db D.

(** One turn of the loop of [build_index_only]; [None] is its end. *)
Definition load_page (p : Paged) (rs : list HistorySearch.Row) (ix : SearchIndex) : option (Paged * SearchIndex) :=
  match paged_next p rs with
  | (p, Some page) => Some (p, add_histories (from_row <$> page) ix)
  | (_, None) => None
  end.
Fixpoint build_index_only (fuel : nat) (p : Paged) (rs : list HistorySearch.Row) (ix : SearchIndex) : SearchIndex :=
  match fuel with
  | O => ix
  | S fuel => match load_page p rs ix with Some (p, ix) => build_index_only fuel p rs ix | None => ix end
  end.

(** [rebuild_index_only]; a page takes at least one row. *)
Definition rebuild_index_only (D : Daemon) : Daemon :=
  if d_started D then set_index (build_index_only (S (length (d_db D))) pager (rows D) (index_new (shells (d_index D)))) D else D.

(** [start]: the filter of the settings, and the loader. *)
Definition start_search (f : OrFilter string) (D : Daemon) : Daemon :=
  let ix := d_index D in
  set_search (mk_index (commands ix) (haystack ix) (frecency_map ix) (interner ix) f) (Some pager) (d_rebuilds D) D.

(** A turn of the loader's [build_index]. *)
Definition loader_turn (now : Z) (D : Daemon) : Daemon :=
  match d_loader D with
  | None => D
  | Some p =>
      match load_page p (rows D) (d_index D) with
      | Some (p, ix) => set_search ix (Some p) (d_rebuilds D) D
      | None => set_search (rebuild_frecency now (d_index D)) None (d_rebuilds D) D
      end
  end.

(** [build_frecency], every minute and for new settings. *)
Definition build_frecency (now : Z) (D : Daemon) : Daemon := set_index (rebuild_frecency now (d_index D)) D.

(** [maybe_rebuild_index] begins a new index for another filter; its turns, the last of which puts it
    in place. *)
Definition begin_rebuild (fs : list string) (D : Daemon) : Daemon :=
  let f := default Filter.all (Filter.from_list fs) in
  if decide (shells (d_index D) = f) then D else set_search (d_index D) (d_loader D) (d_rebuilds D ++ [(pager, index_new f)]) D.
Definition rebuild_turn (now : Z) (i : nat) (D : Daemon) : Daemon :=
  match d_rebuilds D !! i with
  | None => D
  | Some (p, ix) =>
      match load_page p (rows D) ix with
      | Some x => set_search (d_index D) (d_loader D) (<[i := x]> (d_rebuilds D)) D
      | None => set_search (rebuild_frecency now ix) (d_loader D) (delete i (d_rebuilds D)) D
      end
  end.

(** A request that is answered from the index that is in place. *)
Definition answer (query : string) (mode : Z) (context : option SearchContext) (D : Daemon) : option (list (list Z)) :=
  search query (convert_filter_mode (proto_filter mode) context) RESULTS_LIMIT (d_index D).

(** [handle_event] of the search component *)
Definition search_event (now : Z) (e : DaemonEvent) (D : Daemon) : Daemon :=
  match e with
  | HistorySynced ids =>
      if d_started D then set_index (add_histories (from_row <$> load_active (S (length ids)) ids (rows D)) (d_index D)) D else D
  | HistoryEnded h => set_index (add_history h (d_index D)) D
  | HistoryPruned | HistoryRebuilt | HistoryDeleted _ => rebuild_index_only D
  | SettingsReloaded => if d_started D then build_frecency now D else D
  | HistoryStarted _ | SyncCompleted _ _ | SyncFailed _ | ForceSync | ShutdownRequested => D
  end.

(** [handle_event] of the semantic component and of the sync component *)
Definition semantic_event (e : DaemonEvent) (D : Daemon) : Daemon :=
  match e with HistoryEnded h => set_semantic (record_history h (d_semantic D)) D | _ => D end.
Definition sync_event (e : DaemonEvent) (D : Daemon) : Daemon :=
  match e with
  | ForceSync => if d_started D then set_sync (d_commands D ++ [CForceSync]) (d_sync D) (d_period D) D else D
  | _ => D
  end.

(** *** The event loop *)

(** [dispatch_event]: the components in the order of their registration. *)
Definition dispatch_event (now : Z) (e : DaemonEvent) (D : Daemon) : Daemon := sync_event e (semantic_event e (search_event now e D)).

(** A turn of [run_event_loop]. *)
Definition loop_turn (now : Z) (D : Daemon) : Daemon :=
  if d_stopped D then D
  else
    match chan_recv (d_bus D) with
    | None => D
    | Some (r, bus) =>
        let D := set_shared (d_db D) (d_records D) (d_files D) bus D in
        match r with
        | Event ShutdownRequested | Closed => set_stopped D
        | Event e => dispatch_event now e D
        | Lagged _ => D
        end
    end.

(** *** The sync component *)

Section sync_component.
Context {R : Type} `{Remote R} (page_size : Z) (hash_order : list RecordSeriesKey → list RecordSeriesKey).
Context (pack_entropy : RecordId → Entropy) (unpack_entropy : RecordId → nat → Entropy) (error_text : SyncError → string).
(** The longest interval in whole seconds. *)
Context (max_interval : Z).

Definition emit_all (es : list DaemonEvent) (D : Daemon) : Daemon := foldl (λ D e, emit e D) D es.

(** The events of the batches that a build yields. *)
Definition batch_events (batches : list (list Entry)) : list DaemonEvent :=
  omap (λ b, match b with [] => None | _ :: _ => Some (HistorySynced (h_id <$> b)) end) batches.

(** A tick that failed; [grow] is the product with the random factor, in whole seconds. *)
Definition sync_failed (grow : Z → Z) (e : SyncError) (D : Daemon) : Daemon :=
  let D := emit (SyncFailed (error_text e)) D in set_sync (d_commands D) Retrying (Z.min (grow (d_period D)) max_interval) D.

(** One that did not. *)
Definition sync_succeeded (uploaded : Z) (downloaded : list RecordId) (D : Daemon) : Daemon :=
  let '(db, batches) := HistoryStore.incremental_build k (d_records D) downloaded (d_db D) in
  let D := set_shared db (d_records D) (d_files D) (d_bus D) D in
  let D := emit_all (batch_events batches ++ [SyncCompleted uploaded (length downloaded)]) D in
  let files := dot_files (DotStore.build (A := Var) k (DotStore.build (A := Alias) k (mk_dot (d_records D) (d_files D)))) in
  let D := set_shared (d_db D) (d_records D) files (d_bus D) D in
  set_sync (d_commands D) Idle (sync_frequency (d_settings D)) D.

(** [do_sync_tick]; [connected] is the client, or why there is none. *)
Definition do_sync_tick (logged_in : result bool string) (connected : result R SyncError) (grow : Z → Z) (D : Daemon) : Daemon * option R :=
  match logged_in with
  | Err _ | Ok false => (set_sync (d_commands D) Idle (d_period D) D, None)
  | Ok true =>
      match connected with
      | Err e => (sync_failed grow e D, None)
      | Ok rm =>
          match sync page_size k hash_order pack_entropy unpack_entropy (d_records D, rm) with
          | (records, rm, Err e) => (sync_failed grow e (set_shared (d_db D) records (d_files D) (d_bus D) D), Some rm)
          | (records, rm, Ok (uploaded, downloaded)) =>
              (sync_succeeded uploaded downloaded (set_shared (d_db D) records (d_files D) (d_bus D) D), Some rm)
          end
      end
  end.

(** The branches of [sync_loop]: the timer, and a command; [false] is the end of the loop. *)
Definition timer_branch (logged_in : result bool string) (connected : result R SyncError) (grow : Z → Z) (D : Daemon) : Daemon * option R :=
  if negb (auto_sync (d_settings D)) && bool_decide (d_sync D = Idle) then (D, None) else do_sync_tick logged_in connected grow D.
Definition command_branch (logged_in : result bool string) (connected : result R SyncError) (grow : Z → Z) (D : Daemon) : Daemon * option R * bool :=
  match d_commands D with
  | CForceSync :: cs => (do_sync_tick logged_in connected grow (set_sync cs (d_sync D) (d_period D) D), true)
  | CStop :: cs => (set_sync cs (d_sync D) (d_period D) D, None, false)
  | [] => (D, None, true)
  end.
End sync_component.

(** *** Steps *)

Inductive DaemonStep : Type :=
| SStart (p : Probe) (req : StartHistoryRequest)
| SEnd (now : Z) (d : Draw) (cap : option Z) (req : EndHistoryRequest)
| SCancel (id : string)
| SControl (e : option ControlEvent)
| SLoad (now : Z) | SLoop (now : Z) | SRefresh (now : Z)
| SCaptures (cs : list CommandCapture) | SOutput (id : string) (ranges : list OutputRange)
| SBeginRebuild (fs : list string) | SRebuild (now : Z) (i : nat).

Definition daemon_step (D : Daemon) (s : DaemonStep) : Daemon :=
  match s with
  | SStart p req => (start_history p req D).1
  | SEnd now d cap req => (end_history now d cap req D).1
  | SCancel id => (cancel_history id D).1
  | SControl e => (send_event e D).1
  | SLoad now => loader_turn now D
  | SLoop now => loop_turn now D
  | SRefresh now => build_frecency now D
  | SCaptures cs => set_semantic (record_commands cs 0 (d_semantic D)).1 D
  | SOutput id ranges => set_semantic (command_output_rpc id ranges (d_semantic D)).1 D
  | SBeginRebuild fs => begin_rebuild fs D
  | SRebuild now i => rebuild_turn now i D
  end.
End daemon.

(** ** Pages of groups *)

Section unique_pages.
Implicit Types (p : Paged) (r g : HistorySearch.Row) (rs : list HistorySearch.Row).

Lemma group_newest_in {K} `{EqDecision K} (key : HistorySearch.Row → K) all before rs r : r ∈ group_newest key all before rs → r ∈ rs.
Proof.
  revert before. induction rs as [|x rs IH]; intros before; [done|]. cbn. rewrite elem_of_app, elem_of_cons. intros [Hr|Hr]; [|right; by eapply IH].
  case_decide; [left; by apply list_elem_of_singleton|by apply elem_of_nil in Hr].
Qed.

(** The rows of a group that are newest have a representative. *)
Lemma group_newest_first {K} `{EqDecision K} (key : HistorySearch.Row → K) all before rs m :
  m ∈ rs → (∀ y, y ∈ all → key y = key m → w_timestamp y ≤ w_timestamp m) →
  (∀ y, y ∈ before → key y = key m → w_timestamp y ≠ w_timestamp m) → w_timestamp m ≠ 0 →
  ∃ g, g ∈ group_newest key all before rs ∧ key g = key m ∧ w_timestamp g = w_timestamp m.
Proof.
  revert before. induction rs as [|x rs IH]; intros before Hm Hmax Hb H0; [by apply elem_of_nil in Hm|]. cbn.
  destruct (decide (key x = key m ∧ w_timestamp x = w_timestamp m)) as [[Hk Ht]|Hn].
  - exists x. split; [|done]. apply elem_of_app. left. rewrite decide_True; [left|]. rewrite !Exists_exists. split_and!.
    + intros (y & Hy & Hky & Hlt). pose proof (Hmax y Hy ltac:(congruence)). lia.
    + intros (y & Hy & Hky & He). apply (Hb y Hy); congruence.
    + congruence.
  - destruct (IH (before ++ [x])) as (g & Hg & Hk & Ht); [| |..].
    + apply elem_of_cons in Hm as [->|]; [by destruct Hn|done].
    + exact Hmax.
    + intros y [Hy| ->%list_elem_of_singleton]%elem_of_app Hky He; [by eapply Hb|]. by apply Hn.
    + done.
    + exists g. split; [|done]. apply elem_of_app. by right.
Qed.

Lemma group_newest_represents {K} `{EqDecision K} (key : HistorySearch.Row → K) rs r :
  Forall (λ x, w_timestamp x ≠ 0) rs → r ∈ rs →
  ∃ g, g ∈ group_newest key rs [] rs ∧ key g = key r ∧ w_timestamp r ≤ w_timestamp g.
Proof.
  intros H0 Hr. destruct (newest_exists (filter (λ x, key x = key r) rs) r) as (m & [Hk Hm]%list_elem_of_filter & Hmax); [by apply list_elem_of_filter|].
  destruct (group_newest_first key rs [] rs m) as (g & Hg & Hkg & Htg); [done| |by intros y Hy%elem_of_nil|by apply (proj1 (Forall_forall _ _) H0)|].
  - intros y Hy Hky. apply not_newer_time, Hmax, list_elem_of_filter. split; [congruence|done].
  - exists g. split_and!; [done|congruence|]. rewrite Htg. apply not_newer_time, Hmax. by apply list_elem_of_filter.
Qed.

Lemma group_newest_sublist {K} `{EqDecision K} (key : HistorySearch.Row → K) all before rs : group_newest key all before rs `sublist_of` rs.
Proof.
  revert before. induction rs as [|x rs IH]; intros before; [done|]. cbn. case_decide; cbn [app]; [apply sublist_skip|apply sublist_cons]; apply IH.
Qed.

(** What is left of ascending rows after a page from the end. *)
Lemma descending_rest (T : list HistorySearch.Row) n l x :
  StronglySorted id_before T → last (take n (reverse T)) = Some l → x ∈ T → x ∈ take n (reverse T) ∨ id_before x l.
Proof.
  intros Hs Hl Hx. rewrite take_reverse, last_reverse in *. set (j := (length T - n)%nat) in *. rewrite elem_of_reverse. rewrite head_lookup, lookup_drop, Nat.add_0_r in Hl.
  apply list_elem_of_lookup in Hx as [i Hi]. destruct (decide (i < j)%nat) as [Hlt|Hge].
  - right. exact (sorted_lookup _ _ i j x l Hs Hi Hl Hlt).
  - left. apply list_elem_of_lookup. exists (i - j)%nat. rewrite lookup_drop. by replace (j + (i - j))%nat with i by lia.
Qed.

Definition representatives p rs : list HistorySearch.Row :=
  let l := filter (λ r, page_row p r = true) rs in group_newest page_key l [] l.

Lemma representatives_in p rs r : r ∈ representatives p rs → r ∈ rs ∧ page_row p r = true.
Proof. intros Hr%group_newest_in. apply list_elem_of_filter in Hr. tauto. Qed.

Definition unique_pager p : Prop := pg_unique p = true ∧ (0 < page_size p)%nat.

Lemma page_taken p p' rs l :
  unique_pager p → NoDup (w_id <$> rs) → paged_next p rs = (p', Some l) →
  unique_pager p' ∧ pg_deleted p' = pg_deleted p ∧ (∀ r, r ∈ l → r ∈ rs ∧ page_row p r = true) ∧
  (∀ r, page_row p' r = true → page_row p r = true) ∧ (∃ r, r ∈ rs ∧ page_row p r = true ∧ page_row p' r = false) ∧
  ∀ g, g ∈ representatives p rs → g ∈ l ∨ page_row p' g = true.
Proof.
  intros [Hu Hp] Hn. unfold paged_next. rewrite Hu. fold (representatives p rs). set (S := sort_id_desc (representatives p rs)).
  destruct (last (take (page_size p) S)) as [e|] eqn:El; [|done]. intros [= <- <-].
  assert (∀ r, r ∈ take (page_size p) S → r ∈ rs ∧ page_row p r = true) as Hin.
  { intros r Hr%subseteq_take. unfold S, sort_id_desc, sort_by_key in Hr. rewrite elem_of_reverse, elem_of_sort_by in Hr. by apply representatives_in. }
  assert (e ∈ take (page_size p) S) as He by (rewrite last_lookup in El; by eapply list_elem_of_lookup_2).
  destruct (Hin e He) as [Her Hep]. split_and!; cbn [pg_unique page_size pg_deleted]; try done.
  - intros r. unfold page_row in *. cbn [pg_deleted last_id]. rewrite !andb_true_iff, bool_decide_eq_true in *. destruct Hep as [_ Hep]. intros [-> Hr]. split; [done|].
    destruct (last_id p) as [i|]; [|done]. rewrite bool_decide_eq_true in *. by eapply cmp_lt_trans.
  - exists e. split_and!; [done|done|]. unfold page_row. cbn [pg_deleted last_id]. rewrite cmp_refl. cbn. by rewrite andb_false_r.
  - intros g Hg. destruct (representatives_in p rs g Hg) as [_ Hgp].
    destruct (descending_rest (sort_by_key w_id (representatives p rs)) (page_size p) e g) as [Ht|Hb]; [|done| |by left|].
    + apply ascending_ids. eapply sublist_NoDup; [exact Hn|]. apply fmap_sublist. etrans; [apply group_newest_sublist|apply sublist_filter].
    + unfold sort_by_key. by rewrite elem_of_sort_by.
    + right. unfold page_row in *. cbn [pg_deleted last_id]. rewrite andb_true_iff in *. destruct Hgp as [-> _]. split; [done|]. by apply bool_decide_eq_true.
Qed.

Lemma page_none p p' rs :
  unique_pager p → Forall (λ r, w_timestamp r ≠ 0) rs → paged_next p rs = (p', None) → ∀ r, r ∈ rs → page_row p r = false.
Proof.
  intros [Hu Hp] H0. unfold paged_next. rewrite Hu. fold (representatives p rs). destruct (last _) as [e|] eqn:El; [done|]. intros [= <-] r Hr. apply not_true_is_false. intros Hpr.
  destruct (group_newest_represents page_key (filter (λ r, page_row p r = true) rs) r) as (g & Hg & _); [|by apply list_elem_of_filter|].
  - apply Forall_forall. intros x [_ Hx]%list_elem_of_filter. by apply (proj1 (Forall_forall _ _) H0).
  - fold (representatives p rs) in Hg. apply list.last_None in El. assert (g ∈ sort_id_desc (representatives p rs)) as Hs.
    { unfold sort_id_desc, sort_by_key. by rewrite elem_of_reverse, elem_of_sort_by. }
    destruct (sort_id_desc (representatives p rs)) as [|y l]; [by apply elem_of_nil in Hs|]. destruct (page_size p); [lia|done].
Qed.
End unique_pages.

(** ** Loading the index *)

Section loading.
Context `{Diacritics, UuidBytes, RodeoLaws} (f : OrFilter string).
Implicit Types (p : Paged) (r g : HistorySearch.Row) (rs : list HistorySearch.Row) (hs : list Entry) (ix : SearchIndex) (K : list string).

Lemma uniques_bound hs K : (∀ h, h ∈ hs → h_command h ∈ K) → (length (uniques f hs) ≤ length K)%nat.
Proof.
  intros HK. apply submseteq_length, NoDup_submseteq; [apply NoDup_uniques|]. intros c Hc%elem_of_uniques.
  destruct (runs f hs c) as [|h l] eqn:E; [done|]. assert (h ∈ runs f hs c) as (Hh & _ & <-)%elem_of_runs by (rewrite E; left). by apply HK.
Qed.

(** Of few enough commands every entry can be added. *)
Lemma add_one_ok hs h ix K :
  IndexOk f hs ix → (∀ x, x ∈ hs → h_command x ∈ K) → Z.of_nat (length K) < u32_limit → IndexOk f (hs ++ [h]) (add_history h ix).
Proof. intros Hok HK Hlim. apply add_history_ok; [done|]. pose proof (uniques_bound hs K HK). lia. Qed.

Lemma add_histories_ok l hs ix K :
  IndexOk f hs ix → (∀ x, x ∈ hs ++ l → h_command x ∈ K) → Z.of_nat (length K) < u32_limit → IndexOk f (hs ++ l) (add_histories l ix).
Proof.
  revert hs ix. induction l as [|h l IH]; intros hs ix Hok HK Hlim; [by rewrite app_nil_r|]. rewrite cons_middle, app_assoc in *. cbn [add_histories foldl].
  apply IH; [|done|done]. apply (add_one_ok hs h ix K); [done| |done]. intros x Hx. apply HK. rewrite !elem_of_app. tauto.
Qed.

(** A row is represented by a newer one of its group. *)
Definition covers_row rs r g : Prop := g ∈ rs ∧ page_key g = page_key r ∧ w_timestamp r ≤ w_timestamp g.

Lemma page_represents p p' rs l r :
  unique_pager p → NoDup (w_id <$> rs) → Forall (λ x, w_timestamp x ≠ 0) rs → paged_next p rs = (p', Some l) →
  r ∈ rs → page_row p r = true → ∃ g, covers_row rs r g ∧ page_row p g = true ∧ (g ∈ l ∨ page_row p' g = true).
Proof.
  intros Hp Hn Hts Hl Hr Hpr. destruct (group_newest_represents page_key (filter (λ x, page_row p x = true) rs) r) as (g & Hg & Hk & Ht).
  - apply Forall_forall. intros x [_ Hx]%list_elem_of_filter. by apply (proj1 (Forall_forall _ _) Hts).
  - by apply list_elem_of_filter.
  - fold (representatives p rs) in Hg. destruct (representatives_in p rs g Hg) as [Hgr Hgp]. exists g.
    destruct (page_taken p p' rs l Hp Hn Hl) as (_ & _ & _ & _ & _ & Hall). split; [done|]. split; [done|]. by apply Hall.
Qed.

Lemma page_fewer p p' rs l :
  unique_pager p → NoDup (w_id <$> rs) → paged_next p rs = (p', Some l) →
  (length (filter (λ r, page_row p' r = true) rs) < length (filter (λ r, page_row p r = true) rs))%nat.
Proof.
  intros Hp Hn Hl. destruct (page_taken p p' rs l Hp Hn Hl) as (_ & _ & _ & Hmono & (r & Hr & Hpr & Hpr') & _).
  assert (filter (λ r, page_row p' r = true) rs = filter (λ r, page_row p' r = true) (filter (λ r, page_row p r = true) rs)) as ->.
  { rewrite list_filter_filter. apply list_filter_iff. intros x. split; [|tauto]. intros Hx. split; [done|by apply Hmono]. }
  apply (length_filter_lt _ _ r); [by apply list_elem_of_filter|congruence].
Qed.

(** Reading to the end adds only rows that are there, and of every group the newest. *)
Lemma build_index_only_ok fuel p rs ix hs K :
  unique_pager p → NoDup (w_id <$> rs) → Forall (λ x, w_timestamp x ≠ 0) rs →
  (length (filter (λ r, page_row p r = true) rs) < fuel)%nat →
  IndexOk f hs ix → (∀ h, h ∈ hs → h_command h ∈ K) → (∀ r, r ∈ rs → w_command r ∈ K) → Z.of_nat (length K) < u32_limit →
  ∃ hs', IndexOk f (hs ++ hs') (build_index_only fuel p rs ix) ∧ (∀ h, h ∈ hs' → ∃ r, r ∈ rs ∧ h = from_row r) ∧
    ∀ r, r ∈ rs → page_row p r = true → ∃ g, covers_row rs r g ∧ page_row p g = true ∧ from_row g ∈ hs'.
Proof.
  intros Hp Hn Hts. revert p Hp ix hs. induction fuel as [|fuel IH]; intros p Hp ix hs Hfuel Hok HK HKr Hlim; [lia|]. cbn [build_index_only]. unfold load_page.
  destruct (paged_next p rs) as [p' [l|]] eqn:El.
  - destruct (page_taken p p' rs l Hp Hn El) as (Hp' & _ & Hin & Hmono & _). pose proof (page_fewer p p' rs l Hp Hn El).
    destruct (IH p' Hp' (add_histories (from_row <$> l) ix) (hs ++ (from_row <$> l))) as (hs' & Hok' & Hsub & Hcov); [lia| | |done|done|].
    + apply (add_histories_ok _ _ _ K); [done| |done]. intros x [Hx|(r & -> & Hr)%list_elem_of_fmap]%elem_of_app; [by apply HK|]. by apply HKr, Hin.
    + intros x [Hx|(r & -> & Hr)%list_elem_of_fmap]%elem_of_app; [by apply HK|]. by apply HKr, Hin.
    + exists ((from_row <$> l) ++ hs'). rewrite app_assoc. split; [done|]. split.
      * intros x [(r & -> & Hr)%list_elem_of_fmap|Hx]%elem_of_app; [exists r; split; [by apply Hin|done]|by apply Hsub].
      * intros r Hr Hpr. destruct (page_represents p p' rs l r Hp Hn Hts El Hr Hpr) as (g & (Hg & Hk & Ht) & Hgp & [Hgl|Hgp']).
        -- exists g. split_and!; [done|done|]. apply elem_of_app. left. by apply list_elem_of_fmap_2.
        -- destruct (Hcov g Hg Hgp') as (g' & (Hg' & Hk' & Ht') & Hgp'' & Hin'). exists g'.
           split_and!; [split_and!; [done|congruence|lia]|by apply Hmono|]. apply elem_of_app. by right.
  - exists []. rewrite app_nil_r. split_and!; [done|by intros h Hh%elem_of_nil|]. intros r Hr Hpr. pose proof (page_none p p' rs Hp Hts El r Hr). congruence.
Qed.
End loading.

(** ** No command is missed *)

Section indexing.
Context `{Diacritics, UuidBytes, RodeoLaws, Weights, BroadcastLaws, Rmp, CryptoLaws, PackLib}.
Context (k : key) (host : HostId) (fresh : RecordIdx → RecordId * Z) (f : OrFilter string).
Implicit Types (D : Daemon) (h g : Entry) (hs : list Entry) (K : list string).

Definition pending D : list DaemonEvent := chan_pending (d_bus D).

(** What the filters of a search look at. *)
Definition group h : string * string * string * string := (h_command h, h_cwd h, o_raw (h_origin h), h_session h).
Definition db_ok D : Prop := ∀ h, h ∈ d_db D → HistorySearch.storable h ∧ h_timestamp h ≠ 0.

(** An entry is in the index, on the bus, or still to be read by the loader. *)
Definition reaches_index D hs g : Prop :=
  g ∈ hs ∨ HistoryEnded g ∈ pending D ∨ ∃ p, d_loader D = Some p ∧ page_row p (to_row g) = true.
Definition newer_in_group D h g : Prop := g ∈ d_db D ∧ h_deleted_at g = None ∧ group g = group h ∧ h_timestamp h ≤ h_timestamp g.

(** The index was filled with [hs]; [K] are the commands that may be in it. *)
Record Indexing K D hs : Prop := mk_indexing {
  in_ok : IndexOk f hs (d_index D);
  in_hs : ∀ h, h ∈ hs → h_command h ∈ K;
  in_db : ∀ h, h ∈ d_db D → h_command h ∈ K;
  in_events : ∀ e, e ∈ pending D → match e with HistoryEnded h => h_command h ∈ K | HistorySynced _ => False | _ => True end;
  in_bus : chan_intact BUS_CAPACITY (d_bus D);
  in_ids : NoDup (h_id <$> d_db D);
  in_started : d_started D = true;
  in_rebuilds : d_rebuilds D = [];
  in_pager : ∀ p, d_loader D = Some p → unique_pager p ∧ pg_deleted p = false;
  in_cover : ∀ h, h ∈ d_db D → h_deleted_at h = None → ∃ g, newer_in_group D h g ∧ reaches_index D hs g
}.

Lemma row_time h : HistorySearch.storable h → w_timestamp (to_row h) = h_timestamp h.
Proof. intros Hs. apply i64_bits, Hs. Qed.

Lemma rows_ok D : db_ok D → NoDup (h_id <$> d_db D) → NoDup (w_id <$> rows D) ∧ Forall (λ r, w_timestamp r ≠ 0) (rows D).
Proof.
  intros Hdb Hn. unfold rows. split; [by rewrite <- list_fmap_compose|]. apply Forall_fmap, Forall_forall. intros h Hh. destruct (Hdb h Hh) as [Hs Ht]. cbn [compose]. by rewrite row_time.
Qed.

(** Fields that the invariant does not speak of. *)
Lemma indexing_frame K D D' hs :
  d_index D' = d_index D → d_db D' = d_db D → d_bus D' = d_bus D → d_started D' = d_started D → d_rebuilds D' = d_rebuilds D → d_loader D' = d_loader D →
  Indexing K D hs → Indexing K D' hs.
Proof.
  intros E1 E2 E3 E4 E5 E6 [I1 I2 I3 I4 I5 I6 I7 I8 I9 I10]. split; unfold newer_in_group, reaches_index, pending in *; rewrite ?E1, ?E2, ?E3, ?E4, ?E5, ?E6; done.
Qed.

Lemma indexing_refresh K D hs now : Indexing K D hs → Indexing K (build_frecency now D) hs.
Proof. intros [I1 I2 I3 I4 I5 I6 I7 I8 I9 I10]. split; try done. by apply refresh_ok. Qed.

Lemma indexing_emit K D hs e :
  Indexing K D hs → (length (pending D) < BUS_CAPACITY)%nat → match e with HistoryEnded h => h_command h ∈ K | HistorySynced _ => False | _ => True end →
  Indexing K (emit e D) hs.
Proof.
  intros [I1 I2 I3 I4 I5 I6 I7 I8 I9 I10] Hl He. destruct (pending_send BUS_CAPACITY e (d_bus D) I5 Hl) as [Hi Hp]. split; try done.
  - unfold pending. cbn [d_bus emit set_shared]. rewrite Hp. intros x [Hx| ->%list_elem_of_singleton]%elem_of_app; [by apply I4|done].
  - intros h Hh Hd. destruct (I10 h Hh Hd) as (g & Hg & Hr). exists g. split; [done|]. unfold reaches_index, pending in *. cbn [d_bus emit set_shared d_loader]. rewrite Hp, elem_of_app. tauto.
Qed.

Lemma save_raw_db (db : HistoryDb.t) h :
  NoDup (h_id <$> db) →
  HistoryDb.save_raw db h = db ∨ (HistoryDb.save_raw db h = db ++ [h] ∧ NoDup (h_id <$> db ++ [h])).
Proof.
  intros Hn. unfold HistoryDb.save_raw. destruct (existsb _ db) eqn:E; [by left|]. right. split; [done|]. rewrite fmap_app. apply NoDup_app. split_and!; [done| |apply NoDup_singleton].
  intros i (x & -> & Hx)%list_elem_of_fmap Hi. cbn in Hi. apply list_elem_of_singleton in Hi. apply not_true_iff_false in E. apply E. apply existsb_elem. exists x. split; [done|].
  apply bool_decide_eq_true. left. congruence.
Qed.

(** An entry that is saved is announced. *)
Lemma indexing_save K D hs h records :
  Indexing K D hs → (length (pending D) < BUS_CAPACITY)%nat →
  Indexing (K ++ [h_command h]) (emit (HistoryEnded h) (set_shared (HistoryDb.save_raw (d_db D) h) records (d_files D) (d_bus D) D)) hs.
Proof.
  intros [I1 I2 I3 I4 I5 I6 I7 I8 I9 I10] Hl. destruct (pending_send BUS_CAPACITY (HistoryEnded h) (d_bus D) I5 Hl) as [Hi Hp].
  assert (h_command h ∈ K ++ [h_command h]) as HKh by (apply elem_of_app; right; left).
  assert (∀ c, c ∈ K → c ∈ K ++ [h_command h]) as HK by (intros c Hc; apply elem_of_app; by left).
  assert (∀ g, g ∈ HistoryDb.save_raw (d_db D) h → g ∈ d_db D ∨ g = h) as Hsub.
  { intros g. destruct (save_raw_db (d_db D) h I6) as [-> | [-> _]]; [by left|]. rewrite elem_of_app, list_elem_of_singleton. tauto. }
  assert (∀ g, g ∈ d_db D → g ∈ HistoryDb.save_raw (d_db D) h) as Hsup.
  { intros g. destruct (save_raw_db (d_db D) h I6) as [-> | [-> _]]; [done|]. rewrite elem_of_app. tauto. }
  split; try done; unfold pending; cbn [d_bus d_db emit set_shared]; rewrite ?Hp.
  - intros x Hx. by apply HK, I2.
  - intros g [Hg| ->]%Hsub; [by apply HK, I3|done].
  - intros e [He| ->%list_elem_of_singleton]%elem_of_app; [|done]. apply I4 in He. destruct e; try done. by apply HK.
  - destruct (save_raw_db (d_db D) h I6) as [-> | [-> ?]]; done.
  - intros x Hx Hd. unfold newer_in_group, reaches_index, pending. cbn [d_bus d_db emit set_shared d_loader]. rewrite Hp. setoid_rewrite elem_of_app.
    destruct (decide (x ∈ d_db D)) as [Hin|Hnin].
    + destruct (I10 x Hin Hd) as (g & (G1 & G2 & G3 & G4) & Hr). exists g. split; [split_and!; [by apply Hsup|done..]|]. unfold reaches_index, pending in Hr. tauto.
    + apply Hsub in Hx as Hx'. destruct Hx' as [? | ->]; [done|]. exists h. split; [split_and!; done|]. right. left. right. left.
Qed.

(** A row of the database is its entry. *)
Lemma row_entry D g : db_ok D → g ∈ d_db D → from_row (to_row g) = g.
Proof. intros Hdb Hg. apply stored_entry_reads_back. by apply Hdb. Qed.

Lemma covering_row D h r :
  db_ok D → h ∈ d_db D → covers_row (rows D) (to_row h) r → w_deleted_at r = None → ∃ g, r = to_row g ∧ newer_in_group D h g.
Proof.
  intros Hdb Hh (Hr & Hk & Ht) Hd. apply list_elem_of_fmap in Hr as (g & -> & Hg). exists g. split; [done|]. split_and!; [done| |exact Hk|].
  - cbn in Hd. by destruct (h_deleted_at g).
  - by rewrite !row_time in Ht by (by apply Hdb).
Qed.

Lemma active_row p r : pg_deleted p = false → page_row p r = true → w_deleted_at r = None.
Proof. unfold page_row. intros ->. cbn. intros [Hd _]%andb_true_iff. by apply bool_decide_eq_true in Hd. Qed.

Lemma indexing_load K D hs now :
  Indexing K D hs → db_ok D → Z.of_nat (length K) < u32_limit → ∃ hs', Indexing K (loader_turn now D) hs'.
Proof.
  intros I Hdb Hlim. pose proof I as [I1 I2 I3 I4 I5 I6 I7 I8 I9 I10]. unfold loader_turn. destruct (d_loader D) as [p|] eqn:Ep; [|by exists hs].
  destruct (I9 p eq_refl) as [Hp Hdel]. destruct (rows_ok D Hdb I6) as [Hn Hts]. unfold load_page. destruct (paged_next p (rows D)) as [p' [l|]] eqn:El.
  - destruct (page_taken p p' (rows D) l Hp Hn El) as (Hp' & Hdel' & Hin & Hmono & _). rewrite Hdel in Hdel'.
    assert (∀ x, x ∈ hs ++ (from_row <$> l) → h_command x ∈ K) as HK.
    { intros x [Hx|(r & -> & Hr)%list_elem_of_fmap]%elem_of_app; [by apply I2|]. apply Hin in Hr as [(g & -> & Hg)%list_elem_of_fmap _]. by apply (I3 g). }
    exists (hs ++ (from_row <$> l)). split; try done.
    + by apply (add_histories_ok f _ _ _ K).
    + cbn [d_loader set_search]. by intros q [= <-].
    + intros h Hh Hd. destruct (I10 h Hh Hd) as (g & (G1 & G2 & G3 & G4) & Hr). unfold reaches_index in *. cbn [d_loader set_search]. rewrite Ep in Hr.
      destruct Hr as [Hr|[Hr|(q & [= <-] & Hr)]].
      * exists g. split; [done|]. left. apply elem_of_app. by left.
      * exists g. split; [done|]. right. by left.
      * assert (to_row g ∈ rows D) as Hgr by (by apply list_elem_of_fmap_2).
        destruct (page_represents p p' (rows D) l (to_row g) Hp Hn Hts El Hgr Hr) as (r & Hc & Hrp & Hrl).
        destruct (covering_row D g r Hdb G1 Hc (active_row _ _ Hdel Hrp)) as (g' & -> & (G1' & G2' & G3' & G4')). exists g'.
        split; [split_and!; [done|done|congruence|lia]|]. destruct Hrl as [Hrl|Hrl]; [left|right; right; by exists p'].
        apply elem_of_app. right. rewrite <- (row_entry D g') by done. by apply list_elem_of_fmap_2.
  - exists hs. apply (indexing_refresh K _ hs now) in I as [J1 _ _ _ _ _ _ _ _ _]. split; try done.
    intros h Hh Hd. destruct (I10 h Hh Hd) as (g & Hg & Hr). exists g. split; [done|]. unfold reaches_index in *. cbn [d_loader set_search]. rewrite Ep in Hr.
    destruct Hr as [Hr|[Hr|(q & [= <-] & Hr)]]; [by left|right; by left|]. pose proof (page_none p p' (rows D) Hp Hts El (to_row g)) as Hf. rewrite Hf in Hr; [done|].
    apply list_elem_of_fmap_2, Hg.
Qed.

(** A rebuild finds everything again. *)
Lemma indexing_rebuild K D hs :
  Indexing K D hs → db_ok D → Z.of_nat (length K) < u32_limit → ∃ hs', Indexing K (rebuild_index_only D) hs'.
Proof.
  intros [I1 I2 I3 I4 I5 I6 I7 I8 I9 I10] Hdb Hlim. unfold rebuild_index_only. rewrite I7, (io_shells _ _ _ I1). destruct (rows_ok D Hdb I6) as [Hn Hts].
  destruct (build_index_only_ok f (S (length (d_db D))) pager (rows D) (index_new f) [] K) as (hs' & Hok & Hsub & Hcov); try done.
  - split; [done|]. unfold pager, PAGE_SIZE. cbn [page_size]. lia.
  - pose proof (length_filter (λ r, page_row pager r = true) (rows D)) as Hl. unfold rows in *. rewrite length_fmap in Hl. lia.
  - apply index_new_ok.
  - by intros h Hh%elem_of_nil.
  - intros r (g & -> & Hg)%list_elem_of_fmap. by apply (I3 g).
  - exists hs'. split; try done.
    + intros h (r & (g & -> & Hg)%list_elem_of_fmap & ->)%Hsub. by apply (I3 g).
    + intros h Hh Hd. destruct (Hcov (to_row h)) as (r & Hc & Hrp & Hin).
      * by apply list_elem_of_fmap_2.
      * unfold page_row. cbn. by rewrite Hd.
      * destruct (covering_row D h r Hdb Hh Hc (active_row pager r eq_refl Hrp)) as (g & -> & Hg). exists g. split; [done|]. left.
        by rewrite (row_entry D g) in Hin by (done || apply Hg).
Qed.

(** What a turn of the event loop takes from the bus. *)
Lemma indexing_receive K D hs e l bus :
  Indexing K D hs → pending D = e :: l → chan_intact BUS_CAPACITY bus → chan_pending bus = l → (∀ h, e ≠ HistoryEnded h) →
  Indexing K (set_shared (d_db D) (d_records D) (d_files D) bus D) hs.
Proof.
  intros [I1 I2 I3 I4 I5 I6 I7 I8 I9 I10] Hp Hi Hl Hne. split; try done.
  - unfold pending. cbn [d_bus set_shared]. rewrite Hl. intros x Hx. apply I4. rewrite Hp. by right.
  - intros h Hh Hd. destruct (I10 h Hh Hd) as (g & Hg & Hr). exists g. split; [done|]. unfold reaches_index in *. rewrite Hp in Hr.
    unfold pending. cbn [d_bus d_loader set_shared]. rewrite Hl. destruct Hr as [Hr|[[<-|Hr]%elem_of_cons|Hr]]; [by left|by destruct (Hne g)|right; by left|right; by right].
Qed.

Lemma indexing_loop K D hs now :
  Indexing K D hs → db_ok D → Z.of_nat (length K) < u32_limit → ∃ hs', Indexing K (loop_turn now D) hs'.
Proof.
  intros I Hdb Hlim. unfold loop_turn. destruct (d_stopped D); [by exists hs|]. pose proof (pending_recv BUS_CAPACITY (d_bus D) (in_bus _ _ _ I)) as Hr.
  fold (pending D) in Hr. destruct (pending D) as [|e l] eqn:Ep; [rewrite Hr; by exists hs|]. destruct Hr as (bus & -> & Hi & Hl).
  pose proof (in_events _ _ _ I e ltac:(rewrite Ep; left)) as He.
  assert ((∃ h, e = HistoryEnded h) ∨ ∀ h, e ≠ HistoryEnded h) as [[h ->]|Hne] by (destruct e; naive_solver).
  - exists (hs ++ [h]). destruct I as [I1 I2 I3 I4 I5 I6 I7 I8 I9 I10]. split; try done.
    + by apply (add_one_ok f hs h _ K).
    + intros x [Hx| ->%list_elem_of_singleton]%elem_of_app; [by apply I2|done].
    + unfold pending. cbn. rewrite Hl. intros x Hx. apply I4. rewrite Ep. by right.
    + intros x Hx Hd. destruct (I10 x Hx Hd) as (g & Hg & Hr). exists g. split; [done|]. unfold reaches_index in *. rewrite Ep in Hr. unfold pending. cbn. rewrite Hl, elem_of_app.
      destruct Hr as [Hr|[[[= ->]|Hr]%elem_of_cons|Hr]]; [by left; left|left; right; left|right; by left|right; by right].
  - pose proof (indexing_receive K D hs e l bus I Ep Hi Hl Hne) as J.
    destruct e; try done; try (exists hs; by eapply indexing_frame; [..|exact J]).
    + by destruct (Hne h).
    + exists hs. unfold dispatch_event, sync_event. cbn [semantic_event search_event set_shared d_started]. rewrite (in_started _ _ _ I). by eapply indexing_frame; [..|exact J].
    + exact (indexing_rebuild K _ hs J Hdb Hlim).
    + exact (indexing_rebuild K _ hs J Hdb Hlim).
    + exact (indexing_rebuild K _ hs J Hdb Hlim).
    + exists hs. unfold dispatch_event. cbn [search_event semantic_event sync_event set_shared d_started]. rewrite (in_started _ _ _ I). by apply indexing_refresh.
Qed.

(** *** All steps *)

(** Every search asks for the shells that the index has, so that none begins a rebuild (the rebuilds that events ask for
    are steps of the loop), and what is random is usable. *)
Definition plain_step (s : DaemonStep) : Prop :=
  match s with SBeginRebuild fs => default Filter.all (Filter.from_list fs) = f | SEnd _ d _ _ => entropy_ok (draw_entropy d) | _ => True end.
(** The bus never fills, so that no event is dropped for a slow reader. *)
Fixpoint keeps_up D (steps : list DaemonStep) : Prop :=
  match steps with [] => True | s :: steps => (length (pending D) < BUS_CAPACITY)%nat ∧ keeps_up (daemon_step k host fresh D s) steps end.

Lemma push_total d h st : entropy_ok (draw_entropy d) → ∃ st' x, HistoryStore.push k host d h st = (st', Ok x).
Proof.
  intros He. unfold HistoryStore.push, HistoryStore.push_record, push_event, encrypt.
  edestruct (encrypt_sync_total (draw_entropy d)) as [data ->]; [done|]. eauto.
Qed.

Lemma end_history_db now d cap req D : ∃ l, d_db (end_history k host fresh now d cap req D).1 = d_db D ++ l.
Proof.
  unfold end_history. destruct (d_running D !! _) as [h|]; [|exists []; by rewrite app_nil_r]. cbn [d_started set_running]. destruct (d_started D); [|exists []; by rewrite app_nil_r].
  assert (∃ l, HistoryDb.save_raw (d_db D) (finished now req h) = d_db D ++ l) as [l Hl].
  { unfold HistoryDb.save_raw. destruct (existsb _ _); [exists []; by rewrite app_nil_r|by eexists]. }
  exists l. cbn [d_db set_running]. destruct (HistoryStore.push _ _ _ _ _) as [records [[i x]|e]]; exact Hl.
Qed.

Lemma dispatch_db now e D : d_db (dispatch_event now e D) = d_db D.
Proof. destruct e; cbn; unfold rebuild_index_only; repeat case_match; done. Qed.

Lemma step_db D s : ∃ l, d_db (daemon_step k host fresh D s) = d_db D ++ l.
Proof.
  destruct s; cbn [daemon_step]; try apply end_history_db; exists []; rewrite app_nil_r.
  - unfold start_history. destruct (Origin.try_from _); [|done]. cbn. by destruct (d_started D).
  - unfold cancel_history. by destruct (_ !! _).
  - by destruct e.
  - unfold loader_turn. repeat case_match; done.
  - unfold loop_turn. destruct (d_stopped D); [done|]. destruct (chan_recv _) as [[[e|n|] bus]|]; try done. destruct e; by rewrite ?dispatch_db.
  - done.
  - done.
  - done.
  - unfold begin_rebuild. by case_decide.
  - unfold rebuild_turn. repeat case_match; done.
Qed.

Lemma steps_db steps D : ∃ l, d_db (foldl (daemon_step k host fresh) D steps) = d_db D ++ l.
Proof.
  revert D. induction steps as [|s steps IH]; intros D; [exists []; by rewrite app_nil_r|]. cbn. destruct (IH (daemon_step k host fresh D s)) as [l ->].
  destruct (step_db D s) as [l' ->]. exists (l' ++ l). by rewrite <- app_assoc.
Qed.

Lemma indexing_step K D hs s :
  Indexing K D hs → db_ok D → (length (pending D) < BUS_CAPACITY)%nat → plain_step s → Z.of_nat (length K) < u32_limit →
  ∃ K' hs', Indexing K' (daemon_step k host fresh D s) hs' ∧ (length K' ≤ S (length K))%nat.
Proof.
  intros I Hdb Hl Hs Hlim.
  assert (∀ D' hs', Indexing K D' hs' → ∃ K' hs', Indexing K' D' hs' ∧ (length K' ≤ S (length K))%nat) as same.
  { intros D' hs' J. exists K, hs'. split; [done|lia]. }
  destruct s as [p req|now d cap req|id|e|now|now|now|cs|id ranges|fs|now i]; cbn [daemon_step].
  - apply (same _ hs). unfold start_history. destruct (Origin.try_from _) as [o|e]; [|done]. cbn [fst]. rewrite (in_started _ _ _ I).
    eapply indexing_frame; [..|apply (indexing_emit K D hs); [done|done|]]; done.
  - unfold end_history. destruct (d_running D !! _) as [h|]; [|by apply (same _ hs)]. cbn [d_started set_running]. rewrite (in_started _ _ _ I).
    set (h' := finished now req h). destruct (push_total d h' (d_records D) Hs) as (st' & [i x] & Ep). cbn [d_records set_running]. rewrite Ep. cbn [fst].
    exists (K ++ [h_command h']), hs. split; [|rewrite length_app; cbn; lia].
    eapply indexing_frame; [..|apply (indexing_save K D hs h' (Packer.try_pack fresh (mk_series host History) cap st').1 I Hl)]; done.
  - apply (same _ hs). unfold cancel_history. destruct (_ !! _); [|done]. by eapply indexing_frame; [..|exact I].
  - apply (same _ hs). destruct e as [e|]; [|done]. apply indexing_emit; [done|done|]. by destruct e.
  - destruct (indexing_load K D hs now I Hdb Hlim) as [hs' J]. by apply (same _ hs').
  - destruct (indexing_loop K D hs now I Hdb Hlim) as [hs' J]. by apply (same _ hs').
  - apply (same _ hs). by apply indexing_refresh.
  - apply (same _ hs). by eapply indexing_frame; [..|exact I].
  - apply (same _ hs). by eapply indexing_frame; [..|exact I].
  - apply (same _ hs). unfold begin_rebuild. rewrite Hs, decide_True by apply (io_shells _ _ _ (in_ok _ _ _ I)). done.
  - apply (same _ hs). unfold rebuild_turn. by rewrite (in_rebuilds _ _ _ I).
Qed.

Lemma indexing_steps steps K D hs :
  Indexing K D hs → db_ok (foldl (daemon_step k host fresh) D steps) → keeps_up D steps → Forall plain_step steps →
  Z.of_nat (length K + length steps) < u32_limit → ∃ K' hs', Indexing K' (foldl (daemon_step k host fresh) D steps) hs'.
Proof.
  revert K D hs. induction steps as [|s steps IH]; intros K D hs I Hdb Hk Hf Hlim; [by exists K, hs|]. destruct Hk as [Hl Hk]. inversion_clear Hf as [|? ? Hs Hf'].
  cbn [foldl length] in *. destruct (indexing_step K D hs s I) as (K' & hs' & I' & Hle); [|done|done|lia|].
  - intros h Hh. apply Hdb. destruct (steps_db steps (daemon_step k host fresh D s)) as [l ->]. destruct (step_db D s) as [l' ->]. rewrite !elem_of_app. tauto.
  - apply (IH K' _ hs'); [done|done|done|done|lia].
Qed.

(** A daemon that has just started, with an empty index and bus. *)
Definition just_started D : Prop :=
  d_started D = true ∧ d_index D = index_new f ∧ d_bus D = chan_new BUS_CAPACITY ∧ d_loader D = Some pager ∧ d_rebuilds D = [].

Lemma indexing_starts D : just_started D → NoDup (h_id <$> d_db D) → Indexing (h_command <$> d_db D) D [].
Proof.
  intros (S1 & S2 & S3 & S4 & S5) Hn. destruct (pending_new BUS_CAPACITY) as [Hi Hp]. split; unfold pending, reaches_index; rewrite ?S1, ?S2, ?S3, ?S4, ?S5, ?Hp; try done.
  - apply index_new_ok.
  - by intros h Hh%elem_of_nil.
  - intros h Hh. by apply list_elem_of_fmap_2.
  - by intros e He%elem_of_nil.
  - intros p [= <-]. split; [split; [done|]|done]. unfold pager, PAGE_SIZE. cbn [page_size]. lia.
  - intros h Hh Hd. exists h. split; [by split_and!|]. right. right. exists pager. split; [done|]. unfold page_row. cbn. by rewrite Hd.
Qed.

(** Whether a run passes a filter. *)
Definition passes (m : IndexFilterMode) h : Prop := mode_holds m [h] = true.

Lemma passes_group m h g l : group g = group h → g ∈ l → passes m h → mode_holds m l = true.
Proof.
  intros [= _ Hc Ho Hs] Hg. unfold passes. destruct m; cbn [mode_holds existsb]; rewrite ?orb_false_r; try done.
  - intros Hp. apply existsb_elem. exists g. split; [done|]. by rewrite Hc.
  - intros Hp. apply existsb_elem. exists g. split; [done|]. by rewrite Hc.
  - intros Hp. apply existsb_elem. exists g. split; [done|]. by rewrite Ho.
  - destruct (parse_uuid_bytes s) as [u|]; [|done]. cbn. rewrite ?orb_false_r. intros Hp. apply existsb_elem. exists g. split; [done|]. by rewrite Hs.
Qed.

Lemma omap_length {A B} (g : A → option B) l : (length (omap g l) ≤ length l)%nat.
Proof. induction l as [|x l IH]; [done|]. cbn. destruct (g x); cbn; lia. Qed.

(** A command with a run in the index is found by every search that its run passes. *)
Lemma indexed_found `{FrizbeeLaws} hs ix m h g query limit :
  IndexOk f hs ix → g ∈ hs → indexed f g = true → group g = group h → h_timestamp h ≤ h_timestamp g → passes m h →
  score_of (normalize_diacritics (truncate_query query)) (normalize_diacritics (h_command h)) ≠ None → (length (haystack ix) ≤ limit)%nat →
  ∃ ids r, search query m limit ix = Some ids ∧ r ∈ hs ∧ h_command r = h_command h ∧ unix_timestamp h ≤ unix_timestamp r ∧
    ∃ u, parse_uuid_bytes (h_id r) = Some u ∧ u ∈ ids.
Proof.
  intros Hok Hg Hi Hgr Ht Hm Hsc Hlim. set (c := h_command h) in *. assert (h_command g = c) as Hc by (by injection Hgr).
  assert (g ∈ runs f hs c) as Hrun by (by apply elem_of_runs). destruct (commands ix !! c) as [d|] eqn:Ed.
  2:{ apply (io_commands _ _ _ Hok) in Ed. rewrite Ed in Hrun. by apply elem_of_nil in Hrun. }
  destruct (io_data _ _ _ Hok c d Ed) as [(r & Hr & Hid & _) _ _ _ _ Hplace]. pose proof Hr as Hr'. unfold newest in Hr'. apply find_split in Hr' as (l1 & l2 & El & Hmax & _).
  rewrite forallb_le in Hmax. assert (r ∈ runs f hs c) as (Hrh & _ & Hrc)%elem_of_runs by (rewrite El; apply elem_of_app; right; left).
  set (q := normalize_diacritics (truncate_query query)) in *. exists (reference f hs query m limit (candidate_frecency ix)), r.
  split_and!; [by apply search_spec|done|done| |].
  - transitivity (unix_timestamp g); [apply Z.div_le_mono; [lia|done]|by apply Hmax].
  - exists (most_recent_id d). split; [done|]. unfold reference. fold q. destruct (score_of q (normalize_diacritics c)) as [sc|] eqn:Es; [|done].
    rewrite take_ge.
    + apply list_elem_of_omap. exists (- sc, - candidate_frecency ix (haystack_index d), Z.of_nat (haystack_index d), c). split; [|unfold latest_id; cbn [snd]; by rewrite Hr].
      unfold sort_by_key. rewrite elem_of_sort_by. unfold found. apply list_elem_of_omap. exists (haystack_index d). split.
      * apply elem_of_seq. apply lookup_lt_Some in Hplace. lia.
      * rewrite Hplace. cbn [mbind option_bind]. rewrite (passes_group m h g _ Hgr Hrun Hm), Es. done.
    + unfold sort_by_key. rewrite length_sort_by. unfold found. rewrite (io_haystack _ _ _ Hok), length_fmap in Hlim. etrans; [apply omap_length|]. by rewrite length_seq.
Qed.

End indexing.

(** ** What an ended command leaves *)

Section recording.
Context `{Rodeo, Broadcast, RmpLaws, CryptoLaws, PackLib} (k : key) (host : HostId) (fresh : RecordIdx → RecordId * Z).

(** A manifest is not an entry of the history log. *)
Lemma push_manifest_log st s i data : read_log (A := HistoryRecord) k (Store.push st (Packer.manifest_record fresh s i data)) = read_log k st.
Proof.
  unfold read_log, Store.push, Store.push_batch, Store.save_raw. cbn [foldl]. destruct (existsb _ st); [done|].
  unfold Store.all_tagged. rewrite filter_app, filter_cons_False, filter_nil by done. by rewrite app_nil_r.
Qed.

Lemma pack_loop_log fuel s count ceiling cursor i st :
  read_log (A := HistoryRecord) k (Packer.pack_loop fresh fuel s count ceiling cursor i st).1 = read_log k st.
Proof.
  revert cursor i st. induction fuel as [|fuel IH]; intros cursor i st; [done|]. cbn [Packer.pack_loop]. destruct (_ && _); [|done].
  destruct (last _) as [r|]; [|done]. destruct (Manifest.encode _) as [data|e]; [|done]. rewrite IH. apply push_manifest_log.
Qed.

Lemma try_pack_log s cap st : read_log (A := HistoryRecord) k (Packer.try_pack fresh s cap st).1 = read_log k st.
Proof.
  unfold Packer.try_pack. destruct cap as [count|]; [|done]. destruct (0 <? count); [|done].
  destruct (match Store.last st _ with Some r => _ | None => _ end) as [start|e]; [|done].
  destruct (Store.last st s) as [r|]; [|done]. destruct (r_idx r <? start); [done|]. apply pack_loop_log.
Qed.

(** A running command that ends is recorded once: it is saved in the history database, becomes the last
    entry of the history log under the record that the reply names (packing included), is announced on
    the bus and runs no more; with its exit code and a duration that is its own or the time since it
    started, never negative and within 64 bits. Ending or cancelling it again is refused and changes
    nothing. *)
Theorem ended_command_is_recorded (D : Daemon) now d cap req h :
  let h' := finished now req h in
  let '(D', reply) := end_history k host fresh now d cap req D in
  d_started D = true → d_running D !! eq_id req = Some h → store_wf (d_records D) → appendable (d_records D) History d → hrec_ok (HCreate h') →
  0 ≤ eq_duration req →
  (∃ idx, reply = Ok (mk_end_reply (draw_id d) idx DAEMON_PROTOCOL_VERSION) ∧ ∀ j, has_idx (d_records D) (mk_series host History) j → j < idx) ∧
  HistoryStore.history k (d_records D') = HistoryStore.history k (d_records D) ++ [HCreate h'] ∧
  d_db D' = HistoryDb.save_raw (d_db D) h' ∧ d_bus D' = chan_send (HistoryEnded h') (d_bus D) ∧ d_running D' = delete (eq_id req) (d_running D) ∧
  (h_exit h' = eq_exit req ∧ 0 ≤ h_duration h' < i64_limit ∧ (eq_duration req ≠ 0 → h_duration h' ≤ eq_duration req)) ∧
  end_history k host fresh now d cap req D' = (D', Err (NotFound (not_running (eq_id req)))) ∧
  cancel_history (eq_id req) D' = (D', Err (NotFound (not_running (eq_id req)))).
Proof.
  intros h'. destruct (end_history k host fresh now d cap req D) as [D' reply] eqn:E. intros Hst Hr Hwf Hap Hok Hdur.
  pose proof (push_event_log (d_records D) d k host (HCreate h') Hwf) as Hp. destruct Hp as (st' & Hpush & Hwf' & Hlog); [exact Hap|exact Hok|].
  unfold end_history in E. rewrite Hr in E. cbn [d_started set_running] in E. rewrite Hst in E. fold h' in E.
  change (HistoryStore.push k host d h' ?x) with (push_event d k host (HCreate h') x) in E. cbn [d_records set_running] in E. rewrite Hpush in E. injection E as <- <-.
  assert (delete (eq_id req) (d_running D) !! eq_id req = None) as Hgone by apply lookup_delete_eq.
  split_and!; cbn [d_records d_db d_bus d_running emit set_shared set_running]; try done.
  - eexists. split; [done|]. apply next_idx_spec; [apply Hwf|done|apply Hap].
  - unfold HistoryStore.history. by rewrite try_pack_log, Hlog.
  - unfold h', finished. cbn [h_duration]. assert (0 < i64_limit) by done. destruct (_ =? 0); lia.
  - unfold h', finished. cbn [h_duration]. assert (0 < i64_limit) by done. destruct (_ =? 0); lia.
  - unfold h', finished. cbn [h_duration]. intros Hn. rewrite (proj2 (Z.eqb_neq _ _) Hn). lia.
  - unfold end_history. cbn [d_running emit set_shared set_running]. by rewrite Hgone.
  - unfold cancel_history. cbn [d_running emit set_shared set_running]. by rewrite Hgone.
Qed.
End recording.

(** ** Backing off *)

Section backoff.
Context `{Rodeo, Broadcast, Rmp, Crypto, PackLib, WideChars} {R : Type} `{Remote R} (k : key) (page_size : Z).
Context (hash_order : list RecordSeriesKey → list RecordSeriesKey) (pack_entropy : RecordId → Entropy) (unpack_entropy : RecordId → nat → Entropy).
Context (error_text : SyncError → string) (max_interval : Z).
#[local] Abbreviation tick := (do_sync_tick k page_size hash_order pack_entropy unpack_entropy error_text max_interval).

(** A tick and its answers. *)
Definition run_tick (D : Daemon) (t : result bool string * result R SyncError * (Z → Z)) : Daemon := (tick t.1.1 t.1.2 t.2 D).1.

Lemma emit_all_period es (D : Daemon) : d_period (emit_all es D) = d_period D ∧ d_settings (emit_all es D) = d_settings D.
Proof. revert D. induction es as [|e es IH]; intros D; [done|]. exact (IH (emit e D)). Qed.

Lemma succeeded_period up down (D : Daemon) :
  d_sync (sync_succeeded k up down D) = Idle ∧ d_period (sync_succeeded k up down D) = sync_frequency (d_settings D).
Proof.
  unfold sync_succeeded. destruct (HistoryStore.incremental_build _ _ _ _) as [db batches]. split; [done|]. cbn [d_period set_sync d_settings set_shared].
  by rewrite (proj2 (emit_all_period _ _)).
Qed.

Lemma run_tick_cases (D : Daemon) t :
  (d_sync (run_tick D t) = Idle ∧ (d_period (run_tick D t) = d_period D ∨ d_period (run_tick D t) = sync_frequency (d_settings D))) ∨
  (d_sync (run_tick D t) = Retrying ∧ d_period (run_tick D t) = Z.min (t.2 (d_period D)) max_interval).
Proof.
  destruct t as [[[[|]|e] c] grow]; unfold run_tick, do_sync_tick; cbn [fst snd]; [|by left; split; [|left]..].
  destruct c as [rm|e]; [|by right]. destruct (sync _ _ _ _ _ _) as [[records rm'] [[up down]|e]]; [|by right].
  left. destruct (succeeded_period up down (set_shared (d_db D) records (d_files D) (d_bus D) D)) as [E1 E2]. split; [exact E1|right; exact E2].
Qed.

(** All ticks of a sequence fail. *)
Fixpoint all_fail (D : Daemon) (ts : list (result bool string * result R SyncError * (Z → Z))) : Prop :=
  match ts with [] => True | t :: ts => d_sync (run_tick D t) = Retrying ∧ all_fail (run_tick D t) ts end.

(** While syncs fail, the time to the next one at least doubles with each failure until it reaches the
    longest interval, which it never exceeds; a sync that succeeds sets it back to what is configured. *)
Theorem failures_back_off (D : Daemon) ts :
  Forall (λ t, ∀ p, 0 ≤ p → 2 * p ≤ t.2 p) ts → 0 < d_period D ≤ max_interval → all_fail D ts →
  let D' := foldl run_tick D ts in
  Z.min (2 ^ Z.of_nat (length ts) * d_period D) max_interval ≤ d_period D' ≤ max_interval ∧
  ∀ up down, d_period (sync_succeeded k up down D') = sync_frequency (d_settings D').
Proof.
  cbv zeta. intros Hg Hp Hf. split; [|intros up down; apply succeeded_period]. revert D Hp Hf. induction Hg as [|t ts Ht _ IH]; intros D Hp Hf.
  - cbn. lia.
  - destruct Hf as [Hr Hf]. cbn [foldl length]. pose proof (Ht (d_period D) ltac:(lia)) as Hgrow.
    destruct (run_tick_cases D t) as [[Hi _]|[_ Hper]]; [congruence|]. destruct (IH (run_tick D t)) as [I1 I2]; [rewrite Hper; lia|done|].
    split; [|done]. etrans; [|exact I1]. rewrite Nat2Z.inj_succ, Z.pow_succ_r, Hper by lia. set (n := 2 ^ Z.of_nat (length ts)).
    assert (1 ≤ n) by (apply (Z.pow_le_mono_r 2 0); lia). nia.
Qed.
End backoff.

(** ** Where the daemon differs from what is said of it *)

Section surprises.
Context `{Rodeo, Diacritics, UuidBytes, Weights, Broadcast, Rmp, Crypto, PackLib, WideChars} {R : Type} `{Remote R} (k : key) (page_size : Z).
Context (hash_order : list RecordSeriesKey → list RecordSeriesKey) (pack_entropy : RecordId → Entropy) (unpack_entropy : RecordId → nat → Entropy).
Context (error_text : SyncError → string) (max_interval : Z).
#[local] Abbreviation timer := (timer_branch k page_size hash_order pack_entropy unpack_entropy error_text max_interval).

(** After a failed sync, with automatic syncs off, a tick that cannot tell whether the user is logged in
    ends the retries: no later tick of the timer does anything. *)
Theorem retries_end_without_success (D : Daemon) msg c grow :
  d_sync D = Retrying → auto_sync (d_settings D) = false →
  let D1 := (timer (Err msg) c grow D).1 in d_sync D1 = Idle ∧ d_period D1 = d_period D ∧ ∀ l c grow, timer l c grow D1 = (D1, None).
Proof. intros Hr Ha. unfold timer_branch. rewrite Hr, Ha. cbn [negb andb]. rewrite bool_decide_false by done. cbn. rewrite Ha. done. Qed.

(** A receiver that lags is taken for a closed bus by the server, which stops; the event loop goes on. *)
Theorem lag_stops_the_server (D : Daemon) n bus rs now :
  d_stopped D = false → chan_recv (d_bus D) = Some (Lagged n, bus) → server_stops (Lagged n :: rs) = true ∧ d_stopped (loop_turn now D) = false.
Proof. intros Hs Hr. unfold loop_turn. by rewrite Hs, Hr. Qed.
End surprises.

(** ** A daemon at work *)

Module DaemonDemo.
Import IndexDemo ToyPack.

(** A channel: its capacity, what is queued and how much was dropped. *)
#[export] Instance queue_bus : Broadcast := {
  Chan := nat * list DaemonEvent * Z; chan_new := λ n, (n, [], 0);
  chan_send := λ e c, if (length c.1.2 <? c.1.1)%nat then (c.1.1, c.1.2 ++ [e], c.2) else (c.1.1, drop 1 c.1.2 ++ [e], c.2 + 1);
  chan_recv := λ c, if 0 <? c.2 then Some (Lagged c.2, (c.1, 0)) else match c.1.2 with [] => None | e :: l => Some (Event e, (c.1.1, l, c.2)) end
}.
#[export] Instance queue_bus_laws : BroadcastLaws.
Proof.
  refine {| chan_pending := λ c : Chan, c.1.2; chan_intact := λ n (c : Chan), c.1.1 = n ∧ c.2 = 0 |}.
  - intros n. done.
  - intros n e [[m l] z] [Hm Hz] Hl. unfold chan_send, queue_bus. cbn [fst snd] in *. subst. by rewrite (proj2 (Nat.ltb_lt _ _) Hl).
  - intros n [[m l] z] [Hm Hz]. cbn in *. subst. destruct l as [|e l]; [done|]. by eexists.
Defined.
#[export] Instance ascii_only : WideChars := λ _, false.

Definition origin : CmdOrigin := Origin.new "box" "ann".
Definition past (id : string) (secs : Z) (command : string) (kind : AuthorKind) : Entry :=
  mk_hist id (secs * 1000000000) 5 0 command "/src"%string "s"%string origin "ann"%string None None (Some "zsh"%string) (Some kind).
Definition daemon (db : list Entry) : Daemon :=
  mk_daemon true false (mk_dsettings true 300) db Store.empty ∅ (chan_new BUS_CAPACITY) ∅ (index_new Filter.all) (Some pager) [] state_new [] Idle 300.
Definition manifest_ids (i : RecordIdx) : RecordId * Z := (Z.to_N (1000 + i), 9).
#[local] Abbreviation step := (daemon_step Toy.key1 2 manifest_ids).

Definition probe (id : string) : Probe := mk_probe None None None origin "x"%string id.
Definition begins (command : string) : StartHistoryRequest := mk_start 9000000000 command "/src"%string "s"%string "box:ann"%string ""%string ""%string "zsh"%string 1.
Definition ends (id : string) : EndHistoryRequest := mk_end id 0 7.

(** A command runs while the loader reads and ends after the page that would have had it. *)
Definition table : list Entry := [past "a1" 1 "make" KindUser; past "a2" 2 "make test" KindUser; past "a3" 3 "make" KindUser].
Definition day : list DaemonStep :=
  [SStart (probe "b1") (begins "make install"); SLoad 10; SEnd 11 draw1 None (ends "b1"); SLoad 12; SLoop 13; SLoad 13; SControl (Some CtlPruned); SLoop 14; SLoop 15; SRefresh 16].
Definition evening : Daemon := foldl step (daemon table) day.

Lemma evening_db : d_db evening = table ++ [mk_hist "b1" 9000000000 7 0 "make install" "/src" "s" origin "ann" None None (Some "zsh") (Some KindUser)].
Proof. by vm_compute. Qed.

Lemma table_ok : db_ok evening.
Proof.
  intros h Hh. rewrite evening_db in Hh. unfold table in Hh. cbn [app] in Hh.
  repeat (apply elem_of_cons in Hh as [->|Hh]; [split; [split; by vm_compute|by vm_compute]|]). by apply elem_of_nil in Hh.
Qed.


(** The command that ended meanwhile is found too. *)
Example evening_finds : search "make i" IGlobal 50 (d_index evening) = Some [[98; 49]].
Proof. by vm_compute. Qed.

(** *** One command *)

Definition started : Daemon := (start_history (probe "b1") (begins "make install") (daemon [])).1.
Definition began : Entry := daemon_capture (probe "b1") 9000000000 "make install" "/src" "s" origin "" "" "zsh" (Some KindUser).

Lemma began_ok : entry_ok (finished 11 (ends "b1") began).
Proof.
  split.
  - split_and!; apply is_str_ascii; reflexivity.
  - split; [done|]. intros s [= <-]. by apply is_str_ascii.
  - split; [split; vm_compute; congruence|done].
  - split; vm_compute; split; congruence.
  - reflexivity.
Qed.

Lemma ended_command_is_recorded_witness :
  let D' := (end_history Toy.key1 2 manifest_ids 11 draw1 (Some 1) (ends "b1") started).1 in
  HistoryStore.history Toy.key1 (d_records D') = [HCreate (finished 11 (ends "b1") began)] ∧ length (d_records D') = 2%nat.
Proof.
  split; [|by vm_compute]. pose proof (ended_command_is_recorded Toy.key1 2 manifest_ids started 11 draw1 (Some 1) (ends "b1") began) as Hrec. cbv zeta in Hrec.
  destruct (end_history _ _ _ _ _ _ _ _) as [D' reply] eqn:E. destruct Hrec as (_ & Hlog & _).
  - done.
  - by vm_compute.
  - apply empty_wf.
  - apply appendable_empty; [exact Toy.rng_ok|split; vm_compute; congruence].
  - split; [exact began_ok|by vm_compute].
  - done.
  - exact Hlog.
Defined.

(** *** Retries *)

#[export] Instance no_server : Remote unit := {
  record_status := λ _, Err "down"%string; page := λ _ _ _ _, Err "down"%string; post_records := λ _ u, (u, Err "down"%string);
  upload_packfile := λ _ _ _ u, (u, Err "down"%string); download_packfile := λ _ _, Err "down"%string; packfile_cap := λ _, None
}.
Definition no_entropy (r : RecordId) : Entropy := Toy.rng.
Definition failing : list (result bool string * result unit SyncError * (Z → Z)) := repeat (Ok true, Ok tt, λ p, 2 * p + p / 5) 3.
#[local] Abbreviation run := (run_tick Toy.key1 100 id no_entropy (λ r _, no_entropy r) (λ _, "failed"%string) 1800).

Lemma failures_back_off_witness :
  Z.min (2 ^ 3 * 300) 1800 ≤ d_period (foldl run (daemon []) failing) ≤ 1800 ∧ d_period (foldl run (daemon []) failing) = 1800 ∧
  d_period (foldl run (daemon []) (take 2 failing)) = 1452.
Proof.
  split; [|by vm_compute].
  refine (proj1 (failures_back_off Toy.key1 100 id no_entropy (λ r _, no_entropy r) (λ _, "failed"%string) 1800 (daemon []) failing _ _ _)).
  - repeat constructor; cbn [snd]; intros p Hp; pose proof (Z.div_pos p 5 Hp); lia.
  - vm_compute. split; [done|discriminate].
  - by vm_compute.
Defined.

Lemma retries_end_without_success_witness :
  let D := set_sync [] Retrying 600 (mk_daemon true false (mk_dsettings false 300) [] Store.empty ∅ (chan_new BUS_CAPACITY) ∅ (index_new Filter.all) None [] state_new [] Idle 300) in
  let timer := timer_branch Toy.key1 100 id no_entropy (λ r _, no_entropy r) (λ _, "failed"%string) 1800 in
  d_sync (timer (Err "locked"%string) (Ok tt) id D).1 = Idle ∧ ∀ l c grow, timer l c grow (timer (Err "locked"%string) (Ok tt) id D).1 = ((timer (Err "locked"%string) (Ok tt) id D).1, None).
Proof.
  pose proof (retries_end_without_success Toy.key1 100 id no_entropy (λ r _, no_entropy r) (λ _, "failed"%string) 1800
    (set_sync [] Retrying 600 (mk_daemon true false (mk_dsettings false 300) [] Store.empty ∅ (chan_new BUS_CAPACITY) ∅ (index_new Filter.all) None [] state_new [] Idle 300))
    "locked"%string (Ok tt) id eq_refl eq_refl) as (H1 & _ & H3). by split.
Defined.

(** *** Gaps *)

(** A request with another filter begins a new index; a command that ends after its first page was read
    and is handled before the index is in place is in neither. *)
Definition race : list DaemonStep :=
  [SLoad 1; SLoad 2; SLoad 3; SBeginRebuild ["zsh"]; SRebuild 4 0; SStart (probe "b1") (begins "make install"); SEnd 11 draw1 None (ends "b1");
   SLoop 12; SLoop 13; SRebuild 14 0; SRebuild 15 0].
Theorem rebuild_misses_command :
  let D := foldl step (daemon table) race in
  (h_id <$> d_db D) = ["a1"; "a2"; "a3"; "b1"]%string ∧ d_loader D = None ∧ d_rebuilds D = [] ∧ pending D = [] ∧
  search "make i" IGlobal 50 (d_index D) = Some [] ∧ search "make" IGlobal 50 (d_index D) = Some [[97; 51]; [97; 50]].
Proof. split_and!; by vm_compute. Qed.

(** A user's command that an agent then ran in the same place is not in a loaded index, though it is in
    one that is filled as commands end. *)
Theorem agent_run_hides_command :
  let db := [past "a0" 1 "ls" KindUser; past "a1" 2 "make" KindUser; past "a2" 3 "make" KindAgent] in
  search "make" IGlobal 50 (d_index (foldl step (daemon db) [SLoad 3; SLoad 4; SLoad 5])) = Some [] ∧
  search "make" IGlobal 50 (add_histories db (index_new Filter.all)) = Some [[97; 49]].
Proof. split_and!; by vm_compute. Qed.

(** The number of uses of a command that was loaded is that of its groups, not of its runs. *)
Theorem loading_miscounts_uses :
  let db := [past "a0" 1 "ls" KindUser; past "a1" 2 "make" KindUser; past "a2" 3 "make" KindUser; past "a3" 4 "make" KindUser] in
  let uses ix := fr_count ∘ global_frecency <$> commands ix !! "make"%string in
  uses (d_index (foldl step (daemon db) [SLoad 3; SLoad 4; SLoad 5])) = Some 1 ∧ uses (add_histories db (index_new Filter.all)) = Some 3.
Proof. split_and!; by vm_compute. Qed.
End DaemonDemo.
