(* ===== verification/HistoryCommand.v ===== *)
(** * The history command and the hooks of a shell ([atuin/src/command/client/history.rs], [sync.rs] and
      [command/client/daemon.rs] of the same crate)

    A shell calls [history start] before a command and [history end] after it. Without the daemon the two
    write the history database and the log themselves, and may run a sync, after which every store is
    built; with it they send requests to the daemon, which is started again where it does not answer or
    is another version. [prune] and [dedup] delete entries through the log. The environment, the clock, the
    connection to the server and the draws of new records are arguments. *)
From stdpp Require Import pretty.
From S2P Require Import Prelude Text Interactive Filter Record Status Rmp RmpWire Encryption SqliteStore Streams Packfile Log Kv ShellConfig Dotfiles Scripts History HistoryStore Semantic SearchQuery HistorySearch SearchIndex Sync Daemon.

(** ** Settings and environment *)

(** The settings that the commands read; the regular expressions are predicates. *)
Record CmdSettings : Type := mk_csettings {
  strip_trailing_whitespace : bool; store_failed : bool;
  history_filter : string → bool; cwd_filter : string → bool; secrets_filter : bool; secret : string → bool;
  filter_mode : option FilterMode; search_filters : list FilterMode; workspaces : bool
}.

(** What the process finds: the probes of [History], the time, the directory, [ATUIN_SHELL] and
    [ATUIN_HISTORY_AUTHOR_KIND] as far as it names a kind. *)
Record Env : Type := mk_env { e_probe : Probe; e_now : Z; e_cwd : string; e_shell : option string; e_kind : option AuthorKind }.

(** [Settings::default_filter_mode] *)
Definition default_filter_mode (st : CmdSettings) (git_root : bool) : FilterMode :=
  let stated := m ← filter_mode st; if decide (m ∈ search_filters st) then Some m else None in
  let usable m := match m with FWorkspace => git_root && workspaces st | _ => true end in
  default FGlobal (or_else stated (List.find usable (search_filters st))).

(** [h.should_save(settings)] *)
Definition saved (st : CmdSettings) (h : Entry) : bool :=
  Entry.should_save (history_filter st) (cwd_filter st) (secrets_filter st) (secret st) h.

(** ** The text of a command *)

(** [trim_end_matches], and the length of a run at the end. *)
Fixpoint drop_while {A} (p : A → bool) (l : list A) : list A :=
  match l with [] => [] | x :: l' => if p x then drop_while p l' else l end.
Fixpoint run_length {A} (p : A → bool) (l : list A) : nat :=
  match l with [] => 0 | x :: l' => if p x then S (run_length p l') else 0 end.

Definition is_blank (c : Ascii.ascii) : bool := bool_decide (c = byte 32) || bool_decide (c = byte 9).
Definition is_backslash (c : Ascii.ascii) : bool := bool_decide (c = byte 92).

(** [normalize_command_for_storage] *)
Definition normalize_command_for_storage (st : CmdSettings) (command : string) : string :=
  if negb (strip_trailing_whitespace st) then command
  else
    let trimmed := drop_while is_blank (reverse (chars command)) in
    if decide (length trimmed = String.length command) then command
    else
      let trailing_backslashes := run_length is_backslash trimmed in
      if Nat.odd trailing_backslashes then command else unchars (reverse trimmed).

(** [NonNulStr::new] *)
Definition non_nul (s : string) : result string nat :=
  match Origin.find_l (byte 0) (chars s) with Some index => Err index | None => Ok s end.

(** [make_starting_history] *)
Definition make_starting_history (st : CmdSettings) (env : Env) (command : string) (author : option string)
    (author_kind : option AuthorKind) (intent : option string) : option Entry :=
  match non_nul (normalize_command_for_storage st command) with
  | Err _ => None
  | Ok command =>
      let author := or_else (normalize_optional_string author) (normalize_optional_string (p_author (e_probe env))) in
      let author_kind := or_else author_kind (match author with Some _ => e_kind env | None => None end) in
      let h := Entry.captured (e_probe env) (e_now env) command (e_cwd env) author None intent (e_shell env) author_kind in
      if saved st h then Some h else None
  end.

(** ** The stores of a client *)

(** [Sqlite::load], [update] and [delete] over the entries of the table. *)
Definition load_entry (id : string) (db : HistoryDb.t) : option Entry := from_row <$> HistorySearch.load id (to_row <$> db).
Definition with_shell (shell : option string) (h : Entry) : Entry :=
  mk_hist (h_id h) (h_timestamp h) (h_duration h) (h_exit h) (h_command h) (h_cwd h) (h_session h) (h_origin h) (h_author h) (h_intent h)
    (h_deleted_at h) shell (h_author_kind h).
Definition update_entry (h : Entry) (db : HistoryDb.t) : HistoryDb.t :=
  (λ e, if decide (h_id e = h_id h) then with_shell (h_shell e) h else e) <$> db.
Definition delete_entry (h : Entry) (db : HistoryDb.t) : HistoryDb.t := HistoryDb.delete_rows db [h_id h].

(** The databases and files of a client, and the time of the last sync in the meta store. *)
Record Client : Type := mk_client {
  c_db : HistoryDb.t; c_records : Store.t; c_files : gmap string string; c_kv : KvDb.t; c_scripts : ScriptDb.t; c_last_sync : option Z
}.
Definition set_stores (db : HistoryDb.t) (records : Store.t) (C : Client) : Client :=
  mk_client db records (c_files C) (c_kv C) (c_scripts C) (c_last_sync C).
Definition set_synced (now : Z) (C : Client) : Client :=
  mk_client (c_db C) (c_records C) (c_files C) (c_kv C) (c_scripts C) (Some now).

Section errors.
Context `{Crypto}.
Inductive CmdError : Type := TookTooLong | PushRefused (e : EncryptionError) | SyncUnknown (e : string) | SyncRefused (e : SyncError).
End errors.

Section commands.
Context `{Rmp, Crypto, PackLib, UuidText, WideChars}.
Context (k : key) (host : HostId).

(** [build] of [sync.rs]: every store, whatever another one reports; [None] is a panic. *)
Definition build (downloaded : list RecordId) (C : Client) : option Client :=
  let records := c_records C in
  let db := HistoryStore.build_all k records downloaded (c_db C) in
  let dot := DotStore.build (A := Var) k (DotStore.build (A := Alias) k (mk_dot records (c_files C))) in
  let kv := KvStore.build k (mk_kv_state records (c_kv C)) in
  '(scripts, _) ← ScriptStore.build k records (c_scripts C);
  Some (mk_client db records (dot_files dot) (kv_db kv) scripts (c_last_sync C)).

(** [Settings::should_sync]; [parse_duration] gives nanoseconds, which [time] takes up to the seconds of 64
    bits. *)
Definition should_sync (auto_sync : bool) (logged_in : result bool string) (frequency : string)
    (parse_duration : string → result Z string) (last_sync : result Z string) (now : Z) : result bool string :=
  if negb auto_sync then Ok false
  else
    let? logged_in := logged_in in
    if negb logged_in then Ok false
    else if decide (frequency = "0") then Ok true
    else
      match parse_duration frequency with
      | Err e => Err ("failed to check sync: " ++ e)%string
      | Ok d =>
          if i64_limit <=? d / 1000000000 then Err "out of range"
          else let? last := last_sync in Ok (d <=? now - last)
      end.

(** ** Start and end *)

(** [handle_start] *)
Definition handle_start (st : CmdSettings) (env : Env) (command : string) (author : option string) (author_kind : option AuthorKind)
    (intent : option string) (C : Client) : Client * option string :=
  match make_starting_history st env command author author_kind intent with
  | None => (C, None)
  | Some h => (set_stores (HistoryDb.save_raw (c_db C) h) (c_records C) C, Some (h_id h))
  end.

(** The duration that [handle_end] stores. *)
Definition end_duration (now : Z) (duration : option Z) (h : Entry) : option Z :=
  let d := default (now - h_timestamp h) duration in
  if (- i64_limit <=? d) && (d <? i64_limit) then Some d else None.

Definition ended (exit duration : Z) (h : Entry) : Entry :=
  mk_hist (h_id h) (h_timestamp h) duration exit (h_command h) (h_cwd h) (h_session h) (h_origin h) (h_author h) (h_intent h)
    (h_deleted_at h) (h_shell h) (h_author_kind h).

Section sync_after.
Context {R : Type} `{Remote R} (page_size : Z) (hash_order : list RecordSeriesKey → list RecordSeriesKey).
Context (pack_entropy : RecordId → Entropy) (unpack_entropy : RecordId → nat → Entropy).

(** The sync at the end of [handle_end]. *)
Definition sync_after (now : Z) (should_sync : result bool string) (connected : result R SyncError) (C : Client)
    : option (Client * option R * result unit CmdError) :=
  match should_sync with
  | Err e => Some (C, None, Err (SyncUnknown e))
  | Ok false => Some (C, None, Ok tt)
  | Ok true =>
      match connected with
      | Err e => Some (C, None, Err (SyncRefused e))
      | Ok rm =>
          match sync page_size k hash_order pack_entropy unpack_entropy (c_records C, rm) with
          | (records, rm, Err e) => Some (set_stores (c_db C) records C, Some rm, Err (SyncRefused e))
          | (records, rm, Ok (_, downloaded)) =>
              C' ← build downloaded (set_synced now (set_stores (c_db C) records C)); Some (C', Some rm, Ok tt)
          end
      end
  end.

(** [handle_end] *)
Definition handle_end (st : CmdSettings) (now : Z) (d : Draw) (should_sync : result bool string) (connected : result R SyncError)
    (id : string) (exit : Z) (duration : option Z) (C : Client) : option (Client * option R * result unit CmdError) :=
  if decide (trim id = "") then Some (C, None, Ok tt)
  else
    match load_entry id (c_db C) with
    | None => Some (C, None, Ok tt)
    | Some h =>
        if 0 <? h_duration h then Some (C, None, Ok tt)
        else if negb (store_failed st) && (0 <? exit)
        then Some (set_stores (delete_entry h (c_db C)) (c_records C) C, None, Ok tt)
        else
          match end_duration now duration h with
          | None => Some (C, None, Err TookTooLong)
          | Some duration =>
              let h := ended exit duration h in
              let db := update_entry h (c_db C) in
              match HistoryStore.push k host d h (c_records C) with
              | (records, Err e) => Some (set_stores db records C, None, Err (PushRefused e))
              | (records, Ok _) => sync_after now should_sync connected (set_stores db records C)
              end
          end
    end.
End sync_after.

(** ** List, prune and dedup *)

(** The filters of [handle_list]. *)
Definition list_filters (st : CmdSettings) (git_root session cwd : bool) : list FilterMode :=
  match session, cwd with
  | true, true => [FSession; FDirectory]
  | true, false => [FSession; FGlobal]
  | false, true => [FGlobal; FDirectory]
  | false, false => [default_filter_mode st git_root; FGlobal]
  end.

Section listing.
Context `{SearchLib, SqlText, SqlBuilder} (ctx : Context_).

(** What [handle_list] prints, first to last. *)
Definition handle_list (st : CmdSettings) (session cwd reversed : bool) (C : Client) : list Entry :=
  let in_git := match c_git_root ctx with Some _ => true | None => false end in
  let history := from_row <$> list_history (list_filters st in_git session cwd) ctx None false false None (to_row <$> c_db C) in
  if reversed then reverse history else history.

(** [db.last()] *)
Definition handle_last (C : Client) : option Entry := from_row <$> last_finished (to_row <$> c_db C).

(** The loop of [handle_prune] and of [handle_dedup]: every entry is deleted in the log, and the record of
    that applied to the database. [draw] is what the records draw, one after the other. *)
Fixpoint delete_matches (draw : nat → Draw) (i : nat) (matches : list Entry) (C : Client) : Client * result unit EncryptionError :=
  match matches with
  | [] => (C, Ok tt)
  | h :: matches =>
      match HistoryStore.delete k host (draw i) (h_id h) (c_records C) with
      | (records, Err e) => (set_stores (c_db C) records C, Err e)
      | (records, Ok (id, _)) =>
          delete_matches draw (S i) matches (set_stores (HistoryStore.build_all k records [id] (c_db C)) records C)
      end
  end.

Definition prune_matches (st : CmdSettings) (C : Client) : list Entry :=
  filter (λ h, saved st h = false) (from_row <$> list_history [FGlobal] ctx None false false None (to_row <$> c_db C)).

(** What a deletion reports: the entries that it names in a dry run, or the event for the daemon. *)
Inductive Outcome : Type := NothingToDo | WouldDelete (l : list Entry) | Deleted (e : ControlEvent) | Refused.

(** The end of both commands. *)
Definition delete_or_show (dry_run : bool) (draw : nat → Draw) (e : ControlEvent) (matches : list Entry) (C : Client)
    : Client * result Outcome EncryptionError :=
  match matches with
  | [] => (C, Ok NothingToDo)
  | _ =>
      if dry_run then (C, Ok (WouldDelete matches))
      else match delete_matches draw 0 matches C with (C, Err e) => (C, Err e) | (C, Ok _) => (C, Ok (Deleted e)) end
  end.

(** [handle_prune] *)
Definition handle_prune (st : CmdSettings) (dry_run : bool) (draw : nat → Draw) (C : Client) : Client * result Outcome EncryptionError :=
  delete_or_show dry_run draw CtlPruned (prune_matches st C) C.

(** [handle_dedup]; keeping no copy is refused. *)
Definition dedup_matches (before dupkeep : Z) (C : Client) : list Entry := from_row <$> get_dups before dupkeep (to_row <$> c_db C).
Definition handle_dedup (before dupkeep : Z) (dry_run : bool) (draw : nat → Draw) (C : Client) : Client * result Outcome EncryptionError :=
  if dupkeep =? 0 then (C, Ok Refused)
  else
    let matches := dedup_matches before dupkeep C in
    delete_or_show dry_run draw (CtlDeleted (h_id <$> matches)) matches C.

(** [InitStore] *)
Definition handle_init_store (draw : nat → Draw) (C : Client) : Client * result unit EncryptionError :=
  let old := from_row <$> list_history [] ctx None false true None (to_row <$> c_db C) in
  let '(records, r) := HistoryStore.init_store k host (imap (λ i h, (draw i, h)) old) (c_records C) in
  (set_stores (c_db C) records C, r).
End listing.
End commands.

(** ** Requests to the daemon *)

(** The causes of an error report, outermost first, and [classify_error]. *)
Inductive Code : Type := CodeUnavailable | CodeUnimplemented | CodeOther.
Inductive Cause : Type := TransportError | GrpcStatus (c : Code) | OtherCause (msg : string).
Inductive DaemonClientErrorKind : Type := Connect | Unavailable | Unimplemented | OtherGrpc | NonGrpc.

Fixpoint classify_error (error : list Cause) : DaemonClientErrorKind :=
  match error with
  | [] => NonGrpc
  | TransportError :: _ => Connect
  | GrpcStatus CodeUnavailable :: _ => Unavailable
  | GrpcStatus CodeUnimplemented :: _ => Unimplemented
  | GrpcStatus CodeOther :: _ => OtherGrpc
  | OtherCause _ :: error => classify_error error
  end.
Definition is_legacy_daemon_error (error : list Cause) : bool := match classify_error error with Unimplemented => true | _ => false end.
Definition should_retry_after_error (error : list Cause) : bool :=
  match classify_error error with Connect | Unavailable | Unimplemented => true | OtherGrpc | NonGrpc => false end.

(** [VersionedReply] *)
Record Versioned (A : Type) : Type := mk_versioned { v_version : string; v_protocol : Z; v_reply : A }.
Arguments mk_versioned {A}. Arguments v_version {A}. Arguments v_protocol {A}. Arguments v_reply {A}.

(** In nanoseconds. *)
Definition STARTUP_POLL : Z := 40000000.
Definition LOCK_POLL : Z := 20000000.
Definition LEGACY_DAEMON_RESTART_MESSAGE : string := "legacy daemon detected; restart daemon manually".

(** What the process can do with the daemon and the machine: connect, the requests of a client, the two
    lock files, the socket, the new process and a monotonic clock. *)
Inductive LockFile : Type := StartupLock | Pidfile.
Inductive TryLock : Type := Locked | WouldBlock | LockFailed (e : list Cause).
Class Supervisor (W : Type) : Type := {
  connect_client : W → W * result unit (list Cause);
  status : W → W * result (Versioned unit) (list Cause);
  shutdown : W → W * result bool (list Cause);
  start_rpc : StartHistoryRequest → W → W * result (Versioned string) (list Cause);
  end_rpc : EndHistoryRequest → W → W * result (Versioned unit) (list Cause);
  cancel_rpc : string → W → W * result (Versioned unit) (list Cause);
  open_lock_file : LockFile → W → W * result unit (list Cause);
  try_lock : LockFile → W → W * TryLock;
  unlock : LockFile → W → W;
  remove_stale_socket_if_present : W → W * result unit (list Cause);
  spawn_daemon_process : W → W * result unit (list Cause);
  clock : W → Z;
  sleep : Z → W → W
}.

(** The settings of the daemon; [startup_timeout] is in nanoseconds, or why [local_timeout] is none. *)
Record DaemonClientSettings : Type := mk_dclient {
  ds_autostart : bool; ds_systemd_socket : bool; ds_timeout : result Z (list Cause); ds_version : string
}.

Section requests.
Context {W : Type} `{Supervisor W} (ds : DaemonClientSettings).

Definition daemon_matches_expected {A} (r : Versioned A) : bool :=
  bool_decide (v_version r = ds_version ds) && (v_protocol r =? DAEMON_PROTOCOL_VERSION).
Definition daemon_mismatch_message {A} (r : Versioned A) : string :=
  if v_protocol r =? DAEMON_PROTOCOL_VERSION
  then ("daemon is out of date: expected " ++ ds_version ds ++ ", got " ++ v_version r)%string
  else ("daemon protocol mismatch: expected " ++ pretty DAEMON_PROTOCOL_VERSION ++ ", got " ++ pretty (v_protocol r))%string.
Definition restart_hint {A} (r : Versioned A) : list Cause :=
  [OtherCause (daemon_mismatch_message r ++ ". Enable `daemon.autostart = true` or restart the daemon manually")].

(** The turns that a wait takes at most. *)
Definition wait_fuel (timeout poll : Z) : nat := S (S (Z.to_nat (timeout / poll))).

(** [wait_for_lock] after the file is open, and the whole of it. *)
Fixpoint lock_loop (fuel : nat) (f : LockFile) (start timeout : Z) (w : W) : option (W * result unit (list Cause)) :=
  match fuel with
  | O => None
  | S fuel =>
      match try_lock f w with
      | (w, Locked) => Some (w, Ok tt)
      | (w, LockFailed e) => Some (w, Err (OtherCause "could not lock" :: e))
      | (w, WouldBlock) =>
          if timeout <=? clock w - start then Some (w, Err [OtherCause "timed out waiting for lock"])
          else lock_loop fuel f start timeout (sleep LOCK_POLL w)
      end
  end.
Definition wait_for_lock (f : LockFile) (timeout : Z) (w : W) : option (W * result unit (list Cause)) :=
  match open_lock_file f w with
  | (w, Err e) => Some (w, Err e)
  | (w, Ok _) => lock_loop (wait_fuel timeout LOCK_POLL) f (clock w) timeout w
  end.
Definition wait_for_pidfile_available (timeout : Z) (w : W) : option (W * result unit (list Cause)) :=
  r ← wait_for_lock Pidfile timeout w; match r with (w, Ok _) => Some (unlock Pidfile w, Ok tt) | (w, Err e) => Some (w, Err e) end.

(** [probe] *)
Inductive ProbeResult : Type := Ready | NeedsRestart (reason : string) | Unreachable (e : list Cause).
Definition probe (w : W) : W * ProbeResult :=
  match connect_client w with
  | (w, Err e) => (w, Unreachable e)
  | (w, Ok _) =>
      match status w with
      | (w, Ok s) => (w, if daemon_matches_expected s then Ready else NeedsRestart (daemon_mismatch_message s))
      | (w, Err e) => (w, Unreachable e)
      end
  end.

(** [request_shutdown] *)
Definition request_shutdown (w : W) : W :=
  match connect_client w with (w, Ok _) => (shutdown w).1 | (w, Err _) => w end.

(** [wait_until_ready]; what it reports when the time is over is the last reason. *)
Fixpoint ready_loop (fuel : nat) (start timeout : Z) (w : W) : option (W * result unit (list Cause)) :=
  match fuel with
  | O => None
  | S fuel =>
      let '(w, p) := probe w in
      let later reason :=
        if timeout <=? clock w - start then Some (w, Err (OtherCause "timed out waiting for daemon startup" :: reason))
        else ready_loop fuel start timeout (sleep STARTUP_POLL w) in
      match p with
      | Ready => Some (w, Ok tt)
      | NeedsRestart reason => later [OtherCause reason]
      | Unreachable e => if is_legacy_daemon_error e then Some (w, Err (OtherCause LEGACY_DAEMON_RESTART_MESSAGE :: e)) else later e
      end
  end.
Definition wait_until_ready (timeout : Z) (w : W) : option (W * result unit (list Cause)) :=
  ready_loop (wait_fuel timeout STARTUP_POLL) (clock w) timeout w.

(** [ensure_daemon_running]; leaving it closes the file of the startup lock. *)
Definition start_daemon (timeout : Z) (w : W) : option (W * result unit (list Cause)) :=
  r ← wait_for_pidfile_available timeout w;
  match r with
  | (w, Err e) => Some (w, Err e)
  | (w, Ok _) =>
      match remove_stale_socket_if_present w with
      | (w, Err e) => Some (w, Err e)
      | (w, Ok _) =>
          match spawn_daemon_process w with
          | (w, Err e) => Some (w, Err e)
          | (w, Ok _) => wait_until_ready timeout w
          end
      end
  end.
Definition ensure_daemon_running (w : W) : option (W * result unit (list Cause)) :=
  if ds_systemd_socket ds then Some (w, Err [OtherCause "daemon autostart is incompatible with `daemon.systemd_socket = true`; use systemd to manage the daemon"])
  else
    match ds_timeout ds with
    | Err e => Some (w, Err e)
    | Ok timeout =>
        r ← wait_for_lock StartupLock timeout w;
        match r with
        | (w, Err e) => Some (w, Err e)
        | (w, Ok _) =>
            let '(w, p) := probe w in
            r ← match p with
                | Ready => Some (w, Ok tt)
                | NeedsRestart _ => start_daemon timeout (request_shutdown w)
                | Unreachable e => if is_legacy_daemon_error e then Some (w, Err (OtherCause LEGACY_DAEMON_RESTART_MESSAGE :: e)) else start_daemon timeout w
                end;
            let '(w, r) := r in Some (unlock StartupLock w, r)
        end
    end.

(** [restart_daemon] *)
Definition restart_daemon (w : W) : option (W * result unit (list Cause)) :=
  r ← ensure_daemon_running w; match r with (w, Err e) => Some (w, Err e) | (w, Ok _) => Some (connect_client w) end.

(** [try_with_restart] with [ensure_reply_compatible] at its end. *)
Definition try_again {A} (send_request : W → W * result (Versioned A) (list Cause)) (w : W) : option (W * result A (list Cause)) :=
  r ← restart_daemon w;
  match r with
  | (w, Err e) => Some (w, Err e)
  | (w, Ok _) =>
      match send_request w with
      | (w, Err e) => Some (w, Err e)
      | (w, Ok resp) =>
          Some (w, if daemon_matches_expected resp then Ok (v_reply resp)
                   else if ds_autostart ds then Err [OtherCause (daemon_mismatch_message resp)] else Err (restart_hint resp))
      end
  end.
Definition try_with_restart {A} (send_request : W → W * result (Versioned A) (list Cause)) (retry_on_version_mismatch : bool) (w : W)
    : option (W * result A (list Cause)) :=
  let first := match connect_client w with (w, Err e) => (w, Err e) | (w, Ok _) => send_request w end in
  match first with
  | (w, Ok resp) =>
      if daemon_matches_expected resp then Some (w, Ok (v_reply resp))
      else if negb (ds_autostart ds) then Some (w, Err (restart_hint resp))
      else if negb retry_on_version_mismatch then r ← restart_daemon w; Some (r.1, Ok (v_reply resp))
      else try_again send_request w
  | (w, Err e) =>
      if negb (ds_autostart ds) then Some (w, Err e)
      else if negb (should_retry_after_error e) then Some (w, Err e)
      else try_again send_request w
  end.

(** [HistoryClient::start_history]: the request for an entry. *)
Definition start_request (h : Entry) : StartHistoryRequest :=
  mk_start (nanos_as_u64 (h_timestamp h)) (h_command h) (h_cwd h) (h_session h) (o_raw (h_origin h)) (h_author h)
    (default "" (h_intent h)) (default "" (h_shell h)) (kind_to_proto (h_author_kind h)).

(** [start_history], [end_history] and [cancel_history] *)
Definition daemon_start_history (h : Entry) : W → option (W * result string (list Cause)) := try_with_restart (start_rpc (start_request h)) true.
Definition daemon_end_history (id : string) (duration exit : Z) : W → option (W * result unit (list Cause)) :=
  try_with_restart (end_rpc (mk_end id exit duration)) false.
Definition daemon_cancel_history (id : string) : W → option (W * result unit (list Cause)) := try_with_restart (cancel_rpc id) false.

(** [handle_daemon_start], [handle_daemon_end] *)
Definition handle_daemon_start (st : CmdSettings) (env : Env) (command : string) (author : option string) (author_kind : option AuthorKind)
    (intent : option string) (w : W) : option (W * option string) :=
  match make_starting_history st env command author author_kind intent with
  | None => Some (w, None)
  | Some h => r ← daemon_start_history h w; match r with (w, Ok id) => Some (w, Some id) | (w, Err _) => Some (w, Some (h_id h)) end
  end.
Definition handle_daemon_end (st : CmdSettings) (id : string) (exit : Z) (duration : option Z) (w : W) : option (W * result unit (list Cause)) :=
  if negb (store_failed st) && (0 <? exit) then daemon_cancel_history id w else daemon_end_history id (default 0 duration) exit w.
End requests.

(** ** The text of a command: lemmas *)

Lemma drop_while_app {A} (p : A → bool) l : ∃ pre, l = pre ++ drop_while p l ∧ forallb p pre = true ∧ length pre = run_length p l.
Proof.
  induction l as [|x l (pre & E & Hp & Hl)]; [by exists []|]. cbn [drop_while run_length]. destruct (p x) eqn:Ex; [|by exists []].
  exists (x :: pre). cbn [app forallb length]. rewrite Ex, Hl, Hp, <- E. done.
Qed.

Lemma drop_while_idemp {A} (p : A → bool) l : drop_while p (drop_while p l) = drop_while p l.
Proof. induction l as [|x l IH]; [done|]. cbn [drop_while]. destruct (p x) eqn:Ex; [done|]. cbn [drop_while]. by rewrite Ex. Qed.

(** What is stored of a command is the command without blanks at its end, or the whole of it where the
    blank after it is escaped. *)
Lemma normalize_cases st command :
  ∃ blanks, chars command = chars (normalize_command_for_storage st command) ++ blanks ∧ forallb is_blank blanks = true ∧
    (blanks ≠ [] → Nat.odd (run_length is_backslash (reverse (chars (normalize_command_for_storage st command)))) = false).
Proof.
  unfold normalize_command_for_storage. destruct (strip_trailing_whitespace st); cbn [negb]; [|by exists []; rewrite app_nil_r].
  destruct (drop_while_app is_blank (reverse (chars command))) as (pre & E & Hp & _). set (t := drop_while _ _) in *.
  destruct (decide _) as [He|He]; [by exists []; rewrite app_nil_r|].
  destruct (Nat.odd (run_length is_backslash t)) eqn:Eo; [by exists []; rewrite app_nil_r|].
  exists (reverse pre). rewrite chars_unchars, reverse_involutive, Eo. split_and!; [|by rewrite forallb_reverse|done].
  by rewrite <- reverse_app, <- E, reverse_involutive.
Qed.

(** ** Deletions: lemmas *)

Section deletions.
Context `{RmpLaws, CryptoLaws}.
Context (k : key) (host : HostId).

(** The records from [i] to [n] can be drawn: each is new, later than the log and than the one before, and
    there is room for them. *)
Record drawable (st : Store.t) (draw : nat → Draw) (i n : nat) : Prop := mk_drawable {
  dr_entropy j : (i ≤ j < n)%nat → entropy_ok (draw_entropy (draw j));
  dr_fits j : (i ≤ j < n)%nat → fits_i64 (draw_now (draw j));
  dr_fresh j r : (i ≤ j < n)%nat → r ∈ Store.load_all st → r_id r ≠ draw_id (draw j);
  dr_clock j r : (i ≤ j < n)%nat → r ∈ Store.load_all st → r_tag r = History → r_timestamp r < draw_now (draw j);
  dr_distinct j j' : (i ≤ j)%nat → (j < j' < n)%nat → draw_id (draw j) ≠ draw_id (draw j');
  dr_increasing j j' : (i ≤ j)%nat → (j < j' < n)%nat → draw_now (draw j) < draw_now (draw j');
  dr_room r : r ∈ Store.load_all st → r_idx r + Z.of_nat (n - i) < i64_limit;
  dr_limit : Z.of_nat n < i64_limit
}.

Lemma drawable_appendable st draw i n : (i < n)%nat → drawable st draw i n → appendable st History (draw i).
Proof.
  intros Hi D. split; [apply (dr_entropy _ _ _ _ D); lia| | |apply (dr_fits _ _ _ _ D); lia|].
  - intros r Hr. apply (dr_fresh _ _ _ _ D); [lia|done].
  - intros r Hr Ht. apply (dr_clock _ _ _ _ D); [lia|done..].
  - intros r Hr. pose proof (dr_room _ _ _ _ D r Hr). lia.
Qed.

(** A push leaves a store from which the rest can be drawn. *)
Lemma push_drawn st draw i n (a : HistoryRecord) :
  (i < n)%nat → store_wf st → drawable st draw i n → hrec_ok a →
  ∃ st', HistoryStore.push_record k host (draw i) a st = (st', Ok (draw_id (draw i), next_idx st (mk_series host History))) ∧ store_wf st' ∧
    HistoryStore.history k st' = HistoryStore.history k st ++ [a] ∧ HistoryStore.decode k st' (draw_id (draw i)) = Some a ∧
    drawable st' draw (S i) n ∧ ∀ r, r ∈ Store.load_all st → r ∈ Store.load_all st'.
Proof.
  intros Hi Hwf D Ha. assert (appendable st (ev_tag HistoryRecord) (draw i)) as Hap by exact (drawable_appendable _ _ _ _ Hi D).
  assert (ev_ok a) as Ha' by exact Ha.
  destruct (push_event_spec st (draw i) k host a Hwf Hap) as (r & Hen & Hpush & Hwf' & _ & (data & Hr) & Hall).
  destruct (push_event_log st (draw i) k host a Hwf Hap Ha') as (st' & Hpush' & _ & Hlog). rewrite Hpush in Hpush'. injection Hpush' as <-.
  exists (st ++ [Store.to_row r]). split_and!; [exact Hpush|done|exact Hlog| | |intros x Hx; rewrite Hall; apply elem_of_app; by left].
  - unfold HistoryStore.decode. assert (draw_id (draw i) = r_id r) as -> by (by rewrite Hr).
    rewrite get_by_id; [|done|rewrite Hall; apply elem_of_app; right; by apply list_elem_of_singleton]. cbn [mbind option_bind].
    rewrite decide_True by (by rewrite Hr). by apply (read_event_pushed (draw i) k host _ a r Ha' Hen).
  - assert (∀ x, x ∈ Store.load_all (st ++ [Store.to_row r]) → x ∈ Store.load_all st ∨ x = r) as Hin.
    { intros x. rewrite Hall, elem_of_app, list_elem_of_singleton. done. }
    split.
    + intros j Hj. apply (dr_entropy _ _ _ _ D). lia.
    + intros j Hj. apply (dr_fits _ _ _ _ D). lia.
    + intros j x Hj [Hx| ->]%Hin; [apply (dr_fresh _ _ _ _ D); [lia|done]|]. rewrite Hr. apply (dr_distinct _ _ _ _ D); lia.
    + intros j x Hj [Hx| ->]%Hin Ht; [apply (dr_clock _ _ _ _ D); [lia|done..]|]. rewrite Hr. apply (dr_increasing _ _ _ _ D); lia.
    + intros j j' Hj Hj'. apply (dr_distinct _ _ _ _ D); lia.
    + intros j j' Hj Hj'. apply (dr_increasing _ _ _ _ D); lia.
    + intros x [Hx| ->]%Hin; [pose proof (dr_room _ _ _ _ D x Hx); lia|]. rewrite Hr. unfold next_idx.
      pose proof (dr_limit _ _ _ _ D). destruct (Store.last st _) as [p|] eqn:El; simpl r_idx; [|lia].
      apply last_spec in El as (Hp & _ & _); [|apply Hwf|done]. pose proof (dr_room _ _ _ _ D p Hp). pose proof (ap_room _ _ _ Hap p Hp).
      destruct (load_all_storable st p) as [[Hp0 _] _]; [apply Hwf|done|]. rewrite wrapping_add_exact by wrap_lia. lia.
    + apply (dr_limit _ _ _ _ D).
Qed.

Lemma build_all_applies st ids db : HistoryStore.build_all k st ids db = foldl apply_record db (omap (HistoryStore.decode k st) ids).
Proof.
  unfold HistoryStore.build_all, HistoryStore.incremental_build. cbn [fst]. set (rs := omap _ ids).
  destruct (chunk_by_bounded_partitions kind_of BUILD_BATCH_SIZE rs) as [Hcat Hall]; [unfold BUILD_BATCH_SIZE; lia|].
  destruct (chunks_sequential (chunk_by_bounded kind_of BUILD_BATCH_SIZE rs) db) as [-> _]; [|by rewrite Hcat].
  eapply Forall_impl; [exact Hall|]. by intros c (_ & _ & ?).
Qed.

(** Deleting entries appends a deletion of each to the log and takes them out of the database. *)
Lemma delete_matches_spec draw (matches : list Entry) i C :
  store_wf (c_records C) → drawable (c_records C) draw i (i + length matches) → Forall (λ h, hrec_ok (HDelete (h_id h))) matches →
  ∃ st', delete_matches k host draw i matches C = (set_stores (HistoryDb.delete_rows (c_db C) (h_id <$> matches)) st' C, Ok tt) ∧
    store_wf st' ∧ HistoryStore.history k st' = HistoryStore.history k (c_records C) ++ (HDelete ∘ h_id <$> matches).
Proof.
  revert i C. induction matches as [|h matches IH]; intros i C Hwf D Hok.
  { exists (c_records C). cbn. rewrite app_nil_r. split_and!; [|done..]. by destruct C. }
  apply Forall_cons in Hok as [Hh Hok]. cbn [delete_matches length] in *.
  assert (i < i + S (length matches))%nat as Hi by lia.
  destruct (push_drawn _ _ _ _ _ Hi Hwf D Hh) as (st1 & Hp & Hwf1 & Hlog & Hdec & D1 & _). unfold HistoryStore.delete. rewrite Hp.
  rewrite build_all_applies. cbn [omap list_omap]. rewrite Hdec. cbn [foldl apply_record].
  replace (i + S (length matches))%nat with (S i + length matches)%nat in D1 by lia.
  destruct (IH (S i) (set_stores (HistoryDb.delete_row_raw (c_db C) (h_id h)) st1 C) Hwf1 D1 Hok) as (st2 & -> & Hwf2 & Hlog2).
  exists st2. split_and!; [done|done|]. rewrite Hlog2. cbn [set_stores c_records]. rewrite Hlog, <- app_assoc. done.
Qed.
End deletions.

(** ** Prune and dedup *)

(** A stable sort and a filter commute. *)
Lemma filter_insert_by {A} (le : A → A → bool) (P : A → Prop) `{∀ x, Decision (P x)} x l :
  (∀ x y z, le x y = true → le y z = true → le x z = true) → StronglySorted (λ x y, le x y = true) l →
  filter P (insert_by le x l) = if decide (P x) then insert_by le x (filter P l) else filter P l.
Proof.
  intros Ht Hs. induction Hs as [|y l Hs IH Hall]; simpl.
  - rewrite filter_cons, filter_nil. done.
  - destruct (le x y) eqn:E.
    + rewrite filter_cons. destruct (decide (P x)); [|done]. symmetry. apply insert_by_id.
      intros z [_ [->|Hz]%elem_of_cons]%list_elem_of_filter; [done|]. rewrite Forall_forall in Hall. by apply (Ht x y z E), Hall.
    + rewrite !filter_cons. rewrite IH. destruct (decide (P x)), (decide (P y)); try done. simpl. by rewrite E.
Qed.

Lemma sort_by_key_filter {A K} `{OrdLaws K} (key : A → K) (P : A → Prop) `{∀ x, Decision (P x)} (l : list A) :
  filter P (sort_by_key key l) = sort_by_key key (filter P l).
Proof.
  unfold sort_by_key. induction l as [|x l IH]; [done|]. cbn [sort_by foldr]. unfold sort_by in IH.
  rewrite filter_insert_by; [|intros; by eapply leb_trans|apply sort_by_sorted; intros; [apply leb_total|by eapply leb_trans]].
  rewrite IH, filter_cons. by destruct (decide (P x)).
Qed.

Lemma filter_image {A B} (f : A → B) (P : B → Prop) `{∀ x, Decision (P x)} (l : list A) : filter P (f <$> l) = f <$> filter (λ x, P (f x)) l.
Proof. induction l as [|x l IH]; [done|]. rewrite fmap_cons, !filter_cons, IH. by destruct (decide (P (f x))). Qed.

Lemma delete_rows_filter ids db : HistoryDb.delete_rows db ids = filter (λ h, h_id h ∉ ids) db.
Proof.
  unfold HistoryDb.delete_rows. revert db. induction ids as [|id ids IH]; intros db; cbn [foldl].
  - symmetry. apply filter_every. intros h _. apply not_elem_of_nil.
  - rewrite IH. unfold HistoryDb.delete_row_raw. rewrite list_filter_filter. apply list_filter_iff. intros h. rewrite not_elem_of_cons. tauto.
Qed.

Section pruning.
Context `{RmpLaws, CryptoLaws, SearchLib, SqlText, SqlBuilderLaws}.
Context (k : key) (host : HostId) (ctx : Context_).

(** What the entries of a database are: each reads back from its row, and its id is its own. *)
Record client_ok (C : Client) : Prop := {
  co_store : store_wf (c_records C);
  co_rows : Forall HistorySearch.storable (c_db C);
  co_ids : NoDup (h_id <$> c_db C);
  co_text : Forall (λ h, hrec_ok (HDelete (h_id h))) (c_db C)
}.

Lemma alive_history db :
  list_history [FGlobal] ctx None false false None db = sort_desc (filter (λ r, w_deleted_at r = None) db).
Proof.
  unfold list_history. cbn [fmap list_fmap mode_ops concat app]. f_equal. unfold select. apply list_filter_iff. intros r.
  rewrite where_clauses. cbn. rewrite orb_false_r, andb_true_r. apply bool_decide_eq_true.
Qed.

Lemma rows_read_back db : Forall HistorySearch.storable db → from_row <$> (to_row <$> db) = db.
Proof. intros Hs. rewrite <- list_fmap_compose. rewrite <- (list_fmap_id db) at 2. apply list_fmap_ext. intros i h Hi. apply stored_entry_reads_back. by eapply Forall_lookup_1. Qed.

Lemma prune_matches_spec st C h :
  client_ok C → h ∈ prune_matches ctx st C ↔ h ∈ c_db C ∧ h_deleted_at h = None ∧ saved st h = false.
Proof.
  intros [_ Hs _ _]. unfold prune_matches. rewrite alive_history, list_elem_of_filter, list_elem_of_fmap. rewrite Forall_forall in Hs.
  assert (∀ e, e ∈ c_db C → w_deleted_at (to_row e) = None ↔ h_deleted_at e = None) as Hd.
  { intros e He. destruct e as [? ? ? ? ? ? ? ? ? ? de ? ?]. cbn. by destruct de. }
  split.
  - intros (Hf & r & -> & Hr). apply elem_of_sort_desc, list_elem_of_filter in Hr as [Ha (e & -> & He)%list_elem_of_fmap].
    rewrite stored_entry_reads_back in Hf |- * by auto. split_and!; [done|by apply Hd|done].
  - intros (He & Ha & Hf). split; [done|]. exists (to_row h). rewrite stored_entry_reads_back by auto. split; [done|].
    apply elem_of_sort_desc, list_elem_of_filter. split; [by apply Hd|]. by apply list_elem_of_fmap_2.
Qed.

(** Deleting some of the entries of a database leaves the others, in place. *)
Lemma delete_some (P : Entry → Prop) `{∀ h, Decision (P h)} C (matches : list Entry) draw :
  client_ok C → (∀ h, h ∈ matches ↔ h ∈ c_db C ∧ P h) → drawable (c_records C) draw 0 (length matches) →
  ∃ st', delete_matches k host draw 0 matches C = (set_stores (filter (λ h, ¬ P h) (c_db C)) st' C, Ok tt) ∧ store_wf st' ∧
    HistoryStore.history k st' = HistoryStore.history k (c_records C) ++ (HDelete ∘ h_id <$> matches).
Proof.
  intros [Hwf _ Hn Ht] Hm D. rewrite Forall_forall in Ht.
  destruct (delete_matches_spec k host draw matches 0 C Hwf D) as (st' & -> & Hwf' & Hlog).
  { apply Forall_forall. intros h [Hh _]%Hm. auto. }
  exists st'. split_and!; [|done..]. do 2 f_equal. rewrite delete_rows_filter. apply filter_agree. intros h Hh. rewrite list_elem_of_fmap.
  split; [intros Hx HP; apply Hx; exists h; split; [done|by apply Hm]|].
  intros HP (h' & E & [Hh' HP']%Hm). apply HP. assert (h = h') as ->; [|done]. by eapply (NoDup_fmap_eq h_id).
Qed.

Lemma client_ok_delete (P : Entry → Prop) `{∀ h, Decision (P h)} C st' :
  client_ok C → store_wf st' → client_ok (set_stores (filter P (c_db C)) st' C).
Proof.
  intros [_ Hs Hn Ht] Hwf. rewrite Forall_forall in Hs, Ht. split; cbn [set_stores c_db c_records]; [done|..].
  - apply Forall_forall. intros h [_ Hh]%list_elem_of_filter. auto.
  - eapply sublist_NoDup; [exact Hn|apply fmap_sublist, sublist_filter].
  - apply Forall_forall. intros h [_ Hh]%list_elem_of_filter. auto.
Qed.

(** C22: pruning deletes exactly the entries that would not be saved under the settings of now: each of them
    leaves the database and gets one deletion in the log, so that other machines delete it too, everything
    else stays where it is, and pruning again finds nothing. A dry run names them and changes nothing. *)
Theorem prune_deletes_the_refused st C draw :
  client_ok C → prune_matches ctx st C ≠ [] → drawable (c_records C) draw 0 (length (prune_matches ctx st C)) →
  let refused h := h_deleted_at h = None ∧ saved st h = false in
  (∀ h, h ∈ prune_matches ctx st C ↔ h ∈ c_db C ∧ refused h) ∧
  handle_prune k host ctx st true draw C = (C, Ok (WouldDelete (prune_matches ctx st C))) ∧
  ∃ records, let C' := set_stores (filter (λ h, ¬ refused h) (c_db C)) records C in
    handle_prune k host ctx st false draw C = (C', Ok (Deleted CtlPruned)) ∧
    HistoryStore.history k records = HistoryStore.history k (c_records C) ++ (HDelete ∘ h_id <$> prune_matches ctx st C) ∧
    client_ok C' ∧ ∀ dry_run draw', handle_prune k host ctx st dry_run draw' C' = (C', Ok NothingToDo).
Proof.
  intros Hok Hne D refused. pose proof (λ h, prune_matches_spec st C h Hok) as Hm. split; [exact Hm|].
  unfold handle_prune. destruct (delete_some refused C _ draw Hok Hm D) as (records & Hdel & Hwf & Hlog).
  pose proof (client_ok_delete (λ h, ¬ refused h) C records Hok Hwf) as Hok'. set (C' := set_stores _ _ _) in *.
  assert (prune_matches ctx st C' = []) as Hnil.
  { apply elem_of_nil_inv. intros h. rewrite prune_matches_spec by done. intros (Hh & Hr). unfold C' in Hh. cbn [set_stores c_db] in Hh.
    by apply list_elem_of_filter in Hh as [? _]. }
  split; [by destruct (prune_matches ctx st C)|]. exists records. change (set_stores (filter _ _) records C) with C'. cbv zeta. split_and!; [|done..|].
  - unfold delete_or_show. destruct (prune_matches ctx st C); [done|]. by rewrite Hdel.
  - intros dry_run draw'. by rewrite Hnil.
Qed.

(** The runs of a command in a directory on a host, newest first. *)
Definition runs_of (key : string * string * string) (db : HistoryDb.t) : list HistorySearch.Row :=
  filter (λ r, dup_key r = key) (sort_desc (to_row <$> db)).

Lemma get_dups_in before dupkeep rs r : 0 ≤ dupkeep →
  r ∈ get_dups before dupkeep rs ↔ w_timestamp r < before ∧ r ∈ drop (Z.to_nat dupkeep) (filter (λ x, dup_key x = dup_key r) (sort_desc rs)).
Proof.
  intros Hd. pose proof (dups_of_key (dup_key r) before dupkeep [] (sort_desc rs) Hd) as E. rewrite filter_nil, Nat.sub_0_r in E.
  fold (get_dups before dupkeep rs) in E. rewrite <- (list_elem_of_filter (λ r, w_timestamp r < before)), <- E, list_elem_of_filter. tauto.
Qed.

Lemma dedup_matches_spec before dupkeep C h :
  client_ok C → 0 ≤ dupkeep → h ∈ dedup_matches before dupkeep C ↔ h ∈ c_db C ∧ to_row h ∈ get_dups before dupkeep (to_row <$> c_db C).
Proof.
  intros [_ Hs _ _] Hd. rewrite Forall_forall in Hs. unfold dedup_matches. rewrite list_elem_of_fmap. split.
  - intros (r & -> & Hr). pose proof Hr as (_ & Hx)%get_dups_in; [|done].
    assert (r ∈ to_row <$> c_db C) as (e & -> & He)%list_elem_of_fmap.
    { apply elem_of_sort_desc. assert (r ∈ filter (λ x, dup_key x = dup_key r) (sort_desc (to_row <$> c_db C))) as [_ ?]%list_elem_of_filter; [|done].
      eapply elem_of_submseteq; [exact Hx|]. by apply sublist_submseteq, sublist_drop. }
    rewrite stored_entry_reads_back by auto. done.
  - intros [Hh Hr]. exists (to_row h). split; [by rewrite stored_entry_reads_back by auto|done].
Qed.

Lemma runs_NoDup key C : client_ok C → NoDup (runs_of key (c_db C)).
Proof.
  intros [_ _ Hn _]. apply NoDup_filter. unfold sort_desc, sort_by_key. rewrite sort_by_perm. apply (NoDup_fmap_1 w_id).
  by rewrite <- list_fmap_compose.
Qed.

(** Deduplicating keeps of every command in a directory on a host its newest runs, as many as asked for,
    and those that are not older than the date, and deletes all others, each by one deletion in the log;
    asked to keep none it does nothing. *)
Theorem dedup_keeps_the_newest before dupkeep C draw :
  client_ok C → 0 < dupkeep → dedup_matches before dupkeep C ≠ [] → drawable (c_records C) draw 0 (length (dedup_matches before dupkeep C)) →
  let matches := dedup_matches before dupkeep C in
  handle_dedup k host before 0 false draw C = (C, Ok Refused) ∧
  ∃ records, let C' := set_stores (filter (λ h, h ∉ matches) (c_db C)) records C in
    handle_dedup k host before dupkeep false draw C = (C', Ok (Deleted (CtlDeleted (h_id <$> matches)))) ∧
    HistoryStore.history k records = HistoryStore.history k (c_records C) ++ (HDelete ∘ h_id <$> matches) ∧
    ∀ key, runs_of key (c_db C') = take (Z.to_nat dupkeep) (runs_of key (c_db C)) ++
                                   filter (λ r, ¬ w_timestamp r < before) (drop (Z.to_nat dupkeep) (runs_of key (c_db C))).
Proof.
  intros Hok Hd Hne D matches. assert (0 ≤ dupkeep) as Hd0 by lia. pose proof (λ h, dedup_matches_spec before dupkeep C h Hok Hd0) as Hm.
  fold matches in Hm, Hne, D. split; [done|].
  destruct (delete_some (λ h, h ∈ matches) C matches draw Hok) as (records & Hdel & Hwf & Hlog); [|exact D|].
  { intros h. split; [|tauto]. intros Hh. split; [by apply Hm in Hh as [? _]|done]. }
  exists records. cbv zeta. split_and!; [|done|].
  - unfold handle_dedup. rewrite (proj2 (Z.eqb_neq _ _)) by lia. fold matches. unfold delete_or_show. destruct matches; [done|]. by rewrite Hdel.
  - intros key. cbn [set_stores c_db]. set (rows := to_row <$> c_db C) in *.
    assert (to_row <$> filter (λ h, h ∉ matches) (c_db C) = filter (λ r, r ∉ get_dups before dupkeep rows) rows) as Er.
    { subst rows. rewrite filter_image. f_equal. apply filter_agree. intros h Hh. rewrite Hm. tauto. }
    unfold runs_of at 1. rewrite Er. unfold sort_desc. rewrite <- sort_by_key_filter. fold (sort_desc rows).
    pose proof (runs_NoDup key C Hok) as Hn.
    rewrite list_filter_filter, (list_filter_iff _ (λ r, (r ∉ get_dups before dupkeep rows) ∧ dup_key r = key)), <- list_filter_filter by tauto.
    set (l := runs_of key (c_db C)) in *. set (n := Z.to_nat dupkeep).
    assert (∀ r, r ∈ l → r ∈ get_dups before dupkeep rows ↔ w_timestamp r < before ∧ r ∈ drop n l) as Hdup.
    { intros r Hr. unfold l, runs_of in Hr. apply list_elem_of_filter in Hr as [Ek _]. rewrite get_dups_in by done. by rewrite Ek. }
    change (filter (λ x, dup_key x = key) (sort_desc rows)) with l.
    rewrite <- (take_drop n l) at 1. rewrite filter_app. rewrite <- (take_drop n l), NoDup_app in Hn. destruct Hn as (_ & Hx & _). f_equal.
    + apply filter_every. intros r Hr [_ Hr']%Hdup; [by apply (Hx r)|]. rewrite <- (take_drop n l). apply elem_of_app. by left.
    + apply filter_agree. intros r Hr. rewrite Hdup; [tauto|]. rewrite <- (take_drop n l). apply elem_of_app. by right.
Qed.
End pruning.

(** ** Start and end *)

(** The updates of the table are those of its rows. *)
Lemma update_entry_rows h db : to_row <$> update_entry h db = HistorySearch.update h (to_row <$> db).
Proof.
  unfold update_entry, HistorySearch.update. rewrite <- !list_fmap_compose. apply list_fmap_ext. intros _ e _. cbn [compose].
  change (w_id (to_row e)) with (h_id e). by destruct (decide _) as [->|].
Qed.

Lemma load_none id db : id ∉ h_id <$> db → load_entry id db = None.
Proof.
  intros Hn. unfold load_entry, HistorySearch.load. induction db as [|e db IH]; [done|]. apply not_elem_of_cons in Hn as [H1 H2].
  cbn [fmap list_fmap List.find]. rewrite bool_decide_eq_false_2 by (intros E; by apply H1). by apply IH.
Qed.

Lemma load_last db h : h_id h ∉ h_id <$> db → HistorySearch.storable h → load_entry (h_id h) (db ++ [h]) = Some h.
Proof.
  intros Hn Hs. unfold load_entry, HistorySearch.load.
  enough (List.find (λ r, bool_decide (w_id r = h_id h)) (to_row <$> db ++ [h]) = Some (to_row h)) as ->; [by cbn; rewrite stored_entry_reads_back|].
  induction db as [|e db IH]; cbn [fmap list_fmap app List.find].
  - by rewrite bool_decide_eq_true_2.
  - apply not_elem_of_cons in Hn as [H1 H2]. rewrite bool_decide_eq_false_2 by (intros E; by apply H1). by apply IH.
Qed.

Lemma update_last db h h' : h_id h' = h_id h → h_shell h' = h_shell h → h_id h ∉ h_id <$> db → update_entry h' (db ++ [h]) = db ++ [h'].
Proof.
  intros Hi Hsh Hn. unfold update_entry. rewrite fmap_app. cbn [fmap list_fmap]. rewrite decide_True by done. f_equal.
  - rewrite <- (list_fmap_id db) at 2. apply list_fmap_ext. intros i e He. rewrite decide_False; [done|]. rewrite Hi. intros E. apply Hn.
    rewrite <- E. apply list_elem_of_fmap_2. by eapply list_elem_of_lookup_2.
  - f_equal. rewrite <- Hsh. by destruct h'.
Qed.

Lemma delete_last db h : h_id h ∉ h_id <$> db → delete_entry h (db ++ [h]) = db.
Proof.
  intros Hn. unfold delete_entry. rewrite delete_rows_filter, filter_app, filter_cons_False, filter_nil, app_nil_r.
  - apply filter_every. intros e He E%list_elem_of_singleton. apply Hn. rewrite <- E. by apply list_elem_of_fmap_2.
  - intros Hx. apply Hx. by apply list_elem_of_singleton.
Qed.

Lemma no_conflict_id h db : existsb (HistoryDb.conflicts h) db = false → h_id h ∉ h_id <$> db.
Proof.
  intros Hf (e & E & He)%list_elem_of_fmap. apply not_true_iff_false in Hf. apply Hf, existsb_exists. exists e.
  split; [by apply list_elem_of_In|]. apply bool_decide_eq_true. by left.
Qed.

Section recording.
Context `{RmpLaws, CryptoLaws, PackLib, UuidText, WideChars}.
Context {R : Type} `{Remote R} (k : key) (host : HostId) (page_size : Z) (hash_order : list RecordSeriesKey → list RecordSeriesKey).
Context (pack_entropy : RecordId → Entropy) (unpack_entropy : RecordId → nat → Entropy).
Abbreviation handle_end := (handle_end k host page_size hash_order pack_entropy unpack_entropy).
Abbreviation sync_after := (sync_after k page_size hash_order pack_entropy unpack_entropy).

(** C20: a command that starts is in the history database at once, and in the log only when it ends: then its
    entry, with its exit code and duration, takes the place of the one in the database and is appended to
    the log, before any sync, and a command that took time cannot be ended again. Where failed commands
    are not kept a failed one leaves no trace in either. *)
Theorem hooks_record_command st env command author kind intent C h d :
  make_starting_history st env command author kind intent = Some h →
  HistorySearch.storable h → trim (h_id h) ≠ "" → existsb (HistoryDb.conflicts h) (c_db C) = false →
  store_wf (c_records C) → appendable (c_records C) History d →
  let '(C1, id) := handle_start st env command author kind intent C in
  id = Some (h_id h) ∧ c_db C1 = c_db C ++ [h] ∧ c_records C1 = c_records C ∧
  ∀ now should connected exit duration v,
    end_duration now duration h = Some v → hrec_ok (HCreate (ended exit v h)) →
    if negb (store_failed st) && (0 <? exit)
    then handle_end st now d should connected (h_id h) exit duration C1 = Some (C, None, Ok tt)
    else
      ∃ records, let C2 := set_stores (c_db C ++ [ended exit v h]) records C in
        handle_end st now d should connected (h_id h) exit duration C1 = sync_after now should connected C2 ∧ store_wf records ∧
        HistoryStore.history k records = HistoryStore.history k (c_records C) ++ [HCreate (ended exit v h)] ∧
        (0 < v → ∀ now d should connected exit duration,
          handle_end st now d should connected (h_id h) exit duration C2 = Some (C2, None, Ok tt)).
Proof.
  intros Hm Hs Hid Hc Hwf Hap. unfold handle_start. rewrite Hm. unfold HistoryDb.save_raw. rewrite Hc.
  split_and!; [done..|]. pose proof (no_conflict_id h (c_db C) Hc) as Hn. intros now should connected exit duration v Hv Hok.
  assert (h_duration h = -1) as Hdur.
  { unfold make_starting_history in Hm. destruct (non_nul _); [|done]. destruct (saved st _); [|done]. by injection Hm as <-. }
  unfold HistoryCommand.handle_end at 1 2. rewrite decide_False by done. cbn [set_stores c_db c_records].
  rewrite (load_last _ _ Hn Hs), Hdur. change (0 <? -1) with false. cbv iota.
  destruct (negb (store_failed st) && (0 <? exit)); [by rewrite (delete_last _ _ Hn); destruct C|]. rewrite Hv.
  pose proof (push_event_log (c_records C) d k host (HCreate (ended exit v h)) Hwf) as Hp. destruct Hp as (records & Hpush & Hwf' & Hlog); [exact Hap|exact Hok|].
  unfold HistoryStore.push, HistoryStore.push_record. rewrite Hpush. rewrite update_last by done. exists records. split_and!; [done..|].
  intros Hpos now' d' should' connected' exit' duration'. unfold HistoryCommand.handle_end. rewrite decide_False by done. cbn [set_stores c_db c_records].
  assert (load_entry (h_id h) (c_db C ++ [ended exit v h]) = Some (ended exit v h)) as ->.
  { apply (load_last (c_db C) (ended exit v h)); [exact Hn|]. by destruct Hs; split. }
  cbn [ended h_duration]. by rewrite (proj2 (Z.ltb_lt _ _) Hpos).
Qed.
End recording.

(** ** Requests to the daemon *)

(** The clock does not go back, and sleeping takes its time. *)
Class SupervisorLaws (W : Type) `{Supervisor W} : Prop := {
  clock_sleep d w : clock w + d ≤ clock (sleep d w);
  clock_connect w : clock w ≤ clock (connect_client w).1;
  clock_status w : clock w ≤ clock (status w).1;
  clock_try_lock f w : clock w ≤ clock (try_lock f w).1
}.

Section waiting.
Context {W : Type} `{SupervisorLaws W} (ds : DaemonClientSettings).

Lemma wait_fuel_enough timeout poll : 0 < poll → 0 ≤ timeout → timeout ≤ (Z.of_nat (wait_fuel timeout poll) - 1) * poll.
Proof.
  intros Hp Ht. unfold wait_fuel. pose proof (Z.div_mod timeout poll) as E. pose proof (Z.mod_pos_bound timeout poll Hp).
  pose proof (Z.div_pos timeout poll Ht Hp). rewrite !Nat2Z.inj_succ, Z2Nat.id by lia. nia.
Qed.

Lemma lock_loop_returns fuel f start timeout w :
  timeout - (clock w - start) ≤ (Z.of_nat fuel - 1) * LOCK_POLL → (0 < fuel)%nat → is_Some (lock_loop fuel f start timeout w).
Proof.
  revert w. induction fuel as [|fuel IH]; intros w Hf Hpos; [lia|]. cbn [lock_loop].
  pose proof (clock_try_lock f w). destruct (try_lock f w) as [w1 [| |e]]; cbn [fst] in *; [done| |done].
  destruct (Z.leb_spec timeout (clock w1 - start)); [done|]. pose proof (clock_sleep LOCK_POLL w1). unfold LOCK_POLL in *. apply IH; lia.
Qed.

Lemma clock_probe w : clock w ≤ clock (probe ds w).1.
Proof.
  unfold probe. pose proof (clock_connect w). destruct (connect_client w) as [w1 [[]|e]]; cbn [fst] in *; [|done].
  pose proof (clock_status w1). destruct (status w1) as [w2 [s|e]]; cbn [fst] in *; lia.
Qed.

Lemma ready_loop_returns fuel start timeout w :
  timeout - (clock w - start) ≤ (Z.of_nat fuel - 1) * STARTUP_POLL → (0 < fuel)%nat → is_Some (ready_loop ds fuel start timeout w).
Proof.
  revert w. induction fuel as [|fuel IH]; intros w Hf Hpos; [lia|]. cbn [ready_loop].
  pose proof (clock_probe w). destruct (probe ds w) as [w1 p]; cbn [fst] in *.
  assert (∀ e, is_Some (if timeout <=? clock w1 - start then Some (w1, Err e) else ready_loop ds fuel start timeout (sleep STARTUP_POLL w1))) as Hl.
  { intros e. destruct (Z.leb_spec timeout (clock w1 - start)); [done|]. pose proof (clock_sleep STARTUP_POLL w1). unfold STARTUP_POLL in *. apply IH; lia. }
  destruct p as [|reason|e]; [done|apply Hl|]. destruct (is_legacy_daemon_error e); [done|apply Hl].
Qed.

Lemma wait_for_lock_returns f timeout w : 0 ≤ timeout → is_Some (wait_for_lock f timeout w).
Proof.
  intros Ht. unfold wait_for_lock. destruct (open_lock_file f w) as [w1 [[]|e]]; [|done].
  pose proof (wait_fuel_enough timeout LOCK_POLL eq_refl Ht). apply lock_loop_returns; [lia|unfold wait_fuel; lia].
Qed.

Lemma start_daemon_returns timeout w : 0 ≤ timeout → is_Some (start_daemon ds timeout w).
Proof.
  intros Ht. unfold start_daemon, wait_for_pidfile_available. destruct (wait_for_lock_returns Pidfile timeout w Ht) as [[w1 [[]|e]] ->]; cbn [mbind option_bind]; [|done].
  destruct (remove_stale_socket_if_present _) as [w2 [[]|e]]; [|done]. destruct (spawn_daemon_process w2) as [w3 [[]|e]]; [|done]. unfold wait_until_ready.
  pose proof (wait_fuel_enough timeout STARTUP_POLL eq_refl Ht). apply ready_loop_returns; [lia|unfold wait_fuel; lia].
Qed.

Lemma restart_daemon_returns w : (∀ t, ds_timeout ds = Ok t → 0 ≤ t) → is_Some (restart_daemon ds w).
Proof.
  intros Ht. unfold restart_daemon. assert (is_Some (ensure_daemon_running ds w)) as [[w1 [[]|e]] ->]; [|done..].
  unfold ensure_daemon_running. destruct (ds_systemd_socket ds); [done|]. destruct (ds_timeout ds) as [t|e]; [|done]. specialize (Ht t eq_refl).
  destruct (wait_for_lock_returns StartupLock t w Ht) as [[w1 [[]|e]] ->]; cbn [mbind option_bind]; [|done].
  destruct (probe ds w1) as [w2 [|reason|e]]; cbn [mbind option_bind]; [done| |].
  - destruct (start_daemon_returns t (request_shutdown w2) Ht) as [[w3 r] ->]. done.
  - destruct (is_legacy_daemon_error e); [done|]. destruct (start_daemon_returns t w2 Ht) as [[w3 r] ->]. done.
Qed.

(** Where the answer of a request comes from: it was sent, and a second time only after a first answer of
    another version, or after an error that starts the daemon. *)
Lemma try_answer {A} (send : W → W * result (Versioned A) (list Cause)) retry w w' a :
  try_with_restart ds send retry w = Some (w', Ok a) →
  ∃ w1 w2 resp, send w1 = (w2, Ok resp) ∧ v_reply resp = a ∧ (daemon_matches_expected ds resp = true ∨ retry = false).
Proof.
  unfold try_with_restart. set (first := match connect_client w with (_, _) => _ end).
  assert (∀ w, try_again ds send w = Some (w', Ok a) → ∃ w1 w2 resp, send w1 = (w2, Ok resp) ∧ v_reply resp = a ∧ (daemon_matches_expected ds resp = true ∨ retry = false)) as Ha.
  { intros w0. unfold try_again. destruct (restart_daemon ds w0) as [[w1 [[]|e]]|]; cbn [mbind option_bind]; [|done..].
    destruct (send w1) as [w2 [resp|e]] eqn:Es; [|done]. destruct (daemon_matches_expected ds resp) eqn:Em; [|by destruct (ds_autostart ds)].
    intros [= <- <-]. eauto 8. }
  assert (∀ w1 resp, first = (w1, Ok resp) → ∃ w0, send w0 = (w1, Ok resp)) as Hf.
  { intros w1 resp. unfold first. destruct (connect_client w) as [w0 [[]|e]]; [eauto|done]. }
  clearbody first. destruct first as [w1 [resp|e]].
  - destruct (Hf w1 resp eq_refl) as [w0 Es]. destruct (daemon_matches_expected ds resp) eqn:Em; [intros [= <- <-]; eauto 8|].
    destruct (ds_autostart ds); [|done]. destruct retry; cbn [negb]; [apply Ha|].
    destruct (restart_daemon ds w1) as [[w2 r]|]; cbn [mbind option_bind]; [|done]. intros [= <- <-]. eauto 8.
  - destruct (ds_autostart ds); [|done]. destruct (should_retry_after_error e); cbn [negb]; [apply Ha|done].
Qed.

(** A hook that talks to the daemon returns: whatever the daemon, the locks and the new process do, the
    waits for them are over when their time is, also where the daemon is started again. *)
Theorem daemon_requests_return {A} (send : W → W * result (Versioned A) (list Cause)) retry w :
  (∀ t, ds_timeout ds = Ok t → 0 ≤ t) → is_Some (try_with_restart ds send retry w).
Proof.
  intros Ht. assert (∀ w, is_Some (try_again ds send w)) as Ha.
  { intros w0. unfold try_again. destruct (restart_daemon_returns w0 Ht) as [[w1 [[]|e]] ->]; [|done]. cbn [mbind option_bind].
    by destruct (send w1) as [w2 [resp|e]]. }
  unfold try_with_restart. destruct (match connect_client w with (_, _) => _ end) as [w1 [resp|e]].
  - destruct (daemon_matches_expected ds resp); [done|]. destruct (ds_autostart ds); [|done]. destruct retry; [apply Ha|].
    cbn [negb]. by destruct (restart_daemon_returns w1 Ht) as [[w2 r] ->].
  - destruct (ds_autostart ds); [|done]. destruct (should_retry_after_error e); [apply Ha|done].
Qed.
End waiting.

(** ** A daemon that runs *)

Definition with_id (id : string) (h : Entry) : Entry :=
  mk_hist id (h_timestamp h) (h_duration h) (h_exit h) (h_command h) (h_cwd h) (h_session h) (h_origin h) (h_author h) (h_intent h)
    (h_deleted_at h) (h_shell h) (h_author_kind h).

Definition with_intent (intent : option string) (h : Entry) : Entry :=
  mk_hist (h_id h) (h_timestamp h) (h_duration h) (h_exit h) (h_command h) (h_cwd h) (h_session h) (h_origin h) (h_author h) intent
    (h_deleted_at h) (h_shell h) (h_author_kind h).

(** The texts of an entry are trimmed, as those of a captured one are. *)
Record tidy (h : Entry) : Prop := {
  ti_author : normalize_optional_string (Some (h_author h)) = Some (h_author h);
  ti_intent : normalize_optional_string (h_intent h) = h_intent h;
  ti_shell : normalize_optional_string (h_shell h) = h_shell h;
  ti_alive : h_deleted_at h = None
}.

Lemma kind_proto_back kind : kind_of_proto (kind_to_proto kind) = kind.
Proof. by destruct kind as [[]|]. Qed.

Lemma normalize_default s : normalize_optional_string s = s → normalize_optional_string (Some (default "" s)) = s.
Proof. by destruct s. Qed.

(** What the daemon makes of the request for an entry: the same, with an id of its own, and with the intent of its
    own environment where there is none. *)
Definition taken (p : Probe) (h : Entry) : Entry :=
  with_id (p_new_id p) (with_intent (or_else (h_intent h) (normalize_optional_string (p_intent p))) h).

Lemma captured_again (p : Probe) h :
  tidy h → HistorySearch.storable h → 0 ≤ h_timestamp h → h_duration h = -1 → h_exit h = -1 →
  let req := start_request h in
  Origin.try_from (sq_hostname req) = Ok (h_origin h) ∧
  daemon_capture p (sq_timestamp req) (sq_command req) (sq_cwd req) (sq_session req) (h_origin h) (sq_author req) (sq_intent req) (sq_shell req)
    (kind_of_proto (sq_author_kind req)) = taken p h.
Proof.
  intros [Ta Ti Ts Tl] Hs Hzero Hd He req. split.
  - unfold req, Origin.try_from. cbn [start_request sq_hostname]. rewrite (st_origin _ Hs). by destruct (h_origin h).
  - unfold req, daemon_capture, Entry.new, taken, with_id, with_intent. cbn [start_request sq_timestamp sq_command sq_cwd sq_session sq_author sq_intent sq_shell sq_author_kind].
    rewrite Ta, (normalize_default _ Ti), (normalize_default _ Ts), kind_proto_back, Hd, He, Tl. cbn [or_else default].
    pose proof (st_time _ Hs) as Ht. unfold in_i64 in Ht. unfold nanos_as_u64. rewrite Z.mod_small by (unfold u64_limit, i64_limit in *; lia).
    done.
Qed.

Section running.
Context `{Rodeo, Broadcast, RmpLaws, CryptoLaws, PackLib} (k : key) (host : HostId) (fresh : RecordIdx → RecordId * Z).
Context (p : Probe) (now : Z) (d : Draw) (cap : option Z) (version : string).

(** The daemon of [Daemon.v] with the clock: it answers, as the version that it is, and holds its pidfile. *)
Definition Running : Type := Daemon * Z.
Definition answered {A B} (f : A → Versioned B) (t : Z) (x : Daemon * result A Refusal) : Running * result (Versioned B) (list Cause) :=
  ((x.1, t), match x.2 with Ok a => Ok (f a) | Err _ => Err [GrpcStatus CodeOther] end).
#[local] Instance running : Supervisor Running := {
  connect_client w := (w, Ok tt);
  status w := (w, Ok (mk_versioned version DAEMON_PROTOCOL_VERSION tt));
  shutdown w := ((emit ShutdownRequested w.1, w.2), Ok true);
  start_rpc req w := answered (λ r, mk_versioned version (sr_protocol r) (sr_id r)) w.2 (start_history p req w.1);
  end_rpc req w := answered (λ r, mk_versioned version (er_protocol r) tt) w.2 (end_history k host fresh now d cap req w.1);
  cancel_rpc id w := answered (λ _, mk_versioned version DAEMON_PROTOCOL_VERSION tt) w.2 (cancel_history id w.1);
  open_lock_file _ w := (w, Ok tt);
  try_lock f w := (w, match f with StartupLock => Locked | Pidfile => WouldBlock end);
  unlock _ w := w;
  remove_stale_socket_if_present w := (w, Ok tt);
  spawn_daemon_process w := (w, Ok tt);
  clock w := w.2;
  sleep t w := (w.1, w.2 + t)
}.

#[local] Instance running_laws : SupervisorLaws Running.
Proof. split; intros; cbn; lia. Qed.

Lemma running_request ds {A} (send : Running → Running * result (Versioned A) (list Cause)) retry w w' resp :
  ds_version ds = version → send w = (w', Ok resp) → v_version resp = version → v_protocol resp = DAEMON_PROTOCOL_VERSION →
  try_with_restart ds send retry w = Some (w', Ok (v_reply resp)).
Proof.
  intros Hv Hs Hr Hp. unfold try_with_restart. cbn [connect_client running]. rewrite Hs. unfold daemon_matches_expected.
  by rewrite bool_decide_eq_true_2, Hp, Z.eqb_refl by congruence.
Qed.

(** The duration that the daemon stores: the one given, or the time since the start where none is given or it is 0. *)
Definition daemon_duration (duration : option Z) (h : Entry) : Z :=
  Z.min (if default 0 duration =? 0 then Z.max 0 (now - h_timestamp h) else default 0 duration) (i64_limit - 1).

(** The entry that the daemon records is the one that [handle_end] does, under its own id. *)
Lemma daemon_entry_same exit duration v h :
  end_duration now duration h = Some v → 0 < v → h_intent h ≠ None ∨ normalize_optional_string (p_intent p) = None →
  ended exit (daemon_duration duration h) (taken p h) = with_id (p_new_id p) (ended exit v h).
Proof.
  unfold end_duration, daemon_duration, taken. intros Hv Hpos Hi.
  assert (or_else (h_intent h) (normalize_optional_string (p_intent p)) = h_intent h) as ->.
  { destruct (h_intent h) as [i|]; [done|]. by destruct Hi as [Hi| ->]. }
  destruct ((- i64_limit <=? _) && _) eqn:E; [|done]. injection Hv as Hv. apply andb_true_iff in E as [_ E%Z.ltb_lt].
  unfold with_id, with_intent, ended. cbn. f_equal. destruct duration as [x|]; cbn in *.
  - rewrite (proj2 (Z.eqb_neq _ _)) by lia. lia.
  - change (0 =? 0) with true. cbv iota. lia.
Qed.

(** C21: through a daemon that runs, the hooks append a command that ends to the log and save it, under the id
    that the daemon gave it, and a failed command that is not kept leaves no trace. The entry is the one that
    the direct way records, where the command took time and states its intent, or the daemon was not started
    with an intent in its environment; otherwise it differs in just these: such an intent of the daemon is
    taken for one that is missing, and a duration of 0 for one that is not given, which the daemon measures
    itself, and a duration too long for the column is cut instead of refused. *)
Theorem daemon_records_the_same ds st env command author kind intent h (D : Daemon) t exit duration :
  ds_version ds = version → make_starting_history st env command author kind intent = Some h →
  tidy h → HistorySearch.storable h → 0 ≤ h_timestamp h →
  d_started D = true → store_wf (d_records D) → appendable (d_records D) History d →
  let h' := ended exit (daemon_duration duration h) (taken p h) in
  hrec_ok (HCreate h') →
  (∀ v, end_duration now duration h = Some v → 0 < v → h_intent h ≠ None ∨ normalize_optional_string (p_intent p) = None →
     h' = with_id (p_new_id p) (ended exit v h)) ∧
  ∃ D1 D2, handle_daemon_start ds st env command author kind intent (D, t) = Some ((D1, t), Some (p_new_id p)) ∧
    d_records D1 = d_records D ∧ d_db D1 = d_db D ∧
    handle_daemon_end ds st (p_new_id p) exit duration (D1, t) = Some ((D2, t), Ok tt) ∧
    if negb (store_failed st) && (0 <? exit)
    then d_records D2 = d_records D ∧ d_db D2 = d_db D
    else HistoryStore.history k (d_records D2) = HistoryStore.history k (d_records D) ++ [HCreate h'] ∧ d_db D2 = HistoryDb.save_raw (d_db D) h'.
Proof.
  intros Hv Hm Ht Hs Hzero Hst Hwf Hap h' Hok. split; [intros v; apply daemon_entry_same|].
  assert (h_duration h = -1 ∧ h_exit h = -1) as [Hdur Hex].
  { unfold make_starting_history in Hm. destruct (non_nul _); [|done]. destruct (saved st _); [|done]. by injection Hm as <-. }
  destruct (captured_again p h Ht Hs Hzero Hdur Hex) as [Ho Hcap].
  set (D1 := set_running (<[p_new_id p := taken p h]> (d_running D)) (emit (HistoryStarted (taken p h)) D)).
  assert (handle_daemon_start ds st env command author kind intent (D, t) = Some ((D1, t), Some (p_new_id p))) as Hstart.
  { unfold handle_daemon_start. rewrite Hm. unfold daemon_start_history.
    rewrite (running_request ds _ true (D, t) (D1, t) (mk_versioned version DAEMON_PROTOCOL_VERSION (p_new_id p))); [done..| |done|done].
    cbn [start_rpc running fst snd]. unfold start_history. rewrite Ho, Hcap, Hst. done. }
  assert (d_running D1 !! p_new_id p = Some (taken p h)) as Hrun by apply lookup_insert_eq.
  exists D1. unfold handle_daemon_end. destruct (negb (store_failed st) && (0 <? exit)).
  - exists (set_running (delete (p_new_id p) (d_running D1)) D1). split_and!; [done..| |done|done]. unfold daemon_cancel_history.
    rewrite (running_request ds _ false (D1, t) (set_running (delete (p_new_id p) (d_running D1)) D1, t) (mk_versioned version DAEMON_PROTOCOL_VERSION tt)); [done..| |done|done].
    cbn [cancel_rpc running fst snd]. unfold cancel_history. by rewrite Hrun.
  - pose proof (push_event_log (d_records D1) d k host (HCreate h') Hwf) as Hpush.
    destruct Hpush as (records & Hpush & _ & Hlog); [exact Hap|exact Hok|].
    assert (finished now (mk_end (p_new_id p) exit (default 0 duration)) (taken p h) = h') as Hfin by done.
    set (D0 := set_running (delete (p_new_id p) (d_running D1)) D1).
    exists (emit (HistoryEnded h') (set_shared (HistoryDb.save_raw (d_db D) h') (Packer.try_pack fresh (mk_series host History) cap records).1 (d_files D0) (d_bus D0) D0)).
    split; [done|]. split; [done|]. split; [done|]. split.
    + unfold daemon_end_history. apply (running_request ds _ false (D1, t) _ (mk_versioned version DAEMON_PROTOCOL_VERSION tt)); [done| |done|done]. cbn [end_rpc running fst snd]. unfold end_history. cbn [eq_id].
      rewrite Hrun. cbn [d_started set_running]. rewrite Hfin. change (d_started D1) with (d_started D). rewrite Hst.
      change (HistoryStore.push k host d h' ?x) with (push_event d k host (HCreate h') x). cbn [d_records set_running]. rewrite Hpush. done.
    + cbn [emit set_shared d_records d_db]. split; [|done]. unfold HistoryStore.history. by rewrite try_pack_log, Hlog.
Qed.
End running.

(** ** Commands at work *)

Module CommandDemo.
Import IndexDemo ToyPack DaemonDemo.

#[local] Instance sql_lib : SearchLib := {| uuid_time _ := None; parse_date_string _ := None; lowercase := sql_lower |}.
#[local] Instance sql_text : SqlText := {| like _ _ := true; glob _ _ := true; regexp _ _ := true |}.
#[local] Instance sql_builder : SqlBuilder := λ C ops ev, forallb (existsb ev) (clauses ops).
#[local] Instance sql_builder_laws : SqlBuilderLaws.
Proof. done. Qed.

(** Commands that begin with [rm] are not kept, and neither are failed ones. *)
Definition settings : CmdSettings :=
  mk_csettings true false (λ c, starts_with "rm" c) (λ _, false) false (λ _, false) (Some FSession) [FGlobal] true.
Definition env : Env := mk_env (mk_probe (Some "s") None None origin "x" "h9") 9 "/src" (Some "zsh") None.
Definition client (db : list Entry) : Client := mk_client db Store.empty ∅ ∅ (ScriptDb.mk [] []) None.

Example escaped_blank_is_kept : normalize_command_for_storage settings "ls\ 	" = "ls\ 	" ∧ normalize_command_for_storage settings "ls \\ " = "ls \\".
Proof. done. Qed.
Example list_falls_back : default_filter_mode settings true = FGlobal.
Proof. done. Qed.

Definition entry : Entry := mk_hist "h9" 9 (-1) (-1) "ls" "/src" "s" origin "ann" None None (Some "zsh") None.
Lemma entry_starts : make_starting_history settings env "ls  " None None None = Some entry.
Proof. by vm_compute. Qed.

Lemma entry_storable : HistorySearch.storable entry.
Proof. split; [split; by vm_compute|exact I|by vm_compute|exact I|by vm_compute]. Qed.

Lemma entry_done_ok id exit : id = "h9" ∨ id = "b7" → exit = 0 ∨ exit = 1 → hrec_ok (HCreate (with_id id (ended exit 5 entry))).
Proof.
  intros [->| ->] [->| ->].
  all: split; [|by vm_compute]; split; [split_and!; apply is_str_ascii; reflexivity| | |split; vm_compute; split; congruence|reflexivity].
  all: split; [done|]; try (intros s [= <-]; by apply is_str_ascii). all: by vm_compute.
Qed.

Definition the_end (exit : Z) (duration : option Z) (C : Client) :=
  handle_end Toy.key1 2 10 id no_entropy (λ r _, no_entropy r) settings 20 draw1 (Ok false) (Ok tt) "h9" exit duration C.
Definition begun : Client := (handle_start settings env "ls  " None None None (client [])).1.

Lemma hooks_record_command_witness :
  c_db begun = [entry] ∧ the_end 1 (Some 5) begun = Some (client [], None, Ok tt) ∧
  ∃ records, HistoryStore.history Toy.key1 records = [HCreate (ended 0 5 entry)] ∧
    the_end 0 (Some 5) begun = Some (set_stores [ended 0 5 entry] records (client []), None, Ok tt) ∧
    the_end 0 (Some 6) (set_stores [ended 0 5 entry] records (client [])) =
      Some (set_stores [ended 0 5 entry] records (client []), None, Ok tt).
Proof.
  pose proof (hooks_record_command Toy.key1 2 10 id no_entropy (λ r _, no_entropy r) settings env "ls  " None None None (client []) entry draw1) as W.
  assert (handle_start settings env "ls  " None None None (client []) = (begun, Some "h9")) as E by (by vm_compute). rewrite E in W.
  destruct W as (_ & Hdb & _ & W); [exact entry_starts|exact entry_storable|by vm_compute|done|apply empty_wf| |].
  { apply appendable_empty; [exact Toy.rng_ok|split; vm_compute; congruence]. }
  split; [exact Hdb|]. pose proof (W 20 (Ok false) (Ok tt) 1 (Some 5) 5 eq_refl) as W1. pose proof (W 20 (Ok false) (Ok tt) 0 (Some 5) 5 eq_refl) as W0.
  split.
  - apply W1, (entry_done_ok "h9"); [by left|by right].
  - destruct W0 as (records & Hend & _ & Hlog & Hagain); [apply (entry_done_ok "h9"); by left|].
    exists records. split; [exact Hlog|]. split; [exact Hend|]. by apply Hagain.
Defined.

(** *** Prune and dedup *)

Definition ctx : Context_ := mk_context "s" "/src" origin None.
Definition ran (id : string) (t : Z) (command : string) : Entry := mk_hist id t 5 0 command "/src" "s" origin "ann" None None (Some "zsh") None.
Definition history : Client := client [ran "a1" 1 "make"; ran "a2" 2 "rm x"; ran "a3" 3 "make"; ran "a4" 4 "make"; ran "a5" 5 "rm y"].
Definition draws (i : nat) : Draw := mk_draw (N.of_nat (S i)) (Z.of_nat i + 100) Toy.rng.

Lemma history_ok : client_ok history.
Proof.
  split; [apply empty_wf| |apply (bool_decide_unpack _); by vm_compute|].
  - repeat (apply Forall_cons; split; [split; [split; by vm_compute|exact I|by vm_compute|exact I|by vm_compute]|]). by apply Forall_nil.
  - repeat (apply Forall_cons; split; [apply is_str_ascii; reflexivity|]). by apply Forall_nil.
Qed.

Lemma draws_ok n : (n < 100)%nat → drawable Store.empty draws 0 n.
Proof.
  intros Hn. split; try (by intros; exact Toy.rng_ok); cbn [draws draw_id draw_now]; intros; try (by match goal with Hr : _ ∈ Store.load_all Store.empty |- _ => apply not_elem_of_nil in Hr end).
  - unfold fits_i64, i64_limit. lia.
  - lia.
  - lia.
  - unfold i64_limit. lia.
Qed.

Lemma prune_deletes_the_refused_witness :
  ∃ records, handle_prune Toy.key1 2 ctx settings false draws history =
      (set_stores [ran "a1" 1 "make"; ran "a3" 3 "make"; ran "a4" 4 "make"] records history, Ok (Deleted CtlPruned)) ∧
    HistoryStore.history Toy.key1 records = [HDelete "a5"; HDelete "a2"].
Proof.
  assert (prune_matches ctx settings history = [ran "a5" 5 "rm y"; ran "a2" 2 "rm x"]) as Em by (by vm_compute).
  destruct (prune_deletes_the_refused Toy.key1 2 ctx settings history draws) as (_ & _ & records & Hp & Hlog & _).
  - exact history_ok.
  - by rewrite Em.
  - rewrite Em. apply draws_ok. cbn. lia.
  - exists records. rewrite Em in Hlog. split; [exact Hp|exact Hlog].
Defined.

Lemma dedup_keeps_the_newest_witness :
  ∃ records, handle_dedup Toy.key1 2 4 1 false draws history =
      (set_stores [ran "a2" 2 "rm x"; ran "a4" 4 "make"; ran "a5" 5 "rm y"] records history, Ok (Deleted (CtlDeleted ["a3"; "a1"]))) ∧
    HistoryStore.history Toy.key1 records = [HDelete "a3"; HDelete "a1"].
Proof.
  assert (dedup_matches 4 1 history = [ran "a3" 3 "make"; ran "a1" 1 "make"]) as Em by (by vm_compute).
  destruct (dedup_keeps_the_newest Toy.key1 2 4 1 history draws) as (_ & records & Hp & Hlog & _).
  - exact history_ok.
  - done.
  - by rewrite Em.
  - rewrite Em. apply draws_ok. cbn. lia.
  - exists records. rewrite Em in Hlog, Hp. split; [exact Hp|exact Hlog].
Defined.

(** *** Through the daemon *)

Definition dsettings : DaemonClientSettings := mk_dclient true false (Ok 2500000000) "18".

(** A machine on which no daemon comes up. *)
#[local] Instance silent : Supervisor Z := {
  connect_client w := (w, Err [TransportError]); status w := (w, Err [TransportError]); shutdown w := (w, Err [TransportError]);
  start_rpc _ w := (w, Err [TransportError]); end_rpc _ w := (w, Err [TransportError]); cancel_rpc _ w := (w, Err [TransportError]);
  open_lock_file _ w := (w, Ok tt); try_lock _ w := (w, Locked); unlock _ w := w; remove_stale_socket_if_present w := (w, Ok tt);
  spawn_daemon_process w := (w, Ok tt); clock w := w; sleep t w := w + t
}.
#[local] Instance silent_laws : SupervisorLaws Z.
Proof. split; intros; cbn; lia. Qed.

Lemma daemon_requests_return_witness :
  is_Some (daemon_cancel_history dsettings "h9" 0) ∧
  daemon_cancel_history dsettings "h9" 0 = Some (2520000000, Err [OtherCause "timed out waiting for daemon startup"; TransportError]).
Proof.
  split; [|by vm_compute]. apply (daemon_requests_return dsettings (cancel_rpc "h9") false 0). intros t [= <-]. lia.
Defined.

Definition told (intent : option string) : Probe := mk_probe None None intent origin "x" "b7".
Definition machine (intent : option string) : Supervisor Running := running Toy.key1 2 manifest_ids (told intent) 20 draw1 None "18".

Lemma daemon_records_the_same_witness :
  ∃ D1 D2, handle_daemon_start (H := machine None) dsettings settings env "ls  " None None None (daemon [], 0) = Some ((D1, 0), Some "b7") ∧
    handle_daemon_end (H := machine None) dsettings settings "b7" 0 (Some 5) (D1, 0) = Some ((D2, 0), Ok tt) ∧
    HistoryStore.history Toy.key1 (d_records D2) = [HCreate (with_id "b7" (ended 0 5 entry))].
Proof.
  destruct (daemon_records_the_same Toy.key1 2 manifest_ids (told None) 20 draw1 None "18" dsettings settings env "ls  " None None None entry (daemon []) 0 0 (Some 5))
    as (W0 & D1 & D2 & W1 & _ & _ & W2 & W3).
  - done.
  - exact entry_starts.
  - split; by vm_compute.
  - exact entry_storable.
  - done.
  - done.
  - apply empty_wf.
  - apply appendable_empty; [exact Toy.rng_ok|split; vm_compute; congruence].
  - apply (entry_done_ok "b7" 0); [by right|by left].
  - exists D1, D2. split; [exact W1|]. split; [exact W2|]. etrans; [exact (proj1 W3)|]. cbn. by do 2 f_equal.
Defined.

(** ** Where the hooks differ from what is said of them *)

(** A daemon that was started by a process with an intent in its environment gives that intent to every
    command that states none. *)
Theorem daemon_environment_leaks_intent :
  make_starting_history settings env "ls  " None None None = Some entry ∧ h_intent entry = None ∧
  (w ← handle_daemon_start (H := machine (Some "refactor")) dsettings settings env "ls  " None None None (daemon [], 0);
   r ← handle_daemon_end (H := machine (Some "refactor")) dsettings settings "b7" 0 (Some 5) w.1;
   Some (h_intent <$> d_db r.1.1)) = Some [Some "refactor"].
Proof. by vm_compute. Qed.

(** A command that ended with no duration is ended again, and is then in the log twice. *)
Theorem zero_duration_ends_twice :
  (r ← the_end 0 (Some 0) begun;
   r' ← handle_end Toy.key1 2 10 id no_entropy (λ r _, no_entropy r) settings 30 draw2 (Ok false) (Ok tt) "h9" 1 (Some 0) r.1.1;
   r'' ← handle_end Toy.key1 2 10 id no_entropy (λ r _, no_entropy r) settings 30 draw2 (Ok false) (Ok tt) "h9" 0 (Some 7) r.1.1;
   Some (c_db r'.1.1, HistoryStore.history Toy.key1 (c_records r''.1.1))) =
    Some ([], [HCreate (ended 0 0 entry); HCreate (ended 0 7 entry)]).
Proof. by vm_compute. Qed.
End CommandDemo.
