(* ===== verification/SearchCommand.v ===== *)
(** * The search command without its screen ([atuin/src/command/client/search.rs])

    Without [--interactive] the command runs one query and prints what it finds, or deletes it: it deletes
    the entries that the query finds, through the log, and runs the query again until it finds none. The
    query is that of [HistorySearch.v], which shows each command once. *)
From S2P Require Import Prelude Text Interactive Filter Record Status Rmp RmpWire Encryption SqliteStore Streams Packfile Log Kv ShellConfig Dotfiles Scripts History HistoryStore Semantic SearchQuery HistorySearch SearchIndex Sync Daemon HistoryCommand.

(** ** The command *)

(** The options that decide what is done; those of the query are [OptFilters]. *)
Record SearchArgs : Type := mk_args {
  a_query : list string; a_delete : bool; a_delete_it_all : bool; a_filter_mode : option FilterMode; a_search_mode : option SearchMode; a_opts : OptFilters
}.

(** What the command comes to; what is found is in the order in which it is printed. *)
Inductive SearchEnd : Type :=
| LimitRefused | QueryNeeded | QueryRefused
| NothingFound | Found (l : list Entry) | AllDeleted.

(** [self.query], or [ATUIN_QUERY] cut at its spaces. *)
Definition query_words (args : SearchArgs) (atuin_query : option string) : list string :=
  match a_query args with
  | [] => match atuin_query with Some q => split_char space q | None => [] end
  | q => q
  end.

Section errors.
Context `{Crypto}.
Inductive SearchError : Type := BadDate (e : string) | DeleteFailed (e : EncryptionError).
End errors.

Section search_command.
Context `{Rmp, Crypto, SearchLib, SqlText, CharCase, SqlBuilder}.
Context (k : key) (host : HostId) (span : list string → list string → option (Z * Z)).
(** The context of the shell, the directory of the process, the settings and the search mode. *)
Context (ctx : Context_) (current_dir : string) (st : CmdSettings) (mode : SearchMode).

Definition set_filter_mode (m : option FilterMode) (st : CmdSettings) : CmdSettings :=
  match m with
  | None => st
  | Some m => mk_csettings (strip_trailing_whitespace st) (store_failed st) (history_filter st) (cwd_filter st) (secrets_filter st) (secret st)
                (Some m) (search_filters st) (workspaces st)
  end.

(** [cwd] of the options with [.] resolved. *)
Definition resolved_opts (o : OptFilters) : OptFilters :=
  mk_opts (o_exit o) (o_exclude_exit o) (o_only_failed o) (if decide (o_cwd o = Some ".") then Some current_dir else o_cwd o) (o_exclude_cwd o)
    (o_before o) (o_after o) (o_limit o) (o_offset o) (o_reverse o) (o_include_duplicates o) (o_authors o) (o_shells o).

(** [run_non_interactive] *)
Definition run_non_interactive (st : CmdSettings) (mode : SearchMode) (o : OptFilters) (query : list string) (C : Client) : result (list Entry) string :=
  let in_git := match c_git_root ctx with Some _ => true | None => false end in
  let? rows := HistorySearch.search span (closest_db_mode mode) (default_filter_mode st in_git) ctx (String.concat " " query) (resolved_opts o)
                 (to_row <$> c_db C) in
  Ok (from_row <$> rows).

(** The [while] loop: [draw] is what the records of the deletions draw, one after the other. *)
Fixpoint delete_loop (find : Client → result (list Entry) string) (fuel : nat) (draw : nat → Draw) (i : nat) (C : Client)
    : option (Client * result unit SearchError) :=
  match fuel with
  | O => None
  | S fuel =>
      match find C with
      | Err e => Some (C, Err (BadDate e))
      | Ok [] => Some (C, Ok tt)
      | Ok entries =>
          match HistoryStore.delete_entries k host (imap (λ j h, (draw (i + j)%nat, h)) entries) (c_records C) with
          | (records, Err e) => Some (set_stores (c_db C) records C, Err (DeleteFailed e))
          | (records, Ok ids) =>
              delete_loop find fuel draw (i + length entries) (set_stores (HistoryStore.build_all k records ids (c_db C)) records C)
          end
      end
  end.

(** [Cmd::run] without [--interactive]; a turn of the loop deletes a row at least. *)
Definition run_search (args : SearchArgs) (atuin_query : option string) (draw : nat → Draw) (C : Client)
    : option (Client * result SearchEnd SearchError) :=
  let query := query_words args atuin_query in
  let deleting := a_delete args || a_delete_it_all args in
  if deleting && bool_decide (is_Some (o_limit (a_opts args))) then Some (C, Ok LimitRefused)
  else if a_delete args && bool_decide (query = []) then Some (C, Ok QueryNeeded)
  else if a_delete_it_all args && bool_decide (query ≠ []) then Some (C, Ok QueryRefused)
  else
    let find := run_non_interactive (set_filter_mode (a_filter_mode args) st) (default mode (a_search_mode args)) (a_opts args) query in
    match find C with
    | Err e => Some (C, Err (BadDate e))
    | Ok [] => Some (C, Ok NothingFound)
    | Ok entries =>
        if deleting
        then match delete_loop find (S (length (c_db C))) draw 0 C with
             | None => None
             | Some (C, Err e) => Some (C, Err e)
             | Some (C, Ok _) => Some (C, Ok AllDeleted)
             end
        else Some (C, Ok (Found (reverse entries)))
    end.
End search_command.

(** ** Deletions: lemmas *)

Section deletions.
Context `{RmpLaws, CryptoLaws} (k : key) (host : HostId).

Lemma get_in st id r : Store.get st id = Some r → r ∈ Store.load_all st ∧ r_id r = id.
Proof.
  unfold Store.get. intros (row & Hr & ->)%fmap_Some. apply head_Some_elem_of, list_elem_of_filter in Hr as [Hid Hin].
  split; [by apply list_elem_of_fmap_2|done].
Qed.

(** A record that is there stays as it is. *)
Lemma decode_stays st st' id a :
  store_wf st' → (∀ r, r ∈ Store.load_all st → r ∈ Store.load_all st') →
  HistoryStore.decode k st id = Some a → HistoryStore.decode k st' id = Some a.
Proof.
  intros Hwf Hsub. unfold HistoryStore.decode. destruct (Store.get st id) as [r|] eqn:Eg; [|done]. apply get_in in Eg as [Hr <-].
  by rewrite (get_by_id st' r Hwf (Hsub r Hr)).
Qed.

Lemma delete_entries_spec (es : list Entry) draw i n st :
  store_wf st → drawable st draw i n → (i + length es ≤ n)%nat → Forall (λ h, hrec_ok (HDelete (h_id h))) es →
  ∃ st' ids, HistoryStore.delete_entries k host (imap (λ j h, (draw (i + j)%nat, h)) es) st = (st', Ok ids) ∧ store_wf st' ∧
    HistoryStore.history k st' = HistoryStore.history k st ++ (HDelete ∘ h_id <$> es) ∧
    omap (HistoryStore.decode k st') ids = HDelete ∘ h_id <$> es ∧ drawable st' draw (i + length es) n ∧
    ∀ r, r ∈ Store.load_all st → r ∈ Store.load_all st'.
Proof.
  revert i st. induction es as [|h es IH]; intros i st Hwf D Hn Hok.
  { exists st, []. cbn. rewrite app_nil_r, Nat.add_0_r. by split_and!. }
  apply Forall_cons in Hok as [Hh Hok]. cbn [length] in Hn. assert (i < n)%nat as Hi by lia.
  destruct (push_drawn k host st draw i n (HDelete (h_id h)) Hi Hwf D Hh) as (st1 & Hp & Hwf1 & Hlog1 & Hdec1 & D1 & Hsub1).
  destruct (IH (S i) st1 Hwf1 D1) as (st2 & ids & He & Hwf2 & Hlog2 & Hdec2 & D2 & Hsub2); [lia|done|].
  exists st2, (draw_id (draw i) :: ids). rewrite imap_cons, Nat.add_0_r. cbn [HistoryStore.delete_entries]. unfold HistoryStore.delete.
  rewrite (st_bind_ok _ _ _ _ _ Hp), (imap_ext _ (λ j h, (draw (S i + j)%nat, h))); [|intros j x _; cbn [compose]; do 2 f_equal; lia].
  rewrite (st_bind_ok _ _ _ _ _ He). split_and!; [done|done| | |cbn [length]; by rewrite Nat.add_succ_r|auto].
  - rewrite Hlog2, Hlog1, <- app_assoc. done.
  - cbn [omap list_omap]. rewrite (decode_stays st1 st2 _ _ Hwf2 Hsub2 Hdec1), Hdec2. done.
Qed.

Lemma apply_deletions (es : list Entry) db : foldl apply_record db (HDelete ∘ h_id <$> es) = HistoryDb.delete_rows db (h_id <$> es).
Proof. unfold HistoryDb.delete_rows. revert db. induction es as [|h es IH]; intros db; [done|]. cbn. apply IH. Qed.
End deletions.

(** ** What the loop leaves *)

Section deleting.
Context `{RmpLaws, CryptoLaws, SearchLib, SqlText, CharCase, SqlBuilder}.
Context (k : key) (host : HostId).

(** A query that finds entries of the database among those that match, and some where there are any. *)
Definition finds (P : Entry → Prop) (find : Client → result (list Entry) string) : Prop :=
  ∀ C, client_ok C → ∃ es, find C = Ok es ∧ NoDup es ∧ (∀ h, h ∈ es → h ∈ c_db C ∧ P h) ∧ (es = [] → ∀ h, h ∈ c_db C → ¬ P h).

Lemma delete_loop_spec P `{∀ h, Decision (P h)} find draw n C i fuel :
  finds P find → client_ok C → drawable (c_records C) draw i n → (i + length (filter P (c_db C)) ≤ n)%nat → (length (filter P (c_db C)) < fuel)%nat →
  ∃ dels records, delete_loop k host find fuel draw i C = Some (set_stores (filter (λ h, ¬ P h) (c_db C)) records C, Ok tt) ∧
    HistoryStore.history k records = HistoryStore.history k (c_records C) ++ (HDelete <$> dels) ∧
    (∀ id, id ∈ dels ↔ ∃ h, h ∈ c_db C ∧ P h ∧ h_id h = id) ∧ store_wf records.
Proof.
  intros Hfind. revert C i. induction fuel as [|fuel IH]; intros C i Hok D Hn Hf; [lia|]. cbn [delete_loop].
  destruct (Hfind C Hok) as (es & -> & Hnd & Hin & Hnone). destruct es as [|e es'].
  { exists [], (c_records C). rewrite app_nil_r. split_and!; [|done| |apply Hok].
    - rewrite filter_every; [by destruct C|]. by apply Hnone.
    - intros id. split; [by intros ?%not_elem_of_nil|]. intros (h & Hh & HP & _). by destruct (Hnone eq_refl h Hh). }
  set (es := e :: es') in *. set (db' := filter (λ h, h ∉ es) (c_db C)).
  assert (length es + length (filter P db') ≤ length (filter P (c_db C)))%nat as Hlen.
  { rewrite <- length_app. apply submseteq_length, NoDup_submseteq.
    - apply NoDup_app. split_and!; [done| |].
      + intros h Hh [_ [Hx _]%list_elem_of_filter]%list_elem_of_filter. by apply Hx.
      + by apply NoDup_filter, NoDup_filter, (NoDup_fmap_1 h_id), Hok.
    - intros h [Hh|Hh]%elem_of_app; apply list_elem_of_filter; [by destruct (Hin h Hh)|].
      apply list_elem_of_filter in Hh as [HP [_ Hh]%list_elem_of_filter]. done. }
  assert (length es = S (length es')) as Hes by done.
  destruct (delete_entries_spec k host es draw i n (c_records C)) as (st1 & ids & -> & Hwf1 & Hlog1 & Hdec & D1 & _); [apply Hok|done|lia| |].
  { apply Forall_forall. intros h [Hh _]%Hin. pose proof (co_text _ Hok) as Ht. rewrite Forall_forall in Ht. auto. }
  rewrite build_all_applies, Hdec, apply_deletions, delete_rows_filter.
  assert (filter (λ h, h_id h ∉ h_id <$> es) (c_db C) = db') as ->.
  { apply filter_agree. intros h Hh. rewrite list_elem_of_fmap. split; [intros Hx Hh'; apply Hx; by exists h|].
    intros Hx (h' & E & Hh'). apply Hx. assert (h = h') as ->; [|done]. eapply (NoDup_fmap_eq h_id); [apply Hok|done|by apply Hin|done]. }
  set (C1 := set_stores db' st1 C). assert (client_ok C1) as Hok1 by (by apply client_ok_delete).
  destruct (IH C1 (i + length es)%nat Hok1 D1) as (dels & records & Hloop & Hlog & Hdels & Hwf); [cbn [C1 set_stores c_db]; lia|cbn [C1 set_stores c_db]; lia|].
  exists ((h_id <$> es) ++ dels), records. split_and!; [| | |done].
  - fold es. rewrite Hloop. change (set_stores ?x records C1) with (set_stores x records C). do 3 f_equal. unfold C1, db'. cbn [set_stores c_db]. rewrite list_filter_filter. apply filter_agree. intros h Hh.
    split; [tauto|]. intros HP. split; [done|]. intros [_ ?]%Hin. done.
  - rewrite Hlog. unfold C1. cbn [set_stores c_records]. rewrite Hlog1, <- app_assoc, fmap_app, <- list_fmap_compose. done.
  - intros id. rewrite elem_of_app, Hdels, list_elem_of_fmap. unfold C1, db'. cbn [set_stores c_db]. split.
    + intros [(h & -> & [Hh HP]%Hin)|(h & [_ Hh]%list_elem_of_filter & HP & E)]; by exists h.
    + intros (h & Hh & HP & E). destruct (decide (h ∈ es)); [left; by exists h|]. right. exists h. split; [by apply list_elem_of_filter|done].
Qed.

Context (span : list string → list string → option (Z * Z)) (ctx : Context_) (current_dir : string).

(** The rows that a query without a limit returns are those of some of the entries that match. *)
Lemma search_rows m f q o ops db :
  search_ops m f ctx q o = Ok ops → o_limit o = None → o_offset o = None → Forall HistorySearch.storable db →
  ∃ rows, HistorySearch.search span m f ctx q o (to_row <$> db) = Ok rows ∧
    from_row <$> rows ≡ₚ filter (λ h, to_row h ∈ rows) db ∧ (∀ h, h ∈ db → to_row h ∈ rows → where_holds ops (cond_holds (to_row h)) = true) ∧
    (rows = [] → ∀ h, h ∈ db → where_holds ops (cond_holds (to_row h)) = false).
Proof.
  intros Ho Hl Hof Hs. unfold HistorySearch.search. rewrite Ho. cbn [rbind]. rewrite Hl, Hof. cbn [page].
  set (sel := select ops (to_row <$> db)). set (uniq := if o_include_duplicates o then sel else HistorySearch.dedup sel).
  set (rows := reorder_fuzzy _ _ _ _ _). exists rows. assert (rows ≡ₚ uniq) as Hp.
  { unfold rows. rewrite reorder_perm. destruct (o_reverse o); unfold sort_asc, sort_desc, sort_by_key; by rewrite sort_by_perm. }
  assert (∀ r, r ∈ uniq → r ∈ sel) as Hsub.
  { intros r. unfold uniq. destruct (o_include_duplicates o); [done|]. by intros [_ ?]%list_elem_of_filter. }
  assert (uniq = filter (λ r, r ∈ uniq) (to_row <$> db)) as Hu.
  { assert (∀ Q `{∀ r, Decision (Q r)} (l : list HistorySearch.Row), filter Q l = filter (λ r, r ∈ filter Q l) l) as Hq.
    { intros Q ? l. apply filter_agree. intros r Hr. rewrite list_elem_of_filter. tauto. }
    unfold uniq. destruct (o_include_duplicates o); [apply Hq|]. unfold HistorySearch.dedup, sel, select. rewrite list_filter_filter. apply Hq. }
  assert (∀ h, h ∈ db → to_row h ∈ sel ↔ where_holds ops (cond_holds (to_row h)) = true) as Hsel.
  { intros h Hh. unfold sel, select. rewrite list_elem_of_filter. split; [tauto|]. intros ?. split; [done|by apply list_elem_of_fmap_2]. }
  split_and!; [done| | |].
  - etrans; [apply fmap_Permutation; exact Hp|]. rewrite Hu, filter_image, rows_read_back.
    + erewrite (list_filter_iff (λ h, to_row h ∈ uniq) (λ h, to_row h ∈ rows)); [done|]. intros h. by rewrite Hp.
    + rewrite Forall_forall in Hs |- *. intros h [_ Hh]%list_elem_of_filter. auto.
  - intros h Hh Hr. rewrite Hp in Hr. by apply Hsel, Hsub.
  - intros Hnil h Hh. apply not_true_iff_false. intros Hm%Hsel; [|done]. assert (uniq = []) as Eu by (apply Permutation_nil; by rewrite <- Hp, Hnil).
    unfold uniq in Eu. destruct (o_include_duplicates o); [rewrite Eu in Hm; by apply not_elem_of_nil in Hm|].
    destruct (dedup_represents sel (to_row h) Hm) as (r & Hr & _). rewrite Eu in Hr. by apply not_elem_of_nil in Hr.
Qed.

Lemma query_finds st mode o query ops :
  search_ops (closest_db_mode mode) (default_filter_mode st (match c_git_root ctx with Some _ => true | None => false end)) ctx (String.concat " " query)
    (resolved_opts current_dir o) = Ok ops →
  o_limit o = None → o_offset o = None →
  finds (λ h, where_holds ops (cond_holds (to_row h)) = true) (run_non_interactive span ctx current_dir st mode o query).
Proof.
  intros Ho Hl Hof C Hok. unfold run_non_interactive.
  destruct (search_rows _ _ _ _ _ (c_db C) Ho Hl Hof (co_rows _ Hok)) as (rows & -> & Hp & Hm & Hn). cbn [rbind]. exists (from_row <$> rows). split_and!.
  - done.
  - rewrite Hp. apply NoDup_filter, (NoDup_fmap_1 h_id), Hok.
  - intros h. rewrite Hp, list_elem_of_filter. intros [Hr Hh]. split; [done|by apply Hm].
  - intros E%fmap_nil_inv h Hh. rewrite (Hn E h Hh). done.
Qed.

(** C23: [search --delete], without [--limit] and [--offset], ends, and deletes exactly what its query matches: not only
    the entries that a search shows, of which each command has one, but all of them, each by one deletion in the
    log, and nothing else; where nothing matches nothing is changed. *)
Theorem search_delete_removes_matches st mode args atuin_query draw C ops :
  let query := query_words args atuin_query in
  a_delete args = true ∧ a_delete_it_all args = false ∧ query ≠ [] ∨ a_delete_it_all args = true ∧ a_delete args = false ∧ query = [] →
  o_limit (a_opts args) = None → o_offset (a_opts args) = None →
  search_ops (closest_db_mode (default mode (a_search_mode args)))
    (default_filter_mode (set_filter_mode (a_filter_mode args) st) (match c_git_root ctx with Some _ => true | None => false end)) ctx
    (String.concat " " query) (resolved_opts current_dir (a_opts args)) = Ok ops →
  client_ok C →
  let matching h := where_holds ops (cond_holds (to_row h)) = true in
  drawable (c_records C) draw 0 (length (filter matching (c_db C))) →
  ∃ dels records, run_search k host span ctx current_dir st mode args atuin_query draw C =
      Some (if decide (filter matching (c_db C) = []) then (C, Ok NothingFound)
            else (set_stores (filter (λ h, ¬ matching h) (c_db C)) records C, Ok AllDeleted)) ∧
    HistoryStore.history k records = HistoryStore.history k (c_records C) ++ (HDelete <$> dels) ∧
    ∀ id, id ∈ dels ↔ ∃ h, h ∈ c_db C ∧ matching h ∧ h_id h = id.
Proof.
  intros query Hq Hl Hof Ho Hok matching D. pose proof (query_finds _ _ _ _ _ Ho Hl Hof) as Hfind.
  destruct (delete_loop_spec matching _ draw (length (filter matching (c_db C))) C 0 (S (length (c_db C))) Hfind Hok D)
    as (dels & records & Hloop & Hlog & Hdels & _); [lia|pose proof (length_filter matching (c_db C)); lia|].
  exists dels, records. split_and!; [|done..]. unfold run_search. fold query. rewrite Hl. rewrite (bool_decide_eq_false_2 (is_Some None)) by (by intros [? ?]).
  rewrite andb_false_r.
  assert (a_delete args && bool_decide (query = []) = false ∧ a_delete_it_all args && bool_decide (query ≠ []) = false ∧ a_delete args || a_delete_it_all args = true)
    as (-> & -> & ->).
  { destruct Hq as [(-> & -> & Hne)|(-> & -> & ->)]; (split_and!; [|done..]); [by rewrite bool_decide_eq_false_2|done]. }
  destruct (Hfind C Hok) as (es & -> & _ & Hin & Hnone). destruct es as [|e es].
  - rewrite decide_True; [done|]. apply filter_none. by apply Hnone.
  - rewrite decide_False; [by rewrite Hloop|]. intros E. destruct (Hin e) as [He HP]; [left|]. eapply filter_nil_not_elem_of; [exact E|exact HP|done].
Qed.
End deleting.

(** ** Examples *)

Module SearchCommandDemo.
Import IndexDemo ToyPack DaemonDemo CommandDemo.

#[local] Instance sql_lib : SearchLib := {| uuid_time _ := None; parse_date_string _ := None; lowercase := sql_lower |}.
#[local] Instance sql_text : SqlText :=
  {| like p s := wild ascii_lower char_pct (chars p) (chars s); glob p s := wild id char_star (chars p) (chars s); regexp _ _ := true |}.
#[local] Instance sql_case : CharCase := λ s, existsb is_upper (chars s).
#[local] Instance sql_builder : SqlBuilder := λ C ops ev, forallb (existsb ev) (clauses ops).

Definition no_span : list string → list string → option (Z * Z) := λ _ _, None.
Definition args (query : list string) (delete all : bool) : SearchArgs := mk_args query delete all None None no_opts.
Definition global : CmdSettings := mk_csettings true true (λ _, false) (λ _, false) false (λ _, false) None [FGlobal] true.
Definition in_session : CmdSettings := mk_csettings true true (λ _, false) (λ _, false) false (λ _, false) (Some FSession) [FGlobal; FSession] true.
Definition run (st : CmdSettings) (a : SearchArgs) (C : Client) :=
  run_search Toy.key1 2 no_span ctx "/src" st SDaemonFuzzy a None draws C.

Lemma search_delete_removes_matches_witness :
  ∃ records, run global (args ["make"] true false) history =
      Some (set_stores [ran "a2" 2 "rm x"; ran "a5" 5 "rm y"] records history, Ok AllDeleted) ∧
    ∃ dels, HistoryStore.history Toy.key1 records = HDelete <$> dels ∧ ("a1" ∈ dels)%string.
Proof.
  assert (∃ ops, search_ops DbFuzzy FGlobal ctx "make" (resolved_opts "/src" no_opts) = Ok ops ∧
    filter (λ h, where_holds ops (cond_holds (to_row h)) = true) (c_db history) = [ran "a1" 1 "make"; ran "a3" 3 "make"; ran "a4" 4 "make"] ∧
    filter (λ h, ¬ where_holds ops (cond_holds (to_row h)) = true) (c_db history) = [ran "a2" 2 "rm x"; ran "a5" 5 "rm y"]) as (ops & Ho & E1 & E2).
  { eexists. split; [reflexivity|]. split; by vm_compute. }
  destruct (search_delete_removes_matches Toy.key1 2 no_span ctx "/src" global SDaemonFuzzy (args ["make"%string] true false) None draws history ops)
    as (dels & records & Hrun & Hlog & Hdels); [by left|done|done|exact Ho|exact history_ok|rewrite E1; apply draws_ok; cbn; lia|].
  exists records. split; [unfold run; by rewrite Hrun, decide_False, E2 by (by rewrite E1)|]. exists dels. split.
  { rewrite Hlog. assert (HistoryStore.history Toy.key1 (c_records history) = []) as -> by (by vm_compute). done. }
  apply Hdels. exists (ran "a1" 1 "make"). assert (ran "a1" 1 "make" ∈ [ran "a1" 1 "make"; ran "a3" 3 "make"; ran "a4" 4 "make"]) as Hx by left.
  rewrite <- E1 in Hx. apply list_elem_of_filter in Hx as [Hm Hh]. split; [exact Hh|]. split; [exact Hm|reflexivity].
Defined.

(** Where the settings name a filter, deleting everything deletes what passes it. *)
Definition elsewhere : Entry := mk_hist "a9" 9 5 0 "ls" "/src" "other" origin "ann" None None (Some "zsh") None.
Theorem delete_it_all_spares_other_sessions :
  match run in_session (args [] false true) (client [ran "a1" 1 "make"; elsewhere]) with
  | Some (C, Ok AllDeleted) => c_db C = [elsewhere]
  | _ => False
  end.
Proof. by vm_compute. Qed.
End SearchCommandDemo.
