(* ===== verification/Hook.v ===== *)
(** * Hooks of coding agents ([atuin/src/command/client/hook.rs], [hook/event.rs], [hook/wire.rs])

    An agent calls [atuin hook] with an event before and after each of its tools. A command that starts is
    recorded as the agent's, and the id of its entry is kept in a file that is named for the tool use, so
    that the call after it can end the entry. [hook install] adds the call to the configuration of the
    agent. The text of an event is read by [serde_json] through the derived readers: its result is an
    argument, and of JSON values an interface is used. How an entry is recorded is an interface too, which
    the ways of [HistoryCommand.v] implement. *)
From S2P Require Import Prelude Text Interactive Filter Json Record Status Rmp RmpWire Encryption SqliteStore Streams Packfile Log Kv ShellConfig Dotfiles Scripts History HistoryStore Semantic SearchQuery HistorySearch SearchIndex Sync Daemon HistoryCommand.

(** ** Events *)

Inductive WireToolName : Type := ToolBash | ToolOther.
Inductive HookEventName : Type := PreToolUse | PostToolUse | PostToolUseFailure | OtherEvent.
Record WireToolInput : Type := mk_input { in_command : option string; in_description : option string }.
Record WireToolResponse : Type := mk_response { exit_code : option Z }.
Record WireHookEvent : Type := mk_wire {
  hook_event_name : HookEventName; tool_name : WireToolName; w_tool_use_id : string;
  tool_input : option WireToolInput; tool_response : option WireToolResponse
}.

Inductive HookEvent : Type :=
| HookStart (command : string) (intent : option string) (tool_use_id : string)
| HookEnd (tool_use_id : string) (exit : Z).

(** [From<WireHookEvent> for Option<HookEvent>] *)
Definition hook_event (wire : WireHookEvent) : option HookEvent :=
  match tool_name wire with
  | ToolOther => None
  | ToolBash =>
      if decide (w_tool_use_id wire = "") then None
      else
        match hook_event_name wire with
        | PreToolUse =>
            let '(command, intent) := match tool_input wire with Some i => (in_command i, in_description i) | None => (None, None) end in
            command ← command;
            if decide (command = "") then None else Some (HookStart command intent (w_tool_use_id wire))
        | PostToolUse => Some (HookEnd (w_tool_use_id wire) (default 0 (r ← tool_response wire; exit_code r)))
        | PostToolUseFailure => Some (HookEnd (w_tool_use_id wire) 1)
        | OtherEvent => None
        end
  end.

(** What [serde_json] makes of a text: an event, JSON that is none, or no JSON. *)
Inductive Decoded : Type := Decodes (w : WireHookEvent) | WrongData | Malformed (line column : nat).

(** [HookEvent::from_json_str] *)
Definition from_json_str (d : Decoded) : result (option HookEvent) (nat * nat) :=
  match d with Decodes w => Ok (hook_event w) | WrongData => Ok None | Malformed line column => Err (line, column) end.

(** ** Agents *)

Inductive PathRoot : Type := HomeRoot | XdgConfig.
Inductive InstallKind : Type :=
| JsonHooks (config_path : list string) (hook_command matcher : string)
| Extension (extension_path : list string) (source : string) (reload_hint : string).
Record AgentSpec : Type := mk_agent { aliases : list string; actor_name : string; path_root : PathRoot; install_kind : InstallKind }.

(** The texts of the extensions are files of the repository. *)
Section agents.
Context (PI_EXTENSION_SOURCE OPENCODE_PLUGIN_SOURCE : string).

Definition CLAUDE_CODE : AgentSpec :=
  mk_agent ["claude-code"; "claude"] "claude-code" HomeRoot (JsonHooks [".claude"; "settings.json"] "atuin hook claude-code" "Bash").
Definition CODEX : AgentSpec := mk_agent ["codex"] "codex" HomeRoot (JsonHooks [".codex"; "hooks.json"] "atuin hook codex" "^Bash$").
Definition PI : AgentSpec :=
  mk_agent ["pi"] "pi" HomeRoot (Extension [".pi"; "agent"; "extensions"; "atuin.ts"] PI_EXTENSION_SOURCE "Reload pi with `/reload` or restart pi.").
Definition OPENCODE : AgentSpec :=
  mk_agent ["opencode"] "opencode" XdgConfig (Extension ["opencode"; "plugins"; "atuin.ts"] OPENCODE_PLUGIN_SOURCE "Restart opencode to load the plugin.").
Definition AGENTS : list AgentSpec := [CLAUDE_CODE; CODEX; OPENCODE; PI].

(** [Agent::from_name] *)
Definition from_name (name : string) : result AgentSpec string :=
  match List.find (λ a, bool_decide (name ∈ aliases a)) AGENTS with
  | Some a => Ok a
  | None => Err ("unknown agent: " ++ name ++ ". Supported agents: claude-code, codex, opencode, pi")%string
  end.
End agents.

(** [xdg_config_home] and [Agent::path] *)
Definition xdg_config_home (home : string) (var : option string) : string :=
  match var with Some v => if decide (v = "") then path_join home ".config" else v | None => path_join home ".config" end.
Definition agent_path (home : string) (xdg : option string) (a : AgentSpec) (path : list string) : string :=
  foldl path_join (match path_root a with HomeRoot => home | XdgConfig => xdg_config_home home xdg end) path.

(** ** Handling an event *)

(** How entries are recorded: [start_history_entry] and [end_history_entry]; [None] is a panic. *)
Class Recorder (S E : Type) : Type := {
  start_entry : string → option string → option AuthorKind → option string → S → option (S * result (option string) E);
  end_entry : string → Z → option Z → S → option (S * result unit E)
}.

(** Without the daemon: the calls are numbered, and each has an environment, a time, what its record draws
    and whether and where it syncs. *)
Section direct.
Context `{Rmp, Crypto, PackLib, UuidText, WideChars} {R : Type} `{Remote R} (k : key) (host : HostId).
Context (page_size : Z) (hash_order : list RecordSeriesKey → list RecordSeriesKey).
Context (pack_entropy : RecordId → Entropy) (unpack_entropy : RecordId → nat → Entropy).
Context (st : CmdSettings) (env : nat → Env) (draw : nat → Draw) (now : nat → Z) (should_sync : nat → result bool string) (connected : nat → result R SyncError).

Definition direct_recorder : Recorder (nat * Client) CmdError := {|
  start_entry command author kind intent s :=
    let '(C, id) := handle_start st (env s.1) command author kind intent s.2 in Some ((S s.1, C), Ok id);
  end_entry id exit duration s :=
    r ← handle_end k host page_size hash_order pack_entropy unpack_entropy st (now s.1) (draw s.1) (should_sync s.1) (connected s.1) id exit duration s.2;
    Some ((S s.1, r.1.1), r.2)
|}.
End direct.

(** Through the daemon. *)
Definition daemon_recorder {W} `{Supervisor W} (ds : DaemonClientSettings) (st : CmdSettings) (env : nat → Env) : Recorder (nat * W) (list Cause) := {|
  start_entry command author kind intent s :=
    r ← handle_daemon_start ds st (env s.1) command author kind intent s.2; Some ((S s.1, r.1), Ok r.2);
  end_entry id exit duration s := r ← handle_daemon_end ds st id exit duration s.2; Some ((S s.1, r.1), r.2)
|}.

Section handle.
Context {S E : Type} `{Recorder S E} (PI_EXTENSION_SOURCE OPENCODE_PLUGIN_SOURCE : string) (temp_dir : string).

Inductive HookError : Type := UnknownAgent (msg : string) | NotSupported (msg : string) | NotJson (line column : nat) | RecordFailed (e : E).

(** [id_file_path] *)
Definition id_file_path (tool_use_id : string) : string := path_join temp_dir ("atuin-hook-" ++ tool_use_id)%string.

(** The match of [handle]: the recorder and the files. *)
Definition on_event (agent : AgentSpec) (e : HookEvent) (s : S * gmap string string) : option ((S * gmap string string) * result unit HookError) :=
  match e with
  | HookStart command intent id =>
      r ← start_entry command (Some (actor_name agent)) (Some KindAgent) intent s.1;
      Some match r with
           | (r, Err err) => ((r, s.2), Err (RecordFailed err))
           | (r, Ok None) => ((r, s.2), Ok tt)
           | (r, Ok (Some history_id)) => ((r, <[id_file_path id := history_id]> s.2), Ok tt)
           end
  | HookEnd id exit =>
      match s.2 !! id_file_path id with
      | None => Some (s, Ok tt)
      | Some history_id =>
          let history_id := trim history_id in
          r ← (if decide (history_id = "") then Some s.1 else fst <$> end_entry history_id exit None s.1);
          Some ((r, delete (id_file_path id) s.2), Ok tt)
      end
  end.

(** [handle]; [input] is the text on the standard input, [decode] what it decodes to. *)
Definition handle (agent_name : string) (input : string) (decode : string → Decoded) (s : S * gmap string string)
    : option ((S * gmap string string) * result unit HookError) :=
  match from_name PI_EXTENSION_SOURCE OPENCODE_PLUGIN_SOURCE agent_name with
  | Err msg => Some (s, Err (UnknownAgent msg))
  | Ok agent =>
      match install_kind agent with
      | Extension _ _ reload_hint =>
          Some (s, Err (NotSupported ("`atuin hook " ++ agent_name ++ "` is not supported. Use `atuin hook install " ++ agent_name ++ "`. " ++ reload_hint)))
      | JsonHooks _ _ _ =>
          if decide (trim input = "") then Some (s, Ok tt)
          else
            match from_json_str (decode input) with
            | Err (line, column) => Some (s, Err (NotJson line column))
            | Ok None => Some (s, Ok tt)
            | Ok (Some e) => on_event agent e s
            end
      end
  end.
End handle.
Arguments HookError : clear implicits.

(** ** Installing *)

(** JSON objects as maps, and back. *)
Class JsonObject `{Json} : Type := { as_object : Value → option (gmap string Value); jobject : gmap string Value → Value }.
Class JsonObjectLaws `{JsonObject} : Prop := {
  as_jobject m : as_object (jobject m) = Some m;
  jobject_as v m : as_object v = Some m → jobject m = v;
  get_object v k : get v k = m ← as_object v; m !! k;
  arr_as_array v l : as_array v = Some l → jarr l = v;
  as_array_arr l : as_array (jarr l) = Some l;
  as_str_str s : as_str (jstr s) = Some s
}.

Section install.
Context `{JsonObject}.

Definition HOOK_EVENT_TYPES : list string := ["PreToolUse"; "PostToolUse"; "PostToolUseFailure"].

(** An entry that calls the command. *)
Definition calls_hook (hook_command : string) (entry : Value) : bool :=
  match hs ← get entry "hooks"; as_array hs with
  | Some hooks => existsb (λ hook, bool_decide ((c ← get hook "command"; as_str c) = Some hook_command)) hooks
  | None => false
  end.
Definition hook_entry (hook_command matcher : string) : Value :=
  jobject {["matcher" := jstr matcher;
            "hooks" := jarr [jobject {["type" := jstr "command"; "command" := jstr hook_command]}]]}.

(** A turn of the loop of [add_hook_entries], and the loop. *)
Definition add_hook (hook_command matcher event_type : string) (hooks : Value) : result Value string :=
  match as_object hooks with
  | None => Err "hooks is not a JSON object"
  | Some m =>
      match as_array (default (jarr []) (m !! event_type)) with
      | None => Err ("hooks." ++ event_type ++ " is not an array")%string
      | Some arr =>
          let arr := if existsb (calls_hook hook_command) arr then arr else arr ++ [hook_entry hook_command matcher] in
          Ok (jobject (<[event_type := jarr arr]> m))
      end
  end.
Fixpoint add_hooks (hook_command matcher : string) (event_types : list string) (hooks : Value) : result Value string :=
  match event_types with
  | [] => Ok hooks
  | t :: ts => let? hooks := add_hook hook_command matcher t hooks in add_hooks hook_command matcher ts hooks
  end.
Definition add_hook_entries (hooks : Value) (agent : AgentSpec) : result Value string :=
  match install_kind agent with
  | JsonHooks _ hook_command matcher => add_hooks hook_command matcher HOOK_EVENT_TYPES hooks
  | Extension _ _ _ => Err "agent does not use JSON hooks"
  end.

(** The configuration with the hooks. *)
Definition install_json (agent : AgentSpec) (root : Value) : result Value string :=
  match as_object root with
  | None => Err "config is not a JSON object"
  | Some m => let? hooks := add_hook_entries (default (jobject ∅) (m !! "hooks")) agent in Ok (jobject (<["hooks" := hooks]> m))
  end.

(** [install] over the files that it reads and writes; [pretty] is [to_string_pretty]. *)
Definition install (PI_EXTENSION_SOURCE OPENCODE_PLUGIN_SOURCE home : string) (xdg : option string) (pretty : Value → string) (agent_name : string)
    (files : gmap string string) : result (gmap string string) string :=
  let? agent := from_name PI_EXTENSION_SOURCE OPENCODE_PLUGIN_SOURCE agent_name in
  match install_kind agent with
  | JsonHooks config_path _ _ =>
      let path := agent_path home xdg agent config_path in
      let? root := match files !! path with Some content => from_json content | None => Ok (jobject ∅) end in
      let? root := install_json agent root in
      Ok (<[path := pretty root]> files)
  | Extension extension_path source _ =>
      let path := agent_path home xdg agent extension_path in
      Ok (if decide (files !! path = Some source) then files else <[path := source]> files)
  end.
End install.

(** ** Starts and ends *)

Section pairing.
Context {S E : Type} `{Recorder S E} (temp_dir : string) (agent : AgentSpec).
Abbreviation on_event := (on_event (E := E) temp_dir agent).

Definition id_of (e : HookEvent) : string := match e with HookStart _ _ id | HookEnd id _ => id end.

Lemma id_file_path_inj id id' : id_file_path temp_dir id = id_file_path temp_dir id' → id = id'.
Proof.
  unfold id_file_path, path_join. change (is_absolute ("atuin-hook-" ++ id)) with false. change (is_absolute ("atuin-hook-" ++ id')) with false. cbv iota.
  destruct (_ || _); intros E0; apply (inj (String.append temp_dir)) in E0; [|apply (inj (String.append "/")) in E0]; by apply (inj (String.append "atuin-hook-")) in E0.
Qed.

Definition handled (e : HookEvent) (s : S * gmap string string) : option (S * gmap string string) := fst <$> on_event e s.
Fixpoint handled_all (es : list HookEvent) (s : S * gmap string string) : option (S * gmap string string) :=
  match es with [] => Some s | e :: es => s ← handled e s; handled_all es s end.

Lemma other_event_keeps_file e s s' id : handled e s = Some s' → id_of e ≠ id → s'.2 !! id_file_path temp_dir id = s.2 !! id_file_path temp_dir id.
Proof.
  intros Hs Hne. assert (id_file_path temp_dir (id_of e) ≠ id_file_path temp_dir id) as Hf by (intros ?%id_file_path_inj; done). revert Hs.
  destruct e as [c i u|u x]; unfold handled, Hook.on_event.
  - destruct (start_entry _ _ _ _ _) as [[r [[hid|]|err]]|]; cbn [mbind option_bind fmap option_fmap option_map]; intros [= <-]; cbn [fst snd]; [|done..].
    by rewrite lookup_insert_ne.
  - destruct (s.2 !! id_file_path temp_dir u); [|by intros [= <-]]. destruct (if decide _ then _ else _) as [r|]; cbn; intros [= <-]. cbn [snd]. by rewrite lookup_delete_ne.
Qed.

Lemma other_events_keep_file es s s' id :
  handled_all es s = Some s' → Forall (λ e, id_of e ≠ id) es → s'.2 !! id_file_path temp_dir id = s.2 !! id_file_path temp_dir id.
Proof.
  intros Hs Hes. revert s Hs. induction Hes as [|e es He _ IH]; intros s Hs; cbn [handled_all] in Hs; [by injection Hs as ->|].
  apply bind_Some in Hs as (s1 & H1 & Hs). rewrite (IH s1 Hs). by apply (other_event_keeps_file e).
Qed.

(** C24: a tool use that starts is recorded as the agent's, and when it ends, the entry that was started for it
    is ended with the exit code of the event, and only once, whatever other tool uses start and end
    meanwhile. *)
Theorem hook_ends_what_it_started command intent id history_id r s es s2 r' res exit :
  start_entry command (Some (actor_name agent)) (Some KindAgent) intent s.1 = Some (r, Ok (Some history_id)) →
  trim history_id = history_id → history_id ≠ "" → Forall (λ e, id_of e ≠ id) es →
  let s1 := (r, <[id_file_path temp_dir id := history_id]> s.2) in
  handled_all es s1 = Some s2 → end_entry history_id exit None s2.1 = Some (r', res) →
  let s3 := (r', delete (id_file_path temp_dir id) s2.2) in
  handled_all (HookStart command intent id :: es ++ [HookEnd id exit]) s = Some s3 ∧ ∀ exit', handled (HookEnd id exit') s3 = Some s3.
Proof.
  intros Hst Ht Hne Hes s1 Hall Hend s3. assert (handled (HookStart command intent id) s = Some s1) as E1 by (unfold handled, Hook.on_event; by rewrite Hst).
  assert (s2.2 !! id_file_path temp_dir id = Some history_id) as Hf by (rewrite (other_events_keep_file es s1 s2 id Hall Hes); apply lookup_insert_eq).
  assert (handled (HookEnd id exit) s2 = Some s3) as E3.
  { unfold handled, Hook.on_event. rewrite Hf, Ht, decide_False, Hend by done. done. }
  split.
  - cbn [handled_all]. rewrite E1. cbn [mbind option_bind]. clear Hes Hend Hf E1. clearbody s1. revert s1 Hall. induction es as [|e es IH]; intros s1 Hall; cbn [handled_all app] in *.
    + injection Hall as ->. by rewrite E3.
    + apply bind_Some in Hall as (s1' & -> & Hall). by apply IH.
  - intros exit'. unfold handled, Hook.on_event, s3. cbn [snd]. by rewrite lookup_delete_eq.
Qed.
End pairing.

(** A command that an agent runs is recorded as the agent's. *)
Lemma agent_commands_are_agents st env command name intent h :
  normalize_optional_string (Some name) = Some name →
  make_starting_history st env command (Some name) (Some KindAgent) intent = Some h →
  h_author h = name ∧ h_author_kind h = Some KindAgent ∧ Entry.is_agent h = true.
Proof.
  intros Hn. unfold make_starting_history. destruct (non_nul _); [|done]. rewrite Hn. cbn [or_else]. destruct (saved st _); [|done].
  intros [= <-]. unfold Entry.captured, Entry.new, Entry.is_agent. cbn [h_author h_author_kind or_else]. rewrite ?Hn. cbn [or_else default]. by rewrite ?Hn.
Qed.

(** ** Installing *)

Section installing.
Context `{JsonObjectLaws} (hook_command matcher : string).

(** The entries of an event in the configuration of the hooks. *)
Definition event_hooks (hooks : Value) (t : string) : option (list Value) := v ← get hooks t; as_array v.

Lemma own_entry_calls : calls_hook hook_command (hook_entry hook_command matcher) = true.
Proof.
  unfold calls_hook, hook_entry. rewrite get_object, as_jobject. cbn [mbind option_bind].
  rewrite lookup_insert_ne, lookup_singleton_eq by done. cbn [mbind option_bind]. rewrite as_array_arr. cbn [existsb].
  rewrite get_object, as_jobject. cbn [mbind option_bind]. rewrite lookup_insert_ne, lookup_singleton_eq by done. cbn [mbind option_bind]. rewrite as_str_str.
  by rewrite bool_decide_eq_true_2.
Qed.

(** What a turn does to its event and to another. *)
Lemma add_hook_spec t hooks hooks' :
  add_hook hook_command matcher t hooks = Ok hooks' →
  (∃ arr, event_hooks hooks' t = Some (default [] (event_hooks hooks t) ++ arr) ∧ (length arr ≤ 1)%nat ∧
     existsb (calls_hook hook_command) (default [] (event_hooks hooks t) ++ arr) = true) ∧
  (∀ t', t' ≠ t → get hooks' t' = get hooks t').
Proof.
  unfold add_hook. destruct (as_object hooks) as [m|] eqn:Em; [|done]. destruct (as_array _) as [arr|] eqn:Ea; [|done]. intros [= <-].
  assert (default [] (event_hooks hooks t) = arr) as Ed.
  { unfold event_hooks. rewrite get_object, Em. cbn [mbind option_bind]. destruct (m !! t) as [v|]; cbn in Ea |- *; [by rewrite Ea|].
    rewrite as_array_arr in Ea. congruence. }
  split.
  - rewrite Ed. unfold event_hooks. rewrite get_object, as_jobject. cbn [mbind option_bind]. rewrite lookup_insert_eq. cbn [mbind option_bind]. rewrite as_array_arr.
    destruct (existsb (calls_hook hook_command) arr) eqn:Ex.
    + exists []. rewrite app_nil_r. split_and!; [done|cbn; lia|done].
    + exists [hook_entry hook_command matcher]. split_and!; [done|cbn; lia|]. rewrite existsb_app. cbn [existsb]. rewrite own_entry_calls. by rewrite orb_true_r.
  - intros t' Hne. rewrite !get_object, as_jobject, Em. cbn [mbind option_bind]. by rewrite lookup_insert_ne.
Qed.

(** A turn for an event that has the entry changes nothing. *)
Lemma add_hook_again t hooks arr :
  event_hooks hooks t = Some arr → existsb (calls_hook hook_command) arr = true → add_hook hook_command matcher t hooks = Ok hooks.
Proof.
  unfold event_hooks, add_hook. rewrite get_object. destruct (as_object hooks) as [m|] eqn:Em; [|done]. cbn [mbind option_bind].
  destruct (m !! t) as [v|] eqn:Ev; [|done]. cbn [default]. intros Ea Ex. cbn in *. rewrite Ea, Ex. f_equal. rewrite (arr_as_array _ _ Ea), insert_id by done.
  by apply jobject_as.
Qed.

Lemma add_hooks_spec ts hooks hooks' :
  NoDup ts → add_hooks hook_command matcher ts hooks = Ok hooks' →
  (∀ t, t ∈ ts → ∃ arr, event_hooks hooks' t = Some (default [] (event_hooks hooks t) ++ arr) ∧ (length arr ≤ 1)%nat ∧
     existsb (calls_hook hook_command) (default [] (event_hooks hooks t) ++ arr) = true) ∧
  (∀ t, t ∉ ts → get hooks' t = get hooks t) ∧ add_hooks hook_command matcher ts hooks' = Ok hooks'.
Proof.
  revert hooks. induction ts as [|t ts IH]; intros hooks Hnd Hadd.
  { injection Hadd as <-. split_and!; [by intros t ?%not_elem_of_nil|done..]. }
  apply NoDup_cons in Hnd as [Hnt Hnd]. cbn [add_hooks] in Hadd |- *. destruct (add_hook hook_command matcher t hooks) as [h1|e] eqn:E1; [|done].
  cbn [rbind] in Hadd. destruct (add_hook_spec t hooks h1 E1) as [(arr & Ha & Hl & Hx) Hother]. destruct (IH h1 Hnd Hadd) as (I1 & I2 & I3).
  assert (event_hooks hooks' t = event_hooks h1 t) as Et by (unfold event_hooks; by rewrite I2). split_and!.
  - intros t' [->|Ht']%elem_of_cons; [exists arr; by rewrite Et|]. assert (t' ≠ t) as Hne by (by intros ->).
    destruct (I1 t' Ht') as (arr' & Ha' & ?). exists arr'. unfold event_hooks in *. by rewrite <- (Hother t' Hne).
  - intros t' [Hne Ht']%not_elem_of_cons. by rewrite I2, Hother.
  - rewrite (add_hook_again t hooks' _ (eq_trans Et Ha) Hx). cbn [rbind]. done.
Qed.
End installing.

Section config.
Context `{JsonObjectLaws}.

(** Installing the hooks of an agent adds one entry to each event that has none with its command, after
    what is there, changes nothing else in the configuration, and changes nothing at all the second time. *)
Theorem install_adds_hook_once agent path hook_command matcher root root' :
  install_kind agent = JsonHooks path hook_command matcher → install_json agent root = Ok root' →
  let before t := default [] (h ← get root "hooks"; event_hooks h t) in
  (∀ t, t ∈ HOOK_EVENT_TYPES → ∃ hooks arr, get root' "hooks" = Some hooks ∧ event_hooks hooks t = Some (before t ++ arr) ∧ (length arr ≤ 1)%nat ∧
     existsb (calls_hook hook_command) (before t ++ arr) = true) ∧
  (∀ k, k ≠ "hooks" → get root' k = get root k) ∧
  (∀ t, t ∉ HOOK_EVENT_TYPES → (h ← get root' "hooks"; get h t) = (h ← get root "hooks"; get h t)) ∧
  install_json agent root' = Ok root'.
Proof.
  intros Hk Hi before. revert Hi. unfold install_json at 1. destruct (as_object root) as [m|] eqn:Em; [|done]. unfold add_hook_entries. rewrite Hk.
  set (hooks := default (jobject ∅) (m !! "hooks")). destruct (add_hooks _ _ _ hooks) as [hooks'|e] eqn:Ea; [|done]. intros [= <-].
  destruct (add_hooks_spec hook_command matcher HOOK_EVENT_TYPES hooks hooks') as (I1 & I2 & I3); [apply (bool_decide_unpack _); by vm_compute|done|].
  assert (∀ t, (h ← get root "hooks"; get h t) = get hooks t) as Hget.
  { intros t. rewrite get_object, Em. cbn [mbind option_bind]. unfold hooks. destruct (m !! "hooks"); [done|]. cbn [default mbind option_bind].
    rewrite get_object, as_jobject. cbn [mbind option_bind]. by rewrite lookup_empty. }
  assert (∀ t, before t = default [] (event_hooks hooks t)) as Hbefore.
  { intros t. unfold before, event_hooks. rewrite <- Hget. by destruct (get root "hooks"). }
  assert (get (jobject (<["hooks" := hooks']> m)) "hooks" = Some hooks') as Hh.
  { rewrite get_object, as_jobject. cbn [mbind option_bind]. by rewrite lookup_insert_eq. }
  rewrite Hh. split_and!.
  - intros t Ht. destruct (I1 t Ht) as (arr & ?). exists hooks', arr. by rewrite Hbefore.
  - intros k Hne. rewrite !get_object, as_jobject, Em. cbn [mbind option_bind]. by rewrite lookup_insert_ne.
  - intros t Ht. cbn [mbind option_bind]. by rewrite Hget, I2.
  - unfold install_json, add_hook_entries. rewrite as_jobject, Hk, lookup_insert_eq. change (default ?x (Some hooks')) with hooks'. rewrite I3. cbn [rbind]. by rewrite insert_insert_eq.
Qed.
End config.

(** ** Examples *)

Module HookDemo.
Import IndexDemo ToyPack DaemonDemo CommandDemo.

(** Objects whose keys are in order. *)
Definition canon (l : list (string * jtree)) : Prop := NoDup (fst <$> l) ∧ sort_by_key id (fst <$> l) = fst <$> l.
Definition object (v : jtree) : option (gmap string jtree) :=
  match v with JObj l => if decide (canon l) then Some (list_to_map l) else None | _ => None end.
#[local] Instance ordered_json : Json := {|
  Value := jtree; get v k := m ← object v; m !! k; as_str := as_str (Json := toy_json); as_u64 := as_u64 (Json := toy_json);
  as_i64 := as_i64 (Json := toy_json); as_bool := as_bool (Json := toy_json); as_array := as_array (Json := toy_json);
  is_null := is_null (Json := toy_json); jnull := JNull; jstr := JStr; jnum := JNum; jbool := JBool; jarr := JArr; jobj := JObj;
  to_json := to_json (Json := toy_json); from_json := from_json (Json := toy_json)
|}.
#[local] Instance ordered_object : JsonObject := {| as_object := object; jobject m := JObj (sort_by_key fst (map_to_list m)) |}.

Lemma canon_sorted (l : list (string * jtree)) : canon l → sort_by_key fst l = l.
Proof.
  intros [_ Hs]. unfold sort_by_key. apply sort_by_sorted_id. pose proof (sort_by_key_sorted id (fst <$> l)) as Ho. rewrite Hs in Ho.
  clear Hs. induction l as [|x l IH]; [constructor|]. apply StronglySorted_inv in Ho as [Ho Hall]. constructor; [by apply IH|].
  apply Forall_fmap in Hall. exact Hall.
Qed.

Lemma sorted_image {A B} (f : A → B) (R : B → B → Prop) (l : list A) : StronglySorted (λ x y, R (f x) (f y)) l → StronglySorted R (f <$> l).
Proof. induction 1 as [|x l Hs IH Hall]; [constructor|]. rewrite fmap_cons. constructor; [done|]. by apply Forall_fmap. Qed.

#[local] Instance ordered_object_laws : JsonObjectLaws.
Proof.
  split.
  - intros m. cbn [as_object jobject ordered_object object]. set (l := sort_by_key fst (map_to_list m)).
    assert (l ≡ₚ map_to_list m) as Hp by (unfold l, sort_by_key; apply sort_by_perm).
    assert (NoDup (fst <$> l)) as Hn by (rewrite Hp; apply NoDup_fst_map_to_list). rewrite decide_True.
    + f_equal. etrans; [by apply list_to_map_proper|]. apply list_to_map_to_list.
    + split; [done|]. unfold l, sort_by_key. apply sort_by_sorted_id, sorted_image. apply (sort_by_key_sorted fst (map_to_list m)).
  - intros v m. cbn [as_object jobject ordered_object]. destruct v as [| | | |l|l]; try done. cbn [object]. destruct (decide (canon l)) as [Hc|]; [|done].
    intros [= <-]. f_equal. rewrite <- (canon_sorted l Hc) at 2. apply sort_by_key_unique_on.
    + intros x y Hx Hy E. rewrite map_to_list_to_map in Hx, Hy by apply Hc. eapply NoDup_fmap_eq; [apply Hc|done..].
    + apply map_to_list_to_map, Hc.
  - done.
  - intros v l. destruct v; try done. by intros [= <-].
  - done.
  - done.
Qed.

(** A configuration with a setting and a hook of its own. *)
Definition own_hook : jtree := JObj [("hooks", JArr [JObj [("command", JStr "lint"); ("type", JStr "command")]]); ("matcher", JStr "Edit")].
Definition config : jtree := JObj [("hooks", JObj [("PreToolUse", JArr [own_hook]); ("Stop", JArr [])]); ("model", JStr "m")].
Definition installed : jtree :=
  let entry := hook_entry "atuin hook claude-code" "Bash" in
  JObj [("hooks", JObj [("PostToolUse", JArr [entry]); ("PostToolUseFailure", JArr [entry]); ("PreToolUse", JArr [own_hook; entry]); ("Stop", JArr [])]);
        ("model", JStr "m")].

Lemma install_adds_hook_once_witness :
  install_json CLAUDE_CODE config = Ok installed ∧ install_json CLAUDE_CODE installed = Ok installed ∧ get installed "model" = Some (JStr "m").
Proof.
  assert (install_json CLAUDE_CODE config = Ok installed) as E by (by vm_compute). split; [exact E|].
  destruct (@install_adds_hook_once ordered_json ordered_object ordered_object_laws CLAUDE_CODE [".claude"; "settings.json"] "atuin hook claude-code" "Bash" config installed eq_refl E) as (_ & Hk & _ & Hagain).
  split; [exact Hagain|]. etrans; [by apply Hk|]. by vm_compute.
Defined.

(** Two tool uses that overlap, on a client without the daemon. *)
Definition call (n : nat) : Env := mk_env (mk_probe (Some "s") None None origin "x" (String.append "h" (if (n =? 0)%nat then "0" else "1"))) (Z.of_nat n + 10) "/src" (Some "zsh") None.
#[local] Instance recorder : Recorder (nat * Client) CmdError :=
  direct_recorder Toy.key1 2 10 id no_entropy (λ r _, no_entropy r) settings call draws (λ n, Z.of_nat n + 20) (λ _, Ok false) (λ _, Ok tt).
Definition meanwhile : list HookEvent := [HookStart "ls" None "u2"; HookEnd "u2" 0].
Definition first : nat * Client := (0%nat, client []).
Definition started : nat * Client := (1%nat, (handle_start settings (call 0) "make" (Some "codex") (Some KindAgent) (Some "build") (client [])).1).
Definition between : (nat * Client) * gmap string string :=
  default (first, ∅) (handled_all "/tmp" CODEX meanwhile (started, {["/tmp/atuin-hook-u1" := "h0"]})).
Definition finished : nat * Client := default first (fst <$> end_entry "h0" 0 None between.1).

Lemma hook_ends_what_it_started_witness :
  handled_all "/tmp" CODEX (HookStart "make" (Some "build") "u1" :: meanwhile ++ [HookEnd "u1" 0]) (first, ∅) = Some (finished, ∅) ∧
  handled "/tmp" CODEX (HookEnd "u1" 1) (finished, ∅) = Some (finished, ∅) ∧
  (λ h, (h_command h, h_author h, h_exit h)) <$> c_db finished.2 = [("make", "codex", 0); ("ls", "codex", 0)].
Proof.
  destruct (hook_ends_what_it_started "/tmp" CODEX "make" (Some "build") "u1" "h0" started (first, ∅) meanwhile between finished (Ok tt) 0) as [Hall Hagain];
    [by vm_compute|done|done|repeat constructor; done|by vm_compute|by vm_compute|].
  assert (delete (id_file_path "/tmp" "u1") between.2 = ∅) as E by (by vm_compute). rewrite E in Hall, Hagain.
  split; [exact Hall|]. split; [exact (Hagain 1)|]. by vm_compute.
Defined.
End HookDemo.
